(* ===== verification/_CoqProject ===== *)
-Q . S2P
Prelude.v
Uint128.v
Bytes.v
Cstd.v
Parser.v
PcgExtras.v
PcgEngine.v
PcgTypes.v
CosimUtil.v
Device.v
Memmap.v
Mem.v
Clint.v
Aclint.v
Htif.v
SmallDevices.v
BusErrorList.v
AddressMap.v
BridgeIsa.v
HwFifo.v
DelayResp.v
Axi.v
Eam.v
AxiSlave.v
AxiSw.v
Subdevice.v
Dma.v
IoCoh.v
Debugger.v
TrickboxDevs.v
Trickbox.v
SwFifo.v
Sysmod.v
SysmodMem.v
AxiMst.v
MmrRouter.v
McmiSplit.v
Mcmi.v
McmiTrace.v
Eot.v
WhisperClient.v
BridgeMcm.v
BridgeIntr.v
RvfiLog.v
Rvfi.v
CosimSv.v
CosimLink.v
BridgeCsr.v
BridgeCore.v
BridgeCheck.v
BridgeSteps.v
Compose.v
