(* ===== verification/Prelude.v ===== *)
(** * rv_tester: verification development (root file)

    rv_tester is a testbench for RISC-V cores.  A design under test is connected
    to it by AXI ports; behind them a software _system model_ (sysmod) plays
    memory and devices, and a co-simulation part compares the design with the
    reference simulator Whisper.  This library models the system model with its
    devices, the AXI subordinate and manager with their hardware interface, and
    the path of retired instructions, memory-order, interrupt and CSR events to
    the simulator, the end of a test, and the random generators the testbench draws from.
    Paths below are under src/src/.

    ** Parts and how they interact

    A transaction of the design enters the hardware half of the AXI transactor
    (transactors/axi_sw/axi_sw.sv) and its C++ half ([axi_sw]), which may
    reorder requests in a window, and reaches the AXI subordinate ([axi],
    transactors/axi_sw/axi.cpp).  That asks the exclusive access monitor
    ([eam]) for a verdict, splits the burst into beats and calls the
    transactor interface (common/transactor.h).  The system model
    ([sysmod], sysmod/sysmod.cpp) decodes the address and signals the device
    whose window contains it (sysmod/device.h); the device answers with the id
    of the request, and the answer goes back through [axi_sw] to the hardware
    FIFOs.  Devices that talk back to the design (ACLINT broadcasts, APLIC
    messages, debug module, MMR router) send requests to the AXI manager
    ([axi_sw_mst]).  The devices are built from a memory map
    (common/memmap.h) by [sysmod::compose].

    On the co-simulation side the retirement interface ([rvfi],
    cosim/dut_if/rvfi) receives what the design retires, its traps and
    interrupts, and the memory-consistency interface ([mcmi],
    cosim/dut_if/mcmi) its memory events; both hand them to the bridge
    (cosim/bridge), and bridge and [mcmi] tell the simulator through the Whisper client (cosim/whisper_if).  End-of-test
    detection (cosim/utils/eot) counts instructions, decides when a test is
    over and compares memory with the simulator's.  Event triggers and
    trickbox helpers draw from a PCG generator (common/pcg_*.hpp).

    ** Files

    - Prelude: machine integers, record update, tactics, shared lemmas.
    - Bytes: little-endian codecs ([serializeInt], [deserializeInt]).
    - Cstd: the parts of the C++ library the sources use on strings
      ([std::stoull], [strtoull], [std::getline], decimal output).
    - Uint128, PcgExtras, PcgEngine, PcgTypes: common/pcg_uint128.hpp,
      pcg_extras.hpp and pcg_random.hpp; wide integers, support code, the
      engines and the predefined types.
    - Parser: common/parser.hpp.
    - CosimUtil: cosim/utils/general/util.cc.
    - Device: common/transactor.h and sysmod/device.h; the class [Device] is the
      interface between the system model and its devices, [event] what a
      handler does to the rest of the testbench.
    - Memmap: common/memmap.h.     - Mem: sysmod/mem, sysmod/io_dev.
    - Clint: sysmod/clint.         - Aclint: sysmod/aclint with its
      SystemVerilog half (aclint.sv).
    - Htif: sysmod/htif.           - SmallDevices: heartbeat, null device,
      entropy FIFO, APLIC and Whisper device wrappers, debug module bridge.
    - BusErrorList: common/bus_error_list.h.
    - AddressMap: common/device_address_map.
    - HwFifo: the FIFOs of axi_sw.sv and rv_tester_lib.sv.
    - Axi: channel types and atomics of axi.h and axi.cpp, safe_queue.h.
    - Eam: transactors/axi_sw/eam.{hpp,cpp}.
    - AxiSlave: class [axi] of transactors/axi_sw/axi.{h,cpp}.
    - AxiSw: class [axi_sw] of transactors/axi_sw/axi_sw.{h,cpp}.
    - Subdevice, Dma, IoCoh, Debugger, TrickboxDevs, Trickbox: sysmod/trickbox;
      the class [Subdevice] of its parts, the bulky ones, the others, and the
      dispatch.
    - SwFifo: a response channel of [axi_sw] joined to its hardware FIFO.
    - Sysmod, SysmodMem: sysmod/sysmod.{h,cpp} but for [compose].
    - AxiMst: transactors/axi_sw/axi_sw_mst.h.
    - MmrRouter: sysmod/mmr_txn_router.
    - McmiSplit, Mcmi, McmiTrace: cosim/dut_if/mcmi; byte masks, handlers, and
      the contracts over whole runs.
    - RvfiLog, Rvfi: cosim/dut_if/rvfi with the structs of bridge/bridge_if.h;
      the retirement log, and the interface.
    - Eot: cosim/utils/eot, cosim/utils/sot and the memory dumps of
      cosim/utils/memdump.
    - WhisperClient: cosim/whisper_if/whisper_client.cpp.
    - BridgeMcm, BridgeIntr, BridgeCsr, BridgeIsa, BridgeCore, BridgeCheck,
      BridgeSteps: cosim/bridge; memory events, interrupts, CSR write masks,
      instruction predicates, the step-and-compare loop and its theorems,
      catching up after dropped reports.
    - Compose: [sysmod::compose] and [create_aplic].

    ** How the code is represented

    Unsigned integers are [Z] with the wrap-around of their type written out
    ([u8] to [u64]).  A class is a record; a handler is a function from its
    state to the new state and the events it issues, in order; BridgeIntr, where
    calls of the simulator alternate with changes of the bridge, uses a state
    monad with weakest preconditions, and BridgeCore one with exceptions.  Logging below ERROR has no effect and is
    left out; [cvm::log(cvm::ERROR, ...)], which fails a test, is an event or a
    count.  Exceptions, null dereferences and failed assertions are values of
    an option or outcome type.  A coroutine that waits for a response that does
    not come is the outcome [Waiting].  Access outside a vector, undefined in
    C++, reads 0 and writes nothing ([at_z], [at_b]).

    Third-party code is a parameter: the memory store ([MemManager] with the
    laws [MemManagerLaws], instance [flat_mem_laws]), the Whisper server behind the
    client (its answer function, and for interrupts [Iss] with [IssLaws],
    instance [mini_laws]; for stepping [IssExec] with [IssRegs], instance
    [toy_regs]), the architecture checker ([Cac] with [CacLaws], instance
    [flat_laws]), JSON values, file contents, random sources ([rng],
    [Entropy]), the framework's [slice], the APLIC and UART devices.  Between
    components, [Device] with [DeviceLaws] and [AxiPort] with [AxiPortLaws]
    state what one promises to another.

    ** What is shown

    - System model: bus accesses reach exactly the addressed device and are
      answered once ([sysmod_routes_write], [sysmod_routes_read]); the device
      table [compose] builds, and every later registration, decodes addresses
      unambiguously ([compose_inv], [add_devices_inv]); an unmapped access is
      never answered ([sysmod_unmapped_unanswered]); time is conserved
      ([tick_conserves_time]); backdoor writes are read back
      ([backdoor_roundtrip]); the reference simulator's memory is poked with
      the right bytes ([inval_crsp_pokes_line], [inval_load_pokes]); the
      default pattern of uninitialised memory does not depend on access size
      ([uninit_pattern_consistent]).
    - AXI subordinate: responses are complete and in order ([axi_responses]),
      beat addresses follow the AXI address equations ([axi_burst_addresses]),
      bytes land on their lanes ([axi_write_lanes]), atomics compute the AXI5
      operation ([atop_modify_spec]); exclusive accesses are sound and live
      ([eam_exclusive_sound], [eam_exclusive_live]); error injection follows
      the configured lists and policies ([bel_find_complete], [bel_policy]).
    - AXI hardware interface: reordering keeps the order of requests with equal
      ids and loses nothing ([sw_reorder_sound], [sw_response_order]), the
      window drains ([sw_flush_drains]), drawn latencies stay in their bounds
      ([sw_latency_bounds]); a response channel is first-in first-out across
      the language boundary however late pointers are reported
      ([response_channel_fifo]); [rv_tester_fifo] refines a queue
      ([rv_fifo_refines_queue]).
    - AXI manager: ids in flight are distinct ([mst_ids_unique]), each channel
      is first-in first-out ([mst_channels_fifo]), hardware FIFOs are not
      overrun ([mst_no_overflow]), write bytes travel on their lanes
      ([mst_write_lanes]); accesses the MMR router splits are put together
      again ([mmr_read_correct], [mmr_write_correct]).
    - Devices: interrupt levels follow the registers ([clint_levels_track],
      [aclint_mtip_tracks_mirror]); register accesses of every width
      ([clint_write_reg64], [aclint_cmp_window], [aclint_mtime_write]);
      end-of-test protocol ([htif_tohost_all], [htif_hart_termination]);
      memory and ELF loading ([sysmod_mem_read_after_write],
      [sysmod_mem_write_frame], [load_elf_image]); snapshots
      ([clint_snapshot_roundtrip]); heartbeat and entropy streams.
    - Trickbox: an access reaches exactly the part whose window it is in
      ([trickbox_decodes]); programming a transfer puts the programmed bytes on
      the bus and in the simulator's memory ([dma_write_transfer],
      [dma_read_transfer], [ioc_write_program], [ioc_read_program],
      [uc_transfer_mirrors]); a debug script is sent request by request
      ([dbg_file_driven]), and triggers answer checkpoints
      ([dbg_triggers_match]); shadow registers and request wires
      ([eam_helper_shadows], [debug_req_tracks], [ras_both_ways]).
    - Memory map and address map: accepted maps are disjoint
      ([parse_entries_disjoint]), range queries ([in_range_excludes_last],
      [in_range_prefix_complete]), address round trips
      ([extract_generate_cluster], [is_internal_generate]).
    - Memory-consistency interface: its state stays well formed
      ([mcmi_run_wf]), tags of the patch routine are renamed to the triggering
      instruction ([patch_tags_renamed]), the simulator's code lines are fresh
      ([code_snapshot_fresh]), atomics compute what the memory must hold
      ([mcmi_amo_emulated]), store-conditionals are forwarded iff they succeed
      ([mcmi_sc_forwarding]); an event arrives in the simulator with exactly
      its bytes ([mcm_reaches_whisper]).
    - Retirement interface: the bridge hears of each instruction once, with the
      changes of exactly its micro-operations ([rvfi_refines]); in patch mode
      it carries the tag of the trigger ([patch_tags]); after termination
      nothing is passed on ([terminated_silent]).
    - Bridge: an instruction it finds no difference in had the same address,
      mode and results on both sides ([retire_agrees]); a difference is reported
      unless there is a reason not to ([compare_verdict]), and then the
      simulator gets the design's results ([resynch_restores]); exceptions are
      compared exactly ([exception_check_exact]), satp writes delayed
      ([satp_delayed]); reported interrupts never make the simulator take one by itself
      ([async_quiet]) and a trap of the design is made takable there
      ([trap_step_selects]); the check after a step reports exactly the
      mismatches ([intr_check_reports]); CSR writes stay legal
      ([csr_write_legal]); catching up steps the right number of times
      ([catch_up_steps]); generated code loads the constant it is meant to
      ([move_value_correct]).
    - End of test: a test ends for a reason and once ([eot_ends_once]), starts
      once ([sot_starts_once]); memory is compared line by line
      ([eot_memory_compared]); dumps hold what memory holds ([memdump_exact]).
    - Plusargs: lists of ranges are found again ([pair_map_find]).
    - Random generators: the emulated 128-bit integer computes modulo 2^128
      ([x4_operators], [x4_64_generic], [divmod_exact], [bit_counts_exact]);
      engines have their full period ([engine_period]), jump
      ([engine_jumps]), are compared ([engine_difference]) and printed
      ([engine_text_roundtrip], [pcg128_roundtrip]) exactly; output functions
      are inverted ([unoutput_inverts], [unxorshift_inverts]); bounded draws
      are uniform ([bounded_rand_uniform]), shuffles permute
      ([shuffle_permutes]), seeding copies bytes ([generate_to_memcpy]); the
      header's types meet what this asks ([predefined_engines]) and its
      extended generators are total ([extended_safe]).

    Some theorems record behaviour that departs from a comment or from what is
    evidently meant: the last byte of a range is outside it, an unmapped
    access is not answered, fixed device windows may exceed their map entry
    (lemma [compose_fixed_window_overlap]), atomics of the manager lose their
    encoding (lemma [mst_atop_not_decoded]), wide reads of the trickbox DMA
    reverse the bytes of each word (lemma [dma_wide_mirror]), its bursts never
    write ([ioc_bursts_only_read]), the deferral of NMIs is never
    lifted after a return (lemma [retire_unset]), reading a 128-bit number can
    miss an overflow (lemma [read128_misses_overflow]), advancing an extended
    generator can step its table where draws would not (lemmas
    [advance_table_zero_entry] and [advance_nothing_tocks]), a test for
    vector instructions never holds ([vec_reg_whole_reg_never]) and masks of
    hypervisor bits miss them ([hyp_masks_miss]).

    ** Bounds and fuel

    Loops of the source are structural recursions on the data or on the number
    of iterations.  These take fuel: [dec_go], 20 digits for a 64-bit number;
    [sizes_from] and [ctz], 32 steps for a 32-bit size; [countr_zero_from], 64
    bits; [split_from], one more than the length of the string, which every token but the
    last shortens when the delimiter is not empty; the split loops of the MMR
    router, one beat more than the transfer needs (shown enough by the
    router's theorems); [skip_orders], one more than the number of tags there
    are to skip (shown enough by [catch_up_steps]); the division loops,
    4w + 1 halvings and 12w + 4 rounds for words of w bits (shown enough by
    [divmod_exact]); [unxorshift] and [distance_loop], the bits of the type
    (shown enough by [unxorshift_inverts] and [engine_difference]);
    [print_digits], the 39 characters of its buffer.  [Z.to_nat] of a beat
    count or address range is the number itself.

    ** Not modelled

    Interrupt stimulus, performance counters and triggers.  JTAG and
    debug-transport glue, shell commands and the SystemVerilog
    top level are I/O and wiring; the DPI header is third-party. *)

From stdpp Require Export base numbers strings gmap list_numbers list.

(** ** Machine integers

    C++ fixed-width unsigned integers are modelled by [Z] with the wrap-around
    of the type written out where an operation can leave the range. *)

Declare Scope rvt_scope.
Delimit Scope rvt_scope with rvt.
#[global] Open Scope Z_scope.
#[global] Open Scope rvt_scope.

Definition u8 (x : Z) : Z := x mod 2 ^ 8.
Definition u16 (x : Z) : Z := x mod 2 ^ 16.
Definition u32 (x : Z) : Z := x mod 2 ^ 32.
Definition u64 (x : Z) : Z := x mod 2 ^ 64.

(** [~x] on a 64-bit operand. *)
Definition not64 (x : Z) : Z := Z.lxor x (Z.ones 64).

Definition is_u8 (x : Z) : Prop := 0 ≤ x < 2 ^ 8.
Definition is_u32 (x : Z) : Prop := 0 ≤ x < 2 ^ 32.
Definition is_u64 (x : Z) : Prop := 0 ≤ x < 2 ^ 64.

Notation "a &&& b" := (Z.land a b) (at level 40, left associativity) : rvt_scope.
Notation "a ||| b" := (Z.lor a b) (at level 50, left associativity) : rvt_scope.
Notation "a ^^^ b" := (Z.lxor a b) (at level 50, left associativity) : rvt_scope.

(** ** Record update

    [r <| f := v |>] replaces field [f] of record [r]; a record type opts in
    by giving its eta-expansion as an [Eta] instance. *)

Class Eta (R : Type) := eta : R → R.
Class Setter {R T : Type} (get : R → T) := modify : (T → T) → R → R.

Ltac derive_setter :=
  lazymatch goal with
  | |- @Setter ?R ?T ?get =>
      let inst := constr:(_ : Eta R) in
      let e := eval hnf in inst in
      let r := fresh "r" in
      let g := fresh "g" in
      refine (fun (g : T → T) (r : R) => _);
      let body := eval cbv beta in (e r) in
      let abs := eval pattern (get r) in body in
      lazymatch abs with
      | ?F _ => let res := eval cbv beta in (F (g (get r))) in exact res
      end
  end.
#[export] Hint Extern 1 (Setter _) => derive_setter : typeclass_instances.

#[warnings="-postfix-notation-not-level-1"]
Notation "r <| f := v |>" := (modify (get := f) (fun _ => v) r)
  (at level 12, left associativity, f at level 0) : rvt_scope.
#[warnings="-postfix-notation-not-level-1"]
Notation "r <| f ::= g |>" := (modify (get := f) g r)
  (at level 12, left associativity, f at level 0) : rvt_scope.

(** ** Tactics *)

(** Case analysis on the scrutinee of the innermost [match]/[if] of the goal
    or of a hypothesis, keeping the equation. *)
Ltac dmatch :=
  match goal with
  | |- context [match ?x with _ => _ end] =>
      lazymatch x with context [match _ with _ => _ end] => fail | _ => destruct x eqn:? end
  | H : context [match ?x with _ => _ end] |- _ =>
      lazymatch x with context [match _ with _ => _ end] => fail | _ => destruct x eqn:? end
  end.

(** Turn boolean comparisons of hypotheses and goal into propositions. *)
Ltac zbool :=
  repeat match goal with
  | H : (_ && _) = true |- _ => apply andb_true_iff in H as [? ?]
  | H : (_ || _) = false |- _ => apply orb_false_iff in H as [? ?]
  | H : negb _ = true |- _ => apply negb_true_iff in H
  | H : negb _ = false |- _ => apply negb_false_iff in H
  | H : (_ <? _)%Z = true |- _ => apply Z.ltb_lt in H
  | H : (_ <? _)%Z = false |- _ => apply Z.ltb_ge in H
  | H : (_ <=? _)%Z = true |- _ => apply Z.leb_le in H
  | H : (_ <=? _)%Z = false |- _ => apply Z.leb_gt in H
  | H : (_ =? _)%Z = true |- _ => apply Z.eqb_eq in H
  | H : (_ =? _)%Z = false |- _ => apply Z.eqb_neq in H
  | H : (_ <? _)%nat = true |- _ => apply Nat.ltb_lt in H
  | H : (_ <? _)%nat = false |- _ => apply Nat.ltb_ge in H
  | H : (_ <=? _)%nat = true |- _ => apply Nat.leb_le in H
  | H : (_ <=? _)%nat = false |- _ => apply Nat.leb_gt in H
  | H : (_ =? _)%nat = true |- _ => apply Nat.eqb_eq in H
  | H : (_ =? _)%nat = false |- _ => apply Nat.eqb_neq in H
  end.

Create HintDb rvt discriminated.
#[export] Hint Constants Opaque : rvt.

(** ** Machine-integer lemmas *)

Lemma u64_range x : is_u64 (u64 x).
Proof. apply Z.mod_pos_bound. lia. Qed.

Lemma u32_range x : is_u32 (u32 x).
Proof. apply Z.mod_pos_bound. lia. Qed.

Lemma u8_range x : is_u8 (u8 x).
Proof. apply Z.mod_pos_bound. lia. Qed.

Lemma u64_small x : is_u64 x → u64 x = x.
Proof. apply Z.mod_small. Qed.

Lemma u32_small x : is_u32 x → u32 x = x.
Proof. apply Z.mod_small. Qed.

#[export] Hint Resolve u64_range u32_range u8_range : rvt.

Lemma land_ff x : x &&& 0xff = x mod 2 ^ 8.
Proof. change 0xff with (Z.ones 8). apply Z.land_ones. lia. Qed.

Lemma land_ff_u8 x : is_u8 (x &&& 0xff).
Proof. rewrite land_ff. apply u8_range. Qed.
#[export] Hint Resolve land_ff_u8 : rvt.

Lemma land_1 x : x &&& 1 = 0 ∨ x &&& 1 = 1.
Proof.
  pose proof (Z.land_ones x 1 ltac:(lia)) as H. change (Z.ones 1) with 1 in H.
  pose proof (Z.mod_pos_bound x (2 ^ 1) ltac:(lia)). lia.
Qed.

Lemma testbit_above x n i : 0 ≤ x < 2 ^ n → 0 ≤ n ≤ i → Z.testbit x i = false.
Proof.
  intros Hx Hi. destruct (decide (x = 0)) as [->|Hne]; [apply Z.bits_0|].
  apply Z.bits_above_log2; [lia|].
  apply Z.lt_le_trans with n; [|lia]. apply Z.log2_lt_pow2; lia.
Qed.

(** Disjoint bit fields: or-ing is adding. *)
Lemma lor_shiftl_add a b n :
  0 ≤ n → 0 ≤ a < 2 ^ n → a ||| (b ≪ n) = a + b * 2 ^ n.
Proof.
  intros Hn Ha. rewrite <- Z.shiftl_mul_pow2 by lia.
  symmetry. apply Z.add_nocarry_lor.
  apply Z.bits_inj'; intros i Hi; rewrite Z.land_spec, Z.bits_0;
    destruct (decide (i < n));
    [rewrite Z.shiftl_spec_low by lia; apply andb_false_r
    |rewrite (testbit_above a n i) by lia; done].
Qed.

Lemma u64_offset b o : 0 ≤ o < 2 ^ 64 → u64 (u64 (b + o) - b) = o.
Proof.
  intros Ho. unfold u64. rewrite Zminus_mod_idemp_l.
  replace (b + o - b) with o by lia. by apply Z.mod_small.
Qed.

(** Clearing the low three bits of a 64-bit address. *)
Lemma land_not7 x : is_u64 x → x &&& not64 7 = x - x mod 8.
Proof.
  intros Hx. change (not64 7) with (Z.ones 61 ≪ 3).
  assert (x &&& (Z.ones 61 ≪ 3) = (x ≫ 3) ≪ 3) as ->.
  { apply Z.bits_inj'. intros i Hi. rewrite Z.land_spec, !Z.shiftl_spec by lia.
    destruct (decide (i < 3)).
    - rewrite !(Z.testbit_neg_r _ (i - 3)) by lia. apply andb_false_r.
    - rewrite Z.shiftr_spec by lia. replace (i - 3 + 3) with i by lia.
      destruct (decide (i < 64)).
      + rewrite Z.ones_spec_low by lia. apply andb_true_r.
      + by rewrite (testbit_above x 64 i) by (unfold is_u64 in *; lia). }
  rewrite Z.shiftl_mul_pow2, Z.shiftr_div_pow2 by lia. change (2 ^ 3) with 8.
  pose proof (Z.div_mod x 8 ltac:(lia)). lia.
Qed.

(** Clearing the low [k] bits. *)
Lemma land_not_ones x k :
  is_u64 x → 0 ≤ k ≤ 64 → x &&& not64 (2 ^ k - 1) = x - x mod 2 ^ k.
Proof.
  intros Hx Hk. replace (2 ^ k - 1) with (Z.ones k) by (rewrite Z.ones_equiv; lia).
  assert (x &&& not64 (Z.ones k) = (x ≫ k) ≪ k) as ->.
  { apply Z.bits_inj'. intros i Hi. unfold not64. rewrite Z.land_spec, Z.lxor_spec, Z.shiftl_spec by lia.
    destruct (decide (i < k)).
    - rewrite !Z.ones_spec_low by lia. rewrite (Z.testbit_neg_r _ (i - k)) by lia. apply andb_false_r.
    - rewrite (Z.ones_spec_high k), Z.shiftr_spec by lia. replace (i - k + k) with i by lia.
      destruct (decide (i < 64)).
      + rewrite Z.ones_spec_low by lia. apply andb_true_r.
      + by rewrite (testbit_above x 64 i) by (unfold is_u64 in *; lia). }
  rewrite Z.shiftl_mul_pow2, Z.shiftr_div_pow2 by lia.
  pose proof (Z.div_mod x (2 ^ k)). lia.
Qed.

Lemma land_4 x : negb (x &&& 4 =? 0) = (4 <=? x mod 8).
Proof.
  assert (x &&& 4 = (x mod 8) &&& 4) as ->.
  { change 8 with (2 ^ 3). rewrite <- Z.land_ones by lia. by rewrite <- Z.land_assoc. }
  pose proof (Z.mod_pos_bound x 8 ltac:(lia)) as H.
  assert (∃ k : nat, (k < 8)%nat ∧ x mod 8 = Z.of_nat k) as (k & Hk & ->)
    by (exists (Z.to_nat (x mod 8)); lia).
  do 8 (destruct k as [|k]; [reflexivity|]). lia.
Qed.

(** ** List lemmas shared by the components *)

Lemma insert_app_drop {A} (l : list A) i x :
  (i < length l)%nat → <[i:=x]> l = take i l ++ x :: drop (S i) l.
Proof. intros. by apply insert_take_drop. Qed.

Lemma Forall_insert_pred {A} (P : A → Prop) (l : list A) i x :
  Forall P l → P x → Forall P (<[i:=x]> l).
Proof. intros. by apply Forall_insert. Qed.

(** [v[i]] on a vector: in range the element, out of range (undefined
    behaviour in C++) 0 or [false]. *)
Definition at_z (l : list Z) (i : nat) : Z := default 0 (l !! i).
Definition at_b (l : list bool) (i : nat) : bool := default false (l !! i).

Lemma at_z_Some l i x : l !! i = Some x → at_z l i = x.
Proof. unfold at_z. by intros ->. Qed.

Lemma at_b_Some l i x : l !! i = Some x → at_b l i = x.
Proof. unfold at_b. by intros ->. Qed.

Lemma at_z_u8 l i : Forall is_u8 l → is_u8 (at_z l i).
Proof.
  intros HF. unfold at_z. destruct (l !! i) eqn:E; simpl; [|done].
  by eapply Forall_lookup_1.
Qed.
#[export] Hint Resolve at_z_u8 : rvt.

Lemma at_z_insert_eq l i x : (i < length l)%nat → at_z (<[i:=x]> l) i = x.
Proof. intros. apply at_z_Some. by apply list_lookup_insert_eq. Qed.

Lemma at_z_insert_ne l i j x : i ≠ j → at_z (<[i:=x]> l) j = at_z l j.
Proof. intros. unfold at_z. by rewrite list_lookup_insert_ne. Qed.

Lemma at_z_app_l l k i : (i < length l)%nat → at_z (l ++ k) i = at_z l i.
Proof. intros. unfold at_z. by rewrite lookup_app_l. Qed.

Lemma at_z_app_r l k i : (length l ≤ i)%nat → at_z (l ++ k) i = at_z k (i - length l).
Proof. intros. unfold at_z. by rewrite lookup_app_r. Qed.

Lemma at_b_replicate n b i : (i < n)%nat → at_b (replicate n b) i = b.
Proof. intros. apply at_b_Some. by apply lookup_replicate_2. Qed.

Lemma at_z_replicate n x i : (i < n)%nat → at_z (replicate n x) i = x.
Proof. intros. apply at_z_Some. by apply lookup_replicate_2. Qed.

(** Decision procedure for byte lists, for evaluation on concrete inputs. *)
Definition bytes_ok (l : list Z) : bool := forallb (λ b, (0 <=? b) && (b <? 256)) l.

Lemma bytes_ok_u8 l : bytes_ok l = true → Forall is_u8 l.
Proof.
  induction l as [|b l IH]; [by constructor|]. unfold bytes_ok. simpl. intros H.
  apply andb_true_iff in H as [H ?]. zbool. constructor; [split; lia|by apply IH].
Qed.
