(* ===== verification/Uint128.v ===== *)
(** * Uint128: emulated wide integers (src/common/pcg_uint128.hpp)

    [uint_x4<UInt, UIntX2>] is an integer of four words of [w] bits, also seen
    as two of 2[w] bits; [pcg128_t] is the instance with 32-bit words where the
    compiler has no 128-bit type.  The word width is the parameter [w]; the
    operators below are the generic templates, those with suffix [_64] the
    specialisations for 64-bit halves.  The layout is the little-endian one.

    Compiler intrinsics ([__builtin_clz], [__builtin_ctz], [__uint128_t]) have
    their documented meaning; the bit-twiddling replacements for other
    compilers are [flog2_32] and [trailingzeros_32]. *)

From S2P Require Import Prelude.

(** An unsigned integer of [n] bits. *)
Definition wrap (n x : Z) : Z := x mod 2 ^ n.
Definition is_word (n x : Z) : Prop := 0 ≤ x < 2 ^ n.

(** ** Bit counts *)

(** [31 - __builtin_clz(v)], and the 64-bit version. *)
Definition flog2 (v : Z) : Z := Z.log2 v.

(** [__builtin_ctz(v)]: the lowest set bit among [n]. *)
Fixpoint ctz_from (n : nat) (i v : Z) : Z :=
  match n with
  | O => i
  | S n => if Z.testbit v i then i else ctz_from n (i + 1) v
  end.
Definition trailingzeros (n : nat) (v : Z) : Z := ctz_from n 0 v.

Definition flog2_table : list Z :=
  [0; 9; 1; 10; 13; 21; 2; 29; 11; 14; 16; 18; 22; 25; 3; 30;
   8; 12; 20; 28; 15; 17; 24; 7; 19; 27; 23; 6; 26; 5; 4; 31].
Definition flog2_32 (v : Z) : Z :=
  let v := v ||| (v ≫ 1) in
  let v := v ||| (v ≫ 2) in
  let v := v ||| (v ≫ 4) in
  let v := v ||| (v ≫ 8) in
  let v := v ||| (v ≫ 16) in
  at_z flog2_table (Z.to_nat (u32 (v * 0x07C4ACDD) ≫ 27)).

Definition ctz_table : list Z :=
  [0; 1; 28; 2; 29; 14; 24; 3; 30; 22; 20; 15; 25; 17; 4; 8;
   31; 27; 13; 23; 21; 19; 16; 7; 26; 12; 18; 6; 11; 5; 10; 9].
Definition trailingzeros_32 (v : Z) : Z :=
  at_z ctz_table (Z.to_nat (u32 ((v &&& u32 (- v)) * 0x077CB531) ≫ 27)).

Definition flog2_64 (v : Z) : Z :=
  let high := v ≫ 32 in
  let low := u32 v in
  if negb (high =? 0) then 32 + flog2_32 high else flog2_32 low.
Definition trailingzeros_64 (v : Z) : Z :=
  let high := v ≫ 32 in
  let low := u32 v in
  if negb (low =? 0) then trailingzeros_32 low else trailingzeros_32 high + 32.

(** [__uint128_t] *)
Definition flog2_128 (v : Z) : Z :=
  let high := u64 (v ≫ 64) in
  let low := u64 v in
  if negb (high =? 0) then 64 + flog2 high else flog2 low.
Definition trailingzeros_128 (v : Z) : Z :=
  let high := u64 (v ≫ 64) in
  let low := u64 v in
  if negb (low =? 0) then trailingzeros 64 low else trailingzeros 64 high + 64.

Section uint_x4.
Variable w : Z.

(** [v & -v] keeps the lowest set bit. *)
Definition uint_clog2 (v : Z) : Z := flog2 v + Z.b2z (negb (v &&& wrap w (- v) =? v)).

(** ** Carries *)

Definition addwithcarry (x y : Z) (carryin : bool) : Z * bool :=
  let half_result := wrap w (y + Z.b2z carryin) in
  let result := wrap w (x + half_result) in
  (result, (half_result <? y) || (result <? x)).

Definition subwithcarry (x y : Z) (carryin : bool) : Z * bool :=
  let half_result := wrap w (y + Z.b2z carryin) in
  let result := wrap w (x - half_result) in
  (result, (half_result <? y) || (x <? result)).

(** ** The type *)

Record uint_x4 := X4 { v0 : Z; v1 : Z; v2 : Z; v3 : Z }.

Definition v01 (a : uint_x4) : Z := v0 a + v1 a * 2 ^ w.
Definition v23 (a : uint_x4) : Z := v2 a + v3 a * 2 ^ w.
(** The constructor from halves. *)
Definition of_halves (hi lo : Z) : uint_x4 := X4 (wrap w lo) (lo ≫ w) (wrap w hi) (hi ≫ w).
Definition of_half (lo : Z) : uint_x4 := of_halves 0 lo.
Definition wa (a : uint_x4) : list Z := [v0 a; v1 a; v2 a; v3 a].
Definition of_wa (l : list Z) : uint_x4 := X4 (at_z l 0) (at_z l 1) (at_z l 2) (at_z l 3).
Definition x4_bool (a : uint_x4) : bool := negb (v01 a =? 0) || negb (v23 a =? 0).

(** ** Addition and subtraction *)

Definition add (a b : uint_x4) : uint_x4 :=
  let '(r0, c) := addwithcarry (v0 a) (v0 b) false in
  let '(r1, c) := addwithcarry (v1 a) (v1 b) c in
  let '(r2, c) := addwithcarry (v2 a) (v2 b) c in
  let '(r3, c) := addwithcarry (v3 a) (v3 b) c in
  X4 r0 r1 r2 r3.

Definition sub (a b : uint_x4) : uint_x4 :=
  let '(r0, c) := subwithcarry (v0 a) (v0 b) false in
  let '(r1, c) := subwithcarry (v1 a) (v1 b) c in
  let '(r2, c) := subwithcarry (v2 a) (v2 b) c in
  let '(r3, c) := subwithcarry (v3 a) (v3 b) c in
  X4 r0 r1 r2 r3.

Definition neg (v : uint_x4) : uint_x4 := sub (of_halves 0 0) v.

(** ** Multiplication *)

(** The partial products of the low halves; [b0] and [b1] are the words of the
    second factor.  The result is completed by [v23 += hi]. *)
Definition mul_low (a : uint_x4) (b0 b1 hi : Z) : uint_x4 :=
  let a0b0 := v0 a * b0 in
  let r0 := wrap w a0b0 in
  let r1 := wrap w (a0b0 ≫ w) in
  let a1b0 := v1 a * b0 in
  let r2 := wrap w (a1b0 ≫ w) in
  let '(r1, c) := addwithcarry r1 (wrap w a1b0) false in
  let '(r2, c) := addwithcarry r2 0 c in
  let '(r3, c) := addwithcarry 0 0 c in
  let a0b1 := v0 a * b1 in
  let '(r2, c) := addwithcarry r2 (wrap w (a0b1 ≫ w)) false in
  let '(r3, c) := addwithcarry r3 0 c in
  let '(r1, c) := addwithcarry r1 (wrap w a0b1) false in
  let '(r2, c) := addwithcarry r2 0 c in
  let '(r3, c) := addwithcarry r3 0 c in
  let a1b1 := v1 a * b1 in
  let '(r2, c) := addwithcarry r2 (wrap w a1b1) false in
  let '(r3, c) := addwithcarry r3 (wrap w (a1b1 ≫ w)) c in
  let r23 := wrap (2 * w) (r2 + r3 * 2 ^ w + hi) in
  X4 r0 r1 (wrap w r23) (r23 ≫ w).

Definition mul (a b : uint_x4) : uint_x4 :=
  mul_low a (v0 b) (v1 b) (wrap (2 * w) (v01 a * v23 b + v23 a * v01 b)).

Definition mul_half (a : uint_x4) (b01 : Z) : uint_x4 :=
  mul_low a (wrap w b01) (b01 ≫ w) (wrap (2 * w) (v23 a * b01)).

(** ** Bitwise operators and comparisons *)

Definition not2 (x : Z) : Z := Z.lxor x (Z.ones (2 * w)).
Definition x4_and (a b : uint_x4) : uint_x4 := of_halves (v23 a &&& v23 b) (v01 a &&& v01 b).
Definition x4_or (a b : uint_x4) : uint_x4 := of_halves (v23 a ||| v23 b) (v01 a ||| v01 b).
Definition x4_xor (a b : uint_x4) : uint_x4 := of_halves (v23 a ^^^ v23 b) (v01 a ^^^ v01 b).
Definition x4_not (v : uint_x4) : uint_x4 := of_halves (not2 (v23 v)) (not2 (v01 v)).

Definition eqb (a b : uint_x4) : bool := (v01 a =? v01 b) && (v23 a =? v23 b).
Definition ltb (a b : uint_x4) : bool := (v23 a <? v23 b) || ((v23 a =? v23 b) && (v01 a <? v01 b)).
Definition gtb (a b : uint_x4) : bool := ltb b a.
Definition leb (a b : uint_x4) : bool := negb (ltb b a).
Definition geb (a b : uint_x4) : bool := negb (ltb a b).

(** ** Shifts *)

(** The width of a word is a power of two, so [shift & (bits - 1)] is the
    remainder. *)

(** The loop of [operator<<] over the input words, lowest first. *)
Fixpoint shl_words (m carryover : Z) (ws : list Z) : list Z :=
  match ws with
  | [] => []
  | x :: ws => (wrap w (x ≪ m) ||| carryover) :: shl_words m (x ≫ (w - m)) ws
  end.
Definition shl (v : uint_x4) (shift : Z) : uint_x4 :=
  let shiftdiv := Z.to_nat (shift / w) in
  let shiftmod := shift mod w in
  let ins := take (4 - shiftdiv) (wa v) in
  let outs := if negb (shiftmod =? 0) then shl_words shiftmod 0 ins else ins in
  of_wa (replicate shiftdiv 0 ++ outs).

(** The loop of [operator>>], highest word first. *)
Fixpoint shr_words (m carryover : Z) (ws : list Z) : list Z :=
  match ws with
  | [] => []
  | x :: ws => ((x ≫ m) ||| carryover) :: shr_words m (wrap w (x ≪ (w - m))) ws
  end.
Definition shr (v : uint_x4) (shift : Z) : uint_x4 :=
  let shiftdiv := Z.to_nat (shift / w) in
  let shiftmod := shift mod w in
  let ins := take (4 - shiftdiv) (reverse (wa v)) in
  let outs := if negb (shiftmod =? 0) then shr_words shiftmod 0 ins else ins in
  of_wa (reverse outs ++ replicate shiftdiv 0).

(** ** Logarithms *)

(** [i] words are left, the highest first; [None] is [abort()]. *)
Fixpoint flog2_words (i : nat) (v : uint_x4) : option Z :=
  match i with
  | O => None
  | S i => if at_z (wa v) i =? 0 then flog2_words i v else Some (flog2 (at_z (wa v) i) + w * Z.of_nat i)
  end.
Definition x4_flog2 (v : uint_x4) : option Z := flog2_words 4 v.

Fixpoint ctz_words (i : Z) (ws : list Z) : Z :=
  match ws with
  | [] => w * 4
  | x :: ws => if negb (x =? 0) then trailingzeros (Z.to_nat w) x + w * i else ctz_words (i + 1) ws
  end.
Definition x4_trailingzeros (v : uint_x4) : Z := ctz_words 0 (wa v).

(** ** Division *)

(** [while (dividend < factor) { factor >>= 1; qfactor >>= 1; }] *)
Fixpoint divmod_inner (fuel : nat) (dividend factor qfactor : uint_x4) : option (uint_x4 * uint_x4) :=
  if negb (ltb dividend factor) then Some (factor, qfactor)
  else match fuel with
       | O => None
       | S fuel => divmod_inner fuel dividend (shr factor 1) (shr qfactor 1)
       end.

(** [do { ... } while (dividend >= divisor);] *)
Fixpoint divmod_outer (fuel ifuel : nat) (divisor dividend quotient factor qfactor : uint_x4) :
    option (uint_x4 * uint_x4) :=
  match fuel with
  | O => None
  | S fuel =>
      let dividend := sub dividend factor in
      let quotient := add quotient qfactor in
      '(factor, qfactor) ← divmod_inner ifuel dividend factor qfactor;
      if geb dividend divisor then divmod_outer fuel ifuel divisor dividend quotient factor qfactor
      else Some (quotient, dividend)
  end.

(** [None]: [abort()] in [flog2], or a loop that does not end in its fuel. *)
Definition divmod (orig_dividend divisor : uint_x4) : option (uint_x4 * uint_x4) :=
  if ltb orig_dividend divisor then Some (of_half 0, orig_dividend)
  else
    log2_divisor ← x4_flog2 divisor;
    log2_dividend ← x4_flog2 orig_dividend;
    let logdiff := log2_dividend - log2_divisor in
    if logdiff =? 0 then Some (of_half 1, sub orig_dividend divisor)
    else
      let logdiff := logdiff - 1 in
      divmod_outer (Z.to_nat (12 * w + 4)) (Z.to_nat (4 * w + 1)) divisor orig_dividend
        (of_half 0) (shl divisor logdiff) (shl (of_half 1) logdiff).
Definition div (a b : uint_x4) : option uint_x4 := fst <$> divmod a b.
Definition rem (a b : uint_x4) : option uint_x4 := snd <$> divmod a b.
End uint_x4.

(** ** Specialisations for 64-bit halves *)

Notation lo64 := (v01 32).
Notation hi64 := (v23 32).
Notation of64 := (of_halves 32).

Definition mul_64 (a b : uint_x4) : uint_x4 :=
  let r := lo64 a * lo64 b in
  let lo := u64 r in
  let hi := r ≫ 64 in
  let hi := u64 (hi + (hi64 a * lo64 b + lo64 a * hi64 b)) in
  of64 hi lo.

Definition add_64 (a b : uint_x4) : uint_x4 :=
  let '(r01, c) := addwithcarry 64 (lo64 a) (lo64 b) false in
  let '(r23, c) := addwithcarry 64 (hi64 a) (hi64 b) c in
  of64 r23 r01.

Definition sub_64 (a b : uint_x4) : uint_x4 :=
  let '(r01, c) := subwithcarry 64 (lo64 a) (lo64 b) false in
  let '(r23, c) := subwithcarry 64 (hi64 a) (hi64 b) c in
  of64 r23 r01.

Definition shl_64 (v : uint_x4) (shift : Z) : uint_x4 :=
  if 64 <=? shift then of64 (u64 (lo64 v ≪ (shift - 64))) 0
  else of64 (if negb (shift =? 0) then u64 (hi64 v ≪ shift) ||| (lo64 v ≫ (64 - shift)) else hi64 v)
            (u64 (lo64 v ≪ shift)).

Definition shr_64 (v : uint_x4) (shift : Z) : uint_x4 :=
  if 64 <=? shift then of64 0 (hi64 v ≫ (shift - 64))
  else of64 (hi64 v ≫ shift)
            (if negb (shift =? 0) then (lo64 v ≫ shift) ||| u64 (hi64 v ≪ (64 - shift)) else lo64 v).

Definition x4_flog2_64 (v : uint_x4) : Z := if 0 <? hi64 v then flog2 (hi64 v) + 64 else flog2 (lo64 v).
Definition x4_trailingzeros_64 (v : uint_x4) : Z :=
  if lo64 v =? 0 then trailingzeros 64 (hi64 v) + 64 else trailingzeros 64 (lo64 v).

(** ** Values *)

(** The integer a list of words stands for, lowest first. *)
Fixpoint wval (w : Z) (ws : list Z) : Z :=
  match ws with
  | [] => 0
  | x :: ws => x + wval w ws * 2 ^ w
  end.
Definition val (w : Z) (a : uint_x4) : Z := wval w (wa a).
Definition x4_ok (w : Z) (a : uint_x4) : Prop := Forall (is_word w) (wa a).

Section values.
Variable w : Z.
Hypothesis w_pos : 0 < w.
Notation B := (2 ^ w).

Lemma B_pos : 0 < B.
Proof. apply Z.pow_pos_nonneg; lia. Qed.

Lemma B_two : 2 ≤ B.
Proof. change 2 with (2 ^ 1) at 1. apply Z.pow_le_mono_r; lia. Qed.

Lemma B_pow (n : nat) : 2 ^ (w * Z.of_nat n) = B ^ Z.of_nat n.
Proof. apply Z.pow_mul_r; lia. Qed.

Lemma x4_ok_iff a : x4_ok w a ↔ is_word w (v0 a) ∧ is_word w (v1 a) ∧ is_word w (v2 a) ∧ is_word w (v3 a).
Proof. unfold x4_ok, wa. rewrite !Forall_cons. naive_solver. Qed.

Lemma wrap_word x : is_word w (wrap w x).
Proof. apply Z.mod_pos_bound, B_pos. Qed.

Lemma wrap_eq x : ∃ q, wrap w x = x - B * q ∧ x = B * q + wrap w x.
Proof. exists (x / B). unfold wrap. pose proof (Z.div_mod x B). pose proof B_pos. lia. Qed.

Lemma wrap_small x : is_word w x → wrap w x = x.
Proof. apply Z.mod_small. Qed.

Lemma split_word x : 0 ≤ x → x = wrap w x + B * (x ≫ w) ∧ 0 ≤ x ≫ w.
Proof.
  intros Hx. rewrite Z.shiftr_div_pow2 by lia. unfold wrap. pose proof B_pos.
  pose proof (Z.div_mod x B). split; [lia|]. apply Z.div_pos; lia.
Qed.

Lemma split_word2 x : is_word (2 * w) x → is_word w (x ≫ w).
Proof.
  intros [H0 H1]. rewrite Z.shiftr_div_pow2 by lia. pose proof B_pos. split; [apply Z.div_pos; lia|].
  apply Z.div_lt_upper_bound; [lia|]. rewrite <- Z.pow_add_r by lia. by replace (w + w) with (2 * w) by lia.
Qed.

(** ** Carries *)

Lemma wrap_over x : B ≤ x < 2 * B → wrap w x = x - B.
Proof. intros Hx. unfold wrap. symmetry. apply Z.mod_unique_pos with 1; lia. Qed.
Lemma wrap_under x : - B ≤ x < 0 → wrap w x = x + B.
Proof. intros Hx. unfold wrap. symmetry. apply Z.mod_unique_pos with (-1); lia. Qed.

Lemma half_carry y c :
  is_word w y → let h := wrap w (y + Z.b2z c) in
  is_word w h ∧ h = y + Z.b2z c - B * Z.b2z (h <? y).
Proof.
  intros Hy h. split; [apply wrap_word|]. unfold is_word in Hy. unfold h. pose proof B_two.
  destruct (decide (y + Z.b2z c = B)) as [E|].
  - rewrite E, wrap_over by lia. rewrite (proj2 (Z.ltb_lt _ _)); destruct c; cbn [Z.b2z] in *; lia.
  - rewrite wrap_small by (unfold is_word; destruct c; cbn [Z.b2z] in *; lia).
    rewrite (proj2 (Z.ltb_ge _ _)); destruct c; cbn [Z.b2z] in *; lia.
Qed.

Lemma addwithcarry_spec x y c :
  is_word w x → is_word w y →
  let '(r, c') := addwithcarry w x y c in is_word w r ∧ r = x + y + Z.b2z c - B * Z.b2z c'.
Proof.
  intros Hx Hy. unfold addwithcarry. destruct (half_carry y c Hy) as [Hh Eh].
  set (h := wrap w (y + Z.b2z c)) in *. clearbody h. split; [apply wrap_word|]. unfold is_word in *. pose proof B_pos.
  destruct (decide (x + h < B)).
  - rewrite wrap_small by (unfold is_word; lia). rewrite (proj2 (Z.ltb_ge (x + h) x)), orb_false_r by lia. lia.
  - rewrite wrap_over by lia. rewrite (proj2 (Z.ltb_lt (x + h - B) x)), orb_true_r by lia. cbn [Z.b2z].
    destruct (h <? y) eqn:E; cbn [Z.b2z] in *; [zbool; destruct c; cbn [Z.b2z] in *; lia|lia].
Qed.

Lemma subwithcarry_spec x y c :
  is_word w x → is_word w y →
  let '(r, c') := subwithcarry w x y c in is_word w r ∧ r = x - y - Z.b2z c + B * Z.b2z c'.
Proof.
  intros Hx Hy. unfold subwithcarry. destruct (half_carry y c Hy) as [Hh Eh].
  set (h := wrap w (y + Z.b2z c)) in *. clearbody h. split; [apply wrap_word|]. unfold is_word in *. pose proof B_pos.
  destruct (decide (h ≤ x)).
  - rewrite wrap_small by (unfold is_word; lia). rewrite (proj2 (Z.ltb_ge x (x - h))), orb_false_r by lia. lia.
  - rewrite wrap_under by lia. rewrite (proj2 (Z.ltb_lt x (x - h + B))), orb_true_r by lia. cbn [Z.b2z].
    destruct (h <? y) eqn:E; cbn [Z.b2z] in *; [zbool; destruct c; cbn [Z.b2z] in *; lia|lia].
Qed.

(** ** Value of a number *)

Lemma wval_range ws : Forall (is_word w) ws → 0 ≤ wval w ws < 2 ^ (w * Z.of_nat (length ws)).
Proof.
  induction 1 as [|x ws Hx _ IH]; [simpl; rewrite Z.mul_0_r; simpl; lia|].
  cbn [wval length]. rewrite Nat2Z.inj_succ. replace (w * Z.succ (Z.of_nat (length ws))) with (w + w * Z.of_nat (length ws)) by lia.
  rewrite Z.pow_add_r by lia. unfold is_word in Hx. pose proof B_pos. nia.
Qed.

Lemma val_range a : x4_ok w a → 0 ≤ val w a < 2 ^ (4 * w).
Proof. intros Ha. unfold val. replace (4 * w) with (w * 4) by lia. apply (wval_range (wa a) Ha). Qed.

Lemma val_eq a : val w a = v0 a + v1 a * B + v2 a * (B * B) + v3 a * (B * B * B).
Proof. unfold val. cbn [wval wa]. ring. Qed.

Lemma val_halves a : val w a = v01 w a + v23 w a * (B * B).
Proof. rewrite val_eq. unfold v01, v23. ring. Qed.

Lemma pow2w : 2 ^ (2 * w) = B * B.
Proof. rewrite <- Z.pow_add_r by lia. f_equal. lia. Qed.
Lemma pow4w : 2 ^ (4 * w) = B * B * (B * B).
Proof. rewrite <- pow2w, <- Z.pow_add_r by lia. f_equal. lia. Qed.

Lemma wval_inj xs ys :
  Forall (is_word w) xs → Forall (is_word w) ys → length xs = length ys → wval w xs = wval w ys → xs = ys.
Proof.
  intros Hx. revert ys. induction Hx as [|x xs Hx _ IH]; intros ys Hy HL E; destruct Hy as [|y ys Hy Hys]; try done.
  cbn [wval length] in *. unfold is_word in *.
  destruct (Z.div_mod_unique B (wval w xs) (wval w ys) x y) as [E1 ->]; [lia..|]. f_equal. apply IH; (done || lia).
Qed.
Lemma val_inj a b : x4_ok w a → x4_ok w b → val w a = val w b → a = b.
Proof. intros Ha Hb E. apply wval_inj in E; [|done..]. destruct a, b. unfold wa in E. cbn in E. congruence. Qed.

Lemma val_mod a z k : x4_ok w a → val w a = z - 2 ^ (4 * w) * k → val w a = z mod 2 ^ (4 * w).
Proof. intros Ha E. apply Z.mod_unique_pos with k; [by apply val_range|lia]. Qed.

Ltac carry_step spec :=
  match goal with
  | |- context [match ?t with (_, _) => _ end] =>
      lazymatch t with
      | ?f w ?x ?y ?c =>
          let r := fresh "r" in let c' := fresh "c" in let Hr := fresh "Hr" in let Er := fresh "Er" in
          pose proof (spec x y c) as Hr; destruct t as [r c'];
          destruct Hr as [Hr Er]; [first [assumption|apply wrap_word|by apply split_word2|unfold is_word; pose proof B_pos; lia]..|]
      end
  end.

Lemma add_spec a b : x4_ok w a → x4_ok w b → x4_ok w (add w a b) ∧ val w (add w a b) = (val w a + val w b) mod 2 ^ (4 * w).
Proof.
  rewrite !x4_ok_iff. intros (A0 & A1 & A2 & A3) (B0 & B1 & B2 & B3). unfold add. do 4 carry_step addwithcarry_spec.
  split; [done|]. apply val_mod with (Z.b2z c2); [by apply x4_ok_iff|].
  rewrite pow4w, !val_eq. cbn [v0 v1 v2 v3]. subst. cbn [Z.b2z]. ring.
Qed.

Lemma sub_spec a b : x4_ok w a → x4_ok w b → x4_ok w (sub w a b) ∧ val w (sub w a b) = (val w a - val w b) mod 2 ^ (4 * w).
Proof.
  rewrite !x4_ok_iff. intros (A0 & A1 & A2 & A3) (B0 & B1 & B2 & B3). unfold sub. do 4 carry_step subwithcarry_spec.
  split; [done|]. apply val_mod with (- Z.b2z c2); [by apply x4_ok_iff|].
  rewrite pow4w, !val_eq. cbn [v0 v1 v2 v3]. subst. cbn [Z.b2z]. ring.
Qed.

(** The carries of the partial products never leave the top word. *)
Lemma mul_low_spec a b0 b1 hi :
  is_word w (v0 a) → is_word w (v1 a) → is_word w b0 → is_word w b1 →
  x4_ok w (mul_low w a b0 b1 hi) ∧
  ∃ k, val w (mul_low w a b0 b1 hi) = v01 w a * (b0 + b1 * B) + hi * (B * B) - 2 ^ (4 * w) * k.
Proof.
  intros A0 A1 B0 B1. unfold mul_low.
  assert (∀ x y, is_word w x → is_word w y → is_word (2 * w) (x * y)) as Hprod.
  { intros x y [] []. unfold is_word. rewrite pow2w. pose proof B_pos. nia. }
  assert (∀ x, is_word (2 * w) x → x = wrap w x + B * wrap w (x ≫ w)) as Hsplit.
  { intros x Hx. rewrite (wrap_small (x ≫ w)) by by apply split_word2. apply split_word, Hx. }
  pose proof (Hsplit _ (Hprod _ _ A0 B0)) as P00. pose proof (Hsplit _ (Hprod _ _ A1 B0)) as P10.
  pose proof (Hsplit _ (Hprod _ _ A0 B1)) as P01. pose proof (Hsplit _ (Hprod _ _ A1 B1)) as P11.
  cbv zeta. do 10 carry_step addwithcarry_spec.
  set (r23 := wrap (2 * w) _).
  assert (is_word (2 * w) r23) as Hr23 by (apply Z.mod_pos_bound; apply Z.pow_pos_nonneg; lia).
  split.
  { apply x4_ok_iff. cbn [v0 v1 v2 v3]. split_and!; [apply wrap_word|done|apply wrap_word|by apply split_word2]. }
  destruct (split_word r23) as [E23 _]; [apply Hr23|].
  assert (∃ q, r23 = r7 + r8 * B + hi - 2 ^ (2 * w) * q) as (q & Eq).
  { exists ((r7 + r8 * B + hi) / 2 ^ (2 * w)). unfold r23, wrap.
    pose proof (Z.div_mod (r7 + r8 * B + hi) (2 ^ (2 * w))). pose proof (Z.pow_pos_nonneg 2 (2 * w)). lia. }
  exists (Z.b2z c1 + Z.b2z c3 + Z.b2z c6 + Z.b2z c8 + q). rewrite pow4w, val_eq. cbn [v0 v1 v2 v3].
  assert (wrap w r23 * (B * B) + (r23 ≫ w) * (B * B * B) = r23 * (B * B)) as E by (rewrite E23 at 3; ring).
  transitivity (wrap w (v0 a * b0) + r4 * B + r23 * (B * B)); [rewrite <- E; ring|].
  assert (v01 w a * (b0 + b1 * B) = v0 a * b0 + v1 a * b0 * B + v0 a * b1 * B + v1 a * b1 * (B * B)) as ->
    by (unfold v01; ring).
  rewrite Eq, pow2w. clear E E23 Eq Hr23. clearbody r23.
  generalize dependent (wrap w (v0 a * b0)). generalize dependent (wrap w ((v0 a * b0) ≫ w)).
  generalize dependent (wrap w (v1 a * b0)). generalize dependent (wrap w ((v1 a * b0) ≫ w)).
  generalize dependent (wrap w (v0 a * b1)). generalize dependent (wrap w ((v0 a * b1) ≫ w)).
  generalize dependent (wrap w (v1 a * b1)). generalize dependent (wrap w ((v1 a * b1) ≫ w)).
  intros. rewrite P00, P10, P01, P11. subst. cbn [Z.b2z]. ring.
Qed.

Lemma v01_word a : x4_ok w a → is_word (2 * w) (v01 w a).
Proof. intros (A0 & A1 & _)%x4_ok_iff. unfold is_word, v01 in *. rewrite pow2w. pose proof B_pos. nia. Qed.
Lemma v23_word a : x4_ok w a → is_word (2 * w) (v23 w a).
Proof. intros (_ & _ & A2 & A3)%x4_ok_iff. unfold is_word, v23 in *. rewrite pow2w. pose proof B_pos. nia. Qed.

Lemma wrap2_eq x : ∃ q, wrap (2 * w) x = x - B * B * q.
Proof.
  exists (x / 2 ^ (2 * w)). unfold wrap. pose proof (Z.div_mod x (2 ^ (2 * w))). rewrite <- pow2w.
  pose proof (Z.pow_pos_nonneg 2 (2 * w)). lia.
Qed.

Lemma mul_spec a b : x4_ok w a → x4_ok w b → x4_ok w (mul w a b) ∧ val w (mul w a b) = (val w a * val w b) mod 2 ^ (4 * w).
Proof.
  intros Ha Hb. pose proof Ha as (A0 & A1 & _)%x4_ok_iff. pose proof Hb as (B0 & B1 & _)%x4_ok_iff. unfold mul.
  set (hi := wrap (2 * w) _). destruct (mul_low_spec a (v0 b) (v1 b) hi) as (Hok & k & E); [done..|]. split; [done|].
  destruct (wrap2_eq (v01 w a * v23 w b + v23 w a * v01 w b)) as [q Eq]. fold hi in Eq.
  apply val_mod with (k + q + v23 w a * v23 w b); [done|]. rewrite E, Eq, !val_halves, pow4w. unfold v01 at 2. ring_simplify.
  unfold v01. ring.
Qed.

Lemma mul_half_spec a b :
  x4_ok w a → is_word (2 * w) b →
  x4_ok w (mul_half w a b) ∧ val w (mul_half w a b) = (val w a * b) mod 2 ^ (4 * w).
Proof.
  intros Ha Hb. pose proof Ha as (A0 & A1 & _)%x4_ok_iff. unfold mul_half. set (hi := wrap (2 * w) _).
  destruct (mul_low_spec a (wrap w b) (b ≫ w) hi) as (Hok & k & E); [done|done|apply wrap_word|by apply split_word2|].
  split; [done|]. destruct (wrap2_eq (v23 w a * b)) as [q Eq]. fold hi in Eq. destruct (split_word b) as [Eb _]; [apply Hb|].
  apply val_mod with (k + q); [done|]. rewrite E, Eq, !val_halves, pow4w.
  replace (wrap w b + (b ≫ w) * B) with b by lia. ring.
Qed.

(** ** Halves *)

Lemma of_halves_spec hi lo :
  is_word (2 * w) hi → is_word (2 * w) lo →
  x4_ok w (of_halves w hi lo) ∧ v01 w (of_halves w hi lo) = lo ∧ v23 w (of_halves w hi lo) = hi ∧
  val w (of_halves w hi lo) = lo + hi * 2 ^ (2 * w).
Proof.
  intros Hh Hl. assert (v01 w (of_halves w hi lo) = lo) as E1.
  { unfold v01, of_halves. cbn [v0 v1]. destruct (split_word lo) as [E _]; [apply Hl|]. lia. }
  assert (v23 w (of_halves w hi lo) = hi) as E2.
  { unfold v23, of_halves. cbn [v2 v3]. destruct (split_word hi) as [E _]; [apply Hh|]. lia. }
  split_and!; [|done|done|by rewrite val_halves, E1, E2, pow2w].
  apply x4_ok_iff. cbn [of_halves v0 v1 v2 v3]. split_and!; try apply wrap_word; by apply split_word2.
Qed.

Lemma word2_pos : 0 < 2 ^ (2 * w).
Proof. apply Z.pow_pos_nonneg; lia. Qed.

Lemma of_half_spec lo : is_word (2 * w) lo → x4_ok w (of_half w lo) ∧ val w (of_half w lo) = lo.
Proof.
  intros Hl. destruct (of_halves_spec 0 lo) as (Ho & _ & _ & E); [split; [lia|apply word2_pos]|done|].
  split; [done|]. unfold of_half. lia.
Qed.

Lemma halves_mod a : x4_ok w a → v01 w a = val w a mod 2 ^ (2 * w) ∧ v23 w a = val w a / 2 ^ (2 * w).
Proof.
  intros Ha. pose proof (v01_word a Ha). rewrite val_halves, <- pow2w. split.
  - apply Z.mod_unique_pos with (v23 w a); [done|lia].
  - apply Z.div_unique_pos with (v01 w a); [done|lia].
Qed.

(** A bitwise operator acts on the halves. *)
Lemma x4_bitwise_spec (f : Z → Z → Z) (g : bool → bool → bool) a b :
  (∀ x y i, 0 ≤ i → Z.testbit (f x y) i = g (Z.testbit x i) (Z.testbit y i)) → g false false = false →
  (∀ x y n, is_word n x → is_word n y → 0 < n → is_word n (f x y)) →
  x4_ok w a → x4_ok w b →
  let r := of_halves w (f (v23 w a) (v23 w b)) (f (v01 w a) (v01 w b)) in
  x4_ok w r ∧ val w r = f (val w a) (val w b).
Proof.
  intros Hf Hg Hr Ha Hb r. pose proof (v01_word a Ha) as Wa. pose proof (v01_word b Hb) as Wb.
  destruct (of_halves_spec (f (v23 w a) (v23 w b)) (f (v01 w a) (v01 w b))) as (Ho & _ & _ & E);
    [apply Hr; [by apply v23_word..|lia]|apply Hr; [done..|lia]|]. fold r in Ho, E. split; [done|]. rewrite E.
  rewrite !val_halves, <- pow2w. set (n := 2 * w) in *.
  assert (∀ lo hi, is_word n lo → lo + hi * 2 ^ n = lo ||| (hi ≪ n)) as Hj.
  { intros lo hi Hlo. symmetry. apply lor_shiftl_add; [lia|done]. }
  rewrite !Hj by (done || (apply Hr; [done..|lia])). apply Z.bits_inj'. intros i Hi.
  rewrite Hf, !Z.lor_spec, !Z.shiftl_spec by lia. destruct (decide (i < n)).
  - rewrite !(Z.testbit_neg_r _ (i - n)), !orb_false_r, Hf by lia. done.
  - rewrite (testbit_above (f _ _) n), (testbit_above (v01 w a) n), (testbit_above (v01 w b) n), Hf
      by (first [apply Hr; [done..|lia]|done|lia]). done.
Qed.

Lemma logic_word (f : Z → Z → Z) (g : bool → bool → bool) :
  (∀ x y i, 0 ≤ i → Z.testbit (f x y) i = g (Z.testbit x i) (Z.testbit y i)) → g false false = false →
  (∀ x y, 0 ≤ x → 0 ≤ y → 0 ≤ f x y) → ∀ x y n, is_word n x → is_word n y → 0 < n → is_word n (f x y).
Proof.
  intros Hf Hg Hp x y n Hx Hy Hn. split; [apply Hp; [apply Hx|apply Hy]|].
  assert (f x y = f x y mod 2 ^ n) as ->; [|apply Z.mod_pos_bound, Z.pow_pos_nonneg; lia].
  apply Z.bits_inj'. intros i Hi. rewrite Z.testbit_mod_pow2 by lia. destruct (Z.ltb_spec i n); [done|].
  rewrite Hf, (testbit_above x n), (testbit_above y n) by (done || lia). done.
Qed.

Lemma logic_spec a b :
  x4_ok w a → x4_ok w b →
  (x4_ok w (x4_and w a b) ∧ val w (x4_and w a b) = val w a &&& val w b) ∧
  (x4_ok w (x4_or w a b) ∧ val w (x4_or w a b) = val w a ||| val w b) ∧
  (x4_ok w (x4_xor w a b) ∧ val w (x4_xor w a b) = val w a ^^^ val w b).
Proof.
  intros Ha Hb. split; [|split].
  - apply (x4_bitwise_spec Z.land andb); [intros; apply Z.land_spec|done| |done..].
    apply (logic_word Z.land andb); [intros; apply Z.land_spec|done|]. intros x y Hx _. apply Z.land_nonneg. by left.
  - apply (x4_bitwise_spec Z.lor orb); [intros; apply Z.lor_spec|done| |done..].
    apply (logic_word Z.lor orb); [intros; apply Z.lor_spec|done|]. intros x y Hx Hy. by apply Z.lor_nonneg.
  - apply (x4_bitwise_spec Z.lxor xorb); [intros; apply Z.lxor_spec|done| |done..].
    apply (logic_word Z.lxor xorb); [intros; apply Z.lxor_spec|done|]. intros x y Hx Hy. by apply Z.lxor_nonneg.
Qed.

Lemma lxor_ones n x : 0 ≤ n → is_word n x → x ^^^ Z.ones n = 2 ^ n - 1 - x.
Proof.
  intros Hn Hx. assert (x &&& (x ^^^ Z.ones n) = 0) as Hd.
  { apply Z.bits_inj'. intros i Hi. rewrite Z.land_spec, Z.lxor_spec, Z.bits_0. destruct (decide (i < n)).
    - rewrite Z.ones_spec_low by lia. by destruct (Z.testbit x i).
    - by rewrite (testbit_above x n) by (done || lia). }
  assert (x + (x ^^^ Z.ones n) = Z.ones n) as E; [|pose proof (Z.ones_equiv n); lia].
  rewrite Z.add_nocarry_lxor by done. rewrite <- Z.lxor_assoc, Z.lxor_nilpotent. apply Z.lxor_0_l.
Qed.

Lemma not_spec a : x4_ok w a → x4_ok w (x4_not w a) ∧ val w (x4_not w a) = 2 ^ (4 * w) - 1 - val w a.
Proof.
  intros Ha. pose proof (v01_word a Ha) as W1. pose proof (v23_word a Ha) as W2. unfold x4_not, not2.
  rewrite !lxor_ones by (done || lia).
  destruct (of_halves_spec (2 ^ (2 * w) - 1 - v23 w a) (2 ^ (2 * w) - 1 - v01 w a)) as (Ho & _ & _ & E);
    [unfold is_word in *; lia..|]. split; [done|]. rewrite E, val_halves, pow4w, pow2w. ring.
Qed.

(** ** Comparisons *)

Lemma ltb_spec a b : x4_ok w a → x4_ok w b → ltb w a b = (val w a <? val w b).
Proof.
  intros Ha Hb. pose proof (v01_word a Ha). pose proof (v01_word b Hb). unfold ltb. rewrite !val_halves, <- pow2w.
  unfold is_word in *. pose proof word2_pos.
  destruct (Z.ltb_spec (v23 w a) (v23 w b)), (Z.eqb_spec (v23 w a) (v23 w b)), (Z.ltb_spec (v01 w a) (v01 w b)),
    (Z.ltb_spec (v01 w a + v23 w a * 2 ^ (2 * w)) (v01 w b + v23 w b * 2 ^ (2 * w))); cbn [orb andb]; try done; exfalso; nia.
Qed.

Lemma eqb_spec a b : x4_ok w a → x4_ok w b → eqb w a b = (val w a =? val w b).
Proof.
  intros Ha Hb. pose proof (v01_word a Ha). pose proof (v01_word b Hb). unfold eqb. rewrite !val_halves, <- pow2w.
  unfold is_word in *. pose proof word2_pos.
  destruct (Z.eqb_spec (v23 w a) (v23 w b)), (Z.eqb_spec (v01 w a) (v01 w b)),
    (Z.eqb_spec (v01 w a + v23 w a * 2 ^ (2 * w)) (v01 w b + v23 w b * 2 ^ (2 * w))); cbn [andb]; try done; exfalso; nia.
Qed.

(** ** Shifts *)

Lemma pow_split (n m : Z) : 0 ≤ n → 0 ≤ m → 2 ^ (n + m) = 2 ^ n * 2 ^ m.
Proof. intros. by apply Z.pow_add_r. Qed.

Lemma wlen (n : nat) : 2 ^ (w * Z.of_nat (S n)) = 2 ^ (w * Z.of_nat n) * B.
Proof. rewrite Nat2Z.inj_succ, <- Z.pow_add_r by lia. f_equal. lia. Qed.

Lemma wval_app ws us : wval w (ws ++ us) = wval w ws + wval w us * 2 ^ (w * Z.of_nat (length ws)).
Proof.
  induction ws as [|x ws IH]; [cbn; rewrite Z.mul_0_r; cbn; lia|]. cbn [app wval length].
  rewrite IH, wlen. ring.
Qed.

Lemma wval_zeros n : wval w (replicate n 0) = 0.
Proof. induction n as [|n IH]; [done|]. cbn [replicate wval]. rewrite IH. lia. Qed.

Lemma wval_take_drop n ws :
  Forall (is_word w) ws → (n ≤ length ws)%nat →
  wval w (take n ws) = wval w ws mod 2 ^ (w * Z.of_nat n) ∧ wval w (drop n ws) = wval w ws / 2 ^ (w * Z.of_nat n).
Proof.
  intros Hws Hn. pose proof (wval_range (take n ws) (Forall_take _ _ _ Hws)) as Hr.
  rewrite length_take, Nat.min_l in Hr by done.
  assert (wval w ws = wval w (take n ws) + wval w (drop n ws) * 2 ^ (w * Z.of_nat n)) as E.
  { rewrite <- (take_drop n ws) at 1. by rewrite wval_app, length_take, Nat.min_l. }
  split; [apply Z.mod_unique_pos with (wval w (drop n ws))|apply Z.div_unique_pos with (wval w (take n ws))]; lia.
Qed.

Lemma shl_words_spec m c ws :
  0 < m < w → 0 ≤ c < 2 ^ m → Forall (is_word w) ws →
  length (shl_words w m c ws) = length ws ∧ Forall (is_word w) (shl_words w m c ws) ∧
  ∃ k, wval w (shl_words w m c ws) = wval w ws * 2 ^ m + c - 2 ^ (w * Z.of_nat (length ws)) * k.
Proof.
  intros Hm Hc Hws. revert c Hc. induction Hws as [|x ws Hx _ IH]; intros c Hc; cbn [shl_words length].
  { split_and!; [done|constructor|]. exists c. cbn. rewrite Z.mul_0_r. cbn. lia. }
  assert (B = 2 ^ (w - m) * 2 ^ m) as EB by (rewrite <- pow_split by lia; f_equal; lia).
  assert (0 < 2 ^ (w - m)) as Hp by (apply Z.pow_pos_nonneg; lia). assert (0 < 2 ^ m) by lia.
  rewrite Z.shiftr_div_pow2, Z.shiftl_mul_pow2 by lia. set (hi := x / 2 ^ (w - m)). set (lo := x mod 2 ^ (w - m)).
  assert (x = 2 ^ (w - m) * hi + lo) as Ex by (apply Z.div_mod; lia).
  assert (0 ≤ lo < 2 ^ (w - m)) as Hlo by (apply Z.mod_pos_bound; lia).
  unfold is_word in Hx. assert (0 ≤ hi < 2 ^ m) as Hhi.
  { split; [apply Z.div_pos; lia|]. apply Z.div_lt_upper_bound; lia. }
  assert (wrap w (x * 2 ^ m) = lo * 2 ^ m) as ->.
  { unfold wrap. symmetry. apply Z.mod_unique_pos with hi; [nia|]. rewrite EB, Ex. ring. }
  assert (lo * 2 ^ m ||| c = c + lo * 2 ^ m) as ->.
  { rewrite Z.lor_comm. transitivity (c ||| (lo ≪ m)); [by rewrite Z.shiftl_mul_pow2 by lia|apply lor_shiftl_add; lia]. }
  destruct (IH hi Hhi) as (L & F & k & E). split_and!; [by rewrite L|constructor; [|done]; unfold is_word; nia|].
  exists k. cbn [wval]. rewrite E, wlen. clearbody hi lo. subst x. rewrite EB. ring.
Qed.

Lemma val_of_wa l : length l = 4%nat → val w (of_wa l) = wval w l ∧ (Forall (is_word w) l → x4_ok w (of_wa l)).
Proof.
  intros Hl. destruct l as [|a [|b [|c [|d [|e l]]]]]; try discriminate Hl. split; [reflexivity|]. intros HF. exact HF.
Qed.

Lemma shl_spec v shift :
  x4_ok w v → 0 ≤ shift → x4_ok w (shl w v shift) ∧ val w (shl w v shift) = (val w v * 2 ^ shift) mod 2 ^ (4 * w).
Proof.
  intros Hv Hs. unfold shl. set (d := Z.to_nat (shift / w)). set (m := shift mod w).
  assert (0 ≤ m < w) as Hm by (apply Z.mod_pos_bound; lia).
  assert (shift = w * Z.of_nat d + m) as Es.
  { unfold d, m. rewrite Z2Nat.id by (apply Z.div_pos; lia). apply Z.div_mod. lia. }
  clearbody d m. destruct (decide (4 < d)%nat) as [Hbig|Hd].
  { assert (∀ l, of_wa (replicate d 0 ++ l) = X4 0 0 0 0) as -> by (intros l; destruct d as [|[|[|[|d]]]]; [lia..|done]).
    split; [apply x4_ok_iff; unfold is_word; cbn; pose proof B_pos; lia|]. symmetry. apply Z.mod_divide; [apply Z.pow_nonzero; lia|].
    exists (val w v * 2 ^ (shift - 4 * w)). rewrite <- Z.mul_assoc, <- Z.pow_add_r by nia. f_equal. f_equal. lia. }
  assert (Forall (is_word w) (take (4 - d) (wa v))) as Hin by by apply Forall_take.
  assert (length (take (4 - d) (wa v)) = (4 - d)%nat) as Lin by (rewrite length_take; cbn; lia).
  destruct (wval_take_drop (4 - d) (wa v) Hv) as [Et _]; [cbn; lia|].
  set (outs := if negb (m =? 0) then _ else _).
  assert (length outs = (4 - d)%nat ∧ Forall (is_word w) outs ∧
    ∃ k, wval w outs = wval w (take (4 - d) (wa v)) * 2 ^ m - 2 ^ (w * Z.of_nat (4 - d)) * k) as (Lo & Fo & k & Eo).
  { unfold outs. destruct (Z.eqb_spec m 0) as [->|]; cbn [negb].
    - split_and!; [done|done|]. exists 0. lia.
    - destruct (shl_words_spec m 0 (take (4 - d) (wa v))) as (L & F & k & E); [lia|split; [lia|apply Z.pow_pos_nonneg; lia]|done|].
      rewrite Lin in *. split_and!; [done|done|]. exists k. lia. }
  clearbody outs. destruct (val_of_wa (replicate d 0 ++ outs)) as [Ev Hok]; [rewrite length_app, length_replicate; lia|].
  assert (x4_ok w (of_wa (replicate d 0 ++ outs))) as Hr.
  { apply Hok, Forall_app. split; [|done]. apply Forall_replicate. unfold is_word. pose proof B_pos. lia. }
  split; [done|]. set (q := wval w (wa v) / 2 ^ (w * Z.of_nat (4 - d))).
  assert (wval w (wa v) mod 2 ^ (w * Z.of_nat (4 - d)) = val w v - 2 ^ (w * Z.of_nat (4 - d)) * q) as Eq.
  { unfold q, val. pose proof (Z.div_mod (wval w (wa v)) (2 ^ (w * Z.of_nat (4 - d)))).
    pose proof (Z.pow_pos_nonneg 2 (w * Z.of_nat (4 - d))). lia. }
  apply val_mod with (k + q * 2 ^ m); [done|].
  rewrite Ev, wval_app, wval_zeros, length_replicate, Eo, Et, Eq, Es, (pow_split (w * Z.of_nat d)) by lia.
  replace (4 * w) with (w * Z.of_nat (4 - d) + w * Z.of_nat d) by nia. rewrite (pow_split (w * Z.of_nat (4 - d))) by lia. ring.
Qed.

(** The bits that leave a word enter the next lower one: [h] is the part of the
    word above that was shifted out. *)
Lemma shr_words_spec m h ws :
  0 < m < w → 0 ≤ h < 2 ^ m → Forall (is_word w) ws →
  length (shr_words w m (h * 2 ^ (w - m)) ws) = length ws ∧ Forall (is_word w) (shr_words w m (h * 2 ^ (w - m)) ws) ∧
  wval w (reverse (shr_words w m (h * 2 ^ (w - m)) ws)) =
    (h * 2 ^ (w * Z.of_nat (length ws)) + wval w (reverse ws)) / 2 ^ m.
Proof.
  intros Hm Hh Hws. revert h Hh. induction Hws as [|x ws Hx _ IH]; intros h Hh; cbn [shr_words length].
  { split_and!; [done|constructor|]. cbn. rewrite Z.mul_0_r. cbn. rewrite Z.div_small by lia. done. }
  assert (B = 2 ^ (w - m) * 2 ^ m) as EB by (rewrite <- pow_split by lia; f_equal; lia).
  assert (0 < 2 ^ (w - m)) as Hp by (apply Z.pow_pos_nonneg; lia). assert (0 < 2 ^ m) as Hpm by lia.
  rewrite Z.shiftr_div_pow2, Z.shiftl_mul_pow2 by lia. set (hi := x / 2 ^ m). set (lo := x mod 2 ^ m).
  assert (x = 2 ^ m * hi + lo) as Ex by (apply Z.div_mod; lia).
  assert (0 ≤ lo < 2 ^ m) as Hlo by (apply Z.mod_pos_bound; lia).
  unfold is_word in Hx. assert (0 ≤ hi < 2 ^ (w - m)) as Hhi.
  { split; [apply Z.div_pos; lia|]. apply Z.div_lt_upper_bound; lia. }
  assert (wrap w (x * 2 ^ (w - m)) = lo * 2 ^ (w - m)) as ->.
  { unfold wrap. symmetry. apply Z.mod_unique_pos with hi; [nia|]. rewrite EB, Ex. ring. }
  assert (hi ||| h * 2 ^ (w - m) = hi + h * 2 ^ (w - m)) as ->.
  { transitivity (hi ||| (h ≪ (w - m))); [by rewrite Z.shiftl_mul_pow2 by lia|apply lor_shiftl_add; lia]. }
  destruct (IH lo Hlo) as (L & F & E). split_and!; [by rewrite L|constructor; [|done]; unfold is_word; nia|].
  rewrite !reverse_cons, !wval_app, !length_reverse, E, L. cbn [wval]. rewrite wlen.
  set (P := 2 ^ (w * Z.of_nat (length ws))). clearbody hi lo. subst x.
  replace (h * (P * B) + (wval w (reverse ws) + (2 ^ m * hi + lo + 0 * B) * P))
    with (lo * P + wval w (reverse ws) + (h * 2 ^ (w - m) + hi) * P * 2 ^ m) by (rewrite EB; ring).
  rewrite Z.div_add by lia. ring.
Qed.

Lemma shr_spec v shift :
  x4_ok w v → 0 ≤ shift ≤ 4 * w → x4_ok w (shr w v shift) ∧ val w (shr w v shift) = val w v / 2 ^ shift.
Proof.
  intros Hv Hs. unfold shr. set (d := Z.to_nat (shift / w)). set (m := shift mod w).
  assert (0 ≤ m < w) as Hm by (apply Z.mod_pos_bound; lia).
  assert (shift = w * Z.of_nat d + m) as Es.
  { unfold d, m. rewrite Z2Nat.id by (apply Z.div_pos; lia). apply Z.div_mod. lia. }
  clearbody d m. assert (d ≤ 4)%nat as Hd by nia.
  set (ins := take (4 - d) (reverse (wa v))).
  assert (reverse ins = drop d (wa v)) as Ei.
  { unfold ins. destruct v. do 5 (destruct d as [|d]; [reflexivity|]). lia. }
  assert (length ins = (4 - d)%nat) as Lin by (rewrite <- length_reverse, Ei, length_drop; done).
  assert (Forall (is_word w) ins) as Hin.
  { rewrite <- (reverse_involutive ins), Ei. apply Forall_reverse. by apply Forall_drop. }
  destruct (wval_take_drop d (wa v) Hv) as [_ Ed]; [cbn; lia|].
  set (outs := if negb (m =? 0) then _ else _).
  assert (length outs = (4 - d)%nat ∧ Forall (is_word w) outs ∧ wval w (reverse outs) = wval w (reverse ins) / 2 ^ m)
    as (Lo & Fo & Eo).
  { unfold outs. destruct (Z.eqb_spec m 0) as [->|]; cbn [negb].
    - split_and!; [done|done|]. by rewrite Z.div_1_r.
    - destruct (shr_words_spec m 0 ins) as (L & F & E); [lia|split; [lia|apply Z.pow_pos_nonneg; lia]|done|].
      rewrite Z.mul_0_l in *. rewrite Lin in L. split_and!; [done|done|]. rewrite E. done. }
  clearbody outs. destruct (val_of_wa (reverse outs ++ replicate d 0)) as [Ev Hok];
    [rewrite length_app, length_reverse, length_replicate; lia|].
  split.
  { apply Hok, Forall_app. split; [by apply Forall_reverse|]. apply Forall_replicate. unfold is_word. pose proof B_pos. lia. }
  rewrite Ev, wval_app, wval_zeros, Eo, Ei, Ed, Es, pow_split, <- Z.div_div by (try apply Z.pow_pos_nonneg; lia).
  unfold val. lia.
Qed.

(** ** Logarithms *)

Lemma log2_word_add x y n : 0 < x → is_word n y → 0 ≤ n → Z.log2 (y + x * 2 ^ n) = Z.log2 x + n.
Proof.
  intros Hx [Hy1 Hy2] Hn. apply Z.log2_unique; [pose proof (Z.log2_nonneg x); lia|].
  destruct (Z.log2_spec x Hx) as [H1 H2]. rewrite Z.pow_add_r by (pose proof (Z.log2_nonneg x); lia).
  replace (Z.succ (Z.log2 x + n)) with (Z.succ (Z.log2 x) + n) by lia.
  rewrite Z.pow_add_r by (pose proof (Z.log2_nonneg x); lia). pose proof (Z.pow_pos_nonneg 2 n). nia.
Qed.

Lemma flog2_spec v : x4_ok w v → x4_flog2 w v = if val w v =? 0 then None else Some (Z.log2 (val w v)).
Proof.
  intros Hv. pose proof Hv as (H0 & H1 & H2 & H3)%x4_ok_iff. unfold x4_flog2, flog2.
  assert (∀ (i : nat) lo x, is_word (w * Z.of_nat i) lo → 0 ≤ x → x ≠ 0 → val w v = lo + x * 2 ^ (w * Z.of_nat i) →
    (if val w v =? 0 then None else Some (Z.log2 (val w v))) = Some (Z.log2 x + w * Z.of_nat i)) as Hdone.
  { intros i lo x Hlo Hx Hx0 E. pose proof (Z.pow_pos_nonneg 2 (w * Z.of_nat i)). unfold is_word in Hlo.
    rewrite (proj2 (Z.eqb_neq _ _)) by nia. rewrite E, log2_word_add by (done || lia). done. }
  assert (∀ n : nat, 2 ^ (w * Z.of_nat (S n)) = 2 ^ (w * Z.of_nat n) * B) as Hp by apply wlen.
  pose proof (Hp 0%nat) as P1. pose proof (Hp 1%nat) as P2. pose proof (Hp 2%nat) as P3.
  assert (2 ^ (w * Z.of_nat 0) = 1) as P0 by (rewrite Z.mul_0_r; done). rewrite P0 in P1. rewrite P1 in P2. rewrite P2 in P3.
  pose proof B_pos. rewrite val_eq in *. unfold is_word in *. cbn [flog2_words]. change (at_z (wa v) 3) with (v3 v). change (at_z (wa v) 2) with (v2 v).
  change (at_z (wa v) 1) with (v1 v). change (at_z (wa v) 0) with (v0 v).
  destruct (Z.eqb_spec (v3 v) 0) as [E3|N3].
  2: { symmetry. apply (Hdone 3%nat (v0 v + v1 v * B + v2 v * (B * B)) _); [rewrite P3; nia|lia|done|rewrite P3; ring]. }
  destruct (Z.eqb_spec (v2 v) 0) as [E2|N2].
  2: { symmetry. apply (Hdone 2%nat (v0 v + v1 v * B) _); [rewrite P2; nia|lia|done|rewrite P2, E3; ring]. }
  destruct (Z.eqb_spec (v1 v) 0) as [E1|N1].
  2: { symmetry. apply (Hdone 1%nat (v0 v) _); [rewrite P1; nia|lia|done|rewrite P1, E3, E2; ring]. }
  destruct (Z.eqb_spec (v0 v) 0) as [E0|N0].
  { rewrite E0, E1, E2, E3. done. }
  symmetry. apply (Hdone 0%nat 0 _); [rewrite P0; lia|lia|done|rewrite P0, E3, E2, E1; ring].
Qed.

(** [t] is the position of the lowest set bit of [v]. *)
Definition lowest_bit (v t : Z) : Prop := 0 ≤ t ∧ (∃ q, v = 2 ^ t * (2 * q + 1)).

Lemma lowest_bit_testbit v t :
  0 ≤ t → Z.testbit v t = true → (∀ i, 0 ≤ i < t → Z.testbit v i = false) → lowest_bit v t.
Proof.
  intros Ht Hb Hl. split; [done|]. exists (v / 2 ^ (t + 1)).
  assert (0 < 2 ^ t) by (apply Z.pow_pos_nonneg; lia).
  assert (v mod 2 ^ t = 0) as Hm.
  { apply Z.bits_inj'. intros i Hi. rewrite Z.bits_0. destruct (Z.lt_ge_cases i t).
    - rewrite Z.mod_pow2_bits_low by lia. apply Hl. lia.
    - apply Z.mod_pow2_bits_high. lia. }
  rewrite Z.testbit_true in Hb by done. rewrite Z.pow_add_r, <- Z.div_div by lia. change (2 ^ 1) with 2.
  pose proof (Z.div_mod v (2 ^ t)). pose proof (Z.div_mod (v / 2 ^ t) 2). nia.
Qed.

Lemma ctz_from_spec n i v :
  0 ≤ i → (∃ j, i ≤ j < i + Z.of_nat n ∧ Z.testbit v j = true) →
  let t := ctz_from n i v in
  i ≤ t < i + Z.of_nat n ∧ Z.testbit v t = true ∧ ∀ j, i ≤ j < t → Z.testbit v j = false.
Proof.
  revert i. induction n as [|n IH]; intros i Hi (j & Hj & Hb); [lia|]. cbn [ctz_from].
  destruct (Z.testbit v i) eqn:E; [split_and!; [lia|lia|done|lia]|].
  destruct (IH (i + 1)) as (H1 & H2 & H3).
  - lia.
  - exists j. split; [|done]. assert (j ≠ i) by (intros ->; congruence). lia.
  - split_and!; [lia|lia|done|]. intros k Hk. destruct (decide (k = i)) as [->|]; [done|]. apply H3. lia.
Qed.

Lemma word_has_bit n v : is_word (Z.of_nat n) v → v ≠ 0 → ∃ j, 0 ≤ j < 0 + Z.of_nat n ∧ Z.testbit v j = true.
Proof.
  intros [H1 H2] Hv. exists (Z.log2 v). split.
  - split; [apply Z.log2_nonneg|]. rewrite Z.add_0_l. apply Z.log2_lt_pow2; [lia|done].
  - apply Z.bit_log2. lia.
Qed.

Lemma trailingzeros_spec n v : is_word (Z.of_nat n) v → v ≠ 0 → lowest_bit v (trailingzeros n v).
Proof.
  intros Hv Hn. destruct (ctz_from_spec n 0 v) as (H1 & H2 & H3); [lia|by apply word_has_bit|].
  apply lowest_bit_testbit; [unfold trailingzeros; lia|done..].
Qed.

Lemma ctz_words_spec i ws :
  0 ≤ i → Forall (is_word w) ws → wval w ws ≠ 0 →
  lowest_bit (wval w ws * 2 ^ (w * i)) (ctz_words w i ws).
Proof.
  intros Hi Hws. revert i Hi. induction Hws as [|x ws Hx _ IH]; intros i Hi Hn; [done|]. cbn [ctz_words wval] in *.
  destruct (Z.eqb_spec x 0) as [->|Hx0]; cbn [negb].
  - replace ((0 + wval w ws * B) * 2 ^ (w * i)) with (wval w ws * 2 ^ (w * (i + 1))).
    + apply IH; nia.
    + rewrite Z.mul_add_distr_l, Z.mul_1_r, Z.pow_add_r by nia. ring.
  - assert (is_word (Z.of_nat (Z.to_nat w)) x) as Hx' by (by rewrite Z2Nat.id by lia).
    destruct (ctz_from_spec (Z.to_nat w) 0 x) as (H1 & _ & _); [lia|by apply word_has_bit|].
    destruct (trailingzeros_spec (Z.to_nat w) x) as (Ht & q & E); [done..|]. fold (trailingzeros (Z.to_nat w) x) in H1.
    set (t := trailingzeros (Z.to_nat w) x) in *. clearbody t. split; [nia|].
    exists (q + wval w ws * 2 ^ (w - 1 - t)). rewrite Z.pow_add_r by nia.
    replace B with (2 ^ t * (2 * 2 ^ (w - 1 - t))).
    + rewrite E. ring.
    + change 2 with (2 ^ 1) at 2. rewrite <- !Z.pow_add_r by lia. f_equal. lia.
Qed.

Lemma x4_trailingzeros_spec v :
  x4_ok w v →
  (val w v = 0 → x4_trailingzeros w v = 4 * w) ∧ (val w v ≠ 0 → lowest_bit (val w v) (x4_trailingzeros w v)).
Proof.
  intros Hv. split.
  - rewrite val_eq. pose proof Hv as (H0 & H1 & H2 & H3)%x4_ok_iff. unfold is_word in *. pose proof B_pos.
    intros E. assert (v0 v = 0 ∧ v1 v = 0 ∧ v2 v = 0 ∧ v3 v = 0) as (E0 & E1 & E2 & E3) by (split_and!; nia).
    unfold x4_trailingzeros, wa. rewrite E0, E1, E2, E3. cbn [ctz_words]. cbn. lia.
  - intros Hn. pose proof (ctz_words_spec 0 (wa v) ltac:(lia) Hv Hn) as H. rewrite Z.mul_0_r, Z.mul_1_r in H. done.
Qed.

(** ** Division *)

Lemma divmod_inner_spec fuel dividend factor qfactor :
  x4_ok w dividend → x4_ok w factor → x4_ok w qfactor → val w factor < 2 ^ Z.of_nat fuel →
  ∃ j f q, divmod_inner w fuel dividend factor qfactor = Some (f, q) ∧ x4_ok w f ∧ x4_ok w q ∧ 0 ≤ j ∧
    val w f = val w factor / 2 ^ j ∧ val w q = val w qfactor / 2 ^ j ∧ val w f ≤ val w dividend ∧
    (0 < j → val w dividend < val w factor / 2 ^ (j - 1)).
Proof.
  intros Hd. revert factor qfactor. induction fuel as [|fuel IH]; intros f q Hf Hq Hlt; cbn [divmod_inner];
    rewrite ltb_spec by done; destruct (Z.ltb_spec (val w dividend) (val w f)) as [L|L]; cbn [negb].
  - pose proof (val_range _ Hd). change (2 ^ Z.of_nat 0) with 1 in Hlt. lia.
  - exists 0, f, q. rewrite !Z.div_1_r. split_and!; (done || lia).
  - destruct (shr_spec f 1) as [Of Ef]; [done|lia|]. destruct (shr_spec q 1) as [Oq Eq]; [done|lia|].
    rewrite Nat2Z.inj_succ, Z.pow_succ_r in Hlt by lia. change (2 ^ 1) with 2 in *.
    destruct (IH (shr w f 1) (shr w q 1)) as (j & f' & q' & E & Of' & Oq' & Hj & Ef' & Eq' & Hle & Hgt); [done..| |].
    { rewrite Ef. apply Z.div_lt_upper_bound; lia. }
    exists (j + 1), f', q'. rewrite E. rewrite Z.pow_add_r, (Z.mul_comm (2 ^ j)) by lia. change (2 ^ 1) with 2.
    assert (0 < 2 ^ j) by (apply Z.pow_pos_nonneg; lia). rewrite <- !Z.div_div, <- Ef, <- Eq by lia.
    split_and!; [done|done|done|lia|done|done|done|]. intros _. replace (j + 1 - 1) with j by lia.
    destruct (decide (j = 0)) as [->|]; [rewrite Z.div_1_r; done|].
    specialize (Hgt ltac:(lia)). rewrite Ef in Hgt. rewrite Z.div_div in Hgt by (try apply Z.pow_pos_nonneg; lia).
    change 2 with (2 ^ 1) in Hgt at 1. rewrite <- Z.pow_add_r in Hgt by lia. by replace (1 + (j - 1)) with j in Hgt by lia.
  - exists 0, f, q. rewrite !Z.div_1_r. split_and!; (done || lia).
Qed.

(** While the divisor still fits, the factors stay a power of two times it. *)
Lemma divmod_inner_exact fuel dividend factor qfactor D k :
  x4_ok w dividend → x4_ok w factor → x4_ok w qfactor → val w factor < 2 ^ Z.of_nat fuel →
  0 < D → 0 ≤ k → val w factor = D * 2 ^ k → val w qfactor = 2 ^ k → D ≤ val w dividend →
  ∃ k' f q, divmod_inner w fuel dividend factor qfactor = Some (f, q) ∧ x4_ok w f ∧ x4_ok w q ∧ 0 ≤ k' ≤ k ∧
    val w f = D * 2 ^ k' ∧ val w q = 2 ^ k' ∧ D * 2 ^ k' ≤ val w dividend ∧
    (k' < k → val w dividend < 2 * (D * 2 ^ k')).
Proof.
  intros Hd Hf Hq Hlt HD Hk Ef Eq HDd.
  destruct (divmod_inner_spec fuel dividend factor qfactor) as (j & f & q & E & Of & Oq & Hj & Ef' & Eq' & Hle & Hgt); [done..|].
  assert (∀ i, 0 ≤ i ≤ k → (D * 2 ^ k) / 2 ^ i = D * 2 ^ (k - i) ∧ 2 ^ k / 2 ^ i = 2 ^ (k - i)) as Hdiv.
  { intros i Hi. assert (0 < 2 ^ i) by (apply Z.pow_pos_nonneg; lia).
    replace (2 ^ k) with (2 ^ (k - i) * 2 ^ i) by (rewrite <- Z.pow_add_r by lia; f_equal; lia).
    rewrite Z.mul_assoc, !Z.div_mul by lia. done. }
  rewrite Ef in *. rewrite Eq in *. assert (j ≤ k) as Hjk.
  { destruct (Z.le_gt_cases j k); [done|]. specialize (Hgt ltac:(lia)).
    assert (D * 2 ^ k / 2 ^ (j - 1) ≤ D * 2 ^ k / 2 ^ k) as Hm.
    { apply Z.div_le_compat_l; [nia|]. split; [apply Z.pow_pos_nonneg; lia|apply Z.pow_le_mono_r; lia]. }
    destruct (Hdiv k ltac:(lia)) as [Hd1 _]. rewrite Z.sub_diag, Z.mul_1_r in Hd1. lia. }
  destruct (Hdiv j ltac:(lia)) as [D1 D2]. exists (k - j), f, q. rewrite D1 in Ef'. rewrite D2 in Eq'.
  split_and!; try (done || lia). intros Hlt'. specialize (Hgt ltac:(lia)).
  destruct (Hdiv (j - 1) ltac:(lia)) as [D3 _]. rewrite D3 in Hgt. replace (k - (j - 1)) with (Z.succ (k - j)) in Hgt by lia.
  rewrite Z.pow_succ_r in Hgt by lia. lia.
Qed.

Lemma add_small a b :
  x4_ok w a → x4_ok w b → val w a + val w b < 2 ^ (4 * w) → x4_ok w (add w a b) ∧ val w (add w a b) = val w a + val w b.
Proof.
  intros Ha Hb Hlt. destruct (add_spec a b Ha Hb) as [Ho E]. split; [done|]. rewrite E.
  pose proof (val_range a Ha). pose proof (val_range b Hb). apply Z.mod_small. lia.
Qed.
Lemma sub_small a b :
  x4_ok w a → x4_ok w b → val w b ≤ val w a → x4_ok w (sub w a b) ∧ val w (sub w a b) = val w a - val w b.
Proof.
  intros Ha Hb Hlt. destruct (sub_spec a b Ha Hb) as [Ho E]. split; [done|]. rewrite E.
  pose proof (val_range a Ha). pose proof (val_range b Hb). apply Z.mod_small. lia.
Qed.

Section quotient.
Variables (divisor : uint_x4) (A : Z) (ifuel : nat).
Notation D := (val w divisor).
Hypotheses (divisor_ok : x4_ok w divisor) (divisor_pos : 0 < D) (A_word : A < 2 ^ (4 * w))
  (ifuel_enough : 2 ^ (4 * w) ≤ 2 ^ Z.of_nat ifuel).

(** The loop invariant: what is left and what has been counted make the
    dividend, and the factor still fits. *)
Record div_inv (dividend quotient factor qfactor : uint_x4) (k : Z) : Prop := {
  di_dividend : x4_ok w dividend; di_quotient : x4_ok w quotient;
  di_factor : x4_ok w factor; di_qfactor : x4_ok w qfactor;
  di_k : 0 ≤ k; di_f : val w factor = D * 2 ^ k; di_q : val w qfactor = 2 ^ k;
  di_fits : val w factor ≤ val w dividend;
  di_sum : val w dividend + val w quotient * D = A;
}.

(** One round: the factor taken off the dividend and added to the quotient. *)
Lemma div_round d q f qf k :
  div_inv d q f qf k →
  x4_ok w (sub w d f) ∧ x4_ok w (add w q qf) ∧ val w (sub w d f) = val w d - D * 2 ^ k ∧ 0 ≤ val w (sub w d f) ∧
  val w (sub w d f) + val w (add w q qf) * D = A.
Proof.
  intros []. destruct (sub_small d f) as [Os Es]; [done..|]. rewrite di_f0 in *.
  pose proof (val_range q di_quotient0). assert (0 < 2 ^ k) by (apply Z.pow_pos_nonneg; lia).
  destruct (add_small q qf) as [Oa Ea]; [done..|rewrite di_q0; nia|]. rewrite Ea, Es, di_q0. split_and!; (done || nia).
Qed.

Lemma divmod_outer_spec fuel d q f qf k :
  div_inv d q f qf k → k + val w d / (D * 2 ^ k) ≤ Z.of_nat fuel →
  ∃ q' r, divmod_outer w fuel ifuel divisor d q f qf = Some (q', r) ∧ x4_ok w q' ∧ x4_ok w r ∧
    0 ≤ val w r < D ∧ val w r + val w q' * D = A.
Proof.
  revert d q f qf k. induction fuel as [|fuel IH]; intros d q f qf k Hi Hfuel.
  { destruct Hi. assert (0 < D * 2 ^ k) by (apply Z.mul_pos_pos; [done|apply Z.pow_pos_nonneg; lia]).
    assert (1 ≤ val w d / (D * 2 ^ k)) by (apply Z.div_le_lower_bound; lia). lia. }
  destruct (div_round _ _ _ _ _ Hi) as (Os & Oa & Es & Hs0 & Hsum). cbn [divmod_outer].
  set (d' := sub w d f) in *. set (q' := add w q qf) in *. clearbody d' q'.
  pose proof (val_range _ (di_factor _ _ _ _ _ Hi)) as Hrange.
  destruct (Z.lt_ge_cases (val w d') D) as [Hlt|Hge].
  - destruct (divmod_inner_spec ifuel d' f qf) as (j & f' & qf' & -> & _); [done|by apply Hi ..|lia|]. cbn [mbind option_bind].
    unfold geb. rewrite ltb_spec, (proj2 (Z.ltb_lt _ _)) by done. cbn [negb]. exists q', d'. split_and!; done.
  - destruct (divmod_inner_exact ifuel d' f qf D k) as (k' & f' & qf' & -> & Of & Oq & Hk & Ef & Eq & Hle & Hgt);
      [done|apply Hi|apply Hi|lia|done|apply Hi..|done|]. cbn [mbind option_bind].
    unfold geb. rewrite ltb_spec, (proj2 (Z.ltb_ge _ _)) by done. cbn [negb]. apply (IH _ _ _ _ k').
    { constructor; (done || lia). }
    assert (0 < D * 2 ^ k') by (apply Z.mul_pos_pos; [done|apply Z.pow_pos_nonneg; lia]).
    destruct (decide (k' = k)) as [->|].
    + rewrite Es. replace (val w d - D * 2 ^ k) with (val w d + -1 * (D * 2 ^ k)) by lia. rewrite Z.div_add by lia. lia.
    + specialize (Hgt ltac:(lia)). assert (val w d' / (D * 2 ^ k') < 2) by (apply Z.div_lt_upper_bound; lia).
      assert (0 < D * 2 ^ k) by (apply Z.mul_pos_pos; [done|apply Z.pow_pos_nonneg; lia]).
      assert (1 ≤ val w d / (D * 2 ^ k)) by (apply Z.div_le_lower_bound; destruct Hi; lia). lia.
Qed.
End quotient.

(** The first factor underestimates the quotient by a factor of four at most. *)
Lemma first_factor A D :
  0 < D ≤ A → Z.log2 A - Z.log2 D ≠ 0 →
  let k := Z.log2 A - Z.log2 D - 1 in 0 ≤ k ∧ D * 2 ^ k ≤ A ∧ A < 4 * (D * 2 ^ k).
Proof.
  intros HD Hn. cbn. pose proof (Z.log2_le_mono D A ltac:(lia)). pose proof (Z.log2_nonneg D).
  destruct (Z.log2_spec A ltac:(lia)) as [A1 A2]. destruct (Z.log2_spec D ltac:(lia)) as [D1 D2].
  set (la := Z.log2 A) in *. set (ld := Z.log2 D) in *. clearbody la ld. set (k := la - ld - 1).
  assert (0 ≤ k) as Hk by lia. assert (0 < 2 ^ k) by (apply Z.pow_pos_nonneg; lia).
  replace (Z.succ la) with (ld + k + 2) in A2 by lia. replace la with (Z.succ ld + k) in A1 by lia.
  rewrite !Z.pow_add_r in A2 by lia. rewrite Z.pow_add_r in A1 by lia. change (2 ^ 2) with 4 in A2. split_and!; [done|nia|nia].
Qed.

Lemma divmod_spec a b :
  x4_ok w a → x4_ok w b → 0 < val w b →
  ∃ q r, divmod w a b = Some (q, r) ∧ x4_ok w q ∧ x4_ok w r ∧ val w q = val w a / val w b ∧ val w r = val w a mod val w b.
Proof.
  intros Ha Hb Hpos. pose proof (val_range a Ha) as Ra. pose proof (val_range b Hb) as Rb.
  assert (is_word (2 * w) 0) as W0 by (split; [lia|apply word2_pos]).
  assert (is_word (2 * w) 1) as W1 by (split; [lia|rewrite pow2w; pose proof B_two; nia]).
  destruct (of_half_spec 0 W0) as [O0 E0]. destruct (of_half_spec 1 W1) as [O1 E1].
  assert (∀ q r, x4_ok w q → x4_ok w r → 0 ≤ val w r < val w b → val w r + val w q * val w b = val w a →
    ∃ q' r', Some (q, r) = Some (q', r') ∧ x4_ok w q' ∧ x4_ok w r' ∧ val w q' = val w a / val w b ∧
      val w r' = val w a mod val w b) as Hdone.
  { intros q r Oq Or Hr E. exists q, r. split_and!; [done..| |].
    - apply Z.div_unique_pos with (val w r); lia.
    - apply Z.mod_unique_pos with (val w q); lia. }
  unfold divmod. rewrite ltb_spec by done. destruct (Z.ltb_spec (val w a) (val w b)).
  { apply Hdone; [done|done|lia|lia]. }
  rewrite !flog2_spec, !(proj2 (Z.eqb_neq _ _)) by (done || lia). cbn [mbind option_bind].
  destruct (Z.eqb_spec (Z.log2 (val w a) - Z.log2 (val w b)) 0) as [El|Nl].
  { destruct (sub_small a b) as [Os Es]; [done..|]. apply Hdone; [done|done| |lia]. rewrite Es.
    destruct (Z.log2_spec (val w a)) as [A1 A2]; [lia|]. destruct (Z.log2_spec (val w b)) as [B1 B2]; [lia|].
    replace (Z.log2 (val w a)) with (Z.log2 (val w b)) in * by lia. rewrite Z.pow_succ_r in * by apply Z.log2_nonneg. lia. }
  destruct (first_factor (val w a) (val w b) ltac:(lia) Nl) as (Hk & F1 & F2).
  set (k := Z.log2 (val w a) - Z.log2 (val w b) - 1) in *. assert (0 < 2 ^ k) by (apply Z.pow_pos_nonneg; lia).
  destruct (shl_spec b k Hb Hk) as [Of Ef]. destruct (shl_spec (of_half w 1) k O1 Hk) as [Oq Eq].
  rewrite Z.mod_small in Ef by nia. rewrite E1, Z.mod_small in Eq by nia.
  assert (k < 4 * w) as Hk4 by (apply (Z.pow_lt_mono_r_iff 2); nia).
  destruct (divmod_outer_spec b (val w a) (Z.to_nat (4 * w + 1)) Hb Hpos ltac:(lia)) with
    (fuel := Z.to_nat (12 * w + 4)) (d := a) (q := of_half w 0) (f := shl w b k) (qf := shl w (of_half w 1) k) (k := k)
    as (q & r & -> & Oq' & Or & Hr & E).
  - apply Z.pow_le_mono_r; lia.
  - constructor; (done || lia).
  - assert (val w a / (val w b * 2 ^ k) < 4) by (apply Z.div_lt_upper_bound; nia). lia.
  - by apply Hdone.
Qed.
End values.

(** ** The bit-twiddling fall-backs *)

(** Every bit of [x] says whether one of the [n] bits from there up is set in [v]. *)
Definition smeared (n v x : Z) : Prop :=
  ∀ i, 0 ≤ i → Z.testbit x i = true ↔ ∃ j, i ≤ j < i + n ∧ Z.testbit v j = true.

Lemma smear_start v : smeared 1 v v.
Proof. intros i Hi. split; [intros; exists i; split; [lia|done]|]. intros (j & Hj & E). by replace i with j by lia. Qed.

Lemma smear_step n v x : 0 < n → smeared n v x → smeared (n + n) v (x ||| (x ≫ n)).
Proof.
  intros Hn Hs i Hi. rewrite Z.lor_spec, Z.shiftr_spec by lia. rewrite orb_true_iff, (Hs i), (Hs (i + n)) by lia. split.
  - intros [(j & Hj & E)|(j & Hj & E)]; exists j; (split; [lia|done]).
  - intros (j & Hj & E). destruct (Z.lt_ge_cases j (i + n)); [left|right]; exists j; (split; [lia|done]).
Qed.

Lemma smear_all n v x : is_word n v → 0 < v → 0 ≤ n → smeared n v x → 0 ≤ x → x = Z.ones (Z.log2 v + 1).
Proof.
  intros [_ Hv] H0 Hn Hs Hx. pose proof (Z.log2_nonneg v). assert (Z.log2 v < n) by (apply Z.log2_lt_pow2; lia).
  apply Z.bits_inj'. intros i Hi. destruct (Z.lt_ge_cases i (Z.log2 v + 1)) as [L|L].
  - rewrite Z.ones_spec_low by lia. apply Hs; [done|]. exists (Z.log2 v). split; [lia|]. by apply Z.bit_log2.
  - rewrite Z.ones_spec_high by lia. destruct (Z.testbit x i) eqn:E; [|done].
    apply Hs in E as (j & Hj & E); [|done]. rewrite Z.bits_above_log2 in E by lia. done.
Qed.

(** A claim on the integers below [n], by trying each. *)
Lemma forall_below (f : Z → bool) (n : nat) :
  forallb (λ i, f (Z.of_nat i)) (seq 0 n) = true → ∀ i, 0 ≤ i < Z.of_nat n → f i = true.
Proof.
  rewrite forallb_forall. intros H i Hi. rewrite <- (Z2Nat.id i) by lia. apply H, in_seq. lia.
Qed.

Lemma flog2_32_spec v : is_word 32 v → 0 < v → flog2_32 v = Z.log2 v.
Proof.
  intros Hv H0. unfold flog2_32.
  assert (∀ x n, 0 ≤ x → 0 ≤ x ||| (x ≫ n)) as Hnn by (intros; apply Z.lor_nonneg; rewrite Z.shiftr_nonneg; lia).
  set (x1 := v ||| (v ≫ 1)). set (x2 := x1 ||| (x1 ≫ 2)). set (x3 := x2 ||| (x2 ≫ 4)).
  set (x4 := x3 ||| (x3 ≫ 8)). set (x5 := x4 ||| (x4 ≫ 16)).
  assert (smeared 32 v x5) as Hs.
  { apply (smear_step 16), (smear_step 8), (smear_step 4), (smear_step 2), (smear_step 1), smear_start; lia. }
  assert (0 ≤ x5) as Hx by (do 5 apply Hnn; apply Hv). rewrite (smear_all 32 v x5) by (done || lia).
  assert (0 ≤ Z.log2 v < 32) as Hl.
  { split; [apply Z.log2_nonneg|]. apply Z.log2_lt_pow2; [done|apply Hv]. }
  pose proof (forall_below (λ l, at_z flog2_table (Z.to_nat (u32 (Z.ones (l + 1) * 0x07C4ACDD) ≫ 27)) =? l) 32
    ltac:(vm_compute; reflexivity) _ Hl) as E. by apply Z.eqb_eq in E.
Qed.

(** [v & -v] *)
Lemma lowest_bit_and v t : lowest_bit v t → v &&& (- v) = 2 ^ t.
Proof.
  intros (Ht & q & ->).
  replace (- (2 ^ t * (2 * q + 1))) with ((2 * Z.lnot q + 1) ≪ t) by (rewrite Z.shiftl_mul_pow2 by done; unfold Z.lnot; lia).
  replace (2 ^ t * (2 * q + 1)) with ((2 * q + 1) ≪ t) by (rewrite Z.shiftl_mul_pow2 by done; lia).
  rewrite <- Z.shiftl_land. replace ((2 * q + 1) &&& (2 * Z.lnot q + 1)) with 1; [rewrite Z.shiftl_mul_pow2 by done; lia|].
  apply Z.bits_inj'. intros i Hi. rewrite Z.land_spec. destruct (decide (i = 0)) as [->|].
  - rewrite !Z.testbit_odd_0. done.
  - replace i with (Z.succ (i - 1)) by lia. rewrite !Z.testbit_odd_succ, Z.lnot_spec, andb_negb_r by lia.
    apply Z.bits_above_log2; cbn; lia.
Qed.

Lemma lowest_bit_wrap n v t : 0 ≤ n → lowest_bit v t → t < n → v &&& wrap n (- v) = 2 ^ t.
Proof.
  intros Hn Hl Ht. unfold wrap. rewrite <- Z.land_ones, Z.land_assoc, (lowest_bit_and v t Hl), Z.land_ones by done.
  destruct Hl. apply Z.mod_small. split; [apply Z.pow_nonneg; lia|apply Z.pow_lt_mono_r; lia].
Qed.

Lemma lowest_bit_lt n v t : is_word n v → v ≠ 0 → 0 ≤ n → lowest_bit v t → t < n.
Proof.
  intros [H1 H2] H0 Hn (Ht & q & ->). apply (Z.pow_lt_mono_r_iff 2); [lia|done|]. assert (0 < 2 ^ t) by (apply Z.pow_pos_nonneg; lia).
  assert (0 < 2 * q + 1) by (apply (Z.mul_pos_cancel_l (2 ^ t)); lia). nia.
Qed.

Lemma lowest_bit_unique v t t' : lowest_bit v t → lowest_bit v t' → t = t'.
Proof.
  intros H H'. pose proof (lowest_bit_and _ _ H) as E. rewrite (lowest_bit_and _ _ H') in E.
  destruct H, H'. symmetry. apply (Z.pow_inj_r 2); (lia || done).
Qed.

Lemma trailingzeros_32_spec v t : is_word 32 v → v ≠ 0 → lowest_bit v t → trailingzeros_32 v = t.
Proof.
  intros Hv H0 Hl. pose proof (lowest_bit_lt 32 v t Hv H0 ltac:(lia) Hl). unfold trailingzeros_32.
  change (u32 (- v)) with (wrap 32 (- v)). rewrite (lowest_bit_wrap 32 v t) by (done || lia).
  pose proof (forall_below (λ l, at_z ctz_table (Z.to_nat (u32 (2 ^ l * 0x077CB531) ≫ 27)) =? l) 32
    ltac:(vm_compute; reflexivity) t ltac:(destruct Hl; lia)) as E. by apply Z.eqb_eq in E.
Qed.

(** Two halves of [n] bits. *)
Lemma lowest_bit_low n lo hi t : is_word n lo → lo ≠ 0 → 0 ≤ n → lowest_bit lo t → lowest_bit (lo + hi * 2 ^ n) t.
Proof.
  intros Hlo H0 Hn Hl. pose proof (lowest_bit_lt n lo t Hlo H0 Hn Hl). destruct Hl as (Ht & q & ->). split; [done|].
  exists (q + hi * 2 ^ (n - t - 1)). replace (2 ^ n) with (2 ^ t * (2 * 2 ^ (n - t - 1))); [ring|].
  change 2 with (2 ^ 1) at 2. rewrite <- !Z.pow_add_r by lia. f_equal. lia.
Qed.
Lemma lowest_bit_high n hi t : 0 ≤ n → lowest_bit hi t → lowest_bit (0 + hi * 2 ^ n) (t + n).
Proof. intros Hn (Ht & q & ->). split; [lia|]. exists q. rewrite Z.pow_add_r by lia. ring. Qed.

Lemma halves n v : 0 ≤ n → is_word (n + n) v → v = wrap n v + (v ≫ n) * 2 ^ n ∧ is_word n (wrap n v) ∧ is_word n (v ≫ n).
Proof.
  intros Hn [H1 H2]. rewrite Z.pow_add_r in H2 by lia. assert (0 < 2 ^ n) by (apply Z.pow_pos_nonneg; lia).
  rewrite Z.shiftr_div_pow2 by done. unfold wrap, is_word. pose proof (Z.div_mod v (2 ^ n)).
  pose proof (Z.mod_pos_bound v (2 ^ n)). split_and!; [lia|lia|lia|apply Z.div_pos; lia|apply Z.div_lt_upper_bound; lia].
Qed.

(** A logarithm, or a count of zeros, of [2n] bits from one of [n] bits. *)
Lemma log2_halves n hi lo v :
  0 ≤ n → is_word n lo → is_word n hi → v = lo + hi * 2 ^ n → 0 < v →
  Z.log2 v = if negb (hi =? 0) then n + Z.log2 hi else Z.log2 lo.
Proof.
  intros Hn Hlo Hhi -> Hv. destruct (Z.eqb_spec hi 0) as [->|]; cbn [negb]; [f_equal; lia|].
  unfold is_word in Hhi. rewrite log2_word_add by (done || lia). lia.
Qed.
Lemma ctz_halves n (ctz : Z → Z) hi lo v :
  0 ≤ n → (∀ x, is_word n x → x ≠ 0 → lowest_bit x (ctz x)) →
  is_word n lo → is_word n hi → v = lo + hi * 2 ^ n → v ≠ 0 →
  lowest_bit v (if negb (lo =? 0) then ctz lo else ctz hi + n).
Proof.
  intros Hn Hc Hlo Hhi -> Hv. destruct (Z.eqb_spec lo 0) as [->|]; cbn [negb].
  - apply lowest_bit_high; [done|]. apply Hc; [done|lia].
  - apply lowest_bit_low; [done..|]. by apply Hc.
Qed.

Lemma flog2_64_spec v : is_word 64 v → 0 < v → flog2_64 v = Z.log2 v.
Proof.
  intros Hv H0. destruct (halves 32 v ltac:(lia) Hv) as (E & Hl & Hh). unfold flog2_64.
  change (u32 v) with (wrap 32 v). rewrite (log2_halves 32 _ _ v ltac:(lia) Hl Hh E H0). unfold is_word in *.
  destruct (Z.eqb_spec (v ≫ 32) 0) as [E0|]; cbn [negb]; rewrite flog2_32_spec; unfold is_word; (done || lia).
Qed.
Lemma trailingzeros_64_spec v : is_word 64 v → v ≠ 0 → lowest_bit v (trailingzeros_64 v).
Proof.
  intros Hv H0. destruct (halves 32 v ltac:(lia) Hv) as (E & Hl & Hh).
  apply (ctz_halves 32 trailingzeros_32 (v ≫ 32) (wrap 32 v)); [lia| |done..].
  intros x Hx Hx0. pose proof (trailingzeros_spec 32 x Hx Hx0) as Ht. by rewrite (trailingzeros_32_spec x _ Hx Hx0 Ht).
Qed.
Lemma flog2_128_spec v : is_word 128 v → 0 < v → flog2_128 v = Z.log2 v.
Proof.
  intros Hv H0. destruct (halves 64 v ltac:(lia) Hv) as (E & Hl & Hh). unfold flog2_128, flog2.
  rewrite (u64_small (v ≫ 64)) by done. change (u64 v) with (wrap 64 v). symmetry. by apply log2_halves.
Qed.
Lemma trailingzeros_128_spec v : is_word 128 v → v ≠ 0 → lowest_bit v (trailingzeros_128 v).
Proof.
  intros Hv H0. destruct (halves 64 v ltac:(lia) Hv) as (E & Hl & Hh). unfold trailingzeros_128.
  rewrite (u64_small (v ≫ 64)) by done. apply (ctz_halves 64 (trailingzeros 64) (v ≫ 64) (wrap 64 v)); [lia| |done..].
  intros x Hx Hx0. by apply (trailingzeros_spec 64).
Qed.

Lemma clog2_spec w v : 0 < w → is_word w v → 0 < v → uint_clog2 w v = Z.log2_up v.
Proof.
  intros Hw Hv H0. assert (is_word (Z.of_nat (Z.to_nat w)) v) as Hv' by (by rewrite Z2Nat.id by lia).
  pose proof (trailingzeros_spec _ v Hv' ltac:(lia)) as Hl. set (t := trailingzeros _ v) in Hl.
  pose proof (lowest_bit_lt w v t Hv ltac:(lia) ltac:(lia) Hl) as Ht. unfold uint_clog2, flog2.
  rewrite (lowest_bit_wrap w v t) by (done || lia).
  pose proof (Z.log2_log2_up_exact v H0) as [X1 X2]. pose proof (Z.le_log2_log2_up v). pose proof (Z.le_log2_up_succ_log2 v).
  destruct (Z.eqb_spec (2 ^ t) v) as [E|N]; cbn [negb Z.b2z].
  - rewrite Z.add_0_r. apply X2. by exists t.
  - assert (Z.log2 v ≠ Z.log2_up v); [|lia]. intros [b Eb]%X1. apply N. rewrite Eb in Hl. rewrite Eb. f_equal.
    apply (lowest_bit_unique (2 ^ b)); [done|]. split; [|exists 0; lia].
    destruct (Z.lt_ge_cases b 0); [|done]. rewrite Z.pow_neg_r in Eb by done. lia.
Qed.

(** ** The 64-bit specialisations *)

Lemma of64_val hi lo :
  is_word 64 hi → is_word 64 lo → x4_ok 32 (of64 hi lo) ∧ val 32 (of64 hi lo) = lo + hi * 2 ^ 64.
Proof. intros Hh Hl. destruct (of_halves_spec 32 ltac:(lia) hi lo Hh Hl) as (? & _ & _ & ?). done. Qed.

Lemma x4_64 a : x4_ok 32 a → is_word 64 (lo64 a) ∧ is_word 64 (hi64 a) ∧ val 32 a = lo64 a + hi64 a * 2 ^ 64.
Proof.
  intros Ha. split_and!; [apply (v01_word 32 ltac:(lia) a Ha)|apply (v23_word 32 ltac:(lia) a Ha)|].
  apply (val_halves 32 a).
Qed.

(** A result of two 64-bit halves is a value modulo 2^128. *)
Lemma of64_mod hi lo z k :
  is_word 64 hi → is_word 64 lo → lo + hi * 2 ^ 64 = z - 2 ^ 128 * k →
  x4_ok 32 (of64 hi lo) ∧ val 32 (of64 hi lo) = z mod 2 ^ (4 * 32).
Proof.
  intros Hh Hl E. destruct (of64_val hi lo Hh Hl) as [Ho Ev]. split; [done|]. apply (val_mod 32 ltac:(lia) _ z k Ho). by rewrite Ev.
Qed.

Lemma u64_eq x : ∃ q, u64 x = x - 2 ^ 64 * q.
Proof. exists (x / 2 ^ 64). pose proof (Z.div_mod x (2 ^ 64)). unfold u64. lia. Qed.
Lemma u64_word x : is_word 64 (u64 x).
Proof. apply Z.mod_pos_bound. done. Qed.
Lemma word64_0 : is_word 64 0.
Proof. done. Qed.

Lemma mul_64_spec a b :
  x4_ok 32 a → x4_ok 32 b → x4_ok 32 (mul_64 a b) ∧ val 32 (mul_64 a b) = (val 32 a * val 32 b) mod 2 ^ (4 * 32).
Proof.
  intros Ha Hb. destruct (x4_64 a Ha) as ([A1 A2] & _ & ->). destruct (x4_64 b Hb) as ([B1 B2] & _ & ->). unfold mul_64.
  set (r := lo64 a * lo64 b). set (h := hi64 a * lo64 b + lo64 a * hi64 b).
  destruct (split_word 64 ltac:(lia) r) as [Er _]; [unfold r; nia|].
  destruct (u64_eq (r ≫ 64 + h)) as [q Eq]. apply of64_mod with (q + hi64 a * hi64 b); [apply u64_word..|].
  rewrite Eq. change (u64 r) with (wrap 64 r). unfold h, r in *. lia.
Qed.

Lemma add_64_spec a b :
  x4_ok 32 a → x4_ok 32 b → x4_ok 32 (add_64 a b) ∧ val 32 (add_64 a b) = (val 32 a + val 32 b) mod 2 ^ (4 * 32).
Proof.
  intros Ha Hb. destruct (x4_64 a Ha) as (A1 & A2 & ->). destruct (x4_64 b Hb) as (B1 & B2 & ->). unfold add_64.
  pose proof (addwithcarry_spec 64 ltac:(lia) (lo64 a) (lo64 b) false A1 B1) as H1.
  destruct (addwithcarry 64 (lo64 a) (lo64 b) false) as [r1 c1]. destruct H1 as [W1 E1].
  pose proof (addwithcarry_spec 64 ltac:(lia) (hi64 a) (hi64 b) c1 A2 B2) as H2.
  destruct (addwithcarry 64 (hi64 a) (hi64 b) c1) as [r2 c2]. destruct H2 as [W2 E2].
  apply of64_mod with (Z.b2z c2); [done..|]. cbn [Z.b2z] in E1. lia.
Qed.
Lemma sub_64_spec a b :
  x4_ok 32 a → x4_ok 32 b → x4_ok 32 (sub_64 a b) ∧ val 32 (sub_64 a b) = (val 32 a - val 32 b) mod 2 ^ (4 * 32).
Proof.
  intros Ha Hb. destruct (x4_64 a Ha) as (A1 & A2 & ->). destruct (x4_64 b Hb) as (B1 & B2 & ->). unfold sub_64.
  pose proof (subwithcarry_spec 64 ltac:(lia) (lo64 a) (lo64 b) false A1 B1) as H1.
  destruct (subwithcarry 64 (lo64 a) (lo64 b) false) as [r1 c1]. destruct H1 as [W1 E1].
  pose proof (subwithcarry_spec 64 ltac:(lia) (hi64 a) (hi64 b) c1 A2 B2) as H2.
  destruct (subwithcarry 64 (hi64 a) (hi64 b) c1) as [r2 c2]. destruct H2 as [W2 E2].
  apply of64_mod with (- Z.b2z c2); [done..|]. cbn [Z.b2z] in E1. lia.
Qed.

(** [s] bits of a 64-bit word [x] move across its end. *)
Lemma cut64 x s :
  is_word 64 x → 0 < s < 64 →
  2 ^ 64 = 2 ^ s * 2 ^ (64 - s) ∧ 0 < 2 ^ s ∧ 0 < 2 ^ (64 - s) ∧
  u64 (x ≪ s) = (x mod 2 ^ (64 - s)) * 2 ^ s ∧ x ≫ (64 - s) = x / 2 ^ (64 - s) ∧
  0 ≤ x mod 2 ^ (64 - s) < 2 ^ (64 - s) ∧ 0 ≤ x / 2 ^ (64 - s) < 2 ^ s.
Proof.
  intros [X1 X2] Hs. assert (2 ^ 64 = 2 ^ s * 2 ^ (64 - s)) as E by (rewrite <- Z.pow_add_r by lia; f_equal; lia).
  assert (0 < 2 ^ s) by (apply Z.pow_pos_nonneg; lia). assert (0 < 2 ^ (64 - s)) by (apply Z.pow_pos_nonneg; lia).
  split_and!; try done; try (apply Z.mod_pos_bound; lia).
  - unfold u64. rewrite Z.shiftl_mul_pow2, E, Z.mul_comm, Z.mul_mod_distr_l by lia. lia.
  - rewrite Z.shiftr_div_pow2 by lia. done.
  - apply Z.div_pos; lia.
  - apply Z.div_lt_upper_bound; lia.
Qed.

Lemma lor_mul_add a b n : 0 ≤ n → 0 ≤ a < 2 ^ n → b * 2 ^ n ||| a = a + b * 2 ^ n.
Proof. intros Hn Ha. rewrite Z.lor_comm, <- lor_shiftl_add, Z.shiftl_mul_pow2 by done. done. Qed.

Lemma shl_64_spec v s :
  x4_ok 32 v → 0 ≤ s < 128 → x4_ok 32 (shl_64 v s) ∧ val 32 (shl_64 v s) = (val 32 v * 2 ^ s) mod 2 ^ (4 * 32).
Proof.
  intros Hv Hs. destruct (x4_64 v Hv) as (L & H & ->). unfold shl_64. destruct (Z.leb_spec 64 s).
  - destruct (u64_eq (lo64 v ≪ (s - 64))) as [q Eq]. rewrite Eq, Z.shiftl_mul_pow2 by lia.
    replace (2 ^ s) with (2 ^ (s - 64) * 2 ^ 64) by (rewrite <- Z.pow_add_r by lia; f_equal; lia).
    rewrite <- Z.shiftl_mul_pow2, <- Eq, Z.shiftl_mul_pow2 by lia.
    apply of64_mod with (q + hi64 v * 2 ^ (s - 64)); [apply u64_word|apply word64_0|]. rewrite Z.shiftl_mul_pow2 in Eq by lia. lia.
  - destruct (Z.eqb_spec s 0) as [->|]; cbn [negb].
    { rewrite Z.shiftl_0_r, u64_small by done. apply of64_mod with 0; [done..|]. lia. }
    destruct (cut64 (lo64 v) s L ltac:(lia)) as (E & P1 & P2 & -> & -> & R1 & R2).
    destruct (cut64 (hi64 v) s H ltac:(lia)) as (_ & _ & _ & -> & _ & R3 & R4).
    pose proof (Z.div_mod (lo64 v) (2 ^ (64 - s))) as Dl. pose proof (Z.div_mod (hi64 v) (2 ^ (64 - s))) as Dh.
    rewrite lor_mul_add by lia.
    apply of64_mod with (hi64 v / 2 ^ (64 - s)); unfold is_word; [nia|nia|]. change (2 ^ 128) with (2 ^ 64 * 2 ^ 64). rewrite E in *. nia.
Qed.

Lemma shr_64_spec v s :
  x4_ok 32 v → 0 ≤ s < 128 → x4_ok 32 (shr_64 v s) ∧ val 32 (shr_64 v s) = val 32 v / 2 ^ s.
Proof.
  intros Hv Hs. destruct (x4_64 v Hv) as (L & H & ->). unfold shr_64. destruct (Z.leb_spec 64 s).
  - assert (0 < 2 ^ (s - 64)) by (apply Z.pow_pos_nonneg; lia). rewrite Z.shiftr_div_pow2 by lia.
    destruct (of64_val 0 (hi64 v / 2 ^ (s - 64))) as [Ho ->]; [apply word64_0| |].
    { unfold is_word in *. split; [apply Z.div_pos; lia|apply Z.div_lt_upper_bound; nia]. }
    split; [done|]. replace (2 ^ s) with (2 ^ 64 * 2 ^ (s - 64)) by (rewrite <- Z.pow_add_r by lia; f_equal; lia).
    rewrite <- Z.div_div, Z.div_add, (Z.div_small (lo64 v)) by (done || lia). by rewrite Z.add_0_l, Z.mul_0_l, Z.add_0_r.
  - destruct (Z.eqb_spec s 0) as [->|]; cbn [negb].
    { rewrite Z.shiftr_0_r, Z.div_1_r. by apply of64_val. }
    destruct (cut64 (hi64 v) (64 - s) H ltac:(lia)) as (E & P1 & P2 & -> & _ & R3 & R4). replace (64 - (64 - s)) with s in * by lia.
    rewrite !Z.shiftr_div_pow2 by lia. unfold is_word in *.
    assert (0 ≤ lo64 v / 2 ^ s < 2 ^ (64 - s)) as R5 by (split; [apply Z.div_pos; lia|apply Z.div_lt_upper_bound; lia]).
    rewrite Z.lor_comm, lor_mul_add by lia.
    destruct (of64_val (hi64 v / 2 ^ s) (lo64 v / 2 ^ s + (hi64 v mod 2 ^ s) * 2 ^ (64 - s))) as [Ho ->];
      [unfold is_word; nia..|]. split; [done|].
    pose proof (Z.div_mod (hi64 v) (2 ^ s)) as Dh. set (h := hi64 v / 2 ^ s) in *. set (m := hi64 v mod 2 ^ s) in *.
    rewrite Dh, E by lia. replace (lo64 v + (2 ^ s * h + m) * (2 ^ (64 - s) * 2 ^ s))
      with (lo64 v + (m * 2 ^ (64 - s) + h * (2 ^ (64 - s) * 2 ^ s)) * 2 ^ s) by ring.
    rewrite Z.div_add by lia. lia.
Qed.

Lemma x4_flog2_64_spec v : x4_ok 32 v → 0 < val 32 v → x4_flog2_64 v = Z.log2 (val 32 v).
Proof.
  intros Hv H0. destruct (x4_64 v Hv) as (L & H & E). rewrite (log2_halves 64 _ _ _ ltac:(lia) L H E H0).
  unfold x4_flog2_64, flog2. unfold is_word in *. destruct (Z.ltb_spec 0 (hi64 v)), (Z.eqb_spec (hi64 v) 0); cbn [negb]; lia.
Qed.
Lemma x4_trailingzeros_64_spec v : x4_ok 32 v → val 32 v ≠ 0 → lowest_bit (val 32 v) (x4_trailingzeros_64 v).
Proof.
  intros Hv H0. destruct (x4_64 v Hv) as (L & H & E).
  pose proof (ctz_halves 64 (trailingzeros 64) _ _ _ ltac:(lia) (trailingzeros_spec 64) L H E H0) as Hl.
  unfold x4_trailingzeros_64. by destruct (lo64 v =? 0).
Qed.

Lemma neg_spec w v : 0 < w → x4_ok w v → x4_ok w (neg w v) ∧ val w (neg w v) = (- val w v) mod 2 ^ (4 * w).
Proof.
  intros Hw Hv. destruct (of_half_spec w Hw 0) as [O E]; [split; [lia|by apply word2_pos]|].
  destruct (sub_spec w Hw (of_half w 0) v O Hv) as [O' E']. rewrite E in E'. done.
Qed.

(** ** Properties *)

(** [r] is a well-formed integer of value [z]. *)
Definition x4_is (w : Z) (r : uint_x4) (z : Z) : Prop := x4_ok w r ∧ val w r = z.

(** For words of any width, the operators of the emulated integer are those
    of an unsigned integer of four words: sums, differences, products and
    shifts modulo 2^(4w), the bitwise operators and comparisons on the values,
    and the bit counts are the logarithm and the position of the lowest set
    bit, [flog2(0)] being the only call that aborts. *)
Theorem x4_operators w a b s :
  0 < w → x4_ok w a → x4_ok w b → 0 ≤ s ≤ 4 * w →
  let M := 2 ^ (4 * w) in let x := val w a in let y := val w b in
  x4_is w (add w a b) ((x + y) mod M) ∧ x4_is w (sub w a b) ((x - y) mod M) ∧ x4_is w (neg w a) ((- x) mod M) ∧
  x4_is w (mul w a b) ((x * y) mod M) ∧ x4_is w (mul_half w a (v01 w b)) ((x * (y mod 2 ^ (2 * w))) mod M) ∧
  x4_is w (x4_and w a b) (x &&& y) ∧ x4_is w (x4_or w a b) (x ||| y) ∧ x4_is w (x4_xor w a b) (x ^^^ y) ∧
  x4_is w (x4_not w a) (M - 1 - x) ∧ x4_is w (shl w a s) ((x * 2 ^ s) mod M) ∧ x4_is w (shr w a s) (x / 2 ^ s) ∧
  eqb w a b = (x =? y) ∧ ltb w a b = (x <? y) ∧ gtb w a b = (y <? x) ∧ leb w a b = (x <=? y) ∧ geb w a b = (y <=? x) ∧
  x4_flog2 w a = (if x =? 0 then None else Some (Z.log2 x)) ∧
  (x = 0 → x4_trailingzeros w a = 4 * w) ∧ (x ≠ 0 → lowest_bit x (x4_trailingzeros w a)).
Proof.
  intros Hw Ha Hb Hs. cbn zeta. destruct (logic_spec w Hw a b Ha Hb) as (L1 & L2 & L3).
  destruct (x4_trailingzeros_spec w Hw a Ha) as [T1 T2]. destruct (halves_mod w Hw b Hb) as [<- _].
  split_and!; try done; unfold x4_is, gtb, leb, geb; rewrite ?ltb_spec, <- ?Z.leb_antisym by done; try done.
  - by apply add_spec.
  - by apply sub_spec.
  - by apply neg_spec.
  - by apply mul_spec.
  - apply mul_half_spec; [done..|]. by apply v01_word.
  - by apply not_spec.
  - apply shl_spec; (done || lia).
  - by apply shr_spec.
  - by apply eqb_spec.
  - by apply flog2_spec.
Qed.
Lemma x4_operators_witness : x4_is 8 (mul 8 (X4 255 255 255 255) (X4 3 0 0 0)) 4294967293.
Proof. apply (x4_operators 8 (X4 255 255 255 255) (X4 3 0 0 0) 9); [done|repeat constructor; done..|done]. Defined.

(** The specialisations for 64-bit halves are the generic operators at
    32-bit words, for every operand and every shift a 128-bit integer takes. *)
Theorem x4_64_generic a b s :
  x4_ok 32 a → x4_ok 32 b → 0 ≤ s < 128 →
  mul_64 a b = mul 32 a b ∧ add_64 a b = add 32 a b ∧ sub_64 a b = sub 32 a b ∧
  shl_64 a s = shl 32 a s ∧ shr_64 a s = shr 32 a s ∧
  (val 32 a ≠ 0 → x4_flog2 32 a = Some (x4_flog2_64 a) ∧ x4_trailingzeros_64 a = x4_trailingzeros 32 a).
Proof.
  intros Ha Hb Hs. assert (0 < 32) as Hw by lia.
  assert (∀ r r' z, x4_ok 32 r ∧ val 32 r = z → x4_ok 32 r' ∧ val 32 r' = z → r = r') as Heq.
  { intros r r' z [O E] [O' E']. apply (val_inj 32 Hw); congruence. }
  split_and!.
  - eapply Heq; [by apply mul_64_spec|by apply mul_spec].
  - eapply Heq; [by apply add_64_spec|by apply add_spec].
  - eapply Heq; [by apply sub_64_spec|by apply sub_spec].
  - eapply Heq; [by apply shl_64_spec|apply shl_spec; (done || lia)].
  - eapply Heq; [by apply shr_64_spec|apply shr_spec; (done || lia)].
  - intros Hn. pose proof (val_range 32 Hw a Ha). split.
    + rewrite flog2_spec, (proj2 (Z.eqb_neq _ _)), x4_flog2_64_spec by (done || lia). done.
    + apply (lowest_bit_unique (val 32 a)); [by apply x4_trailingzeros_64_spec|by apply x4_trailingzeros_spec].
Qed.
Lemma x4_64_generic_witness : shr_64 (X4 1 2 3 4) 100 = shr 32 (X4 1 2 3 4) 100.
Proof. apply (x4_64_generic (X4 1 2 3 4) (X4 0 0 0 0) 100); [repeat constructor; done..|done]. Defined.

(** C30: the shift-and-subtract division ends for every dividend and divisor
    and returns the quotient and the remainder; it aborts on a zero divisor
    only. *)
Theorem divmod_exact w a b :
  0 < w → x4_ok w a → x4_ok w b →
  if val w b =? 0 then divmod w a b = None
  else ∃ q r, divmod w a b = Some (q, r) ∧ div w a b = Some q ∧ rem w a b = Some r ∧
         x4_is w q (val w a / val w b) ∧ x4_is w r (val w a mod val w b).
Proof.
  intros Hw Ha Hb. pose proof (val_range w Hw b Hb). pose proof (val_range w Hw a Ha).
  destruct (Z.eqb_spec (val w b) 0) as [E|N].
  - unfold divmod. rewrite ltb_spec, (proj2 (Z.ltb_ge _ _)) by (done || lia). by rewrite (flog2_spec w Hw b), (proj2 (Z.eqb_eq _ _) E) by done.
  - destruct (divmod_spec w Hw a b Ha Hb ltac:(lia)) as (q & r & E & Oq & Or & Eq & Er). exists q, r.
    unfold div, rem. rewrite E. done.
Qed.
Lemma divmod_exact_witness :
  ∃ q r, divmod 32 (X4 7 0 0 1) (X4 10 0 0 0) = Some (q, r) ∧ div 32 (X4 7 0 0 1) (X4 10 0 0 0) = Some q ∧
    rem 32 (X4 7 0 0 1) (X4 10 0 0 0) = Some r ∧ x4_is 32 q 7922816251426433759354395034 ∧ x4_is 32 r 3.
Proof. apply (divmod_exact 32 (X4 7 0 0 1) (X4 10 0 0 0)); [done|repeat constructor; done..]. Defined.

(** The multiply-and-look-up replacements for the compiler intrinsics
    compute the logarithm and the position of the lowest set bit of every
    non-zero 32-bit and 64-bit word, those for [__uint128_t] of every non-zero
    128-bit integer, and [clog2] is the logarithm rounded up. *)
Theorem bit_counts_exact v :
  0 < v →
  (is_word 32 v → flog2_32 v = Z.log2 v ∧ trailingzeros_32 v = trailingzeros 32 v) ∧
  (is_word 64 v → flog2_64 v = Z.log2 v ∧ trailingzeros_64 v = trailingzeros 64 v) ∧
  (is_word 128 v → flog2_128 v = Z.log2 v ∧ lowest_bit v (trailingzeros_128 v)) ∧
  ∀ w, 0 < w → is_word w v → uint_clog2 w v = Z.log2_up v.
Proof.
  intros Hv. assert (v ≠ 0) as Hn by lia. split_and!.
  - intros Hw. split; [by apply flog2_32_spec|]. apply trailingzeros_32_spec; [done..|]. by apply (trailingzeros_spec 32).
  - intros Hw. split; [by apply flog2_64_spec|].
    apply (lowest_bit_unique v); [by apply trailingzeros_64_spec|by apply (trailingzeros_spec 64)].
  - intros Hw. split; [by apply flog2_128_spec|by apply trailingzeros_128_spec].
  - intros w Hw Hvw. by apply clog2_spec.
Qed.
Lemma bit_counts_exact_witness : flog2_32 0x12345678 = 28.
Proof. destruct (bit_counts_exact 0x12345678 ltac:(done)) as [H _]. by destruct H as [-> _]. Defined.
