(* ===== verification/Bytes.v ===== *)
(** * Bytes: byte buffers and the little-endian integer codecs

    Byte vectors ([device::data_t], [std::vector<uint8_t>]) are [list Z] whose
    elements satisfy [is_u8]; strobe vectors are [list bool].  The device
    models share two member templates, [serializeInt] and [deserializeInt]
    (src/sysmod/clint/clint.h and verbatim copies in aclint, htif, io_device,
    aplic_device, sep_entropy_fifo and mmr_txn_router); they are translated
    loop by loop here and related to the standard little-endian encoding.

    A C++ [operator[]] outside the vector is undefined behaviour.  The model
    reads 0 and drops the store there; every theorem that depends on an access
    being in range says so in its hypotheses. *)

From S2P Require Import Prelude.

(** [for (i = 0; i < n; ++i, x >>= 8) data[i] = x & 0xff;] from index [i] on,
    with [n] iterations left. *)
Fixpoint serializeInt_from (i n : nat) (x : Z) (data : list Z) : list Z :=
  match n with
  | O => data
  | S n' => serializeInt_from (S i) n' (x ≫ 8) (<[i := x &&& 0xff]> data)
  end.

Definition serializeInt (x : Z) (n : nat) (data : list Z) : list Z :=
  serializeInt_from 0 n x data.

(** [x = 0; for (i = 0; i < sizeof(x); ++i) x |= INT(data[i]) << i * 8;]
    for an integer type of [w] bytes. *)
Definition deserializeInt (w : nat) (data : list Z) : Z :=
  foldl (λ x i, x ||| (at_z data i ≪ (8 * Z.of_nat i))) 0 (seq 0 w).

(** ** Reference encoding *)

Fixpoint le_bytes (n : nat) (x : Z) : list Z :=
  match n with
  | O => []
  | S n' => x &&& 0xff :: le_bytes n' (x ≫ 8)
  end.

Fixpoint le_value (bs : list Z) : Z :=
  match bs with
  | [] => 0
  | b :: bs' => b + le_value bs' * 2 ^ 8
  end.

Lemma length_le_bytes n x : length (le_bytes n x) = n.
Proof. revert x; induction n; intros; simpl; auto. Qed.

Lemma le_bytes_u8 n x : Forall is_u8 (le_bytes n x).
Proof. revert x; induction n; intros; simpl; constructor; auto with rvt. Qed.
#[export] Hint Resolve le_bytes_u8 : rvt.

Lemma le_bytes_lookup n x i :
  (i < n)%nat → le_bytes n x !! i = Some ((x ≫ (8 * Z.of_nat i)) &&& 0xff).
Proof.
  revert x i; induction n as [|n IH]; intros x i Hi; [lia|].
  destruct i as [|i]; simpl.
  - by rewrite Z.shiftr_0_r.
  - rewrite IH by lia. rewrite Z.shiftr_shiftr by lia. do 3 f_equal. lia.
Qed.

Lemma le_bytes_app n m x :
  le_bytes (n + m) x = le_bytes n x ++ le_bytes m (x ≫ (8 * Z.of_nat n)).
Proof.
  revert x; induction n as [|n IH]; intros x; simpl.
  - by rewrite Z.shiftr_0_r.
  - rewrite IH, Z.shiftr_shiftr by lia. do 4 f_equal. lia.
Qed.

Lemma le_value_range bs : Forall is_u8 bs → 0 ≤ le_value bs < 2 ^ (8 * Z.of_nat (length bs)).
Proof.
  induction 1 as [|b bs [Hb1 Hb2] _ IH]; simpl length; [simpl; lia|].
  replace (8 * Z.of_nat (S (length bs))) with (8 + 8 * Z.of_nat (length bs)) by lia.
  rewrite Z.pow_add_r by lia. simpl le_value. nia.
Qed.

Lemma le_value_app bs cs :
  Forall is_u8 bs →
  le_value (bs ++ cs) = le_value bs + le_value cs * 2 ^ (8 * Z.of_nat (length bs)).
Proof.
  induction 1 as [|b bs _ _ IH]; [simpl; lia|].
  simpl length.
  replace (8 * Z.of_nat (S (length bs))) with (8 + 8 * Z.of_nat (length bs)) by lia.
  rewrite Z.pow_add_r by lia. simpl. rewrite IH. lia.
Qed.

Lemma le_value_drop bs k :
  Forall is_u8 bs → (k ≤ length bs)%nat →
  le_value (drop k bs) = le_value bs / 2 ^ (8 * Z.of_nat k).
Proof.
  intros Hu Hk. rewrite <- (take_drop k bs) at 2.
  assert (Forall is_u8 (take k bs)) as Ht by (by apply Forall_take).
  pose proof (le_value_range _ Ht) as Hr. rewrite length_take, Nat.min_l in Hr by done.
  rewrite le_value_app, length_take, Nat.min_l by done.
  rewrite Z.div_add, Z.div_small by lia. lia.
Qed.

Lemma le_value_bytes n x : le_value (le_bytes n x) = x mod 2 ^ (8 * Z.of_nat n).
Proof.
  revert x; induction n as [|n IH]; intros x; simpl.
  - by rewrite Z.mod_1_r.
  - rewrite IH, land_ff, Z.shiftr_div_pow2 by lia.
    replace (8 * Z.of_nat (S n)) with (8 + 8 * Z.of_nat n) by lia.
    rewrite Z.pow_add_r, Z.rem_mul_r by lia. lia.
Qed.

Lemma le_bytes_value bs : Forall is_u8 bs → le_bytes (length bs) (le_value bs) = bs.
Proof.
  induction 1 as [|b bs [Hb1 Hb2] _ IH]; [done|]. simpl.
  rewrite land_ff, Z.shiftr_div_pow2 by lia. f_equal.
  - rewrite Z.mod_add by lia. by apply Z.mod_small.
  - by rewrite Z.div_add, Z.div_small by lia.
Qed.

(** ** The loops compute the reference encoding *)

Lemma length_serializeInt_from i n x data :
  length (serializeInt_from i n x data) = length data.
Proof.
  revert i x data; induction n; intros; simpl; [done|].
  by rewrite IHn, length_insert.
Qed.

Lemma length_serializeInt x n data : length (serializeInt x n data) = length data.
Proof. apply length_serializeInt_from. Qed.

Lemma serializeInt_from_spec i n x data :
  (i + n ≤ length data)%nat →
  serializeInt_from i n x data = take i data ++ le_bytes n x ++ drop (i + n) data.
Proof.
  revert i x data; induction n as [|n IH]; intros i x data Hlen; simpl.
  - by rewrite Nat.add_0_r, take_drop.
  - rewrite IH by (rewrite length_insert; lia).
    rewrite (take_S_r _ i (x &&& 0xff)) by (apply list_lookup_insert_eq; lia).
    rewrite take_insert_ge by lia. rewrite <- app_assoc. simpl.
    rewrite drop_insert_lt by lia.
    do 4 f_equal. lia.
Qed.

Lemma serializeInt_spec x n data :
  (n ≤ length data)%nat → serializeInt x n data = le_bytes n x ++ drop n data.
Proof. intros. unfold serializeInt. by rewrite serializeInt_from_spec. Qed.

(** A device read buffer has exactly the access length. *)
Lemma serializeInt_full x n data :
  length data = n → serializeInt x n data = le_bytes n x.
Proof.
  intros Hn. rewrite serializeInt_spec by lia.
  by rewrite drop_ge, app_nil_r by lia.
Qed.

Lemma deserializeInt_S w data :
  deserializeInt (S w) data =
  deserializeInt w data ||| (at_z data w ≪ (8 * Z.of_nat w)).
Proof. unfold deserializeInt. by rewrite seq_S, foldl_snoc. Qed.

Lemma deserializeInt_spec w data :
  Forall is_u8 data → (w ≤ length data)%nat →
  deserializeInt w data = le_value (take w data).
Proof.
  intros Hu. induction w as [|w IH]; intros Hlen; [done|].
  destruct (lookup_lt_is_Some_2 data w) as [b Hb]; [lia|].
  rewrite deserializeInt_S, IH by lia.
  rewrite (at_z_Some _ _ _ Hb), (take_S_r _ _ _ Hb).
  assert (Ht : Forall is_u8 (take w data)) by by apply Forall_take.
  assert (Hl : length (take w data) = w) by (rewrite length_take; lia).
  pose proof (le_value_range _ Ht) as Hr. rewrite Hl in Hr.
  rewrite lor_shiftl_add, le_value_app, Hl by (done || lia).
  simpl. lia.
Qed.

Lemma deserializeInt_range w data :
  Forall is_u8 data → (w ≤ length data)%nat →
  0 ≤ deserializeInt w data < 2 ^ (8 * Z.of_nat w).
Proof.
  intros Hu Hl. rewrite deserializeInt_spec by done.
  pose proof (le_value_range (take w data) ltac:(by apply Forall_take)) as H.
  rewrite length_take in H. by replace (w `min` length data)%nat with w in H by lia.
Qed.

(** ** Round trips *)

Lemma deserializeInt_serializeInt w n x data :
  (w ≤ n)%nat → (n ≤ length data)%nat → Forall is_u8 data → 
  deserializeInt w (serializeInt x n data) = x mod 2 ^ (8 * Z.of_nat w).
Proof.
  intros Hwn Hn Hu.
  rewrite deserializeInt_spec.
  - rewrite serializeInt_spec by done.
    replace n with (w + (n - w))%nat by lia.
    rewrite le_bytes_app, <- app_assoc, take_app_length'
      by (by rewrite length_le_bytes).
    apply le_value_bytes.
  - rewrite serializeInt_spec by done. apply Forall_app_2; auto with rvt.
    by apply Forall_drop.
  - rewrite length_serializeInt. lia.
Qed.

Lemma serializeInt_deserializeInt w data buf :
  Forall is_u8 data → (w ≤ length data)%nat → length buf = w →
  serializeInt (deserializeInt w data) w buf = take w data.
Proof.
  intros Hu Hl Hb. rewrite serializeInt_full by done.
  rewrite deserializeInt_spec by done.
  rewrite <- (le_bytes_value (take w data)) at 2 by (by apply Forall_take).
  f_equal. rewrite length_take. lia.
Qed.

(** ** Byte windows *)

(** [d] written over [l] from position [o] on. *)
Definition splice (l : list Z) (o : nat) (d : list Z) : list Z :=
  take o l ++ d ++ drop (o + length d) l.

Lemma le_bytes_mod n x : le_bytes n x = le_bytes n (x mod 2 ^ (8 * Z.of_nat n)).
Proof.
  rewrite <- (le_bytes_value (le_bytes n x)) by auto with rvt.
  by rewrite length_le_bytes, le_value_bytes.
Qed.

Lemma le_bytes_deserialize n data :
  Forall is_u8 data → (n ≤ length data)%nat → le_bytes n (deserializeInt n data) = take n data.
Proof.
  intros Hu Hl. rewrite deserializeInt_spec by done.
  rewrite <- (le_bytes_value (take n data)) at 2 by (by apply Forall_take).
  f_equal. rewrite length_take. lia.
Qed.

(** A 64-bit value given by its two words. *)
Lemma le_bytes_words lo hi :
  is_u32 lo → le_bytes 8 (lo + hi * 2 ^ 32) = le_bytes 4 lo ++ le_bytes 4 hi.
Proof.
  intros Hlo. rewrite (le_bytes_app 4 4). f_equal.
  - rewrite le_bytes_mod. change (2 ^ (8 * Z.of_nat 4)) with (2 ^ 32).
    rewrite Z.mod_add by lia. by rewrite Z.mod_small.
  - change (8 * Z.of_nat 4) with 32. rewrite Z.shiftr_div_pow2 by lia.
    rewrite Z.div_add by lia. by rewrite Z.div_small, Z.add_0_l.
Qed.

Lemma le_bytes_words_div x : le_bytes 8 x = le_bytes 4 (x mod 2 ^ 32) ++ le_bytes 4 (x / 2 ^ 32).
Proof.
  rewrite <- le_bytes_words by (apply Z.mod_pos_bound; lia). f_equal.
  rewrite (Z.div_mod x (2 ^ 32)) at 1 by lia. lia.
Qed.

(** Eight-byte registers laid out one after the other. *)
Definition reg_bytes (vs : list Z) : list Z := mjoin (le_bytes 8 <$> vs).

Lemma length_reg_bytes vs : length (reg_bytes vs) = (8 * length vs)%nat.
Proof.
  induction vs as [|v vs IH]; [done|].
  change (reg_bytes (v :: vs)) with (le_bytes 8 v ++ reg_bytes vs).
  rewrite length_app, length_le_bytes, IH. simpl. lia.
Qed.

Lemma drop_reg_bytes vs i : drop (8 * i) (reg_bytes vs) = reg_bytes (drop i vs).
Proof.
  revert i; induction vs as [|v vs IH]; intros i; [rewrite drop_nil; apply drop_nil|].
  destruct i as [|i]; [done|].
  change (reg_bytes (v :: vs)) with (le_bytes 8 v ++ reg_bytes vs).
  replace (8 * S i)%nat with (8 + 8 * i)%nat by lia.
  rewrite <- drop_drop, drop_app_length' by done. apply IH.
Qed.

Lemma take_reg_bytes vs i : take (8 * i) (reg_bytes vs) = reg_bytes (take i vs).
Proof.
  revert i; induction vs as [|v vs IH]; intros i; [rewrite take_nil; apply take_nil|].
  destruct i as [|i]; [done|].
  change (reg_bytes (v :: vs)) with (le_bytes 8 v ++ reg_bytes vs).
  replace (8 * S i)%nat with (8 + 8 * i)%nat by lia.
  rewrite take_app_add' by done. cbn [take]. by rewrite IH.
Qed.

Lemma reg_bytes_app vs ws : reg_bytes (vs ++ ws) = reg_bytes vs ++ reg_bytes ws.
Proof. unfold reg_bytes. by rewrite fmap_app, join_app. Qed.

(** Reading inside one register. *)
Lemma reg_bytes_read vs i v r len :
  vs !! i = Some v → (r + len ≤ 8)%nat →
  take len (drop (8 * i + r) (reg_bytes vs)) = take len (drop r (le_bytes 8 v)).
Proof.
  intros Hv Hr. rewrite <- drop_drop, drop_reg_bytes, (drop_S vs v i) by done.
  change (reg_bytes (v :: ?x)) with (le_bytes 8 v ++ reg_bytes x).
  rewrite drop_app_le by (rewrite length_le_bytes; lia).
  by rewrite take_app_le by (rewrite length_drop, length_le_bytes; lia).
Qed.

(** Writing inside one register. *)
Lemma reg_bytes_write vs i v v' r d :
  vs !! i = Some v → (r + length d ≤ 8)%nat →
  le_bytes 8 v' = splice (le_bytes 8 v) r d →
  reg_bytes (<[i := v']> vs) = splice (reg_bytes vs) (8 * i + r) d.
Proof.
  intros Hv Hr E. pose proof (lookup_lt_Some _ _ _ Hv) as Hi.
  assert (length (take i vs) = i) as Hti by (rewrite length_take; lia).
  pose proof (insert_app_drop vs i v' Hi) as HL. pose proof (take_drop_middle vs i v Hv) as HR.
  symmetry in HR. revert Hti HL HR. generalize (take i vs) as L, (drop (S i) vs) as R.
  intros L R Hti HL HR. rewrite HL, HR.
  rewrite !reg_bytes_app.
  change (reg_bytes (?x :: ?y)) with (le_bytes 8 x ++ reg_bytes y).
  rewrite E. unfold splice.
  assert (length (reg_bytes L) = (8 * i)%nat) as Hl
    by (rewrite length_reg_bytes; lia).
  rewrite take_app_add' by done. rewrite take_app_le by (rewrite length_le_bytes; lia).
  rewrite <- (Nat.add_assoc (8 * i) r), (drop_app_add' (reg_bytes L)) by done.
  rewrite drop_app_le by (rewrite length_le_bytes; lia).
  by rewrite <- !app_assoc.
Qed.

(** [std::rotate(begin, begin + k, end)] *)
Definition rotate_left {A} (k : nat) (l : list A) : list A := drop k l ++ take k l.
