(* ===== verification/Cstd.v ===== *)
(** * Cstd: the C++ standard-library string routines the sources use

    [std::stoull]/[std::stoul]/[strtoull]/[std::stoi] (number parsing),
    [std::getline] tokenising, [std::string::find]/[substr], and
    [operator<<(std::dec)] for unsigned integers.  The exceptions of the
    [std::sto*] family are [None]; [strtoull] itself never fails (0 when no
    digit is found, [ULLONG_MAX] on overflow). *)

From S2P Require Import Prelude.
From Stdlib Require Import Ascii.
#[local] Open Scope string_scope.
#[local] Open Scope Z_scope.

Definition is_space (c : ascii) : bool :=
  let n := Z.of_N (N_of_ascii c) in (n =? 32) || ((9 <=? n) && (n <=? 13)).

(** Value of a digit character in bases up to 36. *)
Definition digit_val (c : ascii) : option Z :=
  let n := Z.of_N (N_of_ascii c) in
  if (48 <=? n) && (n <=? 57) then Some (n - 48)
  else if (97 <=? n) && (n <=? 122) then Some (n - 87)
  else if (65 <=? n) && (n <=? 90) then Some (n - 55)
  else None.

Fixpoint skip_spaces (s : string) : string :=
  match s with
  | String c s' => if is_space c then skip_spaces s' else s
  | EmptyString => EmptyString
  end.

(** Accumulate digits of [base]; [Some] iff at least one digit was read. *)
Fixpoint scan_digits (base : Z) (s : string) (acc : option Z) : option Z :=
  match s with
  | EmptyString => acc
  | String c s' =>
      match digit_val c with
      | Some d => if d <? base
                  then scan_digits base s' (Some (default 0 acc * base + d))
                  else acc
      | None => acc
      end
  end.

(** Sign and magnitude read by the C [strto*] family: leading white space, an
    optional sign, an optional [0x] prefix for base 16 (and for base 0, which
    otherwise selects 8 after a leading 0 and 10 after any other digit). *)
Definition strip_sign (s : string) : bool * string :=
  match s with
  | String "-" s' => (true, s')
  | String "+" s' => (false, s')
  | _ => (false, s)
  end.

Definition hex_prefixed (s : string) : option string :=
  match s with
  | String "0" (String x (String c s')) =>
      if (Ascii.eqb x "x" || Ascii.eqb x "X") &&
         match digit_val c with Some d => d <? 16 | None => false end
      then Some (String c s') else None
  | _ => None
  end.

Definition scan_number (base : Z) (s : string) : option (bool * Z) :=
  let '(neg, s1) := strip_sign (skip_spaces s) in
  let r :=
    if base =? 16 then
      match hex_prefixed s1 with
      | Some h => scan_digits 16 h None
      | None => scan_digits 16 s1 None
      end
    else if base =? 0 then
      match hex_prefixed s1 with
      | Some h => scan_digits 16 h None
      | None => match s1 with
                | String "0" _ => scan_digits 8 s1 None
                | _ => scan_digits 10 s1 None
                end
      end
    else scan_digits base s1 None in
  match r with Some v => Some (neg, v) | None => None end.

(** [std::stoull(s, nullptr, base)]; [std::stoul] is the same on LP64. *)
Definition stoull (base : Z) (s : string) : option Z :=
  match scan_number base s with
  | None => None
  | Some (neg, v) =>
      if 2 ^ 64 <=? v then None else Some (if neg then u64 (- v) else v)
  end.

(** [strtoull(s.c_str(), nullptr, base)]. *)
Definition strtoull (base : Z) (s : string) : Z :=
  match scan_number base s with
  | None => 0
  | Some (neg, v) =>
      if 2 ^ 64 <=? v then 2 ^ 64 - 1 else (if neg then u64 (- v) else v)
  end.

(** [std::stoi(s)]: base 10, 32-bit signed range. *)
Definition stoi (s : string) : option Z :=
  match scan_number 10 s with
  | None => None
  | Some (neg, v) =>
      let x := if neg then - v else v in
      if (- 2 ^ 31 <=? x) && (x <? 2 ^ 31) then Some x else None
  end.

(** ** Splitting *)

Fixpoint split_on (c : ascii) (s : string) : list string :=
  match s with
  | EmptyString => [EmptyString]
  | String d s' =>
      if Ascii.eqb d c then EmptyString :: split_on c s'
      else match split_on c s' with
           | t :: ts => String d t :: ts
           | [] => [String d EmptyString]
           end
  end.

(** [while (std::getline(ss, token, c))]: a final empty token is not
    delivered. *)
Fixpoint drop_last_empty (ts : list string) : list string :=
  match ts with
  | [] => []
  | [t] => match t with EmptyString => [] | _ => [t] end
  | t :: ts' => t :: drop_last_empty ts'
  end.

Definition getline_tokens (c : ascii) (s : string) : list string :=
  drop_last_empty (split_on c s).

(** [while (ss.good()) std::getline(ss, token, c)]: a final empty token is. *)
Definition getline_while_good (c : ascii) (s : string) : list string :=
  split_on c s.

(** [pos = s.find(c)], then [s.substr(0, pos)] and [s.substr(pos + 1)]. *)
Fixpoint split_first (c : ascii) (s : string) : option (string * string) :=
  match s with
  | EmptyString => None
  | String d s' =>
      if Ascii.eqb d c then Some (EmptyString, s')
      else match split_first c s' with
           | Some (a, b) => Some (String d a, b)
           | None => None
           end
  end.

(** [iss >> tok]: skip white space, read up to the next white space; [None]
    when the stream is exhausted. *)
Fixpoint take_word (s : string) : string * string :=
  match s with
  | EmptyString => (EmptyString, EmptyString)
  | String c s' =>
      if is_space c then (EmptyString, s)
      else let '(w, r) := take_word s' in (String c w, r)
  end.

Definition read_word (s : string) : option string * string :=
  match take_word (skip_spaces s) with
  | (EmptyString, r) => (None, r)
  | (w, r) => (Some w, r)
  end.

(** ** Decimal output *)

Definition dec_char (d : Z) : ascii := ascii_of_N (Z.to_N (48 + d)).

Fixpoint dec_go (fuel : nat) (n : Z) (acc : string) : string :=
  match fuel with
  | O => acc
  | S f => let acc' := String (dec_char (n mod 10)) acc in
           if n <? 10 then acc' else dec_go f (n / 10) acc'
  end.

(** Twenty digits are enough for a 64-bit value. *)
Definition dec (n : Z) : string := dec_go 20 n EmptyString.

Example stoull_hex_ex : stoull 16 " 0x1F," = Some 31.
Proof. reflexivity. Qed.
Example stoull_oct_ex : stoull 0 "010" = Some 8.
Proof. reflexivity. Qed.
Example stoull_none_ex : stoull 16 "xyz" = None.
Proof. reflexivity. Qed.
Example getline_ex : getline_tokens "," "a,,b," = ["a"; ""; "b"].
Proof. reflexivity. Qed.
Example dec_ex : dec 18446744073709551615 = "18446744073709551615".
Proof. reflexivity. Qed.

(** ** Printing and reading back a 64-bit decimal *)

Definition not_digit10 (s : string) : Prop :=
  match s with
  | EmptyString => True
  | String c _ => match digit_val c with Some d => 10 ≤ d | None => True end
  end.

Lemma digit_val_nonneg c d : digit_val c = Some d → 0 ≤ d.
Proof. unfold digit_val. intros H. repeat case_match; simplify_eq; zbool; lia. Qed.

Lemma scan_digits_nonneg base s acc v :
  0 ≤ base → 0 ≤ default 0 acc → scan_digits base s acc = Some v → 0 ≤ v.
Proof.
  intros Hb. revert acc; induction s as [|c s IH]; intros acc Ha; simpl; [by intros ->|].
  destruct (digit_val c) as [d|] eqn:Ed; [|by intros ->].
  apply digit_val_nonneg in Ed. destruct (d <? base); [|by intros ->].
  apply IH. simpl. nia.
Qed.

Lemma scan_number_nonneg base s neg v : 0 ≤ base → scan_number base s = Some (neg, v) → 0 ≤ v.
Proof.
  intros Hb. unfold scan_number. destruct (strip_sign _) as [n s1].
  destruct (if base =? 16 then _ else _) as [x|] eqn:E; [|done]. intros [= <- <-].
  repeat case_match; eapply scan_digits_nonneg; try exact E; simpl; lia.
Qed.

Lemma stoull_u64 base s v : 0 ≤ base → stoull base s = Some v → is_u64 v.
Proof.
  intros Hb. unfold stoull. destruct (scan_number base s) as [[neg x]|] eqn:E; [|done].
  apply scan_number_nonneg in E; [|done].
  destruct (2 ^ 64 <=? x) eqn:Ex; zbool; [done|]. intros [= <-]. destruct neg; [apply u64_range|done].
Qed.

Lemma digit_val_dec_char d : 0 ≤ d < 10 → digit_val (dec_char d) = Some d.
Proof.
  intros Hd. assert (∃ k : nat, (k < 10)%nat ∧ d = Z.of_nat k) as (k & Hk & ->)
    by (exists (Z.to_nat d); lia).
  do 10 (destruct k as [|k]; [reflexivity|]). lia.
Qed.

Lemma is_space_dec_char d : 0 ≤ d < 10 → is_space (dec_char d) = false.
Proof.
  intros Hd. assert (∃ k : nat, (k < 10)%nat ∧ d = Z.of_nat k) as (k & Hk & ->)
    by (exists (Z.to_nat d); lia).
  do 10 (destruct k as [|k]; [reflexivity|]). lia.
Qed.

Lemma scan_digits_stop acc rest :
  not_digit10 rest → scan_digits 10 rest acc = acc.
Proof.
  destruct rest as [|c rest]; simpl; [done|]. intros H.
  destruct (digit_val c); [|done]. by rewrite (proj2 (Z.ltb_ge _ _)).
Qed.

(** Scanning the digits of [n] after an accumulator [a] multiplies [a] by the
    right power of ten and adds [n]. *)
Lemma scan_digits_dec_go fuel n acc a :
  0 ≤ n < 10 ^ Z.of_nat fuel → (0 < fuel)%nat →
  ∃ k, 0 < k ∧ n < 10 ^ k ∧
    scan_digits 10 (dec_go fuel n acc) a =
    scan_digits 10 acc (Some (default 0 a * 10 ^ k + n)).
Proof.
  revert n acc a; induction fuel as [|fuel IH]; intros n acc a Hn Hf; [lia|].
  cbn [dec_go]. destruct (n <? 10) eqn:E; zbool.
  - exists 1. split; [lia|]. split; [lia|]. cbn [scan_digits].
    rewrite Z.mod_small by lia. rewrite digit_val_dec_char by lia.
    rewrite (proj2 (Z.ltb_lt n 10)) by lia. do 2 f_equal.
  - destruct fuel as [|fuel]; [simpl in Hn; lia|].
    replace (Z.of_nat (S (S fuel))) with (1 + Z.of_nat (S fuel)) in Hn by lia.
    rewrite Z.pow_add_r, Z.pow_1_r in Hn by lia.
    assert (0 ≤ n `div` 10 < 10 ^ Z.of_nat (S fuel))
      by (split; [apply Z.div_pos; lia|apply Z.div_lt_upper_bound; lia]).
    destruct (IH (n `div` 10) (String (dec_char (n `mod` 10)) acc) a)
      as (k & Hk & Hlt & Hsc); [done|lia|].
    pose proof (Z.mod_pos_bound n 10 ltac:(lia)).
    pose proof (Z.div_mod n 10 ltac:(lia)).
    exists (k + 1). split; [lia|]. rewrite Z.pow_add_r, Z.pow_1_r by lia.
    split; [lia|]. rewrite Hsc. cbn [scan_digits].
    rewrite digit_val_dec_char by lia. rewrite (proj2 (Z.ltb_lt _ 10)) by lia.
    do 2 f_equal. simpl default. lia.
Qed.

Lemma scan_digits_dec n rest :
  is_u64 n → not_digit10 rest → scan_digits 10 (dec_go 20 n rest) None = Some n.
Proof.
  intros Hn Hr. destruct (scan_digits_dec_go 20 n rest None) as (k & _ & _ & ->).
  - unfold is_u64 in Hn. change (10 ^ Z.of_nat 20) with 100000000000000000000. lia.
  - lia.
  - rewrite scan_digits_stop by done. simpl. f_equal.
Qed.

(** The printed form is the digit string followed by what was already there. *)
Lemma dec_go_app fuel n acc : dec_go fuel n acc = dec_go fuel n "" +:+ acc.
Proof.
  assert (∀ fuel n a b, dec_go fuel n (a +:+ b) = dec_go fuel n a +:+ b) as H.
  { clear. induction fuel as [|f IH]; intros n a b; [done|]. cbn [dec_go].
    change (String (dec_char (n `mod` 10)) (a +:+ b))
      with (String (dec_char (n `mod` 10)) a +:+ b).
    destruct (n <? 10); [done|]. apply IH. }
  rewrite <- H. done.
Qed.

Lemma dec_go_head fuel n acc :
  0 ≤ n → (0 < fuel)%nat → n < 10 ^ Z.of_nat fuel →
  ∃ d s, 0 ≤ d < 10 ∧ dec_go fuel n acc = String (dec_char d) s ∧ (0 < n → 0 < d)
         ∧ (n = 0 → s = acc).
Proof.
  revert n acc; induction fuel as [|fuel IH]; intros n acc Hn Hf Hlt; [lia|].
  cbn [dec_go]. destruct (n <? 10) eqn:E; zbool.
  - exists n, acc. rewrite Z.mod_small by lia. split_and!; [lia|lia|done|lia|done].
  - destruct fuel as [|fuel]; [simpl in Hlt; lia|].
    replace (Z.of_nat (S (S fuel))) with (1 + Z.of_nat (S fuel)) in Hlt by lia.
    rewrite Z.pow_add_r, Z.pow_1_r in Hlt by lia.
    pose proof (Z.div_pos n 10 ltac:(lia) ltac:(lia)).
    destruct (IH (n `div` 10) (String (dec_char (n `mod` 10)) acc))
      as (d & s & Hd & Heq & Hpos & _); [lia|lia|apply Z.div_lt_upper_bound; lia|].
    exists d, s. split_and!; [lia|lia|done| |lia].
    intros _. apply Hpos. apply Z.div_str_pos. lia.
Qed.

Lemma scan_number_digit d s :
  0 < d < 10 →
  scan_number 0 (String (dec_char d) s) =
  match scan_digits 10 (String (dec_char d) s) None with
  | Some v => Some (false, v) | None => None end.
Proof.
  intros Hd. assert (∃ k : nat, (k < 9)%nat ∧ d = Z.of_nat (S k)) as (k & Hk & ->)
    by (exists (Z.to_nat (d - 1)); lia).
  do 9 (destruct k as [|k]; [reflexivity|]). lia.
Qed.

Lemma scan_number_dec n : is_u64 n → scan_number 0 (dec n) = Some (false, n).
Proof.
  intros Hn. destruct (decide (n = 0)) as [->|Hne]; [reflexivity|].
  assert (n < 10 ^ Z.of_nat 20)
    by (unfold is_u64 in Hn; change (10 ^ Z.of_nat 20) with 100000000000000000000; lia).
  destruct (dec_go_head 20 n "") as (d & s & Hd & Heq & Hpos & _); [by destruct Hn|lia|done|].
  unfold dec. rewrite Heq, scan_number_digit by (destruct Hn; lia).
  rewrite <- Heq, scan_digits_dec by done. done.
Qed.

Lemma strtoull_dec n : is_u64 n → strtoull 0 (dec n) = n.
Proof.
  intros Hn. unfold strtoull. rewrite scan_number_dec by done.
  by rewrite (proj2 (Z.leb_gt _ _)) by apply Hn.
Qed.

Lemma stoull_dec n : is_u64 n → stoull 0 (dec n) = Some n.
Proof.
  intros Hn. unfold stoull. rewrite scan_number_dec by done.
  by rewrite (proj2 (Z.leb_gt _ _)) by apply Hn.
Qed.

(** A printed number contains no white space, so [iss >> tok] reads it back
    whole. *)
Fixpoint no_space (s : string) : bool :=
  match s with
  | EmptyString => true
  | String c s' => negb (is_space c) && no_space s'
  end.

Lemma dec_go_no_space fuel n acc :
  0 ≤ n → no_space acc = true → no_space (dec_go fuel n acc) = true.
Proof.
  revert n acc; induction fuel as [|fuel IH]; intros n acc Hn Ha; [done|].
  cbn [dec_go].
  assert (no_space (String (dec_char (n `mod` 10)) acc) = true) as Ha'.
  { simpl. rewrite is_space_dec_char, Ha by (apply Z.mod_pos_bound; lia). done. }
  destruct (n <? 10); [done|]. apply IH; [|done]. apply Z.div_pos; lia.
Qed.

Lemma dec_no_space n : 0 ≤ n → no_space (dec n) = true.
Proof. intros. by apply dec_go_no_space. Qed.

Lemma dec_nonempty n : is_u64 n → dec n ≠ "".
Proof.
  intros Hn. assert (n < 10 ^ Z.of_nat 20)
    by (unfold is_u64 in Hn; change (10 ^ Z.of_nat 20) with 100000000000000000000; lia).
  destruct (dec_go_head 20 n "") as (d & s & _ & Heq & _); [by destruct Hn|lia|done|].
  unfold dec. by rewrite Heq.
Qed.

Lemma str_app_nil_r s : s +:+ EmptyString = s.
Proof. induction s as [|c s IH]; [done|]. change (String c (s +:+ EmptyString) = String c s). by rewrite IH. Qed.

Lemma take_word_app w rest :
  no_space w = true →
  match rest with EmptyString => True | String c _ => is_space c = true end →
  take_word (w +:+ rest) = (w, rest).
Proof.
  induction w as [|c w IH]; intros Hw Hr.
  - destruct rest as [|c rest]; [done|]. simpl. by rewrite Hr.
  - simpl in Hw. apply andb_true_iff in Hw as [Hc Hw]. apply negb_true_iff in Hc.
    simpl. rewrite Hc. rewrite IH by done. done.
Qed.

Lemma skip_spaces_word w rest :
  no_space w = true → w ≠ "" → skip_spaces (w +:+ rest) = w +:+ rest.
Proof.
  destruct w as [|c w]; [done|]. simpl. intros H _.
  apply andb_true_iff in H as [H _]. apply negb_true_iff in H. by rewrite H.
Qed.

Lemma read_word_app w rest :
  no_space w = true → w ≠ "" →
  match rest with EmptyString => True | String c _ => is_space c = true end →
  read_word (w +:+ rest) = (Some w, rest).
Proof.
  intros Hw Hne Hr. unfold read_word.
  rewrite skip_spaces_word, take_word_app by done. by destruct w.
Qed.

Lemma read_word_space w rest :
  no_space w = true → w ≠ "" →
  match rest with EmptyString => True | String c _ => is_space c = true end →
  read_word (" " +:+ w +:+ rest) = (Some w, rest).
Proof. intros. rewrite <- (read_word_app w rest) by done. reflexivity. Qed.

(** ** Separators *)

Fixpoint no_char (d : ascii) (s : string) : bool :=
  match s with EmptyString => true | String c s => negb (Ascii.eqb c d) && no_char d s end.

Lemma split_on_none d s : no_char d s = true → split_on d s = [s].
Proof.
  induction s as [|c s IH]; [done|]. cbn. intros [H1 H2]%andb_true_iff. apply negb_true_iff in H1.
  by rewrite H1, (IH H2).
Qed.
Lemma split_on_app d s t : no_char d s = true → split_on d (s +:+ String d t) = s :: split_on d t.
Proof.
  induction s as [|c s IH].
  { intros _. change ("" +:+ String d t) with (String d t). cbn [split_on]. by rewrite Ascii.eqb_refl. }
  change (String c s +:+ String d t) with (String c (s +:+ String d t)). cbn. intros [H1 H2]%andb_true_iff. apply negb_true_iff in H1.
  by rewrite H1, (IH H2).
Qed.
Lemma no_char_app d s t : no_char d (s +:+ t) = no_char d s && no_char d t.
Proof. induction s as [|c s IH]; [done|]. change (String c s +:+ t) with (String c (s +:+ t)). cbn. by rewrite IH, andb_assoc. Qed.

Lemma drop_last_empty_cons t ts : ts ≠ [] → drop_last_empty (t :: ts) = t :: drop_last_empty ts.
Proof. by destruct ts. Qed.
Lemma split_on_nonempty d s : split_on d s ≠ [].
Proof. destruct s as [|c s]; [done|]. cbn. destruct (Ascii.eqb c d); [done|]. by destruct (split_on d s). Qed.

Lemma getline_last d w : w ≠ EmptyString → no_char d w = true → getline_tokens d w = [w].
Proof. intros Hw Hn. unfold getline_tokens. rewrite split_on_none by done. by destruct w. Qed.
Lemma getline_field d w t : no_char d w = true → t ≠ EmptyString → getline_tokens d (w +:+ String d t) = w :: getline_tokens d t.
Proof.
  intros Hw Ht. unfold getline_tokens. rewrite split_on_app by done. apply drop_last_empty_cons, split_on_nonempty.
Qed.
