(* ===== verification/Parser.v ===== *)
(** * Parser: lists and maps given on the command line (src/common/parser.hpp)

    Flags of the bridge hold comma-separated lists of numbers and words, maps
    [key:value], and maps from keys to values or ranges [key:first-last].
    Exceptions ([std::invalid_argument], [std::out_of_range]) are [None].  The
    template parameters the sources use are unsigned: [w] is their width in
    bits. *)

From Stdlib Require Import Ascii.
From S2P Require Import Prelude Cstd.
#[local] Open Scope string_scope.
#[local] Open Scope list_scope.
#[local] Open Scope Z_scope.

(** ** detail *)

Definition char_in (cs : list Z) (c : ascii) : bool := existsb (Z.eqb (Z.of_N (N_of_ascii c))) cs.
(** The sets of [trim] and of [parse_list]. *)
Definition blanks : list Z := [32; 9; 13; 10].
Definition spaces : list Z := [32; 9].

Fixpoint ltrim (cs : list Z) (s : string) : string :=
  match s with
  | EmptyString => EmptyString
  | String c s' => if char_in cs c then ltrim cs s' else s
  end.
Fixpoint rtrim (cs : list Z) (s : string) : string :=
  match s with
  | EmptyString => EmptyString
  | String c s' =>
      match rtrim cs s' with
      | EmptyString => if char_in cs c then EmptyString else String c EmptyString
      | t => String c t
      end
  end.
(** From the first character outside [cs] to the last one. *)
Definition trim_of (cs : list Z) (s : string) : string := rtrim cs (ltrim cs s).
Definition trim : string → string := trim_of blanks.

Definition is_hex_string (s : string) : bool :=
  match s with
  | String "0" (String x (String _ _)) => Ascii.eqb x "x" || Ascii.eqb x "X"
  | _ => false
  end.

Definition parse_hex (w : Z) (s : string) : option Z :=
  if is_hex_string s then v ← stoull 0 s; Some (v mod 2 ^ w) else None.
Definition parse_integral (w : Z) (s : string) : option Z :=
  if is_hex_string s then parse_hex w s else v ← stoull 10 s; Some (v mod 2 ^ w).

Definition split (s : string) (c : ascii) : list string :=
  match s with EmptyString => [] | _ => split_on c s end.

(** ** Lists *)

Fixpoint parse_tokens {A} (conv : string → option A) (ts : list string) : option (list A) :=
  match ts with
  | [] => Some []
  | t :: ts =>
      match trim_of spaces t with
      | EmptyString => parse_tokens conv ts
      | t => x ← conv t; l ← parse_tokens conv ts; Some (x :: l)
      end
  end.
Definition parse_list {A} (conv : string → option A) (input : string) : option (list A) :=
  parse_tokens conv (getline_tokens "," input).

Definition parse_ints : string → option (list Z) := parse_list stoi.
Definition parse_uint64s : string → option (list Z) := parse_list (parse_integral 64).
Definition parse_strings : string → option (list string) := parse_list Some.

(** ** Maps *)

(** The trimmed parts of an entry around the colon, both not empty. *)
Definition split_entry (entry : string) : option (string * string) :=
  '(k, v) ← split_first ":" entry;
  match trim k, trim v with
  | EmptyString, _ | _, EmptyString => None
  | k, v => Some (k, v)
  end.

(** A value, or a range around the first dash. *)
Definition parse_range (w : Z) (v : string) : option (Z * Z) :=
  match split_first "-" v with
  | Some (a, b) =>
      match trim a, trim b with
      | EmptyString, _ | _, EmptyString => None
      | a, b => x ← parse_integral w a; y ← parse_integral w b; Some (x, y)
      end
  | None => x ← parse_integral w v; Some (x, x)
  end.

Definition add_pair (wk wv : Z) (entry : string) (m : gmap Z (list (Z * Z))) : option (gmap Z (list (Z * Z))) :=
  '(ks, vs) ← split_entry entry;
  k ← parse_integral wk ks;
  r ← parse_range wv vs;
  Some (<[k := default [] (m !! k) ++ [r]]> m).
Definition add_value (wk wv : Z) (entry : string) (m : gmap Z Z) : option (gmap Z Z) :=
  '(ks, vs) ← split_entry entry;
  k ← parse_integral wk ks;
  v ← parse_integral wv vs;
  Some (<[k := v]> m).

(** The loop over the entries; blank ones are skipped. *)
Fixpoint parse_entries {M} (add : string → M → option M) (es : list string) (m : M) : option M :=
  match es with
  | [] => Some m
  | e :: es =>
      match trim e with
      | EmptyString => parse_entries add es m
      | e => m ← add e m; parse_entries add es m
      end
  end.
Definition parse_pair_map (wk wv : Z) (input : string) : option (gmap Z (list (Z * Z))) :=
  parse_entries (add_pair wk wv) (split input ",") ∅.
Definition parse_map (wk wv : Z) (input : string) : option (gmap Z Z) :=
  parse_entries (add_value wk wv) (split input ",") ∅.

(** ** Queries *)

Definition find_in {A} `{EqDecision A} (l : list A) (x : A) : bool := bool_decide (x ∈ l).
Definition find_range (m : gmap Z (list (Z * Z))) (key value : Z) : bool :=
  match m !! key with
  | None => false
  | Some rs => existsb (λ r, (r.1 <=? value) && (value <=? r.2)) rs
  end.
Definition find_key (m : gmap Z Z) (key : Z) : bool := bool_decide (is_Some (m !! key)).

(** ** Trimming *)

Lemma ltrim_idem cs s : ltrim cs (ltrim cs s) = ltrim cs s.
Proof. induction s as [|c s IH]; [done|]. cbn. destruct (char_in cs c) eqn:E; [done|]. cbn. by rewrite E. Qed.
Lemma rtrim_cons cs c s :
  rtrim cs (String c s) = match rtrim cs s with EmptyString => if char_in cs c then EmptyString else String c EmptyString
                          | t => String c t end.
Proof. done. Qed.
Lemma rtrim_idem cs s : rtrim cs (rtrim cs s) = rtrim cs s.
Proof.
  induction s as [|c s IH]; [done|]. rewrite rtrim_cons. destruct (rtrim cs s) as [|d t] eqn:E.
  - destruct (char_in cs c) eqn:Ec; [done|]. cbn. by rewrite Ec.
  - by rewrite rtrim_cons, IH.
Qed.
(** Trimming does not cross a character that is kept. *)
Lemma ltrim_app cs a c b : char_in cs c = false → ltrim cs (a +:+ String c b) = ltrim cs a +:+ String c b.
Proof.
  intros Hc. induction a as [|x a IH].
  - change ("" +:+ String c b) with (String c b). cbn. by rewrite Hc.
  - change (String x a +:+ String c b) with (String x (a +:+ String c b)). cbn. destruct (char_in cs x); [done|]. done.
Qed.
Lemma rtrim_app cs a c b : char_in cs c = false → rtrim cs (a +:+ String c b) = a +:+ String c (rtrim cs b).
Proof.
  intros Hc. induction a as [|x a IH].
  - change ("" +:+ String c b) with (String c b). change ("" +:+ String c (rtrim cs b)) with (String c (rtrim cs b)).
    rewrite rtrim_cons, Hc. by destruct (rtrim cs b).
  - change (String x a +:+ String c b) with (String x (a +:+ String c b)).
    rewrite rtrim_cons, IH. by destruct a.
Qed.
Lemma trim_app cs a c b : char_in cs c = false → trim_of cs (a +:+ String c b) = ltrim cs a +:+ String c (rtrim cs b).
Proof. intros Hc. unfold trim_of. by rewrite ltrim_app, rtrim_app. Qed.
Lemma ltrim_rtrim cs s : ltrim cs (rtrim cs s) = rtrim cs (ltrim cs s).
Proof.
  induction s as [|c s IH]; [done|]. cbn [ltrim]. destruct (char_in cs c) eqn:Ec.
  - rewrite <- IH, rtrim_cons, Ec. destruct (rtrim cs s); [done|]. cbn. by rewrite Ec.
  - rewrite rtrim_cons, Ec. by destruct (rtrim cs s); cbn; rewrite Ec.
Qed.
Lemma trim_ltrim cs s : trim_of cs (ltrim cs s) = trim_of cs s.
Proof. unfold trim_of. by rewrite ltrim_idem. Qed.
Lemma trim_rtrim cs s : trim_of cs (rtrim cs s) = trim_of cs s.
Proof. unfold trim_of. by rewrite ltrim_rtrim, rtrim_idem. Qed.

Lemma no_char_ltrim d cs s : no_char d s = true → no_char d (ltrim cs s) = true.
Proof. induction s as [|c s IH]; [done|]. cbn. intros H. destruct (char_in cs c); [|done]. apply IH. by apply andb_true_iff in H as [_ ?]. Qed.
Lemma no_char_rtrim d cs s : no_char d s = true → no_char d (rtrim cs s) = true.
Proof.
  induction s as [|c s IH]; [done|]. intros H. cbn in H. apply andb_true_iff in H as [Hc H]. specialize (IH H).
  rewrite rtrim_cons. destruct (rtrim cs s).
  - destruct (char_in cs c); [done|]. cbn. by rewrite Hc.
  - cbn in IH |- *. by rewrite Hc, IH.
Qed.
Lemma split_first_app d a b : no_char d a = true → split_first d (a +:+ String d b) = Some (a, b).
Proof.
  induction a as [|c a IH].
  - intros _. change ("" +:+ String d b) with (String d b). cbn. by rewrite Ascii.eqb_refl.
  - change (String c a +:+ String d b) with (String c (a +:+ String d b)). cbn. intros [H1 H2]%andb_true_iff.
    apply negb_true_iff in H1. by rewrite H1, IH.
Qed.
Lemma split_first_none d a : no_char d a = true → split_first d a = None.
Proof. induction a as [|c a IH]; [done|]. cbn. intros [H1 H2]%andb_true_iff. apply negb_true_iff in H1. by rewrite H1, IH. Qed.

(** ** What is written is what is found *)

(** [r] is a field with value [v], possibly surrounded by blanks. *)
Definition field_ok (w : Z) (r : string) (v : Z) : Prop :=
  parse_integral w (trim r) = Some v ∧ no_char "," r = true ∧ no_char ":" r = true ∧ no_char "-" r = true.

Inductive entry := EValue (kr : string) (k : Z) (vr : string) (v : Z) | ERange (kr : string) (k : Z) (ar : string) (a : Z) (br : string) (b : Z).
Definition entry_text (e : entry) : string :=
  match e with
  | EValue kr _ vr _ => kr +:+ String ":" vr
  | ERange kr _ ar _ br _ => kr +:+ String ":" (ar +:+ String "-" br)
  end.
Definition entry_ok (wk wv : Z) (e : entry) : Prop :=
  match e with
  | EValue kr k vr v => field_ok wk kr k ∧ field_ok wv vr v
  | ERange kr k ar a br b => field_ok wk kr k ∧ field_ok wv ar a ∧ field_ok wv br b
  end.
Definition entry_key (e : entry) : Z := match e with EValue _ k _ _ | ERange _ k _ _ _ _ => k end.
Definition entry_range (e : entry) : Z * Z := match e with EValue _ _ _ v => (v, v) | ERange _ _ _ a _ b => (a, b) end.
Definition entry_covers (key value : Z) (e : entry) : bool :=
  (entry_key e =? key) && ((entry_range e).1 <=? value) && (value <=? (entry_range e).2).

Fixpoint join_text (ts : list string) : string :=
  match ts with [] => EmptyString | [t] => t | t :: ts => t +:+ String "," (join_text ts) end.

Lemma join_text_cons t ts : ts ≠ [] → join_text (t :: ts) = t +:+ String "," (join_text ts).
Proof. by destruct ts. Qed.
Lemma split_join ts : Forall (λ t, no_char "," t = true ∧ t ≠ EmptyString) ts → split (join_text ts) "," = ts.
Proof.
  intros H. destruct ts as [|t ts]; [done|].
  assert (split_on "," (join_text (t :: ts)) = t :: ts) as E.
  { revert t H. induction ts as [|u ts IH]; intros t [[Ht _] H]%Forall_cons; [by apply split_on_none|].
    rewrite join_text_cons by done. by rewrite split_on_app, IH. }
  unfold split. destruct (join_text (t :: ts)) eqn:J; [|done].
  cbn in E. injection E as <- <-. by apply Forall_cons in H as [[_ ?] _].
Qed.

Lemma field_nonempty w r v : parse_integral w r = Some v → r ≠ EmptyString.
Proof. by intros ? ->. Qed.
Lemma app_cons_nonempty a c b : a +:+ String c b ≠ EmptyString.
Proof. by destruct a. Qed.

Lemma split_entry_ok a b :
  no_char ":" a = true → trim a ≠ EmptyString → trim b ≠ EmptyString →
  split_entry (trim (a +:+ String ":" b)) = Some (trim a, trim b).
Proof.
  intros Ha Na Nb. unfold split_entry, trim in *. rewrite trim_app by done.
  rewrite split_first_app by by apply no_char_ltrim. cbn [mbind option_bind]. rewrite trim_ltrim, trim_rtrim.
  by destruct (trim_of blanks a), (trim_of blanks b).
Qed.
Lemma parse_range_dash w a b x y :
  no_char "-" a = true → parse_integral w (trim a) = Some x → parse_integral w (trim b) = Some y →
  parse_range w (trim (a +:+ String "-" b)) = Some (x, y).
Proof.
  intros Ha Hx Hy. unfold parse_range, trim in *. rewrite trim_app by done.
  rewrite split_first_app by by apply no_char_ltrim. rewrite trim_ltrim, trim_rtrim.
  pose proof (field_nonempty _ _ _ Hx). pose proof (field_nonempty _ _ _ Hy).
  destruct (trim_of blanks a); [done|]. destruct (trim_of blanks b); [done|]. rewrite Hx. cbn [mbind option_bind]. by rewrite Hy.
Qed.

Lemma add_pair_ok wk wv e m :
  entry_ok wk wv e →
  add_pair wk wv (trim (entry_text e)) m = Some (<[entry_key e := default [] (m !! entry_key e) ++ [entry_range e]]> m).
Proof.
  unfold add_pair. destruct e as [kr k vr v|kr k ar a br b]; cbn [entry_ok entry_text entry_key entry_range].
  - intros [(Hk & _ & Ck & _) (Hv & _ & _ & Dv)]. rewrite split_entry_ok; [|done|by eapply field_nonempty..].
    cbn [mbind option_bind]. rewrite Hk. unfold parse_range. rewrite split_first_none.
    + by rewrite Hv.
    + unfold trim, trim_of. by apply no_char_rtrim, no_char_ltrim.
  - intros ((Hk & _ & Ck & _) & (Ha & _ & _ & Da) & (Hb & _ & _ & _)).
    rewrite split_entry_ok; [|done|by eapply field_nonempty|].
    + cbn [mbind option_bind]. rewrite Hk. by rewrite (parse_range_dash _ _ _ _ _ Da Ha Hb).
    + unfold trim. rewrite trim_app by done. apply app_cons_nonempty.
Qed.

Lemma trim_entry_nonempty e : trim (entry_text e) ≠ EmptyString.
Proof. destruct e; cbn [entry_text]; unfold trim; rewrite trim_app by done; apply app_cons_nonempty. Qed.

Lemma parse_entries_cons {M} (add : string → M → option M) e es m :
  trim e ≠ EmptyString → parse_entries add (e :: es) m = (m ← add (trim e) m; parse_entries add es m).
Proof. cbn [parse_entries]. by destruct (trim e). Qed.

Definition ranges (m : gmap Z (list (Z * Z))) (key : Z) : list (Z * Z) := default [] (m !! key).
Lemma parse_pairs wk wv es m :
  Forall (entry_ok wk wv) es →
  ∃ m', parse_entries (add_pair wk wv) (entry_text <$> es) m = Some m' ∧
    ∀ key, ranges m' key = ranges m key ++ (entry_range <$> base.filter (λ e, entry_key e = key) es).
Proof.
  intros H. revert m. induction H as [|e es He Hes IH]; intros m.
  - exists m. split; [done|]. intros key. cbn. by rewrite app_nil_r.
  - cbn [fmap list_fmap]. rewrite parse_entries_cons by apply trim_entry_nonempty. rewrite add_pair_ok by done.
    cbn [mbind option_bind]. destruct (IH (<[entry_key e := default [] (m !! entry_key e) ++ [entry_range e]]> m)) as (m' & -> & Hm).
    exists m'. split; [done|]. intros key. rewrite Hm. unfold ranges. destruct (decide (entry_key e = key)) as [<-|Hne].
    + rewrite lookup_insert_eq. rewrite filter_cons_True by done. cbn [default from_option fmap list_fmap id]. by rewrite <- app_assoc.
    + rewrite lookup_insert_ne by done. by rewrite filter_cons_False by done.
Qed.

Lemma find_range_ranges m key value : find_range m key value = existsb (λ r, (r.1 <=? value) && (value <=? r.2)) (ranges m key).
Proof. unfold find_range, ranges. by destruct (m !! key). Qed.

(** A map of values and ranges is read back exactly: a key and value are
    found iff an entry of the text has the key and its value or range, ends
    included, has the value; blanks around fields do not matter. *)
Theorem pair_map_find wk wv es :
  Forall (entry_ok wk wv) es →
  ∃ m, parse_pair_map wk wv (join_text (entry_text <$> es)) = Some m ∧
    ∀ key value, find_range m key value = existsb (entry_covers key value) es.
Proof.
  intros H. unfold parse_pair_map. rewrite split_join.
  - destruct (parse_pairs wk wv es ∅ H) as (m & E & Hm). exists m. split; [done|]. intros key value.
    rewrite find_range_ranges, Hm. unfold ranges. rewrite lookup_empty. cbn [default app]. clear.
    induction es as [|e es IH]; [done|]. unfold entry_covers at 1. cbn [existsb].
    destruct (decide (entry_key e = key)) as [E|E].
    + rewrite filter_cons_True by done. cbn [fmap list_fmap existsb]. rewrite IH. by apply Z.eqb_eq in E as ->.
    + rewrite filter_cons_False by done. rewrite IH. by apply Z.eqb_neq in E as ->.
  - apply Forall_fmap. eapply Forall_impl; [exact H|]. intros [kr k vr v|kr k ar a br b]; cbn [entry_ok entry_text compose].
    + intros [(_ & Ck & _) (_ & Cv & _)]. split; [|apply app_cons_nonempty]. rewrite no_char_app. cbn [no_char]. by rewrite Ck, Cv.
    + intros ((_ & Ck & _) & (_ & Ca & _) & (_ & Cb & _)). split; [|apply app_cons_nonempty].
      rewrite no_char_app. cbn [no_char]. rewrite no_char_app. cbn [no_char]. by rewrite Ck, Ca, Cb.
Qed.
Lemma pair_map_find_witness :
  ∃ m, parse_pair_map 64 64 "5:0x1000-0x1fff, 13 : 7" = Some m ∧
    ∀ key value, find_range m key value =
      existsb (entry_covers key value) [ERange "5" 5 "0x1000" 0x1000 "0x1fff" 0x1fff; EValue " 13 " 13 " 7" 7].
Proof.
  apply (pair_map_find 64 64 [ERange "5" 5 "0x1000" 0x1000 "0x1fff" 0x1fff; EValue " 13 " 13 " 7" 7]).
  repeat constructor; reflexivity.
Defined.

(** Items of a list are separated by commas; blanks around them are dropped. *)
Lemma parse_list_join {A} (conv : string → option A) (rs : list string) (xs : list A) :
  Forall2 (λ r x, conv (trim_of spaces r) = Some x ∧ trim_of spaces r ≠ EmptyString ∧ no_char "," r = true) rs xs →
  parse_list conv (join_text rs) = Some xs.
Proof.
  intros H. unfold parse_list.
  assert (∀ r, trim_of spaces r ≠ EmptyString → r ≠ EmptyString) as Hne by by intros r ? ->.
  assert (getline_tokens "," (join_text rs) = rs) as ->.
  { induction H as [|r x rs xs (_ & Hn & Hc) H IH]; [done|]. destruct H as [|r' x' rs xs H' H]; [by apply getline_last; auto|].
    rewrite join_text_cons by done. rewrite getline_field; [by rewrite IH|done|].
    destruct H' as (_ & Hn' & _). apply Hne in Hn'. destruct rs; [done|]. cbn [join_text]. by destruct r'. }
  induction H as [|r x rs xs (Hx & Hn & Hc) H IH]; [done|]. cbn [parse_tokens].
  destruct (trim_of spaces r) eqn:E; [done|]. rewrite Hx. cbn [mbind option_bind]. by rewrite IH.
Qed.

(** A negative number is not a range with an empty start. *)
Example pair_map_negative : parse_pair_map 64 64 "5:-1" = None.
Proof. reflexivity. Qed.
(** The last entry of a key is the one that counts. *)
Example map_last_wins : (λ m, m !! 0x13) <$> parse_map 32 32 "0x13:1, 0x13:2" = Some (Some 2).
Proof. reflexivity. Qed.
