(* ===== verification/PcgExtras.v ===== *)
(** * PcgExtras: support code of the random generators (src/common/pcg_extras.hpp)

    Printing and reading of 128-bit integers, inverting an xor-shift,
    rotations, copies between integer arrays of different widths, seeding from
    a seed sequence, bounded draws and shuffling.

    A [pcg128_t] is a value below 2^128 (Uint128.v has the emulated one); an
    [itype] of [n] bits is a value below 2^[n].  A generator is the list of its
    next draws, a stream the list of the characters left. *)

From Stdlib Require Import Ascii.
From Stdlib Require String.
From S2P Require Import Prelude Uint128 Bytes Cstd.
Local Open Scope string_scope.
Local Open Scope list_scope.
Local Open Scope Z_scope.

Definition u128 (x : Z) : Z := wrap 128 x.
Definition PCG_128BIT_CONSTANT (high low : Z) : Z := u128 ((high ≪ 64) + low).

(** ** Printing *)

(** The digits are written downwards into a buffer of 40 characters, the last
    of them the terminator; [None] is a write before the buffer. *)
Fixpoint print_digits (room : nat) (value : Z) (pos : string) : option string :=
  match room with
  | O => None
  | S room =>
      let div := value / 10 in
      let mod_ := u32 (value - u128 (div * 10)) in
      let pos := String (dec_char mod_) pos in
      if negb (div =? 0) then print_digits room div pos else Some pos
  end.
Definition print_dec (value : Z) : option string := print_digits 39 value EmptyString.

(** [operator<<] of a 64-bit integer in hexadecimal: the field of the stream's
    width is filled on the left, and the width is reset. *)
Definition hex_digit (d : Z) : ascii := if d <? 10 then dec_char d else ascii_of_N (Z.to_N (87 + d)).
Fixpoint hex_go (fuel : nat) (n : Z) (acc : string) : string :=
  match fuel with
  | O => acc
  | S fuel => let acc := String (hex_digit (n mod 16)) acc in if n <? 16 then acc else hex_go fuel (n / 16) acc
  end.
Definition hex64 (n : Z) : string := hex_go 16 n EmptyString.
Fixpoint fill_left (n : nat) (fill : ascii) (s : string) : string :=
  match n with
  | O => s
  | S n => String fill (fill_left n fill s)
  end.
Definition put_hex (width : Z) (fill : ascii) (showbase : bool) (n : Z) : string :=
  let s := if showbase && negb (n =? 0) then "0x" +:+ hex64 n else hex64 n in
  fill_left (Z.to_nat (width - Z.of_nat (String.length s))) fill s.

(** The hexadecimal branch; [width], [fill] and [showbase] are the stream's. *)
Definition print_hex (width : Z) (fill : ascii) (showbase : bool) (value : Z) : string :=
  let highpart := u64 (value ≫ 64) in
  let lowpart := u64 value in
  let desired_width := width in
  let width := if 16 <? desired_width then desired_width - 16 else width in
  let '(out, width) :=
    if negb (highpart =? 0) || (16 <? desired_width) then (put_hex width fill showbase highpart, 0)
    else (EmptyString, width) in
  let '(width, fill) := if negb (highpart =? 0) then (16, "0"%char) else (width, fill) in
  out +:+ put_hex width fill false lowpart.

Definition print128 (hex : bool) (width : Z) (fill : ascii) (showbase : bool) (value : Z) : option string :=
  if hex then Some (print_hex width fill showbase value)
  else s ← print_dec value; Some (fill_left (Z.to_nat (width - Z.of_nat (String.length s))) fill s).

(** ** Reading *)

(** What an extraction leaves: the target, the stream's flags and the rest. *)
Record extraction := Extraction { ex_value : Z; ex_fail : bool; ex_eof : bool; ex_rest : string }.

(** The loop over the digits; [did_nothing] and [overflow] are the locals. *)
Fixpoint read_digits (in_ : string) (current : Z) (did_nothing overflow : bool) : Z * bool * bool * bool * string :=
  match in_ with
  | EmptyString => (current, did_nothing, overflow, true, EmptyString)
  | String ch rest =>
      let c := Z.of_N (N_of_ascii ch) in
      if (c <? 48) || (57 <? c) then (current, did_nothing, overflow, false, in_)
      else
        let digit := c - 48 in
        let timesbase := u128 (current * 10) in
        let overflow := overflow || (timesbase <? current) in
        let current := u128 (timesbase + digit) in
        read_digits rest current false (overflow || (current <? digit))
  end.

(** The sentry skips white space and fails at the end of the stream. *)
Definition read128 (in_ : string) (value : Z) : extraction :=
  match skip_spaces in_ with
  | EmptyString => Extraction value true true EmptyString
  | s =>
      let '(current, did_nothing, overflow, eof, rest) := read_digits s 0 true false in
      Extraction (if overflow then 2 ^ 128 - 1 else current) (did_nothing || overflow) eof rest
  end.

(** A [uint8_t]: [value] and [fail] are what reading a [uint32_t] gave. *)
Definition read_u8 (value : Z) (fail : bool) (target : Z) : Z * bool :=
  if fail && (value =? 0xdecea5ed) then (target, fail)
  else if 255 <? value then (u8 (2 ^ 32 - 1), true)
  else (u8 value, fail).

(** ** Bitwise operations *)

Section itype.
Variable n : Z. (* bits of the type *)

Definition xorshift (x shift : Z) : Z := x ^^^ (x ≫ shift).

Fixpoint unxorshift (fuel : nat) (x bits shift : Z) : option Z :=
  if bits <=? 2 * shift then Some (x ^^^ (x ≫ shift))
  else
    match fuel with
    | O => None
    | S fuel =>
        let lowmask1 := wrap n ((wrap n (1 ≪ (bits - shift * 2))) - 1) in
        let highmask1 := Z.lxor lowmask1 (Z.ones n) in
        let top1 := x in
        let bottom1 := x &&& lowmask1 in
        let top1 := top1 ^^^ (top1 ≫ shift) in
        let top1 := top1 &&& highmask1 in
        let x := top1 ||| bottom1 in
        let lowmask2 := wrap n ((wrap n (1 ≪ (bits - shift))) - 1) in
        let bottom2 := x &&& lowmask2 in
        bottom2 ← unxorshift fuel bottom2 (bits - shift) shift;
        let bottom2 := bottom2 &&& lowmask1 in
        Some (top1 ||| bottom2)
    end.

Definition rotl (value rot : Z) : Z :=
  let mask := n - 1 in wrap n (wrap n (value ≪ rot) ||| (value ≫ ((- rot) &&& mask))).
Definition rotr (value rot : Z) : Z :=
  let mask := n - 1 in wrap n ((value ≫ rot) ||| wrap n (value ≪ ((- rot) &&& mask))).
End itype.

(** ** Copies between widths *)

(** Destination integers smaller than the source's; the sizes are in bytes.
    [None] is a read past the source. *)
Fixpoint uneven_copy_down (DEST_BITS SCALE : Z) (dests : nat) (count value : Z) (src : list Z) :
    option (list Z * list Z) :=
  match dests with
  | O => Some ([], src)
  | S dests =>
      '(value, src) ← (if count mod SCALE =? 0 then match src with [] => None | x :: src => Some (x, src) end
                       else Some (value ≫ DEST_BITS, src));
      '(ds, src) ← uneven_copy_down DEST_BITS SCALE dests (count + 1) value src;
      Some (wrap DEST_BITS value :: ds, src)
  end.

(** The inner loop of the other case: [SCALE] source integers make one. *)
Fixpoint gather (DEST_BITS SRC_BITS : Z) (scale : nat) (shift value : Z) (src : list Z) : option (Z * list Z) :=
  match scale with
  | O => Some (value, src)
  | S scale =>
      match src with
      | [] => None
      | x :: src => gather DEST_BITS SRC_BITS scale (shift + SRC_BITS) (value ||| wrap DEST_BITS (wrap DEST_BITS x ≪ shift)) src
      end
  end.
Fixpoint uneven_copy_up (DEST_BITS SRC_BITS : Z) (SCALE dests : nat) (src : list Z) : option (list Z * list Z) :=
  match dests with
  | O => Some ([], src)
  | S dests =>
      '(value, src) ← gather DEST_BITS SRC_BITS SCALE 0 0 src;
      '(ds, src) ← uneven_copy_up DEST_BITS SRC_BITS SCALE dests src;
      Some (value :: ds, src)
  end.

Definition uneven_copy (SRC_SIZE DEST_SIZE : nat) (dests : nat) (src : list Z) : option (list Z * list Z) :=
  if (DEST_SIZE <? SRC_SIZE)%nat
  then uneven_copy_down (Z.of_nat DEST_SIZE * 8) (Z.of_nat SRC_SIZE / Z.of_nat DEST_SIZE) dests 0 0 src
  else uneven_copy_up (Z.of_nat DEST_SIZE * 8) (Z.of_nat SRC_SIZE * 8) ((DEST_SIZE + SRC_SIZE - 1) / SRC_SIZE) dests src.

(** ** Seeding *)

(** A seed sequence fills an array of 32-bit integers. *)
Class SeedSeq (G : Type) := seq_generate : G → nat → list Z * G.

Section seeding.
Context {G : Type} `{SeedSeq G}.

Definition FROM_ELEMS (DEST_SIZE size : nat) : nat :=
  let GEN_SIZE := 4%nat in
  if (GEN_SIZE <? DEST_SIZE)%nat then (size * ((DEST_SIZE + GEN_SIZE - 1) / GEN_SIZE))%nat
  else ((size + GEN_SIZE / DEST_SIZE - 1) / (GEN_SIZE / DEST_SIZE))%nat.

Definition generate_to (DEST_SIZE size : nat) (generator : G) : option (list Z * G) :=
  if (DEST_SIZE =? 4)%nat then Some (seq_generate generator size)
  else
    let '(buffer, generator) := seq_generate generator (FROM_ELEMS DEST_SIZE size) in
    '(dest, _) ← uneven_copy 4 DEST_SIZE size buffer;
    Some (dest, generator).

Definition generate_one (DEST_SIZE i N : nat) (generator : G) : option (Z * G) :=
  '(result, generator) ← generate_to DEST_SIZE N generator;
  x ← result !! i;
  Some (x, generator).
End seeding.

(** A generator as an interface: its next draw. *)
Class Rng (R : Type) := rng_draw : R → Z * R.

(** [seed_seq_from]: the low 32 bits of as many draws. *)
Fixpoint draws {R} `{Rng R} (n : nat) (r : R) : list Z * R :=
  match n with
  | O => ([], r)
  | S n => let '(x, r) := rng_draw r in let '(xs, r) := draws n r in (u32 x :: xs, r)
  end.
#[export] Instance seed_seq_from {R} `{Rng R} : SeedSeq R := λ r n, draws n r.

(** ** Bounded draws and shuffling *)

(** [result_type] has [w] bits and [min()] is 0, [max()] all ones. *)
Definition threshold (w upper_bound : Z) : Z := wrap w (2 ^ w - 1 - 0 + 1 - upper_bound) mod upper_bound.

(** The draws still to come; [None] when they do not suffice. *)
Fixpoint bounded_rand (w upper_bound : Z) (rng : list Z) : option (Z * list Z) :=
  match rng with
  | [] => None
  | r :: rng => if threshold w upper_bound <=? r then Some (r mod upper_bound, rng) else bounded_rand w upper_bound rng
  end.

Definition swap_at {A} (l : list A) (i j : nat) : list A :=
  match l !! i, l !! j with
  | Some x, Some y => <[j := x]> (<[i := y]> l)
  | _, _ => l
  end.

(** [count] is the length of the part still to be shuffled. *)
Fixpoint shuffle_go {A} (w : Z) (count : nat) (l : list A) (rng : list Z) : option (list A * list Z) :=
  match count with
  | S (S _ as count') =>
      '(chosen, rng) ← bounded_rand w (wrap w (Z.of_nat count)) rng;
      shuffle_go w count' (swap_at l (Z.to_nat chosen) count') rng
  | _ => Some (l, rng)
  end.
Definition shuffle {A} (w : Z) (l : list A) (rng : list Z) : option (list A * list Z) := shuffle_go w (length l) l rng.

(** ** A seed from the build *)

Fixpoint fnv (n hash : Z) (pos : string) : Z :=
  match pos with
  | EmptyString => hash
  | String c pos =>
      let c := Z.of_N (N_of_ascii c) in
      let c := if c <? 128 then c else c - 256 in
      fnv n (wrap n (Z.lxor (wrap n (hash * 16777619)) c)) pos
  end.
Definition static_arbitrary_seed (n : Z) (date_time_file : string) : Z :=
  fnv n (wrap n (2166136261 ^^^ (n / 8))) date_time_file.

(** ** Printing and reading *)

Lemma u128_small x : is_word 128 x → u128 x = x.
Proof. apply Z.mod_small. Qed.

Lemma print_digits_dec room v pos :
  is_word 128 v → v < 10 ^ Z.of_nat room → (0 < room)%nat → print_digits room v pos = Some (dec_go room v pos).
Proof.
  revert v pos. induction room as [|room IH]; intros v pos Hv Hlt Hr; [lia|]. cbn [print_digits dec_go]. unfold is_word in Hv.
  pose proof (Z.div_mod v 10 ltac:(lia)). pose proof (Z.mod_pos_bound v 10 ltac:(lia)).
  pose proof (Z.div_pos v 10 ltac:(lia) ltac:(lia)).
  rewrite u128_small, u32_small by (unfold is_word, is_u32; lia). replace (v - v / 10 * 10) with (v mod 10) by lia.
  destruct (Z.eqb_spec (v / 10) 0), (Z.ltb_spec v 10); cbn [negb]; try lia; [done|].
  rewrite Nat2Z.inj_succ, Z.pow_succ_r in Hlt by lia.
  apply IH; [unfold is_word; lia|lia|]. destruct room; [cbn in Hlt; lia|lia].
Qed.

Lemma dec_char_code d : 0 ≤ d < 10 → Z.of_N (N_of_ascii (dec_char d)) = 48 + d.
Proof.
  intros Hd. unfold dec_char. rewrite N_ascii_embedding by (change 256%N with (Z.to_N 256); lia). lia.
Qed.

Lemma read_digit d rest cur dn ov :
  0 ≤ d < 10 → 0 ≤ cur → cur * 10 + d < 2 ^ 128 →
  read_digits (String (dec_char d) rest) cur dn ov = read_digits rest (cur * 10 + d) false ov.
Proof.
  intros Hd Hc Hlt. cbn [read_digits]. rewrite dec_char_code by done.
  rewrite (proj2 (Z.ltb_ge (48 + d) 48)), (proj2 (Z.ltb_ge 57 (48 + d))) by lia. cbn [orb].
  replace (48 + d - 48) with d by lia. rewrite (u128_small (cur * 10)) by (unfold is_word; lia).
  rewrite (u128_small (cur * 10 + d)), (proj2 (Z.ltb_ge (cur * 10) cur)), (proj2 (Z.ltb_ge (cur * 10 + d) d)) by (unfold is_word; lia).
  by rewrite !orb_false_r.
Qed.

Lemma read_dec_go fuel n acc :
  0 ≤ n < 10 ^ Z.of_nat fuel → (0 < fuel)%nat →
  ∃ k, 0 ≤ k ∧ ∀ cur dn ov, 0 ≤ cur → cur * 10 ^ k + n < 2 ^ 128 →
    read_digits (dec_go fuel n acc) cur dn ov = read_digits acc (cur * 10 ^ k + n) false ov.
Proof.
  revert n acc. induction fuel as [|fuel IH]; intros n acc Hn Hf; [lia|]. cbn [dec_go].
  pose proof (Z.div_mod n 10 ltac:(lia)). pose proof (Z.mod_pos_bound n 10 ltac:(lia)).
  destruct (Z.ltb_spec n 10).
  - exists 1. split; [lia|]. intros cur dn ov Hc Hlt. rewrite Z.pow_1_r in *. rewrite (Z.mod_small n) by lia. apply read_digit; lia.
  - rewrite Nat2Z.inj_succ, Z.pow_succ_r in Hn by lia.
    destruct (IH (n / 10) (String (dec_char (n mod 10)) acc)) as (k & Hk & E).
    { split; [apply Z.div_pos; lia|apply Z.div_lt_upper_bound; lia]. }
    { destruct fuel; [cbn in Hn; lia|lia]. }
    exists (Z.succ k). split; [lia|]. intros cur dn ov Hc Hlt. rewrite Z.pow_succ_r in * by done.
    assert (0 ≤ 10 ^ k) by (apply Z.pow_nonneg; lia). rewrite E by nia. rewrite read_digit by nia. f_equal. lia.
Qed.

(** No digit follows. *)
Definition no_digit (s : string) : Prop :=
  match s with
  | EmptyString => True
  | String c _ => let c := Z.of_N (N_of_ascii c) in (c <? 48) || (57 <? c) = true
  end.

Lemma read_digits_stop s cur dn ov :
  no_digit s → read_digits s cur dn ov = (cur, dn, ov, match s with EmptyString => true | _ => false end, s).
Proof. destruct s as [|c s]; cbn [read_digits no_digit]; [done|]. by intros ->. Qed.

Lemma print_dec_word v : is_word 128 v → print_dec v = Some (dec_go 39 v EmptyString) ∧ v < 10 ^ Z.of_nat 39.
Proof.
  intros Hv. assert (v < 10 ^ Z.of_nat 39) as Hlt.
  { unfold is_word in Hv. change (10 ^ Z.of_nat 39) with 1000000000000000000000000000000000000000. lia. }
  split; [|done]. apply print_digits_dec; [done|done|lia].
Qed.

Lemma read_print128 v rest old :
  is_word 128 v → no_digit rest →
  ∃ s, print_dec v = Some s ∧
    read128 (s +:+ rest) old = Extraction v false (match rest with EmptyString => true | _ => false end) rest.
Proof.
  intros Hv Hr. destruct (print_dec_word v Hv) as [-> Hlt]. eexists. split; [done|]. rewrite <- dec_go_app.
  destruct (dec_go_head 39 v rest) as (d & s & Hd & E & _ & _); [apply Hv|lia|done|].
  destruct (read_dec_go 39 v rest) as (k & Hk & R); [split; [apply Hv|done]|lia|].
  assert (skip_spaces (dec_go 39 v rest) = dec_go 39 v rest) as Es.
  { rewrite E. cbn [skip_spaces]. by rewrite is_space_dec_char by lia. }
  unfold read128. rewrite Es, E. cbv iota. rewrite <- E, R, read_digits_stop by (done || (unfold is_word in Hv; lia)). done.
Qed.

(** A 128-bit integer printed in decimal always fits its buffer, and
    reading it back gives the integer, leaves the stream without a failure and
    stops at the first character that is no digit. *)
Theorem pcg128_roundtrip v rest old :
  is_word 128 v → no_digit rest →
  ∃ s, print_dec v = Some s ∧
    read128 (s +:+ rest) old = Extraction v false (match rest with EmptyString => true | _ => false end) rest.
Proof. apply read_print128. Qed.
Lemma pcg128_roundtrip_witness :
  ∃ s, print_dec (2 ^ 128 - 1) = Some s ∧ read128 (s +:+ " 7") 0 = Extraction (2 ^ 128 - 1) false false " 7".
Proof. apply (pcg128_roundtrip (2 ^ 128 - 1) " 7" 0); done. Defined.

(** The test for overflow after a multiplication by ten looks at the order of
    the two values only: 3 * 2^127 is read as 2^127, without a failure. *)
Lemma read128_misses_overflow :
  read128 "510423550381407695195061911147652317184" 0 = Extraction (2 ^ 127) false true EmptyString.
Proof. vm_compute. reflexivity. Qed.

(** [s] is [len] hexadecimal digits of value [v]. *)
Definition hex_str (s : string) (len v : Z) : Prop :=
  Z.of_nat (String.length s) = len ∧ (s = EmptyString → v = 0) ∧
  ∀ rest a, scan_digits 16 (s +:+ rest) a =
    match s with EmptyString => scan_digits 16 rest a | _ => scan_digits 16 rest (Some (default 0 a * 16 ^ len + v)) end.

Lemma digit_val_hex d : 0 ≤ d < 16 → digit_val (hex_digit d) = Some d.
Proof.
  intros Hd. assert (∃ k : nat, (k < 16)%nat ∧ d = Z.of_nat k) as (k & Hk & ->) by (exists (Z.to_nat d); lia).
  do 16 (destruct k as [|k]; [reflexivity|]). lia.
Qed.

Lemma hex_str_nil : hex_str EmptyString 0 0.
Proof. done. Qed.

Lemma hex_str_digit d s len v :
  0 ≤ d < 16 → hex_str s len v → hex_str (String (hex_digit d) s) (1 + len) (d * 16 ^ len + v).
Proof.
  intros Hd (El & Hv0 & Es). split_and!; [cbn [String.length]; lia|done|]. intros rest a.
  change (String (hex_digit d) s +:+ rest) with (String (hex_digit d) (s +:+ rest)). cbn [scan_digits].
  rewrite digit_val_hex, (proj2 (Z.ltb_lt d 16)), Es by lia. rewrite Z.pow_add_r by lia. change (16 ^ 1) with 16.
  destruct s as [|c s]; cbn [default].
  - rewrite Hv0 by done. cbn in El. subst len. do 2 f_equal. change (16 ^ 0) with 1. destruct a; cbn; lia.
  - do 2 f_equal. destruct a; cbn; lia.
Qed.

Lemma hex_go_str fuel n acc len v :
  0 ≤ n < 16 ^ Z.of_nat fuel → (0 < fuel)%nat → hex_str acc len v →
  ∃ k, 1 ≤ k ≤ Z.of_nat fuel ∧ hex_str (hex_go fuel n acc) (k + len) (n * 16 ^ len + v).
Proof.
  revert n acc len v. induction fuel as [|fuel IH]; intros n acc len v Hn Hf Ha; [lia|]. cbn [hex_go].
  pose proof (Z.div_mod n 16 ltac:(lia)). pose proof (Z.mod_pos_bound n 16 ltac:(lia)).
  assert (0 ≤ len) as Hl by (destruct Ha; lia).
  pose proof (hex_str_digit (n mod 16) acc len v ltac:(lia) Ha) as Hs. destruct (Z.ltb_spec n 16).
  - exists 1. split; [lia|]. by rewrite (Z.mod_small n) in * by lia.
  - rewrite Nat2Z.inj_succ, Z.pow_succ_r in Hn by lia.
    edestruct (IH (n / 16)) as (k & Hk & E); [| |exact Hs|].
    { split; [apply Z.div_pos; lia|apply Z.div_lt_upper_bound; lia]. }
    { destruct fuel; [cbn in Hn; lia|lia]. }
    exists (k + 1). split; [lia|]. rewrite Z.pow_add_r in E by lia. change (16 ^ 1) with 16 in E.
    replace (k + 1 + len) with (k + (1 + len)) by lia.
    by replace (n * 16 ^ len + v) with (n / 16 * (16 * 16 ^ len) + (n mod 16 * 16 ^ len + v)) by nia.
Qed.

Lemma hex64_str n : is_u64 n → ∃ k, 1 ≤ k ≤ 16 ∧ hex_str (hex64 n) k n.
Proof.
  intros Hn. destruct (hex_go_str 16 n EmptyString 0 0) as (k & Hk & E); [done|lia|apply hex_str_nil|].
  exists k. split; [lia|]. by rewrite Z.mul_1_r, !Z.add_0_r in E.
Qed.

Lemma fill_zero_str m s len v :
  hex_str s len v → hex_str (fill_left m "0"%char s) (Z.of_nat m + len) v.
Proof.
  intros Hs. induction m as [|m IH]; [done|]. cbn [fill_left].
  pose proof (hex_str_digit 0 _ _ _ ltac:(lia) IH) as E. change (hex_digit 0) with "0"%char in E.
  replace (Z.of_nat (S m) + len) with (1 + (Z.of_nat m + len)) by lia. done.
Qed.

(** Without a field wider than 16, the hexadecimal form is the value's. *)
Lemma print_hex_value v :
  is_word 128 v → scan_digits 16 (print_hex 0 " "%char false v) None = Some v.
Proof.
  intros Hv. destruct (halves 64 v ltac:(lia) Hv) as (E & Hl & Hh). unfold print_hex.
  rewrite (u64_small (v ≫ 64)) by done. change (u64 v) with (wrap 64 v). cbn [Z.ltb Z.compare]. rewrite orb_false_r.
  unfold put_hex. cbn [andb].
  destruct (hex64_str (wrap 64 v)) as (k & Hk & Hs); [done|]. pose proof Hs as (Lk & _ & Es).
  destruct (Z.eqb_spec (v ≫ 64) 0) as [E0|Hne]; cbn [negb].
  - rewrite Lk. replace (Z.to_nat (0 - k)) with 0%nat by lia. cbn [fill_left].
    specialize (Es EmptyString None). rewrite str_app_nil_r in Es. change (EmptyString +:+ hex64 (wrap 64 v)) with (hex64 (wrap 64 v)).
    rewrite Es. destruct (hex64 (wrap 64 v)); [cbn in Lk; lia|]. cbn [scan_digits default]. f_equal. lia.
  - destruct (hex64_str (v ≫ 64)) as (k2 & Hk2 & Hs2); [done|]. pose proof Hs2 as (Lk2 & _ & Es2).
    rewrite Lk, Lk2. replace (Z.to_nat (0 - k2)) with 0%nat by lia. cbn [fill_left].
    pose proof (fill_zero_str (Z.to_nat (16 - k)) _ _ _ Hs) as (Lf & _ & Ef). replace (Z.of_nat (Z.to_nat (16 - k)) + k) with 16 in * by lia.
    set (f := fill_left _ _ _) in *. rewrite Es2. specialize (Ef EmptyString). rewrite str_app_nil_r in Ef.
    destruct (hex64 (v ≫ 64)); [cbn in Lk2; lia|]. rewrite Ef. destruct f; [cbn in Lf; lia|]. cbn [scan_digits default].
    f_equal. simpl default. change (16 ^ 16) with (2 ^ 64). unfold id. lia.
Qed.

(** In a field of 32 zeros, 5 takes seventeen characters: the low part is only
    padded when the high part is not zero. *)
Lemma print_hex_narrow : print_hex 32 "0"%char false 5 = "00000000000000005".
Proof. vm_compute. reflexivity. Qed.

(** ** Inverting an xor-shift *)

Lemma mask_ones n k : 0 ≤ k < n → wrap n (wrap n (1 ≪ k) - 1) = Z.ones k.
Proof.
  intros Hk. rewrite Z.shiftl_mul_pow2, Z.mul_1_l by lia. rewrite Z.ones_equiv.
  assert (0 < 2 ^ k < 2 ^ n) by (split; [apply Z.pow_pos_nonneg; lia|apply Z.pow_lt_mono_r; lia]).
  unfold wrap. rewrite (Z.mod_small (2 ^ k)), Z.mod_small by lia. lia.
Qed.

(** A word has no bit at or above its width. *)
Lemma word_high n x i : is_word n x → 0 ≤ n ≤ i → Z.testbit x i = false.
Proof.
  intros [H0 H1] Hi. destruct (Z.eq_dec x 0) as [->|]; [apply Z.bits_0|].
  apply Z.bits_above_log2; [done|]. assert (Z.log2 x < n); [|lia]. apply Z.log2_lt_pow2; lia.
Qed.
Lemma word_bits n x : 0 ≤ n → 0 ≤ x → (∀ i, n ≤ i → Z.testbit x i = false) → is_word n x.
Proof.
  intros Hn Hx Hb. split; [done|]. destruct (Z.eq_dec x 0) as [->|]; [apply Z.pow_pos_nonneg; lia|].
  apply Z.log2_lt_pow2; [lia|]. destruct (Z.lt_ge_cases (Z.log2 x) n) as [|Hge]; [done|].
  specialize (Hb _ Hge). rewrite Z.bit_log2 in Hb by lia. done.
Qed.

Lemma ones_testbit k i : 0 ≤ k → 0 ≤ i → Z.testbit (Z.ones k) i = (i <? k).
Proof.
  intros Hk Hi. destruct (Z.ltb_spec i k); [by rewrite Z.ones_spec_low by lia|by rewrite Z.ones_spec_high by lia].
Qed.

Ltac bits i Hi := apply Z.bits_inj'; intros i Hi;
  repeat first [rewrite Z.land_spec | rewrite Z.lor_spec | rewrite Z.lxor_spec | rewrite Z.shiftr_spec by lia
               | rewrite ones_testbit by lia].

Lemma xorshift_twice x bits shift : is_word bits x → 0 < shift → 0 ≤ bits ≤ 2 * shift → xorshift (xorshift x shift) shift = x.
Proof.
  intros Hx Hs Hb. unfold xorshift. bits i Hi.
  rewrite (word_high bits x (i + shift + shift)) by (done || lia). by destruct (Z.testbit x i), (Z.testbit x (i + shift)).
Qed.

Lemma unxorshift_xorshift n fuel x bits shift :
  is_word bits x → 0 < shift → 0 ≤ bits ≤ n → bits ≤ Z.of_nat fuel →
  unxorshift n fuel (xorshift x shift) bits shift = Some x.
Proof.
  intros Hx Hs Hb Hf. revert x bits Hx Hb Hf. induction fuel as [|fuel IH]; intros x bits Hx Hb Hf; cbn [unxorshift];
    destruct (Z.leb_spec bits (2 * shift)); [f_equal; apply (xorshift_twice x bits); (done || lia)|lia|f_equal; apply (xorshift_twice x bits); (done || lia)|].
  rewrite !mask_ones by lia. set (z := x mod 2 ^ (bits - shift)).
  assert (is_word (bits - shift) z) as Hz by (apply Z.mod_pos_bound, Z.pow_pos_nonneg; lia).
  assert (∀ i, 0 ≤ i → Z.testbit z i = (i <? bits - shift) && Z.testbit x i) as Bz.
  { intros i Hi. unfold z. rewrite <- Z.land_ones by lia. rewrite Z.land_spec, ones_testbit by lia. apply andb_comm. }
  assert (∀ i, bits ≤ i → Z.testbit x i = false) as Bx by (intros; apply (word_high bits); (done || lia)).
  match goal with |- context [unxorshift n fuel ?a] => replace a with (xorshift z shift) end.
  - rewrite IH by (done || lia). cbn [mbind option_bind]. f_equal. unfold xorshift. bits i Hi. rewrite Bz by done.
    destruct (Z.ltb_spec i (bits - shift * 2)), (Z.ltb_spec i n), (Z.ltb_spec i (bits - shift)); try lia;
      rewrite ?(Bx (i + shift + shift)), ?(Bx i) by lia;
      by destruct (Z.testbit x i), (Z.testbit x (i + shift)), (Z.testbit x (i + shift + shift)).
  - unfold xorshift. bits i Hi. rewrite !Bz by lia.
    destruct (Z.ltb_spec i (bits - shift * 2)), (Z.ltb_spec i n), (Z.ltb_spec i (bits - shift)),
      (Z.ltb_spec (i + shift) (bits - shift)); try lia; rewrite ?(Bx (i + shift + shift)), ?(Bx i), ?(Bx (i + shift)) by lia;
      by destruct (Z.testbit x i), (Z.testbit x (i + shift)), (Z.testbit x (i + shift + shift)).
Qed.

(** For a word of any width and any positive shift, the recursion of
    [unxorshift] ends and backs out the xor-shift; the state of a generator is
    recovered exactly. *)
Theorem unxorshift_inverts n x shift :
  0 ≤ n → is_word n x → 0 < shift → unxorshift n (Z.to_nat n) (xorshift x shift) n shift = Some x.
Proof. intros Hn Hx Hs. apply unxorshift_xorshift; (done || lia). Qed.
Lemma unxorshift_inverts_witness : unxorshift 32 32 (xorshift 0xdeadbeef 5) 32 5 = Some 0xdeadbeef.
Proof. apply (unxorshift_inverts 32 0xdeadbeef 5); done. Defined.

(** ** Rotations *)

Lemma neg_mask k rot : 0 ≤ k → (- rot) &&& (2 ^ k - 1) = (- rot) mod 2 ^ k.
Proof. intros Hk. replace (2 ^ k - 1) with (Z.ones k) by (rewrite Z.ones_equiv; lia). by apply Z.land_ones. Qed.

Lemma wrap_bits n x i : 0 ≤ n → 0 ≤ i → Z.testbit (wrap n x) i = (i <? n) && Z.testbit x i.
Proof.
  intros Hn Hi. unfold wrap. destruct (Z.ltb_spec i n); [by rewrite Z.mod_pow2_bits_low by lia|].
  by rewrite Z.mod_pow2_bits_high by lia.
Qed.

Lemma rotr_bits k v rot i :
  0 ≤ k → let n := 2 ^ k in is_word n v → 0 ≤ rot < n → 0 ≤ i < n →
  Z.testbit (rotr n v rot) i = Z.testbit v ((i + rot) mod n).
Proof.
  intros Hk n Hv Hr Hi. unfold rotr. cbn zeta. unfold n at 3. rewrite neg_mask by done. fold n.
  rewrite wrap_bits, (proj2 (Z.ltb_lt i n)), Z.lor_spec, wrap_bits, Z.shiftr_spec, (proj2 (Z.ltb_lt i n)) by lia. cbn [andb].
  destruct (decide (rot = 0)) as [->|].
  - rewrite Z.mod_0_l, Z.shiftl_0_r, Z.add_0_r, Z.mod_small by lia. apply orb_diag.
  - replace ((- rot) mod n) with (n - rot) by (apply Z.mod_unique_pos with (-1); lia).
    rewrite Z.shiftl_spec by lia. destruct (Z.lt_ge_cases (i + rot) n).
    + rewrite (Z.mod_small (i + rot)) by lia. rewrite (Z.testbit_neg_r v (i - (n - rot))) by lia. apply orb_false_r.
    + rewrite (word_high n v (i + rot)) by (done || lia). cbn [orb]. f_equal. apply Z.mod_unique_pos with 1; lia.
Qed.

Lemma rotl_bits k v rot i :
  0 ≤ k → let n := 2 ^ k in is_word n v → 0 ≤ rot < n → 0 ≤ i < n →
  Z.testbit (rotl n v rot) i = Z.testbit v ((i - rot) mod n).
Proof.
  intros Hk n Hv Hr Hi. unfold rotl. cbn zeta. unfold n at 3. rewrite neg_mask by done. fold n.
  rewrite wrap_bits, (proj2 (Z.ltb_lt i n)), Z.lor_spec, wrap_bits, Z.shiftl_spec, (proj2 (Z.ltb_lt i n)) by lia. cbn [andb].
  destruct (decide (rot = 0)) as [->|].
  - rewrite Z.mod_0_l, Z.shiftr_0_r, Z.sub_0_r, Z.mod_small by lia. apply orb_diag.
  - replace ((- rot) mod n) with (n - rot) by (apply Z.mod_unique_pos with (-1); lia).
    rewrite Z.shiftr_spec by lia. destruct (Z.lt_ge_cases i rot).
    + rewrite (Z.testbit_neg_r v (i - rot)) by lia. cbn [orb]. f_equal. apply Z.mod_unique_pos with (-1); lia.
    + rewrite (Z.mod_small (i - rot)), (word_high n v (i + (n - rot))) by (done || lia). apply orb_false_r.
Qed.

Lemma rot_word n v rot : 0 ≤ n → is_word n (rotr n v rot) ∧ is_word n (rotl n v rot).
Proof. intros Hn. split; apply Z.mod_pos_bound, Z.pow_pos_nonneg; lia. Qed.

Lemma word_ext n x y : 0 ≤ n → is_word n x → is_word n y → (∀ i, 0 ≤ i < n → Z.testbit x i = Z.testbit y i) → x = y.
Proof.
  intros Hn Hx Hy Hb. apply Z.bits_inj'. intros i Hi. destruct (Z.lt_ge_cases i n); [apply Hb; lia|].
  rewrite !(word_high n) by (done || lia). done.
Qed.

(** A rotation to the right undoes one to the left, and the other way round. *)
Lemma rotr_rotl k v rot :
  0 ≤ k → is_word (2 ^ k) v → 0 ≤ rot < 2 ^ k →
  rotr (2 ^ k) (rotl (2 ^ k) v rot) rot = v ∧ rotl (2 ^ k) (rotr (2 ^ k) v rot) rot = v.
Proof.
  intros Hk Hv Hr. assert (0 < 2 ^ k) by lia. destruct (rot_word (2 ^ k) v rot ltac:(lia)) as [W1 W2].
  split; (apply (word_ext (2 ^ k)); [lia|apply rot_word; lia|done|]); intros i Hi;
    pose proof (λ x, Z.mod_pos_bound x (2 ^ k) ltac:(lia)) as Hm.
  - rewrite rotr_bits, rotl_bits by (done || apply Hm). rewrite Zminus_mod_idemp_l, Z.add_simpl_r, Z.mod_small by lia. done.
  - rewrite rotl_bits, rotr_bits by (done || apply Hm). rewrite Z.add_mod_idemp_l, Z.sub_add, Z.mod_small by lia. done.
Qed.

(** ** Copies between widths *)

(** The bytes of an array of integers of [sz] bytes, as a little-endian
    machine has them in memory. *)
Definition int_bytes (sz : nat) (xs : list Z) : list Z := mjoin (le_bytes sz <$> xs).

Lemma int_bytes_cons sz x xs : int_bytes sz (x :: xs) = le_bytes sz x ++ int_bytes sz xs.
Proof. done. Qed.
Lemma length_int_bytes sz xs : length (int_bytes sz xs) = (sz * length xs)%nat.
Proof. induction xs as [|x xs IH]; [cbn; lia|]. rewrite int_bytes_cons, length_app, length_le_bytes, IH. cbn. lia. Qed.

Lemma le_bytes_wrap sz x : le_bytes sz (wrap (Z.of_nat sz * 8) x) = le_bytes sz x.
Proof. rewrite (le_bytes_mod sz x), Z.mul_comm. done. Qed.

Lemma take_app_add {A} (a b : list A) n k : length a = n → take (n + k) (a ++ b) = a ++ take k b.
Proof. intros <-. rewrite take_app_ge by lia. f_equal. f_equal. lia. Qed.

(** What is still to be copied of the word in hand: [left] parts of it. *)
Lemma copy_down_go (D scale dests left : nat) count value src :
  (0 < D)%nat → (1 < scale)%nat → (left < scale)%nat → count mod Z.of_nat scale = (Z.of_nat (scale - left) mod Z.of_nat scale) →
  (dests * D ≤ length (le_bytes (left * D) (value ≫ (Z.of_nat D * 8)) ++ int_bytes (scale * D) src))%nat →
  ∃ ds src', uneven_copy_down (Z.of_nat D * 8) (Z.of_nat scale) dests count value src = Some (ds, src') ∧ length ds = dests ∧
    Forall (is_word (Z.of_nat D * 8)) ds ∧
    int_bytes D ds = take (dests * D) (le_bytes (left * D) (value ≫ (Z.of_nat D * 8)) ++ int_bytes (scale * D) src).
Proof.
  intros HD Hsc. revert left count value src. induction dests as [|dests IH]; intros left count value src Hl Hc Hlen.
  { exists [], src. done. }
  assert (∀ v left src, (left < scale)%nat → (count + 1) mod Z.of_nat scale = Z.of_nat (scale - left) mod Z.of_nat scale →
    (S dests * D ≤ length (le_bytes (D + left * D) v ++ int_bytes (scale * D) src))%nat →
    ∃ ds src', ('(ds, src0) ← uneven_copy_down (Z.of_nat D * 8) (Z.of_nat scale) dests (count + 1) v src;
        Some (wrap (Z.of_nat D * 8) v :: ds, src0)) = Some (ds, src') ∧ length ds = S dests ∧
      Forall (is_word (Z.of_nat D * 8)) ds ∧
      int_bytes D ds = take (S dests * D) (le_bytes (D + left * D) v ++ int_bytes (scale * D) src)) as Hstep.
  { intros v left' src' Hl' Hc' Hlen'. rewrite le_bytes_app, (Z.mul_comm 8) in *. rewrite <- app_assoc, length_app, length_le_bytes in *.
    destruct (IH left' (count + 1) v src') as (ds & s' & -> & L & F & E); [done|done|lia|]. cbn [mbind option_bind].
    exists (wrap (Z.of_nat D * 8) v :: ds), s'. split_and!; [done|cbn; lia|constructor; [|done]; apply Z.mod_pos_bound, Z.pow_pos_nonneg; lia|].
    rewrite int_bytes_cons, le_bytes_wrap, E. cbn [Nat.mul]. by rewrite take_app_add by apply length_le_bytes. }
  cbn [uneven_copy_down]. destruct left as [|left].
  - rewrite Hc, Nat.sub_0_r, Z.mod_same by lia. cbn [Z.eqb]. cbn [Nat.mul le_bytes app] in *.
    destruct src as [|x src]; [cbn in Hlen; lia|]. cbn [mbind option_bind]. rewrite int_bytes_cons in *.
    destruct (Hstep x (scale - 1)%nat src) as (ds & s' & E & HH); [lia| | |].
    + rewrite <- Z.add_mod_idemp_l, Hc, Nat.sub_0_r, Z.mod_same by lia. f_equal. lia.
    + by replace (D + (scale - 1) * D)%nat with (scale * D)%nat by nia.
    + exists ds, s'. split; [exact E|]. by replace (D + (scale - 1) * D)%nat with (scale * D)%nat in HH by nia.
  - rewrite Hc, (Z.mod_small (Z.of_nat (scale - S left))), (proj2 (Z.eqb_neq _ _)) by lia. cbn [mbind option_bind].
    apply Hstep; [lia| |done]. rewrite <- Z.add_mod_idemp_l, Hc, Z.add_mod_idemp_l by lia. f_equal. lia.
Qed.

Lemma gather_spec S_ scale shift value src :
  0 < S_ → 0 ≤ shift → is_word shift value → Forall (is_word S_) src → (scale ≤ length src)%nat →
  ∀ DB, shift + S_ * Z.of_nat scale ≤ DB →
  gather DB S_ scale shift value src = Some (value + wval S_ (take scale src) * 2 ^ shift, drop scale src) ∧
  is_word (shift + S_ * Z.of_nat scale) (value + wval S_ (take scale src) * 2 ^ shift).
Proof.
  intros HS. revert shift value src. induction scale as [|scale IH]; intros shift value src Hs Hv Hsrc Hlen DB HDB.
  { cbn. rewrite Z.mul_0_r, !Z.add_0_r. done. }
  destruct Hsrc as [|x src Hx Hsrc]; [cbn in Hlen; lia|]. cbn [gather take drop wval]. cbn in Hlen. unfold is_word in Hv, Hx.
  assert (2 ^ (shift + S_) = 2 ^ shift * 2 ^ S_) as P2 by (by rewrite Z.pow_add_r by lia).
  assert (2 ^ (shift + S_) ≤ 2 ^ DB) as P3 by (apply Z.pow_le_mono_r; lia).
  assert (2 ^ S_ ≤ 2 ^ DB) as P4 by (apply Z.pow_le_mono_r; lia).
  assert (0 < 2 ^ shift) as P5 by lia. assert (0 < 2 ^ S_) as P6 by lia.
  rewrite (wrap_small DB x), (wrap_small DB (x ≪ shift)) by (rewrite ?Z.shiftl_mul_pow2 by lia; unfold is_word; nia).
  rewrite lor_shiftl_add by (done || lia).
  destruct (IH (shift + S_) (value + x * 2 ^ shift) src) with (DB := DB) as [E W]; [lia|unfold is_word; nia|done|lia|lia|].
  rewrite E, P2 in *. replace (shift + S_ * Z.of_nat (S scale)) with (shift + S_ + S_ * Z.of_nat scale) by lia.
  replace (value + (x + wval S_ (take scale src) * 2 ^ S_) * 2 ^ shift)
    with (value + x * 2 ^ shift + wval S_ (take scale src) * (2 ^ shift * 2 ^ S_)) by ring. done.
Qed.

Lemma le_bytes_wval sz xs :
  Forall (is_word (Z.of_nat sz * 8)) xs → le_bytes (length xs * sz) (wval (Z.of_nat sz * 8) xs) = int_bytes sz xs.
Proof.
  induction 1 as [|x xs Hx _ IH]; [done|]. cbn [length Nat.mul wval]. rewrite le_bytes_app, (Z.mul_comm 8), int_bytes_cons.
  assert (0 < 2 ^ (Z.of_nat sz * 8)) by (apply Z.pow_pos_nonneg; lia). f_equal.
  - rewrite <- le_bytes_wrap. unfold wrap. rewrite Z.mod_add, Z.mod_small by (done || lia). done.
  - rewrite Z.shiftr_div_pow2, Z.div_add, Z.div_small, Z.add_0_l by (done || lia). apply IH.
Qed.

Lemma int_bytes_take_drop sz xs k : int_bytes sz xs = int_bytes sz (take k xs) ++ int_bytes sz (drop k xs).
Proof. unfold int_bytes. rewrite <- join_app, <- fmap_app, take_drop. done. Qed.

Lemma copy_up_go (sz scale dests : nat) src :
  (0 < sz)%nat → Forall (is_word (Z.of_nat sz * 8)) src → (dests * scale ≤ length src)%nat →
  ∃ ds src', uneven_copy_up (Z.of_nat (scale * sz) * 8) (Z.of_nat sz * 8) scale dests src = Some (ds, src') ∧ length ds = dests ∧
    Forall (is_word (Z.of_nat (scale * sz) * 8)) ds ∧
    int_bytes (scale * sz) ds = take (dests * (scale * sz)) (int_bytes sz src).
Proof.
  intros Hsz. revert src. induction dests as [|dests IH]; intros src Hsrc Hlen; [by exists [], src|]. cbn [uneven_copy_up].
  assert (Z.of_nat (scale * sz) * 8 = Z.of_nat sz * 8 * Z.of_nat scale) as ED by lia.
  destruct (gather_spec (Z.of_nat sz * 8) scale 0 0 src ltac:(lia) ltac:(lia) ltac:(split; [lia|done]) Hsrc ltac:(cbn in Hlen; lia)
    (Z.of_nat (scale * sz) * 8)) as [-> W]; [lia|]. rewrite Z.add_0_l, Z.mul_1_r in *. cbn [mbind option_bind].
  destruct (IH (drop scale src)) as (ds & src' & -> & L & F & E); [by apply Forall_drop|rewrite length_drop; cbn in Hlen; lia|].
  cbn [mbind option_bind]. exists (wval (Z.of_nat sz * 8) (take scale src) :: ds), src'.
  split_and!; [done|cbn; lia|constructor; [|done]; rewrite ED; done|].
  assert (length (take scale src) = scale) as Lt by (rewrite length_take; cbn in Hlen; lia).
  rewrite int_bytes_cons, E, (int_bytes_take_drop sz src scale). rewrite <- Lt at 1. rewrite le_bytes_wval by (by apply Forall_take).
  cbn [Nat.mul]. rewrite take_app_add; [done|]. rewrite length_int_bytes, Lt. lia.
Qed.

(** One size divides the other, as those of the integer types do. *)
Definition sizes_ok (S_ D : nat) : Prop := (0 < S_)%nat ∧ (0 < D)%nat ∧ ((∃ k, S_ = (k * D)%nat) ∨ (∃ k, D = (k * S_)%nat)).

Lemma uneven_copy_spec S_ D dests src :
  sizes_ok S_ D → Forall (is_word (Z.of_nat S_ * 8)) src → (dests * D ≤ S_ * length src)%nat →
  ∃ ds src', uneven_copy S_ D dests src = Some (ds, src') ∧ length ds = dests ∧ Forall (is_word (Z.of_nat D * 8)) ds ∧
    int_bytes D ds = take (dests * D) (int_bytes S_ src).
Proof.
  intros (HS & HD & Hdiv) Hsrc Hlen. unfold uneven_copy. destruct (Nat.ltb_spec D S_) as [L|L].
  - destruct Hdiv as [[k ->]|[k ->]]; [|destruct k; nia].
    assert (1 < k)%nat by nia. rewrite Nat2Z.inj_mul, Z.div_mul by lia.
    destruct (copy_down_go D k dests 0 0 0 src) as (ds & src' & HH); [done|done|lia| | |].
    + rewrite Nat.sub_0_r, Z.mod_same, Z.mod_0_l by lia. done.
    + cbn [le_bytes Nat.mul app]. rewrite length_int_bytes. lia.
    + by exists ds, src'.
  - assert (∃ k, D = (k * S_)%nat) as [k ->].
    { destruct Hdiv as [[k Ek]|]; [|done]. exists 1%nat. destruct k as [|[|k]]; nia. }
    replace ((k * S_ + S_ - 1) / S_)%nat with k; [apply copy_up_go; [done..|nia]|].
    apply Nat.div_unique with (S_ - 1)%nat; nia.
Qed.

(** ** Seeding *)

(** What the standard asks of a seed sequence: as many 32-bit values as were
    requested. *)
Class SeedSeqLaws (G : Type) `{SeedSeq G} : Prop := {
  seq_length : ∀ g n, length (fst (seq_generate g n)) = n;
  seq_words : ∀ g n, Forall (is_word (Z.of_nat 4 * 8)) (fst (seq_generate g n));
}.

Lemma draws_spec {R} `{Rng R} n r : length (fst (draws n r)) = n ∧ Forall (is_word (Z.of_nat 4 * 8)) (fst (draws n r)).
Proof.
  revert r. induction n as [|n IH]; intros r; cbn [draws]; [split; [done|constructor]|].
  destruct (rng_draw r) as [x r']. destruct (IH r') as [L F]. destruct (draws n r') as [xs r'']. cbn [fst] in *.
  split; [cbn; lia|]. constructor; [apply u32_range|done].
Qed.
#[export] Instance seed_seq_from_laws {R} `{Rng R} : SeedSeqLaws R.
Proof. split; intros; apply draws_spec. Qed.

(** The sizes of the integer types. *)
Definition int_size (D : nat) : Prop := D = 1%nat ∨ D = 2%nat ∨ D = 4%nat ∨ D = 8%nat ∨ D = 16%nat.

Lemma FROM_ELEMS_enough D n : int_size D → D ≠ 4%nat → sizes_ok 4 D ∧ (n * D ≤ 4 * FROM_ELEMS D n)%nat.
Proof.
  assert (∀ k, (0 < k)%nat → (n ≤ k * ((n + k - 1) / k))%nat) as Hup.
  { intros k Hk. pose proof (Nat.div_mod_eq (n + k - 1) k). pose proof (Nat.mod_upper_bound (n + k - 1) k). lia. }
  unfold sizes_ok, FROM_ELEMS. intros [-> | [-> | [-> | [-> | ->]]]] HD4; try done; cbn [Nat.ltb Nat.leb].
  - change (4 / 1)%nat with 4%nat. pose proof (Hup 4%nat). split_and!; [lia|lia|left; by exists 4%nat|lia].
  - change (4 / 2)%nat with 2%nat. pose proof (Hup 2%nat). split_and!; [lia|lia|left; by exists 2%nat|lia].
  - change ((8 + 4 - 1) / 4)%nat with 2%nat. split_and!; [lia|lia|right; by exists 2%nat|lia].
  - change ((16 + 4 - 1) / 4)%nat with 4%nat. split_and!; [lia|lia|right; by exists 4%nat|lia].
Qed.

Section seeding_laws.
Context {G : Type} `{SeedSeqLaws G}.

Lemma generate_to_spec D size g :
  int_size D →
  ∃ dest g' k, generate_to D size g = Some (dest, g') ∧ length dest = size ∧ Forall (is_word (Z.of_nat D * 8)) dest ∧
    seq_generate g k = (fst (seq_generate g k), g') ∧ int_bytes D dest = take (size * D) (int_bytes 4 (fst (seq_generate g k))).
Proof.
  intros HD. unfold generate_to. destruct (Nat.eqb_spec D 4) as [->|Hne].
  - destruct (seq_generate g size) as [dest g'] eqn:E. exists dest, g', size. rewrite E. cbn [fst].
    pose proof (seq_length g size) as L. pose proof (seq_words g size) as W. rewrite E in L, W. cbn [fst] in L, W.
    split_and!; [done..|]. rewrite take_ge; [done|]. rewrite length_int_bytes. lia.
  - destruct (FROM_ELEMS_enough D size HD Hne) as [Hs Hlen].
    destruct (seq_generate g (FROM_ELEMS D size)) as [buffer g'] eqn:E.
    pose proof (seq_length g (FROM_ELEMS D size)) as L. pose proof (seq_words g (FROM_ELEMS D size)) as W. rewrite E in L, W. cbn [fst] in L, W.
    destruct (uneven_copy_spec 4 D size buffer Hs W ltac:(lia)) as (ds & src' & -> & Ld & Fd & Em). cbn [mbind option_bind].
    exists ds, g', (FROM_ELEMS D size). rewrite E. done.
Qed.
End seeding_laws.

(** The array filled from a seed sequence is, for every integer type and
    every size, byte for byte what copying the sequence's 32-bit words on a
    little-endian machine gives: enough words are asked for, none is read that
    was not generated, and every destination integer is filled. *)
Theorem generate_to_memcpy {G} `{SeedSeqLaws G} (D size : nat) (g : G) :
  int_size D →
  ∃ dest g' k, generate_to D size g = Some (dest, g') ∧ length dest = size ∧ Forall (is_word (Z.of_nat D * 8)) dest ∧
    seq_generate g k = (fst (seq_generate g k), g') ∧ int_bytes D dest = take (size * D) (int_bytes 4 (fst (seq_generate g k))).
Proof. apply generate_to_spec. Qed.

(** A counter as a generator. *)
#[local] Instance counter_rng : Rng Z := λ c, (c, c + 1).
Lemma generate_to_memcpy_witness :
  ∃ dest g' k, generate_to (G := Z) 2 3 7 = Some (dest, g') ∧ length dest = 3%nat ∧ Forall (is_word (Z.of_nat 2 * 8)) dest ∧
    seq_generate 7 k = (fst (seq_generate 7 k), g') ∧ int_bytes 2 dest = take 6 (int_bytes 4 (fst (seq_generate 7 k))).
Proof. apply (generate_to_memcpy 2 3 7). right. by left. Defined.

(** ** Bounded draws *)

Lemma threshold_eq w ub : 0 < w → 0 < ub < 2 ^ w → threshold w ub = 2 ^ w mod ub ∧ 0 ≤ threshold w ub < ub.
Proof.
  intros Hw Hu. unfold threshold. rewrite wrap_small by (unfold is_word; lia).
  replace (2 ^ w - 1 - 0 + 1 - ub) with (2 ^ w + (-1) * ub) by lia. rewrite Z.mod_add by lia.
  split; [done|]. apply Z.mod_pos_bound. lia.
Qed.

(** The accepted draws of residue [k], in order. *)
Definition accepted (w ub k : Z) : list Z := filter (λ r, (threshold w ub <=? r) && (r mod ub =? k) = true) (seqZ 0 (2 ^ w)).

Lemma accepted_perm w ub k :
  0 < w → 0 < ub < 2 ^ w → 0 ≤ k < ub →
  accepted w ub k ≡ₚ ((λ j, k + ub * j) <$> seqZ (if k <? threshold w ub then 1 else 0) (2 ^ w / ub)).
Proof.
  intros Hw Hu Hk. destruct (threshold_eq w ub Hw Hu) as [Et Ht]. pose proof (Z.div_mod (2 ^ w) ub ltac:(lia)) as Ed.
  rewrite <- Et in Ed. apply NoDup_Permutation.
  - apply NoDup_filter, NoDup_seqZ.
  - apply NoDup_fmap_2; [intros x y E; nia|apply NoDup_seqZ].
  - intros r. unfold accepted. rewrite list_elem_of_filter, list_elem_of_fmap, elem_of_seqZ, andb_true_iff, Z.leb_le, Z.eqb_eq.
    set (q := 2 ^ w / ub) in *. set (t := threshold w ub) in *. clearbody q t. split.
    + intros ((H1 & H2) & H3). exists (r / ub). pose proof (Z.div_mod r ub ltac:(lia)).
      split; [lia|]. apply elem_of_seqZ. destruct (Z.ltb_spec k t); split; nia.
    + intros (j & -> & Hj%elem_of_seqZ). assert ((k + ub * j) mod ub = k) as ->.
      { rewrite (Z.mul_comm ub), Z.mod_add, Z.mod_small by lia. done. }
      destruct (Z.ltb_spec k t); split_and!; try done; nia.
Qed.

Lemma bounded_rand_first w ub pre r rest :
  Forall (λ x, x < threshold w ub) pre → threshold w ub ≤ r →
  bounded_rand w ub (pre ++ r :: rest) = Some (r mod ub, rest).
Proof.
  intros Hp Hr. induction Hp as [|x pre Hx _ IH]; cbn [app bounded_rand].
  - by rewrite (proj2 (Z.leb_le _ _)) by done.
  - by rewrite (proj2 (Z.leb_gt _ _)) by done.
Qed.

Lemma bounded_rand_range w ub rng x rng' : 0 < ub → bounded_rand w ub rng = Some (x, rng') → 0 ≤ x < ub.
Proof.
  intros Hu. induction rng as [|r rng IH]; cbn [bounded_rand]; [done|]. destruct (_ <=? r); [|done].
  intros [= <- <-]. apply Z.mod_pos_bound. lia.
Qed.

(** C31: a bounded draw takes the first draw at or above the threshold, is below
    the bound, and is uniform: among all draws, each result has the same
    number of accepted ones, 2^w / bound, however the bound divides 2^w. *)
Theorem bounded_rand_uniform w ub :
  0 < w → 0 < ub < 2 ^ w →
  (∀ pre r rest, Forall (λ x, x < threshold w ub) pre → threshold w ub ≤ r →
     bounded_rand w ub (pre ++ r :: rest) = Some (r mod ub, rest) ∧ 0 ≤ r mod ub < ub) ∧
  (∀ k, 0 ≤ k < ub → Z.of_nat (length (accepted w ub k)) = 2 ^ w / ub) ∧ threshold w ub < ub ∧ 0 < 2 ^ w / ub.
Proof.
  intros Hw Hu. split_and!.
  - intros pre r rest Hp Hr. split; [by apply bounded_rand_first|apply Z.mod_pos_bound; lia].
  - intros k Hk. rewrite (accepted_perm w ub k Hw Hu Hk), length_fmap, length_seqZ. apply Z2Nat.id, Z.div_pos; lia.
  - apply (threshold_eq w ub Hw Hu).
  - apply Z.div_str_pos. lia.
Qed.
Lemma bounded_rand_uniform_witness : Z.of_nat (length (accepted 8 100 42)) = 2.
Proof. destruct (bounded_rand_uniform 8 100) as (_ & H & _); [done..|]. rewrite H; done. Defined.

(** ** Shuffling *)

(** The shuffle given the choices; position [length cs + 1] is settled first. *)
Fixpoint fisher_yates {A} (cs : list nat) (l : list A) : list A :=
  match cs with
  | [] => l
  | c :: cs => fisher_yates cs (swap_at l c (S (length cs)))
  end.
Fixpoint choices_ok (cs : list nat) : Prop :=
  match cs with
  | [] => True
  | c :: cs => (c < S (S (length cs)))%nat ∧ choices_ok cs
  end.

Section shuffling.
Context {A : Type}.
Implicit Types l : list A.

Lemma swap_at_perm l i j : swap_at l i j ≡ₚ l.
Proof.
  unfold swap_at. destruct (l !! i) as [x|] eqn:Ei; [|done]. destruct (l !! j) as [y|] eqn:Ej; [|done].
  symmetry. apply Permutation_inj. split; [by rewrite !length_insert|].
  exists (λ k, if decide (k = i) then j else if decide (k = j) then i else k). split.
  - intros a b E. repeat case_decide; congruence.
  - intros k. apply lookup_lt_Some in Ei as Li. apply lookup_lt_Some in Ej as Lj.
    repeat case_decide; subst; rewrite ?list_lookup_insert_eq, ?list_lookup_insert_ne, ?list_lookup_insert_eq
      by (rewrite ?length_insert; done); try done.
Qed.

Lemma swap_at_lookup l i j :
  (i < length l)%nat → (j < length l)%nat → swap_at l i j !! j = l !! i ∧
  ∀ k, k ≠ i → k ≠ j → swap_at l i j !! k = l !! k.
Proof.
  intros [x Ei]%lookup_lt_is_Some [y Ej]%lookup_lt_is_Some. unfold swap_at. rewrite Ei, Ej.
  apply lookup_lt_Some in Ei as Li. apply lookup_lt_Some in Ej as Lj. split.
  - by rewrite list_lookup_insert_eq by (rewrite length_insert; lia).
  - intros k Hi Hj. by rewrite !list_lookup_insert_ne by done.
Qed.

Lemma fisher_yates_perm cs l : fisher_yates cs l ≡ₚ l.
Proof. revert l. induction cs as [|c cs IH]; intros l; cbn [fisher_yates]; [done|]. by rewrite IH, swap_at_perm. Qed.

Lemma fisher_yates_above cs l i :
  choices_ok cs → (length cs < length l)%nat → (length cs < i)%nat → fisher_yates cs l !! i = l !! i.
Proof.
  revert l. induction cs as [|c cs IH]; intros l Hc Hl Hi; cbn [fisher_yates]; [done|]. destruct Hc as [Hc Hcs]. cbn [length] in *.
  rewrite IH by (rewrite ?(Permutation_length (swap_at_perm _ _ _)); (done || lia)). apply swap_at_lookup; lia.
Qed.

Lemma fisher_yates_inj cs cs' l :
  NoDup l → choices_ok cs → choices_ok cs' → length cs = length cs' → (length cs < length l)%nat →
  fisher_yates cs l = fisher_yates cs' l → cs = cs'.
Proof.
  revert cs' l. induction cs as [|c cs IH]; intros [|c' cs'] l Hnd Hc Hc' HL Hl E; try done. destruct Hc as [Hc Hcs]. destruct Hc' as [Hc' Hcs'].
  cbn [length fisher_yates] in *. injection HL as HL. rewrite <- HL in *.
  assert (∀ d ds, choices_ok ds → length ds = length cs → (d < length l)%nat →
    fisher_yates ds (swap_at l d (S (length cs))) !! S (length cs) = l !! d) as Hlast.
  { intros d ds Hds Ld Hd. rewrite fisher_yates_above by (rewrite ?(Permutation_length (swap_at_perm _ _ _)); (done || lia)).
    apply swap_at_lookup; lia. }
  assert (l !! c = l !! c') as El.
  { rewrite <- (Hlast c cs), <- (Hlast c' cs') by (done || lia). by rewrite E. }
  assert (c = c') as <-.
  { destruct (lookup_lt_is_Some_2 l c) as [x Hx]; [lia|]. apply (NoDup_lookup l c c' x Hnd Hx). congruence. }
  f_equal. apply (IH cs' (swap_at l c (S (length cs)))); try done.
  - by rewrite swap_at_perm.
  - rewrite (Permutation_length (swap_at_perm _ _ _)). lia.
Qed.
End shuffling.

Lemma shuffle_go_SS {A} w count (l : list A) rng :
  shuffle_go w (S (S count)) l rng =
    '(chosen, rng) ← bounded_rand w (wrap w (Z.of_nat (S (S count)))) rng;
    shuffle_go w (S count) (swap_at l (Z.to_nat chosen) (S count)) rng.
Proof. done. Qed.

Lemma shuffle_go_choices {A} w count (l : list A) rng l' rng' :
  0 < w → Z.of_nat count < 2 ^ w → shuffle_go w count l rng = Some (l', rng') →
  ∃ cs, length cs = (count - 1)%nat ∧ choices_ok cs ∧ l' = fisher_yates cs l.
Proof.
  intros Hw. revert l rng. induction count as [|count IH]; intros l rng Hc E; [injection E as <- <-; by exists []|].
  destruct count as [|count]; [injection E as <- <-; by exists []|]. rewrite shuffle_go_SS in E.
  rewrite (wrap_small w) in E by (unfold is_word; lia).
  destruct (bounded_rand w _ rng) as [[chosen rng1]|] eqn:Eb; [|done]. cbn [mbind option_bind] in E.
  apply bounded_rand_range in Eb; [|lia]. apply IH in E as (cs & L & Hcs & ->); [|lia].
  exists (Z.to_nat chosen :: cs). cbn [length choices_ok fisher_yates]. rewrite L. split_and!; [lia|lia|done|].
  do 2 f_equal. lia.
Qed.

(** Enough draws that no bound rejects let the shuffle end. *)
Lemma shuffle_go_ends {A} w count (l : list A) rng :
  0 < w → Z.of_nat count < 2 ^ w →
  (count - 1 ≤ length (filter (λ r, (Z.of_nat count <=? r)%Z = true) rng))%nat →
  ∃ res, shuffle_go w count l rng = Some res.
Proof.
  intros Hw. revert l rng. induction count as [|count IH]; intros l rng Hc Hr; [by eexists|].
  destruct count as [|count]; [by eexists|]. rewrite shuffle_go_SS, (wrap_small w) by (unfold is_word; lia).
  set (cnt := Z.of_nat (S (S count))) in *. destruct (threshold_eq w cnt Hw ltac:(lia)) as [_ Ht].
  assert (∃ x rng1, bounded_rand w cnt rng = Some (x, rng1) ∧
    (S count ≤ S (length (filter (λ r, (cnt <=? r)%Z = true) rng1)))%nat) as (x & rng1 & -> & Hl).
  { clear IH. induction rng as [|r rng IH]; [cbn in Hr; lia|]. cbn [bounded_rand]. rewrite filter_cons in Hr.
    destruct (Z.leb_spec (threshold w cnt) r).
    - exists (r mod cnt), rng. split; [done|]. case_decide; cbn [length] in Hr; lia.
    - apply IH. rewrite decide_False in Hr; [done|]. rewrite (proj2 (Z.leb_gt _ _)) by lia. done. }
  cbn [mbind option_bind]. apply IH; [lia|].
  assert (∀ rs, (length (filter (λ r, (cnt <=? r)%Z = true) rs) ≤ length (filter (λ r, (Z.of_nat (S count) <=? r)%Z = true) rs))%nat) as Hmono.
  { induction rs as [|r rs IHr]; [done|]. rewrite !filter_cons. repeat case_decide; cbn [length]; rewrite ?not_true_iff_false, ?Z.leb_le, ?Z.leb_gt in *; unfold cnt in *; lia. }
  specialize (Hmono rng1). lia.
Qed.

(** A shuffle ends once enough large draws have come, and returns a
    permutation of its input; it settles one element per draw, and different
    draws lead to different permutations, so that each of the n! permutations
    has one sequence of choices. *)
Theorem shuffle_permutes {A} w (l : list A) rng :
  0 < w → Z.of_nat (length l) < 2 ^ w →
  (length l - 1 ≤ length (filter (λ r, (Z.of_nat (length l) <=? r)%Z = true) rng))%nat →
  ∃ l' rng' cs, shuffle w l rng = Some (l', rng') ∧ l' ≡ₚ l ∧ length cs = (length l - 1)%nat ∧ choices_ok cs ∧
    l' = fisher_yates cs l ∧
    (NoDup l → ∀ cs', length cs' = length cs → choices_ok cs' → fisher_yates cs' l = l' → cs' = cs).
Proof.
  intros Hw Hl Hr. destruct (shuffle_go_ends w (length l) l rng Hw Hl Hr) as ([l' rng'] & E).
  destruct (shuffle_go_choices w (length l) l rng l' rng' Hw Hl E) as (cs & Lc & Hc & ->).
  exists (fisher_yates cs l), rng', cs. split_and!; try done; [apply fisher_yates_perm|].
  intros Hnd cs' L' Hc' E'. destruct (decide (l = [])) as [->|Hne].
  { cbn in Lc. destruct cs; [|done]. by destruct cs'. }
  assert (0 < length l)%nat by (destruct l; [done|cbn; lia]). apply (fisher_yates_inj cs' cs l); (done || lia).
Qed.
Lemma shuffle_permutes_witness :
  ∃ l' rng' cs, shuffle 8 [1; 2; 3] [200; 7; 100] = Some (l', rng') ∧ l' ≡ₚ [1; 2; 3] ∧ length cs = 2%nat ∧ choices_ok cs ∧
    l' = fisher_yates cs [1; 2; 3] ∧
    (NoDup [1; 2; 3] → ∀ cs', length cs' = length cs → choices_ok cs' → fisher_yates cs' [1; 2; 3] = l' → cs' = cs).
Proof. apply (shuffle_permutes 8 [1; 2; 3] [200; 7; 100]); [done|done|vm_compute; lia]. Defined.
