(* ===== verification/PcgEngine.v ===== *)
(** * PcgEngine: the random generators (src/common/pcg_random.hpp)

    A generator is a linear congruential engine of [n] bits with a stream
    (its increment), a multiplier and an output function; [extended] adds a
    table of values that are generators of their own, stored as their last
    output.  A template instance is a value of [engine_type]; [Predef] lists
    the instances the header names.

    Arithmetic is that of an unsigned integer of [n] bits ([wrap]); a failing
    [assert] or a recursion that does not end is [None]. *)

From Stdlib Require Import Ascii.
From Stdlib Require String.
From S2P Require Import Prelude Uint128 Bytes Cstd PcgExtras.
Local Open Scope string_scope.
Local Open Scope list_scope.
Local Open Scope Z_scope.

(** ** Constants *)

Definition default_multiplier (n : Z) : Z :=
  if n =? 8 then 141 else if n =? 16 then 12829 else if n =? 32 then 747796405
  else if n =? 64 then 6364136223846793005 else PCG_128BIT_CONSTANT 2549297995355413924 4865540595714422341.
Definition default_increment (n : Z) : Z :=
  if n =? 8 then 77 else if n =? 16 then 47989 else if n =? 32 then 2891336453
  else if n =? 64 then 1442695040888963407 else PCG_128BIT_CONSTANT 6364136223846793005 1442695040888963407.
Definition cheap_multiplier (n : Z) : Z := if n =? 128 then 0xda942042e4dd58b5 else default_multiplier n.

Definition mcg_multiplier (n : Z) : Z :=
  if n =? 8 then 217 else if n =? 16 then 62169 else if n =? 32 then 277803737
  else if n =? 64 then 12605985483714917081 else PCG_128BIT_CONSTANT 17766728186571221404 12605985483714917081.
Definition mcg_unmultiplier (n : Z) : Z :=
  if n =? 8 then 105 else if n =? 16 then 28009 else if n =? 32 then 2897767785
  else if n =? 64 then 15009553638781119849 else PCG_128BIT_CONSTANT 14422606686972528997 15009553638781119849.

(** ** Output functions *)

(** [bits] of state, [xtypebits] of output. *)
Section output.
Variables xtypebits bits : Z.

(** [bitcount_t(internal >> (bits - opbits)) & mask] *)
Definition top_bits (opbits internal : Z) : Z :=
  if negb (opbits =? 0) then u8 (internal ≫ (bits - opbits)) &&& ((1 ≪ opbits) - 1) else 0.

Definition xsh_rs (internal : Z) : Z :=
  let sparebits := bits - xtypebits in
  let opbits :=
    if 64 <=? sparebits - 5 then 5 else if 32 <=? sparebits - 4 then 4 else if 16 <=? sparebits - 3 then 3
    else if 4 <=? sparebits - 2 then 2 else if 1 <=? sparebits - 1 then 1 else 0 in
  let mask := (1 ≪ opbits) - 1 in
  let maxrandshift := mask in
  let topspare := opbits in
  let bottomspare := sparebits - topspare in
  let xshift := topspare + (xtypebits + maxrandshift) / 2 in
  let rshift := top_bits opbits internal in
  let internal := internal ^^^ (internal ≫ xshift) in
  wrap xtypebits (internal ≫ (bottomspare - maxrandshift + rshift)).

Definition wantedopbits (xtypebits : Z) : Z :=
  if 128 <=? xtypebits then 7 else if 64 <=? xtypebits then 6 else if 32 <=? xtypebits then 5
  else if 16 <=? xtypebits then 4 else 3.

Definition xsh_rr (internal : Z) : Z :=
  let sparebits := bits - xtypebits in
  let opbits := if wantedopbits xtypebits <=? sparebits then wantedopbits xtypebits else sparebits in
  let amplifier := wantedopbits xtypebits - opbits in
  let mask := (1 ≪ opbits) - 1 in
  let topspare := opbits in
  let bottomspare := sparebits - topspare in
  let xshift := (topspare + xtypebits) / 2 in
  let rot := top_bits opbits internal in
  let amprot := (rot ≪ amplifier) &&& mask in
  let internal := internal ^^^ (internal ≫ xshift) in
  let result := wrap xtypebits (internal ≫ bottomspare) in
  rotr xtypebits result amprot.

Definition output_rxs (internal : Z) : Z :=
  let shift := bits - xtypebits in
  let extrashift := (xtypebits - shift) / 2 in
  let rshift :=
    if 64 + 8 <? shift then (internal ≫ (bits - 6)) &&& 63 else if 32 + 4 <? shift then (internal ≫ (bits - 5)) &&& 31
    else if 16 + 2 <? shift then (internal ≫ (bits - 4)) &&& 15 else if 8 + 1 <? shift then (internal ≫ (bits - 3)) &&& 7
    else if 4 + 1 <? shift then (internal ≫ (bits - 2)) &&& 3 else if 2 + 1 <? shift then (internal ≫ (bits - 1)) &&& 1
    else 0 in
  let internal := internal ^^^ (internal ≫ (shift + extrashift - rshift)) in
  wrap xtypebits (internal ≫ rshift).

Definition opbits_of (xtypebits : Z) : Z :=
  if 128 <=? xtypebits then 6 else if 64 <=? xtypebits then 5 else if 32 <=? xtypebits then 4
  else if 16 <=? xtypebits then 3 else 2.

Definition rxs_m (internal : Z) : Z :=
  let opbits := opbits_of xtypebits in
  let shift := bits - xtypebits in
  let rshift := top_bits opbits internal in
  let internal := internal ^^^ (internal ≫ (opbits + rshift)) in
  let internal := wrap bits (internal * mcg_multiplier bits) in
  wrap xtypebits (internal ≫ shift).

Definition rxs_m_xs (internal : Z) : Z :=
  let opbits := opbits_of xtypebits in
  let shift := bits - xtypebits in
  let rshift := top_bits opbits internal in
  let internal := internal ^^^ (internal ≫ (opbits + rshift)) in
  let internal := wrap bits (internal * mcg_multiplier bits) in
  let result := wrap xtypebits (internal ≫ shift) in
  result ^^^ (result ≫ ((2 * xtypebits + 2) / 3)).

Definition rxs_m_xs_unoutput (internal : Z) : option Z :=
  let opbits := opbits_of bits in
  internal ← unxorshift bits (Z.to_nat bits) internal bits ((2 * bits + 2) / 3);
  let internal := wrap bits (internal * mcg_unmultiplier bits) in
  let rshift := top_bits opbits internal in
  unxorshift bits (Z.to_nat bits) internal bits (opbits + rshift).

Definition dxsm (internal : Z) : Z :=
  let hi := wrap xtypebits (internal ≫ (bits - xtypebits)) in
  let lo := wrap xtypebits internal in
  let lo := lo ||| 1 in
  let hi := hi ^^^ (hi ≫ (xtypebits / 2)) in
  let hi := wrap xtypebits (hi * wrap xtypebits (cheap_multiplier bits)) in
  let hi := hi ^^^ (hi ≫ (3 * (xtypebits / 4))) in
  wrap xtypebits (hi * lo).

Definition xsl_rr (internal : Z) : Z :=
  let sparebits := bits - xtypebits in
  let opbits := if wantedopbits xtypebits <=? sparebits then wantedopbits xtypebits else sparebits in
  let amplifier := wantedopbits xtypebits - opbits in
  let mask := (1 ≪ opbits) - 1 in
  let topspare := sparebits in
  let bottomspare := sparebits - topspare in
  let xshift := (topspare + xtypebits) / 2 in
  let rot := top_bits opbits internal in
  let amprot := (rot ≪ amplifier) &&& mask in
  let internal := internal ^^^ (internal ≫ xshift) in
  let result := wrap xtypebits (internal ≫ bottomspare) in
  rotr xtypebits result amprot.

(** [halfsize_trait] *)
Definition htypebits : Z := bits / 2.
Definition xsl_rr_rr (internal : Z) : Z :=
  let sparebits := bits - htypebits in
  let opbits := if wantedopbits htypebits <=? sparebits then wantedopbits htypebits else sparebits in
  let amplifier := wantedopbits htypebits - opbits in
  let mask := (1 ≪ opbits) - 1 in
  let topspare := sparebits in
  let xshift := (topspare + htypebits) / 2 in
  let rot := top_bits opbits internal in
  let amprot := (rot ≪ amplifier) &&& mask in
  let internal := internal ^^^ (internal ≫ xshift) in
  let lowbits := rotr htypebits (wrap htypebits internal) amprot in
  let highbits := wrap htypebits (internal ≫ topspare) in
  let rot2 := lowbits &&& mask in
  let amprot2 := (rot2 ≪ amplifier) &&& mask in
  let highbits := rotr htypebits highbits amprot2 in
  wrap bits (highbits ≪ topspare) ^^^ lowbits.

Definition xsh (internal : Z) : Z :=
  let sparebits := bits - xtypebits in
  let topspare := 0 in
  let bottomspare := sparebits - topspare in
  let xshift := (topspare + xtypebits) / 2 in
  let internal := internal ^^^ (internal ≫ xshift) in
  wrap xtypebits (internal ≫ bottomspare).

Definition xsl (internal : Z) : Z :=
  let sparebits := bits - xtypebits in
  let topspare := sparebits in
  let bottomspare := sparebits - topspare in
  let xshift := (topspare + xtypebits) / 2 in
  let internal := internal ^^^ (internal ≫ xshift) in
  wrap xtypebits (internal ≫ bottomspare).
End output.

(** ** Streams *)

(** [unique_stream] takes its increment from the object's address. *)
Inductive stream_mixin := unique_stream (this : Z) | no_stream | oneseq_stream | specific_stream.

Definition is_mcg (s : stream_mixin) : bool := match s with no_stream => true | _ => false end.
Definition can_specify_stream (s : stream_mixin) : bool := match s with specific_stream => true | _ => false end.
(** [size_t] has 64 bits. *)
Definition streams_pow2 (s : stream_mixin) (n : Z) : Z :=
  match s with
  | unique_stream _ => Z.min n 64 - 1
  | no_stream | oneseq_stream => 0
  | specific_stream => n - 1
  end.

(** ** The engine *)

(** A template instance: [xtype], [itype], the output function,
    [output_previous], the stream and the multiplier. *)
Record engine_type := Engine_type {
  t_xbits : Z; t_bits : Z; t_output : Z → Z; t_previous : bool; t_stream : stream_mixin; t_multiplier : Z;
}.

(** [inc_] is the data member of [specific_stream]. *)
Record engine := Engine { state_ : Z; inc_ : Z }.
#[export] Instance eta_engine : Eta engine := λ x, Engine (state_ x) (inc_ x).

(** The two transition loops, static members of the class. *)
Section transitions.
Variable n : Z.

(** One step of the generator. *)
Definition lcg (mult plus state : Z) : Z := wrap n (state * mult + plus).

(** [while (delta > 0)], over the bits of [delta] from the lowest. *)
Fixpoint advance_loop (delta : positive) (cur_mult cur_plus acc_mult acc_plus : Z) : Z * Z :=
  let odd := match delta with xO _ => false | _ => true end in
  let acc_plus' := if odd then wrap n (acc_plus * cur_mult + cur_plus) else acc_plus in
  let acc_mult' := if odd then wrap n (acc_mult * cur_mult) else acc_mult in
  let cur_plus' := wrap n (wrap n (cur_mult + 1) * cur_plus) in
  let cur_mult' := wrap n (cur_mult * cur_mult) in
  match delta with
  | xH => (acc_mult', acc_plus')
  | xO delta | xI delta => advance_loop delta cur_mult' cur_plus' acc_mult' acc_plus'
  end.
Definition advance (state delta cur_mult cur_plus : Z) : Z :=
  let '(acc_mult, acc_plus) := match delta with Zpos d => advance_loop d cur_mult cur_plus 1 0 | _ => (1, 0) end in
  wrap n (acc_mult * state + acc_plus).

Fixpoint distance_loop (fuel : nat) (mask the_bit cur_state newstate cur_mult cur_plus distance : Z) : option Z :=
  if (cur_state &&& mask) =? (newstate &&& mask) then Some distance
  else
    match fuel with
    | O => None
    | S fuel =>
        let differs := negb ((cur_state &&& the_bit) =? (newstate &&& the_bit)) in
        let cur_state := if differs then wrap n (cur_state * cur_mult + cur_plus) else cur_state in
        let distance := if differs then distance ||| the_bit else distance in
        if negb ((cur_state &&& the_bit) =? (newstate &&& the_bit)) then None
        else distance_loop fuel mask (wrap n (the_bit ≪ 1)) cur_state newstate
               (wrap n (cur_mult * cur_mult)) (wrap n (wrap n (cur_mult + 1) * cur_plus)) distance
    end.
Definition distance (cur_state newstate cur_mult cur_plus mask : Z) : option Z :=
  let is_mcg := cur_plus =? 0 in
  let the_bit := if is_mcg then 4 else 1 in
  d ← distance_loop (Z.to_nat n) mask the_bit cur_state newstate cur_mult cur_plus 0;
  Some (if is_mcg then d ≫ 2 else d).
End transitions.

Section engine_ops.
Variable T : engine_type.
Notation n := (t_bits T).

Definition increment (e : engine) : Z :=
  match t_stream T with
  | unique_stream this => wrap n (this ||| 1)
  | no_stream => 0
  | oneseq_stream => default_increment n
  | specific_stream => inc_ e
  end.
Definition stream (e : engine) : Z := increment e ≫ 1.
(** Only [specific_stream] has a stream to set; the others abort. *)
Definition set_stream (specific_seq : Z) (e : engine) : option engine :=
  if can_specify_stream (t_stream T) then Some (e <| inc_ := wrap n (specific_seq ≪ 1) ||| 1 |>) else None.

Definition period_pow2 : Z := n - 2 * Z.b2z (is_mcg (t_stream T)).

Definition bump (e : engine) (state : Z) : Z := lcg n (t_multiplier T) (increment e) state.
Definition base_generate (e : engine) : Z * engine :=
  let s := bump e (state_ e) in (s, e <| state_ := s |>).
Definition base_generate0 (e : engine) : Z * engine :=
  let old_state := state_ e in (old_state, e <| state_ := bump e (state_ e) |>).
(** [operator()] *)
Definition draw (e : engine) : Z * engine :=
  let '(s, e) := if t_previous T then base_generate0 e else base_generate e in
  (t_output T s, e).

Definition engine_distance (e : engine) (newstate mask : Z) : option Z :=
  distance n (state_ e) newstate (t_multiplier T) (increment e) mask.
Definition engine_advance (delta : Z) (e : engine) : engine :=
  e <| state_ := advance n (state_ e) delta (t_multiplier T) (increment e) |>.
Definition backstep (delta : Z) (e : engine) : engine := engine_advance (wrap n (- delta)) e.
Definition discard (delta : Z) (e : engine) : engine := engine_advance delta e.
Definition wrapped (e : engine) : bool := if is_mcg (t_stream T) then state_ e =? 3 else state_ e =? 0.

(** Construction: the stream first, then the state. *)
Definition init_state (e : engine) (state : Z) : engine :=
  e <| state_ := if is_mcg (t_stream T) then state ||| 3 else bump e (wrap n (state + increment e)) |>.
Definition engine_new (state : Z) : engine := init_state (Engine 0 (default_increment n)) state.
Definition default_state : Z := wrap n 0xcafef00dd15ea5e5.
Definition engine_new_stream (state stream_seed : Z) : engine :=
  init_state (Engine 0 (wrap n (stream_seed ≪ 1) ||| 1)) state.
Definition engine_from_seq {G} `{SeedSeq G} (g : G) : option (engine * G) :=
  let size := Z.to_nat (n / 8) in
  if can_specify_stream (t_stream T) then
    '(seeddata, g) ← generate_to size 2 g;
    Some (engine_new_stream (at_z seeddata 1) (at_z seeddata 0), g)
  else
    '(s, g) ← generate_one size 0 1 g;
    Some (engine_new s, g).

(** [operator-] *)
Definition engine_minus (lhs rhs : engine) : option Z :=
  if increment lhs =? increment rhs then engine_distance rhs (state_ lhs) (Z.ones n)
  else
    let lhs_diff := wrap n (increment lhs + wrap n (t_multiplier T - 1) * state_ lhs) in
    let rhs_diff := wrap n (increment rhs + wrap n (t_multiplier T - 1) * state_ rhs) in
    let rhs_diff := if negb ((lhs_diff &&& 3) =? (rhs_diff &&& 3)) then wrap n (- rhs_diff) else rhs_diff in
    distance n rhs_diff lhs_diff (t_multiplier T) 0 (Z.ones n).
Definition engine_eqb (lhs rhs : engine) : bool :=
  (increment lhs =? increment rhs) && (state_ lhs =? state_ rhs).
End engine_ops.

(** ** Text *)

(** Formatted extraction of an unsigned integer of at most 64 bits. *)
Fixpoint std_digits (s : string) (v : Z) (none : bool) : Z * bool * string :=
  match s with
  | EmptyString => (v, none, s)
  | String c rest =>
      let k := Z.of_N (N_of_ascii c) in
      if (k <? 48) || (57 <? k) then (v, none, s) else std_digits rest (v * 10 + (k - 48)) false
  end.
Definition at_end (s : string) : bool := match s with EmptyString => true | _ => false end.
Definition read_std (n : Z) (in_ : string) (old : Z) : extraction :=
  match skip_spaces in_ with
  | EmptyString => Extraction old true true EmptyString
  | s =>
      let '(neg, t) := strip_sign s in
      let '(v, none, rest) := std_digits t 0 true in
      if none then Extraction 0 true (at_end rest) rest
      else if 2 ^ n <=? v then Extraction (2 ^ n - 1) true (at_end rest) rest
      else Extraction (if neg then wrap n (- v) else v) false (at_end rest) rest
  end.

(** The extraction and insertion operators an [itype] has. *)
Definition read_int (n : Z) (in_ : string) (old : Z) : extraction :=
  if n =? 128 then read128 in_ old
  else if n =? 8 then
    let e := read_std 32 in_ 0xdecea5ed in
    let '(v, fail) := read_u8 (ex_value e) (ex_fail e) old in
    Extraction v fail (ex_eof e) (ex_rest e)
  else read_std n in_ old.
Definition print_int (n v : Z) : option string := if n =? 128 then print_dec v else Some (dec v).

Definition print_engine (T : engine_type) (e : engine) : option string :=
  m ← print_int (t_bits T) (t_multiplier T);
  i ← print_int (t_bits T) (increment T e);
  s ← print_int (t_bits T) (state_ e);
  Some (m +:+ " " +:+ i +:+ " " +:+ s).

(** [in >> multiplier >> increment >> state]: once one fails, the others do
    nothing.  The result is the engine, whether the stream failed, and what is
    left of it. *)
Definition read_engine (T : engine_type) (in_ : string) (rng : engine) : engine * bool * string :=
  let n := t_bits T in
  let m := read_int n in_ 0 in
  if ex_fail m then (rng, true, ex_rest m)
  else
    let i := read_int n (ex_rest m) 0 in
    if ex_fail i then (rng, true, ex_rest i)
    else
      let s := read_int n (ex_rest i) 0 in
      if ex_fail s then (rng, true, ex_rest s)
      else if negb (ex_value m =? t_multiplier T) then (rng, true, ex_rest s)
      else
        match set_stream T (ex_value i ≫ 1) rng with
        | Some rng => (rng <| state_ := ex_value s |>, false, ex_rest s)
        | None =>
            if negb (ex_value i =? increment T rng) then (rng, true, ex_rest s)
            else (rng <| state_ := ex_value s |>, false, ex_rest s)
        end.

(** ** Generators stored as their last output *)

(** A type whose output function can be inverted. *)
Record inside_out := Inside_out { io_type : engine_type; io_unoutput : Z → option Z }.

Section external.
Variable X : inside_out.
Notation n := (t_bits (io_type X)).
Notation mult := (t_multiplier (io_type X)).
(** The increment is a static member: the stream has no state. *)
Definition io_increment : Z := increment (io_type X) (Engine 0 0).

Definition external_zero (state : Z) : Z := if is_mcg (t_stream (io_type X)) then state &&& 3 else 0.

Definition external_step (randval i : Z) : option (Z * bool) :=
  state ← io_unoutput X randval;
  let state := wrap n (state * mult + io_increment + wrap n (i * 2)) in
  let result := t_output (io_type X) state in
  Some (result, result =? external_zero state).

Definition external_advance (randval i delta : Z) (forwards : bool) : option (Z * bool) :=
  state ← io_unoutput X randval;
  let inc := wrap n (io_increment + wrap n (i * 2)) in
  let zero := external_zero state in
  dist_to_zero ← distance n state zero mult inc (Z.ones n);
  let crosses_zero := if forwards then dist_to_zero <=? delta else wrap n (- dist_to_zero) <=? delta in
  let delta := if forwards then delta else wrap n (- delta) in
  let state := advance n state delta mult inc in
  Some (t_output (io_type X) state, crosses_zero).
End external.

(** ** Extended generators *)

Record extended_type := Extended_type {
  x_base : engine_type; x_ext : inside_out; x_table_pow2 : Z; x_advance_pow2 : Z; x_kdd : bool;
}.
Record extended := Extended { x_engine : engine; data_ : list Z }.

Section extended_ops.
Variable X : extended_type.
Notation T := (x_base X).
Notation stypebits := (t_bits (x_base X)).
Notation rtypebits := (t_xbits (x_base X)).

Definition table_size : nat := Z.to_nat (2 ^ x_table_pow2 X).
Definition table_shift : Z := stypebits - x_table_pow2 X.
Definition table_mask : Z := wrap stypebits (wrap stypebits (1 ≪ x_table_pow2 X) - 1).
Definition tick_limit_pow2 : Z := 64.
Definition may_tick : bool := (x_advance_pow2 X <? stypebits) && (x_advance_pow2 X <? tick_limit_pow2).
Definition tick_shift : Z := stypebits - x_advance_pow2 X.
Definition tick_mask : Z := if may_tick then wrap stypebits ((1 ≪ x_advance_pow2 X) - 1) else Z.ones stypebits.
Definition may_tock : bool := stypebits <? tick_limit_pow2.

(** [advance_table()]: each entry is stepped once, and once more for a carry. *)
Fixpoint advance_table_from (i : Z) (carry : bool) (data : list Z) : option (list Z) :=
  match data with
  | [] => Some []
  | d :: data =>
      '(d, carry) ← (if carry then external_step (x_ext X) d (i + 1) else Some (d, carry));
      '(d, carry2) ← external_step (x_ext X) d (i + 1);
      data ← advance_table_from (i + 1) (carry || carry2) data;
      Some (d :: data)
  end.
Definition advance_table (r : extended) : option extended :=
  data ← advance_table_from 0 false (data_ r);
  Some (Extended (x_engine r) data).

(** [advance_table(delta, isForwards)] *)
Fixpoint advance_table_by_from (i carry delta : Z) (isForwards : bool) (data : list Z) : option (list Z) :=
  match data with
  | [] => Some []
  | d :: data =>
      let extbits := t_bits (io_type (x_ext X)) in
      let total_delta := wrap stypebits (carry + delta) in
      let trunc_delta := wrap extbits total_delta in
      let carry := if extbits <? stypebits then total_delta ≫ extbits else 0 in
      '(d, c) ← external_advance (x_ext X) d (i + 1) trunc_delta isForwards;
      data ← advance_table_by_from (i + 1) (wrap stypebits (carry + Z.b2z c)) delta isForwards data;
      Some (d :: data)
  end.
Definition advance_table_by (delta : Z) (isForwards : bool) (r : extended) : option extended :=
  data ← advance_table_by_from 0 0 delta isForwards (data_ r);
  Some (Extended (x_engine r) data).

(** [get_extended_value]: the index of the value, after the ticks. *)
Definition get_extended_value (r : extended) : option (nat * extended) :=
  let state := state_ (x_engine r) in
  let state := if x_kdd X && is_mcg (t_stream T) then state ≫ 2 else state in
  let index := if x_kdd X then state &&& table_mask else state ≫ table_shift in
  let tick := if x_kdd X then (state &&& tick_mask) =? 0 else (state ≫ tick_shift) =? 0 in
  r ← (if may_tick && tick then advance_table r else Some r);
  r ← (if may_tock && (state =? 0) then advance_table r else Some r);
  Some (Z.to_nat index, r).

Definition ext_draw (r : extended) : option (Z * extended) :=
  '(index, r) ← get_extended_value r;
  rhs ← data_ r !! index;
  let '(lhs, e) := draw T (x_engine r) in
  Some (lhs ^^^ rhs, Extended e (data_ r)).

(** [set]: the table entry is chosen so that the draw is [wanted]. *)
Definition ext_set (wanted : Z) (r : extended) : option extended :=
  '(index, r) ← get_extended_value r;
  _ ← data_ r !! index;
  let '(lhs, e) := draw T (x_engine r) in
  Some (Extended e (<[index := lhs ^^^ wanted]> (data_ r))).

Fixpoint base_draws (k : nat) (e : engine) : list Z * engine :=
  match k with
  | O => ([], e)
  | S k => let '(x, e) := draw T e in let '(xs, e) := base_draws k e in (x :: xs, e)
  end.
Definition selfinit (e : engine) : extended :=
  let '(lhs, e) := draw T e in
  let '(rhs, e) := draw T e in
  let xdiff := wrap rtypebits (lhs - rhs) in
  let '(xs, e) := base_draws table_size e in
  Extended e ((λ x, x ^^^ xdiff) <$> xs).
Definition datainit (e : engine) (data : list Z) : extended := Extended e (take table_size data).

Definition ext_from_seq {G} `{SeedSeq G} (g : G) : option (extended * G) :=
  '(e, g) ← engine_from_seq T g;
  '(data, g) ← generate_to (Z.to_nat (rtypebits / 8)) table_size g;
  Some (Extended e data, g).

(** Only for [kdd] generators. *)
Definition ext_advance (distance : Z) (forwards : bool) (r : extended) : option extended :=
  let e := x_engine r in
  let zero := if is_mcg (t_stream T) then state_ e &&& 3 else 0 in
  r ← (if may_tick then
         let ticks := distance ≫ x_advance_pow2 X in
         let adv_mask := if is_mcg (t_stream T) then wrap stypebits (tick_mask ≪ 2) else tick_mask in
         next_advance_distance ← engine_distance T e zero adv_mask;
         let next_advance_distance :=
           if forwards then next_advance_distance else wrap stypebits (- next_advance_distance) &&& tick_mask in
         let ticks := if next_advance_distance <? (distance &&& tick_mask) then wrap stypebits (ticks + 1) else ticks in
         if negb (ticks =? 0) then advance_table_by ticks forwards r else Some r
       else Some r);
  if forwards then
    r ← (if may_tock then
           d ← engine_distance T e zero (Z.ones stypebits);
           if d <=? distance then advance_table r else Some r
         else Some r);
    Some (Extended (engine_advance T distance (x_engine r)) (data_ r))
  else
    r ← (if may_tock then
           d ← engine_distance T e zero (Z.ones stypebits);
           if wrap stypebits (- d) <=? distance then advance_table_by 1 false r else Some r
         else Some r);
    Some (Extended (engine_advance T (wrap stypebits (- distance)) (x_engine r)) (data_ r)).
Definition ext_backstep (distance : Z) (r : extended) : option extended := ext_advance distance false r.

Definition ext_eqb (lhs rhs : extended) : bool :=
  engine_eqb T (x_engine lhs) (x_engine rhs) && bool_decide (data_ lhs = data_ rhs).

Fixpoint print_data (data : list Z) : option string :=
  match data with
  | [] => Some EmptyString
  | d :: data => s ← print_int rtypebits d; rest ← print_data data; Some (" " +:+ s +:+ rest)
  end.
Definition print_extended (r : extended) : option string :=
  s ← print_engine T (x_engine r);
  d ← print_data (data_ r);
  Some (s +:+ d).

Fixpoint read_data (k : nat) (in_ : string) : option (list Z) * string :=
  match k with
  | O => (Some [], in_)
  | S k =>
      let x := read_int rtypebits in_ 0 in
      if ex_fail x then (None, ex_rest x)
      else let '(xs, rest) := read_data k (ex_rest x) in ((λ xs, ex_value x :: xs) <$> xs, rest)
  end.
(** A fresh generator is filled and assigned only when all of it was read. *)
Definition read_extended (in_ : string) (rng : extended) : extended * bool * string :=
  let new_rng := x_engine (selfinit (engine_new T (default_state T))) in
  let '(e, fail, rest) := read_engine T in_ new_rng in
  if fail then (rng, true, rest)
  else
    match read_data table_size rest with
    | (Some data, rest) => (Extended e data, false, rest)
    | (None, rest) => (rng, true, rest)
    end.
End extended_ops.

(** ** Arithmetic modulo 2^n *)

(** Congruence, with the instances that let the inner wraps be rewritten. *)
Inductive cong (n x y : Z) : Prop := Cong (E : wrap n x = wrap n y).
#[local] Instance cong_equiv n : Equivalence (cong n).
Proof. split; [constructor; done|by intros x y []|intros x y z [] []; constructor; congruence]. Qed.
#[local] Instance add_cong n : Proper (cong n ==> cong n ==> cong n) Z.add.
Proof. intros x x' [Ex] y y' [Ey]. constructor. unfold wrap in *. rewrite Zplus_mod, Ex, Ey, <- Zplus_mod. done. Qed.
#[local] Instance mul_cong n : Proper (cong n ==> cong n ==> cong n) Z.mul.
Proof. intros x x' [Ex] y y' [Ey]. constructor. unfold wrap in *. rewrite Zmult_mod, Ex, Ey, <- Zmult_mod. done. Qed.
Lemma wrap_cong n x : cong n (wrap n x) x.
Proof. constructor. apply Zmod_mod. Qed.

(** Remove the inner wraps, then compare as polynomials. *)
Ltac wrap_ring := lazymatch goal with |- wrap ?n ?a = wrap ?n ?b => cut (cong n a b); [by intros []|] end;
  repeat rewrite wrap_cong; match goal with |- cong _ ?a ?b => replace a with b by ring end; reflexivity.

Section iterates.
Variable n : Z.

Lemma lcg_lcg m c x : lcg n (wrap n (m * m)) (wrap n (wrap n (m + 1) * c)) x = lcg n m c (lcg n m c x).
Proof. unfold lcg. wrap_ring. Qed.

(** [k] steps. *)
Definition lcg_steps (m c : Z) (k : nat) (x : Z) : Z := Nat.iter k (lcg n m c) x.

Lemma lcg_steps_1 m c x : lcg_steps m c 1 x = lcg n m c x.
Proof. done. Qed.
Lemma lcg_steps_add m c j k x : lcg_steps m c (j + k) x = lcg_steps m c j (lcg_steps m c k x).
Proof. apply Nat.iter_add. Qed.

Lemma lcg_steps_double m c k x :
  lcg_steps (wrap n (m * m)) (wrap n (wrap n (m + 1) * c)) k x = lcg_steps m c (2 * k) x.
Proof.
  induction k as [|k IH]; [done|]. replace (2 * S k)%nat with (S (S (2 * k))) by lia.
  unfold lcg_steps in *. rewrite !Nat.iter_succ, IH. apply lcg_lcg.
Qed.

Lemma advance_loop_steps p state cm cp am ap :
  let '(am', ap') := advance_loop n p cm cp am ap in
  wrap n (am' * state + ap') = lcg_steps cm cp (Pos.to_nat p) (wrap n (am * state + ap)).
Proof.
  revert cm cp am ap. induction p as [p IH|p IH|]; intros cm cp am ap; cbn [advance_loop].
  - specialize (IH (wrap n (cm * cm)) (wrap n (wrap n (cm + 1) * cp)) (wrap n (am * cm)) (wrap n (ap * cm + cp))).
    destruct (advance_loop n p _ _ _ _) as [am' ap']. rewrite IH, lcg_steps_double, Pos2Nat.inj_xI.
    replace (S (2 * Pos.to_nat p)) with (2 * Pos.to_nat p + 1)%nat by lia. rewrite lcg_steps_add. f_equal.
    rewrite lcg_steps_1. unfold lcg. wrap_ring.
  - specialize (IH (wrap n (cm * cm)) (wrap n (wrap n (cm + 1) * cp)) am ap).
    destruct (advance_loop n p _ _ _ _) as [am' ap']. by rewrite IH, lcg_steps_double, Pos2Nat.inj_xO.
  - change (Pos.to_nat 1) with 1%nat. rewrite lcg_steps_1. unfold lcg. wrap_ring.
Qed.

Lemma advance_steps state delta m c :
  is_word n state → 0 ≤ delta → advance n state delta m c = lcg_steps m c (Z.to_nat delta) state.
Proof.
  intros Hs Hd. unfold advance. destruct delta as [|p|p]; [|clear Hd|lia].
  - rewrite Z.mul_1_l, Z.add_0_r. by apply wrap_small.
  - pose proof (advance_loop_steps p state m c 1 0) as E. destruct (advance_loop n p m c 1 0) as [am ap].
    rewrite E, Z.mul_1_l, Z.add_0_r, wrap_small by done. done.
Qed.
End iterates.

(** ** Distances *)

Lemma land_pow2 x j : 0 ≤ j → x &&& 2 ^ j = if Z.odd (x / 2 ^ j) then 2 ^ j else 0.
Proof.
  intros Hj. assert (Z.testbit x j = Z.odd (x / 2 ^ j)) as Hb.
  { rewrite Z.testbit_odd, Z.shiftr_div_pow2 by done. done. }
  rewrite <- Hb. apply Z.bits_inj'. intros i Hi. rewrite Z.land_spec, Z.pow2_bits_eqb by done.
  destruct (Z.eqb_spec j i) as [<-|Hne].
  - destruct (Z.testbit x j); [by rewrite Z.pow2_bits_true|by rewrite Z.bits_0].
  - rewrite andb_false_r. destruct (Z.testbit x j); [by rewrite Z.pow2_bits_false|by rewrite Z.bits_0].
Qed.

(** Of two values that agree below bit [j], the bit itself. *)
Lemma same_bit x y j k : 0 ≤ j → x - y = 2 ^ j * k → ((x &&& 2 ^ j) =? (y &&& 2 ^ j)) = Z.even k.
Proof.
  intros Hj E. assert (0 < 2 ^ j) by (apply Z.pow_pos_nonneg; lia). rewrite !land_pow2 by done.
  replace x with (y + k * 2 ^ j) by lia. rewrite Z.div_add, Z.odd_add by lia.
  rewrite <- Z.negb_odd. destruct (Z.odd (y / 2 ^ j)), (Z.odd k); cbn [xorb negb]; try (by rewrite Z.eqb_refl); apply Z.eqb_neq; lia.
Qed.

Lemma same_below x y j K k : 0 ≤ K ≤ j → x - y = 2 ^ j * k → ∃ k, x - y = 2 ^ K * k.
Proof. intros HK ->. exists (2 ^ (j - K) * k). rewrite Z.mul_assoc, <- Z.pow_add_r by lia. do 2 f_equal. lia. Qed.

Lemma same_low x y K : 0 ≤ K → ((x &&& Z.ones K) =? (y &&& Z.ones K)) = true ↔ ∃ k, x - y = 2 ^ K * k.
Proof.
  intros HK. rewrite Z.eqb_eq, !Z.land_ones by done. assert (0 < 2 ^ K) by (apply Z.pow_pos_nonneg; lia). split.
  - intros E. exists (x / 2 ^ K - y / 2 ^ K). pose proof (Z.div_mod x (2 ^ K)). pose proof (Z.div_mod y (2 ^ K)). lia.
  - intros [k E]. replace x with (y + k * 2 ^ K) by lia. by rewrite Z.mod_add by lia.
Qed.

Section distances.
Variable n : Z.
Hypothesis n_pos : 0 < n.
(** [level j m c]: the step [m, c] flips bit [j] and keeps those below it, on
    the states for which [ok]. *)
Variables (level : Z → Z → Z → Prop) (ok : Z → Prop).
Hypothesis level_double : ∀ j m c, 0 ≤ j → level j m c → level (j + 1) (wrap n (m * m)) (wrap n (wrap n (m + 1) * c)).
Hypothesis level_flip : ∀ j m c x, 0 ≤ j < n → level j m c → ok x → ok (lcg n m c x) ∧ ∃ k, lcg n m c x = x + 2 ^ j + 2 ^ (j + 1) * k.

(** A mask that decides, for values that agree below bit [b], whether they
    agree below bit [K]. *)
Definition mask_for (b K mask y : Z) : Prop :=
  ∀ x k, x - y = 2 ^ b * k → ((x &&& mask) =? (y &&& mask)) = ((x &&& Z.ones K) =? (y &&& Z.ones K)).

Lemma distance_loop_spec b mask K fuel j bit x y m c d :
  0 ≤ b ≤ j → mask_for b K mask y → K ≤ n → 0 ≤ K → level j m c → ok x → K ≤ j + Z.of_nat fuel → (j < K → bit = 2 ^ j) →
  (∃ k, x - y = 2 ^ j * k) → 0 ≤ d < 2 ^ j →
  ∃ e, distance_loop n fuel mask bit x y m c d = Some (d + 2 ^ j * Z.of_nat e) ∧
    (∃ k, lcg_steps n m c e x - y = 2 ^ K * k) ∧ (e = 0%nat ∨ d + 2 ^ j * Z.of_nat e < 2 ^ K).
Proof.
  intros Hbj Hmask HKn HK. revert j bit x m c d Hbj. induction fuel as [|fuel IH]; intros j bit x m c d Hbj Hlv Hok Hfuel Hbit [k Ek] Hd;
    assert (0 ≤ j) as Hj by lia; destruct (same_below x y j b k) as [kb Ekb]; [lia|done| |lia|done|];
    cbn [distance_loop]; rewrite (Hmask x kb Ekb); destruct ((x &&& Z.ones K) =? (y &&& Z.ones K)) eqn:Em.
  - exists 0%nat. apply same_low in Em; [|done]. split_and!; [f_equal; lia|done|by left].
  - exfalso. rewrite <- not_true_iff_false, same_low in Em by done. apply Em, (same_below x y j K k); (done || lia).
  - exists 0%nat. apply same_low in Em; [|done]. split_and!; [f_equal; lia|done|by left].
  - assert (j < K) as HjK.
    { destruct (Z.lt_ge_cases j K); [done|]. exfalso. rewrite <- not_true_iff_false, same_low in Em by done. apply Em, (same_below x y j K k); (done || lia). }
    rewrite (Hbit HjK). rewrite (same_bit x y j k) by done. assert (0 < 2 ^ j) by (apply Z.pow_pos_nonneg; lia).
    assert (2 ^ (j + 1) = 2 * 2 ^ j) as P1 by (rewrite Z.pow_add_r by lia; lia).
    assert (j + 1 < K → wrap n (2 ^ j ≪ 1) = 2 ^ (j + 1)) as Hbit'.
    { intros. rewrite Z.shiftl_mul_pow2, <- Z.pow_add_r by lia. apply wrap_small. split; [lia|apply Z.pow_lt_mono_r; lia]. }
    destruct (Z.even k) eqn:Ev; cbn [negb].
    + rewrite (same_bit x y j k), Ev by done. cbn [negb]. apply Z.even_spec in Ev as [k' ->].
      destruct (IH (j + 1) (wrap n (2 ^ j ≪ 1)) x (wrap n (m * m)) (wrap n (wrap n (m + 1) * c)) d) as (e & -> & Hs & Hb);
        [lia|by apply level_double|done|lia|done|exists k'; rewrite P1; lia|lia|].
      exists (2 * e)%nat. rewrite <- lcg_steps_double, P1 in *. split_and!; [f_equal; lia|done|lia].
    + destruct (level_flip j m c x) as (Hok' & k' & Ex); [lia|done..|]. set (x' := lcg n m c x) in *. change (wrap n (x * m + c)) with x'.
      assert (∃ k2, k = 2 * k2 + 1) as [k2 ->] by (apply Z.odd_spec; by rewrite <- Z.negb_even, Ev).
      assert (x' - y = 2 ^ (j + 1) * (k' + k2 + 1)) as Ex' by (rewrite Ex, P1; lia).
      rewrite (same_bit x' y j (2 * (k' + k2 + 1))) by (done || lia). rewrite Z.even_mul. cbn [Z.even orb negb].
      assert (d ||| 2 ^ j = d + 2 ^ j) as ->.
      { pose proof (lor_shiftl_add d 1 j) as E. rewrite Z.shiftl_1_l, Z.mul_1_l in E. by apply E. }
      destruct (IH (j + 1) (wrap n (2 ^ j ≪ 1)) x' (wrap n (m * m)) (wrap n (wrap n (m + 1) * c)) (d + 2 ^ j)) as (e & -> & Hs & Hb);
        [lia|by apply level_double|done|lia|done|by eexists|lia|].
      exists (2 * e + 1)%nat. rewrite lcg_steps_add, lcg_steps_1, <- lcg_steps_double, P1 in *.
      split_and!; [f_equal; lia|done|]. right. destruct Hb as [->|]; [|lia].
      assert (2 ^ (j + 1) ≤ 2 ^ K) by (apply Z.pow_le_mono_r; lia). lia.
Qed.

(** ** Periods *)

Hypothesis level_id : ∀ m c x, level n m c → ok x → is_word n x → lcg n m c x = x.

Lemma level_steps j m c e x :
  0 ≤ j < n → level j m c → ok x →
  ok (lcg_steps n m c e x) ∧ ∃ k, lcg_steps n m c e x = x + 2 ^ j * Z.of_nat e + 2 ^ (j + 1) * k.
Proof.
  intros Hj Hl Hx. induction e as [|e [IHo [k IHk]]]; [split; [done|exists 0; cbn; lia]|]. unfold lcg_steps in *. rewrite Nat.iter_succ.
  destruct (level_flip j m c _ Hj Hl IHo) as (Ho & k' & E). split; [done|]. exists (k + k'). rewrite E, IHk. lia.
Qed.

(** Steps by a power of two are the steps of a higher level. *)
Lemma level_power b m c (i : nat) :
  0 ≤ b → level b m c →
  ∃ m' c', level (b + Z.of_nat i) m' c' ∧ ∀ e x, lcg_steps n m c (2 ^ i * e) x = lcg_steps n m' c' e x.
Proof.
  intros Hb Hl. induction i as [|i (m' & c' & Hl' & E)].
  - exists m, c. rewrite Z.add_0_r. split; [done|]. intros. by rewrite Nat.mul_1_l.
  - exists (wrap n (m' * m')), (wrap n (wrap n (m' + 1) * c')). split.
    + replace (b + Z.of_nat (S i)) with (b + Z.of_nat i + 1) by lia. apply level_double; [lia|done].
    + intros e x. rewrite lcg_steps_double, <- E. f_equal. cbn [Nat.pow]. lia.
Qed.

Lemma no_return b m c k x :
  0 ≤ b → level b m c → ok x → 0 < Z.of_nat k < 2 ^ (n - b) → b ≤ n → lcg_steps n m c k x ≠ x.
Proof.
  intros Hb Hl Hx Hk Hbn.
  assert (∃ i q : nat, k = (2 ^ i * (1 + 2 * q))%nat ∧ b + Z.of_nat i < n) as (i & q & -> & Hi).
  { assert (∃ i q : nat, k = (2 ^ i * (1 + 2 * q))%nat) as (i & q & Ek).
    { assert (0 < k)%nat as Hpos by lia. clear Hk. induction k as [k IH] using lt_wf_ind. destruct (Nat.Even_or_Odd k) as [[h Eh]|[h Eh]].
      - destruct (IH h) as (i & q & E); [lia|lia|]. exists (S i), q. cbn [Nat.pow]. lia.
      - exists 0%nat, h. cbn [Nat.pow]. lia. }
    exists i, q. split; [done|]. destruct (Z.lt_ge_cases (b + Z.of_nat i) n) as [|Hge]; [done|]. exfalso.
    assert (2 ^ (n - b) ≤ 2 ^ Z.of_nat i) by (apply Z.pow_le_mono_r; lia).
    rewrite Ek, Nat2Z.inj_mul, Nat2Z.inj_pow in Hk. change (Z.of_nat 2) with 2 in Hk. nia. }
  destruct (level_power b m c i Hb Hl) as (m' & c' & Hl' & E). rewrite E.
  destruct (level_steps (b + Z.of_nat i) m' c' (1 + 2 * q) x) as (_ & k' & ->); [lia|done..|].
  rewrite (Z.pow_add_r 2 (b + Z.of_nat i) 1) by lia. assert (0 < 2 ^ (b + Z.of_nat i)) by (apply Z.pow_pos_nonneg; lia).
  change (2 ^ 1) with 2. set (P := 2 ^ (b + Z.of_nat i)) in *. replace (Z.of_nat (1 + 2 * q)) with (1 + 2 * Z.of_nat q) by lia. intros Hret.
  assert (P * (1 + 2 * (Z.of_nat q + k')) = 0) as [?|?]%Z.mul_eq_0; [|lia|lia].
  transitivity (x + P * (1 + 2 * Z.of_nat q) + P * 2 * k' - x); [ring|rewrite Hret; lia].
Qed.

Lemma full_turn b m c x :
  0 ≤ b ≤ n → level b m c → ok x → is_word n x → lcg_steps n m c (Z.to_nat (2 ^ (n - b))) x = x.
Proof.
  intros Hb Hl Hx Hw. destruct (level_power b m c (Z.to_nat (n - b)) ltac:(lia) Hl) as (m' & c' & Hl' & E).
  replace (Z.to_nat (2 ^ (n - b))) with (2 ^ Z.to_nat (n - b) * 1)%nat.
  - rewrite E, lcg_steps_1. apply level_id; [|done..]. by replace (b + Z.of_nat (Z.to_nat (n - b))) with n in Hl' by lia.
  - apply Nat2Z.inj. rewrite Nat.mul_1_r, Nat2Z.inj_pow, !Z2Nat.id by (try apply Z.pow_nonneg; lia). done.
Qed.
End distances.

(** The increment odd and the multiplier 1 modulo 4. *)
Definition lcg_level (n j m c : Z) : Prop := ∃ a b, cong n m (1 + 2 ^ (j + 2) * a) ∧ cong n c (2 ^ j * (2 * b + 1)).
(** No increment, the multiplier 5 modulo 8; the states are odd. *)
Definition mcg_level (n j m c : Z) : Prop := 2 ≤ j ∧ cong n c 0 ∧ ∃ a, cong n m (1 + 2 ^ j * (2 * a + 1)).

Lemma cong_flip n j x z k :
  0 ≤ j < n → cong n z (x + 2 ^ j + 2 ^ (j + 1) * k) → ∃ k', wrap n z = x + 2 ^ j + 2 ^ (j + 1) * k'.
Proof.
  intros Hj [E]. rewrite E. destruct (wrap_eq n ltac:(lia) (x + 2 ^ j + 2 ^ (j + 1) * k)) as (q & -> & _).
  exists (k - 2 ^ (n - j - 1) * q). rewrite Z.mul_sub_distr_l, Z.mul_assoc, <- Z.pow_add_r by lia.
  replace (j + 1 + (n - j - 1)) with n by lia. lia.
Qed.

Lemma lcg_level_double n j m c :
  0 ≤ j → lcg_level n j m c → lcg_level n (j + 1) (wrap n (m * m)) (wrap n (wrap n (m + 1) * c)).
Proof.
  intros Hj (a & b & Em & Ec). exists (a + 2 * 2 ^ j * (a * a)), (b + 2 ^ j * a * (2 * b + 1)). rewrite !wrap_cong, Em, Ec.
  replace (j + 1 + 2) with (j + 3) by lia. rewrite !(Z.pow_add_r 2 j) by lia. change (2 ^ 2) with 4. change (2 ^ 3) with 8. change (2 ^ 1) with 2.
  split; match goal with |- cong _ ?a ?b => replace a with b by ring end; reflexivity.
Qed.
Lemma lcg_level_flip n j m c x :
  0 ≤ j < n → lcg_level n j m c → True → True ∧ ∃ k, lcg n m c x = x + 2 ^ j + 2 ^ (j + 1) * k.
Proof.
  intros Hj (a & b & Em & Ec) _. split; [done|]. apply cong_flip with (b + 2 * a * x); [done|]. rewrite Em, Ec.
  rewrite !(Z.pow_add_r 2 j) by lia. change (2 ^ 2) with 4. change (2 ^ 1) with 2.
  match goal with |- cong _ ?a ?b => replace a with b by ring end; reflexivity.
Qed.
Lemma lcg_level_id n m c x : 0 < n → lcg_level n n m c → True → is_word n x → lcg n m c x = x.
Proof.
  intros Hn (a & b & Em & Ec) _ Hx. unfold lcg. transitivity (wrap n x); [|by apply wrap_small].
  assert (cong n (x * m + c) x) as [E]; [|done]. rewrite Em, Ec, Z.pow_add_r by lia. change (2 ^ 2) with 4. constructor. unfold wrap.
  replace (x * (1 + 2 ^ n * 4 * a) + 2 ^ n * (2 * b + 1)) with (x + (x * 4 * a + (2 * b + 1)) * 2 ^ n) by ring.
  apply Z.mod_add. pose proof (Z.pow_pos_nonneg 2 n). lia.
Qed.

Definition odd_state (x : Z) : Prop := ∃ h, x = 2 * h + 1.

Lemma mcg_level_double n j m c :
  0 ≤ j → mcg_level n j m c → mcg_level n (j + 1) (wrap n (m * m)) (wrap n (wrap n (m + 1) * c)).
Proof.
  intros _ (Hj & Ec & a & Em). split; [lia|]. split; [rewrite !wrap_cong, Ec, Z.mul_0_r; reflexivity|].
  exists (a + 2 ^ (j - 2) * (2 * a + 1) * (2 * a + 1)). rewrite wrap_cong, Em.
  replace (2 ^ (j + 1)) with (2 ^ (j - 2) * 8) by (change 8 with (2 ^ 3); rewrite <- Z.pow_add_r by lia; f_equal; lia).
  replace (2 ^ j) with (2 ^ (j - 2) * 4) by (change 4 with (2 ^ 2); rewrite <- Z.pow_add_r by lia; f_equal; lia).
  match goal with |- cong _ ?a ?b => replace a with b by ring end; reflexivity.
Qed.
Lemma mcg_level_flip n j m c x :
  0 ≤ j < n → mcg_level n j m c → odd_state x → odd_state (lcg n m c x) ∧ ∃ k, lcg n m c x = x + 2 ^ j + 2 ^ (j + 1) * k.
Proof.
  intros Hj (Hj2 & Ec & a & Em) [h ->].
  assert (∃ k, lcg n m c (2 * h + 1) = 2 * h + 1 + 2 ^ j + 2 ^ (j + 1) * k) as [k E].
  { apply cong_flip with (a + h * (2 * a + 1)); [done|]. rewrite Em, Ec, (Z.pow_add_r 2 j) by lia. change (2 ^ 1) with 2.
    match goal with |- cong _ ?a ?b => replace a with b by ring end; reflexivity. }
  split; [|by exists k]. exists (h + 2 ^ (j - 1) + 2 ^ j * k). rewrite E, (Z.pow_add_r 2 j) by lia. change (2 ^ 1) with 2.
  replace (2 ^ j) with (2 * 2 ^ (j - 1)) by (rewrite <- Z.pow_succ_r by lia; f_equal; lia). ring.
Qed.
Lemma mcg_level_id n m c x : 0 < n → mcg_level n n m c → odd_state x → is_word n x → lcg n m c x = x.
Proof.
  intros Hn (_ & Ec & a & Em) _ Hx. unfold lcg. transitivity (wrap n x); [|by apply wrap_small].
  assert (cong n (x * m + c) x) as [E]; [|done]. rewrite Em, Ec. constructor. unfold wrap.
  replace (x * (1 + 2 ^ n * (2 * a + 1)) + 0) with (x + x * (2 * a + 1) * 2 ^ n) by ring.
  apply Z.mod_add. pose proof (Z.pow_pos_nonneg 2 n). lia.
Qed.

Lemma lcg_base n m c : m mod 4 = 1 → Z.odd c = true → lcg_level n 0 m c.
Proof.
  intros Hm [b ->]%Z.odd_spec. exists (m / 4), b. change (2 ^ (0 + 2)) with 4. change (2 ^ 0) with 1.
  pose proof (Z.div_mod m 4 ltac:(lia)).
  split; constructor; f_equal; lia.
Qed.
Lemma mcg_base_level n m : m mod 8 = 5 → mcg_level n 2 m 0.
Proof.
  intros Hm. split; [lia|]. split; [reflexivity|]. exists (m / 8). change (2 ^ 2) with 4. pose proof (Z.div_mod m 8 ltac:(lia)).
  constructor; f_equal; lia.
Qed.

Lemma word_same_all n x y : 0 ≤ n → is_word n x → is_word n y → (∃ k, x - y = 2 ^ n * k) → x = y.
Proof. intros Hn [] [] [k E]. assert (k = 0) by nia. nia. Qed.

Lemma lcg_word n m c x : 0 ≤ n → is_word n (lcg n m c x).
Proof. intros. apply Z.mod_pos_bound, Z.pow_pos_nonneg; lia. Qed.
Lemma lcg_steps_word n m c k x : 0 ≤ n → is_word n x → is_word n (lcg_steps n m c k x).
Proof. intros Hn Hx. destruct k as [|k]; [done|]. unfold lcg_steps. rewrite Nat.iter_succ. by apply lcg_word. Qed.

(** The distance of an LCG, with the mask of the [K] lowest bits. *)
Lemma lcg_distance n m c K x y :
  0 < n → m mod 4 = 1 → Z.odd c = true → 0 ≤ K ≤ n →
  ∃ e, distance n x y m c (Z.ones K) = Some (Z.of_nat e) ∧ Z.of_nat e < 2 ^ K ∧ ∃ k, lcg_steps n m c e x - y = 2 ^ K * k.
Proof.
  intros Hn Hm Hc HK. unfold distance. destruct (Z.eqb_spec c 0) as [->|_]; [done|].
  destruct (distance_loop_spec n Hn (lcg_level n) (λ _, True)) with (b := 0) (mask := Z.ones K) (K := K) (fuel := Z.to_nat n) (j := 0) (bit := 1) (x := x) (y := y)
    (m := m) (c := c) (d := 0) as (e & -> & Hs & Hb); try done; try lia.
  - intros. by apply lcg_level_double.
  - intros. by apply lcg_level_flip.
  - by apply lcg_base.
  - exists (x - y). lia.
  - exists e. cbn [mbind option_bind]. split_and!; [f_equal; lia| |done].
    destruct Hb as [->|]; [|lia]. apply Z.pow_pos_nonneg; lia.
Qed.

(** Values that agree on their two low bits agree below [K] when the bits from
    there to [K] are the same. *)
Lemma mask_shifted_for K y : 2 ≤ K → mask_for 2 K (Z.ones (K - 2) ≪ 2) y.
Proof.
  intros HK x k E. apply eq_true_iff_eq. rewrite same_low, Z.eqb_eq by lia. split.
  - intros Em. apply same_low; [lia|]. apply Z.eqb_eq, Z.bits_inj'. intros i Hi. rewrite !Z.land_spec, ones_testbit by lia.
    destruct (Z.lt_ge_cases i 2) as [Hlt|Hge].
    + f_equal. assert ((x &&& Z.ones 2) = (y &&& Z.ones 2)) as E2 by (apply Z.eqb_eq, same_low; [lia|by exists k]).
      apply (f_equal (λ z, Z.testbit z i)) in E2. rewrite !Z.land_spec, ones_testbit, (proj2 (Z.ltb_lt i 2)), !andb_true_r in E2 by lia. done.
    + apply (f_equal (λ z, Z.testbit z i)) in Em. rewrite !Z.land_spec, Z.shiftl_spec, ones_testbit in Em by lia.
      by replace (i - 2 <? K - 2) with (i <? K) in Em by (destruct (Z.ltb_spec i K), (Z.ltb_spec (i - 2) (K - 2)); lia).
  - intros [k' E']. apply Z.bits_inj'. intros i Hi. rewrite !Z.land_spec, Z.shiftl_spec by lia.
    destruct (Z.lt_ge_cases i 2); [by rewrite (Z.testbit_neg_r _ (i - 2)), !andb_false_r by lia|]. rewrite ones_testbit by lia.
    assert ((x &&& Z.ones K) = (y &&& Z.ones K)) as EK by (apply Z.eqb_eq, same_low; [lia|by exists k']).
    apply (f_equal (λ z, Z.testbit z i)) in EK. rewrite !Z.land_spec, ones_testbit in EK by lia.
    by replace (i - 2 <? K - 2) with (i <? K) by (destruct (Z.ltb_spec i K), (Z.ltb_spec (i - 2) (K - 2)); lia).
Qed.

Lemma mcg_distance n m mask K x y :
  2 ≤ K ≤ n → mask_for 2 K mask y → m mod 8 = 5 → odd_state x → (∃ k, x - y = 4 * k) →
  ∃ e, distance n x y m 0 mask = Some (Z.of_nat e) ∧ Z.of_nat e < 2 ^ (K - 2) ∧ ∃ k, lcg_steps n m 0 e x - y = 2 ^ K * k.
Proof.
  intros HK Hmask Hm Hx Hxy. unfold distance. cbn [Z.eqb].
  destruct (distance_loop_spec n ltac:(lia) (mcg_level n) odd_state) with (b := 2) (mask := mask) (K := K) (fuel := Z.to_nat n) (j := 2)
    (bit := 4) (x := x) (y := y) (m := m) (c := 0) (d := 0) as (e & -> & Hs & Hb); try done; try lia.
  - intros. by apply mcg_level_double.
  - intros. by apply mcg_level_flip.
  - by apply mcg_base_level.
  - exists e. cbn [mbind option_bind]. change (2 ^ 2) with 4. split_and!; [|  |done].
    + f_equal. rewrite Z.shiftr_div_pow2 by lia. change (2 ^ 2) with 4. rewrite Z.add_0_l, Z.mul_comm, Z.div_mul by lia. done.
    + assert (2 ^ K = 4 * 2 ^ (K - 2)) as E by (change 4 with (2 ^ 2); rewrite <- Z.pow_add_r by lia; f_equal; lia).
      assert (0 < 2 ^ (K - 2)) by (apply Z.pow_pos_nonneg; lia). destruct Hb as [->|]; lia.
Qed.

(** ** Engines *)

Definition type_ok (T : engine_type) : Prop := 3 ≤ t_bits T ∧ t_multiplier T mod 8 = 5 ∧
  match t_stream T with oneseq_stream => Z.odd (default_increment (t_bits T)) = true | _ => True end.
(** Well-formed: an odd increment, or the two low bits of a state that never
    change set. *)
Definition engine_ok (T : engine_type) (e : engine) : Prop :=
  is_word (t_bits T) (state_ e) ∧
  match t_stream T with
  | no_stream => state_ e mod 4 = 3
  | specific_stream => Z.odd (inc_ e) = true
  | _ => True
  end.

Lemma state_upd e s : state_ (e <| state_ := s |>) = s.
Proof. done. Qed.

Section engine_laws.
Variable T : engine_type.
Hypothesis T_ok : type_ok T.
Notation n := (t_bits T).
Notation m := (t_multiplier T).

Lemma n_pos : 0 < n.
Proof. destruct T_ok. lia. Qed.
Lemma mult_mod4 : m mod 4 = 1.
Proof. destruct T_ok as (_ & E & _). pose proof (Z.div_mod m 8 ltac:(lia)). symmetry; apply (Z.mod_unique_pos m 4 (2 * (m / 8) + 1)); lia. Qed.

Lemma odd_lor_1 x : Z.odd (x ||| 1) = true.
Proof. rewrite <- Z.bit0_odd, Z.lor_spec. by rewrite orb_true_r. Qed.
Lemma odd_wrap k x : 0 < k → Z.odd (wrap k x) = Z.odd x.
Proof. intros Hk. rewrite <- !Z.bit0_odd. unfold wrap. rewrite Z.mod_pow2_bits_low by lia. done. Qed.

Lemma increment_odd e : engine_ok T e → is_mcg (t_stream T) = false → Z.odd (increment T e) = true.
Proof.
  intros [_ He] Hm. unfold increment. destruct T_ok as (_ & _ & Hd). destruct (t_stream T); try done.
  rewrite odd_wrap by apply n_pos. apply odd_lor_1.
Qed.
Lemma increment_mcg e : is_mcg (t_stream T) = true → increment T e = 0.
Proof. intros Hm. unfold increment. by destruct (t_stream T). Qed.
Lemma mcg_odd e : engine_ok T e → is_mcg (t_stream T) = true → state_ e mod 4 = 3 ∧ odd_state (state_ e).
Proof.
  intros [_ He] Hm. destruct (t_stream T); try done. split; [done|]. pose proof (Z.div_mod (state_ e) 4 ltac:(lia)).
  exists (2 * (state_ e / 4) + 1). lia.
Qed.

(** Steps of a well-formed engine stay well-formed. *)
Lemma steps_ok e k :
  engine_ok T e → engine_ok T (e <| state_ := lcg_steps n m (increment T e) k (state_ e) |>).
Proof.
  intros He. pose proof n_pos as Hn. split; [apply lcg_steps_word; [lia|apply He]|].
  destruct (is_mcg (t_stream T)) eqn:Em; [|destruct He as [_ He]; by destruct (t_stream T)].
  destruct (mcg_odd e He Em) as [H3 Ho]. rewrite increment_mcg by done. rewrite state_upd.
  destruct (t_stream T); try done. destruct T_ok as (Hn3 & H5 & _).
  destruct (level_steps n (mcg_level n) odd_state) with (j := 2) (m := m) (c := 0) (e := k) (x := state_ e) as (_ & q & ->); try done.
  - intros. by apply mcg_level_flip.
  - lia.
  - by apply mcg_base_level.
  - change (2 ^ 2) with 4. change (2 ^ (2 + 1)) with 8.
    replace (state_ e + 4 * Z.of_nat k + 8 * q) with (state_ e + (Z.of_nat k + 2 * q) * 4) by ring. by rewrite Z.mod_add by lia.
Qed.

Lemma draw_step e : snd (draw T e) = e <| state_ := bump T e (state_ e) |>.
Proof. unfold draw, base_generate, base_generate0. by destruct (t_previous T). Qed.

Lemma iter_draw k e : Nat.iter k (λ e, snd (draw T e)) e = e <| state_ := lcg_steps n m (increment T e) k (state_ e) |>.
Proof.
  induction k as [|k IH]; [by destruct e|]. rewrite Nat.iter_succ, IH, draw_step. unfold lcg_steps. rewrite Nat.iter_succ.
  unfold bump, increment. by destruct (t_stream T).
Qed.

Lemma engine_advance_draws delta e :
  engine_ok T e → 0 ≤ delta → engine_advance T delta e = Nat.iter (Z.to_nat delta) (λ e, snd (draw T e)) e.
Proof. intros [He _] Hd. rewrite iter_draw. unfold engine_advance. by rewrite advance_steps by done. Qed.

(** The level at which an engine starts, and how far its states go. *)
Lemma engine_turn e k :
  engine_ok T e →
  lcg_steps n m (increment T e) (Z.to_nat (2 ^ period_pow2 T)) (state_ e) = state_ e ∧
  (0 < Z.of_nat k < 2 ^ period_pow2 T → lcg_steps n m (increment T e) k (state_ e) ≠ state_ e).
Proof.
  intros He. pose proof n_pos as Hn. pose proof He as [Hw _]. unfold period_pow2. destruct (is_mcg (t_stream T)) eqn:Em.
  - destruct (mcg_odd e He Em) as [_ Ho]. rewrite increment_mcg by done. destruct T_ok as (Hn3 & H5 & _).
    pose proof (mcg_base_level n m H5) as Hb. cbn [Z.b2z]. rewrite Z.mul_1_r. split.
    + apply (full_turn n (mcg_level n) odd_state (mcg_level_double n) (λ m c x, mcg_level_id n m c x Hn) 2); (done || lia).
    + intros Hk. apply (no_return n (mcg_level n) odd_state (mcg_level_double n) (mcg_level_flip n) 2); (done || lia).
  - pose proof (lcg_base n m _ mult_mod4 (increment_odd e He Em)) as Hb. cbn [Z.b2z]. rewrite Z.mul_0_r. split.
    + apply (full_turn n (lcg_level n) (λ _, True) (lcg_level_double n) (λ m c x, lcg_level_id n m c x Hn) 0); (done || lia).
    + intros Hk. apply (no_return n (lcg_level n) (λ _, True) (lcg_level_double n) (lcg_level_flip n) 0); (done || lia).
Qed.

(** A multiple of the period is no step at all. *)
Lemma turns_id e q : engine_ok T e → lcg_steps n m (increment T e) (q * Z.to_nat (2 ^ period_pow2 T)) (state_ e) = state_ e.
Proof.
  intros He. induction q as [|q IH]; [done|]. cbn [Nat.mul]. rewrite lcg_steps_add, IH. by apply (engine_turn e 0).
Qed.

Lemma full_steps_id e : engine_ok T e → lcg_steps n m (increment T e) (Z.to_nat (2 ^ n)) (state_ e) = state_ e.
Proof.
  intros He. pose proof n_pos as Hn. destruct T_ok as (Hn3 & _).
  assert (∃ q, Z.to_nat (2 ^ n) = (q * Z.to_nat (2 ^ period_pow2 T))%nat) as [q ->]; [|by apply turns_id].
  unfold period_pow2. destruct (is_mcg (t_stream T)); cbn [Z.b2z].
  - exists 4%nat. rewrite Z.mul_1_r. replace (2 ^ n) with (4 * 2 ^ (n - 2)); [rewrite Z2Nat.inj_mul by lia; done|].
    change 4 with (2 ^ 2). rewrite <- Z.pow_add_r by lia. f_equal. lia.
  - exists 1%nat. rewrite Z.mul_0_r, Z.sub_0_r. lia.
Qed.

Lemma backstep_advance delta e : engine_ok T e → is_word n delta → backstep T delta (engine_advance T delta e) = e.
Proof.
  intros He [Hd Hlt]. unfold backstep. pose proof n_pos as Hn.
  assert (engine_ok T (engine_advance T delta e)) as He'.
  { rewrite engine_advance_draws by done. rewrite iter_draw. by apply steps_ok. }
  pose proof (Z.mod_pos_bound (- delta) (2 ^ n) ltac:(lia)) as Hb. fold (wrap n (- delta)) in Hb.
  rewrite (engine_advance_draws (wrap n (- delta))), engine_advance_draws by (done || lia). rewrite <- Nat.iter_add, iter_draw.
  rewrite <- Z2Nat.inj_add by lia. destruct (decide (delta = 0)) as [->|Hne].
  - unfold wrap. rewrite Z.opp_0, Z.mod_0_l by lia. by destruct e.
  - replace (wrap n (- delta) + delta) with (2 ^ n).
    + rewrite full_steps_id by done. by destruct e.
    + unfold wrap. replace ((- delta) mod 2 ^ n) with (2 ^ n - delta); [lia|]. apply Z.mod_unique_pos with (-1); lia.
Qed.

Lemma steps_inj e j k :
  engine_ok T e → Z.of_nat j < 2 ^ period_pow2 T → Z.of_nat k < 2 ^ period_pow2 T → (j ≤ k)%nat →
  lcg_steps n m (increment T e) j (state_ e) = lcg_steps n m (increment T e) k (state_ e) → j = k.
Proof.
  intros He Hj Hk Hjk E. destruct (decide (j = k)) as [|Hne]; [done|]. exfalso.
  pose proof (steps_ok e j He) as He'. destruct (engine_turn _ (k - j) He') as [_ Hno]. apply Hno; [lia|].
  rewrite state_upd. replace (increment T (e <| state_ := _ |>)) with (increment T e) by (unfold increment; by destruct (t_stream T)).
  rewrite <- lcg_steps_add. by replace (k - j + j)%nat with k by lia.
Qed.

Lemma minus_same_stream lhs rhs :
  engine_ok T lhs → engine_ok T rhs → increment T lhs = increment T rhs →
  ∃ e, engine_minus T lhs rhs = Some (Z.of_nat e) ∧ Z.of_nat e < 2 ^ period_pow2 T ∧
    lcg_steps n m (increment T rhs) e (state_ rhs) = state_ lhs.
Proof.
  intros Hl Hr Hi. pose proof n_pos as Hn. unfold engine_minus, engine_distance, period_pow2. rewrite Hi, Z.eqb_refl.
  assert (∀ e, (∃ k, lcg_steps n m (increment T rhs) e (state_ rhs) - state_ lhs = 2 ^ n * k) →
    lcg_steps n m (increment T rhs) e (state_ rhs) = state_ lhs) as Heq.
  { intros e Hk. apply (word_same_all n); [lia|apply lcg_steps_word; [lia|apply Hr]|apply Hl|done]. }
  destruct (is_mcg (t_stream T)) eqn:Em; cbn [Z.b2z].
  - rewrite increment_mcg in * by done. destruct (mcg_odd lhs Hl Em) as [L3 _]. destruct (mcg_odd rhs Hr Em) as [R3 Ro].
    destruct T_ok as (Hn3 & H5 & _). destruct (mcg_distance n m (Z.ones n) n (state_ rhs) (state_ lhs)) as (e & -> & Hb & Hk); [lia|done|done|done| |].
    + pose proof (Z.div_mod (state_ rhs) 4). pose proof (Z.div_mod (state_ lhs) 4). exists (state_ rhs / 4 - state_ lhs / 4). lia.
    + exists e. rewrite Z.mul_1_r. auto.
  - destruct (lcg_distance n m (increment T rhs) n (state_ rhs) (state_ lhs)) as (e & -> & Hb & Hk);
      [done|apply mult_mod4|by apply increment_odd|lia|]. exists e. rewrite Z.mul_0_r, Z.sub_0_r. auto.
Qed.

(** Different streams: the differences of successive states are compared. *)
Lemma minus_other_stream lhs rhs :
  engine_ok T lhs → engine_ok T rhs → increment T lhs ≠ increment T rhs → ∃ d, engine_minus T lhs rhs = Some d.
Proof.
  intros Hl Hr Hi. pose proof n_pos as Hn. unfold engine_minus. rewrite (proj2 (Z.eqb_neq _ _)) by done.
  assert (is_mcg (t_stream T) = false) as Em by (destruct (is_mcg (t_stream T)) eqn:E; [|done]; by rewrite !increment_mcg in Hi).
  assert (∀ e, engine_ok T e → ∃ h, wrap n (increment T e + wrap n (m - 1) * state_ e) = 2 * h + 1) as Hodd.
  { intros e He. apply Z.odd_spec. rewrite odd_wrap, Z.odd_add, Z.odd_mul, odd_wrap, Z.odd_sub, increment_odd by done.
    pose proof mult_mod4 as H4. replace (Z.odd m) with true; [done|]. symmetry. apply Z.odd_spec. exists (2 * (m / 4)).
    pose proof (Z.div_mod m 4). lia. }
  destruct (Hodd lhs Hl) as [hl ->]. destruct (Hodd rhs Hr) as [hr ->]. destruct T_ok as (Hn3 & H5 & _).
  assert (∀ x, x &&& 3 = x mod 4) as H3 by (intros; apply (Z.land_ones x 2); lia). rewrite !H3.
  match goal with |- context [distance n ?t _ _ _ _] => set (r := t) end.
  assert (odd_state r ∧ ∃ k, r - (2 * hl + 1) = 4 * k) as [Ho Hk].
  { pose proof (Z.div_mod (2 * hl + 1) 4 ltac:(lia)) as D1. pose proof (Z.div_mod (2 * hr + 1) 4 ltac:(lia)) as D2.
    pose proof (Z.mod_pos_bound (2 * hl + 1) 4). pose proof (Z.mod_pos_bound (2 * hr + 1) 4).
    assert (2 ^ n = 8 * 2 ^ (n - 3)) as Pn by (change 8 with (2 ^ 3); rewrite <- Z.pow_add_r by lia; f_equal; lia).
    unfold r. destruct (Z.eqb_spec ((2 * hl + 1) mod 4) ((2 * hr + 1) mod 4)) as [E4|N4]; cbn [negb].
    - split; [by exists hr|]. exists ((2 * hr + 1) / 4 - (2 * hl + 1) / 4). lia.
    - destruct (wrap_eq n Hn (- (2 * hr + 1))) as (q & -> & _). rewrite Pn. split; [exists (- hr - 1 - 4 * 2 ^ (n - 3) * q); lia|].
      exists (- ((2 * hr + 1) / 4) - (2 * hl + 1) / 4 - 1 - 2 * 2 ^ (n - 3) * q). lia. }
  destruct (mcg_distance n m (Z.ones n) n r (2 * hl + 1)) as (e & -> & _); [lia|done..|]. by eexists.
Qed.
End engine_laws.

(** ** Inverting the output function *)

Definition int_width (n : Z) : Prop := n = 8 ∨ n = 16 ∨ n = 32 ∨ n = 64 ∨ n = 128.

Lemma unmultiplier_inverse n : int_width n → wrap n (mcg_multiplier n * mcg_unmultiplier n) = 1.
Proof. by intros [-> | [-> | [-> | [-> | ->]]]]. Qed.

Lemma int_width_pos n : int_width n → 0 < n ∧ 0 < opbits_of n ≤ n ∧ 0 < (2 * n + 2) / 3.
Proof. by intros [-> | [-> | [-> | [-> | ->]]]]. Qed.

Lemma top_bits_nonneg n op x : 0 ≤ x → 0 ≤ op → 0 ≤ top_bits n op x.
Proof.
  intros Hx Hop. unfold top_bits. destruct (op =? 0); cbn [negb]; [done|]. apply Z.land_nonneg. right.
  rewrite Z.shiftl_1_l. pose proof (Z.pow_pos_nonneg 2 op). lia.
Qed.

(** An xor-shift by [op] or more does not change the [op] highest bits. *)
Lemma top_bits_xorshift n op x s : is_word n x → 0 ≤ op ≤ n → op ≤ s → top_bits n op (xorshift x s) = top_bits n op x.
Proof.
  intros [H0 H1] Hop Hs. unfold top_bits, xorshift. rewrite Z.shiftr_lxor, Z.shiftr_shiftr by lia.
  rewrite (Z.shiftr_div_pow2 x (s + (n - op))) by lia. rewrite (Z.div_small x (2 ^ _)), Z.lxor_0_r; [done|].
  split; [done|]. apply Z.lt_le_trans with (2 ^ n); [done|]. apply Z.pow_le_mono_r; lia.
Qed.

Lemma xorshift_word n x s : 0 ≤ n → is_word n x → 0 ≤ s → is_word n (xorshift x s).
Proof.
  intros Hn Hx Hs. apply word_bits; [done|apply Z.lxor_nonneg; rewrite Z.shiftr_nonneg; destruct Hx; lia|].
  intros i Hi. unfold xorshift. rewrite Z.lxor_spec, Z.shiftr_spec, !(word_high n) by (done || lia). done.
Qed.

Lemma rxs_m_xs_inverse n x : int_width n → is_word n x → rxs_m_xs_unoutput n (rxs_m_xs n n x) = Some x.
Proof.
  intros Hn Hx. destruct (int_width_pos n Hn) as (Hpos & Hop & Hs2). pose proof (unmultiplier_inverse n Hn) as Hinv.
  unfold rxs_m_xs, rxs_m_xs_unoutput. set (op := opbits_of n) in *. set (r := top_bits n op x).
  assert (0 ≤ r) by (apply top_bits_nonneg; [apply Hx|lia]).
  change (x ^^^ (x ≫ (op + r))) with (xorshift x (op + r)). set (z := xorshift x (op + r)).
  assert (is_word n z) as Hz by (apply xorshift_word; (done || lia)).
  rewrite Z.sub_diag, Z.shiftr_0_r. set (y := wrap n (z * mcg_multiplier n)). assert (is_word n y) as Hy by (apply Z.mod_pos_bound, Z.pow_pos_nonneg; lia).
  rewrite (wrap_small n y Hy). change (y ^^^ (y ≫ ((2 * n + 2) / 3))) with (xorshift y ((2 * n + 2) / 3)).
  rewrite unxorshift_xorshift by (done || lia). cbn [mbind option_bind].
  replace (wrap n (y * mcg_unmultiplier n)) with z.
  - replace (top_bits n op z) with r by (symmetry; apply top_bits_xorshift; (done || lia)).
    apply unxorshift_xorshift; (done || lia).
  - symmetry. transitivity (wrap n z); [|by apply wrap_small]. unfold y.
    transitivity (wrap n (z * wrap n (mcg_multiplier n * mcg_unmultiplier n))); [wrap_ring|]. by rewrite Hinv, Z.mul_1_r.
Qed.

(** Every output fits its type. *)
Lemma wrap_is_word n x : 0 ≤ n → is_word n (wrap n x).
Proof. intros. apply Z.mod_pos_bound, Z.pow_pos_nonneg; lia. Qed.
Lemma outputs_word x b s :
  0 < x → 0 < b → is_word x (xsh_rs x b s) ∧ is_word x (xsh_rr x b s) ∧ is_word x (output_rxs x b s) ∧
  is_word x (rxs_m x b s) ∧ is_word x (rxs_m_xs x b s) ∧ is_word x (dxsm x b s) ∧ is_word x (xsl_rr x b s) ∧
  is_word x (xsh x b s) ∧ is_word x (xsl x b s).
Proof.
  intros Hx Hb. split_and!; try (apply wrap_is_word; lia); try (apply rot_word; lia).
  unfold rxs_m_xs. apply xorshift_word; [lia|apply wrap_is_word; lia|]. apply Z.div_pos; lia.
Qed.

(** ** Text *)

Lemma std_digit d rest v none : 0 ≤ d < 10 → std_digits (String (dec_char d) rest) v none = std_digits rest (v * 10 + d) false.
Proof.
  intros Hd. cbn [std_digits]. rewrite dec_char_code by done.
  rewrite (proj2 (Z.ltb_ge (48 + d) 48)), (proj2 (Z.ltb_ge 57 (48 + d))) by lia. cbn [orb]. f_equal. lia.
Qed.

Lemma std_dec_go fuel x acc :
  0 ≤ x < 10 ^ Z.of_nat fuel → (0 < fuel)%nat →
  ∃ k, 0 ≤ k ∧ ∀ v none, std_digits (dec_go fuel x acc) v none = std_digits acc (v * 10 ^ k + x) false.
Proof.
  revert x acc. induction fuel as [|fuel IH]; intros x acc Hx Hf; [lia|]. cbn [dec_go].
  pose proof (Z.div_mod x 10 ltac:(lia)). pose proof (Z.mod_pos_bound x 10 ltac:(lia)).
  destruct (Z.ltb_spec x 10).
  - exists 1. split; [lia|]. intros v none. rewrite (Z.mod_small x) by lia. rewrite std_digit by lia. by rewrite Z.pow_1_r.
  - rewrite Nat2Z.inj_succ, Z.pow_succ_r in Hx by lia.
    destruct (IH (x / 10) (String (dec_char (x mod 10)) acc)) as (k & Hk & E).
    { split; [apply Z.div_pos; lia|apply Z.div_lt_upper_bound; lia]. }
    { destruct fuel; [cbn in Hx; lia|lia]. }
    exists (Z.succ k). split; [lia|]. intros v none. rewrite E, std_digit by lia. f_equal. rewrite Z.pow_succ_r by done. lia.
Qed.

Lemma std_digits_stop s v none : no_digit s → std_digits s v none = (v, none, s).
Proof. destruct s as [|c s]; cbn [std_digits no_digit]; [done|]. by intros ->. Qed.

Lemma strip_sign_dec d s : 0 ≤ d < 10 → strip_sign (String (dec_char d) s) = (false, String (dec_char d) s).
Proof.
  intros Hd. assert (∃ k : nat, (k < 10)%nat ∧ d = Z.of_nat k) as (k & Hk & ->) by (exists (Z.to_nat d); lia).
  do 10 (destruct k as [|k]; [reflexivity|]). lia.
Qed.

Lemma read_std_dec n v rest old :
  0 ≤ n ≤ 64 → is_word n v → no_digit rest → read_std n (dec v +:+ rest) old = Extraction v false (at_end rest) rest.
Proof.
  intros Hn Hv Hr. assert (2 ^ n ≤ 2 ^ 64) by (apply Z.pow_le_mono_r; lia). destruct Hv as [Hv0 Hv1].
  assert (v < 10 ^ Z.of_nat 20) by (change (10 ^ Z.of_nat 20) with 100000000000000000000; lia).
  unfold dec. rewrite <- dec_go_app. destruct (dec_go_head 20 v rest) as (d & s & Hd & E & _ & _); [lia|lia|done|].
  destruct (std_dec_go 20 v rest) as (k & Hk & R); [lia|lia|].
  unfold read_std. rewrite E. cbn [skip_spaces]. rewrite is_space_dec_char, strip_sign_dec by lia. rewrite <- E, R, std_digits_stop by done.
  rewrite Z.mul_0_l, Z.add_0_l. by rewrite (proj2 (Z.leb_gt _ _)) by done.
Qed.

Lemma read_print_int n v rest old :
  int_width n → is_word n v → no_digit rest →
  ∃ s, print_int n v = Some s ∧ read_int n (s +:+ rest) old = Extraction v false (at_end rest) rest.
Proof.
  intros Hn Hv Hr. unfold print_int, read_int. destruct (Z.eqb_spec n 128) as [->|Hne].
  - destruct (read_print128 v rest old Hv Hr) as (s & -> & E). exists s. split; [done|]. rewrite E. by destruct rest.
  - exists (dec v). split; [done|]. destruct (Z.eqb_spec n 8) as [->|].
    + rewrite read_std_dec by (done || (split; [apply Hv|unfold is_word in Hv; lia])). cbn [ex_value ex_fail ex_eof ex_rest].
      unfold read_u8. cbn [andb]. unfold is_word in Hv. rewrite (proj2 (Z.ltb_ge _ _)) by lia. unfold u8. by rewrite Z.mod_small by lia.
    + apply read_std_dec; [|done..]. destruct Hn as [-> | [-> | [-> | [-> | ->]]]]; lia.
Qed.

Lemma read_int_space n s old : read_int n (String " " s) old = read_int n s old.
Proof. done. Qed.

Lemma str_app_assoc a b c : (a +:+ b) +:+ c = a +:+ (b +:+ c).
Proof. induction a as [|x a IH]; [done|]. exact (f_equal (String x) IH). Qed.

(** An engine printed after which [rest] stands. *)
Lemma read_print_engine T e rng rest :
  int_width (t_bits T) → is_word (t_bits T) (t_multiplier T) → is_word (t_bits T) (increment T e) → is_word (t_bits T) (state_ e) →
  no_digit rest →
  (if can_specify_stream (t_stream T) then Z.odd (inc_ e) = true else increment T rng = increment T e) →
  ∃ s rng', print_engine T e = Some s ∧ read_engine T (s +:+ rest) rng = (rng', false, rest) ∧
    state_ rng' = state_ e ∧ increment T rng' = increment T e.
Proof.
  intros Hn Hm Hi Hs Hr Hst. unfold print_engine, read_engine.
  destruct (read_print_int (t_bits T) (state_ e) rest 0) as (ss & -> & Es); [done..|].
  destruct (read_print_int (t_bits T) (increment T e) (String " " (ss +:+ rest)) 0) as (si & -> & Ei); [done..|].
  destruct (read_print_int (t_bits T) (t_multiplier T) (String " " (si +:+ String " " (ss +:+ rest))) 0) as (sm & -> & Em); [done..|].
  cbn [mbind option_bind]. eexists. 
  replace ((sm +:+ " " +:+ si +:+ " " +:+ ss) +:+ rest) with (sm +:+ String " " (si +:+ String " " (ss +:+ rest))) by (by rewrite !str_app_assoc).
  rewrite Em. cbn [ex_fail ex_value ex_rest]. rewrite read_int_space, Ei. cbn [ex_fail ex_value ex_rest]. rewrite read_int_space, Es.
  cbn [ex_fail ex_value ex_rest]. rewrite Z.eqb_refl. cbn [negb]. unfold set_stream, increment in *. destruct (can_specify_stream (t_stream T)) eqn:Ec.
  - eexists. split; [done|]. split; [done|]. split; [done|]. destruct (t_stream T); try done.
    transitivity (wrap (t_bits T) ((inc_ e ≫ 1) ≪ 1) ||| 1); [done|]. destruct (Z.odd_spec (inc_ e)) as [Ho _]. destruct (Ho Hst) as [h Eh].
    rewrite Z.shiftr_div_pow2, Z.shiftl_mul_pow2 by lia. change (2 ^ 1) with 2. rewrite Eh.
    replace ((2 * h + 1) / 2) with h by (apply Z.div_unique_pos with 1; lia). unfold is_word in Hi.
    rewrite wrap_small by (unfold is_word; lia). change (h * 2) with (h * 2 ^ 1). rewrite lor_mul_add by lia. lia.
  - rewrite Hst, Z.eqb_refl. cbn [negb]. eexists. split; [done|]. split; [done|]. split; [done|]. by destruct (t_stream T).
Qed.

(** ** Extended generators *)

Lemma unxorshift_total n fuel x bits shift :
  0 < shift → 0 ≤ bits ≤ n → bits ≤ Z.of_nat fuel → is_word n x →
  ∃ y, unxorshift n fuel x bits shift = Some y ∧ is_word n y.
Proof.
  intros Hs Hb Hf Hx. revert x bits Hb Hf Hx. induction fuel as [|fuel IH]; intros x bits Hb Hf Hx; cbn [unxorshift];
    destruct (Z.leb_spec bits (2 * shift)); try lia; [eexists; split; [done|apply (xorshift_word n x shift); (done || lia)]..|].
  rewrite !mask_ones by lia.
  assert (∀ a b, is_word n a → 0 ≤ b → is_word n (a &&& b)) as Hand.
  { intros a b Ha Hb0. apply word_bits; [lia|apply Z.land_nonneg; left; apply Ha|]. intros i Hi. rewrite Z.land_spec, (word_high n a) by (done || lia). done. }
  assert (∀ a b, is_word n a → is_word n b → is_word n (a ||| b)) as Hor.
  { intros a b Ha Hb'. apply word_bits; [lia|apply Z.lor_nonneg; split; [apply Ha|apply Hb']|]. intros i Hi.
    rewrite Z.lor_spec, !(word_high n) by (done || lia). done. }
  assert (∀ k, 0 ≤ k → 0 ≤ Z.ones k) as Hones by (intros; rewrite Z.ones_equiv; pose proof (Z.pow_pos_nonneg 2 k); lia).
  assert (is_word n ((x ^^^ (x ≫ shift)) &&& (Z.ones (bits - shift * 2) ^^^ Z.ones n))) as Htop.
  { apply Hand; [apply (xorshift_word n x shift); (done || lia)|]. apply Z.lxor_nonneg. split; intros _; apply Hones; lia. }
  destruct (IH (((x ^^^ (x ≫ shift)) &&& (Z.ones (bits - shift * 2) ^^^ Z.ones n) ||| (x &&& Z.ones (bits - shift * 2))) &&&
    Z.ones (bits - shift)) (bits - shift)) as (y & -> & Hy); [lia|lia| |].
  { apply Hand; [|apply Hones; lia]. apply Hor; [done|]. apply Hand; [done|apply Hones; lia]. }
  cbn [mbind option_bind]. eexists. split; [done|]. apply Hor; [done|]. apply Hand; [done|apply Hones; lia].
Qed.

Lemma unoutput_total n r : int_width n → is_word n r → ∃ s, rxs_m_xs_unoutput n r = Some s ∧ is_word n s.
Proof.
  intros Hn Hr. destruct (int_width_pos n Hn) as (Hpos & Hop & Hs2). unfold rxs_m_xs_unoutput.
  destruct (unxorshift_total n (Z.to_nat n) r n ((2 * n + 2) / 3)) as (y & -> & Hy); [lia|lia|lia|done|]. cbn [mbind option_bind].
  apply unxorshift_total; [|lia|lia|apply wrap_is_word; lia].
  pose proof (top_bits_nonneg n (opbits_of n) (wrap n (y * mcg_unmultiplier n))) as Ht.
  pose proof (wrap_is_word n (y * mcg_unmultiplier n) ltac:(lia)) as [Hw _]. lia.
Qed.

(** The table's generators: one sequence, an output that can be inverted. *)
Record ext_type_ok (X : extended_type) : Prop := {
  xt_base : type_ok (x_base X);
  xt_draw : ∀ s, is_word (t_xbits (x_base X)) (t_output (x_base X) s);
  xt_ext : type_ok (io_type (x_ext X));
  xt_stream : t_stream (io_type (x_ext X)) = oneseq_stream;
  xt_width : t_xbits (x_base X) = t_bits (io_type (x_ext X));
  xt_output : ∀ s, is_word (t_bits (io_type (x_ext X))) (t_output (io_type (x_ext X)) s);
  xt_unoutput : ∀ r, is_word (t_bits (io_type (x_ext X))) r →
    ∃ s, io_unoutput (x_ext X) r = Some s ∧ is_word (t_bits (io_type (x_ext X))) s;
  xt_table : 0 ≤ x_table_pow2 X < t_bits (x_base X);
  xt_advance : 0 ≤ x_advance_pow2 X;
  xt_tick : if is_mcg (t_stream (x_base X)) then may_tick X = true → x_advance_pow2 X + 2 ≤ t_bits (x_base X) else True;
}.

Section extended_laws.
Variable X : extended_type.
Hypothesis X_ok : ext_type_ok X.
Notation T := (x_base X).
Notation en := (t_bits (io_type (x_ext X))).

Definition ext_ok (r : extended) : Prop :=
  engine_ok T (x_engine r) ∧ length (data_ r) = table_size X ∧ Forall (is_word en) (data_ r).

Lemma external_step_total d i : is_word en d → ∃ d' c, external_step (x_ext X) d i = Some (d', c) ∧ is_word en d'.
Proof.
  intros Hd. destruct (xt_unoutput X X_ok d Hd) as (s & E & _). unfold external_step. rewrite E. cbn [mbind option_bind].
  eexists _, _. split; [done|]. apply (xt_output X X_ok).
Qed.

Lemma external_advance_total d i delta f :
  is_word en d → 0 ≤ i → ∃ d' c, external_advance (x_ext X) d i delta f = Some (d', c) ∧ is_word en d'.
Proof.
  intros Hd Hi. destruct (xt_unoutput X X_ok d Hd) as (s & E & _). unfold external_advance. rewrite E. cbn [mbind option_bind].
  pose proof (n_pos _ (xt_ext X X_ok)) as Hn. pose proof (mult_mod4 _ (xt_ext X X_ok)) as H4.
  assert (Z.odd (wrap en (io_increment (x_ext X) + wrap en (i * 2))) = true) as Hodd.
  { rewrite odd_wrap, Z.odd_add, odd_wrap, Z.odd_mul by done. unfold io_increment, increment. rewrite (xt_stream X X_ok).
    destruct (xt_ext X X_ok) as (_ & _ & Ho). rewrite (xt_stream X X_ok) in Ho. rewrite Ho. by rewrite andb_false_r. }
  destruct (lcg_distance en _ _ en s (external_zero (x_ext X) s) Hn H4 Hodd) as (e & -> & _); [lia|]. cbn [mbind option_bind].
  eexists _, _. split; [done|]. apply (xt_output X X_ok).
Qed.

Lemma advance_table_total r : ext_ok r → ∃ r', advance_table X r = Some r' ∧ ext_ok r' ∧ x_engine r' = x_engine r.
Proof.
  intros (He & Hl & Hd). unfold advance_table.
  assert (∀ i c ds, Forall (is_word en) ds →
    ∃ ds', advance_table_from X i c ds = Some ds' ∧ length ds' = length ds ∧ Forall (is_word en) ds') as Hgo.
  { intros i c ds Hds. revert i c. induction Hds as [|d ds Hw _ IH]; intros i c; cbn [advance_table_from]; [by eexists|].
    assert (∃ d1 c1, (if c then external_step (x_ext X) d (i + 1) else Some (d, c)) = Some (d1, c1) ∧ is_word en d1) as (d1 & c1 & -> & Hw1).
    { destruct c; [by apply external_step_total|by eexists _, _]. }
    cbn [mbind option_bind]. destruct (external_step_total d1 (i + 1) Hw1) as (d2 & c2 & -> & Hw2). cbn [mbind option_bind].
    destruct (IH (i + 1) (c1 || c2)) as (ds' & -> & L & F). cbn [mbind option_bind]. eexists. split; [done|]. split; [cbn; lia|by constructor]. }
  destruct (Hgo 0 false (data_ r) Hd) as (ds' & -> & L & F). cbn [mbind option_bind]. eexists. split; [done|].
  split; [|done]. split_and!; [done|cbn; lia|done].
Qed.

Lemma advance_table_by_total delta f r : ext_ok r → ∃ r', advance_table_by X delta f r = Some r' ∧ ext_ok r' ∧ x_engine r' = x_engine r.
Proof.
  intros (He & Hl & Hd). unfold advance_table_by.
  assert (∀ i c ds, 0 ≤ i → Forall (is_word en) ds →
    ∃ ds', advance_table_by_from X i c delta f ds = Some ds' ∧ length ds' = length ds ∧ Forall (is_word en) ds') as Hgo.
  { intros i c ds Hi Hds. revert i c Hi. induction Hds as [|d ds Hw _ IH]; intros i c Hi; cbn [advance_table_by_from]; [by eexists|].
    match goal with |- context [external_advance _ d _ ?dl f] => destruct (external_advance_total d (i + 1) dl f Hw ltac:(lia)) as (d2 & c2 & -> & Hw2) end.
    cbn [mbind option_bind]. match goal with |- context [advance_table_by_from X (i + 1) ?c' delta f ds] =>
      destruct (IH (i + 1) c' ltac:(lia)) as (ds' & -> & L & F) end.
    cbn [mbind option_bind]. eexists. split; [done|]. split; [cbn; lia|by constructor]. }
  destruct (Hgo 0 0 (data_ r) ltac:(lia) Hd) as (ds' & -> & L & F). cbn [mbind option_bind]. eexists. split; [done|].
  split; [|done]. split_and!; [done|cbn; lia|done].
Qed.

Lemma get_value_total r :
  ext_ok r → ∃ i r', get_extended_value X r = Some (i, r') ∧ (i < length (data_ r'))%nat ∧ ext_ok r' ∧ x_engine r' = x_engine r.
Proof.
  intros Hr. pose proof Hr as (He & _ & _). unfold get_extended_value. pose proof (n_pos _ (xt_base X X_ok)) as Hn.
  pose proof (xt_table X X_ok) as Ht.
  set (st := if x_kdd X && is_mcg (t_stream T) then state_ (x_engine r) ≫ 2 else state_ (x_engine r)).
  assert (is_word (t_bits T) st) as Hst.
  { destruct He as [[H0 H1] _]. unfold st. destruct (_ && _); [|done]. rewrite Z.shiftr_div_pow2 by lia. change (2 ^ 2) with 4.
    split; [apply Z.div_pos; lia|apply Z.div_lt_upper_bound; lia]. }
  assert (∀ (b : bool) r, ext_ok r → ∃ r', (if b then advance_table X r else Some r) = Some r' ∧ ext_ok r' ∧ x_engine r' = x_engine r) as Hif.
  { intros [] r0 Hr0; [by apply advance_table_total|by eexists]. }
  match goal with |- context [if may_tick X && ?t then _ else _] => destruct (Hif (may_tick X && t) r Hr) as (r1 & -> & Hr1 & E1) end.
  cbn [mbind option_bind].
  match goal with |- context [if may_tock X && ?t then _ else _] => destruct (Hif (may_tock X && t) r1 Hr1) as (r2 & -> & Hr2 & E2) end.
  cbn [mbind option_bind]. eexists _, _. split; [done|]. pose proof Hr2 as (_ & Hl & _). split_and!; [|done|congruence].
  rewrite Hl. unfold table_size. assert (0 < 2 ^ x_table_pow2 X) by (apply Z.pow_pos_nonneg; lia). apply Z2Nat.inj_lt; [|lia|].
  - destruct (x_kdd X); [apply Z.land_nonneg; left; apply Hst|apply Z.shiftr_nonneg, Hst].
  - destruct (x_kdd X).
    + unfold table_mask. rewrite mask_ones, Z.land_ones by lia. apply Z.mod_pos_bound. lia.
    + rewrite Z.shiftr_div_pow2 by (unfold table_shift; lia). unfold table_shift. apply Z.div_lt_upper_bound; [apply Z.pow_pos_nonneg; lia|].
      rewrite <- Z.pow_add_r by lia. replace (t_bits T - x_table_pow2 X + x_table_pow2 X) with (t_bits T) by lia. apply Hst.
Qed.

Lemma draw_ok e : engine_ok T e → engine_ok T (snd (draw T e)).
Proof. intros He. rewrite draw_step. by apply (steps_ok T (xt_base X X_ok) e 1). Qed.

Lemma lxor_word n a b : 0 ≤ n → is_word n a → is_word n b → is_word n (a ^^^ b).
Proof.
  intros Hn Ha Hb. apply word_bits; [done|apply Z.lxor_nonneg; split; intros _; [apply Hb|apply Ha]|]. intros i Hi.
  rewrite Z.lxor_spec, !(word_high n) by (done || lia). done.
Qed.

Lemma ext_draw_total r :
  ext_ok r → ∃ x r', ext_draw X r = Some (x, r') ∧ is_word en x ∧ ext_ok r' ∧ x_engine r' = snd (draw T (x_engine r)).
Proof.
  intros Hr. destruct (get_value_total r Hr) as (i & r1 & E & Hi & (He & Hl & Hd) & Ee). unfold ext_draw. rewrite E. cbn [mbind option_bind].
  destruct (lookup_lt_is_Some_2 _ _ Hi) as [v Ev]. rewrite Ev. cbn [mbind option_bind]. rewrite Ee in *.
  pose proof (draw_ok _ He) as He'. destruct (draw T (x_engine r)) as [l e'] eqn:Ed. eexists _, _. split; [done|]. cbn [snd] in *.
  split_and!; [|done|done]. pose proof (n_pos _ (xt_ext X X_ok)). apply lxor_word; [lia| |by apply (Forall_lookup_1 _ _ _ _ Hd Ev)].
  rewrite <- (xt_width X X_ok). unfold draw in Ed. destruct (if t_previous T then _ else _) as [s0 e0]. injection Ed as <- _. apply (xt_draw X X_ok).
Qed.

Lemma ext_set_total wanted r :
  ext_ok r → is_word en wanted →
  ∃ i r', ext_set X wanted r = Some r' ∧ ext_ok r' ∧ x_engine r' = snd (draw T (x_engine r)) ∧
    data_ r' !! i = Some (fst (draw T (x_engine r)) ^^^ wanted).
Proof.
  intros Hr Hw. destruct (get_value_total r Hr) as (i & r1 & E & Hi & (He & Hl & Hd) & Ee). unfold ext_set. rewrite E. cbn [mbind option_bind].
  destruct (lookup_lt_is_Some_2 _ _ Hi) as [v Ev]. rewrite Ev. cbn [mbind option_bind]. rewrite Ee in *.
  pose proof (draw_ok _ He) as He'. destruct (draw T (x_engine r)) as [l e'] eqn:Ed. exists i. eexists. split; [done|]. cbn [snd fst] in *.
  split_and!; [split_and!; [done|cbn; rewrite length_insert; lia|]|done|by apply list_lookup_insert_eq].
  pose proof (n_pos _ (xt_ext X X_ok)). apply Forall_insert; [done|]. apply lxor_word; [lia| |done].
  rewrite <- (xt_width X X_ok). unfold draw in Ed. destruct (if t_previous T then _ else _) as [s0 e0]. injection Ed as <- _. apply (xt_draw X X_ok).
Qed.

Lemma tick_mask_ones : may_tick X = true → tick_mask X = Z.ones (x_advance_pow2 X) ∧ x_advance_pow2 X < t_bits T.
Proof.
  intros Hm. unfold tick_mask. rewrite Hm. unfold may_tick in Hm. apply andb_true_iff in Hm as [Hlt%Z.ltb_lt _]. pose proof (xt_advance X X_ok).
  split; [|done]. rewrite Z.shiftl_1_l, Z.ones_equiv. apply wrap_small.
  assert (0 < 2 ^ x_advance_pow2 X < 2 ^ t_bits T) by (split; [apply Z.pow_pos_nonneg; lia|apply Z.pow_lt_mono_r; lia]). unfold is_word. lia.
Qed.

(** Both distances an advance asks for exist. *)
Lemma advance_distances e :
  engine_ok T e →
  let mcg := is_mcg (t_stream T) in
  let zero := if mcg then state_ e &&& 3 else 0 in
  (may_tick X = true →
     ∃ d, engine_distance T e zero (if mcg then wrap (t_bits T) (tick_mask X ≪ 2) else tick_mask X) = Some d) ∧
  ∃ d, engine_distance T e zero (Z.ones (t_bits T)) = Some d.
Proof.
  intros He. cbn zeta. pose proof (xt_base X X_ok) as HT. pose proof (n_pos _ HT) as Hn. pose proof (xt_advance X X_ok). unfold engine_distance.
  pose proof (xt_tick X X_ok) as Htick. destruct (is_mcg (t_stream T)) eqn:Em.
  - rewrite increment_mcg by done. destruct (mcg_odd _ e He Em) as [_ Ho]. pose proof HT as (Hn3 & H5 & _).
    assert (∃ k, state_ e - (state_ e &&& 3) = 4 * k) as Hk.
    { change 3 with (Z.ones 2). rewrite Z.land_ones by lia. exists (state_ e / 4). pose proof (Z.div_mod (state_ e) 4). change (2 ^ 2) with 4. lia. }
    split.
    + intros Hm. destruct (tick_mask_ones Hm) as [-> Ha]. specialize (Htick Hm).
      assert (wrap (t_bits T) (Z.ones (x_advance_pow2 X) ≪ 2) = Z.ones (x_advance_pow2 X + 2 - 2) ≪ 2) as ->.
      { replace (x_advance_pow2 X + 2 - 2) with (x_advance_pow2 X) by lia. apply wrap_small. rewrite Z.shiftl_mul_pow2, Z.ones_equiv by lia. change (2 ^ 2) with 4.
        assert (4 * 2 ^ x_advance_pow2 X = 2 ^ (x_advance_pow2 X + 2)) as P by (rewrite Z.pow_add_r by lia; lia).
        assert (2 ^ (x_advance_pow2 X + 2) ≤ 2 ^ t_bits T) by (apply Z.pow_le_mono_r; lia).
        pose proof (Z.pow_pos_nonneg 2 (x_advance_pow2 X)). unfold is_word. lia. }
      destruct (mcg_distance (t_bits T) (t_multiplier T) (Z.ones (x_advance_pow2 X + 2 - 2) ≪ 2) (x_advance_pow2 X + 2) (state_ e) (state_ e &&& 3))
        as (k & -> & _); [lia|apply mask_shifted_for; lia|done..|]. by eexists.
    + destruct (mcg_distance (t_bits T) (t_multiplier T) (Z.ones (t_bits T)) (t_bits T) (state_ e) (state_ e &&& 3)) as (k & -> & _); [lia|done..|].
      by eexists.
  - pose proof (increment_odd _ HT e He Em) as Ho. pose proof (mult_mod4 _ HT) as H4. split.
    + intros Hm. destruct (tick_mask_ones Hm) as [-> Ha].
      destruct (lcg_distance (t_bits T) (t_multiplier T) (increment T e) (x_advance_pow2 X) (state_ e) 0) as (k & -> & _); [done..|lia|]. by eexists.
    + destruct (lcg_distance (t_bits T) (t_multiplier T) (increment T e) (t_bits T) (state_ e) 0) as (k & -> & _); [done..|lia|]. by eexists.
Qed.

Lemma engine_advance_ok d e : engine_ok T e → 0 ≤ d → engine_ok T (engine_advance T d e).
Proof.
  intros He Hd. pose proof (xt_base X X_ok) as HT. rewrite (engine_advance_draws T d e He Hd), iter_draw. by apply steps_ok.
Qed.

Lemma ext_advance_total d f r :
  ext_ok r → is_word (t_bits T) d →
  ∃ r', ext_advance X d f r = Some r' ∧ ext_ok r' ∧
    x_engine r' = if f then engine_advance T d (x_engine r) else backstep T d (x_engine r).
Proof.
  intros Hr Hd. pose proof Hr as (He & _ & _). destruct (advance_distances _ He) as [H1 [d2 E2]]. cbn zeta in H1, E2.
  pose proof (n_pos _ (xt_base X X_ok)) as Hn. unfold ext_advance. set (zero := if is_mcg (t_stream T) then _ else _) in *.
  match goal with |- ∃ r', (_ ← ?a; _) = _ ∧ _ => assert (∃ r1, a = Some r1 ∧ ext_ok r1 ∧ x_engine r1 = x_engine r) as (r1 & -> & Hr1 & E1) end.
  { destruct (may_tick X) eqn:Em; [|by exists r]. destruct (H1 eq_refl) as [d1 ->]. cbn [mbind option_bind].
    match goal with |- context [negb (?t =? 0)] => destruct (t =? 0) end; cbn [negb]; [by exists r|]. by apply advance_table_by_total. }
  cbn [mbind option_bind]. rewrite E2. cbn [mbind option_bind].
  assert (∀ r2 dd, ext_ok r2 → x_engine r2 = x_engine r → 0 ≤ dd →
    ext_ok (Extended (engine_advance T dd (x_engine r2)) (data_ r2)) ∧ engine_advance T dd (x_engine r2) = engine_advance T dd (x_engine r)) as Hfin.
  { intros r2 dd (He2 & Hl2 & Hd2) -> Hdd. split; [|done]. split_and!; [by apply engine_advance_ok|done|done]. }
  pose proof (wrap_is_word (t_bits T) (- d) ltac:(lia)) as [Hw _]. destruct Hd as [Hd _]. destruct f.
  - assert (∃ r2, (if may_tock X then if d2 <=? d then advance_table X r1 else Some r1 else Some r1) = Some r2 ∧ ext_ok r2 ∧ x_engine r2 = x_engine r)
      as (r2 & -> & Hr2 & Ee).
    { rewrite <- E1. destruct (may_tock X); [|by exists r1]. destruct (d2 <=? d); [by apply advance_table_total|by exists r1]. }
    cbn [mbind option_bind]. eexists. split; [done|]. by apply Hfin.
  - assert (∃ r2, (if may_tock X then if wrap (t_bits T) (- d2) <=? d then advance_table_by X 1 false r1 else Some r1 else Some r1) = Some r2 ∧
      ext_ok r2 ∧ x_engine r2 = x_engine r) as (r2 & -> & Hr2 & Ee).
    { rewrite <- E1. destruct (may_tock X); [|by exists r1]. destruct (_ <=? d); [by apply advance_table_by_total|by exists r1]. }
    cbn [mbind option_bind]. eexists. split; [done|]. by apply Hfin.
Qed.
End extended_laws.

(** ** Properties *)

(** [k] draws, their results dropped. *)
Definition after (T : engine_type) (k : Z) (e : engine) : engine := Nat.iter (Z.to_nat k) (λ e, snd (draw T e)) e.

(** The generator of the event triggers and the trickbox helpers. *)
Definition pcg32 : engine_type := Engine_type 32 64 (xsh_rr 32 64) true specific_stream (default_multiplier 64).
Lemma pcg32_ok : type_ok pcg32.
Proof. repeat split; done. Qed.
Lemma pcg32_sample_ok : engine_ok pcg32 (engine_new pcg32 42).
Proof. vm_compute. split; [split; [discriminate|reflexivity]|reflexivity]. Qed.

(** C16: jumping ahead in time logarithmic in the distance gives the engine that
    as many draws would, for every distance, stream and multiplier, and going
    back by the same distance restores it. *)
Theorem engine_jumps T e delta :
  type_ok T → engine_ok T e → is_word (t_bits T) delta →
  engine_advance T delta e = after T delta e ∧ discard T delta e = after T delta e ∧
  backstep T delta (engine_advance T delta e) = e ∧ engine_ok T (after T delta e).
Proof.
  intros HT He Hd. assert (engine_advance T delta e = after T delta e) as E by (apply engine_advance_draws; [done|apply Hd]).
  split_and!; [done|done|by apply backstep_advance|]. unfold after. rewrite iter_draw. by apply steps_ok.
Qed.
Lemma engine_jumps_witness :
  let e := engine_new pcg32 42 in
  engine_advance pcg32 1000 e = after pcg32 1000 e ∧ discard pcg32 1000 e = after pcg32 1000 e ∧
  backstep pcg32 1000 (engine_advance pcg32 1000 e) = e ∧ engine_ok pcg32 (after pcg32 1000 e).
Proof. apply (engine_jumps pcg32 (engine_new pcg32 42) 1000); [apply pcg32_ok|apply pcg32_sample_ok|done]. Defined.

(** C24: every well-formed engine has the full period the class announces: after
    2^[period_pow2] draws, and not before, it is in its first state again. *)
Theorem engine_period T e :
  type_ok T → engine_ok T e →
  after T (2 ^ period_pow2 T) e = e ∧ ∀ k, 0 < k < 2 ^ period_pow2 T → after T k e ≠ e.
Proof.
  intros HT He. unfold after. split.
  - rewrite iter_draw. rewrite (proj1 (engine_turn T HT e 0 He)). by destruct e.
  - intros k Hk E. rewrite iter_draw in E. apply (f_equal state_) in E. rewrite state_upd in E.
    apply (proj2 (engine_turn T HT e (Z.to_nat k) He)); [rewrite Z2Nat.id by lia; done|done].
Qed.
Lemma engine_period_witness :
  after pcg32 (2 ^ 64) (engine_new pcg32 42) = engine_new pcg32 42 ∧
  ∀ k, 0 < k < 2 ^ 64 → after pcg32 k (engine_new pcg32 42) ≠ engine_new pcg32 42.
Proof. apply (engine_period pcg32 (engine_new pcg32 42)); [apply pcg32_ok|apply pcg32_sample_ok]. Defined.

(** The difference of two engines is always found, without a failing
    assertion; on the same stream it is the one number of draws below the
    period that leads from the right engine to the left. *)
Theorem engine_difference T lhs rhs :
  type_ok T → engine_ok T lhs → engine_ok T rhs →
  ∃ d, engine_minus T lhs rhs = Some d ∧
    (increment T lhs = increment T rhs →
      0 ≤ d < 2 ^ period_pow2 T ∧ state_ (after T d rhs) = state_ lhs ∧
      ∀ d', 0 ≤ d' < 2 ^ period_pow2 T → state_ (after T d' rhs) = state_ lhs → d' = d).
Proof.
  intros HT Hl Hr. destruct (decide (increment T lhs = increment T rhs)) as [Hi|Hi].
  - destruct (minus_same_stream T HT lhs rhs Hl Hr Hi) as (e & -> & Hb & Hs). eexists. split; [done|]. intros _. unfold after.
    assert (∀ k, state_ (Nat.iter k (λ e, snd (draw T e)) rhs) = lcg_steps (t_bits T) (t_multiplier T) (increment T rhs) k (state_ rhs)) as Hit.
    { intros k. by rewrite iter_draw, state_upd. }
    rewrite Nat2Z.id, Hit. split_and!; [lia|done|done|]. intros d' Hd' E'. rewrite Hit, <- Hs in E'.
    pose proof (Z2Nat.id d' ltac:(lia)). destruct (Nat.le_ge_cases (Z.to_nat d') e).
    + apply (steps_inj T HT rhs) in E'; (done || lia).
    + symmetry in E'. apply (steps_inj T HT rhs) in E'; (done || lia).
  - destruct (minus_other_stream T HT lhs rhs Hl Hr Hi) as [d E]. exists d. split; [done|]. intros; contradiction.
Qed.
Lemma engine_difference_witness :
  ∃ d, engine_minus pcg32 (engine_new pcg32 7) (engine_new pcg32 42) = Some d.
Proof.
  destruct (engine_difference pcg32 (engine_new pcg32 7) (engine_new pcg32 42)) as (d & E & _);
    [apply pcg32_ok|vm_compute; split; [split; [discriminate|reflexivity]|reflexivity]|apply pcg32_sample_ok|by exists d].
Defined.

(** The output function of the once-insecure generators is a permutation
    of its words: [unoutput] recovers the state from every output, for each
    integer type. *)
Theorem unoutput_inverts n s : int_width n → is_word n s → rxs_m_xs_unoutput n (rxs_m_xs n n s) = Some s.
Proof. apply rxs_m_xs_inverse. Qed.
Lemma unoutput_inverts_witness : rxs_m_xs_unoutput 128 (rxs_m_xs 128 128 (2 ^ 100 + 12345)) = Some (2 ^ 100 + 12345).
Proof. apply (unoutput_inverts 128 (2 ^ 100 + 12345)); [by repeat right|done]. Defined.

(** An engine printed and read back into an engine of its type, whatever
    that one's state, is the same generator, for each integer type and kind of
    stream; what follows the text is left in the stream. *)
Theorem engine_text_roundtrip T e rng rest :
  int_width (t_bits T) → is_word (t_bits T) (t_multiplier T) → is_word (t_bits T) (increment T e) → is_word (t_bits T) (state_ e) →
  no_digit rest →
  (if can_specify_stream (t_stream T) then Z.odd (inc_ e) = true else increment T rng = increment T e) →
  ∃ s rng', print_engine T e = Some s ∧ read_engine T (s +:+ rest) rng = (rng', false, rest) ∧ engine_eqb T rng' e = true.
Proof.
  intros Hn Hm Hi Hs Hr Hst. destruct (read_print_engine T e rng rest Hn Hm Hi Hs Hr Hst) as (s & rng' & E1 & E2 & E3 & E4).
  exists s, rng'. unfold engine_eqb. by rewrite E1, E2, E3, E4, !Z.eqb_refl.
Qed.
Lemma engine_text_roundtrip_witness :
  ∃ s rng', print_engine pcg32 (Engine 99 7) = Some s ∧ read_engine pcg32 (s +:+ " x") (Engine 1 1) = (rng', false, " x") ∧
    engine_eqb pcg32 rng' (Engine 99 7) = true.
Proof.
  apply (engine_text_roundtrip pcg32 (Engine 99 7) (Engine 1 1) " x"); try done. do 3 right. by left.
Defined.
