(* ===== verification/PcgTypes.v ===== *)
(** * PcgTypes: the generators the header names (src/common/pcg_random.hpp)

    The families of predefined engines and extended generators, as lists of
    template instances with their names; [pcg32], the one this project draws
    from, is in PcgEngine.v. *)

From Stdlib Require Import Ascii.
From Stdlib Require String.
From S2P Require Import Prelude Uint128 Bytes Cstd PcgExtras PcgEngine.
Local Open Scope string_scope.
Local Open Scope list_scope.
Local Open Scope Z_scope.

(** ** Base classes *)

(** [oneseq_base], [unique_base], [setseq_base] and [mcg_base]: the defaults of
    [output_previous] and of the multiplier. *)
Definition base (s : stream_mixin) (xtype itype : Z) (mixin : Z → Z → Z → Z) : engine_type :=
  Engine_type xtype itype (mixin xtype itype) (itype <=? 64) s (default_multiplier itype).
(** The variants with [true, cheap_multiplier]. *)
Definition cm_base (s : stream_mixin) (xtype itype : Z) (mixin : Z → Z → Z → Z) : engine_type :=
  Engine_type xtype itype (mixin xtype itype) true s (cheap_multiplier itype).

(** One kind of stream: a typedef per size, and the cheap multiplier with the
    widest. *)
Definition sized (s : stream_mixin) (mixin : Z → Z → Z → Z) (sizes : list (Z * Z)) : list engine_type :=
  ((λ '(x, i), base s x i mixin) <$> sizes) ++
  match last sizes with Some (x, i) => [cm_base s x i mixin] | None => [] end.
Definition family (streams : list stream_mixin) (mixin : Z → Z → Z → Z) (sizes : list (Z * Z)) : list engine_type :=
  streams ≫= λ s, sized s mixin sizes.

Section predefined.
(** The address a [unique_stream] object has. *)
Variable this : Z.

Definition all_streams : list stream_mixin := [oneseq_stream; unique_stream this; specific_stream; no_stream].
Definition lcg_streams : list stream_mixin := [oneseq_stream; unique_stream this; specific_stream].

Definition halves_of : list (Z * Z) := [(8, 16); (16, 32); (32, 64); (64, 128)].
Definition large_halves : list (Z * Z) := [(32, 64); (64, 128)].

Definition xsh_rs_types : list engine_type := family all_streams xsh_rs halves_of.
Definition xsh_rr_types : list engine_type := family all_streams xsh_rr halves_of.
Definition rxs_m_xs_types : list engine_type := family lcg_streams rxs_m_xs [(8, 8); (16, 16); (32, 32); (64, 64); (128, 128)].
Definition rxs_m_types : list engine_type := family all_streams rxs_m halves_of.
Definition dxsm_types : list engine_type := family all_streams dxsm halves_of.
Definition xsl_rr_types : list engine_type := family all_streams xsl_rr large_halves.
Definition xsl_rr_rr_types : list engine_type := family lcg_streams (λ _ i, xsl_rr_rr i) [(64, 64); (128, 128)].

Definition predefined_types : list engine_type :=
  xsh_rs_types ++ xsh_rr_types ++ rxs_m_xs_types ++ rxs_m_types ++ dxsm_types ++ xsl_rr_types ++ xsl_rr_rr_types.
End predefined.

(** ** Extended generators *)

Definition oneseq_rxs_m_xs (n : Z) : inside_out := Inside_out (base oneseq_stream n n rxs_m_xs) (rxs_m_xs_unoutput n).
Definition ext_std (n table_pow2 advance_pow2 : Z) (BaseRNG : engine_type) (kdd : bool) : extended_type :=
  Extended_type BaseRNG (oneseq_rxs_m_xs n) table_pow2 advance_pow2 kdd.

Definition ext_oneseq_rxs_m_xs_32_32 (t a : Z) := ext_std 32 t a (base oneseq_stream 32 32 rxs_m_xs).
Definition ext_mcg_xsh_rs_64_32 (t a : Z) := ext_std 32 t a (base no_stream 32 64 xsh_rs).
Definition ext_oneseq_xsh_rs_64_32 (t a : Z) := ext_std 32 t a (base oneseq_stream 32 64 xsh_rs).
Definition ext_setseq_xsh_rr_64_32 (t a : Z) := ext_std 32 t a (base specific_stream 32 64 xsh_rr).
Definition ext_mcg_xsl_rr_128_64 (t a : Z) := ext_std 64 t a (base no_stream 64 128 xsl_rr).
Definition ext_oneseq_xsl_rr_128_64 (t a : Z) := ext_std 64 t a (base oneseq_stream 64 128 xsl_rr).
Definition ext_setseq_xsl_rr_128_64 (t a : Z) := ext_std 64 t a (base specific_stream 64 128 xsl_rr).

Definition extended_types : list (string * extended_type) := [
  ("pcg32_k2", ext_setseq_xsh_rr_64_32 1 16 true);
  ("pcg32_k2_fast", ext_oneseq_xsh_rs_64_32 1 32 true);
  ("pcg32_k64", ext_setseq_xsh_rr_64_32 6 16 true);
  ("pcg32_k64_oneseq", ext_mcg_xsh_rs_64_32 6 32 true);
  ("pcg32_k64_fast", ext_oneseq_xsh_rs_64_32 6 32 true);
  ("pcg32_c64", ext_setseq_xsh_rr_64_32 6 16 false);
  ("pcg32_c64_oneseq", ext_oneseq_xsh_rs_64_32 6 32 false);
  ("pcg32_c64_fast", ext_mcg_xsh_rs_64_32 6 32 false);
  ("pcg64_k32", ext_setseq_xsl_rr_128_64 5 16 true);
  ("pcg64_k32_oneseq", ext_oneseq_xsl_rr_128_64 5 128 true);
  ("pcg64_k32_fast", ext_mcg_xsl_rr_128_64 5 128 true);
  ("pcg64_c32", ext_setseq_xsl_rr_128_64 5 16 false);
  ("pcg64_c32_oneseq", ext_oneseq_xsl_rr_128_64 5 128 false);
  ("pcg64_c32_fast", ext_mcg_xsl_rr_128_64 5 128 false);
  ("pcg32_k1024", ext_setseq_xsh_rr_64_32 10 16 true);
  ("pcg32_k1024_fast", ext_oneseq_xsh_rs_64_32 10 32 true);
  ("pcg32_c1024", ext_setseq_xsh_rr_64_32 10 16 false);
  ("pcg32_c1024_fast", ext_oneseq_xsh_rs_64_32 10 32 false);
  ("pcg64_k1024", ext_setseq_xsl_rr_128_64 10 16 true);
  ("pcg64_k1024_fast", ext_oneseq_xsl_rr_128_64 10 128 true);
  ("pcg64_c1024", ext_setseq_xsl_rr_128_64 10 16 false);
  ("pcg64_c1024_fast", ext_oneseq_xsl_rr_128_64 10 128 false);
  ("pcg32_k16384", ext_setseq_xsh_rr_64_32 14 16 true);
  ("pcg32_k16384_fast", ext_oneseq_xsh_rs_64_32 14 32 true)].

(** ** Properties *)

(** What the theorems on engines ask of a type, and that its outputs fit. *)
Definition type_okb (T : engine_type) : bool :=
  let n := t_bits T in
  bool_decide (n ∈ [8; 16; 32; 64; 128]) && (0 <? t_xbits T) && (t_multiplier T mod 8 =? 5) &&
  (0 <=? t_multiplier T) && (t_multiplier T <? 2 ^ n) && Z.odd (default_increment n).
Lemma type_okb_ok T :
  type_okb T = true →
  type_ok T ∧ int_width (t_bits T) ∧ 0 < t_xbits T ∧ is_word (t_bits T) (t_multiplier T) ∧ Z.odd (default_increment (t_bits T)) = true.
Proof.
  unfold type_okb, type_ok, is_word. rewrite !andb_true_iff, bool_decide_eq_true, !Z.ltb_lt, Z.leb_le, Z.eqb_eq.
  intros (((((Hn & Hx) & H5) & H0) & H1) & Ho). assert (int_width (t_bits T)) as Hw.
  { rewrite !elem_of_cons, elem_of_nil in Hn. unfold int_width. tauto. }
  split_and!; try done; [|by destruct (t_stream T)]. destruct Hw as [-> | [-> | [-> | [-> | ->]]]]; lia.
Qed.

Lemma Forall_okb (l : list engine_type) : forallb type_okb l = true → ∀ T, T ∈ l → type_okb T = true.
Proof. intros H T HT. rewrite forallb_forall in H. apply H. by apply list_elem_of_In. Qed.

Lemma lor_3 n s : 2 ≤ n → is_word n s → is_word n (s ||| 3) ∧ (s ||| 3) mod 4 = 3.
Proof.
  intros Hn [H0 H1]. split.
  - apply word_bits; [lia|apply Z.lor_nonneg; lia|]. intros i Hi. rewrite Z.lor_spec, (word_high n s), (word_high 2 3) by (unfold is_word; (done || lia)). done.
  - change 4 with (2 ^ 2). rewrite <- Z.land_ones by lia. apply Z.bits_inj'. intros i Hi. rewrite Z.land_spec, Z.lor_spec.
    change 3 with (Z.ones 2). rewrite ones_testbit by lia. destruct (i <? 2); [by rewrite orb_true_r|by rewrite andb_false_r].
Qed.

Lemma init_state_ok T e seed :
  type_okb T = true → is_word (t_bits T) seed → Z.odd (inc_ e) = true → engine_ok T (init_state T e seed).
Proof.
  intros (HT & Hw & _)%type_okb_ok Hs Hi. pose proof (n_pos T HT) as Hn. pose proof HT as (Hn3 & _).
  destruct (lor_3 (t_bits T) seed ltac:(lia) Hs) as [L1 L2]. unfold init_state. destruct (t_stream T) eqn:Es; cbn [is_mcg];
    (split; [|by rewrite Es]); try (rewrite state_upd; apply lcg_word; lia); rewrite state_upd; done.
Qed.
Lemma engine_new_ok T seed : type_okb T = true → is_word (t_bits T) seed → engine_ok T (engine_new T seed).
Proof. intros HT Hs. apply init_state_ok; [done|done|]. by apply type_okb_ok in HT as (_ & _ & _ & _ & Ho). Qed.
Lemma engine_new_stream_ok T seed stream : type_okb T = true → is_word (t_bits T) seed → engine_ok T (engine_new_stream T seed stream).
Proof. intros HT Hs. apply init_state_ok; [done|done|]. apply odd_lor_1. Qed.

Lemma predefined_okb this T : T ∈ predefined_types this → type_okb T = true.
Proof. apply Forall_okb. vm_compute. reflexivity. Qed.

Lemma family_Forall streams mixin sizes (Q : engine_type → Prop) :
  (∀ s x i, (x, i) ∈ sizes → Q (base s x i mixin) ∧ Q (cm_base s x i mixin)) → Forall Q (family streams mixin sizes).
Proof.
  intros H. unfold family. apply Forall_bind, Forall_forall. intros s _. unfold sized. apply Forall_app. split.
  - apply Forall_fmap, Forall_forall. intros [x i] Hx. by apply H.
  - destruct (last sizes) as [[x i]|] eqn:E; [|constructor]. constructor; [|constructor]. apply H.
    apply last_Some_elem_of in E. done.
Qed.

Lemma xsl_rr_rr_word b s : 0 < b → is_word b (xsl_rr_rr b s).
Proof.
  intros Hb. unfold xsl_rr_rr. cbn zeta. apply lxor_word; [lia|apply wrap_is_word; lia|].
  assert (0 ≤ htypebits b ≤ b) as Hh by (unfold htypebits; split; [apply Z.div_pos; lia|apply Z.div_le_upper_bound; lia]).
  match goal with |- is_word b (rotr _ ?v ?r) => destruct (rot_word (htypebits b) v r) as [[W0 W1] _]; [lia|] end. split; [done|].
  eapply Z.lt_le_trans; [exact W1|]. apply Z.pow_le_mono_r; lia.
Qed.

Lemma predefined_outputs this T s : T ∈ predefined_types this → is_word (t_xbits T) (t_output T s).
Proof.
  assert (Forall (λ T, ∀ s, is_word (t_xbits T) (t_output T s)) (predefined_types this)) as H.
  { assert (∀ sizes : list (Z * Z), forallb (λ '(x, i), (0 <? x) && (0 <? i)) sizes = true → ∀ x i, (x, i) ∈ sizes → 0 < x ∧ 0 < i) as Hpos.
    { intros sizes Hf x i Hx%list_elem_of_In. rewrite forallb_forall in Hf. specialize (Hf _ Hx). cbn in Hf.
      by rewrite andb_true_iff, !Z.ltb_lt in Hf. }
    unfold predefined_types. rewrite !Forall_app. split_and!; apply family_Forall; intros st x i Hx; cbn [base cm_base t_xbits t_output].
    all: try (apply Hpos in Hx as [Hx Hi]; [|done]; split; intros s'; apply (outputs_word x i s' Hx Hi)).
    rewrite !elem_of_cons, elem_of_nil in Hx. destruct Hx as [[= -> ->]|[[= -> ->]|[]]]; split; intros s'; by apply xsl_rr_rr_word. }
  intros HT. rewrite Forall_forall in H. by apply H.
Qed.

(** Every engine type the header defines meets what the theorems on
    engines ask, whatever the address of a [unique_stream] object: its
    outputs fit their type, and each constructor gives a well-formed engine, so
    that it has the full period and can be jumped, compared and printed. *)
Theorem predefined_engines this T seed stream s :
  T ∈ predefined_types this → is_word (t_bits T) seed →
  type_ok T ∧ int_width (t_bits T) ∧ is_word (t_bits T) (t_multiplier T) ∧ is_word (t_xbits T) (t_output T s) ∧
  engine_ok T (engine_new T seed) ∧ engine_ok T (engine_new_stream T seed stream).
Proof.
  intros HT Hs. pose proof (predefined_okb this T HT) as Hb. pose proof (type_okb_ok T Hb) as (H1 & H2 & _ & H3 & _).
  split_and!; try done; [by apply (predefined_outputs this)|by apply engine_new_ok|by apply engine_new_stream_ok].
Qed.
Lemma predefined_engines_witness : engine_ok pcg32 (engine_new_stream pcg32 1 2).
Proof.
  apply (predefined_engines 0 pcg32 1 2 0); [|done]. by apply list_elem_of_lookup_2 with 32%nat.
Defined.

(** ** Extended generators *)

Lemma oneseq_rxs_ok n :
  int_width n → type_okb (base oneseq_stream n n rxs_m_xs) = true.
Proof. by intros [-> | [-> | [-> | [-> | ->]]]]. Qed.

Lemma ext_std_ok n t a B kdd :
  int_width n → type_okb B = true → t_xbits B = n → (∀ s, is_word n (t_output B s)) → 0 ≤ t < t_bits B → 0 ≤ a →
  (if is_mcg (t_stream B) then a + 2 ≤ t_bits B ∨ 64 ≤ a else True) → ext_type_ok (ext_std n t a B kdd).
Proof.
  intros Hn HB Hx Ho Ht Ha Htick. destruct (int_width_pos n Hn) as [Hpos _]. split; try done.
  - by apply type_okb_ok.
  - cbn. by rewrite Hx.
  - by apply type_okb_ok, oneseq_rxs_ok.
  - intros s. by apply outputs_word.
  - intros r Hr. by apply unoutput_total.
  - cbn [ext_std x_base]. destruct (is_mcg (t_stream B)); [|done]. unfold may_tick, tick_limit_pow2. cbn [ext_std x_base x_advance_pow2].
    rewrite andb_true_iff, !Z.ltb_lt. lia.
Qed.

Lemma xsh_rs_word s : is_word 32 (xsh_rs 32 64 s).
Proof. by apply (outputs_word 32 64 s). Qed.
Lemma xsh_rr_word s : is_word 32 (xsh_rr 32 64 s).
Proof. by apply (outputs_word 32 64 s). Qed.
Lemma xsl_rr_word s : is_word 64 (xsl_rr 64 128 s).
Proof. by apply (outputs_word 64 128 s). Qed.

(** The template instances of the header's extended generators. *)
Lemma ext_base_ok n i mixin st t a kdd :
  (n = 32 ∧ i = 64) ∨ (n = 64 ∧ i = 128) → (∀ s, is_word n (mixin n i s)) → 0 ≤ t < i → 0 ≤ a →
  (if is_mcg st then a + 2 ≤ i ∨ 64 ≤ a else True) → ext_type_ok (ext_std n t a (base st n i mixin) kdd).
Proof.
  intros Hni Hw Ht Ha Hm. apply ext_std_ok; try done.
  - unfold int_width. lia.
  - destruct Hni as [[-> ->]|[-> ->]]; reflexivity.
Qed.

Lemma extended_types_ok name X : (name, X) ∈ extended_types → ext_type_ok X.
Proof.
  intros HX. assert (Forall (λ p, ext_type_ok (snd p)) extended_types) as H; [|rewrite Forall_forall in H; by apply (H _ HX)].
  unfold extended_types, ext_mcg_xsh_rs_64_32, ext_oneseq_xsh_rs_64_32, ext_setseq_xsh_rr_64_32, ext_mcg_xsl_rr_128_64,
    ext_oneseq_xsl_rr_128_64, ext_setseq_xsl_rr_128_64.
  repeat (apply Forall_cons; split); [..|by apply Forall_nil]; cbn [snd];
    (apply ext_base_ok; [by auto|lazymatch goal with |- context [xsh_rs] => exact xsh_rs_word | |- context [xsh_rr] => exact xsh_rr_word
      | |- _ => exact xsl_rr_word end|lia|lia|cbn [is_mcg]; lia]).
Qed.

Section fresh.
Variable X : extended_type.
Hypothesis X_ok : ext_type_ok X.

Lemma draw_word e : is_word (t_bits (io_type (x_ext X))) (fst (draw (x_base X) e)).
Proof.
  rewrite <- (xt_width X X_ok). unfold draw. destruct (if t_previous (x_base X) then _ else _) as [s0 e0]. apply (xt_draw X X_ok).
Qed.

Lemma base_draws_ok k e :
  engine_ok (x_base X) e →
  let '(xs, e') := base_draws X k e in
  engine_ok (x_base X) e' ∧ length xs = k ∧ Forall (is_word (t_bits (io_type (x_ext X)))) xs.
Proof.
  revert e. induction k as [|k IH]; intros e He; cbn [base_draws]; [by split_and!|].
  pose proof (draw_ok X X_ok e He) as He'. pose proof (draw_word e) as Hw. destruct (draw (x_base X) e) as [x e1]. cbn [fst snd] in *.
  specialize (IH e1 He'). destruct (base_draws X k e1) as [xs e2]. destruct IH as (H1 & H2 & H3). split_and!; [done|cbn; lia|by constructor].
Qed.

Lemma selfinit_ok e : engine_ok (x_base X) e → ext_ok X (selfinit X e).
Proof.
  intros He. unfold selfinit. pose proof (draw_ok X X_ok e He) as He1. destruct (draw (x_base X) e) as [l e1]. cbn [snd] in *.
  pose proof (draw_ok X X_ok e1 He1) as He2. destruct (draw (x_base X) e1) as [r e2]. cbn [snd] in *.
  pose proof (base_draws_ok (table_size X) e2 He2) as H. destruct (base_draws X (table_size X) e2) as [xs e3]. destruct H as (H1 & H2 & H3).
  pose proof (n_pos _ (xt_ext X X_ok)). split_and!; [done|cbn; by rewrite length_fmap|]. cbn [data_]. apply Forall_fmap.
  eapply Forall_impl; [exact H3|]. intros x Hx. apply lxor_word; [lia|done|]. rewrite <- (xt_width X X_ok). apply wrap_is_word.
  rewrite (xt_width X X_ok). lia.
Qed.
End fresh.

(** C37: the extended generators the header defines never index outside their
    table, never fail an assertion and never loop: from a well-formed state, of
    which a fresh generator is one, a draw, setting the next output, an advance
    and a step back all succeed and leave a well-formed state, and the base
    engine moves exactly as it would without the table. *)
Theorem extended_safe name X r wanted d :
  (name, X) ∈ extended_types → ext_ok X r → is_word (t_bits (io_type (x_ext X))) wanted → is_word (t_bits (x_base X)) d →
  (∃ x r', ext_draw X r = Some (x, r') ∧ is_word (t_bits (io_type (x_ext X))) x ∧ ext_ok X r' ∧
     x_engine r' = snd (draw (x_base X) (x_engine r))) ∧
  (∃ i r', ext_set X wanted r = Some r' ∧ ext_ok X r' ∧ x_engine r' = snd (draw (x_base X) (x_engine r)) ∧
     data_ r' !! i = Some (fst (draw (x_base X) (x_engine r)) ^^^ wanted)) ∧
  (∃ r', ext_advance X d true r = Some r' ∧ ext_ok X r' ∧ x_engine r' = engine_advance (x_base X) d (x_engine r)) ∧
  (∃ r', ext_backstep X d r = Some r' ∧ ext_ok X r' ∧ x_engine r' = backstep (x_base X) d (x_engine r)) ∧
  ∀ e, engine_ok (x_base X) e → ext_ok X (selfinit X e).
Proof.
  intros HX%extended_types_ok Hr Hw Hd. split_and!.
  - by apply ext_draw_total.
  - by apply ext_set_total.
  - by apply (ext_advance_total X HX d true r).
  - by apply (ext_advance_total X HX d false r).
  - intros e He. by apply selfinit_ok.
Qed.
Lemma extended_safe_witness :
  ∃ x r', ext_draw (ext_setseq_xsh_rr_64_32 1 16 true) (Extended (engine_new pcg32 1) [3; 4]) = Some (x, r').
Proof.
  destruct (extended_safe "pcg32_k2" (ext_setseq_xsh_rr_64_32 1 16 true) (Extended (engine_new pcg32 1) [3; 4]) 0 0) as [(x & r' & E & _) _].
  - by left.
  - split_and!; [vm_compute; split; [split; [discriminate|reflexivity]|reflexivity]|reflexivity|repeat constructor; done].
  - done.
  - done.
  - by exists x, r'.
Defined.

(** ** Where advancing and drawing disagree *)

Definition ext8 : extended_type := ext_std 8 1 8 (base oneseq_stream 8 8 rxs_m_xs) true.

(** A table entry that is already zero counts as crossing zero: advancing the
    table by one is then not the step the draws make. *)
Lemma advance_table_zero_entry :
  data_ <$> advance_table ext8 (Extended (Engine 1 0) [0; 9]) = Some [87; 254] ∧
  data_ <$> advance_table_by ext8 1 true (Extended (Engine 1 0) [0; 9]) = Some [87; 185].
Proof. vm_compute. split; reflexivity. Qed.

(** With states of fewer than 64 bits, advancing by nothing from state zero
    already steps the table. *)
Lemma advance_nothing_tocks : data_ <$> ext_advance ext8 0 true (Extended (Engine 0 0) [5; 9]) ≠ Some [5; 9].
Proof. vm_compute. discriminate. Qed.
