(* ===== verification/CosimUtil.v ===== *)
(** * CosimUtil: helpers of the co-simulation part
      (src/cosim/utils/general/util.cc)

    String splitting, opcode predicates, and the generator of instruction
    sequences that load a constant into a register, which is checked against
    the RISC-V semantics of the instructions it emits.  [exec], which runs a
    shell command, is not modelled. *)

From Stdlib Require Import Ascii.
From Stdlib Require String.
From S2P Require Import Prelude Cstd.

#[local] Open Scope string_scope.
#[local] Open Scope list_scope.
#[local] Open Scope Z_scope.

(** ** Strings *)

(** [rtrim] *)
Fixpoint rtrim (s : string) : string :=
  match s with
  | EmptyString => EmptyString
  | String c s =>
      match rtrim s with
      | EmptyString => if is_space c then EmptyString else String c EmptyString
      | s => String c s
      end
  end.

(** [if (!word.empty() && word.back() == ',') word.pop_back()] *)
Fixpoint drop_comma (s : string) : string :=
  match s with
  | EmptyString => EmptyString
  | String c EmptyString => if Ascii.eqb c "," then EmptyString else s
  | String c s => String c (drop_comma s)
  end.

(** [None]: fewer than [n] words. *)
Fixpoint nth_word (n : nat) (word s : string) : option string :=
  match n with
  | O => Some word
  | S n => match read_word s with (Some w, rest) => nth_word n w rest | (None, _) => None end
  end.
Definition get_nth_word (s : string) (n : nat) : string :=
  match nth_word n EmptyString s with Some w => drop_comma w | None => EmptyString end.

(** One iteration per occurrence of the delimiter. *)
Fixpoint split_from (fuel : nat) (delimiter input : string) (start : nat) : list string :=
  match fuel with
  | O => []
  | S fuel =>
      match String.index start delimiter input with
      | Some e =>
          String.substring start (e - start) input ::
            split_from fuel delimiter input (e + String.length delimiter)
      | None => [String.substring start (String.length input - start) input]
      end
  end.
Definition split_string (input delimiter : string) : list string :=
  split_from (S (String.length input)) delimiter input 0.

(** A character that is no digit reads as 0 (white space excepted, which leaves
    the number uninitialised in C++). *)
Definition hex_nibble (c : ascii) : Z :=
  match digit_val c with Some d => if d <? 16 then d else 0 | None => 0 end.
Definition binary_nibble (n : Z) : string :=
  foldr (λ i s, String (if Z.testbit n i then "1" else "0")%char s) EmptyString [3; 2; 1; 0].
Fixpoint hex_string_to_binary_string (hex : string) : string :=
  match hex with
  | EmptyString => EmptyString
  | String c hex => binary_nibble (hex_nibble c) +:+ hex_string_to_binary_string hex
  end.

Definition has_substring (vec : list string) (sub : string) : bool :=
  existsb (λ s, match String.index 0 sub s with Some _ => true | None => false end) vec.

(** ** Opcodes *)

(** [Some csr_addr] for a CSR instruction. *)
Definition is_csr_opcode (opcode : Z) : option Z :=
  if negb (opcode &&& 0x7f =? 0x73) then None
  else
    let funct3 := (opcode ≫ 12) &&& 7 in
    if (funct3 =? 0) || (funct3 =? 4) then None else Some ((opcode ≫ 20) &&& 0xfff).

Definition is_xret_opcode (opcode : Z) : bool :=
  (opcode =? 0x30200073) || (opcode =? 0x10200073) || (opcode =? 0x70200073).

Definition lui_opcode : Z := 0x37.
Definition op_imm_opcode : Z := 0x13.
Definition or_opcode : Z := 0x33.
Definition addw_opcode : Z := 0x1b.

(** The low or high 32 bits into register [r], bits above as sign. *)
Definition move_word (value r tmp : Z) : list Z :=
  u32 (lui_opcode + (r ≪ 7) + (((value &&& 0xfffff000) ≫ 12) ≪ 12)) ::
  if negb (value &&& 0x800 =? 0) then
    [ u32 (lui_opcode + (tmp ≪ 7) + 0x1000);
      u32 (addw_opcode + (tmp ≪ 7) + (tmp ≪ 15) + u64 (((value &&& 0xfff) - 0x1000) ≪ 20));
      u32 (or_opcode + (r ≪ 7) + (6 ≪ 12) + (tmp ≪ 15) + (r ≪ 20)) ]
  else [ u32 (op_imm_opcode + (r ≪ 7) + (6 ≪ 12) + (r ≪ 15) + ((value &&& 0xfff) ≪ 20)) ].

Definition slli32 (r : Z) : Z := u32 (op_imm_opcode + (r ≪ 7) + (1 ≪ 12) + (r ≪ 15) + (32 ≪ 20)).
Definition srli32 (r : Z) : Z := u32 (op_imm_opcode + (r ≪ 7) + (5 ≪ 12) + (r ≪ 15) + (32 ≪ 20)).

Definition opcode_move_value_to_register (value rd temp_gpr2 temp_gpr3 : Z) : list Z :=
  move_word value rd temp_gpr3 ++
  (if negb (value &&& 0x80000000 =? 0) then [slli32 rd; srli32 rd] else []) ++
  (if 0xffffffff <? value then
     move_word (value ≫ 32) temp_gpr2 temp_gpr3 ++
     [ slli32 temp_gpr2; u32 (or_opcode + (rd ≪ 7) + (6 ≪ 12) + (temp_gpr2 ≪ 15) + (rd ≪ 20)) ]
   else []).

(** ** RISC-V semantics of the instructions used *)

Definition sext (n x : Z) : Z := if 2 ^ (n - 1) <=? x then x - 2 ^ n else x.
Definition set_reg (rd v : Z) (r : Z → Z) : Z → Z :=
  λ i, if negb (rd =? 0) && (i =? rd) then v else r i.

Definition rv_exec (op : Z) (r : Z → Z) : option (Z → Z) :=
  let opc := op mod 128 in
  let rd := (op / 2 ^ 7) mod 32 in
  let funct3 := (op / 2 ^ 12) mod 8 in
  let rs1 := (op / 2 ^ 15) mod 32 in
  let rs2 := (op / 2 ^ 20) mod 32 in
  let imm := (op / 2 ^ 20) mod 4096 in
  if opc =? 0x37 then Some (set_reg rd (u64 (sext 32 (op - op mod 4096))) r)                    (* lui *)
  else if (opc =? 0x1b) && (funct3 =? 0) then
    Some (set_reg rd (u64 (sext 32 (u32 (r rs1 + sext 12 imm)))) r)                            (* addiw *)
  else if (opc =? 0x13) && (funct3 =? 6) then Some (set_reg rd (r rs1 ||| u64 (sext 12 imm)) r)   (* ori *)
  else if (opc =? 0x13) && (funct3 =? 1) && (imm / 64 =? 0) then
    Some (set_reg rd (u64 (r rs1 ≪ (imm mod 64))) r)                                           (* slli *)
  else if (opc =? 0x13) && (funct3 =? 5) && (imm / 64 =? 0) then
    Some (set_reg rd (r rs1 ≫ (imm mod 64)) r)                                                 (* srli *)
  else if (opc =? 0x33) && (funct3 =? 6) && (imm / 32 =? 0) then
    Some (set_reg rd (r rs1 ||| r rs2) r)                                                      (* or *)
  else None.

Fixpoint rv_run (ops : list Z) (r : Z → Z) : option (Z → Z) :=
  match ops with
  | [] => Some r
  | op :: ops => r ← rv_exec op r; rv_run ops r
  end.

Lemma rv_run_app a b r : rv_run (a ++ b) r = r ← rv_run a r; rv_run b r.
Proof. revert r. induction a as [|op a IH]; intros r; [done|]. cbn [app rv_run]. destruct (rv_exec op r); [apply IH|done]. Qed.

(** An instruction from its fields. *)
Definition enc (opc rd funct3 rs1 imm : Z) : Z :=
  opc + rd * 2 ^ 7 + funct3 * 2 ^ 12 + rs1 * 2 ^ 15 + imm * 2 ^ 20.

Definition is_reg (r : Z) : Prop := 0 ≤ r < 32.

Lemma field_eq x k m lo f hi :
  0 < k → 0 ≤ lo < k → 0 ≤ f < m → x = lo + (f + hi * m) * k → (x / k) mod m = f.
Proof.
  intros Hk Hlo Hf ->. rewrite Z.div_add, Z.div_small by lia. rewrite Z.add_0_l, Z.mod_add by lia. by apply Z.mod_small.
Qed.

Lemma enc_fields opc rd f3 rs1 imm :
  0 ≤ opc < 128 → is_reg rd → 0 ≤ f3 < 8 → is_reg rs1 → 0 ≤ imm < 4096 →
  enc opc rd f3 rs1 imm mod 128 = opc ∧ (enc opc rd f3 rs1 imm / 2 ^ 7) mod 32 = rd ∧
  (enc opc rd f3 rs1 imm / 2 ^ 12) mod 8 = f3 ∧ (enc opc rd f3 rs1 imm / 2 ^ 15) mod 32 = rs1 ∧
  (enc opc rd f3 rs1 imm / 2 ^ 20) mod 4096 = imm ∧ (enc opc rd f3 rs1 imm / 2 ^ 20) mod 32 = imm mod 32 ∧
  is_u32 (enc opc rd f3 rs1 imm).
Proof.
  unfold is_reg. intros. split_and!.
  - rewrite <- (Z.div_1_r (enc _ _ _ _ _)).
    apply (field_eq _ 1 128 0 opc (rd + f3 * 32 + rs1 * 256 + imm * 8192)); unfold enc; lia.
  - apply (field_eq _ (2 ^ 7) 32 opc rd (f3 + rs1 * 8 + imm * 256)); unfold enc; lia.
  - apply (field_eq _ (2 ^ 12) 8 (opc + rd * 128) f3 (rs1 + imm * 32)); unfold enc; lia.
  - apply (field_eq _ (2 ^ 15) 32 (opc + rd * 128 + f3 * 4096) rs1 imm); unfold enc; lia.
  - apply (field_eq _ (2 ^ 20) 4096 (opc + rd * 128 + f3 * 4096 + rs1 * 2 ^ 15) imm 0); unfold enc; lia.
  - pose proof (Z.div_mod imm 32). pose proof (Z.mod_pos_bound imm 32).
    apply (field_eq _ (2 ^ 20) 32 (opc + rd * 128 + f3 * 4096 + rs1 * 2 ^ 15) (imm mod 32) (imm / 32)); unfold enc; lia.
  - unfold is_u32, enc. lia.
Qed.

Lemma exec_i opc rd f3 rs1 imm r :
  0 ≤ opc < 128 → is_reg rd → 0 ≤ f3 < 8 → is_reg rs1 → 0 ≤ imm < 4096 → opc ≠ 0x37 →
  rv_exec (u32 (enc opc rd f3 rs1 imm)) r =
  if (opc =? 0x1b) && (f3 =? 0) then Some (set_reg rd (u64 (sext 32 (u32 (r rs1 + sext 12 imm)))) r)
  else if (opc =? 0x13) && (f3 =? 6) then Some (set_reg rd (r rs1 ||| u64 (sext 12 imm)) r)
  else if (opc =? 0x13) && (f3 =? 1) && (imm / 64 =? 0) then Some (set_reg rd (u64 (r rs1 ≪ (imm mod 64))) r)
  else if (opc =? 0x13) && (f3 =? 5) && (imm / 64 =? 0) then Some (set_reg rd (r rs1 ≫ (imm mod 64)) r)
  else if (opc =? 0x33) && (f3 =? 6) && (imm / 32 =? 0) then Some (set_reg rd (r rs1 ||| r (imm mod 32)) r)
  else None.
Proof.
  intros Ho Hd Hf Hs Hi Hne. destruct (enc_fields opc rd f3 rs1 imm) as (E1 & E2 & E3 & E4 & E5 & E6 & E7); [done..|].
  rewrite u32_small by done. unfold rv_exec. rewrite E1, E2, E3, E4, E5, E6. by rewrite (proj2 (Z.eqb_neq _ _) Hne).
Qed.

Lemma exec_lui rd hi r :
  is_reg rd → 0 ≤ hi < 2 ^ 20 →
  rv_exec (u32 (0x37 + rd * 2 ^ 7 + hi * 2 ^ 12)) r = Some (set_reg rd (u64 (sext 32 (hi * 2 ^ 12))) r).
Proof.
  unfold is_reg. intros Hd Hh. rewrite u32_small by (unfold is_u32; lia). unfold rv_exec.
  assert ((0x37 + rd * 2 ^ 7 + hi * 2 ^ 12) mod 128 = 0x37) as ->.
  { rewrite <- (Z.div_1_r (_ + _)). apply (field_eq _ 1 128 0 0x37 (rd + hi * 32)); lia. }
  rewrite (field_eq _ (2 ^ 7) 32 0x37 rd hi) by lia.
  assert ((0x37 + rd * 2 ^ 7 + hi * 2 ^ 12) mod 4096 = 0x37 + rd * 2 ^ 7) as ->.
  { rewrite <- (Z.div_1_r (_ + _)). apply (field_eq _ 1 4096 0 _ hi); lia. }
  cbn [Z.eqb Pos.eqb]. do 4 f_equal. lia.
Qed.

(** ** The generated code *)

Lemma land_pow2_test v k : 0 ≤ k → (v &&& 2 ^ k =? 0) = (v mod 2 ^ (k + 1) <? 2 ^ k).
Proof.
  intros Hk. pose proof (Z.mod_pos_bound v (2 ^ (k + 1))). rewrite Z.pow_add_r in * by lia.
  assert (v mod (2 ^ k * 2 ^ 1) = v mod 2 ^ k + 2 ^ k * Z.b2z (Z.testbit v k)) as E.
  { rewrite Z.rem_mul_r by lia. rewrite Z.testbit_spec' by lia. done. }
  rewrite E. pose proof (Z.mod_pos_bound v (2 ^ k)).
  assert (v &&& 2 ^ k = 2 ^ k * Z.b2z (Z.testbit v k)) as ->.
  { apply Z.bits_inj'. intros i Hi. rewrite Z.land_spec, Z.pow2_bits_eqb by lia.
    destruct (Z.testbit v k) eqn:Eb; cbn [Z.b2z].
    - rewrite Z.mul_1_r, Z.pow2_bits_eqb by lia. destruct (Z.eqb_spec k i) as [<-|]; [by rewrite Eb|apply andb_false_r].
    - rewrite Z.mul_0_r, Z.bits_0. destruct (Z.eqb_spec k i) as [<-|]; [by rewrite Eb|apply andb_false_r]. }
  destruct (Z.testbit v k); cbn [Z.b2z]; [rewrite (proj2 (Z.eqb_neq _ _)), (proj2 (Z.ltb_ge _ _)); lia|].
  rewrite (proj2 (Z.eqb_eq _ _)), (proj2 (Z.ltb_lt _ _)); lia.
Qed.

Lemma hi20 v : (v &&& 0xfffff000) ≫ 12 = (v / 2 ^ 12) mod 2 ^ 20.
Proof.
  change 0xfffff000 with (Z.ones 20 ≪ 12). rewrite Z.shiftr_land, Z.shiftr_shiftl_l, Z.sub_diag, Z.shiftl_0_r by lia.
  by rewrite Z.land_ones, Z.shiftr_div_pow2 by lia.
Qed.

Lemma lo12 v : v &&& 0xfff = v mod 2 ^ 12.
Proof. change 0xfff with (Z.ones 12). by rewrite Z.land_ones by lia. Qed.

(** A constant from its upper 20 and lower 12 bits. *)
Lemma join_word v :
  u64 (sext 32 ((v / 2 ^ 12) mod 2 ^ 20 * 2 ^ 12)) ||| (v mod 2 ^ 12) = u64 (sext 32 (v mod 2 ^ 32)).
Proof.
  assert (v mod 2 ^ 32 = v mod 2 ^ 12 + (v / 2 ^ 12) mod 2 ^ 20 * 2 ^ 12) as ->.
  { change (2 ^ 32) with (2 ^ 12 * 2 ^ 20). rewrite Z.rem_mul_r by lia. lia. }
  pose proof (Z.mod_pos_bound v (2 ^ 12)). pose proof (Z.mod_pos_bound (v / 2 ^ 12) (2 ^ 20)).
  set (l := v mod 2 ^ 12) in *. set (h := (v / 2 ^ 12) mod 2 ^ 20) in *. clearbody l h.
  rewrite Z.lor_comm. unfold sext, u64.
  assert (∀ x, 0 ≤ x → l ||| (x * 2 ^ 12) = l + x * 2 ^ 12) as Hor.
  { intros x Hx. rewrite <- lor_shiftl_add by lia. by rewrite Z.shiftl_mul_pow2 by lia. }
  change (2 ^ (32 - 1)) with (2 ^ 31).
  destruct (Z.leb_spec (2 ^ 31) (h * 2 ^ 12)).
  - rewrite (proj2 (Z.leb_le _ _)) by lia.
    rewrite <- (Z.mod_add (h * 2 ^ 12 - 2 ^ 32) 1) by lia. rewrite Z.mod_small by lia.
    rewrite <- (Z.mod_add (l + h * 2 ^ 12 - 2 ^ 32) 1) by lia. rewrite (Z.mod_small (l + _ - _ + _)) by lia.
    replace (h * 2 ^ 12 - 2 ^ 32 + 1 * 2 ^ 64) with ((h + (2 ^ 52 - 2 ^ 20)) * 2 ^ 12) by lia. rewrite Hor by lia. lia.
  - rewrite (proj2 (Z.leb_gt _ _)) by lia. rewrite !Z.mod_small by lia. apply Hor. lia.
Qed.

Definition word_in (v r tmp : Z) (x x' : Z → Z) : Prop :=
  x' r = u64 (sext 32 (v mod 2 ^ 32)) ∧ ∀ i, i ≠ r → i ≠ tmp → x' i = x i.

Lemma set_reg_eq rd v x : rd ≠ 0 → set_reg rd v x rd = v.
Proof. intros. unfold set_reg. by rewrite Z.eqb_refl, (proj2 (Z.eqb_neq rd 0)). Qed.
Lemma set_reg_ne rd v x i : i ≠ rd → set_reg rd v x i = x i.
Proof. intros. unfold set_reg. by rewrite (proj2 (Z.eqb_neq i rd)), andb_false_r. Qed.

Lemma sext_low n x : x < 2 ^ (n - 1) → sext n x = x.
Proof. intros. unfold sext. by rewrite (proj2 (Z.leb_gt _ _)) by lia. Qed.
Lemma sext_high n x : 2 ^ (n - 1) ≤ x → sext n x = x - 2 ^ n.
Proof. intros. unfold sext. by rewrite (proj2 (Z.leb_le _ _)) by lia. Qed.

Lemma move_word_correct v r tmp x :
  is_reg r → is_reg tmp → r ≠ 0 → tmp ≠ 0 → r ≠ tmp →
  ∃ x', rv_run (move_word v r tmp) x = Some x' ∧ word_in v r tmp x x'.
Proof.
  intros Hr Ht Hr0 Ht0 Hne. unfold move_word. rewrite lo12, hi20, !Z.shiftl_mul_pow2 by lia.
  pose proof (Z.mod_pos_bound v (2 ^ 12)) as Hl. pose proof (Z.mod_pos_bound (v / 2 ^ 12) (2 ^ 20)) as Hh.
  change 0x800 with (2 ^ 11). rewrite land_pow2_test by lia. change (11 + 1) with 12.
  cbn [rv_run]. rewrite exec_lui by (done || lia). cbn [mbind option_bind].
  destruct (Z.ltb_spec (v mod 2 ^ 12) (2 ^ 11)) as [Hlo|Hlo]; cbn [negb rv_run].
  - replace (op_imm_opcode + _ + _ + _ + _) with (enc 0x13 r 6 r (v mod 2 ^ 12)) by (unfold enc, op_imm_opcode; lia).
    rewrite exec_i by (done || lia). cbn -[Z.pow set_reg sext u64]. eexists. split; [done|]. split.
    + rewrite !set_reg_eq by done. rewrite (sext_low 12) by (change (12 - 1) with 11; lia).
      rewrite (u64_small (v mod 2 ^ 12)) by (unfold is_u64; lia). apply join_word.
    + intros i Hi _. by rewrite !set_reg_ne.
  - change (lui_opcode + tmp * 2 ^ 7 + 4096) with (0x37 + tmp * 2 ^ 7 + 1 * 2 ^ 12).
    rewrite exec_lui by (done || lia). cbn [mbind option_bind].
    assert (u32 (addw_opcode + tmp * 2 ^ 7 + tmp * 2 ^ 15 + u64 ((v mod 2 ^ 12 - 0x1000) * 2 ^ 20)) =
            u32 (enc 0x1b tmp 0 tmp (v mod 2 ^ 12))) as ->.
    { unfold u32, u64, enc, addw_opcode. rewrite <- Z.add_mod_idemp_r by lia. rewrite Z.mod_mod_divide by (by exists (2 ^ 32)).
      rewrite Z.add_mod_idemp_r by lia. rewrite <- (Z.mod_add _ 1 (2 ^ 32)) by lia. f_equal. lia. }
    rewrite exec_i by (done || lia). cbn -[Z.pow set_reg sext u64 u32 Z.mul rv_exec].
    replace (or_opcode + _ + _ + _ + _) with (enc 0x33 r 6 tmp r) by (unfold enc, or_opcode; lia).
    unfold is_reg in Hr. rewrite exec_i by (done || unfold is_reg; lia).
    rewrite (Z.div_small r 32), (Z.mod_small r 32) by lia. cbn -[Z.pow set_reg sext u64 u32 Z.mul].
    eexists. split; [done|]. split.
    + rewrite set_reg_eq by done. rewrite set_reg_eq by done.
      rewrite (set_reg_ne tmp _ _ r) by done. rewrite (set_reg_ne tmp _ _ r) by done. rewrite set_reg_eq by done.
      rewrite set_reg_eq by done. rewrite (sext_high 12) by (change (12 - 1) with 11; lia).
      change (u64 (sext 32 (1 * 2 ^ 12))) with 0x1000. replace (0x1000 + (v mod 2 ^ 12 - 2 ^ 12)) with (v mod 2 ^ 12) by lia.
      rewrite (u32_small (v mod 2 ^ 12)) by (unfold is_u32; lia). rewrite (sext_low 32 (v mod _)) by (change (32 - 1) with 31; lia).
      rewrite (u64_small (v mod 2 ^ 12)) by (unfold is_u64; lia). rewrite Z.lor_comm. apply join_word.
    + intros i Hi Hi'. by rewrite !set_reg_ne.
Qed.

(** A sign-extended word, shifted left by 32. *)
Lemma shifted_word v : u64 (u64 (sext 32 (v mod 2 ^ 32)) ≪ 32) = (v mod 2 ^ 32) ≪ 32.
Proof.
  pose proof (Z.mod_pos_bound v (2 ^ 32)). set (w := v mod 2 ^ 32) in *. clearbody w.
  rewrite !Z.shiftl_mul_pow2 by lia. unfold u64, sext.
  assert (∀ k, ((w + k * 2 ^ 32) mod 2 ^ 64 * 2 ^ 32) mod 2 ^ 64 = w * 2 ^ 32) as E.
  { intros k. rewrite Z.mul_mod_idemp_l by lia. replace ((w + k * 2 ^ 32) * 2 ^ 32) with (w * 2 ^ 32 + k * 2 ^ 64) by lia.
    rewrite Z.mod_add by lia. apply Z.mod_small. lia. }
  destruct (2 ^ (32 - 1) <=? w).
  - replace (w - 2 ^ 32) with (w + -1 * 2 ^ 32) by lia. apply E.
  - replace w with (w + 0 * 2 ^ 32) at 1 by lia. apply E.
Qed.

Lemma exec_slli32 r x : is_reg r → rv_exec (slli32 r) x = Some (set_reg r (u64 (x r ≪ 32)) x).
Proof.
  intros Hr. assert (slli32 r = u32 (enc 0x13 r 1 r 32)) as ->.
  { unfold slli32. rewrite !Z.shiftl_mul_pow2 by lia. done. }
  by rewrite exec_i by (done || lia).
Qed.
Lemma exec_srli32 r x : is_reg r → rv_exec (srli32 r) x = Some (set_reg r (x r ≫ 32) x).
Proof.
  intros Hr. assert (srli32 r = u32 (enc 0x13 r 5 r 32)) as ->.
  { unfold srli32. rewrite !Z.shiftl_mul_pow2 by lia. done. }
  by rewrite exec_i by (done || lia).
Qed.
Lemma exec_or rd rs x :
  is_reg rd → is_reg rs →
  rv_exec (u32 (or_opcode + (rd ≪ 7) + (6 ≪ 12) + (rs ≪ 15) + (rd ≪ 20))) x = Some (set_reg rd (x rs ||| x rd) x).
Proof.
  intros Hd Hs. rewrite !Z.shiftl_mul_pow2 by lia. unfold is_reg in Hd.
  replace (or_opcode + _ + _ + _ + _) with (enc 0x33 rd 6 rs rd) by (unfold enc, or_opcode; lia).
  rewrite exec_i by (done || unfold is_reg; lia). by rewrite (Z.div_small rd 32), (Z.mod_small rd 32) by lia.
Qed.

Lemma low_word v rd tmp x :
  is_reg rd → is_reg tmp → rd ≠ 0 → tmp ≠ 0 → rd ≠ tmp →
  ∃ x', rv_run (move_word v rd tmp ++ (if negb (v &&& 0x80000000 =? 0) then [slli32 rd; srli32 rd] else [])) x = Some x' ∧
    x' rd = v mod 2 ^ 32 ∧ ∀ i, i ≠ rd → i ≠ tmp → x' i = x i.
Proof.
  intros Hr Ht Hr0 Ht0 Hne. destruct (move_word_correct v rd tmp x) as (x1 & E1 & V1 & F1); [done..|].
  rewrite rv_run_app, E1. cbn [mbind option_bind]. change 0x80000000 with (2 ^ 31). rewrite land_pow2_test by lia.
  change (31 + 1) with 32. pose proof (Z.mod_pos_bound v (2 ^ 32)).
  destruct (Z.ltb_spec (v mod 2 ^ 32) (2 ^ 31)); cbn [negb rv_run].
  - eexists. split; [done|]. split; [|done].
    rewrite V1, sext_low, u64_small by (unfold is_u64; change (32 - 1) with 31; lia). done.
  - rewrite exec_slli32 by done. cbn [mbind option_bind]. rewrite exec_srli32 by done. cbn [mbind option_bind].
    eexists. split; [done|]. split; [rewrite !set_reg_eq, V1, shifted_word by done; by rewrite Z.shiftr_shiftl_l, Z.sub_diag, Z.shiftl_0_r by lia|].
    intros i Hi Hi'. rewrite !set_reg_ne by done. by apply F1.
Qed.

(** The generated code is right: run on a RISC-V machine, the instructions
    [opcode_move_value_to_register] emits for a 64-bit constant leave exactly
    that constant in the destination and change no register but the two
    temporaries, for every constant and all distinct registers other than x0. *)
Theorem move_value_correct value rd temp2 temp3 x :
  is_u64 value → is_reg rd → is_reg temp2 → is_reg temp3 → NoDup [0; rd; temp2; temp3] →
  ∃ x', rv_run (opcode_move_value_to_register value rd temp2 temp3) x = Some x' ∧
    x' rd = value ∧ ∀ i, i ≠ rd → i ≠ temp2 → i ≠ temp3 → x' i = x i.
Proof.
  intros Hv Hr H2 H3 Hnd. apply NoDup_cons in Hnd as [H0 [Hn1 [Hn2 _]%NoDup_cons]%NoDup_cons].
  assert (rd ≠ 0 ∧ temp2 ≠ 0 ∧ temp3 ≠ 0 ∧ rd ≠ temp2 ∧ rd ≠ temp3 ∧ temp2 ≠ temp3) as (? & ? & ? & ? & ? & ?)
    by (set_unfold; naive_solver).
  clear H0 Hn1 Hn2. unfold opcode_move_value_to_register. rewrite app_assoc, rv_run_app.
  destruct (low_word value rd temp3 x) as (x1 & E1 & V1 & F1); [done..|]. rewrite E1. cbn [mbind option_bind].
  unfold is_u64 in Hv. destruct (Z.ltb_spec 0xffffffff value) as [Hbig|Hsmall].
  - rewrite rv_run_app. destruct (move_word_correct (value ≫ 32) temp2 temp3 x1) as (x2 & E2 & V2 & F2); [done..|].
    rewrite E2. cbn [mbind option_bind rv_run]. rewrite exec_slli32 by done. cbn [mbind option_bind].
    rewrite exec_or by done. cbn [mbind option_bind]. eexists. split; [done|]. split.
    + rewrite set_reg_eq by done. rewrite set_reg_eq by done. rewrite set_reg_ne by done. rewrite (F2 rd) by done. rewrite V1, V2.
      assert (0 ≤ value / 2 ^ 32 < 2 ^ 32) by (split; [apply Z.div_pos|apply Z.div_lt_upper_bound]; lia).
      rewrite shifted_word, Z.shiftr_div_pow2, (Z.mod_small (value / 2 ^ 32)) by lia.
      pose proof (Z.mod_pos_bound value (2 ^ 32)). pose proof (Z.div_mod value (2 ^ 32)).
      rewrite Z.lor_comm, lor_shiftl_add by lia. lia.
    + intros i ???. rewrite !set_reg_ne by done. rewrite F2 by done. by apply F1.
  - eexists. split; [done|]. split; [rewrite V1; apply Z.mod_small; lia|]. intros i ???. by apply F1.
Qed.

Lemma move_value_correct_witness :
  ∃ x', rv_run (opcode_move_value_to_register 0xdeadbeef80000fff 10 6 7) (λ _, 0) = Some x' ∧
    x' 10 = 0xdeadbeef80000fff ∧ ∀ i, i ≠ 10 → i ≠ 6 → i ≠ 7 → x' i = 0.
Proof.
  apply (move_value_correct 0xdeadbeef80000fff 10 6 7 (λ _, 0)); unfold is_u64, is_reg; [lia..|].
  repeat (apply NoDup_cons; split; [set_solver|]). apply NoDup_nil. done.
Defined.

Example split_string_ex : split_string "0x1000:0x2000:" ":" = ["0x1000"; "0x2000"; EmptyString].
Proof. reflexivity. Qed.
Example get_nth_word_ex : get_nth_word "csrrw x5, mstatus, x6" 3 = "mstatus".
Proof. reflexivity. Qed.
Example hex_binary_ex : hex_string_to_binary_string "a3" = "10100011".
Proof. reflexivity. Qed.
