(* ===== verification/Device.v ===== *)
(** * Device: bus transactions and the device interface

    Models src/common/transactor.h (the transaction records and the
    id-correlated request/response discipline of [transactor::read] and
    [transactor::write]) and src/sysmod/device.h (the device base class: its
    address window and the handlers that answer bus transactions).

    Outputs.  A C++ component acts on the rest of the testbench by signalling
    messages, calling DPI exports and logging errors.  Each handler returns the
    list of these [event]s in the order it issues them.  Informational logging
    (every [cvm::log] below ERROR) has no functional effect and is left out;
    [cvm::log(cvm::ERROR, ...)], which fails the test, is [EvError]. *)

From S2P Require Import Prelude Bytes.

(** ** Transactions (transactor.h) *)

Record write_t := Write_t {
  w_addr : Z;
  w_length : nat;
  w_data : list Z;
  w_strb : list bool;
  w_id : Z
}.

Record read_t := Read_t {
  r_id : Z;
  r_addr : Z;
  r_length : nat
}.

Record read_response_t := Read_response_t {
  rr_id : Z;
  rr_data : list Z;
  rr_resp : Z
}.

Record write_response_t := Write_response_t {
  wr_id : Z;
  wr_resp : Z
}.

Record axi_attr_t := Axi_attr_t {
  at_cache : Z;
  at_prot : Z;
  at_qos : Z;
  at_region : Z;
  at_user : Z;
  at_is_manual_id : bool;
  at_manual_id : Z
}.

Definition axi_attr_default : axi_attr_t := Axi_attr_t 0 0 0 0 0 false 0.

Record write_request_t := Write_request_t {
  wq_addr : Z;
  wq_length : nat;
  wq_data : list Z;
  wq_strb : list bool;
  wq_exp_err_rsp : bool;
  wq_allow_decerr_resp : bool;
  wq_attr : axi_attr_t;
  wq_size_override : Z
}.

Record read_request_t := Read_request_t {
  rq_addr : Z;
  rq_length : nat;
  rq_exp_err_rsp : bool;
  rq_attr : axi_attr_t
}.

#[export] Instance eta_write_t : Eta write_t := λ r,
  Write_t (w_addr r) (w_length r) (w_data r) (w_strb r) (w_id r).
#[export] Instance eta_axi_attr : Eta axi_attr_t := λ r,
  Axi_attr_t (at_cache r) (at_prot r) (at_qos r) (at_region r) (at_user r)
    (at_is_manual_id r) (at_manual_id r).
#[export] Instance eta_write_request : Eta write_request_t := λ r,
  Write_request_t (wq_addr r) (wq_length r) (wq_data r) (wq_strb r)
    (wq_exp_err_rsp r) (wq_allow_decerr_resp r) (wq_attr r) (wq_size_override r).

(** Aggregate initialisation [write_request_t{addr, length, data, strb, e}]. *)
Definition mk_write_request (addr : Z) (len : nat) (data : list Z)
    (strb : list bool) (exp_err : bool) : write_request_t :=
  Write_request_t addr len data strb exp_err false axi_attr_default 0.

(** A well-formed byte payload: [length] data bytes and strobes are present. *)
Definition write_wf (w : write_t) : Prop :=
  is_u64 (w_addr w) ∧ Forall is_u8 (w_data w) ∧
  (w_length w ≤ length (w_data w))%nat ∧ (w_length w ≤ length (w_strb w))%nat.

(** ** Events *)

Inductive event :=
| EvTimer (hart : Z) (flag : bool) (mtime : Z)   (* clint::timer_t *)
| EvSoft (hart : Z) (flag : bool)                (* clint::sw_t *)
| EvTerminate (low_priority passed : bool)       (* htif::terminate_t *)
| EvPutchar (c : Z)                              (* console output *)
| EvWriteRequest (q : write_request_t)           (* to the AXI master *)
| EvReadRequest (q : read_request_t)
| EvWriteResponse (source : Z) (r : write_response_t)
| EvReadResponse (source : Z) (r : read_response_t)
| EvHeartbeat (count : Z)
| EvError                                        (* cvm::log(cvm::ERROR, ...) *)
| EvAbort.                                       (* assert(0) *)

(** ** The device base class (device.h) *)

Record device_id := Device_id {
  dtag : string;
  dbase : Z;
  dsize : Z
}.

(** [val >= addr_ && (val < (addr_ + size_))] *)
Definition has_addr (d : device_id) (val : Z) : bool :=
  (dbase d <=? val) && (val <? u64 (dbase d + dsize d)).

(** What a device promises to the system model: an identity that no operation
    changes, and handlers over its own state [D] and the memory store [M] that
    all memory devices of a system share. *)
Class Device (M D : Type) := {
  dev_id : D → device_id;
  dev_write : write_t → D * M → (D * M) * list event;
  dev_read : read_t → list Z → D * M → (D * M) * list event * list Z;
  dev_tick : Z → D * M → (D * M) * list event;
  dev_backdoor_write : Z → nat → list Z → list bool → D * M → D * M;
  dev_backdoor_read : Z → nat → list Z → D * M → (D * M) * list Z
}.

Class DeviceLaws (M D : Type) `{Device M D} := {
  dev_write_id w d m : dev_id (dev_write w (d, m)).1.1 = dev_id d;
  dev_read_id r buf d m : dev_id (dev_read r buf (d, m)).1.1.1 = dev_id d;
  dev_tick_id n d m : dev_id (dev_tick n (d, m)).1.1 = dev_id d;
  dev_backdoor_write_id a n bs ss d m :
    dev_id (dev_backdoor_write a n bs ss (d, m)).1 = dev_id d;
  dev_backdoor_read_id a n bs d m :
    dev_id (dev_backdoor_read a n bs (d, m)).1.1 = dev_id d
}.

Section handlers.
Context {M D : Type} `{Device M D}.

(** [spawn_write_thread] for a handler returning void: filtered by
    [has_addr], runs the handler, acknowledges with OKAY. *)
Definition handle_write (source : Z) (w : write_t) (dm : D * M)
    : (D * M) * list event :=
  if has_addr (dev_id dm.1) (w_addr w) then
    let '(dm', evs) := dev_write w dm in
    (dm', evs ++ [EvWriteResponse source (Write_response_t (w_id w) 0)])
  else (dm, []).

(** [spawn_read_thread] for a handler filling [data(length, 0)]. *)
Definition handle_read (source : Z) (r : read_t) (dm : D * M)
    : (D * M) * list event :=
  if has_addr (dev_id dm.1) (r_addr r) then
    let '(dm', evs, data) := dev_read r (replicate (r_length r) 0) dm in
    (dm', evs ++ [EvReadResponse source (Read_response_t (r_id r) data 0)])
  else (dm, []).
End handlers.

(** Write responses among a list of events, for one requester. *)
Definition write_responses (source : Z) (evs : list event) : list write_response_t :=
  omap (λ e, match e with
             | EvWriteResponse s r => if s =? source then Some r else None
             | _ => None end) evs.

Definition read_responses (source : Z) (evs : list event) : list read_response_t :=
  omap (λ e, match e with
             | EvReadResponse s r => if s =? source then Some r else None
             | _ => None end) evs.

(** ** The transactor base class (transactor.h)

    [write] and [read] draw a fresh id, signal the request and wait for the
    first response that carries this id.  [send] stands for the components
    connected to the request message: it returns the responses that reach the
    transactor's channel.  [None] means the awaited response never comes. *)
Section transactor.
Context {E : Type}.
Variable send_write : write_t → E → E * list write_response_t.
Variable send_read : read_t → E → E * list read_response_t.

Definition transactor_write (id : Z) (addr : Z) (len : nat) (data : list Z)
    (strb : list bool) (e : E) : Z * E * option write_response_t :=
  let id' := u32 (id + 1) in
  let '(e', rs) := send_write (Write_t addr len data strb id') e in
  (id', e', list_find (λ r, wr_id r = id') rs ≫= λ p, Some p.2).

Definition transactor_read (id : Z) (addr : Z) (len : nat) (e : E)
    : Z * E * option read_response_t :=
  let id' := u32 (id + 1) in
  let '(e', rs) := send_read (Read_t id' addr len) e in
  (id', e', list_find (λ r, rr_id r = id') rs ≫= λ p, Some p.2).
End transactor.

(** ** Lemmas *)

Lemma has_addr_true d v :
  has_addr d v = true ↔ dbase d ≤ v < u64 (dbase d + dsize d).
Proof. unfold has_addr. rewrite andb_true_iff, Z.leb_le, Z.ltb_lt. done. Qed.

(** The window of a device that does not wrap around the address space. *)
Definition window_ok (d : device_id) : Prop :=
  0 ≤ dbase d ∧ 0 ≤ dsize d ∧ dbase d + dsize d < 2 ^ 64.

Lemma has_addr_window d v :
  window_ok d → has_addr d v = true ↔ dbase d ≤ v < dbase d + dsize d.
Proof. intros (?&?&?). rewrite has_addr_true, u64_small; [done|]. split; lia. Qed.

(** A device whose range ends exactly at 2^64 decodes nothing: the sum wraps
    to zero. *)
Lemma has_addr_top d v : dbase d + dsize d = 2 ^ 64 → 0 ≤ v → has_addr d v = false.
Proof.
  intros Heq Hv. unfold has_addr, u64. rewrite Heq, Z.mod_same by lia.
  destruct (dbase d <=? v); simpl; [|done]. apply Z.ltb_ge. lia.
Qed.

Section handler_lemmas.
Context {M D : Type} `{Device M D}.

Lemma handle_write_miss src w dm :
  has_addr (dev_id dm.1) (w_addr w) = false → handle_write src w dm = (dm, []).
Proof. intros E. unfold handle_write. by rewrite E. Qed.

(** Every accepted write is answered exactly once more than the handler
    itself answers, with its own id and OKAY, last. *)
Lemma handle_write_hit src w dm :
  has_addr (dev_id dm.1) (w_addr w) = true →
  handle_write src w dm =
    ((dev_write w dm).1,
     (dev_write w dm).2 ++ [EvWriteResponse src (Write_response_t (w_id w) 0)]).
Proof. intros E. unfold handle_write. rewrite E. by destruct (dev_write w dm). Qed.

Lemma handle_read_hit src r dm :
  has_addr (dev_id dm.1) (r_addr r) = true →
  handle_read src r dm =
    ((dev_read r (replicate (r_length r) 0) dm).1.1,
     (dev_read r (replicate (r_length r) 0) dm).1.2 ++
     [EvReadResponse src (Read_response_t (r_id r)
        (dev_read r (replicate (r_length r) 0) dm).2 0)]).
Proof. intros E. unfold handle_read. rewrite E. by destruct (dev_read _ _ dm) as [[??]?]. Qed.
End handler_lemmas.
