(* ===== verification/Memmap.v ===== *)
(** * Memmap: the platform address map (src/common/memmap.h)

    [memmap_] is a [std::map<std::string, memmap_entry_t>]; it is modelled by
    the key-sorted association list the iterators of the C++ map walk.  The
    JSON document is third-party input: [json_el] is one element of the array
    with its string members, and [J] the type of the free-form [attributes]
    member.  [assert(false)] aborts the simulation ([MmAbort]); an exception of
    [std::stoull] leaves [parse] early ([MmThrow]). *)

From S2P Require Import Prelude Cstd.
From Stdlib Require Import Ascii.

(** ** Ordered string maps *)

Definition str_lt (a b : string) : Prop := String.compare a b = Lt.

Section ordmap.
Context {V : Type}.

Fixpoint map_set (k : string) (v : V) (m : list (string * V)) : list (string * V) :=
  match m with
  | [] => [(k, v)]
  | (k', v') :: m' =>
      match String.compare k k' with
      | Eq => (k, v) :: m'
      | Lt => (k, v) :: m
      | Gt => (k', v') :: map_set k v m'
      end
  end.

Fixpoint map_find (k : string) (m : list (string * V)) : option V :=
  match m with
  | [] => None
  | (k', v') :: m' => if String.eqb k k' then Some v' else map_find k m'
  end.

(** Iteration starting at [m.lower_bound(k)]. *)
Fixpoint lower_bound (k : string) (m : list (string * V)) : list (string * V) :=
  match m with
  | [] => []
  | (k', v') :: m' =>
      match String.compare k' k with Lt => lower_bound k m' | _ => m end
  end.

(** The invariant of the container: strictly increasing keys. *)
Fixpoint keys_sorted (m : list (string * V)) : Prop :=
  match m with
  | [] => True
  | (k, _) :: m' => Forall (λ kv, str_lt k kv.1) m' ∧ keys_sorted m'
  end.
End ordmap.

(** ** Entries and the parser *)

Record memmap_entry {J : Type} := Memmap_entry {
  me_base_str : string;
  me_base : Z;
  me_size : Z;
  me_type : string;
  me_tag : string;
  me_end : Z;
  me_attributes : J
}.
Arguments memmap_entry : clear implicits.

Record json_el {J : Type} := Json_el {
  el_base : string;
  el_size : string;
  el_type : string;
  el_tag : string;
  el_attributes : option J
}.
Arguments json_el : clear implicits.

Record memmap_st {J : Type} := Memmap_st {
  mm_map : list (string * memmap_entry J);
  mm_parsed : bool;
  mm_status : bool
}.
Arguments memmap_st : clear implicits.

#[export] Instance eta_memmap_st J : Eta (memmap_st J) := λ r,
  Memmap_st J (mm_map r) (mm_parsed r) (mm_status r).

Inductive parse_outcome := MmReturn (b : bool) | MmThrow | MmAbort.

Section memmap.
Context {J : Type} (json_null : J).
Implicit Types m : list (string * memmap_entry J).

Definition memmap_init : memmap_st J := Memmap_st J [] false false.

Definition add_entry (base_str type tag : string) (base size : Z) (attributes : J)
    m : list (string * memmap_entry J) :=
  let end_ := u64 (base + size - 1) in
  map_set tag (Memmap_entry J base_str base size type tag end_ attributes) m.

(** The loop over the JSON array, with the map it leaves and whether it ran
    to the end ([false]: an exception of [std::stoull] escaped). *)
Fixpoint add_elements (els : list (json_el J)) m : list (string * memmap_entry J) * bool :=
  match els with
  | [] => (m, true)
  | el :: els' =>
      match stoull 16 (el_base el) with
      | None => (m, false)
      | Some base =>
          match stoull 16 (el_size el) with
          | None => (m, false)
          | Some size =>
              add_elements els'
                (add_entry (el_base el) (el_type el) (el_tag el) base size
                   (default json_null (el_attributes el)) m)
          end
      end
  end.

(** [std::sort] by base address. *)
Fixpoint insert_by_base (e : string * memmap_entry J) m : list (string * memmap_entry J) :=
  match m with
  | [] => [e]
  | e' :: m' => if me_base e.2 <? me_base e'.2 then e :: m else e' :: insert_by_base e m'
  end.
Definition sort_by_base m : list (string * memmap_entry J) := foldr insert_by_base [] m.

Definition overlaps (a b : memmap_entry J) : bool :=
  let end_i := u64 (me_base a + me_size a) in
  let end_j := u64 (me_base b + me_size b) in
  (me_base a <? end_j) && (me_base b <? end_i).

(** The double loop over [i < j]. *)
Fixpoint overlapDetected (v : list (string * memmap_entry J)) : bool :=
  match v with
  | [] => false
  | e :: v' => existsb (λ e', overlaps e.2 e'.2) v' || overlapDetected v'
  end.

(** [parse()]; [file = None]: the file cannot be opened or is not JSON. *)
Definition parse (file : option (list (json_el J))) (st : memmap_st J)
    : parse_outcome * memmap_st J :=
  if mm_parsed st then (MmReturn (mm_status st), st)
  else
    let st := st <| mm_parsed := true |> in
    match file with
    | None => (MmAbort, st)
    | Some els =>
        let '(m, ok) := add_elements els (mm_map st) in
        let st := st <| mm_map := m |> in
        if negb ok then (MmThrow, st)
        else if overlapDetected (sort_by_base m) then (MmAbort, st)
        else (MmReturn true, st <| mm_status := true |>)
    end.

(** [get(m)]: the map is copied out when [parsed_ || parse()]. *)
Definition get (file : option (list (json_el J))) (st : memmap_st J)
    (out : list (string * memmap_entry J))
    : parse_outcome * memmap_st J * list (string * memmap_entry J) :=
  if mm_parsed st then (MmReturn (mm_status st), st, mm_map st)
  else match parse file st with
       | (MmReturn b, st') =>
           (MmReturn (mm_status st'), st', if b then mm_map st' else out)
       | (o, st') => (o, st', out)
       end.

Definition entry_in_range (e : memmap_entry J) (pa : Z) : bool :=
  (me_base e <=? pa) && (pa <? me_end e).

Definition in_range (t : string) (pa : Z) m : bool :=
  match map_find t m with
  | None => false
  | Some e => entry_in_range e pa
  end.

(** The overload over an initializer list of tags. *)
Fixpoint in_range_any (ts : list string) (pa : Z) m : bool :=
  match ts with
  | [] => false
  | t :: ts' => if in_range t pa m then true else in_range_any ts' pa m
  end.

Fixpoint scan_prefix (p : string) (pa : Z) m : bool :=
  match m with
  | [] => false
  | (k, e) :: m' =>
      if String.prefix p k then
        if entry_in_range e pa then true else scan_prefix p pa m'
      else false
  end.

Definition in_range_prefix (p : string) (pa : Z) m : bool :=
  scan_prefix p pa (lower_bound p m).
End memmap.

(** ** Order on strings *)

Lemma str_compare_trans a b c : str_lt a b → str_lt b c → str_lt a c.
Proof.
  unfold str_lt. revert b c.
  induction a as [|x a IH]; intros [|y b] [|z c]; simpl; try done.
  unfold Ascii.compare.
  destruct (N.compare_spec (N_of_ascii x) (N_of_ascii y)) as [E1|E1|E1]; try done;
  destruct (N.compare_spec (N_of_ascii y) (N_of_ascii z)) as [E2|E2|E2]; try done;
  destruct (N.compare_spec (N_of_ascii x) (N_of_ascii z)) as [E3|E3|E3]; try done;
  try lia. apply IH.
Qed.

Lemma str_lt_irrefl a : ¬ str_lt a a.
Proof.
  unfold str_lt. intros H.
  pose proof (String.compare_antisym a a) as E. rewrite H in E. done.
Qed.

Lemma str_compare_gt a b : String.compare a b = Gt → str_lt b a.
Proof.
  unfold str_lt. intros H. rewrite String.compare_antisym, H. done.
Qed.

Lemma str_compare_eq a b : String.compare a b = Eq → a = b.
Proof. apply String.compare_eq_iff. Qed.

Lemma prefix_not_lt p k : String.prefix p k = true → ¬ str_lt k p.
Proof.
  unfold str_lt. revert k; induction p as [|x p IH]; intros [|y k]; simpl; try done.
  destruct (ascii_dec x y) as [->|]; [|done].
  unfold Ascii.compare. rewrite N.compare_refl. apply IH.
Qed.

(** Keys carrying a prefix are contiguous: anything between the prefix and a
    key that carries it carries it too. *)
Lemma prefix_between p a b :
  ¬ str_lt a p → str_lt a b → String.prefix p b = true → String.prefix p a = true.
Proof.
  unfold str_lt. revert a b; induction p as [|x p IH]; intros [|y a] [|z b]; simpl; try done.
  destruct (ascii_dec x z) as [->|]; [|done].
  unfold Ascii.compare.
  destruct (N.compare_spec (N_of_ascii y) (N_of_ascii z)) as [E|E|E]; try done.
  apply (f_equal ascii_of_N) in E. rewrite !ascii_N_embedding in E. subst y.
  destruct (ascii_dec z z); [|done]. apply IH.
Qed.

(** ** The ordered map is a map *)

Section ordmap_lemmas.
Context {V : Type}.
Implicit Types m : list (string * V).

Lemma map_set_keys_lt k0 k v m :
  str_lt k0 k → Forall (λ kv, str_lt k0 kv.1) m →
  Forall (λ kv, str_lt k0 kv.1) (map_set k v m).
Proof.
  intros Hk HF. induction HF as [|[k' v'] m Hk' HF IH]; simpl; [by repeat constructor|].
  destruct (String.compare k k'); repeat constructor; auto.
Qed.

Lemma map_set_sorted k v m : keys_sorted m → keys_sorted (map_set k v m).
Proof.
  induction m as [|[k' v'] m IH]; simpl; [done|]. intros [HF Hs].
  destruct (String.compare k k') eqn:E; simpl.
  - by apply str_compare_eq in E as ->.
  - split; [|done]. constructor; [done|].
    eapply Forall_impl; [exact HF|]. intros [k2 v2]. by apply str_compare_trans.
  - split; [|by apply IH]. apply map_set_keys_lt; [by apply str_compare_gt|done].
Qed.

Lemma map_find_set_eq k v m : map_find k (map_set k v m) = Some v.
Proof.
  induction m as [|[k' v'] m IH]; simpl; [by rewrite String.eqb_refl|].
  destruct (String.compare k k') eqn:E; simpl; try by rewrite String.eqb_refl.
  destruct (String.eqb_spec k k') as [->|]; [|done].
  by apply str_compare_gt, str_lt_irrefl in E.
Qed.

Lemma map_find_set_ne k k' v m : k ≠ k' → map_find k (map_set k' v m) = map_find k m.
Proof.
  intros Hne. induction m as [|[k2 v2] m IH]; simpl.
  - by destruct (String.eqb_spec k k').
  - destruct (String.compare k' k2) eqn:E; simpl.
    + apply str_compare_eq in E as ->. by destruct (String.eqb_spec k k2).
    + by destruct (String.eqb_spec k k').
    + by rewrite IH.
Qed.

Lemma map_find_In k v m : map_find k m = Some v → (k, v) ∈ m.
Proof.
  induction m as [|[k' v'] m IH]; simpl; [done|].
  destruct (String.eqb_spec k k') as [->|]; intros; simplify_eq; set_solver.
Qed.

Lemma lower_bound_suffix p m :
  keys_sorted m →
  ∀ k v, (k, v) ∈ m → ¬ str_lt k p → (k, v) ∈ lower_bound p m.
Proof.
  induction m as [|[k' v'] m IH]; simpl; [done|]. intros [HF Hs] k v Hin Hk.
  destruct (String.compare k' p) eqn:E; [done| |done].
  apply elem_of_cons in Hin as [?|Hin]; [by simplify_eq|]. by apply IH.
Qed.

Lemma lower_bound_ge p m :
  keys_sorted m → Forall (λ kv, ¬ str_lt kv.1 p) (lower_bound p m).
Proof.
  induction m as [|[k' v'] m IH]; simpl; [done|]. intros [HF Hs].
  destruct (String.compare k' p) eqn:E; [|by apply IH|].
  - apply str_compare_eq in E as ->. constructor; [apply str_lt_irrefl|].
    eapply Forall_impl; [exact HF|]. intros [k v] Hlt Hlt'. simpl in *.
    eapply str_lt_irrefl, str_compare_trans; eauto.
  - apply str_compare_gt in E. constructor; simpl.
    + intros H. eapply str_lt_irrefl, str_compare_trans; eauto.
    + eapply Forall_impl; [exact HF|]. intros [k v] Hlt Hlt'. simpl in *.
      eapply str_lt_irrefl, (str_compare_trans p k' p); [done|].
      by eapply str_compare_trans.
Qed.

Lemma lower_bound_sub p m : ∀ kv, kv ∈ lower_bound p m → kv ∈ m.
Proof.
  induction m as [|[k' v'] m IH]; simpl; [done|]. intros kv.
  destruct (String.compare k' p); set_solver.
Qed.

Lemma lower_bound_sorted p m : keys_sorted m → keys_sorted (lower_bound p m).
Proof.
  induction m as [|[k' v'] m IH]; simpl; [done|]. intros [HF Hs].
  destruct (String.compare k' p); [done|by apply IH|done].
Qed.
End ordmap_lemmas.

Section memmap_lemmas.
Context {J : Type} (json_null : J).
Implicit Types m : list (string * memmap_entry J).

Lemma scan_prefix_spec p pa m :
  keys_sorted m → Forall (λ kv, ¬ str_lt kv.1 p) m →
  scan_prefix p pa m = true ↔
  ∃ k e, (k, e) ∈ m ∧ String.prefix p k = true ∧ entry_in_range e pa = true.
Proof.
  induction m as [|[k e] m IH]; simpl; intros Hs Hge.
  { split; [done|]. intros (?&?&H&_). by apply elem_of_nil in H. }
  destruct Hs as [HF Hs]. apply Forall_cons in Hge as [Hk Hge].
  destruct (String.prefix p k) eqn:Ep.
  - destruct (entry_in_range e pa) eqn:Er.
    + split; [|done]. intros _. exists k, e. set_solver.
    + rewrite IH by done. split; intros (k2&e2&Hin&?&?); exists k2, e2; [set_solver|].
      apply elem_of_cons in Hin as [?|Hin]; [simplify_eq; congruence|done].
  - split; [done|]. intros (k2&e2&Hin&Hp&_).
    apply elem_of_cons in Hin as [?|Hin]; [simplify_eq; congruence|].
    rewrite Forall_forall in HF. specialize (HF _ Hin). simpl in HF.
    by rewrite (prefix_between p k k2) in Ep.
Qed.

(** Entries of the parsed map keep the shape [add_entry] gives them. *)
Definition entry_wf (kv : string * memmap_entry J) : Prop :=
  me_tag kv.2 = kv.1 ∧ me_end kv.2 = u64 (me_base kv.2 + me_size kv.2 - 1).

Lemma add_entry_wf bs ty tg b s a m :
  keys_sorted m → Forall entry_wf m →
  keys_sorted (add_entry bs ty tg b s a m) ∧ Forall entry_wf (add_entry bs ty tg b s a m).
Proof.
  intros Hs HF. split; [by apply map_set_sorted|].
  unfold add_entry. clear Hs. induction HF as [|[k e] m He HF IH]; simpl; [by repeat constructor|].
  destruct (String.compare tg k); repeat constructor; auto; apply He.
Qed.

Lemma add_elements_wf els m :
  keys_sorted m → Forall entry_wf m →
  keys_sorted (add_elements json_null els m).1 ∧
  Forall entry_wf (add_elements json_null els m).1.
Proof.
  revert m; induction els as [|el els IH]; intros m Hs HF; simpl; [done|].
  destruct (stoull 16 (el_base el)); [|done].
  destruct (stoull 16 (el_size el)); [|done].
  apply IH; by apply add_entry_wf.
Qed.

Lemma overlaps_sym (a b : memmap_entry J) : overlaps a b = overlaps b a.
Proof. unfold overlaps. apply andb_comm. Qed.

Lemma overlapDetected_false (v : list (string * memmap_entry J)) :
  overlapDetected v = false →
  ∀ i j x y, i ≠ j → v !! i = Some x → v !! j = Some y → overlaps x.2 y.2 = false.
Proof.
  induction v as [|e v IH]; simpl; [done|]. intros H.
  apply orb_false_iff in H as [Hex Hrec].
  assert (∀ k z, v !! k = Some z → overlaps e.2 z.2 = false) as Hhd.
  { intros k z Hk. destruct (overlaps e.2 z.2) eqn:E; [|done].
    rewrite <- Hex. symmetry. apply existsb_exists. exists z. split; [|done].
    apply list_elem_of_In, list_elem_of_lookup. eauto. }
  intros [|i] [|j] x y Hne Hx Hy; simplify_eq/=; eauto.
  rewrite overlaps_sym. eauto.
Qed.

Lemma insert_by_base_perm e m : insert_by_base e m ≡ₚ e :: m.
Proof.
  induction m as [|e' m IH]; simpl; [done|].
  destruct (_ <? _); [done|]. rewrite IH. apply Permutation_swap.
Qed.

Lemma sort_by_base_perm m : sort_by_base m ≡ₚ m.
Proof.
  induction m as [|e m IH]; simpl; [done|].
  unfold sort_by_base in *. simpl. rewrite insert_by_base_perm. by rewrite IH.
Qed.
End memmap_lemmas.

Section memmap_theorems.
Context {J : Type} (json_null : J).

(** What a successful [parse] leaves behind. *)
Lemma parse_ok_inv (els : list (json_el J)) st :
  parse json_null (Some els) memmap_init = (MmReturn true, st) →
  keys_sorted (mm_map st) ∧ Forall entry_wf (mm_map st) ∧
  overlapDetected (sort_by_base (mm_map st)) = false.
Proof.
  unfold parse. simpl.
  pose proof (add_elements_wf json_null els [] I (Forall_nil_2 _)) as Hwf.
  destruct (add_elements json_null els []) as [m [|]]; simpl; [|done].
  destruct (overlapDetected (sort_by_base m)) eqn:E; [done|].
  intros [= <-]. simpl. naive_solver.
Qed.

Definition entry_covers (e : memmap_entry J) (pa : Z) : Prop :=
  me_base e ≤ pa < me_base e + me_size e.

Definition entry_no_wrap (e : memmap_entry J) : Prop :=
  0 ≤ me_base e ∧ 0 ≤ me_size e ∧ me_base e + me_size e < 2 ^ 64.

Lemma overlaps_false_disjoint (a b : memmap_entry J) pa :
  entry_no_wrap a → entry_no_wrap b → overlaps a b = false →
  entry_covers a pa → entry_covers b pa → False.
Proof.
  intros (?&?&?) (?&?&?) Hov Ha Hb. unfold overlaps in Hov.
  rewrite !u64_small in Hov by (split; lia).
  unfold entry_covers in *. apply andb_false_iff in Hov as [?|?]; zbool; lia.
Qed.
End memmap_theorems.

(** A memory map that [memmap::parse] accepts decodes every address to at
    most one entry: two entries that both cover an address (and do not run past
    the end of the 64-bit space) are the same entry. *)
Theorem parse_entries_disjoint {J} (json_null : J) (els : list (json_el J)) st t1 e1 t2 e2 pa :
  parse json_null (Some els) memmap_init = (MmReturn true, st) →
  (t1, e1) ∈ mm_map st → (t2, e2) ∈ mm_map st →
  entry_no_wrap e1 → entry_no_wrap e2 →
  entry_covers e1 pa → entry_covers e2 pa →
  t1 = t2 ∧ e1 = e2.
Proof.
  intros Hp H1 H2 Hn1 Hn2 Hc1 Hc2.
  destruct (parse_ok_inv _ _ _ Hp) as (_ & _ & Hov).
  rewrite <- (sort_by_base_perm (mm_map st)) in H1, H2.
  apply list_elem_of_lookup in H1 as [i Hi]. apply list_elem_of_lookup in H2 as [j Hj].
  destruct (decide (i = j)) as [->|Hne]; [rewrite Hi in Hj; by simplify_eq|].
  exfalso. eapply (overlaps_false_disjoint e1 e2 pa); try done.
  exact (overlapDetected_false _ Hov i j _ _ Hne Hi Hj).
Qed.

(** A three-entry map as it appears in the sample memmap.json files. *)
Definition sample_els : list (json_el unit) :=
  [ Json_el unit "0x80000000" "0x1000000" "memory" "memory" None;
    Json_el unit "0x2000000" "0xc000" "clint" "clint" None;
    Json_el unit "0x70000000" "0x10" "htif" "htif" None ].

Definition sample_map : memmap_st unit := (parse tt (Some sample_els) memmap_init).2.

Lemma parse_entries_disjoint_witness :
  ∃ e, map_find "clint" (mm_map sample_map) = Some e ∧
       ("clint"%string = "clint"%string ∧ e = e).
Proof.
  eexists. split; [vm_compute; reflexivity|].
  apply (parse_entries_disjoint tt sample_els sample_map "clint" _ "clint" _ 0x2004000).
  - vm_compute. reflexivity.
  - apply map_find_In. vm_compute. reflexivity.
  - apply map_find_In. vm_compute. reflexivity.
  - unfold entry_no_wrap. simpl. lia.
  - unfold entry_no_wrap. simpl. lia.
  - unfold entry_covers. simpl. lia.
  - unfold entry_covers. simpl. lia.
Defined.

(** On a parsed map, [memmap::in_range(tag, pa)] accepts exactly the
    addresses of the tagged entry except its last byte: [end] is computed as
    the inclusive bound [base + size - 1] and compared with [<]. *)
Theorem in_range_excludes_last {J} (json_null : J) (els : list (json_el J)) st t e pa :
  parse json_null (Some els) memmap_init = (MmReturn true, st) →
  map_find t (mm_map st) = Some e →
  entry_no_wrap e → 0 < me_size e →
  in_range t pa (mm_map st) = true ↔ entry_covers e pa ∧ pa ≠ me_base e + me_size e - 1.
Proof.
  intros Hp Hf (?&?&?) Hsz. destruct (parse_ok_inv _ _ _ Hp) as (_ & Hwf & _).
  assert (entry_wf (t, e)) as [_ Hend].
  { rewrite Forall_forall in Hwf. apply Hwf. by apply map_find_In. }
  unfold in_range, entry_in_range, entry_covers. rewrite Hf.
  simpl in Hend. rewrite Hend, u64_small by (split; lia).
  rewrite andb_true_iff, Z.leb_le, Z.ltb_lt. lia.
Qed.

Lemma in_range_excludes_last_witness :
  ∃ e, map_find "htif" (mm_map sample_map) = Some e ∧
    (in_range "htif" 0x7000000f (mm_map sample_map) = true ↔
     entry_covers e 0x7000000f ∧ 0x7000000f ≠ me_base e + me_size e - 1).
Proof.
  eexists. split; [vm_compute; reflexivity|].
  apply (in_range_excludes_last tt sample_els sample_map "htif").
  - vm_compute. reflexivity.
  - vm_compute. reflexivity.
  - unfold entry_no_wrap. simpl. lia.
  - simpl. lia.
Defined.

(** [memmap::in_range_prefix], which walks the ordered map from
    [lower_bound(prefix)] and stops at the first key without the prefix,
    finds the address exactly when some entry whose tag starts with the prefix
    contains it: no matching entry is skipped by the early stop. *)
Theorem in_range_prefix_complete {J} (json_null : J) (els : list (json_el J)) st p pa :
  parse json_null (Some els) memmap_init = (MmReturn true, st) →
  in_range_prefix p pa (mm_map st) = true ↔
  ∃ t e, (t, e) ∈ mm_map st ∧ String.prefix p t = true ∧ entry_in_range e pa = true.
Proof.
  intros Hp. destruct (parse_ok_inv _ _ _ Hp) as (Hs & _ & _).
  unfold in_range_prefix.
  rewrite scan_prefix_spec by (by apply lower_bound_sorted || by apply lower_bound_ge).
  split; intros (t & e & Hin & Hpre & Hr); exists t, e; split; try done.
  - by eapply lower_bound_sub.
  - apply lower_bound_suffix; try done. by apply prefix_not_lt.
Qed.

Lemma in_range_prefix_complete_witness :
  in_range_prefix "cl" 0x2000010 (mm_map sample_map) = true ↔
  ∃ t e, (t, e) ∈ mm_map sample_map ∧ String.prefix "cl" t = true ∧
         entry_in_range e 0x2000010 = true.
Proof.
  apply (in_range_prefix_complete tt sample_els sample_map). vm_compute. reflexivity.
Defined.
