(* ===== verification/Mem.v ===== *)
(** * Mem: memory devices (src/sysmod/mem, src/sysmod/io_dev)

    The backing store [mem_manager] is a third-party library: it is the
    parameter [M] of the [MemManager] class, and [MemManagerLaws] states what
    the sources rely on (a byte written is the byte read back, other bytes
    are unchanged, reading does not change contents).  [flat_mem] is a concrete
    store that satisfies the laws.

    [sysmod_mem] devices of one system share a single [mem_manager] (the
    [std::shared_ptr] passed to each of them by [sysmod::compose]): the device
    state is its identity only, the contents live in the shared [M].  [io_dev]
    owns a private store. *)

From S2P Require Import Prelude Bytes Device.

(** ** The backing store *)

Class MemManager (M : Type) := {
  mm_write : Z → list Z → M → M;
  mm_read : Z → nat → M → M * list Z
}.

(** The [n] byte addresses starting at [a], with 64-bit wrap-around. *)
Definition addrs (a : Z) (n : nat) : list Z :=
  (λ i : nat, u64 (a + Z.of_nat i)) <$> seq 0 n.

Class MemManagerLaws (M : Type) `{MemManager M} := {
  mm_peek : M → Z → Z;
  mm_peek_u8 m a : is_u8 (mm_peek m a);
  mm_read_data m a n : (mm_read a n m).2 = mm_peek m <$> addrs a n;
  mm_read_keeps m a n x : mm_peek (mm_read a n m).1 x = mm_peek m x;
  (** [mm_write a bs]: byte [i] of [bs] lands at [a + i]. *)
  mm_write_hit m a bs (i : nat) b :
    Z.of_nat (length bs) ≤ 2 ^ 64 → bs !! i = Some b → is_u8 b →
    mm_peek (mm_write a bs m) (u64 (a + Z.of_nat i)) = b;
  mm_write_miss m a bs x :
    x ∉ addrs a (length bs) → mm_peek (mm_write a bs m) x = mm_peek m x
}.

(** ** sysmod_mem *)

Section sysmod_mem.
Context {M : Type} `{MemManager M}.

(** [for (i = 0; i < length; i++) if (strb[i]) m_->write(addr + i, 1, &data[i]);] *)
Fixpoint write_strobed (addr : Z) (i n : nat) (data : list Z) (strb : list bool) (m : M) : M :=
  match n with
  | O => m
  | S n' =>
      let m' := if at_b strb i
                then mm_write (u64 (addr + Z.of_nat i)) [at_z data i] m else m in
      write_strobed addr (S i) n' data strb m'
  end.

Definition sysmod_mem_write (w : write_t) (m : M) : M :=
  write_strobed (w_addr w) 0 (w_length w) (w_data w) (w_strb w) m.

(** [m_->read(addr, length, data.data())]: the first [length] bytes of the
    buffer are overwritten. *)
Definition sysmod_mem_read (r : read_t) (data : list Z) (m : M) : M * list Z :=
  let '(m', bs) := mm_read (r_addr r) (r_length r) m in
  (m', bs ++ drop (r_length r) data).

Definition sysmod_mem_backdoor_write (addr : Z) (len : nat) (data : list Z)
    (strb : list bool) (m : M) : M :=
  write_strobed addr 0 len data strb m.

Definition sysmod_mem_backdoor_read (addr : Z) (len : nat) (data : list Z) (m : M)
    : M * list Z :=
  let '(m', bs) := mm_read addr len m in (m', bs ++ drop len data).
End sysmod_mem.

(** A [sysmod_mem] object: its identity; the contents are in the shared store. *)
Record sysmod_mem := Sysmod_mem { sm_id : device_id }.

#[export] Instance sysmod_mem_device M `{MemManager M} : Device M sysmod_mem := {
  dev_id := sm_id;
  dev_write w '(d, m) := ((d, sysmod_mem_write w m), []);
  dev_read r data '(d, m) :=
    let '(m', data') := sysmod_mem_read r data m in ((d, m'), [], data');
  dev_tick _ dm := (dm, []);
  dev_backdoor_write a n bs ss '(d, m) := (d, sysmod_mem_backdoor_write a n bs ss m);
  dev_backdoor_read a n bs '(d, m) :=
    let '(m', bs') := sysmod_mem_backdoor_read a n bs m in ((d, m'), bs')
}.

(** ** io_dev: the same access loops over a private store *)

Record io_dev (N : Type) := Io_dev { io_id : device_id; io_m : N }.
Arguments Io_dev {_}. Arguments io_id {_}. Arguments io_m {_}.

Definition io_dev_write {N} `{MemManager N} (w : write_t) (d : io_dev N) : io_dev N :=
  Io_dev (io_id d) (write_strobed (w_addr w) 0 (w_length w) (w_data w) (w_strb w) (io_m d)).

Definition io_dev_read {N} `{MemManager N} (r : read_t) (data : list Z) (d : io_dev N)
    : io_dev N * list Z :=
  let '(m', bs) := mm_read (r_addr r) (r_length r) (io_m d) in
  (Io_dev (io_id d) m', bs ++ drop (r_length r) data).

#[export] Instance io_dev_device M N `{MemManager N} : Device M (io_dev N) := {
  dev_id := io_id;
  dev_write w '(d, m) := ((io_dev_write w d, m), []);
  dev_read r data '(d, m) :=
    let '(d', data') := io_dev_read r data d in ((d', m), [], data');
  dev_tick _ dm := (dm, []);
  dev_backdoor_write _ _ _ _ dm := dm;      (* device's empty default *)
  dev_backdoor_read _ _ bs dm := (dm, bs)
}.

#[export] Instance sysmod_mem_laws M `{MemManager M} : DeviceLaws M sysmod_mem.
Proof.
  split; intros; simpl; try done.
  - by destruct (sysmod_mem_read _ _ _).
  - by destruct (sysmod_mem_backdoor_read _ _ _ _).
Qed.

#[export] Instance io_dev_laws M N `{MemManager N} : DeviceLaws M (io_dev N).
Proof.
  split; intros; simpl; try done.
  unfold io_dev_read. by destruct (mm_read _ _ _).
Qed.

(** ** ELF program loading (load_elf_pt_load)

    The fields of the ELF header and of a program header that the loader uses,
    at the offsets of <elf.h>, little-endian ([init_elf] only takes this path
    for ELFDATA2LSB images). *)

Record elf_layout := Elf_layout {
  sz_ehdr : Z;                          (* sizeof(Ehdr) *)
  sz_phdr : Z;                          (* sizeof(Phdr) *)
  o_phoff : nat * nat;                  (* offset, bytes *)
  o_phentsize : nat * nat;
  o_phnum : nat * nat;
  o_type : nat * nat;
  o_offset : nat * nat;
  o_paddr : nat * nat;
  o_filesz : nat * nat
}.

Definition elf64 : elf_layout :=
  Elf_layout 64 56 (32, 8)%nat (54, 2)%nat (56, 2)%nat
    (0, 4)%nat (8, 8)%nat (24, 8)%nat (32, 8)%nat.
Definition elf32 : elf_layout :=
  Elf_layout 52 32 (28, 4)%nat (42, 2)%nat (44, 2)%nat
    (0, 4)%nat (4, 4)%nat (12, 4)%nat (16, 4)%nat.

(** A header field of a struct that starts at [off] in the image. *)
Definition field (buf : list Z) (off : Z) (f : nat * nat) : Z :=
  deserializeInt f.2 (take f.2 (drop (Z.to_nat off + f.1) buf)).

Definition PT_LOAD : Z := 1.

Section elf.
Context {M : Type} `{MemManager M}.

(** The loop over program headers; [n] entries left, entry index [i].
    The arithmetic is [std::size_t]. *)
Fixpoint load_phdrs (L : elf_layout) (buf : list Z) (phoff phentsize : Z)
    (i : Z) (n : nat) (m : M) : bool * M :=
  match n with
  | O => (true, m)
  | S n' =>
      let off := u64 (phoff + u64 (i * phentsize)) in
      if Z.of_nat (length buf) <? u64 (off + sz_phdr L) then (false, m)
      else
        let p_type := field buf off (o_type L) in
        let p_offset := field buf off (o_offset L) in
        let p_paddr := field buf off (o_paddr L) in
        let p_filesz := field buf off (o_filesz L) in
        if negb (p_type =? PT_LOAD) || (p_filesz =? 0)
        then load_phdrs L buf phoff phentsize (i + 1) n' m
        else if Z.of_nat (length buf) <? u64 (p_offset + p_filesz) then (false, m)
        else load_phdrs L buf phoff phentsize (i + 1) n'
               (mm_write p_paddr (take (Z.to_nat p_filesz) (drop (Z.to_nat p_offset) buf)) m)
  end.

Definition load_elf_pt_load (L : elf_layout) (buf : list Z) (m : M) : bool * M :=
  if Z.of_nat (length buf) <? sz_ehdr L then (false, m)
  else
    let e_phoff := field buf 0 (o_phoff L) in
    let e_phnum := field buf 0 (o_phnum L) in
    let e_phentsize := field buf 0 (o_phentsize L) in
    if (e_phoff =? 0) || (e_phnum =? 0) || (e_phentsize <? sz_phdr L) then (false, m)
    else load_phdrs L buf e_phoff e_phentsize 0 (Z.to_nat e_phnum) m.

(** The third-party loaders of [mem_manager] ([load_ELF], [load_verilog_hex],
    [load_lz4], [load_bin]) return the store they leave and whether they
    returned normally; a thrown [std::exception] is caught. *)
Definition init_load (load : M → M * bool) (m : M) : bool * M :=
  let '(m', returned) := load m in (returned, m').

Definition is_elf_lsb (buf : list Z) : bool :=
  (16 <=? Z.of_nat (length buf)) &&
  bool_decide (take 4 buf = [0x7f; 0x45; 0x4c; 0x46]) &&
  (at_z buf 5 =? 1).

(** [sysmod_mem::init_elf].  [file = None]: the file cannot be opened. *)
Definition init_elf (load_ELF : M → M * bool) (file : option (list Z)) (m : M) : bool * M :=
  match file with
  | None => init_load load_ELF m
  | Some buf =>
      if is_elf_lsb buf then
        let '(ok, m') :=
          if at_z buf 4 =? 2 then load_elf_pt_load elf64 buf m
          else if at_z buf 4 =? 1 then load_elf_pt_load elf32 buf m
          else (false, m) in
        if ok then (true, m') else init_load load_ELF m'
      else init_load load_ELF m
  end.
End elf.

(** ** Byte-level behaviour of the access loops *)

Lemma elem_of_addrs a n x :
  x ∈ addrs a n ↔ ∃ i : nat, (i < n)%nat ∧ x = u64 (a + Z.of_nat i).
Proof.
  unfold addrs. rewrite list_elem_of_fmap. split.
  - intros (i & -> & Hi). exists i. apply elem_of_seq in Hi. split; [lia|done].
  - intros (i & Hi & ->). exists i. split; [done|]. apply elem_of_seq. lia.
Qed.

Lemma u64_add_inj a (i j : nat) n :
  Z.of_nat n ≤ 2 ^ 64 → (i < n)%nat → (j < n)%nat →
  u64 (a + Z.of_nat i) = u64 (a + Z.of_nat j) → i = j.
Proof.
  unfold u64. intros Hn Hi Hj E.
  assert ((Z.of_nat i - Z.of_nat j) `mod` 2 ^ 64 = 0) as Hm.
  { replace (Z.of_nat i - Z.of_nat j) with ((a + Z.of_nat i) - (a + Z.of_nat j)) by lia.
    rewrite Zminus_mod, E, Z.sub_diag. apply Z.mod_0_l. lia. }
  apply Z.mod_divide in Hm as [k Hk]; [|lia]. nia.
Qed.

Section mem_lemmas.
Context {M : Type} `{MemManagerLaws M}.

Lemma mm_write_byte a b m x :
  is_u64 a → is_u8 b →
  mm_peek (mm_write a [b] m) x = if decide (x = a) then b else mm_peek m x.
Proof.
  intros Ha Hb. case_decide as Hx.
  - subst. rewrite <- (mm_write_hit m a [b] 0 b) at 2; [|simpl; lia|done|done].
    f_equal. rewrite Z.add_0_r. symmetry. by apply u64_small.
  - apply mm_write_miss. rewrite elem_of_addrs. intros (i & Hi & ->). simpl in Hi.
    assert (i = 0)%nat as -> by lia. apply Hx. rewrite Z.add_0_r. by apply u64_small.
Qed.

(** After the loop the byte at [addr + k] is the strobed data byte if its
    lane was visited, and is untouched otherwise. *)
Lemma write_strobed_miss addr i n data strb m x :
  Forall is_u8 data →
  (∀ k : nat, (i ≤ k < i + n)%nat → x ≠ u64 (addr + Z.of_nat k)) →
  mm_peek (write_strobed addr i n data strb m) x = mm_peek m x.
Proof.
  intros Hu. revert i m; induction n as [|n IH]; intros i m Hx; simpl; [done|].
  rewrite IH by (intros k Hk; apply Hx; lia).
  destruct (at_b strb i); [|done].
  rewrite mm_write_byte by auto with rvt.
  rewrite decide_False; [done|]. apply Hx. lia.
Qed.

Lemma write_strobed_hit addr i n data strb m (k : nat) :
  Forall is_u8 data → Z.of_nat (i + n) ≤ 2 ^ 64 → (i ≤ k < i + n)%nat →
  mm_peek (write_strobed addr i n data strb m) (u64 (addr + Z.of_nat k)) =
  if at_b strb k then at_z data k else mm_peek m (u64 (addr + Z.of_nat k)).
Proof.
  intros Hu. revert i m; induction n as [|n IH]; intros i m Hn Hk; simpl; [lia|].
  destruct (decide (i = k)) as [->|Hne].
  - rewrite write_strobed_miss; [|done|].
    + destruct (at_b strb k); [|done].
      rewrite mm_write_byte by auto with rvt. by rewrite decide_True.
    + intros j Hj E. apply (u64_add_inj _ _ _ (k + S n)) in E; lia.
  - rewrite IH by lia. destruct (at_b strb k); [done|].
    destruct (at_b strb i); [|done].
    rewrite mm_write_byte by auto with rvt.
    rewrite decide_False; [done|]. intros E.
    apply (u64_add_inj _ _ _ (i + S n)) in E; lia.
Qed.
End mem_lemmas.

(** The bytes a masked store leaves at its [n] addresses. *)
Definition merge_strobed (n : nat) (data : list Z) (strb : list bool) (old : list Z) : list Z :=
  (λ i : nat, if at_b strb i then at_z data i else at_z old i) <$> seq 0 n.

Section mem_theorems.
Context {M : Type} `{MemManagerLaws M}.

Lemma sysmod_mem_read_data r buf (m : M) :
  length buf = r_length r →
  (sysmod_mem_read r buf m).2 = mm_peek m <$> addrs (r_addr r) (r_length r).
Proof.
  intros Hb. unfold sysmod_mem_read.
  pose proof (mm_read_data m (r_addr r) (r_length r)) as Hd.
  destruct (mm_read _ _ m) as [m' bs]. simpl in *. subst bs.
  rewrite drop_ge by lia. by rewrite app_nil_r.
Qed.
End mem_theorems.

(** ** What the ELF loader leaves in memory

    The byte a program header places at address [x], and the byte an image
    places there: the last PT_LOAD header that covers [x] decides. *)

Definition phdr_byte (L : elf_layout) (buf : list Z) (off x : Z) : option Z :=
  let d := u64 (x - field buf off (o_paddr L)) in
  if (field buf off (o_type L) =? PT_LOAD) && (d <? field buf off (o_filesz L))
  then Some (at_z buf (Z.to_nat (field buf off (o_offset L) + d))) else None.

Definition phdr_off (phoff phentsize i : Z) : Z := u64 (phoff + u64 (i * phentsize)).

Fixpoint image_byte (L : elf_layout) (buf : list Z) (phoff phentsize i : Z) (n : nat) (x : Z)
    : option Z :=
  match n with
  | O => None
  | S n' =>
      match image_byte L buf phoff phentsize (i + 1) n' x with
      | Some b => Some b
      | None => phdr_byte L buf (phdr_off phoff phentsize i) x
      end
  end.

(** No segment wraps around the end of the file-offset space. *)
Fixpoint phdrs_no_wrap (L : elf_layout) (buf : list Z) (phoff phentsize i : Z) (n : nat) : bool :=
  match n with
  | O => true
  | S n' =>
      let off := phdr_off phoff phentsize i in
      (field buf off (o_offset L) + field buf off (o_filesz L) <? 2 ^ 64) &&
      phdrs_no_wrap L buf phoff phentsize (i + 1) n'
  end.

Lemma field_nonneg buf off f : Forall is_u8 buf → 0 ≤ field buf off f.
Proof.
  intros Hu. unfold field.
  assert (Forall is_u8 (take f.2 (drop (Z.to_nat off + f.1) buf))) as Ht
    by (by apply Forall_take, Forall_drop).
  revert Ht. generalize (take f.2 (drop (Z.to_nat off + f.1) buf)). intros l Ht.
  induction f.2 as [|w IH]; [done|]. rewrite deserializeInt_S.
  apply Z.lor_nonneg. split; [done|]. apply Z.shiftl_nonneg. by apply at_z_u8.
Qed.

Lemma mm_write_segment {M} `{MemManagerLaws M} (m : M) a bs x :
  is_u64 x → Forall is_u8 bs → Z.of_nat (length bs) ≤ 2 ^ 64 →
  mm_peek (mm_write a bs m) x =
  let d := u64 (x - a) in
  if d <? Z.of_nat (length bs) then at_z bs (Z.to_nat d) else mm_peek m x.
Proof.
  intros Hx Hu Hl. simpl. pose proof (u64_range (x - a)) as [Hd1 Hd2].
  assert (x = u64 (a + u64 (x - a))) as Hx'.
  { unfold u64. rewrite Zplus_mod_idemp_r. replace (a + (x - a)) with x by lia.
    symmetry. by apply u64_small. }
  destruct (_ <? _) eqn:E; zbool.
  - destruct (lookup_lt_is_Some_2 bs (Z.to_nat (u64 (x - a)))) as [b Hb]; [lia|].
    rewrite (at_z_Some _ _ _ Hb), Hx' at 1.
    replace (u64 (x - a)) with (Z.of_nat (Z.to_nat (u64 (x - a)))) at 1 by lia.
    apply mm_write_hit; [done|done|]. by eapply Forall_lookup_1.
  - apply mm_write_miss. rewrite elem_of_addrs. intros (i & Hi & ->).
    revert E. unfold u64. rewrite Zminus_mod_idemp_l.
    replace (a + Z.of_nat i - a) with (Z.of_nat i) by lia.
    rewrite Z.mod_small by lia. lia.
Qed.

Lemma at_z_segment buf (o n d : nat) :
  (d < n)%nat → at_z (take n (drop o buf)) d = at_z buf (o + d).
Proof. intros. unfold at_z. by rewrite lookup_take_lt, lookup_drop by lia. Qed.

Lemma load_phdrs_image {M} `{MemManagerLaws M} L buf phoff phentsize i n (m m' : M) x :
  Forall is_u8 buf → Z.of_nat (length buf) < 2 ^ 64 → is_u64 x →
  phdrs_no_wrap L buf phoff phentsize i n = true →
  load_phdrs L buf phoff phentsize i n m = (true, m') →
  mm_peek m' x = default (mm_peek m x) (image_byte L buf phoff phentsize i n x).
Proof.
  intros Hu Hlen Hx. revert i m; induction n as [|n IH]; intros i m Hw Hld; simpl in *.
  { by simplify_eq. }
  fold (phdr_off phoff phentsize i) in Hld. set (off := phdr_off phoff phentsize i) in *.
  destruct (_ <? u64 _); [done|].
  apply andb_true_iff in Hw as [Hw1 Hw2]. zbool.
  pose proof (field_nonneg buf off (o_filesz L) Hu) as Hf.
  pose proof (field_nonneg buf off (o_offset L) Hu) as Ho.
  pose proof (u64_range (x - field buf off (o_paddr L))) as [Hd _].
  destruct (negb _ || _) eqn:Eskip.
  - rewrite (IH _ _ Hw2 Hld). unfold phdr_byte.
    destruct (image_byte _ _ _ _ (i + 1) n x); [done|]. simpl.
    apply orb_true_iff in Eskip as [E|E]; zbool; [by rewrite (proj2 (Z.eqb_neq _ _) E)|].
    rewrite E, (proj2 (Z.ltb_ge _ _)) by lia. by rewrite andb_false_r.
  - zbool. destruct (_ <? u64 _) eqn:Efit; [done|]. zbool. rewrite u64_small in Efit by (split; lia).
    assert (length (take (Z.to_nat (field buf off (o_filesz L)))
              (drop (Z.to_nat (field buf off (o_offset L))) buf)) =
            Z.to_nat (field buf off (o_filesz L))) as Hseg
      by (rewrite length_take, length_drop; lia).
    rewrite (IH _ _ Hw2 Hld). destruct (image_byte _ _ _ _ (i + 1) n x); [done|]. simpl.
    rewrite mm_write_segment; [|done|by apply Forall_take, Forall_drop|lia]. simpl.
    unfold phdr_byte. rewrite Hseg, Z2Nat.id by lia. rewrite (proj2 (Z.eqb_eq _ _)) by done. simpl.
    destruct (_ <? _) eqn:Ed; [|done]. zbool. simpl.
    rewrite at_z_segment by lia. f_equal. lia.
Qed.

(** ** A concrete store *)

Fixpoint flat_write (a : Z) (bs : list Z) (m : gmap Z Z) : gmap Z Z :=
  match bs with
  | [] => m
  | b :: bs' => flat_write (a + 1) bs' (<[u64 a := b]> m)
  end.
Definition flat_peek (m : gmap Z Z) (x : Z) : Z := u8 (default 0 (m !! x)).

#[export] Instance flat_mem_manager : MemManager (gmap Z Z) := {
  mm_write := flat_write;
  mm_read a n m := (m, flat_peek m <$> addrs a n)
}.

Lemma flat_write_miss a bs m x :
  x ∉ addrs a (length bs) → flat_peek (flat_write a bs m) x = flat_peek m x.
Proof.
  revert a m; induction bs as [|b bs IH]; intros a m Hx; simpl; [done|].
  rewrite elem_of_addrs in Hx. rewrite IH.
  - unfold flat_peek. rewrite lookup_insert_ne; [done|].
    intros E. apply Hx. exists 0%nat. simpl. split; [lia|]. by rewrite Z.add_0_r.
  - rewrite elem_of_addrs. intros (i & Hi & ->). apply Hx.
    exists (S i). simpl. split; [lia|]. f_equal. lia.
Qed.

Lemma flat_write_hit a bs m i b :
  Z.of_nat (length bs) ≤ 2 ^ 64 → bs !! i = Some b → is_u8 b →
  flat_peek (flat_write a bs m) (u64 (a + Z.of_nat i)) = b.
Proof.
  revert a m i; induction bs as [|c bs IH]; intros a m i Hl Hi Hb; [done|].
  simpl in Hl. destruct i as [|i]; simplify_eq/=.
  - rewrite flat_write_miss.
    + unfold flat_peek. rewrite Z.add_0_r, lookup_insert_eq. simpl. by apply Z.mod_small.
    + rewrite elem_of_addrs. intros (j & Hj & E).
      replace (a + 1 + Z.of_nat j) with (a + Z.of_nat (S j)) in E by lia.
      apply (u64_add_inj _ 0 (S j) (S (length bs))) in E; lia.
  - replace (a + Z.of_nat (S i)) with (a + 1 + Z.of_nat i) by lia.
    apply IH; [lia|done|done].
Qed.

#[export] Instance flat_mem_laws : MemManagerLaws (gmap Z Z) := {
  mm_peek := flat_peek;
  mm_peek_u8 m a := u8_range _;
  mm_read_data m a n := eq_refl;
  mm_read_keeps m a n x := eq_refl;
  mm_write_hit m a bs i b := flat_write_hit a bs m i b;
  mm_write_miss m a bs x := flat_write_miss a bs m x
}.

(** A read of a memory device returns, byte for byte, what the last strobed
    write left: lanes with their strobe set read the written data, the others
    read the previous contents; accesses may wrap around the address space. *)
Theorem sysmod_mem_read_after_write {M} `{MemManagerLaws M} (w : write_t) (m : M) id buf buf0 :
  Forall is_u8 (w_data w) → Z.of_nat (w_length w) ≤ 2 ^ 64 →
  length buf = w_length w → length buf0 = w_length w →
  (sysmod_mem_read (Read_t id (w_addr w) (w_length w)) buf (sysmod_mem_write w m)).2 =
  merge_strobed (w_length w) (w_data w) (w_strb w)
    (sysmod_mem_read (Read_t id (w_addr w) (w_length w)) buf0 m).2.
Proof.
  intros Hu Hn Hb Hb0. rewrite !sysmod_mem_read_data by done. simpl.
  unfold addrs, merge_strobed. apply list_eq. intros i.
  destruct (decide (i < w_length w)%nat) as [Hi|Hi].
  - rewrite !list_lookup_fmap, !lookup_seq_lt by done. simpl. f_equal.
    unfold sysmod_mem_write. rewrite write_strobed_hit by (done || lia).
    destruct (at_b (w_strb w) i); [done|].
    symmetry. apply at_z_Some. rewrite !list_lookup_fmap, lookup_seq_lt by done. done.
  - rewrite !list_lookup_fmap, !lookup_seq_ge by lia. done.
Qed.

Lemma sysmod_mem_read_after_write_witness :
  let w := Write_t 0x1000 4 [1; 2; 3; 4] [true; false; true; true] 7 in
  (sysmod_mem_read (Read_t 8 0x1000 4) [0;0;0;0] (sysmod_mem_write w (∅ : gmap Z Z))).2 =
  [1; 0; 3; 4].
Proof.
  intros w.
  rewrite (sysmod_mem_read_after_write w (∅ : gmap Z Z) 8 [0;0;0;0] [0;0;0;0]).
  - vm_compute. reflexivity.
  - repeat constructor; simpl; lia.
  - simpl. lia.
  - reflexivity.
  - reflexivity.
Defined.

(** A write to a memory device leaves every byte outside the written
    window as it was. *)
Theorem sysmod_mem_write_frame {M} `{MemManagerLaws M} (w : write_t) (m : M) x :
  Forall is_u8 (w_data w) → x ∉ addrs (w_addr w) (w_length w) →
  mm_peek (sysmod_mem_write w m) x = mm_peek m x.
Proof.
  intros Hu Hx. apply write_strobed_miss; [done|]. intros k Hk E. apply Hx.
  apply elem_of_addrs. exists k. split; [lia|done].
Qed.

Lemma sysmod_mem_write_frame_witness :
  mm_peek (sysmod_mem_write (Write_t 0x1000 2 [1; 2] [true; true] 0) (∅ : gmap Z Z)) 0x1002 = 0.
Proof.
  rewrite sysmod_mem_write_frame.
  - reflexivity.
  - repeat constructor; simpl; lia.
  - rewrite elem_of_addrs. intros (i & Hi & E). simpl in *.
    destruct i as [|[|i]]; [vm_compute in E; lia|vm_compute in E; lia|lia].
Defined.

(** When the direct ELF loader reports success, memory holds exactly the
    image: every byte covered by a PT_LOAD segment reads the file byte of the
    last such segment, at its full 64-bit physical address, and every other
    byte is unchanged. *)
Theorem load_elf_image {M} `{MemManagerLaws M} L buf (m m' : M) x :
  Forall is_u8 buf → Z.of_nat (length buf) < 2 ^ 64 → is_u64 x →
  let phoff := field buf 0 (o_phoff L) in
  let phentsize := field buf 0 (o_phentsize L) in
  let phnum := Z.to_nat (field buf 0 (o_phnum L)) in
  phdrs_no_wrap L buf phoff phentsize 0 phnum = true →
  load_elf_pt_load L buf m = (true, m') →
  mm_peek m' x = default (mm_peek m x) (image_byte L buf phoff phentsize 0 phnum x).
Proof.
  intros Hu Hlen Hx phoff phentsize phnum Hw Hld. unfold load_elf_pt_load in Hld.
  destruct (_ <? _); [done|]. destruct (_ || _); [done|].
  by eapply load_phdrs_image.
Qed.

(** A 64-bit image with one two-byte segment at 0x1_8000_0000. *)
Definition sample_elf : list Z :=
  le_bytes 8 0x00010102464c457f ++ replicate 24 0 ++ le_bytes 8 64 ++ replicate 14 0 ++
  le_bytes 2 56 ++ le_bytes 2 1 ++ replicate 6 0 ++
  le_bytes 4 1 ++ replicate 4 0 ++ le_bytes 8 120 ++ replicate 8 0 ++
  le_bytes 8 0x180000000 ++ le_bytes 8 2 ++ replicate 16 0 ++ [0xab; 0xcd].

Lemma load_elf_image_witness :
  is_elf_lsb sample_elf = true ∧
  mm_peek (load_elf_pt_load elf64 sample_elf (∅ : gmap Z Z)).2 0x180000001 = 0xcd.
Proof.
  split; [vm_compute; reflexivity|].
  rewrite (load_elf_image elf64 sample_elf ∅ _ 0x180000001).
  - vm_compute. reflexivity.
  - apply bytes_ok_u8. vm_compute. reflexivity.
  - vm_compute. reflexivity.
  - split; vm_compute; congruence.
  - vm_compute. reflexivity.
  - vm_compute. reflexivity.
Defined.
