(* ===== verification/Clint.v ===== *)
(** * Clint: the core-local interruptor (src/sysmod/clint)

    State, snapshot constructor and destructor, MMR reads and writes, clock
    ticks and edge detection of the timer interrupt.  The snapshot file is the
    list of its lines ([std::getline] splits it, the destructor ends every line
    with a newline).  The bus-facing theorems are about arbitrary sequences of
    operations ([clint_run]). *)

From S2P Require Import Prelude Bytes Cstd Device.
#[local] Open Scope string_scope.
#[local] Open Scope list_scope.
#[local] Open Scope Z_scope.

Record clint := Clint {
  cl_id : device_id;
  cl_hartCount : nat;
  cl_soft : list Z;
  cl_timeCompare : list Z;
  cl_timerIntPrev : list bool;
  cl_timer : Z;
  cl_tickDivisor : Z
}.

#[export] Instance eta_clint : Eta clint := λ c,
  Clint (cl_id c) (cl_hartCount c) (cl_soft c) (cl_timeCompare c)
    (cl_timerIntPrev c) (cl_timer c) (cl_tickDivisor c).

(** ** Construction and snapshots *)

(** The member initialisers of the constructor. *)
Definition clint_init (tag : string) (addr : Z) (hartCount : nat) (div : Z) : clint :=
  Clint (Device_id tag addr 0xc000) hartCount (replicate hartCount 0)
    (replicate hartCount (u64 (-1))) (replicate hartCount false) 0 div.

(** One line of the snapshot file; [None] is the exception of
    [timeCompare_.at(num)].  [iss >> val] leaves [val] unchanged when the line
    is exhausted; the [timer] branch converts [val] without reading it. *)
Definition clint_load_line (c : clint) (line : string) : option clint :=
  let val := "" in
  let '(w, iss) := read_word line in
  let type := default "" w in
  if String.eqb type "timer" then
    Some (c <| cl_timer := strtoull 0 val |>)
  else if String.eqb type "cmp" then
    let '(w, iss) := read_word iss in
    let val := default val w in
    let num := strtoull 0 val in
    let '(w, _) := read_word iss in
    let val := default val w in
    if num <? Z.of_nat (length (cl_timeCompare c))
    then Some (c <| cl_timeCompare ::= <[Z.to_nat num := strtoull 0 val]> |>)
    else None
  else Some c.

Fixpoint clint_load (c : clint) (lines : list string) : option clint :=
  match lines with
  | [] => Some c
  | l :: ls => clint_load_line c l ≫= λ c', clint_load c' ls
  end.

(** The constructor; [snap] is the snapshot file when [load_snapshot] opens
    one. *)
Definition clint_new (tag : string) (addr : Z) (hartCount : nat) (div : Z)
    (snap : option (list string)) : option clint :=
  let c := clint_init tag addr hartCount div in
  match snap with
  | None => Some c
  | Some lines => clint_load c lines
  end.

(** The text the destructor saves. *)
Definition cmp_line (i : nat) (v : Z) : string :=
  "cmp " +:+ dec (Z.of_nat i) +:+ " " +:+ dec v.
Definition clint_save (c : clint) : list string :=
  ("timer " +:+ dec (cl_timer c)) :: imap cmp_line (cl_timeCompare c).

(** ** Interrupts *)

(** The loop body of [processTimerInterrupts] for hart [i]. *)
Definition timer_step (timer : Z) (cmp : list Z) (acc : list bool * list event) (i : nat)
    : list bool * list event :=
  let '(prev, evs) := acc in
  let flag := at_z cmp i <=? timer in
  (<[i := flag]> prev,
   if bool_decide (at_b prev i = flag) then evs
   else evs ++ [EvTimer (Z.of_nat i) flag timer]).

Definition processTimerInterrupts (c : clint) : clint * list event :=
  let '(prev, evs) :=
    foldl (timer_step (cl_timer c) (cl_timeCompare c)) (cl_timerIntPrev c, [])
      (seq 0 (cl_hartCount c)) in
  (c <| cl_timerIntPrev := prev |>, evs).

(** ** Bus accesses and ticks *)

Definition clint_read (r : read_t) (data : list Z) (c : clint) : list Z :=
  let offset := u64 (r_addr r - dbase (cl_id c)) in
  if offset <? 0x4000 then
    if negb (offset mod 4 =? 0) then data
    else
      let hartIx := Z.to_nat (u32 (offset / 4)) in
      let word := if (hartIx <? cl_hartCount c)%nat then at_z (cl_soft c) hartIx else 0 in
      serializeInt word (r_length r) data
  else if offset =? 0xbff8 then serializeInt (cl_timer c) (r_length r) data
  else if negb (offset mod 8 =? 0) then data
  else
    let offset := u64 (offset - 0x4000) in
    let hartIx := Z.to_nat (u32 (offset / 8)) in
    let dword := if (hartIx <? cl_hartCount c)%nat
                 then at_z (cl_timeCompare c) hartIx else 0 in
    serializeInt dword (r_length r) data.

Definition clint_write (w : write_t) (c : clint) : clint * list event :=
  let offset := u64 (w_addr w - dbase (cl_id c)) in
  if offset <? 0x4000 then
    let hartIx := Z.to_nat (u32 (offset / 4)) in
    if negb (offset mod 4 =? 0) || (w_length w <? 4)%nat || (cl_hartCount c <=? hartIx)%nat
    then (c, [])
    else
      let word := deserializeInt 4 (w_data w) in
      (c <| cl_soft ::= <[hartIx := word &&& 1]> |>,
       [EvSoft (Z.of_nat hartIx) (negb (word &&& 1 =? 0))])
  else if (w_length w =? 8)%nat then
    let offset := u64 (offset - 0x4000) in
    if offset =? 0x7ff8 then
      processTimerInterrupts (c <| cl_timer := deserializeInt 8 (w_data w) |>)
    else
      let hartIx := Z.to_nat (u32 (offset / 8)) in
      if (cl_hartCount c <=? hartIx)%nat then (c, [])
      else
        let dword := deserializeInt 8 (w_data w) in
        processTimerInterrupts (c <| cl_timeCompare ::= <[hartIx := dword]> |>)
  else (c, []).

Definition clint_tick (advance : Z) (c : clint) : clint * list event :=
  let err := if negb (advance mod cl_tickDivisor c =? 0) then [EvError] else [] in
  let '(c', evs) :=
    processTimerInterrupts (c <| cl_timer ::= λ t, u64 (t + advance / cl_tickDivisor c) |>) in
  (c', err ++ evs).

#[export] Instance clint_device M : Device M clint := {
  dev_id := cl_id;
  dev_write w '(c, m) := let '(c', evs) := clint_write w c in ((c', m), evs);
  dev_read r data '(c, m) := ((c, m), [], clint_read r data c);
  dev_tick n '(c, m) := let '(c', evs) := clint_tick n c in ((c', m), evs);
  dev_backdoor_write _ _ _ _ dm := dm;
  dev_backdoor_read _ _ bs dm := (dm, bs)
}.

(** ** Sequences of operations *)

Inductive clint_op :=
| CWrite (w : write_t)
| CTick (advance : Z).

Definition clint_step (o : clint_op) (c : clint) : clint * list event :=
  match o with
  | CWrite w => clint_write w c
  | CTick n => clint_tick n c
  end.

Fixpoint clint_run (os : list clint_op) (c : clint) : clint * list event :=
  match os with
  | [] => (c, [])
  | o :: os' =>
      let '(c1, e1) := clint_step o c in
      let '(c2, e2) := clint_run os' c1 in
      (c2, e1 ++ e2)
  end.

(** The interrupt levels an observer of the event stream holds for hart [h]. *)
Definition timer_level (h : Z) (b : bool) (evs : list event) : bool :=
  foldl (λ b e, match e with
                | EvTimer h' f _ => if h' =? h then f else b
                | _ => b end) b evs.
Definition soft_level (h : Z) (b : bool) (evs : list event) : bool :=
  foldl (λ b e, match e with
                | EvSoft h' f => if h' =? h then f else b
                | _ => b end) b evs.

(** ** Invariant *)

Record clint_wf (c : clint) : Prop := {
  wf_soft_len : length (cl_soft c) = cl_hartCount c;
  wf_cmp_len : length (cl_timeCompare c) = cl_hartCount c;
  wf_prev_len : length (cl_timerIntPrev c) = cl_hartCount c
}.

(** The remembered interrupt level is the comparison of the current timer and
    the current compare values. *)
Definition clint_synced (c : clint) : Prop :=
  ∀ i, (i < cl_hartCount c)%nat →
    at_b (cl_timerIntPrev c) i = (at_z (cl_timeCompare c) i <=? cl_timer c).

Lemma timer_level_app h b e1 e2 :
  timer_level h b (e1 ++ e2) = timer_level h (timer_level h b e1) e2.
Proof. unfold timer_level. by rewrite foldl_app. Qed.

Lemma soft_level_app h b e1 e2 :
  soft_level h b (e1 ++ e2) = soft_level h (soft_level h b e1) e2.
Proof. unfold soft_level. by rewrite foldl_app. Qed.

(** The interrupt loop after [n] harts: their level is the comparison, the
    others' is unchanged, and the events bring an observer from the old to the
    new level. *)
Lemma timer_loop timer cmp prev n :
  (n ≤ length prev)%nat →
  let '(prev', evs) := foldl (timer_step timer cmp) (prev, []) (seq 0 n) in
  length prev' = length prev ∧
  (∀ i, (i < n)%nat → at_b prev' i = (at_z cmp i <=? timer)) ∧
  (∀ i, (n ≤ i)%nat → at_b prev' i = at_b prev i) ∧
  (∀ i : nat, timer_level (Z.of_nat i) (at_b prev i) evs = at_b prev' i) ∧
  (∀ h b, soft_level h b evs = b).
Proof.
  induction n as [|n IH]; intros Hn; [simpl; split_and!; [done|lia|done|done|done]|].
  rewrite seq_S, foldl_snoc. specialize (IH ltac:(lia)).
  destruct (foldl _ _ (seq 0 n)) as [prev' evs]. destruct IH as (Hl & Hlo & Hhi & Hlev & Hs).
  simpl. set (flag := at_z cmp n <=? timer).
  assert (Hat : ∀ i, at_b (<[n:=flag]> prev') i = if decide (i = n) then flag else at_b prev' i).
  { intros i. unfold at_b. case_decide; subst.
    - by rewrite list_lookup_insert_eq by lia.
    - by rewrite list_lookup_insert_ne by done. }
  split_and!.
  - by rewrite length_insert.
  - intros i Hi. rewrite Hat. case_decide; [by subst|]. apply Hlo. lia.
  - intros i Hi. rewrite Hat, decide_False by lia. apply Hhi. lia.
  - intros i. rewrite Hat. case_bool_decide as E.
    + rewrite Hlev. case_decide; [by subst i|done].
    + rewrite timer_level_app, Hlev. simpl.
      case_decide; [subst i; by rewrite Z.eqb_refl|].
      by rewrite (proj2 (Z.eqb_neq _ _)) by lia.
  - intros h b. case_bool_decide; [done|]. by rewrite soft_level_app, Hs.
Qed.

Lemma processTimerInterrupts_spec c :
  clint_wf c →
  let '(c', evs) := processTimerInterrupts c in
  c' = c <| cl_timerIntPrev := cl_timerIntPrev c' |> ∧
  clint_wf c' ∧ clint_synced c' ∧
  (∀ i : nat, timer_level (Z.of_nat i) (at_b (cl_timerIntPrev c) i) evs
              = at_b (cl_timerIntPrev c') i) ∧
  (∀ h b, soft_level h b evs = b).
Proof.
  intros [Hs Hc Hp]. unfold processTimerInterrupts.
  pose proof (timer_loop (cl_timer c) (cl_timeCompare c) (cl_timerIntPrev c) (cl_hartCount c)
                ltac:(lia)) as HL.
  destruct (foldl _ _ _) as [prev evs]. destruct HL as (Hl & Hlo & _ & Hlev & Hsoft).
  simpl. split_and!; [done| |done|done|done].
  constructor; simpl; [done|done|lia].
Qed.

(** What one operation guarantees: the invariant and, for every hart, that the
    events turn an observer's old levels into the new ones. *)
Record clint_step_ok (c c' : clint) (evs : list event) : Prop := {
  ok_wf : clint_wf c';
  ok_synced : clint_synced c';
  ok_id : cl_id c' = cl_id c;
  ok_harts : cl_hartCount c' = cl_hartCount c;
  ok_timer_level (i : nat) :
    timer_level (Z.of_nat i) (at_b (cl_timerIntPrev c) i) evs = at_b (cl_timerIntPrev c') i;
  ok_soft_level (i : nat) :
    soft_level (Z.of_nat i) (at_z (cl_soft c) i =? 1) evs = (at_z (cl_soft c') i =? 1)
}.

Lemma clint_step_ok_same c : clint_wf c → clint_synced c → clint_step_ok c c [].
Proof. by split. Qed.

(** Both writes that end in [processTimerInterrupts], and ticks: the updated
    state [c0] differs from [c] in the timer and the compare values only. *)
Lemma clint_step_ok_process c c0 :
  clint_wf c → clint_wf c0 →
  cl_id c0 = cl_id c → cl_hartCount c0 = cl_hartCount c →
  cl_soft c0 = cl_soft c → cl_timerIntPrev c0 = cl_timerIntPrev c →
  clint_step_ok c (processTimerInterrupts c0).1 (processTimerInterrupts c0).2.
Proof.
  intros Hwf Hwf0 Hid Hn Hs Hp. pose proof (processTimerInterrupts_spec c0 Hwf0) as H.
  destruct (processTimerInterrupts c0) as [c' evs]. simpl.
  destruct H as (Hc' & Hwf' & Hsync & Hlev & Hsoft). rewrite Hp in Hlev.
  split; [done|done| | |done|]; intros; rewrite Hc'; simpl; [done|done|].
  by rewrite Hsoft, Hs.
Qed.

Lemma clint_step_ok_soft c ix word :
  clint_wf c → clint_synced c → (ix < cl_hartCount c)%nat →
  clint_step_ok c (c <| cl_soft ::= <[ix := word &&& 1]> |>)
    [EvSoft (Z.of_nat ix) (negb (word &&& 1 =? 0))].
Proof.
  intros [Hs Hc Hp] Hsync Hix. split; try done.
  - by split; simpl; [rewrite length_insert| |].
  - intros i. simpl. destruct (decide (i = ix)) as [->|Hne].
    + rewrite Z.eqb_refl, at_z_insert_eq by lia. by destruct (land_1 word) as [-> | ->].
    + rewrite (proj2 (Z.eqb_neq _ _)) by lia. by rewrite at_z_insert_ne by done.
Qed.

Lemma clint_write_ok w c :
  clint_wf c → clint_synced c →
  clint_step_ok c (clint_write w c).1 (clint_write w c).2.
Proof.
  intros Hwf Hsync. pose proof Hwf as [Hs Hc Hp]. unfold clint_write.
  repeat case_match; zbool; try (by apply clint_step_ok_same).
  - by apply clint_step_ok_soft.
  - by apply clint_step_ok_process.
  - apply clint_step_ok_process; try done. split; simpl; by rewrite ?length_insert.
Qed.

Lemma clint_tick_ok n c :
  clint_wf c → clint_step_ok c (clint_tick n c).1 (clint_tick n c).2.
Proof.
  intros Hwf. pose proof Hwf as [Hs Hc Hp]. unfold clint_tick.
  pose proof (clint_step_ok_process c
    (c <| cl_timer ::= λ t, u64 (t + n / cl_tickDivisor c) |>) Hwf) as H.
  destruct (processTimerInterrupts _) as [c' evs]. simpl in *.
  destruct H as [? ? ? ? Ht Hsl]; [by split|done|done|done|done|].
  destruct (negb _); by split.
Qed.

Lemma clint_step_ok_trans c1 c2 c3 e1 e2 :
  clint_step_ok c1 c2 e1 → clint_step_ok c2 c3 e2 → clint_step_ok c1 c3 (e1 ++ e2).
Proof.
  intros [] []. split; try done; try congruence; intros i.
  - rewrite timer_level_app. by rewrite ok_timer_level0.
  - rewrite soft_level_app. by rewrite ok_soft_level0.
Qed.

Lemma clint_run_ok os c :
  clint_wf c → clint_synced c →
  clint_step_ok c (clint_run os c).1 (clint_run os c).2.
Proof.
  revert c; induction os as [|o os IH]; intros c Hwf Hsync; simpl.
  { by apply clint_step_ok_same. }
  assert (clint_step_ok c (clint_step o c).1 (clint_step o c).2) as Ho
    by (destruct o; [by apply clint_write_ok|by apply clint_tick_ok]).
  destruct (clint_step o c) as [c1 e1]. simpl in *.
  specialize (IH c1 (ok_wf _ _ _ Ho) (ok_synced _ _ _ Ho)).
  destruct (clint_run os c1) as [c2 e2]. by eapply clint_step_ok_trans.
Qed.

Lemma clint_init_ok tag addr n div :
  clint_wf (clint_init tag addr n div) ∧ clint_synced (clint_init tag addr n div).
Proof.
  split; [split; simpl; apply length_replicate|].
  intros i Hi. simpl in *. by rewrite at_b_replicate, at_z_replicate by done.
Qed.

(** After any sequence of bus writes and clock ticks on a freshly built
    CLINT, the timer interrupt level that the signalled edges amount to is, for
    every hart, exactly [mtime >= mtimecmp], and the software interrupt level
    is the hart's msip bit. *)
Theorem clint_levels_track tag addr n div os i :
  (i < n)%nat →
  let '(c, evs) := clint_run os (clint_init tag addr n div) in
  timer_level (Z.of_nat i) false evs = (at_z (cl_timeCompare c) i <=? cl_timer c) ∧
  soft_level (Z.of_nat i) false evs = (at_z (cl_soft c) i =? 1).
Proof.
  intros Hi. destruct (clint_init_ok tag addr n div) as [Hwf Hsync].
  pose proof (clint_run_ok os _ Hwf Hsync) as [_ Hsync' _ Hn Ht Hs].
  destruct (clint_run os _) as [c evs]. simpl in *.
  specialize (Ht i). specialize (Hs i).
  rewrite at_b_replicate in Ht by done. rewrite at_z_replicate in Hs by done.
  split; [|done]. rewrite Ht. apply Hsync'. lia.
Qed.

Definition sample_clint_ops : list clint_op :=
  [CWrite (Write_t 0x2004008 8 (le_bytes 8 5) [] 1); CTick 4; CTick 8;
   CWrite (Write_t 0x2000004 4 [1;0;0;0] [] 2)].

Lemma clint_levels_track_witness :
  let '(c, evs) := clint_run sample_clint_ops (clint_init "clint" 0x2000000 2 2) in
  timer_level 1 false evs = true ∧ soft_level 1 false evs = true.
Proof. exact (clint_levels_track "clint" 0x2000000 2 2 sample_clint_ops 1 ltac:(lia)). Defined.

(** ** The 64-bit register file *)

(** The value software reads with an aligned 8-byte load at offset [off]. *)
Definition clint_reg64 (c : clint) (off : Z) : Z :=
  deserializeInt 8 (clint_read (Read_t 0 (u64 (dbase (cl_id c) + off)) 8) (replicate 8 0) c).

Definition reg64_offset (o : Z) : Prop := 0x4000 ≤ o < 0xc000 ∧ o mod 8 = 0.

Lemma cmp_index o :
  reg64_offset o →
  u64 (o - 0x4000) = o - 0x4000 ∧ u32 ((o - 0x4000) / 8) = (o - 0x4000) / 8 ∧
  0 ≤ (o - 0x4000) / 8 < 0x1000.
Proof.
  intros [Ho _].
  assert (0 ≤ (o - 0x4000) / 8 < 0x1000)
    by (split; [apply Z.div_pos; lia|apply Z.div_lt_upper_bound; lia]).
  rewrite u64_small, u32_small by (split; lia). done.
Qed.

Lemma clint_reg64_val c o :
  reg64_offset o →
  clint_reg64 c o =
  u64 (if o =? 0xbff8 then cl_timer c
       else if (Z.to_nat ((o - 0x4000) / 8) <? cl_hartCount c)%nat
            then at_z (cl_timeCompare c) (Z.to_nat ((o - 0x4000) / 8)) else 0).
Proof.
  intros Ho. pose proof (cmp_index o Ho) as (H1 & H2 & _). destruct Ho as [Ho Hm].
  unfold clint_reg64, clint_read. simpl r_addr. simpl r_length.
  rewrite u64_offset by lia. rewrite (proj2 (Z.ltb_ge _ _)) by lia.
  rewrite Hm. simpl negb. cbn iota. rewrite H1, H2.
  destruct (o =? 0xbff8); rewrite deserializeInt_serializeInt; try done; try (simpl; lia);
    by apply Forall_replicate.
Qed.

Lemma processTimerInterrupts_regs c o :
  clint_reg64 (processTimerInterrupts c).1 o = clint_reg64 c o.
Proof. unfold processTimerInterrupts. by destruct (foldl _ _ _). Qed.

Lemma cmp_index_inj o p :
  reg64_offset o → reg64_offset p → (o - 0x4000) / 8 = (p - 0x4000) / 8 → o = p.
Proof.
  intros [_ Ho] [_ Hp] E.
  pose proof (Z.div_mod (o - 0x4000) 8 ltac:(lia)).
  pose proof (Z.div_mod (p - 0x4000) 8 ltac:(lia)).
  assert ((o - 0x4000) mod 8 = 0) by (rewrite Zminus_mod, Ho; done).
  assert ((p - 0x4000) mod 8 = 0) by (rewrite Zminus_mod, Hp; done). lia.
Qed.

(** Mtime and the mtimecmp registers form a register file: an aligned
    8-byte write changes the value of the addressed register to the written
    little-endian integer (nothing for a compare register of a hart that does
    not exist) and the value of no other register. *)
Theorem clint_write_reg64 c w o p :
  clint_wf c → (cl_hartCount c ≤ 0xfff)%nat →
  reg64_offset o → reg64_offset p →
  w_addr w = u64 (dbase (cl_id c) + p) → w_length w = 8%nat →
  Forall is_u8 (w_data w) → (8 ≤ length (w_data w))%nat →
  clint_reg64 (clint_write w c).1 o =
  if (o =? p) && ((p =? 0xbff8) || (Z.to_nat ((p - 0x4000) / 8) <? cl_hartCount c)%nat)
  then le_value (take 8 (w_data w)) else clint_reg64 c o.
Proof.
  intros [Hs Hc Hp'] Hn Ho Hp Ha Hl Hu Hd.
  pose proof (cmp_index p Hp) as (H1 & H2 & H3).
  pose proof (deserializeInt_range 8 _ Hu Hd) as Hr.
  rewrite <- deserializeInt_spec by done.
  unfold clint_write. rewrite Ha, u64_offset by (destruct Hp; lia).
  rewrite (proj2 (Z.ltb_ge _ _)) by (destruct Hp; lia). rewrite Hl. simpl Nat.eqb. cbn iota.
  rewrite H1, H2.
  replace (p - 0x4000 =? 0x7ff8) with (p =? 0xbff8)
    by (destruct (Z.eqb_spec p 0xbff8), (Z.eqb_spec (p - 0x4000) 0x7ff8); lia).
  destruct (Z.eqb_spec p 0xbff8) as [E|E].
  - rewrite processTimerInterrupts_regs, !clint_reg64_val by done. simpl.
    subst p. destruct (o =? 0xbff8); simpl; [|done]. by apply u64_small.
  - destruct (cl_hartCount c <=? _)%nat eqn:E1; zbool.
    + simpl. rewrite (proj2 (Nat.ltb_ge _ _)) by done. by rewrite andb_false_r.
    + rewrite processTimerInterrupts_regs, !clint_reg64_val by done. simpl.
      assert ((Z.to_nat ((p - 0x4000) / 8) <? cl_hartCount c)%nat = true) as Hlt
        by (by apply Nat.ltb_lt).
      rewrite Hlt, andb_true_r. destruct (Z.eqb_spec o p) as [->|Hne].
      * rewrite (proj2 (Z.eqb_neq _ _)) by done. rewrite Hlt.
        rewrite at_z_insert_eq by lia. by apply u64_small.
      * rewrite at_z_insert_ne; [done|]. intros E2. apply Hne.
        apply cmp_index_inj; [done|done|].
        pose proof (cmp_index o Ho) as (_ & _ & ?). lia.
Qed.

Lemma clint_write_reg64_witness :
  let c := clint_init "clint" 0x2000000 2 1 in
  let w := Write_t 0x2004008 8 (le_bytes 8 0x1122334455667788) [] 1 in
  clint_reg64 (clint_write w c).1 0x4008 = 0x1122334455667788 ∧
  clint_reg64 (clint_write w c).1 0x4000 = 2 ^ 64 - 1.
Proof.
  intros c w.
  assert (Hu : Forall is_u8 (w_data w)) by (apply bytes_ok_u8; vm_compute; reflexivity).
  split.
  - rewrite (clint_write_reg64 c w 0x4008 0x4008);
      [vm_compute; reflexivity|by apply clint_init_ok|simpl; lia|split; [lia|reflexivity]
      |split; [lia|reflexivity]|reflexivity|reflexivity|exact Hu|simpl; lia].
  - rewrite (clint_write_reg64 c w 0x4000 0x4008);
      [vm_compute; reflexivity|by apply clint_init_ok|simpl; lia|split; [lia|reflexivity]
      |split; [lia|reflexivity]|reflexivity|reflexivity|exact Hu|simpl; lia].
Defined.

(** ** Snapshots *)

Lemma strtoull_nil : strtoull 0 "" = 0.
Proof. reflexivity. Qed.

(** Reading back a [cmp] line the destructor printed. *)
Lemma clint_load_cmp_line c (i : nat) v :
  is_u64 v → is_u64 (Z.of_nat i) → (i < length (cl_timeCompare c))%nat →
  clint_load_line c (cmp_line i v) = Some (c <| cl_timeCompare ::= <[i := v]> |>).
Proof.
  intros Hv Hi Hlen. unfold clint_load_line, cmp_line.
  change ("cmp " +:+ ?x) with ("cmp" +:+ (" " +:+ x)).
  rewrite read_word_app by done.
  change (String.eqb (default "" (Some "cmp")) "timer") with false.
  change (String.eqb (default "" (Some "cmp")) "cmp") with true. cbn iota.
  rewrite read_word_space; [|apply dec_no_space, Hi|by apply dec_nonempty|done].
  rewrite <- (str_app_nil_r (dec v)) at 1.
  rewrite read_word_space; [|apply dec_no_space, Hv|by apply dec_nonempty|done].
  simpl default. rewrite !strtoull_dec by done.
  rewrite (proj2 (Z.ltb_lt _ _)) by lia. by rewrite Nat2Z.id.
Qed.

Lemma clint_load_timer_line c v :
  clint_load_line c ("timer " +:+ v) = Some (c <| cl_timer := 0 |>).
Proof.
  unfold clint_load_line. change ("timer " +:+ v) with ("timer" +:+ (" " +:+ v)).
  by rewrite read_word_app.
Qed.

Lemma clint_load_cmp_lines vs c k :
  Forall is_u64 vs → Z.of_nat (k + length vs) < 2 ^ 64 →
  (k + length vs ≤ length (cl_timeCompare c))%nat →
  clint_load c (imap (λ j, cmp_line (k + j)) vs) =
  Some (c <| cl_timeCompare ::= λ t, take k t ++ vs ++ drop (k + length vs) t |>).
Proof.
  revert c k; induction vs as [|v vs IH]; intros c k Hu Hk Hl.
  - simpl. rewrite Nat.add_0_r. destruct c; unfold modify; simpl. by rewrite take_drop.
  - apply Forall_cons in Hu as [Hv Hu]. simpl in Hk, Hl.
    rewrite imap_cons, Nat.add_0_r. cbn [clint_load].
    rewrite clint_load_cmp_line by (done || (split; lia) || lia). simpl.
    rewrite (imap_ext _ (λ j, cmp_line (S k + j))) by (intros; simpl; f_equal; lia).
    rewrite IH by (simpl; rewrite ?length_insert; (done || lia)).
    f_equal. unfold modify. simpl. f_equal.
    rewrite (take_S_r _ _ v) by (apply list_lookup_insert_eq; lia).
    rewrite take_insert_ge by lia. rewrite <- app_assoc. simpl.
    rewrite drop_insert_lt by lia.
    by replace (k + S (length vs))%nat with (S (k + length vs)) by lia.
Qed.

(** Loading the snapshot that the destructor saved restores every compare
    value; the constructor never reads the saved mtime, so the timer restarts
    at 0 whatever it was. *)
Theorem clint_snapshot_roundtrip tag addr div c :
  clint_wf c → Forall is_u64 (cl_timeCompare c) → Z.of_nat (cl_hartCount c) < 2 ^ 64 →
  ∃ c', clint_new tag addr (cl_hartCount c) div (Some (clint_save c)) = Some c' ∧
        cl_timeCompare c' = cl_timeCompare c ∧ cl_timer c' = 0.
Proof.
  intros [Hs Hc Hp] Hu Hn. eexists. split.
  - unfold clint_new, clint_save. cbn [clint_load]. rewrite clint_load_timer_line. simpl.
    apply (clint_load_cmp_lines (cl_timeCompare c) _ 0); simpl;
      rewrite ?length_replicate; (done || lia).
  - simpl. split; [|done]. rewrite drop_ge, app_nil_r; [done|].
    rewrite length_replicate. lia.
Qed.

Lemma clint_snapshot_roundtrip_witness :
  let c := (clint_run sample_clint_ops (clint_init "clint" 0x2000000 2 2)).1 in
  cl_timer c = 6 ∧
  ∃ c', clint_new "clint" 0x2000000 2 2 (Some (clint_save c)) = Some c' ∧
        cl_timeCompare c' = cl_timeCompare c ∧ cl_timer c' = 0.
Proof.
  intros c. split; [vm_compute; reflexivity|].
  apply (clint_snapshot_roundtrip "clint" 0x2000000 2 c).
  - split; vm_compute; reflexivity.
  - repeat constructor; vm_compute; congruence.
  - vm_compute. reflexivity.
Defined.

#[export] Instance clint_laws M : DeviceLaws M clint.
Proof.
  split; intros; simpl; try done.
  - assert (cl_id (clint_write w d).1 = cl_id d); [|by destruct (clint_write w d)].
    unfold clint_write, processTimerInterrupts. repeat case_match; by simplify_eq/=.
  - assert (cl_id (clint_tick n d).1 = cl_id d); [|by destruct (clint_tick n d)].
    unfold clint_tick, processTimerInterrupts. by destruct (foldl _ _ _).
Qed.
