(* ===== verification/Aclint.v ===== *)
(** * Aclint: the ACLINT timer (src/sysmod/aclint)

    The device is split between C++ and SystemVerilog.  [aclint_sv] is the
    state of the SystemVerilog module [aclint_model] (aclint.sv): the mtime
    counter, the compare registers that drive MTIP, and the request/acknowledge
    counters that hand DPI writes over to the reference-clock process.
    [aclint] is the C++ object together with the module instance it drives
    through the DPI functions; the DPI scope bookkeeping has no functional
    effect.  Clock edges are the steps [sv_ref_edge] and [sv_clk_edge]. *)

From S2P Require Import Prelude Bytes Cstd Device.
#[local] Open Scope string_scope.
#[local] Open Scope list_scope.
#[local] Open Scope Z_scope.

Definition NUM_MTIMECMP : nat := 9.
Definition NUM_CORE_MTIMECMP : nat := 8.
Definition MTIMECMP_RESET : Z := 0x00000000ffffffff.

(** ** aclint.sv *)

Record aclint_sv := Aclint_sv {
  mtime_q : Z;
  mtime_dpi : Z;
  mtime_wr_req : Z;
  mtime_wr_ack : Z;
  mtimecmp : list Z;
  mtimecmp_dpi : list Z;
  mtimecmp_wr_req : list Z;
  mtimecmp_wr_ack : list Z;
  ts_sync_req : Z;
  ts_sync_ack : Z;
  aclint_time_sync_q : bool;
  ref_clk_sync : bool * bool                  (* bits 1, 0 *)
}.

#[export] Instance eta_aclint_sv : Eta aclint_sv := λ s,
  Aclint_sv (mtime_q s) (mtime_dpi s) (mtime_wr_req s) (mtime_wr_ack s) (mtimecmp s)
    (mtimecmp_dpi s) (mtimecmp_wr_req s) (mtimecmp_wr_ack s) (ts_sync_req s)
    (ts_sync_ack s) (aclint_time_sync_q s) (ref_clk_sync s).

Definition aclint_sv_init : aclint_sv :=
  Aclint_sv 0 0 0 0 (replicate NUM_MTIMECMP MTIMECMP_RESET)
    (replicate NUM_MTIMECMP MTIMECMP_RESET) (replicate NUM_MTIMECMP 0)
    (replicate NUM_MTIMECMP 0) 0 0 false (false, false).

Definition sysmod_aclint_set_mtimecmp (hartid : nat) (val : Z) (s : aclint_sv) : aclint_sv :=
  s <| mtimecmp_dpi ::= <[hartid := val]> |>
    <| mtimecmp_wr_req ::= λ l, <[hartid := u32 (at_z l hartid + 1)]> l |>.

Definition sysmod_aclint_set_mtime (val : Z) (s : aclint_sv) : aclint_sv :=
  s <| mtime_dpi := val |> <| mtime_wr_req ::= λ n, u32 (n + 1) |>.

Definition sysmod_aclint_get_mtime (s : aclint_sv) : Z :=
  if negb (mtime_wr_req s =? mtime_wr_ack s) then mtime_dpi s else mtime_q s.

Definition sysmod_aclint_pulse_timesync (s : aclint_sv) : aclint_sv :=
  s <| ts_sync_req ::= λ n, u32 (n + 1) |>.

(** The two processes clocked by [aclint_ref_clk]; all assignments are
    non-blocking, so every right-hand side reads the old state. *)
Definition sv_mtime_edge (ref_reset : bool) (s : aclint_sv) : aclint_sv :=
  if ref_reset then
    s <| mtime_q := 0 |> <| mtime_wr_ack := mtime_wr_req s |>
  else if negb (mtime_wr_req s =? mtime_wr_ack s) then
    s <| mtime_q := mtime_dpi s |> <| mtime_wr_ack := mtime_wr_req s |>
  else s <| mtime_q := u64 (mtime_q s + 10) |>.

(** One iteration [i] of the compare process: the new register and ack. *)
Definition sv_cmp_next (ref_reset : bool) (s : aclint_sv) (i : nat) : Z * Z :=
  let req := at_z (mtimecmp_wr_req s) i in
  let ack := at_z (mtimecmp_wr_ack s) i in
  if ref_reset then (MTIMECMP_RESET, req)
  else if negb (req =? ack) then (at_z (mtimecmp_dpi s) i, req)
  else (at_z (mtimecmp s) i, ack).

Definition sv_cmp_edge (ref_reset : bool) (s : aclint_sv) : aclint_sv :=
  let nx := sv_cmp_next ref_reset s <$> seq 0 NUM_MTIMECMP in
  s <| mtimecmp := nx.*1 |> <| mtimecmp_wr_ack := nx.*2 |>.

(** The two processes touch disjoint registers. *)
Definition sv_ref_edge (ref_reset : bool) (s : aclint_sv) : aclint_sv :=
  sv_cmp_edge ref_reset (sv_mtime_edge ref_reset s).

(** The processes clocked by [clk]; [ref_clk] is the sampled level of
    [aclint_ref_clk]. *)
Definition sv_clk_edge (reset ref_clk : bool) (s : aclint_sv) : aclint_sv :=
  let s := if reset then s <| ref_clk_sync := (false, false) |>
           else s <| ref_clk_sync := ((ref_clk_sync s).2, ref_clk) |> in
  if reset then
    s <| aclint_time_sync_q := false |> <| ts_sync_ack := ts_sync_req s |>
  else
    s <| aclint_time_sync_q := negb (ts_sync_req s =? ts_sync_ack s) |>
      <| ts_sync_ack := ts_sync_req s |>.

Definition aclint_ref_pulse (s : aclint_sv) : bool :=
  (ref_clk_sync s).2 && negb (ref_clk_sync s).1.

(** [mtip[h]]. *)
Definition mtip (s : aclint_sv) (h : nat) : bool :=
  if (h <? NUM_CORE_MTIMECMP)%nat then at_z (mtimecmp s) h <=? mtime_q s else false.

(** ** aclint.cpp *)

(** The MMR offsets, set by command-line flags. *)
Record aclint_flags := Aclint_flags {
  fl_mtime : Z;
  fl_timesync : Z;
  fl_mtimecmp0 : Z
}.

Record aclint := Aclint {
  ac_id : device_id;
  ac_flags : aclint_flags;
  ac_hartCount : nat;
  ac_soft : list Z;
  ac_timeCompare : list Z;
  ac_ctimeAddr : Z;
  ac_sv : aclint_sv
}.

#[export] Instance eta_aclint : Eta aclint := λ a,
  Aclint (ac_id a) (ac_flags a) (ac_hartCount a) (ac_soft a) (ac_timeCompare a)
    (ac_ctimeAddr a) (ac_sv a).

Definition aclint_init (tag : string) (addr size : Z) (fl : aclint_flags) (hartCount : nat)
    (ctimeAddr : Z) (s : aclint_sv) : aclint :=
  Aclint (Device_id tag addr size) fl hartCount (replicate hartCount 0)
    (replicate NUM_MTIMECMP MTIMECMP_RESET) ctimeAddr s.

(** One line of the snapshot; an index out of range is skipped. *)
Definition aclint_load_line (a : aclint) (line : string) : aclint :=
  let val := EmptyString in
  let '(w, iss) := read_word line in
  if String.eqb (default EmptyString w) "cmp" then
    let '(w, iss) := read_word iss in
    let val := default val w in
    let num := strtoull 0 val in
    let '(w, _) := read_word iss in
    let val := default val w in
    if Z.of_nat NUM_MTIMECMP <=? num then a
    else a <| ac_timeCompare ::= <[Z.to_nat num := strtoull 0 val]> |>
  else a.

Definition aclint_new (tag : string) (addr size : Z) (fl : aclint_flags) (hartCount : nat)
    (ctimeAddr : Z) (s : aclint_sv) (snap : option (list string)) : aclint :=
  foldl aclint_load_line (aclint_init tag addr size fl hartCount ctimeAddr s)
    (default [] snap).

Definition aclint_save (a : aclint) : list string :=
  imap (λ i v, "cmp " +:+ dec (Z.of_nat i) +:+ " " +:+ dec v) (ac_timeCompare a).

(** [aligned >= mtimecmp0 && aligned < mtimecmp0 + NUM_MTIMECMP * 8] *)
Definition in_mtimecmp (fl : aclint_flags) (aligned : Z) : bool :=
  (fl_mtimecmp0 fl <=? aligned) &&
  (aligned <? u64 (fl_mtimecmp0 fl + Z.of_nat NUM_MTIMECMP * 8)).

Definition cmpIx (fl : aclint_flags) (aligned : Z) : nat :=
  Z.to_nat (u32 (u64 (aligned - fl_mtimecmp0 fl) / 8)).

(** The register an access selects: [None] is [!matched]. *)
Definition aclint_reg (a : aclint) (aligned : Z) : option Z :=
  let fl := ac_flags a in
  if aligned =? fl_mtime fl then Some (sysmod_aclint_get_mtime (ac_sv a))
  else if aligned =? fl_timesync fl then Some 0
  else if in_mtimecmp fl aligned then Some (at_z (ac_timeCompare a) (cmpIx fl aligned))
  else None.

Definition aclint_read (r : read_t) (data : list Z) (a : aclint) : list Z :=
  let len := r_length r in
  if negb (len =? 4)%nat && negb (len =? 8)%nat then data
  else
    let offset := u64 (r_addr r - dbase (ac_id a)) in
    let aligned := offset &&& not64 7 in
    let hi := negb (offset &&& 4 =? 0) in
    match aclint_reg a aligned with
    | None => data
    | Some reg =>
        let reg := if (len =? 4)%nat
                   then (if hi then reg ≫ 32 else reg &&& 0xffffffff) else reg in
        serializeInt reg len data
    end.

Definition merge (len : nat) (hi : bool) (wdata old : Z) : Z :=
  if (len =? 8)%nat then wdata
  else if hi then (old &&& 0x00000000ffffffff) ||| ((wdata &&& 0xffffffff) ≪ 32)
  else (old &&& 0xffffffff00000000) ||| (wdata &&& 0xffffffff).

Definition broadcastTime (a : aclint) : aclint * list event :=
  if ac_ctimeAddr a =? 0 then (a, [])
  else
    let t := sysmod_aclint_get_mtime (ac_sv a) in
    (a <| ac_sv ::= sysmod_aclint_pulse_timesync |>,
     [EvWriteRequest (mk_write_request (ac_ctimeAddr a) 8
        (serializeInt t 8 (replicate 8 0)) (replicate 8 true) false)]).

Definition aclint_write (w : write_t) (a : aclint) : aclint * list event :=
  let len := w_length w in
  if negb (len =? 4)%nat && negb (len =? 8)%nat then (a, [])
  else
    let fl := ac_flags a in
    let offset := u64 (w_addr w - dbase (ac_id a)) in
    let aligned := offset &&& not64 7 in
    let hi := negb (offset &&& 4 =? 0) in
    let wdata := deserializeInt (len `min` 8) (w_data w) in
    if aligned =? fl_mtime fl then
      broadcastTime (a <| ac_sv ::= λ s,
        sysmod_aclint_set_mtime (merge len hi wdata (sysmod_aclint_get_mtime s)) s |>)
    else if aligned =? fl_timesync fl then
      if negb (wdata &&& 0xff =? 0) then broadcastTime a else (a, [])
    else if in_mtimecmp fl aligned then
      let ix := cmpIx fl aligned in
      let v := merge len hi wdata (at_z (ac_timeCompare a) ix) in
      (a <| ac_timeCompare ::= <[ix := v]> |>
         <| ac_sv ::= sysmod_aclint_set_mtimecmp ix v |>, [])
    else (a, []).

#[export] Instance aclint_device M : Device M aclint := {
  dev_id := ac_id;
  dev_write w '(a, m) := let '(a', evs) := aclint_write w a in ((a', m), evs);
  dev_read r data '(a, m) := ((a, m), [], aclint_read r data a);
  dev_tick _ dm := (dm, []);
  dev_backdoor_write _ _ _ _ dm := dm;
  dev_backdoor_read _ _ bs dm := (dm, bs)
}.

(** ** Sequences of bus writes and clock edges *)

Inductive aclint_op :=
| AWrite (w : write_t)
| ARefEdge (ref_reset : bool)
| AClkEdge (reset ref_clk : bool).

Definition aclint_step (a : aclint) (o : aclint_op) : aclint :=
  match o with
  | AWrite w => (aclint_write w a).1
  | ARefEdge r => a <| ac_sv ::= sv_ref_edge r |>
  | AClkEdge r c => a <| ac_sv ::= sv_clk_edge r c |>
  end.

Definition aclint_run (os : list aclint_op) (a : aclint) : aclint := foldl aclint_step a os.

(** ** The compare registers and their mirror *)

(** What the compare register will hold after the next reference edge. *)
Definition sv_cmp_view (s : aclint_sv) (i : nat) : Z :=
  if negb (at_z (mtimecmp_wr_req s) i =? at_z (mtimecmp_wr_ack s) i)
  then at_z (mtimecmp_dpi s) i else at_z (mtimecmp s) i.

(** After at most [n] writes: the counters have not wrapped and the C++ mirror
    is the view of the SystemVerilog registers. *)
Record aclint_inv (a : aclint) (n : Z) : Prop := {
  inv_cmp_len : length (ac_timeCompare a) = NUM_MTIMECMP;
  inv_dpi_len : length (mtimecmp_dpi (ac_sv a)) = NUM_MTIMECMP;
  inv_req_len : length (mtimecmp_wr_req (ac_sv a)) = NUM_MTIMECMP;
  inv_cnt i : (i < NUM_MTIMECMP)%nat →
    0 ≤ at_z (mtimecmp_wr_ack (ac_sv a)) i ≤ at_z (mtimecmp_wr_req (ac_sv a)) i ≤ n;
  inv_mirror i : (i < NUM_MTIMECMP)%nat →
    at_z (ac_timeCompare a) i = sv_cmp_view (ac_sv a) i
}.

Lemma at_z_fmap_seq {A} (f : nat → A) (g : A → Z) n i :
  (i < n)%nat → at_z (g <$> (f <$> seq 0 n)) i = g (f i).
Proof.
  intros. apply at_z_Some. by rewrite !list_lookup_fmap, lookup_seq_lt by done.
Qed.

Lemma sv_ref_edge_cmp s i :
  (i < NUM_MTIMECMP)%nat →
  at_z (mtimecmp (sv_ref_edge false s)) i = sv_cmp_view s i ∧
  at_z (mtimecmp_wr_ack (sv_ref_edge false s)) i = at_z (mtimecmp_wr_req s) i ∧
  mtimecmp_wr_req (sv_ref_edge false s) = mtimecmp_wr_req s ∧
  mtimecmp_dpi (sv_ref_edge false s) = mtimecmp_dpi s.
Proof.
  intros Hi. unfold sv_ref_edge, sv_cmp_edge. cbn [mtimecmp mtimecmp_wr_ack modify].
  set (s' := sv_mtime_edge false s).
  assert (mtimecmp_wr_req s' = mtimecmp_wr_req s ∧ mtimecmp_wr_ack s' = mtimecmp_wr_ack s ∧
          mtimecmp_dpi s' = mtimecmp_dpi s ∧ mtimecmp s' = mtimecmp s) as (E1 & E2 & E3 & E4)
    by (unfold s', sv_mtime_edge; by destruct (negb _)).
  unfold modify; simpl mtimecmp; simpl mtimecmp_wr_ack; simpl mtimecmp_wr_req;
    simpl mtimecmp_dpi.
  rewrite !at_z_fmap_seq by done. unfold sv_cmp_next, sv_cmp_view. rewrite E1, E2, E3, E4.
  destruct (negb _) eqn:E; simpl; split_and!; try done. by zbool.
Qed.

Lemma aclint_inv_mono a n n' : aclint_inv a n → n ≤ n' → aclint_inv a n'.
Proof.
  intros [? ? ? Hc ?] Hn. split; try done.
  intros i Hi. specialize (Hc i Hi). lia.
Qed.

(** Updates of the SystemVerilog state that leave the compare side alone. *)
Lemma aclint_inv_sv a n s' :
  aclint_inv a n →
  mtimecmp s' = mtimecmp (ac_sv a) → mtimecmp_dpi s' = mtimecmp_dpi (ac_sv a) →
  mtimecmp_wr_req s' = mtimecmp_wr_req (ac_sv a) →
  mtimecmp_wr_ack s' = mtimecmp_wr_ack (ac_sv a) →
  aclint_inv (a <| ac_sv := s' |>) n.
Proof.
  intros [] E1 E2 E3 E4. split; simpl; rewrite ?E2, ?E3, ?E4; try done.
  intros i Hi. unfold sv_cmp_view. rewrite E1, E2, E3, E4. by apply inv_mirror0.
Qed.

Lemma aclint_inv_set_cmp a n ix v :
  aclint_inv a n → (ix < NUM_MTIMECMP)%nat → n + 1 < 2 ^ 32 →
  aclint_inv (a <| ac_timeCompare ::= <[ix := v]> |>
                <| ac_sv ::= sysmod_aclint_set_mtimecmp ix v |>) (n + 1).
Proof.
  intros [Hc Hd Hr Hcnt Hm] Hix Hn.
  pose proof (Hcnt ix Hix) as Hx.
  assert (u32 (at_z (mtimecmp_wr_req (ac_sv a)) ix + 1) =
          at_z (mtimecmp_wr_req (ac_sv a)) ix + 1) as Hu by (apply u32_small; split; lia).
  split; simpl; rewrite ?length_insert; try done.
  - intros i Hi. specialize (Hcnt i Hi). destruct (decide (i = ix)) as [->|Hne].
    + rewrite at_z_insert_eq by lia. lia.
    + rewrite at_z_insert_ne by done. lia.
  - intros i Hi. unfold sv_cmp_view. simpl. destruct (decide (i = ix)) as [->|Hne].
    + rewrite !at_z_insert_eq, Hu by lia.
      rewrite (proj2 (Z.eqb_neq _ _)) by lia. done.
    + rewrite !at_z_insert_ne by done. by apply Hm.
Qed.

Lemma cmpIx_bound fl al :
  0 ≤ fl_mtimecmp0 fl → in_mtimecmp fl al = true → (cmpIx fl al < NUM_MTIMECMP)%nat.
Proof.
  intros H0 H. unfold in_mtimecmp in H. zbool.
  pose proof (Z.mod_le (fl_mtimecmp0 fl + Z.of_nat NUM_MTIMECMP * 8) (2 ^ 64)).
  unfold cmpIx, u64, NUM_MTIMECMP in *.
  pose proof (Z.mod_pos_bound (fl_mtimecmp0 fl + Z.of_nat 9 * 8) (2 ^ 64) ltac:(lia)).
  assert (0 ≤ al - fl_mtimecmp0 fl < 72) by lia.
  rewrite (Z.mod_small (al - _)) by lia.
  assert (0 ≤ (al - fl_mtimecmp0 fl) / 8 < 9)
    by (split; [apply Z.div_pos; lia|apply Z.div_lt_upper_bound; lia]).
  rewrite u32_small by (split; lia). lia.
Qed.

Lemma broadcastTime_inv a n : aclint_inv a n → aclint_inv (broadcastTime a).1 n.
Proof. intros H. unfold broadcastTime. destruct (_ =? 0); [done|]. by apply (aclint_inv_sv a). Qed.

Lemma aclint_write_inv w a n :
  0 ≤ fl_mtimecmp0 (ac_flags a) → aclint_inv a n → n + 1 < 2 ^ 32 →
  aclint_inv (aclint_write w a).1 (n + 1).
Proof.
  intros H0 Ha Hn. pose proof (aclint_inv_mono _ _ (n + 1) Ha ltac:(lia)) as Ha'.
  unfold aclint_write. repeat case_match; simpl; try done.
  - apply broadcastTime_inv. by apply (aclint_inv_sv a).
  - by apply broadcastTime_inv.
  - apply aclint_inv_set_cmp; [done|by apply cmpIx_bound|done].
Qed.

Lemma aclint_ref_edge_inv a n :
  aclint_inv a n → aclint_inv (a <| ac_sv ::= sv_ref_edge false |>) n.
Proof.
  intros [Hc Hd Hr Hcnt Hm].
  pose proof (sv_ref_edge_cmp (ac_sv a) 0 ltac:(unfold NUM_MTIMECMP; lia)) as (_ & _ & Er & Ed).
  split; try done; cbn [ac_sv ac_timeCompare modify]; unfold modify; simpl ac_sv; simpl ac_timeCompare.
  - by rewrite Ed.
  - by rewrite Er.
  - intros i Hi. destruct (sv_ref_edge_cmp (ac_sv a) i Hi) as (_ & -> & -> & _).
    specialize (Hcnt i Hi). lia.
  - intros i Hi. unfold sv_cmp_view.
    destruct (sv_ref_edge_cmp (ac_sv a) i Hi) as (-> & -> & -> & _).
    rewrite Z.eqb_refl. by apply Hm.
Qed.

Definition not_ref_reset (o : aclint_op) : Prop := o ≠ ARefEdge true.

Lemma aclint_step_flags a o : ac_flags (aclint_step a o) = ac_flags a.
Proof.
  destruct o; simpl; try done. unfold aclint_write, broadcastTime. by repeat case_match.
Qed.

Lemma aclint_step_inv a o n :
  0 ≤ fl_mtimecmp0 (ac_flags a) → not_ref_reset o → aclint_inv a n → n + 1 < 2 ^ 32 →
  aclint_inv (aclint_step a o) (n + 1).
Proof.
  intros H0 Ho Ha Hn. destruct o as [w|[|]|r c]; simpl.
  - by apply aclint_write_inv.
  - by destruct Ho.
  - eapply aclint_inv_mono; [by apply aclint_ref_edge_inv|lia].
  - eapply aclint_inv_mono; [|instantiate (1 := n); lia].
    apply (aclint_inv_sv a); [done|..]; unfold sv_clk_edge; by destruct r.
Qed.

Lemma aclint_run_inv os a n :
  0 ≤ fl_mtimecmp0 (ac_flags a) → Forall not_ref_reset os → aclint_inv a n →
  n + Z.of_nat (length os) < 2 ^ 32 →
  aclint_inv (aclint_run os a) (n + Z.of_nat (length os)).
Proof.
  revert a n; induction os as [|o os IH]; intros a n H0 Hos Ha Hn; simpl in *.
  - by rewrite Z.add_0_r.
  - apply Forall_cons in Hos as [Ho Hos].
    replace (n + Z.of_nat (S (length os))) with ((n + 1) + Z.of_nat (length os)) by lia.
    apply IH; [by rewrite aclint_step_flags|done| |lia].
    apply aclint_step_inv; (done || lia).
Qed.

Lemma aclint_init_inv tag addr size fl n ct :
  aclint_inv (aclint_init tag addr size fl n ct aclint_sv_init) 0.
Proof.
  split; [done|done|done| |]; intros i Hi;
    do 9 (destruct i as [|i]; [cbn; (reflexivity || lia)|]); unfold NUM_MTIMECMP in Hi; lia.
Qed.

(** The C++ compare mirror and the SystemVerilog registers agree: after any
    sequence of bus writes and clock edges that ends in a reference edge (and
    has no reference reset), MTIP of every core hart is [mtime >= mtimecmp]
    for the mtimecmp value that software reads back from the C++ model. *)
Theorem aclint_mtip_tracks_mirror tag addr size fl n ct os h :
  0 ≤ fl_mtimecmp0 fl → Forall not_ref_reset os → Z.of_nat (length os) < 2 ^ 32 →
  (h < NUM_CORE_MTIMECMP)%nat →
  let a := aclint_run (os ++ [ARefEdge false])
             (aclint_init tag addr size fl n ct aclint_sv_init) in
  mtip (ac_sv a) h = (at_z (ac_timeCompare a) h <=? mtime_q (ac_sv a)).
Proof.
  intros H0 Hos Hl Hh. unfold aclint_run. rewrite foldl_snoc. simpl.
  pose proof (aclint_run_inv os (aclint_init tag addr size fl n ct aclint_sv_init) 0 H0 Hos
                (aclint_init_inv tag addr size fl n ct) ltac:(lia)) as [_ _ _ _ Hm].
  fold (aclint_run os (aclint_init tag addr size fl n ct aclint_sv_init)).
  set (a := aclint_run _ _) in *.
  unfold mtip. rewrite (proj2 (Nat.ltb_lt _ _)) by done.
  assert (h < NUM_MTIMECMP)%nat as Hh' by (unfold NUM_CORE_MTIMECMP, NUM_MTIMECMP in *; lia).
  unfold modify; simpl ac_sv; simpl ac_timeCompare.
  destruct (sv_ref_edge_cmp (ac_sv a) h Hh') as (-> & _). by rewrite Hm.
Qed.

Definition sample_flags : aclint_flags := Aclint_flags 0x0 0x8 0x10.
Definition sample_aclint_ops : list aclint_op :=
  [AWrite (Write_t 0x4018 8 (le_bytes 8 15) [] 0); ARefEdge false; AClkEdge false true;
   ARefEdge false].

Lemma aclint_mtip_tracks_mirror_witness :
  let a := aclint_run (sample_aclint_ops ++ [ARefEdge false])
             (aclint_init "aclint" 0x4000 0x1000 sample_flags 2 0 aclint_sv_init) in
  at_z (ac_timeCompare a) 1 = 15 ∧ mtime_q (ac_sv a) = 30 ∧ mtip (ac_sv a) 1 = true.
Proof.
  intros a. split; [vm_compute; reflexivity|]. split; [vm_compute; reflexivity|].
  unfold a. rewrite (aclint_mtip_tracks_mirror "aclint" 0x4000 0x1000 sample_flags 2 0
    sample_aclint_ops 1).
  - vm_compute. reflexivity.
  - simpl. lia.
  - repeat constructor; discriminate.
  - simpl. lia.
  - unfold NUM_CORE_MTIMECMP. lia.
Defined.

(** ** Partial-width accesses *)

Definition word_access (len : nat) (o : Z) : Prop :=
  (len = 4%nat ∨ len = 8%nat) ∧ o mod Z.of_nat len = 0.

(** The width merge overwrites exactly the addressed bytes of the register. *)
Lemma merge_splice len o old data :
  word_access len o → Forall is_u8 data → (len ≤ length data)%nat → is_u64 old →
  le_bytes 8 (merge len (4 <=? o mod 8) (deserializeInt len data) old) =
  splice (le_bytes 8 old) (Z.to_nat (o mod 8)) (take len data).
Proof.
  intros [[-> | ->] Ho] Hu Hl Hold; unfold merge, splice; simpl Nat.eqb; cbn iota.
  - pose proof (deserializeInt_range 4 data Hu Hl) as Hw. change (8 * Z.of_nat 4) with 32 in Hw.
    assert (deserializeInt 4 data &&& 0xffffffff = deserializeInt 4 data) as ->.
    { change 0xffffffff with (Z.ones 32). rewrite Z.land_ones by lia. by apply Z.mod_small. }
    assert (o mod 8 = 0 ∨ o mod 8 = 4) as Ho'.
    { change (Z.of_nat 4) with 4 in Ho. pose proof (Z.div_mod o 8 ltac:(lia)).
      pose proof (Z.div_mod o 4 ltac:(lia)). pose proof (Z.mod_pos_bound o 8 ltac:(lia)). lia. }
    rewrite (le_bytes_words_div old). rewrite length_take.
    replace (4 `min` length data)%nat with 4%nat by lia.
    rewrite <- (le_bytes_deserialize 4 data) by done.
    destruct Ho' as [-> | ->]; [change (4 <=? 0) with false|change (4 <=? 4) with true]; cbn iota.
    + assert ((old &&& 0xffffffff00000000) ||| deserializeInt 4 data =
              deserializeInt 4 data + (old / 2 ^ 32) * 2 ^ 32) as ->.
      { rewrite <- lor_shiftl_add by lia. rewrite Z.lor_comm. f_equal.
        rewrite <- Z.shiftr_div_pow2 by lia.
        apply Z.bits_inj'. intros i Hi. change 0xffffffff00000000 with (Z.ones 32 ≪ 32).
        rewrite Z.land_spec, !Z.shiftl_spec by lia. destruct (decide (i < 32)).
        - rewrite !(Z.testbit_neg_r _ (i - 32)) by lia. apply andb_false_r.
        - rewrite Z.shiftr_spec by lia. replace (i - 32 + 32) with i by lia.
          destruct (decide (i < 64)).
          + rewrite Z.ones_spec_low by lia. apply andb_true_r.
          + by rewrite (testbit_above old 64 i) by (unfold is_u64 in *; lia). }
      rewrite le_bytes_words by done. simpl Z.to_nat. cbn [take app].
      by rewrite drop_app_length' by done.
    + change 0x00000000ffffffff with (Z.ones 32). rewrite Z.land_ones by lia.
      rewrite lor_shiftl_add by (try apply Z.mod_pos_bound; lia).
      rewrite le_bytes_words by (apply Z.mod_pos_bound; lia).
      change (Z.to_nat 4) with 4%nat. rewrite take_app_length' by done.
      by rewrite drop_ge, app_nil_r by done.
  - change (Z.of_nat 8) with 8 in Ho. rewrite Ho. change (Z.to_nat 0) with 0%nat.
    rewrite le_bytes_deserialize, length_take by done. cbn [take app].
    rewrite drop_ge, app_nil_r by (rewrite length_le_bytes; lia). done.
Qed.

(** The register layout of an integration: compare window aligned, inside the
    address space, and clear of the other two registers. *)
Record flags_ok (fl : aclint_flags) : Prop := {
  fo_cmp : 0 ≤ fl_mtimecmp0 fl ∧ fl_mtimecmp0 fl + 72 < 2 ^ 64;
  fo_align : fl_mtimecmp0 fl mod 8 = 0;
  fo_mtime : fl_mtime fl < fl_mtimecmp0 fl ∨ fl_mtimecmp0 fl + 72 ≤ fl_mtime fl;
  fo_timesync : fl_timesync fl < fl_mtimecmp0 fl ∨ fl_mtimecmp0 fl + 72 ≤ fl_timesync fl
}.

(** Decoding of an access at byte [o] of the compare window. *)
Lemma cmp_window_decode fl o :
  flags_ok fl → 0 ≤ o < 72 →
  let offset := fl_mtimecmp0 fl + o in
  let aligned := offset &&& not64 7 in
  (aligned =? fl_mtime fl) = false ∧ (aligned =? fl_timesync fl) = false ∧
  in_mtimecmp fl aligned = true ∧ cmpIx fl aligned = Z.to_nat (o / 8) ∧
  negb (offset &&& 4 =? 0) = (4 <=? o mod 8).
Proof.
  intros [Hc Ha Hm Ht] Ho. cbv zeta. set (b := fl_mtimecmp0 fl) in *.
  pose proof (Z.div_mod o 8 ltac:(lia)) as Hdm. pose proof (Z.mod_pos_bound o 8 ltac:(lia)).
  rewrite land_4, land_not7 by (split; lia).
  assert ((b + o) mod 8 = o mod 8) as -> by (rewrite Z.add_mod, Ha, Z.add_0_l, Z.mod_mod; lia).
  replace (b + o - o mod 8) with (b + 8 * (o / 8)) by lia.
  assert (0 ≤ o / 8 < 9) by (split; [apply Z.div_pos; lia|apply Z.div_lt_upper_bound; lia]).
  split_and!; [apply Z.eqb_neq; lia|apply Z.eqb_neq; lia| | |done].
  - unfold in_mtimecmp. fold b. change (Z.of_nat NUM_MTIMECMP * 8) with 72.
    rewrite u64_small by (split; lia). apply andb_true_iff. split; [apply Z.leb_le|apply Z.ltb_lt]; lia.
  - unfold cmpIx. fold b. replace (b + 8 * (o / 8) - b) with (o / 8 * 8) by lia.
    rewrite u64_small by (split; lia). rewrite Z.div_mul, u32_small by (done || split; lia). done.
Qed.

Lemma word_access_fits len o :
  word_access len o → (Z.to_nat (o mod 8) + len ≤ 8)%nat.
Proof.
  intros [[-> | ->] Ho].
  - change (Z.of_nat 4) with 4 in Ho. pose proof (Z.div_mod o 8 ltac:(lia)).
    pose proof (Z.div_mod o 4 ltac:(lia)). pose proof (Z.mod_pos_bound o 8 ltac:(lia)). lia.
  - change (Z.of_nat 8) with 8 in Ho. rewrite Ho. simpl. lia.
Qed.

Lemma word_access_len len o : word_access len o → negb (len =? 4)%nat && negb (len =? 8)%nat = false.
Proof. by intros [[-> | ->] _]. Qed.

(** A 4- or 8-byte read returns the addressed bytes of the register. *)
Lemma read_slice len o reg buf :
  word_access len o → is_u64 reg → length buf = len →
  serializeInt (if (len =? 4)%nat
                then (if 4 <=? o mod 8 then reg ≫ 32 else reg &&& 0xffffffff) else reg) len buf
  = take len (drop (Z.to_nat (o mod 8)) (le_bytes 8 reg)).
Proof.
  intros Hw Hreg Hb. rewrite serializeInt_full by done.
  pose proof (word_access_fits _ _ Hw) as Hf. destruct Hw as [[-> | ->] Ho]; simpl Nat.eqb; cbn iota.
  - rewrite le_bytes_words_div. change (Z.of_nat 4) with 4 in Ho.
    pose proof (Z.div_mod o 8 ltac:(lia)). pose proof (Z.div_mod o 4 ltac:(lia)).
    pose proof (Z.mod_pos_bound o 8 ltac:(lia)).
    destruct (4 <=? o mod 8) eqn:E; zbool.
    + replace (Z.to_nat (o mod 8)) with 4%nat by lia.
      rewrite drop_app_length', take_ge, Z.shiftr_div_pow2 by (done || lia). done.
    + replace (Z.to_nat (o mod 8)) with 0%nat by lia. change 0xffffffff with (Z.ones 32).
      rewrite Z.land_ones by lia. by rewrite drop_0, take_app_length' by done.
  - change (Z.of_nat 8) with 8 in Ho. by rewrite Ho.
Qed.

(** The mtimecmp window is a byte array under aligned 4- and 8-byte
    accesses: a read returns the addressed bytes of the registers laid out in
    little-endian order, a write replaces exactly the addressed bytes. *)
Theorem aclint_cmp_window a o len id buf w :
  flags_ok (ac_flags a) → length (ac_timeCompare a) = NUM_MTIMECMP →
  Forall is_u64 (ac_timeCompare a) → 0 ≤ o < 72 → word_access len o → length buf = len →
  w_addr w = u64 (dbase (ac_id a) + (fl_mtimecmp0 (ac_flags a) + o)) → w_length w = len →
  Forall is_u8 (w_data w) → (len ≤ length (w_data w))%nat →
  let window a := reg_bytes (ac_timeCompare a) in
  aclint_read (Read_t id (w_addr w) len) buf a = take len (drop (Z.to_nat o) (window a)) ∧
  window (aclint_write w a).1 = splice (window a) (Z.to_nat o) (take len (w_data w)).
Proof.
  intros Hf Hlen Hu64 Ho Hw Hb Ha Hl Hu Hd window.
  destruct (cmp_window_decode _ o Hf Ho) as (E1 & E2 & E3 & E4 & E5).
  assert (0 ≤ o / 8 < 9) as Hq
    by (split; [apply Z.div_pos; lia|apply Z.div_lt_upper_bound; lia]).
  destruct (lookup_lt_is_Some_2 (ac_timeCompare a) (Z.to_nat (o / 8))) as [v Hv].
  { rewrite Hlen. unfold NUM_MTIMECMP. lia. }
  pose proof (Forall_lookup_1 _ _ _ _ Hu64 Hv) as Hvu.
  assert (Z.to_nat o = 8 * Z.to_nat (o / 8) + Z.to_nat (o mod 8))%nat as Hsplit.
  { pose proof (Z.div_mod o 8 ltac:(lia)). pose proof (Z.mod_pos_bound o 8 ltac:(lia)). lia. }
  pose proof (word_access_fits _ _ Hw) as Hfit. pose proof (word_access_len _ _ Hw) as Hwl.
  assert (u64 (w_addr w - dbase (ac_id a)) = fl_mtimecmp0 (ac_flags a) + o) as Hoff.
  { rewrite Ha. apply u64_offset. destruct Hf as [? _ _ _]. lia. }
  split.
  - unfold aclint_read. simpl r_length. simpl r_addr. rewrite Hwl, Hoff.
    unfold aclint_reg. rewrite E1, E2, E3, E4, E5, (at_z_Some _ _ _ Hv).
    rewrite read_slice by done. unfold window. rewrite Hsplit.
    by rewrite (reg_bytes_read _ _ v) by done.
  - unfold aclint_write. rewrite Hl, Hwl, Hoff, E1, E2, E3, E4, E5, (at_z_Some _ _ _ Hv).
    unfold window. simpl. rewrite Hsplit. apply (reg_bytes_write _ _ v); [done| |].
    + rewrite length_take. lia.
    + replace (len `min` 8)%nat with len by lia. by apply merge_splice.
Qed.

Lemma aclint_cmp_window_witness :
  let a := aclint_init "aclint" 0x4000 0x1000 sample_flags 2 0 aclint_sv_init in
  let w := Write_t 0x401c 4 [1; 2; 3; 4] [] 0 in
  aclint_read (Read_t 1 0x401c 4) [0;0;0;0] a = [0; 0; 0; 0] ∧
  reg_bytes (ac_timeCompare (aclint_write w a).1) =
  splice (reg_bytes (ac_timeCompare a)) 12 [1; 2; 3; 4].
Proof.
  intros a w.
  apply (aclint_cmp_window a 12 4 1 [0;0;0;0] w);
    [split; simpl; (lia || reflexivity)|reflexivity| |lia| |reflexivity|reflexivity|reflexivity| |simpl; lia].
  - change (Forall is_u64 (replicate 9 MTIMECMP_RESET)).
    apply Forall_replicate. split; vm_compute; congruence.
  - split; [left|]; reflexivity.
  - apply bytes_ok_u8. reflexivity.
Defined.

Lemma get_set_mtime v s :
  u32 (mtime_wr_req s + 1) ≠ mtime_wr_ack s →
  sysmod_aclint_get_mtime (sysmod_aclint_set_mtime v s) = v.
Proof.
  intros H. unfold sysmod_aclint_get_mtime, sysmod_aclint_set_mtime, modify. simpl.
  by rewrite (proj2 (Z.eqb_neq _ _)) by done.
Qed.

Lemma edge_set_mtime v s :
  u32 (mtime_wr_req s + 1) ≠ mtime_wr_ack s →
  mtime_q (sv_ref_edge false (sysmod_aclint_pulse_timesync (sysmod_aclint_set_mtime v s))) = v.
Proof.
  intros H. unfold sv_ref_edge, sv_mtime_edge. simpl.
  by rewrite (proj2 (Z.eqb_neq _ _)) by done.
Qed.

(** A software write of mtime is staged, observed by the very next read,
    broadcast to the configured CTIME register as one full 8-byte write of
    the merged value, and committed to the counter at the next reference edge. *)
Theorem aclint_mtime_write a o len w :
  let fl := ac_flags a in
  is_u64 (fl_mtime fl) → fl_mtime fl mod 8 = 0 → 0 ≤ o < 8 → word_access len o →
  w_addr w = u64 (dbase (ac_id a) + (fl_mtime fl + o)) → w_length w = len →
  ac_ctimeAddr a ≠ 0 → u32 (mtime_wr_req (ac_sv a) + 1) ≠ mtime_wr_ack (ac_sv a) →
  let new := merge len (4 <=? o) (deserializeInt len (w_data w))
               (sysmod_aclint_get_mtime (ac_sv a)) in
  (aclint_write w a).2 =
    [EvWriteRequest (mk_write_request (ac_ctimeAddr a) 8 (le_bytes 8 new) (replicate 8 true) false)] ∧
  sysmod_aclint_get_mtime (ac_sv (aclint_write w a).1) = new ∧
  mtime_q (sv_ref_edge false (ac_sv (aclint_write w a).1)) = new.
Proof.
  intros fl Hfl Hfa Ho Hw Ha Hl Hct Hreq new.
  pose proof (word_access_len _ _ Hw) as Hwl.
  assert (fl_mtime fl + o < 2 ^ 64) as Htop.
  { destruct Hfl as [_ Hfl]. pose proof (Z.div_mod (fl_mtime fl) 8 ltac:(lia)). lia. }
  assert (u64 (w_addr w - dbase (ac_id a)) = fl_mtime fl + o) as Hoff.
  { rewrite Ha. apply u64_offset. destruct Hfl. lia. }
  assert ((fl_mtime fl + o) mod 8 = o) as Hm
    by (rewrite Z.add_mod, Hfa, Z.add_0_l, Z.mod_mod, Z.mod_small; lia).
  assert ((fl_mtime fl + o) &&& not64 7 = fl_mtime fl) as Hal
    by (rewrite land_not7 by (destruct Hfl; split; lia); lia).
  unfold aclint_write. fold fl. rewrite Hl, Hwl, Hoff, land_4, Hm, Hal, Z.eqb_refl.
  replace (len `min` 8)%nat with len by (destruct Hw as [[-> | ->] _]; lia).
  unfold broadcastTime, modify. simpl ac_ctimeAddr. simpl ac_sv. fold new.
  rewrite (proj2 (Z.eqb_neq _ _)) by done. simpl.
  rewrite get_set_mtime, serializeInt_full by done.
  split_and!; [done|by apply get_set_mtime|by apply edge_set_mtime].
Qed.

Lemma aclint_mtime_write_witness :
  let a := aclint_init "aclint" 0x4000 0x1000 sample_flags 2 0x9000 aclint_sv_init in
  let w := Write_t 0x4004 4 [1; 0; 0; 0] [] 0 in
  (aclint_write w a).2 =
    [EvWriteRequest (mk_write_request 0x9000 8 [0;0;0;0;1;0;0;0] (replicate 8 true) false)] ∧
  mtime_q (sv_ref_edge false (ac_sv (aclint_write w a).1)) = 2 ^ 32.
Proof.
  intros a w.
  destruct (aclint_mtime_write a 4 4 w) as (H1 & _ & H3);
    [simpl; split; lia|reflexivity|lia|split; [left|]; reflexivity|reflexivity|reflexivity
    |discriminate|vm_compute; discriminate|].
  split; [rewrite H1|rewrite H3]; reflexivity.
Defined.

(** A reference reset returns the SystemVerilog compare registers to their
    reset value but not the C++ mirror: software then reads a value that MTIP
    no longer compares against. *)
Lemma aclint_ref_reset_diverges :
  let a := aclint_run [AWrite (Write_t 0x4018 8 (le_bytes 8 15) [] 0); ARefEdge false; ARefEdge true]
             (aclint_init "aclint" 0x4000 0x1000 sample_flags 2 0 aclint_sv_init) in
  at_z (ac_timeCompare a) 1 = 15 ∧ at_z (mtimecmp (ac_sv a)) 1 = MTIMECMP_RESET.
Proof. split; vm_compute; reflexivity. Qed.

#[export] Instance aclint_laws M : DeviceLaws M aclint.
Proof.
  split; intros; simpl; try done.
  assert (ac_id (aclint_write w d).1 = ac_id d); [|by destruct (aclint_write w d)].
  unfold aclint_write, broadcastTime. by repeat case_match.
Qed.
