(* ===== verification/Htif.v ===== *)
(** * Htif: the host-target interface device (src/sysmod/htif)

    tohost/fromhost registers, console output and the end-of-test protocol.
    What the terminal answers is input of the model: [ht_in] holds, for each
    future poll, the results of [pty_.read()] and of [readCharNonBlocking];
    when it is used up the pty is closed (-1) and stdin has nothing (0). *)

From S2P Require Import Prelude Bytes Cstd Device.
From Stdlib Require Import Ascii.
#[local] Open Scope string_scope.
#[local] Open Scope list_scope.
#[local] Open Scope Z_scope.

Record htif_flags := Htif_flags {
  fl_htif_flip : bool;
  fl_pty : bool;
  fl_payload_has_hart_id : bool;
  fl_eot : string;
  fl_num_harts : Z
}.

Record htif := Htif {
  ht_id : device_id;
  ht_fl : htif_flags;
  ht_to : Z;
  ht_from : Z;
  ht_passed : Z;
  ht_failed : Z;
  ht_enabled_harts : gset Z;
  ht_passed_harts : gset Z;
  ht_failed_harts : gset Z;
  ht_in : list (Z * Z)
}.

#[export] Instance eta_htif : Eta htif := λ h,
  Htif (ht_id h) (ht_fl h) (ht_to h) (ht_from h) (ht_passed h) (ht_failed h)
    (ht_enabled_harts h) (ht_passed_harts h) (ht_failed_harts h) (ht_in h).

(** The constructor; [None] is an exception of [std::stoul]. *)
Definition htif_new (tag : string) (addr : Z) (fl : htif_flags) (hart_enable_id : string)
    (inp : list (Z * Z)) : option htif :=
  let h := Htif (Device_id tag addr 16) fl 0 0 0 0 ∅ ∅ ∅ inp in
  if fl_payload_has_hart_id fl then
    ids ← mapM (stoull 10) (getline_tokens ","%char hart_enable_id);
    Some (h <| ht_enabled_harts := list_to_set (u16 <$> ids) |>)
  else Some h.

(** [ch = pty_.read(); if (ch < 0) ch = readCharNonBlocking(fileno(stdin));] *)
Definition poll_char (h : htif) : htif * Z :=
  match ht_in h with
  | [] => (h, 0)
  | (p, s) :: rest => (h <| ht_in := rest |>, if p <? 0 then s else p)
  end.

Definition htif_read (r : read_t) (data : list Z) (h : htif) : htif * list Z :=
  if negb (r_length r =? 8)%nat || negb (r_addr r mod 8 =? 0) then (h, data)
  else
    let di := u64 (r_addr r - dbase (ht_id h)) / 8 in
    let to := xorb (di =? 0) (fl_htif_flip (ht_fl h)) in
    if to then (h, serializeInt (ht_to h) (r_length r) data)
    else
      let h :=
        if fl_pty (ht_fl h) then
          let '(h, ch) := poll_char h in
          if 0 <? ch then h <| ht_from := (1 ≪ 56) ||| ch |> else h <| ht_from := 0 |>
        else h in
      (h, serializeInt (ht_from h) (r_length r) data).

(** [(x & 1) && ((x >> 1) == 0)] *)
Definition is_pass (x : Z) : bool := negb (x &&& 1 =? 0) && (x ≫ 1 =? 0).

Definition tohost_all (h : htif) : bool := String.eqb (fl_eot (ht_fl h)) "tohost_all".

(** The exit branch of [htif::write] (dev 0, command 0) with hart ids: the
    [else] part for an enabled hart. *)
Definition htif_exit_hart (payload : Z) (h : htif) : htif * list event :=
  let hart_id := (payload ≫ 16) &&& 0xffff in
  if negb (bool_decide (hart_id ∈ ht_enabled_harts h)) then (h, [EvError])
  else
    let status := payload &&& not64 (0xffff ≪ 16) in
    let '(h, evs) :=
      if is_pass status then
        ((if bool_decide (hart_id ∈ ht_passed_harts h) then h
          else h <| ht_passed_harts ::= λ s, {[hart_id]} ∪ s |>
                 <| ht_passed ::= λ n, n + 1 |>), [])
      else
        ((if bool_decide (hart_id ∈ ht_failed_harts h) then h
          else h <| ht_failed_harts ::= λ s, {[hart_id]} ∪ s |>
                 <| ht_failed ::= λ n, n + 1 |>), [EvError]) in
    (h, evs ++
        if (size (ht_passed_harts h) + size (ht_failed_harts h)
              =? size (ht_enabled_harts h))%nat
        then [EvTerminate true (bool_decide (ht_failed_harts h = ∅))] else []).

(** The exit branch without hart ids. *)
Definition htif_exit_anon (payload : Z) (h : htif) : htif * list event :=
  if is_pass payload then
    (h <| ht_passed ::= λ n, n + 1 |>,
     if negb (tohost_all h) then [EvTerminate true true] else [])
  else (h <| ht_failed ::= λ n, n + 1 |>, [EvError]).

Definition htif_exit (payload : Z) (h : htif) : htif * list event :=
  let '(h, evs) :=
    if fl_payload_has_hart_id (ht_fl h) then htif_exit_hart payload h
    else htif_exit_anon payload h in
  (h, evs ++
      if tohost_all h && (ht_passed h + ht_failed h =? fl_num_harts (ht_fl h))
      then [EvTerminate true (ht_failed h =? 0)] else []).

Definition htif_write (w : write_t) (h : htif) : htif * list event :=
  if negb (w_addr w mod 8 =? 0) then (h, [])
  else
    let dword := deserializeInt 8 (w_data w) in
    let di := u64 (w_addr w - dbase (ht_id h)) / 8 in
    if xorb (di =? 1) (fl_htif_flip (ht_fl h)) then (h <| ht_from := dword |>, [])
    else
      let payload := u64 (dword ≪ 16) ≫ 16 in
      let cmd := (dword ≫ 48) &&& 0xff in
      let dev := (dword ≫ 56) &&& 0xff in
      if (dev =? 1) && (cmd =? 1) then
        let c := u8 payload in
        (h, if negb (c =? 0) then [EvPutchar c] else [])
      else if (dev =? 1) && (cmd =? 0) then
        if negb (fl_pty (ht_fl h)) then
          let '(h, ch) := poll_char h in
          (if 0 <? ch then h <| ht_from := ((payload ≫ 48) ≪ 48) ||| ch |> else h, [])
        else (h, [])
      else if (dev =? 0) && (cmd =? 0) then htif_exit payload h
      else (h, [EvAbort]).

#[export] Instance htif_device M : Device M htif := {
  dev_id := ht_id;
  dev_write w '(h, m) := let '(h', evs) := htif_write w h in ((h', m), evs);
  dev_read r data '(h, m) := let '(h', data') := htif_read r data h in ((h', m), [], data');
  dev_tick _ dm := (dm, []);
  dev_backdoor_write _ _ _ _ dm := dm;
  dev_backdoor_read _ _ bs dm := (dm, bs)
}.

(** No handler changes the identity, the flags or the enabled harts. *)
Definition htif_same (h h' : htif) : Prop :=
  ht_id h' = ht_id h ∧ ht_fl h' = ht_fl h ∧ ht_enabled_harts h' = ht_enabled_harts h.

Lemma htif_exit_hart_same p h : htif_same h (htif_exit_hart p h).1.
Proof.
  unfold htif_exit_hart. destruct (negb _); [done|].
  destruct (is_pass _); case_bool_decide; done.
Qed.

Lemma htif_exit_same p h : htif_same h (htif_exit p h).1.
Proof.
  unfold htif_exit. destruct (fl_payload_has_hart_id _).
  - pose proof (htif_exit_hart_same p h). by destruct (htif_exit_hart p h).
  - unfold htif_exit_anon. by destruct (is_pass p).
Qed.

Lemma poll_char_same h : htif_same h (poll_char h).1.
Proof. unfold poll_char. by destruct (ht_in h) as [|[??]?]. Qed.

Lemma htif_write_same w h : htif_same h (htif_write w h).1.
Proof.
  unfold htif_write. destruct (negb _); [done|]. destruct (xorb _ _); [done|].
  destruct (_ && _); [done|]. destruct (_ && _).
  - destruct (negb _); [|done]. pose proof (poll_char_same h).
    destruct (poll_char h) as [h' ch]. by destruct (0 <? ch).
  - destruct (_ && _); [apply htif_exit_same|done].
Qed.

Lemma htif_read_same r buf h : htif_same h (htif_read r buf h).1.
Proof.
  unfold htif_read. destruct (_ || _); [done|]. destruct (xorb _ _); [done|].
  destruct (fl_pty _); [|done]. pose proof (poll_char_same h).
  destruct (poll_char h) as [h' ch]. by destruct (0 <? ch).
Qed.

#[export] Instance htif_laws M : DeviceLaws M htif.
Proof.
  split; intros; simpl; try done.
  - pose proof (htif_write_same w d) as [E _]. by destruct (htif_write w d).
  - pose proof (htif_read_same r buf d) as [E _]. by destruct (htif_read r buf d).
Qed.

(** ** The end-of-test protocol *)

Definition terminations (evs : list event) : list bool :=
  omap (λ e, match e with EvTerminate _ p => Some p | _ => None end) evs.

Fixpoint htif_exits (ps : list Z) (h : htif) : htif * list event :=
  match ps with
  | [] => (h, [])
  | p :: ps' =>
      let '(h1, e1) := htif_exit p h in
      let '(h2, e2) := htif_exits ps' h1 in (h2, e1 ++ e2)
  end.

(** The bus writes that software performs to exit with a payload. *)
Definition tohost_write (h : htif) (p : Z) : write_t :=
  Write_t (dbase (ht_id h)) 8 (le_bytes 8 p) (replicate 8 true) 0.

Fixpoint htif_writes (ws : list write_t) (h : htif) : htif * list event :=
  match ws with
  | [] => (h, [])
  | w :: ws' =>
      let '(h1, e1) := htif_write w h in
      let '(h2, e2) := htif_writes ws' h1 in (h2, e1 ++ e2)
  end.

Lemma terminations_app e1 e2 : terminations (e1 ++ e2) = terminations e1 ++ terminations e2.
Proof. apply omap_app. Qed.

Definition htif_plain (h : htif) : Prop :=
  dbase (ht_id h) mod 8 = 0 ∧ is_u64 (dbase (ht_id h)) ∧ fl_htif_flip (ht_fl h) = false.

Lemma htif_write_tohost h p :
  htif_plain h → 0 ≤ p < 2 ^ 48 → htif_write (tohost_write h p) h = htif_exit p h.
Proof.
  intros (Ha & Hb & Hf) Hp.
  assert (deserializeInt 8 (le_bytes 8 p) = p) as Hd.
  { rewrite deserializeInt_spec, (take_ge _ 8), le_value_bytes by (auto with rvt || done).
    change (8 * Z.of_nat 8) with 64. apply Z.mod_small. lia. }
  assert (p ≫ 48 = 0) as H48 by (rewrite Z.shiftr_div_pow2 by lia; apply Z.div_small; lia).
  assert (p ≫ 56 = 0) as H56 by (rewrite Z.shiftr_div_pow2 by lia; apply Z.div_small; lia).
  assert (u64 (p ≪ 16) ≫ 16 = p) as H16.
  { rewrite u64_small by (rewrite Z.shiftl_mul_pow2 by lia; split; lia).
    by rewrite Z.shiftr_shiftl_l, Z.shiftl_0_r by lia. }
  unfold htif_write, tohost_write. cbn [w_addr w_data].
  rewrite Ha, Hf, Z.sub_diag, Hd, H16, H48, H56.
  change (u64 0 / 8 =? 1) with false. change (0 &&& 0xff) with 0.
  change (0 =? 0) with true. change (0 =? 1) with false. cbn [negb xorb andb]. done.
Qed.

Lemma htif_writes_tohost ps h :
  htif_plain h → Forall (λ p, 0 ≤ p < 2 ^ 48) ps →
  htif_writes (tohost_write h <$> ps) h = htif_exits ps h.
Proof.
  intros Hpl Hps. assert (∀ h', ht_id h' = ht_id h → ht_fl h' = ht_fl h →
    htif_writes (tohost_write h <$> ps) h' = htif_exits ps h') as H; [|by apply H].
  induction Hps as [|p ps Hp _ IH]; intros h' Hid Hfl; simpl; [done|].
  replace (tohost_write h p) with (tohost_write h' p) by (unfold tohost_write; by rewrite Hid).
  rewrite htif_write_tohost by (done || (unfold htif_plain; by rewrite Hid, Hfl)).
  destruct (htif_exit_same p h') as (E1 & E2 & _).
  destruct (htif_exit p h') as [h1 e1]. simpl in *. rewrite IH by congruence. done.
Qed.

(** *** Counting exits (eot = tohost_all, no hart ids) *)

(** One exit: which counter moves and whether it terminates. *)
Lemma htif_exit_all p h :
  fl_payload_has_hart_id (ht_fl h) = false → tohost_all h = true →
  let h' := (htif_exit p h).1 in
  ht_fl h' = ht_fl h ∧
  ht_passed h' = ht_passed h + (if is_pass p then 1 else 0) ∧
  ht_failed h' = ht_failed h + (if is_pass p then 0 else 1) ∧
  terminations (htif_exit p h).2 =
    if ht_passed h + ht_failed h + 1 =? fl_num_harts (ht_fl h)
    then [ht_failed h' =? 0] else [].
Proof.
  intros Hid Hall. unfold htif_exit. rewrite Hid. unfold htif_exit_anon. rewrite Hall.
  destruct (is_pass p); simpl; unfold tohost_all in *; simpl; rewrite Hall; simpl;
    (split_and!; [done|lia|lia|]).
  - replace (ht_passed h + 1 + ht_failed h) with (ht_passed h + ht_failed h + 1) by lia.
    by destruct (_ =? _).
  - replace (ht_passed h + (ht_failed h + 1)) with (ht_passed h + ht_failed h + 1) by lia.
    by destruct (_ =? _).
Qed.

Lemma htif_exits_past ps h :
  fl_payload_has_hart_id (ht_fl h) = false → tohost_all h = true →
  fl_num_harts (ht_fl h) ≤ ht_passed h + ht_failed h →
  terminations (htif_exits ps h).2 = [].
Proof.
  revert h; induction ps as [|p ps IH]; intros h Hid Hall Hn; [done|]. simpl.
  destruct (htif_exit_all p h Hid Hall) as (Efl & Ep & Ef & Et).
  destruct (htif_exit p h) as [h1 e1]. simpl in *.
  specialize (IH h1). unfold tohost_all in *. rewrite Efl in IH.
  destruct (htif_exits ps h1) as [h2 e2]. simpl in *.
  rewrite terminations_app, Et, IH by (done || destruct (is_pass p); lia).
  by rewrite (proj2 (Z.eqb_neq _ _)) by lia.
Qed.

Lemma htif_exits_count ps h :
  fl_payload_has_hart_id (ht_fl h) = false → tohost_all h = true →
  0 ≤ ht_failed h → ht_passed h + ht_failed h < fl_num_harts (ht_fl h) →
  let k := Z.to_nat (fl_num_harts (ht_fl h) - (ht_passed h + ht_failed h)) in
  terminations (htif_exits ps h).2 =
  if (k <=? length ps)%nat then [(ht_failed h =? 0) && forallb is_pass (take k ps)] else [].
Proof.
  revert h; induction ps as [|p ps IH]; intros h Hid Hall Hf Hn k.
  { simpl. subst k. by destruct (Z.to_nat _) eqn:E; [lia|]. }
  simpl htif_exits. destruct (htif_exit_all p h Hid Hall) as (Efl & Ep & Ef & Et).
  pose proof (htif_exits_past ps (htif_exit p h).1) as Hpast.
  specialize (IH (htif_exit p h).1).
  destruct (htif_exit p h) as [h1 e1]. simpl in *. unfold tohost_all in *. rewrite Efl in *.
  destruct (htif_exits ps h1) as [h2 e2]. simpl in *. rewrite terminations_app, Et.
  destruct (Z.eqb_spec (ht_passed h + ht_failed h + 1) (fl_num_harts (ht_fl h))) as [E|E].
  - rewrite Hpast by (done || destruct (is_pass p); lia).
    assert (k = 1%nat) as -> by lia. simpl. f_equal. rewrite Ef, andb_true_r.
    destruct (is_pass p); rewrite ?andb_true_r, ?andb_false_r, ?Z.add_0_r; [done|].
    apply Z.eqb_neq. lia.
  - rewrite IH by (done || destruct (is_pass p); lia).
    replace (Z.to_nat _) with (k - 1)%nat by (destruct (is_pass p); lia).
    assert (1 < k)%nat as Hk by lia. clearbody k.
    destruct k as [|k]; [lia|]. rewrite Nat.sub_succ, Nat.sub_0_r. simpl. rewrite Ef.
    destruct (k <=? length ps)%nat; [|done]. f_equal.
    destruct (is_pass p); [by rewrite Z.add_0_r|].
    rewrite (proj2 (Z.eqb_neq _ _)) by lia. by rewrite andb_false_r.
Qed.

Definition htif_fresh (h : htif) : Prop :=
  htif_plain h ∧ ht_passed h = 0 ∧ ht_failed h = 0 ∧
  ht_passed_harts h = ∅ ∧ ht_failed_harts h = ∅.

(** With [eot = tohost_all] and no hart ids, the test terminates exactly
    once, on the [num_harts]-th exit written to tohost, and is reported as
    passed exactly when all of these exits were passing ones; with fewer exits
    it does not terminate. *)
Theorem htif_tohost_all h ps :
  htif_fresh h → fl_payload_has_hart_id (ht_fl h) = false → tohost_all h = true →
  0 < fl_num_harts (ht_fl h) → Forall (λ p, 0 ≤ p < 2 ^ 48) ps →
  let n := Z.to_nat (fl_num_harts (ht_fl h)) in
  terminations (htif_writes (tohost_write h <$> ps) h).2 =
  if (n <=? length ps)%nat then [forallb is_pass (take n ps)] else [].
Proof.
  intros (Hpl & Ep & Ef & _) Hid Hall Hn Hps n.
  rewrite htif_writes_tohost, htif_exits_count by (done || lia).
  rewrite Ep, Ef, Z.sub_0_r. done.
Qed.

Definition sample_htif (fl : htif_flags) : htif :=
  Htif (Device_id "htif" 0x70000000 16) fl 0 0 0 0 {[0; 1]} ∅ ∅ [].

Lemma htif_tohost_all_witness :
  let h := sample_htif (Htif_flags false false false "tohost_all" 2) in
  terminations (htif_writes (tohost_write h <$> [1; 3; 1]) h).2 = [false].
Proof.
  intros h. rewrite (htif_tohost_all h [1; 3; 1]).
  - reflexivity.
  - split; [|by split_and!]. split; [reflexivity|]. split; [|reflexivity].
    split; vm_compute; congruence.
  - reflexivity.
  - reflexivity.
  - simpl. lia.
  - repeat constructor; lia.
Defined.

(** *** Exits that name their hart *)

Definition hart_of (p : Z) : Z := (p ≫ 16) &&& 0xffff.
Definition pass_of (p : Z) : bool := is_pass (p &&& not64 (0xffff ≪ 16)).

(** The enabled harts that reported a pass ([b = true]) or a fail. *)
Definition reported (E : gset Z) (b : bool) (ps : list Z) : gset Z :=
  list_to_set (hart_of <$> filter (λ p, pass_of p = b ∧ hart_of p ∈ E) ps).

Lemma elem_of_reported E b ps x :
  x ∈ reported E b ps ↔ x ∈ E ∧ ∃ p, p ∈ ps ∧ hart_of p = x ∧ pass_of p = b.
Proof.
  unfold reported. rewrite elem_of_list_to_set, list_elem_of_fmap. split.
  - intros (p & -> & Hp). apply list_elem_of_filter in Hp as [[??]?]. eauto.
  - intros (HE & p & Hp & <- & Hb). exists p. by rewrite list_elem_of_filter.
Qed.

Lemma reported_app E b ps qs : reported E b (ps ++ qs) = reported E b ps ∪ reported E b qs.
Proof. unfold reported. by rewrite filter_app, fmap_app, list_to_set_app_L. Qed.

Lemma reported_one E b p :
  hart_of p ∈ E → reported E b [p] = if Bool.eqb (pass_of p) b then {[hart_of p]} else ∅.
Proof.
  intros HE. unfold reported. rewrite filter_cons, filter_nil.
  destruct (Bool.eqb (pass_of p) b) eqn:Eb.
  - apply Bool.eqb_prop in Eb. rewrite decide_True by done. simpl. apply union_empty_r_L.
  - rewrite decide_False; [done|]. intros [Hb _]. rewrite Hb, Bool.eqb_reflx in Eb. done.
Qed.

Lemma reported_disabled E b p : hart_of p ∉ E → reported E b [p] = ∅.
Proof.
  intros HE. unfold reported. rewrite filter_cons, filter_nil, decide_False; [done|]. tauto.
Qed.

Lemma htif_exit_hart_sets p h :
  hart_of p ∈ ht_enabled_harts h →
  let h' := (htif_exit_hart p h).1 in
  ht_passed_harts h' = (if pass_of p then {[hart_of p]} ∪ ht_passed_harts h else ht_passed_harts h) ∧
  ht_failed_harts h' = (if pass_of p then ht_failed_harts h else {[hart_of p]} ∪ ht_failed_harts h) ∧
  terminations (htif_exit_hart p h).2 =
    if (size (ht_passed_harts h') + size (ht_failed_harts h') =? size (ht_enabled_harts h))%nat
    then [bool_decide (ht_failed_harts h' = ∅)] else [].
Proof.
  intros HE. unfold htif_exit_hart. fold (hart_of p). fold (pass_of p).
  rewrite bool_decide_true by done. cbn [negb].
  destruct (pass_of p); case_bool_decide as Hin; cbn -[size]; (split_and!; [|set_solver|]);
    try set_solver; by destruct (_ =? _)%nat.
Qed.

Lemma htif_exit_hart_disabled p h :
  hart_of p ∉ ht_enabled_harts h → htif_exit_hart p h = (h, [EvError]).
Proof. intros H. unfold htif_exit_hart. fold (hart_of p). by rewrite bool_decide_false. Qed.

(** What a run of exits accumulates. *)
Lemma htif_exits_sets ps h :
  fl_payload_has_hart_id (ht_fl h) = true →
  let h' := (htif_exits ps h).1 in
  htif_same h h' ∧
  ht_passed_harts h' = reported (ht_enabled_harts h) true ps ∪ ht_passed_harts h ∧
  ht_failed_harts h' = reported (ht_enabled_harts h) false ps ∪ ht_failed_harts h.
Proof.
  revert h; induction ps as [|p ps IH]; intros h Hid; simpl.
  { split; [done|]. unfold reported. simpl. split; set_solver. }
  pose proof (htif_exit_same p h) as Hsame.
  assert (ht_passed_harts (htif_exit p h).1 = reported (ht_enabled_harts h) true [p] ∪ ht_passed_harts h
        ∧ ht_failed_harts (htif_exit p h).1 = reported (ht_enabled_harts h) false [p] ∪ ht_failed_harts h)
    as [Ep Ef].
  { unfold htif_exit. rewrite Hid.
    destruct (decide (hart_of p ∈ ht_enabled_harts h)) as [HE|HE].
    - destruct (htif_exit_hart_sets p h HE) as (Hp & Hf & _).
      destruct (htif_exit_hart p h) as [h1 e1]. cbn [fst snd] in *. rewrite Hp, Hf.
      rewrite !reported_one by done.
      destruct (pass_of p); cbn [Bool.eqb negb]; by rewrite ?union_empty_l_L.
    - rewrite htif_exit_hart_disabled, !reported_disabled by done. cbn [fst snd].
      by rewrite !union_empty_l_L. }
  destruct (htif_exit p h) as [h1 e1]. cbn [fst snd] in *. destruct Hsame as (S1 & S2 & S3).
  specialize (IH h1 ltac:(by rewrite S2)). destruct (htif_exits ps h1) as [h2 e2].
  cbn [fst snd] in *. destruct IH as ((T1 & T2 & T3) & IHp & IHf).
  split; [split_and!; congruence|]. rewrite IHp, IHf, Ep, Ef, S3.
  change (p :: ps) with ([p] ++ ps). rewrite !reported_app, !(assoc_L (∪)).
  by rewrite !(comm_L (∪) (reported _ _ ps) (reported _ _ [p])).
Qed.

(** Two disjoint sets of reporting harts fill the enabled set exactly when
    their sizes add up to its size. *)
Lemma size_fill (P F E : gset Z) :
  P ∪ F ⊆ E → P ## F → (size P + size F = size E)%nat ↔ P ∪ F = E.
Proof.
  intros Hs Hd. rewrite <- size_union by done. split; [|by intros ->].
  intros Hsz. apply leibniz_equiv. apply set_subseteq_size_equiv; [done|lia].
Qed.

(** When exits carry hart ids and no hart reports both a pass and a fail,
    an exit of an enabled hart terminates the test exactly when it completes
    the set of enabled harts, and the test is reported as passed exactly when
    no hart failed. *)
Theorem htif_hart_termination h ps p :
  htif_fresh h → fl_payload_has_hart_id (ht_fl h) = true → tohost_all h = false →
  hart_of p ∈ ht_enabled_harts h →
  let E := ht_enabled_harts h in
  let P := reported E true (ps ++ [p]) in
  let F := reported E false (ps ++ [p]) in
  P ## F →
  terminations (htif_exit p (htif_exits ps h).1).2 =
  if bool_decide (P ∪ F = E) then [bool_decide (F = ∅)] else [].
Proof.
  intros (_ & _ & _ & HP0 & HF0) Hid Hall HE E P F Hd.
  destruct (htif_exits_sets ps h Hid) as ((S1 & S2 & S3) & Hp & Hf).
  set (h1 := (htif_exits ps h).1) in *. rewrite HP0, union_empty_r_L in Hp. rewrite HF0, union_empty_r_L in Hf.
  destruct (htif_exit_hart_sets p h1 ltac:(by rewrite S3)) as (Hp' & Hf' & Ht).
  unfold htif_exit. rewrite S2, Hid.
  pose proof (htif_exit_hart_same p h1) as (_ & T2 & _).
  destruct (htif_exit_hart p h1) as [h2 evs]. cbn [fst snd] in *.
  replace (tohost_all h2) with false by (unfold tohost_all in *; by rewrite T2, S2).
  cbn [andb]. rewrite app_nil_r, Ht.
  assert (ht_passed_harts h2 = P) as ->.
  { rewrite Hp', Hp. unfold P. rewrite reported_app, reported_one by done.
    destruct (pass_of p); cbn [Bool.eqb negb]; [apply (comm_L (∪))|symmetry; apply union_empty_r_L]. }
  assert (ht_failed_harts h2 = F) as ->.
  { rewrite Hf', Hf. unfold F. rewrite reported_app, reported_one by done.
    destruct (pass_of p); cbn [Bool.eqb negb]; [symmetry; apply union_empty_r_L|apply (comm_L (∪))]. }
  rewrite S3. fold E.
  assert (P ∪ F ⊆ E) as Hsub by (intros x; unfold P, F; rewrite elem_of_union, !elem_of_reported; tauto).
  pose proof (size_fill P F E Hsub Hd) as Hfill.
  destruct (Nat.eqb_spec (size P + size F) (size E)) as [Hsz|Hsz]; rewrite Hfill in Hsz.
  - by rewrite (bool_decide_true (P ∪ F = E)).
  - by rewrite (bool_decide_false (P ∪ F = E)).
Qed.

Lemma htif_hart_termination_witness :
  let h := sample_htif (Htif_flags false false true "pass_fail" 2) in
  terminations (htif_exit 0x10001 (htif_exits [3] h).1).2 = [false].
Proof.
  intros h. rewrite (htif_hart_termination h [3] 0x10001).
  - vm_compute. reflexivity.
  - split; [|by split_and!]. split; [reflexivity|]. split; [|reflexivity].
    split; vm_compute; congruence.
  - reflexivity.
  - reflexivity.
  - vm_compute. reflexivity.
  - apply (bool_decide_unpack _). vm_compute. constructor.
Defined.

(** A hart that first passes and then fails is counted in both sets: with two
    enabled harts the test terminates although hart 1 never exited. *)
Lemma htif_double_report_terminates :
  let h := sample_htif (Htif_flags false false true "pass_fail" 2) in
  terminations (htif_exits [1; 3] h).2 = [false].
Proof. vm_compute. reflexivity. Qed.
