(* ===== verification/SmallDevices.v ===== *)
(** * SmallDevices: the remaining simple devices of src/sysmod

    heartbeat (periodic log messages), null_dev (accepts and ignores
    everything), sep_entropy_fifo (a FIFO of random words), the wrappers
    aplic_device and io_device around third-party models, and dm (debug
    module accesses forwarded to the AXI master). *)

From S2P Require Import Prelude Bytes Device.

(** ** heartbeat *)

Record heartbeat := Heartbeat { hb_id : device_id; hb_count : Z; hb_period : Z }.

(** [hb_period] is the value of the flag after its conversion to
    [std::uint64_t]; 0 turns the messages off. *)
Definition heartbeat_tick (advance : Z) (h : heartbeat) : heartbeat * list event :=
  let next := u64 (hb_count h + advance) in
  let print := negb (hb_period h =? 0) &&
               negb (hb_count h / hb_period h =? next / hb_period h) in
  (Heartbeat (hb_id h) next (hb_period h), if print then [EvHeartbeat next] else []).

#[export] Instance heartbeat_device M : Device M heartbeat := {
  dev_id := hb_id;
  dev_write _ dm := (dm, []);
  dev_read _ data dm := (dm, [], data);
  dev_tick n '(h, m) := let '(h', evs) := heartbeat_tick n h in ((h', m), evs);
  dev_backdoor_write _ _ _ _ dm := dm;
  dev_backdoor_read _ _ bs dm := (dm, bs)
}.

#[export] Instance heartbeat_laws M : DeviceLaws M heartbeat.
Proof. by split. Qed.

Fixpoint heartbeat_run (ns : list Z) (h : heartbeat) : heartbeat * list event :=
  match ns with
  | [] => (h, [])
  | n :: ns' =>
      let '(h1, e1) := heartbeat_tick n h in
      let '(h2, e2) := heartbeat_run ns' h1 in (h2, e1 ++ e2)
  end.

(** ** null_dev *)

Record null_dev := Null_dev { nd_id : device_id }.

Definition null_dev_write (w : write_t) (d : null_dev) : null_dev := d.
Definition null_dev_read (r : read_t) (data : list Z) (d : null_dev) : list Z := data.

#[export] Instance null_dev_device M : Device M null_dev := {
  dev_id := nd_id;
  dev_write w '(d, m) := ((null_dev_write w d, m), []);
  dev_read r data '(d, m) := ((d, m), [], null_dev_read r data d);
  dev_tick _ dm := (dm, []);
  dev_backdoor_write _ _ _ _ dm := dm;
  dev_backdoor_read _ _ bs dm := (dm, bs)
}.

#[export] Instance null_dev_laws M : DeviceLaws M null_dev.
Proof. by split. Qed.

(** ** sep_entropy_fifo

    The random source is third-party: its future outputs are the stream
    [rng], of which [se_pos] have been drawn. *)

Record sep_entropy_fifo := Sep_entropy_fifo {
  se_id : device_id;
  se_fifo : list Z;
  se_pos : nat;
  se_limit : nat                              (* FLAGS_entropy_fifo_size *)
}.

Section sep_entropy_fifo.
Variable rng : nat → Z.

(** [while (fifo_.size() < FLAGS_entropy_fifo_size) fifo_.push(rng1());] with
    [n] iterations left. *)
Fixpoint fill_loop (n : nat) (s : sep_entropy_fifo) : sep_entropy_fifo :=
  match n with
  | O => s
  | S n' => fill_loop n' (Sep_entropy_fifo (se_id s) (se_fifo s ++ [rng (se_pos s)])
                            (S (se_pos s)) (se_limit s))
  end.
Definition fill_fifo (s : sep_entropy_fifo) : sep_entropy_fifo :=
  fill_loop (se_limit s - length (se_fifo s)) s.

Definition sep_entropy_fifo_new (tag : string) (addr : Z) (limit : nat) : sep_entropy_fifo :=
  fill_fifo (Sep_entropy_fifo (Device_id tag addr 0xc000) [] 0 limit).

Definition sep_read (r : read_t) (data : list Z) (s : sep_entropy_fifo)
    : sep_entropy_fifo * list event * list Z :=
  let pa := r_addr r in
  let base := dbase (se_id s) in
  if pa =? base then
    let s' := if (length (se_fifo s) =? 0)%nat then fill_fifo s else s in
    (s', [], serializeInt (Z.of_nat (length (se_fifo s))) (r_length r) data)
  else if u64 (base + dsize (se_id s)) <? u64 (pa + Z.of_nat (r_length r)) then
    (s, [EvError], data)
  else
    let aligned_pa := pa &&& 7 in
    match se_fifo s with
    | [] => (fill_fifo s, [], serializeInt 0 (r_length r) data)
    | x :: rest =>
        if aligned_pa <? 4 then
          (Sep_entropy_fifo (se_id s) rest (se_pos s) (se_limit s), [],
           serializeInt (x ≫ aligned_pa) (r_length r) data)
        else (s, [], serializeInt 0 (r_length r) data)
    end.

Definition sep_write (w : write_t) (s : sep_entropy_fifo) : sep_entropy_fifo * list event :=
  (s, [EvError]).

(** The entropy word a read takes out of the FIFO, if any. *)
Definition sep_pops (r : read_t) (s : sep_entropy_fifo) : list Z :=
  if (r_addr r =? dbase (se_id s)) ||
     (u64 (dbase (se_id s) + dsize (se_id s)) <? u64 (r_addr r + Z.of_nat (r_length r)))
  then []
  else match se_fifo s with
       | x :: _ => if (r_addr r &&& 7) <? 4 then [x] else []
       | [] => []
       end.

Fixpoint sep_run (rs : list read_t) (s : sep_entropy_fifo) : sep_entropy_fifo * list Z :=
  match rs with
  | [] => (s, [])
  | r :: rs' =>
      let s1 := (sep_read r (replicate (r_length r) 0) s).1.1 in
      let '(s2, ps) := sep_run rs' s1 in (s2, sep_pops r s ++ ps)
  end.

Lemma fill_loop_spec n s :
  fill_loop n s = Sep_entropy_fifo (se_id s) (se_fifo s ++ (rng <$> seq (se_pos s) n))
                    (se_pos s + n) (se_limit s).
Proof.
  revert s; induction n as [|n IH]; intros s; simpl.
  - rewrite app_nil_r, Nat.add_0_r. by destruct s.
  - rewrite IH. simpl. rewrite <- app_assoc. simpl. f_equal. lia.
Qed.

(** The words still queued and those drawn so far continue the stream. *)
Definition sep_inv (s : sep_entropy_fifo) (popped : list Z) : Prop :=
  popped ++ se_fifo s = rng <$> seq 0 (se_pos s) ∧ (length (se_fifo s) ≤ se_limit s)%nat.

Lemma fill_fifo_inv s ps : sep_inv s ps → sep_inv (fill_fifo s) ps.
Proof.
  intros [Hs Hl]. unfold fill_fifo. rewrite fill_loop_spec. split; simpl.
  - rewrite app_assoc, Hs, seq_app, fmap_app. done.
  - rewrite length_app, length_fmap, length_seq. lia.
Qed.

Lemma sep_read_inv r buf s ps :
  sep_inv s ps → sep_inv (sep_read r buf s).1.1 (ps ++ sep_pops r s).
Proof.
  intros Hinv. pose proof (fill_fifo_inv _ _ Hinv) as Hfill. destruct Hinv as [Hs Hl].
  unfold sep_read, sep_pops. destruct (r_addr r =? _); simpl.
  { rewrite app_nil_r. destruct (_ =? 0)%nat; [done|by split]. }
  destruct (_ <? _); simpl; [rewrite app_nil_r; by split|].
  destruct (se_fifo s) as [|x rest] eqn:E; simpl; [by rewrite app_nil_r|].
  destruct (_ <? 4); simpl; [|rewrite app_nil_r; split; by rewrite E].
  split; simpl; [by rewrite <- app_assoc|]. simpl in Hl. lia.
Qed.

Lemma sep_run_inv rs s ps : sep_inv s ps → sep_inv (sep_run rs s).1 (ps ++ (sep_run rs s).2).
Proof.
  revert s ps; induction rs as [|r rs IH]; intros s ps Hinv; simpl; [by rewrite app_nil_r|].
  specialize (IH _ _ (sep_read_inv r (replicate (r_length r) 0) _ _ Hinv)).
  destruct (sep_run rs _) as [s2 qs]. simpl in *. by rewrite app_assoc.
Qed.
End sep_entropy_fifo.

(** ** Wrappers of third-party device models *)

Section wrappers.
Context {A : Type}.

(** The wrapped TT_APLIC::Aplic: 32-bit register reads and writes. *)
Variable aplic_read : Z → nat → A → A * Z.
Variable aplic_write : Z → nat → Z → A → A.

Definition aplic_device_read (r : read_t) (data : list Z) (a : A) : A * list Z :=
  let '(a', value) := aplic_read (r_addr r) (r_length r) a in
  (a', serializeInt (u32 value) (r_length r) data).

Definition aplic_device_write (w : write_t) (a : A) : A :=
  aplic_write (w_addr w) (w_length w) (deserializeInt 4 (w_data w)) a.

(** The wrapped Whisper IoDevice. *)
Variable io_read : Z → A → A * Z.
Variable io_write : Z → Z → A → A.

Definition io_device_read (r : read_t) (data : list Z) (a : A) : A * list Z :=
  let '(a', value) := io_read (r_addr r) a in
  (a', serializeInt (u32 value) (r_length r) data).

(** [value &= (uint64_t(1) << (size * 8)) - 1]; the shift is defined for
    sizes below 8. *)
Definition io_device_write (w : write_t) (a : A) : A :=
  let value := deserializeInt 4 (w_data w) &&& u64 ((1 ≪ (8 * Z.of_nat (w_length w))) - 1) in
  io_write (w_addr w) (u32 value) a.

(** A write of 1 to 7 bytes hands the wrapped device exactly the written
    bytes, truncated to a word. *)
Lemma io_device_write_value w a :
  Forall is_u8 (w_data w) → (4 ≤ length (w_data w))%nat → (0 < w_length w < 8)%nat →
  io_device_write w a = io_write (w_addr w) (le_value (take (w_length w `min` 4) (w_data w))) a.
Proof.
  intros Hu Hl Hn. unfold io_device_write. f_equal.
  pose proof (deserializeInt_range 4 _ Hu Hl) as Hr. change (8 * Z.of_nat 4) with 32 in Hr.
  rewrite Z.shiftl_1_l, u64_small by
    (pose proof (Z.pow_le_mono_r 2 (8 * Z.of_nat (w_length w)) 56 ltac:(lia) ltac:(lia));
     pose proof (Z.pow_pos_nonneg 2 (8 * Z.of_nat (w_length w)) ltac:(lia) ltac:(lia));
     split; lia).
  rewrite Z.sub_1_r, <- Z.ones_equiv, Z.land_ones by lia.
  rewrite u32_small by
    (pose proof (Z.mod_le (deserializeInt 4 (w_data w)) (2 ^ (8 * Z.of_nat (w_length w)))
       ltac:(lia) ltac:(apply Z.pow_pos_nonneg; lia));
     pose proof (Z.mod_pos_bound (deserializeInt 4 (w_data w)) (2 ^ (8 * Z.of_nat (w_length w)))
       ltac:(apply Z.pow_pos_nonneg; lia)); split; lia).
  destruct (decide (4 ≤ w_length w)%nat) as [H4|H4].
  - rewrite Nat.min_r, deserializeInt_spec by done. apply Z.mod_small.
    rewrite <- deserializeInt_spec by done. split; [lia|].
    apply Z.lt_le_trans with (2 ^ 32); [lia|]. apply Z.pow_le_mono_r; lia.
  - rewrite Nat.min_l by lia. rewrite deserializeInt_spec by done.
    replace (take 4 (w_data w)) with
      (take (w_length w) (take 4 (w_data w)) ++ drop (w_length w) (take 4 (w_data w)))
      by apply take_drop.
    rewrite take_take, Nat.min_l by lia.
    rewrite le_value_app, length_take, Nat.min_l by (try (by apply Forall_take); lia).
    rewrite Z.mod_add by (apply Z.pow_nonzero; lia). apply Z.mod_small.
    pose proof (le_value_range (take (w_length w) (w_data w)) ltac:(by apply Forall_take)) as Hv.
    rewrite length_take, Nat.min_l in Hv by lia. done.
Qed.
End wrappers.

(** ** dm *)

Definition dm_write (w : write_t) : list event :=
  [EvWriteRequest (mk_write_request (w_addr w) (w_length w) (w_data w) (w_strb w) false)].

(** The request, then the data for the response [resp] that arrives. *)
Definition dm_read_request (r : read_t) : list event :=
  [EvReadRequest (Read_request_t (r_addr r) (r_length r) false axi_attr_default)].
Definition dm_read_data (r : read_t) (resp : list Z) : list Z :=
  let lower_bytes := r_addr r &&& 0x3f in
  if negb (lower_bytes =? 0) then rotate_left (Z.to_nat lower_bytes) resp else resp.

(** ** Properties *)

Lemma heartbeat_run_count ns h :
  0 < hb_period h → 0 ≤ hb_count h → Forall (λ n, 0 ≤ n ≤ hb_period h) ns →
  hb_count h + foldr Z.add 0 ns < 2 ^ 64 →
  Z.of_nat (length (heartbeat_run ns h).2) =
    (hb_count h + foldr Z.add 0 ns) / hb_period h - hb_count h / hb_period h.
Proof.
  revert h; induction ns as [|n ns IH]; intros h Hp Hc Hns Hb; simpl in *.
  { rewrite Z.add_0_r. lia. }
  apply Forall_cons in Hns as [Hn Hns].
  assert (0 ≤ foldr Z.add 0 ns) as Hs.
  { clear - Hns. induction Hns; simpl; lia. }
  unfold heartbeat_tick. rewrite u64_small by (split; lia).
  rewrite (proj2 (Z.eqb_neq (hb_period h) 0)) by lia. cbn [negb andb].
  specialize (IH (Heartbeat (hb_id h) (hb_count h + n) (hb_period h))). simpl in IH.
  destruct (heartbeat_run ns _) as [h2 e2]. simpl in *. rewrite length_app, Nat2Z.inj_add, IH by (done || lia).
  rewrite Z.add_assoc.
  assert (hb_count h / hb_period h ≤ (hb_count h + n) / hb_period h ≤ hb_count h / hb_period h + 1).
  { split; [apply Z.div_le_mono; lia|].
    rewrite <- Z.div_add by lia. apply Z.div_le_mono; lia. }
  destruct (_ =? _) eqn:E; zbool; simpl; lia.
Qed.

(** With clock updates no longer than the heartbeat period, the number of
    heartbeat messages after any sequence of ticks is the number of whole
    periods that have elapsed. *)
Theorem heartbeat_one_per_period ns h :
  0 < hb_period h → hb_count h = 0 → Forall (λ n, 0 ≤ n ≤ hb_period h) ns →
  foldr Z.add 0 ns < 2 ^ 64 →
  Z.of_nat (length (heartbeat_run ns h).2) = foldr Z.add 0 ns / hb_period h.
Proof.
  intros Hp Hc Hns Hb. rewrite heartbeat_run_count, Hc by (rewrite ?Hc; done || lia).
  rewrite Z.div_0_l by lia. rewrite Z.add_0_l. lia.
Qed.

Lemma heartbeat_one_per_period_witness :
  Z.of_nat (length (heartbeat_run [200; 300; 500; 250] (Heartbeat (Device_id EmptyString 0 0) 0 500)).2) = 2.
Proof.
  rewrite (heartbeat_one_per_period [200; 300; 500; 250]);
    [reflexivity|simpl; lia|reflexivity|repeat constructor; simpl; lia|simpl; lia].
Defined.

(** Every word of the random source is delivered to at most one read, in
    the order it was drawn: the words popped by any sequence of reads,
    followed by those still queued, are the first words of the source, and the
    FIFO never exceeds its configured size. *)
Theorem sep_entropy_stream rng tag addr limit rs :
  let '(s, popped) := sep_run rng rs (sep_entropy_fifo_new rng tag addr limit) in
  popped ++ se_fifo s = rng <$> seq 0 (se_pos s) ∧ (length (se_fifo s) ≤ se_limit s)%nat.
Proof.
  assert (sep_inv rng (sep_entropy_fifo_new rng tag addr limit) []) as Hinv
    by (apply fill_fifo_inv; split; simpl; [done|lia]).
  pose proof (sep_run_inv rng rs _ _ Hinv) as H.
  by destruct (sep_run rng rs _) as [s popped].
Qed.
