(* ===== verification/BusErrorList.v ===== *)
(** * BusErrorList: bus error injection lists (src/common/bus_error_list.h)

    Address intervals with per-access-type counters, the flag syntax that
    fills them, and the two injection policies.  [std::lower_bound] and
    [std::upper_bound] are given by their specification on a partitioned
    range, which the interval list always is ([insert_sorted]). *)

From S2P Require Import Prelude Cstd.
From Stdlib Require Import Ascii.
#[local] Open Scope string_scope.
#[local] Open Scope list_scope.
#[local] Open Scope Z_scope.

Record list_entry := List_entry {
  le_lo : Z;
  le_hi : Z;
  le_counters : list Z;
  le_positions : list Z
}.
#[export] Instance eta_list_entry : Eta list_entry := λ e,
  List_entry (le_lo e) (le_hi e) (le_counters e) (le_positions e).

Record bus_error_list := Bus_error_list {
  bl_n : nat;                                 (* the template parameter N *)
  bl_entries : list list_entry;
  bl_normal : list Z;
  bl_error : list Z;
  bl_thresholds : list Z
}.
#[export] Instance eta_bus_error_list : Eta bus_error_list := λ b,
  Bus_error_list (bl_n b) (bl_entries b) (bl_normal b) (bl_error b) (bl_thresholds b).

Definition bel_new (n : nat) : bus_error_list :=
  Bus_error_list n [] (replicate n 0) (replicate n 0) (replicate n 1).

(** ** Intervals *)

(** [lower_bound] on [lo], then [insert] before it. *)
Fixpoint insert_entry (e : list_entry) (l : list list_entry) : list list_entry :=
  match l with
  | [] => [e]
  | x :: l' => if le_lo x <? le_lo e then x :: insert_entry e l' else e :: l
  end.

Definition bel_insert (lo hi : Z) (b : bus_error_list) : bus_error_list :=
  b <| bl_entries ::=
    insert_entry (List_entry lo hi (replicate (bl_n b) 0) (replicate (bl_n b) 0)) |>.

(** [upper_bound]: the number of leading entries whose [lo] is not above
    [addr]. *)
Fixpoint upper_bound (addr : Z) (l : list list_entry) : nat :=
  match l with
  | [] => 0
  | x :: l' => if addr <? le_lo x then 0 else S (upper_bound addr l')
  end.

(** The index of the entry covering [addr]; [None] is [end()]. *)
Definition find_entry (addr : Z) (b : bus_error_list) : option nat :=
  match upper_bound addr (bl_entries b) with
  | O => None
  | S i => match bl_entries b !! i with
           | Some e => if (le_lo e <=? addr) && (addr <=? le_hi e) then Some i else None
           | None => None
           end
  end.

Definition bel_find (addr : Z) (b : bus_error_list) : bool :=
  match find_entry addr b with Some _ => true | None => false end.

(** ** Flag syntax *)

Definition is_blank (c : ascii) : bool := Ascii.eqb c " "%char || Ascii.eqb c "009"%char.

Fixpoint ltrim (s : string) : string :=
  match s with
  | EmptyString => EmptyString
  | String c s' => if is_blank c then ltrim s' else s
  end.
Fixpoint rtrim (s : string) : string :=
  match s with
  | EmptyString => EmptyString
  | String c s' => match rtrim s' with
                   | EmptyString => if is_blank c then EmptyString else String c EmptyString
                   | t => String c t
                   end
  end.

Definition INVALID_ADDRESS : Z := 2 ^ 64 - 1.

Definition parse_hex_string (s : string) : Z :=
  match s with
  | EmptyString => INVALID_ADDRESS
  | _ => default INVALID_ADDRESS (stoull 16 s)
  end.

Definition parse_token (b : bus_error_list) (token : string) : bus_error_list :=
  let token := rtrim (ltrim token) in
  match token with
  | EmptyString => b
  | _ =>
      match split_first "-"%char token with
      | None =>
          let addr := parse_hex_string token in
          if negb (addr =? INVALID_ADDRESS) then
            let aligned_addr := addr &&& not64 0x3f in
            bel_insert aligned_addr (u64 (aligned_addr + 0x3f)) b
          else b
      | Some (lo_str, hi_str) =>
          let lo := parse_hex_string (rtrim lo_str) in
          let hi := parse_hex_string (ltrim hi_str) in
          if negb (lo =? INVALID_ADDRESS) && negb (hi =? INVALID_ADDRESS)
          then bel_insert lo hi b else b
      end
  end.

Definition bel_parse (input : string) (b : bus_error_list) : bus_error_list :=
  match input with
  | EmptyString => b
  | _ => foldl parse_token b (getline_tokens ","%char input)
  end.

Definition set_pattern (idx : nat) (pattern : string) (b : bus_error_list) : bus_error_list :=
  let set n e b := b <| bl_normal ::= <[idx := n]> |> <| bl_error ::= <[idx := e]> |> in
  if (bl_n b <=? idx)%nat then b
  else
    match pattern with
    | EmptyString => set 0 0 b
    | _ =>
        match split_first ":"%char pattern with
        | Some (n, e) =>
            match stoi n, stoi e with
            | Some vn, Some ve => set (u64 vn) (u64 ve) b
            | _, _ => set 0 0 b
            end
        | None => set 0 0 b
        end
    end.

Definition set_threshold (idx : nat) (threshold : Z) (b : bus_error_list) : bus_error_list :=
  if (idx <? bl_n b)%nat then b <| bl_thresholds ::= <[idx := u64 threshold]> |> else b.

(** ** Policies *)

Definition pattern_mode (b : bus_error_list) (idx : nat) : bool :=
  (0 <? at_z (bl_normal b) idx) && (0 <? at_z (bl_error b) idx).

Definition get_count (addr : Z) (idx : nat) (b : bus_error_list) : option Z :=
  if (bl_n b <=? idx)%nat then None
  else i ← find_entry addr b; e ← bl_entries b !! i; Some (at_z (le_counters e) idx).

Definition bump (idx : nat) (amount : Z) (l : list Z) : list Z :=
  <[idx := u64 (at_z l idx + amount)]> l.

Definition incr_count (addr : Z) (idx : nat) (amount : Z) (b : bus_error_list)
    : bus_error_list * option Z :=
  if (bl_n b <=? idx)%nat then (b, None)
  else
    match find_entry addr b ≫= (λ i, e ← bl_entries b !! i; Some (i, e)) with
    | None => (b, None)
    | Some (i, e) =>
        if pattern_mode b idx then
          let e' := e <| le_positions ::= bump idx amount |> in
          (b <| bl_entries ::= <[i := e']> |>, Some (at_z (le_positions e') idx))
        else
          let e' := e <| le_counters ::= bump idx amount |> in
          (b <| bl_entries ::= <[i := e']> |>, Some (at_z (le_counters e') idx))
    end.

Definition is_count_below_threshold (addr : Z) (idx : nat) (b : bus_error_list) : bool :=
  if (bl_n b <=? idx)%nat then false
  else match find_entry addr b ≫= (λ i, bl_entries b !! i) with
       | Some e => at_z (le_counters e) idx <? at_z (bl_thresholds b) idx
       | None => false
       end.

Definition check_inject_error (addr : Z) (idx : nat) (b : bus_error_list) : bool :=
  match find_entry addr b ≫= (λ i, bl_entries b !! i) with
  | None => false
  | Some e =>
      if pattern_mode b idx then
        let total_cycle := u64 (at_z (bl_normal b) idx + at_z (bl_error b) idx) in
        let cycle_position := at_z (le_positions e) idx mod total_cycle in
        at_z (bl_normal b) idx <=? cycle_position
      else is_count_below_threshold addr idx b
  end.

(** ** Well-formedness *)

Definition entries_sorted (l : list list_entry) : Prop :=
  ∀ i j x y, (i < j)%nat → l !! i = Some x → l !! j = Some y → le_lo x ≤ le_lo y.

Record bel_wf (b : bus_error_list) : Prop := {
  wf_sorted : entries_sorted (bl_entries b);
  wf_arrays : length (bl_normal b) = bl_n b ∧ length (bl_error b) = bl_n b ∧
              length (bl_thresholds b) = bl_n b;
  wf_entries : Forall (λ e, length (le_counters e) = bl_n b ∧
                            length (le_positions e) = bl_n b) (bl_entries b)
}.

Lemma sorted_cons x l :
  entries_sorted (x :: l) ↔ (∀ y, y ∈ l → le_lo x ≤ le_lo y) ∧ entries_sorted l.
Proof.
  split.
  - intros Hs. split.
    + intros y [i Hi]%list_elem_of_lookup. by apply (Hs 0%nat (S i)); [lia|..].
    + intros i j a b Hij Ha Hb. by apply (Hs (S i) (S j)); [lia|..].
  - intros [Hx Hs] i j a b Hij Ha Hb. destruct j as [|j]; [lia|].
    destruct i as [|i]; simpl in *; simplify_eq.
    + apply Hx. by eapply list_elem_of_lookup_2.
    + by apply (Hs i j); [lia|..].
Qed.

Lemma elem_of_insert_entry e l x : x ∈ insert_entry e l ↔ x = e ∨ x ∈ l.
Proof.
  induction l as [|y l IH]; simpl; [set_solver|].
  destruct (_ <? _); set_solver.
Qed.

Lemma insert_entry_sorted e l : entries_sorted l → entries_sorted (insert_entry e l).
Proof.
  induction l as [|x l IH]; intros Hs; simpl.
  { intros [|i] [|j] a b Hij Ha Hb; simpl in *; [lia|done|lia|done]. }
  apply sorted_cons in Hs as [Hx Hs]. destruct (_ <? _) eqn:E; zbool.
  - apply sorted_cons. split; [|by apply IH].
    intros y [-> | Hy]%elem_of_insert_entry; [lia|by apply Hx].
  - apply sorted_cons. split; [|by apply sorted_cons].
    intros y [-> | Hy]%elem_of_cons; [done|]. specialize (Hx y Hy). lia.
Qed.

Lemma bel_insert_wf lo hi b : bel_wf b → bel_wf (bel_insert lo hi b).
Proof.
  intros [Hs Ha He]. split; simpl; [by apply insert_entry_sorted|done|].
  apply Forall_forall. intros x [-> | Hx]%elem_of_insert_entry; simpl.
  - by rewrite !length_replicate.
  - rewrite Forall_forall in He. by apply He.
Qed.

Lemma bel_new_wf n : bel_wf (bel_new n).
Proof. split; simpl; [by intros ???|by rewrite !length_replicate|done]. Qed.

Lemma parse_token_wf b t : bel_wf b → bel_wf (parse_token b t).
Proof.
  intros Hb. unfold parse_token. repeat case_match; auto using bel_insert_wf.
Qed.

(** Parsing any flag value yields a well-formed list. *)
Lemma bel_parse_wf s b : bel_wf b → bel_wf (bel_parse s b).
Proof.
  intros Hb. unfold bel_parse. destruct s as [|c s]; [done|].
  generalize (getline_tokens ","%char (String c s)) as ts. intros ts.
  revert b Hb; induction ts as [|t ts IH]; intros b Hb; simpl; [done|].
  by apply IH, parse_token_wf.
Qed.

(** ** Lookup *)

Lemma upper_bound_below addr l i e :
  (i < upper_bound addr l)%nat → l !! i = Some e → le_lo e ≤ addr.
Proof.
  revert i; induction l as [|x l IH]; intros i Hi He; [done|]. simpl in Hi.
  destruct (_ <? _) eqn:E; [lia|]. zbool. destruct i as [|i]; simplify_eq/=; [done|].
  apply (IH i); [lia|done].
Qed.

Lemma upper_bound_above addr l i e :
  entries_sorted l → (upper_bound addr l ≤ i)%nat → l !! i = Some e → addr < le_lo e.
Proof.
  revert i; induction l as [|x l IH]; intros i Hs Hi He; [done|]. simpl in Hi.
  apply sorted_cons in Hs as [Hx Hs]. destruct (_ <? _) eqn:E; zbool.
  - destruct i as [|i]; simplify_eq/=; [done|].
    specialize (Hx e ltac:(by eapply list_elem_of_lookup_2)). lia.
  - destruct i as [|i]; [lia|]. apply (IH i); [done|lia|done].
Qed.

Definition covers (e : list_entry) (addr : Z) : Prop := le_lo e ≤ addr ≤ le_hi e.

Definition entries_disjoint (l : list list_entry) : Prop :=
  (∀ i x, l !! i = Some x → le_lo x ≤ le_hi x) ∧
  ∀ i j x y, i ≠ j → l !! i = Some x → l !! j = Some y → le_hi x < le_lo y ∨ le_hi y < le_lo x.

Lemma find_entry_Some addr b i :
  find_entry addr b = Some i → ∃ e, bl_entries b !! i = Some e ∧ covers e addr.
Proof.
  unfold find_entry. destruct (upper_bound _ _) as [|k]; [done|].
  destruct (bl_entries b !! k) as [e|] eqn:E; [|done].
  destruct (_ && _) eqn:Ec; [|done]. intros [= <-]. zbool. by exists e.
Qed.

(** On non-empty intervals that do not overlap, the binary search finds an address
    exactly when some stored interval covers it (overlapping or nested
    intervals can hide one another). *)
Theorem bel_find_complete b addr :
  bel_wf b → entries_disjoint (bl_entries b) →
  bel_find addr b = true ↔ ∃ e, e ∈ bl_entries b ∧ covers e addr.
Proof.
  intros [Hs _ _] [Hne' Hd]. unfold bel_find. split.
  - destruct (find_entry addr b) as [i|] eqn:E; [|done].
    apply find_entry_Some in E as (e & He & Hc). exists e.
    split; [by eapply list_elem_of_lookup_2|done].
  - intros (e & [k Hk]%list_elem_of_lookup & Hlo & Hhi).
    destruct (decide (k < upper_bound addr (bl_entries b))%nat) as [Hlt|Hge].
    2: { pose proof (upper_bound_above addr _ k e Hs ltac:(lia) Hk). lia. }
    unfold find_entry. destruct (upper_bound addr (bl_entries b)) as [|i] eqn:Eub; [lia|].
    assert (i < length (bl_entries b))%nat as Hi.
    { apply Nat.nle_gt. intros Hi. apply lookup_lt_Some in Hk.
      clear -Eub Hi. revert i Eub Hi. induction (bl_entries b) as [|x l IH]; intros i Eub Hi; [done|].
      simpl in *. destruct (_ <? _); [done|]. destruct i as [|i]; [lia|]. apply (IH i); lia. }
    destruct (lookup_lt_is_Some_2 _ _ Hi) as [x Hx]. rewrite Hx.
    pose proof (upper_bound_below addr _ i x ltac:(rewrite Eub; lia) Hx) as Hxlo.
    destruct (decide (i = k)) as [->|Hne].
    + simplify_eq. by rewrite (proj2 (Z.leb_le _ _) Hlo), (proj2 (Z.leb_le _ _) Hhi).
    + pose proof (Hs k i e x ltac:(lia) Hk Hx). specialize (Hd i k x e Hne Hx Hk).
      specialize (Hne' i x Hx). destruct Hd; lia.
Qed.

Lemma bel_find_complete_witness :
  let b := bel_parse "0x10-0x1F, 0x40" (bel_new 2) in
  bel_find 0x7f b = true ∧ bel_find 0x20 b = false.
Proof.
  intros b.
  assert (bl_entries b = [List_entry 0x10 0x1f [0;0] [0;0]; List_entry 0x40 0x7f [0;0] [0;0]])
    as Eb by (vm_compute; reflexivity).
  assert (Hd : entries_disjoint (bl_entries b)).
  { rewrite Eb. split.
    - intros [|[|i]] x Hx; simplify_eq/=; lia.
    - intros [|[|i]] [|[|j]] x y Hij Hx Hy; simplify_eq/=; lia. }
  assert (Hw : bel_wf b) by apply bel_parse_wf, bel_new_wf.
  split.
  - apply (bel_find_complete b 0x7f Hw Hd). rewrite Eb. eexists. split; [right; left|].
    split; simpl; lia.
  - apply not_true_is_false. rewrite (bel_find_complete b 0x20 Hw Hd), Eb.
    intros (e & He & Hc). unfold covers in Hc. set_unfold. destruct He as [-> | [-> | []]]; simpl in Hc; lia.
Defined.

(** A wide interval is hidden by a later one inside it: 0x30 is in [0x0..0xFF]
    but is not found. *)
Lemma bel_find_nested_hidden :
  bel_find 0x30 (bel_parse "0x0-0xFF,0x10-0x1F" (bel_new 2)) = false.
Proof. vm_compute. reflexivity. Qed.

(** ** The injection policies *)

(** One access as the AXI model performs it: decide, then advance. *)
Definition bel_access (addr : Z) (idx : nat) (b : bus_error_list) : bool * bus_error_list :=
  (check_inject_error addr idx b, (incr_count addr idx 1 b).1).

Fixpoint bel_accesses (n : nat) (addr : Z) (idx : nat) (b : bus_error_list) : list bool :=
  match n with
  | O => []
  | S n' => let '(r, b') := bel_access addr idx b in r :: bel_accesses n' addr idx b'
  end.

Lemma upper_bound_insert addr l i e e' :
  l !! i = Some e → le_lo e' = le_lo e → upper_bound addr (<[i := e']> l) = upper_bound addr l.
Proof.
  revert i; induction l as [|x l IH]; intros i He Hlo; [done|].
  destruct i as [|i]; simplify_eq/=; [by rewrite Hlo|]. destruct (_ <? _); [done|].
  by rewrite IH.
Qed.

(** Updating the counters of the found entry does not move it. *)
Lemma find_entry_update addr b i e e' :
  find_entry addr b = Some i → bl_entries b !! i = Some e →
  le_lo e' = le_lo e → le_hi e' = le_hi e →
  find_entry addr (b <| bl_entries ::= <[i := e']> |>) = Some i ∧
  bl_entries (b <| bl_entries ::= <[i := e']> |>) !! i = Some e'.
Proof.
  intros Hf He Hlo Hhi. pose proof (lookup_lt_Some _ _ _ He) as Hlt.
  split; [|by apply list_lookup_insert_eq].
  unfold find_entry in *. unfold modify. cbn [bl_entries].
  rewrite (upper_bound_insert _ _ _ e) by done.
  destruct (upper_bound _ _) as [|k]; [done|].
  destruct (decide (k = i)) as [->|Hne].
  - rewrite list_lookup_insert_eq by done. rewrite Hlo, Hhi, He in *. done.
  - rewrite list_lookup_insert_ne by done. done.
Qed.

(** The decision for an entry whose relevant counter is [k]. *)
Definition policy (b : bus_error_list) (idx : nat) (k : Z) : bool :=
  if pattern_mode b idx
  then at_z (bl_normal b) idx <=? k mod (at_z (bl_normal b) idx + at_z (bl_error b) idx)
  else k <? at_z (bl_thresholds b) idx.

Definition counter_of (b : bus_error_list) (idx : nat) (e : list_entry) : Z :=
  if pattern_mode b idx then at_z (le_positions e) idx else at_z (le_counters e) idx.

Lemma bel_accesses_from n addr idx b i e :
  (idx < bl_n b)%nat → find_entry addr b = Some i → bl_entries b !! i = Some e →
  length (le_counters e) = bl_n b → length (le_positions e) = bl_n b →
  at_z (bl_normal b) idx + at_z (bl_error b) idx < 2 ^ 64 →
  0 ≤ counter_of b idx e → counter_of b idx e + Z.of_nat n < 2 ^ 64 →
  bel_accesses n addr idx b =
  (λ k, policy b idx (counter_of b idx e + Z.of_nat k)) <$> seq 0 n.
Proof.
  revert b e; induction n as [|n IH]; intros b e Hidx Hf He Hlc Hlp Hsum H0 Hb; [done|].
  simpl bel_accesses. cbn [seq fmap list_fmap]. f_equal.
  - unfold check_inject_error, policy, counter_of, is_count_below_threshold.
    rewrite Hf. simpl. rewrite He. simpl. rewrite Z.add_0_r.
    destruct (pattern_mode b idx) eqn:Ep.
    + unfold pattern_mode in Ep. zbool. by rewrite u64_small by (split; lia).
    + by rewrite (proj2 (Nat.leb_gt _ _)).
  - unfold incr_count. rewrite (proj2 (Nat.leb_gt _ _)) by done.
    rewrite Hf. cbn [mbind option_bind]. rewrite He. cbn [mbind option_bind fst snd].
    rewrite <- fmap_S_seq, <- list_fmap_compose.
    assert (∀ e', le_lo e' = le_lo e → le_hi e' = le_hi e →
              length (le_counters e') = bl_n b → length (le_positions e') = bl_n b →
              counter_of b idx e' = counter_of b idx e + 1 →
              bel_accesses n addr idx (b <| bl_entries ::= <[i := e']> |>) =
              ((λ k, policy b idx (counter_of b idx e + Z.of_nat k)) ∘ S) <$> seq 0 n) as Hgo.
    { intros e' Hlo Hhi Hc Hp Hcnt.
      destruct (find_entry_update addr b i e e' Hf He Hlo Hhi) as [Hf' He'].
      rewrite (IH _ e'); try done;
        [|change (0 ≤ counter_of b idx e'); lia|change (counter_of b idx e' + Z.of_nat n < 2 ^ 64); lia].
      apply list_fmap_ext. intros _ k _.
      change (policy b idx (counter_of b idx e' + Z.of_nat k) =
              policy b idx (counter_of b idx e + Z.of_nat (S k))).
      rewrite Hcnt. f_equal. lia. }
    unfold counter_of in H0, Hb.
    destruct (pattern_mode b idx) eqn:Ep; cbn [fst]; apply Hgo; try done;
      unfold bump; simpl; rewrite ?length_insert; try done;
      unfold counter_of; rewrite Ep; simpl; rewrite at_z_insert_eq by lia;
      apply u64_small; split; lia.
Qed.

(** The documented injection policies: the [k]-th access (from 0) of an
    address in a fresh interval gets an error exactly when [k] is below the
    threshold, or, in pattern mode, when [k] falls in the error phase of the
    repeating N:E pattern. *)
Theorem bel_policy n addr idx b i e :
  bel_wf b → (idx < bl_n b)%nat → find_entry addr b = Some i → bl_entries b !! i = Some e →
  at_z (le_counters e) idx = 0 → at_z (le_positions e) idx = 0 →
  at_z (bl_normal b) idx + at_z (bl_error b) idx < 2 ^ 64 → Z.of_nat n < 2 ^ 64 →
  bel_accesses n addr idx b = (λ k : nat, policy b idx (Z.of_nat k)) <$> seq 0 n.
Proof.
  intros [_ _ Hw] Hidx Hf He Hc Hp Hsum Hn.
  rewrite Forall_lookup in Hw. destruct (Hw _ _ He) as [Hlc Hlp].
  assert (counter_of b idx e = 0) as Hz by (unfold counter_of; by destruct (pattern_mode _ _)).
  rewrite (bel_accesses_from n addr idx b i e) by (done || lia). by rewrite Hz.
Qed.

Lemma bel_policy_witness :
  let b := set_pattern 0 "3:2" (bel_parse "0x1000" (bel_new 2)) in
  bel_accesses 7 0x1004 0 b = [false; false; false; true; true; false; false].
Proof.
  intros b.
  rewrite (bel_policy 7 0x1004 0 b 0 (List_entry 0x1000 0x103f [0;0] [0;0]));
    [vm_compute; reflexivity| |simpl; lia|vm_compute; reflexivity|vm_compute; reflexivity
    |reflexivity|reflexivity|vm_compute; reflexivity|lia].
  assert (bel_wf (bel_parse "0x1000" (bel_new 2))) as [? ? ?] by apply bel_parse_wf, bel_new_wf.
  split; [done|vm_compute; done|done].
Defined.
