(* ===== verification/AddressMap.v ===== *)
(** * AddressMap: device addresses (src/common/device_address_map)

    Composition of MMR and IMSIC device addresses from their fields, the
    decoding helpers, and the proof that decoding inverts composition for any
    layout whose fields do not overlap.  The flags are a record; the shift
    amounts of a real layout are below 64 ([layout_ok]). *)

From S2P Require Import Prelude.

Record dam_flags := Dam_flags {
  mmr_base_addr : Z;
  sp_base_addr : Z;
  sp_size : Z;
  die_id_width : Z;
  cluster_id_width : Z;
  die_id_start_bit : Z;
  priv_level_width : Z;
  priv_level_start_bit : Z;
  mmr_cluster_id_start_bit : Z;
  mmr_device_id_width : Z;
  mmr_device_id_start_bit : Z;
  imsic_cluster_id_start_bit : Z;
  imsic_core_id_start_bit : Z;
  imsic_m : Z;
  imsic_s : Z;
  mmr_m : Z;
  tr_device_id : Z;
  cpl_device_id_start : Z;
  cpl_sram_device_id : Z;
  acl_device_id : Z;
  dm_device_id : Z;
  sc_device_id : Z;
  axisw_device_id : Z
}.

Section address_map.
Context (fl : dam_flags).

Definition pl_is_imsic_space (pl : Z) : bool := (pl =? imsic_m fl) || (pl =? imsic_s fl).

Definition generate_device_addr (device_id cluster_id priv_level : Z) : Z :=
  let is_imsic := (priv_level =? imsic_m fl) || (priv_level =? imsic_s fl) in
  let res := mmr_base_addr fl in
  let cluster_id_lower := cluster_id &&& ((1 ≪ cluster_id_width fl) - 1) in
  let cluster_id_upper := cluster_id ≫ cluster_id_width fl in
  let res := if 0 <? die_id_width fl
             then res ||| u64 (cluster_id_upper ≪ die_id_start_bit fl) else res in
  let res :=
    if is_imsic then
      res ||| u64 (device_id ≪ imsic_core_id_start_bit fl)
          ||| u64 (cluster_id_lower ≪ imsic_cluster_id_start_bit fl)
    else
      res ||| u64 (device_id ≪ mmr_device_id_start_bit fl)
          ||| u64 (cluster_id_lower ≪ mmr_cluster_id_start_bit fl) in
  res ||| u64 (priv_level ≪ priv_level_start_bit fl).

Definition generate_imsic_m_addr (cluster_id core_id : Z) : Z :=
  generate_device_addr core_id cluster_id (imsic_m fl).
Definition generate_imsic_s_addr (cluster_id core_id : Z) : Z :=
  generate_device_addr core_id cluster_id (imsic_s fl).
Definition generate_cr_device_addr (cluster_id core_id : Z) : Z :=
  generate_device_addr core_id cluster_id (mmr_m fl).
Definition generate_tr_device_addr (cluster_id : Z) : Z :=
  generate_device_addr (tr_device_id fl) cluster_id (mmr_m fl).
Definition generate_cpl_device_addr (cluster_id : Z) : Z :=
  generate_device_addr (cpl_device_id_start fl) cluster_id (mmr_m fl).
Definition generate_cpl_sram_device_addr (cluster_id : Z) : Z :=
  generate_device_addr (cpl_sram_device_id fl) cluster_id (mmr_m fl).
Definition generate_acl_device_addr (cluster_id : Z) : Z :=
  generate_device_addr (acl_device_id fl) cluster_id (mmr_m fl).
Definition generate_dm_device_addr (cluster_id : Z) : Z :=
  generate_device_addr (dm_device_id fl) cluster_id (mmr_m fl).
Definition generate_sc_device_addr (cluster_id : Z) : Z :=
  generate_device_addr (sc_device_id fl) cluster_id (mmr_m fl).
Definition generate_axisw_device_addr (cluster_id : Z) : Z :=
  generate_device_addr (axisw_device_id fl) cluster_id (mmr_m fl).

Definition extract_mmr_offset (addr : Z) : Z :=
  addr &&& ((1 ≪ mmr_device_id_width fl) - 1).

(** [w >= 32 ? ~0u : ((1u << w) - 1u)] *)
Definition mask32 (w : Z) : Z := if 32 <=? w then 2 ^ 32 - 1 else (1 ≪ w) - 1.

Definition privilege_level_from_addr (addr : Z) : Z :=
  let w := priv_level_width fl in
  if w =? 0 then 0
  else u32 ((addr ≫ priv_level_start_bit fl) &&& mask32 w).

Definition extract_cluster_id_from_address (addr : Z) : Z :=
  let pl := privilege_level_from_addr addr in
  let cw := cluster_id_width fl in
  let cluster_lower :=
    if pl_is_imsic_space pl
    then u32 ((addr ≫ imsic_cluster_id_start_bit fl) &&& mask32 cw)
    else u32 ((addr ≫ mmr_cluster_id_start_bit fl) &&& mask32 cw) in
  let cluster_upper :=
    if 0 <? die_id_width fl
    then u32 ((addr ≫ die_id_start_bit fl) &&& mask32 (die_id_width fl)) else 0 in
  u32 (cluster_upper ≪ cw) ||| cluster_lower.

Definition is_internal_device (addr cluster_id : Z) : bool :=
  let low_bits := u32 (priv_level_start_bit fl + priv_level_width fl) in
  let mmr_base_mask :=
    if low_bits =? 0 then 2 ^ 64 - 1
    else if 64 <=? low_bits then 0
    else not64 ((1 ≪ low_bits) - 1) in
  let base_match := (addr &&& mmr_base_mask) =? (mmr_base_addr fl &&& mmr_base_mask) in
  base_match && (cluster_id =? extract_cluster_id_from_address addr).
End address_map.

(** ** Bit fields *)

Definition no_bits (x s w : Z) : Prop := ∀ i, s ≤ i < s + w → Z.testbit x i = false.

Lemma no_bits_lor x y s w : no_bits x s w → no_bits y s w → no_bits (x ||| y) s w.
Proof. intros Hx Hy i Hi. by rewrite Z.lor_spec, Hx, Hy. Qed.

(** A field [v] of [w'] bits at [s'] has no bits in a disjoint range. *)
Lemma no_bits_field v s' w' s w :
  0 ≤ v < 2 ^ w' → 0 ≤ s' → 0 ≤ w' → 0 ≤ s → s' + w' ≤ s ∨ s + w ≤ s' → no_bits (v ≪ s') s w.
Proof.
  intros Hv Hs' Hw' Hs Hd i Hi. rewrite Z.shiftl_spec by lia. destruct Hd as [Hd|Hd].
  - apply (testbit_above v w'); lia.
  - apply Z.testbit_neg_r. lia.
Qed.

Lemma shift_field_u64 v s w :
  0 ≤ v < 2 ^ w → 0 ≤ s → 0 ≤ w → s + w ≤ 64 → u64 (v ≪ s) = v ≪ s.
Proof.
  intros Hv Hs Hw Hsw. apply u64_small. rewrite Z.shiftl_mul_pow2 by lia.
  assert (2 ^ w * 2 ^ s ≤ 2 ^ 64) by (rewrite <- Z.pow_add_r by lia; apply Z.pow_le_mono_r; lia).
  pose proof (Z.pow_pos_nonneg 2 s ltac:(lia) ltac:(lia)). split; nia.
Qed.

Lemma field_extract r v s w :
  0 ≤ s → 0 ≤ w → 0 ≤ v < 2 ^ w → no_bits r s w →
  ((r ||| (v ≪ s)) ≫ s) &&& Z.ones w = v.
Proof.
  intros Hs Hw Hv Hr. apply Z.bits_inj'. intros i Hi.
  rewrite Z.land_spec, Z.shiftr_spec, Z.lor_spec, Z.shiftl_spec by lia.
  replace (i + s - s) with i by lia. destruct (decide (i < w)).
  - rewrite Hr, Z.ones_spec_low by lia. by rewrite andb_true_r.
  - rewrite Z.ones_spec_high by lia. rewrite andb_false_r. symmetry. apply (testbit_above v w); lia.
Qed.

Lemma mask32_ones w : 0 ≤ w < 32 → mask32 w = Z.ones w.
Proof.
  intros Hw. unfold mask32. rewrite (proj2 (Z.leb_gt _ _)) by lia.
  by rewrite Z.shiftl_1_l, Z.ones_equiv, Z.sub_1_r.
Qed.

(** ** Layouts *)

(** Start bits of the cluster and device fields in the space of [pl]. *)
Definition cluster_start (fl : dam_flags) (pl : Z) : Z :=
  if pl_is_imsic_space fl pl then imsic_cluster_id_start_bit fl else mmr_cluster_id_start_bit fl.
Definition device_start (fl : dam_flags) (pl : Z) : Z :=
  if pl_is_imsic_space fl pl then imsic_core_id_start_bit fl else mmr_device_id_start_bit fl.

Definition apart (s w s' w' : Z) : Prop := s + w ≤ s' ∨ s' + w' ≤ s.

(** The fields of an address with privilege level [pl] and a device id of [dw]
    bits: inside 64 bits, pairwise disjoint, clear in the base address. *)
Record layout_ok (fl : dam_flags) (pl dw : Z) : Prop := {
  lo_cw : 0 ≤ cluster_id_width fl < 32;
  lo_dw : 0 ≤ dw;
  lo_diew : 0 ≤ die_id_width fl < 32;
  lo_plw : 0 < priv_level_width fl < 32;
  lo_cd : cluster_id_width fl + die_id_width fl ≤ 32;
  lo_c : 0 ≤ cluster_start fl pl ∧ cluster_start fl pl + cluster_id_width fl ≤ 64;
  lo_d : 0 ≤ device_start fl pl ∧ device_start fl pl + dw ≤ 64;
  lo_die : 0 ≤ die_id_start_bit fl ∧ die_id_start_bit fl + die_id_width fl ≤ 64;
  lo_pl : 0 ≤ priv_level_start_bit fl ∧ priv_level_start_bit fl + priv_level_width fl ≤ 64;
  lo_c_d : apart (cluster_start fl pl) (cluster_id_width fl) (device_start fl pl) dw;
  lo_c_die : apart (cluster_start fl pl) (cluster_id_width fl) (die_id_start_bit fl) (die_id_width fl);
  lo_c_pl : apart (cluster_start fl pl) (cluster_id_width fl) (priv_level_start_bit fl) (priv_level_width fl);
  lo_d_die : apart (device_start fl pl) dw (die_id_start_bit fl) (die_id_width fl);
  lo_d_pl : apart (device_start fl pl) dw (priv_level_start_bit fl) (priv_level_width fl);
  lo_die_pl : apart (die_id_start_bit fl) (die_id_width fl) (priv_level_start_bit fl) (priv_level_width fl);
  lo_base_c : no_bits (mmr_base_addr fl) (cluster_start fl pl) (cluster_id_width fl);
  lo_base_die : no_bits (mmr_base_addr fl) (die_id_start_bit fl) (die_id_width fl);
  lo_base_pl : no_bits (mmr_base_addr fl) (priv_level_start_bit fl) (priv_level_width fl)
}.

(** Composition as a union of shifted fields. *)
Definition fields_addr (fl : dam_flags) (dev cl pl : Z) : Z :=
  let lower := cl mod 2 ^ cluster_id_width fl in
  let upper := cl / 2 ^ cluster_id_width fl in
  mmr_base_addr fl ||| (upper ≪ die_id_start_bit fl) ||| (dev ≪ device_start fl pl)
    ||| (lower ≪ cluster_start fl pl) ||| (pl ≪ priv_level_start_bit fl).

Record ids_ok (fl : dam_flags) (dev cl pl dw : Z) : Prop := {
  io_dev : 0 ≤ dev < 2 ^ dw;
  io_cl : 0 ≤ cl < 2 ^ (cluster_id_width fl + die_id_width fl);
  io_pl : 0 ≤ pl < 2 ^ priv_level_width fl
}.

Lemma cluster_parts fl dev cl pl dw :
  layout_ok fl pl dw → ids_ok fl dev cl pl dw →
  0 ≤ cl mod 2 ^ cluster_id_width fl < 2 ^ cluster_id_width fl ∧
  0 ≤ cl / 2 ^ cluster_id_width fl < 2 ^ die_id_width fl.
Proof.
  intros [] []. split; [apply Z.mod_pos_bound, Z.pow_pos_nonneg; lia|].
  split; [apply Z.div_pos; [lia|apply Z.pow_pos_nonneg; lia]|].
  apply Z.div_lt_upper_bound; [apply Z.pow_pos_nonneg; lia|].
  rewrite <- Z.pow_add_r by lia. lia.
Qed.

Lemma generate_device_addr_fields fl dev cl pl dw :
  layout_ok fl pl dw → ids_ok fl dev cl pl dw →
  generate_device_addr fl dev cl pl = fields_addr fl dev cl pl.
Proof.
  intros HL HI. destruct (cluster_parts _ _ _ _ _ HL HI) as [Hlo Hup].
  destruct HL, HI. unfold generate_device_addr, fields_addr.
  rewrite Z.shiftl_1_l, Z.sub_1_r, <- Z.ones_equiv, Z.land_ones, Z.shiftr_div_pow2 by lia.
  fold (pl_is_imsic_space fl pl). unfold cluster_start, device_start in *.
  rewrite (shift_field_u64 pl _ (priv_level_width fl)) by lia.
  destruct (pl_is_imsic_space fl pl);
    rewrite (shift_field_u64 dev _ dw), (shift_field_u64 (cl mod _) _ (cluster_id_width fl)) by lia;
    (destruct (0 <? die_id_width fl) eqn:E; zbool;
      [by rewrite (shift_field_u64 (cl / _) _ (die_id_width fl)) by lia
      |replace (cl / 2 ^ cluster_id_width fl) with 0 by
         (assert (die_id_width fl = 0) as Ez by lia; rewrite Ez in Hup; simpl in Hup; lia);
       by rewrite Z.shiftl_0_l, Z.lor_0_r]).
Qed.

(** Each field of a composed address reads back. *)
Lemma fields_read fl dev cl pl dw :
  layout_ok fl pl dw → ids_ok fl dev cl pl dw →
  let a := fields_addr fl dev cl pl in
  (a ≫ priv_level_start_bit fl) &&& Z.ones (priv_level_width fl) = pl ∧
  (a ≫ cluster_start fl pl) &&& Z.ones (cluster_id_width fl) = cl mod 2 ^ cluster_id_width fl ∧
  (a ≫ die_id_start_bit fl) &&& Z.ones (die_id_width fl) = cl / 2 ^ cluster_id_width fl.
Proof.
  intros HL HI. destruct (cluster_parts _ _ _ _ _ HL HI) as [Hlo Hup].
  destruct HL, HI. unfold fields_addr, apart in *. split_and!.
  - apply field_extract; try lia. repeat apply no_bits_lor; [done|..];
      eapply no_bits_field; eauto; lia.
  - rewrite <- Z.lor_assoc, (Z.lor_comm (_ ≪ cluster_start fl pl)), Z.lor_assoc.
    apply field_extract; try lia. repeat apply no_bits_lor; [done|..];
      eapply no_bits_field; eauto; lia.
  - rewrite <- !Z.lor_assoc, (Z.lor_assoc (mmr_base_addr fl)), (Z.lor_comm (mmr_base_addr fl)).
    rewrite <- !Z.lor_assoc, Z.lor_comm. apply field_extract; try lia.
    repeat apply no_bits_lor; [done|..]; eapply no_bits_field; eauto; lia.
Qed.

Lemma extract_generate fl dev cl pl dw :
  layout_ok fl pl dw → ids_ok fl dev cl pl dw →
  extract_cluster_id_from_address fl (generate_device_addr fl dev cl pl) = cl.
Proof.
  intros HL HI. rewrite (generate_device_addr_fields _ _ _ _ dw) by done.
  destruct (fields_read _ _ _ _ _ HL HI) as (Epl & Ecl & Edie).
  destruct (cluster_parts _ _ _ _ _ HL HI) as [Hlo Hup].
  unfold extract_cluster_id_from_address, privilege_level_from_addr.
  pose proof HL as []. pose proof HI as [].
  assert (2 ^ (cluster_id_width fl + die_id_width fl) ≤ 2 ^ 32) by (apply Z.pow_le_mono_r; lia).
  assert (2 ^ priv_level_width fl ≤ 2 ^ 32) by (apply Z.pow_le_mono_r; lia).
  assert (2 ^ cluster_id_width fl ≤ 2 ^ 32) by (apply Z.pow_le_mono_r; lia).
  assert (2 ^ die_id_width fl ≤ 2 ^ 32) by (apply Z.pow_le_mono_r; lia).
  rewrite (proj2 (Z.eqb_neq _ _)) by lia. rewrite !mask32_ones, Epl by lia.
  rewrite (u32_small pl) by (split; lia).
  set (lower := if pl_is_imsic_space fl pl then _ else _).
  assert (lower = cl mod 2 ^ cluster_id_width fl) as ->.
  { subst lower. unfold cluster_start in Ecl.
    destruct (pl_is_imsic_space fl pl); rewrite Ecl; apply u32_small; split; lia. }
  set (upper := if 0 <? _ then _ else _).
  assert (upper = cl / 2 ^ cluster_id_width fl) as ->.
  { subst upper. destruct (0 <? die_id_width fl) eqn:E; zbool.
    - rewrite Edie. apply u32_small. split; lia.
    - assert (die_id_width fl = 0) as Ez by lia. rewrite Ez in Hup. simpl in Hup. lia. }
  pose proof (Z.div_mod cl (2 ^ cluster_id_width fl) ltac:(apply Z.pow_nonzero; lia)) as Hdm.
  rewrite u32_small by (rewrite Z.shiftl_mul_pow2 by lia; split; lia).
  rewrite Z.lor_comm, lor_shiftl_add by lia. lia.
Qed.

(** Decoding inverts composition: for every layout with disjoint fields,
    the cluster id extracted from a composed device address (MMR or IMSIC) is
    the cluster id it was composed from. *)
Theorem extract_generate_cluster fl dev cl pl dw :
  layout_ok fl pl dw → ids_ok fl dev cl pl dw →
  extract_cluster_id_from_address fl (generate_device_addr fl dev cl pl) = cl.
Proof. apply extract_generate. Qed.

(** An example layout: base bit 46, device id at 12, cluster at 20 (MMR) or 24
    (IMSIC), die at 30, privilege level at 36. *)
Definition sample_dam : dam_flags :=
  Dam_flags 0x400000000000 0 0 2 4 30 3 36 20 6 12 24 16 4 5 1 8 9 10 11 12 13 14.

Lemma no_bits_dec x s w :
  forallb (λ k : nat, negb (Z.testbit x (s + Z.of_nat k))) (seq 0 (Z.to_nat w)) = true →
  no_bits x s w.
Proof.
  intros H i Hi. rewrite forallb_forall in H.
  specialize (H (Z.to_nat (i - s)) ltac:(apply in_seq; lia)). apply negb_true_iff in H.
  by replace (s + Z.of_nat (Z.to_nat (i - s))) with i in H by lia.
Qed.

Lemma sample_layout_ok : layout_ok sample_dam 1 6 ∧ layout_ok sample_dam 4 6.
Proof.
  split; split; try (cbn; lia); try (unfold apart; cbn; lia);
    apply no_bits_dec; vm_compute; reflexivity.
Qed.

Lemma extract_generate_cluster_witness :
  extract_cluster_id_from_address sample_dam (generate_device_addr sample_dam 9 0x2b 1) = 0x2b.
Proof.
  apply (extract_generate_cluster sample_dam 9 0x2b 1 6).
  - exact (proj1 sample_layout_ok).
  - split; cbn; lia.
Defined.

(** ** Internal devices *)

Lemma land_high_mask x n :
  0 ≤ x < 2 ^ n → 0 ≤ n ≤ 64 → x &&& not64 ((1 ≪ n) - 1) = 0.
Proof.
  intros Hx Hn. apply Z.bits_inj'. intros i Hi. rewrite Z.land_spec, Z.bits_0.
  destruct (decide (i < n)).
  - unfold not64. rewrite Z.lxor_spec, Z.shiftl_1_l, Z.sub_1_r, <- Z.ones_equiv.
    rewrite !Z.ones_spec_low by lia. apply andb_false_r.
  - by rewrite (testbit_above x n) by lia.
Qed.

Lemma shiftl_bound v s w n :
  0 ≤ v < 2 ^ w → 0 ≤ s → 0 ≤ w → s + w ≤ n → 0 ≤ v ≪ s < 2 ^ n.
Proof.
  intros Hv Hs Hw Hn. rewrite Z.shiftl_mul_pow2 by lia.
  assert (2 ^ w * 2 ^ s ≤ 2 ^ n) by (rewrite <- Z.pow_add_r by lia; apply Z.pow_le_mono_r; lia).
  pose proof (Z.pow_pos_nonneg 2 s ltac:(lia) ltac:(lia)). split; nia.
Qed.

(** When the privilege level is the topmost field, a composed address is
    recognised as internal to exactly the cluster it was composed for. *)
Theorem is_internal_generate fl dev cl pl dw c :
  layout_ok fl pl dw → ids_ok fl dev cl pl dw →
  let top := priv_level_start_bit fl + priv_level_width fl in
  top < 64 → cluster_start fl pl + cluster_id_width fl ≤ top → device_start fl pl + dw ≤ top →
  die_id_start_bit fl + die_id_width fl ≤ top →
  is_internal_device fl (generate_device_addr fl dev cl pl) c = (c =? cl).
Proof.
  intros HL HI top Htop Hc Hd Hdie. unfold is_internal_device.
  rewrite (extract_generate fl dev cl pl dw HL HI).
  rewrite (generate_device_addr_fields _ _ _ _ dw) by done.
  destruct (cluster_parts _ _ _ _ _ HL HI) as [Hlo Hup]. destruct HL, HI.
  rewrite u32_small by (split; lia). fold top.
  rewrite (proj2 (Z.eqb_neq top 0)) by lia. rewrite (proj2 (Z.leb_gt 64 top)) by lia.
  unfold fields_addr. rewrite !Z.land_lor_distr_l.
  rewrite !(land_high_mask (_ ≪ _) top), !Z.lor_0_r by
    (first [lia | eapply shiftl_bound; eauto; lia]).
  by rewrite Z.eqb_refl.
Qed.

Lemma is_internal_generate_witness :
  is_internal_device sample_dam (generate_device_addr sample_dam 9 0x2b 4) 0x2b = true ∧
  is_internal_device sample_dam (generate_device_addr sample_dam 9 0x2b 4) 0x0b = false.
Proof.
  split.
  - rewrite (is_internal_generate sample_dam 9 0x2b 4 6 0x2b);
      [reflexivity|exact (proj2 sample_layout_ok)|split; cbn; lia|cbn; lia..].
  - rewrite (is_internal_generate sample_dam 9 0x2b 4 6 0x0b);
      [reflexivity|exact (proj2 sample_layout_ok)|split; cbn; lia|cbn; lia..].
Defined.
