(* ===== verification/BridgeIsa.v ===== *)
(** * BridgeIsa: what the bridge knows about instructions and addresses
      (src/cosim/bridge/bridge.cpp, the predicates on disassembly, causes and
      physical addresses)

    The bridge recognises instructions by the text of their disassembly and
    reads whose result only the design can know by their physical address.
    [substr] past the end of a string throws: [None]. *)

From Stdlib Require Import Ascii.
From Stdlib Require String.
From S2P Require Import Prelude Cstd CosimUtil Memmap AddressMap.
Local Open Scope string_scope.
Local Open Scope list_scope.
Local Open Scope Z_scope.

(** [s.find(sub) != npos] *)
Definition contains (sub s : string) : bool := bool_decide (is_Some (String.index 0 sub s)).
Definition contains_any (subs : list string) (s : string) : bool := existsb (λ sub, contains sub s) subs.

(** ** Instructions *)

Definition is_vector (instr : string) : bool := String.prefix "v" instr.
Definition is_compressed (instr : string) : bool := String.prefix "c." instr.
Definition is_vset (instr : string) : bool := String.prefix "vset" instr.
Definition is_illegal (instr : string) : bool := String.prefix "illegal" instr.
Definition is_cracked_amocas (instr : string) : bool := contains "amocas" instr.
Definition is_indirect_reg (instr : string) : bool := contains "csrr" instr && contains "ireg" instr.

Definition is_ucode (fcvt_cracked scalar_fp64_er : bool) (instr : string) : bool :=
  contains_any ["mret"; "mnret"; "sret"; "dret"; "ecall"; "ebreak"] instr ||
  (fcvt_cracked && contains_any ["fcvt.d.l"; "fcvt.d.w"] instr) ||
  (scalar_fp64_er &&
   contains_any ["fnmadd.d"; "fmadd.d"; "fmsub.d"; "fnmsub.d"; "fadd.d"; "fsub.d"; "fmul.d"; "fdiv.d"; "fsqrt.d";
                 "fsgnj.d"; "fsgnjn.d"; "fsgnjx.d"; "fmin.d"; "fmax.d"; "fcvt.d.s"; "fli.d"; "fminm.d"; "fmaxm.d";
                 "fround.d"; "froundnx.d"] instr).

(** [isalnum], and no character, at a position. *)
Definition alnum_at (s : string) (i : nat) : bool :=
  match String.get i s with Some c => bool_decide (is_Some (digit_val c)) | None => false end.
(** The first occurrence of [t] is a whole word. *)
Definition has_word (t instr : string) : bool :=
  match String.index 0 t instr with
  | Some pos => ((pos =? 0)%nat || negb (alnum_at instr (pos - 1))) && negb (alnum_at instr (pos + String.length t))
  | None => false
  end.

Definition hex_digit (c : ascii) : option Z :=
  match digit_val c with Some d => if d <? 16 then Some d else None | None => None end.
(** Up to [n] hexadecimal digits from position [i]. *)
Fixpoint hex_from (n i : nat) (s : string) (val : Z) : Z :=
  match n with
  | O => val
  | S n =>
      match String.get i s with
      | Some c => match hex_digit c with Some d => hex_from n (S i) s (val * 16 + d) | None => val end
      | None => val
      end
  end.
(** A custom CSR cNNN, 0x803 to 0x810, behind position [i]. *)
Definition names_custom (s : string) (i : nat) : bool :=
  match String.get i s with
  | Some c => Ascii.eqb c "c" && (let val := hex_from 3 (S i) s 0 in (0x803 <=? val) && (val <=? 0x810))
  | None => false
  end.
Definition is_cracked_csr (instr : string) : bool :=
  existsb (λ i : nat, has_word ("mhpmevent" +:+ dec (Z.of_nat i)) instr) (seq 3 8) ||
  (contains "csr" instr && existsb (names_custom instr) (seq 0 (String.length instr - 4))).

Definition lmul_names (enc : Z) : string :=
  if enc =? 0 then "1" else if enc =? 1 then "2" else if enc =? 2 then "4" else if enc =? 3 then "8"
  else if enc =? 5 then "f8" else if enc =? 6 then "f4" else if enc =? 7 then "f2" else "rsvd".
Definition vtype_str (vtype_val : Z) : string :=
  if negb (vtype_val ≫ 63 =? 0) then "vill"
  else "e" +:+ dec (8 ≪ ((vtype_val &&& 0x38) ≫ 3)) +:+ "_m" +:+ lmul_names (vtype_val &&& 0x7).

(** Elements of a register group ([vlmax]); [None]: the encoding sets no
    [sew], which the source then reads uninitialised. *)
Definition vlmax_of (vtype_val : Z) : option Z :=
  let sew_enc := (vtype_val &&& 0x38) ≫ 3 in
  let vlmul_enc := vtype_val &&& 0x7 in
  if 4 <=? sew_enc then (if vlmul_enc =? 4 then Some 0 else None)
  else
    let sew := 8 ≪ sew_enc in
    Some (if vlmul_enc =? 0 then 256 / sew else if vlmul_enc =? 1 then 512 / sew else if vlmul_enc =? 2 then 1024 / sew
          else if vlmul_enc =? 3 then 2048 / sew else if vlmul_enc =? 5 then 256 / (8 * sew)
          else if vlmul_enc =? 6 then 256 / (4 * sew) else if vlmul_enc =? 7 then 256 / (2 * sew) else 0).

Definition hpm_counter_read (instr : string) : bool :=
  contains_any ["hpmcounter"; "time"; "stimecmp"; "vstimecmp"; "scountovf"; "cycle"] instr.
Definition is_csr_allowlist_name (csr_name : string) : bool := contains "c_misa" csr_name.
(** [instr.substr(pos)] *)
Definition substr_from (pos : nat) (s : string) : option string :=
  if (pos <=? String.length s)%nat then Some (String.substring pos (String.length s - pos) s) else None.
Definition unsupported_csr_access (instr : string) : option bool :=
  if contains "fe_dbg_mux_sel" instr then Some true
  else if contains "c_" instr then s ← substr_from 4 instr; Some (negb (is_csr_allowlist_name s))
  else Some false.

(** ** Causes *)

Definition is_custom_excp (cause : Z) : bool := (25 <=? cause) && (cause <=? 55).
Definition INSN_ACCESS_FAULT : Z := 1.
Definition LD_ACCESS_FAULT : Z := 5.
Definition ST_AMO_ACCESS_FAULT : Z := 7.
Definition INSN_PAGE_FAULT : Z := 12.
Definition HARDWARE_ERROR : Z := 19.

(** ** Addresses *)

Section addresses.
Context {J : Type}.
Variable mmap : list (string * memmap_entry J).
Variable dam : dam_flags.
Variables (debug_mem_base_offset debug_mem_size sep_base sep_end : Z).

Definition clint_read (pa : Z) : bool := in_range_prefix "aclint" pa mmap || in_range_prefix "clint" pa mmap.
Definition tbox_read (pa : Z) : bool := in_range_any ["trickbox"] pa mmap.
Definition boot_read (pa : Z) : bool := in_range_any ["boot"] pa mmap.
Definition htif_read (pa : Z) : bool := in_range_any ["htif"] pa mmap.
Definition uart_access (pa : Z) : bool := in_range_any ["uart0"] pa mmap.

Definition dm_addr (offset : Z) : Z := u64 (generate_dm_device_addr dam 0 + offset).
Definition debug_mem_access (debug_mode : bool) (pa : Z) : bool :=
  debug_mode && (dm_addr debug_mem_base_offset <=? pa) &&
  (pa <? u64 (dm_addr debug_mem_base_offset + debug_mem_size)).
Definition mmr_lo_addr : Z := generate_cr_device_addr dam 0 0.
Definition mmr_hi_addr : Z := u64 (generate_axisw_device_addr dam 0 + 0xffff).
Definition unsupported_mmr_access (pa : Z) : bool :=
  ((mmr_lo_addr <=? pa) && (pa <? mmr_hi_addr)) || ((sep_base <=? pa) && (pa <? sep_end)).
(** A line is 64 bytes. *)
Definition cbo_inv_access (curr_cbo_inv_addr pa : Z) : bool := pa ≫ 6 =? curr_cbo_inv_addr ≫ 6.
Definition sc_slice_base : Z := u64 (generate_sc_device_addr dam 0 + 8).
Definition sc_slice_status (pa : Z) : bool := pa &&& 0xffffffffffff0fff =? sc_slice_base.

Definition resynch_on_pa (debug_mode : bool) (curr_cbo_inv_addr pa : Z) : bool :=
  clint_read pa || htif_read pa || debug_mem_access debug_mode pa || boot_read pa || tbox_read pa ||
  cbo_inv_access curr_cbo_inv_addr pa || uart_access pa || sc_slice_status pa || unsupported_mmr_access pa.
End addresses.

(** Machine and virtual privilege modes. *)
Definition HS : Z := 1.
Definition M_mode : Z := 3.
Definition DE : Z := 6.
Definition DP : Z := 7.
Definition VU : Z := 8.
