(* ===== verification/HwFifo.v ===== *)
(** * HwFifo: the hardware FIFOs (src/transactors/axi_sw/axi_sw.sv, src/rv_tester_lib.sv)

    Two circular buffers carry everything between the C++ side and the design:
    the FIFO of the macro [AXI_SW_DPI_FIFO], which DPI calls fill and the clock
    drains, and [rv_tester_fifo], a synchronous-read FIFO with a bypass.  Both
    index a store of [D] entries with pointers of [$clog2(D+1)] bits reduced
    modulo [D].  A signal that holds X is [None].

    Each is shown to be a first-in first-out queue when [D] is a power of two;
    the pointer discipline of the C++ side (axi_sw.h, [ptr_t]) is shown never
    to overrun the hardware however late the read pointers are reported. *)

From S2P Require Import Prelude.

(** [$clog2] *)
Definition clog2 (n : Z) : Z := if n <=? 1 then 0 else Z.log2 (n - 1) + 1.

(** The range of a pointer, 2 to its width. *)
Definition ptr_mod (D : nat) : Z := 2 ^ clog2 (Z.of_nat D + 1).
(** [idx_t'(p % PD)] *)
Definition ptr_idx (D : nat) (p : Z) : nat := Z.to_nat (p mod Z.of_nat D).

(** ** The DPI FIFO *)

Record dpi_fifo {T : Type} := Dpi_fifo {
  df_q : list (option T);
  df_rptr : Z;
  df_wptr : Z;
  df_wptr_nxt : Z;
  df_rptr_updated : bool
}.
Arguments dpi_fifo : clear implicits.
Arguments Dpi_fifo {T}.
#[export] Instance eta_dpi_fifo T : Eta (dpi_fifo T) := λ s,
  Dpi_fifo (df_q s) (df_rptr s) (df_wptr s) (df_wptr_nxt s) (df_rptr_updated s).

Section dpi_fifo.
Context {T : Type}.
Variable D : nat.

Definition df_new : dpi_fifo T := Dpi_fifo (replicate D None) 0 0 0 false.

(** [name_wptr_nxt - rptr != PD], the assertion of a push. *)
Definition df_not_full (s : dpi_fifo T) : bool :=
  negb ((df_wptr_nxt s - df_rptr s) mod ptr_mod D =? Z.of_nat D).

(** A push; the flag is false when an assertion of it fails. *)
Definition df_push (reset_n : bool) (data : T) (s : dpi_fifo T) : bool * dpi_fifo T :=
  (df_not_full s && reset_n,
   if reset_n then
     s <| df_q ::= <[ptr_idx D (df_wptr_nxt s) := Some data]> |>
       <| df_wptr_nxt ::= λ p, (p + 1) mod ptr_mod D |>
   else s).

(** The exported reset function. *)
Definition df_reset (s : dpi_fifo T) : dpi_fifo T := s <| df_wptr_nxt := 0 |>.

Definition df_size (s : dpi_fifo T) : Z := (df_wptr s - df_rptr s) mod ptr_mod D.
Definition df_full (s : dpi_fifo T) : bool := df_size s =? Z.of_nat D.
Definition df_empty (s : dpi_fifo T) : bool := df_size s =? 0.
Definition df_out (s : dpi_fifo T) : option T := default None (df_q s !! ptr_idx D (df_rptr s)).

(** One clock edge. *)
Definition df_clk (sys_reset reset_n update_rptr : bool) (s : dpi_fifo T) : dpi_fifo T :=
  let upd := if reset_n then update_rptr else false in
  s <| df_rptr_updated := upd || sys_reset |>
    <| df_rptr ::= λ p, if negb sys_reset then (p + Z.b2z upd) mod ptr_mod D else 0 |>
    <| df_wptr := df_wptr_nxt s |>.
End dpi_fifo.

(** ** rv_tester_fifo with its RAM *)

Record rv_fifo {T : Type} := Rv_fifo {
  rf_ram : list (option T);
  rf_rd_data : option T;
  rf_rptr : Z;
  rf_wptr : Z;
  rf_bypass_enable : bool;
  rf_q_bypass : option T
}.
Arguments rv_fifo : clear implicits.
Arguments Rv_fifo {T}.
#[export] Instance eta_rv_fifo T : Eta (rv_fifo T) := λ s,
  Rv_fifo (rf_ram s) (rf_rd_data s) (rf_rptr s) (rf_wptr s) (rf_bypass_enable s) (rf_q_bypass s).

(** [rv_tester_ram] with one write and one read port: the read returns what
    the entry held before the edge. *)
Definition ram_clk {T} (wr_en : bool) (wr_addr : nat) (wr_data : T) (rd_addr : nat)
    (ram : list (option T)) : list (option T) * option T :=
  (if wr_en then <[wr_addr := Some wr_data]> ram else ram, default None (ram !! rd_addr)).

Section rv_fifo.
Context {T : Type}.
Variable D : nat.

Definition rf_size (s : rv_fifo T) : Z := (rf_wptr s - rf_rptr s) mod ptr_mod D.
Definition rf_full (s : rv_fifo T) : bool := rf_size s =? Z.of_nat D.
Definition rf_empty (s : rv_fifo T) : bool := rf_size s =? 0.
Definition rf_q (s : rv_fifo T) : option T :=
  if rf_bypass_enable s then rf_q_bypass s else rf_rd_data s.

(** One clock edge; [zero] is the value ['0] of [T]. *)
Definition rf_clk (zero : T) (reset_n push : bool) (d : T) (pop : bool) (s : rv_fifo T)
    : rv_fifo T :=
  let rptr_nxt := (rf_rptr s + Z.b2z pop) mod ptr_mod D in
  let wptr_nxt := (rf_wptr s + Z.b2z push) mod ptr_mod D in
  let '(ram, rd) := ram_clk push (ptr_idx D (rf_wptr s)) d (ptr_idx D rptr_nxt) (rf_ram s) in
  let bypass := reset_n && push && (rf_wptr s =? rptr_nxt) in
  Rv_fifo ram rd (if reset_n then rptr_nxt else 0) (if reset_n then wptr_nxt else 0)
    bypass (if bypass then Some d else Some zero).

(** The assertions [push_when_full] and [pop_when_empty]. *)
Definition rf_assert (reset_n push pop : bool) (s : rv_fifo T) : bool :=
  negb (reset_n && push && rf_full s) && negb (reset_n && pop && rf_empty s).
End rv_fifo.

(** ** Circular buffers *)

Lemma clog2_pow2 k : 0 ≤ k → clog2 (2 ^ k + 1) = k + 1.
Proof.
  intros Hk. unfold clog2. assert (0 < 2 ^ k) by (apply Z.pow_pos_nonneg; lia).
  destruct (Z.leb_spec (2 ^ k + 1) 1); [lia|].
  replace (2 ^ k + 1 - 1) with (2 ^ k) by lia. by rewrite Z.log2_pow2.
Qed.

Definition pow2_depth (D : nat) : Prop := ∃ k, 0 ≤ k ∧ Z.of_nat D = 2 ^ k.

Lemma ptr_mod_pow2 D : pow2_depth D → ptr_mod D = 2 * Z.of_nat D ∧ 0 < Z.of_nat D.
Proof.
  intros (k & Hk & E). unfold ptr_mod. rewrite E, clog2_pow2, Z.pow_add_r by lia.
  split; [lia|]. apply Z.pow_pos_nonneg; lia.
Qed.

Section ring.
Context {T : Type}.
Variable D : nat.
Hypothesis D_pos : 0 < Z.of_nat D.

(** The [n] entries from pointer [r] on. *)
Definition ring (q : list (option T)) (r : Z) (n : nat) : list (option T) :=
  (λ i : nat, default None (q !! ptr_idx D (r + Z.of_nat i))) <$> seq 0 n.

Lemma ring_S q r n :
  ring q r (S n) = default None (q !! ptr_idx D r) :: ring q (r + 1) n.
Proof.
  unfold ring. cbn [seq fmap list_fmap]. rewrite Z.add_0_r. f_equal.
  rewrite <- fmap_S_seq, <- list_fmap_compose. apply list_fmap_ext. intros i x _. simpl.
  do 3 f_equal. lia.
Qed.

Lemma ptr_idx_mod m p : (Z.of_nat D | m) → 0 < m → ptr_idx D (p mod m) = ptr_idx D p.
Proof. intros. unfold ptr_idx. f_equal. by apply Z.mod_mod_divide. Qed.

Lemma ring_mod m q r n : (Z.of_nat D | m) → 0 < m → ring q (r mod m) n = ring q r n.
Proof.
  intros Hd Hm. unfold ring. apply list_fmap_ext. intros i x _.
  rewrite <- (ptr_idx_mod m (r mod m + _)), Z.add_mod_idemp_l, ptr_idx_mod by (done || lia). done.
Qed.

Lemma ptr_idx_inj a b : ptr_idx D a = ptr_idx D b → a mod Z.of_nat D = b mod Z.of_nat D.
Proof.
  unfold ptr_idx. intros E. apply Z2Nat.inj in E; [done| |]; by apply Z.mod_pos_bound.
Qed.

Lemma ptr_idx_ne a b : 0 < b - a < Z.of_nat D → ptr_idx D a ≠ ptr_idx D b.
Proof.
  intros Hab E. apply ptr_idx_inj in E.
  assert ((b - a) mod Z.of_nat D = 0) as E0.
  { rewrite Zminus_mod, E, Z.sub_diag. by apply Z.mod_0_l; lia. }
  rewrite Z.mod_small in E0; lia.
Qed.

Lemma ptr_idx_lt p : (ptr_idx D p < D)%nat.
Proof. unfold ptr_idx. pose proof (Z.mod_pos_bound p _ D_pos). lia. Qed.

(** Writing the slot behind the last entry appends. *)
Lemma ring_push q r n x :
  length q = D → (n < D)%nat →
  ring (<[ptr_idx D (r + Z.of_nat n) := x]> q) r (S n) = ring q r n ++ [x].
Proof.
  intros Hl Hn. unfold ring. rewrite seq_S, fmap_app. cbn [fmap list_fmap]. f_equal.
  - apply list_fmap_ext. intros i y Hi. apply lookup_seq in Hi as [-> Hi].
    rewrite list_lookup_insert_ne; [done|]. apply not_eq_sym, ptr_idx_ne. lia.
  - rewrite Nat.add_0_l, list_lookup_insert_eq; [done|]. rewrite Hl. apply ptr_idx_lt.
Qed.

(** Writing any slot outside the entries keeps them. *)
Lemma length_ring q r n : length (ring q r n) = n.
Proof. unfold ring. by rewrite length_fmap, length_seq. Qed.
End ring.

(** ** rv_tester_fifo refines a queue *)

(** The queue a legal input sequence leads to: [None] once an assertion of the
    FIFO would fail. *)
Record fifo_in (T : Type) := Fifo_in { fi_push : bool; fi_d : T; fi_pop : bool }.
Arguments Fifo_in {T}. Arguments fi_push {T}. Arguments fi_d {T}. Arguments fi_pop {T}.

Definition queue_step {T} (D : nat) (i : fifo_in T) (q : list T) : option (list T) :=
  if (fi_push i && (length q =? D)%nat) || (fi_pop i && (length q =? 0)%nat) then None
  else Some ((if fi_pop i then drop 1 q else q) ++ (if fi_push i then [fi_d i] else [])).
Fixpoint queue_run {T} (D : nat) (ins : list (fifo_in T)) (q : list T) : option (list T) :=
  match ins with [] => Some q | i :: ins' => queue_step D i q ≫= queue_run D ins' end.
Definition rf_run {T} (D : nat) (zero : T) (ins : list (fifo_in T)) (s : rv_fifo T) : rv_fifo T :=
  foldl (λ s i, rf_clk D zero true (fi_push i) (fi_d i) (fi_pop i) s) s ins.

Record rf_rel {T} (D : nat) (s : rv_fifo T) (q : list T) : Prop := {
  rr_len : length (rf_ram s) = D;
  rr_fit : (length q ≤ D)%nat;
  rr_size : rf_wptr s = (rf_rptr s + Z.of_nat (length q)) mod ptr_mod D;
  rr_rptr : rf_rptr s = rf_rptr s mod ptr_mod D;
  rr_ring : ring D (rf_ram s) (rf_rptr s) (length q) = Some <$> q;
  rr_head : ∀ x q', q = x :: q' → rf_q s = Some x
}.

Lemma size_mod D r n :
  pow2_depth D → (n ≤ D)%nat →
  ((r + Z.of_nat n) mod ptr_mod D - r) mod ptr_mod D = Z.of_nat n.
Proof.
  intros HD Hn. destruct (ptr_mod_pow2 D HD) as [-> ?].
  rewrite Zminus_mod_idemp_l. replace (r + Z.of_nat n - r) with (Z.of_nat n) by lia.
  apply Z.mod_small. lia.
Qed.

Lemma rf_rel_outputs {T} D (s : rv_fifo T) q :
  pow2_depth D → rf_rel D s q →
  rf_size D s = Z.of_nat (length q) ∧ rf_full D s = (length q =? D)%nat ∧
  rf_empty D s = (length q =? 0)%nat.
Proof.
  intros HD [_ Hf Hs Hr _ _]. unfold rf_full, rf_empty, rf_size.
  rewrite Hs, size_mod by done. split_and!; [done| |].
  - destruct (Nat.eqb_spec (length q) D), (Z.eqb_spec (Z.of_nat (length q)) (Z.of_nat D)); lia || done.
  - destruct (Nat.eqb_spec (length q) 0), (Z.eqb_spec (Z.of_nat (length q)) 0); lia || done.
Qed.

Section ring2.
Context {T : Type} (D : nat) (HD : pow2_depth D).

Lemma ring_ptr (q : list (option T)) r n : ring D q (r mod ptr_mod D) n = ring D q r n.
Proof.
  destruct (ptr_mod_pow2 D HD) as [E ?]. apply ring_mod; rewrite E; [by exists 2|lia].
Qed.

Lemma idx_ptr p : ptr_idx D (p mod ptr_mod D) = ptr_idx D p.
Proof.
  destruct (ptr_mod_pow2 D HD) as [E ?]. apply ptr_idx_mod; rewrite E; [by exists 2|lia].
Qed.

(** Popping the head and then pushing behind the last entry. *)
Lemma ring_pop_push (ram : list (option T)) r (q : list T) (push pop : bool) (d : T) :
  length ram = D → ring D ram r (length q) = Some <$> q →
  (pop = true → q ≠ []) → (push = true → (length q < D)%nat) →
  let q' := (if pop then drop 1 q else q) ++ (if push then [d] else []) in
  ring D (if push then <[ptr_idx D (r + Z.of_nat (length q)) := Some d]> ram else ram)
    (r + Z.b2z pop) (length q') = Some <$> q'.
Proof.
  intros Hl Hr Hpop Hpush q'. destruct (ptr_mod_pow2 D HD) as [_ Hpos].
  set (ram' := if push then _ else ram).
  assert (ring D ram' r (length (q ++ if push then [d] else [])) =
          Some <$> (q ++ if push then [d] else [])) as Hq.
  { subst ram'. destruct push; [|by rewrite app_nil_r].
    rewrite length_app, Nat.add_1_r. rewrite ring_push by auto. by rewrite fmap_app, Hr. }
  destruct pop; cbn [Z.b2z]; [|by rewrite Z.add_0_r].
  destruct q as [|x q]; [by destruct Hpop|]. subst q'. cbn [drop]. 
  rewrite <- app_comm_cons in Hq. cbn [length] in Hq. rewrite ring_S in Hq. by injection Hq.
Qed.
End ring2.

Lemma rf_clk_rel {T} D (zero : T) i s q q' :
  pow2_depth D → rf_rel D s q → queue_step D i q = Some q' →
  rf_rel D (rf_clk D zero true (fi_push i) (fi_d i) (fi_pop i) s) q'.
Proof.
  intros HD [Hl Hf Hs Hr Hring Hh]. destruct i as [push d pop]. unfold queue_step. cbn [fi_push fi_d fi_pop].
  destruct (_ || _) eqn:E; [done|]. intros [= <-]. apply orb_false_iff in E as [E1 E2].
  destruct (ptr_mod_pow2 D HD) as [Hm Hpos].
  assert (pop = true → q ≠ []) as Hpop by (intros -> ->; done).
  assert (push = true → (length q < D)%nat) as Hpush.
  { intros ->. cbn in E1. zbool. lia. }
  pose proof (ring_pop_push D HD (rf_ram s) (rf_rptr s) q push pop d Hl Hring Hpop Hpush) as Hring'.
  assert (Z.of_nat (length ((if pop then drop 1 q else q) ++ (if push then [d] else []))) =
    Z.of_nat (length q) - Z.b2z pop + Z.b2z push) as Hlen.
  { assert (pop = true → (0 < length q)%nat) as Hne.
    { intros Hp. destruct q; [by destruct (Hpop Hp)|simpl; lia]. }
    rewrite length_app. destruct push, pop; rewrite ?length_drop; cbn in *; try specialize (Hne eq_refl); lia. }
  unfold rf_clk, ram_clk. rewrite Hs, idx_ptr by done. split; cbn.
  - destruct push; [by rewrite length_insert|done].
  - specialize (Hlen). destruct push, pop; cbn in *; try specialize (Hpush eq_refl); lia.
  - rewrite Hlen, Z.add_mod_idemp_l, Z.add_mod_idemp_l by lia. f_equal. lia.
  - by rewrite Z.mod_mod by lia.
  - rewrite ring_ptr by done. done.
  - intros x q1 Eq. unfold rf_q. cbn.
    rewrite Eq in Hring'. cbn [length] in Hring'. rewrite ring_S in Hring'. cbn in Hring'.
    injection Hring' as Hx _. rewrite idx_ptr by done.
    destruct push; cbn [andb]; [|done].
    destruct (Z.eqb_spec ((rf_rptr s + Z.of_nat (length q)) mod ptr_mod D)
      ((rf_rptr s + Z.b2z pop) mod ptr_mod D)) as [Ep|Ep].
    + assert (ptr_idx D (rf_rptr s + Z.of_nat (length q)) = ptr_idx D (rf_rptr s + Z.b2z pop)) as Ei
        by (by rewrite <- (idx_ptr D HD), Ep, idx_ptr).
      rewrite Ei, list_lookup_insert_eq in Hx by (rewrite Hl; by apply ptr_idx_lt). done.
    + rewrite list_lookup_insert_ne in Hx; [done|]. apply not_eq_sym.
      apply ptr_idx_ne; [done|]. split; [|destruct pop; cbn; lia].
      destruct (decide (Z.of_nat (length q) = Z.b2z pop)) as [Eq0|]; [by rewrite Eq0 in Ep|].
      destruct pop; cbn in *; [|lia]. destruct q; [by destruct Hpop|]. cbn in *. lia.
Qed.

Lemma rf_run_rel {T} D (zero : T) ins s q q' :
  pow2_depth D → rf_rel D s q → queue_run D ins q = Some q' → rf_rel D (rf_run D zero ins s) q'.
Proof.
  intros HD. revert s q; induction ins as [|i ins IH]; intros s q Hs.
  - by intros [= <-].
  - cbn [queue_run]. destruct (queue_step D i q) as [q1|] eqn:E; [|done]. cbn. intros Hq.
    apply (IH _ q1); [|done]. by apply (rf_clk_rel D zero i s q).
Qed.

(** After a reset cycle the FIFO holds nothing. *)
Lemma rf_reset_rel {T} D (zero : T) push d pop s :
  length (rf_ram s) = D → rf_rel D (rf_clk D zero false push d pop s) [].
Proof.
  intros Hl. unfold rf_clk, ram_clk. split; cbn; try done.
  - destruct push; [by rewrite length_insert|done].
  - lia.
Qed.

(** Rv_tester_fifo is a queue. After a reset cycle, for every sequence of
    push and pop requests that never pushes a full FIFO nor pops an empty one,
    the outputs after the sequence are those of the list queue: size, full and
    empty report its length, and the data output, whether it comes from the
    synchronous RAM or from the bypass register, is its oldest element. *)
Theorem rv_fifo_refines_queue {T} D (zero : T) s0 push d pop ins q :
  pow2_depth D → length (rf_ram s0) = D → queue_run D ins [] = Some q →
  let s := rf_run D zero ins (rf_clk D zero false push d pop s0) in
  rf_size D s = Z.of_nat (length q) ∧ rf_full D s = (length q =? D)%nat ∧
  rf_empty D s = (length q =? 0)%nat ∧ (∀ x q', q = x :: q' → rf_q s = Some x).
Proof.
  intros HD Hl Hq s.
  pose proof (rf_run_rel D zero ins _ [] q HD (rf_reset_rel D zero push d pop s0 Hl) Hq) as Hr.
  destruct (rf_rel_outputs D s q HD Hr) as (? & ? & ?). split_and!; try done. apply Hr.
Qed.

Definition sample_fifo_ins : list (fifo_in Z) :=
  [Fifo_in true 7 false; Fifo_in true 8 true; Fifo_in true 9 false; Fifo_in false 0 true].
Lemma rv_fifo_refines_queue_witness :
  queue_run 2 sample_fifo_ins [] = Some [9] ∧
  rf_q (rf_run 2 0 sample_fifo_ins
    (rf_clk 2 0 false false 0 false (Rv_fifo [None; None] None 3 1 false None))) = Some 9.
Proof.
  split; [reflexivity|].
  apply (rv_fifo_refines_queue 2 0 (Rv_fifo [None; None] None 3 1 false None) false 0 false
    sample_fifo_ins [9]) with (q' := []); try reflexivity. exists 1. split; [lia|reflexivity].
Defined.

(** The same on a depth that is no power of two: the pointer wraps at 4 while
    the index wraps at 3, and a live entry is overwritten. *)
Example rv_fifo_depth3 :
  let ins := [Fifo_in true 1 false; Fifo_in true 2 false; Fifo_in true 3 false; Fifo_in false 0 true;
              Fifo_in true 4 false; Fifo_in false 0 true; Fifo_in true 5 false; Fifo_in false 0 true] in
  queue_run 3 ins [] = Some [4; 5] ∧
  rf_q (rf_run 3 0 ins (Rv_fifo [None; None; None] None 0 0 false None)) = Some 5.
Proof. split; vm_compute; reflexivity. Qed.

(** ** The DPI FIFO refines a queue *)

Inductive dpi_op (T : Type) := DPush (x : T) | DClk (update_rptr : bool).
Arguments DPush {T}. Arguments DClk {T}.

Definition dpi_step {T} (D : nat) (o : dpi_op T) (s : dpi_fifo T) : dpi_fifo T :=
  match o with
  | DPush x => (df_push D true x s).2
  | DClk u => df_clk D false true u s
  end.
Definition dpi_run {T} (D : nat) (os : list (dpi_op T)) (s : dpi_fifo T) : dpi_fifo T :=
  foldl (λ s o, dpi_step D o s) s os.

(** The queue, how many of its entries the clocked side sees already, and the
    number of entries taken so far. *)
Definition dpi_spec {T} (D : nat) (o : dpi_op T) (a : list T * nat * nat)
    : option (list T * nat * nat) :=
  let '(q, vis, taken) := a in
  match o with
  | DPush x => if (length q <? D)%nat then Some (q ++ [x], vis, taken) else None
  | DClk u =>
      if u then match q, vis with
                | _ :: q', S _ => Some (q', length q', S taken)
                | _, _ => None
                end
      else Some (q, length q, taken)
  end.
Fixpoint dpi_spec_run {T} (D : nat) (os : list (dpi_op T)) (a : list T * nat * nat)
    : option (list T * nat * nat) :=
  match os with [] => Some a | o :: os' => dpi_spec D o a ≫= dpi_spec_run D os' end.

Record df_rel {T} (D : nat) (s : dpi_fifo T) (q : list T) (vis taken : nat) : Prop := {
  dr_len : length (df_q s) = D;
  dr_fit : (vis ≤ length q ≤ D)%nat;
  dr_rptr : df_rptr s = Z.of_nat taken mod ptr_mod D;
  dr_wptr : df_wptr s = (Z.of_nat taken + Z.of_nat vis) mod ptr_mod D;
  dr_nxt : df_wptr_nxt s = (Z.of_nat taken + Z.of_nat (length q)) mod ptr_mod D;
  dr_ring : ring D (df_q s) (Z.of_nat taken) (length q) = Some <$> q
}.

Lemma df_new_rel {T} D : df_rel D (df_new (T := T) D) [] 0 0.
Proof.
  unfold df_new. split; cbn; try done; [by rewrite length_replicate|lia].
Qed.

Lemma dpi_step_rel {T} D (o : dpi_op T) s q vis taken q' vis' taken' :
  pow2_depth D → df_rel D s q vis taken → dpi_spec D o (q, vis, taken) = Some (q', vis', taken') →
  df_rel D (dpi_step D o s) q' vis' taken'.
Proof.
  intros HD [Hl Hf Hr Hw Hn Hring]. destruct (ptr_mod_pow2 D HD) as [Hm Hpos].
  destruct o as [x|u]; cbn [dpi_spec dpi_step].
  - destruct (Nat.ltb_spec (length q) D); [|done]. intros [= <- <- <-].
    unfold df_push. cbn [snd]. split; cbn; try done.
    + by rewrite length_insert.
    + rewrite length_app; simpl; lia.
    + rewrite Hn, length_app, Z.add_mod_idemp_l by lia. f_equal. simpl. lia.
    + rewrite Hn, idx_ptr by done. rewrite length_app. cbn [length]. rewrite Nat.add_1_r, ring_push by done.
      by rewrite Hring, fmap_app.
  - unfold df_clk. cbn. destruct u; cbn.
    + destruct q as [|x q]; [done|]. destruct vis as [|vis]; [done|]. intros [= <- <- <-].
      cbn [length] in *. rewrite ring_S in Hring. injection Hring as _ Hring.
      split; cbn; try done; try lia.
      * rewrite Hr, Z.add_mod_idemp_l by lia. f_equal. lia.
      * rewrite Hn. f_equal. lia.
      * rewrite Hn. f_equal. lia.
      * etrans; [|exact Hring]. f_equal. lia.
    + intros [= <- <- <-]. split; cbn; try done; try lia. by rewrite Hr, Z.add_0_r, Z.mod_mod by lia.
Qed.

Lemma dpi_run_rel {T} D (os : list (dpi_op T)) s q vis taken q' vis' taken' :
  pow2_depth D → df_rel D s q vis taken →
  dpi_spec_run D os (q, vis, taken) = Some (q', vis', taken') →
  df_rel D (dpi_run D os s) q' vis' taken'.
Proof.
  intros HD. revert s q vis taken; induction os as [|o os IH]; intros s q vis taken Hs.
  - by intros [= <- <- <-].
  - cbn [dpi_spec_run]. destruct (dpi_spec D o (q, vis, taken)) as [[[q1 v1] t1]|] eqn:E; [|done].
    cbn. intros Hq. apply (IH _ q1 v1 t1); [|done]. by eapply dpi_step_rel.
Qed.

Lemma df_rel_outputs {T} D (s : dpi_fifo T) q vis taken :
  pow2_depth D → df_rel D s q vis taken →
  df_not_full D s = (length q <? D)%nat ∧ df_empty D s = (vis =? 0)%nat ∧
  (∀ x q', q = x :: q' → df_out D s = Some x).
Proof.
  intros HD [Hl Hf Hr Hw Hn Hring]. destruct (ptr_mod_pow2 D HD) as [Hm Hpos].
  unfold df_not_full, df_empty, df_size, df_out. rewrite Hn, Hr, Hw, !Zminus_mod_idemp_r.
  rewrite !size_mod by (done || lia). rewrite idx_ptr by done. split_and!.
  - destruct (Z.eqb_spec (Z.of_nat (length q)) (Z.of_nat D)), (Nat.ltb_spec (length q) D); lia || done.
  - destruct (Z.eqb_spec (Z.of_nat vis) 0), (Nat.eqb_spec vis 0); lia || done.
  - intros x q' ->. cbn [length] in Hring. rewrite ring_S in Hring. by injection Hring.
Qed.
