(* ===== verification/DelayResp.v ===== *)
(** * DelayResp: the response delay of the AXI ports (src/rv_tester_delay_resp.sv)

    [rv_tester_delay_resp] sits between a core and the crossbar.  A request is
    passed on with its id replaced by the index of a FIFO entry that remembers
    the original id and the time; a response is stored in a RAM under that
    index and is given to the core in request order, under the original id,
    once the configured number of cycles has passed since the request.  A
    second RAM holds one valid bit per beat; its write ports are registered and
    its reads are synchronous, so three cycles pass between a beat and the
    cycle that may send it.

    [delay_fifo_clk] is the shared submodule (FIFO, valid RAM and data RAM),
    [delay_resp_comb] and [delay_resp_clk] the outer module with the R channel
    (bursts) and the B channel (single beats).  The specification is a log of
    the requests with the beats that came back for them ([tlog]); the theorems
    show that both channels do, cycle by cycle, what the log says. *)

From S2P Require Import Prelude HwFifo.

(** ** The submodule *)

(** The valid RAM has one write port per entry ([WRITE_ALL]); [dl_wr_en] and
    [dl_wr_data] are the registers that drive the ports, [dl_vrd] and [dl_drd]
    the registered outputs of the two RAMs.  A FIFO entry is the original id
    with the push time. *)
Record delay_fifo {E : Type} := Delay_fifo {
  dl_fifo : rv_fifo (Z * Z);
  dl_wr_en : list bool;
  dl_wr_data : list bool;
  dl_valid : list bool;
  dl_vrd : bool;
  dl_data : list (option E);
  dl_drd : option E
}.
Arguments delay_fifo : clear implicits.
Arguments Delay_fifo {E}.

Definition bit (l : list bool) (a : nat) : bool := default false (l !! a).

(** [for (int i = 0; i < n; i++) l[i + base] <= v] *)
Definition port_fill (base n : nat) (v : bool) (l : list bool) : list bool :=
  foldl (λ l i, <[(i + base)%nat := v]> l) l (seq 0 n).
(** [if (en) l[a] <= v] *)
Definition port_set (en : bool) (a : nat) (v : bool) (l : list bool) : list bool :=
  if en then <[a := v]> l else l.

(** The write side of [rv_tester_ram] under [WRITE_ALL]. *)
Definition ram_write_all (wr_en wr_data ram : list bool) : list bool :=
  imap (λ j v, if bit wr_en j then bit wr_data j else v) ram.

Section delay_fifo.
Context {E : Type}.
(** [MaxInFlight], [MaxBeatsPerBurst] and the width of the timer. *)
Variables (D MB : nat) (CW : Z).

Definition fifo_push_idx (s : delay_fifo E) : nat := ptr_idx D (rf_wptr (dl_fifo s)).
Definition fifo_pop_idx (s : delay_fifo E) : nat := ptr_idx D (rf_rptr (dl_fifo s)).
Definition fifo_next_pop_idx (s : delay_fifo E) : nat :=
  ptr_idx D ((rf_rptr (dl_fifo s) + 1) mod ptr_mod D).

(** [send_resp_internal] *)
Definition send_resp (delay timer : Z) (resp_ready : bool) (s : delay_fifo E) : bool :=
  negb (delay =? 0) && negb (rf_empty D (dl_fifo s)) &&
  match rf_q (dl_fifo s) with
  | Some (_, push_time) => delay <=? (timer - push_time) mod 2 ^ CW
  | None => false
  end && dl_vrd s && resp_ready.

Definition push_en (delay : Z) (req_valid req_ready : bool) (s : delay_fifo E) : bool :=
  negb (delay =? 0) && (req_valid && req_ready) && negb (rf_full D (dl_fifo s)).
Definition pop_en (delay : Z) (last_beat_sent : bool) : bool := negb (delay =? 0) && last_beat_sent.

(** [resp_id_o] and [req_id_o] *)
Definition resp_id (s : delay_fifo E) : Z := default 0 (fst <$> rf_q (dl_fifo s)).
Definition req_id (IW : Z) (s : delay_fifo E) : Z := Z.of_nat (fifo_push_idx s) mod 2 ^ IW.

(** The registers of the write ports of the valid RAM. *)
Definition valid_ports (rst_n push : bool) (resp_valid : bool) (resp_wr_addr : nat) (pop : bool)
    (s : delay_fifo E) : list bool * list bool :=
  if negb rst_n then (replicate (D * MB) true, replicate (D * MB) false)
  else
    let en := replicate (D * MB) false in
    let data := dl_wr_data s in
    let '(en, data) := if push then
        (port_fill (fifo_push_idx s * MB) MB true en, port_fill (fifo_push_idx s * MB) MB false data)
      else (en, data) in
    let '(en, data) :=
      (port_set resp_valid resp_wr_addr true en, port_set resp_valid resp_wr_addr true data) in
    if pop then
      (port_fill (fifo_pop_idx s * MB) MB true en, port_fill (fifo_pop_idx s * MB) MB false data)
    else (en, data).

(** One clock edge of [rv_tester_delay_resp_fifo]. *)
Definition delay_fifo_clk (rst_n : bool) (delay timer : Z) (req_valid req_ready : bool) (id : Z)
    (resp_valid : bool) (valid_rd_addr resp_wr_addr : nat) (last_beat_sent : bool)
    (data_wr_addr : nat) (data_wr_data : E) (data_wr_en : bool) (data_rd_addr : nat)
    (s : delay_fifo E) : delay_fifo E :=
  let push := push_en delay req_valid req_ready s in
  let pop := pop_en delay last_beat_sent in
  let '(wr_en, wr_data) := valid_ports rst_n push resp_valid resp_wr_addr pop s in
  let '(data, drd) := ram_clk data_wr_en data_wr_addr data_wr_data data_rd_addr (dl_data s) in
  Delay_fifo (rf_clk D (0, 0) rst_n push (id, timer) pop (dl_fifo s))
    wr_en wr_data
    (ram_write_all (dl_wr_en s) (dl_wr_data s) (dl_valid s)) (bit (dl_valid s) valid_rd_addr)
    data drd.
End delay_fifo.

(** ** The module *)

(** [r_chan_t] and [b_chan_t] *)
Record r_chan := R_chan { rc_id : Z; rc_data : Z; rc_resp : Z; rc_last : bool; rc_user : Z }.
Record b_chan := B_chan { bc_id : Z; bc_resp : Z; bc_user : Z }.

(** The inputs of a cycle: the core's side first, then [mst_resp_i]. *)
Record delay_in := Delay_in {
  di_delay : Z; di_delay_w : Z;
  di_ar_id : Z; di_ar_valid : bool; di_r_ready : bool;
  di_aw_id : Z; di_aw_valid : bool; di_b_ready : bool;
  di_ar_ready : bool; di_aw_ready : bool; di_w_ready : bool;
  di_r_valid : bool; di_r : r_chan; di_b_valid : bool; di_b : b_chan
}.

(** [slv_resp_o] with the two request ids. *)
Record delay_out := Delay_out {
  do_aw_ready : bool; do_ar_ready : bool; do_w_ready : bool;
  do_b_valid : bool; do_b : b_chan; do_r_valid : bool; do_r : r_chan;
  do_ar_id : Z; do_aw_id : Z
}.

Record delay_resp := Delay_resp {
  dr_r : delay_fifo r_chan;
  dr_b : delay_fifo b_chan;
  dr_timer : Z;
  dr_output_beat_idx : Z;
  dr_input_beat_counters : list Z
}.

Definition r_zero : r_chan := R_chan 0 0 0 false 0.
Definition b_zero : b_chan := B_chan 0 0 0.

Section delay_resp.
Variables (D MB : nat) (CW IW : Z).

(** [id[FIFO_IDX_WIDTH-1:0]] *)
Definition wr_index (id : Z) : nat := Z.to_nat (id mod 2 ^ clog2 (Z.of_nat D)).
(** An address of the R RAMs, cast to their width. *)
Definition r_ram_addr (idx : nat) (beat : Z) : nat :=
  Z.to_nat ((Z.of_nat idx * Z.of_nat MB + beat) mod 2 ^ clog2 (Z.of_nat (D * MB))).

Definition send_r_resp_out (i : delay_in) (s : delay_resp) : bool :=
  send_resp D CW (di_delay i) (dr_timer s) (di_r_ready i) (dr_r s).
Definition send_b_resp_out (i : delay_in) (s : delay_resp) : bool :=
  send_resp D CW (di_delay_w i) (dr_timer s) (di_b_ready i) (dr_b s).
(** [r_ram_rd_data.r.last], false while the RAM output is X *)
Definition r_rd_last (s : delay_resp) : bool := from_option rc_last false (dl_drd (dr_r s)).

Definition next_output_beat_idx (i : delay_in) (s : delay_resp) : Z :=
  if di_delay i =? 0 then dr_output_beat_idx s
  else if send_r_resp_out i s then
    if r_rd_last s then 0 else u8 (dr_output_beat_idx s + 1)
  else dr_output_beat_idx s.

(** The addresses of the R RAMs: 0 while the delay is 0. *)
Definition r_ram_rd_addr (i : delay_in) (s : delay_resp) : nat :=
  if di_delay i =? 0 then 0%nat
  else
    let send := send_r_resp_out i s && dl_vrd (dr_r s) in
    r_ram_addr
      (if send && r_rd_last s then fifo_next_pop_idx D (dr_r s) else fifo_pop_idx D (dr_r s))
      (if send then next_output_beat_idx i s else dr_output_beat_idx s).
Definition r_ram_wr_addr (i : delay_in) (s : delay_resp) : nat :=
  if di_delay i =? 0 then 0%nat
  else
    let wr_idx := wr_index (rc_id (di_r i)) in
    r_ram_addr wr_idx (default 0 (dr_input_beat_counters s !! wr_idx)).
Definition b_ram_rd_addr (i : delay_in) (s : delay_resp) : nat :=
  if di_delay_w i =? 0 then 0%nat
  else if send_b_resp_out i s && dl_vrd (dr_b s) then fifo_next_pop_idx D (dr_b s)
  else fifo_pop_idx D (dr_b s).
Definition b_ram_wr_addr (i : delay_in) : nat :=
  if di_delay_w i =? 0 then 0%nat else wr_index (bc_id (di_b i)).

(** The outputs of a cycle. *)
Definition delay_resp_comb (i : delay_in) (s : delay_resp) : delay_out :=
  let '(r_valid, r, ar_id) :=
    if di_delay i =? 0 then
      (di_r_valid i, R_chan (rc_id (di_r i) mod 2 ^ IW) (rc_data (di_r i)) (rc_resp (di_r i))
         (rc_last (di_r i)) (rc_user (di_r i)), di_ar_id i)
    else
      let rd := default r_zero (dl_drd (dr_r s)) in
      let '(v, r) := if send_r_resp_out i s then
          (dl_vrd (dr_r s), R_chan (resp_id (dr_r s)) (rc_data rd) (rc_resp rd) (rc_last rd) (rc_user rd))
        else (false, r_zero) in
      (v, r, req_id D IW (dr_r s)) in
  let '(b_valid, b, aw_id) :=
    if di_delay_w i =? 0 then
      (di_b_valid i, B_chan (bc_id (di_b i) mod 2 ^ IW) (bc_resp (di_b i)) (bc_user (di_b i)), di_aw_id i)
    else
      let rd := default b_zero (dl_drd (dr_b s)) in
      let '(v, b) := if send_b_resp_out i s then
          (dl_vrd (dr_b s), B_chan (resp_id (dr_b s)) (bc_resp rd) (bc_user rd))
        else (false, b_zero) in
      (v, b, req_id D IW (dr_b s)) in
  Delay_out (di_aw_ready i) (di_ar_ready i) (di_w_ready i) b_valid b r_valid r ar_id aw_id.

(** The beat counters of the incoming responses. *)
Definition beat_counters (i : delay_in) (s : delay_resp) : list Z :=
  let cnt := dr_input_beat_counters s in
  let cnt1 := if push_en D (di_delay i) (di_ar_valid i) (di_ar_ready i) (dr_r s)
    then <[fifo_push_idx D (dr_r s) := 0]> cnt else cnt in
  let wr_idx := wr_index (rc_id (di_r i)) in
  if di_r_valid i then <[wr_idx := u8 (default 0 (cnt !! wr_idx) + 1)]> cnt1 else cnt1.

(** One clock edge of [rv_tester_delay_resp]. *)
Definition delay_resp_clk (rst_n : bool) (i : delay_in) (s : delay_resp) : delay_resp :=
  let send_r := send_r_resp_out i s in
  let send_b := send_b_resp_out i s in
  Delay_resp
    (delay_fifo_clk D MB rst_n (di_delay i) (dr_timer s) (di_ar_valid i) (di_ar_ready i) (di_ar_id i)
       (di_r_valid i) (r_ram_rd_addr i s) (r_ram_wr_addr i s) (send_r && r_rd_last s)
       (r_ram_wr_addr i s) (if di_delay i =? 0 then r_zero else di_r i)
       (negb (di_delay i =? 0) && di_r_valid i) (r_ram_rd_addr i s) (dr_r s))
    (delay_fifo_clk D 1 rst_n (di_delay_w i) (dr_timer s) (di_aw_valid i) (di_aw_ready i) (di_aw_id i)
       (di_b_valid i) (b_ram_rd_addr i s) (b_ram_wr_addr i) send_b
       (b_ram_wr_addr i) (if di_delay_w i =? 0 then b_zero else di_b i)
       (negb (di_delay_w i =? 0) && di_b_valid i) (b_ram_rd_addr i s) (dr_b s))
    (if rst_n then (dr_timer s + 1) mod 2 ^ CW else 0)
    (if rst_n then next_output_beat_idx i s else 0)
    (if rst_n then beat_counters i s else replicate D 0).

(** The outputs of a sequence of cycles out of reset. *)
Fixpoint delay_trace (s : delay_resp) (ins : list delay_in) : list delay_out :=
  match ins with
  | [] => []
  | i :: ins' => delay_resp_comb i s :: delay_trace (delay_resp_clk true i s) ins'
  end.
End delay_resp.

(** ** The specification: a log of requests *)

(** A request with the cycle it was made in and the beats that came back, each
    with the cycle it came in. *)
Record treq {E : Type} := Treq { q_id : Z; q_time : Z; q_beats : list (E * Z) }.
Arguments treq : clear implicits.
Arguments Treq {E}.

(** All requests since reset, in order; the first [l_done] of them are
    answered, and [l_sent] beats of the next one are. *)
Record tlog {E : Type} := Tlog { l_reqs : list (treq E); l_done : nat; l_sent : nat }.
Arguments tlog : clear implicits.
Arguments Tlog {E}.

(** What one channel sees in a cycle: an accepted request, a beat with the
    index it is for, and whether the core can take a beat. *)
Record chan_in {E : Type} := Chan_in {
  ci_req : option Z; ci_resp : option (nat * E); ci_ready : bool
}.
Arguments chan_in : clear implicits.
Arguments Chan_in {E}.

Section spec.
Context {E : Type}.
Variables (D MB : nat) (CW : Z) (is_last : E → bool) (delay : Z).

(** The oldest unanswered beat is sent in cycle [t] when it came three cycles
    ago or earlier, the request is [delay] cycles old (on the timer's width)
    and the core is ready. *)
Definition spec_out (t : Z) (ready : bool) (l : tlog E) : option (Z * E) :=
  match l_reqs l !! l_done l with
  | Some q =>
      match q_beats q !! l_sent l with
      | Some (b, c) =>
          if (c + 3 <=? t) && (delay <=? (t - q_time q) mod 2 ^ CW) && ready
          then Some (q_id q, b) else None
      | None => None
      end
  | None => None
  end.

(** The request in flight that holds entry [idx]. *)
Definition req_of_idx (idx : nat) (l : tlog E) : nat :=
  (l_done l + (idx + D - l_done l mod D) mod D)%nat.

Definition add_beat (b : E) (t : Z) (q : treq E) : treq E :=
  Treq (q_id q) (q_time q) (q_beats q ++ [(b, t)]).

Definition spec_step (t : Z) (i : chan_in E) (l : tlog E) : tlog E :=
  let reqs1 := match ci_resp i with
    | Some (idx, b) => alter (add_beat b t) (req_of_idx idx l) (l_reqs l)
    | None => l_reqs l
    end in
  let reqs2 := reqs1 ++ match ci_req i with Some id => [Treq id t []] | None => [] end in
  match spec_out t (ci_ready i) l with
  | Some (_, b) => if is_last b then Tlog reqs2 (S (l_done l)) 0 else Tlog reqs2 (l_done l) (S (l_sent l))
  | None => Tlog reqs2 (l_done l) (l_sent l)
  end.

(** The contract of the two sides: no request is accepted while [D] are in
    flight, and a beat comes for a request in flight that is not complete; a
    burst has at most [MB] beats and ends with its last one. *)
Definition env_ok (i : chan_in E) (l : tlog E) : bool :=
  (match ci_req i with Some _ => (length (l_reqs l) <? l_done l + D)%nat | None => true end) &&
  match ci_resp i with
  | Some (idx, b) =>
      (idx <? D)%nat &&
      match l_reqs l !! req_of_idx idx l with
      | Some q =>
          negb (existsb (λ bc, is_last bc.1) (q_beats q)) &&
          (if is_last b then (length (q_beats q) <? MB)%nat else (S (length (q_beats q)) <? MB)%nat)
      | None => false
      end
  | None => true
  end.

Fixpoint spec_trace (t : Z) (l : tlog E) (ins : list (chan_in E)) : list (option (Z * E)) :=
  match ins with
  | [] => []
  | i :: ins' => spec_out t (ci_ready i) l :: spec_trace (t + 1) (spec_step t i l) ins'
  end.
Fixpoint env_trace (t : Z) (l : tlog E) (ins : list (chan_in E)) : bool :=
  match ins with
  | [] => true
  | i :: ins' => env_ok i l && env_trace (t + 1) (spec_step t i l) ins'
  end.
Fixpoint spec_log (t : Z) (l : tlog E) (ins : list (chan_in E)) : tlog E :=
  match ins with
  | [] => l
  | i :: ins' => spec_log (t + 1) (spec_step t i l) ins'
  end.

(** The beats the log has answered, in request order and under the original ids. *)
Definition beats_of (q : treq E) : list (Z * E) := (λ bc, (q_id q, bc.1)) <$> q_beats q.
Definition delivered (l : tlog E) : list (Z * E) :=
  concat (beats_of <$> take (l_done l) (l_reqs l)) ++
  match l_reqs l !! l_done l with Some q => take (l_sent l) (beats_of q) | None => [] end.
End spec.

(** ** RAM ports *)

Lemma bit_insert (l : list bool) a b v :
  (a < length l)%nat → bit (<[a := v]> l) b = if decide (a = b) then v else bit l b.
Proof.
  intros Ha. unfold bit. case_decide as Hab; [subst b; by rewrite list_lookup_insert_eq|].
  by rewrite list_lookup_insert_ne.
Qed.

Lemma length_port_fill base n v l : length (port_fill base n v l) = length l.
Proof.
  unfold port_fill. revert l. generalize (seq 0 n) as ks.
  induction ks as [|i ks IH]; intros l; cbn; [done|]. by rewrite IH, length_insert.
Qed.
Lemma length_port_set en a v l : length (port_set en a v l) = length l.
Proof. unfold port_set. destruct en; [by rewrite length_insert|done]. Qed.

Lemma bit_port_fill base n v l a :
  (base + n ≤ length l)%nat →
  bit (port_fill base n v l) a = if decide (base ≤ a < base + n)%nat then v else bit l a.
Proof.
  intros Hl. unfold port_fill. induction n as [|n IH].
  { cbn. case_decide; [lia|done]. }
  rewrite seq_S, foldl_app. cbn [foldl]. rewrite bit_insert.
  - rewrite Nat.add_0_l. rewrite IH by lia. repeat case_decide; done || lia.
  - pose proof (length_port_fill base n v l) as E. unfold port_fill in E. rewrite E. lia.
Qed.

Lemma bit_port_set (en : bool) a v l b :
  (en = true → a < length l)%nat →
  bit (port_set en a v l) b = if en && bool_decide (a = b) then v else bit l b.
Proof.
  intros. unfold port_set. destruct en; [|done]. rewrite bit_insert by auto.
  cbn. case_decide; [rewrite bool_decide_true|rewrite bool_decide_false]; done.
Qed.

Lemma bit_write_all en data ram a :
  (a < length ram)%nat →
  bit (ram_write_all en data ram) a = if bit en a then bit data a else bit ram a.
Proof.
  intros [v Hv]%lookup_lt_is_Some. unfold ram_write_all.
  assert (bit ram a = v) as -> by (unfold bit; by rewrite Hv).
  unfold bit at 1. by rewrite list_lookup_imap, Hv.
Qed.

(** ** One channel follows the log *)

Section channel.
Context {E : Type} (D MB : nat) (CW : Z) (is_last : E → bool) (delay : Z).
Hypothesis HD : pow2_depth D.
Hypothesis HD3 : (3 ≤ D)%nat.

Definition slot (n : nat) : nat := (n mod D)%nat.

Lemma slot_lt n : (slot n < D)%nat.
Proof. unfold slot. apply Nat.mod_upper_bound. lia. Qed.

Lemma slot_room n k : (k < MB)%nat → (slot n * MB + k < D * MB)%nat.
Proof. intros. pose proof (slot_lt n). nia. Qed.

Lemma slot_inj n m : (n < m + D)%nat → (m < n + D)%nat → slot n = slot m → n = m.
Proof.
  unfold slot. intros. pose proof (Nat.div_mod_eq n D). pose proof (Nat.div_mod_eq m D).
  assert (n / D = m / D)%nat; [|nia].
  pose proof (Nat.mod_upper_bound n D). pose proof (Nat.mod_upper_bound m D). nia.
Qed.

Lemma slot_wrap n : slot (n + D) = slot n.
Proof. unfold slot. rewrite <- (Nat.mul_1_l D) at 1. apply Nat.Div0.mod_add. Qed.

Lemma addr_inj a b k k' :
  (k < MB)%nat → (k' < MB)%nat → (a * MB + k = b * MB + k')%nat → a = b ∧ k = k'.
Proof. intros. assert (a = b) by nia. split; [done|]. nia. Qed.

(** The address is in the range of another request's entry only if it is its own. *)
Lemma addr_range n m k :
  (k < MB)%nat → (slot m * MB ≤ slot n * MB + k < slot m * MB + MB)%nat ↔ slot n = slot m.
Proof. intros. split; [|intros ->; lia]. nia. Qed.

Lemma ptr_slot n : ptr_idx D (Z.of_nat n mod ptr_mod D) = slot n.
Proof.
  rewrite idx_ptr by done. unfold ptr_idx, slot. by rewrite <- Nat2Z.inj_mod, Nat2Z.id.
Qed.

Lemma req_of_idx_spec idx (l : tlog E) :
  (idx < D)%nat → slot (req_of_idx D idx l) = idx ∧
  (l_done l ≤ req_of_idx D idx l < l_done l + D)%nat.
Proof.
  intros Hi. unfold req_of_idx, slot. split.
  - rewrite Nat.Div0.add_mod_idemp_r.
    pose proof (Nat.mod_upper_bound (l_done l) D). pose proof (Nat.div_mod_eq (l_done l) D) as Hd.
    replace (l_done l + (idx + D - l_done l mod D))%nat
      with (idx + (l_done l / D + 1) * D)%nat by nia.
    rewrite Nat.Div0.mod_add. by apply Nat.mod_small.
  - pose proof (Nat.mod_upper_bound (idx + D - l_done l mod D) D). lia.
Qed.

(** The beats that came back for request [n], and whether beat [k] of them
    came in cycle [t] or before. *)
Definition beats_at (l : tlog E) (n : nat) : list (E * Z) := from_option q_beats [] (l_reqs l !! n).
Definition seen (l : tlog E) (n k : nat) (t : Z) : bool :=
  match beats_at l n !! k with Some (_, c) => c <=? t | None => false end.

(** What the valid RAM will hold once the registered writes are done. *)
Definition eff (s : delay_fifo E) (a : nat) : bool :=
  if bit (dl_wr_en s) a then bit (dl_wr_data s) a else bit (dl_valid s) a.

Record log_wf (t : Z) (l : tlog E) : Prop := {
  lw_fit : (l_done l ≤ length (l_reqs l) ≤ l_done l + D)%nat;
  lw_sent : (l_sent l < MB)%nat;
  lw_beat : ∀ n k b c, beats_at l n !! k = Some (b, c) →
    c < t ∧ (k < MB)%nat ∧ (is_last b = false → (S k < MB)%nat)
}.

Record chan_rel (s : delay_fifo E) (l : tlog E) (t : Z) : Prop := {
  cr_en : length (dl_wr_en s) = (D * MB)%nat;
  cr_wd : length (dl_wr_data s) = (D * MB)%nat;
  cr_va : length (dl_valid s) = (D * MB)%nat;
  cr_da : length (dl_data s) = (D * MB)%nat;
  cr_fifo : rf_rel D (dl_fifo s) ((λ q, (q_id q, q_time q mod 2 ^ CW)) <$> drop (l_done l) (l_reqs l));
  cr_rptr : rf_rptr (dl_fifo s) = Z.of_nat (l_done l) mod ptr_mod D;
  cr_eff : ∀ n k, (l_done l ≤ n < l_done l + D)%nat → (k < MB)%nat →
    eff s (slot n * MB + k) = bool_decide (k < length (beats_at l n))%nat;
  cr_valid : ∀ n k, (l_done l ≤ n < l_done l + D - 1)%nat → (k < MB)%nat →
    bit (dl_valid s) (slot n * MB + k) = seen l n k (t - 2);
  cr_vrd : (l_done l < length (l_reqs l))%nat → dl_vrd s = seen l (l_done l) (l_sent l) (t - 3);
  cr_drd : ∀ b c, beats_at l (l_done l) !! l_sent l = Some (b, c) → c + 3 ≤ t → dl_drd s = Some b;
  cr_data : ∀ n k b c, (l_done l ≤ n)%nat → beats_at l n !! k = Some (b, c) →
    dl_data s !! (slot n * MB + k)%nat = Some (Some b)
}.

Lemma beats_at_in l n bc k : beats_at l n !! k = Some bc → (n < length (l_reqs l))%nat.
Proof.
  unfold beats_at. destruct (l_reqs l !! n) eqn:En; [|done]. intros _. by eapply lookup_lt_Some.
Qed.

(** ** The log after a cycle *)

Definition resp_ok (i : chan_in E) (l : tlog E) : Prop :=
  ∀ idx b, ci_resp i = Some (idx, b) →
    (idx < D)%nat ∧ (req_of_idx D idx l < length (l_reqs l))%nat ∧
    (length (beats_at l (req_of_idx D idx l)) < MB)%nat ∧
    (is_last b = false → (S (length (beats_at l (req_of_idx D idx l))) < MB)%nat) ∧
    existsb (λ bc, is_last bc.1) (beats_at l (req_of_idx D idx l)) = false.

Lemma env_ok_resp i l : env_ok D MB is_last i l = true → resp_ok i l.
Proof.
  unfold env_ok. intros [_ H]%andb_true_iff idx b Hr. rewrite Hr in H.
  apply andb_true_iff in H as [Hi H]. apply Nat.ltb_lt in Hi.
  unfold beats_at. destruct (l_reqs l !! _) as [q|] eqn:Hq; [|done]. cbn [from_option].
  apply andb_true_iff in H as [Hl H]. apply negb_true_iff in Hl.
  split_and!; [done|by eapply lookup_lt_Some| | |done];
    destruct (is_last b); apply Nat.ltb_lt in H; done || lia.
Qed.

Lemma env_ok_req i l id :
  env_ok D MB is_last i l = true → ci_req i = Some id → (length (l_reqs l) < l_done l + D)%nat.
Proof. unfold env_ok. intros [H _]%andb_true_iff Hr. rewrite Hr in H. by apply Nat.ltb_lt in H. Qed.

Lemma spec_step_reqs t i l :
  l_reqs (spec_step D CW is_last delay t i l) =
  match ci_resp i with
  | Some (idx, b) => alter (add_beat b t) (req_of_idx D idx l) (l_reqs l)
  | None => l_reqs l
  end ++ match ci_req i with Some id => [Treq id t []] | None => [] end.
Proof.
  unfold spec_step. destruct (spec_out _ _ _ _ _) as [[id b]|]; [destruct (is_last b)|]; done.
Qed.

Lemma spec_step_length t i l :
  length (l_reqs (spec_step D CW is_last delay t i l)) =
  (length (l_reqs l) + match ci_req i with Some _ => 1 | None => 0 end)%nat.
Proof.
  rewrite spec_step_reqs, length_app. f_equal; [|by destruct (ci_req i)].
  destruct (ci_resp i) as [[idx b]|]; [by rewrite length_alter|done].
Qed.

Definition beat_for (i : chan_in E) (l : tlog E) (n : nat) : option E :=
  match ci_resp i with
  | Some (idx, b) => if decide (n = req_of_idx D idx l) then Some b else None
  | None => None
  end.

Lemma beats_at_step t i l n :
  resp_ok i l →
  beats_at (spec_step D CW is_last delay t i l) n =
  beats_at l n ++ match beat_for i l n with Some b => [(b, t)] | None => [] end.
Proof.
  intros Hok. unfold beats_at, beat_for. rewrite spec_step_reqs.
  assert (∀ r : list (treq E), from_option q_beats []
      ((r ++ match ci_req i with Some id => [Treq id t []] | None => [] end) !! n) =
    from_option q_beats [] (r !! n)) as Happ.
  { intros r. destruct (decide (n < length r)%nat).
    - by rewrite lookup_app_l.
    - rewrite lookup_app_r, (lookup_ge_None_2 r) by lia.
      destruct (ci_req i); [|done]. by destruct (n - length r)%nat. }
  rewrite Happ. destruct (ci_resp i) as [[idx b]|] eqn:Hr; [|by rewrite app_nil_r].
  destruct (Hok idx b Hr) as (_ & Hin & _). case_decide as Hn.
  - subst n. rewrite list_lookup_alter_eq. by apply lookup_lt_is_Some in Hin as [q ->].
  - by rewrite list_lookup_alter_ne, app_nil_r.
Qed.

(** A beat of the new log is an old one or came in this cycle. *)
Lemma lookup_step t i l n k b c :
  resp_ok i l → beats_at (spec_step D CW is_last delay t i l) n !! k = Some (b, c) →
  beats_at l n !! k = Some (b, c) ∨
  (c = t ∧ beat_for i l n = Some b ∧ k = length (beats_at l n)).
Proof.
  intros Hok. rewrite beats_at_step by done. intros [H|[Hk H]]%lookup_app_Some; [by left|].
  destruct (beat_for i l n); [|done]. right.
  destruct (k - length (beats_at l n))%nat eqn:Ek; [|done]. injection H as -> <-.
  split_and!; [done..|lia].
Qed.

Lemma seen_step t i l n k t' :
  resp_ok i l → t' < t → seen (spec_step D CW is_last delay t i l) n k t' = seen l n k t'.
Proof.
  intros Hok Ht. unfold seen. rewrite beats_at_step by done.
  destruct (decide (k < length (beats_at l n))%nat) as [Hk|Hk].
  - by rewrite lookup_app_l.
  - rewrite lookup_app_r, (lookup_ge_None_2 (beats_at l n)) by lia.
    destruct (beat_for i l n); [|done].
    destruct (k - length (beats_at l n))%nat; [|done]. cbn. apply Z.leb_gt. lia.
Qed.

Lemma seen_all t l n k :
  log_wf t l → seen l n k (t - 1) = bool_decide (k < length (beats_at l n))%nat.
Proof.
  intros Hwf. unfold seen. destruct (beats_at l n !! k) as [[b c]|] eqn:Hk.
  - rewrite bool_decide_true by (by eapply lookup_lt_Some).
    apply Z.leb_le. destruct (lw_beat _ _ Hwf _ _ _ _ Hk). lia.
  - rewrite bool_decide_false; [done|]. by apply Nat.nlt_ge, lookup_ge_None.
Qed.

Lemma spec_out_beat t ready l id b :
  spec_out CW delay t ready l = Some (id, b) →
  ∃ c, beats_at l (l_done l) !! l_sent l = Some (b, c).
Proof.
  unfold spec_out, beats_at. destruct (l_reqs l !! l_done l) as [q|]; [|done]. cbn.
  destruct (q_beats q !! l_sent l) as [[b' c]|]; [|done].
  destruct (_ && _); [|done]. intros [= _ <-]. by exists c.
Qed.

(** Where the log stands after a cycle. *)
Lemma spec_step_pos t i l :
  let l' := spec_step D CW is_last delay t i l in
  match spec_out CW delay t (ci_ready i) l with
  | Some (_, b) => if is_last b then l_done l' = S (l_done l) ∧ l_sent l' = 0%nat
                   else l_done l' = l_done l ∧ l_sent l' = S (l_sent l)
  | None => l_done l' = l_done l ∧ l_sent l' = l_sent l
  end.
Proof.
  unfold spec_step. destruct (spec_out _ _ _ _ _) as [[id b]|]; [destruct (is_last b)|]; done.
Qed.

Lemma spec_step_done t i l :
  let l' := spec_step D CW is_last delay t i l in
  (l_done l' = l_done l ∨ (l_done l' = S (l_done l) ∧ (l_done l < length (l_reqs l))%nat)).
Proof.
  intros l'. pose proof (spec_step_pos t i l) as H. fold l' in H.
  destruct (spec_out _ _ _ _ _) as [[id b]|] eqn:Ho; [|by left; destruct H].
  destruct (is_last b); [|by left; destruct H]. right. split; [by destruct H|].
  apply spec_out_beat in Ho as [c Hc]. by eapply beats_at_in.
Qed.

Lemma log_wf_step t i l :
  env_ok D MB is_last i l = true → log_wf t l →
  log_wf (t + 1) (spec_step D CW is_last delay t i l).
Proof.
  intros Henv [Hf Hs Hb]. pose proof (env_ok_resp _ _ Henv) as Hok. split.
  - rewrite spec_step_length. pose proof (spec_step_done t i l) as Hd. cbv zeta in Hd.
    destruct (ci_req i) as [id|] eqn:Hr; [pose proof (env_ok_req _ _ _ Henv Hr)|]; lia.
  - pose proof (spec_step_pos t i l) as Hp. cbv zeta in Hp.
    destruct (spec_out _ _ _ _ _) as [[id b]|] eqn:Ho; [|by destruct Hp as [_ ->]].
    apply spec_out_beat in Ho as [c Hc]. destruct (Hb _ _ _ _ Hc) as (_ & ? & Hl).
    destruct (is_last b); destruct Hp as [_ ->]; [lia|]. by apply Hl.
  - intros n k b c Hk. apply lookup_step in Hk as [Hk|(-> & Hf' & ->)]; [| |done].
    { destruct (Hb _ _ _ _ Hk) as (? & ? & ?). split_and!; [lia|done..]. }
    unfold beat_for in Hf'. destruct (ci_resp i) as [[idx b']|] eqn:Hr; [|done].
    case_decide; [|done]. injection Hf' as ->. subst n.
    destruct (Hok idx b Hr) as (_ & _ & ? & ? & _). split_and!; [lia|done..].
Qed.

(** ** What the log has delivered *)

(** Nothing follows the last beat of a burst, and no more is answered than came. *)
Record log_bursts (l : tlog E) : Prop := {
  lb_last : ∀ n k b c, beats_at l n !! k = Some (b, c) → is_last b = true → S k = length (beats_at l n);
  lb_sent : (l_sent l ≤ length (beats_at l (l_done l)))%nat
}.

Lemma beats_at_prefix t i l n :
  resp_ok i l → beats_at l n `prefix_of` beats_at (spec_step D CW is_last delay t i l) n.
Proof. intros Hok. rewrite beats_at_step by done. by apply prefix_app_r. Qed.

Lemma existsb_lookup (bs : list (E * Z)) k b c :
  existsb (λ bc, is_last bc.1) bs = false → bs !! k = Some (b, c) → is_last b = false.
Proof.
  intros He Hk. destruct (is_last b) eqn:Hb; [|done].
  assert (existsb (λ bc : E * Z, is_last bc.1) bs = true); [|congruence].
  apply existsb_exists. exists (b, c). split; [|done]. apply list_elem_of_In. by eapply list_elem_of_lookup_2.
Qed.

Lemma log_bursts_step t i l :
  env_ok D MB is_last i l = true → log_bursts l →
  log_bursts (spec_step D CW is_last delay t i l).
Proof.
  intros Henv [Hl Hs]. pose proof (env_ok_resp _ _ Henv) as Hok. split.
  - intros n k b c Hk Hb. rewrite beats_at_step, length_app by done.
    apply lookup_step in Hk as [Hk|(-> & Hf & ->)]; [|rewrite Hf; cbn; lia|done].
    pose proof (Hl _ _ _ _ Hk Hb). unfold beat_for. destruct (ci_resp i) as [[idx b']|] eqn:Hr; [|cbn; lia].
    case_decide as Hn; [|cbn; lia]. destruct (Hok idx b' Hr) as (_ & _ & _ & _ & He). subst n.
    pose proof (existsb_lookup _ _ _ _ He Hk). congruence.
  - pose proof (spec_step_pos t i l) as Hp. cbv zeta in Hp.
    pose proof (prefix_length _ _ (beats_at_prefix t i l (l_done l) Hok)).
    destruct (spec_out _ _ _ _ _) as [[id b]|] eqn:Ho; [|destruct Hp as [-> ->]; lia].
    apply spec_out_beat in Ho as [c Hc]. apply lookup_lt_Some in Hc.
    destruct (is_last b); destruct Hp as [-> ->]; lia.
Qed.

Lemma step_lookup t i l n q :
  resp_ok i l → l_reqs l !! n = Some q →
  ∃ q', l_reqs (spec_step D CW is_last delay t i l) !! n = Some q' ∧ q_id q' = q_id q ∧
    q_beats q' = q_beats q ++ match beat_for i l n with Some b => [(b, t)] | None => [] end.
Proof.
  intros Hok Hq. pose proof (lookup_lt_Some _ _ _ Hq) as Hn. unfold beat_for. rewrite spec_step_reqs.
  destruct (ci_resp i) as [[idx b]|] eqn:Hr.
  - rewrite lookup_app_l by (by rewrite length_alter). case_decide as He.
    + subst n. rewrite list_lookup_alter_eq, Hq. by exists (add_beat b t q).
    + rewrite list_lookup_alter_ne, Hq by done. exists q. by rewrite app_nil_r.
  - rewrite lookup_app_l, Hq by done. exists q. by rewrite app_nil_r.
Qed.

Lemma take_done_step t i l :
  resp_ok i l → (l_done l ≤ length (l_reqs l))%nat →
  take (l_done l) (l_reqs (spec_step D CW is_last delay t i l)) = take (l_done l) (l_reqs l).
Proof.
  intros Hok Hd. rewrite spec_step_reqs. destruct (ci_resp i) as [[idx b]|] eqn:Hr.
  - rewrite take_app_le by (by rewrite length_alter). apply list_eq. intros n.
    destruct (decide (n < l_done l)%nat); [|by rewrite !lookup_take_ge by lia].
    rewrite !lookup_take_lt by done. destruct (Hok idx b Hr) as (Hi & _).
    destruct (req_of_idx_spec idx l Hi) as [_ ?]. by rewrite list_lookup_alter_ne by lia.
  - by rewrite take_app_le.
Qed.

Lemma delivered_step t i l :
  env_ok D MB is_last i l = true → log_wf t l → log_bursts l →
  delivered (spec_step D CW is_last delay t i l) =
  delivered l ++ option_list (spec_out CW delay t (ci_ready i) l).
Proof.
  intros Henv Hwf Hb. pose proof (env_ok_resp _ _ Henv) as Hok.
  pose proof (lw_fit _ _ Hwf) as [Hd _]. pose proof (lb_sent _ Hb) as Hs.
  pose proof (take_done_step t i l Hok Hd) as Ht. pose proof (spec_step_pos t i l) as Hp. cbv zeta in Hp.
  unfold delivered. set (l' := spec_step D CW is_last delay t i l) in *.
  destruct (l_reqs l !! l_done l) as [q|] eqn:Hq.
  2:{ unfold spec_out in *. rewrite Hq in *. destruct Hp as [-> ->]. rewrite Ht, !app_nil_r.
      unfold beats_at in Hs. rewrite Hq in Hs. cbn in Hs.
      destruct (l_reqs l' !! l_done l) as [q'|]; [|by rewrite app_nil_r].
      replace (l_sent l) with 0%nat by lia. by rewrite app_nil_r. }
  destruct (step_lookup t i l _ q Hok Hq) as (q' & Hq' & Hid & Hbs). fold l' in Hq'.
  assert (beats_at l (l_done l) = q_beats q) as Hbq by (unfold beats_at; by rewrite Hq).
  assert (∀ n, (n ≤ length (q_beats q))%nat → take n (beats_of q') = take n (beats_of q)) as Hpre.
  { intros n Hn. unfold beats_of. rewrite Hid, Hbs, fmap_app, take_app_le by (by rewrite length_fmap). done. }
  destruct (spec_out CW delay t (ci_ready i) l) as [[id b]|] eqn:Ho.
  2:{ destruct Hp as [-> ->]. rewrite Ht, Hq', Hpre by (by rewrite <- Hbq). by rewrite app_nil_r. }
  assert (beats_of q !! l_sent l = Some (id, b)) as Hbeat.
  { unfold spec_out in Ho. rewrite Hq in Ho. unfold beats_of. rewrite list_lookup_fmap.
    destruct (q_beats q !! l_sent l) as [[b' c]|]; [|done]. destruct (_ && _); [|done]. by injection Ho as <- <-. }
  pose proof (spec_out_beat _ _ _ _ _ Ho) as [c Hc]. pose proof (lookup_lt_Some _ _ _ Hc) as Hlt.
  rewrite Hbq in Hlt. destruct (is_last b) eqn:Hlast; destruct Hp as [-> ->].
  - rewrite (take_S_r _ _ _ Hq'), Ht, fmap_app, concat_app. cbn [fmap list_fmap concat].
    pose proof (lb_last _ Hb _ _ _ _ Hc Hlast) as Hlen. rewrite Hbq in Hlen.
    assert (beats_of q' = take (l_sent l) (beats_of q) ++ [(id, b)]) as ->.
    { rewrite <- (take_S_r _ _ _ Hbeat), <- Hpre by lia. symmetry. apply take_ge.
      pose proof (lb_last _ (log_bursts_step t i l Henv Hb) (l_done l) (l_sent l) b c) as Hlen'.
      unfold beats_of. rewrite length_fmap. fold l' in Hlen'. unfold beats_at in Hlen'. rewrite Hq' in Hlen'.
      cbn in Hlen'. rewrite Hlen'; [done| |done]. rewrite Hbs, lookup_app_l by lia. by rewrite Hbq in Hc. }
    rewrite app_nil_r. destruct (l_reqs l' !! S (l_done l)); cbn; by rewrite ?app_nil_r, app_assoc.
  - rewrite Ht, Hq', Hpre, (take_S_r _ _ _ Hbeat) by lia. cbn. by rewrite app_assoc.
Qed.

(** ** The submodule in a cycle *)

Definition in_entry (idx a : nat) : bool := bool_decide (idx * MB ≤ a < idx * MB + MB)%nat.

Lemma valid_ports_eff (s : delay_fifo E) push resp wr pop V a :
  length (dl_wr_data s) = (D * MB)%nat → (a < D * MB)%nat → (resp = true → wr < D * MB)%nat →
  (if bit (valid_ports D MB true push resp wr pop s).1 a
   then bit (valid_ports D MB true push resp wr pop s).2 a else V) =
  if pop && in_entry (fifo_pop_idx D s) a then false
  else if resp && bool_decide (wr = a) then true
  else if push && in_entry (fifo_push_idx D s) a then false
  else V.
Proof.
  intros Hl Ha Hw. unfold valid_ports. cbn [negb].
  assert (∀ p, ptr_idx D p * MB + MB ≤ D * MB)%nat as Hp.
  { intros p. pose proof (ptr_idx_lt D ltac:(lia) p). nia. }
  assert (bit (replicate (D * MB) false) a = false) as Hr.
  { unfold bit. by rewrite lookup_replicate_2. }
  unfold in_entry, fifo_pop_idx, fifo_push_idx.
  destruct pop, push; cbn [fst snd andb];
    rewrite ?bit_port_fill, ?bit_port_set, ?bit_port_fill, ?Hr
      by (rewrite ?length_port_set, ?length_port_fill, ?length_replicate, ?Hl; auto);
    rewrite <- ?decide_bool_decide; repeat case_decide; repeat case_bool_decide;
    destruct resp; try done.
Qed.

Lemma send_follows s l t ready :
  0 < delay → log_wf t l → chan_rel s l t →
  send_resp D CW delay (t mod 2 ^ CW) ready s = from_option (λ _, true) false (spec_out CW delay t ready l) ∧
  ∀ id b, spec_out CW delay t ready l = Some (id, b) → resp_id s = id ∧ dl_drd s = Some b.
Proof.
  intros Hd Hwf Hr. destruct (rf_rel_outputs D _ _ HD (cr_fifo _ _ _ Hr)) as (_ & _ & He).
  unfold send_resp, resp_id, spec_out. rewrite He, length_fmap, length_drop.
  destruct (Z.eqb_spec delay 0); [lia|]. cbn [negb andb].
  destruct (l_reqs l !! l_done l) as [q|] eqn:Hq.
  2:{ apply lookup_ge_None in Hq. by rewrite (proj2 (Nat.eqb_eq _ _)) by lia. }
  pose proof (lookup_lt_Some _ _ _ Hq) as Hlt.
  rewrite (proj2 (Nat.eqb_neq _ _)) by lia. cbn [negb andb].
  rewrite (rr_head _ _ _ (cr_fifo _ _ _ Hr) (q_id q, q_time q mod 2 ^ CW)
    ((λ q, (q_id q, q_time q mod 2 ^ CW)) <$> drop (S (l_done l)) (l_reqs l)))
    by (by rewrite (drop_S _ _ _ Hq)).
  rewrite (cr_vrd _ _ _ Hr Hlt). unfold seen.
  assert (beats_at l (l_done l) = q_beats q) as Hb by (unfold beats_at; by rewrite Hq).
  pose proof (cr_drd _ _ _ Hr) as Hdrd. rewrite Hb in *. rewrite <- Zminus_mod.
  destruct (q_beats q !! l_sent l) as [[b c]|] eqn:Hk.
  2:{ by rewrite andb_false_r. }
  replace (c <=? t - 3) with (c + 3 <=? t) by (destruct (Z.leb_spec (c + 3) t), (Z.leb_spec c (t - 3)); lia || done).
  destruct (Z.leb_spec (c + 3) t), (delay <=? _), ready; cbn [andb];
    (split; [done|]); try done.
  intros ? ? [= <- <-]. cbn. split; [done|]. by apply (Hdrd b c).
Qed.

(** The indices of the FIFO. *)
Lemma indices_follow (s : delay_fifo E) l t :
  log_wf t l → chan_rel s l t →
  fifo_push_idx D s = slot (length (l_reqs l)) ∧ fifo_pop_idx D s = slot (l_done l) ∧
  fifo_next_pop_idx D s = slot (S (l_done l)).
Proof.
  intros Hwf Hrel. unfold fifo_push_idx, fifo_pop_idx, fifo_next_pop_idx.
  destruct (ptr_mod_pow2 D HD) as [Hm Hpos]. pose proof (lw_fit _ _ Hwf).
  rewrite (rr_size _ _ _ (cr_fifo _ _ _ Hrel)), length_fmap, length_drop, (cr_rptr _ _ _ Hrel).
  rewrite !Z.add_mod_idemp_l, <- Nat2Z.inj_add by lia.
  replace (Z.of_nat (l_done l) + 1) with (Z.of_nat (S (l_done l))) by lia. rewrite !ptr_slot.
  split_and!; [f_equal; lia|done..].
Qed.

Lemma push_follows (s : delay_fifo E) l t i rv rr id :
  0 < delay → env_ok D MB is_last i l = true → log_wf t l → chan_rel s l t →
  ci_req i = (if rv && rr then Some id else None) → push_en D delay rv rr s = rv && rr.
Proof.
  intros Hd Henv Hwf Hrel Hreq. destruct (rf_rel_outputs D _ _ HD (cr_fifo _ _ _ Hrel)) as (_ & Hfull & _).
  rewrite length_fmap, length_drop in Hfull. unfold push_en. rewrite Hfull.
  destruct (Z.eqb_spec delay 0); [lia|]. destruct (rv && rr); [|done].
  pose proof (env_ok_req _ _ _ Henv Hreq). pose proof (lw_fit _ _ Hwf).
  by rewrite (proj2 (Nat.eqb_neq _ _)) by lia.
Qed.

(** How the inputs of the submodule in a cycle are those the log sees. *)
Record chan_conn (l : tlog E) (t : Z) (i : chan_in E) (rv rr : bool) (id : Z) (resp : bool)
    (rd wr : nat) (last : bool) (data : E) : Prop := {
  cc_req : ci_req i = if rv && rr then Some id else None;
  cc_resp : match ci_resp i with
            | Some (idx, b) => resp = true ∧ data = b ∧
                wr = (idx * MB + length (beats_at l (req_of_idx D idx l)))%nat
            | None => resp = false
            end;
  cc_rd : rd = (slot (l_done (spec_step D CW is_last delay t i l)) * MB +
                l_sent (spec_step D CW is_last delay t i l))%nat;
  cc_last : last = from_option (λ ib, is_last ib.2) false (spec_out CW delay t (ci_ready i) l)
}.

Lemma fmap_add_beat b t n (r : list (treq E)) :
  (λ q, (q_id q, q_time q mod 2 ^ CW)) <$> alter (add_beat b t) n r =
  (λ q, (q_id q, q_time q mod 2 ^ CW)) <$> r.
Proof.
  apply list_eq. intros k. rewrite !list_lookup_fmap.
  destruct (decide (n = k)) as [->|]; [|by rewrite list_lookup_alter_ne].
  rewrite list_lookup_alter_eq. by destruct (r !! k).
Qed.

Lemma spec_step_done_last t i l :
  l_done (spec_step D CW is_last delay t i l) =
  if from_option (λ ib, is_last ib.2) false (spec_out CW delay t (ci_ready i) l)
  then S (l_done l) else l_done l.
Proof.
  pose proof (spec_step_pos t i l) as H. cbv zeta in H.
  destruct (spec_out _ _ _ _ _) as [[id b]|]; [|by destruct H]. cbn.
  by destruct (is_last b); destruct H.
Qed.

Lemma queue_follows t i l id (req : bool) pop :
  env_ok D MB is_last i l = true → log_wf t l →
  pop = from_option (λ ib, is_last ib.2) false (spec_out CW delay t (ci_ready i) l) →
  ci_req i = (if req then Some id else None) →
  let f := λ q : treq E, (q_id q, q_time q mod 2 ^ CW) in
  queue_step D (Fifo_in req (id, t mod 2 ^ CW) pop)
    (f <$> drop (l_done l) (l_reqs l)) =
  Some (f <$> drop (l_done (spec_step D CW is_last delay t i l))
                   (l_reqs (spec_step D CW is_last delay t i l))).
Proof.
  intros Henv Hwf Hpop Hreq f. unfold queue_step. cbn [fi_push fi_d fi_pop].
  rewrite length_fmap, length_drop. pose proof (lw_fit _ _ Hwf) as Hfit.
  assert (pop = true → l_done l < length (l_reqs l))%nat as Hlt.
  { pose proof (spec_step_done t i l) as Hd. cbv zeta in Hd. rewrite spec_step_done_last, <- Hpop in Hd.
    intros ->. lia. }
  destruct (_ || _) eqn:Hg.
  { exfalso. apply orb_true_iff in Hg as [[H1 H2]%andb_true_iff|[H1 H2]%andb_true_iff];
      apply Nat.eqb_eq in H2.
    - subst req. pose proof (env_ok_req _ _ _ Henv Hreq). lia.
    - specialize (Hlt H1). lia. }
  f_equal. rewrite spec_step_done_last, <- Hpop, spec_step_reqs.
  assert (f <$> match ci_resp i with
    | Some (idx, b) => alter (add_beat b t) (req_of_idx D idx l) (l_reqs l)
    | None => l_reqs l end = f <$> l_reqs l) as Hf.
  { destruct (ci_resp i) as [[idx b]|]; [apply fmap_add_beat|done]. }
  rewrite !fmap_drop, fmap_app, Hf, drop_app_le by (rewrite length_fmap; destruct pop; lia).
  f_equal; [destruct pop; [by rewrite drop_drop, Nat.add_1_r|done]|].
  rewrite Hreq. by destruct req.
Qed.

Lemma no_beat i l n :
  resp_ok i l → (length (l_reqs l) ≤ n)%nat → beats_at l n = [] ∧ beat_for i l n = None.
Proof.
  intros Hok Hn. split; [unfold beats_at; by rewrite lookup_ge_None_2|].
  unfold beat_for. destruct (ci_resp i) as [[idx b]|] eqn:Hr; [|done].
  destruct (Hok idx b Hr) as (_ & ? & _). case_decide; [lia|done].
Qed.

(** The entries of the valid RAM after a cycle. *)
Lemma eff_follows s l t i rv rr id resp rd wr last data n k :
  env_ok D MB is_last i l = true → log_wf t l → chan_rel s l t →
  chan_conn l t i rv rr id resp rd wr last data →
  let l' := spec_step D CW is_last delay t i l in
  let push := rv && rr in
  let s' := valid_ports D MB true push resp wr last s in
  (l_done l' ≤ n < l_done l' + D)%nat → (k < MB)%nat →
  (if bit s'.1 (slot n * MB + k) then bit s'.2 (slot n * MB + k) else eff s (slot n * MB + k)) =
  bool_decide (k < length (beats_at l' n))%nat.
Proof.
  intros Henv Hwf Hrel [Hreq Hresp Hrd Hlast] l' push s' Hn Hk.
  pose proof (env_ok_resp _ _ Henv) as Hok. pose proof (lw_fit _ _ Hwf) as Hfit.
  assert (resp = true → wr < D * MB)%nat as Hwr.
  { intros ->. destruct (ci_resp i) as [[idx b]|] eqn:Hr; [|done].
    destruct (Hok idx b Hr) as (Hi & _ & Hlen & _). destruct Hresp as (_ & _ & ->). nia. }
  subst s'. rewrite valid_ports_eff by first [exact Hwr|by apply slot_room|apply Hrel].
  unfold in_entry. destruct (indices_follow s l t Hwf Hrel) as (-> & -> & _).
  unfold l' in *. rewrite beats_at_step, length_app by done. rewrite spec_step_done_last, <- Hlast in Hn.
  assert (last = true → l_done l < length (l_reqs l))%nat as Hpop.
  { pose proof (spec_step_done t i l) as Hd. cbv zeta in Hd. rewrite spec_step_done_last, <- Hlast in Hd.
    intros ->. lia. }
  destruct (decide (slot n = slot (l_done l) ∧ last = true)) as [[Hs ->]|Hnp].
  { cbn [andb]. rewrite bool_decide_true by (by apply addr_range).
    assert (n = l_done l + D)%nat as ->.
    { destruct (decide (n = l_done l + D)%nat); [done|]. apply slot_inj in Hs; lia. }
    destruct (no_beat i l (l_done l + D) Hok) as [-> ->]; [lia|]. by rewrite bool_decide_false by (cbn; lia). }
  replace (last && _) with false.
  2:{ symmetry. destruct last; [|done]. cbn. apply bool_decide_false. rewrite addr_range by done.
      intros ?. by apply Hnp. }
  assert (l_done l ≤ n < l_done l + D)%nat as Hn0.
  { destruct last; [|lia]. destruct (decide (n = l_done l + D)%nat) as [->|]; [|lia].
    destruct Hnp. by rewrite slot_wrap. }
  rewrite (cr_eff _ _ _ Hrel) by done.
  replace (push && _) with (push && bool_decide (n = length (l_reqs l))).
  2:{ destruct push eqn:Ep; [|done]. unfold push in Ep. rewrite Ep in Hreq.
      pose proof (env_ok_req _ _ _ Henv Hreq). cbn. apply bool_decide_ext. rewrite addr_range by done.
      split; [by intros ->|]. intros Hs. apply slot_inj in Hs; lia. }
  unfold beat_for. destruct (ci_resp i) as [[idx b]|] eqn:Hr.
  - destruct (Hok idx b Hr) as (Hi & Hin & Hlen & _). destruct Hresp as (-> & _ & ->).
    destruct (req_of_idx_spec idx l Hi) as [Hsl Hrr]. replace (idx * MB)%nat with (slot (req_of_idx D idx l) * MB)%nat by (by rewrite Hsl). cbn [andb].
    case_decide as Hnr; [subst n|].
    + rewrite (bool_decide_ext _ (k = length (beats_at l (req_of_idx D idx l)))).
      2:{ split; [intros []%addr_inj; done|by intros ->]. }
      rewrite (bool_decide_false (req_of_idx D idx l = _)), andb_false_r by lia. cbn [length].
      repeat case_bool_decide; done || lia.
    + rewrite bool_decide_false.
      2:{ intros [Hs _]%addr_inj; [|done..]. apply slot_inj in Hs; lia. }
      cbn [length]. rewrite Nat.add_0_r. destruct push; [|done]. cbn. case_bool_decide; [|done].
      by destruct (no_beat i l n Hok) as [-> _]; [lia|].
  - subst resp. cbn. rewrite Nat.add_0_r. destruct push; [|done]. cbn. case_bool_decide; [|done].
    by destruct (no_beat i l n Hok) as [-> _]; [lia|].
Qed.

Lemma length_valid_ports (s : delay_fifo E) push resp wr pop :
  length (dl_wr_data s) = (D * MB)%nat →
  length (valid_ports D MB true push resp wr pop s).1 = (D * MB)%nat ∧
  length (valid_ports D MB true push resp wr pop s).2 = (D * MB)%nat.
Proof.
  intros Hl. unfold valid_ports. destruct push, pop; cbn;
    by rewrite ?length_port_fill, ?length_port_set, ?length_port_fill, ?length_replicate, ?Hl.
Qed.

(** The address the RAMs are read at is outside the entry popped one cycle ago. *)
Lemma head_range t i l :
  let l' := spec_step D CW is_last delay t i l in
  (l_done l ≤ l_done l' < l_done l + D - 1)%nat.
Proof. cbv zeta. pose proof (spec_step_done t i l) as H. cbv zeta in H. lia. Qed.

(** The data RAM after a cycle. *)
Lemma data_follows s l t i rv rr id resp rd wr last data n k b c :
  env_ok D MB is_last i l = true → log_wf t l → chan_rel s l t →
  chan_conn l t i rv rr id resp rd wr last data →
  let l' := spec_step D CW is_last delay t i l in
  (l_done l' ≤ n)%nat → beats_at l' n !! k = Some (b, c) →
  (if resp then <[wr := Some data]> (dl_data s) else dl_data s) !! (slot n * MB + k)%nat = Some (Some b).
Proof.
  intros Henv Hwf Hrel [Hreq Hresp Hrd Hlast] l' Hn Hk.
  pose proof (env_ok_resp _ _ Henv) as Hok. pose proof (lw_fit _ _ Hwf) as Hfit.
  pose proof (head_range t i l) as Hh. cbv zeta in Hh. fold l' in Hh.
  pose proof (beats_at_in _ _ _ _ Hk) as Hin. unfold l' in Hin. rewrite spec_step_length in Hin.
  destruct (log_wf_step t i l Henv Hwf) as [_ _ Hb]. destruct (Hb _ _ _ _ Hk) as (_ & HkMB & _).
  apply lookup_step in Hk; [|done].
  destruct (ci_resp i) as [[idx b']|] eqn:Hr.
  2:{ subst resp. destruct Hk as [Hk|(_ & Hbf & _)]; [by apply (cr_data _ _ _ Hrel) in Hk; [|lia]|].
      unfold beat_for in Hbf. by rewrite Hr in Hbf. }
  destruct (Hok idx b' Hr) as (Hi & Hrin & Hlen & _). destruct Hresp as (-> & -> & ->).
  destruct (req_of_idx_spec idx l Hi) as [Hsl Hrr]. rewrite <- Hsl at 1.
  destruct Hk as [Hk|(_ & Hbf & ->)].
  - rewrite list_lookup_insert_ne; [apply (cr_data _ _ _ Hrel) in Hk; [done|lia]|].
    intros [Hs Hkl]%addr_inj; [|done..]. apply slot_inj in Hs; [|pose proof (beats_at_in _ _ _ _ Hk); lia..].
    subst n. apply lookup_lt_Some in Hk. lia.
  - unfold beat_for in Hbf. rewrite Hr in Hbf. case_decide; [|done]. injection Hbf as ->. subst n.
    apply list_lookup_insert_eq. rewrite (cr_da _ _ _ Hrel). by apply slot_room.
Qed.

(** ** A cycle of the submodule follows the log *)
Lemma chan_step s l t i rv rr id resp rd wr last data :
  0 < delay → env_ok D MB is_last i l = true → log_wf t l → chan_rel s l t →
  chan_conn l t i rv rr id resp rd wr last data →
  chan_rel (delay_fifo_clk D MB true delay (t mod 2 ^ CW) rv rr id resp rd wr last wr data resp rd s)
    (spec_step D CW is_last delay t i l) (t + 1).
Proof.
  intros Hd Henv Hwf Hrel Hc. pose proof Hc as [Hreq Hresp Hrd Hlast].
  pose proof (env_ok_resp _ _ Henv) as Hok. pose proof (lw_fit _ _ Hwf) as Hfit.
  pose proof (push_follows s l t i rv rr id Hd Henv Hwf Hrel Hreq) as Hpush.
  assert (pop_en delay last = last) as Hpop.
  { unfold pop_en. by destruct (Z.eqb_spec delay 0); [lia|]. }
  pose proof (head_range t i l) as Hh. cbv zeta in Hh.
  pose proof (log_wf_step t i l Henv Hwf) as Hwf'.
  destruct (length_valid_ports s (rv && rr) resp wr last (cr_wd _ _ _ Hrel)) as [Hl1 Hl2].
  unfold delay_fifo_clk, ram_clk. rewrite Hpush, Hpop.
  destruct (valid_ports D MB true (rv && rr) resp wr last s) as [en wd] eqn:Hvp.
  set (l' := spec_step D CW is_last delay t i l) in *.
  assert (∀ n k, (l_done l' ≤ n < l_done l' + D)%nat → (k < MB)%nat →
    bit (ram_write_all (dl_wr_en s) (dl_wr_data s) (dl_valid s)) (slot n * MB + k) =
    eff s (slot n * MB + k)) as Hv.
  { intros n k _ Hk. rewrite bit_write_all; [done|]. rewrite (cr_va _ _ _ Hrel). by apply slot_room. }
  split; cbn [dl_fifo dl_wr_en dl_wr_data dl_valid dl_vrd dl_data dl_drd].
  - done.
  - done.
  - unfold ram_write_all. rewrite length_imap. apply Hrel.
  - destruct resp; rewrite ?length_insert; apply Hrel.
  - apply (rf_clk_rel D _ (Fifo_in (rv && rr) (id, t mod 2 ^ CW) last) _
      _ _ HD (cr_fifo _ _ _ Hrel)). by apply queue_follows.
  - unfold rf_clk, ram_clk. cbn. rewrite (cr_rptr _ _ _ Hrel).
    rewrite Z.add_mod_idemp_l by (destruct (ptr_mod_pow2 D HD); lia). f_equal.
    unfold l'. rewrite spec_step_done_last, <- Hlast. destruct last; cbn; lia.
  - intros n k Hn Hk. unfold eff at 1. cbn [dl_wr_en dl_wr_data dl_valid]. rewrite Hv by done.
    pose proof (eff_follows s l t i rv rr id resp rd wr last data n k Henv Hwf Hrel Hc Hn Hk) as He.
    cbv zeta in He. by rewrite Hvp in He.
  - intros n k Hn Hk. pose proof (spec_step_done t i l) as Hdn. cbv zeta in Hdn. fold l' in Hdn.
    rewrite Hv, (cr_eff _ _ _ Hrel) by lia. unfold l'.
    rewrite seen_step by (done || lia). replace (t + 1 - 2) with (t - 1) by lia. symmetry. by apply seen_all.
  - intros Hne. unfold l'. rewrite Hrd. fold l'.
    rewrite (cr_valid _ _ _ Hrel); [|done|apply Hwf']. unfold l'. rewrite seen_step by (done || lia).
    f_equal. lia.
  - intros b c Hk Ht. rewrite Hrd. fold l'. apply lookup_step in Hk as [Hk|(-> & _)]; [|lia|done].
    apply (cr_data _ _ _ Hrel) in Hk; [|lia]. by rewrite Hk.
  - intros n k b c Hn Hk. by eapply data_follows.
Qed.
End channel.

(** ** Reset *)

Definition log0 {E} : tlog E := Tlog [] 0 0.

(** The sizes of the memories. *)
Definition delay_sized {E} (D MB : nat) (s : delay_fifo E) : Prop :=
  length (rf_ram (dl_fifo s)) = D ∧ length (dl_valid s) = (D * MB)%nat ∧
  length (dl_data s) = (D * MB)%nat.

Lemma log0_wf {E} D MB (is_last : E → bool) t : (1 ≤ MB)%nat → log_wf D MB is_last t log0.
Proof. intros. split; cbn; [lia|lia|done]. Qed.
Lemma log0_bursts {E} (is_last : E → bool) : log_bursts is_last log0.
Proof. by split. Qed.

Section reset.
Context {E : Type} (D MB : nat) (CW : Z) (HD : pow2_depth D).

Abbreviation reset_clk := (delay_fifo_clk (E := E) D MB false).

Lemma reset_sized delay timer rv rr id resp rd wr last dwa data dwe dra s :
  delay_sized D MB s →
  delay_sized D MB (reset_clk delay timer rv rr id resp rd wr last dwa data dwe dra s).
Proof.
  intros (H1 & H2 & H3). unfold delay_sized, delay_fifo_clk, ram_clk, ram_write_all, rf_clk. cbn.
  rewrite length_imap. split_and!; [|done|by destruct dwe; rewrite ?length_insert].
  unfold ram_clk. by destruct (push_en _ _ _ _ _); cbn; rewrite ?length_insert.
Qed.

Lemma reset_ports delay timer rv rr id resp rd wr last dwa data dwe dra s :
  let s' := reset_clk delay timer rv rr id resp rd wr last dwa data dwe dra s in
  dl_wr_en s' = replicate (D * MB) true ∧ dl_wr_data s' = replicate (D * MB) false.
Proof. done. Qed.

(** The second cycle of reset. *)
Lemma reset_again delay timer rv rr id resp rd wr last dwa data dwe dra s :
  (1 ≤ MB)%nat → delay_sized D MB s →
  dl_wr_en s = replicate (D * MB) true → dl_wr_data s = replicate (D * MB) false →
  chan_rel D MB CW (reset_clk delay timer rv rr id resp rd wr last dwa data dwe dra s) log0 0.
Proof.
  intros HMB Hs Hen Hwd.
  pose proof (reset_sized delay timer rv rr id resp rd wr last dwa data dwe dra _ Hs) as (_ & H2 & H3).
  destruct (ptr_mod_pow2 D HD) as [? HD0].
  assert (∀ n k, (k < MB)%nat → slot D n * MB + k < D * MB)%nat as Hroom.
  { intros n k Hk. unfold slot. pose proof (Nat.mod_upper_bound n D). nia. }
  assert (∀ b n, (n < D * MB)%nat → bit (replicate (D * MB) b) n = b) as Hrep.
  { intros b n Hn. unfold bit. by rewrite lookup_replicate_2. }
  split; try done; [by rewrite <- (length_replicate (D * MB) true)
                   |by rewrite <- (length_replicate (D * MB) false)|..].
  - destruct Hs as (H1 & _). by apply rf_reset_rel.
  - intros n k _ Hk. unfold eff, delay_fifo_clk. cbn. by rewrite !Hrep by auto.
  - intros n k _ Hk. unfold delay_fifo_clk. cbn. destruct Hs as (_ & Hv & _).
    rewrite bit_write_all by (rewrite Hv; auto). by rewrite Hen, Hwd, !Hrep by auto.
  - cbn. lia.
Qed.
End reset.

(** ** The R channel *)

Definition r_in (D : nat) (i : delay_in) : chan_in r_chan :=
  Chan_in (if di_ar_valid i && di_ar_ready i then Some (di_ar_id i) else None)
    (if di_r_valid i then Some (wr_index D (rc_id (di_r i)), di_r i) else None) (di_r_ready i).
Definition b_in (D : nat) (i : delay_in) : chan_in b_chan :=
  Chan_in (if di_aw_valid i && di_aw_ready i then Some (di_aw_id i) else None)
    (if di_b_valid i then Some (wr_index D (bc_id (di_b i)), di_b i) else None) (di_b_ready i).

(** A beat of the log as the core gets it: under the original id. *)
Definition r_answer (a : Z * r_chan) : r_chan :=
  let '(id, r) := a in R_chan id (rc_data r) (rc_resp r) (rc_last r) (rc_user r).
Definition b_answer (a : Z * b_chan) : b_chan :=
  let '(id, b) := a in B_chan id (bc_resp b) (bc_user b).
Definition r_out (o : delay_out) : option r_chan := if do_r_valid o then Some (do_r o) else None.
Definition b_out (o : delay_out) : option b_chan := if do_b_valid o then Some (do_b o) else None.

Lemma clog2_bound n : 1 ≤ n → n ≤ 2 ^ clog2 n.
Proof.
  intros Hn. unfold clog2. destruct (Z.leb_spec n 1); [cbn; lia|].
  pose proof (Z.log2_spec (n - 1)). replace (Z.log2 (n - 1) + 1) with (Z.succ (Z.log2 (n - 1))) by lia. lia.
Qed.

Lemma wr_index_lt D id : pow2_depth D → (2 ≤ D)%nat → (wr_index D id < D)%nat.
Proof.
  intros (k & Hk & E) HD. unfold wr_index. rewrite E.
  assert (clog2 (2 ^ k) = k) as ->.
  { unfold clog2. destruct (Z.leb_spec (2 ^ k) 1); [lia|].
    replace (2 ^ k - 1) with (Z.pred (2 ^ k)) by lia. rewrite Z.log2_pred_pow2; [lia|].
    destruct (decide (k = 0)) as [->|]; [|lia]. cbn in E. lia. }
  assert (0 < 2 ^ k) by lia. pose proof (Z.mod_pos_bound id (2 ^ k)). lia.
Qed.

Section module.
Variables (D MB : nat) (CW IW : Z).
Hypothesis HD : pow2_depth D.
Hypothesis HD3 : (3 ≤ D)%nat.
Hypothesis HMB : (1 ≤ MB ≤ 256)%nat.

Lemma r_ram_addr_small idx k :
  (idx < D)%nat → (k < MB)%nat → r_ram_addr D MB idx (Z.of_nat k) = (idx * MB + k)%nat.
Proof.
  intros Hi Hk. unfold r_ram_addr. pose proof (clog2_bound (Z.of_nat (D * MB))).
  rewrite Z.mod_small; [lia|]. nia.
Qed.

Record r_rel (s : delay_resp) (l : tlog r_chan) (t : Z) : Prop := {
  rx_wf : log_wf D MB rc_last t l;
  rx_chan : chan_rel D MB CW (dr_r s) l t;
  rx_timer : dr_timer s = t mod 2 ^ CW;
  rx_beat : dr_output_beat_idx s = Z.of_nat (l_sent l);
  rx_cnt : length (dr_input_beat_counters s) = D;
  rx_cnts : ∀ n, (l_done l ≤ n < length (l_reqs l))%nat →
    dr_input_beat_counters s !! slot D n = Some (u8 (Z.of_nat (length (beats_at l n))))
}.

(** What the R channel sends is what the log sends. *)
Lemma r_send delay i s l t :
  0 < delay → di_delay i = delay → r_rel s l t →
  let o := spec_out CW delay t (di_r_ready i) l in
  send_r_resp_out D CW i s = from_option (λ _, true) false o ∧
  (send_r_resp_out D CW i s && r_rd_last s) = from_option (λ ib, rc_last ib.2) false o ∧
  (is_Some o → dl_vrd (dr_r s) = true) ∧
  ∀ id b, o = Some (id, b) → resp_id (dr_r s) = id ∧ dl_drd (dr_r s) = Some b.
Proof.
  intros Hd Hi [Hwf Hc Ht _ _ _] o. unfold send_r_resp_out, r_rd_last. rewrite Hi, Ht.
  destruct (send_follows D MB CW rc_last delay HD HD3 (dr_r s) l t (di_r_ready i) Hd Hwf Hc) as [Hs Ho].
  fold o in Hs, Ho. split_and!; [done| |intros [x Hx]|done].
  - rewrite Hs. destruct o as [[id b]|]; [|done]. by destruct (Ho id b eq_refl) as [_ ->].
  - rewrite Hx in Hs. unfold send_resp in Hs. cbn in Hs.
    apply andb_true_iff in Hs as [Hs _]. by apply andb_true_iff in Hs as [_ ->].
Qed.

Lemma r_out_follows delay i s l t :
  0 < delay → di_delay i = delay → r_rel s l t →
  r_out (delay_resp_comb D CW IW i s) = r_answer <$> spec_out CW delay t (di_r_ready i) l.
Proof.
  intros Hd Hi Hr. destruct (r_send delay i s l t Hd Hi Hr) as (Hs & _ & Hv & Ho).
  unfold r_out, delay_resp_comb. rewrite Hi. destruct (Z.eqb_spec delay 0); [lia|]. rewrite Hs.
  destruct (spec_out _ _ _ _ _) as [[id b]|]; cbn.
  - rewrite Hv by eauto. destruct (Ho id b eq_refl) as [-> ->].
    destruct (di_delay_w i =? 0); [done|]. by destruct (send_b_resp_out _ _ _ _).
  - destruct (di_delay_w i =? 0); [done|]. by destruct (send_b_resp_out _ _ _ _).
Qed.

(** The counters after a cycle. *)
Lemma r_counters delay i s l t :
  0 < delay → di_delay i = delay → env_ok D MB rc_last (r_in D i) l = true → r_rel s l t →
  let l' := spec_step D CW rc_last delay t (r_in D i) l in
  ∀ n, (l_done l' ≤ n < length (l_reqs l'))%nat →
  beat_counters D i s !! slot D n = Some (u8 (Z.of_nat (length (beats_at l' n)))).
Proof.
  intros Hd Hi Henv [Hwf Hc Ht Hbt Hlen Hcnt] l' n Hn.
  pose proof (env_ok_resp D MB rc_last HD3 _ _ Henv) as Hok. pose proof (lw_fit _ _ _ _ _ Hwf) as Hfit.
  unfold l' in *. rewrite (beats_at_step D MB), length_app by done.
  pose proof (spec_step_done D CW rc_last delay t (r_in D i) l) as Hdn. cbv zeta in Hdn.
  assert (ci_req (r_in D i) = if di_ar_valid i && di_ar_ready i then Some (di_ar_id i) else None) as Hq by done.
  rewrite spec_step_length, Hq in Hn.
  assert (l_done l ≤ n)%nat as Hn0 by lia. unfold beat_counters.
  rewrite Hi, (push_follows D MB CW rc_last delay HD HD3 _ l t (r_in D i) _ _ (di_ar_id i)) by done.
  destruct (indices_follow D MB CW rc_last HD HD3 _ l t Hwf Hc) as (-> & _ & _).
  assert (beats_at l (length (l_reqs l)) = []) as Hnil.
  { unfold beats_at. by rewrite lookup_ge_None_2. }
  assert ((if di_ar_valid i && di_ar_ready i then <[slot D (length (l_reqs l)) := 0]> (dr_input_beat_counters s)
           else dr_input_beat_counters s) !! slot D n = Some (u8 (Z.of_nat (length (beats_at l n))))) as Hc1.
  { destruct (di_ar_valid i && di_ar_ready i); [|apply Hcnt; lia].
    destruct (decide (n = length (l_reqs l))) as [->|Hne].
    - rewrite list_lookup_insert_eq by (rewrite Hlen; by apply slot_lt). by rewrite Hnil.
    - pose proof (env_ok_req D MB rc_last _ _ (di_ar_id i) Henv Hq).
      rewrite list_lookup_insert_ne; [apply Hcnt; lia|]. intros Hs. apply slot_inj in Hs; lia. }
  assert (n < l_done l + D)%nat as Hn1.
  { destruct (di_ar_valid i && di_ar_ready i); [|lia].
    pose proof (env_ok_req D MB rc_last _ _ (di_ar_id i) Henv Hq). lia. }
  unfold beat_for. destruct (ci_resp (r_in D i)) as [[idx b]|] eqn:Hr; cbn in Hr;
    destruct (di_r_valid i) eqn:Hv; try done; [|by rewrite Nat.add_0_r].
  destruct (Hok idx b) as (Hi' & Hin & _); [by cbn; rewrite Hv|].
  injection Hr as -> <-. destruct (req_of_idx_spec D HD3 idx l Hi') as [Hsl Hrr].
  case_decide as He; [subst n|].
  - rewrite Hsl, list_lookup_insert_eq.
    + pose proof (Hcnt (req_of_idx D idx l) ltac:(lia)) as Hx. rewrite Hsl in Hx. rewrite Hx.
      f_equal. cbn [from_option id length]. unfold u8. rewrite Zplus_mod_idemp_l.
      f_equal. lia.
    + destruct (di_ar_valid i && di_ar_ready i); by rewrite ?length_insert, Hlen.
  - rewrite Nat.add_0_r, list_lookup_insert_ne; [done|]. intros Hs. rewrite <- Hsl in Hs at 1. apply slot_inj in Hs; lia.
Qed.

Lemma r_beat_step delay i s l t :
  0 < delay → di_delay i = delay → env_ok D MB rc_last (r_in D i) l = true → r_rel s l t →
  next_output_beat_idx D CW i s = Z.of_nat (l_sent (spec_step D CW rc_last delay t (r_in D i) l)).
Proof.
  intros Hd Hi Henv Hr. pose proof Hr as [Hwf _ _ Hbt _ _].
  pose proof (lw_sent _ _ _ _ _ (log_wf_step D MB CW rc_last delay HD3 t _ l Henv Hwf)) as Hs'.
  destruct (r_send delay i s l t Hd Hi Hr) as (Hs & Hl & _ & _).
  pose proof (spec_step_pos D CW rc_last delay t (r_in D i) l) as Hp. cbv zeta in Hp. cbn [ci_ready r_in] in Hp.
  unfold next_output_beat_idx. rewrite Hi. destruct (Z.eqb_spec delay 0); [lia|].
  rewrite Hs in *. destruct (spec_out _ _ _ _ _) as [[id b]|]; cbn in *; [|by destruct Hp as [_ ->]].
  rewrite Hl. destruct (rc_last b); destruct Hp as [_ Hp]; rewrite Hp in *; [done|].
  rewrite Hbt. unfold u8. rewrite Z.mod_small; lia.
Qed.

Lemma r_conn delay i s l t :
  0 < delay → di_delay i = delay → env_ok D MB rc_last (r_in D i) l = true → r_rel s l t →
  chan_conn D MB CW rc_last delay l t (r_in D i) (di_ar_valid i) (di_ar_ready i) (di_ar_id i)
    (di_r_valid i) (r_ram_rd_addr D MB CW i s) (r_ram_wr_addr D MB i s)
    (send_r_resp_out D CW i s && r_rd_last s) (di_r i).
Proof.
  intros Hd Hi Henv Hr. pose proof Hr as [Hwf Hc _ Hbt _ Hcnt].
  destruct (r_send delay i s l t Hd Hi Hr) as (Hs & Hl & Hv & _).
  pose proof (env_ok_resp D MB rc_last HD3 _ _ Henv) as Hok.
  split; [done| | |done].
  - cbn. destruct (di_r_valid i) eqn:Hrv; [|done]. split_and!; [done..|].
    destruct (Hok (wr_index D (rc_id (di_r i))) (di_r i)) as (Hx & Hin & Hlen & _); [by cbn; rewrite Hrv|].
    destruct (req_of_idx_spec D HD3 _ l Hx) as [Hsl Hrr].
    unfold r_ram_wr_addr. rewrite Hi. destruct (Z.eqb_spec delay 0); [lia|].
    pose proof (Hcnt (req_of_idx D (wr_index D (rc_id (di_r i))) l) ltac:(lia)) as Hy.
    rewrite Hsl in Hy. rewrite Hy. cbn [from_option id]. unfold u8. rewrite Z.mod_small by lia.
    by apply r_ram_addr_small.
  - unfold r_ram_rd_addr. rewrite Hi, (r_beat_step delay i s l t) by done.
    destruct (Z.eqb_spec delay 0); [lia|].
    destruct (indices_follow D MB CW rc_last HD HD3 _ l t Hwf Hc) as (_ & -> & ->).
    pose proof (log_wf_step D MB CW rc_last delay HD3 t _ l Henv Hwf) as [_ Hs' _].
    pose proof (spec_step_pos D CW rc_last delay t (r_in D i) l) as Hp. cbv zeta in Hp. cbn [ci_ready r_in] in Hp.
    rewrite <- andb_assoc, (andb_comm (dl_vrd _)), andb_assoc, Hl, Hs.
    destruct (spec_out CW delay t (di_r_ready i) l) as [[id b]|]; cbn [from_option snd andb] in *.
    + rewrite Hv by eauto. rewrite andb_true_r. destruct (rc_last b); destruct Hp as [Hp1 Hp2]; rewrite Hp1;
        apply r_ram_addr_small; done || by apply slot_lt.
    + destruct Hp as [Hp1 Hp2]. rewrite Hp1, Hp2, Hbt in *. apply r_ram_addr_small; [by apply slot_lt|done].
Qed.

Lemma r_step delay i s l t :
  0 < delay → di_delay i = delay → env_ok D MB rc_last (r_in D i) l = true → r_rel s l t →
  r_rel (delay_resp_clk D MB CW true i s) (spec_step D CW rc_last delay t (r_in D i) l) (t + 1).
Proof.
  intros Hd Hi Henv Hr. pose proof (r_conn delay i s l t Hd Hi Henv Hr) as Hconn.
  pose proof Hr as [Hwf Hc Ht Hbt Hlen _]. split.
  - by apply log_wf_step.
  - unfold delay_resp_clk. cbn [dr_r]. rewrite Hi, Ht. destruct (Z.eqb_spec delay 0); [lia|].
    cbn [negb andb]. by apply chan_step.
  - unfold delay_resp_clk. cbn [dr_timer]. by rewrite Ht, Zplus_mod_idemp_l.
  - by apply r_beat_step.
  - unfold delay_resp_clk, beat_counters. cbn [dr_input_beat_counters].
    by destruct (push_en _ _ _ _ _), (di_r_valid i); rewrite ?length_insert.
  - by apply r_counters.
Qed.
End module.

(** ** The B channel *)

Section b_module.
Variables (D MB : nat) (CW IW : Z).
Hypothesis HD : pow2_depth D.
Hypothesis HD3 : (3 ≤ D)%nat.

Record b_rel (s : delay_resp) (l : tlog b_chan) (t : Z) : Prop := {
  bx_wf : log_wf D 1 (λ _, true) t l;
  bx_chan : chan_rel D 1 CW (dr_b s) l t;
  bx_timer : dr_timer s = t mod 2 ^ CW
}.

Lemma b_send delay i s l t :
  0 < delay → di_delay_w i = delay → b_rel s l t →
  let o := spec_out CW delay t (di_b_ready i) l in
  send_b_resp_out D CW i s = from_option (λ _, true) false o ∧
  (is_Some o → dl_vrd (dr_b s) = true) ∧
  ∀ id b, o = Some (id, b) → resp_id (dr_b s) = id ∧ dl_drd (dr_b s) = Some b.
Proof.
  intros Hd Hi [Hwf Hc Ht] o. unfold send_b_resp_out. rewrite Hi, Ht.
  destruct (send_follows D 1 CW (λ _, true) delay HD HD3 (dr_b s) l t (di_b_ready i) Hd Hwf Hc) as [Hs Ho].
  fold o in Hs, Ho. split_and!; [done|intros [x Hx]|done].
  rewrite Hx in Hs. unfold send_resp in Hs. cbn in Hs.
  apply andb_true_iff in Hs as [Hs _]. by apply andb_true_iff in Hs as [_ ->].
Qed.

Lemma b_out_follows delay i s l t :
  0 < delay → di_delay_w i = delay → b_rel s l t →
  b_out (delay_resp_comb D CW IW i s) = b_answer <$> spec_out CW delay t (di_b_ready i) l.
Proof.
  intros Hd Hi Hr. destruct (b_send delay i s l t Hd Hi Hr) as (Hs & Hv & Ho).
  unfold b_out, delay_resp_comb. rewrite Hi. destruct (Z.eqb_spec delay 0); [lia|]. rewrite Hs.
  destruct (spec_out _ _ _ _ _) as [[id b]|]; cbn.
  - rewrite Hv by eauto. destruct (Ho id b eq_refl) as [-> ->].
    destruct (di_delay i =? 0); [done|]. by destruct (send_r_resp_out _ _ _ _).
  - destruct (di_delay i =? 0); [done|]. by destruct (send_r_resp_out _ _ _ _).
Qed.

Lemma b_conn delay i s l t :
  0 < delay → di_delay_w i = delay → env_ok D 1 (λ _, true) (b_in D i) l = true → b_rel s l t →
  chan_conn D 1 CW (λ _, true) delay l t (b_in D i) (di_aw_valid i) (di_aw_ready i) (di_aw_id i)
    (di_b_valid i) (b_ram_rd_addr D CW i s) (b_ram_wr_addr D i) (send_b_resp_out D CW i s) (di_b i).
Proof.
  intros Hd Hi Henv Hr. pose proof Hr as [Hwf Hc _].
  destruct (b_send delay i s l t Hd Hi Hr) as (Hs & Hv & _).
  pose proof (env_ok_resp D 1 _ HD3 _ _ Henv) as Hok.
  split; [done| | |].
  - cbn. destruct (di_b_valid i) eqn:Hrv; [|done]. split_and!; [done..|].
    destruct (Hok (wr_index D (bc_id (di_b i))) (di_b i)) as (_ & _ & Hlen & _); [by cbn; rewrite Hrv|].
    unfold b_ram_wr_addr. rewrite Hi. destruct (Z.eqb_spec delay 0); lia.
  - unfold b_ram_rd_addr. rewrite Hi. destruct (Z.eqb_spec delay 0); [lia|].
    destruct (indices_follow D 1 CW _ HD HD3 _ l t Hwf Hc) as (_ & -> & ->).
    pose proof (log_wf_step D 1 CW _ delay HD3 t _ l Henv Hwf) as [_ Hs' _].
    pose proof (spec_step_pos D CW (λ _, true) delay t (b_in D i) l) as Hp. cbv zeta in Hp. cbn [ci_ready b_in] in Hp.
    rewrite Hs. destruct (spec_out CW delay t (di_b_ready i) l) as [[id b]|]; cbn [from_option andb] in *.
    + rewrite Hv by eauto. destruct Hp as [-> ->]. lia.
    + destruct Hp as [-> Hp]. rewrite Hp in *. lia.
  - rewrite Hs. cbn. by destruct (spec_out _ _ _ _ _).
Qed.

Lemma b_step delay i s l t :
  0 < delay → di_delay_w i = delay → env_ok D 1 (λ _, true) (b_in D i) l = true → b_rel s l t →
  b_rel (delay_resp_clk D MB CW true i s) (spec_step D CW (λ _, true) delay t (b_in D i) l) (t + 1).
Proof.
  intros Hd Hi Henv Hr. pose proof (b_conn delay i s l t Hd Hi Henv Hr) as Hconn.
  pose proof Hr as [Hwf Hc Ht]. split.
  - by apply log_wf_step.
  - unfold delay_resp_clk. cbn [dr_b]. rewrite Hi, Ht. destruct (Z.eqb_spec delay 0); [lia|].
    cbn [negb andb]. by apply chan_step.
  - unfold delay_resp_clk. cbn [dr_timer]. by rewrite Ht, Zplus_mod_idemp_l.
Qed.
End b_module.

(** ** Traces *)

Lemma delivered_trace {E} D MB CW (is_last : E → bool) delay ins t l :
  (3 ≤ D)%nat → log_wf D MB is_last t l → log_bursts is_last l →
  env_trace D MB CW is_last delay t l ins = true →
  delivered (spec_log D CW is_last delay t l ins) =
  delivered l ++ omap id (spec_trace D CW is_last delay t l ins).
Proof.
  intros HD3. revert t l; induction ins as [|i ins IH]; intros t l Hwf Hb;
    cbn [env_trace spec_log spec_trace].
  - intros _. by rewrite app_nil_r.
  - intros [Henv Htr]%andb_true_iff.
    rewrite IH; [|by apply log_wf_step|by eapply log_bursts_step|done].
    rewrite (delivered_step D MB CW is_last delay HD3 t i l Henv Hwf Hb). rewrite <- app_assoc. f_equal.
    destruct (spec_out _ _ _ _ _); done.
Qed.

Definition delay_resp_sized (D MB : nat) (s : delay_resp) : Prop :=
  delay_sized D MB (dr_r s) ∧ delay_sized D 1 (dr_b s).

(** Two cycles in reset. *)
Definition delay_reset (D MB : nat) (CW : Z) (i1 i2 : delay_in) (s : delay_resp) : delay_resp :=
  delay_resp_clk D MB CW false i2 (delay_resp_clk D MB CW false i1 s).

Lemma r_reset D MB CW i1 i2 s :
  pow2_depth D → (1 ≤ MB)%nat → delay_resp_sized D MB s → r_rel D MB CW (delay_reset D MB CW i1 i2 s) log0 0.
Proof.
  intros HD HMB [Hr _]. split.
  - by apply log0_wf.
  - apply reset_again; [done..|by apply reset_sized|apply reset_ports|apply reset_ports].
  - done.
  - done.
  - exact (length_replicate D (0 : Z)).
  - cbn. lia.
Qed.

Lemma b_reset D MB CW i1 i2 s :
  pow2_depth D → delay_resp_sized D MB s → b_rel D CW (delay_reset D MB CW i1 i2 s) log0 0.
Proof.
  intros HD [_ Hb]. split.
  - by apply log0_wf.
  - apply reset_again; [done..|by apply reset_sized|apply reset_ports|apply reset_ports].
  - done.
Qed.

Lemma r_trace_follows D MB CW IW delay ins s l t :
  pow2_depth D → (3 ≤ D)%nat → (1 ≤ MB ≤ 256)%nat → 0 < delay →
  Forall (λ i, di_delay i = delay) ins → r_rel D MB CW s l t →
  env_trace D MB CW rc_last delay t l (r_in D <$> ins) = true →
  r_out <$> delay_trace D MB CW IW s ins =
  fmap r_answer <$> spec_trace D CW rc_last delay t l (r_in D <$> ins).
Proof.
  intros HD HD3 HMB Hd Hf. revert s l t; induction Hf as [|i ins Hi _ IH]; intros s l t Hr; cbn; [done|].
  intros [Henv Htr]%andb_true_iff. f_equal.
  - by apply (r_out_follows D MB CW IW HD HD3 HMB delay).
  - apply IH; [|done]. by apply r_step.
Qed.

Lemma b_trace_follows D MB CW IW delay ins s l t :
  pow2_depth D → (3 ≤ D)%nat → 0 < delay →
  Forall (λ i, di_delay_w i = delay) ins → b_rel D CW s l t →
  env_trace D 1 CW (λ _, true) delay t l (b_in D <$> ins) = true →
  b_out <$> delay_trace D MB CW IW s ins =
  fmap b_answer <$> spec_trace D CW (λ _, true) delay t l (b_in D <$> ins).
Proof.
  intros HD HD3 Hd Hf. revert s l t; induction Hf as [|i ins Hi _ IH]; intros s l t Hr; cbn; [done|].
  intros [Henv Htr]%andb_true_iff. f_equal.
  - by apply (b_out_follows D CW IW HD HD3 delay).
  - apply IH; [|done]. by apply b_step.
Qed.

Lemma omap_fmap_option {A B} (f : A → B) (l : list (option A)) : omap id (fmap f <$> l) = f <$> omap id l.
Proof. induction l as [|[x|] l IH]; cbn; rewrite ?IH; done. Qed.

(** C25: The R channel of the response delay is exact. After two cycles of
    reset from any state, for every input sequence in which no request is
    accepted while MaxInFlight are open and beats come only for open requests
    (at most MaxBeatsPerBurst, ending with the last one): in every cycle the
    core gets a beat exactly when the log of requests says so, that is, the
    oldest unanswered beat when it came at least three cycles ago, the request
    is at least delay_cycles old on the timer's width and the core is ready;
    and all the beats the core got are, in request order, under the original
    ids and each exactly once, the beats the crossbar returned. *)
Theorem delay_r_exact D MB CW IW delay i1 i2 s0 ins :
  pow2_depth D → (3 ≤ D)%nat → (1 ≤ MB ≤ 256)%nat → 0 < delay → delay_resp_sized D MB s0 →
  Forall (λ i, di_delay i = delay) ins →
  env_trace D MB CW rc_last delay 0 log0 (r_in D <$> ins) = true →
  let out := r_out <$> delay_trace D MB CW IW (delay_reset D MB CW i1 i2 s0) ins in
  out = fmap r_answer <$> spec_trace D CW rc_last delay 0 log0 (r_in D <$> ins) ∧
  omap id out = r_answer <$> delivered (spec_log D CW rc_last delay 0 log0 (r_in D <$> ins)).
Proof.
  intros HD HD3 HMB Hd Hs Hf Htr out. pose proof (r_reset D MB CW i1 i2 s0 HD ltac:(lia) Hs) as Hr.
  pose proof (r_trace_follows D MB CW IW delay ins _ _ 0 HD HD3 HMB Hd Hf Hr Htr) as Ho. fold out in Ho.
  split; [done|]. rewrite Ho, omap_fmap_option.
  by rewrite (delivered_trace D MB) by (done || apply Hr || apply log0_bursts).
Qed.

(** The same of the B channel, whose responses are single beats. *)
Theorem delay_b_exact D MB CW IW delay i1 i2 s0 ins :
  pow2_depth D → (3 ≤ D)%nat → 0 < delay → delay_resp_sized D MB s0 →
  Forall (λ i, di_delay_w i = delay) ins →
  env_trace D 1 CW (λ _, true) delay 0 log0 (b_in D <$> ins) = true →
  let out := b_out <$> delay_trace D MB CW IW (delay_reset D MB CW i1 i2 s0) ins in
  out = fmap b_answer <$> spec_trace D CW (λ _, true) delay 0 log0 (b_in D <$> ins) ∧
  omap id out = b_answer <$> delivered (spec_log D CW (λ _, true) delay 0 log0 (b_in D <$> ins)).
Proof.
  intros HD HD3 Hd Hs Hf Htr out. pose proof (b_reset D MB CW i1 i2 s0 HD Hs) as Hr.
  pose proof (b_trace_follows D MB CW IW delay ins _ _ 0 HD HD3 Hd Hf Hr Htr) as Ho. fold out in Ho.
  split; [done|]. rewrite Ho, omap_fmap_option.
  by rewrite (delivered_trace D 1) by (done || apply Hr || apply log0_bursts).
Qed.

(** With a delay of 0 the channels are wires. *)
Lemma delay_bypass D CW IW i s :
  di_delay i = 0 → di_delay_w i = 0 → 0 ≤ rc_id (di_r i) < 2 ^ IW → 0 ≤ bc_id (di_b i) < 2 ^ IW →
  delay_resp_comb D CW IW i s =
  Delay_out (di_aw_ready i) (di_ar_ready i) (di_w_ready i) (di_b_valid i) (di_b i)
    (di_r_valid i) (di_r i) (di_ar_id i) (di_aw_id i).
Proof.
  intros Hd Hw Hr Hb. unfold delay_resp_comb. rewrite Hd, Hw. cbn. rewrite !Z.mod_small by done.
  by destruct i as [? ? ? ? ? ? ? ? ? ? ? ? [] ? []].
Qed.

(** ** Concrete runs *)

(** A cycle of the read channel: an accepted request, a beat with its id. *)
Definition r_cycle (delay : Z) (ar : option Z) (r : option r_chan) : delay_in :=
  Delay_in delay 0 (default 0 ar) (bool_decide (is_Some ar)) true 0 false true true true true
    (bool_decide (is_Some r)) (default r_zero r) false b_zero.
Definition delay_sample_state (D MB : nat) : delay_resp :=
  Delay_resp
    (Delay_fifo (Rv_fifo (replicate D None) None 1 3 false None) [] [] (replicate (D * MB) true) true
       (replicate (D * MB) None) None)
    (Delay_fifo (Rv_fifo (replicate D None) None 1 3 false None) [] [] (replicate (D * 1) true) true
       (replicate (D * 1) None) None) 7 3 [].
Definition delay_sample_ins : list delay_in :=
  [r_cycle 2 (Some 9) None; r_cycle 2 (Some 5) None;
   r_cycle 2 None (Some (R_chan 1 70 0 true 0)); r_cycle 2 None (Some (R_chan 0 71 0 false 0));
   r_cycle 2 None (Some (R_chan 0 72 0 true 0))] ++ replicate 6 (r_cycle 2 None None).

(** The second request is answered first, and delivered second. *)
Lemma delay_r_exact_witness :
  env_trace 4 2 16 rc_last 2 0 log0 (r_in 4 <$> delay_sample_ins) = true ∧
  omap id (r_out <$> delay_trace 4 2 16 4 (delay_reset 4 2 16 (r_cycle 2 None None) (r_cycle 2 None None)
    (delay_sample_state 4 2)) delay_sample_ins) =
  r_answer <$> delivered (spec_log 4 16 rc_last 2 0 log0 (r_in 4 <$> delay_sample_ins)) ∧
  r_answer <$> delivered (spec_log 4 16 rc_last 2 0 log0 (r_in 4 <$> delay_sample_ins)) =
  [R_chan 9 71 0 false 0; R_chan 9 72 0 true 0; R_chan 5 70 0 true 0].
Proof.
  split; [vm_compute; reflexivity|]. split; [|vm_compute; reflexivity].
  apply (delay_r_exact 4 2 16 4 2); [|lia|lia|lia| | |vm_compute; reflexivity].
  - exists 2. split; [lia|reflexivity].
  - repeat split.
  - repeat constructor.
Defined.

(** With two entries the entry of a request that was just answered can be the
    next head: the second request gets the beat of the request answered
    before, one cycle after its own request. *)
Example delay_two_entries :
  let ins := [r_cycle 1 (Some 9) None; r_cycle 1 (Some 5) (Some (R_chan 0 70 0 true 0));
              r_cycle 1 None (Some (R_chan 1 71 0 true 0)); r_cycle 1 None None;
              r_cycle 1 None None; r_cycle 1 (Some 6) None;
              r_cycle 1 None None; r_cycle 1 None None] in
  env_trace 2 1 16 rc_last 1 0 log0 (r_in 2 <$> ins) = true ∧
  r_out <$> delay_trace 2 1 16 4 (delay_reset 2 1 16 (r_cycle 1 None None) (r_cycle 1 None None)
    (delay_sample_state 2 1)) ins =
  [None; None; None; None; Some (R_chan 9 70 0 true 0); Some (R_chan 5 71 0 true 0);
   Some (R_chan 6 70 0 true 0); None].
Proof. split; vm_compute; reflexivity. Qed.

(** A request accepted while all entries are in use is passed on under the id
    of the oldest open one and is not recorded. *)
Example delay_full :
  let ins := (λ id, r_cycle 1 (Some id) None) <$> [10; 11; 12; 13; 14] in
  do_ar_id <$> delay_trace 4 1 16 4 (delay_reset 4 1 16 (r_cycle 1 None None) (r_cycle 1 None None)
    (delay_sample_state 4 1)) ins = [0; 1; 2; 3; 0] ∧
  do_ar_ready <$> delay_trace 4 1 16 4 (delay_reset 4 1 16 (r_cycle 1 None None) (r_cycle 1 None None)
    (delay_sample_state 4 1)) ins = [true; true; true; true; true].
Proof. split; vm_compute; reflexivity. Qed.
