(* ===== verification/Axi.v ===== *)
(** * Axi: AXI channel types and atomic operations (src/transactors/axi_sw/axi.{h,cpp})

    The channel payloads, the decoding of AWATOP and the data path of atomic
    transactions.  [SafeQueue] is a FIFO: the list of its elements, oldest
    first.  A failed [assert] is [None]. *)

From S2P Require Import Prelude Bytes.

Inductive burst_t := BURST_FIXED | BURST_INCR | BURST_WRAP.
#[export] Instance burst_t_eq_dec : EqDecision burst_t.
Proof. solve_decision. Defined.

(** [resp_t] is combined with bitwise or, so it is kept as its encoding. *)
Definition RESP_OKAY : Z := 0.
Definition RESP_EXOKAY : Z := 1.
Definition RESP_SLVERR : Z := 2.
Definition RESP_DECERR : Z := 3.

Inductive atop_transaction :=
| NON_ATOMIC | ATOMIC_STORE | ATOMIC_LOAD | ATOMIC_SWAP | ATOMIC_COMPARE.
#[export] Instance atop_transaction_eq_dec : EqDecision atop_transaction.
Proof. solve_decision. Defined.

Inductive atop_operation :=
| ATOP_ADD | ATOP_CLR | ATOP_EOR | ATOP_SET
| ATOP_SMAX | ATOP_SMIN | ATOP_UMAX | ATOP_UMIN | ATOP_INVALID.
#[export] Instance atop_operation_eq_dec : EqDecision atop_operation.
Proof. solve_decision. Defined.

Record atop_t := Atop_t { atop_txn : atop_transaction; atop_op : atop_operation }.

(** The enumerators by value; AWATOP has 6 bits, so [raw >> 4] is at most 3.
    Operation codes above 7 name no operation. *)
Definition atop_transaction_of (n : Z) : atop_transaction :=
  if n =? 0 then NON_ATOMIC else if n =? 1 then ATOMIC_STORE
  else if n =? 2 then ATOMIC_LOAD else if n =? 3 then ATOMIC_SWAP else ATOMIC_COMPARE.
Definition atop_operation_of (n : Z) : atop_operation :=
  if n =? 0 then ATOP_ADD else if n =? 1 then ATOP_CLR else if n =? 2 then ATOP_EOR
  else if n =? 3 then ATOP_SET else if n =? 4 then ATOP_SMAX else if n =? 5 then ATOP_SMIN
  else if n =? 6 then ATOP_UMAX else if n =? 7 then ATOP_UMIN else ATOP_INVALID.

Definition atop_of_raw (raw : Z) : atop_t :=
  Atop_t (atop_transaction_of (if raw ≫ 4 =? 3 then (raw ≫ 4) + (raw &&& 1) else raw ≫ 4))
         (atop_operation_of (raw &&& 0xf)).

(** Address channel beat.  [cache_mem_attr_t] is kept as its encoding:
    [DEV_NBUF] = 0, [DEV_BUF] = 1 and so on. *)
Definition DEV_BUF : Z := 1.

Record a_t := A_t {
  a_w : bool;
  a_id : Z;
  a_addr : Z;
  a_len : Z;
  a_size : Z;
  a_burst : burst_t;
  a_lock : bool;
  a_cache : Z;
  a_prot : Z;
  a_qos : Z;
  a_region : Z;
  a_atop : atop_t;
  a_user : Z;
  a_exp_err_rsp : bool;
  a_allow_decerr_resp : bool;
  a_allow_slverr_resp : bool;
  a_seqid : Z
}.
#[export] Instance eta_a_t : Eta a_t := λ a,
  A_t (a_w a) (a_id a) (a_addr a) (a_len a) (a_size a) (a_burst a) (a_lock a) (a_cache a)
    (a_prot a) (a_qos a) (a_region a) (a_atop a) (a_user a) (a_exp_err_rsp a)
    (a_allow_decerr_resp a) (a_allow_slverr_resp a) (a_seqid a).

Record w_beat := W_beat { wb_data : list Z; wb_strb : list bool; wb_last : Z }.
Record r_beat := R_beat { rb_id : Z; rb_resp : Z; rb_data : list Z; rb_last : bool }.
Record b_beat := B_beat { bb_id : Z; bb_resp : Z }.

(** ** Queues *)

Definition enqueue {A} (x : A) (q : list A) : list A := q ++ [x].
Definition try_dequeue {A} (q : list A) : option A * list A :=
  match q with [] => (None, []) | x :: q' => (Some x, q') end.
Definition try_peek {A} (q : list A) : option A := head q.

(** ** Atomic arithmetic *)

(** The value of [len] bytes in a signed or unsigned type of that width. *)
Definition to_signed (bits x : Z) : Z := if x <? 2 ^ (bits - 1) then x else x - 2 ^ bits.

Definition atop_arithmetic (sign : bool) (read_data write_data : list Z)
    (op : atop_operation) (len : nat) : option (list Z) :=
  let bits := 8 * Z.of_nat len in
  let conv x := if sign then to_signed bits x else x in
  let read := conv (deserializeInt len read_data) in
  let write := conv (deserializeInt len write_data) in
  let result :=
    match op with
    | ATOP_SMAX | ATOP_UMAX => Some (read `max` write)
    | ATOP_SMIN | ATOP_UMIN => Some (read `min` write)
    | ATOP_ADD => Some ((read + write) mod 2 ^ bits)
    | _ => None
    end in
  result ← result; Some (serializeInt result len write_data).

(** [write_data[i] = op(read_data[i], write_data[i])] for the bytes from [i]
    on, [n] of them left. *)
Fixpoint bitwise_loop (f : Z → Z → Z) (read_data : list Z) (i n : nat) (write_data : list Z)
    : list Z :=
  match n with
  | O => write_data
  | S n' => bitwise_loop f read_data (S i) n'
              (<[i := f (at_z read_data i) (at_z write_data i)]> write_data)
  end.

Definition is_bitwise (op : atop_operation) : bool :=
  match op with ATOP_CLR | ATOP_EOR | ATOP_SET => true | _ => false end.

(** [~x] on a byte. *)
Definition not8 (x : Z) : Z := x ^^^ 0xff.

Definition atop_modify_write_data (atop : atop_t) (read_data write_data : list Z) (len : nat)
    : option (list Z) :=
  match atop_txn atop with
  | NON_ATOMIC | ATOMIC_SWAP => Some write_data
  | ATOMIC_COMPARE => None
  | ATOMIC_STORE | ATOMIC_LOAD =>
      let op := atop_op atop in
      if negb (is_bitwise op) then
        let sign := match op with ATOP_SMIN | ATOP_SMAX => true | _ => false end in
        if ((len =? 1) || (len =? 2) || (len =? 4) || (len =? 8))%nat
        then atop_arithmetic sign read_data write_data op len
        else None
      else
        match op with
        | ATOP_CLR => Some (bitwise_loop (λ r w, r &&& not8 w) read_data 0 len write_data)
        | ATOP_EOR => Some (bitwise_loop Z.lxor read_data 0 len write_data)
        | ATOP_SET => Some (bitwise_loop Z.lor read_data 0 len write_data)
        | _ => None
        end
  end.

(** Returns the match flag and the three updated buffers. *)
Definition atop_compare_write_data (read_data write_data : list Z) (write_strb : list bool)
    (op_bytes swap_index : nat) : bool * list Z * list Z * list bool :=
  let m := bool_decide (take op_bytes read_data = take op_bytes write_data) in
  let write_data' :=
    if m then take op_bytes (drop swap_index write_data) ++ drop op_bytes write_data
    else write_data in
  let write_strb' := imap (λ i s, m && (i <? op_bytes)%nat && s) write_strb in
  let read_data' := take op_bytes read_data ++ replicate (length read_data - op_bytes) 0 in
  (m, read_data', write_data', write_strb').

(** ** Specification of the atomic operations *)

(** The AXI5 operations on unsigned values of [len] bytes. *)
Definition atop_value (op : atop_operation) (bits r w : Z) : Z :=
  match op with
  | ATOP_ADD => (r + w) mod 2 ^ bits
  | ATOP_CLR => r &&& Z.lnot w
  | ATOP_EOR => r ^^^ w
  | ATOP_SET => r ||| w
  | ATOP_SMAX => if to_signed bits r <? to_signed bits w then w else r
  | ATOP_SMIN => if to_signed bits w <? to_signed bits r then w else r
  | ATOP_UMAX => r `max` w
  | ATOP_UMIN => r `min` w
  | ATOP_INVALID => w
  end.

Lemma length_bitwise_loop f rd i n wd : length (bitwise_loop f rd i n wd) = length wd.
Proof. revert i wd; induction n; intros; simpl; [done|]. by rewrite IHn, length_insert. Qed.

Lemma bitwise_loop_lookup f rd i n wd k :
  (i + n ≤ length wd)%nat →
  at_z (bitwise_loop f rd i n wd) k =
  if decide (i ≤ k < i + n)%nat then f (at_z rd k) (at_z wd k) else at_z wd k.
Proof.
  revert i wd; induction n as [|n IH]; intros i wd Hl; simpl.
  - by rewrite decide_False by lia.
  - rewrite IH by (rewrite length_insert; lia). destruct (decide (k = i)) as [->|Hne].
    + rewrite decide_False, decide_True by lia. rewrite at_z_insert_eq by lia. done.
    + rewrite !at_z_insert_ne by done.
      destruct (decide (S i ≤ k < S i + n)%nat), (decide (i ≤ k < i + S n)%nat); (done || lia).
Qed.

(** Byte [k] of a little-endian value. *)
Lemma testbit_le_value bs i :
  Forall is_u8 bs → 0 ≤ i →
  Z.testbit (le_value bs) i = Z.testbit (at_z bs (Z.to_nat (i / 8))) (i mod 8).
Proof.
  intros Hu. revert i; induction Hu as [|b bs Hb _ IH]; intros i Hi.
  { unfold at_z. simpl. by rewrite !Z.testbit_0_l. }
  change (le_value (b :: bs)) with (b + le_value bs * 2 ^ 8).
  rewrite <- lor_shiftl_add by (unfold is_u8 in Hb; lia).
  rewrite Z.lor_spec, Z.shiftl_spec by lia. destruct (decide (i < 8)).
  - rewrite (Z.testbit_neg_r _ (i - 8)) by lia. rewrite orb_false_r, Z.div_small, Z.mod_small by lia. done.
  - rewrite (testbit_above b 8 i) by (unfold is_u8 in Hb; lia). simpl. rewrite IH by lia.
    replace (i - 8) with (i + (-1) * 8) by lia. rewrite Z.div_add, Z.mod_add by lia.
    assert (1 ≤ i / 8) by (apply Z.div_le_lower_bound; lia).
    replace (Z.to_nat (i / 8)) with (S (Z.to_nat (i / 8 + -1))) by lia. done.
Qed.

(** A byte-wise operation that acts bit by bit computes the word operation. *)
Lemma bitwise_loop_value f (g : bool → bool → bool) rd wd len i :
  (∀ r w j, is_u8 r → is_u8 w → 0 ≤ j < 8 →
     Z.testbit (f r w) j = g (Z.testbit r j) (Z.testbit w j)) →
  (∀ r w, is_u8 r → is_u8 w → is_u8 (f r w)) →
  Forall is_u8 rd → Forall is_u8 wd → (len ≤ length rd)%nat → (len ≤ length wd)%nat →
  0 ≤ i < 8 * Z.of_nat len →
  Z.testbit (le_value (take len (bitwise_loop f rd 0 len wd))) i =
  g (Z.testbit (le_value (take len rd)) i) (Z.testbit (le_value (take len wd)) i).
Proof.
  intros Hf Hu8 Hr Hw Hlr Hlw Hi.
  assert (0 ≤ i / 8 < Z.of_nat len) as Hq
    by (split; [apply Z.div_pos; lia|apply Z.div_lt_upper_bound; lia]).
  assert (Hat : ∀ l, at_z (take len l) (Z.to_nat (i / 8)) = at_z l (Z.to_nat (i / 8)))
    by (intros l; unfold at_z; by rewrite lookup_take_lt by lia).
  assert (Forall is_u8 (bitwise_loop f rd 0 len wd)) as Hres.
  { apply Forall_lookup. intros k x Hk. apply at_z_Some in Hk. rewrite <- Hk.
    rewrite bitwise_loop_lookup by lia. case_decide; auto with rvt. }
  rewrite !testbit_le_value by (try (by apply Forall_take); lia). rewrite !Hat.
  rewrite bitwise_loop_lookup, decide_True by lia.
  apply Hf; auto with rvt. apply Z.mod_pos_bound. lia.
Qed.

Lemma at_z_lookup_eq (l k : list Z) :
  length l = length k → (∀ i, (i < length l)%nat → at_z l i = at_z k i) → l = k.
Proof.
  intros Hl Hat. apply list_eq_same_length with (length l); [done|done|].
  intros i x y Hi Hx Hy. apply at_z_Some in Hx, Hy. rewrite <- Hx, <- Hy. by apply Hat.
Qed.

Lemma take_serializeInt x n data :
  (n ≤ length data)%nat → take n (serializeInt x n data) = le_bytes n x.
Proof. intros. rewrite serializeInt_spec, take_app_length' by (by rewrite ?length_le_bytes). done. Qed.

Lemma drop_serializeInt x n data :
  (n ≤ length data)%nat → drop n (serializeInt x n data) = drop n data.
Proof. intros. rewrite serializeInt_spec, drop_app_length' by (by rewrite ?length_le_bytes). done. Qed.

Lemma to_signed_mod bits x : 0 < bits → 0 ≤ x < 2 ^ bits → to_signed bits x mod 2 ^ bits = x.
Proof.
  intros Hb Hx. unfold to_signed. destruct (_ <? _); [by apply Z.mod_small|].
  replace (x - 2 ^ bits) with (x + (-1) * 2 ^ bits) by lia.
  rewrite Z.mod_add by lia. by apply Z.mod_small.
Qed.

(** What the data path promises: the addressed bytes hold the result of the
    operation, the others are untouched. *)
Definition atop_result (op : atop_operation) (len : nat) (rd wd res : list Z) : Prop :=
  length res = length wd ∧ drop len res = drop len wd ∧
  le_value (take len res) =
    atop_value op (8 * Z.of_nat len) (le_value (take len rd)) (le_value (take len wd)).

Lemma atop_arithmetic_spec op rd wd len :
  is_bitwise op = false → op ≠ ATOP_INVALID → (0 < len)%nat →
  Forall is_u8 rd → Forall is_u8 wd → (len ≤ length rd)%nat → (len ≤ length wd)%nat →
  ∃ res, atop_arithmetic (match op with ATOP_SMIN | ATOP_SMAX => true | _ => false end)
           rd wd op len = Some res ∧ atop_result op len rd wd res.
Proof.
  intros Hbw Hop Hlen Hr Hw Hlr Hlw.
  pose proof (le_value_range (take len rd) ltac:(by apply Forall_take)) as Hrr.
  pose proof (le_value_range (take len wd) ltac:(by apply Forall_take)) as Hwr.
  rewrite length_take, Nat.min_l in Hrr, Hwr by lia.
  set (bits := 8 * Z.of_nat len) in *.
  assert (Hres : ∀ v x, v mod 2 ^ bits = x →
            atop_value op bits (le_value (take len rd)) (le_value (take len wd)) = x →
            atop_result op len rd wd (serializeInt v len wd)).
  { intros v x Hv Ho. split_and!.
    - apply length_serializeInt.
    - by apply drop_serializeInt.
    - rewrite take_serializeInt, le_value_bytes by done. fold bits. by rewrite Hv, Ho. }
  unfold atop_arithmetic. rewrite !deserializeInt_spec by done. fold bits.
  pose proof (to_signed_mod bits (le_value (take len rd)) ltac:(lia) Hrr) as Hsr.
  pose proof (to_signed_mod bits (le_value (take len wd)) ltac:(lia) Hwr) as Hsw.
  destruct op; try done; cbn [mbind option_bind]; eexists; (split; [done|]);
    eapply Hres; try done; simpl atop_value.
  - rewrite Z.mod_mod by lia. done.
  - destruct (_ <? _) eqn:E; zbool; [rewrite Z.max_r by lia|rewrite Z.max_l by lia]; done.
  - destruct (_ <? _) eqn:E; zbool; [rewrite Z.min_r by lia|rewrite Z.min_l by lia]; done.
  - symmetry. apply Z.mod_small. lia.
  - symmetry. apply Z.mod_small. lia.
Qed.

Lemma le_value_bits_eq (x y n : Z) :
  0 ≤ n → 0 ≤ x < 2 ^ n → (∀ i, n ≤ i → Z.testbit y i = false) →
  (∀ i, 0 ≤ i < n → Z.testbit x i = Z.testbit y i) → x = y.
Proof.
  intros Hn Hx Hy Hb. apply Z.bits_inj'. intros i Hi. destruct (decide (i < n)).
  - apply Hb. lia.
  - rewrite Hy by lia. apply (testbit_above x n); lia.
Qed.

Lemma bitwise_spec op f g rd wd len :
  (∀ r w j, is_u8 r → is_u8 w → 0 ≤ j < 8 →
     Z.testbit (f r w) j = g (Z.testbit r j) (Z.testbit w j)) →
  (∀ r w, is_u8 r → is_u8 w → is_u8 (f r w)) →
  (∀ bits r w i, 0 ≤ i → Z.testbit (atop_value op bits r w) i = g (Z.testbit r i) (Z.testbit w i)) →
  g false false = false →
  Forall is_u8 rd → Forall is_u8 wd → (len ≤ length rd)%nat → (len ≤ length wd)%nat →
  atop_result op len rd wd (bitwise_loop f rd 0 len wd).
Proof.
  intros Hf Hu8 Hg Hg0 Hr Hw Hlr Hlw.
  pose proof (le_value_range (take len rd) ltac:(by apply Forall_take)) as Hrr.
  pose proof (le_value_range (take len wd) ltac:(by apply Forall_take)) as Hwr.
  rewrite length_take, Nat.min_l in Hrr, Hwr by lia.
  assert (Forall is_u8 (bitwise_loop f rd 0 len wd)) as Hres.
  { apply Forall_lookup. intros k x Hk. apply at_z_Some in Hk. rewrite <- Hk.
    rewrite bitwise_loop_lookup by lia. case_decide; auto with rvt. }
  split_and!.
  - apply length_bitwise_loop.
  - apply at_z_lookup_eq; [by rewrite !length_drop, length_bitwise_loop|].
    intros i Hi. unfold at_z. rewrite !lookup_drop.
    fold (at_z (bitwise_loop f rd 0 len wd) (len + i)). fold (at_z wd (len + i)).
    rewrite bitwise_loop_lookup, decide_False by lia. done.
  - apply (le_value_bits_eq _ _ (8 * Z.of_nat len)); [lia| | |].
    + pose proof (le_value_range (take len (bitwise_loop f rd 0 len wd))
        ltac:(by apply Forall_take)) as H.
      by rewrite length_take, length_bitwise_loop, Nat.min_l in H by lia.
    + intros i Hi. rewrite Hg by lia.
      rewrite (testbit_above (le_value (take len rd)) (8 * Z.of_nat len)) by lia.
      by rewrite (testbit_above (le_value (take len wd)) (8 * Z.of_nat len)) by lia.
    + intros i Hi. rewrite Hg by lia. by apply bitwise_loop_value.
Qed.

Lemma byte_lxor r w : is_u8 r → is_u8 w → is_u8 (r ^^^ w).
Proof.
  intros Hr Hw. unfold is_u8. split; [apply Z.lxor_nonneg; unfold is_u8 in *; lia|].
  destruct (decide (r ^^^ w = 0)) as [->|Hne]; [lia|].
  assert (0 ≤ r ^^^ w) by (apply Z.lxor_nonneg; unfold is_u8 in *; lia).
  apply Z.log2_lt_pow2; [lia|]. apply Z.le_lt_trans with (Z.max (Z.log2 r) (Z.log2 w)).
  - apply Z.log2_lxor; unfold is_u8 in *; lia.
  - apply Z.max_lub_lt; [destruct (decide (r = 0)) as [->|]|destruct (decide (w = 0)) as [->|]];
      try (simpl; lia); apply Z.log2_lt_pow2; unfold is_u8 in *; lia.
Qed.

Lemma byte_land r w : is_u8 r → is_u8 (r &&& w).
Proof.
  intros Hr. rewrite <- (Z.mod_small r (2 ^ 8)) by apply Hr. rewrite <- Z.land_ones by lia.
  rewrite <- Z.land_assoc, (Z.land_comm _ w), Z.land_assoc, Z.land_ones by lia. apply u8_range.
Qed.

Lemma byte_lor r w : is_u8 r → is_u8 w → is_u8 (r ||| w).
Proof.
  intros Hr Hw. assert (r ||| w = (r ||| w) mod 2 ^ 8) as ->; [|apply u8_range].
  rewrite <- Z.land_ones, Z.land_lor_distr_l, !Z.land_ones by lia.
  unfold is_u8 in *. by rewrite !Z.mod_small by lia.
Qed.

(** The atomic store/load data path computes the AXI5 operation: for every
    operation and every legal size, the addressed bytes become the operation's
    result on the old memory value and the operand (two's complement for the
    signed ones), and the bytes beyond them are left alone. *)
Theorem atop_modify_spec atop rd wd len :
  atop_txn atop = ATOMIC_STORE ∨ atop_txn atop = ATOMIC_LOAD → atop_op atop ≠ ATOP_INVALID →
  len ∈ [1; 2; 4; 8]%nat →
  Forall is_u8 rd → Forall is_u8 wd → (len ≤ length rd)%nat → (len ≤ length wd)%nat →
  ∃ res, atop_modify_write_data atop rd wd len = Some res ∧
         atop_result (atop_op atop) len rd wd res.
Proof.
  intros Ht Hop Hlen Hr Hw Hlr Hlw.
  assert ((len =? 1) || (len =? 2) || (len =? 4) || (len =? 8) = true)%nat as Hsz
    by (set_unfold in Hlen; destruct Hlen as [-> | [-> | [-> | [-> | []]]]]; done).
  assert (0 < len)%nat as Hpos by (destruct len; [done|lia]).
  unfold atop_modify_write_data.
  destruct (is_bitwise (atop_op atop)) eqn:Eb; cbn [negb].
  - destruct (atop_op atop); try done; eexists; (split; [by destruct Ht as [-> | ->]|]).
    + apply (bitwise_spec _ _ (λ a b, a && negb b)); try done; [|by intros; apply byte_land|].
      * intros r w j _ _ Hj. unfold not8. rewrite Z.land_spec, Z.lxor_spec.
        change 0xff with (Z.ones 8). rewrite Z.ones_spec_low by lia. by destruct (Z.testbit w j).
      * intros bits r w i Hi. simpl. by rewrite Z.land_spec, Z.lnot_spec.
    + apply (bitwise_spec _ _ xorb); try done; [|by apply byte_lxor|]; intros; apply Z.lxor_spec.
    + apply (bitwise_spec _ _ orb); try done; [|by apply byte_lor|]; intros; apply Z.lor_spec.
  - destruct (atop_arithmetic_spec (atop_op atop) rd wd len) as (res & E & Hres); try done.
    exists res. split; [|done]. rewrite Hsz. by destruct Ht as [-> | ->].
Qed.

Lemma atop_modify_spec_witness :
  ∃ res, atop_modify_write_data (atop_of_raw 0x24) [0xff; 0xff; 9; 9] [1; 0; 7; 7] 2 = Some res ∧
         take 2 res = [1; 0].
Proof.
  destruct (atop_modify_spec (atop_of_raw 0x24) [0xff; 0xff; 9; 9] [1; 0; 7; 7] 2)
    as (res & E & _).
  - right. reflexivity.
  - discriminate.
  - set_solver.
  - apply bytes_ok_u8. reflexivity.
  - apply bytes_ok_u8. reflexivity.
  - simpl. lia.
  - simpl. lia.
  - exists res. split; [exact E|]. vm_compute in E. injection E as <-. reflexivity.
Defined.

(** ** AtomicCompare *)

Lemma at_b_imap (f : nat → bool → bool) l i :
  (i < length l)%nat → at_b (imap f l) i = f i (at_b l i).
Proof.
  intros Hi. destruct (lookup_lt_is_Some_2 _ _ Hi) as [b Hb].
  unfold at_b. by rewrite list_lookup_imap, Hb.
Qed.

Lemma atop_compare_spec rd wd strb op swap :
  (op ≤ length rd)%nat → (swap + op ≤ length wd)%nat → (op ≤ length wd)%nat →
  let '(m, rd', wd', strb') := atop_compare_write_data rd wd strb op swap in
  (m = true ↔ take op rd = take op wd) ∧
  (∀ i, (i < length strb)%nat → at_b strb' i = m && (i <? op)%nat && at_b strb i) ∧
  (m = true → take op wd' = take op (drop swap wd)) ∧
  take op rd' = take op rd ∧ length rd' = length rd.
Proof.
  intros Hrd Hsw Hwd. unfold atop_compare_write_data. split_and!.
  - by rewrite bool_decide_eq_true.
  - intros i Hi. by rewrite at_b_imap.
  - intros ->. rewrite take_app_length'; [done|]. rewrite length_take, length_drop. lia.
  - rewrite take_app_length'; [done|]. rewrite length_take. lia.
  - rewrite length_app, length_take, length_replicate. lia.
Qed.
