(* ===== verification/Eam.v ===== *)
(** * Eam: the AXI exclusive access monitor (src/transactors/axi_sw/eam.{hpp,cpp})

    Reservation table, configuration parsing, failure-injection knobs and the
    decision [on_addr].  Each call sees an [eam_in]: the next value of the
    random generator and the reading of the cycle source.  The theorems are
    about arbitrary sequences of transactions through the monitor. *)

From S2P Require Import Prelude Cstd Device AddressMap Axi.
From Stdlib Require Import Ascii.
#[local] Open Scope string_scope.
#[local] Open Scope list_scope.
#[local] Open Scope Z_scope.

Record eam_entry := Eam_entry {
  en_valid : bool;
  en_hart : Z;
  en_id : Z;
  en_rsv_addr : Z;
  en_len : Z;
  en_burst : burst_t;
  en_size : Z;
  en_prot : Z;
  en_cache : Z;
  en_rsv_cycle : Z
}.
#[export] Instance eta_eam_entry : Eta eam_entry := λ e,
  Eam_entry (en_valid e) (en_hart e) (en_id e) (en_rsv_addr e) (en_len e) (en_burst e)
    (en_size e) (en_prot e) (en_cache e) (en_rsv_cycle e).

Definition eam_entry_empty : eam_entry := Eam_entry false 0 0 0 0 BURST_INCR 0 0 0 0.

Record eam_verdict := Eam_verdict {
  allow_write : bool;
  override_resp : bool;
  ev_resp : Z
}.
Definition eam_verdict_default : eam_verdict := Eam_verdict true false RESP_OKAY.

Definition RSV_BYTES : Z := 64.
Definition NUM_ENTRIES : nat := 16.

(** Command-line configuration. *)
Record eam_flags := Eam_flags {
  fl_disable_excl_mon : bool;
  fl_decline_excl_pct : Z;
  fl_pass_invalidate_ratio : string;
  fl_reservation_ttl : Z;
  fl_unsupported_addr : string;
  fl_dam : dam_flags
}.

Record eam := Eam {
  em_t : list eam_entry;
  em_pattern_pass : Z;
  em_pattern_fail : Z;
  em_excl_wr_count : Z;
  em_unsupported : list (Z * Z);
  em_tb_fail_addr : Z;
  em_tb_fail_cnt : Z;
  em_tb_fail_en : bool;
  em_tb_fail_injected : Z;
  em_has_cycle_source : bool;
  em_declined : Z;
  em_forced_fail : Z;
  em_tb_fail : Z;
  em_ttl_fail : Z
}.
#[export] Instance eta_eam : Eta eam := λ m,
  Eam (em_t m) (em_pattern_pass m) (em_pattern_fail m) (em_excl_wr_count m) (em_unsupported m)
    (em_tb_fail_addr m) (em_tb_fail_cnt m) (em_tb_fail_en m) (em_tb_fail_injected m)
    (em_has_cycle_source m) (em_declined m) (em_forced_fail m) (em_tb_fail m) (em_ttl_fail m).

(** ** Construction *)

(** One range of +eam_unsupported_addr. *)
Definition parse_range (range : string) : option (Z * Z) * list event :=
  match range with
  | EmptyString => (None, [])
  | _ =>
      match split_first "-"%char range with
      | None => (None, [EvError])
      | Some (a, b) =>
          match stoull 0 a, stoull 0 b with
          | Some first, Some last =>
              if last <? first then (None, [EvError]) else (Some (first, last), [])
          | _, _ => (None, [EvError])
          end
      end
  end.

Definition parse_unsupported_addr (s : string) : list (Z * Z) * list event :=
  foldl (λ '(rs, evs) range,
           let '(r, e) := parse_range range in
           (match r with Some r => rs ++ [r] | None => rs end, evs ++ e))
        ([], []) (getline_tokens ","%char s).

Definition eam_init : eam :=
  Eam (replicate NUM_ENTRIES eam_entry_empty) 1 0 0 [] 0 0 false 0 false 0 0 0 0.

(** The constructor; the early returns skip the address ranges. *)
Definition eam_new (fl : eam_flags) : eam * list event :=
  match split_first ":"%char (fl_pass_invalidate_ratio fl) with
  | None => (eam_init, [EvError])
  | Some (a, b) =>
      match stoull 10 a, stoull 10 b with
      | Some n, Some e =>
          let n := u32 n in
          let e := u32 e in
          let '(n, e, evs) := if u32 (n + e) =? 0 then (1, 0, [EvError]) else (n, e, []) in
          let '(rs, evs') := parse_unsupported_addr (fl_unsupported_addr fl) in
          (eam_init <| em_pattern_pass := n |> <| em_pattern_fail := e |>
                    <| em_unsupported := rs |>, evs ++ evs')
      | _, _ => (eam_init, [EvError])
      end
  end.

(** ** Trickbox knobs *)

Definition set_tb_fail_addr (addr : Z) (m : eam) : eam :=
  m <| em_tb_fail_addr := addr |> <| em_tb_fail_injected := 0 |>.
Definition set_tb_fail_cnt (cnt : Z) (m : eam) : eam :=
  m <| em_tb_fail_cnt := cnt |> <| em_tb_fail_injected := 0 |>.
Definition set_tb_fail_en (en : bool) (m : eam) : eam :=
  let m := m <| em_tb_fail_en := en |> in
  if en then m <| em_tb_fail_injected := 0 |> else m.
Definition set_cycle_source (installed : bool) (m : eam) : eam :=
  m <| em_has_cycle_source := installed |>.

(** ** Address predicates *)

(** [x << n] on 64 bits; shifts by 64 or more are undefined in C++ and read 0
    here. *)
Definition shl64 (x n : Z) : Z := if n <? 64 then u64 (x ≪ n) else 0.

Definition addr_in_mmr_or_sp (dam : dam_flags) (addr : Z) : bool :=
  let a :=
    if negb (die_id_width dam =? 0) then
      let die_mask := shl64 (u64 (shl64 1 (die_id_width dam) - 1)) (die_id_start_bit dam) in
      addr &&& not64 die_mask
    else addr in
  let mmr_mask := not64 (u64 (shl64 1 (mmr_base_addr dam) - 1)) in
  if (a &&& mmr_mask) =? mmr_base_addr dam then true
  else negb (sp_size dam =? 0) && (sp_base_addr dam <=? a) &&
       (a <=? u64 (sp_base_addr dam + sp_size dam - 1)).

Definition addr_unsupported_by_arg (m : eam) (addr : Z) : bool :=
  existsb (λ '(first, last), (first <=? addr) && (addr <=? last)) (em_unsupported m).

Definition eam_hart_of (a : a_t) : Z := a_user a &&& (Z.of_nat NUM_ENTRIES - 1).
Definition eam_index (hart : Z) : nat := Z.to_nat (hart mod Z.of_nat NUM_ENTRIES).
Definition rsv_base (addr : Z) : Z := addr &&& not64 (RSV_BYTES - 1).

(** ** Decisions *)

Record eam_in := Eam_in { in_rand : Z; in_cycle : Z }.

Definition decline_excl_read (fl : eam_flags) (i : eam_in) : bool :=
  if fl_decline_excl_pct fl <=? 0 then false else in_rand i <? fl_decline_excl_pct fl.

Definition pattern_fail_excl_write (m : eam) : bool * eam :=
  let period := u32 (em_pattern_pass m + em_pattern_fail m) in
  let phase := em_excl_wr_count m mod period in
  (em_pattern_pass m <=? phase,
   m <| em_excl_wr_count ::= λ n, u32 (n + 1) mod period |>).

Definition tb_fail_excl_write (a : a_t) (m : eam) : bool * eam :=
  if negb (em_tb_fail_en m) || (em_tb_fail_cnt m =? 0) then (false, m)
  else if negb (rsv_base (a_addr a) =? rsv_base (em_tb_fail_addr m)) then (false, m)
  else if em_tb_fail_cnt m <=? em_tb_fail_injected m then (false, m)
  else (true, m <| em_tb_fail_injected ::= λ n, u64 (n + 1) |>
                <| em_tb_fail ::= λ n, u64 (n + 1) |>).

Definition current_cycles (fl : eam_flags) (i : eam_in) (m : eam) : Z :=
  if (fl_reservation_ttl fl =? 0) || negb (em_has_cycle_source m) then 0 else in_cycle i.

Definition ttl_expired (fl : eam_flags) (e : eam_entry) (now : Z) (m : eam) : bool * eam :=
  if (fl_reservation_ttl fl =? 0) || negb (en_valid e) then (false, m)
  else
    let age := u64 (now - en_rsv_cycle e) in
    if age <? fl_reservation_ttl fl then (false, m)
    else (true, m <| em_ttl_fail ::= λ n, u64 (n + 1) |>).

Definition fields_match (e : eam_entry) (a : a_t) : bool :=
  (en_rsv_addr e =? a_addr a) && (en_size e =? a_size a) && (en_len e =? a_len a) &&
  bool_decide (en_burst e = a_burst a) && (en_prot e =? a_prot a).

(** Byte span [first, last] touched by the transaction. *)
Definition span (a : a_t) : Z * Z :=
  let num_bytes := shl64 1 (a_size a) in
  let aligned_addr := a_addr a / num_bytes * num_bytes in
  let burst_len := a_len a + 1 in
  let dtsize := u64 (num_bytes * burst_len) in
  match a_burst a with
  | BURST_FIXED => (aligned_addr, u64 (aligned_addr + num_bytes - 1))
  | BURST_WRAP => let first := a_addr a / dtsize * dtsize in (first, u64 (first + dtsize - 1))
  | BURST_INCR => (aligned_addr, u64 (aligned_addr + dtsize - 1))
  end.

(** Whether a write's span reaches the reservation granule of [rsv_addr]. *)
Definition granule_hit (a : a_t) (rsv_addr : Z) : bool :=
  let '(first, last) := span a in
  let rsv_first := rsv_base rsv_addr in
  let rsv_last := u64 (rsv_first + RSV_BYTES - 1) in
  (first <=? rsv_last) && (rsv_first <=? last).

Definition invalidate_overlaps (a : a_t) (m : eam) : eam :=
  let own := eam_index (eam_hart_of a) in
  m <| em_t ::= imap (λ i e,
         if negb (en_valid e) then e
         else if a_lock a && (i =? own)%nat then e
         else if granule_hit a (en_rsv_addr e) then e <| en_valid := false |> else e) |>.

(** [t_[i]] *)
Definition at_e (l : list eam_entry) (i : nat) : eam_entry := default eam_entry_empty (l !! i).

(** [e.valid = false] for entry [i]. *)
Definition drop_entry (i : nat) (m : eam) : eam :=
  m <| em_t ::= λ t, <[i := at_e t i <| en_valid := false |>]> t |>.

(** The exclusive-write half of [on_addr]. *)
Definition excl_write (fl : eam_flags) (i : eam_in) (a : a_t) (m : eam) : eam * eam_verdict :=
  let ix := eam_index (eam_hart_of a) in
  let e := at_e (em_t m) ix in
  let was_valid := en_valid e in
  let '(forced_fail, m) := pattern_fail_excl_write m in
  let '(tb_fail, m) := tb_fail_excl_write a m in
  let '(ttl_fail, m) := ttl_expired fl e (current_cycles fl i m) m in
  let pass := was_valid && fields_match e a && negb forced_fail && negb tb_fail && negb ttl_fail in
  let m := if forced_fail && negb ttl_fail && was_valid && fields_match e a
           then m <| em_forced_fail ::= λ n, u64 (n + 1) |> else m in
  let m := drop_entry ix m in
  (m, if pass then Eam_verdict true true RESP_EXOKAY else Eam_verdict false true RESP_OKAY).

Definition excl_read (fl : eam_flags) (i : eam_in) (a : a_t) (m : eam) : eam * eam_verdict :=
  let hart := eam_hart_of a in
  let ix := eam_index hart in
  if decline_excl_read fl i then
    (drop_entry ix (m <| em_declined ::= λ n, u64 (n + 1) |>), Eam_verdict true true RESP_OKAY)
  else
    (m <| em_t ::= <[ix := Eam_entry true hart (a_id a) (a_addr a) (a_len a) (a_burst a)
                             (a_size a) (a_prot a) (a_cache a) (current_cycles fl i m)]> |>,
     Eam_verdict true true RESP_EXOKAY).

(** The two usage errors [on_addr] reports. *)
Definition on_addr_errors (fl : eam_flags) (a : a_t) (m : eam) : list event :=
  (if a_lock a && negb (bool_decide (atop_txn (a_atop a) = NON_ATOMIC)) then [EvError] else []) ++
  (if a_lock a && (addr_in_mmr_or_sp (fl_dam fl) (a_addr a) || addr_unsupported_by_arg m (a_addr a))
   then [EvError] else []).

Definition on_addr (fl : eam_flags) (i : eam_in) (a : a_t) (m : eam)
    : eam * eam_verdict * list event :=
  if fl_disable_excl_mon fl then (m, eam_verdict_default, [])
  else
    let evs := on_addr_errors fl a m in
    if negb (a_w a) then
      if negb (a_lock a) then (m, eam_verdict_default, evs)
      else let '(m, v) := excl_read fl i a m in (m, v, evs)
    else
      let m := invalidate_overlaps a m in
      if negb (a_lock a) then (m, eam_verdict_default, evs)
      else let '(m, v) := excl_write fl i a m in (m, v, evs).

(** ** Sequences of transactions *)

Definition eam_step (fl : eam_flags) (m : eam) (x : eam_in * a_t) : eam :=
  (on_addr fl x.1 x.2 m).1.1.
Definition eam_run (fl : eam_flags) (tr : list (eam_in * a_t)) (m : eam) : eam :=
  foldl (eam_step fl) m tr.

(** The table index of the requester. *)
Definition own (a : a_t) : nat := eam_index (eam_hart_of a).

(** A transaction that ends a reservation of entry [ix] on [rsv]: a write
    that touches its granule, unless it is the owner's exclusive write, which
    ends it in any case; or the owner's next exclusive read. *)
Definition interferes (ix : nat) (rsv : Z) (a : a_t) : bool :=
  if a_w a then (if a_lock a && (ix =? own a)%nat then true else granule_hit a rsv)
  else a_lock a && (ix =? own a)%nat.

(** The entry an exclusive read installs. *)
Definition entry_of (a : a_t) (cycle : Z) : eam_entry :=
  Eam_entry true (eam_hart_of a) (a_id a) (a_addr a) (a_len a) (a_burst a) (a_size a)
    (a_prot a) (a_cache a) cycle.

Definition eam_wf (m : eam) : Prop := length (em_t m) = NUM_ENTRIES.

Lemma own_bound a : (own a < NUM_ENTRIES)%nat.
Proof.
  unfold own, eam_index. pose proof (Z.mod_pos_bound (eam_hart_of a) (Z.of_nat NUM_ENTRIES)
    ltac:(unfold NUM_ENTRIES; lia)). lia.
Qed.

Lemma at_e_insert t i j e :
  (i < length t)%nat → at_e (<[i := e]> t) j = if decide (i = j) then e else at_e t j.
Proof.
  intros Hi. unfold at_e. case_decide; subst.
  - by rewrite list_lookup_insert_eq.
  - by rewrite list_lookup_insert_ne.
Qed.

Lemma at_e_imap f t i : (i < length t)%nat → at_e (imap f t) i = f i (at_e t i).
Proof.
  intros Hi. destruct (lookup_lt_is_Some_2 _ _ Hi) as [e He].
  unfold at_e. by rewrite list_lookup_imap, He.
Qed.

(** Only the owner's entry of the table changes in an exclusive write. *)
Lemma excl_write_table fl i a m :
  em_t (excl_write fl i a m).1 = <[own a := at_e (em_t m) (own a) <| en_valid := false |>]> (em_t m).
Proof.
  unfold excl_write, pattern_fail_excl_write, tb_fail_excl_write, ttl_expired.
  by repeat (match goal with |- context [if ?b then _ else _] => destruct b end; cbn).
Qed.

(** The table after one transaction, entry by entry. *)
Lemma on_addr_entry fl i a m ix :
  fl_disable_excl_mon fl = false → eam_wf m → (ix < NUM_ENTRIES)%nat →
  let e := at_e (em_t m) ix in
  let e' := at_e (em_t (eam_step fl m (i, a))) ix in
  eam_wf (eam_step fl m (i, a)) ∧
  if a_lock a && negb (a_w a) && (ix =? own a)%nat then
    e' = if decline_excl_read fl i then e <| en_valid := false |>
         else entry_of a (current_cycles fl i m)
  else if en_valid e && interferes ix (en_rsv_addr e) a then en_valid e' = false
  else e' = e ∨ (en_valid e = false ∧ en_valid e' = false).
Proof.
  intros Hdis Hwf Hix. unfold eam_step, on_addr. cbn [fst snd]. rewrite Hdis.
  pose proof (own_bound a) as Hown. unfold eam_wf in *. unfold interferes.
  destruct (a_w a); cbn [negb].
  - rewrite andb_false_r. cbn [andb].
    set (t1 := em_t (invalidate_overlaps a m)).
    assert (length t1 = NUM_ENTRIES) as Hl1 by (unfold t1; simpl; by rewrite length_imap).
    assert (at_e t1 ix = if negb (en_valid (at_e (em_t m) ix)) then at_e (em_t m) ix
              else if a_lock a && (ix =? own a)%nat then at_e (em_t m) ix
              else if granule_hit a (en_rsv_addr (at_e (em_t m) ix))
              then at_e (em_t m) ix <| en_valid := false |> else at_e (em_t m) ix) as Hat
      by (unfold t1; simpl; rewrite at_e_imap by lia; done).
    destruct (a_lock a); cbn [negb andb] in *.
    + pose proof (excl_write_table fl i a (invalidate_overlaps a m)) as Ht.
      destruct (excl_write fl i a _) as [m' v]. cbn [fst snd] in *. fold t1 in Ht.
      rewrite Ht, length_insert. split; [done|]. rewrite at_e_insert by lia.
      destruct (Nat.eqb_spec ix (own a)) as [->|Hne].
      * rewrite decide_True by done. rewrite andb_true_r.
        destruct (en_valid (at_e (em_t m) (own a))); [done|by right].
      * rewrite decide_False by done. rewrite Hat.
        destruct (en_valid (at_e (em_t m) ix)); cbn [negb andb]; [|by left].
        destruct (granule_hit _ _); [done|by left].
    + cbn [fst snd]. fold t1. split; [done|]. rewrite Hat.
      destruct (en_valid (at_e (em_t m) ix)); cbn [negb andb]; [|by left].
      destruct (granule_hit _ _); [done|by left].
  - destruct (a_lock a); cbn [negb andb]; [|split; [done|]; rewrite andb_false_r; by left].
    unfold excl_read, drop_entry. fold (own a).
    destruct (decline_excl_read fl i); cbn; rewrite length_insert; (split; [done|]);
      rewrite at_e_insert by lia; destruct (Nat.eqb_spec ix (own a)) as [->|Hne].
    + by rewrite decide_True.
    + rewrite decide_False, andb_false_r by done. by left.
    + by rewrite decide_True.
    + rewrite decide_False, andb_false_r by done. by left.
Qed.

(** ** Soundness *)

(** A reservation of [ix] taken by the exclusive read [r] and not disturbed
    by the transactions [post]. *)
Definition undisturbed (ix : nat) (r : a_t) (post : list (eam_in * a_t)) : Prop :=
  Forall (λ x, interferes ix (a_addr r) x.2 = false) post.

Definition is_excl_read (a : a_t) : Prop := a_w a = false ∧ a_lock a = true.
Definition is_excl_write (a : a_t) : Prop := a_w a = true ∧ a_lock a = true.

(** Every valid entry stems from an undisturbed exclusive read of its owner. *)
Definition eam_trace_inv (tr : list (eam_in * a_t)) (m : eam) : Prop :=
  eam_wf m ∧ ∀ ix, (ix < NUM_ENTRIES)%nat → en_valid (at_e (em_t m) ix) = true →
    ∃ pre j r post cyc, tr = pre ++ (j, r) :: post ∧ is_excl_read r ∧ own r = ix ∧
      at_e (em_t m) ix = entry_of r cyc ∧ undisturbed ix r post.

Lemma eam_trace_step fl tr m x :
  fl_disable_excl_mon fl = false → eam_trace_inv tr m →
  eam_trace_inv (tr ++ [x]) (eam_step fl m x).
Proof.
  intros Hdis [Hwf Hinv]. destruct x as [i a].
  split; [by apply (on_addr_entry fl i a m 0); [| |unfold NUM_ENTRIES; lia]|].
  intros ix Hix Hv. destruct (on_addr_entry fl i a m ix Hdis Hwf Hix) as [_ Hcase].
  destruct (a_lock a && negb (a_w a) && (ix =? own a)%nat) eqn:Erd.
  - apply andb_true_iff in Erd as [Erd Ho]. apply andb_true_iff in Erd as [El Ew].
    apply Nat.eqb_eq in Ho. apply negb_true_iff in Ew. rewrite Hcase in *.
    destruct (decline_excl_read fl i); [done|].
    exists tr, i, a, [], (current_cycles fl i m). repeat split; try done. constructor.
  - destruct (en_valid (at_e (em_t m) ix)) eqn:Ev; cbn [andb] in Hcase.
    2: { destruct Hcase as [Hc|[_ Hc]]; rewrite Hc in Hv; [by rewrite Hv in Ev|done]. }
    destruct (interferes ix _ a) eqn:Ei; [by rewrite Hcase in Hv|].
    destruct Hcase as [Hc|[? _]]; [|done]. rewrite Hc.
    destruct (Hinv ix Hix Ev) as (pre & j & r & post & cyc & -> & Hr & Hor & He & Hu).
    exists pre, j, r, (post ++ [(i, a)]), cyc. rewrite <- app_assoc. split_and!; try done.
    apply Forall_app. split; [done|]. constructor; [|done]. by rewrite He in Ei.
Qed.

Lemma eam_run_inv fl tr m :
  fl_disable_excl_mon fl = false → eam_trace_inv [] m → eam_trace_inv tr (eam_run fl tr m).
Proof.
  intros Hdis H0. induction tr as [|x tr IH] using rev_ind; [done|].
  unfold eam_run. rewrite foldl_snoc. by apply eam_trace_step.
Qed.

Lemma eam_new_inv fl : eam_trace_inv [] (eam_new fl).1.
Proof.
  assert (em_t (eam_new fl).1 = replicate NUM_ENTRIES eam_entry_empty) as E.
  { unfold eam_new. repeat case_match; by simplify_eq/=. }
  split; [unfold eam_wf; by rewrite E|]. intros ix Hix Hv. rewrite E in Hv.
  unfold at_e in Hv. by rewrite lookup_replicate_2 in Hv.
Qed.

Lemma invalidate_overlaps_own a m :
  eam_wf m → a_lock a = true → at_e (em_t (invalidate_overlaps a m)) (own a) = at_e (em_t m) (own a).
Proof.
  intros Hwf Hl. simpl. pose proof (own_bound a). rewrite at_e_imap by (unfold eam_wf in Hwf; lia).
  rewrite Hl. fold (own a). rewrite Nat.eqb_refl. by destruct (negb _).
Qed.

Lemma excl_write_pass fl i a m :
  allow_write (excl_write fl i a m).2 = true →
  en_valid (at_e (em_t m) (own a)) = true ∧ fields_match (at_e (em_t m) (own a)) a = true.
Proof.
  unfold excl_write. fold (own a). destruct (pattern_fail_excl_write m) as [ff m1].
  destruct (tb_fail_excl_write a m1) as [tb m2].
  destruct (ttl_expired fl _ _ m2) as [ttl m3]. cbn [snd].
  destruct (_ && negb ff && negb tb && negb ttl) eqn:E; [|done]. intros _. zbool. done.
Qed.

(** The control fields that must agree between the read and the write. *)
Definition same_control (r a : a_t) : Prop :=
  a_addr r = a_addr a ∧ a_size r = a_size a ∧ a_len r = a_len a ∧
  a_burst r = a_burst a ∧ a_prot r = a_prot a.

Lemma fields_match_entry r cyc a : fields_match (entry_of r cyc) a = true ↔ same_control r a.
Proof.
  unfold fields_match, same_control. simpl. rewrite !andb_true_iff, !Z.eqb_eq, bool_decide_eq_true.
  tauto.
Qed.


Definition sample_a (w : bool) (addr user : Z) (lock : bool) : a_t :=
  A_t w 3 addr 0 3 BURST_INCR lock 0 0 0 0 (atop_of_raw 0) user false false false 0.
Definition sample_eam_flags : eam_flags :=
  Eam_flags false 0 "1:0" 0 EmptyString (Dam_flags 1 0 0 0 0 0 0 0 0 0 0 0 0 0 0 0 0 0 0 0 0 0 0).
Definition sample_in : eam_in := Eam_in 0 0.


(** ** Progress *)

(** No failure-injection knob is active. *)
Definition eam_neutral (fl : eam_flags) (m : eam) : Prop :=
  fl_decline_excl_pct fl ≤ 0 ∧ fl_reservation_ttl fl = 0 ∧ em_pattern_fail m = 0 ∧
  0 < em_pattern_pass m < 2 ^ 32 ∧ em_tb_fail_en m = false.

Lemma eam_neutral_step fl m x : eam_neutral fl m → eam_neutral fl (eam_step fl m x).
Proof.
  intros (Hp & Ht & Hf & Hn & Htb). destruct x as [i a].
  assert (em_pattern_fail (eam_step fl m (i, a)) = em_pattern_fail m ∧
          em_pattern_pass (eam_step fl m (i, a)) = em_pattern_pass m ∧
          em_tb_fail_en (eam_step fl m (i, a)) = em_tb_fail_en m) as (E1 & E2 & E3).
  { unfold eam_step, on_addr, excl_read, excl_write, pattern_fail_excl_write,
      tb_fail_excl_write, ttl_expired.
    by repeat (match goal with |- context [if ?b then _ else _] => destruct b end; cbn). }
  unfold eam_neutral. rewrite E1, E2, E3. done.
Qed.

Lemma eam_neutral_run fl tr m : eam_neutral fl m → eam_neutral fl (eam_run fl tr m).
Proof.
  revert m; induction tr as [|x tr IH]; intros m Hm; [done|]. by apply IH, eam_neutral_step.
Qed.

Lemma excl_write_neutral fl i a m :
  eam_neutral fl m → en_valid (at_e (em_t m) (own a)) = true →
  fields_match (at_e (em_t m) (own a)) a = true →
  (excl_write fl i a m).2 = Eam_verdict true true RESP_EXOKAY.
Proof.
  intros (Hp & Ht & Hf & Hn & Htb) Hv Hm. unfold excl_write. fold (own a). rewrite Hv, Hm.
  unfold pattern_fail_excl_write. rewrite Hf, Z.add_0_r, u32_small by (split; lia).
  unfold tb_fail_excl_write. cbn [em_tb_fail_en modify]. unfold modify; simpl em_tb_fail_en.
  rewrite Htb. cbn [negb orb]. unfold ttl_expired. rewrite Ht. cbn [Z.eqb orb snd].
  rewrite (proj2 (Z.leb_gt _ _)); [done|]. apply Z.mod_pos_bound. lia.
Qed.

Lemma undisturbed_keeps fl ix r cyc post m :
  fl_disable_excl_mon fl = false → eam_wf m → (ix < NUM_ENTRIES)%nat →
  at_e (em_t m) ix = entry_of r cyc → undisturbed ix r post →
  eam_wf (eam_run fl post m) ∧ at_e (em_t (eam_run fl post m)) ix = entry_of r cyc.
Proof.
  intros Hdis Hwf Hix He Hu. revert m Hwf He.
  induction Hu as [|[i a] post Ha _ IH]; intros m Hwf He; [done|].
  change (eam_run fl ((i, a) :: post) m) with (eam_run fl post (eam_step fl m (i, a))).
  destruct (on_addr_entry fl i a m ix Hdis Hwf Hix) as [Hwf' Hc]. apply IH; [done|].
  cbn [snd] in Ha. rewrite He in Hc. cbn [entry_of en_valid en_rsv_addr andb] in Hc.
  change (en_rsv_addr (entry_of r cyc)) with (a_addr r) in Hc. rewrite Ha in Hc.
  assert (a_lock a && negb (a_w a) && (ix =? own a)%nat = false) as Erd.
  { unfold interferes in Ha. destruct (a_w a); [by rewrite andb_false_r|].
    by rewrite andb_true_r. }
  rewrite Erd in Hc. destruct Hc as [Hc|[? _]]; [done|done].
Qed.

Lemma eam_run_wf fl tr m :
  fl_disable_excl_mon fl = false → eam_wf m → eam_wf (eam_run fl tr m).
Proof.
  intros Hdis. revert m; induction tr as [|[i a] tr IH]; intros m Hwf; [done|].
  apply IH. by apply (on_addr_entry fl i a m 0); [| |unfold NUM_ENTRIES; lia].
Qed.

(** C33: exclusive writes are granted when they should be: with no
    failure-injection knob active, an exclusive read followed by any number of
    transactions that do not disturb its granule and then by the requester's
    exclusive write with the same control fields is answered EXOKAY and let
    through. *)
Theorem eam_exclusive_live fl pre j r post i a :
  fl_disable_excl_mon fl = false → eam_neutral fl (eam_new fl).1 →
  is_excl_read r → is_excl_write a → own r = own a → same_control r a →
  undisturbed (own a) r post →
  (on_addr fl i a (eam_run fl (pre ++ (j, r) :: post) (eam_new fl).1)).1.2 =
  Eam_verdict true true RESP_EXOKAY.
Proof.
  intros Hdis Hneu [Hrw Hrl] [Hw Hl] Ho Hsc Hu.
  unfold eam_run. rewrite foldl_app. simpl foldl. fold (eam_run fl pre (eam_new fl).1).
  set (m0 := eam_run fl pre _). pose proof (own_bound a) as Hown.
  assert (eam_wf m0) as Hwf0 by (apply eam_run_wf; [done|apply (eam_new_inv fl)]).
  pose proof (eam_neutral_run fl pre _ Hneu : eam_neutral fl m0) as Hn0.
  destruct (on_addr_entry fl j r m0 (own a) Hdis Hwf0 Hown) as [Hwf1 Hc].
  rewrite Hrl, Hrw, Ho, Nat.eqb_refl in Hc. cbn [negb andb] in Hc.
  assert (decline_excl_read fl j = false) as Hdec.
  { unfold decline_excl_read. destruct Hn0 as [Hp _]. by rewrite (proj2 (Z.leb_le _ _)). }
  rewrite Hdec in Hc. fold (eam_run fl post (eam_step fl m0 (j, r))).
  destruct (undisturbed_keeps fl (own a) r _ post _ Hdis Hwf1 Hown Hc Hu) as [Hwf2 He].
  pose proof (eam_neutral_run fl post _ (eam_neutral_step fl m0 (j, r) Hn0)) as Hn2.
  set (m := eam_run fl post _) in *. unfold on_addr. rewrite Hdis, Hw, Hl. cbn [negb].
  pose proof (excl_write_neutral fl i a (invalidate_overlaps a m)) as Hfin.
  rewrite invalidate_overlaps_own, He in Hfin by done.
  destruct (excl_write fl i a (invalidate_overlaps a m)) as [m' v]. cbn [fst snd] in *.
  apply Hfin; [done|done|by apply fields_match_entry].
Qed.

Lemma eam_exclusive_live_witness :
  (on_addr sample_eam_flags sample_in (sample_a true 0x80000008 1 true)
     (eam_run sample_eam_flags ([] ++ (sample_in, sample_a false 0x80000008 1 true) ::
        [(sample_in, sample_a true 0x80000040 2 false)]) (eam_new sample_eam_flags).1)).1.2 =
  Eam_verdict true true RESP_EXOKAY.
Proof.
  apply (eam_exclusive_live sample_eam_flags [] sample_in (sample_a false 0x80000008 1 true)
           [(sample_in, sample_a true 0x80000040 2 false)]).
  - reflexivity.
  - split_and!; simpl; try reflexivity; vm_compute; congruence.
  - split; reflexivity.
  - split; reflexivity.
  - reflexivity.
  - split_and!; reflexivity.
  - repeat constructor.
Defined.

(** A malformed pass/fail ratio makes the constructor return before
    +eam_unsupported_addr is parsed: no range is unsupported then. *)
Lemma eam_bad_ratio_skips_ranges fl :
  split_first ":"%char (fl_pass_invalidate_ratio fl) = None → em_unsupported (eam_new fl).1 = [].
Proof. intros E. unfold eam_new. by rewrite E. Qed.
