(* ===== verification/AxiSlave.v ===== *)
(** * AxiSlave: the AXI subordinate (src/transactors/axi_sw/axi.{h,cpp}, class axi)

    [axi::operator()] takes transactions from the address queue in order,
    splits them into beats, performs each beat on the system model through
    the transactor calls and queues the R and B responses.

    The system behind the transactor is the parameter [E] with [send_write]
    and [send_read] (see Device.transactor_write).  A beat whose response never
    comes leaves the coroutine suspended: the outcome [Waiting].  While it is
    suspended [burst_active_] keeps every other activation from starting, and
    new beats only append to the queues, so processing a burst in one step
    loses no interleaving.  A failed assertion is [Aborted]. *)

From S2P Require Import Prelude Bytes Cstd Device Mem Axi Eam BusErrorList.

Inductive outcome (A : Type) := Done (x : A) | Waiting | Aborted.
Arguments Done {A}. Arguments Waiting {A}. Arguments Aborted {A}.

#[export] Instance outcome_bind : MBind outcome := λ A B f o,
  match o with Done x => f x | Waiting => Waiting | Aborted => Aborted end.

(** Access types of the error lists. *)
Definition READ : nat := 0.
Definition WRITE : nat := 1.
Definition NUM_ACCESS_TYPES : nat := 2.

Record axi {E : Type} := Axi {
  ax_bus : Z;                                 (* data_width() / 8 *)
  ax_tid : Z;                                 (* transactor::id_ *)
  ax_a_q : list a_t;
  ax_w_q : list w_beat;
  ax_r_q : list r_beat;
  ax_b_q : list b_beat;
  ax_slverr : bus_error_list;
  ax_decerr : bus_error_list;
  ax_hang : bus_error_list;
  ax_num_slverr : Z;
  ax_num_decerr : Z;
  ax_error_en : bool;
  ax_burst_active : bool;
  ax_dev_in_flight : Z;
  ax_eam : eam;
  ax_env : E
}.
Arguments axi : clear implicits.
Arguments Axi {E}.

#[export] Instance eta_axi E : Eta (axi E) := λ s,
  Axi (ax_bus s) (ax_tid s) (ax_a_q s) (ax_w_q s) (ax_r_q s) (ax_b_q s) (ax_slverr s)
    (ax_decerr s) (ax_hang s) (ax_num_slverr s) (ax_num_decerr s) (ax_error_en s)
    (ax_burst_active s) (ax_dev_in_flight s) (ax_eam s) (ax_env s).

(** ** Configuration *)

Record axi_flags := Axi_flags {
  fl_slverr_addr : string;
  fl_decerr_addr : string;
  fl_hang_addr : string;
  fl_slverr_threshold : Z;
  fl_decerr_threshold : Z;
  fl_slverr_pattern : string;
  fl_decerr_pattern : string;
  fl_err_after_test_start : bool
}.

Definition setup_list (addrs : string) (threshold : Z) (pattern : string) (b : bus_error_list)
    : bus_error_list :=
  let b := bel_parse addrs b in
  let b := set_threshold READ threshold b in
  let b := set_threshold WRITE threshold b in
  let b := set_pattern READ pattern b in
  set_pattern WRITE pattern b.

Definition setup_error_lists {E} (fl : axi_flags) (s : axi E) : axi E :=
  s <| ax_slverr ::= setup_list (fl_slverr_addr fl) (fl_slverr_threshold fl) (fl_slverr_pattern fl) |>
    <| ax_decerr ::= setup_list (fl_decerr_addr fl) (fl_decerr_threshold fl) (fl_decerr_pattern fl) |>.

Definition configure_error {E} (fl : axi_flags) (s : axi E) : axi E :=
  setup_error_lists fl (s <| ax_slverr := bel_new NUM_ACCESS_TYPES |>
                          <| ax_decerr := bel_new NUM_ACCESS_TYPES |>).

Definition enable_error {E} (s : axi E) : axi E := s <| ax_error_en := true |>.
Definition disable_error {E} (s : axi E) : axi E := s <| ax_error_en := false |>.

(** The constructor; [bypass_hang]: the file bypass_axi_hang.txt exists. *)
Definition axi_new {E} (fl : axi_flags) (bypass_hang : bool) (bus : Z) (m : eam) (e : E) : axi E :=
  let hang := if bypass_hang then bel_new 0 else bel_parse (fl_hang_addr fl) (bel_new 0) in
  let s := setup_error_lists fl
    (Axi bus 0 [] [] [] [] (bel_new NUM_ACCESS_TYPES) (bel_new NUM_ACCESS_TYPES) hang
         0 0 true false 0 m e) in
  if fl_err_after_test_start fl then disable_error s else s.

(** Returns whether errors were injected and the reported count. *)
Definition check_error {E} (addr : Z) (s : axi E) : bool * Z :=
  let has_slverr := check_inject_error addr READ (ax_slverr s) in
  let has_decerr := check_inject_error addr READ (ax_decerr s) in
  let slverr_count := default 0 (get_count addr READ (ax_slverr s)) in
  let decerr_count := default 0 (get_count addr READ (ax_decerr s)) in
  let count := if 0 <? slverr_count then slverr_count
               else if 0 <? decerr_count then decerr_count else 0 in
  (ax_error_en s && ((has_slverr && (0 <? slverr_count)) || (has_decerr && (0 <? decerr_count))),
   count).

Definition axi_reset {E} (s : axi E) : axi E :=
  s <| ax_a_q := [] |> <| ax_w_q := [] |> <| ax_r_q := [] |> <| ax_b_q := [] |>
    <| ax_burst_active := false |>.

(** ** Burst geometry *)

Record burst := Burst {
  bu_kind : burst_t;
  bu_num_bytes : Z;
  bu_aligned_addr : Z;
  bu_lower_wrap : Z;
  bu_upper_wrap : Z
}.

Definition burst_of (a : a_t) : burst :=
  let burst_len := a_len a + 1 in
  let num_bytes := shl64 1 (a_size a) in
  let dtsize := u64 (num_bytes * burst_len) in
  let lower := a_addr a / dtsize * dtsize in
  Burst (a_burst a) num_bytes (a_addr a / num_bytes * num_bytes) lower (u64 (lower + dtsize)).

(** The end of the beat loop: address and alignment of the next beat. *)
Definition next_beat (bu : burst) (addr : Z) (aligned : bool) : Z * bool :=
  match bu_kind bu with
  | BURST_FIXED => (addr, aligned)
  | _ =>
      if aligned then
        let addr := u64 (addr + bu_num_bytes bu) in
        (match bu_kind bu with
         | BURST_WRAP => if bu_upper_wrap bu <=? addr then bu_lower_wrap bu else addr
         | _ => addr
         end, true)
      else (u64 (bu_aligned_addr bu + bu_num_bytes bu), true)
  end.

Definition lower_lane (bus addr : Z) : Z := u64 (addr - addr / bus * bus).
Definition upper_lane (bus : Z) (bu : burst) (addr : Z) (aligned : bool) : Z :=
  if aligned then u64 (lower_lane bus addr + bu_num_bytes bu - 1)
  else u64 (bu_aligned_addr bu + bu_num_bytes bu - 1 - addr / bus * bus).

(** [start] and [len] of the transfer on the system side. *)
Definition beat_start (bus addr : Z) : Z := u64 (addr / bus * bus + lower_lane bus addr).
Definition beat_len (bus : Z) (bu : burst) (addr : Z) (aligned : bool) : Z :=
  u64 (upper_lane bus bu addr aligned - lower_lane bus addr + 1).

Section axi.
Context {E : Type}.
Variable send_write : write_t → E → E * list write_response_t.
Variable send_read : read_t → E → E * list read_response_t.

(** [co_await transactor::read(start, len)] *)
Definition do_read (start : Z) (len : nat) (s : axi E) : outcome (axi E * read_response_t) :=
  let '(id, e, r) := transactor_read send_read (ax_tid s) start len (ax_env s) in
  match r with
  | Some r => Done (s <| ax_tid := id |> <| ax_env := e |>, r)
  | None => Waiting
  end.

Definition do_write (start : Z) (len : nat) (data : list Z) (strb : list bool) (s : axi E)
    : outcome (axi E * write_response_t) :=
  let '(id, e, r) := transactor_write send_write (ax_tid s) start len data strb (ax_env s) in
  match r with
  | Some r => Done (s <| ax_tid := id |> <| ax_env := e |>, r)
  | None => Waiting
  end.

(** Error injection at the last beat for access type [idx]; [comb] merges an
    injected response into the current one. *)
Definition inject (idx : nat) (comb : Z → Z → Z) (last : bool) (addr resp : Z) (s : axi E)
    : Z * axi E :=
  let en := last && ax_error_en s in
  let inject_slverr := en && check_inject_error addr idx (ax_slverr s) in
  let inject_decerr := en && check_inject_error addr idx (ax_decerr s) in
  let '(resp, s) :=
    if en && bel_find addr (ax_slverr s) then
      let s := s <| ax_slverr ::= λ b, (incr_count addr idx 1 b).1 |> in
      if inject_slverr then (comb resp RESP_SLVERR, s <| ax_num_slverr ::= λ n, n + 1 |>)
      else (resp, s)
    else (resp, s) in
  if en && bel_find addr (ax_decerr s) then
    let s := s <| ax_decerr ::= λ b, (incr_count addr idx 1 b).1 |> in
    if inject_decerr then (comb resp RESP_DECERR, s <| ax_num_decerr ::= λ n, n + 1 |>)
    else (resp, s)
  else (resp, s).

(** [read_data.resize(data_bus_bytes, 0)] *)
Definition resize (n : nat) (l : list Z) : list Z := take n l ++ replicate (n - length l) 0.

(** Operand of the atomic for one write beat: updated read and write buffers
    and strobes. *)
Definition beat_atomic (a : a_t) (num_bytes lower : Z) (bus : Z) (len : nat)
    (read_data wdata : list Z) (wstrb : list bool) : option (list Z * list Z * list bool) :=
  match atop_txn (a_atop a) with
  | ATOMIC_COMPARE =>
      if negb (a_len a =? 0) then None
      else
        let op_bytes := u8 (num_bytes / 2) in
        let swap_index := u64 ((lower ^^^ op_bytes) + bus - lower) mod bus in
        let '(_, rd, wd, ws) :=
          atop_compare_write_data read_data wdata wstrb (Z.to_nat op_bytes) (Z.to_nat swap_index) in
        Some (rd, wd, ws)
  | _ =>
      match atop_modify_write_data (a_atop a) read_data wdata (Z.to_nat (u8 (Z.of_nat len))) with
      | Some wd => Some (read_data, wd, wstrb)
      | None => None
      end
  end.

Definition needs_read (a : a_t) : bool :=
  negb (a_w a) || negb (bool_decide (atop_txn (a_atop a) = NON_ATOMIC)).
Definition returns_data (a : a_t) : bool :=
  negb (a_w a) || (negb (bool_decide (atop_txn (a_atop a) = NON_ATOMIC)) &&
                   negb (bool_decide (atop_txn (a_atop a) = ATOMIC_STORE))).

(** The write part of a beat. *)
Definition beat_write (a : a_t) (v : eam_verdict) (bu : burst) (last : bool) (addr : Z)
    (start lower : Z) (len : nat) (read_data : list Z) (write_resp : Z) (s : axi E)
    : outcome (list Z * Z * axi E * list event) :=
  match ax_w_q s with
  | [] => Waiting
  | w :: w_q =>
      let s := s <| ax_w_q := w_q |> in
      let evs := if Bool.eqb (negb (wb_last w =? 0)) last then [] else [EvError] in
      let wdata := rotate_left (Z.to_nat lower) (wb_data w) in
      let wstrb := rotate_left (Z.to_nat lower) (wb_strb w) in
      match beat_atomic a (bu_num_bytes bu) lower (ax_bus s) len read_data wdata wstrb with
      | None => Aborted
      | Some (read_data, wdata, wstrb) =>
          '(write_resp, s) ←
            (if allow_write v then
               '(s, r) ← do_write start len wdata wstrb s; Done (write_resp ||| wr_resp r, s)
             else Done (write_resp, s));
          let '(write_resp, s) := inject WRITE Z.lor last addr write_resp s in
          Done (read_data, write_resp, s, evs)
      end
  end.

(** The response part of a beat that returns data. *)
Definition beat_respond (a : a_t) (v : eam_verdict) (last : bool) (addr lower : Z)
    (read_data : list Z) (read_resp : Z) (s : axi E) : axi E :=
  let data := rotate_left (Z.to_nat (ax_bus s - lower)) read_data in
  let resp := if override_resp v then ev_resp v else read_resp in
  let '(resp, s) := inject READ (λ _ e, e) last addr resp s in
  if bel_find addr (ax_hang s) then s
  else s <| ax_r_q ::= enqueue (R_beat (a_id a) resp data last) |>.

(** One iteration of the beat loop. *)
Definition axi_beat (a : a_t) (v : eam_verdict) (bu : burst) (last : bool) (addr : Z)
    (aligned : bool) (write_resp : Z) (s : axi E) : outcome (Z * axi E * list event) :=
  let bus := ax_bus s in
  let lower := lower_lane bus addr in
  let start := beat_start bus addr in
  let len := Z.to_nat (beat_len bus bu addr aligned) in
  '(read_data, read_resp, s) ←
    (if needs_read a then
       '(s, r) ← do_read start len s; Done (resize (Z.to_nat bus) (rr_data r), rr_resp r, s)
     else Done ([], RESP_OKAY, s));
  '(read_data, write_resp, s, evs) ←
    (if a_w a then beat_write a v bu last addr start lower len read_data write_resp s
     else Done (read_data, write_resp, s, []));
  Done (write_resp,
        (if returns_data a then beat_respond a v last addr lower read_data read_resp s else s),
        evs).

(** The beat loop, [n] beats left. *)
Fixpoint axi_beats (a : a_t) (v : eam_verdict) (bu : burst) (n : nat) (addr : Z) (aligned : bool)
    (write_resp : Z) (s : axi E) : outcome (Z * axi E * list event) :=
  match n with
  | O => Done (write_resp, s, [])
  | S n' =>
      '(write_resp, s, e1) ← axi_beat a v bu (n' =? 0)%nat addr aligned write_resp s;
      let '(addr, aligned) := next_beat bu addr aligned in
      '(write_resp, s, e2) ← axi_beats a v bu n' addr aligned write_resp s;
      Done (write_resp, s, e1 ++ e2)
  end.

(** One transaction, from its dequeue to [burst_active_ = false].  [fl] and
    [i] are the inputs of the exclusive access monitor. *)
Definition axi_transaction (fl : eam_flags) (i : eam_in) (a : a_t) (s : axi E)
    : outcome (axi E * list event) :=
  let s := s <| ax_burst_active := true |> in
  let '(m, v, e0) := on_addr fl i a (ax_eam s) in
  let s := s <| ax_eam := m |> in
  let bu := burst_of a in
  '(write_resp, s, e1) ←
    axi_beats a v bu (Z.to_nat (a_len a + 1)) (a_addr a) (a_addr a =? bu_aligned_addr bu)
      RESP_OKAY s;
  let s :=
    if a_w a then
      let resp := if override_resp v && (write_resp =? RESP_OKAY) then ev_resp v else write_resp in
      s <| ax_b_q ::= enqueue (B_beat (a_id a) resp) |>
    else s in
  let s := if a_cache a <=? DEV_BUF then s <| ax_dev_in_flight ::= λ n, n - 1 |> else s in
  Done (s <| ax_burst_active := false |>, e0 ++ e1).

(** [operator()]: transactions are taken while the front one can run.  [ins]
    supplies the monitor inputs, one per transaction. *)
Fixpoint axi_loop (fl : eam_flags) (ins : nat → eam_in) (k : nat) (q : list a_t) (s : axi E)
    : outcome (axi E * list event) :=
  match q with
  | [] => Done (s <| ax_a_q := [] |>, [])
  | a :: q' =>
      if a_w a && (Z.of_nat (length (ax_w_q s)) <? a_len a + 1)
      then Done (s <| ax_a_q := q |>, [])
      else
        '(s, e1) ← axi_transaction fl (ins k) a s;
        '(s, e2) ← axi_loop fl ins (S k) q' s;
        Done (s, e1 ++ e2)
  end.

Definition axi_operator (fl : eam_flags) (ins : nat → eam_in) (s : axi E)
    : outcome (axi E * list event) :=
  if ax_burst_active s then Done (s, []) else axi_loop fl ins 0 (ax_a_q s) s.

(** [axi::a] and [axi::w]. *)
Definition axi_a (fl : eam_flags) (ins : nat → eam_in) (p : a_t) (s : axi E)
    : outcome (axi E * list event) :=
  let s := if a_cache p <=? DEV_BUF then s <| ax_dev_in_flight ::= λ n, n + 1 |> else s in
  axi_operator fl ins (s <| ax_a_q ::= enqueue p |>).

Definition axi_w (fl : eam_flags) (ins : nat → eam_in) (p : w_beat) (s : axi E)
    : outcome (axi E * list event) :=
  axi_operator fl ins (s <| ax_w_q ::= enqueue p |>).

(** [axi::r] and [axi::b]; a blocking [r] on an empty queue waits. *)
Definition axi_r (block : bool) (s : axi E) : outcome (option r_beat * axi E) :=
  let '(r, q) := try_dequeue (ax_r_q s) in
  match r with
  | None => if block then Waiting else Done (None, s)
  | Some _ => Done (r, s <| ax_r_q := q |>)
  end.

Definition axi_b (s : axi E) : option b_beat * axi E :=
  let '(b, q) := try_dequeue (ax_b_q s) in (b, s <| ax_b_q := q |>).
End axi.

(** ** What a transaction does to the queues *)

(** Everything but the injection lists and counters is the same. *)
Definition inject_frame {E} (s s' : axi E) : Prop :=
  ax_bus s' = ax_bus s ∧ ax_tid s' = ax_tid s ∧ ax_a_q s' = ax_a_q s ∧ ax_w_q s' = ax_w_q s ∧
  ax_r_q s' = ax_r_q s ∧ ax_b_q s' = ax_b_q s ∧ ax_hang s' = ax_hang s ∧ ax_env s' = ax_env s ∧
  ax_eam s' = ax_eam s ∧ ax_burst_active s' = ax_burst_active s.

Lemma inject_same {E} idx comb last addr resp (s : axi E) :
  inject_frame s (inject idx comb last addr resp s).2.
Proof.
  unfold inject.
  destruct (last && ax_error_en s && bel_find addr (ax_slverr s));
    [destruct (last && ax_error_en s && check_inject_error addr idx (ax_slverr s))|];
    cbn; (destruct (last && ax_error_en s && bel_find addr (ax_decerr s));
    [destruct (last && ax_error_en s && check_inject_error addr idx (ax_decerr s))|]); done.
Qed.

(** The number of W beats a transaction takes and the R beats it returns. *)
Definition w_beats (a : a_t) : nat := if a_w a then Z.to_nat (a_len a + 1) else 0.
Definition r_tags (a : a_t) (n : nat) : list (Z * bool) :=
  if returns_data a then (λ k : nat, (a_id a, (S k =? n)%nat)) <$> seq 0 n else [].
Definition r_tag (r : r_beat) : Z * bool := (rb_id r, rb_last r).

(** Queue effect of a piece of a transaction: [nw] W beats taken, responses
    with tags [rs] queued, nothing else. *)
Record queues_step {E} (s s' : axi E) (nw : nat) (rs : list (Z * bool)) : Prop := {
  qs_bus : ax_bus s' = ax_bus s;
  qs_b : ax_b_q s' = ax_b_q s;
  qs_hang : ax_hang s' = ax_hang s;
  qs_w : ax_w_q s' = drop nw (ax_w_q s);
  qs_r : r_tag <$> ax_r_q s' = (r_tag <$> ax_r_q s) ++ rs
}.

Lemma queues_step_trans {E} (s1 s2 s3 : axi E) n m rs1 rs2 :
  queues_step s1 s2 n rs1 → queues_step s2 s3 m rs2 → queues_step s1 s3 (n + m) (rs1 ++ rs2).
Proof.
  intros [? ? ? Hw Hr] [? ? ? Hw' Hr']. split; try congruence.
  - by rewrite Hw', Hw, drop_drop.
  - by rewrite Hr', Hr, app_assoc.
Qed.

Definition no_hang {E} (s : axi E) : Prop := bl_entries (ax_hang s) = [].

Lemma no_hang_find {E} (s : axi E) addr : no_hang s → bel_find addr (ax_hang s) = false.
Proof. intros H. unfold bel_find, find_entry. by rewrite H. Qed.

Lemma beat_respond_step {E} a v last addr lower rd rr (s : axi E) :
  no_hang s → queues_step s (beat_respond a v last addr lower rd rr s) 0 [(a_id a, last)].
Proof.
  intros Hh. unfold beat_respond.
  pose proof (inject_same READ (λ _ e, e) last addr
    (if override_resp v then ev_resp v else rr) s) as Hi.
  destruct (inject _ _ _ _ _ s) as [resp s1]. cbn [snd] in Hi.
  destruct Hi as (Hbus & _ & _ & Hw & Hr & Hb & Hhang & _).
  rewrite no_hang_find by (unfold no_hang; by rewrite Hhang).
  split; simpl; try done. unfold enqueue. by rewrite fmap_app, Hr.
Qed.

Section progress.
Context {E : Type}.
Variable send_write : write_t → E → E * list write_response_t.
Variable send_read : read_t → E → E * list read_response_t.

(** The system answers every request it is sent. *)
Hypothesis write_answered : ∀ w e, Exists (λ r, wr_id r = w_id w) (send_write w e).2.
Hypothesis read_answered : ∀ r e, Exists (λ p, rr_id p = r_id r) (send_read r e).2.

Lemma list_find_Exists {A} (P : A → Prop) `{∀ x, Decision (P x)} l :
  Exists P l → ∃ i x, list_find P l = Some (i, x).
Proof.
  intros HE. destruct (list_find P l) as [[i x]|] eqn:Ef; [eauto|].
  apply list_find_None in Ef. exfalso. by apply (Forall_not_Exists P l) in Ef.
Qed.

Lemma do_read_done start len (s : axi E) :
  ∃ s' r, do_read send_read start len s = Done (s', r) ∧ queues_step s s' 0 [].
Proof.
  unfold do_read, transactor_read.
  pose proof (read_answered (Read_t (u32 (ax_tid s + 1)) start len) (ax_env s)) as Ha.
  destruct (send_read _ (ax_env s)) as [e rs]. cbn [snd r_id] in Ha.
  destruct (list_find_Exists _ _ Ha) as (i & x & ->). simpl.
  eexists _, _. split; [done|]. split; simpl; try done. by rewrite app_nil_r.
Qed.

Lemma do_write_done start len data strb (s : axi E) :
  ∃ s' r, do_write send_write start len data strb s = Done (s', r) ∧ queues_step s s' 0 [].
Proof.
  unfold do_write, transactor_write.
  pose proof (write_answered (Write_t start len data strb (u32 (ax_tid s + 1))) (ax_env s)) as Ha.
  destruct (send_write _ (ax_env s)) as [e rs]. cbn [snd w_id] in Ha.
  destruct (list_find_Exists _ _ Ha) as (i & x & ->). simpl.
  eexists _, _. split; [done|]. split; simpl; try done. by rewrite app_nil_r.
Qed.

Definition plain (a : a_t) : Prop := atop_txn (a_atop a) = NON_ATOMIC ∧ 0 ≤ a_len a.

Lemma beat_write_done a v bu last addr start lower len rd wr (s : axi E) :
  plain a → ax_w_q s ≠ [] →
  ∃ wr' s' evs, beat_write send_write a v bu last addr start lower len rd wr s =
                  Done (rd, wr', s', evs) ∧ queues_step s s' 1 [].
Proof.
  intros [Hp _] Hne. unfold beat_write. destruct (ax_w_q s) as [|w w_q] eqn:Ew; [done|].
  unfold beat_atomic, atop_modify_write_data. rewrite Hp.
  set (s0 := s <| ax_w_q := w_q |>).
  assert (queues_step s s0 1 []) as H0.
  { split; try done; [by rewrite Ew|]. by rewrite app_nil_r. }
  assert (∃ wr1 s1, (if allow_write v then
     '(s, r) ← do_write send_write start len (rotate_left (Z.to_nat lower) (wb_data w))
                 (rotate_left (Z.to_nat lower) (wb_strb w)) s0;
     Done (wr ||| wr_resp r, s) else Done (wr, s0)) = Done (wr1, s1) ∧ queues_step s0 s1 0 [])
    as (wr1 & s1 & E1 & H1).
  { destruct (allow_write v).
    - destruct (do_write_done start len (rotate_left (Z.to_nat lower) (wb_data w))
        (rotate_left (Z.to_nat lower) (wb_strb w)) s0) as (s1 & r & E1 & H1).
      rewrite E1. simpl. eauto.
    - eexists _, _. split; [done|]. split; try done. by rewrite app_nil_r. }
  rewrite E1. cbn [mbind outcome_bind].
  pose proof (inject_same WRITE Z.lor last addr wr1 s1) as Hi.
  destruct (inject WRITE Z.lor last addr wr1 s1) as [wr2 s2]. cbn [snd] in Hi.
  eexists _, _, _. split; [done|].
  change (@nil (Z * bool)) with (@nil (Z * bool) ++ (@nil (Z * bool) ++ [])).
  replace 1%nat with (1 + (0 + 0))%nat by lia.
  eapply queues_step_trans; [done|]. eapply queues_step_trans; [done|].
  destruct Hi as (? & _ & _ & ? & Hr & ? & ? & _). split; try done. by rewrite Hr, app_nil_r.
Qed.

(** One beat. *)
Lemma axi_beat_done a v bu last addr aligned wr (s : axi E) :
  plain a → no_hang s → (a_w a = true → ax_w_q s ≠ []) →
  ∃ wr' s' evs, axi_beat send_write send_read a v bu last addr aligned wr s = Done (wr', s', evs) ∧
    queues_step s s' (if a_w a then 1 else 0) (if returns_data a then [(a_id a, last)] else []).
Proof.
  intros Hp Hh Hw. unfold axi_beat, needs_read, returns_data. pose proof Hp as [Hna _].
  rewrite bool_decide_true by done. destruct (a_w a) eqn:Ew; cbn [negb orb andb].
  - cbn [mbind outcome_bind].
    destruct (beat_write_done a v bu last addr (beat_start (ax_bus s) addr)
      (lower_lane (ax_bus s) addr) (Z.to_nat (beat_len (ax_bus s) bu addr aligned)) [] wr s Hp)
      as (wr1 & s1 & evs & E1 & H1); [by apply Hw|].
    rewrite E1. cbn. eauto.
  - destruct (do_read_done (beat_start (ax_bus s) addr)
      (Z.to_nat (beat_len (ax_bus s) bu addr aligned)) s) as (s1 & r & E1 & H1).
    rewrite E1. cbn. eexists _, _, _. split; [done|].
    replace 0%nat with (0 + 0)%nat by lia.
    change [(a_id a, last)] with ([] ++ [(a_id a, last)]).
    eapply queues_step_trans; [done|]. apply beat_respond_step.
    unfold no_hang. by rewrite (qs_hang _ _ _ _ H1).
Qed.

Lemma axi_beats_done a v bu n addr aligned wr (s : axi E) :
  plain a → no_hang s → (a_w a = true → (n ≤ length (ax_w_q s))%nat) →
  ∃ wr' s' evs, axi_beats send_write send_read a v bu n addr aligned wr s = Done (wr', s', evs) ∧
    queues_step s s' (if a_w a then n else 0)
      (if returns_data a then (λ k : nat, (a_id a, (S k =? n)%nat)) <$> seq 0 n else []).
Proof.
  intros Hp. revert addr aligned wr s; induction n as [|n IH]; intros addr aligned wr s Hh Hw.
  { eexists _, _, _. split; [done|]. split; try done.
    - by destruct (a_w a).
    - destruct (returns_data a); by rewrite app_nil_r. }
  cbn [axi_beats].
  destruct (axi_beat_done a v bu (n =? 0)%nat addr aligned wr s Hp Hh) as (wr1 & s1 & e1 & E1 & H1).
  { intros Hw'. specialize (Hw Hw'). destruct (ax_w_q s); [simpl in Hw; lia|done]. }
  rewrite E1. cbn [mbind outcome_bind]. destruct (next_beat bu addr aligned) as [addr1 aligned1].
  destruct (IH addr1 aligned1 wr1 s1) as (wr2 & s2 & e2 & E2 & H2).
  { unfold no_hang. by rewrite (qs_hang _ _ _ _ H1). }
  { intros Hw'. specialize (Hw Hw'). rewrite (qs_w _ _ _ _ H1), Hw', length_drop. lia. }
  rewrite E2. cbn [mbind outcome_bind]. eexists _, _, _. split; [done|].
  pose proof (queues_step_trans _ _ _ _ _ _ _ H1 H2) as H.
  replace (if a_w a then S n else 0)%nat with ((if a_w a then 1 else 0) + (if a_w a then n else 0))%nat
    by (by destruct (a_w a)).
  destruct (returns_data a); [|done].
  cbn [seq fmap list_fmap]. rewrite <- fmap_S_seq, <- list_fmap_compose.
  replace (1 =? S n)%nat with (n =? 0)%nat by (by destruct n). done.
Qed.

(** A whole transaction: its W beats, its R beats and its single B. *)
Lemma axi_transaction_done fl i a (s : axi E) :
  plain a → no_hang s → (w_beats a ≤ length (ax_w_q s))%nat →
  ∃ s' evs, axi_transaction send_write send_read fl i a s = Done (s', evs) ∧
    no_hang s' ∧ ax_burst_active s' = false ∧ ax_w_q s' = drop (w_beats a) (ax_w_q s) ∧
    (r_tag <$> ax_r_q s') = (r_tag <$> ax_r_q s) ++ r_tags a (Z.to_nat (a_len a + 1)) ∧
    (bb_id <$> ax_b_q s') = (bb_id <$> ax_b_q s) ++ (if a_w a then [a_id a] else []).
Proof.
  intros Hp Hh Hw. unfold axi_transaction. cbn [ax_eam modify].
  destruct (on_addr fl i a _) as [[m v] e0].
  lazymatch goal with |- context [axi_beats _ _ _ _ _ _ _ _ _ ?x] => set (s1 := x) end.
  destruct (axi_beats_done a v (burst_of a) (Z.to_nat (a_len a + 1)) (a_addr a)
    (a_addr a =? bu_aligned_addr (burst_of a)) RESP_OKAY s1 Hp Hh) as (wr & s2 & e1 & E2 & H2).
  { intros Ew. unfold w_beats in Hw. by rewrite Ew in Hw. }
  rewrite E2. cbn [mbind outcome_bind]. destruct H2 as [_ Hb Hhg Hwq Hr].
  eexists _, _. split; [done|]. unfold w_beats, r_tags, no_hang in *.
  assert (ax_hang s1 = ax_hang s) as Hs1 by done.
  destruct (a_w a), (a_cache a <=? DEV_BUF); cbn; rewrite ?Hhg, ?Hs1; split_and!; try done;
    unfold enqueue; rewrite ?fmap_app, ?Hb, ?app_nil_r; done.
Qed.

(** The transactions that run: each takes its W beats from what is queued. *)
Fixpoint runnable (q : list a_t) (nw : nat) : list a_t * list a_t :=
  match q with
  | [] => ([], [])
  | a :: q' =>
      if (w_beats a <=? nw)%nat
      then let '(run, rest) := runnable q' (nw - w_beats a) in (a :: run, rest)
      else ([], q)
  end.

Lemma axi_loop_done fl ins k q (s : axi E) :
  Forall plain q → no_hang s → ax_burst_active s = false →
  let '(run, rest) := runnable q (length (ax_w_q s)) in
  ∃ s' evs, axi_loop send_write send_read fl ins k q s = Done (s', evs) ∧
    ax_a_q s' = rest ∧ ax_burst_active s' = false ∧
    (bb_id <$> ax_b_q s') = (bb_id <$> ax_b_q s) ++ (a_id <$> filter (λ a, a_w a = true) run) ∧
    (r_tag <$> ax_r_q s') =
      (r_tag <$> ax_r_q s) ++ mjoin ((λ a, r_tags a (Z.to_nat (a_len a + 1))) <$> run) ∧
    ax_w_q s' = drop (sum_list (w_beats <$> run)) (ax_w_q s) ∧ no_hang s'.
Proof.
  intros Hq. revert k s; induction Hq as [|a q Ha _ IH]; intros k s Hh Hact; simpl.
  { eexists _, _. split; [done|]. by rewrite !app_nil_r. }
  assert (a_w a && (Z.of_nat (length (ax_w_q s)) <? a_len a + 1) =
          negb (w_beats a <=? length (ax_w_q s))%nat) as ->.
  { destruct Ha as [_ Hl]. unfold w_beats. destruct (a_w a); [|done]. cbn [andb].
    destruct (Z.ltb_spec (Z.of_nat (length (ax_w_q s))) (a_len a + 1)),
      (Nat.leb_spec (Z.to_nat (a_len a + 1)) (length (ax_w_q s))); (done || lia). }
  destruct (w_beats a <=? length (ax_w_q s))%nat eqn:Ew; cbn [negb].
  2: { eexists _, _. split; [done|]. by rewrite !app_nil_r. }
  zbool. destruct (axi_transaction_done fl (ins k) a s Ha Hh Ew)
    as (s1 & e1 & E1 & Hh1 & Ha1 & Hw1 & Hr1 & Hb1).
  specialize (IH (S k) s1 Hh1 Ha1). rewrite Hw1, length_drop in IH.
  destruct (runnable q _) as [run rest]. destruct IH as (s2 & e2 & E2 & HA & Hact2 & HB & HR & HW & HH).
  rewrite E1. cbn [mbind outcome_bind]. rewrite E2. cbn [mbind outcome_bind].
  eexists _, _. split; [done|]. split_and!; [done|done| | | |done].
  - rewrite HB, Hb1. rewrite <- app_assoc. f_equal. rewrite filter_cons.
    destruct (a_w a); [rewrite decide_True by done|rewrite decide_False by done]; done.
  - rewrite HR, Hr1, <- app_assoc. done.
  - rewrite HW, drop_drop. done.
Qed.
End progress.

(** C36: every accepted transaction is answered exactly once and in order: when
    the system answers what it is sent, one activation of the subordinate
    takes from the front of the address queue exactly the transactions whose
    write data has arrived, queues for each write a single B with its id, for
    each read as many R beats with its id as its length says, the last and
    only the last one marked, consumes exactly their W beats, and leaves the
    rest queued. *)
Theorem axi_responses {E} (send_write : write_t → E → E * list write_response_t)
    (send_read : read_t → E → E * list read_response_t) fl ins (s : axi E) :
  (∀ w e, Exists (λ r, wr_id r = w_id w) (send_write w e).2) →
  (∀ r e, Exists (λ p, rr_id p = r_id r) (send_read r e).2) →
  Forall plain (ax_a_q s) → no_hang s → ax_burst_active s = false →
  let '(run, rest) := runnable (ax_a_q s) (length (ax_w_q s)) in
  ∃ s' evs, axi_operator send_write send_read fl ins s = Done (s', evs) ∧
    ax_a_q s' = rest ∧ ax_burst_active s' = false ∧
    (bb_id <$> ax_b_q s') = (bb_id <$> ax_b_q s) ++ (a_id <$> filter (λ a, a_w a = true) run) ∧
    (r_tag <$> ax_r_q s') =
      (r_tag <$> ax_r_q s) ++ mjoin ((λ a, r_tags a (Z.to_nat (a_len a + 1))) <$> run) ∧
    ax_w_q s' = drop (sum_list (w_beats <$> run)) (ax_w_q s).
Proof.
  intros Hsw Hsr Hq Hh Hact. unfold axi_operator. rewrite Hact.
  pose proof (axi_loop_done send_write send_read Hsw Hsr fl ins 0 _ s Hq Hh Hact) as H.
  destruct (runnable _ _) as [run rest].
  destruct H as (s' & evs & ? & ? & ? & ? & ? & ? & _). eauto 10.
Qed.

(** A system that is a flat memory and answers at once. *)
Definition mem_write_env {M} `{MemManager M} (w : write_t) (m : M) : M * list write_response_t :=
  (sysmod_mem_write w m, [Write_response_t (w_id w) 0]).
Definition mem_read_env {M} `{MemManager M} (r : read_t) (m : M) : M * list read_response_t :=
  let '(m', data) := sysmod_mem_read r (replicate (r_length r) 0) m in
  (m', [Read_response_t (r_id r) data 0]).

Definition sample_write : a_t :=
  A_t true 5 0x1000 1 2 BURST_INCR false 3 0 0 0 (atop_of_raw 0) 0 false false false 0.
Definition sample_read : a_t :=
  A_t false 6 0x1002 1 2 BURST_INCR false 3 0 0 0 (atop_of_raw 0) 0 false false false 0.
Definition sample_beat (d : list Z) (last : Z) : w_beat :=
  W_beat d (replicate 8 true) last.
Definition sample_axi : axi (gmap Z Z) :=
  axi_new (Axi_flags EmptyString EmptyString EmptyString 2 2 EmptyString EmptyString false)
    false 8 (eam_new sample_eam_flags).1 ∅
  <| ax_a_q := [sample_write; sample_read; sample_write] |>
  <| ax_w_q := [sample_beat [1;2;3;4;5;6;7;8] 0; sample_beat [11;12;13;14;15;16;17;18] 1] |>.

Lemma axi_responses_witness :
  ∃ s' evs, axi_operator mem_write_env mem_read_env sample_eam_flags (λ _, sample_in) sample_axi
              = Done (s', evs) ∧
    ax_a_q s' = [sample_write] ∧ (bb_id <$> ax_b_q s') = [5] ∧
    (r_tag <$> ax_r_q s') = [(6, false); (6, true)].
Proof.
  destruct (axi_responses mem_write_env mem_read_env sample_eam_flags (λ _, sample_in) sample_axi)
    as (s' & evs & E & Ha & _ & Hb & Hr & _).
  - intros w e. left. reflexivity.
  - intros r e. left. reflexivity.
  - repeat constructor; vm_compute; congruence.
  - reflexivity.
  - reflexivity.
  - exists s', evs. split; [exact E|]. rewrite Ha, Hb, Hr. split_and!; vm_compute; reflexivity.
Defined.

(** The data the read in this run returns: the bytes written before, in their
    bus lanes. *)
Example sample_axi_data :
  match axi_operator mem_write_env mem_read_env sample_eam_flags (λ _, sample_in) sample_axi with
  | Done (s', _) => rb_data <$> ax_r_q s' = [[0;0;3;4;0;0;0;0]; [0;0;0;0;15;16;17;18]]
  | _ => False
  end.
Proof. vm_compute. reflexivity. Qed.

(** ** Burst addresses *)

(** Address and alignment of beat [n] (from 0). *)
Fixpoint nth_beat (bu : burst) (n : nat) (addr : Z) (aligned : bool) : Z :=
  match n with
  | O => addr
  | S n' => let '(addr, aligned) := next_beat bu addr aligned in nth_beat bu n' addr aligned
  end.

(** The address equations of the AXI specification (IHI0022, A3.4.1). *)
Definition axi_addr (a : a_t) (n : Z) : Z :=
  let num_bytes := 2 ^ a_size a in
  let aligned := a_addr a / num_bytes * num_bytes in
  let dtsize := num_bytes * (a_len a + 1) in
  let wrap := a_addr a / dtsize * dtsize in
  match a_burst a with
  | BURST_FIXED => a_addr a
  | BURST_INCR => if n =? 0 then a_addr a else aligned + n * num_bytes
  | BURST_WRAP => let x := a_addr a + n * num_bytes in if x <? wrap + dtsize then x else x - dtsize
  end.

(** Transactions the specification allows: sizes up to 128 bytes, at most 256
    beats, wrapping bursts aligned, nothing crossing the end of memory. *)
Record axi_legal (a : a_t) : Prop := {
  al_addr : 0 ≤ a_addr a;
  al_size : 0 ≤ a_size a ≤ 7;
  al_len : 0 ≤ a_len a < 256;
  al_top : a_addr a + 2 ^ a_size a * (a_len a + 1) + 2 ^ a_size a * (a_len a + 1) < 2 ^ 64;
  al_wrap : a_burst a = BURST_WRAP → a_addr a mod 2 ^ a_size a = 0
}.

Lemma burst_of_legal a :
  axi_legal a →
  let nb := 2 ^ a_size a in
  burst_of a = Burst (a_burst a) nb (a_addr a / nb * nb)
    (a_addr a / (nb * (a_len a + 1)) * (nb * (a_len a + 1)))
    (a_addr a / (nb * (a_len a + 1)) * (nb * (a_len a + 1)) + nb * (a_len a + 1)).
Proof.
  intros [Ha Hs Hl Ht Hw] nb. unfold burst_of, shl64.
  assert (0 < nb ≤ 128) as Hnb.
  { unfold nb. split; [apply Z.pow_pos_nonneg; lia|]. change 128 with (2 ^ 7). apply Z.pow_le_mono_r; lia. }
  rewrite (proj2 (Z.ltb_lt _ _)), Z.shiftl_1_l by lia. fold nb.
  rewrite (u64_small nb) by (split; lia).
  rewrite (u64_small (nb * _)) by (split; nia).
  assert (0 < nb * (a_len a + 1)) as Hdt by nia.
  pose proof (Z.mul_div_le (a_addr a) (nb * (a_len a + 1)) Hdt).
  pose proof (Z.div_pos (a_addr a) (nb * (a_len a + 1)) Ha Hdt).
  rewrite u64_small by (fold nb in Ht; split; nia). done.
Qed.

(** From an aligned beat on, an incrementing burst advances by whole beats. *)
Lemma nth_beat_incr bu n addr :
  bu_kind bu = BURST_INCR → 0 ≤ addr → 0 ≤ bu_num_bytes bu →
  addr + Z.of_nat n * bu_num_bytes bu < 2 ^ 64 →
  nth_beat bu n addr true = addr + Z.of_nat n * bu_num_bytes bu.
Proof.
  intros Hk. revert addr; induction n as [|n IH]; intros addr Ha Hb Ht; [simpl; lia|].
  simpl nth_beat. unfold next_beat. rewrite Hk. rewrite u64_small by (split; lia).
  rewrite IH by lia. lia.
Qed.

(** A wrapping burst inside its container [q*nb, (q+bl)*nb). *)
Lemma nth_beat_wrap bu nb q bl n p :
  bu_kind bu = BURST_WRAP → bu_num_bytes bu = nb → 0 < nb → 0 ≤ q →
  bu_lower_wrap bu = q * nb → bu_upper_wrap bu = (q + bl) * nb → (q + bl) * nb < 2 ^ 64 →
  q ≤ p < q + bl → Z.of_nat n < bl →
  nth_beat bu n (p * nb) true = (if p + Z.of_nat n <? q + bl then p + Z.of_nat n
                                 else p + Z.of_nat n - bl) * nb.
Proof.
  intros Hk Hnb Hpos Hq Hlo Hup Ht. revert p; induction n as [|n IH]; intros p Hp Hn.
  { simpl. rewrite Z.add_0_r, (proj2 (Z.ltb_lt _ _)) by lia. done. }
  simpl nth_beat. unfold next_beat. rewrite Hk, Hnb, Hlo, Hup.
  rewrite u64_small by (split; nia). replace (p * nb + nb) with ((p + 1) * nb) by lia.
  destruct (Z.leb_spec ((q + bl) * nb) ((p + 1) * nb)) as [H|H].
  - assert (p + 1 = q + bl) by nia. rewrite IH by lia.
    rewrite (proj2 (Z.ltb_lt _ _)) by lia. rewrite (proj2 (Z.ltb_ge _ _)) by lia. f_equal. lia.
  - assert (p + 1 < q + bl) by nia. rewrite IH by lia.
    replace (p + Z.of_nat (S n)) with (p + 1 + Z.of_nat n) by lia. done.
Qed.

(** The beats of a burst address exactly the bytes the AXI specification
    prescribes: for every legal transaction and every beat, the address the
    loop computes is the specification's address equation for fixed,
    incrementing (also unaligned) and wrapping bursts. *)
Theorem axi_burst_addresses a n :
  axi_legal a → Z.of_nat n ≤ a_len a →
  nth_beat (burst_of a) n (a_addr a) (a_addr a =? bu_aligned_addr (burst_of a)) =
  axi_addr a (Z.of_nat n).
Proof.
  intros Hl Hn. rewrite burst_of_legal by done. destruct Hl as [Ha Hs Hlen Ht Hw].
  unfold axi_addr. set (nb := 2 ^ a_size a) in *. cbn [bu_aligned_addr].
  assert (0 < nb) as Hnb by (apply Z.pow_pos_nonneg; lia).
  pose proof (Z.div_mod (a_addr a) nb ltac:(lia)) as Hdm.
  pose proof (Z.mod_pos_bound (a_addr a) nb Hnb) as Hm.
  set (bu := Burst _ _ _ _ _). destruct (a_burst a) eqn:Eb.
  - clear. generalize (a_addr a =? a_addr a / nb * nb) as al. induction n as [|n IH]; intros al; [done|].
    simpl. unfold next_beat. subst bu. simpl. apply IH.
  - destruct n as [|n]; [done|]. rewrite (proj2 (Z.eqb_neq (Z.of_nat (S n)) 0)) by lia.
    simpl nth_beat. unfold next_beat. subst bu. cbn [bu_kind bu_num_bytes bu_aligned_addr].
    destruct (Z.eqb_spec (a_addr a) (a_addr a / nb * nb)) as [E|E];
      rewrite u64_small by (split; nia); rewrite nth_beat_incr by (simpl; (done || nia)); simpl; nia.
  - specialize (Hw eq_refl). set (bl := a_len a + 1) in *.
    assert (a_addr a = a_addr a / nb * nb) as Eal by lia.
    rewrite (proj2 (Z.eqb_eq _ _) Eal). set (p := a_addr a / nb) in *.
    set (k := a_addr a / (nb * bl)) in *.
    assert (0 < nb * bl) as Hdt by nia.
    pose proof (Z.div_mod (a_addr a) (nb * bl) ltac:(lia)) as Hk. fold k in Hk.
    pose proof (Z.mod_pos_bound (a_addr a) (nb * bl) Hdt) as Hkm.
    assert (0 ≤ k) by (apply Z.div_pos; lia). assert (0 ≤ p) by (apply Z.div_pos; lia).
    assert (k * bl ≤ p < k * bl + bl) as Hp by nia.
    assert ((k * bl + bl) * nb = k * (nb * bl) + nb * bl) as Eup by ring.
    rewrite Eal at 1. rewrite (nth_beat_wrap bu nb (k * bl) bl n p);
      [|done|done|done|nia|subst bu; simpl; ring|subst bu; simpl; ring|rewrite Eup; lia|done|lia].
    destruct (Z.ltb_spec (p + Z.of_nat n) (k * bl + bl)) as [H1|H1],
      (Z.ltb_spec (a_addr a + Z.of_nat n * nb) (k * (nb * bl) + nb * bl)) as [H2|H2]; nia.
Qed.

Lemma axi_burst_addresses_witness :
  let a := A_t false 6 0x103c 3 2 BURST_WRAP false 3 0 0 0 (atop_of_raw 0) 0 false false false 0 in
  nth_beat (burst_of a) 1 0x103c true = 0x1030.
Proof.
  intros a. apply (axi_burst_addresses a 1).
  - split; simpl; (lia || reflexivity).
  - simpl. lia.
Defined.

(** ** Byte lanes *)

Lemma at_z_rotate k l i : (k + i < length l)%nat → at_z (rotate_left k l) i = at_z l (k + i).
Proof.
  intros Hi. unfold rotate_left, at_z. rewrite lookup_app_l by (rewrite length_drop; lia).
  by rewrite lookup_drop.
Qed.

Lemma at_b_rotate k l i : (k + i < length l)%nat → at_b (rotate_left k l) i = at_b l (k + i).
Proof.
  intros Hi. unfold rotate_left, at_b. rewrite lookup_app_l by (rewrite length_drop; lia).
  by rewrite lookup_drop.
Qed.

Lemma rotate_left_u8 k l : Forall is_u8 l → Forall is_u8 (rotate_left k l).
Proof. intros. apply Forall_app_2; [by apply Forall_drop|by apply Forall_take]. Qed.

(** Lanes of a beat: its bus word, the first lane and the transfer length. *)
Lemma lane_arith bus addr :
  0 < bus → 0 ≤ addr → addr / bus * bus + bus ≤ 2 ^ 64 →
  lower_lane bus addr = addr mod bus ∧ beat_start bus addr = addr ∧
  0 ≤ addr / bus * bus ∧ addr = addr / bus * bus + addr mod bus ∧ 0 ≤ addr mod bus < bus.
Proof.
  intros Hb Ha Ht. pose proof (Z.div_mod addr bus ltac:(lia)) as Hdm.
  pose proof (Z.mod_pos_bound addr bus Hb) as Hm. pose proof (Z.div_pos addr bus Ha Hb).
  assert (lower_lane bus addr = addr mod bus) as Hl.
  { unfold lower_lane. rewrite u64_small by (split; lia). lia. }
  split_and!; try lia. unfold beat_start. rewrite Hl, u64_small by (split; lia). lia.
Qed.

Lemma beat_len_eq bus bu addr aligned :
  0 ≤ lower_lane bus addr → lower_lane bus addr ≤ upper_lane bus bu addr aligned < bus →
  bus < 2 ^ 64 →
  beat_len bus bu addr aligned = upper_lane bus bu addr aligned - lower_lane bus addr + 1.
Proof. intros. apply u64_small. split; lia. Qed.

(** A write beat stores each bus lane at its own byte address: after a plain
    write beat on a memory, the byte at lane [l] of the addressed bus word is
    the beat's lane [l] if the lane is inside the transfer and its strobe is
    set, and the old byte otherwise. *)
Theorem axi_write_lanes {M} `{MemManagerLaws M} a v bu last addr aligned wr (s : axi M) w w_q l :
  let bus := ax_bus s in
  let lower := lower_lane bus addr in
  let upper := upper_lane bus bu addr aligned in
  plain a → a_w a = true → allow_write v = true → ax_w_q s = w :: w_q →
  0 < bus < 2 ^ 64 → 0 ≤ addr → addr / bus * bus + bus ≤ 2 ^ 64 → lower ≤ upper < bus → 0 ≤ l < bus →
  Forall is_u8 (wb_data w) → Z.of_nat (length (wb_data w)) = bus →
  Z.of_nat (length (wb_strb w)) = bus →
  ∃ wr' s' evs,
    axi_beat mem_write_env mem_read_env a v bu last addr aligned wr s = Done (wr', s', evs) ∧
    mm_peek (ax_env s') (addr / bus * bus + l) =
      if (lower <=? l) && (l <=? upper) && at_b (wb_strb w) (Z.to_nat l)
      then at_z (wb_data w) (Z.to_nat l) else mm_peek (ax_env s) (addr / bus * bus + l).
Proof.
  intros bus lower upper [Hna _] Hw Hv Hq [Hbus Hbw] Ha Ht Hul Hl Hu Hdl Hsl.
  destruct (lane_arith bus addr Hbus Ha Ht) as (Elo & Est & Hb0 & Hdm & Hm). fold lower in Elo.
  assert (beat_len bus bu addr aligned = upper - lower + 1) as Elen
    by (apply beat_len_eq; [rewrite <- Elo in Hm; apply Hm|apply Hul|exact Hbw]).
  unfold axi_beat, needs_read, returns_data. rewrite Hw, bool_decide_true by done.
  cbn [negb orb andb mbind outcome_bind]. unfold beat_write. rewrite Hq.
  unfold beat_atomic, atop_modify_write_data. rewrite Hna, Hv.
  unfold do_write, transactor_write, mem_write_env. cbn [list_find wr_id w_id].
  rewrite decide_True by done. cbn [mbind outcome_bind option_bind snd wr_resp].
  fold bus lower. rewrite Est, Elen.
  lazymatch goal with |- context [inject WRITE Z.lor last addr ?x ?st] =>
    pose proof (inject_same WRITE Z.lor last addr x st) as Hi;
    destruct (inject WRITE Z.lor last addr x st) as [wr' s'] end.
  cbn [mbind outcome_bind]. eexists _, _, _. split; [done|].
  destruct Hi as (_ & _ & _ & _ & _ & _ & _ & Henv & _). cbn [snd] in Henv. rewrite Henv.
  unfold modify. cbn [ax_env]. unfold sysmod_mem_write. cbn [w_addr w_length w_data w_strb].
  set (base := addr / bus * bus) in *. pose proof (rotate_left_u8 (Z.to_nat lower) _ Hu) as Hru.
  destruct ((lower <=? l) && (l <=? upper)) eqn:Ein; zbool; cbn [andb].
  - assert (base + l = u64 (addr + Z.of_nat (Z.to_nat (l - lower)))) as ->
      by (rewrite u64_small by (split; lia); lia).
    rewrite write_strobed_hit by (done || lia).
    rewrite at_z_rotate, at_b_rotate by lia.
    by replace (Z.to_nat lower + Z.to_nat (l - lower))%nat with (Z.to_nat l) by lia.
  - apply write_strobed_miss; [done|]. intros k Hk. rewrite u64_small by (split; lia).
    apply andb_false_iff in Ein as [Ein|Ein]; zbool; lia.
Qed.

Lemma axi_write_lanes_witness :
  ∃ wr' s' evs,
    axi_beat mem_write_env mem_read_env sample_write eam_verdict_default (burst_of sample_write)
      true 0x1004 true 0 sample_axi = Done (wr', s', evs) ∧
    mm_peek (ax_env s') 0x1006 = 7.
Proof.
  destruct (axi_write_lanes sample_write eam_verdict_default (burst_of sample_write) true 0x1004
    true 0 sample_axi (sample_beat [1;2;3;4;5;6;7;8] 0)
    [sample_beat [11;12;13;14;15;16;17;18] 1] 6) as (wr' & s' & evs & E & Hp);
    [split; vm_compute; congruence|reflexivity|reflexivity|reflexivity|split; vm_compute; congruence
    |lia|vm_compute; congruence|split; vm_compute; congruence|split; vm_compute; congruence
    |apply bytes_ok_u8; reflexivity|reflexivity|reflexivity|].
  exists wr', s', evs. split; [exact E|]. etransitivity; [exact Hp|]. vm_compute. reflexivity.
Defined.
