(* ===== verification/AxiSw.v ===== *)
(** * AxiSw: the AXI hardware interface (src/transactors/axi_sw/axi_sw.{h,cpp})

    [axi_sw] receives the address and data beats the hardware sampled, hands
    them to the subordinate ([axi], AxiSlave.v), directly or through a window
    in which requests are reordered, and returns the responses to the hardware
    FIFOs (HwFifo.v) within the room their pointers show.

    The registry's callbacks run in the order they were pushed: [sw_callbacks]
    is that queue, [run_callback] executes the oldest one.  [gen k n] is the
    [k]-th draw of [cvm::rand::lcg::generate(n)].  The calls
    [a(aaa); w(ww); ...] by which a transaction leaves the window are one event
    [SwIssue]. *)

From S2P Require Import Prelude Bytes Cstd Device Mem Axi Eam BusErrorList AxiSlave.
From Stdlib Require Import Ascii.
#[local] Open Scope string_scope.
#[local] Open Scope list_scope.
#[local] Open Scope Z_scope.

(** ** The latency option *)

(** [get_uint64_pair]; [None]: [std::stoull] throws. *)
Definition get_uint64_pair (value : string) : option (bool * Z * Z) :=
  match split_on ":" value with
  | [a; b] =>
      lo ← stoull 0 a; hi ← stoull 0 b;
      if (hi <=? lo) || (65536 <=? hi) then Some (false, lo, hi) else Some (true, lo, hi)
  | _ => Some (false, 0, 0)
  end.

Definition validate_add_response_latency_range (value : string) : option bool :=
  '(ok, _, _) ← get_uint64_pair value; Some ok.

(** ** State *)

(** [ptr_t]: a hardware FIFO as the C++ side sees it. *)
Record sw_ptr := Sw_ptr { pt_max : Z; pt_ptr_max : Z; pt_rptr : Z; pt_wptr : Z; pt_time : Z }.
#[export] Instance eta_sw_ptr : Eta sw_ptr := λ p,
  Sw_ptr (pt_max p) (pt_ptr_max p) (pt_rptr p) (pt_wptr p) (pt_time p).

Definition pt_size (p : sw_ptr) : Z := u32 (pt_wptr p + pt_ptr_max p - pt_rptr p) mod pt_ptr_max p.
Definition pt_full (p : sw_ptr) : bool := pt_max p <=? pt_size p.
Definition pt_advance (p : sw_ptr) : sw_ptr :=
  p <| pt_wptr ::= λ w, u32 (w + 1) mod pt_ptr_max p |>.
Definition pt_report (clock ptr : Z) (p : sw_ptr) : sw_ptr :=
  p <| pt_time := clock |> <| pt_rptr := ptr |>.

Record sw_flags := Sw_flags {
  swf_reorder_window : Z;
  swf_fast_write_response : bool;
  swf_read_no_callbacks : bool;
  swf_spurious_allowed : Z;
  swf_cb_async : bool;
  swf_read_latency_fixed : Z;
  swf_read_latency_max : Z
}.

Inductive callback := CbR | CbB.

Record axi_sw {E : Type} := Axi_sw {
  sw_axi : axi E;
  sw_a_window : list a_t;
  sw_w_window : list w_beat;
  sw_r_fifo : sw_ptr;
  sw_b_fifo : sw_ptr;
  sw_r_q : list r_beat;
  sw_b_q : list b_beat;
  sw_callbacks : list callback;
  sw_pending_reads : Z;
  sw_read_bytes : Z;
  sw_write_bytes : Z;
  sw_spurious : Z;
  sw_latency_min : Z;
  sw_latency_max : Z;
  sw_data_width : Z;
  sw_drawn : nat
}.
Arguments axi_sw : clear implicits.
Arguments Axi_sw {E}.
#[export] Instance eta_axi_sw E : Eta (axi_sw E) := λ s,
  Axi_sw (sw_axi s) (sw_a_window s) (sw_w_window s) (sw_r_fifo s) (sw_b_fifo s) (sw_r_q s)
    (sw_b_q s) (sw_callbacks s) (sw_pending_reads s) (sw_read_bytes s) (sw_write_bytes s)
    (sw_spurious s) (sw_latency_min s) (sw_latency_max s) (sw_data_width s) (sw_drawn s).

Inductive sw_event :=
| SwIssue (a : a_t) (ws : list w_beat)     (* a transaction leaves the window *)
| SwSub (e : event)                        (* what the subordinate did *)
| SwR (r : r_beat) (latency : Z)           (* DPI axi_sw_r_8/16/32/64 *)
| SwB (b : b_beat) (latency : Z)           (* DPI axi_sw_b *)
| SwError.

(** The constructor; [lat] is the parsed latency range.  The errors are those
    of contradictory options. *)
Definition sw_new {E} (fl : sw_flags) (lat : Z * Z) (data_width : Z)
    (r_max r_pmax b_max b_pmax : Z) (ax : axi E) : axi_sw E * list sw_event :=
  let lo := u16 lat.1 in let hi := u16 lat.2 in
  let random_latency :=
    negb (lo =? 0) || negb (hi =? 1) || negb (swf_reorder_window fl =? 0) in
  (Axi_sw ax [] [] (Sw_ptr r_max r_pmax 0 0 0) (Sw_ptr b_max b_pmax 0 0 0) [] [] [] 0 0 0 0
     lo hi data_width 0,
   (if negb (swf_read_latency_fixed fl =? 0) && random_latency then [SwError] else []) ++
   (if negb (swf_read_latency_max fl =? 0) && random_latency then [SwError] else []) ++
   (if swf_fast_write_response fl && random_latency then [SwError] else [])).

(** ** Responses to the hardware *)

Section axi_sw.
Context {E : Type}.
Variable send_write : write_t → E → E * list write_response_t.
Variable send_read : read_t → E → E * list read_response_t.
Variable efl : eam_flags.
Variable ins : nat → eam_in.
Variable fl : sw_flags.
Variable gen : nat → Z → Z.

(** [r_dpi]: whether a beat was sent. *)
Definition r_dpi (s : axi_sw E) : bool * axi_sw E * list sw_event :=
  match sw_r_q s with
  | [] => (false, s, [])
  | r :: q =>
      let latency := u16 (gen (sw_drawn s) (sw_latency_max s - sw_latency_min s) + sw_latency_min s) in
      let w := sw_data_width s in
      (true, s <| sw_r_q := q |> <| sw_drawn ::= S |>,
       if (w =? 64) || (w =? 128) || (w =? 256) || (w =? 512) then [SwR r latency] else [SwError])
  end.

(** [b_dpi]: the latency is held in a [uint8_t]. *)
Definition b_dpi (s : axi_sw E) : bool * axi_sw E * list sw_event :=
  match sw_b_q s with
  | [] => (false, s, [])
  | b :: q =>
      let latency := u8 (gen (sw_drawn s) (sw_latency_max s - sw_latency_min s) + sw_latency_min s) in
      (true, s <| sw_b_q := q |> <| sw_drawn ::= S |>, [SwB b latency])
  end.

(** [while (r_dpi()) sent++], [q] being the queue. *)
Fixpoint r_dpi_all (q : list r_beat) (s : axi_sw E) : nat * axi_sw E * list sw_event :=
  match q with
  | [] => (0%nat, s, [])
  | _ :: q' =>
      let '(_, s, e1) := r_dpi s in
      let '(n, s, e2) := r_dpi_all q' s in
      (S n, s, e1 ++ e2)
  end.

(** [r_resp]: the loop takes beats from the subordinate while there are any
    and the FIFO has room; [q] is the subordinate's queue. *)
Fixpoint r_resp_loop (q : list r_beat) (s : axi_sw E) : axi_sw E :=
  if pt_full (sw_r_fifo s) then s
  else
    match q with
    | [] => s
    | r :: q' =>
        let s := s <| sw_axi ::= λ x, x <| ax_r_q := q' |> |>
                   <| sw_pending_reads ::= λ n, u64 (n - 1) |>
                   <| sw_r_fifo ::= pt_advance |>
                   <| sw_r_q ::= λ l, l ++ [r] |> in
        let s := if negb (swf_read_no_callbacks fl) then s <| sw_callbacks ::= λ l, l ++ [CbR] |>
                 else s in
        r_resp_loop q' s
    end.
Definition r_resp (s : axi_sw E) : axi_sw E := r_resp_loop (ax_r_q (sw_axi s)) s.

Fixpoint b_resp_loop (q : list b_beat) (s : axi_sw E) : axi_sw E :=
  if pt_full (sw_b_fifo s) then s
  else
    match q with
    | [] => s
    | b :: q' =>
        b_resp_loop q'
          (s <| sw_axi ::= λ x, x <| ax_b_q := q' |> |>
             <| sw_b_fifo ::= pt_advance |>
             <| sw_b_q ::= λ l, l ++ [b] |>
             <| sw_callbacks ::= λ l, l ++ [CbB] |>)
    end.
Definition b_resp (s : axi_sw E) : axi_sw E :=
  if swf_fast_write_response fl then s else b_resp_loop (ax_b_q (sw_axi s)) s.

Definition all_resp (s : axi_sw E) : axi_sw E := b_resp (r_resp s).

(** The oldest callback of the registry runs. *)
Definition run_callback (s : axi_sw E) : axi_sw E * list sw_event :=
  match sw_callbacks s with
  | [] => (s, [])
  | c :: cs =>
      let s := s <| sw_callbacks := cs |> in
      let '(_, s, evs) := match c with CbR => r_dpi s | CbB => b_dpi s end in (s, evs)
  end.

(** [process(RQ)] and [process(BQ)]: a read pointer reported by the hardware;
    only newer reports count. *)
Definition process_rq (clock ptr : Z) (s : axi_sw E) : axi_sw E :=
  if pt_time (sw_r_fifo s) <? clock then r_resp (s <| sw_r_fifo ::= pt_report clock ptr |>) else s.
Definition process_bq (clock ptr : Z) (s : axi_sw E) : axi_sw E :=
  if pt_time (sw_b_fifo s) <? clock then b_resp (s <| sw_b_fifo ::= pt_report clock ptr |>) else s.

(** [process(r_q_ptr_blocking_update_t)]: returns [successful].  [locked]:
    another thread holds the DPI mutex. *)
Definition process_blocking (locked : bool) (clock ptr : Z) (s : axi_sw E)
    : outcome (bool * axi_sw E * list sw_event) :=
  if (sw_pending_reads s =? 0) && negb (swf_cb_async fl) then Done (true, s, [])
  else if negb (pt_time (sw_r_fifo s) <? clock) then Aborted
  else
    let s := r_resp (s <| sw_r_fifo ::= pt_report clock ptr |>) in
    if locked then Done (false, s, [])
    else
      let '(sent, s, evs) := r_dpi_all (sw_r_q s) s in
      let device_access_pending := (sent =? 0)%nat && (0 <? ax_dev_in_flight (sw_axi s)) in
      let ok := negb (sent =? 0)%nat || device_access_pending in
      let s := if ok then s <| sw_spurious := 0 |> else s <| sw_spurious ::= λ n, n + 1 |> in
      let err := (0 <=? swf_spurious_allowed fl) && (swf_spurious_allowed fl <? sw_spurious s) in
      Done (ok, s, evs ++ (if err then [SwError] else [])).

(** [axi_sw_flush]; [destroyed]: [axi_sw_destroyed]. *)
Definition axi_sw_flush (destroyed locked : bool) (clock ptr : Z) (s : axi_sw E)
    : outcome (bool * axi_sw E * list sw_event) :=
  if destroyed then Done (true, s, []) else process_blocking locked clock ptr s.

(** [reset_ptrs] *)
Definition sw_reset_ptrs (s : axi_sw E) : axi_sw E :=
  s <| sw_r_fifo ::= λ p, p <| pt_rptr := 0 |> <| pt_wptr := 0 |> <| pt_time := 0 |> |>
    <| sw_b_fifo ::= λ p, p <| pt_rptr := 0 |> <| pt_wptr := 0 |> <| pt_time := 0 |> |>
    <| sw_axi ::= axi_reset |>.

(** ** Requests from the hardware *)

(** The fields of an AW or AR message. *)
Record chan_msg := Chan_msg {
  cm_id : Z; cm_addr : Z; cm_len : Z; cm_size : Z; cm_burst : Z; cm_lock : Z; cm_cache : Z;
  cm_prot : Z; cm_qos : Z; cm_region : Z; cm_atop : Z; cm_user : Z
}.

(** [axi::burst_t(x)]; the reserved encoding 3 is neither FIXED nor WRAP and
    behaves as INCR does. *)
Definition burst_of_raw (x : Z) : burst_t :=
  if x =? 0 then BURST_FIXED else if x =? 2 then BURST_WRAP else BURST_INCR.

Definition a_of_msg (w : bool) (m : chan_msg) : a_t :=
  A_t w (cm_id m) (cm_addr m) (cm_len m) (cm_size m) (burst_of_raw (cm_burst m))
    (negb (cm_lock m =? 0)) (cm_cache m) (cm_prot m) (cm_qos m) (cm_region m)
    (atop_of_raw (if w then cm_atop m else 0)) (cm_user m) false false false 0.

(** A call into the subordinate. *)
Definition sub_a (a : a_t) (s : axi_sw E) : outcome (axi_sw E * list sw_event) :=
  '(x, evs) ← axi_a send_write send_read efl ins a (sw_axi s);
  Done (s <| sw_axi := (x : axi E) |>, (SwSub <$> (evs : list event)) : list sw_event).
Definition sub_w (w : w_beat) (s : axi_sw E) : outcome (axi_sw E * list sw_event) :=
  '(x, evs) ← axi_w send_write send_read efl ins w (sw_axi s);
  Done (s <| sw_axi := (x : axi E) |>, (SwSub <$> (evs : list event)) : list sw_event).

Fixpoint sub_ws (ws : list w_beat) (s : axi_sw E) : outcome (axi_sw E * list sw_event) :=
  match ws with
  | [] => Done (s, [])
  | w :: ws' =>
      '(s, e1) ← sub_w w s; '(s, e2) ← sub_ws ws' s; Done (s, e1 ++ e2)
  end.

Definition burst_len (a : a_t) : nat := Z.to_nat (a_len a + 1).
Definition same_id (a p : a_t) : bool := (a_id p =? a_id a) && Bool.eqb (a_w p) (a_w a).

(** [prior_writes]: data beats that belong to writes before [position]. *)
Definition prior_writes (position : nat) (aw : list a_t) : nat :=
  sum_list (burst_len <$> filter (λ a, a_w a = true) (take position aw)).

(** What the choice of index [position] issues: the oldest request of the same
    id and direction, with its data; [None] while the data is missing.  Also
    the windows left. *)
Definition pick (position : nat) (aw : list a_t) (ww : list w_beat)
    : option (a_t * list w_beat * list a_t * list w_beat) :=
  a ← aw !! position;
  '(i, aaa) ← list_find (λ p, same_id a p = true) aw;
  let rest := delete i aw in
  if a_w aaa then
    let prior := prior_writes i aw in
    let n := burst_len aaa in
    if (length ww <? prior + n)%nat then None
    else Some (aaa, take n (drop prior ww), rest, take prior ww ++ drop (prior + n) ww)
  else Some (aaa, [], rest, ww).

Definition pop_reorder_q (oldest : bool) (s : axi_sw E) : outcome (bool * axi_sw E * list sw_event) :=
  match sw_a_window s with
  | [] => Done (false, s, [])
  | _ :: _ =>
      let '(position, s) :=
        if oldest then (0%nat, s)
        else (Z.to_nat (gen (sw_drawn s) (Z.of_nat (length (sw_a_window s)))), s <| sw_drawn ::= S |>) in
      match pick position (sw_a_window s) (sw_w_window s) with
      | None => Done (false, s, [])
      | Some (a, ws, aw, ww) =>
          let s := s <| sw_a_window := aw |> <| sw_w_window := ww |> in
          '(s, e1) ← sub_a a s;
          '(s, e2) ← sub_ws ws s;
          Done (true, s, SwIssue a ws :: e1 ++ e2)
      end
  end.

(** The common tail of the address handlers. *)
Definition direct : bool := swf_reorder_window fl <=? 1.
Definition pop_if_full (s : axi_sw E) : outcome (axi_sw E * list sw_event) :=
  if swf_reorder_window fl <=? Z.of_nat (length (sw_a_window s)) then
    '(_, s, evs) ← pop_reorder_q false s; Done (s, evs)
  else Done (s, []).
Definition then_resp (o : outcome (axi_sw E * list sw_event)) : outcome (axi_sw E * list sw_event) :=
  '(s, evs) ← o; Done (all_resp s, evs).

Definition accept_a (a : a_t) (s : axi_sw E) : outcome (axi_sw E * list sw_event) :=
  then_resp (if direct then sub_a a s
             else pop_if_full (s <| sw_a_window ::= λ l, l ++ [a] |>)).

Definition process_aw (m : chan_msg) (s : axi_sw E) : outcome (axi_sw E * list sw_event) :=
  accept_a (a_of_msg true m) (s <| sw_write_bytes ::= λ n, u64 (n + shl64 1 (cm_size m)) |>).

Definition process_ar (m : chan_msg) (s : axi_sw E) : outcome (axi_sw E * list sw_event) :=
  accept_a (a_of_msg false m)
    (s <| sw_read_bytes ::= λ n, u64 (n + shl64 1 (cm_size m)) |>
       <| sw_pending_reads ::= λ n, u64 (n + 1) |>).

(** [process(W)], the beat already sliced into bytes and strobes. *)
Definition sw_process_w (w : w_beat) (s : axi_sw E) : outcome (axi_sw E * list sw_event) :=
  then_resp (if direct then sub_w w s
             else pop_if_full (s <| sw_w_window ::= λ l, l ++ [w] |>)).

Definition process_reorder_flush (s : axi_sw E) : outcome (axi_sw E * list sw_event) :=
  match sw_a_window s with
  | [] => Done (s, [])
  | _ :: _ => '(_, s, evs) ← pop_reorder_q true s; Done (all_resp s, evs)
  end.

(** ** Runs *)

Inductive sw_op :=
| OpSwAw (m : chan_msg) | OpSwAr (m : chan_msg) | OpSwW (w : w_beat)
| OpRq (clock ptr : Z) | OpBq (clock ptr : Z)
| OpFlush (locked : bool) (clock ptr : Z)
| OpReorderFlush
| OpCallback.

Definition sw_step (o : sw_op) (s : axi_sw E) : outcome (axi_sw E * list sw_event) :=
  match o with
  | OpSwAw m => process_aw m s
  | OpSwAr m => process_ar m s
  | OpSwW w => sw_process_w w s
  | OpRq c p => Done (process_rq c p s, [])
  | OpBq c p => Done (process_bq c p s, [])
  | OpFlush l c p => '(_, s, evs) ← process_blocking l c p s; Done (s, evs)
  | OpReorderFlush => process_reorder_flush s
  | OpCallback => Done (run_callback s)
  end.

Fixpoint sw_run (os : list sw_op) (s : axi_sw E) : outcome (axi_sw E * list sw_event) :=
  match os with
  | [] => Done (s, [])
  | o :: os' => '(s, e1) ← sw_step o s; '(s, e2) ← sw_run os' s; Done (s, e1 ++ e2)
  end.
End axi_sw.

(** ** The reference: requests paired with their data in arrival order *)

#[local] Notation entry := (a_t * list w_beat)%type.

(** Each write takes the next beats of the data stream. *)
Fixpoint assign (aw : list a_t) (ww : list w_beat) : list entry :=
  match aw with
  | [] => []
  | a :: aw' => (a, take (w_beats a) ww) :: assign aw' (drop (w_beats a) ww)
  end.

Definition need (aw : list a_t) : nat := sum_list (w_beats <$> aw).
Definition complete (e : entry) : Prop := length e.2 = w_beats e.1.
(** Requests with the same key must stay in order. *)
Definition key (a : a_t) : Z * bool := (a_id a, a_w a).
Definition with_key (k : Z * bool) : list entry → list entry := filter (λ e, key e.1 = k).

Lemma need_app a b : need (a ++ b) = (need a + need b)%nat.
Proof.
  induction a as [|x a IH]; [done|].
  change (w_beats x + need (a ++ b) = w_beats x + need a + need b)%nat. lia.
Qed.

Lemma assign_app aw1 aw2 ww :
  assign (aw1 ++ aw2) ww = assign aw1 ww ++ assign aw2 (drop (need aw1) ww).
Proof.
  revert ww; induction aw1 as [|a aw1 IH]; intros ww; [done|].
  cbn [app assign]. rewrite IH, drop_drop. done.
Qed.

(** Only the beats the requests need matter. *)
Lemma assign_take aw ww x :
  (need aw ≤ length ww)%nat → assign aw (take (need aw) ww ++ x) = assign aw ww.
Proof.
  revert ww; induction aw as [|a aw IH]; intros ww Hl; [done|].
  change (need (a :: aw)) with (w_beats a + need aw)%nat in *. cbn [assign]. f_equal.
  - f_equal. rewrite take_app_le by (rewrite length_take; lia). rewrite take_take. f_equal. lia.
  - rewrite drop_app_le by (rewrite length_take; lia). rewrite <- (IH (drop (w_beats a) ww)).
    + do 2 f_equal. rewrite firstn_skipn_comm. done.
    + rewrite length_drop. lia.
Qed.

(** A beat goes to the first write that lacks data. *)
Fixpoint add_beat (w : w_beat) (l : list entry) : list entry :=
  match l with
  | [] => []
  | e :: l' =>
      if (length e.2 <? w_beats e.1)%nat then (e.1, e.2 ++ [w]) :: l' else e :: add_beat w l'
  end.

Lemma assign_snoc_w aw ww w : assign aw (ww ++ [w]) = add_beat w (assign aw ww).
Proof.
  revert ww; induction aw as [|a aw IH]; intros ww; [done|]. cbn [assign add_beat fst snd].
  rewrite length_take.
  destruct (Nat.ltb_spec (w_beats a `min` length ww) (w_beats a)) as [Hlt|Hge].
  - rewrite !take_ge by (rewrite ?length_app; simpl; lia).
    by rewrite !drop_ge by (rewrite ?length_app; simpl; lia).
  - rewrite take_app_le, drop_app_le by lia. by rewrite IH.
Qed.

(** ** Reordered histories *)

(** [merge X P T]: [T] interleaves the issued entries [X] and the pending ones
    [P], and nothing issued comes after a pending entry of its key. *)
Inductive merge : list entry → list entry → list entry → Prop :=
| merge_nil : merge [] [] []
| merge_issued x X P T : merge X P T → merge (x :: X) P (x :: T)
| merge_pending p X P T :
    merge X P T → Forall (λ x, key x.1 ≠ key p.1) X → merge X (p :: P) (p :: T).

Lemma filter_none (k : Z * bool) (X : list entry) :
  Forall (λ x, key x.1 ≠ k) X → with_key k X = [].
Proof. induction 1 as [|x X Hx _ IH]; [done|]. unfold with_key. by rewrite filter_cons_False. Qed.

Lemma merge_with_key k X P T :
  merge X P T → with_key k X ++ with_key k P = with_key k T.
Proof.
  unfold with_key. induction 1 as [|x X P T _ IH|p X P T _ IH Hf]; [done| |].
  - rewrite !filter_cons. destruct (decide (key x.1 = k)); cbn; by rewrite IH.
  - rewrite !filter_cons. destruct (decide (key p.1 = k)) as [<-|]; [|done].
    pose proof (filter_none _ _ Hf) as E. unfold with_key in E. rewrite E in IH |- *.
    cbn in *. by rewrite IH.
Qed.

Lemma merge_snoc e X P T : merge X P T → merge X (P ++ [e]) (T ++ [e]).
Proof.
  induction 1; cbn; [repeat constructor|by constructor|by constructor].
Qed.

Lemma merge_add_beat w X P T :
  Forall complete X → merge X P T → merge X (add_beat w P) (add_beat w T).
Proof.
  intros HX. induction 1 as [|x X P T Hm IH|p X P T Hm IH Hf]; [constructor| |].
  - apply Forall_cons in HX as [Hx HX]. cbn [add_beat]. rewrite Hx, Nat.ltb_irrefl. constructor. by apply IH.
  - cbn [add_beat]. destruct (_ <? _)%nat; by constructor; auto.
Qed.

(** Issuing a pending entry that is the first of its key. *)
Lemma merge_issue e L R X T :
  Forall (λ x, key x.1 ≠ key e.1) L → merge X (L ++ e :: R) T →
  ∃ X', merge X' (L ++ R) T ∧ X' ≡ₚ e :: X ∧
        ∀ k, with_key k X' = with_key k X ++ with_key k [e].
Proof.
  intros HL Hm. remember (L ++ e :: R) as P eqn:EP. revert L HL EP.
  induction Hm as [|x X P T Hm IH|p X P T Hm IH Hf]; intros L HL EP.
  - by destruct L.
  - destruct (IH L HL EP) as (X' & Hm' & Hp & Hk).
    exists (x :: X'). split_and!; [by constructor|by rewrite Hp, Permutation_swap|].
    intros k. specialize (Hk k). unfold with_key in *. rewrite !filter_cons.
    destruct (decide (key x.1 = k)); cbn; by rewrite Hk.
  - destruct L as [|l L]; injection EP as -> ->.
    + exists (e :: X). split_and!; [by constructor|done|].
      intros k. unfold with_key. rewrite !filter_cons, filter_nil.
      destruct (decide (key e.1 = k)) as [<-|]; [|by rewrite app_nil_r].
      pose proof (filter_none _ _ Hf) as E. unfold with_key in E. by rewrite E.
    + apply Forall_cons in HL as [Hl HL]. destruct (IH L HL eq_refl) as (X' & Hm' & Hp & Hk).
      exists X'. split_and!; [|done|done]. cbn. constructor; [done|]. rewrite Hp. by constructor; auto.
Qed.

(** ** What leaves the window *)

Lemma prior_writes_need i aw : prior_writes i aw = need (take i aw).
Proof.
  unfold prior_writes, need. induction (take i aw) as [|a l IH]; [done|].
  rewrite filter_cons. cbn [fmap list_fmap]. unfold w_beats at 1, burst_len.
  destruct (a_w a); [rewrite decide_True by done|rewrite decide_False by done]; cbn in *;
    unfold burst_len in *; lia.
Qed.

Lemma same_id_key a p : same_id a p = true ↔ key p = key a.
Proof.
  unfold same_id, key. rewrite andb_true_iff, Z.eqb_eq, Bool.eqb_true_iff. split.
  - by intros [-> ->].
  - by intros [= -> ->].
Qed.

(** The balance between requests and data, and the data no request needs. *)
Definition surplus (aw : list a_t) (ww : list w_beat) : Z * list w_beat :=
  (Z.of_nat (length ww) - Z.of_nat (need aw), drop (need aw) ww).

Lemma list_find_split {A} (P : A → Prop) `{∀ x, Decision (P x)} l i x :
  list_find P l = Some (i, x) →
  ∃ l1 l2, l = l1 ++ x :: l2 ∧ i = length l1 ∧ P x ∧ Forall (λ y, ¬ P y) l1.
Proof.
  intros (Hi & Hx & Hmin)%list_find_Some. exists (take i l), (drop (S i) l).
  pose proof (lookup_lt_Some _ _ _ Hi). split_and!.
  - symmetry. by apply take_drop_middle.
  - rewrite length_take. lia.
  - done.
  - apply Forall_lookup. intros j y Hj. apply lookup_take_Some in Hj as [Hj ?]. by eapply Hmin.
Qed.

Lemma assign_keys (Q : Z * bool → Prop) aw ww :
  Forall (λ a, Q (key a)) aw → Forall (λ e : entry, Q (key e.1)) (assign aw ww).
Proof. intros H. revert ww; induction H; intros ww; constructor; auto. Qed.

Lemma pick_spec pos aw ww a ws aw' ww' :
  pick pos aw ww = Some (a, ws, aw', ww') →
  ∃ L R, assign aw ww = L ++ (a, ws) :: R ∧ assign aw' ww' = L ++ R ∧
    Forall (λ e : entry, key e.1 ≠ key a) L ∧ complete (a, ws) ∧ surplus aw' ww' = surplus aw ww ∧
    ∃ aw1 aw2, aw = aw1 ++ a :: aw2 ∧ aw' = aw1 ++ aw2.
Proof.
  unfold pick. destruct (aw !! pos) as [a0|]; [|done]. cbn [mbind option_bind].
  destruct (list_find _ aw) as [[i aaa]|] eqn:Ef; [|done]. cbn [mbind option_bind].
  apply list_find_split in Ef as (aw1 & aw2 & -> & -> & Hk & Hl). apply same_id_key in Hk.
  assert (∀ x, Forall (λ e : entry, key e.1 ≠ key aaa) (assign aw1 x)) as HL.
  { intros x. apply (assign_keys (λ k, k ≠ key aaa)). eapply Forall_impl; [exact Hl|].
    cbn. intros b Hb Eb. apply Hb, same_id_key. congruence. }
  rewrite prior_writes_need, take_app_length, delete_middle.
  assert (need (aw1 ++ aaa :: aw2) = need aw1 + (w_beats aaa + need aw2))%nat as Hn by apply need_app.
  unfold surplus, complete. rewrite assign_app, Hn. cbn [assign fst snd].
  destruct (a_w aaa) eqn:Ew.
  - destruct (Nat.ltb_spec (length ww) (need aw1 + burst_len aaa)) as [|Hge]; [done|].
    intros [= <- <- <- <-]. assert (w_beats aaa = burst_len aaa) as Hb by (unfold w_beats; by rewrite Ew).
    rewrite Hb in *. eexists (assign aw1 ww), _. split_and!; [done| |done| | |eauto].
    + rewrite assign_app, assign_take by lia. f_equal.
      rewrite drop_app_length' by (rewrite length_take; lia). by rewrite drop_drop.
    + rewrite length_take, length_drop. lia.
    + rewrite need_app, length_app, length_take, length_drop. f_equal; [lia|].
      rewrite drop_app_ge by (rewrite length_take; lia). rewrite length_take, drop_drop. f_equal. lia.
  - intros [= <- <- <- <-]. assert (w_beats aaa = 0%nat) as Hb by (unfold w_beats; by rewrite Ew).
    rewrite Hb in *. eexists (assign aw1 ww), _. split_and!; [done| |done|done| |eauto].
    + by rewrite assign_app, drop_0.
    + by rewrite need_app.
Qed.

(** ** The invariant of the window *)

Section order.
Context {E : Type}.
Variable send_write : write_t → E → E * list write_response_t.
Variable send_read : read_t → E → E * list read_response_t.
Variable efl : eam_flags.
Variable ins : nat → eam_in.
Variable fl : sw_flags.
Variable gen : nat → Z → Z.
Notation step := (sw_step send_write send_read efl ins fl gen).
Notation run := (sw_run send_write send_read efl ins fl gen).

Definition issued (evs : list sw_event) : list entry :=
  omap (λ e, match e with SwIssue a ws => Some (a, ws) | _ => None end) evs.
Definition arrived_a (os : list sw_op) : list a_t :=
  omap (λ o, match o with
             | OpSwAw m => Some (a_of_msg true m)
             | OpSwAr m => Some (a_of_msg false m)
             | _ => None end) os.
Definition arrived_w (os : list sw_op) : list w_beat :=
  omap (λ o, match o with OpSwW w => Some w | _ => None end) os.

Definition windows (s : axi_sw E) : list a_t * list w_beat := (sw_a_window s, sw_w_window s).

(** [As], [Ws]: what has arrived; [I]: what has been issued. *)
Definition window_inv (As : list a_t) (Ws : list w_beat) (I : list entry)
    (w : list a_t * list w_beat) : Prop :=
  ∃ X, merge X (assign w.1 w.2) (assign As Ws) ∧ Forall complete X ∧ X ≡ₚ I ∧
    (∀ k, with_key k X = with_key k I) ∧ surplus w.1 w.2 = surplus As Ws.

Lemma window_inv_a As Ws I aw ww a :
  window_inv As Ws I (aw, ww) → window_inv (As ++ [a]) Ws I (aw ++ [a], ww).
Proof.
  intros (X & Hm & Hc & Hp & Hk & Hs). exists X. cbn [fst snd] in *. split_and!; try done.
  - rewrite !assign_app. cbn [assign]. injection Hs as _ ->. by apply merge_snoc.
  - unfold surplus in *. injection Hs as Hl Hd. rewrite !need_app. f_equal; [lia|].
    by rewrite <- !drop_drop, Hd.
Qed.

Lemma window_inv_w As Ws I aw ww w :
  window_inv As Ws I (aw, ww) → window_inv As (Ws ++ [w]) I (aw, ww ++ [w]).
Proof.
  intros (X & Hm & Hc & Hp & Hk & Hs). exists X. cbn [fst snd] in *. split_and!; try done.
  - rewrite !assign_snoc_w. by apply merge_add_beat.
  - unfold surplus in *. injection Hs as Hl Hd. rewrite !length_app. cbn [length].
    f_equal; [lia|]. destruct (decide (need aw ≤ length ww)%nat).
    + rewrite !drop_app_le by lia. by rewrite Hd.
    + by rewrite !drop_ge by (rewrite length_app; simpl; lia).
Qed.

Lemma window_inv_issue As Ws I pos aw ww a ws aw' ww' :
  pick pos aw ww = Some (a, ws, aw', ww') → window_inv As Ws I (aw, ww) →
  window_inv As Ws (I ++ [(a, ws)]) (aw', ww').
Proof.
  intros (L & R & E1 & E2 & HL & Hc & Hs & _)%pick_spec (X & Hm & HX & Hp & Hk & Hs').
  cbn [fst snd] in *. rewrite E1 in Hm.
  destruct (merge_issue (a, ws) L R X _ HL Hm) as (X' & Hm' & Hp' & Hk').
  exists X'. cbn [fst snd]. rewrite E2. split_and!; [done| | | |congruence].
  - rewrite Hp'. by constructor.
  - rewrite Hp', Hp. apply Permutation_cons_append.
  - intros k. rewrite Hk', Hk. unfold with_key. by rewrite filter_app.
Qed.

(** ** Steps that only move responses *)

Definition sent_r (evs : list sw_event) : list r_beat :=
  omap (λ e, match e with SwR r _ => Some r | _ => None end) evs.
Definition sent_b (evs : list sw_event) : list b_beat :=
  omap (λ e, match e with SwB b _ => Some b | _ => None end) evs.

Definition width_ok (w : Z) : bool := (w =? 64) || (w =? 128) || (w =? 256) || (w =? 512).

(** The parts of the subordinate its queues do not include. *)
Definition sub_core (x : axi E) : list a_t * list w_beat * bus_error_list * bool :=
  (ax_a_q x, ax_w_q x, ax_hang x, ax_burst_active x).

Record moves (s : axi_sw E) (evs : list sw_event) (s' : axi_sw E) : Prop := {
  mv_windows : windows s' = windows s;
  mv_r : sent_r evs ++ sw_r_q s' ++ ax_r_q (sw_axi s') = sw_r_q s ++ ax_r_q (sw_axi s);
  mv_b : sent_b evs ++ sw_b_q s' ++ ax_b_q (sw_axi s') = sw_b_q s ++ ax_b_q (sw_axi s);
  mv_core : sub_core (sw_axi s') = sub_core (sw_axi s);
  mv_width : sw_data_width s' = sw_data_width s;
  mv_issued : issued evs = []
}.

Lemma sent_r_app e1 e2 : sent_r (e1 ++ e2) = sent_r e1 ++ sent_r e2.
Proof. apply omap_app. Qed.
Lemma sent_b_app e1 e2 : sent_b (e1 ++ e2) = sent_b e1 ++ sent_b e2.
Proof. apply omap_app. Qed.
Lemma issued_app e1 e2 : issued (e1 ++ e2) = issued e1 ++ issued e2.
Proof. apply omap_app. Qed.

Lemma moves_refl s : moves s [] s.
Proof. done. Qed.

Lemma moves_trans s1 e1 s2 e2 s3 : moves s1 e1 s2 → moves s2 e2 s3 → moves s1 (e1 ++ e2) s3.
Proof.
  intros [? ? ? ? ? Hi] [? ? ? ? ? Hi'].
  split; rewrite ?sent_r_app, ?sent_b_app, ?issued_app, <- ?app_assoc; try congruence.
  by rewrite Hi, Hi'.
Qed.

Lemma r_resp_loop_moves q s : ax_r_q (sw_axi s) = q → moves s [] (r_resp_loop fl q s).
Proof.
  revert s; induction q as [|r q IH]; intros s Hq; cbn [r_resp_loop];
    destruct (pt_full (sw_r_fifo s)); try apply moves_refl.
  change (@nil sw_event) with (@nil sw_event ++ []). eapply moves_trans; [|apply IH].
  - destruct (negb _); split; try done; cbn; rewrite Hq, <- ?app_assoc; done.
  - by destruct (negb _).
Qed.
Lemma r_resp_moves s : moves s [] (r_resp fl s).
Proof. by apply r_resp_loop_moves. Qed.

Lemma b_resp_loop_moves q s : ax_b_q (sw_axi s) = q → moves s [] (b_resp_loop q s).
Proof.
  revert s; induction q as [|b q IH]; intros s Hq; cbn [b_resp_loop];
    destruct (pt_full (sw_b_fifo s)); try apply moves_refl.
  change (@nil sw_event) with (@nil sw_event ++ []). eapply moves_trans; [|by apply IH].
  split; try done; cbn. rewrite Hq, <- ?app_assoc. done.
Qed.
Lemma b_resp_moves s : moves s [] (b_resp fl s).
Proof. unfold b_resp. destruct (swf_fast_write_response fl); [done|]. by apply b_resp_loop_moves. Qed.

Lemma all_resp_moves s : moves s [] (all_resp fl s).
Proof. apply (moves_trans _ [] (r_resp fl s) []); [apply r_resp_moves|apply b_resp_moves]. Qed.

Lemma r_dpi_moves s :
  width_ok (sw_data_width s) = true → moves s (r_dpi gen s).2 (r_dpi gen s).1.2.
Proof.
  intros Hw. unfold r_dpi. destruct (sw_r_q s) as [|r q] eqn:Eq; [apply moves_refl|].
  unfold width_ok in Hw. rewrite Hw. split; try done. cbn. by rewrite Eq.
Qed.

Lemma b_dpi_moves s : moves s (b_dpi gen s).2 (b_dpi gen s).1.2.
Proof.
  unfold b_dpi. destruct (sw_b_q s) as [|b q] eqn:Eq; [apply moves_refl|].
  split; try done. cbn. by rewrite Eq.
Qed.

Lemma r_dpi_all_moves q s :
  width_ok (sw_data_width s) = true → moves s (r_dpi_all gen q s).2 (r_dpi_all gen q s).1.2.
Proof.
  revert s; induction q as [|r q IH]; intros s Hw; cbn [r_dpi_all]; [apply moves_refl|].
  pose proof (r_dpi_moves s Hw) as H1. destruct (r_dpi gen s) as [[b s1] e1]. cbn [fst snd] in H1.
  specialize (IH s1). destruct (r_dpi_all gen q s1) as [[n s2] e2]. cbn [fst snd] in *.
  eapply moves_trans; [done|]. apply IH. by rewrite (mv_width _ _ _ H1).
Qed.

Lemma moves_pre s0 s evs s' :
  windows s0 = windows s → sw_r_q s0 = sw_r_q s → sw_b_q s0 = sw_b_q s → sw_axi s0 = sw_axi s →
  sw_data_width s0 = sw_data_width s → moves s0 evs s' → moves s evs s'.
Proof. intros E1 E2 E3 E4 E5 []. split; try congruence. Qed.

(** The steps that are not arrivals. *)
Definition quiet (o : sw_op) : bool :=
  match o with OpRq _ _ | OpBq _ _ | OpFlush _ _ _ | OpCallback => true | _ => false end.

Lemma quiet_moves o s s' evs :
  quiet o = true → width_ok (sw_data_width s) = true → step o s = Done (s', evs) → moves s evs s'.
Proof.
  intros Hq Hw. destruct o as [m|m|w|c p|c p|l c p| |]; try done; cbn [sw_step].
  - intros [= <- <-]. unfold process_rq. destruct (_ <? c); [|apply moves_refl].
    eapply moves_pre; [..|apply r_resp_moves]; done.
  - intros [= <- <-]. unfold process_bq. destruct (_ <? c); [|apply moves_refl].
    eapply moves_pre; [..|apply b_resp_moves]; done.
  - unfold process_blocking. destruct (_ && _); [intros [= <- <-]; apply moves_refl|].
    destruct (negb _); [done|].
    set (s1 := s <| sw_r_fifo ::= pt_report c p |>).
    assert (moves s [] (r_resp fl s1)) as H1 by (eapply moves_pre; [..|apply r_resp_moves]; done).
    destruct l; [intros [= <- <-]; done|].
    pose proof (r_dpi_all_moves (sw_r_q (r_resp fl s1)) (r_resp fl s1)) as H2.
    rewrite (mv_width _ _ _ H1) in H2. specialize (H2 Hw).
    destruct (r_dpi_all _ _ _) as [[n s2] e2]. cbn [fst snd] in H2.
    pose proof (moves_trans _ _ _ _ _ H1 H2) as H. cbn [app] in H.
    cbn [mbind outcome_bind]. intros [= <- <-].
    destruct H as [? ? ? ? ? ?].
    destruct (negb _ || _), (_ && _); split; rewrite ?sent_r_app, ?sent_b_app, ?issued_app;
      cbn [sent_r sent_b issued omap list_omap]; rewrite ?app_nil_r; done.
  - intros [= E0]. enough (moves s (run_callback gen s).2 (run_callback gen s).1) as H0 by (by rewrite E0 in H0).
    clear E0. unfold run_callback.
    destruct (sw_callbacks s) as [|c cs]; [apply moves_refl|].
    set (s1 := s <| sw_callbacks := cs |>).
    assert (moves s1 (match c with CbR => r_dpi gen s1 | CbB => b_dpi gen s1 end).2
      (match c with CbR => r_dpi gen s1 | CbB => b_dpi gen s1 end).1.2) as H.
    { destruct c; [by apply r_dpi_moves|apply b_dpi_moves]. }
    destruct c; [destruct (r_dpi gen s1) as [[??]?]|destruct (b_dpi gen s1) as [[??]?]];
      cbn [fst snd] in *; (eapply moves_pre; [..|exact H]; done).
Qed.

(** ** Arrivals *)

Lemma issued_sub evs : issued (SwSub <$> evs) = [] ∧ sent_r (SwSub <$> evs) = [] ∧ sent_b (SwSub <$> evs) = [].
Proof. induction evs as [|e evs IH]; [done|]. by destruct IH as (? & ? & ?). Qed.

Notation wait_a := (sub_a send_write send_read efl ins).
Notation wait_ws := (sub_ws send_write send_read efl ins).

(** Calls into the subordinate change nothing else. *)
Definition sub_only (s : axi_sw E) (evs : list sw_event) (s' : axi_sw E) : Prop :=
  s' = s <| sw_axi := sw_axi s' |> ∧ issued evs = [] ∧ sent_r evs = [] ∧ sent_b evs = [].

Lemma sub_only_trans s1 e1 s2 e2 s3 : sub_only s1 e1 s2 → sub_only s2 e2 s3 → sub_only s1 (e1 ++ e2) s3.
Proof.
  intros (E1 & I1 & R1 & B1) (E2 & I2 & R2 & B2).
  split; [by rewrite E2, E1|]. by rewrite issued_app, sent_r_app, sent_b_app, I1, I2, R1, R2, B1, B2.
Qed.

Lemma sub_a_only a s s' evs : wait_a a s = Done (s', evs) → sub_only s evs s'.
Proof.
  unfold sub_a. destruct (axi_a _ _ _ _ _ _) as [[x e]| |]; try done. cbn. intros [= <- <-].
  split; [done|apply issued_sub].
Qed.

Lemma sub_ws_only ws s s' evs : wait_ws ws s = Done (s', evs) → sub_only s evs s'.
Proof.
  revert s evs; induction ws as [|w ws IH]; intros s evs; cbn [sub_ws].
  - intros [= <- <-]. split; [by destruct s|done].
  - unfold sub_w. destruct (axi_w _ _ _ _ _ _) as [[x e]| |]; try done. cbn [mbind outcome_bind].
    set (s1 := s <| sw_axi := x |>).
    destruct (sub_ws _ _ _ _ ws s1) as [[s2 e2]| |] eqn:E2; try done. cbn. intros [= <- <-].
    eapply sub_only_trans; [|by apply IH]. split; [done|apply issued_sub].
Qed.

(** An attempt to issue: nothing happens, or one picked transaction leaves. *)
Lemma pop_cases oldest s b s' evs :
  pop_reorder_q send_write send_read efl ins gen oldest s = Done (b, s', evs) →
  (windows s' = windows s ∧ sw_axi s' = sw_axi s ∧ sw_r_q s' = sw_r_q s ∧ sw_b_q s' = sw_b_q s ∧
   sw_data_width s' = sw_data_width s ∧ evs = []) ∨
  ∃ pos a ws aw ww s1 e1 s2 e2,
    pick pos (sw_a_window s) (sw_w_window s) = Some (a, ws, aw, ww) ∧
    windows s1 = (aw, ww) ∧ sw_axi s1 = sw_axi s ∧ sw_r_q s1 = sw_r_q s ∧ sw_b_q s1 = sw_b_q s ∧
    sw_data_width s1 = sw_data_width s ∧
    wait_a a s1 = Done (s2, e1) ∧ wait_ws ws s2 = Done (s', e2) ∧ evs = SwIssue a ws :: e1 ++ e2.
Proof.
  unfold pop_reorder_q. destruct (sw_a_window s) as [|a0 aw0] eqn:Ea.
  { intros [= <- <- <-]. left. unfold windows. by rewrite Ea. }
  rewrite <- Ea.
  set (ps := if oldest then _ else _).
  assert (∃ pos s0, ps = (pos, s0) ∧ windows s0 = windows s ∧ sw_axi s0 = sw_axi s ∧
    sw_r_q s0 = sw_r_q s ∧ sw_b_q s0 = sw_b_q s ∧ sw_data_width s0 = sw_data_width s)
    as (pos & s0 & -> & Hw & Hx & Hr & Hb & Hd) by (subst ps; destruct oldest; eauto 10).
  pose proof Hw as Hw'. injection Hw' as -> ->.
  destruct (pick pos (sw_a_window s) (sw_w_window s)) as [[[[a ws] aw] ww]|] eqn:Ep.
  2: { intros [= <- <- <-]. left. split_and!; try done. }
  set (s1 := s0 <| sw_a_window := aw |> <| sw_w_window := ww |>).
  destruct (sub_a _ _ _ _ a s1) as [[s2 e1]| |] eqn:E1; try done. cbn [mbind outcome_bind].
  destruct (sub_ws _ _ _ _ ws s2) as [[s3 e2]| |] eqn:E2; try done. cbn [mbind outcome_bind].
  intros [= <- <- <-]. right. exists pos, a, ws, aw, ww, s1, e1, s2, e2. split_and!; done.
Qed.

(** One step keeps the invariant. *)
Lemma pop_window As Ws I oldest s b s' evs :
  pop_reorder_q send_write send_read efl ins gen oldest s = Done (b, s', evs) →
  window_inv As Ws I (windows s) →
  window_inv As Ws (I ++ issued evs) (windows s') ∧ sw_data_width s' = sw_data_width s.
Proof.
  intros [(Hw & _ & _ & _ & Hd & ->)|(pos & a & ws & aw & ww & s1 & e1 & s2 & e2 & Ep & H)]%pop_cases Hi.
  { rewrite Hw, app_nil_r. done. }
  destruct H as (Hw1 & _ & _ & _ & Hd & (E1 & I1 & _)%sub_a_only & (E2 & I2 & _)%sub_ws_only & ->).
  cbn [issued omap list_omap]. change (omap _ (e1 ++ e2)) with (issued (e1 ++ e2)).
  rewrite issued_app, I1, I2. split; [|by rewrite E2, E1].
  assert (windows s' = (aw, ww)) as -> by (rewrite <- Hw1, E2, E1; done).
  by eapply window_inv_issue.
Qed.

Lemma step_window As Ws I o s s' evs :
  direct fl = false → width_ok (sw_data_width s) = true → step o s = Done (s', evs) →
  window_inv As Ws I (windows s) →
  window_inv (As ++ arrived_a [o]) (Ws ++ arrived_w [o]) (I ++ issued evs) (windows s') ∧
  sw_data_width s' = sw_data_width s.
Proof.
  intros Hdir Hw Hs Hi. destruct (quiet o) eqn:Hq.
  { pose proof (quiet_moves o s s' evs Hq Hw Hs) as [-> _ _ _ Hd ->].
    assert (arrived_a [o] = [] ∧ arrived_w [o] = []) as [-> ->] by (by destruct o).
    by rewrite !app_nil_r. }
  assert (∀ s0 As' Ws', window_inv As' Ws' I (windows s0) → sw_data_width s0 = sw_data_width s →
    then_resp fl (pop_if_full send_write send_read efl ins fl gen s0) = Done (s', evs) →
    window_inv As' Ws' (I ++ issued evs) (windows s') ∧ sw_data_width s' = sw_data_width s) as Hpop.
  { intros s0 As' Ws' Hi0 Hd0. unfold then_resp, pop_if_full.
    destruct (_ <=? _); cbn [mbind outcome_bind].
    - destruct (pop_reorder_q _ _ _ _ _ _ s0) as [[[b s1] e1]| |] eqn:Ep; try done. cbn [mbind outcome_bind].
      intros [= <- <-]. destruct (pop_window As' Ws' I _ _ _ _ _ Ep Hi0) as [Hi1 Hd1].
      pose proof (all_resp_moves s1) as [-> _ _ _ -> _]. split; congruence || done.
    - intros [= <- <-]. pose proof (all_resp_moves s0) as [-> _ _ _ -> _]. by rewrite app_nil_r. }
  destruct o as [m|m|w|c p|c p|l c p| |]; try done; cbn [sw_step] in Hs;
    unfold process_aw, process_ar, sw_process_w, accept_a in Hs; rewrite ?Hdir in Hs.
  - change (arrived_w _) with (@nil w_beat). rewrite (app_nil_r Ws). eapply Hpop; [|..|exact Hs]; [by apply window_inv_a|done].
  - change (arrived_w _) with (@nil w_beat). rewrite (app_nil_r Ws). eapply Hpop; [|..|exact Hs]; [by apply window_inv_a|done].
  - change (arrived_a _) with (@nil a_t). rewrite (app_nil_r As). eapply Hpop; [|..|exact Hs]; [by apply window_inv_w|done].
  - change (arrived_a _) with (@nil a_t). change (arrived_w _) with (@nil w_beat).
    rewrite !app_nil_r. unfold process_reorder_flush in Hs.
    destruct (sw_a_window s) eqn:Ea; [injection Hs as <- <-; by rewrite app_nil_r|].
    destruct (pop_reorder_q _ _ _ _ _ _ s) as [[[b s1] e1]| |] eqn:Ep; try done. cbn in Hs.
    injection Hs as <- <-. destruct (pop_window As Ws I _ _ _ _ _ Ep Hi) as [Hi1 Hd1].
    pose proof (all_resp_moves s1) as [-> _ _ _ -> _]. done.
Qed.

Lemma run_window As Ws I os s s' evs :
  direct fl = false → width_ok (sw_data_width s) = true → run os s = Done (s', evs) →
  window_inv As Ws I (windows s) →
  window_inv (As ++ arrived_a os) (Ws ++ arrived_w os) (I ++ issued evs) (windows s').
Proof.
  intros Hdir. revert As Ws I s evs; induction os as [|o os IH]; intros As Ws I s evs Hw; cbn [sw_run].
  { intros [= <- <-]. by rewrite !app_nil_r. }
  destruct (sw_step _ _ _ _ _ _ o s) as [[s1 e1]| |] eqn:E1; try done. cbn [mbind outcome_bind].
  destruct (sw_run _ _ _ _ _ _ os s1) as [[s2 e2]| |] eqn:E2; try done. cbn [mbind outcome_bind].
  intros [= <- <-] Hi. destruct (step_window As Ws I o s s1 e1 Hdir Hw E1 Hi) as [Hi1 Hd1].
  rewrite issued_app. change (o :: os) with ([o] ++ os). unfold arrived_a, arrived_w.
  rewrite !omap_app, !app_assoc. apply (IH _ _ _ s1); [by rewrite Hd1|done|done].
Qed.

(** ** Progress and order of the responses

    From here on the system answers what it is sent. *)

Hypothesis write_answered : ∀ w e, Exists (λ r, wr_id r = w_id w) (send_write w e).2.
Hypothesis read_answered : ∀ r e, Exists (λ p, rr_id p = r_id r) (send_read r e).2.

Definition idle (x : axi E) : Prop :=
  ax_a_q x = [] ∧ ax_w_q x = [] ∧ no_hang x ∧ ax_burst_active x = false.

(** What a complete transaction adds to the response queues. *)
Definition answered (l : list entry) (x x' : axi E) : Prop :=
  (r_tag <$> ax_r_q x') =
    (r_tag <$> ax_r_q x) ++ mjoin ((λ e : entry, r_tags e.1 (burst_len e.1)) <$> l) ∧
  (bb_id <$> ax_b_q x') =
    (bb_id <$> ax_b_q x) ++ (a_id <$> filter (λ a, a_w a = true) (fst <$> l)).

Lemma operator_done (x : axi E) :
  Forall plain (ax_a_q x) → no_hang x → ax_burst_active x = false →
  let '(run, rest) := runnable (ax_a_q x) (length (ax_w_q x)) in
  ∃ x' evs, axi_operator send_write send_read efl ins x = Done (x', evs) ∧
    ax_a_q x' = rest ∧ ax_burst_active x' = false ∧
    (bb_id <$> ax_b_q x') = (bb_id <$> ax_b_q x) ++ (a_id <$> filter (λ a, a_w a = true) run) ∧
    (r_tag <$> ax_r_q x') =
      (r_tag <$> ax_r_q x) ++ mjoin ((λ a, r_tags a (Z.to_nat (a_len a + 1))) <$> run) ∧
    ax_w_q x' = drop (sum_list (w_beats <$> run)) (ax_w_q x) ∧ no_hang x'.
Proof. intros Hq Hh Ha. unfold axi_operator. rewrite Ha. by apply axi_loop_done. Qed.

(** The last beat of the only queued write starts it; earlier ones wait. *)
Lemma axi_w_done a w ws0 (x : axi E) :
  plain a → ax_a_q x = [a] → ax_w_q x = ws0 → no_hang x → ax_burst_active x = false →
  a_w a = true → (length ws0 < w_beats a)%nat →
  ∃ x' evs, axi_w send_write send_read efl ins w x = Done (x', evs) ∧
    if decide (length ws0 + 1 = w_beats a)%nat
    then idle x' ∧ answered [(a, ws0 ++ [w])] x x'
    else ax_a_q x' = [a] ∧ ax_w_q x' = ws0 ++ [w] ∧ no_hang x' ∧ ax_burst_active x' = false ∧
         answered [] x x'.
Proof.
  intros Hp Haq Hwq Hh Hact Haw Hlt. unfold axi_w.
  set (x1 := x <| ax_w_q ::= enqueue w |>).
  assert (ax_w_q x1 = ws0 ++ [w]) as Hw1 by (unfold x1, enqueue; cbn; by rewrite Hwq).
  assert (ax_a_q x1 = [a]) as Ha1 by done.
  pose proof (operator_done x1) as H. rewrite Ha1, Hw1 in H.
  specialize (H ltac:(by constructor) Hh Hact). cbn [runnable] in H.
  rewrite length_app in H. cbn [length] in H.
  destruct (decide _) as [Heq|Hne].
  - rewrite (proj2 (Nat.leb_le _ _)) in H by lia.
    destruct H as (x' & evs & E0 & HA & HAct & HB & HR & HW & HH). exists x', evs. split; [done|].
    assert (ax_w_q x' = []) as Hnil.
    { rewrite HW. cbn. apply drop_ge. rewrite length_app. cbn. lia. }
    split; [done|]. unfold answered. rewrite HR, HB. cbn [fst fmap list_fmap].
    rewrite (filter_cons_True _ a) by done. done.
  - rewrite (proj2 (Nat.leb_gt _ _)) in H by lia.
    destruct H as (x' & evs & E0 & HA & HAct & HB & HR & HW & HH). exists x', evs. split; [done|].
    unfold answered. rewrite HR, HB, HA, HW. done.
Qed.

Lemma sub_ws_done a ws s :
  plain a → ax_a_q (sw_axi s) = [a] → no_hang (sw_axi s) → ax_burst_active (sw_axi s) = false →
  a_w a = true → ws ≠ [] → (length (ax_w_q (sw_axi s)) + length ws = w_beats a)%nat →
  ∃ s' evs, wait_ws ws s = Done (s', evs) ∧ idle (sw_axi s') ∧
    answered [(a, ax_w_q (sw_axi s) ++ ws)] (sw_axi s) (sw_axi s').
Proof.
  intros Hp. revert s; induction ws as [|w ws IH]; intros s Ha Hh Hact Haw Hne Hl; [done|].
  cbn [sub_ws length] in *. unfold sub_w.
  destruct (axi_w_done a w (ax_w_q (sw_axi s)) (sw_axi s)) as (x1 & e1 & -> & H1); try done; [lia|].
  cbn [mbind outcome_bind]. set (s1 := s <| sw_axi := x1 |>).
  destruct ws as [|w' ws]; [|clear Hne].
  - cbn [length] in Hl. rewrite decide_True in H1 by lia. cbn. eexists _, _. split; [done|]. done.
  - rewrite decide_False in H1 by (cbn in Hl; lia). destruct H1 as (A1 & W1 & H1 & B1 & R1).
    destruct (IH s1) as (s2 & e2 & -> & Hid & R2); try done.
    { subst s1. cbn. rewrite W1, length_app. cbn in *. lia. }
    cbn [mbind outcome_bind]. eexists _, _. split; [done|]. split; [done|].
    unfold answered in *. subst s1. cbn [sw_axi modify] in R2. destruct R1 as [R1 B1'], R2 as [R2 B2'].
    rewrite R2, B2', R1, B1'. cbn [fmap list_fmap]. rewrite app_nil_r. cbn. by rewrite !app_nil_r.
Qed.

(** A whole complete transaction, handed to an idle subordinate. *)
Lemma sub_group_done a ws s :
  plain a → complete (a, ws) → idle (sw_axi s) →
  ∃ s1 e1 s2 e2, wait_a a s = Done (s1, e1) ∧ wait_ws ws s1 = Done (s2, e2) ∧
    idle (sw_axi s2) ∧ answered [(a, ws)] (sw_axi s) (sw_axi s2).
Proof.
  intros Hp Hc (Ha & Hw & Hh & Hact). unfold sub_a, axi_a.
  set (x0 := if a_cache a <=? DEV_BUF then _ else _).
  assert (ax_a_q x0 = [] ∧ ax_w_q x0 = [] ∧ no_hang x0 ∧ ax_burst_active x0 = false ∧
    ax_r_q x0 = ax_r_q (sw_axi s) ∧ ax_b_q x0 = ax_b_q (sw_axi s)) as (Ha0 & Hw0 & Hh0 & Hact0 & Hr0 & Hb0)
    by (subst x0; by destruct (_ <=? _)).
  clearbody x0. set (x1 := x0 <| ax_a_q ::= enqueue a |>).
  assert (ax_a_q x1 = [a]) as Ha1 by (unfold x1, enqueue; cbn; by rewrite Ha0).
  pose proof (operator_done x1) as H. rewrite Ha1 in H.
  change (ax_w_q x1) with (ax_w_q x0) in H. rewrite Hw0 in H.
  specialize (H ltac:(by constructor) Hh0 Hact0). cbn [runnable length] in H.
  unfold complete in Hc. cbn [fst snd] in Hc.
  destruct (a_w a) eqn:Haw.
  - assert (0 < w_beats a)%nat as Hpos by (unfold w_beats; rewrite Haw; destruct Hp; lia).
    rewrite (proj2 (Nat.leb_gt _ _)) in H by lia.
    destruct H as (x2 & e2 & -> & HA & HAct & HB & HR & HW & HH). cbn [mbind outcome_bind].
    set (s1 := s <| sw_axi := x2 |>). cbn in HB, HR, HW. rewrite app_nil_r in HB, HR.
    destruct (sub_ws_done a ws s1) as (s2 & e3 & E3 & Hid & HR3); try done.
    { intros ->. cbn in Hc. lia. }
    { cbn. rewrite HW. cbn. lia. }
    eexists _, _, _, _. split_and!; [done|done|done|].
    unfold answered in *. subst s1. cbn [sw_axi modify] in HR3. rewrite HW in HR3. cbn [app] in HR3.
    rewrite HR, HB, Hr0, Hb0 in HR3. done.
  - assert (w_beats a = 0%nat) as H0 by (unfold w_beats; by rewrite Haw). rewrite H0 in H, Hc. cbn [Nat.leb] in H.
    apply nil_length_inv in Hc as ->.
    destruct H as (x2 & e2 & -> & HA & HAct & HB & HR & HW & HH). cbn [mbind outcome_bind].
    eexists _, _, _, _. split_and!; [done|done| |].
    + split_and!; try done. cbn. by rewrite HW, drop_nil.
    + unfold answered. cbn [sw_axi modify]. rewrite HR, HB. cbn [fst fmap list_fmap].
      rewrite (filter_cons_False _ a) by congruence. by rewrite <- Hr0, <- Hb0.
Qed.

Definition r_tags_of (l : list a_t) : list (Z * bool) := mjoin ((λ a, r_tags a (burst_len a)) <$> l).
Definition b_ids_of (l : list a_t) : list Z := a_id <$> filter (λ a, a_w a = true) l.

Lemma r_tags_of_app l k : r_tags_of (l ++ k) = r_tags_of l ++ r_tags_of k.
Proof. unfold r_tags_of. by rewrite fmap_app, join_app. Qed.
Lemma b_ids_of_app l k : b_ids_of (l ++ k) = b_ids_of l ++ b_ids_of k.
Proof. unfold b_ids_of. by rewrite filter_app, fmap_app. Qed.

(** All responses so far: sent to the hardware, waiting for their callback, or
    still with the subordinate. *)
Definition all_r (evs : list sw_event) (s : axi_sw E) : list r_beat :=
  sent_r evs ++ sw_r_q s ++ ax_r_q (sw_axi s).
Definition all_b (evs : list sw_event) (s : axi_sw E) : list b_beat :=
  sent_b evs ++ sw_b_q s ++ ax_b_q (sw_axi s).

Definition resp_inv (evs : list sw_event) (s : axi_sw E) : Prop :=
  idle (sw_axi s) ∧ Forall plain (sw_a_window s) ∧ width_ok (sw_data_width s) = true ∧
  (r_tag <$> all_r evs s) = r_tags_of (fst <$> issued evs) ∧
  (bb_id <$> all_b evs s) = b_ids_of (fst <$> issued evs).

Lemma resp_inv_moves evs s e s' : moves s e s' → resp_inv evs s → resp_inv (evs ++ e) s'.
Proof.
  intros [Hw Hr Hb Hc Hd Hi] ((Ha & Hwq & Hh & Hact) & Hp & Hwd & HR & HB).
  injection Hw as Hw _. injection Hc as Hc1 Hc2 Hc3 Hc4.
  unfold resp_inv, idle, no_hang, all_r, all_b in *.
  rewrite Hc1, Hc2, Hc3, Hc4, Hw, Hd, sent_r_app, sent_b_app, issued_app, Hi, app_nil_r.
  rewrite <- !app_assoc, Hr, Hb. done.
Qed.

Lemma pop_resp evs oldest s b s' e :
  pop_reorder_q send_write send_read efl ins gen oldest s = Done (b, s', e) →
  resp_inv evs s → resp_inv (evs ++ e) s'.
Proof.
  intros [(Hw & Hx & Hr & Hb & Hd & ->)|(pos & a & ws & aw & ww & s1 & e1 & s2 & e2 & Ep & H)]%pop_cases Hi.
  { apply (resp_inv_moves evs s); [|done]. split; try done; cbn; congruence. }
  destruct H as (Hw1 & Hx1 & Hr1 & Hb1 & Hd1 & Ea & Ews & ->).
  apply pick_spec in Ep as (_ & _ & _ & _ & _ & Hc & _ & aw1 & aw2 & Eaw & ->).
  destruct Hi as (Hid & Hp & Hwd & HR & HB). rewrite Eaw in Hp.
  apply Forall_app in Hp as [Hp1 [Hpa Hp2]%Forall_cons].
  destruct (sub_group_done a ws s1 Hpa Hc ltac:(by rewrite Hx1)) as (t1 & f1 & t2 & f2 & G1 & G2 & Hid2 & HR2 & HB2).
  rewrite Ea in G1. injection G1 as <- <-. rewrite Ews in G2. injection G2 as <- <-.
  apply sub_a_only in Ea as (E1 & I1 & R1 & B1). apply sub_ws_only in Ews as (E2 & I2 & R2 & B2).
  assert (sw_a_window s' = aw1 ++ aw2) as Hw' by (rewrite E2, E1; cbn; by injection Hw1).
  unfold resp_inv, all_r, all_b in *. rewrite Hw'.
  assert (issued (SwIssue a ws :: e1 ++ e2) = [(a, ws)]) as Hiss.
  { change (SwIssue a ws :: e1 ++ e2) with ([SwIssue a ws] ++ e1 ++ e2). by rewrite !issued_app, I1, I2. }
  assert (sent_r (SwIssue a ws :: e1 ++ e2) = [] ∧ sent_b (SwIssue a ws :: e1 ++ e2) = []) as [Hsr Hsb].
  { change (SwIssue a ws :: e1 ++ e2) with ([SwIssue a ws] ++ e1 ++ e2).
    by rewrite !sent_r_app, !sent_b_app, R1, R2, B1, B2. }
  rewrite sent_r_app, sent_b_app, issued_app, Hiss, Hsr, Hsb, !app_nil_r.
  split_and!; [done|by apply Forall_app|by rewrite E2, E1; cbn; rewrite Hd1| |].
  - rewrite (fmap_app _ (issued evs)), r_tags_of_app, <- HR, !fmap_app, HR2, Hx1, <- !app_assoc.
    do 2 f_equal. rewrite E2, E1. cbn. by rewrite Hr1.
  - rewrite (fmap_app _ (issued evs)), b_ids_of_app, <- HB, !fmap_app, HB2, Hx1, <- !app_assoc.
    do 2 f_equal. rewrite E2, E1. cbn. by rewrite Hb1.
Qed.

Lemma step_resp evs o s s' e :
  direct fl = false → step o s = Done (s', e) → Forall plain (arrived_a [o]) →
  resp_inv evs s → resp_inv (evs ++ e) s'.
Proof.
  intros Hdir Hs Ho Hi. destruct (quiet o) eqn:Hq.
  { apply (resp_inv_moves evs s); [|done]. apply quiet_moves with (o := o); try done. apply Hi. }
  assert (∀ s0, resp_inv evs s0 →
    then_resp fl (pop_if_full send_write send_read efl ins fl gen s0) = Done (s', e) →
    resp_inv (evs ++ e) s') as Hpop.
  { intros s0 Hi0. unfold then_resp, pop_if_full.
    destruct (_ <=? _); cbn [mbind outcome_bind].
    - destruct (pop_reorder_q _ _ _ _ _ _ s0) as [[[b s1] e1]| |] eqn:Ep; try done. cbn [mbind outcome_bind].
      intros [= <- <-]. rewrite <- (app_nil_r (evs ++ e1)).
      eapply resp_inv_moves; [apply all_resp_moves|]. by eapply pop_resp.
    - intros [= <- <-]. eapply resp_inv_moves; [apply all_resp_moves|done]. }
  destruct Hi as (Hid & Hp & Hwd & HR & HB).
  destruct o as [m|m|w|c p|c p|l c p| |]; try done; cbn [sw_step] in Hs;
    unfold process_aw, process_ar, sw_process_w, accept_a in Hs; rewrite ?Hdir in Hs.
  - eapply Hpop; [|exact Hs]. split_and!; try done. cbn. by apply Forall_app.
  - eapply Hpop; [|exact Hs]. split_and!; try done. cbn. by apply Forall_app.
  - eapply Hpop; [|exact Hs]. split_and!; try done.
  - unfold process_reorder_flush in Hs.
    destruct (sw_a_window s) eqn:Ea; [injection Hs as <- <-; rewrite app_nil_r; split_and!; try done; by rewrite Ea|].
    destruct (pop_reorder_q _ _ _ _ _ _ s) as [[[b s1] e1]| |] eqn:Ep; try done. cbn in Hs.
    injection Hs as <- <-. rewrite <- (app_nil_r (evs ++ e1)).
    eapply resp_inv_moves; [apply all_resp_moves|]. eapply pop_resp; [done|].
    split_and!; try done. by rewrite Ea.
Qed.

Lemma run_resp evs os s s' e :
  direct fl = false → run os s = Done (s', e) → Forall plain (arrived_a os) →
  resp_inv evs s → resp_inv (evs ++ e) s'.
Proof.
  intros Hdir. revert evs s e; induction os as [|o os IH]; intros evs s e; cbn [sw_run].
  { intros [= <- <-]. by rewrite app_nil_r. }
  destruct (sw_step _ _ _ _ _ _ o s) as [[s1 e1]| |] eqn:E1; try done. cbn [mbind outcome_bind].
  destruct (sw_run _ _ _ _ _ _ os s1) as [[s2 e2]| |] eqn:E2; try done. cbn [mbind outcome_bind].
  intros [= <- <-] Hpl Hi. change (o :: os) with ([o] ++ os) in Hpl.
  unfold arrived_a in Hpl. rewrite omap_app in Hpl. apply Forall_app in Hpl as [Hp1 Hp2].
  rewrite app_assoc. eapply IH; [done|done|]. by eapply step_resp.
Qed.

(** ** Draining the window *)

Lemma pick_0 a aw ww :
  (w_beats a ≤ length ww)%nat →
  pick 0 (a :: aw) ww = Some (a, take (w_beats a) ww, aw, drop (w_beats a) ww).
Proof.
  intros Hl. unfold pick. cbn [lookup list_lookup mbind option_bind list_find].
  rewrite decide_True by (by apply same_id_key). cbn [mbind option_bind].
  change (prior_writes 0 (a :: aw)) with 0%nat. unfold w_beats in *. destruct (a_w a); [|done].
  rewrite (proj2 (Nat.ltb_ge _ _)) by (unfold burst_len; lia). done.
Qed.

Lemma flush_one a aw s :
  sw_a_window s = a :: aw → plain a → idle (sw_axi s) → (w_beats a ≤ length (sw_w_window s))%nat →
  ∃ s' evs, step OpReorderFlush s = Done (s', evs) ∧
    windows s' = (aw, drop (w_beats a) (sw_w_window s)) ∧ idle (sw_axi s') ∧
    issued evs = [(a, take (w_beats a) (sw_w_window s))].
Proof.
  intros Ha Hp Hid Hl. cbn [sw_step]. unfold process_reorder_flush, pop_reorder_q.
  rewrite Ha, pick_0 by done. set (ws := take _ _).
  set (s1 := s <| sw_a_window := aw |> <| sw_w_window := drop (w_beats a) (sw_w_window s) |>).
  destruct (sub_group_done a ws s1 Hp) as (s2 & e1 & s3 & e2 & E1 & E2 & Hid3 & _); [|done|].
  { unfold complete, ws. cbn. rewrite length_take. lia. }
  rewrite E1. cbn [mbind outcome_bind]. rewrite E2. cbn [mbind outcome_bind].
  apply sub_a_only in E1 as (F1 & I1 & _). apply sub_ws_only in E2 as (F2 & I2 & _).
  pose proof (all_resp_moves s3) as [Mw _ _ Mc _ _]. injection Mc as M1 M2 M3 M4.
  eexists _, _. split; [done|]. split_and!.
  - rewrite Mw, F2, F1. done.
  - unfold idle, no_hang in *. by rewrite M1, M2, M3, M4.
  - change (SwIssue a ws :: e1 ++ e2) with ([SwIssue a ws] ++ e1 ++ e2). by rewrite !issued_app, I1, I2.
Qed.

Lemma flush_all aw s :
  sw_a_window s = aw → Forall plain aw → idle (sw_axi s) → (need aw ≤ length (sw_w_window s))%nat →
  ∃ s' evs, run (replicate (length aw) OpReorderFlush) s = Done (s', evs) ∧
    windows s' = ([], drop (need aw) (sw_w_window s)) ∧ issued evs = assign aw (sw_w_window s).
Proof.
  intros Ha Hp. revert s Ha; induction Hp as [|a aw Hpa Hp IH]; intros s Ha Hid Hl.
  { eexists _, _. split; [done|]. by unfold windows; rewrite Ha. }
  change (need (a :: aw)) with (w_beats a + need aw)%nat in *.
  destruct (flush_one a aw s Ha Hpa Hid) as (s1 & e1 & E1 & W1 & Hid1 & I1); [lia|].
  injection W1 as Wa Ww. destruct (IH s1 Wa Hid1) as (s2 & e2 & E2 & W2 & I2).
  { rewrite Ww, length_drop. lia. }
  cbn [length replicate sw_run]. rewrite E1. cbn [mbind outcome_bind]. rewrite E2. cbn [mbind outcome_bind].
  eexists _, _. split; [done|]. rewrite W2, issued_app, I1, I2, Ww, drop_drop. done.
Qed.
End order.

(** ** Theorems *)

(** Nothing has arrived yet. *)
Definition sw_fresh {E} (s : axi_sw E) : Prop :=
  sw_a_window s = [] ∧ sw_w_window s = [] ∧ sw_r_q s = [] ∧ sw_b_q s = [] ∧
  ax_r_q (sw_axi s) = [] ∧ ax_b_q (sw_axi s) = [] ∧ idle (sw_axi s).

Lemma fresh_window {E} (s : axi_sw E) : sw_fresh s → window_inv [] [] [] (windows s).
Proof.
  intros (Ha & Hw & _). exists []. unfold windows. rewrite Ha, Hw. split_and!; try done. constructor.
Qed.

Lemma assign_fst k aw ww : fst <$> with_key k (assign aw ww) = filter (λ a, key a = k) aw.
Proof.
  revert ww; induction aw as [|a aw IH]; intros ww; [done|]. unfold with_key in *. cbn [assign].
  rewrite !filter_cons. cbn [fst]. destruct (decide (key a = k)); cbn; by rewrite IH.
Qed.

Lemma with_key_fst k l : fst <$> with_key k l = filter (λ a, key a = k) (fst <$> l).
Proof.
  unfold with_key. induction l as [|e l IH]; [done|]. cbn [fmap list_fmap]. rewrite !filter_cons.
  destruct (decide (key e.1 = k)); cbn [fmap list_fmap]; by rewrite IH.
Qed.

(** C8: reordering is sound.  Whatever the interleaving of requests, data,
    flushes and hardware reports, and whatever indices are drawn, every
    transaction that leaves the reorder window carries exactly the data beats
    that belong to it in the order of arrival, and the transactions of one id
    and direction leave in the order they arrived: those issued, followed by
    those still pending, are those that arrived. *)
Theorem sw_reorder_sound {E} send_write send_read efl ins fl gen os (s s' : axi_sw E) evs :
  2 ≤ swf_reorder_window fl → width_ok (sw_data_width s) = true → sw_fresh s →
  sw_run send_write send_read efl ins fl gen os s = Done (s', evs) →
  Forall complete (issued evs) ∧
  ∀ k, with_key k (issued evs) ++ with_key k (assign (sw_a_window s') (sw_w_window s')) =
       with_key k (assign (arrived_a os) (arrived_w os)).
Proof.
  intros Hwin Hwd Hf Hrun.
  assert (direct fl = false) as Hd by (unfold direct; apply Z.leb_gt; lia).
  pose proof (run_window _ _ _ _ _ _ [] [] [] os s s' evs Hd Hwd Hrun (fresh_window s Hf)) as H.
  destruct H as (X & Hm & HX & HP & HK & _). cbn [app fst snd windows] in *. split.
  - by rewrite <- HP.
  - intros k. rewrite <- HK. by apply merge_with_key.
Qed.

Definition with_id (w : bool) (id : Z) (l : list a_t) : list a_t := filter (λ a, key a = (id, w)) l.

Lemma assign_elem e aw ww : e ∈ assign aw ww → e.1 ∈ aw.
Proof.
  revert ww; induction aw as [|a aw IH]; intros ww; [by intros ?%elem_of_nil|]. cbn [assign].
  intros [->|H]%elem_of_cons; [by left|right; by eapply IH].
Qed.

Lemma filter_tags (id i : Z) (g : nat → bool) (l : list nat) :
  filter (λ t, t.1 = id) ((λ k, (i, g k)) <$> l) =
  if decide (i = id) then (λ k, (i, g k)) <$> l else [].
Proof.
  induction l as [|k l IH]; [by destruct (decide _)|]. cbn [fmap list_fmap]. rewrite filter_cons.
  cbn [fst]. destruct (decide (i = id)); [by rewrite IH|done].
Qed.

Lemma filter_r_tags id l :
  Forall plain l → filter (λ t, t.1 = id) (r_tags_of l) = r_tags_of (with_id false id l).
Proof.
  induction 1 as [|a l [Hna Hla] _ IH]; [done|].
  change (r_tags_of (a :: l)) with (r_tags a (burst_len a) ++ r_tags_of l).
  rewrite filter_app, IH. unfold with_id. rewrite filter_cons.
  assert (filter (λ t, t.1 = id) (r_tags a (burst_len a)) =
          if decide (key a = (id, false)) then r_tags a (burst_len a) else []) as ->.
  { unfold r_tags, returns_data, key. rewrite bool_decide_true by done.
    destruct (a_w a); cbn [negb orb andb]; [by destruct (decide _)|].
    rewrite filter_tags. destruct (decide (a_id a = id)) as [->|], (decide _); congruence || done. }
  destruct (decide (key a = (id, false))); done.
Qed.

Lemma filter_b_ids id l :
  filter (λ i, i = id) (b_ids_of l) = b_ids_of (with_id true id l).
Proof.
  unfold b_ids_of, with_id. induction l as [|a l IH]; [done|]. rewrite !filter_cons.
  destruct (decide (a_w a = true)) as [Ew|Ew], (decide (key a = (id, true))) as [Ek|Ek];
    pose proof Ek as Ek'; unfold key in Ek'; try congruence.
  - rewrite filter_cons, decide_True by done. cbn [fmap list_fmap].
    rewrite filter_cons, decide_True by congruence. by rewrite IH.
  - cbn [fmap list_fmap]. rewrite filter_cons, decide_False by congruence. done.
Qed.

(** C9: responses of one id come back in the order of its requests.  With a
    system that answers and ordinary transactions, after any run of the reorder
    window the R beats produced for an id, sent to the hardware or on their
    way, are, one burst after the other with only its final beat marked last,
    those of the reads of that id in the order the reads arrived, up to the
    reads still in the window; each write is acknowledged once, in order too. *)
Theorem sw_response_order {E} send_write send_read efl ins fl gen os (s s' : axi_sw E) evs :
  (∀ w e, Exists (λ r, wr_id r = w_id w) (send_write w e).2) →
  (∀ r e, Exists (λ p, rr_id p = r_id r) (send_read r e).2) →
  2 ≤ swf_reorder_window fl → width_ok (sw_data_width s) = true → sw_fresh s →
  Forall plain (arrived_a os) →
  sw_run send_write send_read efl ins fl gen os s = Done (s', evs) →
  ∀ id,
    filter (λ t, t.1 = id) (r_tag <$> all_r evs s') ++ r_tags_of (with_id false id (sw_a_window s')) =
      r_tags_of (with_id false id (arrived_a os)) ∧
    filter (λ i, i = id) (bb_id <$> all_b evs s') ++ b_ids_of (with_id true id (sw_a_window s')) =
      b_ids_of (with_id true id (arrived_a os)).
Proof.
  intros Hsw Hsr Hwin Hwd Hf Hpl Hrun id.
  assert (direct fl = false) as Hd by (unfold direct; apply Z.leb_gt; lia).
  pose proof (run_window _ _ _ _ _ _ [] [] [] os s s' evs Hd Hwd Hrun (fresh_window s Hf)) as H.
  destruct H as (X & Hm & HX & HP & HK & _). cbn [app fst snd windows] in *.
  assert (∀ k, (λ l, filter (λ a, key a = k) (fst <$> issued evs) ++ l)
    (filter (λ a, key a = k) (sw_a_window s')) = filter (λ a, key a = k) (arrived_a os)) as Hkeys.
  { intros k. cbn. pose proof (merge_with_key k _ _ _ Hm) as Hk. rewrite HK in Hk.
    apply (f_equal (fmap fst)) in Hk. rewrite fmap_app, !assign_fst in Hk. rewrite <- Hk.
    by rewrite with_key_fst. }
  assert (Forall plain (fst <$> issued evs)) as Hpi.
  { apply Forall_forall. intros a Ha. rewrite Forall_forall in Hpl. apply Hpl.
    eapply (list_elem_of_filter (λ b, key b = key a)). rewrite <- (Hkeys (key a)). cbn.
    apply elem_of_app. left. by apply list_elem_of_filter. }
  destruct Hf as (Ha & Hw & Hr & Hb & Har & Hab & Hid).
  destruct (run_resp _ _ _ _ _ _ Hsw Hsr [] os s s' evs Hd Hrun Hpl) as (_ & _ & _ & HR & HB).
  { unfold resp_inv, all_r, all_b. rewrite Ha, Hr, Hb, Har, Hab. done. }
  cbn [app] in HR, HB. rewrite HR, HB, filter_r_tags, filter_b_ids by done.
  rewrite <- r_tags_of_app, <- b_ids_of_app. unfold with_id. by rewrite !Hkeys.
Qed.

(** The reorder window drains.  When the data of all requests in the
    window has arrived, as many timeouts as it holds requests empty it, each
    request leaving in arrival order with its data, and the handlers finish. *)
Theorem sw_flush_drains {E} send_write send_read efl ins fl gen (s : axi_sw E) :
  (∀ w e, Exists (λ r, wr_id r = w_id w) (send_write w e).2) →
  (∀ r e, Exists (λ p, rr_id p = r_id r) (send_read r e).2) →
  Forall plain (sw_a_window s) → idle (sw_axi s) →
  (need (sw_a_window s) ≤ length (sw_w_window s))%nat →
  ∃ s' evs,
    sw_run send_write send_read efl ins fl gen
      (replicate (length (sw_a_window s)) OpReorderFlush) s = Done (s', evs) ∧
    sw_a_window s' = [] ∧ sw_w_window s' = drop (need (sw_a_window s)) (sw_w_window s) ∧
    issued evs = assign (sw_a_window s) (sw_w_window s).
Proof.
  intros Hsw Hsr Hp Hid Hl.
  destruct (flush_all send_write send_read efl ins fl gen Hsw Hsr _ s eq_refl Hp Hid Hl)
    as (s' & evs & E0 & [= H1 H2] & H3). eauto 10.
Qed.

(** ** A concrete system *)

Definition sample_sw_axi : axi (gmap Z Z) := sample_axi <| ax_a_q := [] |> <| ax_w_q := [] |>.
Definition sample_sf (window : Z) : sw_flags := Sw_flags window false false (-1) false 0 0.
Definition sample_sw (window : Z) : axi_sw (gmap Z Z) :=
  (sw_new (sample_sf window) (0, 1) 64 4 8 4 8 sample_sw_axi).1.
Definition sample_msg (id addr len : Z) : chan_msg := Chan_msg id addr len 3 1 0 3 0 0 0 0 0.
(** Draws the last index of the window. *)
Definition sample_gen (k : nat) (n : Z) : Z := n - 1.
#[local] Notation sample_sw_run window os :=
  (sw_run mem_write_env mem_read_env sample_eam_flags (λ _, sample_in) (sample_sf window)
     sample_gen os (sample_sw window)).

(** Two writes of id 1 and a read of id 2 that overtakes them. *)
Definition sample_sw_ops : list sw_op :=
  [OpSwAw (sample_msg 1 0x1000 1); OpSwAw (sample_msg 1 0x2000 0); OpSwAr (sample_msg 2 0x1008 1);
   OpSwW (sample_beat [1;2;3;4;5;6;7;8] 0); OpSwW (sample_beat [11;12;13;14;15;16;17;18] 1);
   OpSwW (sample_beat [21;22;23;24;25;26;27;28] 1); OpCallback; OpCallback; OpReorderFlush; OpCallback;
   OpReorderFlush].

Lemma sample_sw_fresh w : sw_fresh (sample_sw w).
Proof. unfold sw_fresh, idle. split_and!; reflexivity. Qed.

Lemma done_inv {A} (P : A → Prop) (o : outcome A) :
  match o with Done x => P x | _ => False end → ∃ x, o = Done x ∧ P x.
Proof. destruct o; try done. eauto. Qed.

Lemma sample_sw_done :
  ∃ x, sample_sw_run 3 sample_sw_ops = Done x ∧ (a_id <$> (fst <$> issued x.2)) = [2; 1; 1].
Proof. apply done_inv. vm_compute. reflexivity. Qed.

Lemma sw_reorder_sound_witness :
  ∃ s evs, sample_sw_run 3 sample_sw_ops = Done (s, evs) ∧
    (a_id <$> (fst <$> issued evs)) = [2; 1; 1] ∧
    with_key (1, true) (issued evs) ++ with_key (1, true) (assign (sw_a_window s) (sw_w_window s)) =
      with_key (1, true) (assign (arrived_a sample_sw_ops) (arrived_w sample_sw_ops)).
Proof.
  destruct sample_sw_done as ([s evs] & E & Hd). exists s, evs. split; [exact E|]. split; [exact Hd|].
  exact (proj2 (sw_reorder_sound mem_write_env mem_read_env sample_eam_flags (λ _, sample_in)
    (sample_sf 3) sample_gen sample_sw_ops (sample_sw 3) s evs ltac:(vm_compute; congruence)
    eq_refl (sample_sw_fresh 3) E) (1, true)).
Defined.

Lemma sw_response_order_witness :
  ∃ s evs, sample_sw_run 3 sample_sw_ops = Done (s, evs) ∧
    filter (λ t, t.1 = 2) (r_tag <$> all_r evs s) ++ r_tags_of (with_id false 2 (sw_a_window s)) =
      [(2, false); (2, true)].
Proof.
  destruct sample_sw_done as ([s evs] & E & _). exists s, evs. split; [exact E|].
  change [(2, false); (2, true)] with (r_tags_of (with_id false 2 (arrived_a sample_sw_ops))).
  refine (proj1 (sw_response_order mem_write_env mem_read_env sample_eam_flags (λ _, sample_in)
    (sample_sf 3) sample_gen sample_sw_ops (sample_sw 3) s evs _ _ ltac:(vm_compute; congruence)
    eq_refl (sample_sw_fresh 3) _ E 2)).
  - intros w e. left. reflexivity.
  - intros r e. left. reflexivity.
  - repeat constructor; vm_compute; congruence.
Defined.

Definition sample_window : axi_sw (gmap Z Z) :=
  sample_sw 8 <| sw_a_window := [a_of_msg false (sample_msg 2 0x1008 0); a_of_msg true (sample_msg 1 0x1000 0)] |>
    <| sw_w_window := [sample_beat [1;2;3;4;5;6;7;8] 1] |>.
Lemma sw_flush_drains_witness :
  ∃ s evs, sw_run mem_write_env mem_read_env sample_eam_flags (λ _, sample_in) (sample_sf 8) sample_gen
             [OpReorderFlush; OpReorderFlush] sample_window = Done (s, evs) ∧ sw_a_window s = [].
Proof.
  destruct (sw_flush_drains mem_write_env mem_read_env sample_eam_flags (λ _, sample_in)
    (sample_sf 8) sample_gen sample_window) as (s & evs & E & Hw & _).
  - intros w e. left. reflexivity.
  - intros r e. left. reflexivity.
  - repeat constructor; vm_compute; congruence.
  - unfold idle. split_and!; reflexivity.
  - vm_compute. lia.
  - exists s, evs. split; [exact E|exact Hw].
Defined.

(** A read behind a write whose data has not come is not flushed. *)
Example sw_flush_blocked :
  match sample_sw_run 8 [OpSwAw (sample_msg 1 0x1000 0); OpSwAr (sample_msg 2 0x1008 0);
                         OpReorderFlush; OpReorderFlush] with
  | Done (s, evs) => length (sw_a_window s) = 2%nat ∧ issued evs = []
  | _ => False
  end.
Proof. vm_compute. split; reflexivity. Qed.

(** One read of two beats: the counter of pending reads is incremented once
    and decremented twice, so it ends at its largest value instead of 0. *)
Example sw_pending_reads_wrap :
  match sample_sw_run 0 [OpSwAr (sample_msg 2 0x1000 1)] with
  | Done (s, _) => length (sw_r_q s) = 2%nat ∧ sw_pending_reads s = 2 ^ 64 - 1
  | _ => False
  end.
Proof. vm_compute. split; reflexivity. Qed.

(** ** Bounds of the added latency *)

Lemma get_uint64_pair_range v lo hi :
  get_uint64_pair v = Some (true, lo, hi) → 0 ≤ lo < hi ∧ hi < 65536.
Proof.
  unfold get_uint64_pair. destruct (split_on ":" v) as [|a [|b [|]]]; try done.
  destruct (stoull 0 a) as [x|] eqn:Ea; [|done]. destruct (stoull 0 b) as [y|] eqn:Eb; [|done].
  cbn. destruct (_ || _) eqn:E; [done|]. intros [= <- <-]. apply stoull_u64 in Ea; [|done].
  zbool. unfold is_u64 in Ea. lia.
Qed.

(** The latency added to a read response lies in the configured range: for
    every option value the validator accepts as lo:hi and every draw, a beat is
    sent with a latency in lo..hi-1, without truncation; a write response is
    sent with that latency modulo 256. *)
Theorem sw_latency_bounds {E} gen fl v lo hi dw rm rp bm bp (ax : axi E) (s : axi_sw E) :
  (∀ k n, 0 < n → 0 ≤ gen k n < n) →
  get_uint64_pair v = Some (true, lo, hi) →
  sw_latency_min s = sw_latency_min (sw_new fl (lo, hi) dw rm rp bm bp ax).1 →
  sw_latency_max s = sw_latency_max (sw_new fl (lo, hi) dw rm rp bm bp ax).1 →
  (∀ r l, SwR r l ∈ (r_dpi gen s).2 → lo ≤ l < hi) ∧
  (∀ b l, SwB b l ∈ (b_dpi gen s).2 → ∃ d, lo ≤ d < hi ∧ l = d mod 256).
Proof.
  intros Hg (Hlo & Hhi)%get_uint64_pair_range. cbn. unfold u16.
  rewrite !(Z.mod_small _ (2 ^ 16)) by lia. intros Hmin Hmax.
  pose proof (Hg (sw_drawn s) (hi - lo) ltac:(lia)) as Hd. split.
  - intros r l. unfold r_dpi. rewrite Hmin, Hmax. destruct (sw_r_q s); [by intros ?%elem_of_nil|]. cbn [snd].
    destruct (_ || _); intros [= -> ->]%list_elem_of_singleton.
    unfold u16. rewrite Z.mod_small; lia.
  - intros b l. unfold b_dpi. rewrite Hmin, Hmax. destruct (sw_b_q s); [by intros ?%elem_of_nil|]. cbn [snd].
    intros [= -> ->]%list_elem_of_singleton. eexists. split; [|reflexivity]. lia.
Qed.

Definition sample_lat : axi_sw (gmap Z Z) :=
  (sw_new (sample_sf 0) (300, 301) 64 4 8 4 8 sample_sw_axi).1
    <| sw_r_q := [R_beat 1 0 [] true] |> <| sw_b_q := [B_beat 1 0] |>.
Lemma sw_latency_bounds_witness :
  (r_dpi sample_gen sample_lat).2 = [SwR (R_beat 1 0 [] true) 300] ∧
  (b_dpi sample_gen sample_lat).2 = [SwB (B_beat 1 0) 44] ∧
  ∀ r l, SwR r l ∈ (r_dpi sample_gen sample_lat).2 → 300 ≤ l < 301.
Proof.
  split; [vm_compute; reflexivity|]. split; [vm_compute; reflexivity|].
  apply (sw_latency_bounds sample_gen (sample_sf 0) "300:301" 300 301 64 4 8 4 8 sample_sw_axi sample_lat);
    try reflexivity. intros k n Hn. unfold sample_gen. lia.
Defined.
