(* ===== verification/Subdevice.v ===== *)
(** * Subdevice: the interface of the trickbox's sub-devices
    (src/sysmod/trickbox/subdevice.h)

    A sub-device is a device with two virtual methods, [write] and [read_dev].
    The trickbox offers every access to every sub-device, so what matters to it
    is which addresses a sub-device reacts to: the laws of the class.  The
    events are all that the sub-devices send, call or report.

    [None] is undefined behaviour, an uncaught exception or a loop that does
    not end. *)

From S2P Require Import Prelude Bytes Device Axi.

(** The AXI master a transaction goes to: the IOMMU's translation requests or
    the master at a topology location. *)
Inductive tb_port := PortIommu | PortMst (loc : Z).

Inductive tb_event :=
| TbA (p : tb_port) (a : a_t)                (* axi::a_t *)
| TbW (p : tb_port) (w : w_beat)             (* axi::w_t *)
| TbPoke (addr size data : Z)                (* whisperPokeMemRPC, hart 0, memory *)
| TbMsi (intr_num packed_data : Z)           (* directed_msi_request_t *)
| TbNmiOff (hart : Z)                        (* uint8_t 0 to INTERRUPTS of the hart *)
| TbMtiOff (hart : Z)                        (* uint16_t 0 to INTERRUPTS of the hart *)
| TbDebugReq (hart : Z) (set : bool)         (* debug_req_vld::request_t *)
| TbMemWrite (addr byte : Z)                 (* uc_helper_write_t of one byte *)
| TbMemRead (addr len : Z)                   (* uc_helper_read_req_t *)
| TbFailAddr (v : Z)                         (* eam::set_tb_fail_addr *)
| TbFailCnt (v : Z)
| TbFailEn (v : bool)
| TbDmi (hart upper lower : Z)               (* debugger::dmi_data_t *)
| TbResetLog                                 (* a line of reset_state.txt *)
| TbPcieWrite (addr offset : Z) (len : nat) (data : list Z) (* post_si_pcietc_helper_write_rpc *)
| TbPcieRead (addr offset : Z) (len : nat)
| TbError.                                   (* cvm::log(cvm::ERROR, ...) *)

#[export] Instance tb_port_eq_dec : EqDecision tb_port.
Proof. solve_decision. Defined.

Class Subdevice (S : Type) := {
  sd_hit : S → Z → bool;                     (* the addresses it reacts to *)
  sd_write : Z → nat → list Z → S → option (S * list tb_event);
  sd_read : Z → nat → list Z → S → option (S * list Z * list tb_event)
}.

Class SubdeviceLaws (S : Type) `{Subdevice S} : Prop := {
  sd_write_miss addr len data s : sd_hit s addr = false → sd_write addr len data s = Some (s, []);
  sd_read_miss addr len data s : sd_hit s addr = false → sd_read addr len data s = Some (s, data, [])
}.

(** A sequence of bus writes, with their data. *)
Fixpoint sd_writes {S} `{Subdevice S} (ws : list (Z * list Z)) (s : S) : option (S * list tb_event) :=
  match ws with
  | [] => Some (s, [])
  | (addr, data) :: ws =>
      match sd_write addr (length data) data s with
      | Some (s, es) => match sd_writes ws s with Some (s, es') => Some (s, es ++ es') | None => None end
      | None => None
      end
  end.

(** A relation between the state and what follows from the events, kept by
    every write, is kept by the sequence. *)
Lemma sd_writes_rel {S T} `{Subdevice S} (P : S → T → Prop) (f : T → tb_event → T) ws s t s' es :
  (∀ addr data s t s' es, P s t → sd_write addr (length data) data s = Some (s', es) → P s' (foldl f t es)) →
  P s t → sd_writes ws s = Some (s', es) → P s' (foldl f t es).
Proof.
  intros Hstep. revert s t es. induction ws as [|[addr data] ws IH]; intros s t es HP; cbn.
  { by intros [= <- <-]. }
  destruct (sd_write addr _ data s) as [[s1 e1]|] eqn:E1; [|done].
  destruct (sd_writes ws s1) as [[s2 e2]|] eqn:E2; [|done]. intros [= <- <-]. rewrite foldl_app.
  apply (IH s1 _ e2); [|done]. by eapply Hstep.
Qed.

(** ** Pokes of the reference simulator *)

Section pokes.
(** What the client's RPC returns and its [valid] output, and
    FLAGS_whisper_client_check. *)
Context (poke : Z → Z → Z → bool * bool) (client_check : bool).

Definition poke_fails (addr size data : Z) : bool :=
  let '(ret, valid) := poke addr size data in (negb ret || negb valid) && client_check.

(** Some callers ignore [valid]. *)
Definition poke_refused (addr size data : Z) : bool := negb (poke addr size data).1 && client_check.

(** Bytes [i .. i + n - 1] of [data_vec] at [addr + i ..], one by one; [true]
    when all succeed. *)
Fixpoint poke_vec (addr : Z) (i n : nat) (data_vec : list Z) : option (list tb_event * bool) :=
  match n with
  | O => Some ([], true)
  | S n =>
      b ← data_vec !! i;
      let e := TbPoke (u64 (addr + Z.of_nat i)) 1 b in
      if poke_fails (u64 (addr + Z.of_nat i)) 1 b then Some ([e; TbError], false)
      else match poke_vec addr (S i) n data_vec with Some (es, ok) => Some (e :: es, ok) | None => None end
  end.

Lemma poke_vec_all addr i n data :
  (∀ a n d, poke_fails a n d = false) → (i + n ≤ length data)%nat →
  poke_vec addr i n data =
    Some ((λ j, TbPoke (u64 (addr + Z.of_nat j)) 1 (at_z data j)) <$> seq i n, true).
Proof.
  intros Hpoke. revert i. induction n as [|n IH]; intros i Hi; [done|]. cbn.
  destruct (lookup_lt_is_Some_2 data i) as [b Hb]; [lia|]. rewrite Hb. cbn. rewrite Hpoke, IH by lia.
  by rewrite (at_z_Some _ _ _ Hb).
Qed.
End pokes.

(** ** AXI attributes shared by the masters of the trickbox *)

(** [log2] of an integer, converted back; zero has none. *)
Definition log2_size (n : Z) : option Z := if n =? 0 then None else Some (Z.log2 n).

Lemma log2_size_pos n : 1 ≤ n → log2_size n = Some (Z.log2 n).
Proof. intros. unfold log2_size. destruct (Z.eqb_spec n 0); [lia|done]. Qed.

Definition allow_decerr (addr size : Z) : bool :=
  negb (addr &&& 0x3 =? 0) || (size =? 0) || (size =? 1) || ((addr &&& 0x7 =? 4) && (3 <=? size)).

(** [PROT] from bit 55 of the address. *)
Definition prot_of (addr : Z) : Z := if Z.testbit addr 55 then 0 else 2.

Definition poke_ok : Z → Z → Z → bool * bool := λ _ _ _, (true, true).

(** ** Coroutines *)

(** The coroutines that waited for a message go on, in the order in which they
    began to wait. *)
Definition run_tasks {S T} (k : T → S → option (S * list tb_event)) (ts : list T) (s : S) : option (S * list tb_event) :=
  foldl (λ acc t, '(s, es) ← acc; '(s, es') ← k t s; Some (s, es ++ es')) (Some (s, [])) ts.

Lemma run_tasks_one {S T} (k : T → S → option (S * list tb_event)) t s : run_tasks k [t] s = k t s.
Proof. cbn. by destruct (k t s) as [[]|]. Qed.

(** An invariant of the tasks is one of the run. *)
Lemma run_tasks_inv {S T} (P : S → Prop) (Q : T → Prop) k (ts : list T) s :
  (∀ t s, P s → Q t → from_option (λ r : S * list tb_event, P r.1) True (k t s)) → P s → Forall Q ts →
  from_option (λ r : S * list tb_event, P r.1) True (run_tasks k ts s).
Proof.
  intros Hk Hs Hts. unfold run_tasks.
  assert (from_option (λ r : S * list tb_event, P r.1) True (Some (s, @nil tb_event))) as H0 by done.
  revert H0. generalize (Some (s, @nil tb_event)).
  induction Hts as [|t ts Ht Hts IH]; intros [[s1 es]|] H1; cbn; [exact H1|exact I| |].
  - apply IH. cbn in H1. pose proof (Hk t s1 H1 Ht) as H2. by destruct (k t s1) as [[]|].
  - by apply IH.
Qed.

(** Splitting off the waiter that began last. *)
Lemma filter_last {T} (p : T → bool) ts t :
  Forall (λ t, p t = false) ts → p t = true → base.filter (λ t, p t = true) (ts ++ [t]) = [t].
Proof.
  intros Hts Ht. rewrite filter_app, filter_cons_True by done. rewrite filter_nil.
  induction Hts as [|t' ts H' Hts IH]; [done|]. rewrite filter_cons_False; [done|congruence].
Qed.

Lemma filter_rest {T} (p : T → bool) ts t :
  Forall (λ t, p t = false) ts → p t = true → base.filter (λ t, p t = false) (ts ++ [t]) = ts.
Proof.
  intros Hts Ht. rewrite filter_app, filter_cons_False, filter_nil, app_nil_r by congruence.
  induction Hts as [|t' ts H' Hts IH]; [done|]. rewrite filter_cons_True by done. by rewrite IH.
Qed.
