(* ===== verification/Dma.v ===== *)
(** * Dma: the DMA engine of the trickbox (src/sysmod/trickbox/dma.{h,cpp})

    Software programs one of 64 transaction slots through buffers of
    addresses, data, sizes, commands and status bytes; writing status 1 starts
    the transfer as an AXI transaction of the IOMMU port.  A transfer is a
    coroutine: it runs up to the wait for its response when it is forked, and
    goes on when the response arrives.  What it keeps in local variables is in
    its [dma_task], what it keeps in members of the class is shared by all.

    [None] is undefined behaviour: an index outside an array or vector, the
    logarithm of zero converted to an integer. *)

From S2P Require Import Prelude Bytes Device Axi Subdevice.

Record dma_txn := Dma_txn {
  dt_addr : Z; dt_data : list Z; dt_size : Z; dt_cmd : Z; dt_status : Z; dt_virt : bool; dt_in_flight : bool
}.
#[export] Instance eta_dma_txn : Eta dma_txn := λ t,
  Dma_txn (dt_addr t) (dt_data t) (dt_size t) (dt_cmd t) (dt_status t) (dt_virt t) (dt_in_flight t).
Definition dma_txn_new : dma_txn := Dma_txn 0 (replicate 8 0) 0 0 0 false false.

(** A suspended coroutine, by what it waits for. *)
Inductive dma_task :=
| DmaWrite (id addr : Z) (data_vec : list Z)  (* blocking_write, for [b_t] *)
| DmaRead (id map_key : Z).                   (* handle_dma_read_request, for [r_t] *)

Record dma := Dma {
  dm_txns : gmap Z dma_txn;
  dm_write_data : list Z; dm_write_strb : list bool;
  dm_write_addr : Z; dm_write_size : Z; dm_map_key : Z; dm_read_addr : Z; dm_read_size : Z;
  dm_num_writes : Z; dm_axi_id : Z; dm_write_in_flight : bool; dm_read_in_flight : bool;
  dm_tasks : list dma_task
}.
#[export] Instance eta_dma : Eta dma := λ s,
  Dma (dm_txns s) (dm_write_data s) (dm_write_strb s) (dm_write_addr s) (dm_write_size s) (dm_map_key s)
    (dm_read_addr s) (dm_read_size s) (dm_num_writes s) (dm_axi_id s) (dm_write_in_flight s) (dm_read_in_flight s)
    (dm_tasks s).
Definition dma_new : dma := Dma ∅ [] [] 0 0 0 0 0 0 0 false false [].

Definition dma_base_addr : Z := 0x9090000.
Definition dma_addr_offset : Z := 0x0.
Definition dma_data_offset : Z := 0x200.
Definition dma_size_offset : Z := 0x1200.
Definition dma_cmd_offset : Z := 0x1240.
Definition dma_virt_offset : Z := 0x1280.
Definition dma_status_offset : Z := 0x12c0.

(** [dma_txn_map_[key]], which creates a missing entry. *)
Definition dma_slot (s : dma) (key : Z) : dma_txn := default dma_txn_new (dm_txns s !! key).
Definition upd_txn (key : Z) (f : dma_txn → dma_txn) (s : dma) : dma :=
  s <| dm_txns := <[key := f (dma_slot s key)]> (dm_txns s) |>.

(** The slot is unused or its transfer is not in flight. *)
Definition slot_free (s : dma) (key : Z) : bool :=
  match dm_txns s !! key with Some t => negb (dt_in_flight t) | None => true end.

Section dma.
Context (id : device_id).
Context (poke : Z → Z → Z → bool * bool) (client_check : bool).

(** ** Writes of the design's memory *)

(** [blocking_write] up to its wait. *)
Definition blocking_write_start (addr : Z) (s : dma) : option (dma * list tb_event) :=
  let i := dm_axi_id s in
  size ← log2_size (dm_write_size s);
  let n := Z.to_nat (dm_write_size s) in
  let a := A_t true i (dm_write_addr s) 0 size BURST_FIXED false 0
             (prot_of (dm_write_addr s)) 0 0 (atop_of_raw 0) 8 false
             (allow_decerr (dm_write_addr s) size) false 0 in
  if (length (dm_write_data s) <? n)%nat || (length (dm_write_strb s) <? n)%nat then None
  else Some (s <| dm_axi_id := u8 (i + 1) |> <| dm_write_in_flight := true |>
               <| dm_tasks ::= (λ ts, ts ++ [DmaWrite i addr (dm_write_data s)]) |>,
             [TbA PortIommu a; TbW PortIommu (W_beat (take n (dm_write_data s)) (take n (dm_write_strb s)) 1)]).

(** [blocking_write] behind its wait. *)
Definition blocking_write_end (addr : Z) (data_vec : list Z) (s : dma) : option (dma * list tb_event) :=
  let s := s <| dm_write_in_flight := false |> <| dm_write_strb := [] |> <| dm_write_data := [] |> in
  '(es, ok) ← poke_vec poke client_check addr 0 (Z.to_nat (dm_write_size s)) data_vec;
  Some (if (ok : bool) then s <| dm_num_writes ::= (λ n, u64 (n + 1)) |> else s, es).

Definition overlay_write (addr map_key : Z) (s : dma) : option (dma * list tb_event) :=
  '(s, es) ← blocking_write_start addr s;
  Some (upd_txn map_key (λ t, t <| dt_in_flight := false |> <| dt_status := 2 |>) s, es).

(** The bytes of the data buffers: one word for sizes up to 8, the words in
    descending order above. *)
Definition write_bytes (t : dma_txn) : option (list Z) :=
  let n := dt_size t in
  if (n =? 1) || (n =? 2) || (n =? 4) || (n =? 8) then Some (le_bytes (Z.to_nat n) (at_z (dt_data t) 0))
  else if (n =? 16) || (n =? 32) || (n =? 64) then
    Some (mjoin ((λ b : nat, le_bytes 8 (at_z (dt_data t) b)) <$> reverse (seq 0 (Z.to_nat (n / 8)))))
  else None.

(** ** Reads of the design's memory *)

(** [handle_dma_read_request] up to the wait of [blocking_read]. *)
Definition read_start (map_key : Z) (s : dma) : option (dma * list tb_event) :=
  let s := s <| dm_map_key := map_key |> <| dm_read_size := u8 (dt_size (dma_slot s map_key)) |> in
  let i := dm_axi_id s in
  size ← log2_size (dm_read_size s);
  let a := A_t false i (dm_read_addr s) 0 size BURST_FIXED false 0 2 0 0 (atop_of_raw 0) 0 false
             (allow_decerr (dm_read_addr s) size) false 0 in
  Some (s <| dm_axi_id := u8 (i + 1) |> <| dm_read_in_flight := true |>
          <| dm_tasks ::= (λ ts, ts ++ [DmaRead i map_key]) |>, [TbA PortIommu a]).

(** [value |= uint64_t(data[start + i]) << (i * 8)] for [i < n], upwards, and
    the same with the bytes taken downwards. *)
Fixpoint read_up (data : list Z) (start n : nat) : option Z :=
  match n with
  | O => Some 0
  | S n => b ← data !! start; v ← read_up data (S start) n; Some (b ||| (v ≪ 8))
  end.
Definition read_down (data : list Z) (start : nat) : option Z :=
  foldr (λ i v, v ← v; b ← data !! (start + 7 - i)%nat; Some ((b ≪ (8 * Z.of_nat i)) ||| v)) (Some 0) (seq 0 8).

Definition poke_addr (map_key : Z) (buffer : nat) : Z :=
  dma_base_addr + dma_addr_offset + map_key * 8 + Z.of_nat buffer * 8.

(** [data_t data[buffer] = value], then the poke; [false] when it fails. *)
Definition store_word (map_key : Z) (buffer : nat) (value poked : Z) (s : dma) : dma * list tb_event * bool :=
  let s := upd_txn map_key (λ t, t <| dt_data ::= <[buffer := value]> |>) s in
  if poke_fails poke client_check (poke_addr map_key buffer) 8 poked then (s, [TbPoke (poke_addr map_key buffer) 8 poked; TbError], false)
  else (s, [TbPoke (poke_addr map_key buffer) 8 poked], true).

(** The buffers [n - 1] down to 0 of a wide read. *)
Fixpoint dma_store_words (map_key : Z) (data : list Z) (off n : nat) (s : dma) : option (dma * list tb_event * bool) :=
  match n with
  | O => Some (s, [], true)
  | S b =>
      v ← read_down data (off + 8 * b);
      let '(s, e1, ok) := store_word map_key b v v s in
      if ok then
        match dma_store_words map_key data off b s with Some (s, e2, ok) => Some (s, e1 ++ e2, ok) | None => None end
      else Some (s, e1, false)
  end.

(** [case 4] pokes before it stores. *)
Definition poke_then_store (map_key value : Z) (s : dma) : dma * list tb_event * bool :=
  if poke_fails poke client_check (poke_addr map_key 0) 8 value then (s, [TbPoke (poke_addr map_key 0) 8 value; TbError], false)
  else (upd_txn map_key (λ t, t <| dt_data ::= <[0%nat := value]> |>) s, [TbPoke (poke_addr map_key 0) 8 value], true).

Definition completed (map_key : Z) : dma → dma := upd_txn map_key (λ t, t <| dt_in_flight := false |> <| dt_status := 2 |>).

(** Behind the wait: the rest of [blocking_read], of [overlay_read] and of
    [handle_dma_read_request]. *)
Definition read_end (map_key : Z) (data : list Z) (s : dma) : option (dma * list tb_event) :=
  let s := completed map_key (s <| dm_read_in_flight := false |>) in
  let off := Z.to_nat (dm_read_addr s &&& 0x3f) in
  let n := dt_size (dma_slot s map_key) in
  '(s, es, ok) ←
    (if n =? 1 then v ← data !! off; Some (store_word map_key 0 v 0 s)
     else if (n =? 2) || (n =? 8) then v ← read_up data off (Z.to_nat n); Some (store_word map_key 0 v v s)
     else if n =? 4 then v ← read_up data off 4; Some (poke_then_store map_key v s)
     else if (n =? 16) || (n =? 32) || (n =? 64) then dma_store_words map_key data off (Z.to_nat (n / 8)) s
     else Some (s, [TbError], false));
  Some (if (ok : bool) then completed map_key s else s, es).

(** ** Responses *)

Definition is_write_task (i : Z) (t : dma_task) : bool := match t with DmaWrite j _ _ => j =? i | _ => false end.
Definition is_read_task (i : Z) (t : dma_task) : bool := match t with DmaRead j _ => j =? i | _ => false end.

Definition resume (k : dma_task → dma → option (dma * list tb_event)) (p : dma_task → bool) (s : dma) :
    option (dma * list tb_event) :=
  run_tasks k (base.filter (λ t, p t = true) (dm_tasks s)) (s <| dm_tasks ::= base.filter (λ t, p t = false) |>).

Definition dma_b (b : b_beat) : dma → option (dma * list tb_event) :=
  resume (λ t s, match t with DmaWrite _ addr data => blocking_write_end addr data s | _ => Some (s, []) end)
    (is_write_task (bb_id b)).
Definition dma_r (r : r_beat) : dma → option (dma * list tb_event) :=
  resume (λ t s, match t with DmaRead _ key => read_end key (rb_data r) s | _ => Some (s, []) end)
    (is_read_task (rb_id r)).

(** ** Register accesses *)

(** A write with status 1 lets the request take flight. *)
Definition launch (key : Z) (s : dma) : option (dma * list tb_event) :=
  let s := upd_txn key (λ t, t <| dt_in_flight := true |>) s in
  let t := dma_slot s key in
  if dt_cmd t =? 1 then
    read_start key (s <| dm_read_addr := dt_addr t |> <| dm_read_size := u8 (dt_size t) |>)
  else if dt_cmd t =? 2 then
    let s := s <| dm_write_data := [] |> <| dm_write_strb := [] |> in
    match write_bytes t with
    | None => Some (s, [TbError])
    | Some bytes =>
        overlay_write (dt_addr t) key
          (s <| dm_write_data := bytes |> <| dm_write_strb := replicate (length bytes) true |>
             <| dm_write_addr := dt_addr t |> <| dm_write_size := u8 (dt_size t) |>)
    end
  else Some (s, []).

(** A field of a slot whose transfer is not in flight is set. *)
Definition set_field (key : Z) (f : dma_txn → dma_txn) (s : dma) : dma * list tb_event :=
  let s := s <| dm_map_key := key |> in
  if slot_free s key then (upd_txn key f s, []) else (s, [TbError]).

Definition dma_in_range (addr lo hi : Z) : bool := (dma_base_addr + lo <=? addr) && (addr <? dma_base_addr + hi).

Definition write_regs (addr v : Z) (s : dma) : option (dma * list tb_event) :=
  if dma_in_range addr dma_addr_offset dma_data_offset then
    let off := addr - (dma_base_addr + dma_addr_offset) in
    if negb (off mod 8 =? 0) then Some (s <| dm_map_key := u8 (off / 8) |>, [TbError])
    else Some (set_field (u8 (off / 8)) (λ t, t <| dt_addr := v |>) s)
  else if dma_in_range addr dma_data_offset dma_size_offset then
    let off := addr - (dma_base_addr + dma_data_offset) in
    let byte_index := u8 (off / 8) in
    if slot_free s (u8 (off / 64)) && negb (byte_index <? 8) then None
    else Some (set_field (u8 (off / 64)) (λ t, t <| dt_data ::= <[Z.to_nat byte_index := v]> |>) s)
  else if dma_in_range addr dma_size_offset dma_cmd_offset then
    Some (set_field (u8 (addr - (dma_base_addr + dma_size_offset))) (λ t, t <| dt_size := v |>) s)
  else if dma_in_range addr dma_cmd_offset dma_virt_offset then
    let key := u8 (addr - (dma_base_addr + dma_cmd_offset)) in
    if slot_free s key then
      if (v =? 1) || (v =? 2) then Some (set_field key (λ t, t <| dt_cmd := v |>) s)
      else Some (s <| dm_map_key := key |>, [TbError])
    else Some (s <| dm_map_key := key |>, [TbError])
  else if dma_in_range addr dma_virt_offset dma_status_offset then
    Some (set_field (u8 (addr - (dma_base_addr + dma_virt_offset))) (λ t, t <| dt_virt := (v =? 1) |>) s)
  else if dma_base_addr + dma_status_offset <=? addr then
    let off := addr - (dma_base_addr + dma_status_offset) in
    if 64 <? off then Some (s, [TbError])
    else
      let '(s, e1) := set_field (u8 off) (λ t, t <| dt_status := u8 v |>) s in
      if dt_status (dma_slot s (u8 off)) =? 1 then '(s, e2) ← launch (u8 off) s; Some (s, e1 ++ e2)
      else Some (s, e1)
  else Some (s, []).

Definition dma_write (addr : Z) (data : list Z) (s : dma) : option (dma * list tb_event) :=
  if negb (has_addr id addr) then Some (s, [])
  else
    let v := deserializeInt 8 data in
    if poke_fails poke client_check addr 8 v then Some (s, [TbPoke addr 8 v; TbError])
    else '(s, es) ← write_regs addr v s; Some (s, TbPoke addr 8 v :: es).

(** One of the tests of [read_dev]: the register is read when the address is
    in its range. *)
Definition read_field (hit : bool) (key : Z) (f : dma_txn → Z) (len : nat) (st : dma * list Z * list tb_event) :
    dma * list Z * list tb_event :=
  let '(s, data, es) := st in
  if hit then
    let s := s <| dm_map_key := key |> in
    match dm_txns s !! key with
    | Some t => (s, serializeInt (f t) len data, es)
    | None => (s, data, es ++ [TbError])
    end
  else st.

Definition dma_read_dev (addr : Z) (len : nat) (data : list Z) (s : dma) : dma * list Z * list tb_event :=
  if negb (has_addr id addr) then (s, data, [])
  else
    let off base := addr - (dma_base_addr + base) in
    let status := read_field (dma_base_addr + dma_status_offset <=? addr) (u8 (off dma_status_offset)) dt_status len in
    status
      (read_field (dma_in_range addr dma_virt_offset dma_status_offset) (u8 (off dma_virt_offset))
         (λ t, Z.b2z (dt_virt t)) len
      (read_field (dma_in_range addr dma_cmd_offset dma_virt_offset) (u8 (off dma_cmd_offset)) dt_cmd len
      (read_field (dma_in_range addr dma_size_offset dma_cmd_offset) (u8 (off dma_size_offset)) dt_size len
      (read_field (dma_in_range addr dma_data_offset dma_size_offset) (u8 (off dma_data_offset / 64))
         (λ t, at_z (dt_data t) 0) len
      (read_field (dma_in_range addr dma_addr_offset dma_data_offset) (u8 (off dma_addr_offset / 8)) dt_addr len
         (status (s, data, []))))))).

Definition dma_subdevice : Subdevice dma := {|
  sd_hit _ addr := has_addr id addr;
  sd_write addr _ data s := dma_write addr data s;
  sd_read addr len data s := Some (dma_read_dev addr len data s)
|}.
End dma.

(** ** Lemmas *)

Section dma_lemmas.
Context (id : device_id) (poke : Z → Z → Z → bool * bool) (client_check : bool).
Hypothesis Hid : dbase id = dma_base_addr ∧ dsize id = 0x2000.
(** The reference simulator accepts every poke, or none is checked. *)
Hypothesis Hpoke : ∀ a n d, poke_fails poke client_check a n d = false.

Lemma dma_has_addr addr : dma_base_addr ≤ addr < dma_base_addr + 0x2000 → has_addr id addr = true.
Proof.
  destruct Hid as [H1 H2]. unfold has_addr. rewrite H1, H2. change (u64 _) with (dma_base_addr + 0x2000). lia.
Qed.

Lemma dma_slot_upd key f s : dma_slot (upd_txn key f s) key = f (dma_slot s key).
Proof. unfold upd_txn, dma_slot at 1. cbn. by rewrite lookup_insert_eq. Qed.
Lemma dma_slot_upd_ne key k f s : key ≠ k → dma_slot (upd_txn key f s) k = dma_slot s k.
Proof. intros. unfold upd_txn, dma_slot. cbn. by rewrite lookup_insert_ne. Qed.

Lemma write_bytes_length t bs :
  write_bytes t = Some bs → length bs = Z.to_nat (dt_size t) ∧ 1 ≤ dt_size t ≤ 64.
Proof.
  unfold write_bytes. destruct (_ || (dt_size t =? 8)) eqn:E; [|destruct (_ || (dt_size t =? 64)) eqn:E'].
  - intros [= <-]. rewrite length_le_bytes. lia.
  - intros [= <-]. assert (dt_size t = 16 ∨ dt_size t = 32 ∨ dt_size t = 64) as [-> | [-> | ->]] by lia; done.
  - done.
Qed.

Lemma resume_one k p s t :
  base.filter (λ t, p t = true) (dm_tasks s) = [t] →
  resume k p s = k t (s <| dm_tasks ::= base.filter (λ t, p t = false) |>).
Proof. intros E. unfold resume. by rewrite E, run_tasks_one. Qed.

(** The address of the status byte of a slot. *)
Definition status_reg (key : Z) : Z := dma_base_addr + dma_status_offset + key.

Lemma dma_in_range_above addr lo hi : dma_base_addr + hi ≤ addr → dma_in_range addr lo hi = false.
Proof. intros. apply andb_false_iff. right. lia. Qed.
Lemma u8_key key : 0 ≤ key ≤ 63 → u8 key = key.
Proof. intros. apply Z.mod_small. lia. Qed.

Lemma write_status key data s :
  0 ≤ key ≤ 63 → slot_free s key = true → deserializeInt 8 data = 1 →
  dma_write id poke client_check (status_reg key) data s =
    '(s', es) ← launch key (upd_txn key (λ t, t <| dt_status := 1 |>) (s <| dm_map_key := key |>));
    Some (s', TbPoke (status_reg key) 8 1 :: es).
Proof.
  intros Hk Hf Hd. unfold dma_write. rewrite dma_has_addr by (unfold status_reg, dma_base_addr, dma_status_offset; lia).
  cbn [negb]. rewrite Hd, Hpoke. unfold write_regs. rewrite !dma_in_range_above by (unfold status_reg, dma_addr_offset,
    dma_data_offset, dma_size_offset, dma_cmd_offset, dma_virt_offset, dma_status_offset; lia).
  rewrite (proj2 (Z.leb_le _ _)) by (unfold status_reg; lia).
  replace (status_reg key - _) with key by (unfold status_reg; lia). rewrite (proj2 (Z.ltb_ge _ _)) by lia.
  rewrite u8_key by lia. unfold set_field. assert (slot_free (s <| dm_map_key := key |>) key = true) as -> by done.
  rewrite dma_slot_upd. cbn. by destruct (launch _ _) as [[]|].
Qed.

(** The address beat of a transfer: a single beat of [size] bytes. *)
Definition dma_beat (w : bool) (i addr size : Z) (a : a_t) : Prop :=
  a_w a = w ∧ a_id a = i ∧ a_addr a = addr ∧ a_len a = 0 ∧ 2 ^ a_size a = size.

Lemma pow_log2_size n : n ∈ [1; 2; 4; 8; 16; 32; 64] → 2 ^ Z.log2 n = n.
Proof. intros H. repeat (apply elem_of_cons in H as [-> | H]; [done|]). by apply elem_of_nil in H. Qed.
Lemma write_bytes_sizes t bs : write_bytes t = Some bs → dt_size t ∈ [1; 2; 4; 8; 16; 32; 64].
Proof.
  unfold write_bytes. intros. destruct (_ || (dt_size t =? 8)) eqn:E; [|destruct (_ || (dt_size t =? 64)) eqn:E'; [|done]];
    rewrite !elem_of_cons; lia.
Qed.

Lemma blocking_write_start_ok addr s n :
  dm_write_size s = Z.of_nat n → (1 ≤ n)%nat → length (dm_write_data s) = n → length (dm_write_strb s) = n →
  ∃ a, blocking_write_start addr s =
         Some (s <| dm_axi_id := u8 (dm_axi_id s + 1) |> <| dm_write_in_flight := true |>
                 <| dm_tasks ::= (λ ts, ts ++ [DmaWrite (dm_axi_id s) addr (dm_write_data s)]) |>,
               [TbA PortIommu a; TbW PortIommu (W_beat (dm_write_data s) (dm_write_strb s) 1)]) ∧
    a_w a = true ∧ a_id a = dm_axi_id s ∧ a_addr a = dm_write_addr s ∧ a_len a = 0 ∧ a_size a = Z.log2 (Z.of_nat n).
Proof.
  intros Hn H1 Hd Hs. unfold blocking_write_start. rewrite Hn, log2_size_pos by lia. cbn [mbind option_bind].
  rewrite Nat2Z.id, Hd, Hs, Nat.ltb_irrefl, !take_ge by lia. by eexists.
Qed.


(** *** Reads *)

Lemma read_up_value data start n :
  (start + n ≤ length data)%nat → Forall is_u8 data →
  read_up data start n = Some (le_value (take n (drop start data))).
Proof.
  revert start. induction n as [|n IH]; intros start Hs Hd; [done|]. cbn.
  destruct (lookup_lt_is_Some_2 data start) as [b Hb]; [lia|]. rewrite Hb. cbn. rewrite IH by (lia || done). cbn.
  rewrite (drop_S _ _ _ Hb). cbn. f_equal. pose proof (proj1 (Forall_lookup _ _) Hd _ _ Hb) as Hb8. cbn in Hb8.
  apply lor_shiftl_add; [unfold is_u8 in Hb8; lia..].
Qed.

Lemma u8_size n : n ∈ [1; 2; 4; 8; 16; 32; 64] → u8 n = n ∧ 1 ≤ n.
Proof.
  intros H. repeat (apply elem_of_cons in H as [-> | H]; [done|]). by apply elem_of_nil in H.
Qed.

Lemma slot_upd_data key f s : dm_txns (upd_txn key f s) !! key = Some (f (dma_slot s key)).
Proof. unfold upd_txn. cbn. by rewrite lookup_insert_eq. Qed.

Lemma read_start_ok key s :
  dt_size (dma_slot s key) ∈ [1; 2; 4; 8; 16; 32; 64] →
  ∃ s1 a, read_start key s = Some (s1, [TbA PortIommu a]) ∧
    dma_beat false (dm_axi_id s) (dm_read_addr s) (dt_size (dma_slot s key)) a ∧
    dm_tasks s1 = dm_tasks s ++ [DmaRead (dm_axi_id s) key] ∧ dm_read_addr s1 = dm_read_addr s ∧
    dm_txns s1 = dm_txns s.
Proof.
  intros Hn. destruct (u8_size _ Hn) as [Hu H1]. unfold read_start. cbn. rewrite Hu, log2_size_pos by done. cbn.
  eexists _, _. split; [reflexivity|]. repeat split. by apply pow_log2_size.
Qed.

(** A read command sends one AXI read of the programmed address and waits. *)
Lemma dma_read_request s key data t :
  0 ≤ key ≤ 63 → dm_txns s !! key = Some t → dt_in_flight t = false → dt_cmd t = 1 →
  dt_size t ∈ [1; 2; 4; 8; 16; 32; 64] → deserializeInt 8 data = 1 →
  ∃ s1 a,
    dma_write id poke client_check (status_reg key) data s = Some (s1, [TbPoke (status_reg key) 8 1; TbA PortIommu a]) ∧
    dma_beat false (dm_axi_id s) (dt_addr t) (dt_size t) a ∧
    dm_tasks s1 = dm_tasks s ++ [DmaRead (dm_axi_id s) key] ∧ dm_read_addr s1 = dt_addr t ∧
    dma_slot s1 key = t <| dt_status := 1 |> <| dt_in_flight := true |>.
Proof.
  intros Hk Ht Hf Hc Hn Hd. assert (slot_free s key = true) as Hfree by (unfold slot_free; by rewrite Ht, Hf).
  destruct (u8_size _ Hn) as [Hu H1].
  rewrite write_status by done. set (s0 := upd_txn key _ _).
  assert (dma_slot s0 key = t <| dt_status := 1 |>) as Hs0.
  { subst s0. rewrite dma_slot_upd. unfold dma_slot. cbn. by rewrite Ht. }
  unfold launch. rewrite dma_slot_upd, Hs0. cbn [dt_cmd dt_addr dt_size]. cbn. rewrite Hc. cbn.
  match goal with |- context [read_start key ?s'] => destruct (read_start_ok key s') as (s1 & a & -> & Ha & H2 & H3 & H4) end.
  { unfold dma_slot. cbn. rewrite lookup_insert_eq. cbn. rewrite Hs0. exact Hn. }
  eexists s1, a. split; [reflexivity|]. split.
  { revert Ha. unfold dma_slot at 1. cbn. rewrite lookup_insert_eq. cbn. rewrite Hs0. done. }
  split_and!; [done|by rewrite H3|]. unfold dma_slot. rewrite H4. cbn. rewrite lookup_insert_eq. cbn. by rewrite Hs0.
Qed.

(** The word a narrow read stores, and the one it pokes. *)
Lemma read_end_narrow key d s v :
  dt_size (dma_slot s key) ∈ [1; 2; 4; 8] → length (dt_data (dma_slot s key)) = 8%nat → Forall is_u8 d →
  let off := Z.to_nat (dm_read_addr s &&& 0x3f) in
  let n := Z.to_nat (dt_size (dma_slot s key)) in
  (off + n ≤ length d)%nat → v = le_value (take n (drop off d)) →
  ∃ s2, read_end poke client_check key d s =
      Some (s2, [TbPoke (poke_addr key 0) 8 (if dt_size (dma_slot s key) =? 1 then 0 else v)]) ∧
    dma_slot s2 key = dma_slot s key <| dt_data ::= <[0%nat := v]> |> <| dt_in_flight := false |> <| dt_status := 2 |> ∧
    dm_tasks s2 = dm_tasks s.
Proof.
  intros Hn Hlen Hd off n Hoff Hv. unfold read_end. set (s1 := completed key _).
  assert (dma_slot s1 key = dma_slot s key <| dt_in_flight := false |> <| dt_status := 2 |>) as Hs1 by apply dma_slot_upd.
  rewrite Hs1. change (dm_read_addr s1) with (dm_read_addr s). fold off.
  match goal with |- context [dt_size ?t' =? 1] => change (dt_size t') with (dt_size (dma_slot s key)) end.
  pose proof (read_up_value d off n Hoff Hd) as Hup. rewrite <- Hv in Hup.
  assert (∀ w : list tb_event, ∃ s2, Some (completed key (upd_txn key (λ t, t <| dt_data ::= <[0%nat := v]> |>) s1), w) = Some (s2, w) ∧
    dma_slot s2 key = dma_slot s key <| dt_data ::= <[0%nat := v]> |> <| dt_in_flight := false |> <| dt_status := 2 |> ∧
    dm_tasks s2 = dm_tasks s) as Hdone.
  { intros w. eexists. split; [done|]. split; [|done]. unfold completed. by rewrite !dma_slot_upd, Hs1. }
  subst n. unfold store_word, poke_then_store. rewrite !Hpoke.
  repeat (apply elem_of_cons in Hn as [E | Hn]; [rewrite E in Hup |- *; cbn -[read_up] in Hup |- *|]);
    [| | | |by apply elem_of_nil in Hn].
  - assert (read_up d off 1 = Some v) as H1 by exact Hup. simpl in H1. destruct (d !! off) as [b|]; [|discriminate H1].
    simpl in H1. rewrite Z.lor_0_r in H1. injection H1 as ->. cbn. rewrite ?Hpoke. apply Hdone.
  - rewrite Hup. cbn. rewrite Hpoke. apply Hdone.
  - assert (read_up d off 4 = Some v) as -> by exact Hup. cbn. rewrite Hpoke. apply Hdone.
  - rewrite Hup. cbn. rewrite Hpoke. apply Hdone.
Qed.

(** A read command of up to 8 bytes sends one AXI read of the programmed
    address; the response leaves in the slot's first data word the bytes it has
    for that address, in little-endian order, and the slot completed. *)
Theorem dma_read_transfer s key data t r :
  0 ≤ key ≤ 63 → dm_txns s !! key = Some t → dt_in_flight t = false → dt_cmd t = 1 → dt_size t ∈ [1; 2; 4; 8] →
  length (dt_data t) = 8%nat → deserializeInt 8 data = 1 →
  Forall (λ k, is_read_task (dm_axi_id s) k = false) (dm_tasks s) →
  rb_id r = dm_axi_id s → Forall is_u8 (rb_data r) →
  let off := Z.to_nat (dt_addr t &&& 0x3f) in
  let n := Z.to_nat (dt_size t) in
  (off + n ≤ length (rb_data r))%nat →
  ∃ s1 a s2 p,
    dma_write id poke client_check (status_reg key) data s = Some (s1, [TbPoke (status_reg key) 8 1; TbA PortIommu a]) ∧
    dma_beat false (dm_axi_id s) (dt_addr t) (dt_size t) a ∧
    dma_r poke client_check r s1 = Some (s2, [p]) ∧ dm_tasks s2 = dm_tasks s ∧
    dma_slot s2 key = t <| dt_data ::= <[0%nat := le_value (take n (drop off (rb_data r)))]> |>
                        <| dt_in_flight := false |> <| dt_status := 2 |>.
Proof.
  intros Hk Ht Hf Hc Hn Hlen Hd Hts Hid' Hu off n Hoff.
  destruct (dma_read_request s key data t) as (s1 & a & E1 & Ha & Htasks & Haddr & Hslot); auto.
  { revert Hn. rewrite !elem_of_cons. tauto. }
  set (s1' := s1 <| dm_tasks ::= base.filter (λ k, is_read_task (rb_id r) k = false) |>).
  destruct (read_end_narrow key (rb_data r) s1' (le_value (take n (drop off (rb_data r))))) as (s2 & E2 & H2 & H3).
  1-5: change (dma_slot s1' key) with (dma_slot s1 key); change (dm_read_addr s1') with (dm_read_addr s1);
    rewrite ?Hslot, ?Haddr; done.
  eexists s1, a, s2, _. split; [done|]. split; [done|]. split.
  - unfold dma_r. rewrite (resume_one _ _ _ (DmaRead (dm_axi_id s) key)); [exact E2|]. rewrite Htasks, Hid'. apply filter_last; [done|apply Z.eqb_refl].
  - split; [|rewrite H2; change (dma_slot s1' key) with (dma_slot s1 key); by rewrite Hslot].
    rewrite H3. subst s1'. cbn. rewrite Htasks, Hid'. apply filter_rest; [done|apply Z.eqb_refl].
Qed.

(** *** Wide transfers *)

Definition bswap (x : Z) : Z := le_value (reverse (le_bytes 8 x)).

Lemma read_down_up data start :
  (start + 8 ≤ length data)%nat → read_down data start = read_up (reverse (take 8 (drop start data))) 0 8.
Proof.
  intros H. assert (∃ b0 b1 b2 b3 b4 b5 b6 b7, take 8 (drop start data) = [b0; b1; b2; b3; b4; b5; b6; b7])
    as (b0 & b1 & b2 & b3 & b4 & b5 & b6 & b7 & E).
  { destruct (take 8 (drop start data)) as [|b0 [|b1 [|b2 [|b3 [|b4 [|b5 [|b6 [|b7 [|]]]]]]]]] eqn:E;
      apply (f_equal length) in E; rewrite length_take, length_drop in E; cbn [length] in E; try lia. by eexists _, _, _, _, _, _, _, _. }
  assert (∀ i, (i < 8)%nat → data !! (start + 7 - i)%nat = [b0; b1; b2; b3; b4; b5; b6; b7] !! (7 - i)%nat) as L.
  { intros i Hi. rewrite <- E, lookup_take_lt, lookup_drop by lia. f_equal. lia. }
  rewrite E. unfold read_down, reverse. cbn [foldr seq rev_append].
  rewrite (L 0%nat), (L 1%nat), (L 2%nat), (L 3%nat), (L 4%nat), (L 5%nat), (L 6%nat), (L 7%nat) by lia. cbn -[Z.shiftl Z.lor].
  f_equal. rewrite !Z.shiftl_lor, !Z.shiftl_shiftl, Z.shiftl_0_r by lia. done.
Qed.

Lemma read_down_value data start :
  (start + 8 ≤ length data)%nat → Forall is_u8 data →
  read_down data start = Some (le_value (reverse (take 8 (drop start data)))).
Proof.
  intros H Hd. rewrite read_down_up by done. rewrite read_up_value.
  - rewrite drop_0, take_ge; [done|]. rewrite length_reverse, length_take. lia.
  - rewrite length_reverse, length_take, length_drop. lia.
  - apply Forall_reverse, Forall_take, Forall_drop, Hd.
Qed.

(** The words [n - 1] to 0 of the response. *)
Definition wide_word (d : list Z) (off b : nat) : Z := le_value (reverse (take 8 (drop (off + 8 * b) d))).

Lemma store_words_spec key d off n s :
  (off + 8 * n ≤ length d)%nat → Forall is_u8 d → (n ≤ length (dt_data (dma_slot s key)))%nat →
  ∃ s' es, dma_store_words poke client_check key d off n s = Some (s', es, true) ∧ dm_tasks s' = dm_tasks s ∧
    dm_read_addr s' = dm_read_addr s ∧
    dma_slot s' key = dma_slot s key
      <| dt_data := (wide_word d off <$> seq 0 n) ++ drop n (dt_data (dma_slot s key)) |>.
Proof.
  intros Hoff Hd. revert s. induction n as [|n IH]; intros s Hlen.
  { eexists _, _. split; [done|]. split_and!; [done..|]. by destruct (dma_slot s key). }
  cbn [dma_store_words]. rewrite read_down_value by (lia || done). cbn [mbind option_bind]. unfold store_word. rewrite Hpoke.
  set (s1 := upd_txn key _ s).
  assert (dma_slot s1 key = dma_slot s key <| dt_data ::= <[n := wide_word d off n]> |>) as Hs1 by apply dma_slot_upd.
  destruct (IH ltac:(lia) s1) as (s' & es & E & H1 & H2 & H3). { rewrite Hs1. cbn. rewrite length_insert. lia. }
  rewrite E. eexists _, _. split; [done|]. split_and!; [done..|]. rewrite H3, Hs1.
  unfold modify. cbn -[seq drop wide_word]. f_equal.
  rewrite (drop_S (<[n := wide_word d off n]> _) (wide_word d off n) n) by (apply list_lookup_insert_eq; lia).
  by rewrite drop_insert_lt, seq_S, fmap_app, <- app_assoc by lia.
Qed.

Lemma wide_dispatch {A} n (x y z w v : A) :
  n ∈ [16; 32; 64] →
  (if n =? 1 then x else if (n =? 2) || (n =? 8) then y else if n =? 4 then z
   else if (n =? 16) || (n =? 32) || (n =? 64) then w else v) = w.
Proof. rewrite !elem_of_cons. by intros [-> | [-> | [-> | []%elem_of_nil]]]. Qed.

Lemma write_bytes_wide t bytes :
  write_bytes t = Some bytes → dt_size t ∈ [16; 32; 64] →
  bytes = reg_bytes (at_z (dt_data t) <$> reverse (seq 0 (Z.to_nat (dt_size t / 8)))).
Proof.
  unfold write_bytes, reg_bytes. rewrite !elem_of_cons. rewrite <- list_fmap_compose.
  intros H Hn. revert H. by destruct Hn as [-> | [-> | [-> | []%elem_of_nil]]]; intros [= <-].
Qed.

(** Word [b] of what a wide write sends is the data word [n - 1 - b]. *)
Lemma write_bytes_word t bytes d off b w :
  write_bytes t = Some bytes → dt_size t ∈ [16; 32; 64] →
  let n := Z.to_nat (dt_size t / 8) in
  take (length bytes) (drop off d) = bytes → (b < n)%nat → dt_data t !! (n - 1 - b)%nat = Some w →
  take 8 (drop (off + 8 * b) d) = le_bytes 8 w.
Proof.
  intros Hw Hn n Hs Hb Hwd. pose proof (write_bytes_wide t bytes Hw Hn) as Eb. fold n in Eb.
  assert (length bytes = 8 * n)%nat as Hl by (rewrite Eb, length_reg_bytes, length_fmap, length_reverse, length_seq; done).
  assert (take 8 (drop (8 * b) bytes) = take 8 (drop (off + 8 * b) d)) as <-.
  { rewrite <- Hs at 1. rewrite skipn_firstn_comm, take_take, drop_drop, Nat.min_l by lia. done. }
  rewrite Eb, drop_reg_bytes.
  assert ((at_z (dt_data t) <$> reverse (seq 0 n)) !! b = Some w) as Hv.
  { rewrite list_lookup_fmap, reverse_lookup by (rewrite length_seq; lia). rewrite length_seq, lookup_seq_lt by lia.
    cbn. f_equal. apply at_z_Some. rewrite <- Hwd. f_equal. lia. }
  rewrite (drop_S _ _ _ Hv). unfold reg_bytes. cbn -[le_bytes]. rewrite take_app_le by (rewrite length_le_bytes; lia).
  apply take_ge. rewrite length_le_bytes. lia.
Qed.

(** A wide transfer does not read back what it wrote: the words come back
    in reverse order, each with its bytes reversed. *)
Theorem dma_wide_mirror key s t bytes d b w :
  write_bytes t = Some bytes → dt_size t ∈ [16; 32; 64] →
  dt_size (dma_slot s key) = dt_size t → length (dt_data (dma_slot s key)) = 8%nat → Forall is_u8 d →
  let off := Z.to_nat (dm_read_addr s &&& 0x3f) in
  let n := Z.to_nat (dt_size t / 8) in
  take (length bytes) (drop off d) = bytes → (off + length bytes ≤ length d)%nat →
  (b < n)%nat → dt_data t !! (n - 1 - b)%nat = Some w → 
  ∃ s' es, read_end poke client_check key d s = Some (s', es) ∧ dt_data (dma_slot s' key) !! b = Some (bswap w).
Proof.
  intros Hw Hn Hsize Hlen Hd off n Hslice Hoff Hb Hwd. destruct (write_bytes_length _ _ Hw) as [Hl _].
  assert (Z.of_nat (8 * n) = dt_size t ∧ (n ≤ 8)%nat) as [H8 Hn8].
  { subst n. revert Hn. rewrite !elem_of_cons. intros [-> | [-> | [-> | []%elem_of_nil]]]; (split; [done|by apply Nat.leb_le]). }
  unfold read_end. set (s1 := completed key _).
  assert (dma_slot s1 key = dma_slot s key <| dt_in_flight := false |> <| dt_status := 2 |>) as Hs1 by apply dma_slot_upd.
  destruct (store_words_spec key d off n s1) as (s' & es & E & _ & _ & H3); [lia|done|rewrite Hs1; cbn; lia|].
  rewrite Hs1. change (dm_read_addr s1) with (dm_read_addr s). fold off.
  match goal with |- context [dt_size ?t' =? 1] => change (dt_size t') with (dt_size (dma_slot s key)) end.
  rewrite Hsize, wide_dispatch by done. fold n. rewrite E. cbn. eexists _, _. split; [done|].
  unfold completed. rewrite dma_slot_upd, H3. cbn -[seq bswap].
  rewrite lookup_app_l by (rewrite length_fmap, length_seq; lia). rewrite list_lookup_fmap, lookup_seq_lt by lia. cbn -[wide_word bswap].
  unfold wide_word, bswap. by rewrite (write_bytes_word t bytes d off b w Hw Hn).
Qed.

(** *** Registers *)

Inductive dma_field := FAddr | FSize | FCmd | FVirt.
Definition field_reg (f : dma_field) (key : Z) : Z :=
  dma_base_addr +
  match f with
  | FAddr => dma_addr_offset + 8 * key
  | FSize => dma_size_offset + key
  | FCmd => dma_cmd_offset + key
  | FVirt => dma_virt_offset + key
  end.
Definition field_legal (f : dma_field) (v : Z) : bool :=
  match f with FAddr | FSize => true | FCmd => (v =? 1) || (v =? 2) | FVirt => (v =? 0) || (v =? 1) end.
Definition field_get (f : dma_field) (t : dma_txn) : Z :=
  match f with FAddr => dt_addr t | FSize => dt_size t | FCmd => dt_cmd t | FVirt => Z.b2z (dt_virt t) end.

Lemma dma_in_range_hit addr lo hi : dma_base_addr + lo ≤ addr < dma_base_addr + hi → dma_in_range addr lo hi = true.
Proof. intros. apply andb_true_iff. lia. Qed.
Lemma dma_in_range_below addr lo hi : addr < dma_base_addr + lo → dma_in_range addr lo hi = false.
Proof. intros. apply andb_false_iff. left. lia. Qed.

Ltac dma_lia :=
  unfold field_reg, dma_addr_offset, dma_data_offset, dma_size_offset, dma_cmd_offset, dma_virt_offset, dma_status_offset, dma_base_addr;
  lia.
Ltac dma_ranges :=
  repeat match goal with
    | |- context [dma_in_range ?a ?l ?h] =>
        first [rewrite (dma_in_range_hit a l h) by dma_lia | rewrite (dma_in_range_above a l h) by dma_lia
              |rewrite (dma_in_range_below a l h) by dma_lia]
    end.

(** What a write of a register does to its slot. *)
Definition field_set (f : dma_field) (v : Z) (t : dma_txn) : dma_txn :=
  match f with
  | FAddr => t <| dt_addr := v |>
  | FSize => t <| dt_size := v |>
  | FCmd => t <| dt_cmd := v |>
  | FVirt => t <| dt_virt := (v =? 1) |>
  end.

Lemma field_get_set f v t : field_legal f v = true → field_get f (field_set f v t) = v.
Proof. destruct f; try done. cbn. intros H. destruct (Z.eqb_spec v 1); cbn; lia. Qed.

Lemma write_regs_field f key v s :
  0 ≤ key ≤ 63 → slot_free s key = true → field_legal f v = true →
  write_regs (field_reg f key) v s = Some (upd_txn key (field_set f v) (s <| dm_map_key := key |>), []).
Proof.
  intros Hk Hf Hl. unfold write_regs, set_field.
  assert (∀ k', slot_free (s <| dm_map_key := k' |>) key = true) as Hf' by done.
  destruct f; cbn in Hl; dma_ranges.
  - replace (field_reg FAddr key - (dma_base_addr + dma_addr_offset)) with (key * 8) by dma_lia.
    rewrite Z.mod_mul, Z.div_mul, u8_key by lia. by rewrite Hf'.
  - replace (field_reg FSize key - (dma_base_addr + dma_size_offset)) with key by dma_lia. rewrite u8_key by lia. by rewrite Hf'.
  - replace (field_reg FCmd key - (dma_base_addr + dma_cmd_offset)) with key by dma_lia. rewrite u8_key by lia. by rewrite Hf, Hl, Hf'.
  - replace (field_reg FVirt key - (dma_base_addr + dma_virt_offset)) with key by dma_lia. rewrite u8_key by lia. by rewrite Hf'.
Qed.

Lemma read_dev_field f key len buf s t :
  0 ≤ key ≤ 63 → dm_txns s !! key = Some t →
  dma_read_dev id (field_reg f key) len buf s =
    (s <| dm_map_key := key |>, serializeInt (field_get f t) len buf, []).
Proof.
  intros Hk Ht. unfold dma_read_dev.
  rewrite dma_has_addr by (destruct f; dma_lia). cbn [negb].
  destruct (Z.leb_spec (dma_base_addr + dma_status_offset) (field_reg f key)) as [H|_].
  { exfalso. destruct f; revert H; dma_lia. }
  destruct f; dma_ranges; unfold read_field.
  - replace (field_reg FAddr key - (dma_base_addr + dma_addr_offset)) with (key * 8) by dma_lia.
    rewrite Z.div_mul, u8_key by lia. cbn. by rewrite Ht.
  - replace (field_reg FSize key - (dma_base_addr + dma_size_offset)) with key by dma_lia.
    rewrite u8_key by lia. cbn. by rewrite Ht.
  - replace (field_reg FCmd key - (dma_base_addr + dma_cmd_offset)) with key by dma_lia.
    rewrite u8_key by lia. cbn. by rewrite Ht.
  - replace (field_reg FVirt key - (dma_base_addr + dma_virt_offset)) with key by dma_lia.
    rewrite u8_key by lia. cbn. by rewrite Ht.
Qed.

(** A value written to a register of a free slot is read back, from a
    buffer of any length, with no error, and no other slot changes. *)
Theorem dma_registers f key data len buf s :
  0 ≤ key ≤ 63 → slot_free s key = true → field_legal f (deserializeInt 8 data) = true →
  ∃ s1 s2,
    dma_write id poke client_check (field_reg f key) data s =
      Some (s1, [TbPoke (field_reg f key) 8 (deserializeInt 8 data)]) ∧
    dma_read_dev id (field_reg f key) len buf s1 = (s2, serializeInt (deserializeInt 8 data) len buf, []) ∧
    slot_free s2 key = true ∧ ∀ k, k ≠ key → dm_txns s2 !! k = dm_txns s !! k.
Proof.
  intros Hk Hf Hl. unfold dma_write. rewrite dma_has_addr by (destruct f; dma_lia).
  cbn [negb]. rewrite Hpoke, write_regs_field by done. cbn [mbind option_bind].
  eexists _, _. split; [done|]. split.
  { erewrite read_dev_field; [|done|apply slot_upd_data]. by rewrite field_get_set. }
  split; [|intros k Hne; cbn; by rewrite lookup_insert_ne].
  revert Hf. unfold slot_free, upd_txn, dma_slot. cbn. rewrite lookup_insert_eq.
  by destruct f, (dm_txns s !! key).
Qed.
End dma_lemmas.

Lemma dma_laws id poke client_check : @SubdeviceLaws _ (dma_subdevice id poke client_check).
Proof. split; cbn; intros addr len data s Hmiss; unfold dma_write, dma_read_dev; by rewrite Hmiss. Qed.

(** *** The invariant of the slots *)

Definition dma_wf (s : dma) : Prop := map_Forall (λ _ t, length (dt_data t) = 8%nat) (dm_txns s).

Lemma dma_wf_slot s key : dma_wf s → length (dt_data (dma_slot s key)) = 8%nat.
Proof. intros H. unfold dma_slot. destruct (_ !! key) eqn:E; [exact (H _ _ E)|done]. Qed.
Lemma dma_wf_upd key f s :
  (∀ t, length (dt_data (f t)) = length (dt_data t)) → dma_wf s → dma_wf (upd_txn key f s).
Proof. intros Hf H. apply map_Forall_insert_2; [|done]. rewrite Hf. by apply dma_wf_slot. Qed.

Section dma_invariant.
Context (id : device_id) (poke : Z → Z → Z → bool * bool) (client_check : bool).

(** Every result of an operation keeps the invariant. *)
Definition keeps_wf (o : option (dma * list tb_event)) : Prop := from_option (λ r, dma_wf r.1) True o.

Lemma set_field_wf key f s :
  (∀ t, length (dt_data (f t)) = length (dt_data t)) → dma_wf s → dma_wf (set_field key f s).1.
Proof. intros Hf H. unfold set_field. case_match; [by apply dma_wf_upd|done]. Qed.

Lemma launch_wf key s : dma_wf s → keeps_wf (launch key s).
Proof.
  intros H. unfold launch. set (s1 := upd_txn key _ s).
  assert (dma_wf s1) as H1 by (by apply dma_wf_upd). clearbody s1.
  case_match; [|case_match; [|done]].
  - unfold read_start. cbn. by destruct (log2_size _).
  - destruct (write_bytes _) as [bs|]; [|done]. unfold overlay_write, blocking_write_start. cbn.
    destruct (log2_size _); [|done]. cbn. case_match; [done|]. cbn. by apply dma_wf_upd.
Qed.

Lemma write_regs_wf addr v s : dma_wf s → keeps_wf (write_regs addr v s).
Proof.
  intros H. unfold write_regs.
  assert (∀ key f, (∀ t, length (dt_data (f t)) = length (dt_data t)) → keeps_wf (Some (set_field key f s))) as Hset.
  { intros key f Hf. pose proof (set_field_wf key f s Hf H). by destruct (set_field key f s). }
  destruct (dma_in_range _ dma_addr_offset _). { case_match; [done|by apply Hset]. }
  destruct (dma_in_range _ dma_data_offset _). { case_match; [done|]. apply Hset. intros t. apply length_insert. }
  destruct (dma_in_range _ dma_size_offset _). { by apply Hset. }
  destruct (dma_in_range _ dma_cmd_offset _). { case_match; [|done]. case_match; [by apply Hset|done]. }
  destruct (dma_in_range _ dma_virt_offset _). { by apply Hset. }
  case_match; [|done]. case_match; [done|].
  set (f := λ t : dma_txn, t <| dt_status := u8 v |>). specialize (Hset (u8 (addr - (dma_base_addr + dma_status_offset))) f).
  destruct (set_field _ f s) as [s1 e1]. case_match; [|by apply Hset].
  pose proof (launch_wf (u8 (addr - (dma_base_addr + dma_status_offset))) s1 (Hset (λ _, eq_refl))) as Hl.
  by destruct (launch _ s1) as [[]|].
Qed.

Lemma store_word_wf key b v w s : dma_wf s → dma_wf (store_word poke client_check key b v w s).1.1.
Proof. intros H. unfold store_word. case_match; (apply dma_wf_upd; [|done]; intros; apply length_insert). Qed.

(** The same for the operations that can fail. *)
Definition keeps_wf3 (o : option (dma * list tb_event * bool)) : Prop :=
  match o with Some x => dma_wf x.1.1 | None => True end.

Lemma store_words_wf key d off n s : dma_wf s → keeps_wf3 (dma_store_words poke client_check key d off n s).
Proof.
  revert s. induction n as [|n IH]; intros s H; [done|]. cbn [dma_store_words].
  destruct (read_down _ _) as [v|]; [|done]. cbn [mbind option_bind].
  pose proof (store_word_wf key n v v s H) as H1. destruct (store_word _ _ _ _ _ _ s) as [[s1 e1] [|]]; [|done].
  specialize (IH s1 H1). by destruct (dma_store_words _ _ _ _ _ n s1) as [[[]]|].
Qed.

Lemma poke_then_store_wf key v s : dma_wf s → dma_wf (poke_then_store poke client_check key v s).1.1.
Proof. intros H. unfold poke_then_store. case_match; [done|]. apply dma_wf_upd; [|done]. intros. apply length_insert. Qed.

Lemma read_end_wf key d s : dma_wf s → keeps_wf (read_end poke client_check key d s).
Proof.
  intros H. unfold read_end. set (s1 := completed key _).
  assert (dma_wf s1) as H1 by (by apply dma_wf_upd). clearbody s1. generalize (dt_size (dma_slot s1 key)) as n. intros n.
  match goal with |- keeps_wf (mbind ?k ?m) =>
    assert (keeps_wf3 m) as Hm; [|destruct m as [[[s2 es] [|]]|]; [by apply dma_wf_upd|done..]] end.
  destruct (n =? 1). { destruct (d !! _) as [v|]; [by apply store_word_wf|done]. }
  destruct (_ || (n =? 8)). { destruct (read_up _ _ _) as [v|]; [by apply store_word_wf|done]. }
  destruct (n =? 4). { destruct (read_up _ _ _) as [v|]; [by apply poke_then_store_wf|done]. }
  case_match; [by apply store_words_wf|done].
Qed.

Lemma resume_wf k p s :
  (∀ t s, dma_wf s → keeps_wf (k t s)) → dma_wf s → keeps_wf (resume k p s).
Proof.
  intros Hk H. apply (run_tasks_inv dma_wf (λ _, True)); [intros t s' Hs _; by apply Hk|done|by apply Forall_true].
Qed.

Inductive dma_op := DWrite (addr : Z) (data : list Z) | DRead (addr : Z) (len : nat) (data : list Z) | DB (b : b_beat) | DR (r : r_beat).
Definition dma_step (o : dma_op) (s : dma) : option (dma * list tb_event) :=
  match o with
  | DWrite addr data => dma_write id poke client_check addr data s
  | DRead addr len data => let '(s, _, es) := dma_read_dev id addr len data s in Some (s, es)
  | DB b => dma_b poke client_check b s
  | DR r => dma_r poke client_check r s
  end.

Lemma dma_read_wf addr len data s : dm_txns (dma_read_dev id addr len data s).1.1 = dm_txns s.
Proof.
  assert (∀ hit key f st, dm_txns (read_field hit key f len st).1.1 = dm_txns st.1.1) as Hr.
  { intros hit key f [[s' d'] es']. unfold read_field. destruct hit; [|done]. by destruct (_ !! key). }
  unfold dma_read_dev. case_match; [done|]. by rewrite !Hr.
Qed.

Lemma dma_step_wf o s : dma_wf s → keeps_wf (dma_step o s).
Proof.
  intros H. destruct o as [addr data|addr len data|b|r]; cbn [dma_step].
  - unfold dma_write. case_match; [done|]. case_match; [done|].
    pose proof (write_regs_wf addr (deserializeInt 8 data) s H). by destruct (write_regs _ _ s) as [[]|].
  - pose proof (dma_read_wf addr len data s) as E. destruct (dma_read_dev id addr len data s) as [[s' d'] es]. cbn in E |- *. unfold dma_wf. by rewrite E.
  - apply resume_wf; [|done]. intros t s' H'. destruct t; [|done]. unfold blocking_write_end. cbn.
    destruct (poke_vec _ _ _ _ _ _) as [[es [|]]|]; done.
  - apply resume_wf; [|done]. intros t s' H'. destruct t; [done|]. by apply read_end_wf.
Qed.
End dma_invariant.

(** ** Examples *)

Definition dma_id : device_id := Device_id "dma" dma_base_addr 0x2000.

(** Slot 1 programmed for a write of 4 bytes. *)
Definition ex_write : dma_txn := Dma_txn 0x80001004 [0x11223344; 0; 0; 0; 0; 0; 0; 0] 4 2 0 false false.
Definition ex_read : dma_txn := Dma_txn 0x80001004 [0; 0; 0; 0; 0; 0; 0; 0] 4 1 0 false false.
Definition ex_wide : dma_txn := Dma_txn 0x80001000 [1; 2; 0; 0; 0; 0; 0; 0] 16 2 0 false false.
Definition ex_dma (t : dma_txn) : dma := dma_new <| dm_txns := {[1 := t]} |>.
Definition one : list Z := [1; 0; 0; 0; 0; 0; 0; 0].
Definition ex_r : r_beat := R_beat 0 0 (Z.of_nat <$> seq 0 64) true.


Lemma dma_read_transfer_witness :
  ∃ s1 a s2 p, dma_write dma_id poke_ok true (status_reg 1) one (ex_dma ex_read) = Some (s1, [TbPoke (status_reg 1) 8 1; TbA PortIommu a]) ∧
    dma_r poke_ok true ex_r s1 = Some (s2, [p]) ∧ at_z (dt_data (dma_slot s2 1)) 0 = 0x07060504.
Proof.
  destruct (dma_read_transfer dma_id poke_ok true (conj eq_refl eq_refl) (λ _ _ _, eq_refl) (ex_dma ex_read) 1 one ex_read ex_r)
    as (s1 & a & s2 & p & H1 & _ & H2 & _ & H3);
    [lia|done|done|done|set_solver|done|done|constructor|done| |vm_compute; lia|].
  - apply Forall_forall. intros x Hx. apply list_elem_of_fmap in Hx as (i & -> & Hi). apply elem_of_seq in Hi. unfold is_u8. lia.
  - exists s1, a, s2, p. split; [exact H1|]. split; [exact H2|]. by rewrite H3.
Defined.

Lemma dma_registers_witness :
  ∃ s1 s2, dma_write dma_id poke_ok true (field_reg FCmd 5) [2] dma_new = Some (s1, [TbPoke (field_reg FCmd 5) 8 2]) ∧
    dma_read_dev dma_id (field_reg FCmd 5) 4 [9; 9; 9; 9] s1 = (s2, [2; 0; 0; 0], []).
Proof.
  destruct (dma_registers dma_id poke_ok true (conj eq_refl eq_refl) (λ _ _ _, eq_refl) FCmd 5 [2] 4 [9; 9; 9; 9] dma_new)
    as (s1 & s2 & H1 & H2 & _); [lia|done|done|]. exists s1, s2. split; [exact H1|exact H2].
Defined.

Lemma dma_wide_mirror_witness :
  ∃ s' es, read_end poke_ok true 1 (le_bytes 8 2 ++ le_bytes 8 1 ++ replicate 48 0)
      (ex_dma (ex_wide <| dt_cmd := 1 |>) <| dm_read_addr := 0x80001000 |>) = Some (s', es) ∧
    dt_data (dma_slot s' 1) !! 0%nat = Some 0x0200000000000000.
Proof.
  destruct (dma_wide_mirror poke_ok true (λ _ _ _, eq_refl) 1
    (ex_dma (ex_wide <| dt_cmd := 1 |>) <| dm_read_addr := 0x80001000 |>) ex_wide (le_bytes 8 2 ++ le_bytes 8 1)
    (le_bytes 8 2 ++ le_bytes 8 1 ++ replicate 48 0) 0 2) as (s' & es & H1 & H2);
    [done|set_solver|done|done| |done|vm_compute; lia|vm_compute; lia|done|].
  - repeat (apply Forall_app; split); [apply le_bytes_u8..|]. apply Forall_replicate. unfold is_u8. lia.
  - exists s', es. split; [exact H1|exact H2].
Defined.

(** The word index of the data buffers counts from the first slot: the data of
    every other slot is outside its array. *)
Example dma_data_slot_1 : dma_write dma_id poke_ok true (dma_base_addr + dma_data_offset + 64) one dma_new = None.
Proof. reflexivity. Qed.

(** A rejected write of the status of a slot in flight starts it again. *)
Example dma_relaunch :
  snd <$> (dma_write dma_id poke_ok true (status_reg 1) one
             (ex_dma (ex_read <| dt_in_flight := true |> <| dt_status := 1 |>)) : option (dma * list tb_event)) =
  Some [TbPoke (status_reg 1) 8 1; TbError;
        TbA PortIommu (A_t false 0 0x80001004 0 2 BURST_FIXED false 0 2 0 0 (atop_of_raw 0) 0 false false false 0)].
Proof. reflexivity. Qed.

(** A write is completed when it is sent, before its response. *)
Example dma_completed_early :
  (λ r : dma * list tb_event, dt_status (dma_slot r.1 1)) <$> dma_write dma_id poke_ok true (status_reg 1) one (ex_dma ex_write) =
  Some 2.
Proof. reflexivity. Qed.
