(* ===== verification/IoCoh.v ===== *)
(** * IoCoh: the trickbox's I/O-coherency helper
    (src/sysmod/trickbox/io_coh_helper.{h,cpp})

    Software programs single writes, single reads or a list of transactions
    (a "burst"), which the helper drives as an AXI master.  Each is a coroutine:
    it runs up to its wait when it is forked and goes on when the response with
    its id arrives on the channel of its master.  Local variables of a
    suspended coroutine are in its [ioc_task]; everything else is shared. *)

From S2P Require Import Prelude Bytes Device Axi AddressMap Subdevice.

Record axi_txns := Axi_txns { tx_a_addr : Z; tx_a_size : Z; tx_r0_w1 : bool; tx_wdata : list Z }.

(** A suspended coroutine: the master and id it waits for and its locals. *)
Inductive ioc_task :=
| IocWrite (loc id addr : Z) (data_vec : list Z) (err_ok : bool) (* blocking_write *)
| IocRead (loc id : Z)                                           (* blocking_read *)
| IocBurstR (loc id : Z) (i : nat)                               (* blocking_burst_thread, read [i] *)
| IocBurstW (loc id : Z) (i : nat) (data_vec : list Z) (err_ok : bool).

Record io_coh := Io_coh {
  ic_wdata_vec : list Z; ic_rdata : list Z; ic_txns : list axi_txns;
  ic_tx_status : Z; ic_tx_addr : Z; ic_tx_addr_burst : Z; ic_tx_type_size : Z;
  ic_tx_type : Z; ic_tx_size : Z; ic_read_counter : Z; ic_num_writes : Z; ic_num_reads : Z;
  ic_axi_id : Z; ic_user_bits : Z; ic_blocking : bool;
  ic_write_in_flight : bool; ic_read_in_flight : bool; ic_burst_in_flight : bool;
  ic_tasks : list ioc_task
}.
#[export] Instance eta_io_coh : Eta io_coh := λ s,
  Io_coh (ic_wdata_vec s) (ic_rdata s) (ic_txns s) (ic_tx_status s) (ic_tx_addr s) (ic_tx_addr_burst s)
    (ic_tx_type_size s) (ic_tx_type s) (ic_tx_size s) (ic_read_counter s) (ic_num_writes s) (ic_num_reads s)
    (ic_axi_id s) (ic_user_bits s) (ic_blocking s) (ic_write_in_flight s) (ic_read_in_flight s)
    (ic_burst_in_flight s) (ic_tasks s).
Definition io_coh_new : io_coh :=
  Io_coh [] [] [] 0 0x90a0000 0x90a0000 0 0 0 0 0 0 12 0 false false false false [].

(** The masters found in the topology and the plusargs. *)
Record ioc_cfg := Ioc_cfg {
  icfg_mmr : Z; icfg_ioc : Z;           (* axi_loc_mmr_, axi_loc_ioc_ *)
  icfg_flags : dam_flags;               (* the device address map *)
  icfg_coherency_disable : bool         (* FLAGS_io_coherency_disable *)
}.

Section io_coh.
Context (id : device_id) (c : ioc_cfg).
Context (poke : Z → Z → Z → bool * bool) (client_check : bool).

Definition is_mmr_window (addr : Z) : bool :=
  let lsb := u32 (priv_level_start_bit (icfg_flags c) + priv_level_width (icfg_flags c)) in
  (addr ≫ lsb) =? (mmr_base_addr (icfg_flags c) ≫ lsb).
Definition mst_for_addr (addr : Z) : Z := if is_mmr_window addr then icfg_mmr c else icfg_ioc c.

Definition exp_err (addr : Z) : bool :=
  icfg_coherency_disable c && negb (is_internal_device (icfg_flags c) addr 0).

Definition ioc_a (w : bool) (i addr size user : Z) : a_t :=
  A_t w i addr 0 size BURST_FIXED false 0 (prot_of addr) 0 0 (atop_of_raw 0) user (exp_err addr)
    (allow_decerr addr size) false 0.

(** ** Single writes *)

(** [for (uint8_t i = 0; i < tx_size; i++)] of [gen_data_strb], from [i]. *)
Fixpoint fill_lanes (src : list Z) (b i n : nat) (data : list Z) (strb : list bool) : option (list Z * list bool) :=
  match n with
  | O => Some (data, strb)
  | S n =>
      if (i + b <? 63)%nat then
        match src !! i with
        | Some x => fill_lanes src b (S i) n (<[(i + b)%nat := x]> data) (<[(i + b)%nat := true]> strb)
        | None => None
        end
      else fill_lanes src b (S i) n data strb
  end.

(** A counter of 8 bits never reaches a size above 255. *)
Definition gen_data_strb (addr : Z) (s : io_coh) : option (list Z * list bool) :=
  if 255 <? ic_tx_size s then None
  else fill_lanes (ic_wdata_vec s) (Z.to_nat (addr &&& 0x3f)) 0 (Z.to_nat (ic_tx_size s))
         (replicate 64 0) (replicate 64 false).

(** [blocking_write] up to its wait. *)
Definition ioc_write_start (addr : Z) (s : io_coh) : option (io_coh * list tb_event) :=
  let i := ic_axi_id s in
  size ← log2_size (ic_tx_size s);
  let a := ioc_a true i addr size (ic_user_bits s ||| 8) in
  let p := mst_for_addr addr in
  '(data, strb) ← gen_data_strb addr s;
  Some (s <| ic_axi_id := u8 (i + 1) |> <| ic_write_in_flight := true |>
          <| ic_tasks ::= (λ ts, ts ++ [IocWrite p i addr data (allow_decerr addr size || exp_err addr)]) |>,
        [TbA (PortMst p) a; TbW (PortMst p) (W_beat data strb 1)]).

(** [blocking_write] behind its wait. *)
Definition ioc_write_end (addr : Z) (data_vec : list Z) (err_ok : bool) (resp : Z) (s : io_coh) :
    option (io_coh * list tb_event) :=
  if negb err_ok && negb (resp =? RESP_OKAY) then Some (s, [TbError])
  else
    let s := s <| ic_write_in_flight := false |> in
    if resp =? RESP_OKAY then
      '(es, ok) ← poke_vec poke client_check addr 0 (Z.to_nat (ic_tx_size s)) data_vec;
      Some (if (ok : bool) then s <| ic_num_writes ::= (λ n, u64 (n + 1)) |> else s, es)
    else Some (s, []).

(** ** Single reads *)

Definition ioc_read_start (addr : Z) (s : io_coh) : option (io_coh * list tb_event) :=
  let i := ic_axi_id s in
  size ← log2_size (ic_tx_size s);
  let p := mst_for_addr addr in
  Some (s <| ic_axi_id := u8 (i + 1) |> <| ic_read_in_flight := true |> <| ic_rdata := [] |>
          <| ic_tasks ::= (λ ts, ts ++ [IocRead p i]) |>,
        [TbA (PortMst p) (ioc_a false i addr size (ic_user_bits s))]).

(** The bytes of the response are appended to [rdata_byte_vec]. *)
Definition ioc_read_end (data : list Z) (s : io_coh) : option io_coh :=
  if Z.of_nat (length data) <? ic_tx_size s then None
  else Some (s <| ic_read_counter := 0 |> <| ic_rdata ::= (λ l, l ++ take (Z.to_nat (ic_tx_size s)) data) |>
               <| ic_read_in_flight := false |> <| ic_num_reads ::= (λ n, u64 (n + 1)) |>).

(** ** Bursts *)

(** The lane loop of [blocking_burst_thread], whose counter hides the index of
    the transaction: [txns_vec[i]] is the transaction of the lane. *)
Fixpoint burst_lanes (fuel : nat) (txns : list axi_txns) (b i : nat) (data : list Z) (strb : list bool) :
    option (list Z * list bool) :=
  match fuel with
  | O => None
  | S fuel =>
      t ← txns !! i;
      if Z.of_nat i <? tx_a_size t then
        if (i + b <? 63)%nat then
          match tx_wdata t !! i with
          | Some x => burst_lanes fuel txns b (S i) (<[(i + b)%nat := x]> data) (<[(i + b)%nat := true]> strb)
          | None => None
          end
        else burst_lanes fuel txns b (S i) data strb
      else Some (data, strb)
  end.

(** The pokes of a burst write, at the addresses of the transaction of the
    lane; [valid] is ignored. *)
Fixpoint burst_pokes (txns : list axi_txns) (data : list Z) (i n : nat) : option (list tb_event * bool) :=
  match n with
  | O => Some ([], true)
  | S n =>
      t ← txns !! i; b ← data !! i;
      let addr := u64 (tx_a_addr t + Z.of_nat i) in
      if poke_refused poke client_check addr 1 b then Some ([TbPoke addr 1 b; TbError], false)
      else match burst_pokes txns data (S i) n with Some (es, ok) => Some (TbPoke addr 1 b :: es, ok) | None => None end
  end.

(** The loop of [blocking_burst_thread] from transaction [i] to its next wait
    or its end; [n] bounds the transactions left. *)
Fixpoint burst_run (n i : nat) (s : io_coh) : option (io_coh * list tb_event) :=
  match n, ic_txns s !! i with
  | S n, Some t =>
      let k := ic_axi_id s in
      let p := mst_for_addr (tx_a_addr t) in
      let a := ioc_a (tx_r0_w1 t) k (tx_a_addr t) (tx_a_size t) (ic_user_bits s) in
      let s := s <| ic_axi_id := u8 (k + 1) |> <| ic_read_in_flight := true |> <| ic_rdata := [] |> in
      if negb (tx_r0_w1 t) then
        Some (s <| ic_tasks ::= (λ ts, ts ++ [IocBurstR p k i]) |>, [TbA (PortMst p) a])
      else
        match burst_lanes 256 (ic_txns s) (Z.to_nat (tx_a_addr t &&& 0x3f)) 0 (replicate 64 0) (replicate 64 false) with
        | None => None
        | Some (data, strb) =>
            let es := [TbA (PortMst p) a; TbW (PortMst p) (W_beat data strb 1)] in
            if ic_blocking s then
              Some (s <| ic_tasks ::= (λ ts, ts ++ [IocBurstW p k i data
                        (allow_decerr (tx_a_addr t) (tx_a_size t) || exp_err (tx_a_addr t))]) |>, es)
            else match burst_run n (S i) s with Some (s, es') => Some (s, es ++ es') | None => None end
        end
  | _, _ => Some (s <| ic_burst_in_flight := false |>, [])
  end.
Definition burst_from (i : nat) (s : io_coh) : option (io_coh * list tb_event) := burst_run (length (ic_txns s) - i) i s.

Definition burst_read_end (i : nat) (data : list Z) (s : io_coh) : option (io_coh * list tb_event) :=
  s ← ioc_read_end data s; burst_from (S i) s.

Definition burst_write_end (i : nat) (data : list Z) (err_ok : bool) (resp : Z) (s : io_coh) :
    option (io_coh * list tb_event) :=
  if negb err_ok && negb (resp =? RESP_OKAY) then Some (s, [TbError])
  else if resp =? RESP_OKAY then
    '(es, ok) ← burst_pokes (ic_txns s) data 0 (Z.to_nat (ic_tx_size s));
    if (ok : bool) then
      '(s, es') ← burst_from (S i) (s <| ic_num_writes ::= (λ n, u64 (n + 1)) |>); Some (s, es ++ es')
    else Some (s, es)
  else burst_from (S i) s.

(** ** Responses *)

Definition awaits_b (loc i : Z) (t : ioc_task) : bool :=
  match t with
  | IocWrite l j _ _ _ | IocBurstW l j _ _ _ => (l =? loc) && (j =? i)
  | _ => false
  end.
Definition awaits_r (loc i : Z) (t : ioc_task) : bool :=
  match t with
  | IocRead l j | IocBurstR l j _ => (l =? loc) && (j =? i)
  | _ => false
  end.

Definition ioc_resume (k : ioc_task → io_coh → option (io_coh * list tb_event)) (p : ioc_task → bool) (s : io_coh) :
    option (io_coh * list tb_event) :=
  run_tasks k (base.filter (λ t, p t = true) (ic_tasks s)) (s <| ic_tasks ::= base.filter (λ t, p t = false) |>).

Definition ioc_b (loc : Z) (b : b_beat) : io_coh → option (io_coh * list tb_event) :=
  ioc_resume (λ t s, match t with
    | IocWrite _ _ addr data ok => ioc_write_end addr data ok (bb_resp b) s
    | IocBurstW _ _ i data ok => burst_write_end i data ok (bb_resp b) s
    | _ => Some (s, []) end) (awaits_b loc (bb_id b)).
Definition ioc_r (loc : Z) (r : r_beat) : io_coh → option (io_coh * list tb_event) :=
  ioc_resume (λ t s, match t with
    | IocRead _ _ => s ← ioc_read_end (rb_data r) s; Some (s, [])
    | IocBurstR _ _ i => burst_read_end i (rb_data r) s
    | _ => Some (s, []) end) (awaits_r loc (rb_id r)).

(** ** Register accesses *)

Definition ioc_trigger (s : io_coh) : option (io_coh * list tb_event) :=
  if ic_tx_type s =? 0 then
    if negb (Z.of_nat (length (ic_wdata_vec s)) =? ic_tx_size s) then Some (s, [TbError])
    else ioc_write_start (ic_tx_addr s) s
  else if ic_tx_type s =? 1 then ioc_read_start (ic_tx_addr s) s
  else if ic_tx_type s =? 2 then burst_from 0 (s <| ic_burst_in_flight := true |>)
  else Some (s, []).

(** [0x080]: the transaction programmed is appended to the burst. *)
Definition latch_txn (s : io_coh) : io_coh :=
  s <| ic_txns ::= (λ l, l ++ [Axi_txns (ic_tx_addr_burst s) (ic_tx_type_size s &&& 0x0f)
                                  (0 <? ic_tx_type_size s ≫ 8) (ic_wdata_vec s)]) |>.

Definition ioc_write (addr : Z) (data : list Z) (s : io_coh) : option (io_coh * list tb_event) :=
  if negb (has_addr id addr) then Some (s, [])
  else
    let v := deserializeInt 8 data in
    let at_off o := addr =? u64 (dbase id + o) in
    if addr =? dbase id then
      Some (s <| ic_tx_status := v &&& 1 |> <| ic_wdata_vec := [] |>, if 0 <? v then [TbError] else [])
    else if at_off 0x080 then Some (latch_txn s, [])
    else if at_off 0x100 then Some (s <| ic_tx_addr := v |> <| ic_tx_addr_burst := v |>, [])
    else if at_off 0x180 then Some (s <| ic_tx_type_size := u8 v |>, [])
    else if at_off 0x200 then Some (s <| ic_wdata_vec ::= (λ l, l ++ [u8 v]) |>, [])
    else if at_off 0x300 then
      let s := s <| ic_tx_type := v |> in
      Some (if v =? 2 then s <| ic_txns := [] |> else s, [])
    else if at_off 0x340 then Some (s <| ic_user_bits := v &&& 0xff |>, [])
    else if at_off 0x380 then Some (s <| ic_blocking := negb (v =? 1) |>, [])
    else if at_off 0x400 then ioc_trigger s
    else if at_off 0x600 then Some (s <| ic_tx_size := v |>, [])
    else Some (s, []).

Definition ioc_read_dev (addr : Z) (len : nat) (data : list Z) (s : io_coh) : option (io_coh * list Z * list tb_event) :=
  if negb (has_addr id addr) then Some (s, data, [])
  else
    let at_off o := addr =? u64 (dbase id + o) in
    if at_off 0x500 then
      Some (s, if ic_tx_type s =? 1 then serializeInt (Z.b2z (ic_read_in_flight s)) len data
               else if ic_tx_type s =? 2 then serializeInt (Z.b2z (ic_burst_in_flight s)) len data else data, [])
    else if at_off 0x580 then
      if ic_read_counter s <? ic_tx_size s then
        match ic_rdata s !! Z.to_nat (ic_read_counter s), data with
        | Some b, _ :: data => Some (s <| ic_read_counter ::= (λ n, u64 (n + 1)) |>, b :: data, [])
        | _, _ => None
        end
      else Some (s, data, [TbError])
    else if at_off 0x5b0 then Some (s, serializeInt (Z.b2z (ic_write_in_flight s)) len data, [])
    else Some (s, data, []).

(** All its registers are in the lower half of its window. *)
Definition ioc_subdevice : Subdevice io_coh := {|
  sd_hit _ addr := has_addr id addr && (addr <=? dbase id + 0x600);
  sd_write addr _ data s := ioc_write addr data s;
  sd_read addr len data s := ioc_read_dev addr len data s
|}.
End io_coh.

(** ** The programs software runs *)

Section driver.
Context (id : device_id) (c : ioc_cfg) (poke : Z → Z → Z → bool * bool) (client_check : bool).

(** A register write of eight bytes. *)
Definition reg_write (off v : Z) (s : io_coh) : option (io_coh * list tb_event) :=
  ioc_write id c (u64 (dbase id + off)) (le_bytes 8 v) s.
Fixpoint reg_writes (l : list (Z * Z)) (s : io_coh) : option (io_coh * list tb_event) :=
  match l with
  | [] => Some (s, [])
  | (off, v) :: l =>
      match reg_write off v s with
      | Some (s, es) => match reg_writes l s with Some (s, es') => Some (s, es ++ es') | None => None end
      | None => None
      end
  end.

(** Clear, size, address and type; then the bytes and the trigger. *)
Definition write_program (addr : Z) (bytes : list Z) : list (Z * Z) :=
  [(0, 0); (0x600, Z.of_nat (length bytes)); (0x100, addr); (0x300, 0)] ++ ((0x200,.) <$> bytes) ++ [(0x400, 1)].
End driver.

Section io_coh_lemmas.
Context (id : device_id) (c : ioc_cfg) (poke : Z → Z → Z → bool * bool) (client_check : bool).
Hypothesis Hid : 0 ≤ dbase id ∧ dbase id + 0x1000 < 2 ^ 64 ∧ dsize id = 0x1000.

Lemma insert_middle {A} (l r : list A) x y : <[length l := x]> (l ++ y :: r) = l ++ x :: r.
Proof. rewrite <- (Nat.add_0_r (length l)). by rewrite insert_app_r. Qed.

Lemma fill_lanes_app src b i n k pre spre :
  (i + b + n ≤ 63)%nat → (i + n ≤ length src)%nat → length pre = (i + b)%nat → length spre = (i + b)%nat →
  fill_lanes src b i n (pre ++ replicate (n + k) 0) (spre ++ replicate (n + k) false) =
    Some (pre ++ take n (drop i src) ++ replicate k 0, spre ++ replicate n true ++ replicate k false).
Proof.
  revert i pre spre. induction n as [|n IH]; intros i pre spre Hb Hs Hp Hsp; [done|].
  cbn [fill_lanes]. rewrite (proj2 (Nat.ltb_lt _ _)) by lia.
  destruct (lookup_lt_is_Some_2 src i) as [x Hx]; [lia|]. rewrite Hx, (drop_S _ _ _ Hx).
  cbn [Nat.add replicate take app]. rewrite <- Hp at 1. rewrite <- Hsp at 1.
  rewrite !insert_middle. specialize (IH (S i) (pre ++ [x]) (spre ++ [true])).
  rewrite <- !app_assoc in IH. apply IH; rewrite ?length_app; cbn; lia.
Qed.

(** The lanes of a write of [bytes] at offset [b] of its line. *)
Definition lane_data (b : nat) (bytes : list Z) : list Z := replicate b 0 ++ bytes ++ replicate (64 - b - length bytes) 0.
Definition lane_strb (b n : nat) : list bool := replicate b false ++ replicate n true ++ replicate (64 - b - n) false.

Lemma gen_data_strb_lanes addr s :
  let b := Z.to_nat (addr &&& 0x3f) in
  ic_tx_size s = Z.of_nat (length (ic_wdata_vec s)) → (b + length (ic_wdata_vec s) ≤ 63)%nat →
  gen_data_strb addr s = Some (lane_data b (ic_wdata_vec s), lane_strb b (length (ic_wdata_vec s))).
Proof.
  intros b Hn Hb. unfold gen_data_strb. rewrite Hn. destruct (Z.ltb_spec 255 (Z.of_nat (length (ic_wdata_vec s)))); [lia|].
  rewrite Nat2Z.id. fold b. set (n := length (ic_wdata_vec s)) in *.
  replace (replicate 64 0) with (replicate b 0 ++ replicate (n + (64 - b - n)) 0) by (rewrite <- replicate_add; f_equal; lia).
  replace (replicate 64 false) with (replicate b false ++ replicate (n + (64 - b - n)) false) by (rewrite <- replicate_add; f_equal; lia).
  rewrite fill_lanes_app by (rewrite ?length_replicate; lia). rewrite drop_0, take_ge by lia. done.
Qed.

Lemma ioc_reg off : 0 ≤ off < 0x1000 → u64 (dbase id + off) = dbase id + off ∧ has_addr id (dbase id + off) = true.
Proof.
  intros Ho. destruct Hid as (H0 & H1 & H2). split; [apply Z.mod_small; lia|].
  unfold has_addr. rewrite H2. unfold u64. rewrite Z.mod_small by lia. lia.
Qed.
Lemma at_off_eqb off o : 0 ≤ off < 0x1000 → 0 ≤ o < 0x1000 → (u64 (dbase id + off) =? u64 (dbase id + o)) = (off =? o).
Proof. intros. rewrite !(λ o H, proj1 (ioc_reg o H)) by lia. destruct (Z.eqb_spec off o), (Z.eqb_spec (dbase id + off) (dbase id + o)); lia. Qed.

(** The dispatch of a register write, by its offset. *)
Lemma reg_write_eq off v s :
  0 ≤ off < 0x1000 → is_u64 v →
  reg_write id c off v s =
    if off =? 0 then Some (s <| ic_tx_status := v &&& 1 |> <| ic_wdata_vec := [] |>, if 0 <? v then [TbError] else [])
    else if off =? 0x080 then Some (latch_txn s, [])
    else if off =? 0x100 then Some (s <| ic_tx_addr := v |> <| ic_tx_addr_burst := v |>, [])
    else if off =? 0x180 then Some (s <| ic_tx_type_size := u8 v |>, [])
    else if off =? 0x200 then Some (s <| ic_wdata_vec ::= (λ l, l ++ [u8 v]) |>, [])
    else if off =? 0x300 then Some (if v =? 2 then s <| ic_tx_type := v |> <| ic_txns := [] |> else s <| ic_tx_type := v |>, [])
    else if off =? 0x340 then Some (s <| ic_user_bits := v &&& 0xff |>, [])
    else if off =? 0x380 then Some (s <| ic_blocking := negb (v =? 1) |>, [])
    else if off =? 0x400 then ioc_trigger c s
    else if off =? 0x600 then Some (s <| ic_tx_size := v |>, [])
    else Some (s, []).
Proof.
  intros Ho Hv. unfold reg_write, ioc_write.
  rewrite deserializeInt_spec, take_ge, le_value_bytes, Z.mod_small by
    (try apply le_bytes_u8; rewrite ?length_le_bytes; done || lia).
  assert (has_addr id (u64 (dbase id + off)) = true) as -> by (rewrite (proj1 (ioc_reg off Ho)); apply ioc_reg, Ho).
  assert ((u64 (dbase id + off) =? dbase id) = (off =? 0)) as ->.
  { rewrite (proj1 (ioc_reg off Ho)). destruct (Z.eqb_spec off 0), (Z.eqb_spec (dbase id + off) (dbase id)); lia. }
  cbn [negb]. rewrite !at_off_eqb by lia. repeat (destruct (off =? _); [reflexivity|]). done.
Qed.

Lemma reg_writes_app l1 l2 s s1 es :
  reg_writes id c l1 s = Some (s1, es) →
  reg_writes id c (l1 ++ l2) s = '(s2, es') ← reg_writes id c l2 s1; Some (s2, es ++ es').
Proof.
  revert s es. induction l1 as [|[off v] l1 IH]; intros s es; cbn.
  { intros [= -> <-]. by destruct (reg_writes id c l2 s1) as [[]|]. }
  destruct (reg_write id c off v s) as [[s0 es0]|]; [|done]. destruct (reg_writes id c l1 s0) as [[s1' es1]|] eqn:E; [|done].
  intros [= -> <-]. rewrite (IH _ _ E). destruct (reg_writes id c l2 s1) as [[]|]; [|done]. cbn. by rewrite app_assoc.
Qed.

Lemma reg_writes_bytes bytes s :
  Forall is_u8 bytes →
  reg_writes id c ((0x200,.) <$> bytes) s = Some (s <| ic_wdata_vec ::= (λ l, l ++ bytes) |>, []).
Proof.
  intros Hb. revert s. induction Hb as [|x bytes Hx Hb IH]; intros s.
  { destruct s. unfold modify. cbn. by rewrite app_nil_r. }
  cbn [fmap list_fmap reg_writes]. unfold is_u8 in Hx. rewrite reg_write_eq by (unfold is_u64; lia). cbn -[app]. rewrite IH. unfold modify. cbn -[app].
  unfold u8. rewrite Z.mod_small by lia. by rewrite <- app_assoc.
Qed.

(** The state the program of a write leaves when it triggers. *)
Lemma write_program_state addr bytes s :
  is_u64 addr → Forall is_u8 bytes → (length bytes ≤ 63)%nat →
  reg_writes id c (write_program addr bytes) s =
    ioc_trigger c (s <| ic_tx_status := 0 |> <| ic_tx_size := Z.of_nat (length bytes) |> <| ic_tx_addr := addr |>
                     <| ic_tx_addr_burst := addr |> <| ic_tx_type := 0 |> <| ic_wdata_vec := bytes |>).
Proof.
  intros Ha Hb Hn. unfold write_program.
  set (s1 := s <| ic_tx_status := 0 |> <| ic_wdata_vec := [] |> <| ic_tx_size := Z.of_nat (length bytes) |>
               <| ic_tx_addr := addr |> <| ic_tx_addr_burst := addr |> <| ic_tx_type := 0 |>).
  rewrite (reg_writes_app _ _ s s1 []).
  2:{ cbn [app reg_writes]. do 4 (rewrite reg_write_eq by (unfold is_u64 in *; lia); cbn -[Z.of_nat reg_write]). done. }
  erewrite reg_writes_app by (apply reg_writes_bytes, Hb). cbn [reg_writes].
  rewrite reg_write_eq by (unfold is_u64; lia). cbn -[Z.of_nat ioc_trigger].
  match goal with |- ?l = ioc_trigger c ?x => change (ic_wdata_vec s1 ++ bytes) with bytes end.
  by destruct (ioc_trigger c _) as [[? ?]|]; cbn; rewrite ?app_nil_r.
Qed.

Lemma ioc_resume_one k p s t :
  base.filter (λ t, p t = true) (ic_tasks s) = [t] →
  ioc_resume k p s = k t (s <| ic_tasks ::= base.filter (λ t, p t = false) |>).
Proof. intros E. unfold ioc_resume. by rewrite E, run_tasks_one. Qed.

Lemma lane_data_length b bytes : (b + length bytes ≤ 64)%nat → length (lane_data b bytes) = 64%nat.
Proof. intros. unfold lane_data. rewrite !length_app, !length_replicate. lia. Qed.

(** The pokes of the bytes of a line at consecutive addresses. *)
Definition line_pokes (addr : Z) (data : list Z) (n : nat) : list tb_event :=
  (λ j, TbPoke (u64 (addr + Z.of_nat j)) 1 (at_z data j)) <$> seq 0 n.

Lemma line_pokes_aligned addr bytes : line_pokes addr (lane_data 0 bytes) (length bytes) = line_pokes addr bytes (length bytes).
Proof.
  apply list_fmap_ext. intros j x [-> Hx]%lookup_seq. f_equal. unfold lane_data, at_z. cbn [replicate app].
  by rewrite lookup_app_l by lia.
Qed.


(** *** Reads *)

Definition read_program (n addr : Z) : list (Z * Z) := [(0x600, n); (0x100, addr); (0x300, 1); (0x400, 1)].

(** [k] reads of the data register, one byte each. *)
Fixpoint drain (k : nat) (s : io_coh) : option (list Z * io_coh) :=
  match k with
  | O => Some ([], s)
  | S k =>
      match ioc_read_dev id (u64 (dbase id + 0x580)) 1 [0] s with
      | Some (s, [x], []) => match drain k s with Some (xs, s) => Some (x :: xs, s) | None => None end
      | _ => None
      end
  end.

Lemma read_data_reg len data s :
  ioc_read_dev id (u64 (dbase id + 0x580)) len data s =
    if ic_read_counter s <? ic_tx_size s then
      match ic_rdata s !! Z.to_nat (ic_read_counter s), data with
      | Some b, _ :: data => Some (s <| ic_read_counter ::= (λ n, u64 (n + 1)) |>, b :: data, [])
      | _, _ => None
      end
    else Some (s, data, [TbError]).
Proof.
  unfold ioc_read_dev.
  assert (has_addr id (u64 (dbase id + 0x580)) = true) as -> by (rewrite (proj1 (ioc_reg 0x580 ltac:(lia))); apply ioc_reg; lia).
  cbn [negb]. rewrite !at_off_eqb by lia. done.
Qed.

Lemma drain_all k s :
  0 ≤ ic_read_counter s → ic_tx_size s < 2 ^ 64 → ic_read_counter s + Z.of_nat k ≤ ic_tx_size s →
  ic_tx_size s ≤ Z.of_nat (length (ic_rdata s)) →
  drain k s = Some (take k (drop (Z.to_nat (ic_read_counter s)) (ic_rdata s)),
                    s <| ic_read_counter := ic_read_counter s + Z.of_nat k |>).
Proof.
  revert s. induction k as [|k IH]; intros s H0 H1 H2 H3.
  { cbn. rewrite Z.add_0_r. by destruct s. }
  cbn [drain]. rewrite read_data_reg. rewrite (proj2 (Z.ltb_lt _ _)) by lia.
  destruct (lookup_lt_is_Some_2 (ic_rdata s) (Z.to_nat (ic_read_counter s))) as [x Hx]; [lia|]. rewrite Hx, (drop_S _ _ _ Hx).
  set (s' := s <| ic_read_counter ::= _ |>).
  assert (ic_read_counter s' = ic_read_counter s + 1) as E by (apply Z.mod_small; lia).
  rewrite (IH s'); rewrite ?E; change (ic_tx_size s') with (ic_tx_size s); change (ic_rdata s') with (ic_rdata s); try lia.
  cbn [take]. rewrite <- Z2Nat.inj_succ by lia. f_equal. f_equal. unfold s', modify. cbn -[Z.of_nat]. f_equal. lia.
Qed.

(** The program of a read of [n] bytes sends one read to the master of the
    address; when its response has arrived, [n] reads of the data register
    return the first [n] bytes of the response in order, and one more read is
    reported as an error. *)
Theorem ioc_read_program s n addr r :
  let p := mst_for_addr c addr in
  is_u64 addr → 1 ≤ n ≤ Z.of_nat (length (rb_data r)) → n < 2 ^ 64 → rb_id r = ic_axi_id s →
  Forall (λ t, awaits_r p (ic_axi_id s) t = false) (ic_tasks s) →
  ∃ s1 a s2 s3,
    reg_writes id c (read_program n addr) s = Some (s1, [TbA (PortMst p) a]) ∧
    a_w a = false ∧ a_addr a = addr ∧ a_id a = ic_axi_id s ∧ a_len a = 0 ∧ a_size a = Z.log2 n ∧
    ic_read_in_flight s1 = true ∧
    ioc_r c p r s1 = Some (s2, []) ∧ ic_read_in_flight s2 = false ∧ ic_tasks s2 = ic_tasks s ∧
    drain (Z.to_nat n) s2 = Some (take (Z.to_nat n) (rb_data r), s3) ∧
    ioc_read_dev id (u64 (dbase id + 0x580)) 1 [0] s3 = Some (s3, [0], [TbError]).
Proof.
  intros p Ha Hn Hn' Hr Hts. unfold read_program, reg_writes.
  do 4 (rewrite reg_write_eq by (unfold is_u64 in *; lia); cbn -[Z.of_nat reg_write ioc_trigger]).
  unfold ioc_trigger, ioc_read_start. cbn -[ioc_a]. rewrite log2_size_pos by lia. cbn -[ioc_a].
  eexists _, _, _, _. split; [reflexivity|]. do 6 (split; [reflexivity|]).
  split; [|split; [|split; [|split]]].
  - unfold ioc_r. erewrite ioc_resume_one.
    2:{ cbn. apply filter_last; [rewrite Hr; exact Hts|]. cbn. by rewrite Hr, !Z.eqb_refl. }
    unfold ioc_read_end. cbn -[Z.of_nat]. rewrite (proj2 (Z.ltb_ge _ _)) by lia. reflexivity.
  - done.
  - cbn. rewrite Hr. apply filter_rest; [done|]. cbn. by rewrite !Z.eqb_refl.
  - rewrite drain_all; cbn -[Z.of_nat]; rewrite ?length_take; try lia. rewrite drop_0, take_take, Nat.min_id. reflexivity.
  - rewrite read_data_reg. cbn -[Z.of_nat]. rewrite (proj2 (Z.ltb_ge _ _)) by lia. done.
Qed.

(** *** Bursts *)

(** The responses of the transactions [ts], each on the channel of its master. *)
Fixpoint serve (ts : list axi_txns) (rs : list r_beat) (s : io_coh) : option (io_coh * list tb_event) :=
  match ts, rs with
  | t :: ts, r :: rs =>
      match ioc_r c (mst_for_addr c (tx_a_addr t)) r s with
      | Some (s, es) => match serve ts rs s with Some (s, es') => Some (s, es ++ es') | None => None end
      | None => None
      end
  | _, _ => Some (s, [])
  end.

(** The read requests of a burst, with consecutive ids from [k]. *)
Fixpoint burst_requests (k user : Z) (ts : list axi_txns) : list tb_event :=
  match ts with
  | [] => []
  | t :: ts =>
      TbA (PortMst (mst_for_addr c (tx_a_addr t))) (ioc_a c false k (tx_a_addr t) (tx_a_size t) user)
        :: burst_requests (u8 (k + 1)) user ts
  end.

(** Each response carries the id of its request and enough bytes. *)
Fixpoint burst_replies (k n : Z) (rs : list r_beat) : Prop :=
  match rs with
  | [] => True
  | r :: rs => rb_id r = k ∧ n ≤ Z.of_nat (length (rb_data r)) ∧ burst_replies (u8 (k + 1)) n rs
  end.

(** The answer of transaction [i], the only one waited for. *)
Lemma burst_reply s p k i r :
  ic_tasks s = [IocBurstR p k i] → rb_id r = k → ic_tx_size s ≤ Z.of_nat (length (rb_data r)) →
  ∃ s', ioc_r c p r s = burst_from c (S i) s' ∧ ic_txns s' = ic_txns s ∧ ic_tasks s' = [] ∧
    ic_axi_id s' = ic_axi_id s ∧ ic_tx_size s' = ic_tx_size s ∧ ic_user_bits s' = ic_user_bits s.
Proof.
  intros Hts Hk Hlen. unfold ioc_r, ioc_resume. rewrite Hts, Hk. set (s0 := s <| ic_tasks ::= _ |>).
  rewrite filter_cons_True, filter_nil, run_tasks_one by (cbn; by rewrite !Z.eqb_refl).
  unfold burst_read_end, ioc_read_end. change (ic_tx_size s0) with (ic_tx_size s).
  rewrite (proj2 (Z.ltb_ge _ _)) by lia. cbn [mbind option_bind]. eexists. split; [reflexivity|]. split_and!; try done.
  change (base.filter (λ t, awaits_r p k t = false) (ic_tasks s) = []). rewrite Hts. cbn. by rewrite !Z.eqb_refl.
Qed.

Lemma burst_serve i rs s :
  let ts := drop i (ic_txns s) in
  ic_tasks s = [] → Forall (λ t, tx_r0_w1 t = false) ts → length rs = length ts →
  burst_replies (ic_axi_id s) (ic_tx_size s) rs →
  ∃ s1 e1 s2 e2,
    burst_from c i s = Some (s1, e1) ∧ serve ts rs s1 = Some (s2, e2) ∧
    e1 ++ e2 = burst_requests (ic_axi_id s) (ic_user_bits s) ts ∧
    ic_burst_in_flight s2 = false ∧ ic_tasks s2 = [] ∧ ic_txns s2 = ic_txns s.
Proof.
  cbv zeta. remember (drop i (ic_txns s)) as ts eqn:Ets. revert i rs s Ets.
  induction ts as [|t ts IH]; intros i rs s Ets Hts Hr Hl Hrs.
  { symmetry in Ets. apply drop_nil_inv in Ets. unfold burst_from. replace (length (ic_txns s) - i)%nat with 0%nat by lia.
    destruct rs; [|done]. eexists _, _, _, _. by split_and!. }
  destruct rs as [|r rs]; [done|]. destruct Hrs as (Hid' & Hlen & Hrs).
  apply Forall_cons in Hr as [Ht Hr]. injection Hl as Hl.
  assert (ic_txns s !! i = Some t) as Hi by (rewrite <- (Nat.add_0_r i), <- lookup_drop, <- Ets; done).
  assert (ts = drop (S i) (ic_txns s)) as Ets' by (rewrite (drop_S _ _ _ Hi) in Ets; congruence).
  pose proof (lookup_lt_Some _ _ _ Hi). unfold burst_from.
  replace (length (ic_txns s) - i)%nat with (S (length (ic_txns s) - S i)) by lia.
  cbn [burst_run]. rewrite Hi, Ht. cbn [negb]. set (s1 := _ <| ic_tasks ::= _ |>).
  set (p := mst_for_addr c (tx_a_addr t)).
  destruct (burst_reply s1 p (ic_axi_id s) i r) as (s1' & Er & E1 & E2 & E3 & E4 & E5); [subst s1; cbn; by rewrite Hts|done|done|].
  change (ic_txns s1) with (ic_txns s) in E1. change (ic_axi_id s1) with (u8 (ic_axi_id s + 1)) in E3.
  change (ic_tx_size s1) with (ic_tx_size s) in E4. change (ic_user_bits s1) with (ic_user_bits s) in E5.
  destruct (IH (S i) rs s1') as (s2 & e1 & s3 & e2 & H1 & H2 & H3 & H4 & H5 & H6);
    [by rewrite E1|done|done|done|by rewrite E3, E4|].
  eexists s1, _, s3, (e1 ++ e2). split; [done|]. split_and!; [|by rewrite H3, E3, E5|done|done|by rewrite H6].
  cbn [serve]. fold p. by rewrite Er, H1, H2.
Qed.

(** A burst of reads, each answered after it was sent, sends the latched
    transactions one at a time, in the order they were latched and with
    consecutive ids, and is no longer in flight after the last answer. *)
Theorem ioc_burst_in_order s rs :
  ic_tx_type s = 2 → ic_tasks s = [] → Forall (λ t, tx_r0_w1 t = false) (ic_txns s) →
  length rs = length (ic_txns s) → burst_replies (ic_axi_id s) (ic_tx_size s) rs →
  ∃ s1 e1 s2 e2,
    reg_write id c 0x400 1 s = Some (s1, e1) ∧ serve (ic_txns s) rs s1 = Some (s2, e2) ∧
    e1 ++ e2 = burst_requests (ic_axi_id s) (ic_user_bits s) (ic_txns s) ∧ ic_burst_in_flight s2 = false.
Proof.
  intros Ht Hts Hr Hl Hrs. rewrite reg_write_eq by (unfold is_u64; lia). cbn -[ioc_trigger]. unfold ioc_trigger. rewrite Ht.
  destruct (burst_serve 0 rs (s <| ic_burst_in_flight := true |>)) as (s1 & e1 & s2 & e2 & H1 & H2 & H3 & H4 & _); [done..|].
  cbn -[burst_from]. exists s1, e1, s2, e2. rewrite H1. split_and!; done.
Qed.
End io_coh_lemmas.

(** ** Bursts never write *)

Section io_coh_invariant.
Context (id : device_id) (c : ioc_cfg) (poke : Z → Z → Z → bool * bool) (client_check : bool).

Inductive ioc_op :=
| IWrite (addr : Z) (data : list Z)
| IRead (addr : Z) (len : nat) (data : list Z)
| IB (loc : Z) (b : b_beat)
| IR (loc : Z) (r : r_beat).
Definition ioc_step (o : ioc_op) (s : io_coh) : option (io_coh * list tb_event) :=
  match o with
  | IWrite addr data => ioc_write id c addr data s
  | IRead addr len data => '(s, _, es) ← ioc_read_dev id addr len data s; Some (s, es)
  | IB loc b => ioc_b c poke client_check loc b s
  | IR loc r => ioc_r c loc r s
  end.
Fixpoint ioc_run (os : list ioc_op) (s : io_coh) : option (io_coh * list tb_event) :=
  match os with
  | [] => Some (s, [])
  | o :: os =>
      match ioc_step o s with
      | Some (s, es) => match ioc_run os s with Some (s, es') => Some (s, es ++ es') | None => None end
      | None => None
      end
  end.

Definition no_burst_write (t : ioc_task) : Prop := match t with IocBurstW _ _ _ _ _ => False | _ => True end.
Definition ioc_inv (s : io_coh) : Prop :=
  is_u8 (ic_tx_type_size s) ∧ Forall (λ t, tx_r0_w1 t = false) (ic_txns s) ∧ Forall no_burst_write (ic_tasks s).
Definition keeps_inv (o : option (io_coh * list tb_event)) : Prop := from_option (λ r, ioc_inv r.1) True o.

(** The three fields of the invariant are all that matters. *)
Lemma ioc_inv_frame s s' :
  ic_tx_type_size s' = ic_tx_type_size s → ic_txns s' = ic_txns s →
  (ic_tasks s' = ic_tasks s ∨ ∃ t, ic_tasks s' = ic_tasks s ++ [t] ∧ no_burst_write t) → ioc_inv s → ioc_inv s'.
Proof.
  intros E1 E2 E3 (H1 & H2 & H3). unfold ioc_inv. rewrite E1, E2. split_and!; [done..|].
  destruct E3 as [-> | (t & -> & Ht)]; [done|]. apply Forall_app. by repeat constructor.
Qed.

Lemma burst_run_inv n i s : ioc_inv s → keeps_inv (burst_run c n i s).
Proof.
  intros H. destruct n as [|n]; [by apply (ioc_inv_frame s); auto|]. cbn [burst_run].
  destruct (ic_txns s !! i) as [t|] eqn:Et; [|by apply (ioc_inv_frame s); auto].
  pose proof H as (_ & Hr & _). rewrite (proj1 (Forall_lookup _ _) Hr _ _ Et : tx_r0_w1 t = false). cbn [negb].
  apply (ioc_inv_frame s); [done..| |done]. right. by eexists.
Qed.

Lemma ioc_trigger_inv s : ioc_inv s → keeps_inv (ioc_trigger c s).
Proof.
  intros H. unfold ioc_trigger. destruct (ic_tx_type s =? 0); [destruct (negb _); [done|]|].
  - unfold ioc_write_start. destruct (log2_size _) as [size|]; [|done]. cbn [mbind option_bind].
    destruct (gen_data_strb _ _) as [[d st]|]; [|done]. cbn [mbind option_bind].
    apply (ioc_inv_frame s); [done..| |done]. right. by eexists.
  - destruct (ic_tx_type s =? 1).
    + unfold ioc_read_start. destruct (log2_size _) as [size|]; [|done]. cbn [mbind option_bind].
      apply (ioc_inv_frame s); [done..| |done]. right. by eexists.
    + destruct (ic_tx_type s =? 2); [|done]. apply burst_run_inv, (ioc_inv_frame s); auto.
Qed.

Lemma u8_shiftr x : is_u8 x → x ≫ 8 = 0.
Proof. intros H. unfold is_u8 in H. rewrite Z.shiftr_div_pow2 by lia. apply Z.div_small. lia. Qed.

Lemma latch_txn_inv s : ioc_inv s → ioc_inv (latch_txn s).
Proof.
  intros (H1 & H2 & H3). split_and!; [done| |done]. apply Forall_app. split; [exact H2|]. constructor; [|done].
  cbn. by rewrite u8_shiftr.
Qed.

Lemma ioc_write_inv addr data s : ioc_inv s → keeps_inv (ioc_write id c addr data s).
Proof.
  intros H. unfold ioc_write. destruct (negb _); [done|]. cbv zeta.
  destruct (addr =? dbase id); [by apply (ioc_inv_frame s); auto|].
  destruct (addr =? u64 (dbase id + 0x080)); [by apply latch_txn_inv|].
  destruct (addr =? u64 (dbase id + 0x100)); [by apply (ioc_inv_frame s); auto|].
  destruct (addr =? u64 (dbase id + 0x180)).
  { destruct H as (H1 & H2 & H3). split_and!; [apply Z.mod_pos_bound; lia|done..]. }
  destruct (addr =? u64 (dbase id + 0x200)); [by apply (ioc_inv_frame s); auto|].
  destruct (addr =? u64 (dbase id + 0x300)).
  { case_match; [|by apply (ioc_inv_frame s); auto]. destruct H as (H1 & H2 & H3). by split_and!. }
  destruct (addr =? u64 (dbase id + 0x340)); [by apply (ioc_inv_frame s); auto|].
  destruct (addr =? u64 (dbase id + 0x380)); [by apply (ioc_inv_frame s); auto|].
  destruct (addr =? u64 (dbase id + 0x400)); [by apply ioc_trigger_inv|].
  destruct (addr =? u64 (dbase id + 0x600)); [by apply (ioc_inv_frame s); auto|done].
Qed.

Lemma ioc_read_inv addr len data s :
  ioc_inv s → from_option (λ r, ioc_inv r.1.1) True (ioc_read_dev id addr len data s).
Proof.
  intros H. unfold ioc_read_dev. destruct (negb _); [done|]. cbv zeta. case_match; [done|]. case_match; [|by case_match].
  case_match; [|done]. destruct (_ !! _); [|done]. destruct data; [done|]. by apply (ioc_inv_frame s); auto.
Qed.

Lemma ioc_read_end_inv d s : ioc_inv s → from_option ioc_inv True (ioc_read_end d s).
Proof. intros H. unfold ioc_read_end. case_match; [done|]. by apply (ioc_inv_frame s); auto. Qed.

Lemma Forall_kept (p : ioc_task → bool) b ts :
  Forall no_burst_write ts → Forall no_burst_write (base.filter (λ t, p t = b) ts).
Proof. rewrite !Forall_forall. intros H t [_ Ht]%list_elem_of_filter. by apply H. Qed.

Lemma ioc_resume_inv k p s :
  (∀ t s, ioc_inv s → no_burst_write t → keeps_inv (k t s)) → ioc_inv s → keeps_inv (ioc_resume k p s).
Proof.
  intros Hk (H1 & H2 & H3). apply (run_tasks_inv ioc_inv no_burst_write); [done| |].
  - split_and!; [done..|]. by apply Forall_kept.
  - by apply Forall_kept.
Qed.

Lemma ioc_step_inv o s : ioc_inv s → keeps_inv (ioc_step o s).
Proof.
  intros H. destruct o as [addr data|addr len data|loc b|loc r]; cbn [ioc_step].
  - by apply ioc_write_inv.
  - pose proof (ioc_read_inv addr len data s H) as Hr. by destruct (ioc_read_dev _ _ _ _ _) as [[[]]|].
  - apply ioc_resume_inv; [|done]. intros t s' H' Ht. destruct t; try done. unfold ioc_write_end.
    case_match; [done|]. case_match; [|by apply (ioc_inv_frame s'); auto].
    destruct (poke_vec _ _ _ _ _ _) as [[es [|]]|]; [|by apply (ioc_inv_frame s'); auto|done].
    by apply (ioc_inv_frame s'); auto.
  - apply ioc_resume_inv; [|done]. intros t s' H' Ht. destruct t as [| |l j i|]; try done.
    + pose proof (ioc_read_end_inv (rb_data r) s' H'). by destruct (ioc_read_end _ _).
    + unfold burst_read_end. pose proof (ioc_read_end_inv (rb_data r) s' H') as Hr. destruct (ioc_read_end _ _); [|done].
      by apply burst_run_inv.
Qed.

(** Whatever software programs and however the masters answer, no
    transaction of a burst is a write: the test for a write looks above the
    bits the programmed type keeps. *)
Theorem ioc_bursts_only_read os s es :
  ioc_run os io_coh_new = Some (s, es) → Forall (λ t, tx_r0_w1 t = false) (ic_txns s).
Proof.
  assert (ioc_inv io_coh_new) as H0 by (split_and!; [done|constructor..]).
  revert H0 es. generalize io_coh_new. induction os as [|o os IH]; intros s0 H0 es; cbn [ioc_run].
  { intros [= -> <-]. apply H0. }
  pose proof (ioc_step_inv o s0 H0) as H1. destruct (ioc_step o s0) as [[s1 e1]|]; [|done].
  destruct (ioc_run os s1) as [[s2 e2]|] eqn:E; [|done]. intros [= -> <-]. by apply (IH s1 H1 e2).
Qed.
End io_coh_invariant.

Lemma ioc_laws id c : 0 ≤ dbase id → dbase id + 0x1000 < 2 ^ 64 → @SubdeviceLaws _ (ioc_subdevice id c).
Proof.
  intros H0 H1. assert (∀ addr o, has_addr id addr && (addr <=? dbase id + 0x600) = false →
    has_addr id addr = true → 0 ≤ o ≤ 0x600 → (addr =? u64 (dbase id + o)) = false) as Hoff.
  { intros addr o Hm Ha Ho. rewrite Ha in Hm. cbn in Hm. unfold u64. rewrite Z.mod_small by lia. lia. }
  assert (∀ addr, has_addr id addr && (addr <=? dbase id + 0x600) = false → has_addr id addr = true → (addr =? dbase id) = false) as H00.
  { intros addr Hm Ha. rewrite Ha in Hm. cbn in Hm. lia. }
  split; cbn; intros addr len data s Hmiss; unfold ioc_write, ioc_read_dev;
    destruct (has_addr id addr) eqn:Ha; cbn [negb]; try done;
    rewrite <- Ha in Hmiss; rewrite ?H00, ?Hoff by (done || lia); done.
Qed.

(** ** Examples *)

Definition ioc_id : device_id := Device_id "io_coh_helper" 0x9089000 0x1000.
Definition ex_ioc : ioc_cfg := Ioc_cfg 1 2 sample_dam false.


Lemma ioc_read_program_witness :
  ∃ s1 a s2 s3, reg_writes ioc_id ex_ioc (read_program 4 0x80000040) io_coh_new = Some (s1, [TbA (PortMst 2) a]) ∧
    ioc_r ex_ioc 2 (R_beat 12 0 [5; 6; 7; 8; 9; 10; 11; 12] true) s1 = Some (s2, []) ∧
    drain ioc_id 4 s2 = Some ([5; 6; 7; 8], s3).
Proof.
  destruct (ioc_read_program ioc_id ex_ioc) with (s := io_coh_new) (n := 4) (addr := 0x80000040)
    (r := R_beat 12 0 [5; 6; 7; 8; 9; 10; 11; 12] true)
    as (s1 & a & s2 & s3 & H1 & _ & _ & _ & _ & _ & _ & H2 & _ & _ & H3 & _);
    [cbn; lia|unfold is_u64; lia|cbn; lia|lia|done|constructor|].
  exists s1, a, s2, s3. split; [exact H1|]. split; [exact H2|exact H3].
Defined.

Definition ex_burst : io_coh :=
  io_coh_new <| ic_tx_type := 2 |> <| ic_tx_size := 1 |>
    <| ic_txns := [Axi_txns 0x80000000 3 false []; Axi_txns 0x80000040 3 false []] |>.
Definition ex_replies : list r_beat := [R_beat 12 0 [1] true; R_beat 13 0 [2] true].

Lemma ioc_burst_in_order_witness :
  ∃ s1 e1 s2 e2, reg_write ioc_id ex_ioc 0x400 1 ex_burst = Some (s1, e1) ∧
    serve ex_ioc (ic_txns ex_burst) ex_replies s1 = Some (s2, e2) ∧
    e1 ++ e2 = burst_requests ex_ioc 12 0 (ic_txns ex_burst) ∧ ic_burst_in_flight s2 = false.
Proof.
  apply (ioc_burst_in_order ioc_id ex_ioc); [cbn; lia|done|done|by repeat constructor|done|]. cbn. split_and!; done || lia.
Defined.

Lemma ioc_bursts_only_read_witness :
  ∃ s es, ioc_run ioc_id ex_ioc poke_ok true
    [IWrite 0x9089300 [2; 0; 0; 0; 0; 0; 0; 0]; IWrite 0x9089180 [0xff; 0xff; 0; 0; 0; 0; 0; 0]; IWrite 0x9089080 (replicate 8 0)]
    io_coh_new = Some (s, es) ∧ length (ic_txns s) = 1%nat ∧ Forall (λ t, tx_r0_w1 t = false) (ic_txns s).
Proof.
  eexists _, _. split; [reflexivity|]. split; [done|].
  eapply (ioc_bursts_only_read ioc_id ex_ioc poke_ok true
    [IWrite 0x9089300 [2; 0; 0; 0; 0; 0; 0; 0]; IWrite 0x9089180 [0xff; 0xff; 0; 0; 0; 0; 0; 0]; IWrite 0x9089080 (replicate 8 0)]).
  reflexivity.
Defined.

(** A write that is not aligned to the line pokes the lanes from 0 on, not
    those of its bytes. *)
Example ioc_poke_unaligned :
  ('(s1, _) ← reg_writes ioc_id ex_ioc (write_program 0x80000048 [7; 8]) io_coh_new;
   snd <$> ioc_b ex_ioc poke_ok true 2 (B_beat 12 RESP_OKAY) s1) = Some [TbPoke 0x80000048 1 0; TbPoke 0x80000049 1 0].
Proof. vm_compute. reflexivity. Qed.

(** The last lane of a line is never strobed. *)
Example ioc_lane_63 :
  gen_data_strb 0x8000003f (io_coh_new <| ic_tx_size := 1 |> <| ic_wdata_vec := [7] |>) = Some (replicate 64 0, replicate 64 false).
Proof. reflexivity. Qed.

(** After an error response the write stays in flight. *)
Example ioc_error_in_flight :
  ∃ s', ioc_write_end poke_ok true 0x80000040 (replicate 64 0) false RESP_SLVERR (io_coh_new <| ic_write_in_flight := true |>) =
    Some (s', [TbError]) ∧ ic_write_in_flight s' = true.
Proof. by eexists. Qed.
