(* ===== verification/Debugger.v ===== *)
(** * Debugger: the trickbox's debug-module driver
    (src/sysmod/trickbox/debugger.{h,cpp})

    Debug-module commands come from a CSV file, loaded by a register write or,
    in random mode, picked by timer from a directory; each tick sends one of
    them.  A checkpoint makes the driver wait for an execution trigger, which
    software gives in normal mode and a timer in random mode.

    The file system is a function from paths to contents, the template
    directory the list of its regular files, [reset_state.txt] the list of its
    lines.  The generator is any [Rng].  [None] is undefined behaviour or an
    uncaught exception.  Members that are only written or logged are left out. *)

From S2P Require Import Prelude Bytes Cstd PcgExtras Device Subdevice.
From stdpp Require Import sorting.
From Stdlib Require Import Ascii.
From Stdlib Require String.
#[local] Open Scope string_scope.
#[local] Open Scope list_scope.
#[local] Open Scope Z_scope.

Record dmi_req_t := Dmi_req { dq_func_bits : Z; dq_addr : Z; dq_op : Z; dq_data : Z }.
#[export] Instance eta_dmi_req : Eta dmi_req_t := λ q, Dmi_req (dq_func_bits q) (dq_addr q) (dq_op q) (dq_data q).

(** The queues a CSV file switches on and off. *)
Record dbg_queues := Dbg_queues {
  qs_step_ahead : bool; qs_step_quit : bool; qs_halt : bool; qs_cause : bool; qs_disable : bool; qs_progbuf : bool
}.
#[export] Instance eta_dbg_queues : Eta dbg_queues := λ q,
  Dbg_queues (qs_step_ahead q) (qs_step_quit q) (qs_halt q) (qs_cause q) (qs_disable q) (qs_progbuf q).

(** Flags the driver itself changes. *)
Record dbg_globals := Dbg_globals {
  gl_check_bypass : bool; gl_warm_reset : string; gl_debug_hold : string; gl_core_idx : Z
}.
#[export] Instance eta_dbg_globals : Eta dbg_globals := λ g,
  Dbg_globals (gl_check_bypass g) (gl_warm_reset g) (gl_debug_hold g) (gl_core_idx g).

Record dbg (R : Type) := Dbg {
  db_timer : Z; db_timer_advance : Z;
  db_status : option Z; db_cmds : option Z; db_warm : option Z;  (* uninitialised until the first status *)
  db_pending : Z;               (* checkpoint_triggers_pending *)
  db_cmd_time : Z;              (* cmd_trigger_rand_debug *)
  db_rand_trigger : bool;       (* rand_dbg_entry_cmd_trigger *)
  db_parsed : bool;             (* file_parsing_done *)
  db_buf : Z; db_cmd_rcv : bool;
  db_q : list dmi_req_t; db_queues : dbg_queues;
  db_debug_time : Z;            (* timer_rand_debug *)
  db_files : list string; db_file_idx : Z;
  db_snippets : Z; db_parsing : bool; db_executing : bool;       (* file_parsing_, cmd_trigger_in_progress *)
  db_names : string; db_dut_reset : bool; db_ndm : bool;
  db_globals : dbg_globals; db_reset_file : list string; db_rng : R
}.
Arguments Dbg {R}. Arguments db_timer {R}. Arguments db_timer_advance {R}. Arguments db_status {R}. Arguments db_cmds {R}.
Arguments db_warm {R}. Arguments db_pending {R}. Arguments db_cmd_time {R}. Arguments db_rand_trigger {R}.
Arguments db_parsed {R}. Arguments db_buf {R}. Arguments db_cmd_rcv {R}. Arguments db_q {R}. Arguments db_queues {R}.
Arguments db_debug_time {R}. Arguments db_files {R}. Arguments db_file_idx {R}. Arguments db_snippets {R}.
Arguments db_parsing {R}. Arguments db_executing {R}. Arguments db_names {R}. Arguments db_dut_reset {R}.
Arguments db_ndm {R}. Arguments db_globals {R}. Arguments db_reset_file {R}. Arguments db_rng {R}.
#[export] Instance eta_dbg {R} : Eta (dbg R) := λ s,
  Dbg (db_timer s) (db_timer_advance s) (db_status s) (db_cmds s) (db_warm s) (db_pending s) (db_cmd_time s)
    (db_rand_trigger s) (db_parsed s) (db_buf s) (db_cmd_rcv s) (db_q s) (db_queues s) (db_debug_time s) (db_files s)
    (db_file_idx s) (db_snippets s) (db_parsing s) (db_executing s) (db_names s) (db_dut_reset s) (db_ndm s)
    (db_globals s) (db_reset_file s) (db_rng s).

(** Plusargs and the environment. *)
Record dbg_cfg := Dbg_cfg {
  dc_input : string; dc_random : bool;                            (* dbg_input_file_path, random_dbg_entry *)
  dc_start_delay : Z; dc_delay_min : Z; dc_delay_max : Z; dc_max_snippets : Z;
  dc_enable_cross : bool; dc_mtime_sync : bool; dc_rand_core : bool; dc_num_harts : Z;
  dc_dir : option (list (string * string));                       (* file name and path, in directory order *)
  dc_fs : string → option string
}.

(** ** Text *)

Definition newline : ascii := ascii_of_N 10.

Fixpoint remove_if (p : ascii → bool) (s : string) : string :=
  match s with
  | EmptyString => EmptyString
  | String c s => if p c then remove_if p s else String c (remove_if p s)
  end.
Definition to_lower (c : ascii) : ascii :=
  let n := N_of_ascii c in if (65 <=? n)%N && (n <=? 90)%N then ascii_of_N (n + 32) else c.
Fixpoint map_string (f : ascii → ascii) (s : string) : string :=
  match s with EmptyString => EmptyString | String c s => String (f c) (map_string f s) end.

Definition ends_with (suffix s : string) : bool :=
  let n := String.length s in let k := String.length suffix in
  (k <=? n)%nat && String.eqb (String.substring (n - k) k s) suffix.

(** The order of [std::string]. *)
Definition string_le (a b : string) : Prop := String.leb a b = true.
#[export] Instance string_le_dec : RelDecision string_le := λ a b, decide (String.leb a b = true).

(** [std::stoul(s, nullptr, 16)] *)
Inductive stoul_res := StoulVal (v : Z) | StoulInvalid | StoulRange.
Definition stoul16 (s : string) : stoul_res :=
  match scan_number 16 s with
  | None => StoulInvalid
  | Some (neg, v) => if 2 ^ 64 <=? v then StoulRange else StoulVal (if neg then u64 (- v) else v)
  end.

(** What follows the last ['/'], without its last four characters. *)
Fixpoint after_slash (s : string) : string :=
  match s with
  | EmptyString => EmptyString
  | String c s' =>
      match String.index 0 "/" s' with
      | Some _ => after_slash s'
      | None => if Ascii.eqb c "/" then s' else s
      end
  end.
Definition csv_name (file_name : string) : string :=
  let base := after_slash file_name in
  if (String.length base <? 4)%nat then base else String.substring 0 (String.length base - 4) base.

Section debugger.
Context {R : Type} `{!Rng R}.
Context (id : device_id) (c : dbg_cfg).

(** [rng() % n] *)
Definition rng_mod (n : Z) (s : dbg R) : option (Z * dbg R) :=
  let '(x, r) := rng_draw (db_rng s) in
  if n =? 0 then None else Some (u32 x mod n, s <| db_rng := r |>).

(** ** The template directory *)

Definition template_selected (filename : string) : bool :=
  ends_with ".csv" filename &&
  negb (dc_enable_cross c && (14 <? String.length filename)%nat && ends_with "scratchpad.csv" filename) &&
  negb (dc_mtime_sync c && (13 <? String.length filename)%nat && ends_with "stopcount.csv" filename).

(** [None]: the directory is invalid, an exception. *)
Definition get_all_csv_templates (s : dbg R) : option (dbg R) :=
  dir ← dc_dir c;
  Some (s <| db_files ::= (λ fs, merge_sort string_le
             (fs ++ (snd <$> base.filter (λ e, template_selected e.1 = true) dir))) |>).

(** ** Parsing *)

Definition set_queue (instr : string) (q : dbg_queues) : dbg_queues :=
  if String.eqb instr "sdtrig_halt_queue_on" then q <| qs_halt := true |>
  else if String.eqb instr "sdtrig_halt_queue_off" then q <| qs_halt := false |>
  else if String.eqb instr "sdtrig_cause_queue_on" then q <| qs_cause := true |>
  else if String.eqb instr "sdtrig_cause_queue_off" then q <| qs_cause := false |>
  else if String.eqb instr "sdtrig_disable_queue_on" then q <| qs_disable := true |>
  else if String.eqb instr "sdtrig_disable_queue_off" then q <| qs_disable := false |>
  else if String.eqb instr "sdtrig_progbuf_queue_on" then q <| qs_progbuf := true |>
  else if String.eqb instr "sdtrig_progbuf_queue_off" then q <| qs_progbuf := false |>
  else if String.eqb instr "step_ahead_queue_on" then q <| qs_step_ahead := true |>
  else if String.eqb instr "step_ahead_queue_off" then q <| qs_step_ahead := false |>
  else if String.eqb instr "step_quit_queue_on" then q <| qs_step_quit := true |>
  else if String.eqb instr "step_quit_queue_off" then q <| qs_step_quit := false |>
  else q.

Definition func_bits (q : dbg_queues) : Z :=
  if qs_progbuf q then 6 else if qs_disable q then 7 else if qs_cause q then 5 else if qs_halt q then 3
  else if qs_step_quit q then 4 else if qs_step_ahead q then 2 else 0.

Definition push_req (r : dmi_req_t) (s : dbg R) : dbg R := s <| db_q ::= (λ q, q ++ [r]) |>.

(** A number of the row: its value, or an error and the old value 0. *)
Definition row_number (row : list string) (i : nat) : option (Z * list tb_event * bool) :=
  w ← row !! i;
  match stoul16 (remove_if (λ c, Ascii.eqb c "_") w) with
  | StoulVal v => Some (u32 v, [], true)
  | StoulInvalid => Some (0, [TbError], false)
  | StoulRange => None
  end.

Definition csr_addresses : list Z :=
  [0xF11; 0xF12; 0xF13; 0xF14; 0x300; 0x301; 0x302; 0x303; 0x304; 0x305; 0x306; 0x310; 0x312].

(** A row whose command is a DMI operation, with [op] 1 to 4. *)
Definition parse_request (instr : string) (row : list string) (op : Z) (s : dbg R) : option (dbg R * list tb_event) :=
  let fb := func_bits (db_queues s) in
  if (op =? 1) || (op =? 2) then
    '(addr, e1, _) ← row_number row 1;
    '(data, e2) ← (if op =? 2 then
        '(d, e, ok) ← row_number row 2;
        Some (if (ok : bool) && dc_rand_core c && (addr =? 0x10) then u32 (d + (gl_core_idx (db_globals s) ≪ 16)) else d, e)
      else Some (0, []));
    Some (push_req (Dmi_req fb addr op data) s, e1 ++ e2)
  else if (op =? 4) && String.eqb instr "cs_csr_rand_read" then
    '(i, s) ← rng_mod 13 s;
    Some (push_req (Dmi_req fb 0x17 2 (u32 (0x00320000 + at_z csr_addresses (Z.to_nat i)))) s, [])
  else Some (push_req (Dmi_req fb 0 op 0) s, []).

Definition parse_row (row : list string) (s : dbg R) : option (dbg R * list tb_event) :=
  w ← row !! 0%nat;
  let instr := map_string to_lower (remove_if is_space w) in
  let kind := String.substring 0 2 instr in
  if String.eqb kind "rd" then parse_request instr row 1 s
  else if String.eqb kind "wr" then parse_request instr row 2 s
  else if String.eqb kind "//" then Some (s, [])
  else if String.eqb kind "cp" then parse_request instr row 3 s
  else if String.eqb kind "cs" then parse_request instr row 4 s
  else if String.eqb kind "sd" then Some (s <| db_queues ::= set_queue instr |>, [])
  else if String.eqb kind "st" then
    if String.eqb instr "step_instr_cnt" then
      n ← row !! 1%nat;
      match stoul16 n with
      | StoulVal v => Some (push_req (Dmi_req 1 0 0 (u32 v)) s, [])
      | _ => None
      end
    else Some (s <| db_queues ::= set_queue instr |>, [])
  else Some (s, [TbError]).

Fixpoint parse_rows (rows : list (list string)) (s : dbg R) : option (dbg R * list tb_event) :=
  match rows with
  | [] => Some (s, [])
  | r :: rows =>
      match parse_row r s with
      | Some (s, es) => match parse_rows rows s with Some (s, es') => Some (s, es ++ es') | None => None end
      | None => None
      end
  end.

Definition csv_rows (text : string) : list (list string) :=
  getline_tokens "," <$> getline_tokens newline text.

(** A file whose name contains "ndm" is the last one. *)
Definition note_ndm (file_name : string) (s : dbg R) : dbg R :=
  match String.index 0 "ndm" file_name with
  | Some _ => s <| db_snippets := u32 (dc_max_snippets c) |>
                <| db_globals ::= (λ g, g <| gl_check_bypass := true |> <| gl_warm_reset := "trigger" |>
                                          <| gl_debug_hold := "1:1" |>) |>
  | None => s
  end.

Definition parse_dmi_from_csv (s : dbg R) : option (dbg R * list tb_event) :=
  file_name ← (if dc_random c then db_files s !! Z.to_nat (db_file_idx s) else Some (dc_input c));
  let s := note_ndm file_name (s <| db_names ::= (λ n, String.append n (csv_name file_name)) |>) in
  '(idx, s) ← rng_mod (dc_num_harts c) s;
  let s := s <| db_globals ::= (λ g, g <| gl_core_idx := idx |>) |> in
  match dc_fs c file_name with
  | None => Some (s, [TbError])
  | Some text =>
      '(s, es) ← parse_rows (csv_rows text) (s <| db_parsed := false |>);
      let s := if dc_random c then push_req (Dmi_req 0 0 3 0) s else s in
      Some (s <| db_parsed := true |>, es)
  end.

(** ** Driving *)

(** [trickboxDmiWrite] of a request, always to hart 0. *)
Definition dmi_upper (q : dmi_req_t) : Z := u32 ((dq_func_bits q ≪ 27) ||| (dq_addr q ≪ 2) ||| dq_op q).
Definition dmi_event (q : dmi_req_t) : tb_event := TbDmi 0 (dmi_upper q) (dq_data q).
(** The execution trigger [0x800000000fffffff]. *)
Definition exec_trigger : tb_event := TbDmi 0 0x80000000 0x0fffffff.

Definition drive_csv_dmi_cmds (s : dbg R) : dbg R * list tb_event :=
  if db_rand_trigger s then (s <| db_rand_trigger := false |>, [exec_trigger])
  else
    match db_q s with
    | [] => (s, [])
    | r :: q =>
        let s := s <| db_q := q |> in
        (if dq_op r =? 3 then s <| db_pending ::= (λ n, u64 (n + 1)) |> else s, [dmi_event r])
    end.

(** ** Random mode *)

(** [rng() % (max - min + 1)] *)
Definition draw_delay (s : dbg R) : option (Z * dbg R) := rng_mod (u32 (dc_delay_max c - dc_delay_min c + 1)) s.
Definition s32 (x : Z) : Z := let y := u32 x in if 2 ^ 31 <=? y then y - 2 ^ 32 else y.

Definition genNextCmdTriggerEvents (s : dbg R) : option (dbg R) :=
  '(d, s) ← draw_delay s;
  let rand_num := s32 (d + 5 * dc_delay_min c) in
  Some (s <| db_cmd_time := u64 (db_timer s + rand_num * db_timer_advance s) |>).

Definition genNextDebugEvents (s : dbg R) : option (dbg R) :=
  '(d, s) ← draw_delay s;
  let rand_num := s32 (d + dc_delay_min c) in
  let s := s <| db_debug_time := u64 (db_timer s + rand_num * db_timer_advance s) |> in
  '(i, s) ← rng_mod (Z.of_nat (length (db_files s))) s;
  Some (s <| db_file_idx := i |> <| db_executing := false |>).

(** The first half of [checkDebugEvents]: the next snippet. *)
Definition check_snippet (s : dbg R) : option (dbg R * list tb_event) :=
  if (db_debug_time s <=? db_timer s) && (db_pending s =? 0) && negb (db_executing s) && negb (db_parsing s) then
    '(s, es) ← (if db_snippets s <? u32 (dc_max_snippets c) then
                  '(s, es) ← parse_dmi_from_csv s;
                  Some (s <| db_snippets ::= (λ n, u32 (n + 1)) |> <| db_parsing := true |>, es)
                else Some (s, []));
    if db_parsed s && db_parsing s then
      s ← genNextCmdTriggerEvents s;
      Some (s <| db_parsing := false |> <| db_executing := true |>, es)
    else Some (s, es)
  else Some (s, []).

(** The second half: the next execution trigger, or the end of the snippet. *)
Definition check_trigger (s : dbg R) : option (dbg R) :=
  if (db_cmd_time s <=? db_timer s) && match db_q s with [] => true | _ => false end && db_parsed s && db_executing s then
    if db_pending s =? 0 then genNextDebugEvents s
    else
      let s := s <| db_rand_trigger := true |> <| db_pending ::= (λ n, n - 1) |> in
      if 0 <? db_pending s then genNextCmdTriggerEvents s else Some s
  else Some s.

Definition checkDebugEvents (s : dbg R) : option (dbg R * list tb_event) :=
  if dc_random c then '(s, es) ← check_snippet s; s ← check_trigger s; Some (s, es)
  else Some (s, []).

Definition dbg_tick (advance : Z) (s : dbg R) : option (dbg R * list tb_event) :=
  let s := s <| db_timer := u64 (db_timer s + advance) |> <| db_timer_advance := advance |> in
  if u64 (5 * advance) <? db_timer s then
    '(s, es) ← checkDebugEvents s;
    let '(s, es') :=
      if db_cmd_rcv s then
        (s <| db_cmd_rcv := false |> <| db_buf := 0 |>, [TbDmi 0 (db_buf s ≫ 32) (db_buf s &&& 0xffffffff)])
      else drive_csv_dmi_cmds s in
    Some (s, es ++ es')
  else Some (s, []).

(** ** Resets and the constructor *)

Definition dbg_dut_reset_req (req : bool) (s : dbg R) : dbg R * list tb_event :=
  let s := s <| db_dut_reset := req |> in
  if req then (s <| db_ndm := true |> <| db_reset_file ::= (λ l, l ++ ["Ndm-Reset"]) |>, [TbResetLog]) else (s, []).

Definition ndm_recorded (s : dbg R) : bool :=
  match db_reset_file s with l :: _ => String.eqb l "Ndm-Reset" | [] => false end.

Definition dbg_reset (s : dbg R) : option (dbg R * list tb_event) :=
  let es := if db_dut_reset s then [TbResetLog] else [] in
  let s := if db_dut_reset s then s <| db_reset_file ::= (λ l, l ++ ["Ndm-Reset"]) |> else s in
  let s := if ndm_recorded s then s <| db_snippets := u32 (dc_max_snippets c) |> <| db_ndm := true |> else s in
  if dc_random c && negb (db_ndm s) then
    s ← get_all_csv_templates s;
    '(d, s) ← (if negb (dc_delay_min c =? 0) then '(d, s) ← draw_delay s; Some (u32 (d + dc_delay_min c), s) else Some (0, s));
    '(i, s) ← rng_mod (Z.of_nat (length (db_files s))) (s <| db_timer := 0 |>);
    Some (s <| db_file_idx := i |> <| db_debug_time := u64 (dc_start_delay c + d * db_timer_advance s) |>, es)
  else Some (s, es).

(** The members before the constructor's body. *)
Definition dbg_init (r : R) (reset_file : list string) : dbg R :=
  Dbg 0 200 None None None 0 3000 false false 0 false [] (Dbg_queues false false false false false false) 500 [] 0 0
    false false EmptyString false false (Dbg_globals false "off" "0:1" 0) reset_file r.

Definition dbg_new (r : R) (reset_file : list string) : option (dbg R * list tb_event) :=
  '(s, es) ← dbg_reset (dbg_init r reset_file);
  Some (if ndm_recorded s then
          s <| db_snippets := u32 (dc_max_snippets c) |> <| db_ndm := true |>
            <| db_globals ::= (λ g, g <| gl_debug_hold := "1:1" |>) |>
        else s, es).

(** ** Register accesses *)

Definition update_dm_status (status cmds warm : Z) (s : dbg R) : dbg R :=
  s <| db_status := Some status |> <| db_cmds := Some cmds |> <| db_warm := Some warm |>.

(** [data[0] = x], a byte. *)
Definition set_byte0 (x : option Z) (data : list Z) : option (list Z) :=
  v ← x; match data with [] => None | _ :: data => Some (u8 v :: data) end.

Definition dbg_read_dev (addr : Z) (data : list Z) (s : dbg R) : option (dbg R * list Z * list tb_event) :=
  if negb (has_addr id addr) then Some (s, data, [])
  else
    let at_off o := addr =? u64 (dbase id + o) in
    data ← (if at_off 0x500 then set_byte0 (db_status s) data
            else if at_off 0x600 then set_byte0 (db_cmds s) data
            else if at_off 0x700 then set_byte0 (db_warm s) data
            else Some data);
    Some (s, data, []).

Definition dbg_write (addr : Z) (data : list Z) (s : dbg R) : option (dbg R * list tb_event) :=
  if negb (has_addr id addr) then Some (s, [])
  else
    let v := deserializeInt 8 data in
    let s := if (addr =? dbase id) && negb (dc_random c) then s <| db_cmd_rcv := true |> <| db_buf := v |> else s in
    if (addr =? u64 (dbase id + 0x10000)) && negb (dc_random c) && negb (db_ndm s) then parse_dmi_from_csv s
    else Some (s, []).

Definition dbg_subdevice : Subdevice (dbg R) := {|
  sd_hit _ addr := has_addr id addr && ((addr <=? dbase id + 0x700) || (addr =? dbase id + 0x10000));
  sd_write addr _ data s := dbg_write addr data s;
  sd_read addr _ data s := dbg_read_dev addr data s
|}.
End debugger.

(** ** Lemmas on text *)

(** A file of lines, each ended by a newline. *)
Fixpoint text_of (lines : list string) : string :=
  match lines with [] => EmptyString | l :: ls => l +:+ String newline (text_of ls) end.

Lemma lines_of_text lines : Forall (λ l, no_char newline l = true) lines → getline_tokens newline (text_of lines) = lines.
Proof.
  unfold getline_tokens. induction 1 as [|l ls Hl Hls IH]; [done|]. cbn [text_of].
  rewrite split_on_app by done. rewrite drop_last_empty_cons by apply split_on_nonempty. by rewrite IH.
Qed.

(** ** The commands of a file *)

(** A command with the words that give its numbers. *)
Inductive csv_cmd := CsvRead (wa : string) (addr : Z) | CsvWrite (wa : string) (addr : Z) (wd : string) (data : Z) | CsvCheckpoint.

Definition csv_line (m : csv_cmd) : string :=
  match m with
  | CsvRead wa _ => "rd" +:+ String "," wa
  | CsvWrite wa _ wd _ => "wr" +:+ String "," (wa +:+ String "," wd)
  | CsvCheckpoint => "cp"
  end.
Definition csv_req (m : csv_cmd) : dmi_req_t :=
  match m with
  | CsvRead _ a => Dmi_req 0 a 1 0
  | CsvWrite _ a _ d => Dmi_req 0 a 2 d
  | CsvCheckpoint => Dmi_req 0 0 3 0
  end.

(** The word is a field of a line and denotes the number. *)
Definition word_ok (w : string) (v : Z) : Prop :=
  no_char "," w = true ∧ no_char newline w = true ∧
  stoul16 (remove_if (λ c, Ascii.eqb c "_") w) = StoulVal v ∧ is_u32 v.
Definition csv_ok (m : csv_cmd) : Prop :=
  match m with
  | CsvRead wa a => word_ok wa a
  | CsvWrite wa a wd d => word_ok wa a ∧ word_ok wd d
  | CsvCheckpoint => True
  end.

Lemma word_ok_nonempty w v : word_ok w v → w ≠ EmptyString.
Proof. intros (_ & _ & H & _) ->. done. Qed.

Definition csv_row (m : csv_cmd) : list string :=
  match m with
  | CsvRead wa _ => ["rd"; wa]
  | CsvWrite wa _ wd _ => ["wr"; wa; wd]
  | CsvCheckpoint => ["cp"]
  end.

Lemma csv_line_row m : csv_ok m → getline_tokens "," (csv_line m) = csv_row m.
Proof.
  destruct m as [wa a|wa a wd d|]; cbn [csv_ok csv_line csv_row]; [intros H|intros [H H']|done].
  - rewrite (getline_field "," "rd" wa) by (done || by eapply word_ok_nonempty).
    by rewrite getline_last by (apply H || by eapply word_ok_nonempty).
  - rewrite (getline_field "," "wr" (wa +:+ String "," wd)); [|done|by destruct wa].
    rewrite getline_field by (apply H || by eapply word_ok_nonempty).
    by rewrite getline_last by (apply H' || by eapply word_ok_nonempty).
Qed.

Lemma csv_line_no_newline m : csv_ok m → no_char newline (csv_line m) = true.
Proof.
  destruct m as [wa a|wa a wd d|]; cbn [csv_ok csv_line]; [intros H|intros [H H']|done].
  - rewrite no_char_app. cbn [no_char]. by rewrite (proj1 (proj2 H)).
  - rewrite no_char_app. cbn [no_char]. rewrite no_char_app. cbn [no_char].
    by rewrite (proj1 (proj2 H)), (proj1 (proj2 H')).
Qed.

Lemma csv_rows_text ms : Forall csv_ok ms → csv_rows (text_of (csv_line <$> ms)) = csv_row <$> ms.
Proof.
  intros H. unfold csv_rows. rewrite lines_of_text.
  - rewrite <- list_fmap_compose. apply list_fmap_ext. intros i m Hm. apply csv_line_row.
    by apply (proj1 (Forall_lookup _ _) H i).
  - apply Forall_fmap. eapply Forall_impl; [exact H|]. apply csv_line_no_newline.
Qed.

Section debugger_lemmas.
Context {R : Type} `{!Rng R}.
Context (id : device_id) (c : dbg_cfg).

Definition queues_off : dbg_queues := Dbg_queues false false false false false false.

Lemma row_number_ok row i w v : row !! i = Some w → word_ok w v → row_number row i = Some (v, [], true).
Proof.
  intros Hw (_ & _ & E & Hv). unfold row_number. rewrite Hw. cbn [mbind option_bind]. rewrite E.
  unfold u32. by rewrite Z.mod_small by (unfold is_u32 in Hv; lia).
Qed.

Lemma parse_row_ok m (s : dbg R) :
  dc_rand_core c = false → db_queues s = queues_off → csv_ok m →
  parse_row c (csv_row m) s = Some (push_req (csv_req m) s, []).
Proof.
  intros Hc Hq Hm. destruct m as [wa a|wa a wd d|]; cbn [csv_row csv_req]; unfold parse_row; cbn [lookup list_lookup mbind option_bind].
  - change (parse_request c "rd" ["rd"; wa] 1 s = Some (push_req (Dmi_req 0 a 1 0) s, [])).
    unfold parse_request. rewrite (row_number_ok _ 1 wa a) by done. by rewrite Hq.
  - destruct Hm as [H1 H2]. change (parse_request c "wr" ["wr"; wa; wd] 2 s = Some (push_req (Dmi_req 0 a 2 d) s, [])).
    unfold parse_request. rewrite (row_number_ok _ 1 wa a), (row_number_ok _ 2 wd d) by done. cbn [Z.eqb orb mbind option_bind].
    rewrite Hc, Hq. cbn. done.
  - change (parse_request c "cp" ["cp"] 3 s = Some (push_req (Dmi_req 0 0 3 0) s, [])). unfold parse_request. by rewrite Hq.
Qed.

Lemma parse_rows_ok ms (s : dbg R) :
  dc_rand_core c = false → db_queues s = queues_off → Forall csv_ok ms →
  ∃ s', parse_rows c (csv_row <$> ms) s = Some (s', []) ∧ s' = s <| db_q ::= (λ q, q ++ (csv_req <$> ms)) |>.
Proof.
  intros Hc Hq Hms. revert s Hq. induction Hms as [|m ms Hm Hms IH]; intros s Hq.
  { eexists. split; [done|]. destruct s. unfold modify. cbn. by rewrite app_nil_r. }
  cbn [fmap list_fmap parse_rows]. rewrite parse_row_ok by done.
  destruct (IH (push_req (csv_req m) s) Hq) as (s' & -> & ->). eexists. split; [done|].
  destruct s. unfold push_req, modify. cbn. by rewrite <- app_assoc.
Qed.

(** *** From the file to the debug module *)

Fixpoint dbg_ticks (n : nat) (adv : Z) (s : dbg R) : option (dbg R * list tb_event) :=
  match n with
  | O => Some (s, [])
  | S n =>
      match dbg_tick c adv s with
      | Some (s, es) => match dbg_ticks n adv s with Some (s, es') => Some (s, es ++ es') | None => None end
      | None => None
      end
  end.

(** Nothing but the queue is to be sent. *)
Definition dbg_quiet (s : dbg R) : Prop := db_cmd_rcv s = false ∧ db_rand_trigger s = false.

Lemma dbg_tick_pop adv s r q :
  dc_random c = false → dbg_quiet s → db_q s = r :: q →
  0 ≤ adv → 0 ≤ db_timer s → 5 * adv < db_timer s + adv < 2 ^ 64 →
  ∃ s', dbg_tick c adv s = Some (s', [dmi_event r]) ∧ dbg_quiet s' ∧ db_q s' = q ∧ db_timer s' = db_timer s + adv ∧
    db_pending s' = if dq_op r =? 3 then u64 (db_pending s + 1) else db_pending s.
Proof.
  intros Hc [Hr Ht] Hq Ha H0 Hb. unfold dbg_tick, checkDebugEvents, drive_csv_dmi_cmds. rewrite Hc.
  set (s0 := s <| db_timer := _ |> <| db_timer_advance := adv |>).
  assert (db_timer s0 = db_timer s + adv) as E0 by (apply Z.mod_small; lia).
  rewrite E0. unfold u64 at 1. rewrite (Z.mod_small (5 * adv)), (proj2 (Z.ltb_lt _ _)) by lia. cbn [mbind option_bind].
  change (db_cmd_rcv s0) with (db_cmd_rcv s). change (db_rand_trigger s0) with (db_rand_trigger s).
  change (db_q s0) with (db_q s). rewrite Hr, Ht, Hq.
  destruct (dq_op r =? 3); (eexists; split; [reflexivity|]); split_and!; try done; by split.
Qed.

Definition checkpoints (q : list dmi_req_t) : nat := length (base.filter (λ r, (dq_op r =? 3) = true) q).

Lemma dbg_ticks_drain adv s q :
  dc_random c = false → dbg_quiet s → db_q s = q →
  0 ≤ adv → 0 ≤ db_timer s → 4 * adv < db_timer s → db_timer s + Z.of_nat (length q) * adv < 2 ^ 64 →
  0 ≤ db_pending s → db_pending s + Z.of_nat (length q) < 2 ^ 64 →
  ∃ s', dbg_ticks (length q) adv s = Some (s', dmi_event <$> q) ∧ dbg_quiet s' ∧ db_q s' = [] ∧
    db_pending s' = db_pending s + Z.of_nat (checkpoints q).
Proof.
  intros Hc. revert s. induction q as [|r q IH]; intros s Hqu Hq Ha H0 H4 Hb Hp Hp'.
  { eexists. split; [done|]. split_and!; [apply Hqu..|done|cbn; lia]. }
  cbn [length] in Hb, Hp'. destruct (dbg_tick_pop adv s r q) as (s1 & E1 & Hqu1 & Hq1 & Ht1 & Hp1); [done..|nia|].
  assert (db_pending s1 = db_pending s + if dq_op r =? 3 then 1 else 0) as Hp1'.
  { rewrite Hp1. case_match; [apply Z.mod_small; lia|lia]. }
  destruct (IH s1) as (s2 & E2 & Hqu2 & Hq2 & Hp2); [done|done|lia|lia|lia|nia|case_match; lia|case_match; lia|].
  exists s2. cbn [length dbg_ticks]. rewrite E1, E2. split_and!; [done|apply Hqu2..|done|].
  rewrite Hp2, Hp1'. unfold checkpoints. rewrite filter_cons.
  destruct (dq_op r =? 3); case_decide; try done; cbn [length]; lia.
Qed.

Lemma note_ndm_q f (s : dbg R) :
  db_q (note_ndm c f s) = db_q s ∧ db_queues (note_ndm c f s) = db_queues s ∧ db_cmd_rcv (note_ndm c f s) = db_cmd_rcv s ∧
  db_rand_trigger (note_ndm c f s) = db_rand_trigger s ∧ db_timer (note_ndm c f s) = db_timer s ∧
  db_pending (note_ndm c f s) = db_pending s.
Proof. unfold note_ndm. by destruct (String.index _ _ _). Qed.

Lemma parse_csv_ok ms (s : dbg R) :
  dc_random c = false → dc_rand_core c = false → dc_num_harts c ≠ 0 → db_queues s = queues_off → Forall csv_ok ms →
  dc_fs c (dc_input c) = Some (text_of (csv_line <$> ms)) →
  ∃ s', parse_dmi_from_csv c s = Some (s', []) ∧ db_q s' = db_q s ++ (csv_req <$> ms) ∧ db_parsed s' = true ∧
    db_cmd_rcv s' = db_cmd_rcv s ∧ db_rand_trigger s' = db_rand_trigger s ∧ db_timer s' = db_timer s ∧
    db_pending s' = db_pending s.
Proof.
  intros Hr Hc Hn Hq Hms Hfs. unfold parse_dmi_from_csv. rewrite Hr. cbn [mbind option_bind]. rewrite Hfs.
  set (s0 := s <| db_names ::= _ |>). destruct (note_ndm_q (dc_input c) s0) as (E1 & E2 & E3 & E4 & E5 & E6).
  set (s1 := note_ndm c _ s0) in *. clearbody s1. unfold rng_mod. destruct (rng_draw (db_rng s1)) as [x r].
  rewrite (proj2 (Z.eqb_neq _ _) Hn). cbn [mbind option_bind]. rewrite csv_rows_text by done.
  match goal with |- context [parse_rows c _ ?t] => destruct (parse_rows_ok ms t) as (s2 & -> & ->) end; [done|exact (eq_trans E2 Hq)|done|].
  cbn [mbind option_bind]. eexists. split; [reflexivity|]. cbn. by rewrite E1, E3, E4, E5, E6.
Qed.

End debugger_lemmas.

(** ** Checkpoints and triggers in random mode *)

Section debugger_random.
Context {R : Type} `{!Rng R}.
Context (id : device_id) (c : dbg_cfg).

(** Requests a parser produces: an operation without number has no address. *)
Definition req_wf (r : dmi_req_t) : Prop :=
  dq_op r ∈ [0; 1; 2; 3; 4] ∧ (dq_op r = 0 ∨ dq_op r = 4 → dq_addr r = 0) ∧ 0 ≤ dq_func_bits r ≤ 7.

(** What parsing leaves alone. *)
Definition dbg_frame (s s' : dbg R) : Prop :=
  db_pending s' = db_pending s ∧ db_rand_trigger s' = db_rand_trigger s ∧ db_cmd_rcv s' = db_cmd_rcv s ∧
  db_executing s' = db_executing s ∧ db_parsing s' = db_parsing s.

(** Requests appended to the queue, errors at most. *)
Definition appends (s : dbg R) (o : option (dbg R * list tb_event)) : Prop :=
  ∀ s' es, o = Some (s', es) →
    dbg_frame s s' ∧ Forall (λ e, e = TbError) es ∧ ∃ l, db_q s' = db_q s ++ l ∧ Forall req_wf l.

Lemma appends_none s s' es : dbg_frame s s' → db_q s' = db_q s → Forall (λ e, e = TbError) es → appends s (Some (s', es)).
Proof. intros Hf Hq He ? ? [= <- <-]. split_and!; try apply Hf; [done|]. exists []. by rewrite app_nil_r. Qed.
Lemma appends_push s r es : req_wf r → Forall (λ e, e = TbError) es → appends s (Some (push_req r s, es)).
Proof. intros Hr He ? ? [= <- <-]. split_and!; try done. exists [r]. split; [done|by constructor]. Qed.

Lemma func_bits_range q : 0 ≤ func_bits q ≤ 7.
Proof. unfold func_bits. repeat case_match; lia. Qed.

Lemma row_number_events row i v es ok : row_number row i = Some (v, es, ok) → Forall (λ e, e = TbError) es.
Proof.
  unfold row_number. destruct (row !! i); [|done]. cbn [mbind option_bind].
  destruct (stoul16 _); intros [= <- <- <-]; by repeat constructor.
Qed.

Lemma parse_request_appends instr row op s : op ∈ [1; 2; 3; 4] → appends s (parse_request c instr row op s).
Proof.
  intros Hop. unfold parse_request. pose proof (func_bits_range (db_queues s)) as Hf.
  destruct ((op =? 1) || (op =? 2)) eqn:E12.
  - destruct (row_number row 1) as [[[a e1] ok1]|] eqn:E1; [|done]. apply row_number_events in E1. cbn [mbind option_bind].
    assert (req_wf (Dmi_req (func_bits (db_queues s)) a op 0)) as Hw.
    { split_and!; cbn; [set_solver|lia|lia|lia]. }
    destruct (op =? 2); [|by apply appends_push; [|rewrite app_nil_r]].
    destruct (row_number row 2) as [[[d e2] ok2]|] eqn:E2; [|done]. apply row_number_events in E2. cbn [mbind option_bind].
    apply appends_push; [exact Hw|by apply Forall_app].
  - destruct ((op =? 4) && _) eqn:E4.
    + unfold rng_mod. destruct (rng_draw (db_rng s)) as [x r]. cbn -[at_z csr_addresses push_req].
      intros ? ? [= <- <-]. split_and!; try done. eexists [_]. split; [reflexivity|]. constructor; [|done].
      split_and!; cbn; [set_solver|lia|lia|lia].
    + apply appends_push; [|done]. split_and!; cbn; [set_solver|done|lia|lia].
Qed.

Lemma parse_row_appends row s : appends s (parse_row c row s).
Proof.
  unfold parse_row. destruct (row !! 0%nat) as [w|]; [|done]. cbn [mbind option_bind]. cbv zeta.
  set (instr := map_string _ _). set (kind := String.substring 0 2 instr).
  destruct (String.eqb kind "rd"); [apply parse_request_appends; set_solver|].
  destruct (String.eqb kind "wr"); [apply parse_request_appends; set_solver|].
  destruct (String.eqb kind "//"); [by apply appends_none|].
  destruct (String.eqb kind "cp"); [apply parse_request_appends; set_solver|].
  destruct (String.eqb kind "cs"); [apply parse_request_appends; set_solver|].
  destruct (String.eqb kind "sd"); [by apply appends_none|].
  destruct (String.eqb kind "st"); [|apply appends_none; [done..|by repeat constructor]].
  destruct (String.eqb instr _); [|by apply appends_none].
  destruct (row !! 1%nat) as [n|]; [|done]. cbn [mbind option_bind]. destruct (stoul16 n); [|done..].
  apply appends_push; [|done]. split_and!; cbn; [set_solver|done|lia|lia].
Qed.

Lemma parse_rows_appends rows s : appends s (parse_rows c rows s).
Proof.
  revert s. induction rows as [|row rows IH]; intros s; [by apply appends_none|]. cbn [parse_rows].
  pose proof (parse_row_appends row s) as H1. destruct (parse_row c row s) as [[s1 e1]|]; [|done].
  destruct (H1 s1 e1 eq_refl) as (Hf1 & He1 & l1 & Hq1 & Hl1).
  specialize (IH s1). destruct (parse_rows c rows s1) as [[s2 e2]|]; [|done].
  destruct (IH s2 e2 eq_refl) as (Hf2 & He2 & l2 & Hq2 & Hl2). intros ? ? [= <- <-].
  split; [unfold dbg_frame in *; intuition congruence|]. split; [by apply Forall_app|].
  exists (l1 ++ l2). split; [by rewrite Hq2, Hq1, app_assoc|by apply Forall_app].
Qed.

(** A file that cannot be opened leaves the queue alone. *)
Lemma parse_csv_appends s :
  appends s (parse_dmi_from_csv c s) ∧
  ∀ s' es, parse_dmi_from_csv c s = Some (s', es) → db_parsed s' = true ∨ db_q s' = db_q s.
Proof.
  unfold parse_dmi_from_csv. destruct (if dc_random c then _ else _) as [f|]; [|done]. cbn [mbind option_bind].
  set (s0 := s <| db_names ::= _ |>). assert (dbg_frame s (note_ndm c f s0) ∧ db_q (note_ndm c f s0) = db_q s) as [Hf0 Hq0].
  { unfold note_ndm. by destruct (String.index _ _ _). }
  set (s1 := note_ndm c f s0) in *. clearbody s1. unfold rng_mod. destruct (rng_draw _) as [x r].
  destruct (dc_num_harts c =? 0); [done|]. cbn [mbind option_bind]. destruct (dc_fs c f) as [text|].
  2:{ split; [apply appends_none; [done..|by repeat constructor]|]. intros ? ? [= <- <-]. by right. }
  match goal with |- context [parse_rows c ?rows ?t] =>
    pose proof (parse_rows_appends rows t) as Hp; destruct (parse_rows c rows t) as [[s2 es]|] end; [|done].
  destruct (Hp s2 es eq_refl) as (Hf & He & l & Hq & Hl). cbn [mbind option_bind].
  split; [|intros ? ? [= <- <-]; by left].
  intros ? ? [= <- <-]. split; [unfold dbg_frame in *; cbn in Hf; destruct (dc_random c); cbn; intuition congruence|]. split; [done|].
  cbn in Hq. rewrite Hq0 in Hq. destruct (dc_random c); cbn; [|by exists l].
  exists (l ++ [Dmi_req 0 0 3 0]). split; [by rewrite Hq, app_assoc|]. apply Forall_app. split; [done|]. constructor; [|done].
  split_and!; cbn; [set_solver|done|lia|lia].
Qed.

(** Between operations. *)
Definition dbg_inv (s : dbg R) : Prop :=
  Forall req_wf (db_q s) ∧ (db_executing s = false → db_q s = [] ∧ db_pending s = 0) ∧ 0 ≤ db_pending s.

Lemma gen_cmd_frame s s' : genNextCmdTriggerEvents c s = Some s' → dbg_frame s s' ∧ db_q s' = db_q s.
Proof.
  unfold genNextCmdTriggerEvents, draw_delay, rng_mod. destruct (rng_draw _) as [x r]. case_match; [done|].
  cbn [mbind option_bind]. by intros [= <-].
Qed.
Lemma gen_debug_frame s s' :
  genNextDebugEvents c s = Some s' →
  db_pending s' = db_pending s ∧ db_rand_trigger s' = db_rand_trigger s ∧ db_cmd_rcv s' = db_cmd_rcv s ∧ db_q s' = db_q s.
Proof.
  unfold genNextDebugEvents, draw_delay, rng_mod. destruct (rng_draw _) as [x r]. case_match; [done|].
  cbn [mbind option_bind]. destruct (rng_draw _) as [x' r']. case_match; [done|]. cbn [mbind option_bind]. by intros [= <-].
Qed.

Lemma check_snippet_inv s s' es :
  dbg_inv s → check_snippet c s = Some (s', es) →
  dbg_inv s' ∧ Forall (λ e, e = TbError) es ∧ db_pending s' = db_pending s ∧
  db_rand_trigger s' = db_rand_trigger s ∧ db_cmd_rcv s' = db_cmd_rcv s.
Proof.
  intros (Hw & Hi & Hp) H. unfold check_snippet in H.
  destruct (_ && negb (db_parsing s)) eqn:Eg; [|by injection H as <- <-].
  assert (db_executing s = false) as Hex by (by destruct (db_executing s); rewrite ?andb_false_r in Eg).
  destruct (Hi Hex) as [Hq Hp0].
  match type of H with (mbind _ ?m = _) => destruct m as [[s1 e1]|] eqn:E1; [|done] end. cbn [mbind option_bind] in H.
  assert (Forall (λ e, e = TbError) e1 ∧ db_pending s1 = db_pending s ∧ db_rand_trigger s1 = db_rand_trigger s ∧
    db_cmd_rcv s1 = db_cmd_rcv s ∧ db_executing s1 = false ∧ Forall req_wf (db_q s1) ∧
    (db_q s1 = [] ∨ db_parsed s1 && db_parsing s1 = true)) as (He & H1 & H2 & H3 & H4 & H5 & H6).
  { destruct (db_snippets s <? _); [|injection E1 as <- <-; by rewrite Hq; auto 10].
    destruct (parse_csv_appends s) as [Ha Hb]. destruct (parse_dmi_from_csv c s) as [[s2 e2]|]; [|done].
    destruct (Ha s2 e2 eq_refl) as ((F1 & F2 & F3 & F4 & F5) & He & l & Hl & Hwl). cbn [mbind option_bind] in E1.
    injection E1 as <- <-. cbn. rewrite Hq in Hl. rewrite Hl, F1, F2, F3, F4, Hex.
    split_and!; try done. destruct (Hb s2 e2 eq_refl) as [-> | Hn]; [by right|left; by rewrite <- Hl, Hn]. }
  destruct (db_parsed s1 && db_parsing s1) eqn:Ep.
  - destruct (genNextCmdTriggerEvents c s1) as [s2|] eqn:Eg2; [|done]. cbn [mbind option_bind] in H. injection H as <- <-.
    destruct (gen_cmd_frame _ _ Eg2) as ((F1 & F2 & F3 & F4 & F5) & Fq).
    cbn. rewrite F1, F2, F3, H1, H2, H3. split_and!; try done. split_and!; cbn; [by rewrite Fq|done|by rewrite F1, H1].
  - injection H as <- <-. split_and!; try done. destruct H6 as [H6|]; [|done]. split_and!; [done|by rewrite H1|by rewrite H1].
Qed.

Lemma check_trigger_inv s s' :
  dbg_inv s → db_rand_trigger s = false → check_trigger c s = Some s' →
  dbg_inv s' ∧ db_cmd_rcv s' = db_cmd_rcv s ∧ db_pending s' + Z.b2z (db_rand_trigger s') = db_pending s.
Proof.
  intros (Hw & Hi & Hp) Hr H. unfold check_trigger in H.
  destruct (_ && db_executing s) eqn:Eg; [|injection H as <-; rewrite Hr; split; [done|split; [done|cbn; lia]]].
  assert (db_q s = [] ∧ db_executing s = true) as [Hq Hex].
  { destruct (db_q s), (db_executing s); rewrite ?andb_false_r in Eg; done. }
  destruct (Z.eqb_spec (db_pending s) 0) as [E0|E0].
  - apply gen_debug_frame in H as (F1 & F2 & F3 & F4). rewrite F1, F2, F3, Hr. split; [|split; [done|cbn; lia]].
    split_and!; [by rewrite F4, Hq|by rewrite F1, F4|lia].
  - set (s1 := s <| db_rand_trigger := true |> <| db_pending ::= _ |>) in H.
    assert (dbg_frame s1 s' ∧ db_q s' = db_q s1) as ((F1 & F2 & F3 & F4 & F5) & Fq).
    { destruct (0 <? db_pending s1); [by apply gen_cmd_frame|by injection H as <-]. }
    rewrite F1, F2, F3. split; [|split; [done|cbn; lia]]. split_and!; [by rewrite Fq; subst s1; cbn; rewrite Hq| |rewrite F1; cbn; lia].
    rewrite F4. subst s1. cbn. congruence.
Qed.

(** The events that are checkpoints, and those that are execution triggers. *)
Definition is_checkpoint (e : tb_event) : bool := match e with TbDmi _ u _ => u &&& 3 =? 3 | _ => false end.
Definition is_trigger (e : tb_event) : bool := match e with TbDmi _ u _ => u =? 0x80000000 | _ => false end.
Definition count (p : tb_event → bool) (es : list tb_event) : Z := Z.of_nat (length (base.filter (λ e, p e = true) es)).

Lemma count_app p e1 e2 : count p (e1 ++ e2) = count p e1 + count p e2.
Proof. unfold count. rewrite filter_app, length_app. lia. Qed.
Lemma count_errors p es : p TbError = false → Forall (λ e, e = TbError) es → count p es = 0.
Proof. intros Hp. unfold count. induction 1 as [|e es -> _ IH]; [done|]. rewrite filter_cons, Hp. case_decide; [done|exact IH]. Qed.
Lemma count_one p e : count p [e] = Z.b2z (p e).
Proof. unfold count. rewrite filter_cons, filter_nil. destruct (p e); by case_decide. Qed.

Lemma dmi_upper_low r : dmi_upper r &&& 3 = dq_op r &&& 3.
Proof.
  unfold dmi_upper, u32. change 3 with (Z.ones 2). rewrite !Z.land_ones by lia.
  rewrite Z.mod_mod_divide by (by exists (2 ^ 30)).
  rewrite <- !Z.land_ones by lia. rewrite !Z.land_lor_distr_l, !Z.land_ones, !Z.shiftl_mul_pow2 by lia.
  replace (2 ^ 27) with (2 ^ 25 * 2 ^ 2) by done. by rewrite Z.mul_assoc, !Z.mod_mul by lia.
Qed.

Lemma req_event_kind r :
  req_wf r → is_checkpoint (dmi_event r) = (dq_op r =? 3) ∧ is_trigger (dmi_event r) = false.
Proof.
  intros (Hop & Ha & Hf). cbn [is_checkpoint is_trigger dmi_event]. rewrite dmi_upper_low. split.
  { repeat (apply elem_of_cons in Hop as [-> | Hop]; [done|]). by apply elem_of_nil in Hop. }
  apply Z.eqb_neq. intros E. pose proof (dmi_upper_low r) as El. rewrite E in El.
  assert (dq_op r = 0 ∨ dq_op r = 4) as H04.
  { clear -Hop El. repeat (apply elem_of_cons in Hop as [Ho | Hop]; [rewrite Ho in *; cbn in El; auto; discriminate|]).
    by apply elem_of_nil in Hop. }
  specialize (Ha H04). unfold dmi_upper in E. rewrite Ha, Z.shiftl_0_l, Z.lor_0_r in E.
  assert (dq_func_bits r ∈ [0; 1; 2; 3; 4; 5; 6; 7]) as Hin by (rewrite !elem_of_cons; lia).
  destruct H04 as [Ho | Ho]; rewrite Ho in E;
    repeat (apply elem_of_cons in Hin as [Hi | Hin]; [rewrite Hi in E; discriminate E|]); by apply elem_of_nil in Hin.
Qed.

(** [k] commands may still be sent before the counter of checkpoints wraps. *)
Lemma dbg_tick_count adv s s' es :
  dc_random c = true → dbg_inv s → dbg_quiet s → db_pending s < 2 ^ 64 - 1 → dbg_tick c adv s = Some (s', es) →
  dbg_inv s' ∧ dbg_quiet s' ∧ count is_checkpoint es <= 1 ∧
  db_pending s' + count is_trigger es = db_pending s + count is_checkpoint es.
Proof.
  intros Hc Hinv [Hr Ht] Hb H. unfold dbg_tick in H. set (s0 := s <| db_timer := _ |> <| db_timer_advance := adv |>) in H.
  destruct (_ <? _); [|injection H as <- <-; split_and!; try done; cbn; lia].
  unfold checkDebugEvents in H. rewrite Hc in H.
  destruct (check_snippet c s0) as [[s1 e1]|] eqn:E1; [|done]. cbn [mbind option_bind] in H.
  destruct (check_snippet_inv s0 s1 e1 Hinv E1) as (H1 & He1 & P1 & T1 & C1).
  destruct (check_trigger c s1) as [s2|] eqn:E2; [|done]. cbn [mbind option_bind] in H.
  destruct (check_trigger_inv s1 s2 H1 ltac:(by rewrite T1) E2) as (H2 & C2 & P2).
  rewrite C2, C1 in H. change (db_cmd_rcv s0) with (db_cmd_rcv s) in H. rewrite Hr in H.
  change (db_pending s0) with (db_pending s) in P1. unfold drive_csv_dmi_cmds in H.
  assert (db_cmd_rcv s2 = false) as C2' by (by rewrite C2, C1).
  destruct (db_rand_trigger s2) eqn:T2; cbn [Z.b2z] in P2.
  { injection H as <- <-. rewrite !count_app, !(λ p Hp, count_errors p e1 Hp He1), !count_one by done.
    change (is_checkpoint exec_trigger) with false. change (is_trigger exec_trigger) with true.
    split_and!; try done; cbn; lia. }
  destruct (db_q s2) as [|r q] eqn:Eq.
  { injection H as <- <-. rewrite !app_nil_r, !(λ p Hp, count_errors p e1 Hp He1) by done. split_and!; try done; cbn; lia. }
  injection H as <- <-. destruct H2 as (Hw & Hi & Hp). rewrite Eq in Hw, Hi. apply Forall_cons in Hw as [Hwr Hwq].
  destruct (req_event_kind r Hwr) as [K1 K2]. rewrite !count_app, !(λ p Hp, count_errors p e1 Hp He1), !count_one, K1, K2 by done.
  assert (db_executing s2 ≠ false) as Hex by (intros E; by destruct (Hi E)).
  destruct (dq_op r =? 3); cbn [Z.b2z]; split_and!; try done; cbn; try lia.
  - split_and!; cbn; [done|done|]. apply Z.mod_pos_bound. lia.
  - unfold u64. rewrite Z.mod_small; lia.
Qed.

Inductive dbg_op :=
| OTick (advance : Z)
| OStatus (status cmds warm : Z)
| OWrite (addr : Z) (data : list Z)
| ORead (addr : Z) (data : list Z)
| OResetReq (req : bool).
Definition dbg_step (o : dbg_op) (s : dbg R) : option (dbg R * list tb_event) :=
  match o with
  | OTick adv => dbg_tick c adv s
  | OStatus a b w => Some (update_dm_status a b w s, [])
  | OWrite addr data => dbg_write id c addr data s
  | ORead addr data => '(s, _, es) ← dbg_read_dev id addr data s; Some (s, es)
  | OResetReq b => Some (dbg_dut_reset_req b s)
  end.
Fixpoint dbg_run (os : list dbg_op) (s : dbg R) : option (dbg R * list tb_event) :=
  match os with
  | [] => Some (s, [])
  | o :: os =>
      match dbg_step o s with
      | Some (s, es) => match dbg_run os s with Some (s, es') => Some (s, es ++ es') | None => None end
      | None => None
      end
  end.

Lemma dbg_step_count o s s' es :
  dc_random c = true → dbg_inv s → dbg_quiet s → db_pending s < 2 ^ 64 - 1 → dbg_step o s = Some (s', es) →
  dbg_inv s' ∧ dbg_quiet s' ∧ count is_checkpoint es <= 1 ∧
  db_pending s' + count is_trigger es = db_pending s + count is_checkpoint es.
Proof.
  intros Hc Hinv Hq Hb H. destruct o as [adv|a b w|addr data|addr data|b]; cbn [dbg_step] in H.
  - by apply (dbg_tick_count adv s).
  - injection H as <- <-. split_and!; try done; apply Hq || (cbn; lia).
  - unfold dbg_write in H. rewrite Hc, !andb_false_r in H. destruct (negb _);
      injection H as <- <-; split_and!; try done; apply Hq || (cbn; lia).
  - unfold dbg_read_dev in H. destruct (negb _); cbn [mbind option_bind] in H.
    { injection H as <- <-. split_and!; try done; apply Hq || (cbn; lia). }
    destruct (if _ =? _ then _ else _); [|done]. injection H as <- <-. split_and!; try done; apply Hq || (cbn; lia).
  - destruct b; injection H as <- <-; split_and!; try done; apply Hq || (cbn; lia).
Qed.

Lemma dbg_new_inv r file s es :
  dbg_new c r file = Some (s, es) → dbg_inv s ∧ dbg_quiet s ∧ db_pending s = 0.
Proof.
  assert (∀ s' e', dbg_reset c (dbg_init r file) = Some (s', e') →
    db_q s' = [] ∧ db_pending s' = 0 ∧ dbg_quiet s') as Hreset.
  { intros s' e'. unfold dbg_reset. change (db_dut_reset (dbg_init r file)) with false. cbv zeta match.
    set (s1 := if ndm_recorded _ then _ else _).
    assert (db_q s1 = [] ∧ db_pending s1 = 0 ∧ dbg_quiet s1) as H1 by (subst s1; by case_match). clearbody s1.
    destruct (_ && _); [|by intros [= <- <-]]. unfold get_all_csv_templates. destruct (dc_dir c) as [dir|]; [|done].
    cbn [mbind option_bind]. set (s2 := s1 <| db_files ::= _ |>).
    match goal with |- mbind _ ?m = _ → _ => destruct m as [[d s3]|] eqn:E; [|done] end. cbn [mbind option_bind].
    assert (db_q s3 = [] ∧ db_pending s3 = 0 ∧ dbg_quiet s3) as H3.
    { unfold draw_delay, rng_mod in E. destruct (rng_draw _) as [x g]. destruct (negb _); [|injection E as <- <-; exact H1].
      destruct (_ =? 0); [done|]. cbn [mbind option_bind] in E. injection E as <- <-. exact H1. }
    unfold rng_mod. destruct (rng_draw _) as [x g]. destruct (Z.of_nat (length (db_files s3)) =? 0); [done|]. cbn [mbind option_bind]. intros [= <- <-]. exact H3. }
  unfold dbg_new. destruct (dbg_reset c (dbg_init r file)) as [[s' e']|] eqn:E; [|done]. cbn [mbind option_bind].
  destruct (Hreset s' e' eq_refl) as (Hq & Hp & Hqu). intros [= <- <-].
  destruct (ndm_recorded s'); split_and!; try done; try apply Hqu; split_and!; cbn; rewrite ?Hq, ?Hp; done || constructor.
Qed.

End debugger_random.

Lemma dbg_laws {R} `{!Rng R} id c :
  0 ≤ dbase id → dbase id + 0x20000 < 2 ^ 64 → @SubdeviceLaws (dbg R) (dbg_subdevice id c).
Proof.
  intros H0 H1. assert (∀ addr o, has_addr id addr && ((addr <=? dbase id + 0x700) || (addr =? dbase id + 0x10000)) = false →
    has_addr id addr = true → (0 ≤ o ≤ 0x700 ∨ o = 0x10000) → (addr =? u64 (dbase id + o)) = false) as Hoff.
  { intros addr o Hm Ha Ho. rewrite Ha in Hm. cbn in Hm. unfold u64. rewrite Z.mod_small by lia. lia. }
  split; cbn; intros addr len data s Hmiss; unfold dbg_write, dbg_read_dev;
    destruct (has_addr id addr) eqn:Ha; cbn [negb]; try done; rewrite <- Ha in Hmiss.
  - pose proof (Hoff addr 0 Hmiss Ha ltac:(lia)) as E0. unfold u64 in E0. rewrite Z.add_0_r, Z.mod_small in E0 by lia.
    rewrite E0, Hoff by (done || lia). done.
  - rewrite !Hoff by (done || lia). done.
Qed.

(** ** Examples *)

(** A generator that counts. *)
#[local] Instance rng_count : Rng Z := λ x, (x, x + 1).

Definition dbg_id : device_id := Device_id "debugger" 0x9050000 0x20000.
Definition ex_cmds : list csv_cmd := [CsvWrite "0x10" 0x10 "8000_0001" 0x80000001; CsvCheckpoint; CsvRead "11" 0x11].
Definition ex_dbg (random : bool) : dbg_cfg :=
  Dbg_cfg "/d/halt.csv" random 300 6 9 1 false true false 4 (Some [("halt.csv", "/d/halt.csv"); ("notes.txt", "/d/notes.txt")])
    (λ f, if String.eqb f "/d/halt.csv" then Some (text_of (csv_line <$> ex_cmds)) else None).

Lemma ex_cmds_ok : Forall csv_ok ex_cmds.
Proof. repeat constructor; vm_compute; try done; discriminate. Qed.


(** The random mode run until the snippet's two checkpoints are triggered. *)
Definition ex_ticks : list dbg_op := replicate 100 (OTick 200).

(** After a file that cannot be opened the driver sends nothing any more: it
    waits for the end of a parse that has already failed. *)
Example dbg_missing_file :
  let c := ex_dbg true in
  let c := Dbg_cfg (dc_input c) true 300 6 9 5 false true false 4 (dc_dir c) (λ _, None) in
  ('(s, _) ← dbg_new c 7 []; '(s, es) ← dbg_run dbg_id c ex_ticks s; Some (db_parsing s, db_snippets s, es)) = Some (true, 1, [TbError]).
Proof. vm_compute. reflexivity. Qed.

(** A status register read before the first status message is uninitialised. *)
Example dbg_status_uninit : dbg_read_dev dbg_id 0x9050500 [0] (dbg_init 7 []) = None.
Proof. reflexivity. Qed.
