(* ===== verification/TrickboxDevs.v ===== *)
(** * TrickboxDevs: the small sub-devices of the trickbox (src/sysmod/trickbox)

    interrupter, debug_req_vld, evt_trigger, uc_helper, ras_helper, eam_helper
    and post_si_pcietc_helper.  Each is a record with its [write] and [read_dev]
    and an instance of [Subdevice].  The sub-devices' memories are copies of a
    [mem_manager] (Mem.v); the simulator's poke, the system model's answer to a
    memory read request and the overlay driver behind the PCIe window are
    parameters. *)

From S2P Require Import Prelude Bytes PcgExtras Device Mem Axi Eam Subdevice.

(** Byte [j] of the data at [addr + j], for eight bytes. *)
Definition write8 {M} `{MemManager M} (addr : Z) (data : list Z) (m : M) : M :=
  foldl (λ m j, mm_write (u64 (addr + Z.of_nat j)) [at_z data j] m) m (seq 0 8).

(** ** interrupter *)

Record interrupter := Interrupter { in_scratch : list Z; in_enable : bool }.
#[export] Instance eta_interrupter : Eta interrupter := λ s, Interrupter (in_scratch s) (in_enable s).
Definition interrupter_new : interrupter := Interrupter (replicate 256 0) false.

Section interrupter.
Context (id : device_id) (hart_count : Z).

Definition interrupter_write (addr : Z) (data : list Z) (s : interrupter) : interrupter * list tb_event :=
  if negb (has_addr id addr) then (s, [])
  else
    let v := deserializeInt 8 data in
    let base := dbase id in
    let nmi := base + 0x5000 in
    let mti := base + 0x6000 in
    if addr =? base then (s, [TbMsi (v &&& 0xfff) v])
    else if (base <? addr) && (addr <? base + 0x1000) then (s, [])
    else if (base + 0x2000 <=? addr) && (addr <? base + 0x3000) then
      let index := (addr - (base + 0x2000)) / 8 in
      (if index <? 256 then s <| in_scratch ::= <[Z.to_nat index := v]> |> else s, [])
    else if addr =? base + 0x4000 then (s, [])
    else if addr =? base + 0x4040 then (s <| in_enable := negb (v =? 0) |>, [])
    else if (nmi <=? addr) && (addr <=? nmi + hart_count * 0x100) then (s, [TbNmiOff ((addr - nmi) / 0x100)])
    else if (mti <=? addr) && (addr <=? mti + hart_count * 0x100) then (s, [TbMtiOff ((addr - mti) / 0x100)])
    else (s, [TbError]).

Definition interrupter_read_dev (addr : Z) (len : nat) (data : list Z) (s : interrupter) : list Z :=
  let base := dbase id + 0x2000 in
  if (base <=? addr) && (addr <? base + 0x1000) then
    let index := (addr - base) / 8 in
    if index <? 256 then serializeInt (at_z (in_scratch s) (Z.to_nat index)) len data else data
  else data.

(** [intr_enable_read_RPC] *)
Definition intr_enable_read (s : interrupter) : bool := in_enable s.

Definition interrupter_subdevice : Subdevice interrupter := {|
  sd_hit _ addr := has_addr id addr;
  sd_write addr _ data s := Some (interrupter_write addr data s);
  sd_read addr len data s := Some (s, interrupter_read_dev addr len data s, [])
|}.
End interrupter.

(** ** debug_req_vld *)

Section debug_req.
Context (id : device_id) (hart_count : Z).

(** The state is [req_mask_]; a shift by 64 or more is undefined. *)
Definition debug_req_write (addr : Z) (data : list Z) (mask : Z) : option (Z * list tb_event) :=
  if negb (has_addr id addr) then Some (mask, [])
  else
    let v := deserializeInt 8 data in
    if negb (addr =? dbase id) && negb (addr =? u64 (dbase id + 8)) then Some (mask, [TbError])
    else
      let set := addr =? dbase id in
      let hart := v &&& 0xff in
      if hart_count <=? hart then Some (mask, [TbError])
      else if 64 <=? hart then None
      else Some (if set then mask ||| (1 ≪ hart) else mask &&& not64 (1 ≪ hart), [TbDebugReq hart set]).

Definition debug_req_read_dev (addr : Z) (len : nat) (data : list Z) (mask : Z) : list Z :=
  if negb (has_addr id addr) then data
  else if addr =? dbase id then serializeInt mask len data else data.

Definition debug_req_subdevice : Subdevice Z := {|
  sd_hit _ addr := has_addr id addr;
  sd_write addr _ data s := debug_req_write addr data s;
  sd_read addr len data s := Some (s, debug_req_read_dev addr len data s, [])
|}.
End debug_req.

(** ** evt_trigger *)

Section evt_trigger.
Context (id : device_id).

(** The state is [tboxmem_], 1024 words. *)
Definition evt_write (addr : Z) (data : list Z) (mem : list Z) : list Z :=
  if negb (has_addr id addr) then mem
  else
    let offset := (addr - dbase id) / 8 in
    if offset <? 1024 then <[Z.to_nat offset := deserializeInt 8 data]> mem else mem.

Definition evt_read_dev (addr : Z) (len : nat) (data : list Z) (mem : list Z) : list Z :=
  if negb (has_addr id addr) then data
  else
    let offset := (addr - dbase id) / 8 in
    serializeInt (if offset <? 1024 then at_z mem (Z.to_nat offset) else 0) len data.

Definition evt_subdevice : Subdevice (list Z) := {|
  sd_hit _ addr := has_addr id addr;
  sd_write addr _ data s := Some (evt_write addr data s, []);
  sd_read addr len data s := Some (s, evt_read_dev addr len data s, [])
|}.
End evt_trigger.

(** ** uc_helper *)

Record uc_helper (M R : Type) := Uc_helper { uc_addr : Z; uc_size : Z; uc_m : M; uc_rng : R }.
Arguments Uc_helper {M R}. Arguments uc_addr {M R}. Arguments uc_size {M R}. Arguments uc_m {M R}. Arguments uc_rng {M R}.
#[export] Instance eta_uc_helper {M R} : Eta (uc_helper M R) := λ s, Uc_helper (uc_addr s) (uc_size s) (uc_m s) (uc_rng s).
Definition uc_helper_new {M R} (m : M) (r : R) : uc_helper M R := Uc_helper 0x90a0000 2 m r.

Section uc_helper.
Context {M R : Type} `{!MemManager M} `{!Rng R}.
Context (id : device_id) (poke : Z → Z → Z → bool * bool) (client_check : bool).
(** What the system model sends back for a read request, if it has a memory. *)
Context (sys_read : Z → option (list Z)).

(** [for (size_t i = 0; i < tx_size; i++)] from [i]; [true] when no poke fails. *)
Fixpoint uc_fill (i n : nat) (s : uc_helper M R) : uc_helper M R * list tb_event * bool :=
  match n with
  | O => (s, [], true)
  | S n =>
      let '(x, r) := rng_draw (uc_rng s) in
      let b := u32 x &&& 0xff in
      let a := u64 (uc_addr s + Z.of_nat i) in
      let s := s <| uc_rng := r |> in
      if poke_refused poke client_check a 1 b then (s, [TbPoke a 1 b; TbError], false)
      else let '(s, es, ok) := uc_fill (S i) n s in (s, TbPoke a 1 b :: TbMemWrite a b :: es, ok)
  end.

Definition uc_transfer (s : uc_helper M R) : uc_helper M R * list tb_event :=
  let '(s, es, ok) := uc_fill 0 (Z.to_nat (uc_size s)) s in
  if (ok : bool) then
    (s <| uc_m ::= mm_write (dbase id) [0xff] |>,
     es ++ TbPoke (dbase id) 1 0xff :: if poke_refused poke client_check (dbase id) 1 0xff then [TbError] else [])
  else (s, es).

(** [convertToUInt64]: an exception unless there are eight bytes. *)
Definition convertToUInt64 (vec : list Z) : option Z :=
  if (length vec =? 8)%nat then Some (deserializeInt 8 vec) else None.

(** [update_mem_model], with [read_flag] as the boolean. *)
Definition update_mem_model (len : nat) (data : list Z) (s : uc_helper M R) : option (uc_helper M R * list tb_event * bool) :=
  if (length data <? len)%nat then None
  else
    let s := s <| uc_m ::= (λ m, foldl (λ m j, mm_write (u64 (dbase id + Z.of_nat j)) [at_z data j] m) m (seq 0 len)) |> in
    word ← convertToUInt64 data;
    if poke_fails poke client_check (dbase id) 8 word then Some (s, [TbPoke (dbase id) 8 word; TbError], false)
    else Some (s, [TbPoke (dbase id) 8 word], true).

(** The request is answered before [signal] returns; without an answer the poll
    loop does not end. *)
Definition uc_backdoor_read (s : uc_helper M R) : option (uc_helper M R * list tb_event) :=
  data ← sys_read (uc_addr s);
  '(s', es, flag) ← update_mem_model 8 data s;
  if (flag : bool) then Some (s', TbMemRead (uc_addr s) 8 :: es) else None.

Definition uc_write (addr : Z) (data : list Z) (s : uc_helper M R) : option (uc_helper M R * list tb_event) :=
  if negb (has_addr id addr) then Some (s, [])
  else
    let v := deserializeInt 8 data in
    let base := dbase id in
    if addr =? base then Some (s, if 0 <? v then [TbError] else [])
    else if addr =? base + 0x100 then
      Some (s <| uc_addr := if Z.testbit v 55 then v &&& not64 (1 ≪ 55) else v |>, [])
    else if addr =? base + 0x200 then Some (s <| uc_size := v |>, [])
    else if addr =? base + 0x300 then Some (uc_transfer s)
    else if addr =? base + 0x400 then uc_backdoor_read s
    else if (base + 0x500 <=? addr) && (addr <=? base + 0x600) then Some (s <| uc_m ::= write8 addr data |>, [])
    else Some (s, []).

Definition uc_read_dev (addr : Z) (len : nat) (data : list Z) (s : uc_helper M R) : uc_helper M R * list Z :=
  if negb (has_addr id addr) then (s, data)
  else let '(m, bs) := mm_read addr len (uc_m s) in (s <| uc_m := m |>, bs ++ drop len data).

Definition uc_subdevice : Subdevice (uc_helper M R) := {|
  sd_hit _ addr := has_addr id addr;
  sd_write addr _ data s := uc_write addr data s;
  sd_read addr len data s := let '(s, data) := uc_read_dev addr len data s in Some (s, data, [])
|}.
End uc_helper.

(** ** ras_helper *)

(** [local64BStorage] is uninitialised. *)
Record ras_helper (M : Type) := Ras_helper { ra_m : M; ra_store : list (option Z) }.
Arguments Ras_helper {M}. Arguments ra_m {M}. Arguments ra_store {M}.
#[export] Instance eta_ras_helper {M} : Eta (ras_helper M) := λ s, Ras_helper (ra_m s) (ra_store s).
Definition ras_helper_new {M} (m : M) : ras_helper M := Ras_helper m (replicate 256 None).

Section ras_helper.
Context {M : Type} `{!MemManager M}.
Context (id : device_id).

Definition ras_index (addr : Z) : nat := Z.to_nat ((addr - dbase id) / 8).

(** Outer [None]: the value read is indeterminate; inner [None]: refused. *)
Definition ras_backdoor_read (addr : Z) (s : ras_helper M) : option (option Z) :=
  if negb (has_addr id addr) then Some None
  else v ← mjoin (ra_store s !! ras_index addr); Some (Some v).

Definition ras_put (addr : Z) (bytes : list Z) (v : Z) (s : ras_helper M) : option (ras_helper M) :=
  if (ras_index addr <? 256)%nat then
    Some (s <| ra_m ::= write8 addr bytes |> <| ra_store ::= <[ras_index addr := Some v]> |>)
  else None.

Definition ras_backdoor_write (addr v : Z) (s : ras_helper M) : option (ras_helper M * bool) :=
  if negb (has_addr id addr) then Some (s, false)
  else s ← ras_put addr (serializeInt v 8 (replicate 8 0)) v s; Some (s, true).

Definition ras_write (addr : Z) (data : list Z) (s : ras_helper M) : option (ras_helper M) :=
  if negb (has_addr id addr) then Some s else ras_put addr data (deserializeInt 8 data) s.

Definition ras_read_dev (addr : Z) (len : nat) (data : list Z) (s : ras_helper M) : ras_helper M * list Z :=
  if negb (has_addr id addr) then (s, data)
  else let '(m, bs) := mm_read addr len (ra_m s) in (s <| ra_m := m |>, bs ++ drop len data).

Definition ras_subdevice : Subdevice (ras_helper M) := {|
  sd_hit _ addr := has_addr id addr;
  sd_write addr _ data s := s ← ras_write addr data s; Some (s, []);
  sd_read addr len data s := let '(s, data) := ras_read_dev addr len data s in Some (s, data, [])
|}.
End ras_helper.

(** ** eam_helper *)

Record eam_helper := Eam_helper { eh_addr : Z; eh_cnt : Z; eh_en : bool }.
#[export] Instance eta_eam_helper : Eta eam_helper := λ s, Eam_helper (eh_addr s) (eh_cnt s) (eh_en s).
Definition eam_helper_reset : eam_helper := Eam_helper 0 0 false.

Definition set_fail_addr (v : Z) (s : eam_helper) : eam_helper * list tb_event := (s <| eh_addr := v |>, [TbFailAddr v]).
Definition set_fail_cnt (v : Z) (s : eam_helper) : eam_helper * list tb_event := (s <| eh_cnt := v |>, [TbFailCnt v]).
Definition set_fail_en (v : bool) (s : eam_helper) : eam_helper * list tb_event := (s <| eh_en := v |>, [TbFailEn v]).

Section eam_helper.
Context (id : device_id).

Definition eam_helper_write (addr : Z) (data : list Z) (s : eam_helper) : eam_helper * list tb_event :=
  if negb (has_addr id addr) then (s, [])
  else
    let v := deserializeInt 8 data in
    let offset := addr - dbase id in
    if offset =? 0x100 then set_fail_addr v s
    else if offset =? 0x120 then set_fail_cnt v s
    else if offset =? 0x140 then set_fail_en (negb (v &&& 1 =? 0)) s
    else (s, []).

Definition eam_helper_read_dev (addr : Z) (len : nat) (data : list Z) (s : eam_helper) : list Z :=
  if negb (has_addr id addr) then data
  else
    let offset := addr - dbase id in
    if offset =? 0x100 then serializeInt (eh_addr s) len data
    else if offset =? 0x120 then serializeInt (eh_cnt s) len data
    else if offset =? 0x140 then serializeInt (Z.b2z (eh_en s)) len data
    else data.

Definition eam_helper_subdevice : Subdevice eam_helper := {|
  sd_hit _ addr := has_addr id addr;
  sd_write addr _ data s := Some (eam_helper_write addr data s);
  sd_read addr len data s := Some (s, eam_helper_read_dev addr len data s, [])
|}.
End eam_helper.

(** What the calls do to the monitor of the process. *)
Definition eam_apply (m : eam) (e : tb_event) : eam :=
  match e with
  | TbFailAddr v => set_tb_fail_addr v m
  | TbFailCnt v => set_tb_fail_cnt v m
  | TbFailEn v => set_tb_fail_en v m
  | _ => m
  end.

(** ** post_si_pcietc_helper *)

Section pcie.
Context (id : device_id).
(** What the overlay driver makes of the zeroed buffer of a read. *)
Context (overlay_read : Z → Z → list Z → list Z).

Definition pcie_write (addr : Z) (len : nat) (data : list Z) : list tb_event :=
  if negb (has_addr id addr) then [] else [TbPcieWrite addr (addr - dbase id) len data].
Definition pcie_read_dev (addr : Z) (len : nat) (data : list Z) : list Z * list tb_event :=
  if negb (has_addr id addr) then (data, [])
  else (overlay_read addr (addr - dbase id) (replicate len 0), [TbPcieRead addr (addr - dbase id) len]).

Definition pcie_subdevice : Subdevice unit := {|
  sd_hit _ addr := has_addr id addr;
  sd_write addr len data s := Some (s, pcie_write addr len data);
  sd_read addr len data s := let '(data, es) := pcie_read_dev addr len data in Some (s, data, es)
|}.
End pcie.

(** ** Every sub-device ignores addresses outside its window *)

Ltac miss := split; cbn; intros ? ? ? ? Hmiss.

Lemma interrupter_laws id n : 0 ≤ dbase id → dbase id + 0x50000 < 2 ^ 64 → dsize id = 0x50000 →
  @SubdeviceLaws _ (interrupter_subdevice id n).
Proof.
  intros H0 H1 H2. miss; [unfold interrupter_write; by rewrite Hmiss|]. unfold interrupter_read_dev.
  revert Hmiss. unfold has_addr, u64. rewrite H2, Z.mod_small by lia. intros Hmiss.
  rewrite (proj2 (andb_false_iff _ _)) by lia. done.
Qed.
Lemma debug_req_laws id n : @SubdeviceLaws _ (debug_req_subdevice id n).
Proof. miss; unfold debug_req_write, debug_req_read_dev; by rewrite Hmiss. Qed.
Lemma evt_laws id : @SubdeviceLaws _ (evt_subdevice id).
Proof. miss; unfold evt_write, evt_read_dev; by rewrite Hmiss. Qed.
Lemma uc_laws {M R} `{!MemManager M, !Rng R} id poke cc sys : @SubdeviceLaws (uc_helper M R) (uc_subdevice id poke cc sys).
Proof. miss; unfold uc_write, uc_read_dev; by rewrite Hmiss. Qed.
Lemma ras_laws {M} `{!MemManager M} id : @SubdeviceLaws (ras_helper M) (ras_subdevice id).
Proof. miss; unfold ras_write, ras_read_dev; by rewrite Hmiss. Qed.
Lemma eam_helper_laws id : @SubdeviceLaws _ (eam_helper_subdevice id).
Proof. miss; unfold eam_helper_write, eam_helper_read_dev; by rewrite Hmiss. Qed.
Lemma pcie_laws id ov : @SubdeviceLaws _ (pcie_subdevice id ov).
Proof. miss; unfold pcie_write, pcie_read_dev; by rewrite Hmiss. Qed.

(** ** Registers determined by the events *)

(** The requests in force: the last one sent to each hart. *)
Definition req_apply (f : Z → bool) (e : tb_event) : Z → bool :=
  match e with TbDebugReq h b => λ x, if x =? h then b else f x | _ => f end.

Lemma set_bit_spec m h x : 0 ≤ h → Z.testbit (m ||| (1 ≪ h)) x = if x =? h then true else Z.testbit m x.
Proof. intros. change (m ||| (1 ≪ h)) with (Z.setbit m h). rewrite Z.setbit_eqb, Z.eqb_sym by lia. by destruct (x =? h). Qed.
Lemma clear_bit_spec m h x :
  0 ≤ h → 0 ≤ x < 64 → Z.testbit (m &&& not64 (1 ≪ h)) x = if x =? h then false else Z.testbit m x.
Proof.
  intros. unfold not64. rewrite Z.land_spec, Z.lxor_spec, Z.ones_spec_low by lia.
  change (1 ≪ h) with (Z.setbit 0 h). rewrite Z.setbit_eqb, Z.bits_0, Z.eqb_sym, orb_false_r by lia.
  destruct (x =? h); cbn; [apply andb_false_r|apply andb_true_r].
Qed.

Lemma debug_req_step id n addr data m f m' es :
  n ≤ 64 → (∀ x, 0 ≤ x < 64 → Z.testbit m x = f x) → debug_req_write id n addr data m = Some (m', es) →
  ∀ x, 0 ≤ x < 64 → Z.testbit m' x = foldl req_apply f es x.
Proof.
  intros Hn Hf. unfold debug_req_write. cbv zeta. destruct (negb (has_addr _ _)); [by intros [= <- <-]|].
  destruct (_ && _); [by intros [= <- <-]|]. set (h := deserializeInt 8 data &&& 0xff).
  assert (0 ≤ h) by (subst h; apply Z.land_nonneg; lia).
  destruct (n <=? h); [by intros [= <- <-]|]. destruct (64 <=? h); [done|].
  intros [= <- <-] x Hx. cbn. case_match; rewrite ?set_bit_spec, ?clear_bit_spec by lia; case_match; auto.
Qed.

(** Whatever is written to its registers, the mask software reads has the
    bit of a hart set exactly when the last request sent for that hart was to
    assert; with up to 64 harts no write is undefined. *)
Theorem debug_req_tracks id n ws :
  0 ≤ n ≤ 64 →
  ∃ m es, @sd_writes _ (debug_req_subdevice id n) ws 0 = Some (m, es) ∧
    ∀ h, 0 ≤ h < 64 → Z.testbit m h = foldl req_apply (λ _, false) es h.
Proof.
  intros Hn. assert (∀ ws m, ∃ r, @sd_writes _ (debug_req_subdevice id n) ws m = Some r) as Htot.
  { induction ws0 as [|[addr data] ws' IH]; intros m; [by eexists|]. cbn.
    assert (∃ r, debug_req_write id n addr data m = Some r) as [[m1 e1] ->].
    { unfold debug_req_write. cbv zeta. destruct (negb (has_addr _ _)); [by eexists|]. destruct (_ && _); [by eexists|].
      destruct (Z.leb_spec n (deserializeInt 8 data &&& 0xff)); [by eexists|]. rewrite (proj2 (Z.leb_gt _ _)) by lia. by eexists. }
    destruct (IH m1) as [[m2 e2] ->]. by eexists. }
  destruct (Htot ws 0) as [[m es] E]. exists m, es. split; [done|].
  apply (sd_writes_rel (H := debug_req_subdevice id n) (λ m f, ∀ h, 0 ≤ h < 64 → Z.testbit m h = f h) req_apply ws 0 (λ _, false) m es);
    [|intros; apply Z.bits_0|done].
  intros addr data s f s' es' HP Hw. by apply (debug_req_step id n addr data s f); [lia|..].
Qed.

(** The monitor's injection settings are those of the shadow registers. *)
Definition eam_shadowed (s : eam_helper) (m : eam) : Prop :=
  em_tb_fail_addr m = eh_addr s ∧ em_tb_fail_cnt m = eh_cnt s ∧ em_tb_fail_en m = eh_en s.

(** After any writes, the exclusive-access monitor that received the
    helper's calls has the injection address, count and enable the helper's
    registers show, if it had them before. *)
Theorem eam_helper_shadows id ws s m s' es :
  eam_shadowed s m → @sd_writes _ (eam_helper_subdevice id) ws s = Some (s', es) → eam_shadowed s' (foldl eam_apply m es).
Proof.
  intros Hs. apply (sd_writes_rel (H := eam_helper_subdevice id) eam_shadowed eam_apply ws s m s' es); [|done].
  clear. intros addr data s m s' es (H1 & H2 & H3) Hw. injection Hw as Hw. revert Hw.
  unfold eam_helper_write. cbv zeta. destruct (negb (has_addr _ _)); [by intros [= <- <-]|].
  destruct (_ =? 0x100); [by intros [= <- <-]|]. destruct (_ =? 0x120); [by intros [= <- <-]|].
  destruct (_ =? 0x140); intros [= <- <-]; [|done]. cbn. unfold set_tb_fail_en. case_match; by split_and!.
Qed.

(** ** uc_helper: memory and reference simulator get the same bytes *)

(** The bytes written to the system model's memory, and the single bytes poked. *)
Definition mem_writes (es : list tb_event) : list (Z * Z) :=
  omap (λ e, match e with TbMemWrite a b => Some (a, b) | _ => None end) es.
Definition byte_pokes (es : list tb_event) : list (Z * Z) :=
  omap (λ e, match e with TbPoke a n b => if n =? 1 then Some (a, b) else None | _ => None end) es.

Lemma pokes_pair a b es :
  byte_pokes (TbPoke a 1 b :: TbMemWrite a b :: es) = (a, b) :: byte_pokes es ∧
  mem_writes (TbPoke a 1 b :: TbMemWrite a b :: es) = (a, b) :: mem_writes es.
Proof. done. Qed.

Section uc_lemmas.
Context {M R : Type} `{!MemManager M} `{!Rng R}.
Context (id : device_id) (poke : Z → Z → Z → bool * bool) (client_check : bool).

Lemma uc_fill_pairs i n (s s' : uc_helper M R) es ok :
  uc_fill poke client_check i n s = (s', es, ok) →
  uc_addr s' = uc_addr s ∧ uc_m s' = uc_m s ∧
  (ok = true → byte_pokes es = mem_writes es ∧ TbError ∉ es ∧
    (mem_writes es).*1 = (λ j : nat, u64 (uc_addr s + Z.of_nat j)) <$> seq i n ∧ Forall is_u8 (mem_writes es).*2) ∧
  (ok = false → ∃ p, byte_pokes es = mem_writes es ++ [p] ∧ last es = Some TbError).
Proof.
  revert i s s' es ok. induction n as [|n IH]; intros i s s' es ok; cbn [uc_fill].
  { intros [= <- <- <-]. split_and!; try done. intros _. split_and!; [done|apply not_elem_of_nil|done|constructor]. }
  destruct (rng_draw (uc_rng s)) as [x r]. case_match.
  { intros [= <- <- <-]. split_and!; try done. intros _. by eexists. }
  destruct (uc_fill _ _ (S i) n _) as [[s2 es2] ok2] eqn:E. intros [= <- <- <-].
  destruct (IH _ _ _ _ _ E) as (A1 & A2 & A3 & A4). rewrite !(proj1 (pokes_pair _ _ _)), !(proj2 (pokes_pair _ _ _)).
  split_and!; [done|done| |].
  - intros Hok. destruct (A3 Hok) as (P1 & P2 & P3 & P4). rewrite P1. split_and!; [done| | |].
    + rewrite !not_elem_of_cons. by split_and!.
    + cbn. by rewrite P3.
    + constructor; [|done]. change 0xff with (Z.ones 8). rewrite Z.land_ones by lia. apply Z.mod_pos_bound. lia.
  - intros Hok. destruct (A4 Hok) as (p & P1 & P2). exists p. rewrite P1. split; [done|]. by destruct es2.
Qed.

End uc_lemmas.

(** ** ras_helper: the bus and the back door see the same words *)

Section ras_lemmas.
Context {M : Type} `{!MemManager M} `{!MemManagerLaws M}.
Context (id : device_id).
Hypothesis Hid : 0 ≤ dbase id ∧ dbase id + 0x800 < 2 ^ 64 ∧ dsize id = 0x800.

Lemma write8_strobed addr data (m : M) : write8 addr data m = write_strobed addr 0 8 data (replicate 8 true) m.
Proof. done. Qed.

Lemma write8_read addr data (m : M) :
  Forall is_u8 data → length data = 8%nat → (mm_read addr 8 (write8 addr data m)).2 = data.
Proof.
  intros Hu Hl. rewrite mm_read_data, write8_strobed. apply list_eq. intros i. unfold addrs.
  rewrite <- list_fmap_compose, list_lookup_fmap. destruct (decide (i < 8)%nat) as [Hi|Hi].
  - rewrite lookup_seq_lt by done. cbn [fmap option_fmap option_map compose Nat.add]. rewrite write_strobed_hit by (done || lia).
    destruct (lookup_lt_is_Some_2 data i) as [b Hb]; [lia|]. rewrite (at_z_Some _ _ _ Hb), Hb.
    do 8 (destruct i as [|i]; [done|]). lia.
  - rewrite lookup_seq_ge by lia. symmetry. apply lookup_ge_None. lia.
Qed.

Lemma ras_hit addr : has_addr id addr = true → (ras_index id addr < 256)%nat.
Proof.
  destruct Hid as (H0 & H1 & H2). unfold has_addr, ras_index, u64. rewrite H2, Z.mod_small by lia. intros H.
  assert ((addr - dbase id) / 8 < 256) by (apply Z.div_lt_upper_bound; lia). lia.
Qed.

(** What a store of eight bytes leaves behind, whichever way it came. *)
Lemma ras_put_get addr data v (s : ras_helper M) buf :
  has_addr id addr = true → length (ra_store s) = 256%nat → Forall is_u8 data → length data = 8%nat → length buf = 8%nat →
  ∃ s', ras_put id addr data v s = Some s' ∧ ras_backdoor_read id addr s' = Some (Some v) ∧
    (ras_read_dev id addr 8 buf s').2 = data ∧ length (ra_store s') = 256%nat.
Proof.
  intros Ha Hs Hu Hl Hb. pose proof (ras_hit addr Ha) as Hi. unfold ras_put. rewrite (proj2 (Nat.ltb_lt _ _)) by done.
  eexists. split; [reflexivity|]. unfold ras_backdoor_read, ras_read_dev. rewrite Ha. cbn [negb]. cbn -[write8 mm_read].
  rewrite list_lookup_insert_eq by lia. split; [done|]. split; [|by rewrite length_insert].
  pose proof (write8_read addr data (ra_m s) Hu Hl) as Hr. destruct (mm_read addr 8 _) as [m bs]. cbn in Hr |- *.
  rewrite Hr, drop_ge by lia. apply app_nil_r.
Qed.

(** A word stored by a bus write is what the back door reads, and the bytes
    of a word stored through the back door are what a bus read returns. *)
Theorem ras_both_ways addr data v (s : ras_helper M) buf :
  has_addr id addr = true → length (ra_store s) = 256%nat → Forall is_u8 data → length data = 8%nat → length buf = 8%nat →
  (∃ s', ras_write id addr data s = Some s' ∧ ras_backdoor_read id addr s' = Some (Some (le_value data)) ∧
    (ras_read_dev id addr 8 buf s').2 = data) ∧
  (∃ s', ras_backdoor_write id addr v s = Some (s', true) ∧ (ras_read_dev id addr 8 buf s').2 = le_bytes 8 v ∧
    ras_backdoor_read id addr s' = Some (Some v)).
Proof.
  intros Ha Hs Hu Hl Hb. split.
  - destruct (ras_put_get addr data (deserializeInt 8 data) s buf) as (s' & E & E1 & E2 & _); [done..|].
    exists s'. unfold ras_write. rewrite Ha. cbn [negb]. rewrite E, E1, deserializeInt_spec, take_ge by (done || lia). done.
  - destruct (ras_put_get addr (le_bytes 8 v) v s buf) as (s' & E & E1 & E2 & _); [done|done|apply le_bytes_u8|done|done|].
    exists s'. unfold ras_backdoor_write. rewrite Ha. cbn [negb].
    rewrite serializeInt_full by done. rewrite E, E2. done.
Qed.
End ras_lemmas.

(** ** Examples *)

Definition req_id : device_id := Device_id "debug_req_vld" 0x9058000 0x1000.
Definition eam_id : device_id := Device_id "eam_helper" 0x9092000 0x1000.
Definition uc_id : device_id := Device_id "uc_helper" 0x9080000 0x1000.
Definition ras_id : device_id := Device_id "ras_helper" 0x9089800 0x800.
Definition intr_id : device_id := Device_id "interrupter" 0x9000000 0x50000.

Lemma debug_req_tracks_witness :
  ∃ m es, @sd_writes _ (debug_req_subdevice req_id 4) [(0x9058000, le_bytes 8 2); (0x9058000, le_bytes 8 3); (0x9058008, le_bytes 8 2)] 0
      = Some (m, es) ∧ ∀ h, 0 ≤ h < 64 → Z.testbit m h = foldl req_apply (λ _, false) es h.
Proof. apply debug_req_tracks. lia. Defined.

Lemma eam_helper_shadows_witness :
  let r := @sd_writes _ (eam_helper_subdevice eam_id) [(0x9092100, le_bytes 8 0x80001000); (0x9092140, le_bytes 8 1)] eam_helper_reset in
  ∃ s es, r = Some (s, es) ∧ eam_shadowed s (foldl eam_apply eam_init es).
Proof.
  eexists _, _. split; [vm_compute; reflexivity|].
  apply (eam_helper_shadows eam_id [(0x9092100, le_bytes 8 0x80001000); (0x9092140, le_bytes 8 1)] eam_helper_reset eam_init); [done|].
  vm_compute. reflexivity.
Defined.

Lemma ras_both_ways_witness :
  let s := ras_helper_new (∅ : gmap Z Z) in
  ∃ s', ras_write ras_id 0x9089808 (le_bytes 8 77) s = Some s' ∧ ras_backdoor_read ras_id 0x9089808 s' = Some (Some (le_value (le_bytes 8 77))).
Proof.
  destruct (ras_both_ways ras_id ltac:(cbn; lia) 0x9089808 (le_bytes 8 77) 0 (ras_helper_new (∅ : gmap Z Z)) (replicate 8 0))
    as [(s' & E & E' & _) _]; [done|done|apply le_bytes_u8|done|done|]. by exists s'.
Defined.

#[local] Instance rng_step : Rng Z := λ x, (x, x + 1).


(** The hart after the last one is accepted, and with 16 harts or more the
    first MTI addresses deassert an NMI. *)
Example interrupter_hart_count : (interrupter_write intr_id 4 (0x9005000 + 4 * 0x100) [] interrupter_new).2 = [TbNmiOff 4].
Proof. reflexivity. Qed.
Example interrupter_overlap : (interrupter_write intr_id 16 0x9006000 [] interrupter_new).2 = [TbNmiOff 16].
Proof. reflexivity. Qed.

(** Clearing the status of the helper does not change what a read returns. *)
Example uc_status_stays :
  let s := (uc_transfer uc_id poke_ok true (uc_helper_new (∅ : gmap Z Z) 0x41)).1 in
  (λ r : uc_helper (gmap Z Z) Z * list tb_event, (uc_read_dev uc_id 0x9080000 1 [0] r.1).2) <$>
    uc_write uc_id poke_ok true (λ _, None) 0x9080000 (replicate 8 0) s = Some [0xff].
Proof. vm_compute. reflexivity. Qed.
