(* ===== verification/Trickbox.v ===== *)
(** * Trickbox: the trickbox device (src/sysmod/trickbox/trickbox.{h,cpp})

    The device owns ten sub-devices at fixed offsets and offers every access to
    each of them in turn.  [slots] is the vector of sub-devices: a slot says how
    to reach the state of one of them inside the trickbox.  The theorem is that
    the offers do what a decoder would do: an access has the effect of the one
    sub-device that reacts to its address, although the windows of two pairs of
    sub-devices overlap.

    The three bytes of the answer that [read] logs are not modelled. *)

From S2P Require Import Prelude Bytes PcgExtras Device Mem Axi AddressMap Subdevice Dma IoCoh Debugger TrickboxDevs.
#[local] Open Scope Z_scope.

Record trickbox (M R : Type) := Trickbox_st {
  tb_intr : interrupter; tb_dbg : dbg R; tb_req : Z; tb_evt : list Z; tb_uc : uc_helper M R;
  tb_ioc : io_coh; tb_ras : ras_helper M; tb_dma : dma; tb_eam : eam_helper; tb_pcie : unit
}.
Arguments Trickbox_st {M R}. Arguments tb_intr {M R}. Arguments tb_dbg {M R}. Arguments tb_req {M R}. Arguments tb_evt {M R}.
Arguments tb_uc {M R}. Arguments tb_ioc {M R}. Arguments tb_ras {M R}. Arguments tb_dma {M R}. Arguments tb_eam {M R}.
Arguments tb_pcie {M R}.
#[export] Instance eta_trickbox {M R} : Eta (trickbox M R) := λ t,
  Trickbox_st (tb_intr t) (tb_dbg t) (tb_req t) (tb_evt t) (tb_uc t) (tb_ioc t) (tb_ras t) (tb_dma t) (tb_eam t) (tb_pcie t).

(** The topology, the plusargs and the code outside. *)
Record tb_cfg := Tb_cfg {
  tc_addr : Z; tc_harts : Z; tc_rvfi : bool; tc_dbg : dbg_cfg; tc_ioc : ioc_cfg;
  tc_poke : Z → Z → Z → bool * bool; tc_client_check : bool;
  tc_sys_read : Z → option (list Z); tc_overlay_read : Z → Z → list Z → list Z
}.

Section trickbox.
Context {M R : Type} `{!MemManager M} `{!Rng R}.
Context (c : tb_cfg).

(** ** The vector of sub-devices *)

Record slot := Slot {
  sl_state : Type;
  sl_sub : Subdevice sl_state;
  sl_get : trickbox M R → sl_state;
  sl_set : sl_state → trickbox M R → trickbox M R
}.

Definition sub_id (tag : string) (offset size : Z) : device_id := Device_id tag (tc_addr c + offset) size.

(** In the order of the constructor. *)
Definition slots : list slot :=
  [ Slot _ (interrupter_subdevice (sub_id "interrupter" 0 0x50000) (tc_harts c)) tb_intr (λ x t, t <| tb_intr := x |>);
    Slot _ (dbg_subdevice (sub_id "debugger" 0x50000 0x20000) (tc_dbg c)) tb_dbg (λ x t, t <| tb_dbg := x |>);
    Slot _ (debug_req_subdevice (sub_id "debug_req_vld" 0x58000 0x1000) (tc_harts c)) tb_req (λ x t, t <| tb_req := x |>);
    Slot _ (evt_subdevice (sub_id "evt_trigger" 0x78000 0x1000)) tb_evt (λ x t, t <| tb_evt := x |>);
    Slot _ (uc_subdevice (sub_id "uc_helper" 0x80000 0x1000) (tc_poke c) (tc_client_check c) (tc_sys_read c))
      tb_uc (λ x t, t <| tb_uc := x |>);
    Slot _ (ioc_subdevice (sub_id "io_coh_helper" 0x89000 0x1000) (tc_ioc c)) tb_ioc (λ x t, t <| tb_ioc := x |>);
    Slot _ (ras_subdevice (sub_id "ras_helper" 0x89800 0x800)) tb_ras (λ x t, t <| tb_ras := x |>);
    Slot _ (dma_subdevice (sub_id "dma" 0x90000 0x2000) (tc_poke c) (tc_client_check c)) tb_dma (λ x t, t <| tb_dma := x |>);
    Slot _ (eam_helper_subdevice (sub_id "eam_helper" 0x92000 0x1000)) tb_eam (λ x t, t <| tb_eam := x |>);
    Slot _ (pcie_subdevice (sub_id "post_si_pcietc_helper" 0x1000000 0xc00000) (tc_overlay_read c))
      tb_pcie (λ x t, t <| tb_pcie := x |>) ].

(** ** Accesses *)

Definition slot_write (addr : Z) (len : nat) (data : list Z) (sl : slot) (t : trickbox M R) :
    option (trickbox M R * list tb_event) :=
  '(x, es) ← @sd_write _ (sl_sub sl) addr len data (sl_get sl t); Some (sl_set sl x t, es).
Definition slot_read (addr : Z) (len : nat) (data : list Z) (sl : slot) (t : trickbox M R) :
    option (trickbox M R * list Z * list tb_event) :=
  '(x, data, es) ← @sd_read _ (sl_sub sl) addr len data (sl_get sl t); Some (sl_set sl x t, data, es).

(** [for (auto& d : subdevices_) d->write(addr, length, data, strb);] *)
Fixpoint offer_write (addr : Z) (len : nat) (data : list Z) (sls : list slot) (t : trickbox M R) :
    option (trickbox M R * list tb_event) :=
  match sls with
  | [] => Some (t, [])
  | sl :: sls =>
      match slot_write addr len data sl t with
      | Some (t, es) => match offer_write addr len data sls t with Some (t, es') => Some (t, es ++ es') | None => None end
      | None => None
      end
  end.
Fixpoint offer_read (addr : Z) (len : nat) (data : list Z) (sls : list slot) (t : trickbox M R) :
    option (trickbox M R * list Z * list tb_event) :=
  match sls with
  | [] => Some (t, data, [])
  | sl :: sls =>
      match slot_read addr len data sl t with
      | Some (t, data, es) =>
          match offer_read addr len data sls t with Some (t, data, es') => Some (t, data, es ++ es') | None => None end
      | None => None
      end
  end.

Definition trickbox_write (w : write_t) (t : trickbox M R) : option (trickbox M R * list tb_event) :=
  if negb (tc_rvfi c) then Some (t, []) else offer_write (w_addr w) (w_length w) (w_data w) slots t.
Definition trickbox_read (r : read_t) (data : list Z) (t : trickbox M R) : option (trickbox M R * list Z * list tb_event) :=
  if negb (tc_rvfi c) then Some (t, data, []) else offer_read (r_addr r) (r_length r) data slots t.
Definition trickbox_backdoor_write (addr : Z) (len : nat) (data : list Z) (t : trickbox M R) :
    option (trickbox M R * list tb_event) := offer_write addr len data slots t.

(** ** Time and resets: only the debugger overrides them *)

Definition trickbox_tick (advance : Z) (t : trickbox M R) : option (trickbox M R * list tb_event) :=
  '(d, es) ← dbg_tick (tc_dbg c) advance (tb_dbg t); Some (t <| tb_dbg := d |>, es).
Definition trickbox_dut_reset_req (req : bool) (t : trickbox M R) : trickbox M R * list tb_event :=
  let '(d, es) := dbg_dut_reset_req req (tb_dbg t) in (t <| tb_dbg := d |>, es).

(** The constructor, without the program image; [m] is its memory. *)
Definition trickbox_new (m : M) (r : R) (reset_file : list string) : option (trickbox M R * list tb_event) :=
  '(d, es) ← dbg_new (tc_dbg c) r reset_file;
  Some (Trickbox_st interrupter_new d 0 (replicate 1024 0) (uc_helper_new m r) io_coh_new (ras_helper_new m) dma_new
          eam_helper_reset tt, es).

(** ** Routing *)

Hypothesis Haddr : 0 ≤ tc_addr c ∧ tc_addr c + 0x1c00000 < 2 ^ 64.

Lemma slots_laws : Forall (λ sl, @SubdeviceLaws _ (sl_sub sl)) slots.
Proof.
  unfold slots. repeat (apply Forall_cons; split); [..|apply Forall_nil; done]; cbn [sl_sub sl_state].
  - apply interrupter_laws; cbn; lia.
  - apply dbg_laws; cbn; lia.
  - apply debug_req_laws.
  - apply evt_laws.
  - apply uc_laws.
  - apply ioc_laws; cbn; lia.
  - apply ras_laws.
  - apply dma_laws.
  - apply eam_helper_laws.
  - apply pcie_laws.
Qed.

(** A slot reaches its own state, and only that. *)
Definition slot_own (sl : slot) : Prop :=
  (∀ t, sl_set sl (sl_get sl t) t = t) ∧ (∀ x t, sl_get sl (sl_set sl x t) = x).
Definition slot_hit (addr : Z) (t : trickbox M R) (sl : slot) : bool := @sd_hit _ (sl_sub sl) (sl_get sl t) addr.

Lemma slots_own : Forall slot_own slots.
Proof. unfold slots. repeat (apply Forall_cons; split; [split; by intros []|]). by apply Forall_nil. Qed.

(** The addresses a slot reacts to do not depend on any state. *)
Lemma slots_static addr t t' : Forall (λ sl, slot_hit addr t sl = slot_hit addr t' sl) slots.
Proof. unfold slots. repeat (apply Forall_cons; split; [done|]). by apply Forall_nil. Qed.

Lemma slot_write_miss addr len data sl t :
  @SubdeviceLaws _ (sl_sub sl) → slot_own sl → slot_hit addr t sl = false → slot_write addr len data sl t = Some (t, []).
Proof.
  intros HL [Hown _] Hm. unfold slot_write. rewrite (@sd_write_miss _ _ HL) by exact Hm. cbn. by rewrite Hown.
Qed.
Lemma slot_read_miss addr len data sl t :
  @SubdeviceLaws _ (sl_sub sl) → slot_own sl → slot_hit addr t sl = false → slot_read addr len data sl t = Some (t, data, []).
Proof.
  intros HL [Hown _] Hm. unfold slot_read. rewrite (@sd_read_miss _ _ HL) by exact Hm. cbn. by rewrite Hown.
Qed.

(** Slots that all miss do nothing. *)
Lemma offer_miss addr len data sls t :
  Forall (λ sl, @SubdeviceLaws _ (sl_sub sl) ∧ slot_own sl ∧ slot_hit addr t sl = false) sls →
  offer_write addr len data sls t = Some (t, []) ∧ offer_read addr len data sls t = Some (t, data, []).
Proof.
  induction 1 as [|sl sls (HL & Ho & Hm) Hsls [IH1 IH2]]; [done|]. cbn.
  by rewrite slot_write_miss, slot_read_miss, IH1, IH2.
Qed.

(** The decoder: which sub-device an offset belongs to. *)
Definition decode (off : Z) : option nat :=
  if off <? 0 then None
  else if off <? 0x50000 then Some 0%nat
  else if (off <=? 0x50700) || (off =? 0x60000) then Some 1%nat
  else if (0x58000 <=? off) && (off <? 0x59000) then Some 2%nat
  else if (0x78000 <=? off) && (off <? 0x79000) then Some 3%nat
  else if (0x80000 <=? off) && (off <? 0x81000) then Some 4%nat
  else if (0x89000 <=? off) && (off <=? 0x89600) then Some 5%nat
  else if (0x89800 <=? off) && (off <? 0x8a000) then Some 6%nat
  else if (0x90000 <=? off) && (off <? 0x92000) then Some 7%nat
  else if (0x92000 <=? off) && (off <? 0x93000) then Some 8%nat
  else if (0x1000000 <=? off) && (off <? 0x1c00000) then Some 9%nat
  else None.

Ltac decode_lia := unfold decode; repeat (case_match; [try lia; try discriminate|]); try lia; try discriminate; try done.

Lemma has_addr_off tag off size addr :
  0 ≤ off → 0 ≤ size → off + size ≤ 0x1c00000 →
  has_addr (sub_id tag off size) addr = (off <=? addr - tc_addr c) && (addr - tc_addr c <? off + size).
Proof. intros. unfold has_addr, u64. cbn. rewrite Z.mod_small by lia. lia. Qed.

Lemma slots_decode addr t i sl :
  slots !! i = Some sl → slot_hit addr t sl = bool_decide (decode (addr - tc_addr c) = Some i).
Proof.
  intros Hi. unfold slots in Hi.
  do 10 (destruct i as [|i]; [injection Hi as <-; unfold slot_hit; cbn [sl_sub sl_get sl_state]; cbn -[has_addr sub_id];
    rewrite has_addr_off by lia; cbn [dbase sub_id];
    match goal with |- ?b = _ => destruct b eqn:E end; symmetry; [apply bool_decide_eq_true|apply bool_decide_eq_false]; decode_lia|]).
  done.
Qed.

(** Two slots reach different parts of the state. *)
Lemma slots_apart i j sl sl' x t :
  slots !! i = Some sl → slots !! j = Some sl' → i ≠ j → sl_get sl' (sl_set sl x t) = sl_get sl' t.
Proof.
  unfold slots. intros Hi Hj Hne.
  do 10 (destruct i as [|i]; [injection Hi as <-; do 10 (destruct j as [|j]; [by injection Hj as <-|]); done|]). done.
Qed.

(** The slots in [l], all of them slots of other addresses, do nothing in any state. *)
Lemma offer_others addr len data t l :
  (∀ k sl, l !! k = Some sl → ∃ j, slots !! j = Some sl ∧ decode (addr - tc_addr c) ≠ Some j) →
  offer_write addr len data l t = Some (t, []) ∧ offer_read addr len data l t = Some (t, data, []).
Proof.
  intros Hl. apply offer_miss, Forall_lookup. intros k sl Hk. destruct (Hl k sl Hk) as (j & Hj & Hd).
  split; [by apply (proj1 (Forall_lookup _ _) slots_laws j)|]. split; [by apply (proj1 (Forall_lookup _ _) slots_own j)|].
  rewrite (slots_decode _ _ _ _ Hj). by apply bool_decide_eq_false.
Qed.

Lemma offer_write_app addr len data l1 l2 t :
  offer_write addr len data (l1 ++ l2) t =
    '(t, e1) ← offer_write addr len data l1 t; '(t, e2) ← offer_write addr len data l2 t; Some (t, e1 ++ e2).
Proof.
  revert t. induction l1 as [|sl l1 IH]; intros t; cbn [app offer_write mbind option_bind].
  { by destruct (offer_write addr len data l2 t) as [[]|]. }
  destruct (slot_write _ _ _ sl t) as [[t1 e1]|]; [|done]. rewrite IH.
  destruct (offer_write addr len data l1 t1) as [[t2 e2]|]; [|done]. cbn.
  destruct (offer_write addr len data l2 t2) as [[t3 e3]|]; [|done]. cbn. by rewrite app_assoc.
Qed.
Lemma offer_read_app addr len data l1 l2 t :
  offer_read addr len data (l1 ++ l2) t =
    '(t, data, e1) ← offer_read addr len data l1 t; '(t, data, e2) ← offer_read addr len data l2 t; Some (t, data, e1 ++ e2).
Proof.
  revert data t. induction l1 as [|sl l1 IH]; intros data t; cbn [app offer_read mbind option_bind].
  { by destruct (offer_read addr len data l2 t) as [[[]]|]. }
  destruct (slot_read _ _ _ sl t) as [[[t1 d1] e1]|]; [|done]. rewrite IH.
  destruct (offer_read addr len d1 l1 t1) as [[[t2 d2] e2]|]; [|done]. cbn.
  destruct (offer_read addr len d2 l2 t2) as [[[t3 d3] e3]|]; [|done]. cbn. by rewrite app_assoc.
Qed.

(** The effect of a decoded access. *)
Definition decoded (addr : Z) : option slot := decode (addr - tc_addr c) ≫= (slots !!.).
Definition decoded_write (addr : Z) (len : nat) (data : list Z) (t : trickbox M R) : option (trickbox M R * list tb_event) :=
  match decoded addr with Some sl => slot_write addr len data sl t | None => Some (t, []) end.
Definition decoded_read (addr : Z) (len : nat) (data : list Z) (t : trickbox M R) :
    option (trickbox M R * list Z * list tb_event) :=
  match decoded addr with Some sl => slot_read addr len data sl t | None => Some (t, data, []) end.

Lemma offer_decoded addr len data t :
  offer_write addr len data slots t = decoded_write addr len data t ∧
  offer_read addr len data slots t = decoded_read addr len data t.
Proof.
  unfold decoded_write, decoded_read, decoded.
  destruct (decode (addr - tc_addr c)) as [i|] eqn:Ed; cbn [mbind option_bind].
  2:{ apply offer_others. intros k sl Hk. exists k. by rewrite Ed. }
  destruct (slots !! i) as [sl|] eqn:Ei.
  2:{ apply offer_others. intros k sl Hk. exists k. split; [done|]. rewrite Ed. congruence. }
  rewrite <- (take_drop_middle slots i sl Ei).
  assert (∀ data t, offer_write addr len data (take i slots) t = Some (t, []) ∧
    offer_read addr len data (take i slots) t = Some (t, data, [])) as Hpre.
  { intros d t'. apply offer_others. intros k sl' Hk. pose proof (lookup_lt_Some _ _ _ Hk) as Hlt. rewrite length_take in Hlt.
    rewrite lookup_take_lt in Hk by lia. exists k. split; [done|]. rewrite Ed. intros [= ->]. lia. }
  assert (∀ data t, offer_write addr len data (drop (S i) slots) t = Some (t, []) ∧
    offer_read addr len data (drop (S i) slots) t = Some (t, data, [])) as Hpost.
  { intros d t'. apply offer_others. intros k sl' Hk. rewrite lookup_drop in Hk. exists (S i + k)%nat. split; [done|].
    rewrite Ed. intros [= E]. lia. }
  rewrite offer_write_app, offer_read_app, (proj1 (Hpre data t)), (proj2 (Hpre data t)). cbn [mbind option_bind offer_write offer_read].
  split.
  - destruct (slot_write addr len data sl t) as [[t1 e1]|]; [|done]. rewrite (proj1 (Hpost data t1)). cbn. by rewrite app_nil_r.
  - destruct (slot_read addr len data sl t) as [[[t1 d1] e1]|]; [|done]. rewrite (proj2 (Hpost d1 t1)). cbn. by rewrite app_nil_r.
Qed.

(** C15: Offering an access to all sub-devices in turn, with two pairs of
    overlapping windows, is the access of the one sub-device the decoder names
    (or nothing), for bus writes, bus reads and back-door writes; every other
    sub-device keeps its state. *)
Theorem trickbox_decodes w r buf t :
  tc_rvfi c = true →
  trickbox_write w t = decoded_write (w_addr w) (w_length w) (w_data w) t ∧
  trickbox_read r buf t = decoded_read (r_addr r) (r_length r) buf t ∧
  trickbox_backdoor_write (w_addr w) (w_length w) (w_data w) t = decoded_write (w_addr w) (w_length w) (w_data w) t ∧
  (∀ t' es j sl, trickbox_write w t = Some (t', es) → slots !! j = Some sl → decode (w_addr w - tc_addr c) ≠ Some j →
     sl_get sl t' = sl_get sl t).
Proof.
  intros Hr. unfold trickbox_write, trickbox_read, trickbox_backdoor_write. rewrite Hr. cbn [negb].
  rewrite (proj2 (offer_decoded (r_addr r) (r_length r) buf t)), !(proj1 (offer_decoded (w_addr w) (w_length w) (w_data w) t)).
  split_and!; [done..|]. intros t' es j sl Hw Hj Hd. revert Hw. unfold decoded_write, decoded.
  destruct (decode (w_addr w - tc_addr c)) as [i|]; cbn [mbind option_bind]; [|by intros [= <- <-]].
  destruct (slots !! i) as [sl'|] eqn:Ei; [|by intros [= <- <-]]. unfold slot_write.
  destruct (@sd_write _ _ _ _ _ _) as [[x es']|]; [|done]. cbn. intros [= <- <-].
  apply (slots_apart i j); [done..|congruence].
Qed.
End trickbox.

(** ** Examples *)

#[local] Instance rng_plus : Rng Z := λ x, (x, x + 1).

Definition ex_tb : tb_cfg :=
  Tb_cfg 0x9000000 4 true (ex_dbg false) ex_ioc poke_ok true (λ _, Some (replicate 8 0)) (λ _ _ b, b).
Definition ex_trickbox : trickbox (gmap Z Z) Z :=
  Trickbox_st interrupter_new (dbg_init 7 []) 0 (replicate 1024 0) (uc_helper_new ∅ 7) io_coh_new (ras_helper_new ∅) dma_new
    eam_helper_reset tt.

(** A write of the window of the I/O-coherency helper that belongs to the RAS helper. *)
Lemma trickbox_decodes_witness :
  let w := Write_t 0x9089808 8 (le_bytes 8 77) (replicate 8 true) 1 in
  ∃ t' es, trickbox_write ex_tb w ex_trickbox = Some (t', es) ∧ tb_ioc t' = io_coh_new ∧
    trickbox_write ex_tb w ex_trickbox = decoded_write ex_tb (w_addr w) 8 (w_data w) ex_trickbox.
Proof.
  cbv zeta. destruct (trickbox_write ex_tb _ ex_trickbox) as [[t' es]|] eqn:E; [|vm_compute in E; discriminate].
  exists t', es. split; [done|].
  destruct (trickbox_decodes ex_tb ltac:(cbn; lia) (Write_t 0x9089808 8 (le_bytes 8 77) (replicate 8 true) 1) (Read_t 0 0 8) []
    ex_trickbox eq_refl) as (H1 & _ & _ & H4).
  split; [|by rewrite <- E, H1]. exact (H4 t' es 5%nat _ E eq_refl ltac:(vm_compute; discriminate)).
Defined.
