(* ===== verification/SwFifo.v ===== *)
(** * SwFifo: a response channel from C++ to the hardware

    Composes the C++ side of one response channel (axi_sw.h: [r_resp],
    [r_dpi], [process(RQ)], [process(r_q_ptr_blocking_update_t)]; the B channel
    is the same) with the hardware FIFO it fills (axi_sw.sv, HwFifo.v) and the
    read-pointer reports between them, which are delivered late and in any
    order, a blocking report overtaking the others.

    The clock counter is 64 bits wide; runs are shorter than its range. *)

From S2P Require Import Prelude HwFifo AxiSw.

Record link {T : Type} := Link {
  lk_ptr : sw_ptr;              (* the pointers as C++ keeps them *)
  lk_sw : list T;               (* accepted, waiting for the DPI callback *)
  lk_hw : dpi_fifo T;
  lk_clocks : Z;
  lk_msgs : list (Z * Z)        (* reports under way: clock and read pointer *)
}.
Arguments link : clear implicits.
Arguments Link {T}.
#[export] Instance eta_link T : Eta (link T) := λ s,
  Link (lk_ptr s) (lk_sw s) (lk_hw s) (lk_clocks s) (lk_msgs s).

Inductive link_op (T : Type) :=
| LResp (x : T)          (* the loop of r_resp looks at a response *)
| LDpi                   (* a DPI callback runs *)
| LClk (ready : bool)    (* a clock edge, the design ready or not *)
| LDeliver (i : nat)     (* one of the reports arrives *)
| LBlocking.             (* axi_sw_flush reports the current pointer *)
Arguments LResp {T}. Arguments LDpi {T}. Arguments LClk {T}. Arguments LDeliver {T}. Arguments LBlocking {T}.

(** What happened: a response accepted, the assertion of a push, a value taken
    by the design. *)
Inductive link_ev (T : Type) := LAccepted (x : T) | LPush (ok : bool) | LTaken (x : option T).
Arguments LAccepted {T}. Arguments LPush {T}. Arguments LTaken {T}.

Section link.
Context {T : Type}.
Variable D : nat.

Definition link_new : link T :=
  Link (Sw_ptr (Z.of_nat D) (ptr_mod D) 0 0 0) [] (df_new D) 0 [].

Definition report (clock ptr : Z) (p : sw_ptr) : sw_ptr :=
  if pt_time p <? clock then pt_report clock ptr p else p.

Definition link_step (o : link_op T) (s : link T) : link T * list (link_ev T) :=
  match o with
  | LResp x =>
      if pt_full (lk_ptr s) then (s, [])
      else (s <| lk_ptr ::= pt_advance |> <| lk_sw ::= λ l, l ++ [x] |>, [LAccepted x])
  | LDpi =>
      match lk_sw s with
      | [] => (s, [])
      | x :: q =>
          let '(ok, hw) := df_push D true x (lk_hw s) in
          (s <| lk_sw := q |> <| lk_hw := hw |>, [LPush ok])
      end
  | LClk ready =>
      let hw := lk_hw s in
      let take := ready && negb (df_empty D hw) in
      (s <| lk_hw := df_clk D false true take hw |>
         <| lk_clocks ::= λ c, u64 (c + 1) |>
         <| lk_msgs ::= λ l, if df_rptr_updated hw then l ++ [(lk_clocks s, df_rptr hw)] else l |>,
       if take then [LTaken (df_out D hw)] else [])
  | LDeliver i =>
      match lk_msgs s !! i with
      | None => (s, [])
      | Some (c, p) => (s <| lk_ptr ::= report c p |> <| lk_msgs ::= delete i |>, [])
      end
  | LBlocking => (s <| lk_ptr ::= report (lk_clocks s) (df_rptr (lk_hw s)) |>, [])
  end.

Fixpoint link_run (os : list (link_op T)) (s : link T) : link T * list (link_ev T) :=
  match os with
  | [] => (s, [])
  | o :: os' =>
      let '(s, e1) := link_step o s in
      let '(s, e2) := link_run os' s in (s, e1 ++ e2)
  end.

Definition accepted (evs : list (link_ev T)) : list T :=
  omap (λ e, match e with LAccepted x => Some x | _ => None end) evs.
Definition taken (evs : list (link_ev T)) : list (option T) :=
  omap (λ e, match e with LTaken x => Some x | _ => None end) evs.
Definition push_ok (e : link_ev T) : bool := match e with LPush ok => ok | _ => true end.

(** ** The invariant

    [n] clock edges, [A] the accepted responses, of which [r] were taken;
    [H c] is the number taken when the counter showed [c]. *)
Record link_inv (n : nat) (A : list T) (r : nat) (H : Z → nat) (s : link T) (q : list T) (vis : nat)
    : Prop := {
  li_hw : df_rel D (lk_hw s) q vis r;
  li_A : A = take r A ++ q ++ lk_sw s;
  li_r : (r ≤ length A)%nat;
  li_max : pt_max (lk_ptr s) = Z.of_nat D ∧ pt_ptr_max (lk_ptr s) = ptr_mod D;
  li_wptr : pt_wptr (lk_ptr s) = Z.of_nat (length A) mod ptr_mod D;
  li_rptr : pt_rptr (lk_ptr s) = Z.of_nat (H (pt_time (lk_ptr s))) mod ptr_mod D;
  li_room : Z.of_nat (length A) - Z.of_nat (H (pt_time (lk_ptr s))) ≤ Z.of_nat D;
  li_clk : lk_clocks s = Z.of_nat n ∧ 0 ≤ pt_time (lk_ptr s) ≤ lk_clocks s;
  li_msgs : Forall (λ m : Z * Z, 0 ≤ m.1 ≤ lk_clocks s ∧ m.2 = Z.of_nat (H m.1) mod ptr_mod D) (lk_msgs s);
  li_mono : ∀ c d, 0 ≤ c ≤ d → d ≤ lk_clocks s → (H c ≤ H d)%nat;
  li_now : H (lk_clocks s) = r
}.

Hypothesis D_pow2 : pow2_depth D.
Hypothesis D_small : ptr_mod D < 2 ^ 31.

Lemma link_new_inv : link_inv 0 [] 0 (λ _, 0%nat) link_new [] 0.
Proof.
  split; cbn; try done; try lia; try apply df_new_rel.
Qed.

Lemma pt_size_inv n A r H s q vis :
  link_inv n A r H s q vis →
  pt_size (lk_ptr s) = Z.of_nat (length A) - Z.of_nat (H (pt_time (lk_ptr s))) ∧
  (H (pt_time (lk_ptr s)) ≤ r)%nat.
Proof.
  intros [_ _ Hr [_ Hm] Hw Hp Hroom [Hc Ht] _ Hmono Hnow].
  assert (H (pt_time (lk_ptr s)) ≤ r)%nat as Hle by (rewrite <- Hnow; apply Hmono; lia).
  split; [|done]. destruct (ptr_mod_pow2 D D_pow2) as [Em Hpos].
  unfold pt_size, u32. rewrite Hm, Hw, Hp.
  pose proof (Z.mod_pos_bound (Z.of_nat (length A)) (ptr_mod D) ltac:(lia)).
  pose proof (Z.mod_pos_bound (Z.of_nat (H (pt_time (lk_ptr s)))) (ptr_mod D) ltac:(lia)).
  rewrite (Z.mod_small _ (2 ^ 32)) by lia.
  rewrite Zminus_mod_idemp_r.
  replace (Z.of_nat (length A) mod ptr_mod D + ptr_mod D - Z.of_nat (H (pt_time (lk_ptr s))))
    with (Z.of_nat (length A) mod ptr_mod D + (ptr_mod D - Z.of_nat (H (pt_time (lk_ptr s))))) by lia.
  rewrite Z.add_mod_idemp_l by lia.
  replace (Z.of_nat (length A) + (ptr_mod D - Z.of_nat (H (pt_time (lk_ptr s)))))
    with (Z.of_nat (length A) - Z.of_nat (H (pt_time (lk_ptr s))) + 1 * ptr_mod D) by lia.
  rewrite Z.mod_add by lia. apply Z.mod_small. lia.
Qed.

Lemma report_inv n A r H s q vis c p :
  link_inv n A r H s q vis → 0 ≤ c ≤ lk_clocks s → p = Z.of_nat (H c) mod ptr_mod D →
  link_inv n A r H (s <| lk_ptr ::= report c p |>) q vis.
Proof.
  intros [Hhw HA Hr [Hmx Hm] Hw Hp Hroom [Hc Ht] Hms Hmono Hnow] Hc' ->.
  unfold report. split; cbn; try done; destruct (Z.ltb_spec (pt_time (lk_ptr s)) c); cbn; try done.
  - pose proof (Hmono (pt_time (lk_ptr s)) c ltac:(lia) ltac:(lia)). lia.
Qed.

Lemma link_resp_inv x n A r H s q vis :
  link_inv n A r H s q vis → pt_full (lk_ptr s) = false →
  link_inv n (A ++ [x]) r H (s <| lk_ptr ::= pt_advance |> <| lk_sw ::= λ l, l ++ [x] |>) q vis.
Proof.
  intros Hi Hf. destruct (pt_size_inv _ _ _ _ _ _ _ Hi) as [Hsz _].
  destruct Hi as [Hhw HA Hr [Hmx Hm] Hw Hp Hroom [Hc Ht] Hms Hmono Hnow].
  unfold pt_full in Hf. apply Z.leb_gt in Hf. rewrite Hsz, Hmx in Hf.
  destruct (ptr_mod_pow2 D D_pow2) as [Em Hpos].
  split; cbn; try done; try lia.
  - rewrite take_app_le by done. by rewrite HA at 1; rewrite <- !app_assoc.
  - rewrite length_app. lia.
  - rewrite Hw, Hm, length_app. unfold u32.
    pose proof (Z.mod_pos_bound (Z.of_nat (length A)) (ptr_mod D) ltac:(lia)).
    rewrite (Z.mod_small _ (2 ^ 32)) by lia. rewrite Z.add_mod_idemp_l by lia. f_equal. cbn. lia.
  - rewrite length_app. cbn. lia.
Qed.

Lemma link_dpi_inv x l n A r H s q vis :
  link_inv n A r H s q vis → lk_sw s = x :: l →
  (df_push D true x (lk_hw s)).1 = true ∧
  link_inv n A r H (s <| lk_sw := l |> <| lk_hw := (df_push D true x (lk_hw s)).2 |>) (q ++ [x]) vis.
Proof.
  intros Hi Hl. destruct (pt_size_inv _ _ _ _ _ _ _ Hi) as [_ Hle].
  destruct Hi as [Hhw HA Hr [Hmx Hm] Hw Hp Hroom [Hc Ht] Hms Hmono Hnow].
  assert (length q < D)%nat as Hq.
  { apply (f_equal length) in HA. rewrite !length_app, length_take, Hl in HA. cbn in HA. lia. }
  destruct (df_rel_outputs D _ _ _ _ D_pow2 Hhw) as (Hnf & _). split.
  - cbn. rewrite Hnf. rewrite (proj2 (Nat.ltb_lt _ _)) by done. done.
  - split; try done.
    + apply (dpi_step_rel D (DPush x) _ q vis r); try done. cbn [dpi_spec].
      by rewrite (proj2 (Nat.ltb_lt _ _)).
    + cbn. rewrite HA at 1. by rewrite Hl, <- !app_assoc.
Qed.

Lemma link_clk_inv ready n A r H s q vis :
  Z.of_nat (S n) < 2 ^ 64 → link_inv n A r H s q vis →
  let take := ready && negb (df_empty D (lk_hw s)) in
  let s' := (link_step (LClk ready) s).1 in
  ∃ r' H' q' vis', link_inv (S n) A r' H' s' q' vis' ∧
    r' = (if take then S r else r) ∧ (take = true → df_out D (lk_hw s) = A !! r).
Proof.
  intros Hn Hi take s'.
  destruct Hi as [Hhw HA Hr [Hmx Hm] Hw Hp Hroom [Hc Ht] Hms Hmono Hnow].
  destruct (df_rel_outputs D _ _ _ _ D_pow2 Hhw) as (_ & Hemp & Hout).
  set (r' := if take then S r else r).
  assert (∃ q' vis', dpi_spec D (DClk take) (q, vis, r) = Some (q', vis', r') ∧
    A = list.take r' A ++ q' ++ lk_sw s ∧ (r' ≤ length A)%nat ∧
    (take = true → df_out D (lk_hw s) = A !! r)) as (q' & vis' & Hspec & HA' & Hr' & Ho).
  { subst r'. destruct take eqn:Et; [|by exists q, (length q)]. unfold take in Et. apply andb_true_iff in Et as [_ Et].
    rewrite Hemp in Et. destruct vis as [|vis]; [done|]. destruct q as [|x q].
    { destruct Hhw as [_ Hf _ _ _ _]. cbn in Hf. lia. }
    assert (A !! r = Some x) as Hx.
    { rewrite HA. rewrite lookup_app_r by (rewrite length_take; lia). rewrite length_take.
      by replace (r - r `min` length A)%nat with 0%nat by lia. }
    eexists _, _. split; [done|]. split_and!.
    - rewrite (take_S_r _ _ _ Hx), <- app_assoc. exact HA.
    - by apply lookup_lt_Some in Hx.
    - intros _. by rewrite (Hout x q eq_refl), Hx. }
  exists r', (λ c, if decide (c = lk_clocks s + 1) then r' else H c), q', vis'.
  split; [|done].
  assert (u64 (lk_clocks s + 1) = Z.of_nat (S n)) as Hck.
  { rewrite Hc. unfold u64. rewrite Z.mod_small; lia. }
  assert (pt_time (lk_ptr s) ≠ lk_clocks s + 1) as Hne by lia.
  subst s'. cbn [link_step fst]. change (_ && _) with take. split; cbn; try done.
  - by apply (dpi_step_rel D (DClk take) _ q vis r).
  - by rewrite decide_False.
  - by rewrite decide_False.
  - rewrite Hck. lia.
  - rewrite Hck. assert (Forall (λ m : Z * Z, 0 ≤ m.1 ≤ Z.of_nat (S n) ∧
      m.2 = Z.of_nat (if decide (m.1 = lk_clocks s + 1) then r' else H m.1) mod ptr_mod D) (lk_msgs s)) as Hms'.
    { eapply Forall_impl; [exact Hms|]. intros m [? ?]. rewrite decide_False by lia. split; [lia|done]. }
    destruct (df_rptr_updated (lk_hw s)); [|done]. apply Forall_app_2; [done|].
    apply Forall_singleton. cbn. rewrite decide_False by lia. split; [lia|].
    rewrite Hnow. apply Hhw.
  - rewrite Hck. intros c d Hcd Hd. rewrite Hc in *. destruct (decide (c = _)), (decide (d = _)); try lia.
    + pose proof (Hmono c (Z.of_nat n) ltac:(lia) ltac:(lia)). rewrite Hnow in *.
      subst r'. destruct take; lia.
    + apply Hmono; lia.
  - rewrite Hck, decide_True by lia. done.
Qed.

Lemma accepted_app e1 e2 : accepted (e1 ++ e2) = accepted e1 ++ accepted e2.
Proof. apply omap_app. Qed.
Lemma taken_app e1 e2 : taken (e1 ++ e2) = taken e1 ++ taken e2.
Proof. apply omap_app. Qed.

(** [evs] is the history: its values were taken in order and its pushes found
    room. *)
Definition link_good (n : nat) (evs : list (link_ev T)) (s : link T) : Prop :=
  ∃ r H q vis, link_inv n (accepted evs) r H s q vis ∧
    taken evs = Some <$> take r (accepted evs) ∧ forallb push_ok evs = true.

Lemma link_step_good o n evs s :
  Z.of_nat (S n) < 2 ^ 64 → link_good n evs s →
  ∃ n', (n' ≤ S n)%nat ∧ link_good n' (evs ++ (link_step o s).2) (link_step o s).1.
Proof.
  intros Hn (r & H & q & vis & Hi & Ht & Hok). destruct o as [x| |ready|i|].
  - cbn [link_step]. destruct (pt_full (lk_ptr s)) eqn:Ef; cbn [fst snd].
    { exists n. rewrite app_nil_r. split; [lia|]. by exists r, H, q, vis. }
    exists n. split; [lia|]. exists r, H, q, vis.
    rewrite accepted_app, taken_app, forallb_app. cbn [accepted taken omap list_omap forallb push_ok].
    rewrite Hok, Ht, app_nil_r. split_and!; [by apply link_resp_inv| |done].
    rewrite take_app_le by apply Hi. done.
  - cbn [link_step]. destruct (lk_sw s) as [|x l] eqn:El.
    { exists n. rewrite app_nil_r. split; [lia|]. by exists r, H, q, vis. }
    destruct (link_dpi_inv x l n _ r H s q vis Hi El) as [Hp Hi'].
    destruct (df_push D true x (lk_hw s)) as [ok hw]. cbn [fst snd] in *. subst ok.
    exists n. split; [lia|]. exists r, H, (q ++ [x]), vis.
    rewrite accepted_app, taken_app, forallb_app. cbn. rewrite Hok, !app_nil_r. done.
  - destruct (link_clk_inv ready n _ r H s q vis Hn Hi) as (r' & H' & q' & vis' & Hi' & Er & Ho).
    exists (S n). split; [done|]. exists r', H', q', vis'. revert Hi'.
    cbn [link_step fst snd]. rewrite accepted_app, taken_app, forallb_app, Ht, Hok.
    destruct (ready && _) eqn:Et; cbn [accepted taken omap list_omap forallb push_ok]; rewrite ?app_nil_r; intros Hi'.
    + split_and!; [done| |done]. subst r'. pose proof (li_r _ _ _ _ _ _ _ Hi') as Hr.
      destruct (lookup_lt_is_Some_2 (accepted evs) r) as [x Hx]; [lia|].
      rewrite Ho, Hx by done. by rewrite (take_S_r _ _ _ Hx), fmap_app.
    + subst r'. done.
  - cbn [link_step]. exists n. split; [lia|].
    destruct (lk_msgs s !! i) as [[c p]|] eqn:Em; cbn [fst snd]; rewrite app_nil_r; exists r, H, q, vis; [|done].
    split; [|done]. pose proof (li_msgs _ _ _ _ _ _ _ Hi) as Hms.
    pose proof (Forall_lookup_1 _ _ _ _ Hms Em) as [Hc Hp]. cbn [fst snd] in *.
    pose proof (report_inv n _ r H s q vis c p Hi Hc Hp) as [].
    split; try done. cbn. apply Forall_delete. done.
  - cbn [link_step fst snd]. exists n. rewrite app_nil_r. split; [lia|]. exists r, H, q, vis. split; [|done].
    apply report_inv; [done|destruct (li_clk _ _ _ _ _ _ _ Hi); lia|].
    rewrite (li_now _ _ _ _ _ _ _ Hi). apply (li_hw _ _ _ _ _ _ _ Hi).
Qed.

Lemma link_run_good os n evs s :
  Z.of_nat (n + length os) < 2 ^ 64 → link_good n evs s →
  ∃ n', link_good n' (evs ++ (link_run os s).2) (link_run os s).1.
Proof.
  revert n evs s; induction os as [|o os IH]; intros n evs s Hn Hg; cbn [link_run].
  { exists n. by rewrite app_nil_r. }
  cbn [length] in Hn. destruct (link_step_good o n evs s) as (n1 & Hn1 & Hg1); [lia|done|].
  destruct (link_step o s) as [s1 e1]. cbn [fst snd] in *.
  destruct (IH n1 (evs ++ e1) s1) as (n2 & Hg2); [lia|done|].
  destruct (link_run os s1) as [s2 e2]. cbn [fst snd] in *. exists n2. by rewrite app_assoc.
Qed.
End link.

(** C7: a response channel neither overruns its hardware FIFO nor loses,
    duplicates or reorders a response.  For every interleaving of responses,
    DPI callbacks, clock edges and read-pointer reports, however late and out
    of order the reports arrive, the assertion that the FIFO is not full holds
    at every push, and the values the design takes are the accepted responses
    in the order they were accepted. *)
Theorem response_channel_fifo {T} D (os : list (link_op T)) :
  pow2_depth D → ptr_mod D < 2 ^ 31 → Z.of_nat (length os) < 2 ^ 64 →
  let '(s, evs) := link_run D os (link_new D) in
  forallb push_ok evs = true ∧
  ∃ rest, Some <$> accepted evs = taken evs ++ rest.
Proof.
  intros HD Hsm Hlen.
  destruct (link_run_good D HD Hsm os 0 [] (link_new D)) as (n & r & H & q & vis & Hi & Ht & Hok).
  { done. }
  { exists 0%nat, (λ _, 0%nat), [], 0%nat. split; [apply link_new_inv|done]. }
  destruct (link_run D os (link_new D)) as [s evs]. cbn [fst snd app] in *.
  split; [done|]. rewrite Ht. exists (Some <$> drop r (accepted evs)).
  by rewrite <- fmap_app, take_drop.
Qed.

Definition sample_link_ops : list (link_op Z) :=
  [LResp 1; LResp 2; LResp 3; LDpi; LDpi; LClk true; LClk true; LClk true; LClk false; LBlocking;
   LDeliver 1; LResp 4; LDeliver 0; LDpi; LClk true; LClk true].
Lemma response_channel_fifo_witness :
  pow2_depth 2 ∧ (link_run 2 sample_link_ops (link_new 2)).2 =
    [LAccepted 1; LAccepted 2; LPush true; LPush true; LTaken (Some 1); LTaken (Some 2);
     LAccepted 4; LPush true; LTaken (Some 4)] ∧
  forallb push_ok (link_run 2 sample_link_ops (link_new 2)).2 = true.
Proof.
  assert (pow2_depth 2) as HD by (exists 1; split; [lia|reflexivity]).
  split; [exact HD|]. split; [vm_compute; reflexivity|].
  pose proof (response_channel_fifo 2 sample_link_ops HD ltac:(vm_compute; reflexivity)
    ltac:(vm_compute; reflexivity)) as H.
  destruct (link_run 2 sample_link_ops (link_new 2)) as [s evs]. exact (proj1 H).
Defined.
