(* ===== verification/Sysmod.v ===== *)
(** * Sysmod: the system model (src/sysmod/sysmod.{h,cpp}, class sysmod)

    [sysmod] owns the devices, decodes addresses, forwards bus transactions to
    the device whose window contains them, advances device time, gives
    backdoor access to memory, keeps the reference simulator's memory in step
    and loads program images.

    The devices are any type [D] with a [Device] instance (Compose.v gives the
    one the program builds) over the shared memory store [M].  A message
    signalled on the sysmod location reaches every device; each filters it
    with its own window.  [None] is the result of a step that dereferences the
    null pointer [dev(tag)] returns for an unknown tag, or of an exception
    that escapes.  [inval_load_] and [inval_crsp_] are only ever assigned and
    have no field here. *)

From Stdlib Require Import Ascii.
From S2P Require Import Prelude Bytes Cstd CosimUtil Device Memmap Mem.

#[local] Open Scope string_scope.
#[local] Open Scope list_scope.
#[local] Open Scope Z_scope.

Record sysmod_flags := Sysmod_flags {
  sf_pa_mask : Z;
  sf_tick_threshold : Z;
  sf_cosim : bool;
  sf_mcm : bool;
  sf_whisper_client_check : bool;
  sf_mem_random : bool;
  sf_mem_default_64 : Z;
  sf_terminate : bool;
  sf_num_harts : nat;
  sf_dm_rand_addr : Z
}.

Inductive sys_event :=
| SyDev (e : event)                               (* issued by a device *)
| SyPoke (addr size data : Z)                     (* whisperPokeMemRPC *)
| SyPokeBatch (addr : Z) (data : list Z)          (* whisperPokeMemBatchRPC *)
| SyTimer (hart : Z) (flag : bool) (mtime : Z)    (* DPI sysmod_timer_interrupt *)
| SySoft (hart : Z) (flag : bool)                 (* DPI sysmod_sw_interrupt *)
| SyDmi (upper lower : Z)                         (* DPI sysmod_dmi_write *)
| SyDebugReq (hart set : Z)                       (* DPI sysmod_debug_req_vld *)
| SyTrickboxMem (addr : Z) (length : nat) (data : list Z) (strb : list bool)
| SyTerminateFast                                 (* terminate_called_fast *)
| SyTerminateCalled (sync : bool)                 (* terminate_called *)
| SyTerminateSim                                  (* DPI sysmod_terminate *)
| SyTestStart                                     (* actual_test_start *)
| SyError.                                        (* cvm::log(cvm::ERROR, ...) *)

Record sysmod {J M D : Type} := Sysmod {
  sy_devices : list D;
  sy_external : list D;
  sy_fallback : option D;
  sy_memmap : list (string * memmap_entry J);
  sy_ticks : Z;
  sy_jtag_ticks : Z;
  sy_overlay_ticks : Z;
  sy_cosim_init : bool;
  sy_stee : bool;
  sy_secure_start : Z;
  sy_secure_end : Z;
  sy_prog_loaded : bool;
  sy_mem : M
}.
Arguments sysmod : clear implicits.
Arguments Sysmod {J M D}.

#[export] Instance eta_sysmod J M D : Eta (sysmod J M D) := λ s,
  Sysmod (sy_devices s) (sy_external s) (sy_fallback s) (sy_memmap s) (sy_ticks s)
    (sy_jtag_ticks s) (sy_overlay_ticks s) (sy_cosim_init s) (sy_stee s) (sy_secure_start s)
    (sy_secure_end s) (sy_prog_loaded s) (sy_mem s).

(** A device pointer: into the devices, owned and external in this order, or
    to the fallback. *)
Inductive dref := RDev (n : nat) | RFallback.

(** Cache-invalidate payloads (sysmod_params.hpp). *)
Record inval_load_s := Inval_load_s {
  il_address : Z;
  il_data : Z;
  il_size : Z;                                    (* byte mask *)
  il_amo : bool
}.

Record backdoor_write_t := Backdoor_write_t {
  bw_address : Z;
  bw_data : Z;
  bw_size : nat
}.

Definition data8 : list Z := replicate 8 0.
Definition strb8 : list bool := replicate 8 true.

Section sysmod.
Context {J M D : Type} `{Device M D}.
Variable fl : sysmod_flags.
Notation sysmod := (sysmod J M D).

(** ** Devices and address decoding *)

Definition sy_all (s : sysmod) : list D := sy_devices s ++ sy_external s.
Definition set_all (l : list D) (s : sysmod) : sysmod :=
  s <| sy_devices := take (length (sy_devices s)) l |>
    <| sy_external := drop (length (sy_devices s)) l |>.

Fixpoint find_index (pred : D → bool) (l : list D) : option nat :=
  match l with
  | [] => None
  | d :: l' => if pred d then Some 0%nat else S <$> find_index pred l'
  end.
Definition find_device (pred : D → bool) (s : sysmod) : option nat := find_index pred (sy_all s).

Definition mask_addr (addr : Z) : Z := addr &&& not64 (sf_pa_mask fl).

(** [dev(addr)] *)
Definition dev_addr (addr : Z) (s : sysmod) : option dref * list sys_event :=
  let addr := if sy_stee s then
                if negb (addr &&& sf_pa_mask fl =? 0) then mask_addr addr else addr
              else addr in
  match find_device (λ d, has_addr (dev_id d) addr) s with
  | Some n => (Some (RDev n), [])
  | None => ((λ _, RFallback) <$> sy_fallback s, [SyError])
  end.

(** [dev(tag)] *)
Definition dev_tag (tag : string) (s : sysmod) : option nat * list sys_event :=
  match find_device (λ d, String.eqb (dtag (dev_id d)) tag) s with
  | Some n => (Some n, [])
  | None => (None, [SyError])
  end.

(** [dev(tag)->f(...)] *)
Definition on_tag {A} (tag : string) (f : D * M → (D * M) * A) (s : sysmod) : option (sysmod * A) :=
  n ← (dev_tag tag s).1;
  d ← sy_all s !! n;
  let '((d', m'), x) := f (d, sy_mem s) in
  Some (set_all (<[n := d']> (sy_all s)) (s <| sy_mem := m' |>), x).

Definition tag_backdoor_write (tag : string) (addr : Z) (len : nat) (data : list Z)
    (strb : list bool) (s : sysmod) : option sysmod :=
  fst <$> on_tag tag (λ dm, (dev_backdoor_write addr len data strb dm, tt)) s.
Definition tag_backdoor_read (tag : string) (addr : Z) (len : nat) (data : list Z) (s : sysmod)
    : option (sysmod * list Z) :=
  on_tag tag (dev_backdoor_read addr len data) s.

(** [for_each_device] *)
Fixpoint each (f : D * M → (D * M) * list event) (l : list D) (m : M)
    : list D * M * list event :=
  match l with
  | [] => ([], m, [])
  | d :: l' =>
      let '((d', m'), e1) := f (d, m) in
      let '(l'', m'', e2) := each f l' m' in
      (d' :: l'', m'', e1 ++ e2)
  end.
Definition for_each_device (f : D * M → (D * M) * list event) (s : sysmod)
    : sysmod * list sys_event :=
  let '(l, m, evs) := each f (sy_all s) (sy_mem s) in
  (set_all l (s <| sy_mem := m |>), SyDev <$> evs).

(** [messenger.signal<device::write_t>(loc_, ...)]: every device that
    [configure] connected, the fallback included. *)
Definition signal_device (h : D * M → (D * M) * list event) (s : sysmod)
    : sysmod * list sys_event :=
  let '(s, e1) := for_each_device h s in
  match sy_fallback s with
  | None => (s, e1)
  | Some f =>
      let '((f', m'), e2) := h (f, sy_mem s) in
      (s <| sy_fallback := Some f' |> <| sy_mem := m' |>, e1 ++ (SyDev <$> e2))
  end.

(** The handlers [configure] connects to each transactor [source]. *)
Definition on_write (source : Z) (w : write_t) (s : sysmod) : sysmod * list sys_event :=
  match dev_addr (w_addr w) s with
  | (None, e) => (s, e)
  | (Some _, e0) =>
      let '(s, e1) := signal_device (handle_write source (w <| w_addr ::= mask_addr |>)) s in
      (s, e0 ++ e1)
  end.
Definition on_read (source : Z) (r : read_t) (s : sysmod) : sysmod * list sys_event :=
  match dev_addr (r_addr r) s with
  | (None, e) => (s, e)
  | (Some _, e0) =>
      let '(s, e1) :=
        signal_device (handle_read source (Read_t (r_id r) (mask_addr (r_addr r)) (r_length r))) s in
      (s, e0 ++ e1)
  end.

(** [add_device]; [mm] is the outcome of [memmap::get] and the map it leaves in
    [memmap_] (Memmap.get). *)
Definition add_device (mm : parse_outcome * list (string * memmap_entry J)) (d : option D)
    (s : sysmod) : sysmod * list sys_event :=
  match d with
  | None => (s, [SyError])
  | Some d =>
      let i := dev_id d in
      if find_device (λ x, String.eqb (dtag (dev_id x)) (dtag i)) s then (s, [SyError])
      else
        let '(o, map) := mm in
        let s := s <| sy_memmap := map |> in
        match o with
        | MmReturn true =>
            let begin_ := dbase i in
            let end_ := u64 (dbase i + dsize i) in
            let reserved := existsb (λ e,
              String.eqb (me_type e.2) "external" && (me_base e.2 <=? begin_) &&
              (end_ <=? u64 (me_base e.2 + me_size e.2))) map in
            let clash := find_device (λ x,
              let j := dev_id x in
              (0 <? dsize j) && (dbase j <? end_) && (begin_ <? u64 (dbase j + dsize j))) s in
            if 0 <? dsize i then
              if negb reserved then (s, [SyError])
              else if clash then (s, [SyError])
              else (s <| sy_external ::= λ l, l ++ [d] |>, [])
            else (s <| sy_external ::= λ l, l ++ [d] |>, [])
        | _ => (s, [])
        end
  end.

(** ** Time *)

(** The batching of [tick]: the advance handed to the devices and the ticks
    kept; [None] is the division by a zero threshold. *)
Definition tick_advance (advance ticks : Z) : option (Z * Z) :=
  let ticks := u64 (ticks + advance) in
  if sf_tick_threshold fl <=? ticks then
    if sf_tick_threshold fl =? 0 then None
    else let rem := ticks mod sf_tick_threshold fl in Some (ticks - rem, rem)
  else Some (0, ticks).

(** Trickbox time starts only once the reference simulator is connected. *)
Definition tick_device (s : sysmod) (advance : Z) (dm : D * M) : (D * M) * list event :=
  if negb (sy_cosim_init s) && String.eqb (dtag (dev_id dm.1)) "trickbox" then (dm, [])
  else dev_tick advance dm.

Definition tick (advance : Z) (s : sysmod) : option (sysmod * list sys_event) :=
  '(advance, rem) ← tick_advance advance (sy_ticks s);
  let s := s <| sy_ticks := rem |> in
  if advance =? 0 then Some (s, []) else Some (for_each_device (tick_device s advance) s).

(** The virtual methods only the trickbox overrides are parameters. *)
Definition is_dut_reset_req (dev_reset_req : bool → Z → Z → D * M → (D * M) * list event)
    (dut_reset_req : bool) (clocks divisor : Z) (s : sysmod) : sysmod * list sys_event :=
  if dut_reset_req then for_each_device (dev_reset_req dut_reset_req clocks divisor) s else (s, []).

Definition jtag_tick (dev_jtag_tick : Z → D * M → (D * M) * list event) (advance : Z) (s : sysmod)
    : sysmod * list sys_event :=
  let s := s <| sy_jtag_ticks ::= λ t, u64 (t + advance) |> in
  if advance =? 0 then (s, []) else for_each_device (dev_jtag_tick advance) s.

Definition overlay_tick (dev_overlay_tick : Z → D * M → (D * M) * list event) (advance : Z)
    (s : sysmod) : sysmod * list sys_event :=
  let s := s <| sy_overlay_ticks ::= λ t, u64 (t + advance) |> in
  if advance =? 0 then (s, []) else for_each_device (dev_overlay_tick advance) s.
End sysmod.

(** ** Backdoor access and the reference simulator's memory

    [poke a n v] is what the call that writes [n] bytes into the reference
    simulator's memory does: whether it returns true, and the [valid] it sets. *)
Section backdoor.
Context {J M D : Type} `{Device M D}.
Variable fl : sysmod_flags.
Variable poke : Z → Z → Z → bool * bool.
Notation sysmod := (sysmod J M D).

(** A poke; [strict] also checks [valid]. *)
Definition poke_mem (strict : bool) (addr size data : Z) : list sys_event :=
  let '(returned, valid) := poke addr size data in
  SyPoke addr size data ::
  (if (negb returned || (strict && negb valid)) && sf_whisper_client_check fl
   then [SyError] else []).

Fixpoint eot_loop (n : nat) (i : nat) (w : write_t) (s : sysmod) : option sysmod :=
  match n with
  | O => Some s
  | S n' =>
      let data := (λ j, at_z (w_data w) (i + j)) <$> seq 0 8 in
      s ← tag_backdoor_write "memory" (mask_addr fl (u64 (w_addr w + Z.of_nat i))) 8 data strb8 s;
      eot_loop n' (i + 8) w s
  end.
Definition eot_backdoor_write (w : write_t) (s : sysmod) : option sysmod := eot_loop 8 0 w s.

(** [read_data |= uint64_t(data[i]) << (i * 8)] over eight bytes of memory. *)
Definition memory_word (addr : Z) (s : sysmod) : option (sysmod * Z) :=
  '(s, data) ← tag_backdoor_read "memory" addr 8 data8 s;
  Some (s, deserializeInt 8 data).

Definition backdoor_read (address : Z) (s : sysmod) : option (sysmod * Z) := memory_word address s.

(** [datax] and [strbx] have eight elements; a larger [size] writes out of
    bounds. *)
Definition backdoor_write (t : backdoor_write_t) (s : sysmod) : option (sysmod * list sys_event) :=
  let evs := if sf_cosim fl then poke_mem true (bw_address t) 8 (bw_data t) else [] in
  let datax := serializeInt (bw_data t) (bw_size t) data8 in
  let strbx := (λ i, (i <? bw_size t)%nat) <$> seq 0 8 in
  s ← tag_backdoor_write "memory" (bw_address t) (bw_size t) datax strbx s;
  Some (s, evs).

(** The DPI entry points. *)
Definition dpi_backdoor_read (address : Z) (s : sysmod) : option (sysmod * Z) :=
  backdoor_read address s.
Definition dpi_backdoor_write (address data : Z) (s : sysmod)
    : option (sysmod * list sys_event) :=
  backdoor_write (Backdoor_write_t address data 8) s.

Fixpoint crsp_loop (n : nat) (offset : Z) (ld_addr : Z) (s : sysmod)
    : option (sysmod * list sys_event) :=
  match n with
  | O => Some (s, [])
  | S n' =>
      let a := u64 (ld_addr + offset * 8) in
      '(s, read_data) ← memory_word a s;
      '(s, evs) ← crsp_loop n' (offset + 1) ld_addr s;
      Some (s, poke_mem true a 8 read_data ++ evs)
  end.
Definition line_of (addr : Z) : Z := (mask_addr fl addr ≫ 6) ≪ 6.
Definition store_inval_crsp (address : Z) (mcm : bool) (s : sysmod)
    : option (sysmod * list sys_event) :=
  if mcm && negb (sf_mcm fl) then Some (s, [])
  else if negb mcm && sf_mcm fl then Some (s, [])
  else crsp_loop 8 0 (line_of address) s.

(** [byte_mask & (1 << i)] *)
Definition masked (byte_mask : Z) (i : nat) : bool :=
  negb (byte_mask &&& (1 ≪ Z.of_nat i) =? 0).
Definition poke_bytes (strict : bool) (byte_mask ld_addr : Z) (byte : nat → Z) : list sys_event :=
  mjoin ((λ i, if masked byte_mask i
               then poke_mem strict (u64 (ld_addr + Z.of_nat i)) 1 (byte i) else []) <$> seq 0 8).
Definition read_bit_mask (byte_mask : Z) : Z :=
  foldl (λ x i, if masked byte_mask i then x ||| (0xff ≪ (8 * Z.of_nat i)) else x) 0 (seq 0 8).

Definition store_inval_load (p : inval_load_s) (s : sysmod) : option (sysmod * list sys_event) :=
  let ld_addr := mask_addr fl (il_address p) in
  let byte_mask := il_size p in
  '(s, read_data) ← memory_word ld_addr s;
  let amo :=
    if il_amo p then
      poke_bytes false byte_mask ld_addr (λ i, (il_data p ≫ (8 * Z.of_nat i)) &&& 0xff)
    else [] in
  let m := read_bit_mask byte_mask in
  let load :=
    if (il_data p &&& m =? read_data &&& m) && negb (il_amo p) then
      poke_bytes true byte_mask ld_addr (λ i, read_data ≫ (8 * Z.of_nat i))
    else [] in
  Some (s, amo ++ load).

Definition uc_helper_backdoor_write (loc : Z) (addr : Z) (data : list Z) (strb : list bool)
    (s : sysmod) : sysmod * list sys_event :=
  match dev_addr fl addr s with
  | (None, e) => (s, e)
  | (Some _, e0) =>
      let '(s, e1) := signal_device (handle_write loc (Write_t addr 1 data strb 0)) s in
      (s, e0 ++ e1)
  end.

Definition uc_helper_backdoor_read (addr : Z) (length : nat) (s : sysmod)
    : option (sysmod * list sys_event) :=
  match dev_tag "memory" s with
  | (None, e) => Some (s, e)
  | (Some _, _) =>
      '(s, data) ← tag_backdoor_read "memory" addr length data8 s;
      Some (s, [SyTrickboxMem addr length (take 8 data) strb8])
  end.

Definition tboxtrig_updatemem (addr data : Z) (s : sysmod) : option sysmod :=
  tag_backdoor_write "trickbox" addr 8 (le_bytes 8 data) strb8 s.

(** [store_dm_rand]; [rand_values h] are the (type, physical address) pairs the
    reference simulator selects for hart [h]. *)
Definition by_type (vals : list (Z * Z)) : list Z :=
  (snd <$> filter (λ v, v.1 = 0) vals) ++ (snd <$> filter (λ v, v.1 = 1) vals) ++
  (snd <$> filter (λ v, v.1 ≠ 0 ∧ v.1 ≠ 1) vals).
Fixpoint store_words (vals : list Z) (addr : Z) (s : sysmod) : option sysmod :=
  match vals with
  | [] => Some s
  | v :: vals' =>
      s ← tag_backdoor_write "trickbox" addr 8 (le_bytes 8 v) strb8 s;
      store_words vals' (u64 (addr + 8)) s
  end.
Fixpoint store_dm_rand_from (rand_values : nat → list (Z * Z)) (n h : nat) (s : sysmod)
    : option sysmod :=
  match n with
  | O => Some s
  | S n' =>
      s ← store_words (by_type (rand_values h)) (u64 (sf_dm_rand_addr fl + Z.of_nat h * 0x40)) s;
      store_dm_rand_from rand_values n' (S h) s
  end.
Definition store_dm_rand (rand_values : nat → list (Z * Z)) (s : sysmod) : option sysmod :=
  store_dm_rand_from rand_values (sf_num_harts fl) 0 s.

(** The handler of [whisper_connected]. *)
Definition whisper_connected (rand_values : nat → list (Z * Z)) (s : sysmod) : option sysmod :=
  s ← store_dm_rand rand_values s;
  Some (s <| sy_cosim_init := true |>).

(** ** Forwarding to the simulation *)

Definition timer_interrupt (hart : Z) (flag : bool) (mtime : Z) : list sys_event :=
  [SyTimer hart flag mtime].
Definition sw_interrupt (hart : Z) (flag : bool) : list sys_event := [SySoft hart flag].
Definition dmi_write (upper lower : Z) : list sys_event := [SyDmi upper lower].
Definition debug_req (hart set : Z) : list sys_event := [SyDebugReq hart set].
Definition terminate (low_priority_based : bool) : list sys_event :=
  SyTerminateFast :: SyTerminateCalled low_priority_based ::
  (if sf_terminate fl then [SyTerminateSim] else []).
Definition actual_test_started : list sys_event := [SyTestStart].

(** ** Uninitialised memory

    [slice x hi lo] is the bit-field helper of the framework. *)
Section uninit.
Variable slice : Z → Z → Z → Z.
Variable rng : nat → Z.
Variable poke_batch : Z → list Z → bool * bool.

Inductive uninit_cb := CbNone | CbRandom | CbPattern.

Definition configure_uninit_read_callbacks : uninit_cb * list sys_event :=
  if negb (sf_mem_random fl) && (sf_mem_default_64 fl =? 0) then (CbNone, [])
  else
    let modes_enabled := (if sf_mem_random fl then 1 else 0) +
                         (if sf_mem_default_64 fl =? 0 then 0 else 1) in
    if 1 <? modes_enabled then (CbNone, [SyError])
    else if sf_mem_random fl then (CbRandom, [])
    else (CbPattern, []).

Definition pattern_byte (addr : Z) (i : nat) : Z :=
  let aligned_offset := slice (u64 (addr + Z.of_nat i)) 2 0 * 8 in
  u8 (slice (sf_mem_default_64 fl) (aligned_offset + 7) aligned_offset).
Definition pattern_data (addr : Z) (size : nat) : list Z := pattern_byte addr <$> seq 0 size.

Definition poke_mem_batch (addr : Z) (data : list Z) : list sys_event :=
  if sf_cosim fl then
    let '(returned, valid) := poke_batch addr data in
    SyPokeBatch addr data ::
    (if (negb returned || negb valid) && sf_whisper_client_check fl then [SyError] else [])
  else [].

(** The callback on a read of [size] uninitialised bytes; [pos] random bytes
    have been drawn. *)
Definition uninit_read (cb : uninit_cb) (pos : nat) (addr : Z) (size : nat)
    : option (list Z * nat * list sys_event) :=
  match cb with
  | CbNone => None
  | CbRandom =>
      let data := rng <$> seq pos size in Some (data, (pos + size)%nat, poke_mem_batch addr data)
  | CbPattern =>
      let data := pattern_data addr size in Some (data, pos, poke_mem_batch addr data)
  end.
End uninit.
End backdoor.

(** ** Loading images

    [init_*] are the loaders of [sysmod_mem] (Mem.init_elf, Mem.init_load)
    applied to a path, with whether they succeeded; [is_mem] tells whether
    [dynamic_cast<sysmod_mem&>] succeeds on a device. *)
Section load.
Context {J M D : Type} `{Device M D}.
Variable is_mem : D → bool.
Variable init_elf_file init_hex_file : string → M → bool * M.
Variable init_lz4_file init_bin_file : string → Z → M → bool * M.
Notation sysmod := (sysmod J M D).

(** The image loader of the memory device [tag], with the error report of its
    callers when there is no such device or the load fails; [None] is
    [std::bad_cast]. *)
Definition load_image (tag : string) (init : M → bool * M) (s : sysmod)
    : option (bool * sysmod * list sys_event) :=
  match dev_tag tag s with
  | (None, e) => Some (false, s, e ++ [SyError])
  | (Some n, _) =>
      d ← sy_all s !! n;
      if is_mem d then
        let '(ok, m) := init (sy_mem s) in
        Some (ok, s <| sy_mem := m |>, if ok then [] else [SyError])
      else None
  end.

(** [bin_load]: [file:offset]; [None] also when [std::stoull] throws. *)
Definition bin_load (load : string) (lz4_compressed : bool) (s : sysmod)
    : option (bool * sysmod * list sys_event) :=
  '(file, offset) ←
    match split_first ":"%char load with
    | Some (file, offset_str) => o ← stoull 0 offset_str; Some (file, o)
    | None => Some (load, 0)
    end;
  load_image "memory"
    (if lz4_compressed then init_lz4_file file offset else init_bin_file file offset) s.

Fixpoint parse_bin (files : list string) (lz4_compressed : bool) (s : sysmod)
    : option (sysmod * list sys_event) :=
  match files with
  | [] => Some (s, [])
  | f :: files' =>
      '(ok, s, e1) ← bin_load f lz4_compressed s;
      if (ok : bool) then '(s, e2) ← parse_bin files' lz4_compressed s; Some (s, e1 ++ e2)
      else Some (s, e1)
  end.

(** A step of [load_prog] that is skipped for an empty flag. *)
Definition load_flag (flag : string) (step : sysmod → option (bool * sysmod * list sys_event))
    (s : sysmod) : option (bool * sysmod * list sys_event) :=
  if String.eqb flag EmptyString then Some (true, s, []) else step s.

Definition load_bins (flag : string) (lz4_compressed : bool) (s : sysmod)
    : option (sysmod * list sys_event) :=
  if String.eqb flag EmptyString then Some (s, [])
  else parse_bin (getline_while_good ","%char flag) lz4_compressed s.

Definition load_prog (hex load lz4 bin : string) (s : sysmod)
    : option (sysmod * list sys_event) :=
  match list_find (λ e, me_type e.2 = "memory") (sy_memmap s) with
  | None => Some (s, [SyError])
  | Some (_, e) =>
      let tag := me_tag e.2 in
      '(ok, s, e1) ← load_flag load (load_image tag (init_elf_file load)) s;
      if negb ok then Some (s, e1)
      else
        '(ok, s, e2) ← load_flag hex (load_image tag (init_hex_file hex)) s;
        if negb ok then Some (s, e1 ++ e2)
        else
          '(s, e3) ← load_bins lz4 true s;
          '(s, e4) ← load_bins bin false s;
          Some (s, e1 ++ e2 ++ e3 ++ e4)
  end.

Record load_flags := Load_flags {
  lf_hex : string;
  lf_load : string;
  lf_lz4 : string;
  lf_bin : string;
  lf_whisper_loadfrom : string;
  lf_io : string;
  lf_bootrom : bool;
  lf_bootrom_path : string;
  lf_debugrom : bool;
  lf_debugrom_path : string;
  lf_cplfw : bool;
  lf_cplfw_path : string;
  lf_secure_region : string
}.

(** The handler of [m_rvfi], connected once per memory map entry. *)
Definition load_prog_easy (lf : load_flags) (init_jalr_seen : bool) (s : sysmod)
    : option (sysmod * list sys_event) :=
  if negb (String.eqb (lf_whisper_loadfrom lf) EmptyString) && init_jalr_seen &&
     negb (sy_prog_loaded s)
  then
    '(s, e) ← load_prog (lf_hex lf) (lf_load lf) (lf_lz4 lf) (lf_bin lf) s;
    Some (s <| sy_prog_loaded := true |>, e)
  else Some (s, []).

(** [path.substr(path.length() - 3)], which throws on a shorter path. *)
Definition suffix3 (path : string) : option string :=
  if (3 <=? String.length path)%nat then Some (String.substring (String.length path - 3) 3 path) else None.

(** The common body of [load_boot], [load_debugrom] and [load_cplfw]. *)
Definition load_object (en : bool) (path tag : string) (s : sysmod)
    : option (sysmod * list sys_event) :=
  if en && negb (String.eqb path EmptyString) then
    ext ← suffix3 path;
    if String.eqb ext "elf" then
      '(_, s, e) ← load_image tag (init_elf_file path) s; Some (s, e)
    else if String.eqb ext "hex" then
      '(_, s, e) ← load_image tag (init_hex_file path) s; Some (s, e)
    else Some (s, [])
  else Some (s, []).
Definition load_boot (lf : load_flags) : sysmod → option (sysmod * list sys_event) :=
  load_object (lf_bootrom lf) (lf_bootrom_path lf) "boot".
Definition load_debugrom (lf : load_flags) : sysmod → option (sysmod * list sys_event) :=
  load_object (lf_debugrom lf) (lf_debugrom_path lf) "dm".
Definition load_cplfw (lf : load_flags) : sysmod → option (sysmod * list sys_event) :=
  load_object (lf_cplfw lf) (lf_cplfw_path lf) "memory".

(** [load_io]: [tag:offset] items copy eight bytes of memory into a device.
    The result tells whether the loop ran to its end. *)
Definition load_io_item (item : string) (s : sysmod) : option (bool * sysmod * list sys_event) :=
  match split_first ":"%char item with
  | None => Some (true, s, [])
  | Some (tag, offset_str) =>
      offset ← stoull 16 offset_str;
      match dev_tag "memory" s, dev_tag tag s with
      | (None, e), _ | _, (None, e) => Some (false, s, e)
      | (Some _, _), (Some n, _) =>
          d ← sy_all s !! n;
          let a := u64 (dbase (dev_id d) + offset) in
          '(s, data) ← tag_backdoor_read "memory" a 8 data8 s;
          s ← tag_backdoor_write tag a 8 data strb8 s;
          Some (true, s, [])
      end
  end.
Fixpoint load_io_items (items : list string) (s : sysmod) : option (sysmod * list sys_event) :=
  match items with
  | [] => Some (s, [])
  | i :: items' =>
      '(ok, s, e1) ← load_io_item i s;
      if (ok : bool) then '(s, e2) ← load_io_items items' s; Some (s, e1 ++ e2) else Some (s, e1)
  end.
Definition load_io (io : string) (s : sysmod) : option (sysmod * list sys_event) :=
  if String.eqb io EmptyString then Some (s, [])
  else load_io_items (getline_while_good ","%char io) s.

Definition set_secure_region (region : string) (s : sysmod) : option sysmod :=
  if String.eqb region EmptyString then Some s
  else
    let s := s <| sy_stee := true |> in
    let secure_region := split_string region ":" in
    start ← secure_region !! 0%nat ≫= stoull 0;
    end_ ← secure_region !! 1%nat ≫= stoull 0;
    Some (s <| sy_secure_start := start |> <| sy_secure_end := end_ |>).

(** [reset]; [compose] rebuilds the devices (Compose.v). *)
Definition sysmod_reset (compose : sysmod → sysmod * list sys_event) (lf : load_flags) (s : sysmod)
    : option (sysmod * list sys_event) :=
  let '(s, e0) := compose s in
  '(s, e1) ← load_io (lf_io lf) s;
  '(s, e2) ← load_prog (lf_hex lf) (lf_load lf) (lf_lz4 lf) (lf_bin lf) s;
  '(s, e3) ← load_boot lf s;
  '(s, e4) ← load_debugrom lf s;
  '(s, e5) ← load_cplfw lf s;
  s ← set_secure_region (lf_secure_region lf) s;
  Some (s, e0 ++ e1 ++ e2 ++ e3 ++ e4 ++ e5).
End load.

(** ** Decoding and routing *)

Section routing.
Context {J M D : Type} `{DeviceLaws M D}.
Implicit Types s : sysmod J M D.

Lemma set_all_all l s : length l = length (sy_all s) → sy_all (set_all l s) = l.
Proof. intros _. unfold sy_all, set_all. apply take_drop. Qed.

Lemma set_all_id s : set_all (sy_all s) s = s.
Proof.
  destruct s. unfold set_all, sy_all, modify. simpl.
  by rewrite take_app_length, drop_app_length.
Qed.

Lemma find_index_Some (pred : D → bool) l n :
  find_index pred l = Some n → ∃ d, l !! n = Some d ∧ pred d = true.
Proof.
  revert n; induction l as [|d l IH]; intros n; simpl; [done|].
  destruct (pred d) eqn:E; [intros [= <-]; by exists d|].
  destruct (find_index pred l); [|done]. intros [= <-]. by apply IH.
Qed.

Lemma find_index_None (pred : D → bool) l :
  find_index pred l = None ↔ ∀ n d, l !! n = Some d → pred d = false.
Proof.
  induction l as [|d l IH]; simpl; [by split|]. destruct (pred d) eqn:E.
  - split; [done|]. intros Hn. specialize (Hn 0%nat d eq_refl). congruence.
  - destruct (find_index pred l); simpl.
    + split; [done|]. intros Hn. destruct IH as [_ IH]. discriminate IH.
      intros k x Hx. by apply (Hn (S k)).
    + split; [|done]. intros _ [|n] x Hx; [by simplify_eq/=|]. by apply (proj1 IH eq_refl n).
Qed.

Lemma each_none (h : D * M → (D * M) * list event) l m :
  (∀ (j : nat) e m', l !! j = Some e → h (e, m') = ((e, m'), [])) → each h l m = (l, m, []).
Proof.
  revert m; induction l as [|x l IH]; intros m Hm; simpl; [done|].
  rewrite (Hm 0%nat) by done. rewrite IH; [done|]. intros j e m'. apply (Hm (S j)).
Qed.

(** A message only one device reacts to. *)
Lemma each_unique (h : D * M → (D * M) * list event) l m n d :
  l !! n = Some d →
  (∀ j e m', j ≠ n → l !! j = Some e → h (e, m') = ((e, m'), [])) →
  each h l m = let '((d', m'), evs) := h (d, m) in (<[n := d']> l, m', evs).
Proof.
  revert m n; induction l as [|x l IH]; intros m n Hn Hm; [done|].
  destruct n as [|n]; simplify_eq/=.
  - destruct (h (d, m)) as [[d' m'] evs]. rewrite each_none; [by rewrite app_nil_r|].
    intros j e m''. by apply (Hm (S j)).
  - rewrite (Hm 0%nat) by done. rewrite (IH m n Hn).
    + by destruct (h (d, m)) as [[d' m'] evs].
    + intros j e m' Hj. apply (Hm (S j)). lia.
Qed.

(** At most one device decodes any address; the fallback decodes none. *)
Definition unique_decode s : Prop :=
  ∀ v i j d e, sy_all s !! i = Some d → sy_all s !! j = Some e →
    has_addr (dev_id d) v = true → has_addr (dev_id e) v = true → i = j.
Definition fallback_empty s : Prop :=
  ∀ f v, sy_fallback s = Some f → has_addr (dev_id f) v = false.
Definition id_ok (i : device_id) : Prop := is_u64 (dbase i) ∧ is_u64 (dsize i).
Definition tags (l : list D) : list string := (λ d, dtag (dev_id d)) <$> l.

(** The invariant of the device table. *)
Record sys_inv s : Prop := {
  inv_decode : unique_decode s;
  inv_tags : NoDup (tags (sy_all s));
  inv_ids : Forall (λ d, id_ok (dev_id d)) (sy_all s);
  inv_fallback : fallback_empty s
}.

Lemma empty_window i v : id_ok i → dsize i = 0 → has_addr i v = false.
Proof.
  intros [Hb _] Hs. unfold has_addr. rewrite Hs, Z.add_0_r, u64_small by done.
  destruct (dbase i <=? v) eqn:E; [|done]. zbool. apply Z.ltb_ge. lia.
Qed.

Lemma decoded_nonempty i v : id_ok i → has_addr i v = true → 0 < dsize i.
Proof.
  intros Hi Hv. destruct (decide (dsize i = 0)) as [E|E].
  - by rewrite empty_window in Hv.
  - destruct Hi as [_ [??]]. lia.
Qed.

(** Replacing a device by one with the same identity. *)
Lemma lookup_same_id (l : list D) n d d' j e :
  l !! n = Some d → dev_id d' = dev_id d → <[n := d']> l !! j = Some e →
  ∃ e', l !! j = Some e' ∧ dev_id e' = dev_id e.
Proof.
  intros Hn Hid He. destruct (decide (j = n)) as [->|Hj].
  - rewrite list_lookup_insert_eq in He by (by eapply lookup_lt_Some). simplify_eq. by exists d.
  - rewrite list_lookup_insert_ne in He by done. by exists e.
Qed.

Lemma sys_inv_update s n d d' m :
  sys_inv s → sy_all s !! n = Some d → dev_id d' = dev_id d →
  sys_inv (set_all (<[n := d']> (sy_all s)) (s <| sy_mem := m |>)).
Proof.
  intros [Hd Ht Hi Hf] Hn Hid.
  assert (sy_all (set_all (<[n := d']> (sy_all s)) (s <| sy_mem := m |>)) = <[n := d']> (sy_all s))
    as Ha by (apply set_all_all; by rewrite length_insert).
  split.
  - intros v i j x y. rewrite Ha. intros Hx Hy Hvx Hvy.
    destruct (lookup_same_id _ _ _ _ _ _ Hn Hid Hx) as (x' & ? & Ex).
    destruct (lookup_same_id _ _ _ _ _ _ Hn Hid Hy) as (y' & ? & Ey).
    apply (Hd v i j x' y'); [done|done|by rewrite Ex|by rewrite Ey].
  - rewrite Ha. unfold tags. rewrite list_fmap_insert, list_insert_id; [done|].
    rewrite list_lookup_fmap, Hn. simpl. by rewrite Hid.
  - rewrite Ha. apply Forall_insert_pred; [done|]. rewrite Hid. by apply (Forall_lookup_1 _ _ _ _ Hi Hn).
  - exact Hf.
Qed.

Variable fl : sysmod_flags.

Lemma mask_addr_id a : is_u64 a → a &&& sf_pa_mask fl = 0 → mask_addr fl a = a.
Proof.
  intros Ha Hm. unfold mask_addr, not64. apply Z.bits_inj'. intros i Hi.
  rewrite Z.land_spec, Z.lxor_spec.
  assert (Z.testbit (a &&& sf_pa_mask fl) i = false) as Hb by (rewrite Hm; apply Z.bits_0).
  rewrite Z.land_spec in Hb. destruct (decide (i < 64)).
  - rewrite Z.ones_spec_low by lia.
    destruct (Z.testbit a i), (Z.testbit (sf_pa_mask fl) i); done.
  - by rewrite (testbit_above a 64 i) by (unfold is_u64 in *; lia).
Qed.

(** The address [dev] decodes is the one that is forwarded. *)
Definition decodes_masked s addr : Prop := sy_stee s = true ∨ addr &&& sf_pa_mask fl = 0.

Lemma dev_addr_masked s addr :
  is_u64 addr → decodes_masked s addr →
  dev_addr fl addr s =
    match find_device (λ d, has_addr (dev_id d) (mask_addr fl addr)) s with
    | Some n => (Some (RDev n), [])
    | None => ((λ _, RFallback) <$> sy_fallback s, [SyError])
    end.
Proof.
  intros Ha Hd. unfold dev_addr. destruct (addr &&& sf_pa_mask fl =? 0) eqn:E; zbool; simpl negb.
  - rewrite (mask_addr_id addr Ha E). by destruct (sy_stee s).
  - destruct Hd as [->|Hd]; [done|]. contradiction.
Qed.

(** A decoded address finds its device. *)
Lemma find_decoded s n d v :
  unique_decode s → sy_all s !! n = Some d → has_addr (dev_id d) v = true →
  find_device (λ x, has_addr (dev_id x) v) s = Some n.
Proof.
  intros Hu Hn Hv. unfold find_device. destruct (find_index _ _) as [k|] eqn:E.
  - apply find_index_Some in E as (e & He & Hev). f_equal. by eapply Hu.
  - rewrite find_index_None in E. specialize (E n d Hn). simpl in E. congruence.
Qed.

(** Signalling a message filtered by the window reaches the decoding device
    alone. *)
Lemma signal_decoded (h : D * M → (D * M) * list event) s n d v :
  sys_inv s → sy_all s !! n = Some d → has_addr (dev_id d) v = true →
  (∀ e m, has_addr (dev_id e) v = false → h (e, m) = ((e, m), [])) →
  signal_device h s =
    let '((d', m'), evs) := h (d, sy_mem s) in
    (set_all (<[n := d']> (sy_all s)) (s <| sy_mem := m' |>), SyDev <$> evs).
Proof.
  intros [Hu _ _ Hf] Hn Hv Hh. unfold signal_device, for_each_device.
  rewrite (each_unique h _ _ n d Hn).
  - destruct (h (d, sy_mem s)) as [[d' m'] evs]. simpl.
    destruct (sy_fallback s) as [f|] eqn:Ef; [|done].
    rewrite (Hh f m') by (by apply Hf). f_equal; [|by rewrite app_nil_r].
    destruct s. unfold set_all, modify. simpl in *. by rewrite Ef.
  - intros j e m' Hj He. apply Hh. destruct (has_addr (dev_id e) v) eqn:Ev; [|done].
    destruct Hj. by eapply Hu.
Qed.
End routing.

(** *** A concrete system *)

Definition sample_sf : sysmod_flags :=
  Sysmod_flags 0x0080000000000000 100 true true true false 0x1122334455667788 true 1 0x9080500.
Definition sample_sys : sysmod unit (gmap Z Z) sysmod_mem :=
  Sysmod [Sysmod_mem (Device_id "memory" 0x1000 0x1000)] [Sysmod_mem (Device_id "boot" 0x8000 0x100)]
    (Some (Sysmod_mem (Device_id "fallback_null_dev" 0 0)))
    [("ext", Memmap_entry unit "9000" 0x9000 0x100 "external" "ext" 0x90ff tt)]
    0 0 0 true true 0 0 false ∅.

Lemma sample_sys_inv : sys_inv sample_sys.
Proof.
  split.
  - intros v i j d e. rewrite !has_addr_true.
    destruct i as [|[|i]]; destruct j as [|[|j]]; try done; intros [= <-] [= <-];
      rewrite !u64_small by (split; simpl; lia); simpl; lia.
  - apply NoDup_cons. split; [|apply NoDup_singleton]. intros Hin. vm_compute in Hin.
    by apply list_elem_of_singleton in Hin.
  - repeat constructor; simpl; lia.
  - intros f v [= <-]. apply empty_window; [repeat constructor; simpl; lia|done].
Qed.

(** C1: bus writes reach exactly the addressed device: a write to an address
    that some device decodes (after the secure-world bit is removed) runs that
    device's handler alone, answers the requester once, last, with the
    write's id and OKAY, leaves every other device as it was, and keeps the
    device-table invariant. *)
Theorem sysmod_routes_write {J M D} `{DeviceLaws M D} fl source w (s : sysmod J M D) n d :
  let a := mask_addr fl (w_addr w) in
  sys_inv s → is_u64 (w_addr w) → decodes_masked fl s (w_addr w) →
  sy_all s !! n = Some d → has_addr (dev_id d) a = true →
  let '((d', m'), evs) := dev_write (w <| w_addr := a |>) (d, sy_mem s) in
  let s' := set_all (<[n := d']> (sy_all s)) (s <| sy_mem := m' |>) in
  on_write fl source w s =
    (s', SyDev <$> (evs ++ [EvWriteResponse source (Write_response_t (w_id w) 0)])) ∧
  sys_inv s'.
Proof.
  intros a Hi Ha Hm Hn Hv. destruct (dev_write _ _) as [[d' m'] evs] eqn:Ew.
  pose proof (dev_write_id (w <| w_addr := a |>) d (sy_mem s)) as Hid. rewrite Ew in Hid.
  split; [|by eapply sys_inv_update].
  unfold on_write. rewrite dev_addr_masked by done. fold a.
  rewrite (find_decoded s n d a (inv_decode _ Hi) Hn Hv).
  rewrite (signal_decoded _ s n d a Hi Hn Hv) by (intros; by apply handle_write_miss).
  change (w <| w_addr ::= mask_addr fl |>) with (w <| w_addr := a |>).
  rewrite handle_write_hit by exact Hv. by rewrite Ew.
Qed.

Lemma sysmod_routes_write_witness :
  (on_write sample_sf 3 (Write_t 0x0080000000008010 1 [7] [true] 42) sample_sys).2 =
  [SyDev (EvWriteResponse 3 (Write_response_t 42 0))].
Proof.
  pose proof (sysmod_routes_write sample_sf 3 (Write_t 0x0080000000008010 1 [7] [true] 42)
    sample_sys 1 (Sysmod_mem (Device_id "boot" 0x8000 0x100)) sample_sys_inv) as W.
  destruct W as [W _]; [split; vm_compute; congruence|by left|done|done|].
  rewrite W. reflexivity.
Defined.

(** Bus reads are answered by the addressed device with its data: a read of
    a decoded address runs that device's read handler alone on a zeroed
    buffer and returns the buffer to the requester under the read's id. *)
Theorem sysmod_routes_read {J M D} `{DeviceLaws M D} fl source r (s : sysmod J M D) n d :
  let a := mask_addr fl (r_addr r) in
  sys_inv s → is_u64 (r_addr r) → decodes_masked fl s (r_addr r) →
  sy_all s !! n = Some d → has_addr (dev_id d) a = true →
  let '((d', m'), evs, data) :=
    dev_read (Read_t (r_id r) a (r_length r)) (replicate (r_length r) 0) (d, sy_mem s) in
  let s' := set_all (<[n := d']> (sy_all s)) (s <| sy_mem := m' |>) in
  on_read fl source r s =
    (s', SyDev <$> (evs ++ [EvReadResponse source (Read_response_t (r_id r) data 0)])) ∧
  sys_inv s'.
Proof.
  intros a Hi Ha Hm Hn Hv. destruct (dev_read _ _ _) as [[[d' m'] evs] data] eqn:Er.
  pose proof (dev_read_id (Read_t (r_id r) a (r_length r)) (replicate (r_length r) 0) d (sy_mem s))
    as Hid. rewrite Er in Hid.
  split; [|by eapply sys_inv_update].
  unfold on_read. rewrite dev_addr_masked by done. fold a.
  rewrite (find_decoded s n d a (inv_decode _ Hi) Hn Hv).
  rewrite (signal_decoded _ s n d a Hi Hn Hv).
  - rewrite handle_read_hit by done. simpl r_length. by rewrite Er.
  - intros e m He. unfold handle_read. simpl. by rewrite He.
Qed.

Lemma sysmod_routes_read_witness :
  (on_read sample_sf 3 (Read_t 9 0x1010 2) sample_sys).2 =
  [SyDev (EvReadResponse 3 (Read_response_t 9 [0; 0] 0))].
Proof.
  pose proof (sysmod_routes_read sample_sf 3 (Read_t 9 0x1010 2)
    sample_sys 0 (Sysmod_mem (Device_id "memory" 0x1000 0x1000)) sample_sys_inv) as W.
  destruct W as [W _]; [split; vm_compute; congruence|by left|done|done|].
  rewrite W. reflexivity.
Defined.

(** An unmapped access is reported but never answered: when no device
    decodes the address, the fallback device, whose window is empty, does not
    react either, so the requester waits for a response that never comes. *)
Theorem sysmod_unmapped_unanswered {J M D} `{DeviceLaws M D} fl source w (s : sysmod J M D) :
  sys_inv s → is_u64 (w_addr w) → decodes_masked fl s (w_addr w) →
  (∀ (n : nat) d, sy_all s !! n = Some d → has_addr (dev_id d) (mask_addr fl (w_addr w)) = false) →
  on_write fl source w s = (s, [SyError]).
Proof.
  intros Hi Ha Hm Hn. unfold on_write. rewrite dev_addr_masked by done.
  assert (find_device (λ d, has_addr (dev_id d) (mask_addr fl (w_addr w))) s = None) as ->
    by (by apply find_index_None).
  destruct (sy_fallback s) as [f|] eqn:Ef; [|done]. simpl fmap.
  unfold signal_device, for_each_device. rewrite each_none.
  - change (s <| sy_mem := sy_mem s |>) with (eta s).
    assert (eta s = s) as -> by (by destruct s).
    rewrite set_all_id, Ef. rewrite handle_write_miss by (by apply (inv_fallback _ Hi)).
    f_equal. destruct s; simpl in *. by rewrite <- Ef.
  - intros j e m He. apply handle_write_miss. by apply (Hn j).
Qed.

Lemma sysmod_unmapped_unanswered_witness :
  on_write sample_sf 3 (Write_t 0x5000 1 [7] [true] 42) sample_sys = (sample_sys, [SyError]).
Proof.
  apply (sysmod_unmapped_unanswered sample_sf 3 (Write_t 0x5000 1 [7] [true] 42) sample_sys).
  - apply sample_sys_inv.
  - split; vm_compute; congruence.
  - by left.
  - intros [|[|n]] d; try done; intros [= <-]; reflexivity.
Defined.

(** *** Registering devices *)

Definition add_devices {J M D} `{Device M D}
    (reqs : list (parse_outcome * list (string * memmap_entry J) * option D)) (s : sysmod J M D)
    : sysmod J M D :=
  foldl (λ s r, (add_device r.1 r.2 s).1) s reqs.

Section add_device.
Context {J M D : Type} `{Device M D}.
Implicit Types s : sysmod J M D.

Lemma sys_inv_snoc s d :
  sys_inv s → id_ok (dev_id d) →
  find_device (λ x, String.eqb (dtag (dev_id x)) (dtag (dev_id d))) s = None →
  (∀ (j : nat) x v, sy_all s !! j = Some x → has_addr (dev_id x) v = true →
     has_addr (dev_id d) v = true → False) →
  sys_inv (s <| sy_external ::= λ l, l ++ [d] |>).
Proof.
  intros [Hu Ht Hi Hf] Hd Hfind Hno.
  assert (sy_all (s <| sy_external ::= λ l, l ++ [d] |>) = sy_all s ++ [d]) as Ha
    by (unfold sy_all, modify; simpl; by rewrite app_assoc).
  assert (∀ (n : nat) x, (sy_all s ++ [d]) !! n = Some x →
    sy_all s !! n = Some x ∨ (n = length (sy_all s) ∧ x = d)) as Hl.
  { intros n x [Hx|[Hl Hx]]%lookup_app_Some; [by left|]. right.
    apply list_lookup_singleton_Some in Hx as [? <-]. split; [lia|done]. }
  split.
  - intros v i j x y. rewrite Ha. intros [Hx|[-> ->]]%Hl [Hy|[-> ->]]%Hl Hvx Hvy;
      [by eapply Hu|destruct (Hno i x v)|destruct (Hno j y v)|]; done.
  - rewrite Ha. unfold tags. rewrite fmap_app. apply NoDup_app. split; [done|]. split.
    + intros t Hin Ht'. apply list_elem_of_singleton in Ht' as ->.
      apply list_elem_of_fmap in Hin as (x & Ex & [k Hk]%list_elem_of_lookup).
      unfold find_device in Hfind. rewrite find_index_None in Hfind.
      specialize (Hfind k x Hk). simpl in Hfind. by rewrite Ex, String.eqb_refl in Hfind.
    + apply NoDup_singleton.
  - rewrite Ha. apply Forall_app_2; [done|by constructor].
  - exact Hf.
Qed.

Lemma add_device_inv mm d s :
  sys_inv s → (∀ x, d = Some x → id_ok (dev_id x)) → sys_inv (add_device mm d s).1.
Proof.
  intros Hi Hd. unfold add_device. destruct d as [d|]; [|done]. specialize (Hd d eq_refl).
  destruct (find_device _ s) eqn:Et; [done|]. destruct mm as [o map].
  assert (sys_inv (s <| sy_memmap := map |>)) as Hi' by (by destruct Hi).
  destruct o as [[]| |]; try done.
  destruct (0 <? dsize (dev_id d)) eqn:Es.
  - destruct (existsb _ map); [|done]. simpl negb. cbn iota.
    destruct (find_device _ (s <| sy_memmap := map |>)) eqn:Ec; [done|].
    apply sys_inv_snoc; [done..|]. intros j x v Hx Hvx Hvd.
    unfold find_device in Ec. rewrite find_index_None in Ec. specialize (Ec j x Hx). simpl in Ec.
    assert (0 < dsize (dev_id x)) as Hsx.
    { eapply decoded_nonempty; [|done]. by apply (Forall_lookup_1 _ _ _ _ (inv_ids _ Hi) Hx). }
    apply has_addr_true in Hvx, Hvd.
    rewrite (proj2 (Z.ltb_lt 0 (dsize (dev_id x))) Hsx) in Ec.
    apply andb_false_iff in Ec as [Ec|Ec]; [simpl in Ec|]; zbool; lia.
  - zbool. apply sys_inv_snoc; [done..|]. intros j x v _ _ Hvd.
    pose proof (decoded_nonempty _ _ Hd Hvd). lia.
Qed.
End add_device.

(** Device registration keeps decoding unambiguous: whatever devices are
    offered to [add_device], in any order, after every registration at most
    one device decodes any address and tags stay distinct. *)
Theorem add_devices_inv {J M D} `{Device M D}
    (reqs : list (parse_outcome * list (string * memmap_entry J) * option D)) (s : sysmod J M D) :
  sys_inv s → Forall (λ r, ∀ x, r.2 = Some x → id_ok (dev_id x)) reqs → sys_inv (add_devices reqs s).
Proof.
  intros Hs Hr. revert s Hs. induction Hr as [|r reqs Hr _ IH]; intros s Hs; [done|].
  apply IH. by apply add_device_inv.
Qed.

Definition sample_reqs : list (parse_outcome * list (string * memmap_entry unit) * option sysmod_mem) :=
  [(MmReturn true, sy_memmap sample_sys, Some (Sysmod_mem (Device_id "a" 0x9000 0x40)));
   (MmReturn true, sy_memmap sample_sys, Some (Sysmod_mem (Device_id "b" 0x9020 0x40)));
   (MmReturn true, sy_memmap sample_sys, Some (Sysmod_mem (Device_id "c" 0x9040 0x40)))].

Lemma add_devices_inv_witness :
  sys_inv (add_devices sample_reqs sample_sys) ∧
  tags (sy_external (add_devices sample_reqs sample_sys)) = ["boot"; "a"; "c"].
Proof.
  split; [|vm_compute; reflexivity].
  apply (add_devices_inv sample_reqs sample_sys sample_sys_inv).
  repeat (constructor; [intros x [= <-]; repeat constructor; simpl; lia|]). constructor.
Defined.
