(* ===== verification/SysmodMem.v ===== *)
(** * SysmodMem: time, backdoor memory and reference memory of the system model

    Theorems about the operations of Sysmod.v that advance device time, access
    memory behind the bus, and keep the reference simulator's memory in step
    with it (src/sysmod/sysmod.cpp). *)

From S2P Require Import Prelude Bytes Cstd Device Memmap Mem Sysmod.

#[local] Open Scope string_scope.
#[local] Open Scope list_scope.
#[local] Open Scope Z_scope.

(** ** Time *)

Section ticks.
Context {J M D : Type} `{Device M D}.
Variable fl : sysmod_flags.
Implicit Types s : sysmod J M D.

Fixpoint tick_run (advs : list Z) s : option (sysmod J M D * list sys_event) :=
  match advs with
  | [] => Some (s, [])
  | a :: advs' =>
      '(s, e1) ← tick fl a s;
      '(s, e2) ← tick_run advs' s;
      Some (s, e1 ++ e2)
  end.

(** Each amount handed to every device in turn. *)
Fixpoint deliver (outs : list Z) s : sysmod J M D * list sys_event :=
  match outs with
  | [] => (s, [])
  | o :: outs' =>
      let '(s, e1) := for_each_device (tick_device s o) s in
      let '(s, e2) := deliver outs' s in
      (s, e1 ++ e2)
  end.

Lemma for_each_ticks f t s :
  for_each_device f (s <| sy_ticks := t |>) =
  ((for_each_device f s).1 <| sy_ticks := t |>, (for_each_device f s).2).
Proof. unfold for_each_device. simpl. by destruct (each f _ _) as [[l m] evs]. Qed.

Lemma for_each_keeps_ticks f s : sy_ticks (for_each_device f s).1 = sy_ticks s.
Proof. unfold for_each_device. by destruct (each f _ _) as [[l m] evs]. Qed.

Lemma deliver_ticks outs t s :
  deliver outs (s <| sy_ticks := t |>) =
  ((deliver outs s).1 <| sy_ticks := t |>, (deliver outs s).2).
Proof.
  revert s; induction outs as [|o outs IH]; intros s; [done|]. simpl.
  change (tick_device (s <| sy_ticks := t |>) o) with (tick_device s o).
  rewrite for_each_ticks. destruct (for_each_device _ s) as [s1 e1]. simpl.
  rewrite IH. by destruct (deliver outs s1).
Qed.

Lemma tick_advance_spec a t :
  0 < sf_tick_threshold fl → 0 ≤ a → 0 ≤ t → t + a < 2 ^ 64 →
  ∃ o r, tick_advance fl a t = Some (o, r) ∧ o + r = t + a ∧ 0 ≤ r < sf_tick_threshold fl ∧
    (sf_tick_threshold fl | o) ∧ 0 ≤ o.
Proof.
  intros Hth Ha Ht Hw. unfold tick_advance. rewrite u64_small by (split; lia).
  destruct (sf_tick_threshold fl <=? t + a) eqn:E; zbool.
  - rewrite (proj2 (Z.eqb_neq (sf_tick_threshold fl) 0)) by lia.
    pose proof (Z.mod_pos_bound (t + a) _ Hth).
    pose proof (Z.mod_le (t + a) (sf_tick_threshold fl)).
    eexists _, _. split; [done|]. split_and!; try lia.
    exists ((t + a) / sf_tick_threshold fl). rewrite (Z.div_mod (t + a) (sf_tick_threshold fl)) at 1; lia.
  - eexists _, _. split; [done|]. split_and!; try lia. exists 0. lia.
Qed.
End ticks.

(** No time is lost or invented: over any sequence of clock advances, the
    devices are ticked, every device with the same amounts, by non-zero
    multiples of the update threshold, and the amounts delivered plus the
    remainder kept in [ticks_] (less than one threshold) are the total
    advanced. *)
Theorem tick_conserves_time {J M D} `{Device M D} fl advs (s : sysmod J M D) :
  0 < sf_tick_threshold fl → Forall (λ a, 0 ≤ a) advs → 0 ≤ sy_ticks s < sf_tick_threshold fl →
  sy_ticks s + foldr Z.add 0 advs < 2 ^ 64 →
  ∃ outs rem,
    tick_run fl advs s = Some ((deliver outs s).1 <| sy_ticks := rem |>, (deliver outs s).2) ∧
    foldr Z.add 0 outs + rem = sy_ticks s + foldr Z.add 0 advs ∧
    0 ≤ rem < sf_tick_threshold fl ∧
    Forall (λ o, 0 < o ∧ (sf_tick_threshold fl | o)) outs.
Proof.
  intros Hth Ha. revert s. induction Ha as [|a advs Ha Has IH]; intros s Ht Hw; simpl in *.
  { exists [], (sy_ticks s). simpl. split_and!; [|lia|lia|lia|constructor].
    by destruct s. }
  assert (0 ≤ foldr Z.add 0 advs) as Hs by (clear -Has; induction Has; simpl; lia).
  destruct (tick_advance_spec fl a (sy_ticks s)) as (o & r & E & Hor & Hr & Hd & Ho); [lia..|].
  unfold tick. rewrite E. cbn [mbind option_bind].
  destruct (o =? 0) eqn:Eo; zbool.
  - destruct (IH (s <| sy_ticks := r |>)) as (outs & rem & Er & Hsum & Hrem & Hall); [done|simpl; lia|].
    exists outs, rem. cbn [mbind option_bind]. rewrite Er, deliver_ticks. simpl in Hsum.
    split_and!; [done|lia|lia|lia|done].
  - change (tick_device (s <| sy_ticks := r |>) o) with (tick_device s o).
    rewrite for_each_ticks. cbn [mbind option_bind].
    destruct (for_each_device (tick_device s o) s) as [s1 e1] eqn:E1. simpl fst. simpl snd.
    destruct (IH (s1 <| sy_ticks := r |>)) as (outs & rem & Er & Hsum & Hrem & Hall); [done|simpl; lia|].
    exists (o :: outs), rem. rewrite Er, deliver_ticks. simpl. rewrite E1.
    destruct (deliver outs s1) as [s2 e2]. simpl in *.
    split_and!; [done|lia|lia|lia|]. constructor; [split; [lia|done]|done].
Qed.

Lemma tick_conserves_time_witness :
  ∃ outs rem,
    tick_run sample_sf [60; 250; 30] sample_sys =
      Some ((deliver outs sample_sys).1 <| sy_ticks := rem |>, (deliver outs sample_sys).2) ∧
    foldr Z.add 0 outs + rem = 340.
Proof.
  destruct (tick_conserves_time sample_sf [60; 250; 30] sample_sys) as (outs & rem & E & Hs & _);
    [vm_compute; congruence|repeat constructor; lia|split; vm_compute; congruence
    |vm_compute; congruence|].
  exists outs, rem. split; [exact E|exact Hs].
Defined.

(** ** Memory behind the bus *)

Section memory.
Context {J M D : Type} `{Device M D} `{MemManagerLaws M}.
Implicit Types s : sysmod J M D.

(** A device whose backdoor is the shared store, as [sysmod_mem]. *)
Definition mem_like (d : D) : Prop :=
  (∀ a n bs ss m, dev_backdoor_write a n bs ss (d, m) = (d, write_strobed a 0 n bs ss m)) ∧
  (∀ a n bs m, dev_backdoor_read a n bs (d, m) =
     let '(m', b) := mm_read a n m in ((d, m'), b ++ drop n bs)).

Definition mem_backed s : Prop :=
  ∃ n d, (dev_tag "memory" s).1 = Some n ∧ sy_all s !! n = Some d ∧ mem_like d.

Lemma set_same_device s n d m :
  sy_all s !! n = Some d →
  set_all (<[n := d]> (sy_all s)) (s <| sy_mem := m |>) = s <| sy_mem := m |>.
Proof.
  intros Hn. rewrite list_insert_id by done.
  change (sy_all s) with (sy_all (s <| sy_mem := m |>)). apply set_all_id.
Qed.

Lemma memory_write a n bs ss s :
  mem_backed s →
  tag_backdoor_write "memory" a n bs ss s = Some (s <| sy_mem ::= write_strobed a 0 n bs ss |>).
Proof.
  intros (k & d & Ht & Hk & Hw & _). unfold tag_backdoor_write, on_tag. rewrite Ht.
  cbn [mbind option_bind]. rewrite Hk. cbn [mbind option_bind]. rewrite Hw.
  cbn [fmap option_fmap option_map fst]. by rewrite set_same_device.
Qed.

Definition peeks (a : Z) (n : nat) s : list Z := mm_peek (sy_mem s) <$> addrs a n.
Definition peek_word (a : Z) s : Z := le_value (peeks a 8 s).

Lemma length_addrs a n : length (addrs a n) = n.
Proof. unfold addrs. by rewrite length_fmap, length_seq. Qed.

Lemma peeks_u8 a n s : Forall is_u8 (peeks a n s).
Proof. apply Forall_fmap, Forall_forall. intros x _. apply mm_peek_u8. Qed.

Lemma length_peeks a n s : length (peeks a n s) = n.
Proof. unfold peeks. by rewrite length_fmap, length_addrs. Qed.

(** The stores differ at most in what reading may have allocated. *)
Definition same_memory s s' : Prop :=
  (∀ m, s <| sy_mem := m |> = s' <| sy_mem := m |>) ∧
  ∀ x, mm_peek (sy_mem s') x = mm_peek (sy_mem s) x.

Lemma memory_bytes a n bs s :
  mem_backed s →
  ∃ s', tag_backdoor_read "memory" a n bs s = Some (s', peeks a n s ++ drop n bs) ∧ same_memory s s'.
Proof.
  intros (k & d & Ht & Hk & _ & Hr). unfold tag_backdoor_read, on_tag. rewrite Ht.
  cbn [mbind option_bind]. rewrite Hk. cbn [mbind option_bind]. rewrite Hr.
  pose proof (mm_read_data (sy_mem s) a n) as Hd.
  pose proof (mm_read_keeps (sy_mem s) a n) as Hp.
  destruct (mm_read a n (sy_mem s)) as [m' b]. simpl in Hd, Hp.
  cbn [mbind option_bind]. rewrite set_same_device by done.
  exists (s <| sy_mem := m' |>). split; [by rewrite Hd|]. split; [done|exact Hp].
Qed.

Lemma memory_read a s :
  mem_backed s → ∃ s', memory_word a s = Some (s', peek_word a s) ∧ same_memory s s'.
Proof.
  intros Hm. destruct (memory_bytes a 8 data8 s Hm) as (s' & E & Hs). exists s'. split; [|done].
  unfold memory_word. rewrite E. cbn [mbind option_bind]. change (drop 8 data8) with (@nil Z).
  rewrite app_nil_r, deserializeInt_spec by (apply peeks_u8 || by rewrite length_peeks).
  unfold peek_word. rewrite take_ge by (rewrite length_peeks; lia). done.
Qed.

Lemma same_memory_backed s s' : same_memory s s' → mem_backed s → mem_backed s'.
Proof.
  intros [E _] (n & d & Ht & Hn & Hm). specialize (E (sy_mem s)).
  assert (sy_all s' = sy_all s) as Ea
    by (change (sy_all (s' <| sy_mem := sy_mem s |>) = sy_all (s <| sy_mem := sy_mem s |>)); by rewrite E).
  exists n, d. unfold dev_tag, find_device in *. by rewrite Ea.
Qed.

Lemma same_memory_trans s1 s2 s3 : same_memory s1 s2 → same_memory s2 s3 → same_memory s1 s3.
Proof. intros [E1 P1] [E2 P2]. split; intros; by rewrite ?E1, ?E2, ?P2, ?P1. Qed.

Lemma same_memory_word s s' a : same_memory s s' → peek_word a s' = peek_word a s.
Proof.
  intros [_ P]. unfold peek_word, peeks. f_equal. apply list_fmap_ext. intros _ x _. apply P.
Qed.

(** Bytes after a full-strobe write of [n] of the eight addressed bytes. *)
Lemma peeks_written a n bs ss s :
  Forall is_u8 bs → length bs = 8%nat → (n ≤ 8)%nat →
  (∀ i, (i < n)%nat → at_b ss i = true) →
  peeks a 8 (s <| sy_mem ::= write_strobed a 0 n bs ss |>) = take n bs ++ drop n (peeks a 8 s).
Proof.
  intros Hu Hl Hn Hs. apply list_eq. intros i.
  destruct (decide (i < 8)%nat) as [Hi|Hi].
  2: { rewrite !lookup_ge_None_2; [done| |]; rewrite ?length_app, ?length_take, ?length_drop, ?length_peeks; lia. }
  assert (∀ s', peeks a 8 s' !! i = Some (mm_peek (sy_mem s') (u64 (a + Z.of_nat i)))) as Hp.
  { intros s'. unfold peeks, addrs. rewrite !list_lookup_fmap, lookup_seq_lt by done. done. }
  rewrite Hp. unfold modify. cbn [sy_mem]. destruct (decide (i < n)%nat) as [Hin|Hin].
  - rewrite write_strobed_hit by (done || lia). rewrite Hs by done.
    rewrite lookup_app_l, lookup_take_lt by (rewrite ?length_take; lia).
    destruct (lookup_lt_is_Some_2 bs i) as [b Hb]; [lia|]. by rewrite Hb, (at_z_Some _ _ _ Hb).
  - rewrite write_strobed_miss by (done || (intros k Hk E; apply (u64_add_inj a i k 8) in E; lia)).
    rewrite lookup_app_r, length_take, lookup_drop by (rewrite length_take; lia).
    replace (n + (i - n `min` length bs))%nat with i by lia. by rewrite Hp.
Qed.
End memory.

Lemma sample_backed : mem_backed sample_sys.
Proof. exists 0%nat, (Sysmod_mem (Device_id "memory" 0x1000 0x1000)). by split_and!. Qed.

(** The backdoor reads back what it wrote: after a backdoor write of [n]
    bytes (at most eight), a backdoor read of the address returns a word whose
    low [n] bytes are the data's and whose other bytes are the old memory. *)
Theorem backdoor_roundtrip {J M D} `{Device M D} `{MemManagerLaws M} fl poke t (s : sysmod J M D) :
  let n := 8 * Z.of_nat (bw_size t) in
  mem_backed s → (bw_size t ≤ 8)%nat →
  ∃ s1 evs s2 v old s0,
    backdoor_read (bw_address t) s = Some (s0, old) ∧
    backdoor_write fl poke t s = Some (s1, evs) ∧
    backdoor_read (bw_address t) s1 = Some (s2, v) ∧
    v = bw_data t mod 2 ^ n + old / 2 ^ n * 2 ^ n.
Proof.
  intros n Hm Hs. set (a := bw_address t).
  destruct (memory_read a s Hm) as (s0 & E0 & _).
  unfold backdoor_write. rewrite memory_write by done. cbn [mbind option_bind].
  set (s1 := s <| sy_mem ::= _ |>).
  assert (mem_backed s1) as Hm1 by exact Hm.
  destruct (memory_read a s1 Hm1) as (s2 & E2 & _).
  eexists s1, _, s2, _, _, s0. split; [exact E0|]. split; [done|]. split; [exact E2|].
  unfold peek_word, s1. rewrite serializeInt_spec by (unfold data8; rewrite length_replicate; lia).
  rewrite peeks_written.
  - rewrite take_app_le, take_ge by (rewrite ?length_le_bytes; lia).
    pose proof (peeks_u8 a 8 s) as Hu.
    rewrite le_value_app, length_le_bytes, le_value_bytes by apply le_bytes_u8.
    fold n. f_equal. f_equal. apply le_value_drop; [done|]. rewrite length_peeks. done.
  - apply Forall_app_2; [apply le_bytes_u8|]. apply Forall_drop, Forall_replicate. done.
  - rewrite length_app, length_le_bytes, length_drop. unfold data8. rewrite length_replicate. lia.
  - done.
  - intros i Hi. apply at_b_Some. rewrite list_lookup_fmap, lookup_seq_lt by lia. simpl.
    f_equal. by apply Nat.ltb_lt.
Qed.

Lemma backdoor_roundtrip_witness :
  ∃ s1 evs s2 v old s0,
    backdoor_read 0x1008 sample_sys = Some (s0, old) ∧
    backdoor_write sample_sf (λ _ _ _, (true, true)) (Backdoor_write_t 0x1008 0xabcdef 2) sample_sys
      = Some (s1, evs) ∧
    backdoor_read 0x1008 s1 = Some (s2, v) ∧
    v = 0xabcdef mod 2 ^ 16 + old / 2 ^ 16 * 2 ^ 16.
Proof.
  apply (backdoor_roundtrip sample_sf (λ _ _ _, (true, true)) (Backdoor_write_t 0x1008 0xabcdef 2)
    sample_sys sample_backed).
  simpl. lia.
Defined.

(** ** Keeping the reference simulator's memory in step *)

Definition pokes (evs : list sys_event) : list (Z * Z * Z) :=
  omap (λ e, match e with SyPoke a n v => Some (a, n, v) | _ => None end) evs.

Lemma pokes_app e1 e2 : pokes (e1 ++ e2) = pokes e1 ++ pokes e2.
Proof. apply omap_app. Qed.

Section inval.
Context {J M D : Type} `{Device M D} `{MemManagerLaws M}.
Variable fl : sysmod_flags.
Variable poke : Z → Z → Z → bool * bool.
Implicit Types s : sysmod J M D.

Lemma pokes_poke_mem strict a n v : pokes (poke_mem fl poke strict a n v) = [(a, n, v)].
Proof. unfold poke_mem. destruct (poke a n v). by destruct (_ && _). Qed.

Definition line_word s (line off : Z) : Z * Z * Z :=
  (u64 (line + off * 8), 8, peek_word (u64 (line + off * 8)) s).

Lemma crsp_loop_pokes n off line s :
  mem_backed s →
  ∃ s' evs, crsp_loop fl poke n off line s = Some (s', evs) ∧ same_memory s s' ∧
    pokes evs = (λ k : nat, line_word s line (off + Z.of_nat k)) <$> seq 0 n.
Proof.
  revert off s; induction n as [|n IH]; intros off s Hm; simpl.
  { exists s, []. by split_and!. }
  destruct (memory_read (u64 (line + off * 8)) s Hm) as (s1 & -> & Hs1). cbn [mbind option_bind].
  destruct (IH (off + 1) s1) as (s2 & e2 & -> & Hs2 & Hp); [by eapply same_memory_backed|].
  cbn [mbind option_bind]. eexists s2, _. split; [done|].
  split; [by eapply same_memory_trans|].
  rewrite pokes_app, pokes_poke_mem, Hp. simpl. unfold line_word at 2.
  rewrite Z.add_0_r. f_equal. rewrite <- fmap_S_seq, <- list_fmap_compose.
  apply list_fmap_ext. intros _ k _. unfold line_word, compose.
  rewrite (same_memory_word s s1) by done.
  by replace (off + Z.of_nat (S k)) with (off + 1 + Z.of_nat k) by lia.
Qed.

(** Byte [i] of the mask is all ones when bit [i] of the byte mask is set. *)
Lemma read_bit_mask_byte m (i : nat) k :
  (i < 8)%nat → masked m i = true → 0 ≤ k < 8 →
  Z.testbit (read_bit_mask m) (8 * Z.of_nat i + k) = true.
Proof.
  intros Hi Hm Hk. unfold read_bit_mask.
  assert (∀ l x, Z.testbit x (8 * Z.of_nat i + k) = true ∨ i ∈ l →
    Z.testbit (foldl (λ x j, if masked m j then x ||| (0xff ≪ (8 * Z.of_nat j)) else x) x l)
      (8 * Z.of_nat i + k) = true) as Hfold.
  { clear Hi. intros l; induction l as [|j l IH]; intros x Hx; simpl.
    { destruct Hx as [?|Hx]; [done|]. by apply elem_of_nil in Hx. }
    apply IH. destruct Hx as [Hx|Hx].
    - left. destruct (masked m j); [|done]. by rewrite Z.lor_spec, Hx.
    - apply elem_of_cons in Hx as [->|Hx]; [left|by right]. rewrite Hm, Z.lor_spec.
      rewrite Z.shiftl_spec by lia. replace (8 * Z.of_nat j + k - 8 * Z.of_nat j) with k by lia.
      change 0xff with (Z.ones 8). by rewrite Z.ones_spec_low, orb_true_r by lia. }
  apply Hfold. right. apply elem_of_seq. lia.
Qed.

(** Words that agree under the mask agree on every byte of the mask. *)
Lemma masked_bytes_agree m x y (i : nat) :
  (i < 8)%nat → masked m i = true → x &&& read_bit_mask m = y &&& read_bit_mask m →
  (x ≫ (8 * Z.of_nat i)) mod 256 = (y ≫ (8 * Z.of_nat i)) mod 256.
Proof.
  intros Hi Hm E. change 256 with (2 ^ 8). rewrite <- !Z.land_ones by lia.
  apply Z.bits_inj'. intros k Hk. rewrite !Z.land_spec. destruct (decide (k < 8)).
  - rewrite Z.ones_spec_low, !andb_true_r, !Z.shiftr_spec by lia.
    replace (k + 8 * Z.of_nat i) with (8 * Z.of_nat i + k) by lia.
    apply (f_equal (λ z, Z.testbit z (8 * Z.of_nat i + k))) in E.
    by rewrite !Z.land_spec, read_bit_mask_byte, !andb_true_r in E by (done || lia).
  - by rewrite Z.ones_spec_high, !andb_false_r by lia.
Qed.

Lemma pokes_poke_bytes strict mask addr byte p :
  p ∈ pokes (poke_bytes fl poke strict mask addr byte) ↔
  ∃ i : nat, (i < 8)%nat ∧ masked mask i = true ∧ p = (u64 (addr + Z.of_nat i), 1, byte i).
Proof.
  unfold poke_bytes. assert (∀ l : list nat, p ∈ pokes (mjoin ((λ i, if masked mask i
    then poke_mem fl poke strict (u64 (addr + Z.of_nat i)) 1 (byte i) else []) <$> l)) ↔
    ∃ i, i ∈ l ∧ masked mask i = true ∧ p = (u64 (addr + Z.of_nat i), 1, byte i)) as ->.
  { intros l; induction l as [|j l IH]; simpl.
    - split; [by intros ?%elem_of_nil|]. by intros (i & ?%elem_of_nil & _).
    - rewrite pokes_app, elem_of_app, IH. destruct (masked mask j) eqn:E.
      + rewrite pokes_poke_mem, list_elem_of_singleton. split.
        * intros [->|(i & ? & ? & ?)]; [exists j|exists i]; split_and!; try done; by constructor.
        * intros (i & [->|Hi]%elem_of_cons & ? & ?); [by left|right; by exists i].
      + change (pokes []) with (@nil (Z * Z * Z)). split.
        * intros [?%elem_of_nil|(i & ? & ? & ?)]; [done|]. exists i. split_and!; try done. by constructor.
        * intros (i & [->|Hi]%elem_of_cons & ? & ?); [congruence|right; by exists i]. }
  split; intros (i & Hi & ?); exists i; (split; [|done]);
    [apply elem_of_seq in Hi|apply elem_of_seq]; lia.
Qed.
End inval.

(** A completed cache-block invalidate makes the reference see memory: the
    handler pokes the reference simulator with the eight consecutive words of
    the 64-byte line of the (unmasked) address, each with the memory's own
    contents, when the invalidate comes from the monitor the run uses, and
    with nothing otherwise; memory itself is unchanged. *)
Theorem inval_crsp_pokes_line {J M D} `{Device M D} `{MemManagerLaws M} fl poke address mcm
    (s : sysmod J M D) :
  mem_backed s →
  ∃ s' evs, store_inval_crsp fl poke address mcm s = Some (s', evs) ∧ same_memory s s' ∧
    pokes evs =
      if eqb mcm (sf_mcm fl) then
        (λ k : nat, let a := u64 (mask_addr fl address / 64 * 64 + Z.of_nat k * 8) in
           (a, 8, peek_word a s)) <$> seq 0 8
      else [].
Proof.
  intros Hm. unfold store_inval_crsp. destruct mcm, (sf_mcm fl) eqn:Ef; cbn [Bool.eqb andb negb];
    try (by exists s, []).
  all: destruct (crsp_loop_pokes fl poke 8 0 (line_of fl address) s Hm) as (s' & evs & E & Hs & Hp);
    exists s', evs; split_and!; [done|done|]; rewrite Hp; apply list_fmap_ext; intros _ k _;
    unfold line_word, line_of; rewrite Z.shiftl_mul_pow2, Z.shiftr_div_pow2 by lia; done.
Qed.

Lemma inval_crsp_pokes_line_witness :
  ∃ s' evs, store_inval_crsp sample_sf (λ _ _ _, (true, true)) 0x1234 true sample_sys = Some (s', evs) ∧
    length (pokes evs) = 8%nat.
Proof.
  destruct (inval_crsp_pokes_line sample_sf (λ _ _ _, (true, true)) 0x1234 true sample_sys
    sample_backed) as (s' & evs & E & _ & Hp).
  exists s', evs. split; [exact E|]. rewrite Hp. reflexivity.
Defined.

(** An invalidated load pokes the reference with the data the load saw and
    nothing else: the pokes are exactly the single bytes of the byte mask,
    each with the load's own byte, for an AMO always and for other loads
    when the masked load data agree with memory. *)
Theorem inval_load_pokes {J M D} `{Device M D} `{MemManagerLaws M} fl poke p (s : sysmod J M D) :
  let a := mask_addr fl (il_address p) in
  let m := read_bit_mask (il_size p) in
  mem_backed s →
  ∃ s' evs, store_inval_load fl poke p s = Some (s', evs) ∧ same_memory s s' ∧
    if il_amo p || (il_data p &&& m =? peek_word a s &&& m) then
      (∀ (i : nat), (i < 8)%nat → masked (il_size p) i = true →
         ∃ v, (u64 (a + Z.of_nat i), 1, v) ∈ pokes evs) ∧
      (∀ x, x ∈ pokes evs → ∃ (i : nat) v, (i < 8)%nat ∧ masked (il_size p) i = true ∧
         x = (u64 (a + Z.of_nat i), 1, v) ∧ v mod 256 = (il_data p ≫ (8 * Z.of_nat i)) mod 256)
    else pokes evs = [].
Proof.
  intros a m Hm. unfold store_inval_load. fold a m.
  destruct (memory_read a s Hm) as (s' & -> & Hs). cbn [mbind option_bind].
  eexists s', _. split; [done|]. split; [done|]. rewrite pokes_app.
  destruct (il_amo p); simpl orb; simpl negb.
  - rewrite andb_false_r. change (pokes []) with (@nil (Z * Z * Z)). rewrite app_nil_r.
    setoid_rewrite pokes_poke_bytes. split; [intros i Hi Hi'; eexists; by exists i|].
    intros x (i & Hi & Hi' & ->). exists i, ((il_data p ≫ (8 * Z.of_nat i)) &&& 0xff).
    split_and!; try done. rewrite land_ff. apply Z.mod_mod. lia.
  - rewrite andb_true_r. change (pokes []) with (@nil (Z * Z * Z)). rewrite app_nil_l.
    destruct (_ =? _) eqn:E; [|done]. zbool.
    setoid_rewrite pokes_poke_bytes. split; [intros i Hi Hi'; eexists; by exists i|].
    intros x (i & Hi & Hi' & ->). exists i, (peek_word a s ≫ (8 * Z.of_nat i)).
    split_and!; try done. symmetry. by apply (masked_bytes_agree (il_size p)).
Qed.

Lemma inval_load_pokes_witness :
  ∃ s' evs v,
    store_inval_load sample_sf (λ _ _ _, (true, true)) (Inval_load_s 0x1010 0xaabb 3 true) sample_sys
      = Some (s', evs) ∧ (0x1011, 1, v) ∈ pokes evs.
Proof.
  destruct (inval_load_pokes sample_sf (λ _ _ _, (true, true)) (Inval_load_s 0x1010 0xaabb 3 true)
    sample_sys sample_backed) as (s' & evs & E & _ & Hall & _).
  destruct (Hall 1%nat) as [v Hv]; [lia|reflexivity|]. exists s', evs, v. split; [exact E|exact Hv].
Defined.

(** ** Uninitialised memory *)

Lemma u64_mod8 x : u64 x mod 8 = x mod 8.
Proof.
  unfold u64. rewrite (Z.mod_eq x (2 ^ 64)) by lia.
  replace (x - 2 ^ 64 * (x / 2 ^ 64)) with (x + (- (2 ^ 61 * (x / 2 ^ 64))) * 8) by lia.
  apply Z.mod_add. lia.
Qed.

(** The default pattern does not depend on how memory is read: with the
    bit-field helper extracting the bits it is asked for, the bytes returned
    for uninitialised memory are those of the repeated 64-bit default, so an
    aligned doubleword reads as the default and a read split in two returns
    the same bytes. *)
Theorem uninit_pattern_consistent fl slice addr n k :
  (∀ x hi lo, slice x hi lo = (x ≫ lo) mod 2 ^ (hi - lo + 1)) →
  is_u64 (sf_mem_default_64 fl) →
  pattern_data fl slice addr (n + k) =
    pattern_data fl slice addr n ++ pattern_data fl slice (u64 (addr + Z.of_nat n)) k ∧
  (addr mod 8 = 0 → deserializeInt 8 (pattern_data fl slice addr 8) = sf_mem_default_64 fl).
Proof.
  intros Hs Hd.
  assert (∀ a i, pattern_byte fl slice a i =
    (sf_mem_default_64 fl ≫ (8 * ((a + Z.of_nat i) mod 8))) &&& 0xff) as Hb.
  { intros a i. unfold pattern_byte. rewrite !Hs, land_ff.
    rewrite Z.shiftr_0_r. change (2 ^ (2 - 0 + 1)) with 8. rewrite u64_mod8.
    replace ((a + Z.of_nat i) mod 8 * 8 + 7 - (a + Z.of_nat i) mod 8 * 8 + 1) with 8 by lia.
    unfold u8. rewrite Z.mod_mod by lia. by rewrite Z.mul_comm. }
  split.
  - unfold pattern_data. rewrite seq_app, fmap_app. f_equal.
    change (seq (0 + n) k) with (seq n k). rewrite <- (Nat.add_0_r n) at 1.
    rewrite <- (fmap_add_seq n 0 k), <- list_fmap_compose. apply list_fmap_ext. intros _ i _.
    unfold compose. rewrite !Hb. do 3 f_equal.
    rewrite <- (Zplus_mod_idemp_l (u64 _)), u64_mod8, Zplus_mod_idemp_l. f_equal. lia.
  - intros Ha. assert (pattern_data fl slice addr 8 = le_bytes 8 (sf_mem_default_64 fl)) as ->.
    { apply list_eq. intros i. unfold pattern_data. rewrite list_lookup_fmap.
      destruct (decide (i < 8)%nat) as [Hi|Hi].
      - rewrite lookup_seq_lt, le_bytes_lookup by done. simpl. rewrite Hb. do 3 f_equal.
        rewrite <- Zplus_mod_idemp_l, Ha. rewrite Z.mod_small; lia.
      - rewrite !lookup_ge_None_2; [done|rewrite length_le_bytes; lia|rewrite length_seq; lia]. }
    rewrite deserializeInt_spec by (rewrite ?length_le_bytes; auto with rvt).
    rewrite take_ge, le_value_bytes by (rewrite length_le_bytes; lia). by apply u64_small.
Qed.

Lemma uninit_pattern_consistent_witness :
  deserializeInt 8 (pattern_data sample_sf (λ x hi lo, (x ≫ lo) mod 2 ^ (hi - lo + 1)) 0x2000 8) =
  0x1122334455667788.
Proof.
  destruct (uninit_pattern_consistent sample_sf (λ x hi lo, (x ≫ lo) mod 2 ^ (hi - lo + 1))
    0x2000 0 0) as [_ Hp]; [reflexivity|split; vm_compute; congruence|].
  exact (Hp eq_refl).
Defined.
