(* ===== verification/AxiMst.v ===== *)
(** * AxiMst: the AXI manager (src/transactors/axi_sw/axi_sw_mst.h)

    [axi_sw_mst] turns read and write requests of the testbench into AXI
    transactions: it allocates transaction ids, queues address and data beats,
    pushes them into the hardware FIFOs while these have room, and returns
    the responses.

    The hardware side is seen through the read pointers it reports and the
    DPI pushes it receives.  Callbacks pushed on the registry run in order, so
    a push is an event.  [rng] is the random source; [ms_drawn] values have
    been taken from it. *)

From stdpp Require Import gmap.
From S2P Require Import Prelude Bytes Device Axi.

(** common/axi_seqids.hpp *)
Definition seqid_width : Z := 3.

Record mst_flags := Mst_flags {
  mf_allow_slverr_resp : bool;
  mf_allow_decerr_resp : bool;
  mf_rand_id_alloc : bool;
  mf_disable_seqid_alloc : bool;
  mf_greedy_queue : bool
}.

(** One hardware FIFO: its constants and the two pointers. *)
Record hw_q := Hw_q { q_max : Z; q_ptr_max : Z; q_rptr : Z; q_wptr : Z }.
#[export] Instance eta_hw_q : Eta hw_q := λ q, Hw_q (q_max q) (q_ptr_max q) (q_rptr q) (q_wptr q).

Inductive chan := AR | AW | W.
#[export] Instance chan_eq_dec : EqDecision chan.
Proof. solve_decision. Defined.

(** [std::variant<axi::a_t, axi::w_t>] *)
Inductive txn := TA (a : a_t) | TW (w : w_beat).
Definition chan_of (t : txn) : chan :=
  match t with TA a => if a_w a then AW else AR | TW _ => W end.

Record mst := Mst {
  ms_id_width : Z;
  ms_data_width : Z;
  ms_strb_width : Z;
  ms_ar : hw_q;
  ms_aw : hw_q;
  ms_w : hw_q;
  ms_ids : list bool;                     (* true: free *)
  ms_exp_err_rsp : list bool;
  ms_allow_decerr : list bool;
  ms_allow_slverr : list bool;
  ms_read_data : gmap Z (list Z);
  ms_txns : list txn;
  ms_read_bytes : Z;
  ms_write_bytes : Z;
  ms_drawn : nat;
  ms_locked : bool
}.
#[export] Instance eta_mst : Eta mst := λ s,
  Mst (ms_id_width s) (ms_data_width s) (ms_strb_width s) (ms_ar s) (ms_aw s) (ms_w s) (ms_ids s)
    (ms_exp_err_rsp s) (ms_allow_decerr s) (ms_allow_slverr s) (ms_read_data s) (ms_txns s)
    (ms_read_bytes s) (ms_write_bytes s) (ms_drawn s) (ms_locked s).

Inductive mst_event :=
| MsQueued (t : txn)                               (* transactions_.emplace_back *)
| MsAr (a : a_t)                                   (* DPI axi_sw_mst_ar *)
| MsAw (a : a_t) (atop : Z)                        (* DPI axi_sw_mst_aw *)
| MsW (w : w_beat) (strb : list Z)                 (* DPI axi_sw_mst_w_8/64 *)
| MsB (id resp : Z)                                (* axi::b_t *)
| MsR (id resp : Z) (data : list Z) (last : bool)  (* axi::r_t *)
| MsWriteResponse (r : write_response_t)
| MsReadResponse (r : read_response_t)
| MsError.

Definition mst_new (id_width data_width strb_width : Z) (ar_max ar_pmax aw_max aw_pmax w_max w_pmax : Z)
    : mst :=
  let n := Z.to_nat (2 ^ id_width) in
  Mst id_width data_width strb_width (Hw_q ar_max ar_pmax 0 ar_max) (Hw_q aw_max aw_pmax 0 aw_max)
    (Hw_q w_max w_pmax 0 w_max) (replicate n true) (replicate n false) (replicate n false)
    (replicate n false) ∅ [] 0 0 0 false.

(** The available burst sizes: [for (i = 1; i <= max_size; i *= 2)]; 32 steps
    reach every 32-bit size. *)
Fixpoint sizes_from (fuel : nat) (i max_size : Z) : list Z :=
  match fuel with
  | O => []
  | S f => if i <=? max_size then i :: sizes_from f (i * 2) max_size else []
  end.
Definition sizes (s : mst) : list Z := sizes_from 32 1 (ms_data_width s ≫ 3).

(** ** Transaction ids *)

Definition alloc_id (id : Z) (s : mst) : mst := s <| ms_ids ::= <[Z.to_nat id := false]> |>.
Definition used_id (id : Z) (s : mst) : bool := negb (at_b (ms_ids s) (Z.to_nat id)).
Definition free_id (id : Z) (s : mst) : mst := s <| ms_ids ::= <[Z.to_nat id := true]> |>.
Definition count_free_ids (s : mst) : nat := length (filter (λ b, b = true) (ms_ids s)).

Definition try_lock (s : mst) : bool * mst := (negb (ms_locked s), s <| ms_locked := true |>).
Definition lock_release (s : mst) : mst := s <| ms_locked := false |>.

Section mst.
Variable fl : mst_flags.
Variable rng : nat → Z.

(** [ids_start] and the number of ids of the window. *)
Definition id_window (seqid : Z) (s : mst) : nat * nat :=
  if mf_disable_seqid_alloc fl then (0%nat, length (ms_ids s))
  else (Z.to_nat (seqid ≪ (ms_id_width s - seqid_width)),
        (length (ms_ids s) / 2 ^ Z.to_nat seqid_width)%nat).

Definition valid_indices (seqid : Z) (s : mst) : list nat :=
  let '(start, n) := id_window seqid s in
  filter (λ i, at_b (ms_ids s) i = true) (seq start n).

Definition next_id (seqid : Z) (s : mst) : option Z * mst :=
  match valid_indices seqid s with
  | [] => (None, s)
  | (i0 :: _) as v =>
      let '(i, s) :=
        if mf_rand_id_alloc fl then
          let idx := (rng (ms_drawn s) mod Z.of_nat (length v)) &&& 0xffffff in
          (default 0%nat (v !! Z.to_nat idx), s <| ms_drawn ::= S |>)
        else (i0, s) in
      (Some (Z.of_nat i), s <| ms_ids ::= <[i := false]> |>)
  end.

(** ** Pushing to the hardware FIFOs *)

Definition q_full (q : hw_q) : bool :=
  q_max q <=? u64 (q_wptr q + q_ptr_max q - q_rptr q) mod q_ptr_max q.
Definition q_push (q : hw_q) : hw_q := q <| q_wptr ::= λ p, u32 ((p + 1) mod q_ptr_max q) |>.

(** [strb[i >> 3] |= arg.strb[i] << i % 8] *)
Definition pack_strb (strb : list bool) : list Z :=
  foldl (λ acc i, alter (λ x, u8 (x ||| (Z.b2z (at_b strb i) ≪ (Z.of_nat i mod 8)))) (i / 8)%nat acc)
    (replicate (S ((length strb - 1) / 8)) 0) (seq 0 (length strb)).

(** The value of the enumerator passed as AWATOP. *)
Definition atop_code (t : atop_transaction) : Z :=
  match t with
  | NON_ATOMIC => 0 | ATOMIC_STORE => 1 | ATOMIC_LOAD => 2 | ATOMIC_SWAP => 3 | ATOMIC_COMPARE => 4
  end.

(** The [push] visitor. *)
Definition push (t : txn) (s : mst) : bool * mst * list mst_event :=
  match t with
  | TA a =>
      let bytes := u64 (1 ≪ a_size a) in
      if negb (a_w a) then
        let s := s <| ms_read_bytes ::= λ n, u64 (n + bytes) |> in
        if negb (q_full (ms_ar s)) then (true, s <| ms_ar ::= q_push |>, [MsAr a])
        else (false, s, [])
      else
        let s := s <| ms_write_bytes ::= λ n, u64 (n + bytes) |> in
        if negb (q_full (ms_aw s)) then
          (true, s <| ms_aw ::= q_push |>, [MsAw a (atop_code (atop_txn (a_atop a)))])
        else (false, s, [])
  | TW w =>
      if negb (q_full (ms_w s)) then
        let s := s <| ms_w ::= q_push |> in
        if (length (wb_strb w) =? 0)%nat then (false, s, [MsError])
        else if negb (length (wb_strb w) =? length (wb_data w))%nat then (false, s, [MsError])
        else if (ms_data_width s =? 64) || (ms_data_width s =? 512) then
          (true, s, [MsW w (pack_strb (wb_strb w))])
        else (true, s, [MsError])
      else (false, s, [])
  end.

Fixpoint push_loop (q : list txn) (s : mst) : list txn * mst * list mst_event :=
  match q with
  | [] => ([], s, [])
  | t :: q' =>
      let '(r, s, e1) := push t s in
      if r then let '(rest, s, e2) := push_loop q' s in (rest, s, e1 ++ e2)
      else if negb (mf_greedy_queue fl) then (t :: q', s, e1)
      else let '(rest, s, e2) := push_loop q' s in (t :: rest, s, e1 ++ e2)
  end.
Definition push_transactions (s : mst) : mst * list mst_event :=
  let '(rest, s, evs) := push_loop (ms_txns s) s in (s <| ms_txns := rest |>, evs).

(** [transactions_.emplace_back(t)] for each of [ts], then [push_transactions]. *)
Definition queue_push (ts : list txn) (s : mst) : mst * list mst_event :=
  let '(s, evs) := push_transactions (s <| ms_txns ::= λ q, q ++ ts |>) in
  (s, (MsQueued <$> ts) ++ evs).

(** ** Responses *)

Definition bad_resp (id resp : Z) (s : mst) : bool :=
  let exp := at_b (ms_exp_err_rsp s) (Z.to_nat id) in
  used_id id s &&
  ((exp && (resp =? RESP_OKAY)) || (negb exp && negb (resp =? RESP_OKAY))) &&
  negb ((mf_allow_decerr_resp fl || at_b (ms_allow_decerr s) (Z.to_nat id)) && (resp =? RESP_DECERR)) &&
  negb ((mf_allow_slverr_resp fl || at_b (ms_allow_slverr s) (Z.to_nat id)) && (resp =? RESP_SLVERR)).

Definition process_b (id resp : Z) (s : mst) : mst * list mst_event :=
  if bad_resp id resp s then (s, [MsError])
  else
    let '(s, evs) := push_transactions (free_id id s) in
    (s, [MsB id resp; MsWriteResponse (Write_response_t id resp)] ++ evs).

Definition process_r (id resp : Z) (vdata : list Z) (last : bool) (s : mst)
    : mst * list mst_event :=
  if bad_resp id resp s then (s, [MsError])
  else
    let data := default [] (ms_read_data s !! id) ++ vdata in
    let s := s <| ms_read_data ::= <[id := data]> |> in
    let '(s, e1) :=
      if last then
        (free_id id s <| ms_read_data ::= <[id := []]> |>,
         [MsReadResponse (Read_response_t id data resp)])
      else (s, []) in
    let '(s, e2) := push_transactions s in
    (s, MsR id resp vdata last :: e1 ++ e2).

Definition process_ar_q (ptr : Z) (s : mst) : mst * list mst_event :=
  push_transactions (s <| ms_ar ::= λ q, q <| q_rptr := ptr |> |>).
Definition process_aw_q (ptr : Z) (s : mst) : mst * list mst_event :=
  push_transactions (s <| ms_aw ::= λ q, q <| q_rptr := ptr |> |>).
Definition process_w_q (ptr : Z) (s : mst) : mst * list mst_event :=
  push_transactions (s <| ms_w ::= λ q, q <| q_rptr := ptr |> |>).

Definition reset_ptrs (s : mst) : mst :=
  s <| ms_ar ::= λ q, q <| q_wptr := 0 |> |> <| ms_aw ::= λ q, q <| q_wptr := 0 |> |>
    <| ms_w ::= λ q, q <| q_wptr := 0 |> |>.

(** ** Requests *)

(** The expected responses recorded under the transaction's id. *)
Definition expect (a : a_t) (s : mst) : mst :=
  let i := Z.to_nat (a_id a) in
  s <| ms_exp_err_rsp ::= <[i := a_exp_err_rsp a]> |>
    <| ms_allow_decerr ::= <[i := a_allow_decerr_resp a]> |>
    <| ms_allow_slverr ::= <[i := a_allow_slverr_resp a]> |>.

Definition process_a (a : a_t) (s : mst) : mst * list mst_event :=
  if used_id (a_id a) s then (s, [MsError])
  else queue_push [TA a] (expect a (alloc_id (a_id a) s)).

Definition process_w (w : w_beat) (s : mst) : mst * list mst_event := queue_push [TW w] s.
Definition push_w (w : w_beat) (s : mst) : mst * list mst_event := queue_push [TW w] s.

Fixpoint ctz (fuel : nat) (x : Z) : Z :=
  match fuel with
  | O => 0
  | S f => if Z.odd x then 0 else 1 + ctz f (x / 2)
  end.

(** [a_wrapper]: the flag tells whether the address beat was built. *)
Definition a_wrapper (req_addr req_length : Z) (a : a_t) (alloc : bool) (s : mst)
    : bool * a_t * mst * list mst_event :=
  let a := a <| a_addr := req_addr |> <| a_burst := BURST_INCR |> <| a_atop := atop_of_raw 0 |>
             <| a_lock := false |> in
  let '(got, a, s) :=
    if alloc then
      match next_id (a_seqid a) s with
      | (Some id, s) => (true, a <| a_id := id |>, s)
      | (None, s) => (false, a, s)
      end
    else (true, a, s) in
  if negb got then (false, a, s, [])
  else if negb (a_addr a &&& not64 0xfff =? u64 (a_addr a + req_length - 1) &&& not64 0xfff)
  then (false, a, s, [MsError])
  else
    let found := bool_decide (req_length ∈ sizes s) in
    (true, a <| a_len := if found then 0 else u8 (req_length - 1) |>
             <| a_size := if found then ctz 32 req_length else 0 |>, s, []).

(** [axi::a_t a;] *)
Definition a_default (w : bool) : a_t :=
  A_t w 0 0 0 0 BURST_INCR false 0 0 0 0 (atop_of_raw 0) 0 false false false 0.

Definition apply_attr (attr : axi_attr_t) (a : a_t) : a_t :=
  a <| a_cache := at_cache attr |> <| a_prot := at_prot attr |> <| a_qos := at_qos attr |>
    <| a_region := at_region attr |> <| a_user := at_user attr |>.

Definition process_read_request (req : read_request_t) (s : mst) : mst * list mst_event :=
  let attr := rq_attr req in
  let a := a_default false <| a_exp_err_rsp := rq_exp_err_rsp req |> in
  let a := if at_is_manual_id attr then a <| a_id := at_manual_id attr |> else a in
  let '(ok, a, s, e0) :=
    a_wrapper (rq_addr req) (Z.of_nat (rq_length req)) a (negb (at_is_manual_id attr)) s in
  if negb ok then (s, e0)
  else
    let a := apply_attr attr a in
    let '(s, e1) := queue_push [TA a] (expect a s) in (s, e0 ++ e1).

(** One full-width write beat: payload bytes [src ..] on the lanes their
    addresses select. *)
Definition write_beat (req : write_request_t) (s : mst) (pow2size : nat) (beat : nat) (last : bool)
    : w_beat :=
  let bus_bytes := ms_data_width s ≫ 3 in
  let src := (pow2size * beat)%nat in
  let lane := Z.to_nat (u64 (wq_addr req + Z.of_nat src) mod bus_bytes) in
  let n := (pow2size `min` (length (wq_data req) - src))%nat in
  let '(data, strb) :=
    foldl (λ ds b, (<[(lane + b)%nat := at_z (wq_data req) (src + b)]> ds.1,
                    <[(lane + b)%nat := at_b (wq_strb req) (src + b)]> ds.2))
      (replicate (Z.to_nat bus_bytes) 0, replicate (Z.to_nat (ms_strb_width s)) false) (seq 0 n) in
  W_beat data strb (Z.b2z last).

Definition write_beats (req : write_request_t) (s : mst) (len size : Z) : list txn :=
  (λ beat, TW (write_beat req s (Z.to_nat (2 ^ size)) beat (Z.of_nat beat =? len)))
    <$> seq 0 (Z.to_nat (len + 1)).

(** [push_write_request]: the id of the transaction, if it was queued. *)
Definition push_write_request (req : write_request_t) (s : mst) : option Z * mst * list mst_event :=
  let attr := wq_attr req in
  let a := a_default true <| a_exp_err_rsp := wq_exp_err_rsp req |>
             <| a_allow_decerr_resp := wq_allow_decerr_resp req |> in
  let a := if at_is_manual_id attr then a <| a_id := at_manual_id attr |> else a in
  let '(ok, a, s, e0) :=
    a_wrapper (wq_addr req) (Z.of_nat (wq_length req)) a (negb (at_is_manual_id attr)) s in
  if negb ok then (None, s, e0)
  else
    let a := apply_attr attr a in
    let a := if negb (wq_size_override req =? 0) then a <| a_size := wq_size_override req |> else a in
    let '(s, e1) := queue_push (TA a :: write_beats req s (a_len a) (a_size a)) (expect a s) in
    (Some (a_id a), s, e0 ++ e1).

Definition process_write_request (req : write_request_t) (s : mst) : mst * list mst_event :=
  let '(_, s, evs) := push_write_request req s in (s, evs).

(** [push_a_no_id]: [a] is the transaction built from the [a_no_id_t]. *)
Definition push_a_no_id (aw : bool) (a : a_t) (manual_id : option Z) (s : mst)
    : option Z * mst * list mst_event :=
  let a := a <| a_w := aw |> in
  let '(id, s) :=
    match manual_id with
    | Some id => (Some id, s)
    | None => next_id (a_seqid a) s
    end in
  match id with
  | None => (None, s, [])
  | Some id =>
      let a := a <| a_id := id |> in
      let '(s, evs) := queue_push [TA a] (expect a s) in (Some id, s, evs)
  end.

(** ** Runs *)

Inductive mst_op :=
| OpB (id resp : Z)
| OpR (id resp : Z) (data : list Z) (last : bool)
| OpArQ (ptr : Z) | OpAwQ (ptr : Z) | OpWQ (ptr : Z)
| OpA (a : a_t)
| OpW (w : w_beat)
| OpRead (req : read_request_t)
| OpWrite (req : write_request_t)
| OpPushA (aw : bool) (a : a_t) (manual_id : option Z)
| OpReset.

Definition mst_step (o : mst_op) (s : mst) : mst * list mst_event :=
  match o with
  | OpB id resp => process_b id resp s
  | OpR id resp data last => process_r id resp data last s
  | OpArQ p => process_ar_q p s
  | OpAwQ p => process_aw_q p s
  | OpWQ p => process_w_q p s
  | OpA a => process_a a s
  | OpW w => process_w w s
  | OpRead req => process_read_request req s
  | OpWrite req => process_write_request req s
  | OpPushA aw a m => let '(_, s, evs) := push_a_no_id aw a m s in (s, evs)
  | OpReset => (reset_ptrs s, [])
  end.

Fixpoint mst_run (os : list mst_op) (s : mst) : mst * list mst_event :=
  match os with
  | [] => (s, [])
  | o :: os' =>
      let '(s, e1) := mst_step o s in
      let '(s, e2) := mst_run os' s in
      (s, e1 ++ e2)
  end.
End mst.

(** ** Order and flow control of the pushes *)

Definition q_of (c : chan) (s : mst) : hw_q :=
  match c with AR => ms_ar s | AW => ms_aw s | W => ms_w s end.
Definition on_chan (c : chan) (q : list txn) : list txn := filter (λ t, chan_of t = c) q.
Definition pushed (c : chan) (evs : list mst_event) : list txn :=
  on_chan c (omap (λ e, match e with
    | MsAr a => Some (TA a) | MsAw a _ => Some (TA a) | MsW w _ => Some (TW w) | _ => None
    end) evs).
Definition queued (c : chan) (evs : list mst_event) : list txn :=
  on_chan c (omap (λ e, match e with MsQueued t => Some t | _ => None end) evs).

Definition beat_wf (w : w_beat) : Prop :=
  length (wb_strb w) ≠ 0%nat ∧ length (wb_strb w) = length (wb_data w).
Definition txn_wf (t : txn) : Prop := match t with TA _ => True | TW w => beat_wf w end.
Definition widths_ok (s : mst) : Prop :=
  (ms_data_width s = 64 ∨ ms_data_width s = 512) ∧ ms_strb_width s = ms_data_width s / 8.

(** Slots taken in the FIFO as the manager sees it. *)
Definition occupancy (q : hw_q) : Z := u64 (q_wptr q + q_ptr_max q - q_rptr q) mod q_ptr_max q.
Definition q_ok (q : hw_q) : Prop :=
  0 ≤ q_max q < q_ptr_max q ∧ q_ptr_max q < 2 ^ 32 ∧
  0 ≤ q_rptr q < q_ptr_max q ∧ 0 ≤ q_wptr q < q_ptr_max q.

Lemma pushed_app c e1 e2 : pushed c (e1 ++ e2) = pushed c e1 ++ pushed c e2.
Proof. unfold pushed, on_chan. by rewrite omap_app, filter_app. Qed.
Lemma queued_app c e1 e2 : queued c (e1 ++ e2) = queued c e1 ++ queued c e2.
Proof. unfold queued, on_chan. by rewrite omap_app, filter_app. Qed.
Lemma on_chan_app c q1 q2 : on_chan c (q1 ++ q2) = on_chan c q1 ++ on_chan c q2.
Proof. apply filter_app. Qed.

Lemma occupancy_push q :
  q_ok q → q_full q = false → q_ok (q_push q) ∧ occupancy (q_push q) = occupancy q + 1.
Proof.
  destruct q as [mx pm r w]. intros ([? ?] & ? & ? & ?) Hf. unfold q_full in Hf. zbool. simpl in *.
  unfold q_push, occupancy, modify, q_ok. simpl.
  pose proof (Z.mod_pos_bound (w + 1) pm ltac:(lia)) as Hm.
  unfold u32. rewrite (Z.mod_small ((w + 1) mod pm)) by lia.
  unfold u64 in *. rewrite (Z.mod_small (w + pm - r)) in * by lia.
  rewrite (Z.mod_small ((w + 1) mod pm + pm - r)) by lia.
  split; [split_and!; lia|].
  assert (∀ a b, 0 ≤ b < pm → (∃ k, a = b + k * pm) → a mod pm = b) as Hmod.
  { intros a b Hb [k ->]. rewrite Z.mod_add by lia. by apply Z.mod_small. }
  destruct (decide (r ≤ w)).
  - rewrite (Hmod (w + pm - r) (w - r)) in Hf |- * by (lia || (exists 1; lia)).
    destruct (decide (w + 1 = pm)).
    + rewrite (Hmod (w + 1) 0) by (lia || (exists 1; lia)).
      rewrite (Hmod (0 + pm - r) (pm - r)) by (lia || (exists 0; lia)). lia.
    + rewrite (Z.mod_small (w + 1)) by lia.
      rewrite (Hmod (w + 1 + pm - r) (w + 1 - r)) by (lia || (exists 1; lia)). lia.
  - rewrite (Hmod (w + pm - r) (w + pm - r)) in Hf |- * by (lia || (exists 0; lia)).
    rewrite (Z.mod_small (w + 1)) by lia.
    rewrite (Hmod (w + 1 + pm - r) (w + 1 + pm - r)) by (lia || (exists 0; lia)). lia.
Qed.

(** What pushing leaves alone. *)
Definition push_frame (s s' : mst) : Prop :=
  ms_ids s' = ms_ids s ∧ ms_txns s' = ms_txns s ∧ ms_data_width s' = ms_data_width s ∧
  ms_strb_width s' = ms_strb_width s ∧ ms_exp_err_rsp s' = ms_exp_err_rsp s ∧
  ms_id_width s' = ms_id_width s.

Lemma push_frame_trans s1 s2 s3 : push_frame s1 s2 → push_frame s2 s3 → push_frame s1 s3.
Proof. unfold push_frame. intuition congruence. Qed.

(** A well-formed beat is pushed exactly when its FIFO has room. *)
Lemma push_spec t s :
  txn_wf t → widths_ok s →
  let ok := negb (q_full (q_of (chan_of t) s)) in
  ∃ s' evs, push t s = (ok, s', evs) ∧ push_frame s s' ∧
    (∀ c, q_of c s' = if decide (c = chan_of t ∧ ok = true) then q_push (q_of c s) else q_of c s) ∧
    (∀ c, pushed c evs = if decide (c = chan_of t ∧ ok = true) then [t] else []) ∧
    (∀ c, queued c evs = []).
Proof.
  intros Ht [Hw _]. destruct t as [a|w]; cbn [chan_of push].
  - assert (∀ c, on_chan c [TA a] = if decide (c = if a_w a then AW else AR) then [TA a] else [])
      as Hc by (intros c; unfold on_chan; rewrite filter_cons, filter_nil; simpl; by repeat case_decide).
    destruct (a_w a) eqn:Ea; cbn [q_of negb]; cbv zeta;
      match goal with |- context [q_full (?f (modify ?g s))] =>
        change (f (modify g s)) with (f s) end;
      destruct (q_full _) eqn:Ef; cbn [negb]; eexists _, _; (split; [done|]);
      (split; [by split_and!|]); split_and!; intros c; unfold pushed; simpl omap;
      rewrite ?Hc; by destruct c.
  - destruct Ht as [Hs Hd]. cbn [q_of]. destruct (q_full (ms_w s)) eqn:Ef; cbn [negb].
    + eexists _, _. split; [done|]. split; [by split_and!|]. by split_and!; intros [].
    + rewrite (proj2 (Nat.eqb_neq _ 0) Hs), (proj2 (Nat.eqb_eq _ _) Hd). cbn [negb]. cbv zeta.
      assert ((ms_data_width (s <| ms_w ::= q_push |>) =? 64) ||
              (ms_data_width (s <| ms_w ::= q_push |>) =? 512) = true) as ->
        by (unfold modify; simpl; destruct Hw as [->| ->]; done).
      eexists _, _. split; [done|]. split; [by split_and!|]. by split_and!; intros [].
Qed.

Lemma push_loop_spec fl q s c :
  Forall txn_wf q → widths_ok s →
  let '(rest, s', evs) := push_loop fl q s in
  push_frame s s' ∧ queued c evs = [] ∧ Forall txn_wf rest ∧
  pushed c evs ++ on_chan c rest = on_chan c q ∧
  (q_full (q_of c s) = true → pushed c evs = []) ∧
  (q_ok (q_of c s) → occupancy (q_of c s) ≤ q_max (q_of c s) →
   q_ok (q_of c s') ∧ q_max (q_of c s') = q_max (q_of c s) ∧
   occupancy (q_of c s') = occupancy (q_of c s) + Z.of_nat (length (pushed c evs)) ∧
   occupancy (q_of c s') ≤ q_max (q_of c s)).
Proof.
  intros Hq. revert s. induction Hq as [|t q Ht Hq IH]; intros s Hw; simpl.
  { split_and!; try done. intros. split_and!; try done. simpl. lia. }
  destruct (push_spec t s Ht Hw) as (s1 & e1 & -> & Hf & Hq1 & Hp1 & Hu1).
  specialize (IH s1). destruct (push_loop fl q s1) as [[rest s'] e2].
  assert (widths_ok s1) as Hw1 by (unfold widths_ok in *; destruct Hf as (_&_&->&->&_); done).
  destruct (IH Hw1) as (Hf' & Hu & Hr & Ho & Hfull & Hocc). clear IH.
  specialize (Hq1 c). specialize (Hp1 c). specialize (Hu1 c).
  destruct (q_full (q_of (chan_of t) s)) eqn:Ef; simpl negb in *; cbn iota.
  - rewrite decide_False in Hq1 by (by intros [_ ?]).
    rewrite decide_False in Hp1 by (by intros [_ ?]). rewrite Hq1 in Hfull, Hocc.
    destruct (mf_greedy_queue fl); simpl negb; cbn iota.
    + rewrite pushed_app, queued_app, Hp1, Hu1, Hu. simpl app.
      split_and!; [by eapply push_frame_trans|done|by constructor| |done|done].
      unfold on_chan in *. rewrite !filter_cons. destruct (decide (chan_of t = c)) as [<-|]; [|done].
      by rewrite (Hfull Ef) in Ho |- *; simpl in *; rewrite Ho.
    + rewrite Hp1, Hu1, Hq1. split_and!; try done; [by constructor|].
      intros. split_and!; try done. simpl. lia.
  - rewrite pushed_app, queued_app, Hp1, Hu1, Hu. simpl app.
    split_and!; [by eapply push_frame_trans|done|done| | |].
    + rewrite <- app_assoc, Ho. unfold on_chan. rewrite filter_cons.
      destruct (decide (chan_of t = c)) as [<-|Hne]; [by rewrite decide_True|].
      by rewrite decide_False by (intros [? _]; congruence).
    + intros Hc. destruct (decide (chan_of t = c)) as [<-|Hne]; [congruence|].
      rewrite decide_False by (intros [? _]; congruence).
      rewrite decide_False in Hq1 by (intros [? _]; congruence).
      rewrite Hq1 in Hfull. by rewrite (Hfull Hc).
    + intros Hok Hle. destruct (decide (c = chan_of t ∧ true = true)) as [[-> _]|Hne]; rewrite Hq1 in Hocc.
      * destruct (occupancy_push _ Hok Ef) as [Hok' Ho'].
        assert (q_max (q_push (q_of (chan_of t) s)) = q_max (q_of (chan_of t) s)) as Hmx by done.
        assert (occupancy (q_of (chan_of t) s) < q_max (q_of (chan_of t) s)) as Hlt
          by (unfold q_full in Ef; zbool; exact Ef).
        destruct Hocc as (? & ? & ? & ?); [done|lia|]. simpl length. split_and!; try done; lia.
      * destruct Hocc as (? & ? & ? & ?); [done|done|]. simpl app. by split_and!.
Qed.

Definition mst_wf (s : mst) : Prop := widths_ok s ∧ Forall txn_wf (ms_txns s).

(** Per channel, what is pushed and what stays queued is what was queued before
    followed by what is queued in the step. *)
Definition fifo_step (s : mst) (evs : list mst_event) (s' : mst) : Prop :=
  mst_wf s' ∧
  ∀ c, pushed c evs ++ on_chan c (ms_txns s') = on_chan c (ms_txns s) ++ queued c evs.

Definition core_same (s s' : mst) : Prop :=
  ms_txns s' = ms_txns s ∧ ms_data_width s' = ms_data_width s ∧ ms_strb_width s' = ms_strb_width s.

Lemma core_same_wf s s' : core_same s s' → mst_wf s → mst_wf s'.
Proof. unfold mst_wf, widths_ok. by intros (-> & -> & ->). Qed.

(** Events that neither queue nor push. *)
Definition silent (evs : list mst_event) : Prop := ∀ c, pushed c evs = [] ∧ queued c evs = [].

Lemma fifo_silent s s' evs : core_same s s' → silent evs → mst_wf s → fifo_step s evs s'.
Proof.
  intros Hc Hs Hw. split; [by eapply core_same_wf|]. intros c. destruct (Hs c) as [-> ->].
  destruct Hc as (-> & _). by rewrite app_nil_r.
Qed.

Lemma fifo_trans s1 e1 s2 e2 s3 : fifo_step s1 e1 s2 → fifo_step s2 e2 s3 → fifo_step s1 (e1 ++ e2) s3.
Proof.
  intros [_ H1] [Hw H2]. split; [done|]. intros c. rewrite pushed_app, queued_app, <- app_assoc, H2.
  by rewrite !app_assoc, H1.
Qed.

(** A prefix of events that neither queue nor push, on a state change that keeps
    the queue. *)
Lemma fifo_after s s1 e0 e1 s2 :
  core_same s s1 → silent e0 → mst_wf s → (mst_wf s1 → fifo_step s1 e1 s2) →
  fifo_step s (e0 ++ e1) s2.
Proof.
  intros Hc He Hw H2. eapply fifo_trans; [by apply fifo_silent|]. apply H2. by eapply core_same_wf.
Qed.

Lemma push_transactions_fifo fl s :
  mst_wf s → let '(s', evs) := push_transactions fl s in fifo_step s evs s'.
Proof.
  intros [Hw Hq]. unfold push_transactions. pose proof (push_loop_spec fl (ms_txns s) s) as Hp.
  destruct (push_loop fl (ms_txns s) s) as [[rest s'] evs].
  split.
  - destruct (Hp AR Hq Hw) as ((_ & _ & E1 & E2 & _) & _ & Hr & _). split; [|done].
    unfold widths_ok, modify in *. simpl. by rewrite E1, E2.
  - intros c. destruct (Hp c Hq Hw) as (_ & -> & _ & Ho & _). rewrite app_nil_r. exact Ho.
Qed.

Lemma queued_fmap c ts : queued c (MsQueued <$> ts) = on_chan c ts ∧ pushed c (MsQueued <$> ts) = [].
Proof.
  unfold queued, pushed. split.
  - f_equal. induction ts as [|t ts IH]; [done|]. simpl. by f_equal.
  - induction ts as [|t ts IH]; done.
Qed.

Lemma queue_push_fifo fl ts s :
  Forall txn_wf ts → mst_wf s → let '(s', evs) := queue_push fl ts s in fifo_step s evs s'.
Proof.
  intros Ht Hw. unfold queue_push.
  assert (mst_wf (s <| ms_txns ::= λ q, q ++ ts |>)) as Hw1
    by (destruct Hw as [? ?]; split; [done|]; by apply Forall_app_2).
  pose proof (push_transactions_fifo fl _ Hw1) as Hp.
  destruct (push_transactions fl _) as [s' evs]. eapply fifo_trans; [|exact Hp].
  split; [done|]. intros c. destruct (queued_fmap c ts) as [-> ->]. unfold modify. simpl.
  apply on_chan_app.
Qed.

Lemma next_id_core fl rng seqid s : core_same s (next_id fl rng seqid s).2.
Proof.
  unfold next_id. destruct (valid_indices fl seqid s); [done|]. by destruct (mf_rand_id_alloc fl).
Qed.

Lemma a_wrapper_core fl rng addr len a alloc s :
  let '(_, _, s', evs) := a_wrapper fl rng addr len a alloc s in core_same s s' ∧ silent evs.
Proof.
  unfold a_wrapper.
  set (a1 := a <| a_addr := addr |> <| a_burst := BURST_INCR |> <| a_atop := _ |> <| a_lock := _ |>).
  pose proof (next_id_core fl rng (a_seqid a1) s) as Hc.
  destruct (next_id fl rng (a_seqid a1) s) as [[id|] s1]; destruct alloc; cbn [negb]; try done;
    destruct (negb _); done.
Qed.

Lemma length_write_fold lane (f : nat → Z) (g : nat → bool) l ds :
  let r := foldl (λ ds b, (<[(lane + b)%nat := f b]> ds.1, <[(lane + b)%nat := g b]> ds.2)) ds l in
  length r.1 = length ds.1 ∧ length r.2 = length ds.2.
Proof.
  revert ds; induction l as [|b l IH]; intros ds; simpl; [done|].
  destruct (IH (<[(lane + b)%nat := f b]> ds.1, <[(lane + b)%nat := g b]> ds.2)) as [-> ->].
  simpl. by rewrite !length_insert.
Qed.

Lemma write_beat_length req s p beat last :
  length (wb_data (write_beat req s p beat last)) = Z.to_nat (ms_data_width s ≫ 3) ∧
  length (wb_strb (write_beat req s p beat last)) = Z.to_nat (ms_strb_width s).
Proof.
  unfold write_beat. cbv zeta.
  set (lane := Z.to_nat _). set (n := (_ `min` _)%nat).
  pose proof (length_write_fold lane (λ b, at_z (wq_data req) (p * beat + b))
    (λ b, at_b (wq_strb req) (p * beat + b)) (seq 0 n)
    (replicate (Z.to_nat (ms_data_width s ≫ 3)) 0,
     replicate (Z.to_nat (ms_strb_width s)) false)) as [H1 H2].
  destruct (foldl _ _ _) as [d b]. simpl in *. by rewrite H1, H2, !length_replicate.
Qed.

Lemma write_beats_wf req s len size : widths_ok s → Forall txn_wf (write_beats req s len size).
Proof.
  intros [Hd Hs]. apply Forall_fmap, Forall_forall. intros beat _. unfold txn_wf, beat_wf. simpl.
  destruct (write_beat_length req s (Z.to_nat (2 ^ size)) beat (Z.of_nat beat =? len)) as [-> ->].
  rewrite Hs. by destruct Hd as [->| ->].
Qed.

Definition op_beat_wf (o : mst_op) : Prop := match o with OpW w => beat_wf w | _ => True end.

(** The common tails of the handlers. *)
Lemma push_after fl s s1 e0 :
  core_same s s1 → silent e0 → mst_wf s →
  let '(s2, e1) := push_transactions fl s1 in fifo_step s (e0 ++ e1) s2.
Proof.
  intros Hc He Hw. pose proof (push_transactions_fifo fl s1) as Hp.
  destruct (push_transactions fl s1). by eapply fifo_after.
Qed.

Lemma queue_after fl ts s s1 e0 :
  core_same s s1 → silent e0 → Forall txn_wf ts → mst_wf s →
  let '(s2, e1) := queue_push fl ts s1 in fifo_step s (e0 ++ e1) s2.
Proof.
  intros Hc He Ht Hw. pose proof (queue_push_fifo fl ts s1 Ht) as Hp.
  destruct (queue_push fl ts s1). by eapply fifo_after.
Qed.

Lemma process_r_fifo fl id resp data last s :
  mst_wf s → let '(s', evs) := process_r fl id resp data last s in fifo_step s evs s'.
Proof.
  intros Hw. unfold process_r. destruct (bad_resp _ _ _ _); [by apply fifo_silent|].
  destruct last; lazymatch goal with |- context [push_transactions fl ?x] =>
    lazymatch goal with |- context [MsR id resp data ?l :: ?e ++ _] =>
      pose proof (push_after fl s x (MsR id resp data l :: e)) as Hp;
      destruct (push_transactions fl x) end end; by apply Hp.
Qed.

Lemma read_request_fifo fl rng req s :
  mst_wf s → let '(s', evs) := process_read_request fl rng req s in fifo_step s evs s'.
Proof.
  intros Hw. unfold process_read_request. set (a0 := if at_is_manual_id _ then _ else _).
  pose proof (a_wrapper_core fl rng (rq_addr req) (Z.of_nat (rq_length req)) a0
    (negb (at_is_manual_id (rq_attr req))) s) as Ha.
  destruct (a_wrapper _ _ _ _ _ _ _) as [[[ok a] s1] e0]. destruct Ha as [Hc He].
  destruct ok; cbn [negb]; [|by apply fifo_silent].
  set (a1 := apply_attr _ _). pose proof (queue_after fl [TA a1] s (expect a1 s1) e0) as Hp.
  destruct (queue_push _ _ _). apply Hp; [done|done|by repeat constructor|done].
Qed.

Lemma write_request_fifo fl rng req s :
  mst_wf s → let '(s', evs) := process_write_request fl rng req s in fifo_step s evs s'.
Proof.
  intros Hw. unfold process_write_request, push_write_request.
  set (a0 := if at_is_manual_id _ then _ else _).
  pose proof (a_wrapper_core fl rng (wq_addr req) (Z.of_nat (wq_length req)) a0
    (negb (at_is_manual_id (wq_attr req))) s) as Ha.
  destruct (a_wrapper _ _ _ _ _ _ _) as [[[ok a] s1] e0]. destruct Ha as [Hc He].
  destruct ok; cbn [negb]; [|by apply fifo_silent].
  set (a1 := if negb _ then _ else _).
  pose proof (queue_after fl (TA a1 :: write_beats req s1 (a_len a1) (a_size a1)) s (expect a1 s1) e0)
    as Hp.
  destruct (queue_push _ _ _). apply Hp; [done|done| |done]. constructor; [done|].
  apply write_beats_wf. by destruct (core_same_wf _ _ Hc Hw).
Qed.

Lemma push_a_fifo fl rng aw a m s :
  mst_wf s → let '(_, s', evs) := push_a_no_id fl rng aw a m s in fifo_step s evs s'.
Proof.
  intros Hw. unfold push_a_no_id. set (a0 := a <| a_w := aw |>).
  pose proof (next_id_core fl rng (a_seqid a0) s) as Hc.
  assert (∃ id s1, match m with Some id => (Some id, s) | None => next_id fl rng (a_seqid a0) s end
    = (id, s1) ∧ core_same s s1) as (id & s1 & -> & Hs1).
  { destruct m; [by eexists _, _|]. destruct (next_id _ _ _ _) as [id s1]. by eexists _, _. }
  destruct id as [id|]; [|by apply fifo_silent].
  set (a1 := a0 <| a_id := id |>). pose proof (queue_after fl [TA a1] s (expect a1 s1) []) as Hp.
  destruct (queue_push _ _ _). apply Hp; [done|done|by repeat constructor|done].
Qed.

Lemma mst_step_fifo fl rng o s :
  op_beat_wf o → mst_wf s → let '(s', evs) := mst_step fl rng o s in fifo_step s evs s'.
Proof.
  intros Ho Hw. destruct o as [id resp| |p|p|p|a|w| | |aw a m|]; cbn [mst_step].
  - unfold process_b. destruct (bad_resp _ _ _ _); [by apply fifo_silent|].
    pose proof (push_after fl s (free_id id s)
      [MsB id resp; MsWriteResponse (Write_response_t id resp)]) as Hp.
    destruct (push_transactions _ _). by apply Hp.
  - by apply process_r_fifo.
  - pose proof (push_after fl s (s <| ms_ar ::= λ q, q <| q_rptr := p |> |>) []) as Hp.
    unfold process_ar_q. destruct (push_transactions _ _). by apply Hp.
  - pose proof (push_after fl s (s <| ms_aw ::= λ q, q <| q_rptr := p |> |>) []) as Hp.
    unfold process_aw_q. destruct (push_transactions _ _). by apply Hp.
  - pose proof (push_after fl s (s <| ms_w ::= λ q, q <| q_rptr := p |> |>) []) as Hp.
    unfold process_w_q. destruct (push_transactions _ _). by apply Hp.
  - unfold process_a. destruct (used_id _ _); [by apply fifo_silent|].
    pose proof (queue_after fl [TA a] s (expect a (alloc_id (a_id a) s)) []) as Hp.
    destruct (queue_push _ _ _). apply Hp; [done|done|by repeat constructor|done].
  - pose proof (queue_push_fifo fl [TW w] s) as Hp. unfold process_w.
    destruct (queue_push _ _ _). apply Hp; [apply Forall_singleton; exact Ho|done].
  - by apply read_request_fifo.
  - by apply write_request_fifo.
  - pose proof (push_a_fifo fl rng aw a m s Hw) as Hp. by destruct (push_a_no_id _ _ _ _ _ _) as [[??]?].
  - by apply fifo_silent.
Qed.

(** *** Transaction ids in flight *)

(** The ids of address beats queued and not yet answered, in a trace. *)
Definition in_flight_step (O : list Z) (e : mst_event) : list Z :=
  match e with
  | MsQueued (TA a) => a_id a :: O
  | MsWriteResponse r => filter (λ i, i ≠ wr_id r) O
  | MsReadResponse r => filter (λ i, i ≠ rr_id r) O
  | _ => O
  end.
Definition in_flight (O : list Z) (evs : list mst_event) : list Z := foldl in_flight_step O evs.

Definition id_inv (O : list Z) (s : mst) : Prop :=
  NoDup O ∧ ∀ i, i ∈ O → 0 ≤ i ∧ (Z.to_nat i < length (ms_ids s))%nat ∧ used_id i s = true.

(** Requests whose ids are allocated by the manager, and ids as the hardware
    sends them. *)
Definition op_ids_ok (o : mst_op) : Prop :=
  match o with
  | OpB id _ => 0 ≤ id
  | OpR id _ _ _ => 0 ≤ id
  | OpA a => 0 ≤ a_id a
  | OpRead req => at_is_manual_id (rq_attr req) = false
  | OpWrite req => at_is_manual_id (wq_attr req) = false
  | OpPushA _ _ m => m = None
  | _ => True
  end.

Lemma in_flight_app O e1 e2 : in_flight O (e1 ++ e2) = in_flight (in_flight O e1) e2.
Proof. apply foldl_app. Qed.

(** Pushing issues no id. *)
Lemma push_events t s : ∀ O, in_flight O (push t s).2 = O.
Proof. intros O. unfold push. by repeat case_match. Qed.

Lemma push_ids t s : ms_ids (push t s).1.2 = ms_ids s.
Proof. unfold push. by repeat case_match. Qed.

Lemma push_loop_ids fl q s :
  ms_ids (push_loop fl q s).1.2 = ms_ids s ∧ ∀ O, in_flight O (push_loop fl q s).2 = O.
Proof.
  revert s; induction q as [|t q IH]; intros s; simpl; [done|].
  pose proof (push_events t s) as He. pose proof (push_ids t s) as Hi.
  destruct (push t s) as [[r s1] e1]. simpl in *. destruct (IH s1) as [Hi2 He2].
  destruct (push_loop fl q s1) as [[rest s2] e2]. simpl in *.
  destruct r; [|destruct (mf_greedy_queue fl)]; simpl; (split; [congruence|]); intros O;
    rewrite ?in_flight_app, ?He; done.
Qed.

Lemma push_transactions_ids fl s :
  ms_ids (push_transactions fl s).1 = ms_ids s ∧ ∀ O, in_flight O (push_transactions fl s).2 = O.
Proof.
  unfold push_transactions. pose proof (push_loop_ids fl (ms_txns s) s) as [Hi He].
  by destruct (push_loop fl _ s) as [[rest s'] evs].
Qed.

Lemma id_inv_ids O s s' : ms_ids s' = ms_ids s → id_inv O s → id_inv O s'.
Proof. unfold id_inv, used_id. by intros ->. Qed.

Lemma push_transactions_inv fl O s :
  id_inv O s → id_inv (in_flight O (push_transactions fl s).2) (push_transactions fl s).1.
Proof.
  intros Hi. destruct (push_transactions_ids fl s) as [Hids ->]. by eapply id_inv_ids.
Qed.

(** Queueing an address beat whose id is marked used and not in flight, and
    data beats after it. *)
Lemma queue_push_inv fl O a ws s :
  id_inv O s → 0 ≤ a_id a → (Z.to_nat (a_id a) < length (ms_ids s))%nat →
  used_id (a_id a) s = true → a_id a ∉ O → Forall (λ t, ∃ w, t = TW w) ws →
  id_inv (in_flight O (queue_push fl (TA a :: ws) s).2) (queue_push fl (TA a :: ws) s).1.
Proof.
  intros [Hn Hi] H0 Hl Hu HO Hws. unfold queue_push.
  set (s1 := s <| ms_txns ::= _ |>).
  assert (in_flight O (MsQueued <$> (TA a :: ws)) = a_id a :: O) as E.
  { simpl. generalize (a_id a :: O) as O'. induction Hws as [|t ws [w ->] _ IH]; [done|exact IH]. }
  pose proof (push_transactions_inv fl (a_id a :: O) s1) as Hp.
  destruct (push_transactions fl s1) as [s2 evs]. cbn [fst snd] in *.
  rewrite in_flight_app, E. apply Hp. split; [by constructor|].
  intros i [->|Hin]%elem_of_cons; [done|]. by apply Hi.
Qed.

Lemma free_id_inv O s id :
  0 ≤ id → id_inv O s → id_inv (filter (λ i, i ≠ id) O) (free_id id s).
Proof.
  intros H0 [Hn Hi]. split; [by apply NoDup_filter|].
  intros i [Hne Hin]%list_elem_of_filter. destruct (Hi i Hin) as (? & ? & Hu).
  unfold free_id, used_id, modify in *. simpl. rewrite length_insert. split_and!; try done.
  unfold at_b in *. rewrite list_lookup_insert_ne by lia. done.
Qed.

(** [next_id] picks a free id of the window and marks it used. *)
Lemma next_id_spec fl rng seqid s :
  match next_id fl rng seqid s with
  | (None, s') => s' = s ∧ valid_indices fl seqid s = []
  | (Some id, s') =>
      ∃ i : nat, id = Z.of_nat i ∧ i ∈ valid_indices fl seqid s ∧ (i < length (ms_ids s))%nat ∧
        used_id id s = false ∧ ms_ids s' = <[i := false]> (ms_ids s)
  end.
Proof.
  unfold next_id.
  assert (∀ i, i ∈ valid_indices fl seqid s → (i < length (ms_ids s))%nat ∧ used_id (Z.of_nat i) s = false)
    as Hv.
  { intros i. unfold valid_indices. destruct (id_window fl seqid s) as [st n].
    intros [Hb _]%list_elem_of_filter. unfold used_id, at_b in *. rewrite Nat2Z.id.
    destruct (ms_ids s !! i) as [b|] eqn:E; simpl in *; [|done]. subst. split; [|done].
    by eapply lookup_lt_Some. }
  destruct (valid_indices fl seqid s) as [|i0 v] eqn:E; [done|].
  destruct (mf_rand_id_alloc fl).
  - set (idx := Z.to_nat _).
    assert (idx < length (i0 :: v))%nat as Hidx.
    { unfold idx. set (r := rng _ mod _).
      assert (0 ≤ r < Z.of_nat (length (i0 :: v))) as Hr by (apply Z.mod_pos_bound; simpl; lia).
      change 0xffffff with (Z.ones 24). rewrite Z.land_ones by lia.
      pose proof (Z.mod_le r (2 ^ 24)). pose proof (Z.mod_pos_bound r (2 ^ 24)). lia. }
    destruct (lookup_lt_is_Some_2 _ _ Hidx) as [i Hi]. rewrite Hi. cbn [default].
    assert (i ∈ i0 :: v) as Hin by (by eapply list_elem_of_lookup_2).
    destruct (Hv i Hin). by exists i.
  - assert (i0 ∈ i0 :: v) as Hin by constructor. destruct (Hv i0 Hin). by exists i0.
Qed.

(** The id can be issued: in range, marked used, not in flight. *)
Definition issuable (O : list Z) (id : Z) (s : mst) : Prop :=
  0 ≤ id ∧ (Z.to_nat id < length (ms_ids s))%nat ∧ used_id id s = true ∧ id ∉ O.

Lemma mark_used_inv O s s' (i : nat) :
  id_inv O s → (i < length (ms_ids s))%nat → used_id (Z.of_nat i) s = false →
  ms_ids s' = <[i := false]> (ms_ids s) → id_inv O s' ∧ issuable O (Z.of_nat i) s'.
Proof.
  intros [Hn Hi] Hl Hu E. unfold id_inv, issuable, used_id, at_b in *. rewrite E, length_insert.
  assert (∀ j, used_id j s = true → negb (default false (<[i:=false]> (ms_ids s) !! Z.to_nat j)) = true) as Hk.
  { intros j Hj. destruct (decide (Z.to_nat j = i)) as [->|Hne].
    - by rewrite list_lookup_insert_eq.
    - rewrite list_lookup_insert_ne by done. exact Hj. }
  split; [split; [done|]|].
  - intros j Hj. destruct (Hi j Hj) as (? & ? & ?). split_and!; [done|done|by apply Hk].
  - rewrite Nat2Z.id. split_and!; [lia|done|by rewrite list_lookup_insert_eq|].
    intros Hin. destruct (Hi _ Hin) as (_ & _ & Hu'). congruence.
Qed.

Lemma next_id_inv fl rng seqid O s :
  id_inv O s →
  let '(r, s') := next_id fl rng seqid s in
  id_inv O s' ∧ ∀ id, r = Some id → issuable O id s'.
Proof.
  intros Hi. pose proof (next_id_spec fl rng seqid s) as Hs.
  destruct (next_id fl rng seqid s) as [[id|] s'].
  - destruct Hs as (i & -> & _ & Hl & Hu & E).
    destruct (mark_used_inv O s s' i Hi Hl Hu E) as [? ?]. split; [done|]. by intros ? [= <-].
  - destruct Hs as [-> _]. by split.
Qed.

Lemma a_wrapper_inv fl rng addr len a O s :
  id_inv O s →
  let '(ok, a', s', evs) := a_wrapper fl rng addr len a true s in
  id_inv O s' ∧ (∀ O', in_flight O' evs = O') ∧ (ok = true → issuable O (a_id a') s').
Proof.
  intros Hi. unfold a_wrapper.
  set (a1 := a <| a_addr := addr |> <| a_burst := BURST_INCR |> <| a_atop := _ |> <| a_lock := _ |>).
  pose proof (next_id_inv fl rng (a_seqid a1) O s Hi) as Hn.
  destruct (next_id fl rng (a_seqid a1) s) as [[id|] s1]; destruct Hn as [Hi1 Hf]; cbn [negb]; [|done].
  specialize (Hf id eq_refl). by destruct (negb _).
Qed.

(** The state recorded for the expected response does not touch ids. *)
Lemma queue_expect_inv fl O a ws s :
  id_inv O s → issuable O (a_id a) s → Forall (λ t, ∃ w, t = TW w) ws →
  id_inv (in_flight O (queue_push fl (TA a :: ws) (expect a s)).2)
         (queue_push fl (TA a :: ws) (expect a s)).1.
Proof. intros Hi (? & ? & ? & ?) Hw. by apply queue_push_inv. Qed.

Lemma response_inv fl O s s1 id e0 :
  0 ≤ id → id_inv O s → ms_ids s1 = ms_ids (free_id id s) →
  in_flight O e0 = filter (λ i, i ≠ id) O →
  id_inv (in_flight O (e0 ++ (push_transactions fl s1).2)) (push_transactions fl s1).1.
Proof.
  intros H0 Hi E Ee. rewrite in_flight_app, Ee. apply push_transactions_inv.
  eapply id_inv_ids; [exact E|]. by apply free_id_inv.
Qed.

Lemma write_beats_data req s len size : Forall (λ t, ∃ w, t = TW w) (write_beats req s len size).
Proof. apply Forall_fmap, Forall_forall. intros b _. by eexists. Qed.

Lemma process_r_inv fl O id resp data last s :
  0 ≤ id → id_inv O s →
  id_inv (in_flight O (process_r fl id resp data last s).2) (process_r fl id resp data last s).1.
Proof.
  intros H0 Hi. unfold process_r. destruct (bad_resp _ _ _ _); [done|].
  set (d := default [] _ ++ data). destruct last; cbv zeta.
  - set (s1 := modify _ (free_id id _)).
    pose proof (response_inv fl O s s1 id [MsR id resp data true; MsReadResponse (Read_response_t id d resp)]
      H0 Hi) as Hp.
    destruct (push_transactions fl s1). by apply Hp.
  - set (s1 := modify _ s). pose proof (push_transactions_inv fl O s1) as Hp.
    destruct (push_transactions fl s1). by apply Hp.
Qed.

Lemma read_request_inv fl rng O req s :
  at_is_manual_id (rq_attr req) = false → id_inv O s →
  id_inv (in_flight O (process_read_request fl rng req s).2) (process_read_request fl rng req s).1.
Proof.
  intros Ho Hi. unfold process_read_request. rewrite Ho. cbn [negb].
  set (a0 := a_default false <| a_exp_err_rsp := _ |>).
  pose proof (a_wrapper_inv fl rng (rq_addr req) (Z.of_nat (rq_length req)) a0 O s Hi) as Ha.
  destruct (a_wrapper _ _ _ _ _ _ _) as [[[ok a] s1] e0]. destruct Ha as (Hi1 & He & Hs1).
  destruct ok; cbn [negb]; [|simpl; by rewrite He].
  pose proof (queue_expect_inv fl O (apply_attr (rq_attr req) a) [] s1 Hi1 (Hs1 eq_refl)) as Hp.
  destruct (queue_push _ _ _). simpl in *. rewrite in_flight_app, He. by apply Hp.
Qed.

Lemma write_request_inv fl rng O req s :
  at_is_manual_id (wq_attr req) = false → id_inv O s →
  id_inv (in_flight O (process_write_request fl rng req s).2) (process_write_request fl rng req s).1.
Proof.
  intros Ho Hi. unfold process_write_request, push_write_request. rewrite Ho. cbn [negb].
  set (a0 := a_default true <| a_exp_err_rsp := _ |> <| a_allow_decerr_resp := _ |>).
  pose proof (a_wrapper_inv fl rng (wq_addr req) (Z.of_nat (wq_length req)) a0 O s Hi) as Ha.
  destruct (a_wrapper _ _ _ _ _ _ _) as [[[ok a] s1] e0]. destruct Ha as (Hi1 & He & Hs1).
  destruct ok; cbn [negb]; [|simpl; by rewrite He].
  set (a1 := if negb _ then _ else _).
  assert (a_id a1 = a_id a) as Ea by (unfold a1; by destruct (negb _)).
  pose proof (queue_expect_inv fl O a1 (write_beats req s1 (a_len a1) (a_size a1)) s1 Hi1) as Hp.
  rewrite Ea in Hp. specialize (Hp (Hs1 eq_refl) (write_beats_data _ _ _ _)).
  destruct (queue_push _ _ _). simpl in *. by rewrite in_flight_app, He.
Qed.

Lemma mst_step_inv fl rng O o s :
  op_ids_ok o → id_inv O s →
  id_inv (in_flight O (mst_step fl rng o s).2) (mst_step fl rng o s).1.
Proof.
  intros Ho Hi. destruct o as [id resp| |p|p|p|a|w|req|req|aw a m|]; cbn [mst_step op_ids_ok] in *.
  - unfold process_b. destruct (bad_resp _ _ _ _); [done|].
    pose proof (response_inv fl O s (free_id id s) id
      [MsB id resp; MsWriteResponse (Write_response_t id resp)] Ho Hi) as Hp.
    destruct (push_transactions _ _). by apply Hp.
  - by apply process_r_inv.
  - by apply push_transactions_inv.
  - by apply push_transactions_inv.
  - by apply push_transactions_inv.
  - unfold process_a. destruct (used_id (a_id a) s) eqn:Eu; [done|].
    assert (a_id a = Z.of_nat (Z.to_nat (a_id a))) as Ea by lia.
    assert (Z.to_nat (a_id a) < length (ms_ids s))%nat as Hl.
    { unfold used_id, at_b in Eu. destruct (ms_ids s !! Z.to_nat (a_id a)) eqn:E; [|done].
      by eapply lookup_lt_Some. }
    destruct (mark_used_inv O s (alloc_id (a_id a) s) (Z.to_nat (a_id a)) Hi Hl) as [Hi1 Hs1];
      [by rewrite <- Ea|done|]. rewrite <- Ea in Hs1. by apply queue_expect_inv.
  - unfold process_w, queue_push. set (s1 := modify _ s).
    pose proof (push_transactions_inv fl O s1 Hi) as Hp. by destruct (push_transactions _ _).
  - by apply read_request_inv.
  - by apply write_request_inv.
  - subst m. unfold push_a_no_id. set (a0 := a <| a_w := aw |>).
    pose proof (next_id_inv fl rng (a_seqid a0) O s Hi) as Hn.
    destruct (next_id _ _ _ _) as [[id|] s1]; destruct Hn as [Hi1 Hs1]; [|done].
    pose proof (queue_expect_inv fl O (a0 <| a_id := id |>) [] s1 Hi1 (Hs1 id eq_refl)) as Hp.
    destruct (queue_push _ _ _). by apply Hp.
  - done.
Qed.

(** *** A concrete manager *)

Definition sample_mf : mst_flags := Mst_flags false false true false false.
Definition sample_mst : mst := reset_ptrs (mst_new 4 64 8 4 8 4 8 4 8).
Definition sample_wreq (addr : Z) (data : list Z) : write_request_t :=
  mk_write_request addr (length data) data (replicate (length data) true) false.
Definition sample_mst_ops : list mst_op :=
  [OpWrite (sample_wreq 0x1004 [1; 2; 3; 4]); OpRead (Read_request_t 0x2000 8 false axi_attr_default);
   OpWrite (sample_wreq 0x1001 [5; 6; 7]); OpB 0 0; OpWQ 2; OpR 1 0 [0;0;0;0;0;0;0;0] true].

(** The manager issues transactions in order: over any run, on each of the
    AR, AW and W channels the beats pushed to the hardware followed by those
    still queued are exactly the beats queued initially followed by those
    queued during the run, in order, with or without greedy pushing. *)
Theorem mst_channels_fifo fl rng os s :
  mst_wf s → Forall op_beat_wf os →
  let '(s', evs) := mst_run fl rng os s in
  ∀ c, pushed c evs ++ on_chan c (ms_txns s') = on_chan c (ms_txns s) ++ queued c evs.
Proof.
  intros Hw Ho. assert (let '(s', evs) := mst_run fl rng os s in fifo_step s evs s') as H.
  { revert s Hw. induction Ho as [|o os Ho _ IH]; intros s Hw; simpl.
    { split; [done|]. intros c. by rewrite app_nil_r. }
    pose proof (mst_step_fifo fl rng o s Ho Hw) as H1. destruct (mst_step fl rng o s) as [s1 e1].
    specialize (IH s1 (proj1 H1)). destruct (mst_run fl rng os s1) as [s2 e2].
    by eapply fifo_trans. }
  destruct (mst_run fl rng os s). apply H.
Qed.

Lemma sample_mst_wf : mst_wf sample_mst.
Proof. split; [split; [by left|done]|constructor]. Qed.

Lemma mst_channels_fifo_witness :
  pushed W (mst_run sample_mf (λ n, Z.of_nat n) sample_mst_ops sample_mst).2 ++
  on_chan W (ms_txns (mst_run sample_mf (λ n, Z.of_nat n) sample_mst_ops sample_mst).1) =
  queued W (mst_run sample_mf (λ n, Z.of_nat n) sample_mst_ops sample_mst).2.
Proof.
  pose proof (mst_channels_fifo sample_mf (λ n, Z.of_nat n) sample_mst_ops sample_mst
    sample_mst_wf) as H.
  destruct (mst_run _ _ _ _) as [s' evs]. apply H.
  repeat constructor.
Defined.

(** Transaction ids in flight are distinct: over any run of requests whose
    ids the manager allocates, from any state with nothing in flight, no two
    transactions that have been queued and not yet answered have the same
    id, whichever responses arrive and whatever the random source returns. *)
Theorem mst_ids_unique fl rng os s :
  Forall op_ids_ok os → NoDup (in_flight [] (mst_run fl rng os s).2).
Proof.
  intros Ho. assert (∀ O, id_inv O s →
    id_inv (in_flight O (mst_run fl rng os s).2) (mst_run fl rng os s).1) as H.
  { revert s. induction Ho as [|o os Ho _ IH]; intros s O Hi; [done|]. simpl.
    pose proof (mst_step_inv fl rng O o s Ho Hi) as H1. destruct (mst_step fl rng o s) as [s1 e1].
    specialize (IH s1 _ H1). destruct (mst_run fl rng os s1) as [s2 e2]. simpl in *.
    by rewrite in_flight_app. }
  apply H. split; [constructor|]. by intros i ?%elem_of_nil.
Qed.

Lemma mst_ids_unique_witness :
  NoDup (in_flight [] (mst_run sample_mf (λ n, Z.of_nat n) sample_mst_ops sample_mst).2) ∧
  in_flight [] (mst_run sample_mf (λ n, Z.of_nat n) (take 3 sample_mst_ops) sample_mst).2 ≠ [].
Proof.
  split; [|vm_compute; congruence].
  apply (mst_ids_unique sample_mf (λ n, Z.of_nat n) sample_mst_ops sample_mst).
  repeat constructor; simpl; lia.
Defined.

(** The manager never overruns a hardware FIFO: when the read pointer it
    last saw leaves at most the capacity in use, after a round of pushes the
    slots in use have grown by exactly the beats pushed on that channel and
    are still within the capacity. *)
Theorem mst_no_overflow fl s c :
  mst_wf s → q_ok (q_of c s) → occupancy (q_of c s) ≤ q_max (q_of c s) →
  let '(s', evs) := push_transactions fl s in
  occupancy (q_of c s') = occupancy (q_of c s) + Z.of_nat (length (pushed c evs)) ∧
  occupancy (q_of c s') ≤ q_max (q_of c s).
Proof.
  intros [Hw Hq] Hok Hle. unfold push_transactions.
  pose proof (push_loop_spec fl (ms_txns s) s c Hq Hw) as Hp.
  destruct (push_loop fl (ms_txns s) s) as [[rest s'] evs].
  destruct Hp as (_ & _ & _ & _ & _ & Hocc). destruct (Hocc Hok Hle) as (_ & _ & H1 & H2).
  split; destruct c; done.
Qed.

Definition sample_full : mst :=
  sample_mst <| ms_txns := replicate 6 (TW (W_beat [1] [true] 1)) |>.

Lemma mst_no_overflow_witness :
  let '(s', evs) := push_transactions sample_mf sample_full in
  occupancy (q_of W s') = occupancy (q_of W sample_full) + Z.of_nat (length (pushed W evs)) ∧
  occupancy (q_of W s') ≤ 4.
Proof.
  apply (mst_no_overflow sample_mf sample_full W).
  - split; [split; [by left|done]|]. by repeat constructor.
  - split_and!; vm_compute; congruence.
  - vm_compute. congruence.
Defined.

(** *** Byte lanes of the write beats *)

Lemma fold_insert_lookup {A} (lane n : nat) (f : nat → A) (l0 : list A) l :
  (lane + n ≤ length l0)%nat →
  foldl (λ d b, <[(lane + b)%nat := f b]> d) l0 (seq 0 n) !! l =
  if decide (lane ≤ l < lane + n)%nat then Some (f (l - lane)%nat) else l0 !! l.
Proof.
  revert l. induction n as [|n IH]; intros l Hl.
  { rewrite decide_False by lia. done. }
  rewrite seq_S, foldl_snoc, Nat.add_0_l.
  assert (length (foldl (λ d b, <[(lane + b)%nat := f b]> d) l0 (seq 0 n)) = length l0) as Hlen.
  { clear. generalize (seq 0 n) as q. intros q. revert l0.
    induction q as [|b q IH]; intros l0; simpl; [done|]. by rewrite IH, length_insert. }
  destruct (decide (l = lane + n)%nat) as [->|Hne].
  - rewrite list_lookup_insert_eq by (rewrite Hlen; lia). rewrite decide_True by lia.
    by replace (lane + n - lane)%nat with n by lia.
  - rewrite list_lookup_insert_ne, IH by lia. by repeat case_decide; try lia.
Qed.

Lemma foldl_pair {A B C} (f : A → C → A) (g : B → C → B) (l : list C) ab :
  foldl (λ ab c, (f ab.1 c, g ab.2 c)) ab l = (foldl f ab.1 l, foldl g ab.2 l).
Proof. revert ab; induction l as [|c l IH]; intros ab; simpl; [by destruct ab|]. by rewrite IH. Qed.

(** Lanes of one beat that stays inside the bus word. *)
Lemma write_beat_lanes req s (p beat : nat) last (l : nat) :
  let bus := ms_data_width s ≫ 3 in
  let lane := Z.to_nat (u64 (wq_addr req + Z.of_nat (p * beat)) mod bus) in
  let n := (p `min` (length (wq_data req) - p * beat))%nat in
  let w := write_beat req s p beat last in
  ms_strb_width s = bus → (lane + n ≤ Z.to_nat bus)%nat → (l < Z.to_nat bus)%nat →
  wb_data w !! l = Some (if decide (lane ≤ l < lane + n)%nat
                         then at_z (wq_data req) (p * beat + (l - lane)) else 0) ∧
  wb_strb w !! l = Some (if decide (lane ≤ l < lane + n)%nat
                         then at_b (wq_strb req) (p * beat + (l - lane)) else false).
Proof.
  intros bus lane n w Hs Hb Hl. unfold w, write_beat. fold bus. rewrite Hs. cbv zeta. fold lane n.
  rewrite (foldl_pair (λ d b, <[(lane + b)%nat := at_z (wq_data req) (p * beat + b)]> d)
    (λ d b, <[(lane + b)%nat := at_b (wq_strb req) (p * beat + b)]> d)).
  cbn [wb_data wb_strb fst snd].
  rewrite !fold_insert_lookup by (rewrite length_replicate; lia).
  rewrite !lookup_replicate_2 by lia. by case_decide.
Qed.

Lemma size_spec s n :
  widths_ok s → n ∈ sizes s → 2 ^ ctz 32 n = n ∧ (n | ms_data_width s ≫ 3).
Proof.
  intros [Hw _] Hin.
  assert (∀ l, sizes s = l → forallb (λ n, (2 ^ ctz 32 n =? n) && ((ms_data_width s ≫ 3) mod n =? 0) &&
    (0 <? n)) l = true → 2 ^ ctz 32 n = n ∧ (n | ms_data_width s ≫ 3)) as Hl.
  { intros l <- Hf. rewrite forallb_forall in Hf. specialize (Hf n (proj1 (list_elem_of_In _ _) Hin)).
    zbool. split; [done|]. apply Z.mod_divide; [lia|done]. }
  apply (Hl (sizes s) eq_refl). unfold sizes. by destruct Hw as [-> | ->].
Qed.

(** Shape of the burst chosen for a request of [n] bytes. *)
Lemma a_wrapper_shape fl rng addr n a alloc s a' s' evs :
  widths_ok s → 0 < n ≤ 256 →
  a_wrapper fl rng addr n a alloc s = (true, a', s', evs) →
  core_same s s' ∧
  ((n ∈ sizes s ∧ a_len a' = 0 ∧ 2 ^ a_size a' = n ∧ (n | ms_data_width s ≫ 3)) ∨
   (a_len a' = n - 1 ∧ a_size a' = 0)).
Proof.
  intros Hw Hn E. pose proof (a_wrapper_core fl rng addr n a alloc s) as Hc. rewrite E in Hc.
  destruct Hc as [Hc _]. split; [done|]. unfold a_wrapper in E.
  destruct (if alloc then _ else _) as [[got a1] s1]. destruct got; cbn [negb] in E; [|done].
  destruct (negb _); [done|].
  pose proof (f_equal (λ x, a_len x.1.1.2) E) as El. pose proof (f_equal (λ x, a_size x.1.1.2) E) as Es.
  pose proof (f_equal (λ x, x.1.2) E) as Ess. clear E. unfold modify in *.
  cbn [fst snd a_len a_size] in El, Es, Ess. subst s1. rewrite <- El, <- Es.
  clear El Es.
  assert (sizes s' = sizes s) as -> by (unfold sizes; by destruct Hc as (_ & -> & _)).
  case_bool_decide as Hin; [left|right].
  - split; [done|]. split; [done|]. by apply size_spec.
  - split; [|done]. unfold u8. rewrite Z.mod_small; lia.
Qed.

(** Write data travel on the lanes their addresses select: for a write
    request the manager accepts (naturally aligned when it goes out as one
    transfer), byte [j] of the payload is carried, with its strobe, by beat
    [j / 2^size] on lane [(addr + j) mod bus]. *)
Theorem mst_write_lanes fl rng req alloc a s a' s' evs (j : nat) :
  let n := length (wq_data req) in
  let bus := ms_data_width s ≫ 3 in
  widths_ok s → wq_length req = n → (j < n ≤ 256)%nat →
  0 ≤ wq_addr req → wq_addr req + Z.of_nat n ≤ 2 ^ 64 →
  (Z.of_nat n ∈ sizes s → (Z.of_nat n | wq_addr req)) →
  a_wrapper fl rng (wq_addr req) (Z.of_nat n) a alloc s = (true, a', s', evs) →
  ∃ w, write_beats req s' (a_len a') (a_size a') !! (j / Z.to_nat (2 ^ a_size a'))%nat = Some (TW w) ∧
    wb_data w !! Z.to_nat ((wq_addr req + Z.of_nat j) mod bus) = Some (at_z (wq_data req) j) ∧
    wb_strb w !! Z.to_nat ((wq_addr req + Z.of_nat j) mod bus) = Some (at_b (wq_strb req) j).
Proof.
  intros n bus Hw _ Hj Ha0 Ha Hal E.
  destruct (a_wrapper_shape fl rng (wq_addr req) (Z.of_nat n) a alloc s a' s' evs Hw ltac:(lia) E) as [(_ & Hd & Hs) Hshape].
  assert (0 < bus ∧ ms_strb_width s' = bus) as [Hb Hsb].
  { unfold bus. destruct Hw as [Hw Hsw]. rewrite Hs, Hsw. destruct Hw as [-> | ->]; done. }
  pose proof (Z.mod_pos_bound (wq_addr req + Z.of_nat j) bus Hb) as Hlane.
  set (p := Z.to_nat (2 ^ a_size a')).
  assert (p ≠ 0%nat ∧ (j / p < Z.to_nat (a_len a' + 1))%nat ∧
    let lane := (wq_addr req + Z.of_nat (p * (j / p))) mod bus in
    (wq_addr req + Z.of_nat j) mod bus = lane + Z.of_nat (j mod p) ∧ lane + Z.of_nat p ≤ bus)
    as (Hp & Hbeat & Hl & Hfit).
  { unfold p. destruct Hshape as [(Hin & -> & -> & [k Hk])|[-> ->]].
    - rewrite Nat2Z.id, Nat.div_small, Nat.mod_small, Nat.mul_0_r, Z.add_0_r by lia.
      destruct (Hal Hin) as [q Hq]. fold bus in Hk. split_and!; [lia|lia|..].
      all: assert (wq_addr req mod bus = (q mod k) * Z.of_nat n) as Hm
        by (rewrite Hq, Hk; rewrite Z.mul_mod_distr_r by nia; done).
      all: pose proof (Z.mod_pos_bound q k ltac:(nia)).
      + rewrite <- Zplus_mod_idemp_l, Hm, Z.mod_small by nia. done.
      + rewrite Hm. nia.
    - change (Z.to_nat (2 ^ 0)) with 1%nat. rewrite Nat.div_1_r, Nat.mod_1_r, Nat.mul_1_l.
      split_and!; [lia|lia|lia|lia]. }
  eexists. split.
  { unfold write_beats. rewrite list_lookup_fmap, lookup_seq_lt by exact Hbeat. done. }
  fold p. pose proof (Nat.div_mod_eq j p) as Hdm. pose proof (Nat.mod_upper_bound j p Hp).
  pose proof (write_beat_lanes req s' p (j / p) (Z.of_nat (j / p) =? a_len a')
    (Z.to_nat ((wq_addr req + Z.of_nat j) mod bus))) as Hwl.
  cbv zeta in Hwl. rewrite Hd in Hwl. fold bus in Hwl. rewrite u64_small in Hwl by (split; lia).
  pose proof (Z.mod_pos_bound (wq_addr req + Z.of_nat (p * (j / p))) bus Hb) as Hb'.
  set (lane := (wq_addr req + Z.of_nat (p * (j / p))) mod bus) in *. clearbody lane.
  assert (j < length (wq_data req))%nat as Hj' by (apply Hj).
  destruct Hwl as [E1 E2]; [done|lia|lia|].
  change (0 + j / p)%nat with (j / p)%nat. rewrite E1, E2, !decide_True by lia.
  split; do 2 f_equal; lia.
Qed.

Lemma mst_write_lanes_witness :
  ∃ w, write_beats (sample_wreq 0x1004 [1; 2; 3; 4]) sample_mst 0 2 !! 0%nat = Some (TW w) ∧
    wb_data w !! 6%nat = Some 3 ∧ wb_strb w !! 6%nat = Some true.
Proof.
  destruct (a_wrapper sample_mf (λ _, 0) 0x1004 4 (a_default true) false sample_mst)
    as [[[ok a'] s'] evs] eqn:E.
  assert (ok = true ∧ a_len a' = 0 ∧ a_size a' = 2 ∧ s' = sample_mst) as (-> & El & Es & ->)
    by (vm_compute in E; injection E as <- <- <- <-; repeat split).
  pose proof (mst_write_lanes sample_mf (λ _, 0) (sample_wreq 0x1004 [1; 2; 3; 4]) false
    (a_default true) sample_mst a' sample_mst evs 2) as H.
  destruct H as (w & Hw & Hd & Hs);
    [split; [by left|done]|reflexivity|simpl; lia|vm_compute; congruence|vm_compute; congruence
    |intros _; exists 0x401; reflexivity|exact E|].
  rewrite El, Es in Hw. exists w. split; [exact Hw|]. split; [exact Hd|exact Hs].
Defined.

(** The enumerator of the atomic kind is sent as AWATOP, whose kind field is
    bits 5:4: the subordinate decodes every such code as a plain write. *)
Lemma mst_atop_not_decoded t : atop_txn (atop_of_raw (atop_code t)) = NON_ATOMIC.
Proof. by destruct t. Qed.

(** An id allocated for a request that then fails the 4 KiB check stays
    marked used although nothing was queued. *)
Lemma mst_boundary_leaks_id :
  let '(s, evs) := process_read_request sample_mf (λ _, 0)
    (Read_request_t 0xffc 8 false axi_attr_default) sample_mst in
  evs = [MsError] ∧ count_free_ids s = 15%nat ∧ ms_txns s = [].
Proof. vm_compute. by split_and!. Qed.
