(* ===== verification/MmrRouter.v ===== *)
(** * MmrRouter: rerouting MMR accesses over the AXI manager
      (src/sysmod/mmr_txn_router)

    [mmr_txn_router] is a device whose accesses are sent back to the design
    through an AXI manager.  Transfers longer than the port's burst cap are
    reissued as single bus-width beats and put together again.

    The port is a class: [push_ar] and [push_write] are the two RPCs, [wait_r]
    and [wait_w] the wait for the response with the returned id after the
    response channel has been cleared.  [None] from a wait is a response that
    never comes.  [AxiPortLaws] is what a port in front of a memory promises;
    [flat_port] is an instance. *)

From S2P Require Import Prelude Bytes Device Axi AxiMst.

Class AxiPort (E : Type) := {
  push_ar : a_t → option Z → E → option Z * E;
  push_write : write_request_t → E → option Z * E;
  wait_r : Z → E → option (read_response_t * E);
  wait_w : Z → E → option (write_response_t * E)
}.

Record mmr_flags := Mmr_flags {
  mf_attr_randomize : bool;
  mf_attr_fields : Z;
  mf_user_codepoints : bool;
  mf_srcid01_every : Z;
  mf_size_gt8_every : Z;
  mf_aw_size_gt8_every : Z
}.

Record mmr := Mmr {
  mm_attr_random : bool;
  mm_attr_fields : Z;
  mm_write_count : Z;
  mm_size_gt8_every : Z;
  mm_read_count : Z;
  mm_aw_size_gt8_every : Z;
  mm_aw_size_count : Z;
  mm_drawn : nat;                (* values taken from attr_rng_ *)
  mm_data_bytes : Z;
  mm_max_beats : Z
}.
#[export] Instance eta_mmr : Eta mmr := λ s,
  Mmr (mm_attr_random s) (mm_attr_fields s) (mm_write_count s) (mm_size_gt8_every s)
    (mm_read_count s) (mm_aw_size_gt8_every s) (mm_aw_size_count s) (mm_drawn s)
    (mm_data_bytes s) (mm_max_beats s).

Definition upsized_axsize : Z := 4.
Definition upsized_align_mask : Z := not64 (u64 (1 ≪ upsized_axsize) - 1).

(** [is_hardware_axi_source] *)
Definition is_hardware_axi_source (sources : list Z) (source : Z) : bool :=
  bool_decide (source ∈ sources).

(** [axi::a_no_id_t ar(false, addr, 0)] with the size and length of a read;
    [ar.len] is a [uint8_t]. *)
Definition ar_default (addr : Z) : a_t :=
  A_t false 0 addr 0 0 BURST_INCR false 0 0 0 0 (atop_of_raw 0) 0 false false false 0.

Definition make_ar (addr length : Z) (upsize_narrow : bool) (bus_bytes : Z) : a_t :=
  let axi_length := if upsize_narrow && (0 <? length) && (length <? 4) then 4 else length in
  let beat_bytes := if negb (bus_bytes =? 0) && (bus_bytes <? axi_length) then bus_bytes
                    else axi_length in
  let pow2_beat := negb (beat_bytes =? 0) && (beat_bytes &&& (beat_bytes - 1) =? 0) in
  if pow2_beat && (axi_length mod beat_bytes =? 0) then
    ar_default addr <| a_size := ctz 32 (u32 beat_bytes) |>
                    <| a_len := u8 (axi_length / beat_bytes - 1) |>
  else ar_default addr <| a_size := 0 |> <| a_len := u8 (axi_length - 1) |>.

Definition mmr_configure (fl : mmr_flags) (data_width : Z) (max_axlen : option Z) (s : mmr) : mmr :=
  s <| mm_attr_random := mf_attr_randomize fl |>
    <| mm_attr_fields := mf_attr_fields fl |>
    <| mm_size_gt8_every := mf_size_gt8_every fl |>
    <| mm_aw_size_gt8_every := mf_aw_size_gt8_every fl |>
    <| mm_data_bytes := data_width / 8 |>
    <| mm_max_beats := match max_axlen with Some n => n + 1 | None => 0 end |>.

Definition mmr_new : mmr := Mmr false 0 0 0 0 0 0 0 0 0.

Section mmr.
Variable fl : mmr_flags.
Variable attr_rng : nat → Z.
Variable sources : list Z.
Context {E : Type} `{AxiPort E}.

(** [codepoints] *)
Definition codepoint (i : Z) : Z := if i =? 0 then 0x0 else if i =? 1 then 0x1 else 0x3.

Definition pick_attr (is_write : bool) (s : mmr) : axi_attr_t * mmr :=
  if negb (mm_attr_random s) then (axi_attr_default, s)
  else
    let r := u32 (attr_rng (mm_drawn s)) in
    let s := s <| mm_drawn ::= S |> in
    let on m := negb (mm_attr_fields s &&& m =? 0) in
    let attr :=
      Axi_attr_t (if on 0x1 then r &&& 0xF else 0) (if on 0x2 then (r ≫ 4) &&& 0x7 else 0)
        (if on 0x4 then (r ≫ 8) &&& 0xF else 0) (if on 0x8 then (r ≫ 12) &&& 0xF else 0)
        (if on 0x10 then
           if mf_user_codepoints fl then codepoint ((r ≫ 16) mod 3) else (r ≫ 16) &&& 0xFF
         else 0)
        false 0 in
    if is_write && negb (mf_srcid01_every fl =? 0) then
      let s := s <| mm_write_count ::= λ n, u32 (n + 1) |> in
      if mm_write_count s mod mf_srcid01_every fl =? 0 then
        (attr <| at_is_manual_id := true |> <| at_manual_id := 0x4000 ||| (mm_write_count s &&& 0x7) |>, s)
      else (attr, s)
    else (attr, s).

(** The bytes of a response that the request asked for. *)
Definition extract_lanes (addr : Z) (length : nat) (data : list Z) : list Z :=
  if (length <? List.length data)%nat then
    let lane := Z.to_nat (addr mod Z.of_nat (List.length data)) in
    take (length `min` (List.length data - lane)) (drop lane data)
  else data.

(** [data[b - addr] = resp.data[b - beat_addr]] for [n] bytes from [b] on; the
    loop also ends where the response does. *)
Fixpoint copy_lanes (addr beat_addr b : Z) (n : nat) (resp data : list Z) : list Z :=
  match n with
  | O => data
  | S n' =>
      if b - beat_addr <? Z.of_nat (length resp) then
        copy_lanes addr beat_addr (b + 1) n' resp
          (<[Z.to_nat (b - addr) := at_z resp (Z.to_nat (b - beat_addr))]> data)
      else data
  end.

(** The loop of [read_split] from [beat_addr] on; [None]: it does not finish
    within [fuel] beats, or a response never comes. *)
Fixpoint read_split_loop (fuel : nat) (addr fin beat_addr bus : Z) (tmpl : a_t) (data : list Z) (e : E)
    : option (Z * list Z * E * list event) :=
  if negb (beat_addr <? fin) then Some (RESP_OKAY, data, e, [])
  else
    match fuel with
    | O => None
    | S fuel' =>
        let ar := tmpl <| a_addr := beat_addr |> <| a_size := u8 (ctz 32 (u32 bus)) |> <| a_len := 0 |> in
        match push_ar ar None e with
        | (None, e) => Some (RESP_DECERR, data, e, [EvError])
        | (Some id, e) =>
            '(resp, e) ← wait_r id e;
            let lo := addr `max` beat_addr in
            let hi := fin `min` u64 (beat_addr + bus) in
            let data := copy_lanes addr beat_addr lo (Z.to_nat (hi - lo)) (rr_data resp) data in
            if negb (rr_resp resp =? RESP_OKAY) then Some (rr_resp resp, data, e, [])
            else read_split_loop fuel' addr fin (u64 (beat_addr + bus)) bus tmpl data e
        end
    end.

(** Beats a transfer of [length] bytes can touch. *)
Definition split_fuel (length : nat) (bus : Z) : nat := (Z.to_nat (Z.of_nat length / bus) + 2)%nat.

Definition read_split (addr : Z) (length : nat) (tmpl : a_t) (s : mmr) (e : E)
    : option (Z * list Z * E * list event) :=
  let bus := mm_data_bytes s in
  read_split_loop (split_fuel length bus) addr (u64 (addr + Z.of_nat length))
    (addr &&& not64 (u64 (bus - 1))) bus tmpl (replicate length 0) e.

(** [read]: [data] is the buffer of the caller. *)
Definition mmr_read (source : Z) (r : read_t) (data : list Z) (s : mmr) (e : E)
    : option (Z * list Z * mmr * E * list event) :=
  let addr := r_addr r in
  let len := r_length r in
  let hardware_read := is_hardware_axi_source sources source in
  let ar := make_ar addr (Z.of_nat len) (negb hardware_read) (mm_data_bytes s) in
  let ar := if hardware_read then ar <| a_allow_decerr_resp := true |> else ar in
  let '(attr, s) := pick_attr false s in
  let ar := ar <| a_cache := at_cache attr |> <| a_prot := at_prot attr |> <| a_qos := at_qos attr |>
               <| a_region := at_region attr |> <| a_user := at_user attr |> in
  if negb (mm_max_beats s =? 0) && (mm_max_beats s - 1 <? a_len ar) then
    '(resp, data, e, evs) ← read_split addr len ar s e; Some (resp, data, s, e, evs)
  else
    let '(inject, s) :=
      if negb (mm_size_gt8_every s =? 0) then
        let s := s <| mm_read_count ::= λ n, u32 (n + 1) |> in
        (mm_read_count s mod mm_size_gt8_every s =? 0, s)
      else (false, s) in
    let ar := if inject then ar <| a_addr ::= λ a, a &&& upsized_align_mask |>
                                <| a_size := upsized_axsize |> <| a_allow_decerr_resp := true |>
              else ar in
    match push_ar ar None e with
    | (None, e) => Some (RESP_DECERR, data, s, e, [EvError])
    | (Some id, e) =>
        '(resp, e) ← wait_r id e;
        Some (rr_resp resp, extract_lanes addr len (rr_data resp), s, e, [])
    end.

(** One beat of [write_split]: the bytes of [w] from address [lo] to [hi]. *)
Definition split_beat (w : write_t) (beat_addr bus lo hi : Z) : list Z * list bool :=
  foldl (λ ds k, let b := lo + Z.of_nat k in
           (<[Z.to_nat (b - beat_addr) := at_z (w_data w) (Z.to_nat (b - w_addr w))]> ds.1,
            <[Z.to_nat (b - beat_addr) := at_b (w_strb w) (Z.to_nat (b - w_addr w))]> ds.2))
    (replicate (Z.to_nat bus) 0, replicate (Z.to_nat bus) false) (seq 0 (Z.to_nat (hi - lo))).

Fixpoint write_split_loop (fuel : nat) (w : write_t) (attr : axi_attr_t) (fin beat_addr bus : Z) (e : E)
    : option (Z * E * list event) :=
  if negb (beat_addr <? fin) then Some (RESP_OKAY, e, [])
  else
    match fuel with
    | O => None
    | S fuel' =>
        let lo := w_addr w `max` beat_addr in
        let hi := fin `min` u64 (beat_addr + bus) in
        let '(beat_data, beat_strb) := split_beat w beat_addr bus lo hi in
        let req := mk_write_request beat_addr (Z.to_nat bus) beat_data beat_strb false
                     <| wq_allow_decerr_resp := true |>
                     <| wq_attr := attr <| at_is_manual_id := false |> |> in
        match push_write req e with
        | (None, e) => Some (RESP_DECERR, e, [EvError])
        | (Some id, e) =>
            '(resp, e) ← wait_w id e;
            if negb (wr_resp resp =? RESP_OKAY) then Some (wr_resp resp, e, [])
            else write_split_loop fuel' w attr fin (u64 (beat_addr + bus)) bus e
        end
    end.

Definition write_split (w : write_t) (attr : axi_attr_t) (s : mmr) (e : E) : option (Z * E * list event) :=
  let bus := mm_data_bytes s in
  write_split_loop (split_fuel (w_length w) bus) w attr (u64 (w_addr w + Z.of_nat (w_length w)))
    (w_addr w &&& not64 (u64 (bus - 1))) bus e.

Definition mmr_write (w : write_t) (s : mmr) (e : E) : option (Z * mmr * E * list event) :=
  let len := Z.of_nat (w_length w) in
  let '(attr, s) := pick_attr true s in
  let single_beat := negb (len =? 0) && (len &&& (len - 1) =? 0) && (len <=? mm_data_bytes s) in
  let beats := if single_beat then 1 else len in
  if negb (mm_max_beats s =? 0) && (mm_max_beats s <? beats) then
    '(resp, e, evs) ← write_split w attr s e; Some (resp, s, e, evs)
  else
    let req := mk_write_request (w_addr w) (w_length w) (w_data w) (w_strb w) false
                 <| wq_allow_decerr_resp := true |> <| wq_attr := attr |> in
    let '(inject, s) :=
      if negb (mm_aw_size_gt8_every s =? 0) then
        let s := s <| mm_aw_size_count ::= λ n, u32 (n + 1) |> in
        (mm_aw_size_count s mod mm_aw_size_gt8_every s =? 0, s)
      else (false, s) in
    let req := if inject then req <| wq_addr ::= λ a, a &&& upsized_align_mask |>
                                  <| wq_size_override := upsized_axsize |>
               else req in
    match push_write req e with
    | (None, e) => Some (RESP_DECERR, s, e, [EvError])
    | (Some id, e) => '(resp, e) ← wait_w id e; Some (wr_resp resp, s, e, [])
    end.
End mmr.

(** ** What a port in front of a memory promises *)

(** [n] bytes of a memory. *)
Definition mem_bytes (m : Z → Z) (addr : Z) (n : nat) : list Z :=
  (λ k : nat, m (addr + Z.of_nat k)) <$> seq 0 n.

Class AxiPortLaws (E : Type) `{AxiPort E} (bus : Z) := {
  port_ok : E → Prop;
  port_mem : E → Z → Z;
  (** A single beat returns the bus word that contains its address. *)
  port_read ar e :
    port_ok e → a_w ar = false → a_exp_err_rsp ar = false → a_seqid ar = 0 →
    a_len ar = 0 → is_u64 (a_addr ar) →
    ∃ id e1 e2, push_ar ar None e = (Some id, e1) ∧
      wait_r id e1 = Some (Read_response_t id
        (mem_bytes (port_mem e) (a_addr ar - a_addr ar mod bus) (Z.to_nat bus)) RESP_OKAY, e2) ∧
      port_ok e2 ∧ ∀ a, port_mem e2 a = port_mem e a;
  (** A write of one naturally sized beat stores its strobed bytes. *)
  port_write q e (k : Z) :
    port_ok e → 0 ≤ k → Z.of_nat (wq_length q) = 2 ^ k → 2 ^ k ≤ bus →
    is_u64 (wq_addr q) → wq_addr q mod bus + 2 ^ k ≤ bus →
    length (wq_data q) = wq_length q → length (wq_strb q) = wq_length q →
    wq_exp_err_rsp q = false → wq_size_override q = 0 → at_is_manual_id (wq_attr q) = false →
    ∃ id e1 e2, push_write q e = (Some id, e1) ∧
      wait_w id e1 = Some (Write_response_t id RESP_OKAY, e2) ∧ port_ok e2 ∧
      ∀ a, port_mem e2 a =
        if (wq_addr q <=? a) && (a <? wq_addr q + 2 ^ k) && at_b (wq_strb q) (Z.to_nat (a - wq_addr q))
        then at_z (wq_data q) (Z.to_nat (a - wq_addr q)) else port_mem e a
}.

(** ** Splitting a read *)

Lemma length_mem_bytes m addr n : length (mem_bytes m addr n) = n.
Proof. unfold mem_bytes. by rewrite length_fmap, length_seq. Qed.

Lemma mem_bytes_lookup m addr n i : (i < n)%nat → mem_bytes m addr n !! i = Some (m (addr + Z.of_nat i)).
Proof. intros. unfold mem_bytes. rewrite list_lookup_fmap, lookup_seq_lt by lia. done. Qed.

Lemma mem_bytes_S m addr n : mem_bytes m addr (S n) = mem_bytes m addr n ++ [m (addr + Z.of_nat n)].
Proof. unfold mem_bytes. by rewrite seq_S, fmap_app. Qed.

Lemma mem_bytes_ext m m' addr n : (∀ a, m a = m' a) → mem_bytes m addr n = mem_bytes m' addr n.
Proof. intros Hm. apply list_fmap_ext. intros. apply Hm. Qed.

(** Copying [n] more bytes behind the [p] bytes already there. *)
Lemma copy_lanes_spec m addr beat bus p n (rest : list Z) :
  (n ≤ length rest)%nat → beat ≤ addr + Z.of_nat p →
  addr + Z.of_nat p + Z.of_nat n ≤ beat + Z.of_nat bus →
  copy_lanes addr beat (addr + Z.of_nat p) n (mem_bytes m beat bus) (mem_bytes m addr p ++ rest) =
  mem_bytes m addr (p + n) ++ drop n rest.
Proof.
  revert p rest; induction n as [|n IH]; intros p rest Hl Hb Hh; cbn [copy_lanes].
  { by rewrite Nat.add_0_r. }
  destruct rest as [|x rest]; [cbn in Hl; lia|].
  rewrite (proj2 (Z.ltb_lt _ _)) by (rewrite length_mem_bytes; lia).
  replace (addr + Z.of_nat p + 1) with (addr + Z.of_nat (S p)) by lia.
  replace (Z.to_nat (addr + Z.of_nat p - addr)) with (length (mem_bytes m addr p) + 0)%nat
    by (rewrite length_mem_bytes; lia).
  rewrite insert_app_r. cbn [insert list_insert].
  rewrite (at_z_Some _ _ (m (addr + Z.of_nat p))).
  2: { rewrite mem_bytes_lookup by lia. do 2 f_equal. lia. }
  rewrite cons_middle, app_assoc, <- mem_bytes_S.
  rewrite IH by (cbn in Hl; lia). f_equal. f_equal. lia.
Qed.

Section split.
Context {E : Type} `{AxiPort E} (bus : Z) (k : Z) `{L : !AxiPortLaws E bus}.
Hypothesis bus_pow2 : bus = 2 ^ k.
Hypothesis k_range : 0 ≤ k < 32.

Lemma bus_pos : 0 < bus.
Proof. rewrite bus_pow2. apply Z.pow_pos_nonneg; lia. Qed.

Lemma read_split_loop_spec fuel addr len beat tmpl p e :
  port_ok e → a_w tmpl = false → a_exp_err_rsp tmpl = false → a_seqid tmpl = 0 →
  0 ≤ beat → addr + Z.of_nat len + bus ≤ 2 ^ 64 → beat mod bus = 0 →
  Z.of_nat p = 0 `max` (Z.of_nat len `min` (beat - addr)) → addr - bus < beat →
  addr + Z.of_nat len - beat ≤ Z.of_nat fuel * bus →
  ∃ e', read_split_loop fuel addr (addr + Z.of_nat len) beat bus tmpl
          (mem_bytes (port_mem e) addr p ++ replicate (len - p) 0) e =
        Some (RESP_OKAY, mem_bytes (port_mem e) addr len, e', []) ∧
        port_ok e' ∧ ∀ a, port_mem e' a = port_mem e a.
Proof.
  intros Hok Hw Hx Hs. pose proof bus_pos as Hbus.
  revert beat p e Hok; induction fuel as [|fuel IH]; intros beat p e Hok Hb Hend Hal Hp Hlo Hfuel;
    cbn [read_split_loop]; destruct (Z.ltb_spec beat (addr + Z.of_nat len)) as [Hlt|Hge]; cbn [negb].
  1: lia.
  1, 3: assert (p = len) as -> by lia; rewrite Nat.sub_diag, app_nil_r; eauto.
  set (ar := tmpl <| a_addr := beat |> <| a_size := _ |> <| a_len := 0 |>).
  destruct (port_read ar e Hok Hw Hx Hs eq_refl) as (id & e1 & e2 & E1 & E2 & Hok2 & Hm2).
  { cbn. unfold is_u64. lia. }
  rewrite E1. cbn [mbind option_bind]. rewrite E2. cbn [mbind option_bind rr_data rr_resp].
  change (a_addr ar) with beat. rewrite Hal, Z.sub_0_r.
  assert (u64 (beat + bus) = beat + bus) as Hu by (apply u64_small; unfold is_u64; lia).
  rewrite Hu. cbn [negb].
  set (n := Z.to_nat ((addr + Z.of_nat len) `min` (beat + bus) - addr `max` beat)).
  replace (addr `max` beat) with (addr + Z.of_nat p) by lia.
  rewrite copy_lanes_spec; [|rewrite length_replicate; lia|lia|lia].
  rewrite drop_replicate. replace (len - p - n)%nat with (len - (p + n))%nat by lia.
  change (RESP_OKAY =? RESP_OKAY) with true. cbn [negb].
  destruct (IH (beat + bus) (p + n)%nat e2 Hok2) as (e3 & E3 & Hok3 & Hm3); try lia.
  { rewrite Zplus_mod, Hal, Z_mod_same_full. done. }
  rewrite (mem_bytes_ext (port_mem e) (port_mem e2)) by done. rewrite E3.
  rewrite (mem_bytes_ext (port_mem e2) (port_mem e)) by done.
  exists e3. split_and!; [done|done|]. intros a. by rewrite Hm3.
Qed.

(** ** Splitting a write *)

(** The memory after the bytes of [w] below address [fin] were stored. *)
Definition stored (w : write_t) (fin : Z) (m : Z → Z) (a : Z) : Z :=
  if (w_addr w <=? a) && (a <? fin) && at_b (w_strb w) (Z.to_nat (a - w_addr w))
  then at_z (w_data w) (Z.to_nat (a - w_addr w)) else m a.

Lemma split_beat_lookup w beat lo hi i :
  beat ≤ lo → lo ≤ hi → hi ≤ beat + bus → (i < Z.to_nat bus)%nat →
  let a := beat + Z.of_nat i in
  let inside := bool_decide (lo ≤ a < hi) in
  (split_beat w beat bus lo hi).1 !! i =
    Some (if inside then at_z (w_data w) (Z.to_nat (a - w_addr w)) else 0) ∧
  (split_beat w beat bus lo hi).2 !! i =
    Some (if inside then at_b (w_strb w) (Z.to_nat (a - w_addr w)) else false).
Proof.
  intros H1 H2 H3 Hi a inside. unfold split_beat.
  assert (∀ (A : Type) (f : Z → A) (l : list A), foldl (λ d k, <[Z.to_nat (lo + Z.of_nat k - beat) := f (lo + Z.of_nat k)]> d) l
    (seq 0 (Z.to_nat (hi - lo))) =
    foldl (λ d k, <[(Z.to_nat (lo - beat) + k)%nat := f (lo + Z.of_nat k)]> d) l (seq 0 (Z.to_nat (hi - lo)))) as Hf.
  { intros A f l. generalize (seq 0 (Z.to_nat (hi - lo))). intros q. revert l.
    induction q as [|j q IH]; intros l; [done|]. cbn. rewrite IH. do 2 f_equal. lia. }
  rewrite (foldl_pair
    (λ d k, <[Z.to_nat (lo + Z.of_nat k - beat) := at_z (w_data w) (Z.to_nat (lo + Z.of_nat k - w_addr w))]> d)
    (λ d k, <[Z.to_nat (lo + Z.of_nat k - beat) := at_b (w_strb w) (Z.to_nat (lo + Z.of_nat k - w_addr w))]> d)).
  cbn [fst snd].
  rewrite (Hf _ (λ b, at_z (w_data w) (Z.to_nat (b - w_addr w)))),
    (Hf _ (λ b, at_b (w_strb w) (Z.to_nat (b - w_addr w)))).
  rewrite !fold_insert_lookup by (rewrite length_replicate; lia).
  rewrite !lookup_replicate_2 by lia. subst inside a.
  destruct (decide _) as [Hin|Hout]; [rewrite bool_decide_true by lia|rewrite bool_decide_false by lia]; [|done].
  split; do 3 f_equal; lia.
Qed.

Lemma length_split_beat w beat lo hi :
  length (split_beat w beat bus lo hi).1 = Z.to_nat bus ∧
  length (split_beat w beat bus lo hi).2 = Z.to_nat bus.
Proof.
  unfold split_beat. generalize (seq 0 (Z.to_nat (hi - lo))) as q. intros q.
  assert (∀ ds : list Z * list bool, length ds.1 = Z.to_nat bus → length ds.2 = Z.to_nat bus →
    let r := foldl (λ ds k, let b := lo + Z.of_nat k in
           (<[Z.to_nat (b - beat) := at_z (w_data w) (Z.to_nat (b - w_addr w))]> ds.1,
            <[Z.to_nat (b - beat) := at_b (w_strb w) (Z.to_nat (b - w_addr w))]> ds.2)) ds q in
    length r.1 = Z.to_nat bus ∧ length r.2 = Z.to_nat bus) as Hf.
  { induction q as [|j q IH]; intros ds H1 H2; [done|]. cbn [foldl]. apply IH; cbn [fst snd]; by rewrite length_insert. }
  apply Hf; cbn [fst snd]; by rewrite length_replicate.
Qed.

Lemma write_split_loop_spec fuel w attr beat e :
  let fin := w_addr w + Z.of_nat (w_length w) in
  port_ok e → 0 ≤ beat → 0 ≤ w_addr w → fin + bus ≤ 2 ^ 64 → beat mod bus = 0 → w_addr w - bus < beat →
  fin - beat ≤ Z.of_nat fuel * bus →
  ∃ e', write_split_loop fuel w attr fin beat bus e = Some (RESP_OKAY, e', []) ∧ port_ok e' ∧
    ∀ a, port_mem e' a = if beat <=? a then stored w fin (port_mem e) a else port_mem e a.
Proof.
  intros fin. pose proof bus_pos as Hbus.
  revert beat e; induction fuel as [|fuel IH]; intros beat e Hok Hb Ha Hend Hal Hlo Hfuel;
    cbn [write_split_loop]; destruct (Z.ltb_spec beat fin) as [Hlt|Hge]; cbn [negb].
  1: lia.
  1, 3: exists e; split_and!; [done|done|]; intros a; unfold stored;
    destruct (Z.leb_spec beat a), (Z.ltb_spec a fin); rewrite ?andb_false_r; done || lia.
  assert (u64 (beat + bus) = beat + bus) as Hu by (apply u64_small; unfold is_u64; lia). rewrite Hu.
  set (lo := w_addr w `max` beat). set (hi := fin `min` (beat + bus)).
  pose proof (length_split_beat w beat lo hi) as [Hl1 Hl2].
  pose proof (split_beat_lookup w beat lo hi) as Hsb.
  destruct (split_beat w beat bus lo hi) as [bd bs]. cbn [fst snd] in *.
  set (q := mk_write_request beat (Z.to_nat bus) bd bs false <| wq_allow_decerr_resp := true |>
              <| wq_attr := attr <| at_is_manual_id := false |> |>).
  destruct (port_write q e k Hok) as (id & e1 & e2 & E1 & E2 & Hok2 & Hm2); try done; cbn; try lia.
  { unfold is_u64. lia. }
  rewrite E1. cbn [mbind option_bind]. rewrite E2. cbn [mbind option_bind wr_resp].
  change (RESP_OKAY =? RESP_OKAY) with true. cbn [negb].
  destruct (IH (beat + bus) e2 Hok2) as (e3 & E3 & Hok3 & Hm3); try lia.
  { rewrite Zplus_mod, Hal, Z_mod_same_full. done. }
  exists e3. split_and!; [done|done|]. intros a. rewrite Hm3. unfold stored. rewrite !Hm2.
  change (wq_addr q) with beat. change (wq_data q) with bd. change (wq_strb q) with bs. rewrite <- bus_pow2.
  destruct (Z.leb_spec (beat + bus) a).
  - rewrite (proj2 (Z.leb_le beat a)) by lia. rewrite (proj2 (Z.ltb_ge a (beat + bus))) by lia. done.
  - destruct (Z.leb_spec beat a); cbn [andb]; [|done]. rewrite (proj2 (Z.ltb_lt a (beat + bus))) by lia.
    destruct (Hsb (Z.to_nat (a - beat))) as [Hd Hs]; try lia.
    rewrite (at_z_Some _ _ _ Hd), (at_b_Some _ _ _ Hs). cbn [andb]. clear Hd Hs.
    replace (beat + Z.of_nat (Z.to_nat (a - beat))) with a by lia.
    case_bool_decide; destruct (Z.leb_spec (w_addr w) a), (Z.ltb_spec a fin); cbn [andb]; done || lia.
Qed.

Lemma align_down addr : is_u64 addr → addr &&& not64 (u64 (bus - 1)) = addr - addr mod bus.
Proof.
  intros Ha. pose proof bus_pos.
  assert (bus ≤ 2 ^ 31) by (rewrite bus_pow2; apply Z.pow_le_mono_r; lia).
  rewrite u64_small by (unfold is_u64; lia). rewrite bus_pow2. apply land_not_ones; [done|lia].
Qed.

Lemma split_fuel_enough addr (len : nat) :
  addr + Z.of_nat len - (addr - addr mod bus) ≤ Z.of_nat (split_fuel len bus) * bus.
Proof.
  pose proof bus_pos. unfold split_fuel. pose proof (Z.mod_pos_bound addr bus ltac:(lia)).
  pose proof (Z.div_mod (Z.of_nat len) bus ltac:(lia)).
  pose proof (Z.mod_pos_bound (Z.of_nat len) bus ltac:(lia)).
  assert (0 ≤ Z.of_nat len / bus) by (apply Z.div_pos; lia). nia.
Qed.

Lemma read_split_spec addr len tmpl s e :
  port_ok e → a_w tmpl = false → a_exp_err_rsp tmpl = false → a_seqid tmpl = 0 →
  mm_data_bytes s = bus → 0 ≤ addr → addr + Z.of_nat len + bus ≤ 2 ^ 64 →
  ∃ e', read_split addr len tmpl s e = Some (RESP_OKAY, mem_bytes (port_mem e) addr len, e', []) ∧
    port_ok e' ∧ ∀ a, port_mem e' a = port_mem e a.
Proof.
  intros Hok Hw Hx Hs Hd Ha Hend. pose proof bus_pos. unfold read_split. rewrite Hd.
  rewrite align_down by (unfold is_u64; lia).
  rewrite u64_small by (unfold is_u64; lia).
  pose proof (Z.mod_pos_bound addr bus ltac:(lia)).
  pose proof (read_split_loop_spec (split_fuel len bus) addr len (addr - addr mod bus) tmpl 0 e Hok Hw Hx Hs) as Hl.
  cbn [mem_bytes seq fmap list_fmap app] in Hl. rewrite Nat.sub_0_r in Hl. apply Hl; try lia.
  - pose proof (Z.mod_le addr bus ltac:(lia) ltac:(lia)). lia.
  - rewrite Zminus_mod, Z.mod_mod, Z.sub_diag by lia. by rewrite Z.mod_0_l by lia.
  - apply split_fuel_enough.
Qed.

Lemma write_split_spec w attr s e :
  port_ok e → mm_data_bytes s = bus → 0 ≤ w_addr w →
  w_addr w + Z.of_nat (w_length w) + bus ≤ 2 ^ 64 →
  ∃ e', write_split w attr s e = Some (RESP_OKAY, e', []) ∧ port_ok e' ∧
    ∀ a, port_mem e' a = stored w (w_addr w + Z.of_nat (w_length w)) (port_mem e) a.
Proof.
  intros Hok Hd Ha Hend. pose proof bus_pos. unfold write_split. rewrite Hd.
  rewrite align_down by (unfold is_u64; lia). rewrite u64_small by (unfold is_u64; lia).
  pose proof (Z.mod_pos_bound (w_addr w) bus ltac:(lia)).
  pose proof (Z.mod_le (w_addr w) bus ltac:(lia) ltac:(lia)).
  destruct (write_split_loop_spec (split_fuel (w_length w) bus) w attr
    (w_addr w - w_addr w mod bus) e Hok) as (e' & E1 & Hok' & Hm); try lia.
  - rewrite Zminus_mod, Z.mod_mod, Z.sub_diag by lia. by rewrite Z.mod_0_l by lia.
  - apply split_fuel_enough.
  - exists e'. split_and!; [done|done|]. intros a. rewrite Hm.
    destruct (Z.leb_spec (w_addr w - w_addr w mod bus) a); [done|].
    unfold stored. by rewrite (proj2 (Z.leb_gt _ _)) by lia.
Qed.
End split.

(** ** The router *)

Lemma pow2_test j : 0 ≤ j → 2 ^ j &&& (2 ^ j - 1) = 0.
Proof.
  intros Hj. replace (2 ^ j - 1) with (Z.ones j) by (rewrite Z.ones_equiv; lia).
  rewrite Z.land_ones by lia. apply Z.mod_same. assert (0 < 2 ^ j) by (apply Z.pow_pos_nonneg; lia). lia.
Qed.

(** Lengths that go out as one beat. *)
Lemma make_ar_single addr len (up : bool) bus j :
  0 ≤ j → len = 2 ^ j → len ≤ bus → 4 ≤ bus → a_len (make_ar addr len up bus) = 0.
Proof.
  intros Hj -> Hb H4. unfold make_ar. assert (0 < 2 ^ j) by (apply Z.pow_pos_nonneg; lia).
  set (l := if up && _ && _ then 4 else 2 ^ j).
  assert (∃ i, 0 ≤ i ∧ l = 2 ^ i ∧ l ≤ bus) as (i & Hi & El & Hl).
  { subst l. destruct (up && _ && _); [exists 2|exists j]; done || lia. }
  clearbody l. subst l. assert (0 < 2 ^ i) by (apply Z.pow_pos_nonneg; lia).
  rewrite (proj2 (Z.ltb_ge _ _)) by lia. rewrite andb_false_r.
  rewrite (proj2 (Z.eqb_neq (2 ^ i) 0)) by lia. rewrite pow2_test by lia.
  rewrite Z.mod_same by lia. cbn. rewrite Z.div_same by lia. done.
Qed.

Lemma extract_lanes_spec m addr (len : nat) bus :
  0 < bus → addr mod bus + Z.of_nat len ≤ bus →
  extract_lanes addr len (mem_bytes m (addr - addr mod bus) (Z.to_nat bus)) = mem_bytes m addr len.
Proof.
  intros Hb Hl. unfold extract_lanes. rewrite length_mem_bytes.
  pose proof (Z.mod_pos_bound addr bus Hb) as Hm.
  destruct (Nat.ltb_spec len (Z.to_nat bus)).
  - rewrite Z2Nat.id by lia. apply list_eq. intros i.
    destruct (decide (i < len)%nat).
    + rewrite lookup_take_lt by lia. rewrite lookup_drop, !mem_bytes_lookup by lia. do 2 f_equal. lia.
    + rewrite !lookup_ge_None_2; [done|rewrite length_mem_bytes; lia|rewrite length_take; lia].
  - assert (len = Z.to_nat bus) as -> by lia. by replace (addr - addr mod bus) with addr by lia.
Qed.

Lemma pick_attr_core fl rng w s :
  mm_data_bytes (pick_attr fl rng w s).2 = mm_data_bytes s ∧
  mm_max_beats (pick_attr fl rng w s).2 = mm_max_beats s ∧
  mm_size_gt8_every (pick_attr fl rng w s).2 = mm_size_gt8_every s ∧
  mm_aw_size_gt8_every (pick_attr fl rng w s).2 = mm_aw_size_gt8_every s.
Proof.
  unfold pick_attr. destruct (negb (mm_attr_random s)); [done|]. destruct (w && _); [|done].
  by destruct (_ mod _ =? 0).
Qed.

Lemma pick_attr_manual fl rng w s :
  mf_srcid01_every fl = 0 → at_is_manual_id (pick_attr fl rng w s).1 = false.
Proof.
  intros Hz. unfold pick_attr. rewrite Hz. destruct (negb _); [done|].
  by rewrite andb_false_r.
Qed.

(** A rerouted read returns the bytes of the memory behind the port.
    Whenever the access fits one beat of the bus, or its burst would exceed
    the length cap of the port so that it is reissued as single bus-width
    beats, at any alignment and from any source, the router answers OKAY with
    exactly the addressed bytes in order, and finishes. *)
Theorem mmr_read_correct {E} `{AxiPort E} bus k `{!AxiPortLaws E bus} fl rng sources source r buf s e :
  bus = 2 ^ k → 2 ≤ k < 32 → mm_data_bytes s = bus → mm_size_gt8_every s = 0 → 0 ≤ mm_max_beats s →
  port_ok e → 0 ≤ r_addr r → r_addr r + Z.of_nat (r_length r) + bus ≤ 2 ^ 64 →
  (∃ j, 0 ≤ j ∧ Z.of_nat (r_length r) = 2 ^ j ∧ r_addr r mod bus + 2 ^ j ≤ bus) ∨
  (0 < mm_max_beats s ∧
   mm_max_beats s - 1 < a_len (make_ar (r_addr r) (Z.of_nat (r_length r))
                                 (negb (is_hardware_axi_source sources source)) bus)) →
  ∃ s' e', mmr_read fl rng sources source r buf s e =
             Some (RESP_OKAY, mem_bytes (port_mem e) (r_addr r) (r_length r), s', e', []) ∧
    port_ok e' ∧ ∀ a, port_mem e' a = port_mem e a.
Proof.
  intros Hbus Hk Hd Hi Hmax Hok Ha Hend Hcase.
  assert (0 < bus) as Hpos by (rewrite Hbus; apply Z.pow_pos_nonneg; lia).
  unfold mmr_read. rewrite Hd. set (hw := is_hardware_axi_source sources source) in *.
  set (ar0 := make_ar (r_addr r) (Z.of_nat (r_length r)) (negb hw) bus) in *.
  pose proof (pick_attr_core fl rng false s) as (Hd' & Hm' & Hi' & _).
  destruct (pick_attr fl rng false s) as [attr s1]. cbn [fst snd] in *.
  set (ar := (if hw then _ else _) <| a_cache := _ |> <| a_prot := _ |> <| a_qos := _ |>
    <| a_region := _ |> <| a_user := _ |>).
  assert (a_w ar = false ∧ a_exp_err_rsp ar = false ∧ a_seqid ar = 0 ∧ a_addr ar = r_addr r ∧
          a_len ar = a_len ar0) as (Hw & Hx & Hs & Haddr & Hlen).
  { subst ar ar0. unfold make_ar. destruct hw, (_ && (_ mod _ =? 0)); done. }
  clearbody ar. rewrite Hm', Hlen.
  destruct (negb (mm_max_beats s =? 0) && (mm_max_beats s - 1 <? a_len ar0)) eqn:Ecap.
  - destruct (read_split_spec bus k Hbus ltac:(lia) (r_addr r) (r_length r) ar s1 e)
      as (e' & -> & Hok' & Hm); try done; [congruence|].
    cbn [mbind option_bind]. eauto.
  - destruct Hcase as [(j & Hj & El & Hfit)|[Hc1 Hc2]].
    2: { rewrite (proj2 (Z.eqb_neq _ 0)), (proj2 (Z.ltb_lt _ _)) in Ecap by lia. done. }
    rewrite Hi', Hi. cbn [Z.eqb negb].
    pose proof (Z.mod_pos_bound (r_addr r) bus Hpos).
    assert (a_len ar0 = 0) as Hz.
    { apply (make_ar_single _ _ _ _ j); try lia. rewrite Hbus. change 4 with (2 ^ 2).
      apply Z.pow_le_mono_r; lia. }
    destruct (port_read ar e Hok Hw Hx Hs) as (id & e1 & e2 & -> & E2 & Hok2 & Hm2);
      [congruence|rewrite Haddr; unfold is_u64; lia|].
    rewrite E2. cbn [mbind option_bind rr_resp rr_data]. rewrite Haddr, extract_lanes_spec by lia. eauto.
Qed.

(** A rerouted write stores exactly its strobed bytes.  Whenever the access
    fits one beat of the bus, or exceeds the length cap of the port and is
    reissued as single bus-width beats, every byte whose strobe is set is
    stored at its address, no other byte changes, and the router answers
    OKAY. *)
Theorem mmr_write_correct {E} `{AxiPort E} bus k `{!AxiPortLaws E bus} fl rng w s e :
  bus = 2 ^ k → 2 ≤ k < 32 → mm_data_bytes s = bus → mm_aw_size_gt8_every s = 0 →
  mf_srcid01_every fl = 0 → 0 ≤ mm_max_beats s →
  port_ok e → 0 ≤ w_addr w → w_addr w + Z.of_nat (w_length w) + bus ≤ 2 ^ 64 →
  length (w_data w) = w_length w → length (w_strb w) = w_length w →
  (∃ j, 0 ≤ j ∧ Z.of_nat (w_length w) = 2 ^ j ∧ w_addr w mod bus + 2 ^ j ≤ bus) ∨
  (0 < mm_max_beats s < Z.of_nat (w_length w) ∧ bus < Z.of_nat (w_length w)) →
  ∃ s' e', mmr_write fl rng w s e = Some (RESP_OKAY, s', e', []) ∧ port_ok e' ∧
    ∀ a, port_mem e' a = stored w (w_addr w + Z.of_nat (w_length w)) (port_mem e) a.
Proof.
  intros Hbus Hk Hd Hi Hman Hmax Hok Ha Hend Hld Hls Hcase.
  assert (0 < bus) as Hpos by (rewrite Hbus; apply Z.pow_pos_nonneg; lia).
  unfold mmr_write.
  pose proof (pick_attr_core fl rng true s) as (Hd' & Hm' & _ & Hi').
  pose proof (pick_attr_manual fl rng true s Hman) as Hnm.
  destruct (pick_attr fl rng true s) as [attr s1]. cbn [fst snd] in *. rewrite Hd', Hm', Hd.
  destruct Hcase as [(j & Hj & El & Hfit)|[[Hc1 Hc2] Hc3]].
  - pose proof (Z.mod_pos_bound (w_addr w) bus Hpos).
    assert (0 < 2 ^ j) by (apply Z.pow_pos_nonneg; lia).
    rewrite El, pow2_test by lia. rewrite (proj2 (Z.eqb_neq (2 ^ j) 0)), (proj2 (Z.leb_le (2 ^ j) bus)) by lia.
    cbn [negb andb Z.eqb].
    assert (negb (mm_max_beats s =? 0) && (mm_max_beats s <? 1) = false) as ->.
    { destruct (Z.eqb_spec (mm_max_beats s) 0), (Z.ltb_spec (mm_max_beats s) 1); done || lia. }
    rewrite Hi', Hi. cbn [Z.eqb negb].
    set (q := mk_write_request _ _ _ _ _ <| wq_allow_decerr_resp := _ |> <| wq_attr := attr |>).
    destruct (port_write q e j Hok) as (id & e1 & e2 & -> & E2 & Hok2 & Hm2); try done; cbn; try lia.
    { unfold is_u64. lia. }
    rewrite E2. cbn [mbind option_bind wr_resp]. eexists _, _. split_and!; [done|done|].
    intros a. by rewrite Hm2.
  - rewrite (proj2 (Z.leb_gt (Z.of_nat (w_length w)) bus)), andb_false_r by lia.
    rewrite (proj2 (Z.eqb_neq _ 0)), (proj2 (Z.ltb_lt _ _)) by lia. cbn [negb andb].
    destruct (write_split_spec bus k Hbus ltac:(lia) w attr s1 e) as (e' & -> & Hok' & Hm); try done; [congruence|].
    cbn [mbind option_bind]. eauto.
Qed.

(** ** A port in front of a flat memory

    One request is outstanding at a time; the response is computed when it is
    waited for. *)

Record flat_port := Flat_port {
  fp_bus : Z;
  fp_mem : Z → Z;
  fp_r : option a_t;
  fp_w : option write_request_t
}.

#[export] Instance flat_axi_port : AxiPort flat_port := {
  push_ar a _ p := (Some 0, Flat_port (fp_bus p) (fp_mem p) (Some a) (fp_w p));
  push_write q p := (Some 0, Flat_port (fp_bus p) (fp_mem p) (fp_r p) (Some q));
  wait_r id p :=
    a ← fp_r p;
    Some (Read_response_t id (mem_bytes (fp_mem p) (a_addr a - a_addr a mod fp_bus p) (Z.to_nat (fp_bus p)))
            RESP_OKAY, Flat_port (fp_bus p) (fp_mem p) None (fp_w p));
  wait_w id p :=
    q ← fp_w p;
    Some (Write_response_t id RESP_OKAY,
      Flat_port (fp_bus p)
        (λ a, if (wq_addr q <=? a) && (a <? wq_addr q + Z.of_nat (wq_length q)) &&
                 at_b (wq_strb q) (Z.to_nat (a - wq_addr q))
              then at_z (wq_data q) (Z.to_nat (a - wq_addr q)) else fp_mem p a)
        (fp_r p) None)
}.

#[export] Program Instance flat_axi_port_laws bus : AxiPortLaws flat_port bus := {
  port_ok p := fp_bus p = bus;
  port_mem := fp_mem
}.
Next Obligation. intros bus ar e <- _ _ _ _ _. do 3 eexists. split_and!; done. Qed.
Next Obligation.
  intros bus q e k <- _ Hl _ _ _ _ _ _ _ _. do 3 eexists. split; [reflexivity|].
  split; [reflexivity|]. split; [reflexivity|]. intros a. cbn. by rewrite Hl.
Qed.

Definition sample_mmr : mmr := Mmr false 0 0 0 0 0 0 0 8 1.
Definition sample_mmf : mmr_flags := Mmr_flags false 0 true 0 0 0.
Definition sample_port : flat_port := Flat_port 8 (λ a, a mod 256) None None.

(** Twelve bytes from an odd address, split over three beats. *)
Lemma mmr_read_correct_witness :
  a_len (make_ar 0x1005 12 true 8) = 11 ∧
  ∃ s' e', mmr_read sample_mmf (λ _, 0) [] 3 (Read_t 1 0x1005 12) (replicate 12 0) sample_mmr sample_port =
    Some (RESP_OKAY, [5; 6; 7; 8; 9; 10; 11; 12; 13; 14; 15; 16], s', e', []).
Proof.
  split; [vm_compute; reflexivity|].
  destruct (mmr_read_correct 8 3 sample_mmf (λ _, 0) [] 3 (Read_t 1 0x1005 12) (replicate 12 0)
    sample_mmr sample_port) as (s' & e' & E & _); try (reflexivity || (vm_compute; congruence)).
  - lia.
  - right. split; vm_compute; reflexivity.
  - exists s', e'. exact E.
Defined.

Definition sample_mmr_write : write_t :=
  Write_t 0x1005 12 [1;2;3;4;5;6;7;8;9;10;11;12]
    [true;true;false;true;true;true;true;true;true;true;true;true] 1.
Lemma mmr_write_correct_witness :
  ∃ s' e', mmr_write sample_mmf (λ _, 0) sample_mmr_write sample_mmr sample_port =
      Some (RESP_OKAY, s', e', []) ∧
    fp_mem e' 0x1006 = 2 ∧ fp_mem e' 0x1007 = 7 ∧ fp_mem e' 0x1010 = 12.
Proof.
  destruct (mmr_write_correct 8 3 sample_mmf (λ _, 0) sample_mmr_write sample_mmr sample_port)
    as (s' & e' & E & _ & Hm); try (reflexivity || (vm_compute; congruence)).
  - lia.
  - right. vm_compute. split; [split|]; reflexivity.
  - exists s', e'. split; [exact E|]. cbn [port_mem flat_axi_port_laws] in Hm. rewrite !Hm.
    split_and!; vm_compute; reflexivity.
Defined.

(** A length that is no power of two goes out as a stream of byte beats; the
    response is one bus word per beat, but its bytes are taken as if they were
    adjacent.  With a bus that drives only the addressed lane of each beat two
    of the three bytes are lost. *)
Example mmr_byte_stream_lanes :
  let ar := make_ar 0x1000 3 false 8 in
  (a_size ar, a_len ar) = (0, 2) ∧
  extract_lanes 0x1000 3 ([0xa1; 0; 0; 0; 0; 0; 0; 0] ++ [0; 0xa2; 0; 0; 0; 0; 0; 0] ++
                          [0; 0; 0xa3; 0; 0; 0; 0; 0]) = [0; 0; 0xa3].
Proof. split; vm_compute; reflexivity. Qed.

(** The length field has 8 bits: a transfer of 257 full beats is announced as
    one beat, below any cap. *)
Example mmr_len_truncated : a_len (make_ar 0x1000 (257 * 8) true 8) = 0.
Proof. vm_compute. reflexivity. Qed.
