(* ===== verification/McmiSplit.v ===== *)
(** * McmiSplit: byte masks of memory events
      (src/cosim/dut_if/mcmi: templates and bit helpers)

    A memory event of the design carries an address, a byte mask and up to 256
    bits of data.  [process_memory_access] reports it in one piece when the
    mask is contiguous; otherwise [process_split_memory_accesses] cuts it into
    its maximal runs, assembling the data of a run as a hexadecimal string
    that [stringToBitset] turns back into bits.  A [std::bitset<256>] is a [Z]
    whose bits outside 0..255 do not exist: they are read as 0 and not
    written. *)

From Stdlib Require Import Ascii.
From Stdlib Require String.
From S2P Require Import Prelude Bytes.

#[local] Open Scope string_scope.
#[local] Open Scope list_scope.
#[local] Open Scope Z_scope.

(** ** Bits *)

(** [bits[k] = b] *)
Definition bitset_set (k : Z) (b : bool) (bits : Z) : Z :=
  if k <? 256 then if b then bits ||| (1 ≪ k) else Z.ldiff bits (1 ≪ k) else bits.

(** [for (j < n) if (f(j)) v |= 1 << j] *)
Definition or_bits (f : Z → bool) (n : nat) : Z :=
  foldl (λ v j, if f (Z.of_nat j) then v ||| (1 ≪ Z.of_nat j) else v) 0 (seq 0 n).

(** [extract_bits_as_bitset] *)
Definition extract_bits_as_bitset (bits msb lsb : Z) : Z :=
  foldl (λ r i, bitset_set (Z.of_nat i) (Z.testbit bits (lsb + Z.of_nat i)) r) 0
    (seq 0 (Z.to_nat (msb - lsb))).

Definition popcount (mask : Z) : Z :=
  Z.of_nat (length (filter (λ i, Z.testbit mask (Z.of_nat i) = true) (seq 0 64))).

(** [std::countr_zero] on 64 bits. *)
Fixpoint countr_zero_from (fuel : nat) (i x : Z) : Z :=
  match fuel with
  | O => i
  | S fuel => if Z.testbit x i then i else countr_zero_from fuel (i + 1) x
  end.
Definition countr_zero (x : Z) : Z := countr_zero_from 64 0 x.

(** ** Hexadecimal strings *)

Definition hex_char (d : Z) : ascii :=
  ascii_of_nat (Z.to_nat (if d <? 10 then 48 + d else 87 + d)).

(** [fmt::format("{:02x}", b)] *)
Definition hex2 (b : Z) : string :=
  String (hex_char (b / 16)) (String (hex_char (b mod 16)) EmptyString).

Definition hex_digit (c : ascii) : Z :=
  let n := Z.of_nat (nat_of_ascii c) in
  if (48 <=? n) && (n <=? 57) then n - 48 else n - 97 + 10.

(** The four bits of the digit at position [i] from the right. *)
Definition set_digit (i : Z) (d : Z) (bits : Z) : Z :=
  foldl (λ bits j, bitset_set (i * 4 + j) (Z.testbit d j) bits) bits [3; 2; 1; 0].

Fixpoint set_digits (i : Z) (cs : list ascii) (bits : Z) : Z :=
  match cs with
  | [] => bits
  | c :: cs => set_digits (i + 1) cs (set_digit i (hex_digit c) bits)
  end.

Definition stringToBitset (s : string) : Z :=
  set_digits 0 (reverse (String.list_ascii_of_string s)) 0.

(** ** Splitting a mask *)

Record mem_range := Mem_range {
  rg_start : Z;
  rg_size : Z;
  rg_data : Z;
  rg_hex : string
}.

(** Addresses and data bytes of the mask's set bits, the two vectors of the
    source as one list of pairs. *)
Definition masked_bytes (base mask data : Z) : list (Z * Z) :=
  flat_map (λ i : nat,
    if Z.testbit mask (Z.of_nat i) then
      [(u64 (base + Z.of_nat i), or_bits (λ j, Z.testbit data (Z.of_nat i * 8 + j)) 8)]
    else []) (seq 0 32).

(** The grouping loop: [prev] is [addresses[i - 1]]. *)
Fixpoint group_ranges (start size : Z) (acc : string) (prev : Z) (rest : list (Z * Z)) :
    list mem_range :=
  match rest with
  | [] => [Mem_range start size (stringToBitset acc) acc]
  | (a, d) :: rest =>
      if a =? u64 (prev + 1) then group_ranges start (size + 1) (hex2 d +:+ acc) a rest
      else Mem_range start size (stringToBitset acc) acc :: group_ranges a 1 (hex2 d) a rest
  end.

(** The calls of the callback, in order. *)
Definition process_split_memory_accesses (base mask data : Z) : list mem_range :=
  match masked_bytes base mask data with
  | [] => []
  | (a, d) :: rest => group_ranges a 1 (hex2 d) a rest
  end.

(** [numones == consecutiveOnes] *)
Definition mask_consecutive (mask : Z) : bool :=
  let mask_shifted := mask ≫ countr_zero mask in
  popcount mask =? countr_zero (not64 mask_shifted).

(** [inl tt]: the single callback; [inr]: the split callback on each range. *)
Definition process_memory_access (base mask data : Z) : unit + list mem_range :=
  if mask_consecutive mask then inl () else inr (process_split_memory_accesses base mask data).

(** ** Lemmas on bits *)

Lemma or_bits_testbit f n i :
  0 ≤ i → Z.testbit (or_bits f n) i = (i <? Z.of_nat n) && f i.
Proof.
  intros Hi. unfold or_bits. induction n as [|n IH].
  { cbn [seq foldl]. rewrite Z.bits_0. symmetry. apply andb_false_intro1, Z.ltb_ge. lia. }
  rewrite seq_S, foldl_app. cbn [foldl Nat.add].
  assert (Z.testbit (1 ≪ Z.of_nat n) i = (i =? Z.of_nat n)) as Hone.
  { rewrite Z.shiftl_1_l, Z.pow2_bits_eqb by lia. apply Z.eqb_sym. }
  assert ((i <? Z.of_nat (S n)) = (i =? Z.of_nat n) || (i <? Z.of_nat n)) as ->.
  { apply eq_bool_prop_intro. rewrite orb_True, !Is_true_true, Z.eqb_eq, !Z.ltb_lt. lia. }
  destruct (Z.eqb_spec i (Z.of_nat n)) as [->|]; destruct (f (Z.of_nat n)) eqn:Ef;
    rewrite ?Z.lor_spec, IH, ?Hone, ?Z.eqb_refl, ?Z.ltb_irrefl, ?Ef; try done.
  apply orb_false_r.
Qed.

Lemma or_bits_slice d o n :
  0 ≤ o → or_bits (λ j, Z.testbit d (o + j)) n = (d / 2 ^ o) mod 2 ^ Z.of_nat n.
Proof.
  intros Ho. apply Z.bits_inj'. intros i Hi. rewrite or_bits_testbit by done.
  rewrite Z.testbit_mod_pow2, Z.div_pow2_bits by lia.
  f_equal. f_equal. lia.
Qed.

Lemma bitset_set_testbit k b bits i :
  0 ≤ k < 256 → 0 ≤ i → Z.testbit (bitset_set k b bits) i = if i =? k then b else Z.testbit bits i.
Proof.
  intros Hk Hi. unfold bitset_set. destruct (Z.ltb_spec k 256); [|lia].
  assert (Z.testbit (1 ≪ k) i = (i =? k)) as Hone.
  { rewrite Z.shiftl_1_l, Z.pow2_bits_eqb by lia. apply Z.eqb_sym. }
  destruct b; [rewrite Z.lor_spec|rewrite Z.ldiff_spec]; rewrite Hone;
    destruct (i =? k); simpl; by rewrite ?orb_true_r, ?orb_false_r, ?andb_false_r, ?andb_true_r.
Qed.

(** The low [n] bits, as long as they fit a [std::bitset<256>]. *)
Lemma extract_bits_low bits n :
  (0 ≤ n ≤ 256) → extract_bits_as_bitset bits n 0 = bits mod 2 ^ n.
Proof.
  intros Hn. unfold extract_bits_as_bitset. rewrite Z.sub_0_r.
  rewrite <- (Z2Nat.id n) at 2 by lia. assert (Z.to_nat n ≤ 256)%nat as Hm by lia.
  revert Hm. generalize (Z.to_nat n) as m. clear n Hn. intros m Hm.
  apply Z.bits_inj'. intros i Hi. rewrite Z.testbit_mod_pow2 by lia.
  induction m as [|m IH].
  { cbn [seq foldl]. rewrite Z.bits_0. symmetry. apply andb_false_intro1, Z.ltb_ge. lia. }
  rewrite seq_S, foldl_app. cbn [foldl Nat.add].
  rewrite bitset_set_testbit by lia. rewrite IH by lia.
  destruct (Z.eqb_spec i (Z.of_nat m)) as [->|]; rewrite ?Z.add_0_l.
  - destruct (Z.ltb_spec (Z.of_nat m) (Z.of_nat (S m))); [done|lia].
  - destruct (Z.ltb_spec i (Z.of_nat m)), (Z.ltb_spec i (Z.of_nat (S m))); done || lia.
Qed.

(** ** Hexadecimal strings represent byte lists *)

(** The string of a run's bytes, lowest address first in the list. *)
Definition hex_bytes (bs : list Z) : string := foldl (λ acc b, hex2 b +:+ acc) EmptyString bs.

Definition digits_value (cs : list ascii) : Z := foldr (λ c v, hex_digit c + 16 * v) 0 cs.

Lemma hex_digit_char d : 0 ≤ d < 16 → hex_digit (hex_char d) = d.
Proof.
  intros Hd. assert (∃ k : nat, (k < 16)%nat ∧ d = Z.of_nat k) as (k & Hk & ->)
    by (exists (Z.to_nat d); lia).
  do 16 (destruct k as [|k]; [reflexivity|]). lia.
Qed.

Lemma nibbles b : is_u8 b → 0 ≤ b mod 16 < 16 ∧ 0 ≤ b / 16 < 16.
Proof.
  unfold is_u8. intros. split; [apply Z.mod_pos_bound; lia|].
  split; [apply Z.div_pos|apply Z.div_lt_upper_bound]; lia.
Qed.

Lemma set_digit_add i d bits :
  0 ≤ i < 64 → 0 ≤ d < 16 → 0 ≤ bits < 2 ^ (4 * i) → set_digit i d bits = bits + d * 2 ^ (4 * i).
Proof.
  intros Hi Hd Hb. rewrite <- lor_shiftl_add by lia. unfold set_digit. cbn [foldl].
  apply Z.bits_inj'. intros k Hk. rewrite !bitset_set_testbit, Z.lor_spec by lia.
  repeat match goal with |- context [?a =? ?b] => destruct (Z.eqb_spec a b) end;
    try (subst k; rewrite Z.shiftl_spec, (testbit_above bits (4 * i)) by lia; rewrite orb_false_l; f_equal; lia).
  destruct (decide (k < 4 * i)).
  - rewrite Z.shiftl_spec_low by lia. by rewrite orb_false_r.
  - rewrite Z.shiftl_spec, (testbit_above d 4) by lia. by rewrite orb_false_r.
Qed.

Lemma set_digits_value cs i bits :
  0 ≤ i → i + Z.of_nat (length cs) ≤ 64 → Forall (λ c, 0 ≤ hex_digit c < 16) cs →
  0 ≤ bits < 2 ^ (4 * i) → set_digits i cs bits = bits + digits_value cs * 2 ^ (4 * i).
Proof.
  intros Hi. revert i Hi bits. induction cs as [|c cs IH]; intros i Hi bits Hl HF Hb;
    cbn [set_digits digits_value foldr length] in *; [lia|].
  inversion HF as [|? ? Hc HF']; subst. rewrite set_digit_add by lia.
  assert (2 ^ (4 * (i + 1)) = 16 * 2 ^ (4 * i)) as Hp
    by (rewrite Z.mul_add_distr_l, Z.pow_add_r by lia; lia).
  rewrite IH; [rewrite Hp; fold (digits_value cs); ring|lia|lia|done|rewrite Hp; nia].
Qed.

Lemma list_ascii_app s t :
  String.list_ascii_of_string (s +:+ t) = String.list_ascii_of_string s ++ String.list_ascii_of_string t.
Proof. induction s as [|c s IH]; [done|]. simpl. f_equal. apply IH. Qed.

Lemma hex_bytes_snoc bs b : hex_bytes (bs ++ [b]) = hex2 b +:+ hex_bytes bs.
Proof. unfold hex_bytes. by rewrite foldl_app. Qed.

Lemma hex_bytes_digits bs :
  reverse (String.list_ascii_of_string (hex_bytes bs)) =
  flat_map (λ b, [hex_char (b mod 16); hex_char (b / 16)]) bs.
Proof.
  induction bs as [|b bs IH] using rev_ind; [done|].
  rewrite hex_bytes_snoc, list_ascii_app, reverse_app, IH, flat_map_app. done.
Qed.

Lemma digits_value_bytes bs :
  Forall is_u8 bs →
  digits_value (flat_map (λ b, [hex_char (b mod 16); hex_char (b / 16)]) bs) = le_value bs.
Proof.
  induction 1 as [|b bs Hb _ IH]; [done|].
  cbn [flat_map app digits_value foldr le_value]. fold (digits_value (flat_map (λ b, [hex_char (b mod 16); hex_char (b / 16)]) bs)).
  destruct (nibbles b Hb). rewrite IH, !hex_digit_char by done.
  pose proof (Z.div_mod b 16). lia.
Qed.

(** [stringToBitset] inverts the byte-wise formatting. *)
Lemma stringToBitset_hex bs :
  Forall is_u8 bs → (length bs ≤ 32)%nat → stringToBitset (hex_bytes bs) = le_value bs.
Proof.
  intros HF Hl. unfold stringToBitset. rewrite hex_bytes_digits.
  rewrite set_digits_value; [rewrite digits_value_bytes by done; lia|lia| | |lia].
  - assert (length (flat_map (λ b, [hex_char (b mod 16); hex_char (b / 16)]) bs) = (2 * length bs)%nat) as ->
      by (clear; induction bs; simpl; lia). lia.
  - clear Hl. induction HF as [|b bs Hb _ IH]; [constructor|].
    destruct (nibbles b Hb). cbn [flat_map app]. by repeat (constructor; [by rewrite hex_digit_char|]).
Qed.

(** ** The split covers the masked bytes exactly, in maximal runs *)

Definition range_bytes (r : mem_range) : list (Z * Z) :=
  imap (λ k b, (u64 (rg_start r + Z.of_nat k), b)) (le_bytes (Z.to_nat (rg_size r)) (rg_data r)).

Definition runs_maximal (rs : list mem_range) : Prop :=
  ∀ i r r', rs !! i = Some r → rs !! S i = Some r' → rg_start r' ≠ u64 (rg_start r + rg_size r).

(** The run being accumulated: the bytes [bs] from [start] on. *)
Definition run_of (start : Z) (bs : list Z) : mem_range :=
  Mem_range start (Z.of_nat (length bs)) (le_value bs) (hex_bytes bs).

Lemma range_bytes_run start bs :
  Forall is_u8 bs →
  range_bytes (run_of start bs) = imap (λ k b, (u64 (start + Z.of_nat k), b)) bs.
Proof.
  intros HF. unfold range_bytes, run_of. cbn [rg_start rg_size rg_data].
  by rewrite Nat2Z.id, le_bytes_value.
Qed.

Lemma u64_succ_pred start n : u64 (u64 (start + Z.of_nat n) + 1) = u64 (start + Z.of_nat (S n)).
Proof. unfold u64. rewrite Zplus_mod_idemp_l. f_equal. lia. Qed.

Lemma group_ranges_spec rest start bs b :
  is_u64 start → Forall is_u8 (bs ++ [b]) → Forall (λ p, is_u64 p.1 ∧ is_u8 p.2) rest →
  (length bs + 1 + length rest ≤ 32)%nat →
  ∃ cs rs, group_ranges start (Z.of_nat (length (bs ++ [b]))) (hex_bytes (bs ++ [b]))
             (u64 (start + Z.of_nat (length bs))) rest = run_of start cs :: rs ∧
    mjoin (range_bytes <$> (run_of start cs :: rs)) = range_bytes (run_of start (bs ++ [b])) ++ rest ∧
    runs_maximal (run_of start cs :: rs) ∧
    Forall (λ r, ∃ bs, r = run_of (rg_start r) bs ∧ bs ≠ [] ∧ Forall is_u8 bs) (run_of start cs :: rs).
Proof.
  revert start bs b. induction rest as [|[a d] rest IH]; intros start bs b Hs Hbs HF Hl;
    cbn [group_ranges].
  - exists (bs ++ [b]), []. rewrite stringToBitset_hex; [|done|rewrite length_app; simpl; lia].
    split_and!; [done| | |].
    + cbn [fmap list_fmap mjoin list_join]. by rewrite !app_nil_r.
    + intros [|i] r r'; [done|by destruct i].
    + constructor; [|done]. exists (bs ++ [b]). split_and!; [done|by destruct bs|done].
  - inversion HF as [|? ? [Ha Hd] HF']; subst. cbn [length] in Hl. cbn [fst snd] in *.
    rewrite u64_succ_pred. destruct (Z.eqb_spec a (u64 (start + Z.of_nat (S (length bs))))) as [->|Hne].
    + destruct (IH start (bs ++ [b]) d) as (cs & rs & E & Hj & Hm & Hr);
        [done|apply Forall_app; auto|done|rewrite length_app; simpl; lia|].
      exists cs, rs. split_and!; [|rewrite Hj|done|done].
      * rewrite <- E, <- hex_bytes_snoc. f_equal; [rewrite !length_app; simpl; lia|].
        f_equal. rewrite length_app. simpl. lia.
      * rewrite !range_bytes_run by (rewrite ?Forall_app in *; naive_solver).
        rewrite imap_app. cbn [imap]. rewrite <- app_assoc. simpl. repeat f_equal.
        rewrite length_app. simpl. lia.
    + destruct (IH a [] d) as (cs & rs & E & Hj & Hm & Hr); [done|by constructor|done|simpl; lia|].
      cbn [app length] in E. change (hex_bytes [d]) with (hex2 d) in E.
      rewrite Z.add_0_r, (u64_small a) in E by done. change (Z.of_nat 1) with 1 in E. rewrite E.
      rewrite stringToBitset_hex; [|done|rewrite length_app; simpl; lia].
      exists (bs ++ [b]), (run_of a cs :: rs). split_and!; [done| | |].
      * change (range_bytes (run_of start (bs ++ [b])) ++ mjoin (range_bytes <$> (run_of a cs :: rs)) =
          range_bytes (run_of start (bs ++ [b])) ++ (a, d) :: rest).
        rewrite Hj, (range_bytes_run a) by (by constructor). simpl. by rewrite Z.add_0_r, u64_small.
      * intros [|i] r r' Hr1 Hr2; [|by apply (Hm i)]. simplify_eq/=.
        rewrite length_app. simpl. rewrite Nat.add_1_r. done.
      * constructor; [|done]. exists (bs ++ [b]). split_and!; [done|by destruct bs|done].
Qed.

Lemma masked_bytes_wf base mask data :
  Forall (λ p, is_u64 p.1 ∧ is_u8 p.2) (masked_bytes base mask data) ∧
  (length (masked_bytes base mask data) ≤ 32)%nat.
Proof.
  unfold masked_bytes. split.
  - apply Forall_flat_map, Forall_forall. intros i _. destruct (Z.testbit mask _); [|done].
    constructor; [|done]. split; [apply u64_range|]. simpl. rewrite or_bits_slice by lia. apply u8_range.
  - rewrite <- (length_seq 32 0) at 2. generalize (seq 0 32) as l.
    induction l as [|i l IH]; [done|]. cbn [flat_map]. rewrite length_app. cbn [length].
    destruct (Z.testbit mask _); simpl; lia.
Qed.

(** The ranges reported for a mask carry exactly its bytes, in address order;
    no two neighbouring ranges could be one. *)
Lemma split_exact base mask data :
  let rs := process_split_memory_accesses base mask data in
  mjoin (range_bytes <$> rs) = masked_bytes base mask data ∧ runs_maximal rs ∧
  Forall (λ r, ∃ bs, r = run_of (rg_start r) bs ∧ bs ≠ [] ∧ Forall is_u8 bs) rs.
Proof.
  unfold process_split_memory_accesses. destruct (masked_bytes_wf base mask data) as [HF Hl].
  destruct (masked_bytes base mask data) as [|[a d] rest]; [by split_and!|].
  inversion HF as [|? ? [Ha Hd] HF']; subst. cbn [length fst snd] in *.
  destruct (group_ranges_spec rest a [] d) as (cs & rs & E & Hj & Hm & Hr);
    [done|by constructor|done|simpl; lia|].
  cbn [app length] in E. change (hex_bytes [d]) with (hex2 d) in E. change (Z.of_nat 1) with 1 in E.
  rewrite Z.add_0_r, (u64_small a) in E by done. rewrite E. split_and!; [|done|done].
  rewrite Hj, range_bytes_run by (by constructor). simpl. by rewrite Z.add_0_r, u64_small.
Qed.

Lemma group_ranges_starts rest start size acc prev :
  is_u64 start → Forall (λ p, is_u64 p.1) rest →
  Forall (λ r, is_u64 (rg_start r)) (group_ranges start size acc prev rest).
Proof.
  intros Hs HF. revert start size acc prev Hs. induction HF as [|[a d] rest Ha HF IH]; intros start size acc prev Hs;
    cbn [group_ranges]; [by constructor|]. destruct (_ =? _); [by apply IH|]. constructor; [done|by apply IH].
Qed.

(** Ranges start at an address and are not empty. *)
Lemma split_ranges_wf base mask data :
  Forall (λ r, is_u64 (rg_start r) ∧ 0 < rg_size r ≤ 32) (process_split_memory_accesses base mask data).
Proof.
  destruct (split_exact base mask data) as (Hj & _ & HF).
  destruct (masked_bytes_wf base mask data) as [Hw Hl]. rewrite <- Hj in Hl.
  assert (Forall (λ r, is_u64 (rg_start r)) (process_split_memory_accesses base mask data)) as Hst.
  { unfold process_split_memory_accesses. destruct (masked_bytes base mask data) as [|[a d] rest]; [constructor|].
    inversion Hw as [|? ? [Ha _] Hw']; subst. apply group_ranges_starts; [done|].
    eapply Forall_impl; [done|]. naive_solver. }
  revert Hl HF Hst. generalize (process_split_memory_accesses base mask data) as gs. clear.
  induction gs as [|g gs IH]; intros Hl HF Hst; [constructor|].
  inversion HF as [|? ? (bs & Eg & Hne & Hbs) HF']; subst. inversion Hst as [|? ? Hg Hst']; subst.
  change (length (range_bytes g ++ mjoin (range_bytes <$> gs)) ≤ 32)%nat in Hl. rewrite length_app in Hl.
  constructor; [|apply IH; [lia|done|done]]. split; [done|].
  rewrite Eg, range_bytes_run, length_imap in Hl by done. rewrite Eg. cbn [run_of rg_size].
  destruct bs; [done|]. cbn [length] in *. lia.
Qed.

(** ** Contiguous masks *)

Lemma countr_zero_from_spec fuel i x :
  0 ≤ i → i ≤ countr_zero_from fuel i x ≤ i + Z.of_nat fuel ∧
  (∀ k, i ≤ k < countr_zero_from fuel i x → Z.testbit x k = false).
Proof.
  revert i. induction fuel as [|fuel IH]; intros i Hi; cbn [countr_zero_from]; [split; [lia|lia]|].
  destruct (Z.testbit x i) eqn:E; [split; lia|].
  destruct (IH (i + 1)) as [H1 H2]; [lia|]. split; [lia|].
  intros k Hk. destruct (decide (k = i)) as [->|]; [done|apply H2; lia].
Qed.

Lemma filter_all {A} (P : A → Prop) `{!∀ x, Decision (P x)} l : Forall P l → filter P l = l.
Proof. induction 1; [done|]. rewrite filter_cons_True by done. by f_equal. Qed.

Lemma mask_consecutive_low mask :
  is_u64 mask → Z.testbit mask 0 = true → mask_consecutive mask = true →
  1 ≤ popcount mask ≤ 64 ∧ mask = 2 ^ popcount mask - 1.
Proof.
  intros Hm H0 Hc. unfold mask_consecutive in Hc. apply Z.eqb_eq in Hc.
  assert (countr_zero mask = 0) as Hz by (unfold countr_zero; cbn [countr_zero_from]; by rewrite H0).
  rewrite Hz, Z.shiftr_0_r in Hc.
  destruct (countr_zero_from_spec 64 0 (not64 mask)) as [Hr Hb]; [done|].
  fold (countr_zero (not64 mask)) in Hr, Hb. rewrite <- Hc in Hr, Hb.
  assert (∀ k, 0 ≤ k < popcount mask → Z.testbit mask k = true) as Hlow.
  { intros k Hk. specialize (Hb k ltac:(lia)). unfold not64 in Hb.
    rewrite Z.lxor_spec, Z.ones_spec_low in Hb by lia. by destruct (Z.testbit mask k). }
  remember (Z.to_nat (popcount mask)) as n eqn:En.
  assert (n ≤ 64)%nat by lia. clear Hc Hb Hz.
  assert (filter (λ i, Z.testbit mask (Z.of_nat i) = true) (seq n (64 - n)) = []) as Hnil.
  { apply length_zero_iff_nil. assert (popcount mask = Z.of_nat n) as Hp by lia. revert Hp.
    unfold popcount. replace 64%nat with (n + (64 - n))%nat at 1 by lia. rewrite seq_app, filter_app, length_app.
    rewrite (filter_all _ (seq 0 n)); [rewrite length_seq, Nat.add_0_l; lia|].
    apply Forall_forall. intros i Hi%elem_of_seq. apply Hlow. lia. }
  assert (∀ k, popcount mask ≤ k → Z.testbit mask k = false) as Hhigh.
  { intros k Hk. destruct (decide (k < 64)); [|apply (testbit_above mask 64); [apply Hm|lia]].
    destruct (Z.testbit mask k) eqn:E; [|done]. exfalso.
    apply (filter_nil_not_elem_of _ _ (Z.to_nat k) Hnil); [by rewrite Z2Nat.id by lia|].
    apply elem_of_seq. lia. }
  split; [split; [|lia]|].
  - destruct (decide (popcount mask < 1)); [|lia]. rewrite (Hhigh 0) in H0 by lia. done.
  - transitivity (Z.ones (popcount mask)); [|rewrite Z.ones_equiv; lia].
    apply Z.bits_inj'. intros k Hk. destruct (decide (k < popcount mask)).
    + rewrite Hlow, Z.ones_spec_low by lia. done.
    + rewrite Hhigh, Z.ones_spec_high by lia. done.
Qed.

Lemma masked_bytes_low base mask data n :
  (n ≤ 32)%nat → mask = 2 ^ Z.of_nat n - 1 →
  masked_bytes base mask data = imap (λ k b, (u64 (base + Z.of_nat k), b)) (le_bytes n data).
Proof.
  intros Hn ->. replace (2 ^ Z.of_nat n - 1) with (Z.ones (Z.of_nat n)) by (rewrite Z.ones_equiv; lia).
  unfold masked_bytes. replace 32%nat with (n + (32 - n))%nat by lia.
  rewrite seq_app, flat_map_app. rewrite Nat.add_0_l.
  assert (∀ (f : nat → list (Z * Z)) l, Forall (λ i, f i = []) l → flat_map f l = []) as Hz.
  { intros f l. induction 1 as [|i l Hi _ IH]; [done|]. cbn. by rewrite Hi, IH. }
  rewrite (Hz _ (seq n _)), app_nil_r.
  2: { apply Forall_forall. intros i Hi%elem_of_seq. by rewrite Z.ones_spec_high by lia. }
  apply list_eq. intros i. rewrite list_lookup_imap.
  assert (∀ m s, (s + m ≤ n)%nat → flat_map (λ i0 : nat,
     if Z.testbit (Z.ones (Z.of_nat n)) (Z.of_nat i0)
     then [(u64 (base + Z.of_nat i0), or_bits (λ j, Z.testbit data (Z.of_nat i0 * 8 + j)) 8)]
     else []) (seq s m) = (λ i0, (u64 (base + Z.of_nat i0), or_bits (λ j, Z.testbit data (Z.of_nat i0 * 8 + j)) 8)) <$> seq s m) as Hs.
  { induction m as [|m IH]; intros s Hs; [done|]. cbn [seq flat_map]. rewrite fmap_cons, IH by lia.
    by rewrite Z.ones_spec_low by lia. }
  rewrite Hs, list_lookup_fmap by lia. destruct (decide (i < n)%nat).
  - rewrite lookup_seq_lt by done. rewrite le_bytes_lookup by done. simpl. rewrite or_bits_slice by lia.
    do 3 f_equal. rewrite land_ff, Z.shiftr_div_pow2 by lia. do 3 f_equal. lia.
  - rewrite lookup_seq_ge by lia. rewrite lookup_ge_None_2; [done|]. rewrite length_le_bytes. lia.
Qed.
