(* ===== verification/Mcmi.v ===== *)
(** * Mcmi: the memory-consistency interface (src/cosim/dut_if/mcmi)

    [mcmi] receives the memory events of a hart (loads, store inserts and
    bypasses, drains, instruction fetches, cache maintenance) and reports them
    to the co-simulation bridge, which tells the reference simulator.  On the
    way it filters accesses of the patch routine, renames their tags, emulates
    the arithmetic of atomics, pairs store-conditionals with their outcome and
    keeps the simulator's snapshot of non-cacheable code fresh.

    A handler takes a message and the state to the new state and the calls it
    makes, in order; [None] is a C++ exception, a failed assertion or a
    division by zero.  Calls of the bridge and of the Whisper client are
    [mcm_call]s; [reply] is what the client answers ([None]: the RPC failed).
    The fields of a default-constructed [mem_t] are indeterminate but for
    [valid]: the variables [raw] and [raw_cl] stand for them. *)

From S2P Require Import Prelude Bytes McmiSplit.

(** ** Data (bridge_if.h, bridge_params.h) *)

Definition LR : Z := 2.
Definition SC : Z := 3.
Definition AMOSWAP : Z := 1.
Definition AMOADD : Z := 0.
Definition AMOXOR : Z := 4.
Definition AMOCAS : Z := 5.
Definition AMOAND : Z := 12.
Definition AMOOR : Z := 8.
Definition AMOMIN : Z := 16.
Definition AMOMAX : Z := 20.
Definition AMOMINU : Z := 24.
Definition AMOMAXU : Z := 28.

Definition patch_ram_lo : Z := 0x4214C000.
Definition patch_ram_hi : Z := 0x4214DFFF.
Definition EXCP : Z := 0.
Definition RVFI_PATCH_MODE : Z := 0x4.
Definition PATCH_TAG_RANGES_KEPT : nat := 16.

Record mem_t := Mem_t {
  m_valid : bool;
  m_hart : Z;
  m_cycle : Z;
  m_opcode : Z;
  m_tag : Z;
  m_va : Z;
  m_pa : Z;
  m_size : Z;
  m_data : Z;
  m_data_vec : Z;
  m_amo : bool;
  m_amo_op : Z;
  m_v_ext : bool;
  m_attr : Z;
  m_page4kX : bool;
  m_page4kX_attr : Z;
  m_error : bool;
  m_field : Z;
  m_elem_idx : Z;
  m_splat : bool;
  m_elem_size : Z;
  m_mtime_valid : bool;
  m_mtime : Z;
  m_intr_during_ucode : bool
}.
#[export] Instance eta_mem_t : Eta mem_t := λ m,
  Mem_t (m_valid m) (m_hart m) (m_cycle m) (m_opcode m) (m_tag m) (m_va m) (m_pa m) (m_size m)
    (m_data m) (m_data_vec m) (m_amo m) (m_amo_op m) (m_v_ext m) (m_attr m) (m_page4kX m)
    (m_page4kX_attr m) (m_error m) (m_field m) (m_elem_idx m) (m_splat m) (m_elem_size m)
    (m_mtime_valid m) (m_mtime m) (m_intr_during_ucode m).

(** [mem_s::operator==] *)
Definition mem_eqb (a b : mem_t) : bool := m_pa a =? m_pa b.

Record mem_cl_t := Mem_cl_t {
  cl_valid : bool;
  cl_cycle : Z;
  cl_va : Z;
  cl_pa : Z;
  cl_size : Z;
  cl_data : Z;
  cl_mask : Z;
  cl_error : bool
}.
#[export] Instance eta_mem_cl_t : Eta mem_cl_t := λ m,
  Mem_cl_t (cl_valid m) (cl_cycle m) (cl_va m) (cl_pa m) (cl_size m) (cl_data m) (cl_mask m) (cl_error m).

(** ** Messages (rv_tester_transactions, the fields the handlers read) *)

Record mcmi_read_t := Mcmi_read {
  rd_cycle : Z; rd_hart : Z; rd_opcode : Z; rd_order : Z; rd_addr : Z; rd_mask : Z;
  rd_amo : bool; rd_amo_op : Z; rd_attr : Z; rd_data : Z; rd_v_ext : bool; rd_data_vec : Z;
  rd_field : Z; rd_elem_idx : Z; rd_splat : bool; rd_elem_size : Z
}.

Record mcmi_insert_t := Mcmi_insert {
  in_cycle : Z; in_hart : Z; in_order : Z; in_addr : Z; in_mask : Z; in_data : Z;
  in_v_ext : bool; in_data_vec : Z; in_elem_idx : Z
}.

Record mcmi_bypass_t := Mcmi_bypass {
  by_cycle : Z; by_hart : Z; by_order : Z; by_addr : Z; by_mask : Z; by_data : Z;
  by_amo : bool; by_amo_op : Z; by_amo_cas_fail : bool; by_attr : Z; by_v_ext : bool;
  by_data_vec : Z; by_elem_idx : Z
}.

Record mcmi_rvfi_t := Mcmi_rvfi {
  rv_loc : Z; rv_cycle : Z; rv_hart : Z; rv_order : Z; rv_branch_tag : Z; rv_mode : Z;
  rv_set_pmode : bool; rv_clr_pmode : bool; rv_last_uop : bool
}.

Inductive mcmi_msg :=
| MsgReset (loc : Z)
| MsgTrap (loc id cause order pc_addr : Z)
| MsgRvfi (r : mcmi_rvfi_t)
| MsgRead (r : mcmi_read_t)
| MsgInsert (i : mcmi_insert_t)
| MsgBypass (b : mcmi_bypass_t)
| MsgWrite (cycle hart addr mask data : Z) (error : bool)
| MsgIfetchReq (order addr attr : Z)
| MsgIfetchResp (cycle hart order : Z)
| MsgIevict (cycle hart addr : Z)
| MsgDecode (cycle hart order addr mask : Z)
| MsgDevict (cycle hart addr : Z)
| MsgFlush (cycle hart addr : Z)
| MsgWriteback (cycle addr : Z)
| MsgDfetch (cycle addr : Z)
| MsgDrain
| MsgTerminateMemChecks
| MsgBridgeError.

(** ** Calls *)

Inductive whisper_call :=
| WDecode (hart cycle order addr size : Z)
| WDevict (hart cycle addr : Z)
| WDwriteback (hart cycle addr : Z)
| WDfetch (hart cycle addr : Z).

Inductive mcm_call :=
| CRead (hart : Z) (m : mem_t) (cache : bool)
| CInsert (hart : Z) (m : mem_t)
| CBypass (hart : Z) (m : mem_t) (cache : bool)
| CWrite (hart : Z) (m : mem_cl_t)
| CIfetch (hart : Z) (m : mem_t)
| CIevict (hart : Z) (m : mem_t)
| CEnterPatch
| CWhisper (c : whisper_call)
| CError.

(** ** State (class [mcmi]) *)

Record patch_tag_range_t := Patch_tag_range {
  pr_trigger_tag : Z;
  pr_lo_tag : Z;
  pr_hi_tag : Z
}.

Record mcmi := Mcmi {
  mi_in_reset : bool;
  mi_terminated : bool;
  mi_ncio_mem_transition : bool;
  mi_prev_branch_tag : Z;
  mi_ncio_fetches : list mem_t;
  mi_active_ncio_fetches : list mem_t;
  mi_ifetch_reqs : gmap Z mem_t;
  mi_amo_writes : gmap Z mem_t;
  mi_sc_result : gmap Z mem_t;
  mi_sc_bypass : gmap Z mem_t;
  mi_mem_error : bool;
  mi_ecause : Z;
  mi_vec_cmode_mem_errors : gmap Z bool;
  mi_patch_mode : bool;
  mi_patch_mode_first_tag : Z;
  mi_patch_lo_tag : Z;
  mi_patch_hi_tag : Z;
  mi_patch_tag_ranges : list patch_tag_range_t;     (* front first *)
  mi_vec_cmode : bool;
  mi_vec_cmode_tags : gmap Z Z;
  mi_vec_cmode_first_tag : Z;
  mi_vec_cmode_pc_addr : Z
}.
#[export] Instance eta_mcmi : Eta mcmi := λ s,
  Mcmi (mi_in_reset s) (mi_terminated s) (mi_ncio_mem_transition s) (mi_prev_branch_tag s)
    (mi_ncio_fetches s) (mi_active_ncio_fetches s) (mi_ifetch_reqs s) (mi_amo_writes s)
    (mi_sc_result s) (mi_sc_bypass s) (mi_mem_error s) (mi_ecause s) (mi_vec_cmode_mem_errors s)
    (mi_patch_mode s) (mi_patch_mode_first_tag s) (mi_patch_lo_tag s) (mi_patch_hi_tag s)
    (mi_patch_tag_ranges s) (mi_vec_cmode s) (mi_vec_cmode_tags s) (mi_vec_cmode_first_tag s)
    (mi_vec_cmode_pc_addr s).

Definition mcmi_new : mcmi :=
  Mcmi true false false 0 [] [] ∅ ∅ ∅ ∅ false 0 ∅ false 0 0 0 [] false ∅ 0 0.

Record mcmi_flags := Mcmi_flags {
  fl_cosim : bool;
  fl_patch_mode_tag_override : bool;
  fl_emulate_amo_arithmetic : bool;
  fl_whisper_client_check : bool
}.

(** Values of the generated project_overrides.h. *)
Record overrides := Overrides {
  CUSTOM_VEC_CMODE : Z;
  CUSTOM_MC2_VEC_CMODE : Z;
  debug_mem_lo : Z;
  debug_mem_hi : Z
}.

(** [std::unordered_map::emplace]: an existing entry stays. *)
Definition emplace {A} (k : Z) (v : A) (m : gmap Z A) : gmap Z A :=
  if decide (is_Some (m !! k)) then m else <[k:=v]> m.

(** ** Arithmetic of atomics *)

(** Conversion to the [w]-bit integer type, signed if [sg]. *)
Definition to_T (sg : bool) (w x : Z) : Z :=
  let v := x mod 2 ^ w in if sg && (2 ^ (w - 1) <=? v) then v - 2 ^ w else v.

Definition amo_known : list Z :=
  [LR; SC; AMOSWAP; AMOADD; AMOXOR; AMOCAS; AMOAND; AMOOR; AMOMIN; AMOMAX; AMOMINU; AMOMAXU].

Section amo.
(** [cvm::bitmanip::mask<T>(n)] for the integer type of the given signedness
    and width. *)
Variable bm_mask : bool → Z → Z → Z.

(** [amo_arithmetic<T>]: the new [write_data]; signed addition wraps. *)
Definition amo_arithmetic (sg : bool) (w : Z) (op read_data write_data size : Z) : option Z :=
  let read := to_T sg w (to_T sg w read_data &&& bm_mask sg w (size * 8)) in
  let write := to_T sg w (to_T sg w write_data &&& bm_mask sg w (size * 8)) in
  let finish result := u64 (to_T sg w result) &&& bm_mask false 64 (size * 8) in
  if op =? AMOADD then Some (finish (read + write))
  else if op =? AMOAND then Some (finish (read &&& write))
  else if op =? AMOOR then Some (finish (read ||| write))
  else if op =? AMOXOR then Some (finish (read ^^^ write))
  else if op =? AMOSWAP then Some (finish write)
  else if (op =? AMOMIN) || (op =? AMOMINU) then Some (finish (Z.min read write))
  else if (op =? AMOMAX) || (op =? AMOMAXU) then Some (finish (Z.max read write))
  else None.

(** The new [write_data], and whether an error is logged. *)
Definition amo_modify_write_data (op read_data write_data size : Z) : option (Z * bool) :=
  let sg := (op =? AMOADD) || (op =? AMOSWAP) || (op =? AMOMAX) || (op =? AMOMIN) in
  let arith w := r ← amo_arithmetic sg w op read_data write_data size; Some (r, false) in
  if size =? 1 then arith 8
  else if size =? 2 then arith 16
  else if size =? 4 then arith 32
  else if size =? 8 then arith 64
  else if bool_decide (op ∈ amo_known) then Some (write_data, true)
  else None.
End amo.

(** ** Handlers *)

Section mcmi.
Variable fl : mcmi_flags.
Variable ov : overrides.
Variable loc_ : Z.
Variable raw : mem_t.
Variable raw_cl : mem_cl_t.
Variable bm_mask : bool → Z → Z → Z.
(** The Whisper client's answer to a call: [Some valid], or a failed RPC. *)
Variable reply : whisper_call → option bool.
(** Answers of [axi::check_error_rpc] at the AXI and then at the NCIO_AXI
    instances: [None] for a call that returns false. *)
Variable axi_errors ncio_errors : Z → list (option Z).

Definition mem_new : mem_t := raw <| m_valid := true |>.

(** [(!call || !valid) && FLAGS_whisper_client_check] *)
Definition rpc_failed (c : whisper_call) : bool :=
  negb (bool_decide (reply c = Some true)) && fl_whisper_client_check fl.

Definition patch_access (addr : Z) (s : mcmi) : bool :=
  if negb (mi_patch_mode s) then false
  else if (patch_ram_lo <=? addr) && (addr <? patch_ram_hi) then true
  else existsb (λ i : nat, addr =? 0x42005040 + Z.of_nat i * 0x10000) (seq 0 8).

Definition patch_fetch_access (addr : Z) (s : mcmi) : bool :=
  if mi_patch_mode s then true else (patch_ram_lo <=? addr) && (addr <? patch_ram_hi).

Definition debug_fetch_access (addr : Z) : bool :=
  (debug_mem_lo ov <=? addr) && (addr <? debug_mem_hi ov).

Definition is_ncio (mem_attr : Z) : bool :=
  negb (mem_attr &&& 0x800 =? 0) || (mem_attr &&& 0x1000 =? 0).

Definition check_axi_error (addr : Z) : bool :=
  existsb (λ r, match r with Some count => 0 <? count | None => false end)
    (axi_errors addr ++ ncio_errors addr).

(** [push_back], then [pop_front] beyond the number of sessions kept. *)
Definition push_range (r : patch_tag_range_t) (rs : list patch_tag_range_t) : list patch_tag_range_t :=
  let rs := rs ++ [r] in
  if (PATCH_TAG_RANGES_KEPT <? length rs)%nat then tail rs else rs.

Definition close_patch_session (s : mcmi) : mcmi :=
  let ranges :=
    if negb (mi_patch_mode_first_tag s =? 0) && negb (mi_patch_lo_tag s =? 0) then
      push_range (Patch_tag_range (mi_patch_mode_first_tag s) (mi_patch_lo_tag s) (mi_patch_hi_tag s))
        (mi_patch_tag_ranges s)
    else mi_patch_tag_ranges s in
  s <| mi_patch_tag_ranges := ranges |> <| mi_patch_mode := false |>
    <| mi_patch_mode_first_tag := 0 |> <| mi_patch_lo_tag := 0 |> <| mi_patch_hi_tag := 0 |>.

(** The loop of [remap_patch_tag] over the closed sessions, newest first. *)
Fixpoint find_session (tag : Z) (newest_first : list patch_tag_range_t) : Z :=
  match newest_first with
  | [] => 0
  | r :: rs => if (pr_lo_tag r <=? tag) && (tag <=? pr_hi_tag r) then pr_trigger_tag r
               else find_session tag rs
  end.

Definition remap_patch_tag (tag : Z) (s : mcmi) : Z :=
  if negb (fl_patch_mode_tag_override fl) then tag
  else
    let trigger_tag :=
      if mi_patch_mode s && negb (mi_patch_mode_first_tag s =? 0) &&
         negb (mi_patch_lo_tag s =? 0) && (mi_patch_lo_tag s <=? tag)
      then mi_patch_mode_first_tag s
      else find_session tag (reverse (mi_patch_tag_ranges s)) in
    if trigger_tag =? 0 then tag else trigger_tag.

Definition process_reset (loc : Z) (s : mcmi) : mcmi :=
  if negb (loc_ =? loc) then s else s <| mi_in_reset := false |>.

Definition process_trap (loc id cause order pc_addr : Z) (s : mcmi) : mcmi * list mcm_call :=
  if mi_in_reset s || negb (loc_ =? loc) then (s, [])
  else if id =? EXCP then
    let s := s <| mi_ecause := cause &&& 0xff |> in
    if fl_cosim fl && (mi_ecause s =? 60) then
      let s := if mi_patch_mode s && negb (mi_patch_lo_tag s =? 0) then close_patch_session s else s in
      (s <| mi_patch_mode := true |> <| mi_patch_mode_first_tag := order |>
         <| mi_patch_lo_tag := 0 |> <| mi_patch_hi_tag := 0 |>, [CEnterPatch])
    else if (mi_ecause s =? CUSTOM_VEC_CMODE ov) || (mi_ecause s =? CUSTOM_MC2_VEC_CMODE ov) then
      let s := if negb (mi_vec_cmode s && (pc_addr =? mi_vec_cmode_pc_addr s)) then
                 s <| mi_vec_cmode := true |> <| mi_vec_cmode_first_tag := order |>
                   <| mi_vec_cmode_pc_addr := pc_addr |>
               else s in
      (if mi_mem_error s then
         s <| mi_vec_cmode_mem_errors ::= <[mi_vec_cmode_first_tag s := true]> |> else s, [])
    else if mi_vec_cmode s then
      (s <| mi_vec_cmode_tags ::= emplace order (mi_vec_cmode_first_tag s) |>, [])
    else (s, [])
  else (s, []).

Definition process_ievict (cycle hart addr : Z) (s : mcmi) : list mcm_call :=
  if mi_terminated s || mi_in_reset s || patch_access addr s then []
  else [CIevict hart (mem_new <| m_cycle := cycle |> <| m_pa := addr |>)].

Definition ncio_active (s : mcmi) (fetch : mem_t) : bool :=
  existsb (λ a, mem_eqb a fetch) (mi_active_ncio_fetches s).

Definition process_ncio_fetches (r : mcmi_rvfi_t) (s : mcmi) : mcmi * list mcm_call :=
  if mi_terminated s || mi_in_reset s then (s, [])
  else
    (s <| mi_ncio_fetches ::= filter (λ f, ncio_active s f = true) |>,
     flat_map (λ f, if ncio_active s f then [] else process_ievict (rv_cycle r) (rv_hart r) (m_pa f) s)
       (mi_ncio_fetches s)).

(** The patch-mode bookkeeping of a retirement. *)
Definition track_patch (r : mcmi_rvfi_t) (s : mcmi) : mcmi :=
  let s := if rv_set_pmode r then
             let s := s <| mi_patch_mode := true |> in
             if mi_patch_mode_first_tag s =? 0 then s <| mi_patch_mode_first_tag := rv_order r |> else s
           else s in
  let s := if mi_patch_mode s then
             let s := if mi_patch_mode_first_tag s =? 0
                      then s <| mi_patch_mode_first_tag := rv_order r |> else s in
             if rv_mode r =? RVFI_PATCH_MODE then
               let s := if (mi_patch_lo_tag s =? 0) || (rv_order r <? mi_patch_lo_tag s)
                        then s <| mi_patch_lo_tag := rv_order r |> else s in
               if mi_patch_hi_tag s <? rv_order r then s <| mi_patch_hi_tag := rv_order r |> else s
             else s
           else s in
  if rv_clr_pmode r ||
     (mi_patch_mode s && negb (mi_patch_lo_tag s =? 0) && negb (rv_mode r =? RVFI_PATCH_MODE))
  then close_patch_session s else s.

Definition process_rvfi (r : mcmi_rvfi_t) (s : mcmi) : mcmi * list mcm_call :=
  if mi_in_reset s || negb (loc_ =? rv_loc r) then (s, [])
  else
    let s := track_patch r s in
    let s := if mi_vec_cmode s then
               s <| mi_vec_cmode_tags ::= emplace (rv_order r) (mi_vec_cmode_first_tag s) |> else s in
    if negb (rv_last_uop r) then (s, [])
    else
      let '(s, cs) :=
        if negb (bool_decide (mi_ncio_fetches s = [])) || mi_ncio_mem_transition s then
          let '(s, cs) := if negb (rv_branch_tag r =? mi_prev_branch_tag s)
                          then process_ncio_fetches r s else (s, []) in
          (s <| mi_active_ncio_fetches := [] |> <| mi_ncio_mem_transition := false |>, cs)
        else (s, []) in
      (s <| mi_prev_branch_tag := rv_branch_tag r |> <| mi_vec_cmode := false |>
         <| mi_vec_cmode_mem_errors := ∅ |>, cs).

Definition bypass_pokes_cache (m : mem_t) : bool := (m_attr m =? 0x1000) && negb (m_v_ext m).

Definition sc_failed (write : mem_t) (s : mcmi) : bool :=
  match mi_sc_result s !! m_tag write with
  | None => true
  | Some m => negb (m_data m =? 0)
  end.

Definition process_amo (read : mem_t) (s : mcmi) : option (mcmi * list mcm_call) :=
  match mi_amo_writes s !! m_tag read with
  | None => if m_amo_op read =? AMOCAS then Some (s, []) else Some (s, [CError])
  | Some m =>
      let m := m <| m_cycle := m_cycle read |> in
      '(data, err) ←
        (if negb (m_amo_op m =? AMOCAS)
         then amo_modify_write_data bm_mask (m_amo_op m) (m_data read) (m_data m) (m_size m)
         else Some (m_data m, false));
      let m := m <| m_data := data |> in
      Some (s <| mi_amo_writes ::= delete (m_tag read) |>,
            (if err : bool then [CError] else []) ++ [CBypass (m_hart m) m (bypass_pokes_cache m)])
  end.

(** Element [i] of a splat read reported in one piece. *)
Definition splat_element (r : mcmi_read_t) (data_vec : Z) (m : mem_t) (i : nat) : mem_t :=
  let es := rd_elem_size r in
  m <| m_data_vec := u64 (or_bits (λ j, (Z.of_nat i * es * 8 + j <? 256) &&
                                       Z.testbit data_vec (Z.of_nat i * es * 8 + j))
                            (Z.to_nat (es * 8))) |>
    <| m_elem_idx := u8 (rd_elem_idx r + Z.of_nat i) |>.

(** [total_elements] and [m.size] for [n] bytes. *)
Definition splat_count (n es : Z) : Z * Z := if negb (n / es =? 0) then (u16 (n / es), u8 es) else (1, u8 n).

Definition process_read_single_consecutive (m : mem_t) (r : mcmi_read_t) (cacheable : bool) :
    option (list mcm_call) :=
  if rd_v_ext r && rd_splat r then
    if rd_elem_size r =? 0 then None
    else
      let '(total, size) := splat_count (popcount (rd_mask r)) (rd_elem_size r) in
      let m' := m <| m_size := size |> in
      Some ((λ i, CRead (rd_hart r) (splat_element r (m_data_vec m) m' i) cacheable)
              <$> seq 0 (Z.to_nat total))
  else
    Some [CRead (rd_hart r)
            (m <| m_data_vec := extract_bits_as_bitset (m_data_vec m) (m_size m * 8) 0 |>) cacheable].

(** The hex digits of element [i] of a range. *)
Definition split_element_hex (es : Z) (g : mem_range) (i : nat) : string :=
  let n := String.length (rg_hex g) in
  if negb (rg_size g / es =? 0) then
    let start := (n - (i + 1) * 2 * Z.to_nat es)%nat in
    let fin := (n - i * 2 * Z.to_nat es)%nat in
    String.substring start (fin - start) (rg_hex g)
  else String.substring 0 n (rg_hex g).

Definition process_read_split_range (m : mem_t) (r : mcmi_read_t) (cacheable : bool) (g : mem_range) :
    option (list mcm_call) :=
  let es := rd_elem_size r in
  if es =? 0 then None
  else
    let first := u64 (rg_start g - rd_addr r) / es + rd_elem_idx r in
    if rd_v_ext r && rd_splat r then
      let '(total, size) := splat_count (rg_size g) es in
      let m := m <| m_size := size |> <| m_pa := rd_addr r |> in
      Some ((λ i : nat, CRead (rd_hart r)
               (m <| m_data_vec := stringToBitset (split_element_hex es g i) |>
                  <| m_elem_idx := u8 (first + Z.of_nat i) |>) cacheable)
              <$> seq 0 (Z.to_nat total))
    else
      Some [CRead (rd_hart r)
              (m <| m_pa := rg_start g |> <| m_size := u8 (rg_size g) |>
                 <| m_data_vec := rg_data g |> <| m_elem_idx := u8 first |>) cacheable].

Definition read_mem (r : mcmi_read_t) (s : mcmi) : mem_t :=
  mem_new <| m_hart := rd_hart r |> <| m_cycle := rd_cycle r |> <| m_opcode := rd_opcode r |>
    <| m_tag := remap_patch_tag (rd_order r) s |> <| m_pa := rd_addr r |>
    <| m_size := popcount (rd_mask r) |> <| m_data := rd_data r |> <| m_data_vec := rd_data_vec r |>
    <| m_amo := rd_amo r |> <| m_amo_op := rd_amo_op r |> <| m_v_ext := rd_v_ext r |>
    <| m_field := rd_field r |> <| m_elem_idx := rd_elem_idx r |> <| m_splat := rd_splat r |>.

(** The callbacks change [m] only in fields [process_amo] does not read. *)
Definition process_read (r : mcmi_read_t) (s : mcmi) : option (mcmi * list mcm_call) :=
  if mi_in_reset s || patch_access (rd_addr r) s then Some (s, [])
  else
    let cacheable := rd_attr r &&& 0x1000 =? 0x1000 in
    let m := read_mem r s in
    if m_amo m && (m_amo_op m =? SC) then
      match mi_sc_bypass s !! m_tag m with
      | None => Some (s <| mi_sc_result ::= emplace (m_tag m) m |>, [])
      | Some b =>
          if negb (sc_failed b s) then
            Some (s <| mi_sc_bypass ::= delete (m_tag m) |>, [CBypass (m_hart m) b (bypass_pokes_cache b)])
          else Some (s, [])
      end
    else
      cs ← match process_memory_access (rd_addr r) (rd_mask r) (rd_data_vec r) with
           | inl _ => process_read_single_consecutive m r cacheable
           | inr gs => mjoin <$> mapM (process_read_split_range m r cacheable) gs
           end;
      if m_amo m && negb (m_amo_op m =? LR) && fl_emulate_amo_arithmetic fl then
        '(s, cs') ← process_amo m s; Some (s, cs ++ cs')
      else Some (s, cs).

Definition process_insert (i : mcmi_insert_t) (s : mcmi) : list mcm_call :=
  if mi_in_reset s || patch_access (in_addr i) s then []
  else
    let m := mem_new <| m_tag := remap_patch_tag (in_order i) s |> <| m_cycle := in_cycle i |>
               <| m_v_ext := in_v_ext i |> <| m_elem_idx := in_elem_idx i |> in
    match process_memory_access (in_addr i) (in_mask i) (in_data_vec i) with
    | inl _ =>
        [CInsert (in_hart i)
           (m <| m_pa := in_addr i |> <| m_size := popcount (in_mask i) |> <| m_data := in_data i |>
              <| m_data_vec := in_data_vec i |>)]
    | inr gs =>
        (λ g, CInsert (in_hart i)
           (m <| m_pa := rg_start g |> <| m_size := u8 (rg_size g) |> <| m_data_vec := rg_data g |>)) <$> gs
    end.

Definition bypass_mem (b : mcmi_bypass_t) (s : mcmi) : mem_t :=
  mem_new <| m_tag := remap_patch_tag (by_order b) s |> <| m_hart := by_hart b |>
    <| m_cycle := by_cycle b |> <| m_v_ext := by_v_ext b |> <| m_elem_idx := by_elem_idx b |>
    <| m_amo := by_amo b |> <| m_amo_op := by_amo_op b |> <| m_attr := by_attr b |>.

(** The [mem_t] of a bypass reported in one piece. *)
Definition bypass_one (b : mcmi_bypass_t) (s : mcmi) : mem_t :=
  bypass_mem b s <| m_pa := by_addr b |> <| m_size := popcount (by_mask b) |> <| m_data := by_data b |>
    <| m_data_vec := extract_bits_as_bitset (by_data_vec b) (popcount (by_mask b) * 8) 0 |>.

Definition process_bypass_single (b : mcmi_bypass_t) (s : mcmi) : mcmi * list mcm_call :=
  let m := bypass_one b s in
  if m_amo m && (m_amo_op m =? AMOCAS) && by_amo_cas_fail b then (s, [])
  else if m_amo m && negb (m_amo_op m =? SC) && fl_emulate_amo_arithmetic fl then
    (s <| mi_amo_writes ::= emplace (m_tag m) m |>, [])
  else if m_amo m && (m_amo_op m =? SC) && sc_failed m s then
    (s <| mi_sc_bypass ::= emplace (m_tag m) m |>, [])
  else (s, [CBypass (by_hart b) m (bypass_pokes_cache m)]).

Definition process_bypass (b : mcmi_bypass_t) (s : mcmi) : mcmi * list mcm_call :=
  if mi_terminated s || mi_in_reset s || patch_access (by_addr b) s then (s, [])
  else
    match process_memory_access (by_addr b) (by_mask b) (by_data_vec b) with
    | inl _ => process_bypass_single b s
    | inr gs =>
        (s, (λ g, CBypass (by_hart b)
               (bypass_mem b s
                  <| m_pa := rg_start g |> <| m_size := u8 (rg_size g) |> <| m_data_vec := rg_data g |>
                  <| m_v_ext := by_v_ext b |> <| m_elem_idx := by_elem_idx b |>) false) <$> gs)
    end.

Definition process_write (cycle hart addr mask data : Z) (error : bool) (s : mcmi) : list mcm_call :=
  if mi_terminated s || mi_in_reset s || patch_access addr s then []
  else
    let m := raw_cl <| cl_valid := true |> <| cl_cycle := cycle |> <| cl_pa := addr |>
               <| cl_mask := mask |> <| cl_data := data |> <| cl_error := error |> in
    [CWrite hart (if check_axi_error (addr &&& not64 0x3f) then m <| cl_error := true |> else m)].

Definition process_ifetch_req (order addr attr : Z) (s : mcmi) : mcmi :=
  if mi_terminated s || mi_in_reset s then s
  else
    let m := mem_new <| m_tag := order |> <| m_pa := addr |> <| m_attr := attr |> in
    s <| mi_ifetch_reqs ::= emplace (m_tag m) m |>.

(** A response without a request logs an error and then throws. *)
Definition process_ifetch_resp (cycle hart order : Z) (s : mcmi) : option (mcmi * list mcm_call) :=
  if mi_terminated s || mi_in_reset s then Some (s, [])
  else
    m ← mi_ifetch_reqs s !! order;
    let m := m <| m_cycle := cycle |> in
    let '(s, cs) :=
      if is_ncio (m_attr m) then
        let '(s, cs) :=
          match List.find (λ f, m_pa f =? m_pa m) (mi_ncio_fetches s) with
          | None => (s <| mi_ncio_fetches ::= λ l, l ++ [m] |>, [CIfetch hart m])
          | Some f => (s, process_ievict cycle hart (m_pa f) s ++ [CIfetch hart m])
          end in
        (s <| mi_active_ncio_fetches ::= λ l, l ++ [m] |>, cs)
      else
        (if negb (bool_decide (mi_ncio_fetches s = [])) then s <| mi_ncio_mem_transition := true |> else s,
         process_ievict cycle hart (m_pa m) s ++ [CIfetch hart m]) in
    Some (s <| mi_ifetch_reqs ::= delete order |>, cs).

(** A call whose failure is an error. *)
Definition call_checked (c : whisper_call) : list mcm_call :=
  CWhisper c :: if rpc_failed c then [CError] else [].

Definition process_decode (cycle hart order addr mask : Z) (s : mcmi) : list mcm_call :=
  if mi_terminated s || mi_in_reset s || patch_fetch_access addr s || debug_fetch_access addr then []
  else call_checked (WDecode hart cycle order addr (popcount mask)).

Definition process_devict (cycle hart addr : Z) (s : mcmi) : list mcm_call :=
  if mi_terminated s || mi_in_reset s then [] else call_checked (WDevict hart cycle addr).

Definition process_flush (cycle hart addr : Z) (s : mcmi) : list mcm_call :=
  if mi_in_reset s then []
  else CWhisper (WDwriteback hart cycle addr) ::
       if rpc_failed (WDwriteback hart cycle addr) then [] else call_checked (WDevict hart cycle addr).

Definition process_writeback (cycle addr : Z) (s : mcmi) : list mcm_call :=
  if mi_in_reset s then []
  else call_checked (WDwriteback 0 cycle addr) ++
       if rpc_failed (WDwriteback 0 cycle addr) then [] else call_checked (WDevict 0 cycle addr).

Definition process_dfetch (cycle addr : Z) (s : mcmi) : list mcm_call :=
  if mi_in_reset s then [] else call_checked (WDfetch 0 cycle addr).

(** A message reaches its handler unless the interface has terminated
    ([connect]). *)
Definition process (msg : mcmi_msg) (s : mcmi) : option (mcmi * list mcm_call) :=
  if mi_terminated s then Some (s, [])
  else
    match msg with
    | MsgReset loc => Some (process_reset loc s, [])
    | MsgTrap loc id cause order pc => Some (process_trap loc id cause order pc s)
    | MsgRvfi r => Some (process_rvfi r s)
    | MsgRead r => process_read r s
    | MsgInsert i => Some (s, process_insert i s)
    | MsgBypass b => Some (process_bypass b s)
    | MsgWrite c h a m d e => Some (s, process_write c h a m d e s)
    | MsgIfetchReq o a t => Some (process_ifetch_req o a t s, [])
    | MsgIfetchResp c h o => process_ifetch_resp c h o s
    | MsgIevict c h a => Some (s, process_ievict c h a s)
    | MsgDecode c h o a m => Some (s, process_decode c h o a m s)
    | MsgDevict c h a => Some (s, process_devict c h a s)
    | MsgFlush c h a => Some (s, process_flush c h a s)
    | MsgWriteback c a => Some (s, process_writeback c a s)
    | MsgDfetch c a => Some (s, process_dfetch c a s)
    | MsgDrain => Some (s <| mi_terminated := true |>, [])
    | MsgTerminateMemChecks => Some (s, [])
    | MsgBridgeError => Some (s, [])
    end.

Fixpoint mcmi_run (msgs : list mcmi_msg) (s : mcmi) : option (mcmi * list mcm_call) :=
  match msgs with
  | [] => Some (s, [])
  | msg :: msgs =>
      '(s, cs) ← process msg s;
      '(s, cs') ← mcmi_run msgs s;
      Some (s, cs ++ cs')
  end.

(** ** Accesses reach the bridge byte for byte *)

(** The bytes a call reports for a vector access. *)
Definition call_bytes (c : mcm_call) : list (Z * Z) :=
  match c with
  | CRead _ m _ | CInsert _ m | CBypass _ m _ =>
      imap (λ k b, (u64 (m_pa m + Z.of_nat k), b)) (le_bytes (Z.to_nat (m_size m)) (m_data_vec m))
  | _ => []
  end.

Definition mission (s : mcmi) : Prop := mi_in_reset s = false ∧ mi_terminated s = false.

(** A byte mask relative to the access address: its first byte is enabled and
    it covers at most the 32 bytes of a vector register. *)
Definition mask_ok (mask : Z) : Prop := 0 ≤ mask < 2 ^ 32 ∧ Z.testbit mask 0 = true.

(** The two ways out of [process_memory_access], for an access whose calls
    [one] (in one piece) and [each] (per range) carry address, size and data. *)
Lemma memory_access_bytes base mask data one (each : mem_range → mcm_call) :
  mask_ok mask →
  call_bytes one = imap (λ k b, (u64 (base + Z.of_nat k), b)) (le_bytes (Z.to_nat (popcount mask)) data) →
  (∀ g, u8 (rg_size g) = rg_size g → call_bytes (each g) = range_bytes g) →
  mjoin (call_bytes <$> match process_memory_access base mask data with
                        | inl _ => [one] | inr gs => each <$> gs end) = masked_bytes base mask data.
Proof.
  intros [Hm H0] Hone Heach. unfold process_memory_access.
  destruct (mask_consecutive mask) eqn:Ec.
  - destruct (mask_consecutive_low mask) as [Hp Hk]; [unfold is_u64; lia|done|done|].
    assert (popcount mask ≤ 32).
    { destruct (decide (popcount mask ≤ 32)); [done|exfalso].
      assert (2 ^ 33 ≤ 2 ^ popcount mask) by (apply Z.pow_le_mono_r; lia). lia. }
    cbn [fmap list_fmap mjoin list_join]. rewrite app_nil_r, Hone.
    symmetry. apply masked_bytes_low; [lia|]. by rewrite Z2Nat.id by lia.
  - destruct (split_exact base mask data) as (Hj & _ & _). rewrite <- Hj.
    pose proof (split_ranges_wf base mask data) as Hs.
    clear Hj. induction Hs as [|g gs [_ Hg] _ IH]; [done|].
    change (call_bytes (each g) ++ mjoin (call_bytes <$> (each <$> gs)) =
            range_bytes g ++ mjoin (range_bytes <$> gs)).
    rewrite IH, Heach; [done|]. apply Z.mod_small. lia.
Qed.

Lemma memory_access_Forall (P : mcm_call → Prop) base mask data one each :
  P one → (∀ g, is_u64 (rg_start g) → 0 < rg_size g ≤ 32 → P (each g)) →
  Forall P (match process_memory_access base mask data with inl _ => [one] | inr gs => each <$> gs end).
Proof.
  intros Hone Heach. unfold process_memory_access. destruct (mask_consecutive mask); [by constructor|].
  apply Forall_fmap. eapply Forall_impl; [apply split_ranges_wf|]. intros g [??]. by apply Heach.
Qed.

Lemma le_bytes_extract n data :
  0 ≤ n ≤ 32 →
  le_bytes (Z.to_nat n) (extract_bits_as_bitset data (n * 8) 0) = le_bytes (Z.to_nat n) data.
Proof.
  intros Hn. rewrite extract_bits_low by lia. rewrite (le_bytes_mod _ data). do 3 f_equal. lia.
Qed.

Lemma popcount_ok mask : mask_ok mask → 0 < popcount mask ≤ 32.
Proof.
  intros [Hm H0]. split; unfold popcount.
  { change (seq 0 64) with (0%nat :: seq 1 63). rewrite filter_cons_True by exact H0. cbn [length]. lia. }
  change (seq 0 64) with (seq 0 32 ++ seq 32 32). rewrite filter_app, length_app.
  assert (filter (λ i, Z.testbit mask (Z.of_nat i) = true) (seq 32 32) = []) as ->.
  { destruct (filter _ _) as [|i l] eqn:E; [done|exfalso].
    assert (i ∈ filter (λ i, Z.testbit mask (Z.of_nat i) = true) (seq 32 32)) as Hi
      by (rewrite E; left).
    apply list_elem_of_filter in Hi as [Hb Hi%elem_of_seq].
    by rewrite (testbit_above mask 32) in Hb by lia. }
  pose proof (length_filter (λ i, Z.testbit mask (Z.of_nat i) = true) (seq 0 32)) as Hl.
  rewrite length_seq in Hl. cbn [length]. lia.
Qed.

Lemma mapM_singletons {A B} (f : A → B) (g : A → option (list B)) l :
  (∀ x, g x = Some [f x]) → mjoin <$> mapM g l = Some (f <$> l).
Proof.
  intros Hg. assert (mapM g l = Some ((λ x, [f x]) <$> l)) as ->.
  { induction l as [|x l IH]; [done|]. cbn [mapM]. by rewrite Hg, IH. }
  cbn. f_equal. induction l as [|x l IH]; [done|]. cbn in *. by f_equal.
Qed.

(** A plain vector load: neither an atomic nor a broadcast. *)
Definition plain_read (r : mcmi_read_t) : Prop :=
  rd_amo r = false ∧ rd_splat r = false ∧ rd_elem_size r ≠ 0 ∧ mask_ok (rd_mask r).

Definition mem_ok (v_ext : bool) (tag : Z) (m : mem_t) : Prop :=
  m_v_ext m = v_ext ∧ m_tag m = tag ∧ is_u64 (m_pa m) ∧ 0 < m_size m ≤ 32.

(** In mission mode, and outside the patch routine's own memory, a load, a
    store insert or a store bypass reaches the bridge as calls that together
    carry exactly the bytes its mask enables, each at its address, in address
    order; the state does not change. *)
Lemma read_bytes s r :
  mission s → plain_read r → is_u64 (rd_addr r) → patch_access (rd_addr r) s = false →
  ∃ cs, process (MsgRead r) s = Some (s, cs) ∧
    mjoin (call_bytes <$> cs) = masked_bytes (rd_addr r) (rd_mask r) (rd_data_vec r) ∧
    Forall (λ c, ∃ m, c = CRead (rd_hart r) m (rd_attr r &&& 0x1000 =? 0x1000) ∧
                      mem_ok (rd_v_ext r) (remap_patch_tag (rd_order r) s) m) cs.
Proof.
  intros [Hr Ht] (Ha & Hsp & Hes & Hm) Hu Hp. unfold process, process_read. rewrite Ht, Hr, Hp. cbn [orb].
  change (m_amo (read_mem r s)) with (rd_amo r). rewrite Ha. cbn [andb].
  set (mm := read_mem r s). set (cc := rd_attr r &&& 0x1000 =? 0x1000).
  set (one := CRead (rd_hart r) (mm <| m_data_vec := extract_bits_as_bitset (m_data_vec mm) (m_size mm * 8) 0 |>) cc).
  set (each := λ g, CRead (rd_hart r)
            (mm <| m_pa := rg_start g |> <| m_size := u8 (rg_size g) |>
               <| m_data_vec := rg_data g |>
               <| m_elem_idx := u8 (u64 (rg_start g - rd_addr r) / rd_elem_size r + rd_elem_idx r) |>) cc).
  pose proof (popcount_ok _ Hm) as Hpop.
  exists (match process_memory_access (rd_addr r) (rd_mask r) (rd_data_vec r) with
      | inl _ => [one] | inr gs => each <$> gs end). split_and!.
  - destruct (process_memory_access _ _ _) as [u|gs].
    + unfold process_read_single_consecutive. rewrite Hsp, andb_false_r. done.
    + rewrite (mapM_singletons each); [done|]. intros g. unfold process_read_split_range.
      rewrite (proj2 (Z.eqb_neq _ 0)) by done. rewrite Hsp, andb_false_r. done.
  - apply memory_access_bytes; [done| |intros g Hg; unfold each; cbn; by rewrite Hg].
    cbn. by rewrite le_bytes_extract by lia.
  - apply memory_access_Forall; [by eexists|]. intros g Hg Hs. eexists. split; [done|].
    split_and!; [done|done|done|..]; cbn; unfold u8; rewrite Z.mod_small by lia; lia.
Qed.

Lemma insert_bytes s i :
  mission s → mask_ok (in_mask i) → is_u64 (in_addr i) → patch_access (in_addr i) s = false →
  ∃ cs, process (MsgInsert i) s = Some (s, cs) ∧
    mjoin (call_bytes <$> cs) = masked_bytes (in_addr i) (in_mask i) (in_data_vec i) ∧
    Forall (λ c, ∃ m, c = CInsert (in_hart i) m ∧
                      mem_ok (in_v_ext i) (remap_patch_tag (in_order i) s) m) cs.
Proof.
  intros [Hr Ht] Hm Hu Hp. pose proof (popcount_ok _ Hm) as Hpop. eexists. unfold process, process_insert.
  rewrite Ht, Hr, Hp. cbn [orb]. split_and!; [done| |].
  - apply memory_access_bytes; [done|done|intros g Hg; cbn; by rewrite Hg].
  - apply memory_access_Forall; [by eexists|]. intros g Hg Hs. eexists. split; [done|].
    split_and!; [done|done|done|..]; cbn; unfold u8; rewrite Z.mod_small by lia; lia.
Qed.

Lemma bypass_bytes s b :
  mission s → mask_ok (by_mask b) → is_u64 (by_addr b) → by_amo b = false → patch_access (by_addr b) s = false →
  ∃ cs, process (MsgBypass b) s = Some (s, cs) ∧
    mjoin (call_bytes <$> cs) = masked_bytes (by_addr b) (by_mask b) (by_data_vec b) ∧
    Forall (λ c, ∃ m cache, c = CBypass (by_hart b) m cache ∧
                            mem_ok (by_v_ext b) (remap_patch_tag (by_order b) s) m) cs.
Proof.
  intros [Hr Ht] Hm Hu Ha Hp. pose proof (popcount_ok _ Hm) as Hpop. unfold process, process_bypass.
  rewrite Ht, Hr, Hp. cbn [orb].
  eexists (match process_memory_access (by_addr b) (by_mask b) (by_data_vec b) with
      | inl _ => [CBypass (by_hart b) (bypass_one b s) _] | inr gs => _ <$> gs end). split_and!.
  - unfold process_bypass_single. cbv zeta. change (m_amo (bypass_one b s)) with (by_amo b).
    rewrite Ha. cbn [andb]. destruct (process_memory_access _ _ _) as [u|gs]; reflexivity.
  - apply memory_access_bytes; [done|cbn; by rewrite le_bytes_extract by lia|]. intros g Hg. cbn. by rewrite Hg.
  - apply memory_access_Forall; [by eexists _, _|]. intros g Hg Hs. eexists _, _. split; [done|].
    split_and!; [done|done|done|..]; cbn; unfold u8; rewrite Z.mod_small by lia; lia.
Qed.

(** ** Atomics *)

(** The RISC-V atomic memory operations on [n]-bit operands: the value stored,
    from the value [r] loaded and the source register [w]. *)
Definition sgn (n v : Z) : Z := if 2 ^ (n - 1) <=? v then v - 2 ^ n else v.
Definition riscv_amo (op n r w : Z) : Z :=
  let r := r mod 2 ^ n in
  let w := w mod 2 ^ n in
  if op =? AMOADD then (r + w) mod 2 ^ n
  else if op =? AMOAND then r &&& w
  else if op =? AMOOR then r ||| w
  else if op =? AMOXOR then r ^^^ w
  else if op =? AMOSWAP then w
  else if op =? AMOMIN then if sgn n r <=? sgn n w then r else w
  else if op =? AMOMINU then if r <=? w then r else w
  else if op =? AMOMAX then if sgn n r <=? sgn n w then w else r
  else if r <=? w then w else r.

Definition amo_arith_ops : list Z :=
  [AMOADD; AMOAND; AMOOR; AMOXOR; AMOSWAP; AMOMIN; AMOMINU; AMOMAX; AMOMAXU].

(** What the code uses of [cvm::bitmanip::mask]: the mask of [n] bits has its
    [n] low bits set. *)
Definition mask_law : Prop :=
  (∀ sg w, w ∈ [8; 16; 32; 64] → bm_mask sg w w = to_T sg w (2 ^ w - 1)) ∧
  (∀ n, n ∈ [8; 16; 32; 64] → bm_mask false 64 n = 2 ^ n - 1).

Lemma to_T_mod sg w x : 0 ≤ w → to_T sg w x mod 2 ^ w = x mod 2 ^ w.
Proof.
  intros Hw. unfold to_T. destruct (sg && _); [|by rewrite Z.mod_mod by lia].
  rewrite Zminus_mod, Z_mod_same_full, Z.sub_0_r. by rewrite !Z.mod_mod by lia.
Qed.

Lemma to_T_mod_in sg w x : 0 ≤ w → to_T sg w (x mod 2 ^ w) = to_T sg w x.
Proof. intros. unfold to_T. by rewrite Z.mod_mod by lia. Qed.

Lemma to_T_load sg w x :
  0 < w → to_T sg w (to_T sg w x &&& to_T sg w (2 ^ w - 1)) = to_T sg w x.
Proof.
  intros Hw. assert (0 < 2 ^ w) by lia.
  assert (to_T sg w x &&& to_T sg w (2 ^ w - 1) = to_T sg w x) as ->.
  { unfold to_T at 2. rewrite (Z.mod_small (2 ^ w - 1)) by lia. destruct sg; cbn [andb].
    - rewrite (proj2 (Z.leb_le _ _)).
      + replace (2 ^ w - 1 - 2 ^ w) with (-1) by lia. apply Z.land_m1_r.
      + replace w with (Z.succ (w - 1)) at 2 by lia. rewrite Z.pow_succ_r by lia. lia.
    - replace (2 ^ w - 1) with (Z.ones w) by (rewrite Z.ones_equiv; lia).
      rewrite Z.land_ones by lia. unfold to_T. cbn [andb]. by rewrite Z.mod_mod by lia. }
  rewrite <- to_T_mod_in, to_T_mod, to_T_mod_in by lia. done.
Qed.

Lemma to_T_store w x : w ∈ [8; 16; 32; 64] → ∀ sg, u64 (to_T sg w x) &&& (2 ^ w - 1) = x mod 2 ^ w.
Proof.
  intros Hw sg. assert (0 ≤ w ≤ 64) by (set_unfold; naive_solver lia).
  replace (2 ^ w - 1) with (Z.ones w) by (rewrite Z.ones_equiv; lia).
  rewrite Z.land_ones by lia. unfold u64. rewrite Z.mod_mod_divide; [apply to_T_mod; lia|].
  exists (2 ^ (64 - w)). rewrite <- Z.pow_add_r by lia. f_equal. lia.
Qed.

Lemma amo_arithmetic_eq op sg size r w :
  mask_law → size ∈ [1; 2; 4; 8] → op ∈ amo_arith_ops →
  amo_arithmetic bm_mask sg (size * 8) op r w size =
  let n := size * 8 in
  let r := to_T sg n r in let w := to_T sg n w in
  Some ((if op =? AMOADD then r + w else if op =? AMOAND then r &&& w
         else if op =? AMOOR then r ||| w else if op =? AMOXOR then r ^^^ w
         else if op =? AMOSWAP then w
         else if (op =? AMOMIN) || (op =? AMOMINU) then Z.min r w else Z.max r w) mod 2 ^ n).
Proof.
  intros [L1 L2] Hs Ho. assert (size * 8 ∈ [8; 16; 32; 64]) as Hn by (set_unfold; naive_solver lia).
  assert (0 < size * 8) by (set_unfold in Hs; naive_solver lia).
  unfold amo_arithmetic. rewrite L1, !to_T_load, L2 by done.
  cbv zeta. unfold amo_arith_ops in Ho. set_unfold in Ho.
  destruct_or! Ho; subst op; cbn -[to_T u64 Z.pow Z.mul]; f_equal; by apply to_T_store.
Qed.

Lemma land_mod n x y : 0 ≤ n → ((x mod 2 ^ n) &&& (y mod 2 ^ n)) mod 2 ^ n = (x mod 2 ^ n) &&& (y mod 2 ^ n).
Proof. intros. rewrite <- !Z.land_ones by lia. apply Z.bits_inj'. intros i Hi. rewrite !Z.land_spec. by repeat destruct (Z.testbit _ i). Qed.

Lemma lor_mod n x y : 0 ≤ n → (x mod 2 ^ n ||| y mod 2 ^ n) mod 2 ^ n = x mod 2 ^ n ||| y mod 2 ^ n.
Proof. intros. rewrite <- !Z.land_ones by lia. apply Z.bits_inj'. intros i Hi. rewrite !Z.land_spec, !Z.lor_spec, !Z.land_spec. by repeat destruct (Z.testbit _ i). Qed.

Lemma lxor_mod n x y : 0 ≤ n → (x mod 2 ^ n ^^^ y mod 2 ^ n) mod 2 ^ n = x mod 2 ^ n ^^^ y mod 2 ^ n.
Proof. intros. rewrite <- !Z.land_ones by lia. apply Z.bits_inj'. intros i Hi. rewrite !Z.land_spec, !Z.lxor_spec, !Z.land_spec. by repeat destruct (Z.testbit _ i). Qed.

Lemma to_T_signed n x : to_T true n x = sgn n (x mod 2 ^ n).
Proof. done. Qed.

Lemma to_T_unsigned n x : to_T false n x = x mod 2 ^ n.
Proof. done. Qed.

Lemma sgn_mod n v : 0 ≤ n → 0 ≤ v < 2 ^ n → sgn n v mod 2 ^ n = v.
Proof.
  intros Hn Hv. unfold sgn. destruct (_ <=? _); [|by apply Z.mod_small].
  rewrite Zminus_mod, Z_mod_same_full, Z.sub_0_r, Z.mod_mod by lia. by apply Z.mod_small.
Qed.

(** The emulated arithmetic is that of the instruction set. *)
Lemma amo_modify_spec op size r w :
  mask_law → size ∈ [1; 2; 4; 8] → op ∈ amo_arith_ops →
  amo_modify_write_data bm_mask op r w size = Some (riscv_amo op (size * 8) r w, false).
Proof.
  intros Hl Hs Ho. unfold amo_modify_write_data.
  set (sg := (op =? AMOADD) || (op =? AMOSWAP) || (op =? AMOMAX) || (op =? AMOMIN)).
  pose proof (amo_arithmetic_eq op sg size r w Hl Hs Ho) as E. set (n := size * 8) in *.
  assert (0 ≤ n) by (set_unfold; naive_solver lia).
  assert (∀ x, 0 ≤ x mod 2 ^ n < 2 ^ n) as Hx by (intros; apply Z.mod_pos_bound; lia).
  assert (amo_arithmetic bm_mask sg n op r w size = Some (riscv_amo op n r w)) as E'.
  { rewrite E. clear E Hl. f_equal. cbv zeta. unfold amo_arith_ops in Ho. subst sg. unfold riscv_amo.
    set_unfold in Ho. destruct_or! Ho; subst op; cbn -[Z.pow to_T sgn]; rewrite ?to_T_signed, ?to_T_unsigned.
    - rewrite Zplus_mod, !sgn_mod by auto. done.
    - by apply land_mod.
    - by apply lor_mod.
    - by apply lxor_mod.
    - by apply sgn_mod.
    - destruct (Z.leb_spec (sgn n (r mod 2 ^ n)) (sgn n (w mod 2 ^ n)));
        [rewrite Z.min_l by lia|rewrite Z.min_r by lia]; by apply sgn_mod.
    - destruct (Z.leb_spec (r mod 2 ^ n) (w mod 2 ^ n));
        [rewrite Z.min_l by lia|rewrite Z.min_r by lia]; by apply Z.mod_small.
    - destruct (Z.leb_spec (sgn n (r mod 2 ^ n)) (sgn n (w mod 2 ^ n)));
        [rewrite Z.max_r by lia|rewrite Z.max_l by lia]; by apply sgn_mod.
    - destruct (Z.leb_spec (r mod 2 ^ n) (w mod 2 ^ n));
        [rewrite Z.max_r by lia|rewrite Z.max_l by lia]; by apply Z.mod_small. }
  clear E. set_unfold in Hs. destruct_or! Hs; subst size;
    [change n with 8 in E'|change n with 16 in E'|change n with 32 in E'|change n with 64 in E'];
    cbn [Z.eqb Pos.eqb]; by rewrite E'.
Qed.

(** An atomic in one piece of at most 8 bytes. *)
Definition amo_access (mask : Z) : Prop :=
  mask_ok mask ∧ mask_consecutive mask = true ∧ popcount mask ∈ [1; 2; 4; 8].

Lemma bypass_single_eq b s :
  mission s → mask_consecutive (by_mask b) = true → patch_access (by_addr b) s = false →
  process (MsgBypass b) s =
    Some (if by_amo b && (by_amo_op b =? AMOCAS) && by_amo_cas_fail b then (s, [])
          else if by_amo b && negb (by_amo_op b =? SC) && fl_emulate_amo_arithmetic fl then
            (s <| mi_amo_writes ::= emplace (remap_patch_tag (by_order b) s) (bypass_one b s) |>, [])
          else if by_amo b && (by_amo_op b =? SC) && sc_failed (bypass_one b s) s then
            (s <| mi_sc_bypass ::= emplace (remap_patch_tag (by_order b) s) (bypass_one b s) |>, [])
          else (s, [CBypass (by_hart b) (bypass_one b s) (bypass_pokes_cache (bypass_one b s))])).
Proof.
  intros [Hr Ht] Hc Hp. unfold process. rewrite Ht. unfold process_bypass. rewrite Ht, Hr, Hp.
  unfold process_memory_access. rewrite Hc. cbn [orb]. unfold process_bypass_single. cbv zeta.
  change (m_amo (bypass_one b s)) with (by_amo b). change (m_amo_op (bypass_one b s)) with (by_amo_op b).
  change (m_tag (bypass_one b s)) with (remap_patch_tag (by_order b) s). done.
Qed.

Lemma emplace_fresh {A} k (v : A) m : m !! k = None → emplace k v m = <[k:=v]> m.
Proof. intros E. unfold emplace. rewrite decide_False; [done|]. rewrite E. by intros [??]. Qed.

Lemma amo_read_eq r s m data :
  mission s → fl_emulate_amo_arithmetic fl = true → rd_amo r = true → rd_amo_op r ≠ LR →
  rd_amo_op r ≠ SC → rd_splat r = false → mask_consecutive (rd_mask r) = true →
  patch_access (rd_addr r) s = false →
  mi_amo_writes s !! remap_patch_tag (rd_order r) s = Some m → m_amo_op m ≠ AMOCAS →
  amo_modify_write_data bm_mask (m_amo_op m) (rd_data r) (m_data m) (m_size m) = Some (data, false) →
  let bm := m <| m_cycle := rd_cycle r |> <| m_data := data |> in
  ∃ rm, process (MsgRead r) s =
    Some (s <| mi_amo_writes ::= delete (remap_patch_tag (rd_order r) s) |>,
          [CRead (rd_hart r) rm (rd_attr r &&& 0x1000 =? 0x1000);
           CBypass (m_hart m) bm (bypass_pokes_cache bm)]).
Proof.
  intros [Hr Ht] He Ha N1 N2 Hsp Hc Hp Hin N3 Hd bm. eexists. unfold process. rewrite Ht.
  unfold process_read. rewrite Hr, Hp. cbn [orb].
  change (m_amo (read_mem r s)) with (rd_amo r). change (m_amo_op (read_mem r s)) with (rd_amo_op r).
  rewrite Ha, (proj2 (Z.eqb_neq _ SC)) by done. cbn [andb].
  unfold process_memory_access. rewrite Hc. unfold process_read_single_consecutive.
  rewrite Hsp, andb_false_r. cbn [mbind option_bind].
  rewrite (proj2 (Z.eqb_neq _ LR)), He by done. cbn [andb negb]. unfold process_amo.
  change (m_tag (read_mem r s)) with (remap_patch_tag (rd_order r) s). rewrite Hin.
  change (m_amo_op (m <| m_cycle := m_cycle (read_mem r s) |>)) with (m_amo_op m).
  rewrite (proj2 (Z.eqb_neq _ AMOCAS)) by done. cbn [negb].
  change (m_data (read_mem r s)) with (rd_data r).
  change (m_data (m <| m_cycle := m_cycle (read_mem r s) |>)) with (m_data m).
  change (m_size (m <| m_cycle := m_cycle (read_mem r s) |>)) with (m_size m).
  rewrite Hd. reflexivity.
Qed.

(** C26: with emulated arithmetic, the store half of an atomic (which the
    design reports with its source operand) is held back until the load half
    arrives; then one store is reported for it, with the value the instruction
    set defines for the loaded value and the operand, at the store's address,
    and nothing of the pair is left behind. *)
Theorem mcmi_amo_emulated s b r :
  mask_law → mission s → fl_emulate_amo_arithmetic fl = true →
  by_amo b = true → by_amo_op b ∈ amo_arith_ops → amo_access (by_mask b) →
  rd_amo r = true → rd_amo_op r = by_amo_op b → rd_splat r = false → amo_access (rd_mask r) →
  remap_patch_tag (rd_order r) s = remap_patch_tag (by_order b) s →
  mi_amo_writes s !! remap_patch_tag (by_order b) s = None →
  patch_access (by_addr b) s = false → patch_access (rd_addr r) s = false →
  ∃ rm bm, mcmi_run [MsgBypass b; MsgRead r] s =
      Some (s, [CRead (rd_hart r) rm (rd_attr r &&& 0x1000 =? 0x1000);
                CBypass (by_hart b) bm (bypass_pokes_cache bm)]) ∧
    m_pa bm = by_addr b ∧ m_size bm = popcount (by_mask b) ∧
    m_tag bm = remap_patch_tag (by_order b) s ∧
    m_data bm = riscv_amo (by_amo_op b) (popcount (by_mask b) * 8) (rd_data r) (by_data b).
Proof.
  intros Hl [Hr Ht] He Hba Hop (Hbm & Hbc & Hbs) Hra Hro Hsp (Hrm & Hrc & Hrs) Htag Hnone Hp1 Hp2.
  assert ((by_amo_op b =? AMOCAS) = false ∧ (by_amo_op b =? SC) = false ∧ (by_amo_op b =? LR) = false)
    as (N1 & N2 & N3) by (unfold amo_arith_ops in Hop; set_unfold in Hop; destruct_or! Hop; by rewrite Hop).
  set (s1 := s <| mi_amo_writes ::= <[remap_patch_tag (by_order b) s := bypass_one b s]> |>).
  assert (process (MsgBypass b) s = Some (s1, [])) as E1.
  { rewrite bypass_single_eq, Hba, N1, N2, He by done. cbn [andb negb]. subst s1. unfold modify at 1 2.
    by rewrite emplace_fresh. }
  destruct (amo_read_eq r s1 (bypass_one b s)
              (riscv_amo (by_amo_op b) (popcount (by_mask b) * 8) (rd_data r) (by_data b))) as [rm E2];
    [done|done|done|rewrite Hro; by apply Z.eqb_neq|rewrite Hro; by apply Z.eqb_neq|done|done|done| | | |].
  { change (remap_patch_tag (rd_order r) s1) with (remap_patch_tag (rd_order r) s). rewrite Htag.
    apply lookup_insert_eq. }
  { by apply Z.eqb_neq. }
  { by apply amo_modify_spec. }
  eexists rm, (bypass_one b s <| m_cycle := rd_cycle r |> <| m_data := _ |>).
  split; [|split_and!; reflexivity]. cbn [mcmi_run].
  rewrite E1. cbn [mbind option_bind]. rewrite E2. cbn [mbind option_bind app]. do 2 f_equal.
  change (remap_patch_tag (rd_order r) s1) with (remap_patch_tag (rd_order r) s). rewrite Htag.
  subst s1. clear -Hnone. revert Hnone. generalize (remap_patch_tag (by_order b) s) as t.
  generalize (bypass_one b s) as m. intros m t Hnone. destruct s. unfold modify. cbn in *.
  by rewrite delete_insert_id.
Qed.

(** ** Store-conditionals *)

(** A store-conditional whose outcome was reported first is forwarded to
    the bridge exactly if it succeeded (the outcome register is 0).  If its
    store is reported first it is never forwarded: neither the store nor the
    outcome that follows makes a call, and the store stays queued. *)
Theorem mcmi_sc_forwarding s b r :
  mission s → by_amo b = true → by_amo_op b = SC → mask_consecutive (by_mask b) = true →
  rd_amo r = true → rd_amo_op r = SC →
  remap_patch_tag (rd_order r) s = remap_patch_tag (by_order b) s →
  mi_sc_result s !! remap_patch_tag (by_order b) s = None →
  mi_sc_bypass s !! remap_patch_tag (by_order b) s = None →
  patch_access (by_addr b) s = false → patch_access (rd_addr r) s = false →
  (∃ s', mcmi_run [MsgRead r; MsgBypass b] s =
     Some (s', if rd_data r =? 0
               then [CBypass (by_hart b) (bypass_one b s) (bypass_pokes_cache (bypass_one b s))] else [])) ∧
  (∃ s', mcmi_run [MsgBypass b; MsgRead r] s = Some (s', []) ∧
     mi_sc_bypass s' !! remap_patch_tag (by_order b) s = Some (bypass_one b s)).
Proof.
  intros Hm Hba Hbo Hc Hra Hro Htag Hn1 Hn2 Hp1 Hp2. pose proof Hm as [Hr Ht].
  assert (∀ s', mission s' → patch_access (rd_addr r) s' = false →
    process (MsgRead r) s' = match mi_sc_bypass s' !! remap_patch_tag (rd_order r) s' with
      | None => Some (s' <| mi_sc_result ::= emplace (remap_patch_tag (rd_order r) s') (read_mem r s') |>, [])
      | Some b => if negb (sc_failed b s') then
          Some (s' <| mi_sc_bypass ::= delete (remap_patch_tag (rd_order r) s') |>,
                [CBypass (rd_hart r) b (bypass_pokes_cache b)]) else Some (s', []) end) as Eread.
  { intros s' [Hr' Ht'] Hp'. unfold process. rewrite Ht'. unfold process_read. rewrite Hr', Hp'. cbn [orb].
    change (m_amo (read_mem r s')) with (rd_amo r). change (m_amo_op (read_mem r s')) with (rd_amo_op r).
    rewrite Hra, Hro. reflexivity. }
  split.
  - cbn [mcmi_run]. rewrite Eread, Htag, Hn2 by done. cbn [mbind option_bind].
    set (s1 := s <| mi_sc_result ::= _ |>).
    rewrite (bypass_single_eq b s1), Hba, Hbo by done. cbn [andb negb Z.eqb Pos.eqb SC AMOCAS].
    assert (sc_failed (bypass_one b s1) s1 = negb (rd_data r =? 0)) as ->.
    { unfold sc_failed. change (m_tag (bypass_one b s1)) with (remap_patch_tag (by_order b) s).
      change (mi_sc_result s1) with (emplace (remap_patch_tag (by_order b) s) (read_mem r s) (mi_sc_result s)).
      by rewrite emplace_fresh, lookup_insert_eq. }
    destruct (rd_data r =? 0); eexists; reflexivity.
  - cbn [mcmi_run]. rewrite (bypass_single_eq b s), Hba, Hbo by done. cbn [andb negb Z.eqb Pos.eqb SC AMOCAS].
    assert (sc_failed (bypass_one b s) s = true) as ->.
    { unfold sc_failed. change (m_tag (bypass_one b s)) with (remap_patch_tag (by_order b) s). by rewrite Hn1. }
    cbn [mbind option_bind]. set (s1 := s <| mi_sc_bypass ::= _ |>).
    assert (mi_sc_bypass s1 !! remap_patch_tag (by_order b) s = Some (bypass_one b s)) as Hin.
    { change (mi_sc_bypass s1) with (emplace (remap_patch_tag (by_order b) s) (bypass_one b s) (mi_sc_bypass s)).
      by rewrite emplace_fresh, lookup_insert_eq. }
    rewrite Eread by done. change (remap_patch_tag (rd_order r) s1) with (remap_patch_tag (rd_order r) s).
    rewrite Htag, Hin.
    assert (sc_failed (bypass_one b s) s1 = true) as ->.
    { unfold sc_failed. change (m_tag (bypass_one b s)) with (remap_patch_tag (by_order b) s).
      change (mi_sc_result s1) with (mi_sc_result s). by rewrite Hn1. }
    exists s1. by split.
Qed.

(** ** Well-formed states *)

(** Patch sessions: at most 16 closed ones, each a non-empty tag range with a
    trigger; the bounds of the open one are both unset or form a range. *)
Record patch_wf (s : mcmi) : Prop := {
  pw_length : (length (mi_patch_tag_ranges s) ≤ PATCH_TAG_RANGES_KEPT)%nat;
  pw_ranges : Forall (λ r, 0 < pr_trigger_tag r ∧ 0 < pr_lo_tag r ≤ pr_hi_tag r) (mi_patch_tag_ranges s);
  pw_idle : mi_patch_mode s = false →
    mi_patch_mode_first_tag s = 0 ∧ mi_patch_lo_tag s = 0 ∧ mi_patch_hi_tag s = 0;
  pw_first : 0 ≤ mi_patch_mode_first_tag s;
  pw_open : (mi_patch_lo_tag s = 0 ∧ mi_patch_hi_tag s = 0) ∨
    (0 < mi_patch_lo_tag s ≤ mi_patch_hi_tag s ∧ 0 < mi_patch_mode_first_tag s)
}.

(** Code lines: one entry per line, and the lines of the current window are
    among them. *)
Record ncio_wf (s : mcmi) : Prop := {
  nw_nodup : NoDup (m_pa <$> mi_ncio_fetches s);
  nw_active : ∀ a, a ∈ mi_active_ncio_fetches s → m_pa a ∈ m_pa <$> mi_ncio_fetches s
}.

(** Tables: entries sit under their own tag and hold what the table is for. *)
Record tables_wf (s : mcmi) : Prop := {
  tw_ifetch : map_Forall (λ k m, m_tag m = k) (mi_ifetch_reqs s);
  tw_amo : map_Forall (λ k m, m_tag m = k ∧ m_amo m = true ∧ m_amo_op m ≠ SC) (mi_amo_writes s);
  tw_result : map_Forall (λ k m, m_tag m = k ∧ m_amo m = true ∧ m_amo_op m = SC) (mi_sc_result s);
  tw_bypass : map_Forall (λ k m, m_tag m = k ∧ m_amo m = true ∧ m_amo_op m = SC) (mi_sc_bypass s);
  tw_errors : mi_mem_error s = false ∧ mi_vec_cmode_mem_errors s = ∅
}.

Definition mcmi_wf (s : mcmi) : Prop := patch_wf s ∧ ncio_wf s ∧ tables_wf s.

(** Tags are unsigned; the code uses 0 for "no tag", so a retired instruction
    has a positive one. *)
Definition msg_ok (msg : mcmi_msg) : Prop :=
  match msg with
  | MsgTrap _ _ _ order _ => 0 ≤ order
  | MsgRvfi r => 0 < rv_order r
  | _ => True
  end.

Lemma emplace_Forall {A} (P : Z → A → Prop) k v m :
  map_Forall P m → P k v → map_Forall P (emplace k v m).
Proof. intros HP Hk. unfold emplace. destruct (decide _); [done|]. by apply map_Forall_insert_2. Qed.

Lemma push_range_length r rs :
  (length rs ≤ PATCH_TAG_RANGES_KEPT)%nat → (length (push_range r rs) ≤ PATCH_TAG_RANGES_KEPT)%nat.
Proof.
  intros Hl. unfold push_range. destruct (Nat.ltb_spec PATCH_TAG_RANGES_KEPT (length (rs ++ [r]))); [|done].
  destruct rs as [|x rs]; cbn in *; [lia|]. rewrite length_app. cbn. lia.
Qed.

Lemma push_range_Forall P r rs : Forall P rs → P r → Forall P (push_range r rs).
Proof.
  intros HF Hr. unfold push_range. assert (Forall P (rs ++ [r])) as HF' by (apply Forall_app; auto).
  destruct (Nat.ltb _ _); [|done]. destruct (rs ++ [r]); [done|by inversion HF'].
Qed.

Lemma close_patch_wf s : patch_wf s → patch_wf (close_patch_session s).
Proof.
  intros [P1 P2 P3 P4 P5]. split; try (cbn -[push_range]; auto; lia); cbn -[push_range];
    destruct (negb _ && negb _) eqn:E; try done.
  - by apply push_range_length.
  - apply push_range_Forall; [done|]. zbool. cbn. lia.
Qed.

Lemma patch_wf_ext s s' :
  mi_patch_tag_ranges s' = mi_patch_tag_ranges s → mi_patch_mode s' = mi_patch_mode s →
  mi_patch_mode_first_tag s' = mi_patch_mode_first_tag s → mi_patch_lo_tag s' = mi_patch_lo_tag s →
  mi_patch_hi_tag s' = mi_patch_hi_tag s → patch_wf s → patch_wf s'.
Proof. intros E1 E2 E3 E4 E5 [H1 H2 H3 H4 H5]. split; rewrite ?E1, ?E2, ?E3, ?E4, ?E5; done. Qed.

Lemma track_patch_wf r s : 0 < rv_order r → patch_wf s → patch_wf (track_patch r s).
Proof.
  intros Ho Hw. unfold track_patch.
  set (s1 := if rv_set_pmode r then _ else s).
  assert (patch_wf s1) as H1.
  { subst s1. destruct (rv_set_pmode r); [|done]. destruct Hw as [H1 H2 H3 H4 H5]. cbn.
    destruct (Z.eqb_spec (mi_patch_mode_first_tag s) 0); split; cbn; auto; try lia. }
  clearbody s1. clear Hw s.
  set (s2 := if mi_patch_mode s1 then _ else s1).
  assert (patch_wf s2) as H2; [|clearbody s2; destruct (rv_clr_pmode r || _); [by apply close_patch_wf|done]].
  subst s2. destruct (mi_patch_mode s1) eqn:Em; [|done].
  set (s3 := if mi_patch_mode_first_tag s1 =? 0 then _ else s1).
  assert (patch_wf s3 ∧ mi_patch_mode s3 = true ∧ (mi_patch_mode_first_tag s3 = 0 → rv_order r = 0)) as (H3 & Em3 & Hz).
  { subst s3. destruct H1 as [H1 H2 H3 H4 H5]. destruct (Z.eqb_spec (mi_patch_mode_first_tag s1) 0);
      (split_and!; [split|..]); cbn; auto; try lia; try congruence. }
  clearbody s3. destruct (rv_mode r =? RVFI_PATCH_MODE); [|done].
  destruct H3 as [P1 P2 P3 P4 P5]. destruct (Z.eqb_spec (mi_patch_lo_tag s3) 0) as [E|E];
    destruct (Z.ltb_spec (rv_order r) (mi_patch_lo_tag s3)); cbn;
    destruct (Z.ltb_spec (mi_patch_hi_tag s3) (rv_order r)); split; cbn; try done; try lia; try congruence.
Qed.

Lemma wf_fields s s' :
  mi_patch_tag_ranges s' = mi_patch_tag_ranges s → mi_patch_mode s' = mi_patch_mode s →
  mi_patch_mode_first_tag s' = mi_patch_mode_first_tag s → mi_patch_lo_tag s' = mi_patch_lo_tag s →
  mi_patch_hi_tag s' = mi_patch_hi_tag s → mi_ncio_fetches s' = mi_ncio_fetches s →
  mi_active_ncio_fetches s' = mi_active_ncio_fetches s →
  mcmi_wf s → tables_wf s' → mcmi_wf s'.
Proof.
  intros E1 E2 E3 E4 E5 E6 E7 (Hp & [N1 N2] & _) Ht. split_and!; [by eapply patch_wf_ext| |done].
  split; by rewrite ?E6, ?E7.
Qed.

(** The fields a handler leaves alone. *)
Definition same_tables (s s' : mcmi) : Prop :=
  mi_ifetch_reqs s' = mi_ifetch_reqs s ∧ mi_amo_writes s' = mi_amo_writes s ∧
  mi_sc_result s' = mi_sc_result s ∧ mi_sc_bypass s' = mi_sc_bypass s ∧ mi_mem_error s' = mi_mem_error s ∧
  (mi_vec_cmode_mem_errors s' = mi_vec_cmode_mem_errors s ∨ mi_vec_cmode_mem_errors s' = ∅).

Lemma tables_wf_ext s s' : same_tables s s' → tables_wf s → tables_wf s'.
Proof.
  intros (E1 & E2 & E3 & E4 & E5 & E6) [T1 T2 T3 T4 [T5 T6]].
  split; rewrite ?E1, ?E2, ?E3, ?E4, ?E5; try done. split; [done|]. destruct E6 as [->| ->]; done.
Qed.

Definition kept (s s' : mcmi) : Prop :=
  same_tables s s' ∧ mi_ncio_fetches s' = mi_ncio_fetches s ∧
  mi_active_ncio_fetches s' = mi_active_ncio_fetches s ∧
  mi_terminated s' = mi_terminated s ∧ mi_in_reset s' = mi_in_reset s ∧
  mi_prev_branch_tag s' = mi_prev_branch_tag s.

Lemma kept_trans s1 s2 s3 : kept s1 s2 → kept s2 s3 → kept s1 s3.
Proof.
  intros ((A1&A2&A3&A4&A5&A6)&B1&B2&B3&B4&B5) ((C1&C2&C3&C4&C5&C6)&D1&D2&D3&D4&D5).
  unfold kept, same_tables. split_and!; try congruence. destruct C6 as [C6|C6]; [rewrite C6; done|by right].
Qed.

Lemma track_patch_same r s : kept s (track_patch r s).
Proof.
  unfold track_patch. set (s1 := if rv_set_pmode r then _ else s).
  assert (kept s s1) as H1 by (subst s1; repeat case_match; unfold kept, same_tables; split_and!; auto). clearbody s1.
  set (s2 := if mi_patch_mode s1 then _ else s1).
  assert (kept s1 s2) as H2.
  { subst s2. destruct (mi_patch_mode s1); [|unfold kept, same_tables; split_and!; auto].
    set (s3 := if mi_patch_mode_first_tag s1 =? 0 then _ else s1).
    assert (kept s1 s3) as H3 by (subst s3; repeat case_match; unfold kept, same_tables; split_and!; auto).
    clearbody s3. eapply kept_trans; [done|]. repeat case_match; unfold kept, same_tables; split_and!; auto. }
  clearbody s2. eapply kept_trans; [done|]. eapply kept_trans; [done|].
  destruct (rv_clr_pmode r || _); unfold kept, same_tables; split_and!; auto.
Qed.

Lemma trap_wf loc id cause order pc s :
  0 ≤ order → mcmi_wf s → mcmi_wf (process_trap loc id cause order pc s).1.
Proof.
  intros Ho Hw. unfold process_trap. destruct (_ || _); [done|]. destruct (id =? EXCP); [|done].
  set (s1 := s <| mi_ecause := _ |>).
  assert (mcmi_wf s1) as H1 by (apply (wf_fields s); [done..|eapply tables_wf_ext; [|apply Hw]]; by split_and!; auto).
  clearbody s1. clear Hw s. destruct (fl_cosim fl && _).
  - set (s2 := if mi_patch_mode s1 && _ then _ else s1). cbn [fst].
    assert (mcmi_wf s2) as (P2 & N2 & T2).
    { subst s2. destruct (mi_patch_mode s1 && _); [|done]. destruct H1 as (P & [N1 N2] & T).
      split_and!; [by apply close_patch_wf|by split|]. eapply tables_wf_ext; [|done]. by split_and!; auto. }
    split_and!; [|by destruct N2; split|eapply tables_wf_ext; [|done]; by split_and!; auto].
    destruct P2 as [P1 P2 P3 P4 P5]. split; cbn; auto; lia.
  - destruct (_ || _).
    + set (s2 := if negb _ then _ else s1).
      assert (mcmi_wf s2) as H2.
      { subst s2. destruct (negb _); [|done].
        apply (wf_fields s1); [done..|eapply tables_wf_ext; [|apply H1]]. by split_and!; auto. }
      clearbody s2. cbn [fst]. destruct (mi_mem_error s2) eqn:E; [|done].
      destruct H2 as (_ & _ & [_ _ _ _ [? _]]). congruence.
    + destruct (mi_vec_cmode s1); [|done]. cbn [fst].
      apply (wf_fields s1); [done..|eapply tables_wf_ext; [|apply H1]]. by split_and!; auto.
Qed.

Lemma ncio_filter_wf r s s' cs :
  ncio_wf s → process_ncio_fetches r s = (s', cs) →
  mi_active_ncio_fetches s' = mi_active_ncio_fetches s ∧ NoDup (m_pa <$> mi_ncio_fetches s') ∧
  same_tables s s' ∧ (patch_wf s → patch_wf s').
Proof.
  intros [N1 N2] E. unfold process_ncio_fetches in E. destruct (_ || _); simplify_eq.
  { split_and!; auto. by split_and!; auto. }
  split_and!; [done| |by split_and!; auto|by apply patch_wf_ext].
  change (mi_ncio_fetches (s <| mi_ncio_fetches ::= filter (λ f, ncio_active s f = true) |>))
    with (filter (λ f, ncio_active s f = true) (mi_ncio_fetches s)).
  generalize (mi_ncio_fetches s) N1. intros l. clear. induction l as [|m l IH]; intros Hn; [constructor|].
  rewrite fmap_cons in Hn. apply NoDup_cons in Hn as [Hm Hn]. rewrite filter_cons.
  destruct (decide _); [|by apply IH]. rewrite fmap_cons. apply NoDup_cons. split; [|by apply IH].
  intros Hin. apply Hm. apply list_elem_of_fmap in Hin as (y & Hy & Hin). apply list_elem_of_filter in Hin as [_ Hin].
  rewrite Hy. by apply list_elem_of_fmap_2.
Qed.

Lemma rvfi_wf r s : 0 < rv_order r → mcmi_wf s → mcmi_wf (process_rvfi r s).1.
Proof.
  intros Ho (Hp & Hn & Ht). unfold process_rvfi. destruct (_ || _); [done|].
  destruct (track_patch_same r s) as (E1 & E2 & E3 & _). pose proof (track_patch_wf r s Ho Hp) as Hp1.
  set (s1 := track_patch r s) in *.
  assert (mcmi_wf s1) as H1.
  { split_and!; [done|destruct Hn; split; by rewrite ?E2, ?E3|by eapply tables_wf_ext]. }
  clearbody s1. clear dependent s. set (s2 := if mi_vec_cmode s1 then _ else s1).
  assert (mcmi_wf s2) as H2.
  { subst s2. destruct (mi_vec_cmode s1); [|done].
    apply (wf_fields s1); [done..|eapply tables_wf_ext; [|apply H1]]. by split_and!; auto. }
  clearbody s2. clear dependent s1. destruct (negb (rv_last_uop r)); [done|]. destruct H2 as (Hp & Hn & Ht).
  set (X := if negb _ || _ then _ else _).
  assert (mcmi_wf X.1) as H3.
  { subst X. destruct (negb _ || _); [|done].
    destruct (negb (rv_branch_tag r =? mi_prev_branch_tag s2)).
    - destruct (process_ncio_fetches r s2) as [s' cs] eqn:E. destruct (ncio_filter_wf r s2 s' cs Hn E) as (A1 & A2 & A3 & A4).
      cbn [fst]. split_and!; [by eapply patch_wf_ext, A4|split; [done|by intros ? ?%elem_of_nil]|].
      eapply tables_wf_ext; [|done]. destruct A3 as (?&?&?&?&?&?). by split_and!; auto.
    - cbn [fst]. split_and!; [by apply (patch_wf_ext s2)|destruct Hn; split; [done|by intros ? ?%elem_of_nil]|].
      eapply tables_wf_ext; [|done]. by split_and!; auto. }
  destruct X as [s3 cs]. cbn [fst] in *.
  apply (wf_fields s3); [done..|eapply tables_wf_ext; [|apply H3]]. by split_and!; auto.
Qed.

Lemma find_None_notin pa l :
  List.find (λ f, m_pa f =? pa) l = None → pa ∉ m_pa <$> l.
Proof.
  intros Hf Hin. apply list_elem_of_fmap in Hin as (f & -> & Hin).
  apply list_elem_of_In in Hin. by apply (find_none _ _ Hf f), Z.eqb_neq in Hin.
Qed.

Lemma ifetch_resp_wf c h o s s' cs :
  process_ifetch_resp c h o s = Some (s', cs) → mcmi_wf s → mcmi_wf s'.
Proof.
  unfold process_ifetch_resp. intros E (Hp & [N1 N2] & Ht). destruct (_ || _); [by simplify_eq|].
  destruct (mi_ifetch_reqs s !! o) as [m0|] eqn:Em; [|done]. cbn [mbind option_bind] in E.
  set (m := m0 <| m_cycle := c |>) in E.
  assert (∀ s1, mi_ifetch_reqs s1 = mi_ifetch_reqs s → mi_amo_writes s1 = mi_amo_writes s →
     mi_sc_result s1 = mi_sc_result s → mi_sc_bypass s1 = mi_sc_bypass s → mi_mem_error s1 = mi_mem_error s →
     mi_vec_cmode_mem_errors s1 = mi_vec_cmode_mem_errors s →
     tables_wf (s1 <| mi_ifetch_reqs ::= delete o |>)) as Hdel.
  { intros s1 E1 E2 E3 E4 E5 E6. destruct Ht as [T1 T2 T3 T4 T5].
    split; cbn; rewrite ?E1, ?E2, ?E3, ?E4, ?E5, ?E6; try done. by apply map_Forall_delete. }
  destruct (is_ncio (m_attr m)).
  - destruct (List.find _ _) as [f|] eqn:Ef; simplify_eq; (split_and!; [by apply (patch_wf_ext s)| |by apply Hdel]).
    + split; [done|]. intros a Ha. cbn in Ha |- *. apply elem_of_app in Ha as [Ha|Ha]; [by apply N2|].
      apply list_elem_of_singleton in Ha as ->. apply find_some in Ef as [Hin Heq%Z.eqb_eq].
      apply list_elem_of_In in Hin. rewrite <- Heq. by apply list_elem_of_fmap_2.
    + apply find_None_notin in Ef. split; cbn; rewrite fmap_app.
      * apply NoDup_app. split_and!; [done| |apply NoDup_singleton].
        intros x Hx Hx'. apply list_elem_of_singleton in Hx' as ->. done.
      * intros a Ha. apply elem_of_app. apply elem_of_app in Ha as [Ha|Ha]; [left; by apply N2|right].
        apply list_elem_of_singleton in Ha as ->. by apply list_elem_of_singleton.
  - simplify_eq. destruct (negb _); (split_and!; [by apply (patch_wf_ext s)|by split|by apply Hdel]).
Qed.

Lemma read_wf r s s' cs : process_read r s = Some (s', cs) → mcmi_wf s → mcmi_wf s'.
Proof.
  unfold process_read. intros E Hw. destruct (_ || _); [by simplify_eq|].
  change (m_amo (read_mem r s)) with (rd_amo r) in E. change (m_amo_op (read_mem r s)) with (rd_amo_op r) in E.
  pose proof Hw as (_ & _ & [T1 T2 T3 T4 T5]).
  destruct (rd_amo r) eqn:Ea; cbn [andb] in E.
  2: { destruct (match process_memory_access _ _ _ with inl _ => _ | inr _ => _ end); [|done].
       by simplify_eq/=. }
  destruct (rd_amo_op r =? SC) eqn:Eo.
  - destruct (mi_sc_bypass s !! m_tag (read_mem r s)) as [b|].
    + destruct (negb _); simplify_eq; [|done]. apply (wf_fields s); [done..|].
      split; cbn; auto. by apply map_Forall_delete.
    + simplify_eq. apply (wf_fields s); [done..|]. split; cbn; auto. apply emplace_Forall; [done|].
      split_and!; [done..|]. by apply Z.eqb_eq.
  - destruct (match process_memory_access _ _ _ with inl _ => _ | inr _ => _ end); [|done].
    cbn [mbind option_bind] in E. destruct (negb (rd_amo_op r =? LR) && _); [|by simplify_eq].
    unfold process_amo in E. destruct (mi_amo_writes s !! m_tag (read_mem r s)) as [m|].
    + destruct (if negb _ then _ else _) as [[data err]|]; [|done]. simplify_eq/=.
      apply (wf_fields s); [done..|]. split; cbn; auto. by apply map_Forall_delete.
    + destruct (_ =? AMOCAS); by simplify_eq/=.
Qed.

Lemma bypass_wf b s : mcmi_wf s → mcmi_wf (process_bypass b s).1.
Proof.
  intros Hw. pose proof Hw as (_ & _ & [T1 T2 T3 T4 T5]).
  unfold process_bypass. destruct (_ || _); [done|]. destruct (process_memory_access _ _ _); [|done].
  unfold process_bypass_single. cbv zeta. change (m_amo (bypass_one b s)) with (by_amo b).
  change (m_amo_op (bypass_one b s)) with (by_amo_op b).
  destruct (by_amo b) eqn:Ea; cbn [andb]; [|done]. destruct (_ && by_amo_cas_fail b); [done|].
  destruct (Z.eqb_spec (by_amo_op b) SC); cbn [negb andb].
  - destruct (sc_failed _ _); [|done]. apply (wf_fields s); [done..|]. split; cbn -[emplace]; auto.
    apply emplace_Forall; [done|]. by split_and!.
  - destruct (fl_emulate_amo_arithmetic fl); [|done]. apply (wf_fields s); [done..|]. split; cbn -[emplace]; auto.
    apply emplace_Forall; [done|]. by split_and!.
Qed.

Lemma process_wf msg s s' cs :
  msg_ok msg → process msg s = Some (s', cs) → mcmi_wf s → mcmi_wf s'.
Proof.
  unfold process. intros Hm E Hw. destruct (mi_terminated s) eqn:Et; [by simplify_eq|].
  destruct msg; cbn [msg_ok] in Hm; try (by simplify_eq).
  - simplify_eq. unfold process_reset. destruct (negb _); [done|]. apply (wf_fields s); [done..|].
    eapply tables_wf_ext; [|apply Hw]. by split_and!; auto.
  - injection E as E. rewrite (surjective_pairing (process_trap _ _ _ _ _ _)) in E. simplify_eq. by apply trap_wf.
  - injection E as E. rewrite (surjective_pairing (process_rvfi _ _)) in E. simplify_eq. by apply rvfi_wf.
  - by eapply read_wf.
  - injection E as E. rewrite (surjective_pairing (process_bypass _ _)) in E. simplify_eq. by apply bypass_wf.
  - simplify_eq. unfold process_ifetch_req. destruct (_ || _); [done|]. pose proof Hw as (_ & _ & [T1 T2 T3 T4 T5]).
    apply (wf_fields s); [done..|]. split; cbn -[emplace]; auto. by apply emplace_Forall.
  - by eapply ifetch_resp_wf.
  - simplify_eq. apply (wf_fields s); [done..|]. eapply tables_wf_ext; [|apply Hw]. by split_and!; auto.
Qed.

(** In every state the interface can reach, at most 16 closed patch
    sessions are kept, each a non-empty tag range with a trigger tag, and the
    bounds of the open session are consistent; the non-cacheable lines are
    distinct and contain those of the current fetch window; every pending
    fetch, atomic store and store-conditional is filed under its own tag in
    the table of its kind; and no conservative-mode memory error is ever
    recorded. *)
Theorem mcmi_run_wf msgs s cs :
  Forall msg_ok msgs → mcmi_run msgs mcmi_new = Some (s, cs) → mcmi_wf s.
Proof.
  intros HF. assert (mcmi_wf mcmi_new) as H0.
  { split_and!; split; cbn; auto; try lia; try apply map_Forall_empty; [constructor|].
    by intros ? ?%elem_of_nil. }
  revert H0 cs. generalize mcmi_new as s0. induction HF as [|msg msgs Hm _ IH]; intros s0 H0 cs E;
    cbn [mcmi_run] in E; [by simplify_eq|]. destruct (process msg s0) as [[s1 cs1]|] eqn:E1; [|done]. cbn [mbind option_bind] in E.
  destruct (mcmi_run msgs s1) as [[s2 cs2]|] eqn:E2; [|done]. simplify_eq/=.
  eapply IH; [|done]. by eapply process_wf.
Qed.
End mcmi.

(** ** Examples *)

Definition sample_flags : mcmi_flags := Mcmi_flags true true true true.
Definition sample_overrides : overrides := Overrides 61 62 0 0x1000.
Definition sample_raw : mem_t :=
  Mem_t false 0 0 0 0 0 0 0 0 0 false 0 false 0 false 0 false 0 0 false 0 false 0 false.
Definition sample_raw_cl : mem_cl_t := Mem_cl_t false 0 0 0 0 0 0 false.
Definition sample_mask (sg : bool) (w n : Z) : Z := to_T sg w (2 ^ n - 1).
Definition sample_reply (c : whisper_call) : option bool := Some true.
Definition no_errors (addr : Z) : list (option Z) := [].

#[local] Notation run := (mcmi_run sample_flags sample_overrides 0 sample_raw sample_raw_cl sample_mask
                            sample_reply no_errors no_errors).
#[local] Notation proc := (process sample_flags sample_overrides 0 sample_raw sample_raw_cl sample_mask
                             sample_reply no_errors no_errors).

Definition running : mcmi := mcmi_new <| mi_in_reset := false |>.

Lemma sample_mask_law : mask_law sample_mask.
Proof. split; [done|]. intros n Hn. set_unfold in Hn. destruct_or! Hn; by subst n. Qed.

(** A vector load of bytes 0, 1 and 4. *)
Definition sample_read : mcmi_read_t :=
  Mcmi_read 10 0 0 7 0x8000 0x13 false 0 0x1000 0 true 0xaabbccddeeff 0 0 false 4.
Definition sample_insert : mcmi_insert_t := Mcmi_insert 10 0 7 0x8000 0x13 0 true 0xaabbccddeeff 0.
Definition sample_bypass : mcmi_bypass_t :=
  Mcmi_bypass 10 0 7 0x8000 0xf 0 false 0 false 0x1000 true 0xaabbccdd 0.

(** [amomin.w] of -1 with 5 in memory. *)
Definition sample_amo_write : mcmi_bypass_t :=
  Mcmi_bypass 10 0 7 0x8000 0xf 0xffffffff true AMOMIN false 0x1000 false 0 0.
Definition sample_amo_read : mcmi_read_t :=
  Mcmi_read 12 0 0 7 0x8000 0xf true AMOMIN 0x1000 5 false 5 0 0 false 0.

Lemma mcmi_amo_emulated_witness :
  ∃ rm bm, run [MsgBypass sample_amo_write; MsgRead sample_amo_read] running =
      Some (running, [CRead 0 rm true; CBypass 0 bm (bypass_pokes_cache bm)]) ∧ m_pa bm = 0x8000 ∧ m_data bm = 0xffffffff.
Proof.
  destruct (mcmi_amo_emulated sample_flags sample_overrides 0 sample_raw sample_raw_cl sample_mask
    sample_reply no_errors no_errors running sample_amo_write sample_amo_read) as (rm & bm & E & Hp & _ & _ & Hd);
    try done; [apply sample_mask_law|unfold amo_arith_ops; set_solver| | |].
  { split_and!; [done|done|]. vm_compute. set_solver. }
  { split_and!; [done|done|]. vm_compute. set_solver. }
  exists rm, bm. split_and!; [exact E|done|by rewrite Hd].
Defined.

(** A store-conditional that succeeds. *)
Definition sample_sc_write : mcmi_bypass_t :=
  Mcmi_bypass 10 0 7 0x8000 0xf 0x1234 true SC false 0x1000 false 0 0.
Definition sample_sc_read : mcmi_read_t :=
  Mcmi_read 12 0 0 7 0x8000 0xf true SC 0x1000 0 false 0 0 0 false 0.

Lemma mcmi_sc_forwarding_witness :
  (∃ s', run [MsgRead sample_sc_read; MsgBypass sample_sc_write] running =
     Some (s', [CBypass 0 (bypass_one sample_flags sample_raw sample_sc_write running) true])) ∧
  (∃ s', run [MsgBypass sample_sc_write; MsgRead sample_sc_read] running = Some (s', []) ∧
     mi_sc_bypass s' !! 7 = Some (bypass_one sample_flags sample_raw sample_sc_write running)).
Proof.
  destruct (mcmi_sc_forwarding sample_flags sample_overrides 0 sample_raw sample_raw_cl sample_mask
    sample_reply no_errors no_errors running sample_sc_write sample_sc_read) as [W1 W2]; try done.
Defined.

(** 0x8000: a non-cacheable line; a patch session triggered by tag 3. *)
Definition sample_run : list mcmi_msg :=
  [MsgReset 0; MsgTrap 0 EXCP 60 3 0x100;
   MsgRvfi (Mcmi_rvfi 0 5 0 4 1 RVFI_PATCH_MODE false false true);
   MsgRvfi (Mcmi_rvfi 0 6 0 5 1 RVFI_PATCH_MODE false false true);
   MsgRvfi (Mcmi_rvfi 0 7 0 6 1 3 false false true);
   MsgIfetchReq 1 0x8000 0; MsgIfetchResp 8 0 1; MsgIfetchReq 2 0x8000 0].

Definition sample_state : mcmi := default mcmi_new (fst <$> run sample_run mcmi_new).
Definition sample_calls : list mcm_call := default [] (snd <$> run sample_run mcmi_new).

Lemma sample_run_eq : run sample_run mcmi_new = Some (sample_state, sample_calls).
Proof. vm_compute. reflexivity. Qed.

Lemma sample_run_ok : Forall msg_ok sample_run.
Proof. unfold sample_run. repeat (constructor; [cbn; done || lia|]). constructor. Qed.

Lemma mcmi_run_wf_witness :
  mcmi_wf sample_state ∧ length (mi_patch_tag_ranges sample_state) = 1%nat ∧
  length (mi_ncio_fetches sample_state) = 1%nat.
Proof.
  split; [|by vm_compute].
  apply (mcmi_run_wf sample_flags sample_overrides 0 sample_raw sample_raw_cl sample_mask
    sample_reply no_errors no_errors sample_run sample_state sample_calls);
    [apply sample_run_ok|apply sample_run_eq].
Defined.
