(* ===== verification/McmiTrace.v ===== *)
(** * McmiTrace: what [mcmi] guarantees over whole runs

    Two contracts of the memory-consistency interface that span many messages:
    tags of the patch routine are renamed to the tag of the instruction that
    triggered it, against an unbounded record of patch sessions; and the
    reference simulator's snapshot of code lines stays fresh. *)

From S2P Require Import Prelude Bytes McmiSplit Mcmi.

(** ** Patch sessions *)

Record session := Session {
  ss_trigger : Z;
  ss_tags : list Z                       (* newest first *)
}.

(** The sessions of a run, without the bounds and the limit of the code. *)
Record sessions := Sessions {
  sn_reset : bool;
  sn_terminated : bool;
  sn_mode : bool;
  sn_open : session;
  sn_closed : list session               (* newest first *)
}.

Definition no_session : session := Session 0 [].
Definition sessions_new : sessions := Sessions true false false no_session [].

Definition close_session (a : sessions) : sessions :=
  Sessions (sn_reset a) (sn_terminated a) false no_session
    (if negb (ss_trigger (sn_open a) =? 0) && negb (bool_decide (ss_tags (sn_open a) = []))
     then sn_open a :: sn_closed a else sn_closed a).

Definition with_open (f : session → session) (a : sessions) : sessions :=
  Sessions (sn_reset a) (sn_terminated a) true (f (sn_open a)) (sn_closed a).

Definition set_trigger (t : Z) (ss : session) : session :=
  if ss_trigger ss =? 0 then Session t (ss_tags ss) else ss.

Section trace.
Variable fl : mcmi_flags.
Variable ov : overrides.
Variable loc_ : Z.
Variable raw : mem_t.
Variable raw_cl : mem_cl_t.
Variable bm_mask : bool → Z → Z → Z.
Variable reply : whisper_call → option bool.
Variable axi_errors ncio_errors : Z → list (option Z).

#[local] Notation process := (process fl ov loc_ raw raw_cl bm_mask reply axi_errors ncio_errors).
#[local] Notation mcmi_run := (mcmi_run fl ov loc_ raw raw_cl bm_mask reply axi_errors ncio_errors).

(** A retirement: the patch routine is entered by [set_pmode]; its
    instructions add their tags; it ends with [clr_pmode] or with the first
    instruction in another mode. *)
Definition session_retire (r : mcmi_rvfi_t) (a : sessions) : sessions :=
  let a := if rv_set_pmode r then with_open (set_trigger (rv_order r)) a else a in
  let a := if sn_mode a then
             let a := with_open (set_trigger (rv_order r)) a in
             if rv_mode r =? RVFI_PATCH_MODE
             then with_open (λ ss, Session (ss_trigger ss) (rv_order r :: ss_tags ss)) a else a
           else a in
  if rv_clr_pmode r || (sn_mode a && negb (bool_decide (ss_tags (sn_open a) = [])) &&
                        negb (rv_mode r =? RVFI_PATCH_MODE))
  then close_session a else a.

Definition session_step (a : sessions) (msg : mcmi_msg) : sessions :=
  if sn_terminated a then a
  else
    match msg with
    | MsgReset loc =>
        if loc_ =? loc
        then Sessions false false (sn_mode a) (sn_open a) (sn_closed a) else a
    | MsgTrap loc id cause order _ =>
        if negb (sn_reset a) && (loc_ =? loc) && (id =? EXCP) && fl_cosim fl && (cause &&& 0xff =? 60) then
          with_open (λ _, Session order [])
            (if sn_mode a && negb (bool_decide (ss_tags (sn_open a) = [])) then close_session a else a)
        else a
    | MsgRvfi r => if negb (sn_reset a) && (loc_ =? rv_loc r) then session_retire r a else a
    | MsgDrain => Sessions (sn_reset a) true (sn_mode a) (sn_open a) (sn_closed a)
    | _ => a
    end.

Definition session_run (msgs : list mcmi_msg) : sessions := foldl session_step sessions_new msgs.

(** *** The code's representation *)

Fixpoint lo_of (ts : list Z) : Z :=
  match ts with
  | [] => 0
  | t :: ts => if (lo_of ts =? 0) || (t <? lo_of ts) then t else lo_of ts
  end.

Fixpoint hi_of (ts : list Z) : Z :=
  match ts with
  | [] => 0
  | t :: ts => if hi_of ts <? t then t else hi_of ts
  end.

Definition range_of (ss : session) : patch_tag_range_t :=
  Patch_tag_range (ss_trigger ss) (lo_of (ss_tags ss)) (hi_of (ss_tags ss)).

Record sessions_rel (s : mcmi) (a : sessions) : Prop := {
  sr_reset : mi_in_reset s = sn_reset a;
  sr_terminated : mi_terminated s = sn_terminated a;
  sr_mode : mi_patch_mode s = sn_mode a;
  sr_first : mi_patch_mode_first_tag s = ss_trigger (sn_open a);
  sr_lo : mi_patch_lo_tag s = lo_of (ss_tags (sn_open a));
  sr_hi : mi_patch_hi_tag s = hi_of (ss_tags (sn_open a));
  sr_tags : Forall (λ t, 0 < t) (ss_tags (sn_open a));
  sr_trigger : 0 ≤ ss_trigger (sn_open a) ∧ (ss_tags (sn_open a) ≠ [] → 0 < ss_trigger (sn_open a));
  sr_closed : reverse (mi_patch_tag_ranges s) = take PATCH_TAG_RANGES_KEPT (range_of <$> sn_closed a);
  sr_sessions : Forall (λ ss, 0 < ss_trigger ss ∧ ss_tags ss ≠ [] ∧ Forall (λ t, 0 < t) (ss_tags ss)) (sn_closed a)
}.

Lemma lo_of_pos ts : Forall (λ t, 0 < t) ts → ts ≠ [] → 0 < lo_of ts.
Proof.
  induction 1 as [|t ts Ht HF IH]; [done|]. intros _. cbn [lo_of].
  destruct (Z.eqb_spec (lo_of ts) 0); cbn [orb]; [done|]. destruct (t <? lo_of ts); [done|].
  destruct ts; [done|]. by apply IH.
Qed.

Lemma lo_of_zero ts : Forall (λ t, 0 < t) ts → (lo_of ts =? 0) = bool_decide (ts = []).
Proof.
  intros HF. destruct ts as [|t ts]; [done|]. rewrite bool_decide_eq_false_2 by done. apply Z.eqb_neq.
  pose proof (lo_of_pos (t :: ts) HF ltac:(done)). lia.
Qed.

Lemma lo_of_le ts t : Forall (λ t, 0 < t) ts → t ∈ ts → lo_of ts ≤ t.
Proof.
  induction 1 as [|u ts Hu HF IH]; [by intros ?%elem_of_nil|]. cbn [lo_of].
  rewrite lo_of_zero by done. intros [->|Hin]%elem_of_cons.
  - destruct (bool_decide (ts = [])); cbn [orb]; [lia|]. destruct (Z.ltb_spec u (lo_of ts)); lia.
  - destruct ts; [by apply elem_of_nil in Hin|]. rewrite bool_decide_eq_false_2 by done. cbn [orb].
    specialize (IH Hin). destruct (Z.ltb_spec u (lo_of (z :: ts))); lia.
Qed.

Lemma hi_of_ge ts t : t ∈ ts → t ≤ hi_of ts.
Proof.
  induction ts as [|u ts IH]; [by intros ?%elem_of_nil|]. cbn [hi_of].
  intros [->|Hin]%elem_of_cons; destruct (Z.ltb_spec (hi_of ts) u); try lia;
    specialize (IH Hin); lia.
Qed.

Lemma lo_of_above ts n : ts ≠ [] → Forall (λ t, 0 < t) ts → (∀ t, t ∈ ts → n < t) → n < lo_of ts.
Proof.
  intros Hne HF. revert Hne. induction HF as [|u ts Hu HF IH]; [done|]. intros _ Hn. cbn [lo_of].
  destruct (_ || _) eqn:E; [apply Hn; left|]. destruct ts as [|v ts]; [done|].
  apply IH; [done|]. intros t Ht. apply Hn. by right.
Qed.

(** *** Simulation *)

Lemma reverse_tail {A} (l : list A) : reverse (tail l) = take (length l - 1) (reverse l).
Proof.
  destruct l as [|x l]; [done|]. rewrite reverse_cons. cbn [tail length].
  rewrite Nat.sub_succ, Nat.sub_0_r, take_app_le by (by rewrite length_reverse).
  symmetry. apply take_ge. by rewrite length_reverse.
Qed.

Lemma push_range_closed r rs (l : list patch_tag_range_t) :
  reverse rs = take PATCH_TAG_RANGES_KEPT l →
  reverse (push_range r rs) = take PATCH_TAG_RANGES_KEPT (r :: l).
Proof.
  intros E. assert (length rs ≤ PATCH_TAG_RANGES_KEPT)%nat as Hl
    by (rewrite <- length_reverse, E, length_take; lia).
  assert (reverse (rs ++ [r]) = r :: take PATCH_TAG_RANGES_KEPT l) as Er by (by rewrite reverse_app, E).
  unfold push_range. destruct (Nat.ltb_spec PATCH_TAG_RANGES_KEPT (length (rs ++ [r]))) as [Hlt|Hge].
  - rewrite reverse_tail, Er. rewrite length_app in *. cbn [length] in *.
    replace (length rs + 1 - 1)%nat with PATCH_TAG_RANGES_KEPT by lia. cbn [take PATCH_TAG_RANGES_KEPT].
    by rewrite take_take.
  - rewrite Er. rewrite length_app in Hge. cbn [length] in Hge.
    assert (length l < PATCH_TAG_RANGES_KEPT)%nat as Hs.
    { rewrite <- length_reverse, E, length_take in Hge. lia. }
    rewrite !take_ge by (cbn [length]; lia). done.
Qed.

Lemma close_rel s a : sessions_rel s a → sessions_rel (close_patch_session s) (close_session a).
Proof.
  intros [R1 R2 R3 R4 R5 R6 R7 R8 R9 R10]. unfold close_patch_session, close_session.
  rewrite R4, R5, lo_of_zero by done.
  split; try (cbn -[push_range]; done || (split; [lia|done])).
  - cbn -[push_range]. rewrite R6. destruct (negb _ && negb _); [|done].
    rewrite fmap_cons. by apply push_range_closed.
  - cbn -[push_range]. destruct (negb _ && negb _) eqn:E; [|done]. zbool.
    apply bool_decide_eq_false in H0. constructor; [|done]. split_and!; [lia|done|done].
Qed.

Lemma trigger_rel t s a :
  0 < t → sessions_rel s a →
  sessions_rel (if mi_patch_mode_first_tag s =? 0
                then s <| mi_patch_mode := true |> <| mi_patch_mode_first_tag := t |>
                else s <| mi_patch_mode := true |>)
    (with_open (set_trigger t) a).
Proof.
  intros Ht [R1 R2 R3 R4 R5 R6 R7 R8 R9 R10]. rewrite R4. unfold with_open, set_trigger.
  destruct (Z.eqb_spec (ss_trigger (sn_open a)) 0); split; cbn; auto; try done.
  split; [lia|intros; lia].
Qed.

Lemma tag_rel t s a :
  0 < t → sn_mode a = true → 0 < ss_trigger (sn_open a) → sessions_rel s a →
  sessions_rel
    (let s := if (mi_patch_lo_tag s =? 0) || (t <? mi_patch_lo_tag s) then s <| mi_patch_lo_tag := t |> else s in
     if mi_patch_hi_tag s <? t then s <| mi_patch_hi_tag := t |> else s)
    (with_open (λ ss, Session (ss_trigger ss) (t :: ss_tags ss)) a).
Proof.
  intros Ht Hm Htr [R1 R2 R3 R4 R5 R6 R7 R8 R9 R10]. unfold with_open. cbv zeta.
  set (s1 := if _ || _ then s <| mi_patch_lo_tag := t |> else s).
  assert (mi_patch_hi_tag s1 = mi_patch_hi_tag s) as -> by (subst s1; by destruct (_ || _)).
  split; cbn [sn_open sn_mode sn_closed sn_reset sn_terminated ss_trigger ss_tags lo_of hi_of];
    rewrite <- ?R5, <- ?R6; try (by constructor); try (by split; [lia|]); try done;
    subst s1; destruct (_ || _); destruct (mi_patch_hi_tag s <? t); try exact R9; cbn; congruence.
Qed.

Lemma rel_ext s s' a :
  mi_in_reset s' = mi_in_reset s → mi_terminated s' = mi_terminated s →
  mi_patch_mode s' = mi_patch_mode s → mi_patch_mode_first_tag s' = mi_patch_mode_first_tag s →
  mi_patch_lo_tag s' = mi_patch_lo_tag s → mi_patch_hi_tag s' = mi_patch_hi_tag s →
  mi_patch_tag_ranges s' = mi_patch_tag_ranges s → sessions_rel s a → sessions_rel s' a.
Proof.
  intros E1 E2 E3 E4 E5 E6 E7 [R1 R2 R3 R4 R5 R6 R7 R8 R9 R10].
  split; rewrite ?E1, ?E2, ?E3, ?E4, ?E5, ?E6, ?E7; done.
Qed.

Lemma retire_rel r s a :
  0 < rv_order r → sessions_rel s a → sessions_rel (track_patch r s) (session_retire r a).
Proof.
  intros Ho HR. unfold track_patch, session_retire.
  set (s1 := if rv_set_pmode r then _ else s). set (a1 := if rv_set_pmode r then _ else a).
  assert (sessions_rel s1 a1) as R1.
  { subst s1 a1. destruct (rv_set_pmode r); [|done]. pose proof (trigger_rel (rv_order r) s a Ho HR) as Ht.
    by change (mi_patch_mode_first_tag (s <| mi_patch_mode := true |>)) with (mi_patch_mode_first_tag s). }
  clearbody s1 a1. clear HR s a. rewrite (sr_mode _ _ R1).
  set (s2 := if sn_mode a1 then _ else s1). set (a2 := if sn_mode a1 then _ else a1).
  assert (sessions_rel s2 a2) as R2.
  { subst s2 a2. destruct (sn_mode a1) eqn:Em; [|done].
    set (s3 := if mi_patch_mode_first_tag s1 =? 0 then _ else s1).
    assert (sessions_rel s3 (with_open (set_trigger (rv_order r)) a1)) as R3.
    { eapply rel_ext; [..|by apply (trigger_rel (rv_order r) s1 a1)]; subst s3;
        destruct (mi_patch_mode_first_tag s1 =? 0); try done; cbn; by rewrite (sr_mode _ _ R1). }
    clearbody s3. destruct (rv_mode r =? RVFI_PATCH_MODE); [|done].
    apply tag_rel; [done|done| |done]. cbn. unfold set_trigger.
    destruct (Z.eqb_spec (ss_trigger (sn_open a1)) 0); cbn; [done|].
    pose proof (sr_trigger _ _ R1). lia. }
  clearbody s2 a2. rewrite (sr_mode _ _ R2), (sr_lo _ _ R2), lo_of_zero by apply (sr_tags _ _ R2).
  destruct (rv_clr_pmode r || _); [by apply close_rel|done].
Qed.

Lemma trap_rel loc id cause order pc s a :
  0 ≤ order → mi_terminated s = false → sessions_rel s a →
  sessions_rel (process_trap fl ov loc_ loc id cause order pc s).1 (session_step a (MsgTrap loc id cause order pc)).
Proof.
  intros Ho Ht HR. unfold process_trap, session_step. rewrite <- (sr_terminated _ _ HR), Ht, <- (sr_reset _ _ HR).
  destruct (mi_in_reset s); cbn [negb andb orb]; [done|].
  destruct (loc_ =? loc); cbn [negb andb]; [|done]. destruct (id =? EXCP); cbn [andb]; [|done].
  set (s1 := s <| mi_ecause := _ |>). change (mi_ecause s1) with (cause &&& 0xff).
  assert (sessions_rel s1 a) as R1 by (by apply (rel_ext s)).
  clearbody s1. destruct (fl_cosim fl && (cause &&& 0xff =? 60)) eqn:E.
  - rewrite (sr_mode _ _ R1), (sr_lo _ _ R1), lo_of_zero by apply (sr_tags _ _ R1).
    set (s2 := if _ && _ then _ else s1). set (a2 := if _ && _ then _ else a).
    assert (sessions_rel s2 a2) as [Q1 Q2 Q3 Q4 Q5 Q6 Q7 Q8 Q9 Q10].
    { subst s2 a2. destruct (sn_mode a && _); [by apply close_rel|done]. }
    clearbody s2 a2. split; cbn; auto; try done.
  - repeat case_match; cbn [fst]; by apply (rel_ext s1).
Qed.

(** Calls that change the simulator's code snapshot. *)
Definition fetch_call (c : mcm_call) : bool :=
  match c with CIfetch _ _ | CIevict _ _ => true | _ => false end.

Lemma read_effect r s s' cs :
  process_read fl raw bm_mask r s = Some (s', cs) →
  (∃ f g h, s' = s <| mi_amo_writes ::= f |> <| mi_sc_result ::= g |> <| mi_sc_bypass ::= h |>) ∧
  Forall (λ c, fetch_call c = false) cs.
Proof.
  assert (∃ f g h, s = s <| mi_amo_writes ::= f |> <| mi_sc_result ::= g |> <| mi_sc_bypass ::= h |>) as Hid
    by (exists id, id, id; by destruct s).
  unfold process_read. intros E. destruct (_ || _); [by simplify_eq|].
  set (m := read_mem fl raw r s) in *. destruct (m_amo m && (m_amo_op m =? SC)).
  { destruct (mi_sc_bypass s !! m_tag m) as [b|].
    - destruct (negb _); simplify_eq; [|done]. split; [|by repeat constructor].
      exists id, id, (delete (m_tag m)). by destruct s.
    - simplify_eq. split; [|done]. exists id, (emplace (m_tag m) m), id. by destruct s. }
  set (X := match process_memory_access _ _ _ with inl _ => _ | inr _ => _ end) in E.
  assert (∀ cs, X = Some cs → Forall (λ c, fetch_call c = false) cs) as HX.
  { clear E. intros cs0. subst X. destruct (process_memory_access _ _ _) as [u|gs].
    - unfold process_read_single_consecutive. repeat case_match; intros; simplify_eq; [|by repeat constructor].
      apply Forall_fmap, Forall_true. done.
    - destruct (mapM _ gs) as [ls|] eqn:El; [|done]. intros Eq. injection Eq as <-.
      apply mapM_Some_1 in El. apply Forall_join. apply Forall_forall. intros l Hl.
      apply list_elem_of_lookup in Hl as [k Hk]. destruct (Forall2_lookup_r _ _ _ _ _ El Hk) as (g & _ & Hg).
      unfold process_read_split_range in Hg. revert Hg. repeat case_match; intros; simplify_eq; [|by repeat constructor].
      apply Forall_fmap, Forall_true. done. }
  destruct X as [cs0|]; [|done]. specialize (HX cs0 eq_refl). cbn [mbind option_bind] in E.
  destruct (m_amo m && negb (m_amo_op m =? LR) && fl_emulate_amo_arithmetic fl); [|by simplify_eq].
  unfold process_amo in E. destruct (mi_amo_writes s !! m_tag m) as [w|].
  - destruct (if negb _ then _ else _) as [[data err]|]; [|done]. simplify_eq/=. split.
    + exists (delete (m_tag m)), id, id. by destruct s.
    + apply Forall_app. split; [done|]. apply Forall_app. split; [by destruct err; repeat constructor|by repeat constructor].
  - destruct (_ =? AMOCAS); simplify_eq/=; (split; [done|]); apply Forall_app; split; try done; by repeat constructor.
Qed.

Lemma ncio_rel r s a s' cs :
  process_ncio_fetches raw r s = (s', cs) → sessions_rel s a → sessions_rel s' a.
Proof.
  unfold process_ncio_fetches. destruct (_ || _); intros E HR; simplify_eq; [done|]. by apply (rel_ext s).
Qed.

Lemma rvfi_rel r s a :
  0 < rv_order r → mi_terminated s = false → sessions_rel s a →
  sessions_rel (process_rvfi loc_ raw r s).1 (session_step a (MsgRvfi r)).
Proof.
  intros Ho Et HR. unfold process_rvfi, session_step. rewrite <- (sr_terminated _ _ HR), Et, <- (sr_reset _ _ HR).
  destruct (mi_in_reset s); cbn [negb andb orb]; [done|]. destruct (loc_ =? rv_loc r); cbn [negb]; [|done].
  pose proof (retire_rel r s a Ho HR) as R1. set (s1 := track_patch r s) in *. clearbody s1. clear HR Et s.
  set (s2 := if mi_vec_cmode s1 then _ else s1).
  assert (sessions_rel s2 (session_retire r a)) as R2.
  { subst s2. destruct (mi_vec_cmode s1); [|done]. by apply (rel_ext s1). }
  clearbody s2. clear R1 s1. destruct (negb (rv_last_uop r)); [done|].
  set (X := if negb _ || _ then _ else _).
  assert (sessions_rel X.1 (session_retire r a)) as R3.
  { subst X. destruct (negb _ || _); [|done]. destruct (negb (rv_branch_tag r =? _)).
    - destruct (process_ncio_fetches raw r s2) as [s3 cs] eqn:E. apply (ncio_rel r s2 _ s3 cs E) in R2.
      by apply (rel_ext s3).
    - by apply (rel_ext s2). }
  clearbody X. destruct X as [s3 cs]. by apply (rel_ext s3).
Qed.

Lemma bypass_rel b s a : sessions_rel s a → sessions_rel (process_bypass fl raw b s).1 a.
Proof.
  intros HR. unfold process_bypass. destruct (_ || _); [done|]. destruct (process_memory_access _ _ _); [|done].
  unfold process_bypass_single. cbv zeta. generalize (bypass_one fl raw b s) as m. intros m.
  destruct (_ && by_amo_cas_fail b); [done|].
  destruct (m_amo m && negb _ && _); [by apply (rel_ext s)|].
  destruct (m_amo m && _ && _); [by apply (rel_ext s)|done].
Qed.

Lemma ifetch_resp_rel c h o s s' cs a :
  process_ifetch_resp raw c h o s = Some (s', cs) → sessions_rel s a → sessions_rel s' a.
Proof.
  unfold process_ifetch_resp. intros E HR. destruct (_ || _); [by simplify_eq|].
  destruct (mi_ifetch_reqs s !! o) as [m|]; [|done]. cbn [mbind option_bind] in E.
  destruct (is_ncio _).
  - destruct (List.find _ _); simplify_eq; by apply (rel_ext s).
  - destruct (negb _); simplify_eq; by apply (rel_ext s).
Qed.

(** Messages other than traps and retirements leave the sessions alone. *)
Lemma process_rel msg s s' cs a :
  msg_ok msg → process msg s = Some (s', cs) → sessions_rel s a → sessions_rel s' (session_step a msg).
Proof.
  unfold Mcmi.process. intros Hm E HR. destruct (mi_terminated s) eqn:Et.
  { simplify_eq. unfold session_step. by rewrite <- (sr_terminated _ _ HR), Et. }
  assert (sn_terminated a = false) as Ea by (by rewrite <- (sr_terminated _ _ HR)).
  destruct msg as [loc|loc id cause order pc|r|r|i|b|c h ad m d e|o ad t|c h o|c h ad|c h o ad m|c h ad|c h ad|c ad|c ad| | |];
    cbn [msg_ok] in Hm;
    try (injection E as <- _; unfold session_step; rewrite Ea; exact HR).
  - injection E as <- _. unfold process_reset, session_step. rewrite Ea.
    destruct (loc_ =? loc); cbn [negb]; [|done]. destruct HR as [R1 R2 R3 R4 R5 R6 R7 R8 R9 R10]. by split.
  - injection E as E. pose proof (trap_rel loc id cause order pc s a Hm Et HR) as HR'. by rewrite E in HR'.
  - injection E as E. pose proof (rvfi_rel r s a Hm Et HR) as HR'. by rewrite E in HR'.
  - unfold session_step. rewrite Ea. apply read_effect in E as [(f & g & h & ->) _]. by apply (rel_ext s).
  - unfold session_step. rewrite Ea. injection E as E. pose proof (bypass_rel b s a HR) as HR'. by rewrite E in HR'.
  - unfold session_step. rewrite Ea. injection E as <- _.
    unfold process_ifetch_req. destruct (_ || _); [done|]. by apply (rel_ext s).
  - unfold session_step. rewrite Ea. by eapply ifetch_resp_rel.
  - unfold session_step. rewrite Ea. injection E as <- _.
    destruct HR as [R1 R2 R3 R4 R5 R6 R7 R8 R9 R10]. by split.
Qed.

(** The triggers of the kept sessions decide the renaming. *)
Lemma find_session_spec tag kept :
  Forall (λ ss, 0 < ss_trigger ss ∧ ss_tags ss ≠ [] ∧ Forall (λ t, 0 < t) (ss_tags ss)) kept →
  (∀ k ss, kept !! k = Some ss → tag ∈ ss_tags ss →
     (∀ j ss', (j < k)%nat → kept !! j = Some ss' → ∀ t, t ∈ ss_tags ss' → tag < t) →
     find_session tag (range_of <$> kept) = ss_trigger ss) ∧
  ((∀ ss t, ss ∈ kept → t ∈ ss_tags ss → tag < t) → find_session tag (range_of <$> kept) = 0).
Proof.
  induction 1 as [|ss kept (Ht & Hne & Hpos) HF [IH1 IH2]]; [by split|].
  rewrite fmap_cons. cbn [find_session range_of pr_lo_tag pr_hi_tag pr_trigger_tag].
  assert ((∀ t, t ∈ ss_tags ss → tag < t) →
    (lo_of (ss_tags ss) <=? tag) && (tag <=? hi_of (ss_tags ss)) = false) as Hskip.
  { intros Hlt. pose proof (lo_of_above (ss_tags ss) tag Hne Hpos Hlt).
    by rewrite (proj2 (Z.leb_gt _ _)) by lia. }
  split.
  - intros [|k] ss' Hk Hin Hnew; cbn in Hk; simplify_eq.
    + by rewrite !(proj2 (Z.leb_le _ _)) by (by apply lo_of_le || by apply hi_of_ge).
    + rewrite Hskip by (by apply (Hnew 0%nat); [lia|]).
      apply (IH1 k ss'); [done|done|]. intros j ss'' Hj Hjk. by apply (Hnew (S j)); [lia|].
  - intros Hall. rewrite Hskip by (intros t Hin; by apply (Hall ss); [left|]).
    apply IH2. intros ss' t Hs. apply Hall. by right.
Qed.

Lemma run_rel msgs s cs :
  Forall msg_ok msgs → mcmi_run msgs mcmi_new = Some (s, cs) → sessions_rel s (session_run msgs).
Proof.
  intros HF. assert (sessions_rel mcmi_new sessions_new) as H0 by (split; cbn; auto; done).
  unfold session_run. revert H0 cs. generalize mcmi_new as s0, sessions_new as a.
  induction HF as [|msg msgs Hm _ IH]; intros s0 a H0 cs E; cbn [Mcmi.mcmi_run] in E; [by simplify_eq|].
  destruct (process msg s0) as [[s1 cs1]|] eqn:E1; [|done]. cbn [mbind option_bind] in E.
  destruct (mcmi_run msgs s1) as [[s2 cs2]|] eqn:E2; [|done]. simplify_eq/=.
  eapply IH; [|done]. by eapply process_rel.
Qed.


(** ** The code snapshot *)

(** The reference simulator's copy of code lines, with the time of each copy:
    a fetch copies a line that is not there, an evict drops it.  One interface
    serves one hart. *)
Definition snap_step (snap : gmap Z Z) (c : mcm_call) : gmap Z Z :=
  match c with
  | CIfetch _ m => emplace (m_pa m) (m_cycle m) snap
  | CIevict _ m => delete (m_pa m) snap
  | _ => snap
  end.
Definition snapshot (cs : list mcm_call) : gmap Z Z := foldl snap_step ∅ cs.

Definition patch_addr (addr : Z) : bool :=
  ((patch_ram_lo <=? addr) && (addr <? patch_ram_hi)) ||
  existsb (λ i : nat, addr =? 0x42005040 + Z.of_nat i * 0x10000) (seq 0 8).

(** Attributes of a line do not change, and code is not fetched through this
    interface from the patch routine's memory. *)
Variable attr_of : Z → Z.
Definition fetch_ok (msg : mcmi_msg) : Prop :=
  match msg with
  | MsgIfetchReq _ addr attr => attr = attr_of addr ∧ patch_addr addr = false
  | _ => True
  end.

Record snap_inv (s : mcmi) (snap : gmap Z Z) : Prop := {
  si_reqs : map_Forall (λ _ m, m_attr m = attr_of (m_pa m) ∧ patch_addr (m_pa m) = false) (mi_ifetch_reqs s);
  si_lines : Forall (λ m, patch_addr (m_pa m) = false) (mi_ncio_fetches s);
  si_snap : ∀ pa, is_ncio (attr_of pa) = true → is_Some (snap !! pa) → pa ∈ m_pa <$> mi_ncio_fetches s
}.

Lemma patch_access_addr addr s : patch_addr addr = false → patch_access addr s = false.
Proof.
  unfold patch_addr, patch_access. intros [E1 E2]%orb_false_iff.
  destruct (mi_patch_mode s); [|done]. cbn [negb]. by rewrite E1.
Qed.

Lemma ievict_calls c h addr s :
  mission s → patch_addr addr = false →
  process_ievict raw c h addr s = [CIevict h (mem_new raw <| m_cycle := c |> <| m_pa := addr |>)].
Proof. intros [Hr Ht] Hp. unfold process_ievict. by rewrite Ht, Hr, patch_access_addr. Qed.

Lemma snap_silent cs snap : Forall (λ c, fetch_call c = false) cs → foldl snap_step snap cs = snap.
Proof. intros HF. revert snap. induction HF as [|c cs Hc _ IH]; intros snap; [done|]. cbn. rewrite IH. by destruct c. Qed.

Lemma snap_inv_ext s s' snap :
  mi_ifetch_reqs s' = mi_ifetch_reqs s → mi_ncio_fetches s' = mi_ncio_fetches s →
  snap_inv s snap → snap_inv s' snap.
Proof. intros E1 E2 [I1 I2 I3]. split; by rewrite ?E1, ?E2. Qed.

Lemma snap_inv_sub s snap snap' :
  (∀ pa, is_Some (snap' !! pa) → is_Some (snap !! pa)) → snap_inv s snap → snap_inv s snap'.
Proof. intros Hs [I1 I2 I3]. split; auto. Qed.

Lemma ifetch_resp_snap c h o s s' cs snap :
  mission s → process_ifetch_resp raw c h o s = Some (s', cs) → snap_inv s snap →
  snap_inv s' (foldl snap_step snap cs) ∧
  ∃ m, mi_ifetch_reqs s !! o = Some m ∧ foldl snap_step snap cs !! m_pa m = Some c.
Proof.
  intros Hm E [I1 I2 I3]. pose proof Hm as [Hr Ht]. unfold process_ifetch_resp in E. rewrite Ht, Hr in E.
  destruct (mi_ifetch_reqs s !! o) as [m0|] eqn:Em; [|done]. cbn [orb mbind option_bind] in E.
  destruct (I1 o m0 Em) as [Ha Hp]. set (m := m0 <| m_cycle := c |>) in E.
  change (m_attr m) with (m_attr m0) in E. rewrite Ha in E.
  assert (map_Forall (λ _ m, m_attr m = attr_of (m_pa m) ∧ patch_addr (m_pa m) = false)
            (delete o (mi_ifetch_reqs s))) as Hreq by (by apply map_Forall_delete).
  destruct (is_ncio (attr_of (m_pa m0))) eqn:En.
  - destruct (List.find _ _) as [f|] eqn:Ef.
    + apply find_some in Ef as [Hin Heq%Z.eqb_eq]. apply list_elem_of_In in Hin.
      rewrite Heq in E. change (m_pa m) with (m_pa m0) in E. rewrite ievict_calls in E by done.
      injection E as <- <-. cbn [foldl app]. split; [split; cbn -[emplace]; [done|done|]|].
      * intros pa Hpa Hsome. destruct (decide (pa = m_pa m0)) as [->|Hne].
        { change (m_pa m) with (m_pa m0) in Heq. rewrite <- Heq. by apply list_elem_of_fmap_2. }
        apply I3; [done|]. rewrite emplace_fresh in Hsome by apply lookup_delete_eq.
        by rewrite lookup_insert_ne, lookup_delete_ne in Hsome.
      * exists m0. split; [done|]. cbn -[emplace]. rewrite emplace_fresh by apply lookup_delete_eq.
        apply lookup_insert_eq.
    + apply find_None_notin in Ef. injection E as <- <-. cbn [foldl]. change (m_pa m) with (m_pa m0) in Ef.
      assert (snap !! m_pa m0 = None) as Hnone.
      { destruct (snap !! m_pa m0) eqn:Es; [|done]. exfalso. apply Ef, I3; [done|]. by rewrite Es. }
      split; [split; cbn -[emplace]; [done|apply Forall_app; split; [done|by constructor]|]|].
      * intros pa Hpa. rewrite emplace_fresh by done. rewrite fmap_app, elem_of_app.
        destruct (decide (pa = m_pa m0)) as [->|Hne]; [right; by left|].
        rewrite lookup_insert_ne by done. left. by apply I3.
      * exists m0. split; [done|]. cbn -[emplace]. rewrite emplace_fresh by done. apply lookup_insert_eq.
  - change (m_pa m) with (m_pa m0) in E. rewrite ievict_calls in E by done.
    injection E as <- <-. cbn [foldl app]. split.
    + assert (∀ s1, mi_ncio_fetches s1 = mi_ncio_fetches s → mi_ifetch_reqs s1 = mi_ifetch_reqs s →
        snap_inv (s1 <| mi_ifetch_reqs ::= delete o |>)
         (snap_step (snap_step snap (CIevict h (mem_new raw <| m_cycle := c |> <| m_pa := m_pa m0 |>))) (CIfetch h m))) as Hs.
      { intros s1 E1 E2. split; cbn -[emplace]; rewrite ?E1, ?E2; [done|done|]. intros pa Hpa Hsome.
        destruct (decide (pa = m_pa m0)) as [->|Hne]; [congruence|]. apply I3; [done|].
        rewrite emplace_fresh in Hsome by apply lookup_delete_eq.
        by rewrite lookup_insert_ne, lookup_delete_ne in Hsome. }
      apply Hs; by destruct (negb _).
    + exists m0. split; [done|]. cbn -[emplace]. rewrite emplace_fresh by apply lookup_delete_eq. apply lookup_insert_eq.
Qed.

Lemma evicts_snap r s fs snap pa :
  mission s → Forall (λ m, patch_addr (m_pa m) = false) fs →
  is_Some (foldl snap_step snap (flat_map (λ f, if ncio_active s f then []
     else process_ievict raw (rv_cycle r) (rv_hart r) (m_pa f) s) fs) !! pa) →
  is_Some (snap !! pa) ∧ (pa ∈ m_pa <$> fs → ∃ f, f ∈ fs ∧ m_pa f = pa ∧ ncio_active s f = true).
Proof.
  intros Hm HF. revert snap. induction HF as [|f fs Hf HF IH]; intros snap.
  { intros Hs. split; [done|]. by intros ?%elem_of_nil. }
  cbn [flat_map]. rewrite foldl_app. intros Hs. apply IH in Hs as [Hs Hin].
  destruct (ncio_active s f) eqn:Ea.
  - cbn [foldl] in Hs. split; [done|]. rewrite fmap_cons. intros [->|H']%elem_of_cons.
    + exists f. split_and!; [by left|done|done].
    + destruct (Hin H') as (g & Hg & Hpa & Hact). exists g. split_and!; [by right|done|done].
  - rewrite ievict_calls in Hs by done. cbn [foldl snap_step m_pa] in Hs. change (is_Some (delete (m_pa f) snap !! pa)) in Hs.
    destruct (decide (pa = m_pa f)) as [->|Hne]; [rewrite lookup_delete_eq in Hs; by destruct Hs|].
    rewrite lookup_delete_ne in Hs by done. split; [done|]. rewrite fmap_cons. intros [->|H']%elem_of_cons; [done|].
    destruct (Hin H') as (g & Hg & Hpa & Hact). exists g. split_and!; [by right|done|done].
Qed.

Lemma ncio_snap r s s' cs snap :
  mission s → process_ncio_fetches raw r s = (s', cs) → snap_inv s snap →
  snap_inv s' (foldl snap_step snap cs) ∧
  (∀ pa, is_ncio (attr_of pa) = true → is_Some (foldl snap_step snap cs !! pa) →
     ∃ a, a ∈ mi_active_ncio_fetches s ∧ m_pa a = pa).
Proof.
  intros Hm E [I1 I2 I3]. unfold process_ncio_fetches in E. pose proof Hm as [Hr Ht]. rewrite Hr, Ht in E.
  cbn [orb] in E. injection E as <- <-.
  assert (∀ pa, is_ncio (attr_of pa) = true →
    is_Some (foldl snap_step snap (flat_map (λ f, if ncio_active s f then []
      else process_ievict raw (rv_cycle r) (rv_hart r) (m_pa f) s) (mi_ncio_fetches s)) !! pa) →
    ∃ f, f ∈ mi_ncio_fetches s ∧ m_pa f = pa ∧ ncio_active s f = true) as Hall.
  { intros pa Hpa Hs. apply evicts_snap in Hs as [Hs Hin]; [|done|done]. by apply Hin, I3. }
  split.
  - split; [done|cbn; apply Forall_forall; intros m [_ Hin]%list_elem_of_filter; by eapply Forall_forall in I2|].
    intros pa Hpa Hs. destruct (Hall pa Hpa Hs) as (f & Hf & <- & Hact).
    apply list_elem_of_fmap_2. cbn. by apply list_elem_of_filter.
  - intros pa Hpa Hs. destruct (Hall pa Hpa Hs) as (f & Hf & <- & Hact). unfold ncio_active in Hact.
    apply existsb_exists in Hact as (a & Ha & Heq). exists a. split; [by apply list_elem_of_In|]. by apply Z.eqb_eq.
Qed.

Lemma rvfi_snap r s s' cs snap :
  mission s → process_rvfi loc_ raw r s = (s', cs) → snap_inv s snap →
  snap_inv s' (foldl snap_step snap cs) ∧
  (loc_ = rv_loc r → rv_last_uop r = true → rv_branch_tag r ≠ mi_prev_branch_tag (track_patch r s) →
   ∀ pa, is_ncio (attr_of pa) = true → is_Some (foldl snap_step snap cs !! pa) →
     ∃ a, a ∈ mi_active_ncio_fetches s ∧ m_pa a = pa).
Proof.
  intros Hm E HI. pose proof Hm as [Hr Ht]. unfold process_rvfi in E. rewrite Hr in E. cbn [orb] in E.
  destruct (Z.eqb_spec loc_ (rv_loc r)) as [Hl|Hl]; cbn [negb] in E; [|injection E as <- <-; by split].
  destruct (track_patch_same r s) as ((K1 & _) & K2 & K3 & K4 & K5 & K6). set (s1 := track_patch r s) in *.
  set (s2 := if mi_vec_cmode s1 then _ else s1) in E.
  assert (snap_inv s2 snap ∧ mission s2 ∧ mi_active_ncio_fetches s2 = mi_active_ncio_fetches s ∧
          mi_prev_branch_tag s2 = mi_prev_branch_tag s1) as (HI2 & Hm2 & Ha2 & Hb2).
  { subst s2. unfold mission. split_and!; [apply (snap_inv_ext s); [..|done]| | | |]; destruct (mi_vec_cmode s1); cbn; congruence. }
  rewrite <- Ha2, <- Hb2. clearbody s2. destruct (rv_last_uop r); cbn [negb] in E.
  2: { injection E as <- <-. by split. }
  destruct (negb (bool_decide (mi_ncio_fetches s2 = [])) || mi_ncio_mem_transition s2) eqn:Ew.
  - destruct (Z.eqb_spec (rv_branch_tag r) (mi_prev_branch_tag s2)) as [Hb|Hb]; cbn [negb] in E.
    + injection E as <- <-. split; [by apply (snap_inv_ext s2)|]. by intros.
    + destruct (process_ncio_fetches raw r s2) as [s3 cs3] eqn:E3. injection E as <- <-.
      destruct (ncio_snap r s2 s3 cs3 snap Hm2 E3 HI2) as [H1 H2]. split; [by apply (snap_inv_ext s3)|]. intros _ _ _. exact H2.
  - injection E as <- <-. split; [by apply (snap_inv_ext s2)|]. intros _ _ _ pa Hpa Hs.
    apply orb_false_iff in Ew as [Ew _]. apply negb_false_iff, bool_decide_eq_true in Ew.
    apply (si_snap _ _ HI2) in Hs; [|done]. rewrite Ew in Hs. by apply elem_of_nil in Hs.
Qed.

Definition silent (cs : list mcm_call) : Prop := Forall (λ c, fetch_call c = false) cs.

Lemma call_checked_silent c : silent (call_checked fl reply c).
Proof. unfold call_checked. destruct (rpc_failed _ _ _); by repeat constructor. Qed.

Lemma trap_effect loc id cause order pc s :
  let '(s', cs) := process_trap fl ov loc_ loc id cause order pc s in
  silent cs ∧ mi_ifetch_reqs s' = mi_ifetch_reqs s ∧ mi_ncio_fetches s' = mi_ncio_fetches s.
Proof.
  unfold process_trap. destruct (_ || _); [by repeat constructor|].
  destruct (id =? EXCP); [|by repeat constructor]. set (s1 := s <| mi_ecause := _ |>).
  change (mi_ifetch_reqs s) with (mi_ifetch_reqs s1). change (mi_ncio_fetches s) with (mi_ncio_fetches s1).
  clearbody s1. destruct (fl_cosim fl && _).
  { split; [by repeat constructor|]. by destruct (mi_patch_mode s1 && _). }
  destruct (_ || _); [|destruct (mi_vec_cmode s1); by repeat constructor].
  split; [by constructor|]. set (s2 := if negb _ then _ else s1).
  assert (mi_ifetch_reqs s2 = mi_ifetch_reqs s1 ∧ mi_ncio_fetches s2 = mi_ncio_fetches s1) as [<- <-]
    by (subst s2; by destruct (negb _)).
  by destruct (mi_mem_error s2).
Qed.

Lemma bypass_effect b s :
  let '(s', cs) := process_bypass fl raw b s in
  silent cs ∧ mi_ifetch_reqs s' = mi_ifetch_reqs s ∧ mi_ncio_fetches s' = mi_ncio_fetches s.
Proof.
  unfold process_bypass. destruct (_ || _); [by repeat constructor|].
  destruct (process_memory_access _ _ _) as [u|gs].
  - unfold process_bypass_single. cbv zeta. generalize (bypass_one fl raw b s) as m. intros m.
    destruct (_ && by_amo_cas_fail b); [by repeat constructor|].
    destruct (m_amo m && negb _ && _); [by repeat constructor|].
    destruct (m_amo m && _ && _); by repeat constructor.
  - split; [|done]. apply Forall_fmap, Forall_true. done.
Qed.

(** The other handlers make no fetch call. *)
Lemma silent_handlers s :
  (∀ i, silent (process_insert fl raw i s)) ∧
  (∀ c h a m d e, silent (process_write raw_cl axi_errors ncio_errors c h a m d e s)) ∧
  (∀ c h o a m, silent (process_decode fl ov reply c h o a m s)) ∧
  (∀ c h a, silent (process_devict fl reply c h a s)) ∧
  (∀ c h a, silent (process_flush fl reply c h a s)) ∧
  (∀ c a, silent (process_writeback fl reply c a s)) ∧
  (∀ c a, silent (process_dfetch fl reply c a s)).
Proof.
  pose proof call_checked_silent as Hc. split_and!; intros.
  - unfold process_insert. destruct (_ || _); [by constructor|]. destruct (process_memory_access _ _ _); [by repeat constructor|].
    apply Forall_fmap, Forall_true. done.
  - unfold process_write. destruct (_ || _); by repeat constructor.
  - unfold process_decode. destruct (_ || _); [by constructor|apply Hc].
  - unfold process_devict. destruct (_ || _); [by constructor|apply Hc].
  - unfold process_flush. destruct (mi_in_reset s); [by constructor|]. constructor; [done|].
    destruct (rpc_failed _ _ _); [by constructor|apply Hc].
  - unfold process_writeback. destruct (mi_in_reset s); [by constructor|]. apply Forall_app. split; [apply Hc|].
    destruct (rpc_failed _ _ _); [by constructor|apply Hc].
  - unfold process_dfetch. destruct (mi_in_reset s); [by constructor|apply Hc].
Qed.

Lemma process_snap msg s s' cs snap :
  fetch_ok msg → process msg s = Some (s', cs) → snap_inv s snap → snap_inv s' (foldl snap_step snap cs).
Proof.
  unfold Mcmi.process. intros Hf E HI. destruct (mi_terminated s) eqn:Et; [by injection E as <- <-|].
  assert (∀ s' cs, silent cs → mi_ifetch_reqs s' = mi_ifetch_reqs s → mi_ncio_fetches s' = mi_ncio_fetches s →
    snap_inv s' (foldl snap_step snap cs)) as Hsil
    by (intros s1 cs1 Hs E1 E2; rewrite snap_silent by done; by apply (snap_inv_ext s)).
  destruct (silent_handlers s) as (S1 & S2 & S3 & S4 & S5 & S6 & S7).
  destruct msg as [loc|loc id cause order pc|r|r|i|b|c h ad m d e|o ad t|c h o|c h ad|c h o ad m|c h ad|c h ad|c ad|c ad| | |];
    cbn [fetch_ok] in Hf; try (injection E as <- <-; apply Hsil; by (auto || constructor)).
  - injection E as <- <-. apply Hsil; [by constructor|..]; unfold process_reset; by destruct (negb _).
  - pose proof (trap_effect loc id cause order pc s) as Ht. injection E as E. rewrite E in Ht. destruct Ht as (?&?&?). by apply Hsil.
  - injection E as E. destruct (mi_in_reset s) eqn:Er.
    + unfold process_rvfi in E. rewrite Er in E. injection E as <- <-. done.
    + by apply (rvfi_snap r s s' cs snap).
  - apply read_effect in E as [(f & g & h & ->) Hs]. by apply Hsil.
  - pose proof (bypass_effect b s) as Hb. injection E as E. rewrite E in Hb. destruct Hb as (?&?&?). by apply Hsil.
  - injection E as <- <-. unfold process_ifetch_req. destruct (_ || _); [done|]. destruct HI as [I1 I2 I3].
    split; cbn -[emplace]; [|done|done]. apply emplace_Forall; [done|]. cbn. naive_solver.
  - destruct (mi_in_reset s) eqn:Er.
    + unfold process_ifetch_resp in E. rewrite Er, orb_true_r in E. by injection E as <- <-.
    + by apply (ifetch_resp_snap c h o s s' cs snap).
  - injection E as <- <-. unfold process_ievict. destruct (_ || _); [done|]. cbn [foldl snap_step].
    eapply snap_inv_sub; [|done]. intros pa [x Hx]. apply lookup_delete_Some in Hx as [_ Hx]. by eexists.
Qed.

Lemma run_snap msgs s cs :
  Forall fetch_ok msgs → mcmi_run msgs mcmi_new = Some (s, cs) → snap_inv s (snapshot cs).
Proof.
  intros HF. assert (snap_inv mcmi_new ∅) as H0.
  { split; [apply map_Forall_empty|constructor|]. intros pa _ [x Hx]. by rewrite lookup_empty in Hx. }
  unfold snapshot. revert H0 cs. generalize mcmi_new as s0, (∅ : gmap Z Z) as snap.
  induction HF as [|msg msgs Hm _ IH]; intros s0 snap H0 cs E; cbn [Mcmi.mcmi_run] in E; [by simplify_eq|].
  destruct (process msg s0) as [[s1 cs1]|] eqn:E1; [|done]. cbn [mbind option_bind] in E.
  destruct (mcmi_run msgs s1) as [[s2 cs2]|] eqn:E2; [|done]. simplify_eq/=. rewrite foldl_app.
  eapply IH; [|done]. by eapply process_snap.
Qed.

End trace.

(** ** Examples *)

#[local] Notation run := (mcmi_run sample_flags sample_overrides 0 sample_raw sample_raw_cl sample_mask
                            sample_reply no_errors no_errors).
#[local] Notation proc := (process sample_flags sample_overrides 0 sample_raw sample_raw_cl sample_mask
                             sample_reply no_errors no_errors).


Lemma sample_fetch_ok : Forall (fetch_ok (λ _, 0)) sample_run.
Proof. unfold sample_run. repeat (constructor; [by vm_compute|]). constructor. Qed.

Lemma sample_mission : mission sample_state.
Proof. by vm_compute. Qed.


(** A line first fetched as cacheable and then as non-cacheable is not copied
    again: the copy of time 5 stays. *)
Example snapshot_attr_change :
  (λ r, snapshot r.2 !! 0x8000) <$>
    run [MsgReset 0; MsgIfetchReq 1 0x8000 0x1000; MsgIfetchResp 5 0 1;
         MsgIfetchReq 2 0x8000 0; MsgIfetchResp 9 0 2] mcmi_new = Some (Some 5).
Proof. vm_compute. reflexivity. Qed.
