(* ===== verification/Eot.v ===== *)
(** * Eot: end and start of a test, memory dumps
      (src/cosim/utils/eot, src/cosim/utils/sot, src/memdump)

    [eot] counts retired instructions, ends the run on a store to tohost or at
    the instruction limit, and can first compare memory with the reference
    simulator's: it reads the simulator's dump of data lines, asks for the
    lines to be written back from the caches, and compares each with the system
    model's memory.  [sot] announces that all harts have reached a start label.
    [memdump] writes memory regions given by symbolic expressions to files.

    Output of shell commands ([exec], [popen_capture]) and file contents are
    parameters.  [None] is an exception that escapes, or a null device. *)

From Stdlib Require Import Ascii.
From Stdlib Require String.
From S2P Require Import Prelude Bytes Cstd CosimUtil Device Memmap Mem Sysmod SysmodMem McmiSplit.

#[local] Open Scope string_scope.
#[local] Open Scope list_scope.
#[local] Open Scope Z_scope.

(** ** eot *)

Record eot_flags := Eot_flags {
  ef_eot : string;
  ef_load : string;
  ef_hex : string;
  ef_max_instr : Z;
  ef_min_instr : Z;
  ef_recent_pc : Z;
  ef_recent_pc_instr : Z;
  ef_num_harts : Z;
  ef_offline_dpi : bool;
  ef_offline_dpi_test : bool;
  ef_mcm : bool
}.

(** The members, and the two flags [eot] itself changes. *)
Record eot := Eot {
  eo_tohost : Z;
  eo_mem_check : bool;
  eo_previous_cycle : Z;
  eo_instr_count : list Z;
  eo_terminated_harts : list Z;
  eo_ended : bool;
  eo_recent_pc_instr_count : Z;
  eo_recent_pc_hart : Z;
  eo_mem_lines : list (Z * Z);
  eo_mem_checks_done : bool
}.

#[export] Instance eta_eot : Eta eot := λ e,
  Eot (eo_tohost e) (eo_mem_check e) (eo_previous_cycle e) (eo_instr_count e) (eo_terminated_harts e)
    (eo_ended e) (eo_recent_pc_instr_count e) (eo_recent_pc_hart e) (eo_mem_lines e) (eo_mem_checks_done e).

Definition eot_new (tohost : Z) (mem_check : bool) (num_harts : nat) : eot :=
  Eot tohost mem_check 0 (replicate num_harts 0) [] false 0 (-1) [] false.

Inductive eot_event :=
| EoError
| EoMismatch (addr : Z)             (* the memory mismatch error *)
| EoTerminate                       (* htif::terminate_t *)
| EoMemChecks                       (* terminate_called_mem_checks *)
| EoSnoop (addrs : list Z).         (* snoop_addrs_eot *)

Definition nl_char : ascii := "010"%char.
Definition nl : string := String nl_char EmptyString.

Definition recent_pc_default : Z := 2 ^ 64 - 1.

Definition is_eot_tohost (fl : eot_flags) : bool :=
  String.eqb (ef_eot fl) "tohost" || String.eqb (ef_eot fl) "tohost_all".

Section eot.
Context {J M D : Type} `{Device M D}.
Variable fl : eot_flags.
(** Output of a shell command. *)
Variable exec : string → string.
(** What [memmap::get] returns and sets. *)
Variable mm_ok : bool.
Variable mm : list (string * memmap_entry J).
(** Lines of the file +whisper_data_lines. *)
Variable data_lines : list string.
Notation sysmod := (sysmod J M D).
Implicit Types s : sysmod.
Implicit Types e : eot.

Definition tohost_from_memmap (e : eot) : eot * list eot_event :=
  let errs := if mm_ok then [] else [EoError] in
  match map_find "htif" mm with
  | Some m => (e <| eo_tohost := me_base m |>, errs)
  | None => (e, errs ++ [EoError])
  end.

Definition resolve_tohost_addr (e : eot) : eot * list eot_event :=
  if negb (eo_tohost e =? 0) then (e, [])
  else
    if negb (String.eqb (ef_load fl) "") && String.eqb (ef_hex fl) "" then
      let result := exec ("nm " +:+ ef_load fl +:+ " | grep -w tohost") in
      match stoull 16 (String.substring 0 16 result) with
      | Some addr => (e <| eo_tohost := addr |>, [])
      | None => tohost_from_memmap e
      end
    else tohost_from_memmap e.

Definition process_m_steps (hart steps final_steps cycle : Z) (e : eot) : eot :=
  if 0 <? steps then
    e <| eo_instr_count ::= alter (λ c, u32 (c + steps + final_steps)) (Z.to_nat hart) |>
      <| eo_previous_cycle := u32 cycle |>
  else e.

Definition process_m_rvfi (hart : Z) (last_uop : bool) (pc_rdata : Z) (e : eot) : eot :=
  if eo_ended e then e
  else if negb last_uop then e
  else
    let e := e <| eo_instr_count ::= alter (λ c, u32 (c + 1)) (Z.to_nat hart) |> in
    if pc_rdata =? ef_recent_pc fl then
      e <| eo_recent_pc_instr_count := at_z (eo_instr_count e) (Z.to_nat hart) |>
        <| eo_recent_pc_hart := hart |>
    else e.

(** [std::bitset<512>(s)] of a string of binary digits: at most 512 of them. *)
Definition bitset512 (s : string) : Z :=
  foldl (λ v c, 2 * v + Z.b2z (Ascii.eqb c "1")) 0 (take 512 (String.list_ascii_of_string s)).

(** One line of the dump: the fields between colons are a label, the line
    number and the data. *)
Definition parse_data_line (sec_start sec_end mem_base mem_size : Z) (line : string) :
    list (Z * Z) * list eot_event :=
  match getline_tokens ":" line with
  | _ :: t1 :: rest =>
      match stoull 16 t1 with
      | None => ([], [EoError])
      | Some n =>
          let addr := u64 (n * 64) in
          let addr := if (sec_start <=? addr) && (addr <? sec_end) then addr ||| (1 ≪ 55) else addr in
          let ignore_addr := negb ((mem_base <=? addr) && (addr <? u64 (mem_base + mem_size))) in
          match rest with
          | t2 :: _ => if ignore_addr then ([], []) else ([(addr, bitset512 (hex_string_to_binary_string t2))], [])
          | [] => ([], [])
          end
      end
  | _ => ([], [])
  end.

Definition parse_data_lines (sec_start sec_end mem_base mem_size : Z) : list (Z * Z) * list eot_event :=
  let rs := parse_data_line sec_start sec_end mem_base mem_size <$> data_lines in
  (rs.*1 ≫= id, rs.*2 ≫= id).

(** [mem_checks_snoop] and [eot_terminate] call each other; each takes the
    other as an argument, and [eot_terminate] below ties the knot. *)
Definition mem_checks_snoop_with (terminate : bool → eot → option (eot * list eot_event)) s e :
    option (eot * list eot_event) :=
  let errs := if mm_ok then [] else [EoError] in
  mem ← map_find "memory" mm;
  let '(lines, errs') := parse_data_lines (sy_secure_start s) (sy_secure_end s) (me_base mem) (me_size mem) in
  let e := e <| eo_mem_lines ::= λ l, l ++ lines |> in
  if bool_decide (eo_mem_lines e = []) then
    '(e, evs) ← terminate true (e <| eo_mem_checks_done := true |>);
    Some (e, errs ++ EoMemChecks :: errs' ++ evs)
  else Some (e, errs ++ EoMemChecks :: errs' ++ [EoSnoop (eo_mem_lines e).*1]).

Definition eot_terminate_with (snoop : eot → option (eot * list eot_event)) (passed : bool) e :
    option (eot * list eot_event) :=
  if negb (ef_offline_dpi fl || ef_offline_dpi_test fl) then
    let e := e <| eo_mem_check ::= λ c, c && ef_mcm fl |> in
    if negb (eo_mem_check e) || negb passed || eo_mem_checks_done e then Some (e, [EoTerminate])
    else snoop e
  else Some (e, [EoTerminate]).

(** With [eo_mem_checks_done] set the inner call does not get to its snoop. *)
Definition eot_terminate (passed : bool) s e : option (eot * list eot_event) :=
  eot_terminate_with (mem_checks_snoop_with (eot_terminate_with (λ _, None)) s) passed e.
Definition mem_checks_snoop s e : option (eot * list eot_event) :=
  mem_checks_snoop_with (λ passed, eot_terminate passed s) s e.

Definition exit_code_of (data : Z) : Z := (data ≫ 1) &&& 0x7fffffffffff.

Definition process_eoti (hartid instr_count data : Z) (max_instr : bool) s e : option (eot * list eot_event) :=
  if eo_ended e then Some (e, [])
  else if max_instr && (0 <? ef_max_instr fl) && (ef_max_instr fl <? instr_count) then
    '(e, evs) ← eot_terminate true s (e <| eo_ended := true |>);
    Some (e, (if String.eqb (ef_eot fl) "max_instr" then [] else [EoError]) ++ evs)
  else if exit_code_of data =? 0 then
    let e := if bool_decide (hartid ∈ eo_terminated_harts e) then e
             else e <| eo_terminated_harts ::= λ l, l ++ [hartid] |> in
    if negb (String.eqb (ef_eot fl) "tohost_all") ||
       (ef_num_harts fl <=? Z.of_nat (length (eo_terminated_harts e)))
    then eot_terminate true s (e <| eo_ended := true |>)
    else Some (e, [])
  else
    '(e, evs) ← eot_terminate false s (e <| eo_ended := true |>);
    Some (e, EoError :: evs).

(** [vec_to_bitset] *)
Definition vec_to_bitset (t : list Z) : Z := foldl (λ v b, ((v ≪ 8) mod 2 ^ 512) ||| b) 0 (reverse t).

(** [while (!diff[i++]); return --i / 8;] on a difference that is not zero. *)
Definition first_differing_addr (a b : Z) : Z := countr_zero_from 512 0 (a ^^^ b) / 8.

Fixpoint check_lines (lines : list (Z * Z)) s : option (sysmod * bool * list eot_event) :=
  match lines with
  | [] => Some (s, true, [])
  | (addr, value) :: lines =>
      '(s, data) ← tag_backdoor_read "memory" addr 64 (replicate 64 0) s;
      let dut := vec_to_bitset data in
      if negb (dut =? value) then Some (s, false, [EoMismatch (u64 (addr + first_differing_addr dut value))])
      else check_lines lines s
  end.

Definition mem_checks s e : option (eot * sysmod * bool * list eot_event) :=
  '(s, passed, evs) ← check_lines (eo_mem_lines e) s;
  Some (e <| eo_mem_checks_done := true |>, s, passed, evs).

(** The callback on [snoop_mem]: the caches have been written back. *)
Definition on_snoop_mem s e : option (eot * sysmod * list eot_event) :=
  '(e, s, passed, evs) ← mem_checks s e;
  '(e, evs') ← eot_terminate passed s (e <| eo_mem_checks_done := true |>);
  Some (e, s, evs ++ evs').

(** The destructor's checks: one error per hart below the minimum, one for a
    recent PC not seen. *)
Definition eot_final_checks (e : eot) : list eot_event :=
  if ef_offline_dpi fl || ef_offline_dpi_test fl then []
  else
    (eo_instr_count e ≫= λ i, if i <? ef_min_instr fl then [EoError] else []) ++
    if negb (ef_recent_pc fl =? recent_pc_default) &&
       negb ((0 <=? eo_recent_pc_hart e) &&
             (u64 (at_z (eo_instr_count e) (Z.to_nat (eo_recent_pc_hart e)) - eo_recent_pc_instr_count e)
                <=? ef_recent_pc_instr fl))
    then [EoError] else [].
End eot.

(** ** sot *)

Record sot := Sot {
  so_already_started : bool;
  so_labels : list Z;
  so_started : list Z
}.
#[export] Instance eta_sot : Eta sot := λ s, Sot (so_already_started s) (so_labels s) (so_started s).

Section sot.
Variable exec : string → string.

Definition label_addrs (load label : string) : list Z :=
  omap (λ res, stoull 16 (String.substring 0 16 res))
    (split_string (exec ("nm " +:+ load +:+ " | grep " +:+ label)) nl).

(** The labels found, and whether an error is logged. *)
Definition init_label (load test_start_label : string) : list Z * bool :=
  if String.eqb test_start_label "" then ([], false)
  else
    let addrs := split_string test_start_label "," ≫= label_addrs load in
    (addrs, bool_decide (addrs = [])).

Definition sot_new (num_harts : nat) (load test_start_label : string) : sot * bool :=
  let '(labels, err) := init_label load test_start_label in
  (Sot false labels (if bool_decide (labels = []) then [] else replicate num_harts 0), err).
End sot.

(** [true]: [test_started] is signalled. *)
Definition sot_process (num_harts : nat) (hart pc_rdata : Z) (s : sot) : sot * bool :=
  if so_already_started s || bool_decide (so_labels s = []) then (s, false)
  else
    let s := if bool_decide (pc_rdata ∈ so_labels s)
             then s <| so_started ::= <[Z.to_nat hart := 1]> |> else s in
    if (length (filter (λ x : Z, x = 1%Z) (so_started s)) =? num_harts)%nat
    then (s <| so_already_started := true |>, true)
    else (s, false).

(** ** memdump *)

Record region := Region { md_filename : string; md_start : Z; md_end : Z }.

Section memdump.
Variable exec : string → string.
Variable load : string.

Definition is_blank (c : ascii) : bool :=
  (Ascii.eqb c " " || Ascii.eqb c "009" || Ascii.eqb c "010" || Ascii.eqb c "013")%char.
Fixpoint lstrip (s : string) : string :=
  match s with
  | String c s' => if is_blank c then lstrip s' else s
  | EmptyString => EmptyString
  end.
Fixpoint rstrip (s : string) : string :=
  match s with
  | EmptyString => EmptyString
  | String c s' =>
      match rstrip s' with
      | EmptyString => if is_blank c then EmptyString else String c EmptyString
      | r => String c r
      end
  end.
Definition strip (s : string) : string := rstrip (lstrip s).

(** The cache of resolved symbols holds what the same command would give
    again; [None] logs an error. *)
Definition lookup_symbol (sym : string) (cache : gmap string Z) : option Z * gmap string Z :=
  if String.eqb load "" then (None, cache)
  else match cache !! sym with
  | Some addr => (Some addr, cache)
  | None =>
      let lines := getline_tokens nl_char (exec ("nm " +:+ load +:+ " | grep -w " +:+ sym)) in
      match omap (λ line, if (String.length line <? 16)%nat then None
                          else stoull 16 (String.substring 0 16 line)) lines with
      | addr :: _ => (Some addr, <[sym := addr]> cache)
      | [] => (None, cache)
      end
  end.

Definition resolve_token (tok : string) (cache : gmap string Z) : option Z * gmap string Z :=
  match strip tok with
  | EmptyString => (None, cache)
  | String "@" sym => lookup_symbol sym cache
  | t => (stoull 0 t, cache)
  end.

(** Terms of an expression with their signs ([true]: added). *)
Fixpoint split_terms (op : bool) (cur expr : string) : list (bool * string) :=
  match expr with
  | EmptyString => [(op, cur)]
  | String c expr =>
      if Ascii.eqb c "+" then (op, cur) :: split_terms true EmptyString expr
      else if Ascii.eqb c "-" then (op, cur) :: split_terms false EmptyString expr
      else split_terms op (cur +:+ String c EmptyString) expr
  end.

Fixpoint sum_terms (terms : list (bool * string)) (acc : Z) (cache : gmap string Z) :
    option Z * gmap string Z :=
  match terms with
  | [] => (Some acc, cache)
  | (o, raw) :: terms =>
      match resolve_token raw cache with
      | (None, cache) => (None, cache)
      | (Some v, cache) => sum_terms terms (u64 (if o then acc + v else acc - v)) cache
      end
  end.

Definition evaluate_expr (expr : string) (cache : gmap string Z) : option Z * gmap string Z :=
  sum_terms (split_terms true EmptyString expr) 0 cache.

(** One specification; a failed one logs an error and is skipped. *)
Definition parse_spec (spec : string) (cache : gmap string Z) : option region * gmap string Z :=
  match getline_tokens ":" spec with
  | [f; a; b] =>
      let filename := strip f in
      if String.eqb filename "" then (None, cache)
      else
        match evaluate_expr a cache with
        | (None, cache) => (None, cache)
        | (Some start, cache) =>
            match evaluate_expr b cache with
            | (None, cache) => (None, cache)
            | (Some end_, cache) =>
                (if end_ <=? start then None else Some (Region filename start end_), cache)
            end
        end
  | _ => (None, cache)
  end.

Fixpoint parse_specs (specs : list string) (cache : gmap string Z) : list region :=
  match specs with
  | [] => []
  | spec :: specs =>
      let '(r, cache) := parse_spec spec cache in
      option_list r ++ parse_specs specs cache
  end.
Definition parse_plusarg (memdump : string) : list region :=
  if String.eqb memdump "" then [] else parse_specs (getline_tokens "," memdump) ∅.

(** The files written: name and bytes.  [can_open]: whether a file opens. *)
Fixpoint dump_all {J M D} `{Device M D} (can_open : string → bool) (regions : list region)
    (s : sysmod J M D) : option (sysmod J M D * list (string * list Z)) :=
  match regions with
  | [] => Some (s, [])
  | r :: regions =>
      if negb (can_open (md_filename r)) then dump_all can_open regions s
      else
        let len := Z.to_nat (u64 (md_end r - md_start r)) in
        '(s, chunk) ← tag_backdoor_read "memory" (md_start r) len (replicate len 0) s;
        '(s, files) ← dump_all can_open regions s;
        Some (s, (md_filename r, take len chunk) :: files)
  end.
End memdump.

(** ** The end of a test *)

Inductive eot_msg :=
| EmRvfi (hart : Z) (last_uop : bool) (pc : Z)
| EmSteps (hart steps final_steps cycle : Z)
| EmEoti (hart icount data : Z) (max_instr : bool)
| EmSnoopDone.

Definition is_terminate (ev : eot_event) : bool := match ev with EoTerminate => true | _ => false end.
Definition is_snoop (ev : eot_event) : bool := match ev with EoSnoop _ => true | _ => false end.
Definition terminates (evs : list eot_event) : nat :=
  length (filter (λ ev, is_terminate ev = true) evs).
Definition snoops (evs : list eot_event) : nat :=
  length (filter (λ ev, is_snoop ev = true) evs).
Definition is_snoop_done (m : eot_msg) : bool := match m with EmSnoopDone => true | _ => false end.

Section eot_end.
Context {J M D : Type} `{Device M D} `{!MemManager M} `{!MemManagerLaws M}.
Variable fl : eot_flags.
Variable mm_ok : bool.
Variable mm : list (string * memmap_entry J).
Variable data_lines : list string.
(** The arguments of the constructor. *)
Variable tohost : Z.
Variable mem_check : bool.
Variable num_harts : nat.
Notation sysmod := (sysmod J M D).
Implicit Types s : sysmod.
Implicit Types e : eot.

Definition eot_process (m : eot_msg) s e : option (eot * sysmod * list eot_event) :=
  match m with
  | EmRvfi hart last_uop pc => Some (process_m_rvfi fl hart last_uop pc e, s, [])
  | EmSteps hart steps final_steps cycle => Some (process_m_steps hart steps final_steps cycle e, s, [])
  | EmEoti hart icount data max_instr =>
      '(e, evs) ← process_eoti fl mm_ok mm data_lines hart icount data max_instr s e;
      Some (e, s, evs)
  | EmSnoopDone => on_snoop_mem fl mm_ok mm data_lines s e
  end.

(** Runs from the start, with the number of requests to write caches back that
    are unanswered and the number of terminations signalled.  Between messages
    the system model may change. *)
Inductive eot_steps : list eot_msg → eot → nat → nat → Prop :=
| eot_steps_nil : eot_steps [] (eot_new tohost mem_check num_harts) 0 0
| eot_steps_snoc msgs e o t m s e' s' evs :
    eot_steps msgs e o t → (is_snoop_done m = true → (0 < o)%nat) → mem_backed s →
    eot_process m s e = Some (e', s', evs) →
    eot_steps (msgs ++ [m]) e' (o - Nat.b2n (is_snoop_done m) + snoops evs) (t + terminates evs).

(** The test's verdict: the instruction limit, a failing exit code, a first
    pass, or, with +eot=tohost_all, a pass of the last hart. *)
Definition limit_hit (icount : Z) (max_instr : bool) : Prop :=
  max_instr = true ∧ 0 < ef_max_instr fl < icount.
Definition passer (m : eot_msg) : option Z :=
  match m with
  | EmEoti hart icount data max_instr => if exit_code_of data =? 0 then Some hart else None
  | _ => None
  end.
Definition decides (pre : list eot_msg) (m : eot_msg) : Prop :=
  match m with
  | EmEoti hart icount data max_instr =>
      limit_hit icount max_instr ∨ exit_code_of data ≠ 0 ∨ ef_eot fl ≠ "tohost_all" ∨
      ef_num_harts fl ≤ Z.of_nat (size (list_to_set (hart :: omap passer pre) : gset Z))
  | _ => False
  end.
Definition decided (msgs : list eot_msg) : Prop := ∃ pre m post, msgs = pre ++ m :: post ∧ decides pre m.

Lemma decided_snoc msgs m : decided (msgs ++ [m]) ↔ decided msgs ∨ decides msgs m.
Proof.
  split.
  - intros (pre & x & post & E & Hd). destruct post as [|y post _] using rev_ind.
    + apply app_inj_tail in E as [-> ->]. by right.
    + rewrite app_comm_cons, app_assoc in E. apply app_inj_tail in E as [-> _]. left. by exists pre, x, post.
  - intros [(pre & x & post & -> & Hd)|Hd].
    + exists pre, x, (post ++ [m]). by rewrite <- app_assoc, <- app_comm_cons.
    + by exists msgs, m, [].
Qed.

Lemma terminates_app a b : terminates (a ++ b) = (terminates a + terminates b)%nat.
Proof. unfold terminates. by rewrite filter_app, length_app. Qed.
Lemma snoops_app a b : snoops (a ++ b) = (snoops a + snoops b)%nat.
Proof. unfold snoops. by rewrite filter_app, length_app. Qed.

Definition silent (evs : list eot_event) : Prop := terminates evs = 0%nat ∧ snoops evs = 0%nat.

Lemma silent_if (b : bool) : silent (if b then [] else [EoError]).
Proof. by destruct b. Qed.

Lemma parse_data_lines_silent a b c d : silent (parse_data_lines data_lines a b c d).2.
Proof.
  unfold parse_data_lines. cbn [snd]. induction data_lines as [|l ls [IH1 IH2]]; [done|]. cbn [fmap list_fmap mbind list_bind].
  assert (silent (parse_data_line a b c d l).2) as [L1 L2].
  { unfold parse_data_line. destruct (getline_tokens _ l) as [|? [|t1 rest]]; [done..|].
    destruct (stoull 16 t1); [|done]. destruct rest; [done|]. by case_match. }
  unfold silent in *. rewrite terminates_app, snoops_app. unfold id in *. lia.
Qed.

Notation terminate := (eot_terminate fl mm_ok mm data_lines).
Hypothesis memory_mapped : is_Some (map_find "memory" mm).

(** The part of the state that decides about the end. *)
Definition same_end e e' : Prop := eo_ended e' = eo_ended e ∧ eo_terminated_harts e' = eo_terminated_harts e.

Lemma terminate_with_done snoop passed e :
  eo_mem_checks_done e = true →
  ∃ e', eot_terminate_with fl snoop passed e = Some (e', [EoTerminate]) ∧ same_end e e' ∧
    ∀ snoop', eot_terminate_with fl snoop' passed e = Some (e', [EoTerminate]).
Proof.
  intros Hd. unfold eot_terminate_with. destruct (negb (ef_offline_dpi fl || _)); [|by eexists].
  cbn [eo_mem_checks_done modify]. rewrite Hd, !orb_true_r. by eexists.
Qed.

(** The equation of the source: the two functions call each other. *)
Lemma eot_terminate_fix passed s e :
  terminate passed s e = eot_terminate_with fl (mem_checks_snoop fl mm_ok mm data_lines s) passed e.
Proof.
  clear memory_mapped. assert (∀ f g, (∀ e, f e = g e) → eot_terminate_with fl f passed e = eot_terminate_with fl g passed e) as Hext.
  { intros f g Hfg. unfold eot_terminate_with. by rewrite !Hfg. }
  apply Hext. clear e passed Hext. intros e. unfold mem_checks_snoop, mem_checks_snoop_with.
  destruct (map_find "memory" mm); [|done]. cbn [mbind option_bind].
  destruct (parse_data_lines _ _ _ _ _) as [lines errs]. destruct (bool_decide _); [|done].
  set (e1 := modify _ (modify _ e)). unfold eot_terminate.
  destruct (terminate_with_done (λ _, None) true e1) as (e' & -> & _ & E); [done|]. by rewrite E.
Qed.

Lemma eot_terminate_once passed s e :
  ∃ e' evs, terminate passed s e = Some (e', evs) ∧ same_end e e' ∧ (terminates evs + snoops evs = 1)%nat.
Proof.
  rewrite eot_terminate_fix. unfold eot_terminate_with. destruct (negb _); [|by eexists _, _].
  destruct (negb _ || negb _ || _); [by eexists _, _|].
  unfold mem_checks_snoop, mem_checks_snoop_with. destruct memory_mapped as [mem ->]. cbn [mbind option_bind].
  pose proof (parse_data_lines_silent (sy_secure_start s) (sy_secure_end s) (me_base mem) (me_size mem)) as [T1 T2].
  destruct (parse_data_lines _ _ _ _ _) as [lines errs]. cbn [snd] in *.
  destruct (silent_if mm_ok) as [O1 O2].
  generalize dependent (if mm_ok then [] else [EoError]). intros errs0 O1 O2. case_match.
  - unfold eot_terminate. edestruct terminate_with_done as (e' & -> & He' & _); [done|]. cbn [mbind option_bind].
    eexists _, _; split; [done|]; split; [exact He'|].
    rewrite terminates_app, snoops_app. change (EoMemChecks :: errs ++ ?l) with ([EoMemChecks] ++ errs ++ l).
    rewrite !terminates_app, !snoops_app, T1, T2, O1, O2. done.
  - eexists _, _; split; [done|]; split; [done|].
    rewrite terminates_app, snoops_app. change (EoMemChecks :: errs ++ ?l) with ([EoMemChecks] ++ errs ++ l).
    rewrite !terminates_app, !snoops_app, T1, T2, O1, O2. done.
Qed.

Lemma check_lines_total lines s :
  mem_backed s → ∃ s' passed evs, check_lines lines s = Some (s', passed, evs) ∧ silent evs.
Proof.
  revert s. induction lines as [|[a v] lines IH]; intros s Hb; cbn [check_lines]; [by eexists _, _, _|].
  destruct (memory_bytes a 64 (replicate 64 0) s Hb) as (s' & -> & Hs). cbn [mbind option_bind].
  destruct (negb _); [by eexists _, _, _|]. apply IH. by eapply same_memory_backed.
Qed.

Lemma on_snoop_once s e :
  mem_backed s → ∃ e' s' evs, on_snoop_mem fl mm_ok mm data_lines s e = Some (e', s', evs) ∧ same_end e e' ∧
    terminates evs = 1%nat ∧ snoops evs = 0%nat.
Proof.
  intros Hb. unfold on_snoop_mem, mem_checks.
  destruct (check_lines_total (eo_mem_lines e) s Hb) as (s' & passed & evs & -> & T1 & T2). cbn [mbind option_bind].
  unfold eot_terminate. edestruct terminate_with_done as (e' & -> & He' & _); [done|]. cbn [mbind option_bind].
  eexists _, _, _. split; [done|]. split; [exact He'|]. by rewrite terminates_app, snoops_app, T1, T2.
Qed.

(** What a message does to the state that decides about the end. *)
Definition harts_after (hart : Z) (l : list Z) : list Z := if bool_decide (hart ∈ l) then l else l ++ [hart].
Definition ends_now (harts : list Z) (m : eot_msg) : bool :=
  match m with
  | EmEoti hart icount data max_instr =>
      (max_instr && (0 <? ef_max_instr fl) && (ef_max_instr fl <? icount)) || negb (exit_code_of data =? 0) ||
      negb (String.eqb (ef_eot fl) "tohost_all") ||
      (ef_num_harts fl <=? Z.of_nat (length (harts_after hart harts)))
  | _ => false
  end.

Lemma eot_process_end m s e :
  mem_backed s →
  ∃ e' s' evs, eot_process m s e = Some (e', s', evs) ∧
    eo_ended e' = eo_ended e || ends_now (eo_terminated_harts e) m ∧
    (eo_ended e' = false → eo_terminated_harts e' =
       match passer m with Some h => harts_after h (eo_terminated_harts e) | None => eo_terminated_harts e end) ∧
    terminates evs = (Nat.b2n (eo_ended e' && negb (eo_ended e)) + Nat.b2n (is_snoop_done m) - snoops evs)%nat ∧
    (snoops evs ≤ Nat.b2n (eo_ended e' && negb (eo_ended e)))%nat.
Proof.
  intros Hb. destruct m as [h l pc|h st fs c|h ic d mi|]; cbn [eot_process ends_now passer is_snoop_done].
  - unfold process_m_rvfi. eexists _, _, _. split; [done|]. rewrite orb_false_r.
    destruct (eo_ended e) eqn:E; [by rewrite ?E|]. destruct l; cbn [negb]; [|by rewrite ?E]. case_match; cbn; by rewrite ?E.
  - unfold process_m_steps. eexists _, _, _. split; [done|]. rewrite orb_false_r. case_match; cbn; by destruct (eo_ended e).
  - unfold process_eoti. destruct (eo_ended e) eqn:E; [eexists _, _, _; split; [done|]; by rewrite ?E|]. cbn [orb].
    destruct (mi && _ && _) eqn:Hl.
    { destruct (eot_terminate_once true s (e <| eo_ended := true |>)) as (e' & evs & -> & [E' _] & N).
      cbn [mbind option_bind eo_ended modify] in *. eexists _, _, _. split; [done|]. rewrite E'.
      rewrite terminates_app, snoops_app. destruct (silent_if (String.eqb (ef_eot fl) "max_instr")) as [-> ->].
      split_and!; [done|done| |]; cbn [Nat.b2n andb negb]; lia. }
    destruct (exit_code_of d =? 0) eqn:Hx; cbn [negb orb].
    2: { destruct (eot_terminate_once false s (e <| eo_ended := true |>)) as (e' & evs & -> & [E' _] & N).
         cbn [mbind option_bind eo_ended modify] in *. eexists _, _, _. split; [done|]. rewrite E'.
         change (EoError :: evs) with ([EoError] ++ evs). rewrite terminates_app, snoops_app.
         destruct (silent_if false) as [-> ->]. split_and!; [done|done| |]; cbn [Nat.b2n andb negb]; lia. }
    fold (harts_after h (eo_terminated_harts e)).
    set (e1 := if bool_decide (h ∈ _) then e else _).
    assert (eo_terminated_harts e1 = harts_after h (eo_terminated_harts e)) as Eh
      by (unfold e1, harts_after; by case_bool_decide).
    assert (eo_ended e1 = false) as E1 by (unfold e1; by case_bool_decide).
    rewrite Eh. destruct (negb _ || _) eqn:Hend.
    + destruct (eot_terminate_once true s (e1 <| eo_ended := true |>)) as (e' & evs & -> & [E' _] & N).
      cbn [mbind option_bind eo_ended modify] in *. eexists _, _, _. split; [done|]. rewrite E'.
      split_and!; [done|done| |]; cbn [Nat.b2n andb negb]; lia.
    + cbn [mbind option_bind]. eexists _, _, _. split; [done|]. rewrite E1. split_and!; [done|done|done|done].
  - destruct (on_snoop_once s e Hb) as (e' & s' & evs & -> & [E1 E2] & T & S). eexists _, _, _. split; [done|].
    rewrite E1, E2, T, S, orb_false_r. by destruct (eo_ended e).
Qed.

Lemma ends_now_decides harts msgs m :
  NoDup harts → list_to_set harts =@{gset Z} list_to_set (omap passer msgs) →
  ends_now harts m = true ↔ decides msgs m.
Proof.
  intros Hnd Hs. destruct m as [| |h ic d mi|]; cbn [ends_now decides]; [done..| |done].
  assert (size (list_to_set (h :: omap passer msgs) : gset Z) = length (harts_after h harts)) as ->.
  { unfold harts_after. cbn [list_to_set]. rewrite <- Hs. case_bool_decide as Hin.
    - replace ({[h]} ∪ list_to_set harts : gset Z) with (list_to_set harts : gset Z) by set_solver.
      by apply size_list_to_set.
    - change ({[h]} ∪ list_to_set harts : gset Z) with (list_to_set (h :: harts) : gset Z).
      rewrite size_list_to_set by (by constructor). rewrite length_app. simpl. lia. }
  unfold limit_hit. rewrite !orb_true_iff, !andb_true_iff, !negb_true_iff, !Z.ltb_lt, Z.eqb_neq, Z.leb_le, String.eqb_neq.
  tauto.
Qed.

Lemma harts_after_spec h harts l :
  NoDup harts → list_to_set harts =@{gset Z} list_to_set l →
  NoDup (harts_after h harts) ∧ list_to_set (harts_after h harts) =@{gset Z} list_to_set (l ++ [h]).
Proof.
  intros Hnd Hs. unfold harts_after. case_bool_decide; split; [done|set_solver|apply NoDup_app; set_solver by eauto using NoDup_singleton|set_solver].
Qed.

Lemma eot_steps_inv msgs e o t :
  eot_steps msgs e o t →
  (t + o = Nat.b2n (eo_ended e))%nat ∧ (eo_ended e = true → decided msgs) ∧
  (eo_ended e = false → ¬ decided msgs ∧ NoDup (eo_terminated_harts e) ∧
     list_to_set (eo_terminated_harts e) =@{gset Z} list_to_set (omap passer msgs)).
Proof.
  induction 1 as [|msgs e o t m s e' s' evs _ (IH1 & IH2 & IH3) Hm Hb Ep].
  { split_and!; [done|done|]. intros _. split_and!; [|constructor|done]. intros (pre & ? & ? & E & _). by destruct pre. }
  destruct (eot_process_end m s e Hb) as (? & ? & ? & Ep' & E1 & E2 & E3 & E4). rewrite Ep in Ep'.
  injection Ep' as <- <- <-. rewrite decided_snoc.
  assert (is_snoop_done m = true → eo_ended e = true ∧ o = 1%nat) as Hs.
  { intros K. specialize (Hm K). destruct (eo_ended e); cbn [Nat.b2n] in IH1; [split; [done|lia]|lia]. }
  split_and!.
  - rewrite E3. destruct (is_snoop_done m) eqn:K.
    + destruct (Hs eq_refl) as [He ->]. rewrite He in *. cbn [orb] in E1. rewrite E1 in *. cbn in *. lia.
    + rewrite E1 in *. destruct (eo_ended e), (ends_now _ m); cbn in *; lia.
  - intros He'. rewrite He' in E1. destruct (eo_ended e) eqn:He; [left; by apply IH2|]. right.
    destruct (IH3 eq_refl) as (_ & Hn & Hset). by apply (ends_now_decides (eo_terminated_harts e)).
  - intros He'. rewrite He' in E1. symmetry in E1. apply orb_false_iff in E1 as [He En].
    destruct (IH3 He) as (Hnd & Hn & Hset). rewrite E2, omap_app by done. split.
    + intros [?|Hd]; [done|]. apply (ends_now_decides (eo_terminated_harts e)) in Hd; [congruence|done..].
    + cbn [omap list_omap]. destruct (passer m); [by apply harts_after_spec|by rewrite app_nil_r].
Qed.
End eot_end.

(** C27: a test ends once, and exactly when it should.  In every run the end is
    reached iff some message decided it: the instruction limit is exceeded, a
    hart reports a failing exit code, a hart passes, or with +eot=tohost_all
    the number of different harts that passed reaches the configured number.
    Termination is signalled at most once, and exactly once when no answer
    about written-back caches is outstanding; no message is refused. *)
Theorem eot_ends_once {J M D} `{Device M D} `{!MemManager M} `{!MemManagerLaws M} fl mm_ok
    (mm : list (string * memmap_entry J)) data_lines tohost mem_check num_harts msgs e o t :
  is_Some (map_find "memory" mm) →
  eot_steps (D:=D) fl mm_ok mm data_lines tohost mem_check num_harts msgs e o t →
  (eo_ended e = true ↔ decided fl msgs) ∧ (t + o = Nat.b2n (eo_ended e))%nat ∧
  ∀ m (s : sysmod J M D), mem_backed s → is_Some (eot_process fl mm_ok mm data_lines m s e).
Proof.
  intros Hm Hs. destruct (eot_steps_inv _ _ _ _ _ _ _ Hm _ _ _ _ Hs) as (E1 & E2 & E3).
  split_and!; [|done|].
  - split; [done|]. intros Hd. destruct (eo_ended e); [done|]. by destruct (E3 eq_refl).
  - intros m s Hb. destruct (eot_process_end fl mm_ok mm data_lines Hm m s e Hb) as (? & ? & ? & -> & _). done.
Qed.

Definition sample_ef : eot_flags := Eot_flags "tohost_all" "a.elf" "" 1000 0 0 0 2 false false true.
Definition sample_mm : list (string * memmap_entry unit) :=
  [("htif", Memmap_entry unit "0x100" 0x100 16 "htif" "htif" 0x10f tt);
   ("memory", Memmap_entry unit "0x1000" 0x1000 0x1000 "memory" "memory" 0x1fff tt)].

Definition sample_end : eot := Eot 0x100 false 0 [0; 1] [0; 1] true 0 (-1) [] false.

Lemma sample_run :
  eot_steps (D:=sysmod_mem) (M:=gmap Z Z) sample_ef true sample_mm [] 0x100 false 2
    [EmEoti 0 10 1 false; EmRvfi 1 true 0x80; EmEoti 1 12 1 false] sample_end 0 1.
Proof.
  apply (eot_steps_snoc _ _ _ _ _ _ _ [EmEoti 0 10 1 false; EmRvfi 1 true 0x80]
    (Eot 0x100 false 0 [0; 1] [0] false 0 (-1) [] false) 0 0 _ sample_sys sample_end sample_sys [EoTerminate]);
    [|done|exact sample_backed|reflexivity].
  apply (eot_steps_snoc _ _ _ _ _ _ _ [EmEoti 0 10 1 false]
    (Eot 0x100 false 0 [0; 0] [0] false 0 (-1) [] false) 0 0 _ sample_sys _ sample_sys []);
    [|done|exact sample_backed|reflexivity].
  apply (eot_steps_snoc _ _ _ _ _ _ _ [] (eot_new 0x100 false 2) 0 0 _ sample_sys _ sample_sys []);
    [|done|exact sample_backed|reflexivity].
  apply eot_steps_nil.
Qed.

Lemma eot_ends_once_witness :
  decided sample_ef [EmEoti 0 10 1 false; EmRvfi 1 true 0x80; EmEoti 1 12 1 false].
Proof.
  apply (eot_ends_once (D:=sysmod_mem) (M:=gmap Z Z) sample_ef true sample_mm [] 0x100 false 2 _ _ _ _
    (mk_is_Some _ _ eq_refl) sample_run). reflexivity.
Defined.

(** ** The comparison of memory *)

Lemma foldl_reverse {A B} (f : B → A → B) b l : foldl f b l = foldr (flip f) b (reverse l).
Proof.
  induction l as [|x l IH] using rev_ind; [done|]. by rewrite foldl_app, reverse_app, IH.
Qed.

Lemma hex_nibble_char d : 0 ≤ d < 16 → hex_nibble (hex_char d) = d.
Proof.
  intros Hd. rewrite <- (Z2Nat.id d) by lia. assert (Z.to_nat d < 16)%nat as Hn by lia.
  generalize dependent (Z.to_nat d). clear. intros n Hn. do 16 (destruct n as [|n]; [reflexivity|]). lia.
Qed.

Definition bit_step (v : Z) (c : ascii) : Z := 2 * v + Z.b2z (Ascii.eqb c "1").
Definition nibble_step (v : Z) (c : ascii) : Z := 16 * v + hex_nibble c.

Lemma hex_nibble_range c : 0 ≤ hex_nibble c < 16.
Proof.
  destruct c as [[] [] [] [] [] [] [] []]; vm_compute; split; congruence.
Qed.

Lemma nibble_bits n :
  0 ≤ n < 16 →
  8 * Z.b2z (Z.testbit n 3) + 4 * Z.b2z (Z.testbit n 2) + 2 * Z.b2z (Z.testbit n 1) + Z.b2z (Z.testbit n 0) = n.
Proof.
  intros Hn. rewrite <- (Z2Nat.id n) by lia. assert (Z.to_nat n < 16)%nat as Hm by lia.
  generalize dependent (Z.to_nat n). clear. intros n Hn. do 16 (destruct n as [|n]; [reflexivity|]). lia.
Qed.

Lemma bits_nibble v n : 0 ≤ n < 16 → foldl bit_step v (String.list_ascii_of_string (binary_nibble n)) = 16 * v + n.
Proof.
  intros Hn%nibble_bits. assert (∀ b : bool, Ascii.eqb (if b then "1" else "0")%char "1" = b) as Hb by by intros [].
  change (bit_step (bit_step (bit_step (bit_step v (if Z.testbit n 3 then "1" else "0")%char)
    (if Z.testbit n 2 then "1" else "0")%char) (if Z.testbit n 1 then "1" else "0")%char)
    (if Z.testbit n 0 then "1" else "0")%char = 16 * v + n).
  unfold bit_step. rewrite !Hb. lia.
Qed.

Lemma bits_hex v h :
  foldl bit_step v (String.list_ascii_of_string (hex_string_to_binary_string h)) =
  foldl nibble_step v (String.list_ascii_of_string h).
Proof.
  revert v. induction h as [|c h IH]; intros v; [done|]. cbn [hex_string_to_binary_string].
  rewrite list_ascii_app, foldl_app, bits_nibble by apply hex_nibble_range. apply IH.
Qed.

Lemma length_binary h : length (String.list_ascii_of_string (hex_string_to_binary_string h)) = (4 * String.length h)%nat.
Proof.
  induction h as [|c h IH]; [done|]. cbn [hex_string_to_binary_string]. rewrite list_ascii_app, length_app, IH.
  cbn. lia.
Qed.

Lemma length_hex_bytes bs : String.length (hex_bytes bs) = (2 * length bs)%nat.
Proof.
  induction bs as [|b bs IH] using rev_ind; [done|]. rewrite hex_bytes_snoc, length_app.
  change (String.length (hex2 b +:+ hex_bytes bs)) with (S (S (String.length (hex_bytes bs)))). simpl. lia.
Qed.

(** The text of a line of 64 bytes, most significant first, reads as the bytes. *)
Lemma bitset512_hex bs :
  Forall is_u8 bs → (length bs ≤ 64)%nat → bitset512 (hex_string_to_binary_string (hex_bytes bs)) = le_value bs.
Proof.
  intros Hu Hl. unfold bitset512. rewrite take_ge by (rewrite length_binary, length_hex_bytes; lia).
  change (foldl bit_step 0 (String.list_ascii_of_string (hex_string_to_binary_string (hex_bytes bs))) = le_value bs).
  rewrite bits_hex, foldl_reverse, hex_bytes_digits. clear Hl. induction Hu as [|b bs Hb _ IH]; [done|].
  cbn [flat_map app foldr le_value]. rewrite IH. unfold flip, nibble_step. destruct (nibbles b Hb).
  rewrite !hex_nibble_char by done. pose proof (Z.div_mod b 16). lia.
Qed.

Lemma vec_to_bitset_spec t : Forall is_u8 t → (length t ≤ 64)%nat → vec_to_bitset t = le_value t.
Proof.
  intros Hu Hl. unfold vec_to_bitset. rewrite foldl_reverse, reverse_involutive.
  induction Hu as [|b t Hb Ht IH]; [done|]. simpl in Hl. cbn [foldr le_value]. rewrite IH by lia. unfold flip.
  pose proof (le_value_range t Ht) as Hr.
  assert (2 ^ (8 * Z.of_nat (length t)) ≤ 2 ^ 504) by (apply Z.pow_le_mono_r; lia).
  rewrite Z.mod_small by (rewrite Z.shiftl_mul_pow2 by lia; lia).
  rewrite Z.lor_comm, lor_shiftl_add by (done || lia). done.
Qed.

Lemma le_value_inj p q : Forall is_u8 p → Forall is_u8 q → length p = length q → le_value p = le_value q → p = q.
Proof. intros Hp Hq Hl E. rewrite <- (le_bytes_value p), <- (le_bytes_value q), E, Hl by done. done. Qed.

Lemma le_value_byte p i : Forall is_u8 p → (i < length p)%nat → p !! i = Some (le_value p / 2 ^ (8 * Z.of_nat i) mod 2 ^ 8).
Proof.
  intros Hp Hi. rewrite <- (le_bytes_value p) at 1 by done.
  rewrite le_bytes_lookup, land_ff, Z.shiftr_div_pow2 by (done || lia). done.
Qed.

Lemma countr_zero_from_hit fuel i x k :
  i ≤ k < i + Z.of_nat fuel → Z.testbit x k = true → Z.testbit x (countr_zero_from fuel i x) = true.
Proof.
  revert i. induction fuel as [|fuel IH]; intros i Hk Ht; [lia|]. cbn [countr_zero_from].
  destruct (Z.testbit x i) eqn:E; [done|]. apply IH; [|done]. destruct (decide (k = i)) as [->|]; [congruence|lia].
Qed.

(** The reported byte is the lowest one that differs. *)
Lemma first_differing_spec p q :
  Forall is_u8 p → Forall is_u8 q → length p = 64%nat → length q = 64%nat → p ≠ q →
  ∃ i : nat, first_differing_addr (le_value p) (le_value q) = Z.of_nat i ∧ (i < 64)%nat ∧ p !! i ≠ q !! i ∧
    ∀ j, (j < i)%nat → p !! j = q !! j.
Proof.
  intros Hp Hq Lp Lq Hne. unfold first_differing_addr. set (x := le_value p ^^^ le_value q).
  pose proof (le_value_range p Hp) as Rp. pose proof (le_value_range q Hq) as Rq. rewrite Lp in Rp. rewrite Lq in Rq.
  assert (∃ k, 0 ≤ k < 512 ∧ Z.testbit x k = true) as (k & Hk & Ek).
  { destruct (decide (Exists (λ k, Z.testbit x (Z.of_nat k) = true) (seq 0 512))) as [He|He].
    - apply Exists_exists in He as (k & Hk%elem_of_seq & Ek). exists (Z.of_nat k). split; [lia|done].
    - exfalso. apply Hne, le_value_inj; [done|done|lia|]. apply Z.bits_inj'. intros k Hk.
      destruct (decide (k < 512)).
      + destruct (xorb (Z.testbit (le_value p) k) (Z.testbit (le_value q) k)) eqn:E; [|by apply xorb_eq].
        exfalso. apply He, Exists_exists. exists (Z.to_nat k). split; [apply elem_of_seq; lia|].
        unfold x. by rewrite Z2Nat.id, Z.lxor_spec by lia.
      + rewrite !(testbit_above _ 512) by lia. done. }
  pose proof (countr_zero_from_hit 512 0 x k ltac:(lia) Ek) as Hhit.
  destruct (countr_zero_from_spec 512 0 x) as [Hr Hlow]; [lia|].
  set (c := countr_zero_from 512 0 x) in *. clearbody c.
  assert (c < 512) by (destruct (decide (c = 512)) as [->|]; [rewrite Hlow in Ek by lia; done|lia]).
  exists (Z.to_nat (c / 8)). assert (0 ≤ c / 8 < 64) by (split; [apply Z.div_pos; lia|apply Z.div_lt_upper_bound; lia]).
  split_and!; [lia|lia| |].
  - rewrite (le_value_byte p), (le_value_byte q) by (done || lia). intros [= E].
    rewrite Z2Nat.id in E by lia. apply (f_equal (λ z, Z.testbit z (c mod 8))) in E.
    pose proof (Z.mod_pos_bound c 8). pose proof (Z.div_mod c 8).
    rewrite !Z.mod_pow2_bits_low, !Z.div_pow2_bits in E by lia.
    replace (c mod 8 + 8 * (c / 8)) with c in E by lia.
    unfold x in Hhit. by rewrite Z.lxor_spec, E, xorb_nilpotent in Hhit.
  - intros j Hj. rewrite (le_value_byte p), (le_value_byte q) by (done || lia). f_equal.
    apply Z.bits_inj'. intros b Hb. rewrite !Z.testbit_mod_pow2 by lia. destruct (Z.ltb_spec b 8); [|done].
    rewrite !Z.div_pow2_bits by lia. cbn [andb]. apply xorb_eq. rewrite <- Z.lxor_spec. apply Hlow.
    pose proof (Z.div_mod c 8). pose proof (Z.mod_pos_bound c 8). lia.
Qed.

Section eot_memory.
Context {J M D : Type} `{Device M D} `{!MemManager M} `{!MemManagerLaws M}.
Notation sysmod := (sysmod J M D).
Implicit Types s : sysmod.

(** A line of the simulator's dump for the 64 bytes [bs] at address [a]. *)
Definition data_line (line : string) (d : Z * list Z) : Prop :=
  ∃ t0 t1 n rest, getline_tokens ":" line = t0 :: t1 :: hex_bytes d.2 :: rest ∧ stoull 16 t1 = Some n ∧
    d.1 = u64 (n * 64) ∧ length d.2 = 64%nat ∧ Forall is_u8 d.2.

(** Lines that are compared: main memory outside the secure region. *)
Definition compared s (mem : memmap_entry J) (d : Z * list Z) : Prop :=
  me_base mem ≤ d.1 < me_base mem + me_size mem ∧ ¬ (sy_secure_start s ≤ d.1 < sy_secure_end s).
#[export] Instance compared_dec s mem d : Decision (compared s mem d).
Proof. unfold compared. apply _. Defined.

Definition entry (d : Z * list Z) : Z * Z := (d.1, le_value d.2).

Lemma parse_data_line_spec s mem line d :
  0 ≤ me_base mem → 0 ≤ me_size mem → me_base mem + me_size mem ≤ 2 ^ 55 → data_line line d →
  parse_data_line (sy_secure_start s) (sy_secure_end s) (me_base mem) (me_size mem) line =
  (if decide (compared s mem d) then [entry d] else [], []).
Proof.
  destruct d as [a bs]. intros Hb Hs Hm (t0 & t1 & n & rest & E & En & Ha & Hl & Hu). cbn [fst snd] in *.
  unfold parse_data_line. rewrite E, En, <- Ha. rewrite (u64_small (_ + _)) by (unfold is_u64; lia).
  assert (0 ≤ a) as Ha0 by (subst a; apply u64_range).
  destruct ((sy_secure_start s <=? a) && (a <? sy_secure_end s)) eqn:Esec.
  - assert (2 ^ 55 ≤ a ||| (1 ≪ 55)) as Hbit.
    { destruct (Z.lt_ge_cases (a ||| (1 ≪ 55)) (2 ^ 55)) as [Hlt|]; [|done].
      assert (0 ≤ a ||| (1 ≪ 55)) by by apply Z.lor_nonneg.
      assert (Z.testbit (a ||| (1 ≪ 55)) 55 = true) as Ht by by rewrite Z.lor_spec, orb_true_r.
      rewrite (testbit_above _ 55) in Ht; [done|lia|lia]. }
    rewrite (proj2 (Z.ltb_ge (a ||| _) (me_base mem + me_size mem))) by lia. rewrite andb_false_r. cbn [negb].
    rewrite decide_False; [done|]. intros [_ Hn]. apply Hn. zbool. cbn. lia.
  - destruct ((me_base mem <=? a) && (a <? me_base mem + me_size mem)) eqn:Em; cbn [negb].
    + rewrite decide_True; [by rewrite bitset512_hex by (done || lia)|]. split; cbn [fst].
      * zbool. lia.
      * intros [H1 H2]. apply andb_false_iff in Esec as [?|?]; zbool; lia.
    + rewrite decide_False; [done|]. intros [Hr _]. cbn [fst] in Hr. apply andb_false_iff in Em as [?|?]; zbool; lia.
Qed.

Lemma parse_data_lines_spec s mem lines dump :
  0 ≤ me_base mem → 0 ≤ me_size mem → me_base mem + me_size mem ≤ 2 ^ 55 → Forall2 data_line lines dump →
  parse_data_lines lines (sy_secure_start s) (sy_secure_end s) (me_base mem) (me_size mem) =
  (entry <$> filter (compared s mem) dump, []).
Proof.
  intros Hb Hs Hm. unfold parse_data_lines.
  induction 1 as [|line d lines dump Hd _ IH]; [done|]. cbn [fmap list_fmap mbind list_bind].
  rewrite (parse_data_line_spec s mem line d) by done. injection IH as IH1 IH2. unfold id in *.
  f_equal; [|done]. cbn [fst]. rewrite filter_cons. destruct (decide (compared s mem d)); cbn [fmap list_fmap app].
  - f_equal. exact IH1.
  - exact IH1.
Qed.

(** The comparison stops at the first line that differs. *)
Definition first_mismatch s (checked : list (Z * list Z)) (x : Z) : Prop :=
  ∃ (i j : nat) a bs, checked !! i = Some (a, bs) ∧ Forall (λ d, peeks d.1 64 s = d.2) (take i checked) ∧
    (j < 64)%nat ∧ x = u64 (a + Z.of_nat j) ∧ peeks a 64 s !! j ≠ bs !! j ∧
    ∀ k, (k < j)%nat → peeks a 64 s !! k = bs !! k.

Lemma peeks_same s s' a n : same_memory s s' → peeks a n s' = peeks a n s.
Proof. intros [_ P]. unfold peeks. apply list_fmap_ext. intros _ x _. apply P. Qed.

Lemma check_lines_spec s checked :
  mem_backed s → Forall (λ d, length d.2 = 64%nat ∧ Forall is_u8 d.2) checked →
  ∃ s', (check_lines (entry <$> checked) s = Some (s', true, []) ∧ Forall (λ d, peeks d.1 64 s = d.2) checked) ∨
    ∃ x, check_lines (entry <$> checked) s = Some (s', false, [EoMismatch x]) ∧ first_mismatch s checked x.
Proof.
  intros Hb HF. revert s Hb. induction HF as [|[a bs] checked [Hl Hu] _ IH]; intros s Hb.
  { exists s. by left. }
  cbn [fst snd] in *. cbn [fmap list_fmap check_lines entry fst snd].
  destruct (memory_bytes a 64 (replicate 64 0) s Hb) as (s1 & -> & Hs). cbn [mbind option_bind].
  change (drop 64 (replicate 64 0)) with (@nil Z). rewrite app_nil_r.
  rewrite vec_to_bitset_spec by (apply peeks_u8 || by rewrite length_peeks).
  destruct (le_value (peeks a 64 s) =? le_value bs) eqn:E; cbn [negb]; zbool.
  - assert (peeks a 64 s = bs) as Eb by (apply le_value_inj; [apply peeks_u8|done|by rewrite length_peeks|done]).
    destruct (IH s1) as (s' & [[-> HF]|(x & -> & Hx)]); [by eapply same_memory_backed| |]; exists s'.
    + left. split; [done|]. constructor; [done|]. eapply Forall_impl; [exact HF|].
      intros d Hd. by rewrite <- (peeks_same s s1).
    + right. exists x. split; [done|]. destruct Hx as (i & j & a' & bs' & H1 & H2 & H3 & H4 & H5 & H6).
      exists (S i), j, a', bs'. rewrite (peeks_same s s1) in H5 by done. split_and!; [done| |done|done|done|].
      * constructor; [done|]. eapply Forall_impl; [exact H2|]. intros d Hd. by rewrite <- (peeks_same s s1).
      * intros k Hk. rewrite <- (peeks_same s s1) by done. by apply H6.
  - exists s1. right.
    destruct (first_differing_spec (peeks a 64 s) bs) as (j & -> & Hj & Hne & Heq);
      [apply peeks_u8|done|by rewrite length_peeks|done|by intros <-|].
    eexists. split; [done|]. exists 0%nat, j, a, bs. by split_and!.
Qed.
End eot_memory.

(** C12: the memory comparison at the end of a test is exact.  After a passing
    end the lines of the simulator's dump that lie in main memory outside the
    secure region, and only those, are asked to be written back (none: the test
    ends at once); when they have been, the test ends without an error iff each
    of them equals memory byte by byte, and otherwise with one error that names
    the lowest differing address of the first differing line. *)
Theorem eot_memory_compared {J M D} `{Device M D} `{!MemManager M} `{!MemManagerLaws M} fl
    (mm : list (string * memmap_entry J)) lines dump mem e (s s' : sysmod J M D) :
  ef_offline_dpi fl || ef_offline_dpi_test fl = false → ef_mcm fl = true →
  eo_mem_check e = true → eo_mem_checks_done e = false → eo_mem_lines e = [] →
  map_find "memory" mm = Some mem → 0 ≤ me_base mem → 0 ≤ me_size mem → me_base mem + me_size mem ≤ 2 ^ 55 →
  Forall2 data_line lines dump → mem_backed s' →
  let checked := filter (compared s mem) dump in
  ∃ e1, if decide (checked = []) then
    eot_terminate fl true mm lines true s e = Some (e1, [EoMemChecks; EoTerminate])
  else
    eot_terminate fl true mm lines true s e = Some (e1, [EoMemChecks; EoSnoop checked.*1]) ∧
    ∃ e2 s2 evs, on_snoop_mem fl true mm lines s' e1 = Some (e2, s2, evs) ∧
      ((evs = [EoTerminate] ∧ Forall (λ d, peeks d.1 64 s' = d.2) checked) ∨
       ∃ x, evs = [EoMismatch x; EoTerminate] ∧ first_mismatch s' checked x).
Proof.
  intros Hoff Hmcm Hc Hd Hl Hm H0 H1 H2 Hdump Hb checked.
  rewrite eot_terminate_fix. unfold eot_terminate_with. rewrite Hoff. cbn [negb eo_mem_check eo_mem_checks_done modify].
  rewrite Hc, Hd, Hmcm. cbn [andb negb orb]. unfold mem_checks_snoop, mem_checks_snoop_with.
  rewrite Hm. cbn [mbind option_bind]. rewrite (parse_data_lines_spec s mem lines dump) by done.
  fold checked. cbn [eo_mem_lines modify]. rewrite Hl. cbn [app].
  destruct (decide (checked = [])) as [E|E].
  - rewrite E. cbn [fmap list_fmap]. rewrite bool_decide_eq_true_2 by done. unfold eot_terminate.
    edestruct terminate_with_done as (e' & -> & _); [done|]. by eexists.
  - rewrite bool_decide_eq_false_2 by (destruct checked; done).
    assert ((entry <$> checked).*1 = checked.*1) as -> by (rewrite <- list_fmap_compose; done).
    eexists. split; [done|].
    assert (Forall (λ d, length d.2 = 64%nat ∧ Forall is_u8 d.2) checked) as HF.
    { apply Forall_forall. intros d [_ [i Hi]%list_elem_of_lookup_1]%list_elem_of_filter.
      destruct (Forall2_lookup_r _ _ _ _ _ Hdump Hi) as (? & _ & Hx).
      by destruct Hx as (? & ? & ? & ? & _ & _ & _ & ? & ?). }
    unfold on_snoop_mem, mem_checks. cbn [eo_mem_lines modify]. rewrite Hl. cbn [app].
    destruct (check_lines_spec s' checked Hb HF) as (s2 & [[-> Hall]|(x & -> & Hx)]); cbn [mbind option_bind];
      unfold eot_terminate; (edestruct terminate_with_done as (e' & -> & _); [done|]);
      cbn [mbind option_bind app]; eexists _, _, _; (split; [done|]); [by left|right; by exists x].
Qed.

Definition sample_line : string := "d:40:" +:+ hex_bytes (replicate 64 0xab).

Lemma eot_memory_compared_witness :
  ∃ e1, eot_terminate sample_ef true sample_mm [sample_line] true sample_sys
          (eot_new 0x100 true 2) = Some (e1, [EoMemChecks; EoSnoop [0x1000]]) ∧
    ∃ e2 s2 x, on_snoop_mem sample_ef true sample_mm [sample_line] sample_sys e1 =
                 Some (e2, s2, [EoMismatch x; EoTerminate]).
Proof.
  destruct (eot_memory_compared sample_ef sample_mm [sample_line] [(0x1000, replicate 64 0xab)]
    (Memmap_entry unit "0x1000" 0x1000 0x1000 "memory" "memory" 0x1fff tt) (eot_new 0x100 true 2)
    sample_sys sample_sys) as (e1 & E); [done..| | |].
  - repeat constructor. exists "d", "40", 0x40, []. split_and!; [reflexivity..|]. apply Forall_replicate. done.
  - exact sample_backed.
  - exists e1. destruct E as [E (e2 & s2 & evs & E2 & Hev)]. split; [exact E|]. exists e2, s2.
    destruct Hev as [[_ HF]|(x & -> & _)]; [|by exists x].
    exfalso. apply Forall_inv in HF. discriminate HF.
Defined.

(** ** The start of a test *)

Fixpoint sot_run (num_harts : nat) (msgs : list (Z * Z)) (s : sot) : sot * nat :=
  match msgs with
  | [] => (s, 0%nat)
  | (hart, pc) :: msgs =>
      let '(s, signalled) := sot_process num_harts hart pc s in
      let '(s, n) := sot_run num_harts msgs s in
      (s, (Nat.b2n signalled + n)%nat)
  end.

Section sot_start.
Variable n : nat.
Variable labels : list Z.

(** Hart [h] has retired an instruction at a start label. *)
Definition reached (msgs : list (Z * Z)) (h : nat) : bool :=
  existsb (λ m, (m.1 =? Z.of_nat h) && bool_decide (m.2 ∈ labels)) msgs.
Definition all_reached (msgs : list (Z * Z)) : Prop := ∀ h, (h < n)%nat → reached msgs h = true.

Definition sot_inv (pre : list (Z * Z)) (s : sot) : Prop :=
  so_labels s = labels ∧
  if so_already_started s then all_reached pre
  else so_started s = (λ h, Z.b2z (reached pre h)) <$> seq 0 n ∧ ¬ all_reached pre.

Lemma length_filter_full {A} (P : A → Prop) `{!∀ x, Decision (P x)} l :
  length (filter P l) = length l ↔ Forall P l.
Proof.
  split; [|intros HF; by rewrite filter_all].
  induction l as [|x l IH]; [constructor|]. rewrite filter_cons. pose proof (length_filter P l).
  destruct (decide (P x)); simpl; intros E; [constructor; [done|apply IH; lia]|lia].
Qed.

Lemma sot_process_inv pre s hart pc :
  labels ≠ [] → 0 ≤ hart < Z.of_nat n → sot_inv pre s →
  let '(s', signalled) := sot_process n hart pc s in
  sot_inv (pre ++ [(hart, pc)]) s' ∧
  Nat.b2n (so_already_started s') = (Nat.b2n (so_already_started s) + Nat.b2n signalled)%nat.
Proof.
  intros Hl Hh [El Hi]. unfold sot_process. rewrite El, (bool_decide_eq_false_2 (labels = [])) by done.
  assert (∀ h, reached (pre ++ [(hart, pc)]) h =
    reached pre h || ((hart =? Z.of_nat h) && bool_decide (pc ∈ labels))) as Hr.
  { intros h. unfold reached. rewrite existsb_app. cbn [existsb fst snd]. by rewrite orb_false_r. }
  destruct (so_already_started s) eqn:Ea; cbn [orb].
  { rewrite Ea. split; [|done]. split; [done|]. rewrite Ea. intros h Hh'. by rewrite Hr, Hi. }
  destruct Hi as [Es Hn]. set (s1 := if bool_decide (pc ∈ labels) then _ else s).
  assert (so_started s1 = (λ h, Z.b2z (reached (pre ++ [(hart, pc)]) h)) <$> seq 0 n) as E1.
  { transitivity (if bool_decide (pc ∈ labels) then <[Z.to_nat hart := 1]> (so_started s) else so_started s);
      [unfold s1; by destruct (bool_decide _)|]. rewrite Es. apply list_eq. intros i.
    destruct (decide (i < n)%nat) as [Hi|Hi].
    - rewrite (list_lookup_fmap (λ h, Z.b2z (reached (pre ++ [(hart, pc)]) h))), lookup_seq_lt by done. simpl.
      rewrite Hr. destruct (bool_decide (pc ∈ labels)); [|by rewrite andb_false_r, orb_false_r, list_lookup_fmap, lookup_seq_lt].
      destruct (Z.eqb_spec hart (Z.of_nat i)) as [->|Hne].
      + rewrite Nat2Z.id, list_lookup_insert_eq by (by rewrite length_fmap, length_seq). by rewrite orb_true_r.
      + rewrite list_lookup_insert_ne, list_lookup_fmap, lookup_seq_lt by (done || lia). by rewrite orb_false_r.
    - rewrite !lookup_ge_None_2; [done| |]; destruct (bool_decide _); rewrite ?length_insert, ?length_fmap, ?length_seq; lia. }
  assert (so_labels s1 = labels) as L1 by (unfold s1; by destruct (bool_decide _)).
  assert (so_already_started s1 = false) as A1 by (unfold s1; by destruct (bool_decide _)).
  assert ((length (filter (λ x : Z, x = 1%Z) (so_started s1)) =? n)%nat = true ↔ all_reached (pre ++ [(hart, pc)])) as Hc.
  { rewrite Nat.eqb_eq, E1. assert (n = length ((λ h, Z.b2z (reached (pre ++ [(hart, pc)]) h)) <$> seq 0 n)) as En
      by by rewrite length_fmap, length_seq. rewrite En at 2. rewrite length_filter_full, Forall_fmap, Forall_forall.
    unfold all_reached. setoid_rewrite elem_of_seq. simpl. split.
    - intros HF h Hh'. specialize (HF h ltac:(lia)). simpl in HF. by destruct (reached _ h).
    - intros HF h Hh'. simpl. by rewrite HF by lia. }
  destruct (_ =? n)%nat.
  - split; [|done]. split; [exact L1|]. by apply Hc.
  - split; [|by rewrite A1]. split; [exact L1|]. rewrite A1. split; [done|]. intros Ha. by apply Hc in Ha.
Qed.
End sot_start.

(** The start of the actual test is announced once, when the last hart
    arrives: over any retirements, the number of announcements is one or zero,
    and it is one iff every hart has retired an instruction at one of the start
    labels. *)
Theorem sot_starts_once n labels msgs :
  labels ≠ [] → (0 < n)%nat → Forall (λ m, 0 ≤ m.1 < Z.of_nat n) msgs →
  let '(s, signals) := sot_run n msgs (Sot false labels (replicate n 0)) in
  signals = Nat.b2n (so_already_started s) ∧ (so_already_started s = true ↔ all_reached n labels msgs).
Proof.
  intros Hl Hn HF.
  assert (∀ pre s, sot_inv n labels pre s →
    let '(s', k) := sot_run n msgs s in
    sot_inv n labels (pre ++ msgs) s' ∧ Nat.b2n (so_already_started s') = (Nat.b2n (so_already_started s) + k)%nat) as Hrun.
  { induction HF as [|[hart pc] msgs Hm _ IH]; intros pre s Hi; cbn [sot_run].
    { rewrite app_nil_r. split; [done|lia]. }
    pose proof (sot_process_inv n labels pre s hart pc Hl Hm Hi) as Hp.
    destruct (sot_process n hart pc s) as [s1 sig]. destruct Hp as [Hi1 E1]. specialize (IH _ _ Hi1).
    destruct (sot_run n msgs s1) as [s2 k]. destruct IH as [Hi2 E2]. rewrite <- app_assoc in Hi2.
    split; [exact Hi2|lia]. }
  specialize (Hrun [] (Sot false labels (replicate n 0))).
  destruct (sot_run n msgs _) as [s k]. destruct Hrun as [[_ Hi] E].
  { split; [done|]. cbn. split.
    - apply list_eq. intros i. destruct (decide (i < n)%nat).
      + by rewrite lookup_replicate_2, list_lookup_fmap, lookup_seq_lt.
      + rewrite !lookup_ge_None_2; [done| |]; rewrite ?length_fmap, ?length_seq, ?length_replicate; lia.
    - intros Ha. by specialize (Ha 0%nat Hn). }
  cbn in E. split; [done|]. cbn [app] in Hi. destruct (so_already_started s); [done|]. destruct Hi as [_ Hi]. done.
Qed.

Lemma sot_starts_once_witness :
  all_reached 2 [0x80; 0x90] [(0, 0x80); (1, 0x44); (1, 0x90); (0, 0x80)].
Proof.
  destruct (sot_starts_once 2 [0x80; 0x90] [(0, 0x80); (1, 0x44); (1, 0x90); (0, 0x80)]) as [_ Hs];
    [done|lia|repeat constructor; cbn; lia|]. apply Hs. reflexivity.
Defined.

(** ** Memory dumps *)

(** An expression written out: the first term, then signs and terms. *)
Definition sign (o : bool) : ascii := if o then "+" else "-".
Fixpoint print_terms (terms : list (bool * string)) : string :=
  match terms with
  | [] => EmptyString
  | (o, t) :: terms => String (sign o) (t +:+ print_terms terms)
  end.

Fixpoint plain (t : string) : bool :=
  match t with
  | EmptyString => true
  | String c t => negb (Ascii.eqb c "+") && negb (Ascii.eqb c "-") && plain t
  end.

Lemma string_app_assoc (a b c : string) : (a +:+ b) +:+ c = a +:+ (b +:+ c).
Proof. induction a as [|x a IH]; [done|]. exact (f_equal (String x) IH). Qed.
Lemma string_app_nil (a : string) : a +:+ EmptyString = a.
Proof. induction a as [|x a IH]; [done|]. exact (f_equal (String x) IH). Qed.

Lemma split_terms_plain op cur t rest :
  plain t = true → split_terms op cur (t +:+ rest) = split_terms op (cur +:+ t) rest.
Proof.
  revert cur. induction t as [|c t IH]; intros cur; cbn [plain]; [by rewrite string_app_nil|].
  intros [[Hp%negb_true_iff Hm%negb_true_iff]%andb_true_iff Ht]%andb_true_iff.
  change (String c t +:+ rest) with (String c (t +:+ rest)). cbn [split_terms]. rewrite Hp, Hm, IH by done.
  by rewrite string_app_assoc.
Qed.

Lemma split_print op cur t terms :
  plain t = true → Forall (λ x, plain x.2 = true) terms →
  split_terms op cur (t +:+ print_terms terms) = (op, cur +:+ t) :: terms.
Proof.
  intros Ht HF. revert op cur t Ht. induction HF as [|[o u] terms Hu _ IH]; intros op cur t Ht; cbn [print_terms].
  - rewrite split_terms_plain by done. done.
  - rewrite split_terms_plain by done. cbn [split_terms]. destruct o; cbn [sign]; cbn [Ascii.eqb Bool.eqb];
      rewrite IH by done; done.
Qed.

Section dump_correct.
Variable exec : string → string.
Variable load : string.

(** What a term is worth, looked up anew. *)
Definition term_value (tok : string) : option Z := (resolve_token exec load tok ∅).1.
Definition cache_ok (cache : gmap string Z) : Prop :=
  ∀ sym v, cache !! sym = Some v → (lookup_symbol exec load sym ∅).1 = Some v.

Lemma lookup_symbol_cached sym cache :
  cache_ok cache →
  (lookup_symbol exec load sym cache).1 = (lookup_symbol exec load sym ∅).1 ∧
  cache_ok (lookup_symbol exec load sym cache).2.
Proof.
  intros Hc. unfold lookup_symbol. destruct (String.eqb load EmptyString) eqn:El; [done|].
  destruct (cache !! sym) as [v|] eqn:E.
  - pose proof (Hc sym v E) as Hv. unfold lookup_symbol in Hv. rewrite El in Hv. split; [|done]. by rewrite Hv.
  - rewrite lookup_empty. destruct (omap _ _) as [|addr rest] eqn:Eo; [done|]. split; [done|].
    intros sym' v'. cbn [snd]. destruct (decide (sym = sym')) as [<-|Hne].
    + rewrite lookup_insert_eq. intros [= <-]. unfold lookup_symbol. by rewrite El, lookup_empty, Eo.
    + rewrite lookup_insert_ne by done. apply Hc.
Qed.

Lemma resolve_token_cached tok cache :
  cache_ok cache → (resolve_token exec load tok cache).1 = term_value tok ∧ cache_ok (resolve_token exec load tok cache).2.
Proof.
  intros Hc. unfold term_value, resolve_token. destruct (strip tok) as [|c t]; [done|].
  destruct c as [[] [] [] [] [] [] [] []]; first [done|by apply lookup_symbol_cached].
Qed.

Fixpoint terms_value (terms : list (bool * string)) : option Z :=
  match terms with
  | [] => Some 0
  | (o, t) :: terms =>
      v ← term_value t;
      w ← terms_value terms;
      Some (if o then v + w else w - v)
  end.

Lemma sum_terms_spec terms acc cache :
  cache_ok cache →
  (sum_terms exec load terms acc cache).1 = (λ w, if decide (terms = []) then acc else u64 (acc + w)) <$> terms_value terms ∧
  cache_ok (sum_terms exec load terms acc cache).2.
Proof.
  revert acc cache. induction terms as [|[o t] terms IH]; intros acc cache Hc; [done|]. cbn [sum_terms terms_value].
  destruct (resolve_token_cached t cache Hc) as [Hv Hc']. destruct (resolve_token exec load t cache) as [[v|] cache'];
    cbn [fst snd] in *; rewrite <- Hv; cbn [mbind option_bind]; [|done].
  destruct (IH (u64 (if o then acc + v else acc - v)) cache' Hc') as [E Hc'']. split; [|done]. rewrite E.
  destruct (terms_value terms) as [w|] eqn:Ew; [|done]. cbn [fmap option_fmap option_map mbind option_bind]. f_equal.
  destruct (decide ((o, t) :: terms = [])) as [|_]; [done|].
  unfold u64. destruct (decide (terms = [])) as [->|].
  - injection Ew as <-. f_equal. destruct o; lia.
  - rewrite Zplus_mod_idemp_l. f_equal. destruct o; lia.
Qed.
End dump_correct.

(** A dumped file holds what its expression names.  For expressions written
    as plain terms joined by signs, whose terms resolve, the region runs from
    the signed sum of the first to that of the second modulo 2^64 (and is
    dropped when it is empty), whatever was resolved before; and each region
    whose file opens is written as exactly the bytes of memory from its start
    up to its end. *)
Theorem memdump_exact {J M D} `{Device M D} `{!MemManager M} `{!MemManagerLaws M} exec load f t ts u us cache
    v w can_open rs (s : sysmod J M D) :
  cache_ok exec load cache → plain t = true → plain u = true →
  Forall (λ x, plain x.2 = true) ts → Forall (λ x, plain x.2 = true) us →
  terms_value exec load ((true, t) :: ts) = Some v → terms_value exec load ((true, u) :: us) = Some w →
  ∀ spec, getline_tokens ":" spec = [f; t +:+ print_terms ts; u +:+ print_terms us] → strip f ≠ EmptyString →
  (parse_spec exec load spec cache).1 =
    (if decide (u64 v < u64 w) then Some (Region (strip f) (u64 v) (u64 w)) else None) ∧
  (mem_backed s → Forall (λ r, 0 ≤ md_start r < md_end r ∧ md_end r < 2 ^ 64) rs →
   ∃ s', dump_all can_open rs s =
     Some (s', (λ r, (md_filename r, peeks (md_start r) (Z.to_nat (md_end r - md_start r)) s))
                 <$> filter (λ r, can_open (md_filename r) = true) rs)).
Proof.
  intros Hc Ht Hu Hts Hus Ev Ew spec Hspec Hf. split.
  - unfold parse_spec. rewrite Hspec. destruct (String.eqb_spec (strip f) EmptyString); [done|].
    unfold evaluate_expr. rewrite !split_print by done.
    change (EmptyString +:+ t) with t. change (EmptyString +:+ u) with u.
    destruct (sum_terms_spec exec load ((true, t) :: ts) 0 cache Hc) as [E1 Hc1].
    destruct (sum_terms exec load ((true, t) :: ts) 0 cache) as [r1 cache1]. cbn [fst snd] in E1, Hc1.
    rewrite Ev in E1. cbn [fmap option_fmap option_map] in E1. rewrite decide_False, Z.add_0_l in E1 by done. subst r1.
    destruct (sum_terms_spec exec load ((true, u) :: us) 0 cache1 Hc1) as [E2 _].
    destruct (sum_terms exec load ((true, u) :: us) 0 cache1) as [r2 cache2]. cbn [fst] in E2.
    rewrite Ew in E2. cbn [fmap option_fmap option_map] in E2. rewrite decide_False, Z.add_0_l in E2 by done. subst r2.
    cbn [fst]. destruct (decide (u64 v < u64 w)), (u64 w <=? u64 v) eqn:E; zbool; [lia|done|done|lia].
  - intros Hb HF. revert s Hb. induction HF as [|r rs Hr _ IH]; intros s Hb; [by exists s|]. cbn [dump_all].
    rewrite filter_cons. destruct (can_open (md_filename r)); cbn [negb].
    2: { destruct (decide (false = true)); [done|]. by apply IH. }
    destruct (decide (true = true)); [|done]. rewrite u64_small by (unfold is_u64; lia).
    set (len := Z.to_nat _). destruct (memory_bytes (md_start r) len (replicate len 0) s Hb) as (s1 & -> & Hs).
    cbn [mbind option_bind]. destruct (IH s1) as (s2 & ->); [by eapply same_memory_backed|]. cbn [mbind option_bind].
    exists s2. f_equal. f_equal. cbn [fmap list_fmap]. f_equal.
    + f_equal. rewrite drop_ge by (rewrite length_replicate; lia). rewrite app_nil_r, take_ge; [done|by rewrite length_peeks].
    + apply list_fmap_ext. intros _ x _. f_equal. by apply peeks_same.
Qed.

Definition sample_nm (cmd : string) : string := "0000000000001000 D buf" +:+ nl.

Lemma memdump_exact_witness :
  (parse_spec sample_nm "a.elf" "b.bin:@buf:@buf+0x20" ∅).1 = Some (Region "b.bin" 0x1000 0x1020).
Proof.
  destruct (memdump_exact sample_nm "a.elf" "b.bin" "@buf" [] "@buf" [(true, "0x20")] ∅ 0x1000 0x1020
    (λ _, true) [] sample_sys) with (spec := "b.bin:@buf:@buf+0x20") as [E _];
    [intros ? ?; by rewrite lookup_empty|done|done|constructor|by repeat constructor|reflexivity..|done|].
  exact E.
Defined.
