(* ===== verification/WhisperClient.v ===== *)
(** * WhisperClient: requests to the reference simulator
      (src/cosim/whisper_if/whisper_client.cpp)

    [whisperClient] turns each remote call of the testbench into a message for
    the Whisper server linked into the process.  Request and reply are members
    that all calls share: a call sets the fields it needs and leaves the others
    as earlier calls left them.  The server is a parameter: [interact] takes
    its state and a request to the new state and the reply.  [wc_sent] is the
    history of messages handed to it, which the code does not keep.

    Layout of flags, numbering of special resources and the sizes of the
    message arrays belong to Whisper's headers and are parameters. *)

From Stdlib Require Import Ascii.
From S2P Require Import Prelude Bytes Cstd.

#[local] Open Scope string_scope.
#[local] Open Scope list_scope.
#[local] Open Scope Z_scope.

Inductive wtype :=
| Invalid | Peek | Poke | InjectException | Step | Change | McmRead | McmInsert | McmBypass | McmWrite
| McmIFetch | McmSkipReadChk | McmIEvict | McmDEvict | McmDWriteback | McmDFetch | McmDecode | McmEnd
| Translate | CancelLr | Reset | Quit | EnterDebug | ExitDebug | CheckInterrupt | Nmi | ClearNmi.
#[export] Instance wtype_eq_dec : EqDecision wtype.
Proof. solve_decision. Defined.

Record wmsg := Wmsg {
  wm_hart : Z;
  wm_type : wtype;
  wm_resource : Z;
  wm_flags : Z;
  wm_instrTag : Z;
  wm_time : Z;
  wm_address : Z;
  wm_value : Z;
  wm_size : Z;
  wm_tag : list Z;
  wm_buffer : list Z
}.
#[export] Instance eta_wmsg : Eta wmsg := λ m,
  Wmsg (wm_hart m) (wm_type m) (wm_resource m) (wm_flags m) (wm_instrTag m) (wm_time m) (wm_address m)
    (wm_value m) (wm_size m) (wm_tag m) (wm_buffer m).

(** ** Which Whisper hart runs a hart *)

(** [std::stoull(token, &used, 10)] with [used == token.size()]. *)
Fixpoint all_decimal (s : string) : bool :=
  match s with
  | EmptyString => true
  | String c s => match digit_val c with Some d => d <? 10 | None => false end && all_decimal s
  end.

Definition stoull_whole (token : string) : option Z :=
  v ← stoull 10 token;
  if all_decimal (strip_sign (skip_spaces token)).2 then Some v else None.

Definition parseHartList (s : string) : option (list Z) :=
  mapM stoull_whole (filter (λ t, t ≠ EmptyString) (getline_tokens "," s)).

(** The loop over [entries]: the marks, and whether all are in range and new. *)
Fixpoint mark_used (n : nat) (entries : list Z) (used : list bool) (valid : bool) : list bool * bool :=
  match entries with
  | [] => (used, valid)
  | e :: es =>
      if Z.of_nat n <=? e then mark_used n es used false
      else if at_b used (Z.to_nat e) then mark_used n es used false
      else mark_used n es (<[Z.to_nat e := true]> used) valid
  end.

(** [whisper_hart_index] after [whisperConnect], for [hartCount() = n] and
    [num_harts]; [table] is the previous value. *)
Definition connect_harts (hart_mhartid : string) (num_harts : Z) (n : nat) (table : list Z) : list Z :=
  if bool_decide (hart_mhartid = EmptyString) then table
  else
    match parseHartList hart_mhartid with
    | None => table
    | Some entries =>
        let '(used, valid) :=
          mark_used n entries (replicate n false) (Z.of_nat (length entries) =? num_harts) in
        if valid then entries ++ (Z.of_nat <$> filter (λ i, at_b used i = false) (seq 0 n)) else table
    end.

Definition whisperHart (table : list Z) (hart : Z) : Z :=
  if hart <? Z.of_nat (length table) then at_z table (Z.to_nat hart) else hart.

(** Flags the client sets. *)
Record wbits := Wbits { wb_cache : bool; wb_skipMem : bool; wb_load : bool }.
(** Flags of a step reply. *)
Record step_bits := Step_bits {
  sb_privMode : Z; sb_fpFlags : Z; sb_trap : bool; sb_stop : bool; sb_virt : bool; sb_debug : bool;
  sb_load : bool; sb_cancelled : bool
}.

(** Numbers of [WhisperSpecialResource]. *)
Record special := Special {
  sp_LastLdStAddress : Z; sp_Seipin : Z; sp_AmoInNc : Z; sp_AmoInIo : Z; sp_RsrvInNc : Z; sp_RsrvInIo : Z;
  sp_ClearTinstLrSc : Z; sp_EnablePmamasks : Z; sp_CoherentIcache : Z
}.

Definition chr (c : ascii) : Z := Z.of_nat (nat_of_ascii c).

(** [convert_to_byte_array] on a little-endian machine. *)
Definition convert_to_byte_array (dwords : list Z) : list Z := reg_bytes dwords.

Record client (St : Type) := Client {
  wc_req : wmsg;
  wc_reply : wmsg;
  wc_server : option St;           (* server_ *)
  wc_harts : list Z;               (* whisper_hart_index *)
  wc_sent : list wmsg
}.
Arguments Client {_}.
Arguments wc_req {_}.
Arguments wc_reply {_}.
Arguments wc_server {_}.
Arguments wc_harts {_}.
Arguments wc_sent {_}.
#[export] Instance eta_client {St} : Eta (client St) := λ c,
  Client (wc_req c) (wc_reply c) (wc_server c) (wc_harts c) (wc_sent c).

Section client.
Context {St : Type}.
Variable interact : St → wmsg → St * wmsg.
Variable mk_flags : wbits → Z.
Variable get_step_bits : Z → step_bits.
Variable sp : special.
(** A default-constructed message. *)
Variable msg0 : wmsg.
Variables (FLAGS_cosim FLAGS_cache_model_en : bool) (FLAGS_pa_mask : Z).

(** [whisperCommand(req, reply)]: the reply is the old one if there is no
    server.  It always succeeds. *)
Definition whisperCommand (req reply : wmsg) (c : client St) : client St * wmsg * wmsg :=
  match wc_server c with
  | Some st =>
      if FLAGS_cosim then
        let req := req <| wm_hart := whisperHart (wc_harts c) (wm_hart req) |> in
        let '(st, reply) := interact st req in
        (c <| wc_server := Some st |> <| wc_sent ::= λ l, l ++ [req] |>, req, reply)
      else (c, req, reply)
  | None => (c, req, reply)
  end.

(** The call with both members, and with a local reply. *)
Definition send (req : wmsg) (c : client St) : client St :=
  let '(c, req, reply) := whisperCommand req (wc_reply c) c in
  c <| wc_req := req |> <| wc_reply := reply |>.
Definition send_local (req : wmsg) (c : client St) : client St * wmsg :=
  let '(c, req, reply) := whisperCommand req msg0 c in (c <| wc_req := req |>, reply).

Definition valid_of (reply : wmsg) : bool := negb (bool_decide (wm_type reply = Invalid)).

Definition call (hart : Z) (t : wtype) (f : wmsg → wmsg) (c : client St) : client St :=
  send (f (wc_req c <| wm_hart := hart |> <| wm_type := t |>)) c.
Definition call_local (hart : Z) (t : wtype) (f : wmsg → wmsg) (c : client St) : client St * wmsg :=
  send_local (f (wc_req c <| wm_hart := hart |> <| wm_type := t |>)) c.

(** [addr & ~FLAGS_pa_mask] *)
Definition masked (addr : Z) : Z := addr &&& not64 FLAGS_pa_mask.
Definition set_tag0 (m : wmsg) : wmsg := m <| wm_tag ::= <[0%nat := 0]> |>.
Definition pack_elem (elemIx field : Z) : Z := u32 (elemIx ≪ 16) ||| (field &&& 0xffff).

(** ** Peeks *)

Definition whisperPeek (hart resource addr : Z) (c : client St) : client St * Z * Z * bool :=
  let c := call hart Peek (λ r, set_tag0 (r <| wm_resource := resource |> <| wm_address := masked addr |>)) c in
  (c, wm_value (wc_reply c), wm_address (wc_reply c), valid_of (wc_reply c)).

(** Value, mask, poke mask and read mask. *)
Definition whisperPeekCsr (hart addr : Z) (c : client St) : client St * (Z * Z * Z * Z) * bool :=
  let c := call hart Peek (λ r, set_tag0 (r <| wm_resource := chr "c" |> <| wm_address := addr |>)) c in
  let reply := wc_reply c in
  (c, (wm_value reply, wm_address reply, wm_time reply, wm_instrTag reply), valid_of reply).

Definition whisperPeekPc (hart : Z) (c : client St) : client St * Z :=
  let c := call hart Peek (λ r, set_tag0 (r <| wm_resource := chr "p" |>)) c in
  (c, wm_value (wc_reply c)).

Definition peek_reg (resource hart addr : Z) (c : client St) : client St :=
  call hart Peek (λ r, set_tag0 (r <| wm_resource := resource |> <| wm_address := addr |>)) c.

Definition whisperPeekGpr (hart addr : Z) (c : client St) : client St * Z :=
  let c := peek_reg (chr "r") hart addr c in (c, wm_value (wc_reply c)).
Definition whisperPeekFpr (hart addr : Z) (c : client St) : client St * Z :=
  let c := peek_reg (chr "f") hart addr c in (c, wm_value (wc_reply c)).
Definition whisperPeekVpr (hart addr : Z) (c : client St) : client St * list Z :=
  let c := peek_reg (chr "v") hart addr c in (c, at_z (wm_buffer (wc_reply c)) <$> seq 0 32).

Definition peek_special (hart which : Z) (c : client St) : client St * Z :=
  let '(c, reply) := call_local hart Peek
    (λ r, set_tag0 (r <| wm_resource := chr "s" |> <| wm_address := which |>)) c in
  (c, wm_value reply).
Definition whisperGetLastLdStAddress (hart : Z) (c : client St) : client St * Z :=
  peek_special hart (sp_LastLdStAddress sp) c.
Definition whisperGetSeiPin (hart : Z) (c : client St) : client St * Z :=
  peek_special hart (sp_Seipin sp) c.

(** ** Pokes *)

Definition whisperInjectException (hart : Z) (isLoad : bool) (code elemIx addr : Z) (c : client St) :
    client St * bool :=
  let c := call hart InjectException
    (λ r, r <| wm_flags := mk_flags (Wbits false false isLoad) |> <| wm_address := code |>
            <| wm_resource := elemIx |> <| wm_value := addr |>) c in
  (c, valid_of (wc_reply c)).

Definition whisperPoke (hart time resource addr value : Z) (cache skipmem : bool) (c : client St) :
    client St * bool :=
  let c := call hart Poke
    (λ r, set_tag0 (r <| wm_flags := mk_flags (Wbits (cache && FLAGS_cache_model_en)
                                                 (skipmem && FLAGS_cache_model_en) false) |>
                      <| wm_resource := resource |> <| wm_address := addr |> <| wm_value := value |>
                      <| wm_time := time |>)) c in
  (c, valid_of (wc_reply c)).

Definition whisperPokeMem (hart time resource addr size value : Z) (cache skipmem : bool) (c : client St) :
    client St * bool :=
  let c := call hart Poke
    (λ r, set_tag0 (r <| wm_flags := mk_flags (Wbits cache skipmem false) |> <| wm_resource := resource |>
                      <| wm_address := masked addr |> <| wm_value := value |> <| wm_time := time |>
                      <| wm_size := size |>)) c in
  (c, valid_of (wc_reply c)).

(** [value |= data[i + j] << (j * 8)] *)
Definition pack_chunk (chunk : list Z) : Z :=
  foldl (λ v '(j, b), v ||| (b ≪ (Z.of_nat j * 8))) 0 (zip (seq 0 (length chunk)) chunk).

(** One iteration per 8 bytes; [fuel] is their number. *)
Fixpoint poke_batch (fuel : nat) (hart time resource addr : Z) (data : list Z) (valid : bool) (c : client St) :
    client St * bool :=
  match fuel with
  | O => (c, valid)
  | Datatypes.S fuel =>
      match data with
      | [] => (c, valid)
      | _ =>
          let chunk := take 8 data in
          let '(c, chunk_valid) :=
            whisperPokeMem hart time resource addr (Z.of_nat (length chunk)) (pack_chunk chunk) false false c in
          poke_batch fuel hart time resource (u64 (addr + 8)) (drop 8 data) (valid && chunk_valid) c
      end
  end.

Definition whisperPokeMemBatch (hart time resource addr : Z) (data : list Z) (c : client St) :
    client St * bool :=
  poke_batch (length data) hart time resource addr data true c.

(** Two pokes, both made: [whisperPoke] always returns true. *)
Definition poke_special2 (hart a av b bv : Z) (c : client St) : client St * bool :=
  let '(c, v1) := whisperPoke hart 0 (chr "s") a av false false c in
  let '(c, v2) := whisperPoke hart 0 (chr "s") b bv false false c in
  (c, v1 && v2).
Definition whisperSetAmoAllow (hart : Z) (nc io : bool) (c : client St) : client St * bool :=
  poke_special2 hart (sp_AmoInNc sp) (Z.b2z nc) (sp_AmoInIo sp) (Z.b2z io) c.
Definition whisperSetRsrvAllow (hart : Z) (nc io : bool) (c : client St) : client St * bool :=
  poke_special2 hart (sp_RsrvInNc sp) (Z.b2z nc) (sp_RsrvInIo sp) (Z.b2z io) c.
Definition whisperSetClearTinstLrSc (hart : Z) (enable : bool) (c : client St) : client St * bool :=
  whisperPoke hart 0 (chr "s") (sp_ClearTinstLrSc sp) (Z.b2z enable) false false c.
Definition whisperEnablePmaMasks (hart : Z) (enable : bool) (c : client St) : client St * bool :=
  whisperPoke hart 0 (chr "s") (sp_EnablePmamasks sp) (Z.b2z enable) false false c.
Definition whisperSetCoherentIcache (hart : Z) (enable : bool) (c : client St) : client St * bool :=
  whisperPoke hart 0 (chr "s") (sp_CoherentIcache sp) (Z.b2z enable) false false c.

(** ** Stepping *)

(** The C string at the start of a buffer. *)
Fixpoint c_string (bs : list Z) : list Z :=
  match bs with
  | [] => []
  | b :: bs => if b =? 0 then [] else b :: c_string bs
  end.

Record step_result := Step_result {
  st_pc : Z; st_instruction : Z; st_changeCount : Z; st_disasm : list Z; st_privMode : Z; st_fpFlags : Z;
  st_hasTrap : bool; st_hasStop : bool; st_isLoad : bool; st_isCancelled : bool
}.

Definition whisperStep (hart time instrTag : Z) (c : client St) : client St * step_result * bool :=
  let c := call hart Step (λ r, r <| wm_instrTag := instrTag |> <| wm_time := time |>) c in
  let b := get_step_bits (wm_flags (wc_reply c)) in
  let n := length (wm_buffer (wc_reply c)) in
  let c := c <| wc_reply ::= λ r, r <| wm_buffer ::= <[(n - 1)%nat := 0]> |> |> in
  let reply := wc_reply c in
  (c,
   Step_result (wm_address reply) (wm_resource reply) (u32 (wm_value reply)) (c_string (wm_buffer reply))
     (if sb_debug b then 6 else sb_privMode b ||| (Z.b2z (sb_virt b) ≪ 3)) (sb_fpFlags b)
     (sb_trap b) (sb_stop b) (sb_load b) (sb_cancelled b),
   valid_of reply).

Definition whisperSimpleStep (hart : Z) (c : client St) : client St * (Z * Z * Z) :=
  let '(c, reply) := call_local hart Step (λ r, r <| wm_time := 0 |> <| wm_instrTag := 0 |>) c in
  (c, (wm_address reply, wm_resource reply, u32 (wm_value reply))).

Definition whisperChange (hart : Z) (c : client St) : client St * (Z * Z * Z) * bool :=
  let c := call hart Change (λ r, r) c in
  let reply := wc_reply c in
  (c, (wm_resource reply, wm_address reply, wm_value reply), valid_of reply).

(** ** Memory-consistency calls *)

Definition whisperMcmRead (hart time instrTag addr size value elemIx field : Z) (cache : bool) (c : client St) :
    client St * bool :=
  let c := call hart McmRead
    (λ r, r <| wm_flags := mk_flags (Wbits cache false false) |> <| wm_time := time |> <| wm_value := value |>
            <| wm_size := size |> <| wm_address := masked addr |> <| wm_instrTag := instrTag |>
            <| wm_resource := pack_elem elemIx field |>) c in
  (c, valid_of (wc_reply c)).

(** [req.buffer.at(i) = bytes[i]] for [i < size]; [None] when [at] throws. *)
Definition fill_buffer (size : Z) (bytes buffer : list Z) : option (list Z) :=
  if Z.of_nat (length buffer) <? size then None
  else Some ((at_z bytes <$> seq 0 (Z.to_nat size)) ++ drop (Z.to_nat size) buffer).

(** The vector forms: up to 8 bytes go as a scalar, more in the buffer. *)
Definition whisperMcmVecRead (hart time instrTag addr size : Z) (value : list Z) (elemIx field : Z)
    (cache : bool) (c : client St) : option (client St * bool) :=
  let bytes := convert_to_byte_array value in
  if size <=? 8 then Some (whisperMcmRead hart time instrTag addr size (at_z value 0) elemIx field cache c)
  else
    buf ← fill_buffer size bytes (wm_buffer (wc_req c));
    let '(c, reply) := call_local hart McmRead
      (λ r, r <| wm_flags := mk_flags (Wbits cache false false) |> <| wm_time := time |>
              <| wm_instrTag := instrTag |> <| wm_address := masked addr |> <| wm_size := size |>
              <| wm_resource := pack_elem elemIx field |> <| wm_buffer := buf |>) c in
    Some (c, valid_of reply).

(** [assert(value == 0)]: [None]. *)
Definition whisperMcmInsert (hart time instrTag addr size value elemIx field : Z) (c : client St) :
    option (client St * bool) :=
  if (8 <? size) && negb (value =? 0) then None
  else
    let c := call hart McmInsert
      (λ r, let r := r <| wm_time := time |> <| wm_instrTag := instrTag |> <| wm_address := masked addr |>
                       <| wm_value := value |> <| wm_size := size |> <| wm_resource := pack_elem elemIx field |> in
            if 8 <? size then r <| wm_buffer ::= λ b, replicate (length b) 0 |> else r) c in
    Some (c, valid_of (wc_reply c)).

Definition whisperMcmVecInsert (hart time instrTag addr size : Z) (value : list Z) (elemIx field : Z)
    (c : client St) : option (client St * bool) :=
  let bytes := convert_to_byte_array value in
  if size <=? 8 then
    whisperMcmInsert hart time instrTag (masked addr) size (at_z value 0) elemIx field c
  else
    buf ← fill_buffer size bytes (wm_buffer (wc_req c));
    let '(c, reply) := call_local hart McmInsert
      (λ r, r <| wm_time := time |> <| wm_instrTag := instrTag |> <| wm_address := masked addr |>
              <| wm_size := size |> <| wm_resource := pack_elem elemIx field |> <| wm_buffer := buf |>) c in
    Some (c, valid_of reply).

Definition whisperMcmBypass (hart time instrTag addr size value elemIx field : Z) (cache : bool)
    (c : client St) : option (client St * bool) :=
  if (8 <? size) && negb (value =? 0) then None
  else
    let c := call hart McmBypass
      (λ r, let r := r <| wm_flags := mk_flags (Wbits cache false false) |> <| wm_time := time |>
                       <| wm_instrTag := instrTag |> <| wm_address := masked addr |>
                       <| wm_value := value |> <| wm_size := size |> <| wm_resource := pack_elem elemIx field |> in
            if 8 <? size then r <| wm_buffer ::= λ b, replicate (length b) 0 |> else r) c in
    Some (c, valid_of (wc_reply c)).

Definition whisperMcmVecBypass (hart time instrTag addr size : Z) (value : list Z) (elemIx field : Z)
    (cache : bool) (c : client St) : option (client St * bool) :=
  let bytes := convert_to_byte_array value in
  if size <=? 8 then
    whisperMcmBypass hart time instrTag (masked addr) size (at_z value 0) elemIx field cache c
  else
    buf ← fill_buffer size bytes (wm_buffer (wc_req c));
    let '(c, reply) := call_local hart McmBypass
      (λ r, r <| wm_flags := mk_flags (Wbits cache false false) |> <| wm_time := time |>
              <| wm_instrTag := instrTag |> <| wm_address := masked addr |>
              <| wm_size := size |> <| wm_resource := pack_elem elemIx field |> <| wm_buffer := buf |>) c in
    Some (c, valid_of reply).

(** [flags = 1 | error << 1]; the byte mask travels in [tag].  A size beyond
    the buffer logs an error and sends nothing: third component. *)
Definition whisperMcmWrite (hart time addr size : Z) (data : list Z) (mask : Z) (error : bool) (c : client St) :
    client St * bool * bool :=
  let req := wc_req c <| wm_hart := hart |> <| wm_type := McmWrite |> <| wm_time := time |>
    <| wm_address := masked addr |> <| wm_size := size |> <| wm_flags := 1 ||| (Z.b2z error ≪ 1) |>
    <| wm_tag ::= λ t, foldl (λ t i, <[i := (mask ≫ (Z.of_nat i * 8)) &&& 0xff]> t) t
                         (seq 0 (Z.to_nat (size / 8))) |> in
  if Z.of_nat (length (wm_buffer req)) <? size then (c <| wc_req := req |>, false, true)
  else
    let c := send (req <| wm_buffer ::= λ b, (at_z data <$> seq 0 (Z.to_nat size)) ++ drop (Z.to_nat size) b |>) c in
    (c, valid_of (wc_reply c), false).

(** Calls that carry a time and an address. *)
Definition call_addr (t : wtype) (hart time addr : Z) (c : client St) : client St * bool :=
  let c := call hart t (λ r, r <| wm_time := time |> <| wm_address := addr |>) c in
  (c, valid_of (wc_reply c)).
Definition whisperMcmIFetch (hart time addr : Z) := call_addr McmIFetch hart time addr.
Definition whisperMcmIEvict (hart time addr : Z) := call_addr McmIEvict hart time addr.
Definition whisperMcmDEvict (hart time addr : Z) := call_addr McmDEvict hart time (masked addr).
Definition whisperMcmDFetch (hart time addr : Z) := call_addr McmDFetch hart time (masked addr).

Definition whisperMcmDWriteback (hart time addr : Z) (c : client St) : client St * bool :=
  let c := call hart McmDWriteback
    (λ r, r <| wm_time := time |> <| wm_size := 0 |> <| wm_buffer ::= λ b, replicate (length b) 0 |>
            <| wm_value := 0 |> <| wm_address := masked addr |>) c in
  (c, valid_of (wc_reply c)).

Definition whisperMcmDecode (hart time tag addr size : Z) (c : client St) : client St * bool :=
  let c := call hart McmDecode
    (λ r, r <| wm_time := time |> <| wm_instrTag := tag |> <| wm_address := addr |> <| wm_size := size |>) c in
  (c, valid_of (wc_reply c)).

Definition whisperMcmSkipReadDataCheck (addr size : Z) (enable : bool) (c : client St) : client St :=
  call 0 McmSkipReadChk
    (λ r, r <| wm_value := Z.b2z enable |> <| wm_size := size |> <| wm_address := addr |>) c.

Definition whisperMcmEnd (hart time : Z) (c : client St) : client St * bool :=
  let c := call hart McmEnd (λ r, r <| wm_time := time |>) c in (c, valid_of (wc_reply c)).

(** ** Other calls *)

(** [paddr] is left alone by an invalid reply. *)
Definition whisperTranslate (hart vaddr : Z) (r w x twoStage supervisor : bool) (paddr : Z) (c : client St) :
    client St * Z * bool :=
  let flags := (if r then 1 else if w then 2 else if x then 4 else 0) |||
               (if supervisor then 8 else 0) ||| (if twoStage then 16 else 0) in
  let c := call hart Translate (λ q, q <| wm_address := vaddr |> <| wm_flags := flags |>) c in
  (c, if valid_of (wc_reply c) then wm_address (wc_reply c) else paddr, valid_of (wc_reply c)).

Definition whisperCancelLr (hart : Z) (c : client St) : client St * bool :=
  let c := call hart CancelLr (λ r, r) c in (c, valid_of (wc_reply c)).
Definition whisperReset (hart addr : Z) (c : client St) : client St * bool :=
  let c := call hart Reset (λ r, r <| wm_address := addr |>) c in (c, valid_of (wc_reply c)).
Definition whisperEnterDebug (hart : Z) (c : client St) : client St := call hart EnterDebug (λ r, r) c.
Definition whisperExitDebug (hart : Z) (c : client St) : client St := call hart ExitDebug (λ r, r) c.

Definition whisperCheckInterrupt (hart : Z) (c : client St) : client St * (bool * Z * bool) :=
  let '(c, reply) := call_local hart CheckInterrupt (λ r, r) c in
  (c, (negb (wm_flags reply &&& 1 =? 0), wm_value reply, negb (wm_flags reply &&& 2 =? 0))).

Definition whisperNmi (hart time cause : Z) (c : client St) : client St :=
  call hart Nmi (λ r, r <| wm_time := time |> <| wm_value := cause |>) c.
Definition whisperClearNmi (hart time : Z) (c : client St) : client St :=
  call hart ClearNmi (λ r, r <| wm_flags := 1 |> <| wm_time := time |>) c.
Definition whisperClearNmiCause (hart time cause : Z) (c : client St) : client St :=
  call hart ClearNmi (λ r, r <| wm_flags := 0 |> <| wm_value := cause |> <| wm_time := time |>) c.

(** ** Messages of a call *)

(** A connected client in co-simulation. *)
Definition online (c : client St) : Prop := FLAGS_cosim = true ∧ is_Some (wc_server c).

Definition addressed (c : client St) (m : wmsg) : wmsg :=
  m <| wm_hart := whisperHart (wc_harts c) (wm_hart m) |>.

Lemma send_online req c :
  online c → wc_sent (send req c) = wc_sent c ++ [addressed c req] ∧ online (send req c) ∧
  wc_harts (send req c) = wc_harts c ∧ wc_req (send req c) = addressed c req.
Proof.
  intros [Hc [st Hst]]. unfold send, whisperCommand. rewrite Hst, Hc.
  destruct (interact st _) as [st' reply]. split_and!; [done| |done|done]. by split.
Qed.

Lemma send_local_online req c :
  online c → wc_sent (send_local req c).1 = wc_sent c ++ [addressed c req] ∧ online (send_local req c).1 ∧
  wc_harts (send_local req c).1 = wc_harts c ∧ wc_req (send_local req c).1 = addressed c req.
Proof.
  intros [Hc [st Hst]]. unfold send_local, whisperCommand. rewrite Hst, Hc.
  destruct (interact st _) as [st' reply]. split_and!; [done| |done|done]. by split.
Qed.

(** ** Memory pokes *)

(** The bytes a poke message writes. *)
Definition poke_bytes (m : wmsg) : list (Z * Z) :=
  imap (λ k b, (u64 (wm_address m + Z.of_nat k), b)) (le_bytes (Z.to_nat (wm_size m)) (wm_value m)).

Lemma pack_chunk_value chunk : Forall is_u8 chunk → pack_chunk chunk = le_value chunk.
Proof.
  unfold pack_chunk. induction chunk as [|b chunk IH] using rev_ind; [done|]. intros HF.
  apply Forall_app in HF as [HF Hb]. inversion Hb as [|? ? Hb' _]; subst.
  rewrite length_app. cbn [length]. rewrite Nat.add_1_r, seq_S, Nat.add_0_l.
  rewrite zip_with_app by (by rewrite length_seq). rewrite foldl_app. cbn [foldl zip_with].
  rewrite (IH HF), lor_shiftl_add by (try lia; pose proof (le_value_range chunk HF); rewrite Z.mul_comm; lia).
  rewrite le_value_app by done. cbn [le_value]. rewrite Z.mul_0_l, Z.add_0_r.
  by rewrite (Z.mul_comm (Z.of_nat (length chunk)) 8).
Qed.

Lemma masked_0 addr : FLAGS_pa_mask = 0 → is_u64 addr → masked addr = addr.
Proof.
  intros E Ha. unfold masked. rewrite E. change (not64 0) with (Z.ones 64).
  rewrite Z.land_ones by lia. by apply Z.mod_small.
Qed.

Lemma imap_app_addr addr (l1 l2 : list Z) :
  imap (λ k b, (u64 (addr + Z.of_nat k), b)) (l1 ++ l2) =
  imap (λ k b, (u64 (addr + Z.of_nat k), b)) l1 ++
  imap (λ k b, (u64 (u64 (addr + Z.of_nat (length l1)) + Z.of_nat k), b)) l2.
Proof.
  rewrite imap_app. f_equal. apply imap_ext. intros k b _. unfold compose. f_equal. unfold u64.
  rewrite Zplus_mod_idemp_l. f_equal. lia.
Qed.

Lemma pokemem_sent hart time resource addr size value cache skipmem c :
  online c →
  ∃ m, wc_sent (whisperPokeMem hart time resource addr size value cache skipmem c).1 = wc_sent c ++ [m] ∧
    online (whisperPokeMem hart time resource addr size value cache skipmem c).1 ∧
    wc_harts (whisperPokeMem hart time resource addr size value cache skipmem c).1 = wc_harts c ∧
    wm_type m = Poke ∧ wm_hart m = whisperHart (wc_harts c) hart ∧ wm_resource m = resource ∧
    wm_address m = masked addr ∧ wm_size m = size ∧ wm_value m = value.
Proof.
  intros Hon. unfold whisperPokeMem, call. cbn [fst].
  match goal with |- context [send ?q c] => destruct (send_online q c Hon) as (E1 & E2 & E3 & _) end.
  rewrite E1. eexists. by split_and!; [done|..].
Qed.

(** Writing a block of memory of the simulator sends it in chunks of at
    most 8 bytes that together carry every byte of the block to its address,
    in order, as memory pokes of the hart's Whisper hart. *)
Theorem poke_batch_bytes hart time resource addr data c :
  online c → Forall is_u8 data → is_u64 addr → FLAGS_pa_mask = 0 →
  let c' := (whisperPokeMemBatch hart time resource addr data c).1 in
  ∃ ms, wc_sent c' = wc_sent c ++ ms ∧
    mjoin (poke_bytes <$> ms) = imap (λ k b, (u64 (addr + Z.of_nat k), b)) data ∧
    Forall (λ m, wm_type m = Poke ∧ wm_hart m = whisperHart (wc_harts c) hart ∧
                 wm_resource m = resource ∧ 0 < wm_size m ≤ 8) ms.
Proof.
  intros Hon HF Ha Hmask. unfold whisperPokeMemBatch.
  assert (length data ≤ length data)%nat as Hfuel by lia. revert Hfuel.
  generalize (length data) at 2 3 as fuel. generalize true as valid. intros valid fuel.
  revert valid addr Ha data HF c Hon. induction fuel as [|fuel IH]; intros valid addr Ha data HF c Hon Hfuel.
  { destruct data; [|cbn in Hfuel; lia]. exists []. by rewrite app_nil_r. }
  destruct data as [|b data]; [exists []; by rewrite app_nil_r|]. cbn [poke_batch].
  set (chunk := take 8 (b :: data)). set (rest := drop 8 (b :: data)).
  assert (Forall is_u8 chunk ∧ Forall is_u8 rest) as [Hc Hr] by (by split; [apply Forall_take|apply Forall_drop]).
  assert (0 < length chunk ≤ 8)%nat as Hl by (unfold chunk; rewrite length_take; cbn [length]; lia).
  destruct (pokemem_sent hart time resource addr (Z.of_nat (length chunk)) (pack_chunk chunk) false false c Hon)
    as (m & E1 & E2 & E3 & M1 & M2 & M3 & M4 & M5 & M6).
  destruct (whisperPokeMem _ _ _ _ _ _ _ _ _) as [c1 v1]. cbn [fst] in *.
  destruct (IH (valid && v1) (u64 (addr + 8)) (u64_range _) rest Hr c1 E2) as (ms & F1 & F2 & F3).
  { unfold rest. rewrite length_drop. cbn [length] in *. lia. }
  exists (m :: ms). split_and!.
  - rewrite F1, E1, <- app_assoc. done.
  - change (poke_bytes m ++ mjoin (poke_bytes <$> ms) = imap (λ k b0, (u64 (addr + Z.of_nat k), b0)) (b :: data)).
    rewrite F2. rewrite <- (take_drop 8 (b :: data)). fold chunk rest. rewrite imap_app_addr. f_equal.
    + unfold poke_bytes. rewrite M4, M5, M6, masked_0, pack_chunk_value, Nat2Z.id, le_bytes_value by done. done.
    + destruct (decide (rest = [])) as [->|Hne]; [done|].
      assert (length chunk = 8%nat) as ->; [|done].
      unfold chunk. rewrite length_take. unfold rest in Hne. destruct (decide (8 ≤ length (b :: data)))%nat as [|Hlt]; [lia|].
      by rewrite drop_ge in Hne by lia.
  - constructor; [split_and!; [done|done|done|lia..]|]. by rewrite <- E3.
Qed.

(** ** Memory-consistency messages *)

(** The data bytes of a memory-consistency message. *)
Definition mcm_bytes (m : wmsg) : list Z :=
  if wm_size m <=? 8 then le_bytes (Z.to_nat (wm_size m)) (wm_value m)
  else take (Z.to_nat (wm_size m)) (wm_buffer m).

(** What the simulator learns from a message about one access. *)
Definition carries (m : wmsg) (t : wtype) (hart tag addr size : Z) (bytes : list Z) : Prop :=
  wm_type m = t ∧ wm_hart m = hart ∧ wm_instrTag m = tag ∧ wm_address m = addr ∧ wm_size m = size ∧
  mcm_bytes m = bytes.

Lemma fill_buffer_take size bytes buffer buf :
  fill_buffer size bytes buffer = Some buf → 0 ≤ size ≤ Z.of_nat (length bytes) →
  take (Z.to_nat size) buf = take (Z.to_nat size) bytes.
Proof.
  unfold fill_buffer. destruct (Z.ltb_spec (Z.of_nat (length buffer)) size); [done|].
  intros E Hs. injection E as <-. rewrite take_app_le by (rewrite length_fmap, length_seq; lia).
  rewrite take_ge by (rewrite length_fmap, length_seq; lia).
  apply list_eq. intros i. rewrite list_lookup_fmap. destruct (decide (i < Z.to_nat size)%nat).
  - rewrite lookup_seq_lt, lookup_take_lt by lia. cbn. destruct (lookup_lt_is_Some_2 bytes i) as [b Hb]; [lia|].
    rewrite Hb. unfold at_z. by rewrite Hb.
  - rewrite lookup_seq_ge, lookup_take_ge by lia. done.
Qed.

Lemma take_reg_bytes_small size v vs :
  0 ≤ size ≤ 8 → take (Z.to_nat size) (reg_bytes (v :: vs)) = le_bytes (Z.to_nat size) v.
Proof.
  intros Hs. change (reg_bytes (v :: vs)) with (le_bytes 8 v ++ reg_bytes vs).
  rewrite take_app_le by (rewrite length_le_bytes; lia).
  replace 8%nat with (Z.to_nat size + (8 - Z.to_nat size))%nat by lia. rewrite le_bytes_app.
  rewrite take_app_le by (by rewrite length_le_bytes). by rewrite take_ge by (by rewrite length_le_bytes).
Qed.

(** A call that sent one message, which carries the access; the client stays
    connected and its buffer keeps its size. *)
Definition sent_one (c c' : client St) (t : wtype) (hart tag addr size : Z) (bytes : list Z) : Prop :=
  (∃ m, wc_sent c' = wc_sent c ++ [m] ∧
     carries m t (whisperHart (wc_harts c) hart) tag (masked addr) size bytes) ∧
  online c' ∧ wc_harts c' = wc_harts c ∧
  length (wm_buffer (wc_req c')) = length (wm_buffer (wc_req c)).

Lemma masked_masked addr : masked (masked addr) = masked addr.
Proof. unfold masked. by rewrite <- Z.land_assoc, Z.land_diag. Qed.

Lemma length_fill_buffer size bytes buffer buf :
  0 ≤ size → fill_buffer size bytes buffer = Some buf → length buf = length buffer.
Proof.
  unfold fill_buffer. destruct (Z.ltb_spec (Z.of_nat (length buffer)) size); [done|]. intros Hs E.
  injection E as <-. rewrite length_app, length_fmap, length_seq, length_drop. lia.
Qed.

Lemma fill_buffer_Some size bytes buffer :
  size ≤ Z.of_nat (length buffer) → ∃ buf, fill_buffer size bytes buffer = Some buf.
Proof. intros. unfold fill_buffer. rewrite (proj2 (Z.ltb_ge _ _)) by done. eauto. Qed.

Section vec.
Variables (hart time tag addr size v elemIx field : Z) (vs : list Z) (cache : bool) (c : client St).
Hypothesis Hon : online c.
Hypothesis Hsize : 0 ≤ size ≤ 8 * Z.of_nat (length (v :: vs)).
Hypothesis Hbuf : size ≤ Z.of_nat (length (wm_buffer (wc_req c))).

Lemma scalar_carries m :
  size ≤ 8 → wm_size m = size → wm_value m = v → mcm_bytes m = take (Z.to_nat size) (reg_bytes (v :: vs)).
Proof.
  intros Hs E1 E2. unfold mcm_bytes. rewrite E1, E2, (proj2 (Z.leb_le _ _)), take_reg_bytes_small by lia. done.
Qed.

Lemma buffer_carries m buf :
  8 < size → wm_size m = size → wm_buffer m = buf →
  fill_buffer size (reg_bytes (v :: vs)) (wm_buffer (wc_req c)) = Some buf →
  mcm_bytes m = take (Z.to_nat size) (reg_bytes (v :: vs)).
Proof.
  intros Hs E1 E2 E3. unfold mcm_bytes. rewrite E1, E2, (proj2 (Z.leb_gt _ _)) by lia.
  apply (fill_buffer_take _ _ _ _ E3). rewrite length_reg_bytes. lia.
Qed.

#[local] Notation bytes := (take (Z.to_nat size) (reg_bytes (v :: vs))).

(** A request that holds the access, sent in either way. *)
Definition holds (t : wtype) (q : wmsg) : Prop :=
  wm_type q = t ∧ wm_hart q = hart ∧ wm_instrTag q = tag ∧ wm_address q = masked addr ∧
  wm_size q = size ∧ mcm_bytes q = bytes ∧ length (wm_buffer q) = length (wm_buffer (wc_req c)).

Lemma send_one t q : holds t q → sent_one c (send q c) t hart tag addr size bytes.
Proof.
  intros (H1 & H2 & H3 & H4 & H5 & H6 & H7). destruct (send_online q c Hon) as (E1 & E2 & E3 & E4).
  split; [|split_and!; [done|done|by rewrite E4]]. exists (addressed c q). split; [done|].
  split_and!; try done. cbn. by rewrite H2.
Qed.

Lemma send_local_one t q : holds t q → sent_one c (send_local q c).1 t hart tag addr size bytes.
Proof.
  intros (H1 & H2 & H3 & H4 & H5 & H6 & H7). destruct (send_local_online q c Hon) as (E1 & E2 & E3 & E4).
  split; [|split_and!; [done|done|by rewrite E4]]. exists (addressed c q). split; [done|].
  split_and!; try done. cbn. by rewrite H2.
Qed.

(** The buffered form of the three calls. *)
Lemma buffered_one t (f : list Z → wmsg) :
  8 < size →
  (∀ buf, wm_buffer (f buf) = buf ∧ wm_type (f buf) = t ∧ wm_hart (f buf) = hart ∧
     wm_instrTag (f buf) = tag ∧ wm_address (f buf) = masked addr ∧ wm_size (f buf) = size) →
  ∃ c' ok, (buf ← fill_buffer size (convert_to_byte_array (v :: vs)) (wm_buffer (wc_req c));
            let '(c', reply) := send_local (f buf) c in Some (c', valid_of reply)) = Some (c', ok) ∧
    sent_one c c' t hart tag addr size bytes.
Proof.
  intros Hs Hf. destruct (fill_buffer_Some size (convert_to_byte_array (v :: vs)) _ Hbuf) as [buf Eb].
  rewrite Eb. cbn [mbind option_bind].
  assert (holds t (f buf)) as Hh.
  { destruct (Hf buf) as (B1 & B2 & B3 & B4 & B5 & B6). split_and!; try done.
    - by apply (buffer_carries _ buf).
    - rewrite B1. eapply length_fill_buffer; [|done]. lia. }
  apply send_local_one in Hh. destruct (send_local (f buf) c) as [c' reply]. eauto.
Qed.

Lemma vec_read_sent :
  ∃ c' ok, whisperMcmVecRead hart time tag addr size (v :: vs) elemIx field cache c = Some (c', ok) ∧
    sent_one c c' McmRead hart tag addr size bytes.
Proof.
  unfold whisperMcmVecRead. destruct (Z.leb_spec size 8) as [Hs|Hs].
  - unfold whisperMcmRead, call. eexists _, _. split; [reflexivity|].
    apply send_one. split_and!; try done. by apply scalar_carries.
  - apply (buffered_one McmRead (λ buf, _ <| wm_buffer := buf |>)); [done|]. intros buf. by split_and!.
Qed.

Lemma vec_insert_sent :
  ∃ c' ok, whisperMcmVecInsert hart time tag addr size (v :: vs) elemIx field c = Some (c', ok) ∧
    sent_one c c' McmInsert hart tag addr size bytes.
Proof.
  unfold whisperMcmVecInsert. destruct (Z.leb_spec size 8) as [Hs|Hs].
  - unfold whisperMcmInsert, call. rewrite (proj2 (Z.ltb_ge 8 size)) by lia. cbn [andb].
    eexists _, _. split; [reflexivity|]. rewrite masked_masked.
    apply send_one. split_and!; try done. by apply scalar_carries.
  - apply (buffered_one McmInsert (λ buf, _ <| wm_buffer := buf |>)); [done|]. intros buf. by split_and!.
Qed.

Lemma vec_bypass_sent :
  ∃ c' ok, whisperMcmVecBypass hart time tag addr size (v :: vs) elemIx field cache c = Some (c', ok) ∧
    sent_one c c' McmBypass hart tag addr size bytes.
Proof.
  unfold whisperMcmVecBypass. destruct (Z.leb_spec size 8) as [Hs|Hs].
  - unfold whisperMcmBypass, call. rewrite (proj2 (Z.ltb_ge 8 size)) by lia. cbn [andb].
    eexists _, _. split; [reflexivity|]. rewrite masked_masked.
    apply send_one. split_and!; try done. by apply scalar_carries.
  - apply (buffered_one McmBypass (λ buf, _ <| wm_buffer := buf |>)); [done|]. intros buf. by split_and!.
Qed.
End vec.
End client.

(** ** The hart table *)

(** What [mark_used] establishes of a list it accepts. *)
Lemma mark_used_valid n es used valid used' :
  length used = n → mark_used n es used valid = (used', true) →
  Forall (λ e, 0 ≤ e) es →
  valid = true ∧ NoDup es ∧ (∀ e, e ∈ es → e < Z.of_nat n ∧ at_b used (Z.to_nat e) = false) ∧
  length used' = n ∧ (∀ i, (i < n)%nat → at_b used' i = at_b used i || bool_decide (Z.of_nat i ∈ es)).
Proof.
  intros Hl E HF. revert used valid Hl E. induction HF as [|e es He HF IH]; intros used valid Hl E; cbn [mark_used] in E.
  - injection E as <- ->. split_and!; [done|constructor|by intros ? ?%elem_of_nil|done|].
    intros i Hi. rewrite bool_decide_eq_false_2 by apply not_elem_of_nil. by rewrite orb_false_r.
  - assert (∀ u, mark_used n es u false = (used', true) → length u = n → False) as Hbad
      by (intros u Eu Hu; by destruct (IH u false Hu Eu)).
    destruct (Z.leb_spec (Z.of_nat n) e) as [|Hlt]; [exfalso; by eapply Hbad|].
    destruct (at_b used (Z.to_nat e)) eqn:Eu; [exfalso; by eapply Hbad|].
    destruct (IH _ valid (eq_trans (length_insert _ _ _) Hl) E) as (Hv & Hnd & Hin & Hl' & Hm).
    assert (∀ i, (i < n)%nat → at_b (<[Z.to_nat e := true]> used) i = at_b used i || bool_decide (Z.of_nat i = e)) as Hset.
    { intros i Hi. unfold at_b. destruct (decide (Z.of_nat i = e)) as [Heq|Hne].
      - rewrite bool_decide_eq_true_2, orb_true_r by done. subst e. rewrite Nat2Z.id, list_lookup_insert_eq by lia. done.
      - rewrite bool_decide_eq_false_2, orb_false_r by done. rewrite list_lookup_insert_ne by lia. done. }
    split_and!; [done| | |done|].
    + apply NoDup_cons. split; [|done]. intros He'. destruct (Hin e He') as [_ Ht].
      rewrite Hset in Ht by lia. rewrite Z2Nat.id, bool_decide_eq_true_2, orb_true_r in Ht by lia. done.
    + intros e' [->|He']%elem_of_cons; [done|]. destruct (Hin e' He') as [Hlt' Ht]. split; [done|].
      assert (0 ≤ e') by (by eapply Forall_forall in HF). rewrite Hset in Ht by lia. by apply orb_false_iff in Ht as [? _].
    + intros i Hi. rewrite Hm, Hset, <- orb_assoc by done. f_equal.
      apply eq_bool_prop_intro. rewrite orb_True, !bool_decide_spec, elem_of_cons. done.
Qed.

Lemma parseHartList_nonneg s es : parseHartList s = Some es → Forall (λ e, 0 ≤ e) es.
Proof.
  unfold parseHartList. intros E%mapM_Some_1. apply Forall_forall. intros e He.
  apply list_elem_of_lookup in He as [i Hi]. destruct (Forall2_lookup_r _ _ _ _ _ E Hi) as (t & _ & Ht).
  unfold stoull_whole in Ht. destruct (stoull 10 t) as [v|] eqn:Ev; [|done]. cbn in Ht.
  destruct (all_decimal _); [|done]. injection Ht as <-. by destruct (stoull_u64 10 t v ltac:(lia) Ev).
Qed.

Definition hart_ids (n : nat) : list Z := Z.of_nat <$> seq 0 n.

(** Whatever [+hart_mhartid] says, connecting leaves a table that maps the
    harts one to one onto Whisper's harts; when the list is accepted, the
    configured harts run on the Whisper harts it names. *)
Theorem hart_table_permutes hart_mhartid num_harts n :
  let t := connect_harts hart_mhartid num_harts n [] in
  whisperHart t <$> hart_ids n ≡ₚ hart_ids n ∧
  (t ≠ [] → ∃ es, parseHartList hart_mhartid = Some es ∧ Z.of_nat (length es) = num_harts ∧
     ∀ i e, es !! i = Some e → whisperHart t (Z.of_nat i) = e).
Proof.
  assert (∀ l : list Z, whisperHart [] <$> l = l ∨ ∃ x, x ∈ l ∧ x < 0) as Hid.
  { intros l. induction l as [|x l [IH|(y & Hy & Hlt)]]; [by left| |right; exists y; split; [by right|done]].
    destruct (decide (x < 0)); [right; exists x; split; [left|done]|left].
    rewrite fmap_cons, IH. f_equal. unfold whisperHart. cbn. by rewrite (proj2 (Z.ltb_ge _ _)) by lia. }
  assert (whisperHart [] <$> hart_ids n ≡ₚ hart_ids n) as Hnil.
  { destruct (Hid (hart_ids n)) as [->|(x & Hx & Hlt)]; [done|].
    apply list_elem_of_fmap in Hx as (k & -> & _). lia. }
  cbv zeta. unfold connect_harts. destruct (bool_decide (hart_mhartid = EmptyString)); [by split|].
  destruct (parseHartList hart_mhartid) as [es|] eqn:Ep; [|by split].
  destruct (mark_used n es (replicate n false) _) as [used valid] eqn:Eu. destruct valid; [|by split].
  destruct (mark_used_valid n es _ _ used (length_replicate _ _) Eu (parseHartList_nonneg _ _ Ep))
    as (Hv & Hnd & Hin & Hl & Hm). apply Z.eqb_eq in Hv.
  set (t := es ++ (Z.of_nat <$> filter (λ i, at_b used i = false) (seq 0 n))).
  assert (t ≡ₚ hart_ids n) as Hp.
  { apply NoDup_Permutation; [apply NoDup_app; split_and!; [done| |]|apply NoDup_fmap_2; [apply _|apply NoDup_seq]|].
    - intros e He Hf. apply list_elem_of_fmap in Hf as (i & -> & Hi). apply list_elem_of_filter in Hi as [Hi Hs%elem_of_seq].
      rewrite Hm, bool_decide_eq_true_2, orb_true_r in Hi by (done || lia). done.
    - apply NoDup_fmap_2; [apply _|]. apply NoDup_filter, NoDup_seq.
    - intros e. unfold t, hart_ids. rewrite elem_of_app, !list_elem_of_fmap. split.
      + intros [He|(i & -> & Hi)].
        * pose proof (parseHartList_nonneg _ _ Ep) as Hpos. eapply Forall_forall in Hpos; [|done].
          exists (Z.to_nat e). split; [lia|]. apply elem_of_seq. destruct (Hin e He). lia.
        * apply list_elem_of_filter in Hi as [_ Hi]. eauto.
      + intros (i & -> & Hi). destruct (decide (Z.of_nat i ∈ es)); [by left|right]. exists i. split; [done|].
        apply list_elem_of_filter. split; [|done]. apply elem_of_seq in Hi. rewrite Hm by lia.
        rewrite bool_decide_eq_false_2, orb_false_r by done. apply at_b_replicate. lia. }
  assert (length t = n) as Hlt by (rewrite Hp; unfold hart_ids; by rewrite length_fmap, length_seq).
  assert (∀ i x, t !! i = Some x → whisperHart t (Z.of_nat i) = x) as Hat.
  { intros i x Hx. unfold whisperHart. rewrite (proj2 (Z.ltb_lt _ _)) by (apply lookup_lt_Some in Hx; lia).
    rewrite Nat2Z.id. by apply at_z_Some. }
  split.
  - transitivity t; [|done]. apply reflexive_eq. apply list_eq. intros i. unfold hart_ids. rewrite !list_lookup_fmap.
    destruct (decide (i < n)%nat) as [Hi|Hi].
    + rewrite lookup_seq_lt by done. cbn. destruct (lookup_lt_is_Some_2 t i) as [x Hx]; [lia|]. by rewrite Hx, (Hat i x).
    + rewrite lookup_seq_ge by lia. cbn. symmetry. apply lookup_ge_None_2. lia.
  - intros _. exists es. split_and!; [done|done|]. intros i e Hi. apply Hat. unfold t.
    rewrite lookup_app_l; [done|]. by apply lookup_lt_Some in Hi.
Qed.

(** ** Examples *)

(** A server that acknowledges every request. *)
Definition sample_interact (n : nat) (m : wmsg) : nat * wmsg := (S n, m).
Definition sample_msg : wmsg := Wmsg 0 Invalid 0 0 0 0 0 0 0 (replicate 20 0) (replicate 128 0).
Definition sample_mk_flags (b : wbits) : Z := Z.b2z (wb_cache b).
Definition sample_client : client nat := Client sample_msg sample_msg (Some 0%nat) [2; 0; 1] [].

Lemma poke_batch_bytes_witness :
  ∃ ms, wc_sent (whisperPokeMemBatch sample_interact sample_mk_flags true 0 0 7 (chr "m") 0x1000
                   [1; 2; 3; 4; 5; 6; 7; 8; 9; 10] sample_client).1 = [] ++ ms ∧
    mjoin (poke_bytes <$> ms) = imap (λ k b, (u64 (0x1000 + Z.of_nat k), b)) [1; 2; 3; 4; 5; 6; 7; 8; 9; 10].
Proof.
  destruct (poke_batch_bytes sample_interact sample_mk_flags true 0 0 7 (chr "m") 0x1000
    [1; 2; 3; 4; 5; 6; 7; 8; 9; 10] sample_client) as (ms & E & B & _); [| | |done|].
  - split; [done|]. by exists 0%nat.
  - by apply bytes_ok_u8.
  - unfold is_u64. lia.
  - exists ms. split; [exact E|exact B].
Defined.

Example hart_table_example :
  (λ h, whisperHart (connect_harts "8,0" 2 10 []) h) <$> hart_ids 10 = [8; 0; 1; 2; 3; 4; 5; 6; 7; 9].
Proof. reflexivity. Qed.
