(* ===== verification/BridgeMcm.v ===== *)
(** * BridgeMcm: memory events on their way to the simulator
      (src/cosim/bridge/bridge.cpp, the memory-consistency part)

    The bridge takes the memory events of [mcmi] and calls the Whisper client:
    wide data is cut into double words, reads of the secure region or in debug
    mode first poke the simulator's memory, and after the end of the test
    nothing is forwarded.  [bridge_call] joins the three components: it
    executes a call of [mcmi] on the bridge and the client. *)

From S2P Require Import Prelude Bytes McmiSplit Mcmi WhisperClient.

Record bridge := Bridge {
  br_end_mcm : bool;
  br_terminated : bool;
  br_debug_mode : bool;
  br_read_by_tag : gmap Z (Z * Z);
  br_orders : gmap Z Z;
  br_errors : nat                     (* error(...) calls *)
}.
#[export] Instance eta_bridge : Eta bridge := λ b,
  Bridge (br_end_mcm b) (br_terminated b) (br_debug_mode b) (br_read_by_tag b) (br_orders b) (br_errors b).

Record bridge_flags := Bridge_flags {
  bf_cosim_period : Z;
  bf_whisper_client_check : bool;
  bf_mcm : bool;
  bf_tohost : Z;
  bf_sep_base : Z;
  bf_sep_end : Z
}.

(** [create_dword_vec] *)
Definition create_dword_vec (input : Z) : list Z :=
  (λ i : nat, or_bits (λ j, (Z.of_nat i * 64 + j <? 256) && Z.testbit input (Z.of_nat i * 64 + j)) 64) <$>
    seq 0 (Z.to_nat ((256 + 63) / 64)).

Section bridge.
Context {St : Type}.
Variable interact : St → wmsg → St * wmsg.
Variable mk_flags : wbits → Z.
Variable msg0 : wmsg.
Variables (FLAGS_cosim : bool) (FLAGS_pa_mask : Z).
Variable fl : bridge_flags.
(** Hart number of this bridge, and the time of the last step. *)
Variables (id_ pw_time : Z).

#[local] Notation sys := (bridge * client St)%type.

(** [error(...)] if the answer is not valid and checking is on. *)
Definition check_valid (valid : bool) (b : bridge) : bridge :=
  if negb valid && bf_whisper_client_check fl then b <| br_errors ::= S |> else b.

Definition note_order (tag : Z) (b : bridge) : bridge :=
  if 0 <? bf_cosim_period fl then b <| br_orders ::= emplace tag 1 |> else b.

Definition poke_mem (hart cycle addr size data : Z) (x : sys) : sys :=
  let '(b, c) := x in
  let '(c, valid) := whisperPokeMem interact mk_flags FLAGS_cosim FLAGS_pa_mask
                       hart cycle (Z.of_nat 109) addr size data false false c in
  (check_valid valid b, c).

Definition issue_whisper_mcm_read (hart : Z) (m : mem_t) (cache : bool) (x : sys) : option sys :=
  let '(b, c) := x in
  if m_v_ext m || (m_amo m && (8 <? m_size m)) then
    '(c, valid) ← whisperMcmVecRead interact mk_flags msg0 FLAGS_cosim FLAGS_pa_mask hart (m_cycle m) (m_tag m)
       (m_pa m) (m_size m) (create_dword_vec (m_data_vec m)) (m_elem_idx m) (m_field m) cache c;
    Some (check_valid valid b, c)
  else
    let '(c, valid) := whisperMcmRead interact mk_flags FLAGS_cosim FLAGS_pa_mask hart (m_cycle m) (m_tag m)
       (m_pa m) (m_size m) (m_data m) (m_elem_idx m) (m_field m) cache c in
    Some (check_valid valid b, c).

(** The pokes that precede a read in debug mode or of the secure region. *)
Definition poke_read (hart : Z) (m : mem_t) (x : sys) : sys :=
  if m_v_ext m then
    let chunks := create_dword_vec (m_data_vec m) in
    foldl (λ x i,
      let chunk_size := u8 (Z.min 8 (m_size m - Z.of_nat i * 8)) in
      if 0 <? chunk_size
      then poke_mem hart (m_cycle m) (u64 (m_pa m + Z.of_nat i * 8)) chunk_size (at_z chunks i) x else x)
      x (seq 0 (Z.to_nat (Z.min ((m_size m + 7) / 8) (Z.of_nat (length chunks)))))
  else poke_mem hart (m_cycle m) (m_pa m) (m_size m) (m_data m) x.

Definition pokes_read (m : mem_t) (b : bridge) : bool :=
  br_debug_mode b || ((bf_sep_base fl <=? m_pa m) && (u64 (m_pa m + m_size m) <? bf_sep_end fl)).

Definition process_dut_mcm_read (hart : Z) (m : mem_t) (cache : bool) (x : sys) : option sys :=
  let '(b, c) := x in
  if br_end_mcm b then Some x
  else
    let b := if negb (m_tag m =? 0) then b <| br_read_by_tag ::= <[m_tag m := (m_pa m, m_size m)]> |> else b in
    let b := note_order (m_tag m) b in
    let x := if pokes_read m b then poke_read hart m (b, c) else (b, c) in
    issue_whisper_mcm_read hart m cache x.

Definition process_dut_mcm_insert (hart : Z) (m : mem_t) (x : sys) : option sys :=
  let '(b, c) := x in
  if br_end_mcm b then Some x
  else
    let b := note_order (m_tag m) b in
    '(c, valid) ←
      (if m_v_ext m then
         whisperMcmVecInsert interact msg0 FLAGS_cosim FLAGS_pa_mask hart (m_cycle m) (m_tag m) (m_pa m) (m_size m)
           (create_dword_vec (m_data_vec m)) (m_elem_idx m) (m_field m) c
       else
         whisperMcmInsert interact FLAGS_cosim FLAGS_pa_mask hart (m_cycle m) (m_tag m) (m_pa m) (m_size m)
           (m_data m) (m_elem_idx m) (m_field m) c);
    Some (check_valid valid b, c).

Definition process_dut_mcm_bypass (hart : Z) (m : mem_t) (cache : bool) (x : sys) : option sys :=
  let '(b, c) := x in
  if br_end_mcm b then Some x
  else
    let b := note_order (m_tag m) b in
    '(c, valid) ←
      (if m_v_ext m || (m_amo m && (8 <? m_size m)) then
         whisperMcmVecBypass interact mk_flags msg0 FLAGS_cosim FLAGS_pa_mask hart (m_cycle m) (m_tag m) (m_pa m)
           (m_size m) (create_dword_vec (m_data_vec m)) (m_elem_idx m) (m_field m) cache c
       else
         whisperMcmBypass interact mk_flags FLAGS_cosim FLAGS_pa_mask hart (m_cycle m) (m_tag m) (m_pa m) (m_size m)
           (m_data m) (m_elem_idx m) (m_field m) cache c);
    if negb valid && bf_whisper_client_check fl then Some (b <| br_errors ::= S |>, c)
    else if (m_pa m =? bf_tohost fl) && (m_data m =? 1) then Some (b <| br_end_mcm := true |>, c)
    else Some (b, c).

Definition process_dut_mcm_write (hart : Z) (m : mem_cl_t) (x : sys) : sys :=
  let '(b, c) := x in
  if br_end_mcm b then x
  else
    let '(c, valid, error) := whisperMcmWrite interact FLAGS_cosim FLAGS_pa_mask hart (cl_cycle m) (cl_pa m) 64
       (le_bytes 64 (cl_data m)) (cl_mask m) (cl_error m) c in
    let b := if error then b <| br_errors ::= S |> else b in
    (check_valid valid b, c).

(** An invalid answer to a fetch is not an error, to an evict it is. *)
Definition process_dut_mcm_ifetch (hart : Z) (m : mem_t) (x : sys) : sys :=
  let '(b, c) := x in
  if br_end_mcm b then x
  else let '(c, _) := whisperMcmIFetch interact FLAGS_cosim hart (m_cycle m) (m_pa m) c in (b, c).

Definition process_dut_mcm_ievict (hart : Z) (m : mem_t) (x : sys) : sys :=
  let '(b, c) := x in
  if br_end_mcm b then x
  else
    let '(c, valid) := whisperMcmIEvict interact FLAGS_cosim hart (m_cycle m) (m_pa m) c in
    (check_valid valid b, c).

Definition skip_mcm_read_data_check_for_fault (tag addr size : Z) (x : sys) : sys :=
  let '(b, c) := x in
  if negb (bf_mcm fl) then x
  else
    let '(addr, size) := match br_read_by_tag b !! tag with Some p => p | None => (addr, size) end in
    if (addr =? 0) || (size =? 0) then x
    else (b, whisperMcmSkipReadDataCheck interact FLAGS_cosim addr size true c).

(** [process(terminate_called_mem_checks)] *)
Definition process_terminate (x : sys) : sys :=
  let '(b, c) := x in
  if br_terminated b then x
  else
    let b := b <| br_terminated := true |> in
    if bf_mcm fl then
      let b := b <| br_end_mcm := true |> in
      let '(c, valid) := whisperMcmEnd interact FLAGS_cosim id_ pw_time c in
      (if valid then b else b <| br_errors ::= S |>, c)
    else (b, c).

(** A call of [mcmi], executed.  Errors are those [mcmi] logs itself. *)
Definition whisper_exec (w : whisper_call) (c : client St) : client St :=
  match w with
  | WDecode h t o a n => (whisperMcmDecode interact FLAGS_cosim h t o a n c).1
  | WDevict h t a => (whisperMcmDEvict interact FLAGS_cosim FLAGS_pa_mask h t a c).1
  | WDwriteback h t a => (whisperMcmDWriteback interact FLAGS_cosim FLAGS_pa_mask h t a c).1
  | WDfetch h t a => (whisperMcmDFetch interact FLAGS_cosim FLAGS_pa_mask h t a c).1
  end.

Definition bridge_call (call : mcm_call) (x : sys) : option sys :=
  match call with
  | CRead h m cache => process_dut_mcm_read h m cache x
  | CInsert h m => process_dut_mcm_insert h m x
  | CBypass h m cache => process_dut_mcm_bypass h m cache x
  | CWrite h m => Some (process_dut_mcm_write h m x)
  | CIfetch h m => Some (process_dut_mcm_ifetch h m x)
  | CIevict h m => Some (process_dut_mcm_ievict h m x)
  | CEnterPatch => Some x
  | CWhisper w => Some (x.1, whisper_exec w x.2)
  | CError => Some (x.1 <| br_errors ::= S |>, x.2)
  end.

Fixpoint bridge_calls (calls : list mcm_call) (x : sys) : option sys :=
  match calls with
  | [] => Some x
  | call :: calls => x ← bridge_call call x; bridge_calls calls x
  end.

(** ** Double words *)

Lemma create_dword_vec_eq d :
  create_dword_vec d = (λ i : nat, (d / 2 ^ (Z.of_nat i * 64)) mod 2 ^ 64) <$> seq 0 4.
Proof.
  unfold create_dword_vec. change (Z.to_nat ((256 + 63) / 64)) with 4%nat.
  apply list_fmap_ext. intros k i Hi. apply lookup_seq in Hi.
  change (2 ^ 64) with (2 ^ Z.of_nat 64). rewrite <- or_bits_slice by lia.
  apply Z.bits_inj'. intros j Hj. rewrite !or_bits_testbit by lia.
  destruct (Z.ltb_spec j (Z.of_nat 64)); [|done]. by rewrite (proj2 (Z.ltb_lt _ 256)) by lia.
Qed.

Lemma le_bytes_shift n k d : le_bytes n ((d / 2 ^ (8 * Z.of_nat k)) mod 2 ^ (8 * Z.of_nat n)) =
  le_bytes n (d ≫ (8 * Z.of_nat k)).
Proof. rewrite <- le_bytes_mod, Z.shiftr_div_pow2 by lia. done. Qed.

Lemma create_dword_vec_bytes d : reg_bytes (create_dword_vec d) = le_bytes 32 d.
Proof.
  rewrite create_dword_vec_eq. cbn [seq fmap list_fmap]. unfold reg_bytes. cbn [fmap list_fmap mjoin list_join].
  rewrite app_nil_r. rewrite (le_bytes_app 8 24), (le_bytes_app 8 16), (le_bytes_app 8 8).
  rewrite !Z.shiftr_shiftr by lia.
  f_equal; [exact (le_bytes_shift 8 0 d)|]. f_equal; [exact (le_bytes_shift 8 8 d)|].
  f_equal; [exact (le_bytes_shift 8 16 d)|exact (le_bytes_shift 8 24 d)].
Qed.

Lemma create_dword_vec_cons d : ∃ v vs, create_dword_vec d = v :: vs ∧ length vs = 3%nat.
Proof. unfold create_dword_vec. eexists _, _. split; [reflexivity|reflexivity]. Qed.

Lemma take_le_bytes n m d : (n ≤ m)%nat → take n (le_bytes m d) = le_bytes n d.
Proof.
  intros. replace m with (n + (m - n))%nat by lia. rewrite le_bytes_app.
  rewrite take_app_le by (by rewrite length_le_bytes). by rewrite take_ge by (by rewrite length_le_bytes).
Qed.

(** ** Vector accesses reach the simulator *)

(** A bridge that forwards, without preliminary pokes, to a connected client. *)
Definition forwarding (x : sys) : Prop :=
  br_end_mcm x.1 = false ∧ br_debug_mode x.1 = false ∧ bf_sep_end fl = 0 ∧
  online FLAGS_cosim x.2 ∧ (32 ≤ length (wm_buffer (wc_req x.2)))%nat.

Definition msg_bytes (m : wmsg) : list (Z * Z) :=
  imap (λ k b, (u64 (wm_address m + Z.of_nat k), b)) (mcm_bytes m).

(** One message of type [t] was sent for the access [m], and the bridge still
    forwards. *)
Definition forwarded (t : wtype) (hart : Z) (m : mem_t) (x x' : sys) : Prop :=
  forwarding x' ∧ wc_harts x'.2 = wc_harts x.2 ∧
  ∃ w, wc_sent x'.2 = wc_sent x.2 ++ [w] ∧ wm_type w = t ∧ wm_hart w = whisperHart (wc_harts x.2) hart ∧
    wm_instrTag w = m_tag m ∧
    msg_bytes w = imap (λ k b, (u64 (m_pa m + Z.of_nat k), b)) (le_bytes (Z.to_nat (m_size m)) (m_data_vec m)).

Lemma sent_forwarded t hart m b c b' c' v vs :
  FLAGS_pa_mask = 0 → is_u64 (m_pa m) → 0 < m_size m ≤ 32 →
  create_dword_vec (m_data_vec m) = v :: vs →
  forwarding (b, c) → br_end_mcm b' = false → br_debug_mode b' = false →
  sent_one FLAGS_cosim FLAGS_pa_mask c c' t hart (m_tag m) (m_pa m) (m_size m)
    (take (Z.to_nat (m_size m)) (reg_bytes (v :: vs))) →
  forwarded t hart m (b, c) (b', c').
Proof.
  intros Hpa Hu Hs Ev (F1 & F2 & F3 & F4 & F5) G1 G2 ((w & E1 & W1 & W2 & W3 & W4 & W5 & W6) & H2 & H3 & H4).
  cbn [fst snd] in *. split; [split_and!; cbn [fst snd]; try done; by rewrite H4|]. split; [done|]. exists w. cbn [snd].
  split_and!; try done. unfold msg_bytes. rewrite W4, W6, masked_0, <- Ev, create_dword_vec_bytes by done.
  rewrite take_le_bytes by lia. done.
Qed.

Lemma check_valid_fields valid b :
  br_end_mcm (check_valid valid b) = br_end_mcm b ∧ br_debug_mode (check_valid valid b) = br_debug_mode b.
Proof. unfold check_valid. by destruct (_ && _). Qed.

Lemma note_order_fields tag b :
  br_end_mcm (note_order tag b) = br_end_mcm b ∧ br_debug_mode (note_order tag b) = br_debug_mode b.
Proof. unfold note_order. by destruct (_ <? _). Qed.

Lemma read_forwarded hart m cache x :
  FLAGS_pa_mask = 0 → mem_ok true (m_tag m) m → forwarding x →
  ∃ x', process_dut_mcm_read hart m cache x = Some x' ∧ forwarded McmRead hart m x x'.
Proof.
  intros Hpa (Hv & _ & Hu & Hs) Hf. destruct x as [b c]. pose proof Hf as (F1 & F2 & F3 & F4 & F5). cbn [fst snd] in *.
  unfold process_dut_mcm_read. rewrite F1.
  set (b1 := note_order _ _).
  assert (br_end_mcm b1 = false ∧ br_debug_mode b1 = false) as [G1 G2].
  { subst b1. rewrite !(proj1 (note_order_fields _ _)), (proj2 (note_order_fields _ _)). by destruct (negb _). }
  clearbody b1. unfold pokes_read. rewrite G2, F3. cbn [orb].
  rewrite (proj2 (Z.ltb_ge _ 0)) by apply u64_range. rewrite andb_false_r.
  unfold issue_whisper_mcm_read. rewrite Hv. cbn [orb].
  destruct (create_dword_vec_cons (m_data_vec m)) as (v & vs & Ev & Hlen). rewrite Ev.
  destruct (vec_read_sent interact mk_flags msg0 FLAGS_cosim FLAGS_pa_mask hart (m_cycle m) (m_tag m) (m_pa m) (m_size m)
    v (m_elem_idx m) (m_field m) vs cache c F4) as (c' & ok & E & HS); [cbn [length]; lia|lia|].
  rewrite E. cbn [mbind option_bind]. eexists. split; [done|].
  eapply sent_forwarded; try done; by rewrite ?(proj1 (check_valid_fields _ _)), ?(proj2 (check_valid_fields _ _)).
Qed.

Lemma insert_forwarded hart m x :
  FLAGS_pa_mask = 0 → mem_ok true (m_tag m) m → forwarding x →
  ∃ x', process_dut_mcm_insert hart m x = Some x' ∧ forwarded McmInsert hart m x x'.
Proof.
  intros Hpa (Hv & _ & Hu & Hs) Hf. destruct x as [b c]. pose proof Hf as (F1 & F2 & F3 & F4 & F5). cbn [fst snd] in *.
  unfold process_dut_mcm_insert. rewrite F1, Hv.
  destruct (create_dword_vec_cons (m_data_vec m)) as (v & vs & Ev & Hlen). rewrite Ev.
  destruct (vec_insert_sent interact msg0 FLAGS_cosim FLAGS_pa_mask hart (m_cycle m) (m_tag m) (m_pa m) (m_size m)
    v (m_elem_idx m) (m_field m) vs c F4) as (c' & ok & E & HS); [cbn [length]; lia|lia|].
  rewrite E. cbn [mbind option_bind]. eexists. split; [done|].
  eapply sent_forwarded; try done;
    by rewrite ?(proj1 (check_valid_fields _ _)), ?(proj2 (check_valid_fields _ _)),
      ?(proj1 (note_order_fields _ _)), ?(proj2 (note_order_fields _ _)).
Qed.

Lemma bypass_forwarded hart m cache x :
  FLAGS_pa_mask = 0 → mem_ok true (m_tag m) m → forwarding x → m_pa m ≠ bf_tohost fl →
  ∃ x', process_dut_mcm_bypass hart m cache x = Some x' ∧ forwarded McmBypass hart m x x'.
Proof.
  intros Hpa (Hv & _ & Hu & Hs) Hf Hto. destruct x as [b c]. pose proof Hf as (F1 & F2 & F3 & F4 & F5). cbn [fst snd] in *.
  unfold process_dut_mcm_bypass. rewrite F1, Hv. cbn [orb].
  destruct (create_dword_vec_cons (m_data_vec m)) as (v & vs & Ev & Hlen). rewrite Ev.
  destruct (vec_bypass_sent interact mk_flags msg0 FLAGS_cosim FLAGS_pa_mask hart (m_cycle m) (m_tag m) (m_pa m) (m_size m)
    v (m_elem_idx m) (m_field m) vs cache c F4) as (c' & ok & E & HS); [cbn [length]; lia|lia|].
  rewrite E. cbn [mbind option_bind]. rewrite (proj2 (Z.eqb_neq _ _) Hto). cbn [andb].
  set (b' := note_order (m_tag m) b).
  assert (br_end_mcm b' = false ∧ br_debug_mode b' = false) as [G1 G2]
    by (subst b'; by rewrite (proj1 (note_order_fields _ _)), (proj2 (note_order_fields _ _))).
  destruct (negb ok && _); (eexists; split; [done|]); by eapply sent_forwarded.
Qed.

(** The calls of one access, one after the other. *)
Lemma calls_forwarded (t : wtype) (hart tag : Z) (cs : list mcm_call) :
  (∀ c x, c ∈ cs → forwarding x → ∃ x' m, bridge_call c x = Some x' ∧ forwarded t hart m x x' ∧ m_tag m = tag ∧
     call_bytes c = imap (λ k b, (u64 (m_pa m + Z.of_nat k), b)) (le_bytes (Z.to_nat (m_size m)) (m_data_vec m))) →
  ∀ x, forwarding x →
  ∃ x' ws, bridge_calls cs x = Some x' ∧ forwarding x' ∧ wc_harts x'.2 = wc_harts x.2 ∧
    wc_sent x'.2 = wc_sent x.2 ++ ws ∧ mjoin (msg_bytes <$> ws) = mjoin (call_bytes <$> cs) ∧
    Forall (λ w, wm_type w = t ∧ wm_hart w = whisperHart (wc_harts x.2) hart ∧ wm_instrTag w = tag) ws.
Proof.
  induction cs as [|c cs IH]; intros Hc x Hx.
  { exists x, []. by rewrite app_nil_r. }
  destruct (Hc c x) as (y & m & E & (Hy & Hh & w & W1 & W2 & W3 & W4 & W5) & Ht & Hb); [left|done|].
  destruct (IH (λ d z Hd, Hc d z (list_elem_of_further _ _ _ Hd)) y Hy) as (x' & ws & E' & Hx' & Hh' & S & B & F).
  exists x', (w :: ws). cbn [bridge_calls]. rewrite E. cbn [mbind option_bind]. split_and!; [done|done|congruence|..].
  - by rewrite S, W1, <- app_assoc.
  - change (msg_bytes w ++ mjoin (msg_bytes <$> ws) = call_bytes c ++ mjoin (call_bytes <$> cs)).
    by rewrite B, W5, Hb.
  - constructor; [split_and!; congruence|]. by rewrite <- Hh.
Qed.

Lemma read_calls hart tag cs cache :
  FLAGS_pa_mask = 0 → Forall (λ c, ∃ m, c = CRead hart m cache ∧ mem_ok true tag m) cs →
  ∀ x, forwarding x → ∃ x' ws, bridge_calls cs x = Some x' ∧ forwarding x' ∧ wc_harts x'.2 = wc_harts x.2 ∧
    wc_sent x'.2 = wc_sent x.2 ++ ws ∧ mjoin (msg_bytes <$> ws) = mjoin (call_bytes <$> cs) ∧
    Forall (λ w, wm_type w = McmRead ∧ wm_hart w = whisperHart (wc_harts x.2) hart ∧ wm_instrTag w = tag) ws.
Proof.
  intros Hpa Hcs. apply calls_forwarded. intros c x Hc Hx. rewrite Forall_forall in Hcs.
  destruct (Hcs c Hc) as (m & -> & Hm). pose proof Hm as (_ & Ht & _). rewrite <- Ht in Hm.
  destruct (read_forwarded hart m cache x Hpa Hm Hx) as (x' & E & F). by exists x', m.
Qed.

Lemma insert_calls hart tag cs :
  FLAGS_pa_mask = 0 → Forall (λ c, ∃ m, c = CInsert hart m ∧ mem_ok true tag m) cs →
  ∀ x, forwarding x → ∃ x' ws, bridge_calls cs x = Some x' ∧ forwarding x' ∧ wc_harts x'.2 = wc_harts x.2 ∧
    wc_sent x'.2 = wc_sent x.2 ++ ws ∧ mjoin (msg_bytes <$> ws) = mjoin (call_bytes <$> cs) ∧
    Forall (λ w, wm_type w = McmInsert ∧ wm_hart w = whisperHart (wc_harts x.2) hart ∧ wm_instrTag w = tag) ws.
Proof.
  intros Hpa Hcs. apply calls_forwarded. intros c x Hc Hx. rewrite Forall_forall in Hcs.
  destruct (Hcs c Hc) as (m & -> & Hm). pose proof Hm as (_ & Ht & _). rewrite <- Ht in Hm.
  destruct (insert_forwarded hart m x Hpa Hm Hx) as (x' & E & F). by exists x', m.
Qed.

(** The address of an access is that of its first byte. *)
Lemma call_bytes_pa c m v_ext tag :
  mem_ok v_ext tag m →
  call_bytes c = imap (λ k b, (u64 (m_pa m + Z.of_nat k), b)) (le_bytes (Z.to_nat (m_size m)) (m_data_vec m)) →
  m_pa m ∈ (call_bytes c).*1.
Proof.
  intros (_ & _ & Hu & Hs) ->. apply list_elem_of_fmap. eexists (m_pa m, _).
  split; [done|]. apply list_elem_of_lookup. exists 0%nat. rewrite list_lookup_imap, le_bytes_lookup by lia.
  cbn [fmap option_fmap option_map]. by rewrite Z.add_0_r, u64_small.
Qed.

Lemma bypass_calls hart tag cs :
  FLAGS_pa_mask = 0 → Forall (λ c, ∃ m cache, c = CBypass hart m cache ∧ mem_ok true tag m) cs →
  bf_tohost fl ∉ (mjoin (call_bytes <$> cs)).*1 →
  ∀ x, forwarding x → ∃ x' ws, bridge_calls cs x = Some x' ∧ forwarding x' ∧ wc_harts x'.2 = wc_harts x.2 ∧
    wc_sent x'.2 = wc_sent x.2 ++ ws ∧ mjoin (msg_bytes <$> ws) = mjoin (call_bytes <$> cs) ∧
    Forall (λ w, wm_type w = McmBypass ∧ wm_hart w = whisperHart (wc_harts x.2) hart ∧ wm_instrTag w = tag) ws.
Proof.
  intros Hpa Hcs Hto. apply calls_forwarded. intros c x Hc Hx. rewrite Forall_forall in Hcs.
  destruct (Hcs c Hc) as (m & cache & -> & Hm). pose proof Hm as (_ & Ht & _). rewrite <- Ht in Hm.
  destruct (bypass_forwarded hart m cache x Hpa Hm Hx) as (x' & E & F); [|by exists x', m].
  intros Heq. apply Hto. rewrite <- Heq.
  pose proof (call_bytes_pa (CBypass hart m cache) m _ _ Hm eq_refl) as Hin.
  apply list_elem_of_fmap in Hin as (p & Hp & Hin). apply list_elem_of_fmap. exists p. split; [done|].
  apply list_elem_of_join. exists (call_bytes (CBypass hart m cache)). split; [done|]. by apply list_elem_of_fmap_2.
Qed.

(** A vector load, store insert or store bypass: the message it becomes, its
    hart, instruction tag, address, byte mask and data.  Atomics and broadcast
    loads are not among them. *)
Record vector_access := Vector_access {
  va_type : wtype; va_hart : Z; va_order : Z; va_addr : Z; va_mask : Z; va_data : Z
}.
Definition as_vector_access (msg : mcmi_msg) : option vector_access :=
  match msg with
  | MsgRead r =>
      if rd_v_ext r && negb (rd_amo r) && negb (rd_splat r) && negb (rd_elem_size r =? 0)
      then Some (Vector_access McmRead (rd_hart r) (rd_order r) (rd_addr r) (rd_mask r) (rd_data_vec r)) else None
  | MsgInsert i =>
      if in_v_ext i
      then Some (Vector_access McmInsert (in_hart i) (in_order i) (in_addr i) (in_mask i) (in_data_vec i)) else None
  | MsgBypass b =>
      if by_v_ext b && negb (by_amo b)
      then Some (Vector_access McmBypass (by_hart b) (by_order b) (by_addr b) (by_mask b) (by_data_vec b)) else None
  | _ => None
  end.

(** C10: a vector load, store insert or store bypass observed on the device
    under test in mission mode (outside the patch routine's memory, byte mask
    relative to its address, not a store to tohost, no address masking) goes
    through [Mcmi::process], the bridge and the Whisper client and arrives in
    the simulator as messages of the right type for the right simulator hart,
    tagged with the instruction's (renamed) tag, which together carry exactly
    the bytes the mask enables, each once at its address, in address order;
    nothing is dropped and nothing else is sent. *)
Theorem mcm_reaches_whisper mfl ov loc_ raw raw_cl bm_mask reply axi_errors ncio_errors s msg a x :
  as_vector_access msg = Some a → mission s → mask_ok (va_mask a) → is_u64 (va_addr a) →
  patch_access (va_addr a) s = false → FLAGS_pa_mask = 0 →
  bf_tohost fl ∉ (masked_bytes (va_addr a) (va_mask a) (va_data a)).*1 → forwarding x →
  ∃ cs x' ws, process mfl ov loc_ raw raw_cl bm_mask reply axi_errors ncio_errors msg s = Some (s, cs) ∧
    bridge_calls cs x = Some x' ∧ wc_sent x'.2 = wc_sent x.2 ++ ws ∧
    mjoin (msg_bytes <$> ws) = masked_bytes (va_addr a) (va_mask a) (va_data a) ∧
    Forall (λ w, wm_type w = va_type a ∧ wm_hart w = whisperHart (wc_harts x.2) (va_hart a) ∧
                 wm_instrTag w = remap_patch_tag mfl (va_order a) s) ws.
Proof.
  intros Ha Hs Hm Hu Hp Hpa Hto Hx. destruct msg as [| | |r|i|b| | | | | | | | | | | |]; try done; cbn [as_vector_access] in Ha.
  - destruct (rd_v_ext r) eqn:Hv, (rd_amo r) eqn:Hamo, (rd_splat r) eqn:Hspl, (Z.eqb_spec (rd_elem_size r) 0) as [|He];
      cbn [andb negb] in Ha; try done. injection Ha as <-. cbn [va_type va_hart va_order va_addr va_mask va_data] in *.
    destruct (read_bytes mfl ov loc_ raw raw_cl bm_mask reply axi_errors ncio_errors s r Hs) as (cs & E & B & F);
      [by split_and!|done|done|]. rewrite Hv in F.
    destruct (read_calls _ _ _ _ Hpa F x Hx) as (x' & ws & Ec & _ & _ & Es & Eb & Ef).
    exists cs, x', ws. rewrite <- B. by split_and!.
  - destruct (in_v_ext i) eqn:Hv; [|done]. injection Ha as <-. cbn [va_type va_hart va_order va_addr va_mask va_data] in *.
    destruct (insert_bytes mfl ov loc_ raw raw_cl bm_mask reply axi_errors ncio_errors s i Hs) as (cs & E & B & F);
      [done|done|done|]. rewrite Hv in F.
    destruct (insert_calls _ _ _ Hpa F x Hx) as (x' & ws & Ec & _ & _ & Es & Eb & Ef).
    exists cs, x', ws. rewrite <- B. by split_and!.
  - destruct (by_v_ext b) eqn:Hv, (by_amo b) eqn:Hamo; cbn [andb negb] in Ha; try done. injection Ha as <-.
    cbn [va_type va_hart va_order va_addr va_mask va_data] in *.
    destruct (bypass_bytes mfl ov loc_ raw raw_cl bm_mask reply axi_errors ncio_errors s b Hs) as (cs & E & B & F);
      [done..|]. rewrite Hv in F. rewrite <- B in Hto |- *.
    destruct (bypass_calls _ _ _ Hpa F Hto x Hx) as (x' & ws & Ec & _ & _ & Es & Eb & Ef).
    by exists cs, x', ws.
Qed.
End bridge.

Definition sample_bridge : bridge := Bridge false false false ∅ ∅ 0.
Definition sample_bridge_flags : bridge_flags := Bridge_flags 0 true true 0x1000 0 0.

(** The vector load of the bytes 0, 1 and 4 at 0x8000: two messages for
    simulator hart 2. *)
Lemma mcm_reaches_whisper_witness :
  ∃ cs x' ws,
    process sample_flags sample_overrides 0 sample_raw sample_raw_cl sample_mask sample_reply no_errors no_errors
      (MsgRead sample_read) running = Some (running, cs) ∧
    bridge_calls sample_interact sample_mk_flags sample_msg true 0 sample_bridge_flags cs (sample_bridge, sample_client) = Some x' ∧
    wc_sent x'.2 = [] ++ ws ∧ mjoin (msg_bytes <$> ws) = [(0x8000, 0xff); (0x8001, 0xee); (0x8004, 0xbb)] ∧
    Forall (λ w, wm_type w = McmRead ∧ wm_hart w = 2 ∧ wm_instrTag w = 7) ws.
Proof.
  apply (mcm_reaches_whisper sample_interact sample_mk_flags sample_msg true 0 sample_bridge_flags
    sample_flags sample_overrides 0 sample_raw sample_raw_cl sample_mask sample_reply no_errors no_errors
    running (MsgRead sample_read) (Vector_access McmRead 0 7 0x8000 0x13 0xaabbccddeeff) (sample_bridge, sample_client)).
  - done.
  - done.
  - done.
  - cbn. unfold is_u64. lia.
  - done.
  - done.
  - vm_compute. intros Hin. set_unfold in Hin. lia.
  - split_and!; [done..|split; [done|by exists 0%nat]|cbn; lia].
Defined.
