(* ===== verification/BridgeIntr.v ===== *)
(** * BridgeIntr: interrupts in the co-simulation bridge
      (src/cosim/bridge/bridge.cpp, interrupt and NMI part)

    The design and the reference simulator do not take an interrupt at the same
    instruction by themselves.  The bridge pokes every change of the interrupt
    state into the simulator at once, but _defers_ what the simulator would
    then take; when the design reports a trap the deferral is lifted, for that
    step only for what the design could have seen.

    The simulator is behind the class [Iss], whose instance [whisper_iss] is the
    Whisper client; [IssLaws] is what the bridge relies on.  Calls of the client
    always return true, so the branches for a failed call are not modelled; an
    invalid answer is.  Interrupt numbers are below 64, as the registers are
    64 bits wide.  Interrupt numbers of the project and register addresses come
    from generated headers and are parameters. *)

From Stdlib Require Import Ascii.
From S2P Require Import Prelude Bytes CosimUtil WhisperClient.
#[local] Open Scope Z_scope.

(** ** The simulator *)

(** Arguments: hart, then for a peek resource and address; for a poke time,
    resource, address and value; for memory time, address, size and value. *)
Class Iss (I : Type) := {
  iss_peek : Z → Z → Z → I → I * Z * bool;
  iss_poke : Z → Z → Z → Z → Z → I → I * bool;
  iss_poke_mem : Z → Z → Z → Z → Z → I → I * bool;
  iss_check : Z → I → I * (bool * Z * bool);
  iss_seipin : Z → I → I * Z;
  iss_nmi : Z → Z → Z → I → I;
  iss_clear_nmi_cause : Z → Z → Z → I → I
}.

(** ** Data *)

Definition SSI : Z := 1.
Definition STI : Z := 5.
Definition VSTI : Z := 6.
Definition MTI : Z := 7.
Definition SEI : Z := 9.
Definition VSEI : Z := 10.
Definition MEI : Z := 11.
Definition SGEI : Z := 12.
Definition LCOFI : Z := 13.

Inductive patch_mode := NO_PATCH | ENTER_PATCH | IN_PATCH | EXIT_PATCH.
#[export] Instance patch_mode_eq_dec : EqDecision patch_mode.
Proof. solve_decision. Defined.

Record rv_intr_t := Rv_intr {
  ri_cycle : Z; ri_core_cycle : Z; ri_hw : bool; ri_mip : Z; ri_mip_set : Z; ri_mip_clr : Z; ri_seip : bool;
  ri_mtime : Z; ri_size : Z; ri_buserr_bit : Z; ri_timeCsr : Z; ri_during_ucode : bool; ri_stce_bit_clear : bool
}.
Record rv_nmi_t := Rv_nmi { rn_cycle : Z; rn_valid : bool; rn_cause : Z }.

(** What the interrupt handling reads of a retired instruction [d], and of
    the simulator's one [w_]. *)
Record trap_info := Trap_info {
  ti_nmi : bool; ti_ncause : Z; ti_intr : bool; ti_icause : Z; ti_virt : bool; ti_opcode : Z
}.

Record bi := Bi {
  bi_mvip : Z; bi_mip : Z; bi_dut_mip : Z; bi_hw_mip : Z; bi_e_mip : Z; bi_prev_hw_mip : Z; bi_prev_e_mip : Z;
  bi_last_step_mip : Z;
  bi_mip_changed : Z;                 (* mip_changed_since_last_step_ *)
  bi_nmip : Z; bi_tmp_prev : Z; bi_tmp_latest : Z;
  bi_whisper_mip_age : gmap Z Z; bi_whisper_mip_clr_age : gmap Z Z;
  bi_dut_mip_age : gmap Z Z; bi_dut_mip_clr_age : gmap Z Z;
  bi_deferred_intr_age : gmap Z Z; bi_nmi_age : gmap Z Z;
  bi_deferred_intr : bool;
  bi_intr_during_ucode : Z; bi_trap_restored : Z; bi_restore_at_exit : bool; bi_partially_deferred : bool;
  bi_undeferred_xret : bool; bi_nmi_undeferred_xret : bool;
  bi_poke_time_post_step : bool; bi_timer_csr : Z;
  bi_check_nmi_exit : bool; bi_check_nmi_cause : Z;
  bi_check_intr_exit : bool; bi_check_intr_cause : Z; bi_check_intr_virt : bool;
  bi_patch_mode : patch_mode; bi_debug_mode : bool;
  bi_nmi : rv_nmi_t; bi_prev_nmi : rv_nmi_t;
  bi_msi : nat;                       (* msi_.size() *)
  bi_latest_imsic : Z * Z; bi_sw_clear : gmap Z Z;
  bi_hw_mip_age : Z; bi_e_mip_age : Z;
  bi_w : trap_info;                   (* w_ *)
  bi_taken : gmap Z Z;                (* num_taken_interrupts_ *)
  bi_errors : nat
}.
#[export] Instance eta_bi : Eta bi := λ b,
  Bi (bi_mvip b) (bi_mip b) (bi_dut_mip b) (bi_hw_mip b) (bi_e_mip b) (bi_prev_hw_mip b) (bi_prev_e_mip b)
     (bi_last_step_mip b) (bi_mip_changed b) (bi_nmip b) (bi_tmp_prev b) (bi_tmp_latest b)
     (bi_whisper_mip_age b) (bi_whisper_mip_clr_age b) (bi_dut_mip_age b) (bi_dut_mip_clr_age b)
     (bi_deferred_intr_age b) (bi_nmi_age b) (bi_deferred_intr b) (bi_intr_during_ucode b) (bi_trap_restored b)
     (bi_restore_at_exit b) (bi_partially_deferred b) (bi_undeferred_xret b) (bi_nmi_undeferred_xret b)
     (bi_poke_time_post_step b) (bi_timer_csr b) (bi_check_nmi_exit b) (bi_check_nmi_cause b)
     (bi_check_intr_exit b) (bi_check_intr_cause b) (bi_check_intr_virt b) (bi_patch_mode b) (bi_debug_mode b)
     (bi_nmi b) (bi_prev_nmi b) (bi_msi b) (bi_latest_imsic b) (bi_sw_clear b) (bi_hw_mip_age b) (bi_e_mip_age b)
     (bi_w b) (bi_taken b) (bi_errors b).

Definition no_trap : trap_info := Trap_info false 0 false 0 false 0.
(** The members' initial values ([mvip_] has none). *)
Definition bi_new : bi :=
  Bi 0 0 0 0 0 0 0 0 0 0 0 0 ∅ ∅ ∅ ∅ ∅ ∅ false 0 0 false false false false false 0 false 0 false 0 false
     NO_PATCH false (Rv_nmi 0 false 0) (Rv_nmi 0 false 0) 0 (0, 0) ∅ 0 0 no_trap ∅ 0.

Record intr_flags := Intr_flags {
  if_whisper_client_check : bool; if_poke_mip_timer : bool; if_cosim_resynch : bool;
  if_intr_timeout_resynch : bool; if_max_pend_intr_age : Z
}.
(** Addresses of CSRs and special resources, and interrupt numbers, that come
    from generated headers. *)
Record intr_params := Intr_params {
  ip_mip : Z; ip_mvip : Z; ip_time : Z; ip_DeferredInterrupts : Z; ip_DeferredNmis : Z;
  ip_LO_PRI_RASI : Z; ip_HI_PRI_RASI : Z; ip_C_HWAI : Z; ip_C_ENTROPY : Z
}.

(** [m[k]++] and [m[k]] for a map of counters. *)
Definition count_up (k : Z) (m : gmap Z Z) : gmap Z Z := <[k := u32 (default 0 (m !! k) + 1)]> m.
Definition age_all (m : gmap Z Z) : gmap Z Z := (λ v, u32 (v + 1)) <$> m.
(** [m[i] = 1] for the bits of [bits]. *)
Definition mark_ages (bits : Z) (m : gmap Z Z) : gmap Z Z :=
  foldl (λ m i, if Z.testbit bits (Z.of_nat i) then <[Z.of_nat i := 1]> m else m) m (seq 0 64).

(** ** Computations on the bridge and the simulator *)

Definition M (I A : Type) : Type := bi * I → (bi * I) * A.
#[export] Instance M_ret {I} : MRet (M I) := λ A a x, (x, a).
#[export] Instance M_bind {I} : MBind (M I) := λ A B k m x, let '(x, a) := m x in k a x.

Definition get {I A} (f : bi → A) : M I A := λ x, (x, f x.1).
Definition upd {I} (f : bi → bi) : M I unit := λ x, ((f x.1, x.2), tt).
Definition iss {I A} (f : I → I * A) : M I A := λ x, let '(i, a) := f x.2 in ((x.1, i), a).
Definition iss_do {I} (f : I → I) : M I unit := λ x, ((x.1, f x.2), tt).
Definition when {I} (b : bool) (m : M I unit) : M I unit := if b then m else mret tt.
Definition error {I} : M I unit := upd (λ s, s <| bi_errors ::= S |>).

(** ** What the bridge relies on *)

(** The interrupt state of a hart of the simulator: the pending register, the
    external pin, the causes that are enabled in the current mode, those that
    are deferred, mvip, and the bits of mvip that are aliases of mip. *)
Record iss_view := Iss_view {
  v_mip : Z; v_seip : bool; v_enabled : Z; v_deferred : Z; v_mvip : Z; v_alias : Z
}.
Definition pending (v : iss_view) (k : Z) : Prop := Z.testbit (v_mip v) k = true ∨ (k = SEI ∧ v_seip v = true).
(** Taken at the next step, unless another one is. *)
Definition ready (v : iss_view) (k : Z) : Prop :=
  pending v k ∧ Z.testbit (v_enabled v) k = true ∧ Z.testbit (v_deferred v) k = false.
Definition quiet (v : iss_view) : Prop := ∀ k, ¬ ready v k.

(** From [v] to [v'] only the pending bits in [new] were raised. *)
Record raises (new : Z → Prop) (v v' : iss_view) : Prop := {
  raises_enabled : v_enabled v' = v_enabled v;
  raises_deferred : v_deferred v' = v_deferred v;
  raises_alias : v_alias v' = v_alias v;
  raises_mip k : Z.testbit (v_mip v') k = true → Z.testbit (v_mip v) k = true ∨ new k
}.

Definition external (k : Z) : Prop := k = MEI ∨ k = SEI ∨ k = VSEI ∨ k = SGEI.
(** The cause the bridge makes of an answer. *)
Definition virt_cause (cause : Z) (virt_mode : bool) : Z :=
  if ((cause =? SEI) || (cause =? STI) || (cause =? SSI)) && virt_mode then cause + 1 else cause.

Lemma virt_cause_false c : virt_cause c false = c.
Proof. unfold virt_cause. by rewrite andb_false_r. Qed.

(** [quiet_csr]: CSRs whose update can change nothing but pending bits, such
    as time and the event selectors.  A check may or may not report a deferred
    interrupt, but reports one that is ready. *)
Class IssLaws (I : Type) `{!Iss I} (ip : intr_params) (hart : Z) := {
  view : I → iss_view;
  iss_ok : I → Prop;
  quiet_csr : Z → Prop;
  writable : Z → Prop;
  law_alias i k : iss_ok i → Z.testbit (v_mvip (view i) &&& v_alias (view i)) k = true → Z.testbit (v_mip (view i)) k = true;
  law_peek i res addr : iss_ok i →
    let '(i', v, ok) := iss_peek hart res addr i in
    iss_ok i' ∧ view i' = view i ∧
    (res = chr "c"%char → addr = ip_mip ip → v = v_mip (view i)) ∧
    (res = chr "c"%char → addr = ip_mvip ip → v = v_mvip (view i)) ∧
    (res = chr "s"%char → addr = ip_DeferredInterrupts ip → v = v_deferred (view i) ∧ ok = true);
  law_seipin i : iss_ok i →
    let '(i', v) := iss_seipin hart i in iss_ok i' ∧ view i' = view i ∧ negb (v =? 0) = v_seip (view i);
  law_check i : iss_ok i →
    let '(i', (taken, cause, virt)) := iss_check hart i in
    iss_ok i' ∧ view i' = view i ∧ ((∃ k, ready (view i) k) → taken = true) ∧
    (taken = true → pending (view i) (virt_cause cause virt));
  law_poke_deferred i t v : iss_ok i →
    let '(i', ok) := iss_poke hart t (chr "s"%char) (ip_DeferredInterrupts ip) v i in
    iss_ok i' ∧ ok = true ∧
    view i' = Iss_view (v_mip (view i)) (v_seip (view i)) (v_enabled (view i)) v (v_mvip (view i)) (v_alias (view i));
  law_poke_nmis i t v : iss_ok i →
    let '(i', ok) := iss_poke hart t (chr "s"%char) (ip_DeferredNmis ip) v i in iss_ok i' ∧ view i' = view i;
  law_poke_mip i t v : iss_ok i →
    let '(i', ok) := iss_poke hart t (chr "c"%char) (ip_mip ip) v i in
    iss_ok i' ∧ raises (λ k, Z.testbit v k = true) (view i) (view i') ∧ v_seip (view i') = v_seip (view i) ∧
    (∀ k, writable k → Z.testbit (v_mip (view i')) k = Z.testbit v k);
  law_poke_mvip i t v : iss_ok i →
    let '(i', ok) := iss_poke hart t (chr "c"%char) (ip_mvip ip) v i in
    iss_ok i' ∧ raises (λ k, Z.testbit (v &&& v_alias (view i)) k = true) (view i) (view i') ∧
    v_seip (view i') = v_seip (view i) ∧
    (∀ k, writable k → Z.testbit (v_mip (view i')) k = Z.testbit (v_mip (view i)) k);
  law_poke_csr i t addr v : iss_ok i → quiet_csr addr →
    let '(i', ok) := iss_poke hart t (chr "c"%char) addr v i in
    iss_ok i' ∧ raises (λ _, True) (view i) (view i') ∧ v_seip (view i') = v_seip (view i);
  law_time : quiet_csr (ip_time ip);
  law_poke_mem i t addr size v : iss_ok i →
    let '(i', ok) := iss_poke_mem hart t addr size v i in
    iss_ok i' ∧ raises external (view i) (view i');
  law_nmi i t c : iss_ok i → iss_ok (iss_nmi hart t c i) ∧ view (iss_nmi hart t c i) = view i;
  law_clear_nmi i t c : iss_ok i →
    iss_ok (iss_clear_nmi_cause hart t c i) ∧ view (iss_clear_nmi_cause hart t c i) = view i
}.

Section bridge.
Context {I : Type} `{!Iss I}.
Variable fl : intr_flags.
Variable ip : intr_params.
Notation M := (M I).

Definition peek_mip (hart : Z) : M Z :=
  '(w_mip, _) ← iss (λ i, let '(i, v, ok) := iss_peek hart (chr "c"%char) (ip_mip ip) i in (i, (v, ok)));
  '(w_mvip, _) ← iss (λ i, let '(i, v, ok) := iss_peek hart (chr "c"%char) (ip_mvip ip) i in (i, (v, ok)));
  upd (λ s, s <| bi_mvip := w_mvip |>);;
  mret w_mip.

Definition poke_mip (hart time mip_val : Z) : M unit :=
  iss (iss_poke hart time (chr "c"%char) (ip_mip ip) mip_val);;
  mvip ← get bi_mvip;
  iss (iss_poke hart time (chr "c"%char) (ip_mvip ip) mvip);;
  mret tt.

Definition peek_seip (hart : Z) : M bool :=
  w_seip ← iss (iss_seipin hart); mret (negb (w_seip =? 0)).

Definition check_interrupt (hart : Z) : M (bool * Z) :=
  '(taken, cause, virt_mode) ← iss (iss_check hart);
  mret (taken, virt_cause cause virt_mode).

Definition defer_interrupt (hart cycle mip : Z) : M unit :=
  valid ← iss (iss_poke hart cycle (chr "s"%char) (ip_DeferredInterrupts ip) mip);
  if negb valid && if_whisper_client_check fl then error
  else upd (λ s, s <| bi_deferred_intr := negb (mip =? 0) |>).

Definition defer_nmi (hart cycle nmip : Z) : M unit :=
  valid ← iss (iss_poke hart cycle (chr "s"%char) (ip_DeferredNmis ip) nmip);
  when (negb valid && if_whisper_client_check fl) error.

(** The value, if the answer is accepted. *)
Definition peek_deferred (hart : Z) : M (option Z) :=
  '(w_defer_mip, valid) ← iss (λ i, let '(i, v, ok) := iss_peek hart (chr "s"%char) (ip_DeferredInterrupts ip) i in (i, (v, ok)));
  if negb valid && if_whisper_client_check fl then error;; mret None else mret (Some w_defer_mip).

(** The out-parameter starts as 0 and stays so on an error. *)
Definition peek_deferred_interrupts (hart : Z) : M Z :=
  v ← peek_deferred hart; mret (default 0 v).

Definition check_and_defer_interrupt (hart time mip : Z) (intr_during_ucode : bool) : M bool :=
  '(w_intr, w_cause) ← check_interrupt hart;
  if negb w_intr then mret false
  else
    v ← peek_deferred hart;
    match v with
    | None => mret false
    | Some w_defer_mip =>
        defer_interrupt hart time (mip ||| (1 ≪ w_cause) ||| w_defer_mip);;
        when intr_during_ucode
          (upd (λ s, s <| bi_intr_during_ucode ::= λ u, u ||| (bi_tmp_prev s ^^^ bi_tmp_latest s) |>));;
        upd (λ s, s <| bi_deferred_intr_age ::= λ m, if bool_decide (is_Some (m !! w_cause)) then m else <[w_cause := 0]> m |>);;
        upd (λ s, s <| bi_tmp_prev := bi_tmp_latest s |>);;
        mret true
    end.

(** The SEIP pin: [Some (before, after)] when it is considered. *)
Definition check_mip_change (mip_prev mip_new : Z) (seip : option (bool * bool)) : M unit :=
  upd (λ s, s <| bi_mip_changed ::= λ c, c ||| (mip_prev ^^^ mip_new) |>
              <| bi_whisper_mip_age ::= mark_ages (mip_new &&& not64 mip_prev) |>
              <| bi_whisper_mip_clr_age ::= mark_ages (mip_prev &&& not64 mip_new) |>);;
  match seip with
  | None => mret tt
  | Some (seip_prev, seip_new) =>
      if Bool.eqb seip_new seip_prev then
        upd (λ s, s <| bi_whisper_mip_age ::= delete SEI |> <| bi_whisper_mip_clr_age ::= delete SEI |>)
      else
        upd (λ s, s <| bi_mip_changed ::= λ c, Z.setbit c SEI |>);;
        if seip_new then upd (λ s, s <| bi_whisper_mip_age ::= count_up SEI |>)
        else upd (λ s, s <| bi_whisper_mip_clr_age ::= count_up SEI |>)
  end.

(** Record the change from [tmp_mip_prev_] to [tmp_mip_latest_], then defer. *)
Definition note_change : M unit :=
  prev ← get bi_tmp_prev; latest ← get bi_tmp_latest; check_mip_change prev latest None.

(** ** Events from the design *)

Definition poke_nmi (hart time cause : Z) : M unit :=
  upd (λ s, s <| bi_nmi_age ::= <[cause := 0]> |> <| bi_nmip ::= λ p, Z.setbit p cause |>);;
  iss_do (iss_nmi hart time cause).

Definition clear_nmi (hart time cause : Z) : M unit :=
  upd (λ s, s <| bi_nmip ::= λ p, Z.clearbit p cause |> <| bi_nmi_age ::= delete cause |>);;
  iss_do (iss_clear_nmi_cause hart time cause).

Definition process_dut_nmi (hart : Z) (n : rv_nmi_t) : M unit :=
  upd (λ s, s <| bi_nmi := n |>);;
  if rn_valid n then
    poke_nmi hart (rn_cycle n) (rn_cause n);;
    nmip ← get bi_nmip;
    defer_nmi hart (rn_cycle n) nmip
  else clear_nmi hart (rn_cycle n) (rn_cause n).

Definition poke_non_standard_interrupt (hart cycle bits : Z) (intr_during_ucode : bool) : M unit :=
  w_mip ← peek_mip hart;
  upd (λ s, s <| bi_mip := w_mip |> <| bi_tmp_prev := w_mip |>);;
  poke_mip hart cycle (w_mip ||| bits);;
  upd (λ s, s <| bi_tmp_latest := w_mip ||| bits |>);;
  note_change;;
  check_and_defer_interrupt hart cycle (w_mip ||| bits) intr_during_ucode;;
  mret tt.

Definition poke_time_csr (hart time time_csr : Z) (intr_during_ucode : bool) : M unit :=
  iss (iss_poke hart time (chr "c"%char) (ip_time ip) time_csr);;
  w_mip ← peek_mip hart;
  upd (λ s, s <| bi_tmp_latest := w_mip |>);;
  note_change;;
  prev ← get bi_tmp_prev;
  if prev =? w_mip then mret tt
  else check_and_defer_interrupt hart time w_mip intr_during_ucode;; mret tt.

(** The partial-width update of [i.mtime] has no further effect: the register
    poked is [i.timeCsr]. *)
Definition process_dut_timer (hart : Z) (i : rv_intr_t) : M unit :=
  if if_poke_mip_timer fl then mip ← get bi_mip; poke_mip hart (ri_cycle i) mip
  else
    w_mip ← peek_mip hart;
    upd (λ s, s <| bi_tmp_prev := w_mip |>);;
    when (ri_size i <? 8)
      (iss (λ x, let '(x, v, ok) := iss_peek hart (chr "c"%char) (ip_time ip) x in (x, (v, ok)));; mret tt);;
    if ri_stce_bit_clear i
    then upd (λ s, s <| bi_poke_time_post_step := true |> <| bi_timer_csr := ri_timeCsr i |>)
    else poke_time_csr hart (ri_cycle i) (ri_timeCsr i) (ri_during_ucode i).

Definition process_dut_mtip (hart cycle : Z) (mtip intr_during_ucode : bool) : M unit :=
  w_mip ← peek_mip hart;
  upd (λ s, s <| bi_tmp_prev := w_mip |>);;
  poke_mip hart cycle (if mtip then w_mip ||| (1 ≪ MTI) else w_mip &&& not64 (1 ≪ MTI));;
  latest ← peek_mip hart;
  upd (λ s, s <| bi_tmp_latest := latest |>);;
  note_change;;
  check_and_defer_interrupt hart cycle latest intr_during_ucode;;
  mret tt.

Definition process_counter_overflow (hart cycle csr_addr : Z) : M unit :=
  w_mip ← peek_mip hart;
  upd (λ s, s <| bi_tmp_prev := w_mip |>);;
  '(mhpmeventx, _) ← iss (λ x, let '(x, v, ok) := iss_peek hart (chr "c"%char) csr_addr x in (x, (v, ok)));
  iss (iss_poke hart cycle (chr "c"%char) csr_addr (mhpmeventx ||| (1 ≪ 63)));;
  latest ← peek_mip hart;
  upd (λ s, s <| bi_tmp_latest := latest |>);;
  note_change;;
  check_and_defer_interrupt hart cycle latest false;;
  mret tt.

Definition bit_at (x k : Z) : Z := Z.b2z (Z.testbit x k) ≪ k.
Definition seip_bit (x : Z) (seip : bool) : Z := Z.b2z (Z.testbit x SEI || seip) ≪ SEI.

(** What follows the write to the interrupt file. *)
Definition imsic_effect (hart cycle : Z) (seip_prev : bool) (mip_prev : Z) (intr_during_ucode : bool) : M unit :=
  w_mip ← peek_mip hart;
  w_seip ← peek_seip hart;
  check_mip_change mip_prev w_mip (Some (seip_prev, w_seip));;
  upd (λ s, s <| bi_e_mip := bit_at w_mip MEI ||| seip_bit w_mip w_seip ||| bit_at w_mip VSEI ||| bit_at w_mip SGEI |>);;
  upd (λ s, s <| bi_mip ::= λ m, m ||| bi_e_mip s |>
              <| bi_tmp_prev ::= λ p, p ||| (Z.b2z seip_prev ≪ SEI) |>);;
  upd (λ s, s <| bi_tmp_latest := bi_tmp_prev s ||| bi_e_mip s |>);;
  tmp_prev ← get bi_tmp_prev;
  mip ← get bi_mip;
  if negb (Bool.eqb seip_prev w_seip) || negb (tmp_prev =? w_mip)
  then check_and_defer_interrupt hart cycle mip intr_during_ucode;; mret tt
  else mret tt.

Definition process_imsic_msi (hart cycle pa data : Z) (intr_during_ucode : bool) : M unit :=
  upd (λ s, s <| bi_latest_imsic := (pa, 0) |>);;
  seip_prev ← peek_seip hart;
  mip_prev ← peek_mip hart;
  upd (λ s, s <| bi_tmp_prev := mip_prev |>);;
  valid ← iss (iss_poke_mem hart cycle pa 4 data);
  when (negb valid && if_whisper_client_check fl) error;;
  imsic_effect hart cycle seip_prev mip_prev intr_during_ucode.

Definition process_dut_imsic_msi (hart cycle pa data : Z) (intr_during_ucode : bool) : M unit :=
  upd (λ s, s <| bi_msi ::= S |>);;
  process_imsic_msi hart cycle pa data intr_during_ucode.

(** The bookkeeping at the start of [process_dut_interrupt]; the loops run over
    the bits up to the highest one set in [mip], and in [mip_clr]. *)
Definition track_bit (i : rv_intr_t) (s : bi) (count : nat) : bi :=
  let c := Z.of_nat count in
  if 0 <? ri_mip i ≫ c then
    let s := if Z.testbit (ri_mip i) c
             then s <| bi_whisper_mip_age ::= delete c |> <| bi_whisper_mip_clr_age ::= delete c |> else s in
    if Z.testbit (ri_mip_set i) c then s <| bi_dut_mip_age ::= <[c := 1]> |> else s
  else s.
Definition track_mip (i : rv_intr_t) (s : bi) : bi :=
  let mip := ri_mip i in
  let s := s <| bi_mip := mip |>
             <| bi_dut_mip := if ri_seip i then Z.setbit mip SEI else mip |>
             <| bi_hw_mip := if ri_hw i then mip else bi_hw_mip s |>
             <| bi_e_mip := bit_at mip MEI ||| seip_bit mip (ri_seip i) |> in
  foldl (track_bit i) s (seq 0 64) <| bi_dut_mip_clr_age ::= mark_ages (ri_mip_clr i) |>.

(** Bits that hardware asserts in the cycle after software cleared them. *)
Definition race_bit (i : rv_intr_t) (acc : bi * Z) (ir : Z) : bi * Z :=
  let '(s, bits) := acc in
  let s := if Z.testbit (ri_mip_clr i) ir && negb (ri_hw i)
           then s <| bi_sw_clear ::= <[ir := ri_core_cycle i]> |> else s in
  (s, if Z.testbit (ri_mip_set i) ir && (default 0 (bi_sw_clear s !! ir) =? u64 (ri_core_cycle i - 1))
      then bits ||| (1 ≪ ir) else bits).
Definition sw_hw_race (i : rv_intr_t) (irs : list Z) (s : bi) : bi * Z := foldl (race_bit i) (s, 0) irs.

Definition process_dut_interrupt (hart : Z) (i : rv_intr_t) : M unit :=
  upd (track_mip i);;
  let irs := [ip_LO_PRI_RASI ip; ip_HI_PRI_RASI ip; ri_buserr_bit i; ip_C_HWAI ip] in
  non_std ← get (λ s, (sw_hw_race i irs s).2);
  upd (λ s, (sw_hw_race i irs s).1);;
  when (negb (non_std =? 0)) (poke_non_standard_interrupt hart (ri_cycle i) non_std (ri_during_ucode i));;
  when (negb (ri_hw i) && Z.testbit (ri_mip_clr i) LCOFI)
    (w_mip ← peek_mip hart;
     upd (λ s, s <| bi_tmp_prev := w_mip |>);;
     when (Z.testbit w_mip LCOFI)
       (let latest := Z.clearbit w_mip LCOFI in
        upd (λ s, s <| bi_tmp_latest := latest |>);;
        poke_mip hart (ri_cycle i) latest;;
        note_change;;
        check_and_defer_interrupt hart (ri_cycle i) latest (ri_during_ucode i);;
        mret tt));;
  if negb (ri_hw i) then mret tt
  else
    when (Z.testbit (ri_mip_clr i) LCOFI) error;;
    when (if_poke_mip_timer fl &&
          (Z.testbit (ri_mip_clr i) MTI || Z.testbit (ri_mip_clr i) STI || Z.testbit (ri_mip_clr i) VSTI))
      (mip ← get bi_mip; poke_mip hart (ri_cycle i) mip);;
    let set := ri_mip_set i in
    let locals := [ri_buserr_bit i; ip_C_HWAI ip; ip_LO_PRI_RASI ip; ip_HI_PRI_RASI ip; ip_C_ENTROPY ip] in
    when (existsb (Z.testbit set) locals)
      (poke_non_standard_interrupt hart (ri_cycle i) (foldl (λ b k, b ||| bit_at set k) 0 locals) (ri_during_ucode i)).

(** The events of the design between two retirements. *)
Inductive async :=
| ANmi (n : rv_nmi_t)
| AInterrupt (i : rv_intr_t)
| ATimer (i : rv_intr_t)
| AMtip (cycle : Z) (mtip intr_during_ucode : bool)
| AOverflow (cycle csr_addr : Z)
| AMsi (cycle pa data : Z) (intr_during_ucode : bool).

Definition process_async (hart : Z) (e : async) : M unit :=
  match e with
  | ANmi n => process_dut_nmi hart n
  | AInterrupt i => process_dut_interrupt hart i
  | ATimer i => process_dut_timer hart i
  | AMtip c m u => process_dut_mtip hart c m u
  | AOverflow c a => process_counter_overflow hart c a
  | AMsi c pa d u => process_dut_imsic_msi hart c pa d u
  end.

Fixpoint run_async (hart : Z) (es : list async) : M unit :=
  match es with
  | [] => mret tt
  | e :: es => process_async hart e;; run_async hart es
  end.

(** ** Before a step *)

(** [d.icause + (d.virt_mode ? 1 : 0)] *)
Definition intr_bit_of (d : trap_info) : Z := ti_icause d + Z.b2z (ti_virt d).

(** [nmie]: bit 3 of the design's mnstatus.  [w_opcode]: the opcode of the
    simulator state passed in. *)
Definition pre_step_nmi_check (hart cycle : Z) (d : trap_info) (nmie : bool) (w_opcode : Z) : M unit :=
  nmip ← get bi_nmip;
  debug_mode ← get bi_debug_mode;
  patch_mode ← get bi_patch_mode;
  let in_patch := bool_decide (patch_mode = IN_PATCH) in
  if negb (ti_nmi d) && negb (nmip =? 0) && negb debug_mode && negb in_patch && nmie then
    upd (λ s,
      let ages := (λ v, u64 (v + 1)) <$> bi_nmi_age s in
      let late := size (filter (λ '(_, v), if_max_pend_intr_age fl < v) ages) in
      s <| bi_nmi_age := ages |>
        <| bi_errors ::= λ n, if negb (if_cosim_resynch fl) && negb (if_intr_timeout_resynch fl)
                              then (n + late)%nat else n |>)
  else
    when (negb debug_mode && negb in_patch && ti_nmi d) (defer_nmi hart cycle 0);;
    nmi ← get bi_nmi;
    prev_nmi ← get bi_prev_nmi;
    if ti_nmi d && negb (Z.testbit nmip (ti_ncause d)) && negb (Bool.eqb (rn_valid prev_nmi) (rn_valid nmi)) then error
    else when (is_xret_opcode w_opcode) (defer_nmi hart cycle 0;; upd (λ s, s <| bi_nmi_undeferred_xret := true |>)).

Definition dut_pending_recently (intr_bit : Z) (s : bi) : bool :=
  if 64 <=? intr_bit then false
  else if Z.testbit (bi_dut_mip s) intr_bit then true
  else match bi_dut_mip_clr_age s !! intr_bit with
       | Some age => age <=? if_max_pend_intr_age fl
       | None => false
       end.

(** Raise the pending bit again unless the simulator has it. *)
Definition restore_bit (hart cycle intr_bit : Z) : M unit :=
  if 64 <=? intr_bit then mret tt
  else
    '(w_intr, w_cause) ← check_interrupt hart;
    if w_intr && (w_cause =? intr_bit) then mret tt
    else
      w_mip ← peek_mip hart;
      upd (λ s, s <| bi_tmp_latest := w_mip |>);;
      if Z.testbit w_mip intr_bit then mret tt
      else
        upd (λ s, s <| bi_tmp_latest := Z.setbit w_mip intr_bit |>);;
        poke_mip hart cycle (Z.setbit w_mip intr_bit);;
        upd (λ s, s <| bi_trap_restored ::= λ r, Z.setbit r intr_bit |>).

Definition pre_step_trap_pending_restore (hart cycle : Z) (d : trap_info) : M unit :=
  patch_mode ← get bi_patch_mode;
  recently ← get (dut_pending_recently (intr_bit_of d));
  match patch_mode with
  | ENTER_PATCH =>
      upd (λ s, s <| bi_restore_at_exit := ti_intr d && negb (ti_icause d =? 0) && recently |>)
  | EXIT_PATCH =>
      check ← get bi_check_intr_exit;
      restore ← get bi_restore_at_exit;
      if negb check || negb restore then mret tt
      else
        upd (λ s, s <| bi_restore_at_exit := false |>);;
        bit ← get (λ s, bi_check_intr_cause s + Z.b2z (bi_check_intr_virt s));
        restore_bit hart cycle bit
  | NO_PATCH => when (ti_intr d && negb (ti_icause d =? 0) && recently) (restore_bit hart cycle (intr_bit_of d))
  | IN_PATCH => mret tt
  end.

Definition age_mips (s : bi) : bi :=
  s <| bi_hw_mip_age := if bi_prev_hw_mip s =? bi_hw_mip s then bi_hw_mip_age s else 0 |>
    <| bi_e_mip_age := if negb (bi_prev_e_mip s =? bi_e_mip s) || negb (bi_msi s =? 0)%nat then 0 else bi_e_mip_age s |>
    <| bi_whisper_mip_age ::= age_all |> <| bi_whisper_mip_clr_age ::= age_all |>
    <| bi_dut_mip_age ::= age_all |> <| bi_dut_mip_clr_age ::= age_all |>
    <| bi_latest_imsic ::= λ p, (p.1, u64 (p.2 + 1)) |>.

(** Keep the entries whose cause is in [bits]. *)
Definition keep_ages (bits : Z) (m : gmap Z Z) : gmap Z Z := filter (λ '(k, _), Z.testbit bits k = true) m.

Definition pre_step_interrupt_process (hart cycle : Z) (d : trap_info) : M unit :=
  upd age_mips;;
  pre_step_trap_pending_restore hart cycle d;;
  '(w_intr, w_cause) ← check_interrupt hart;
  dut_mip ← get bi_dut_mip;
  when (w_intr && (w_cause <? 64) && Z.testbit dut_mip w_cause)
    (upd (λ s, s <| bi_deferred_intr_age ::= count_up w_cause |>));;
  if ti_intr d then
    let dut_intr_bit := intr_bit_of d in
    upd (λ s, s <| bi_intr_during_ucode ::= λ u, Z.clearbit u dut_intr_bit |>);;
    keep_deferred ← get (λ s, Z.clearbit (bi_intr_during_ucode s ||| bi_mip_changed s) dut_intr_bit);
    upd (λ s, s <| bi_mip_changed := 0 |>);;
    defer_interrupt hart cycle keep_deferred;;
    upd (λ s, s <| bi_partially_deferred ::= λ p, negb (keep_deferred =? 0) || p |>
                <| bi_deferred_intr_age ::= keep_ages keep_deferred |>)
  else
    patch_mode ← get bi_patch_mode;
    w ← get bi_w;
    when (bool_decide (patch_mode = NO_PATCH) && is_xret_opcode (ti_opcode w))
      (keep ← get (λ s, (bi_tmp_latest s ^^^ bi_last_step_mip s) ||| bi_mip_changed s);
       defer_interrupt hart cycle keep;;
       upd (λ s, s <| bi_undeferred_xret := true |>));;
    undeferred ← get bi_undeferred_xret;
    when undeferred
      (w_defer_mip ← peek_deferred_interrupts hart;
       upd (λ s, s <| bi_deferred_intr_age ::= if w_defer_mip =? 0 then λ _, ∅ else keep_ages w_defer_mip |>));;
    upd (λ s, s <| bi_last_step_mip := bi_tmp_latest s |> <| bi_mip_changed := 0 |>).

Definition pre_step_patch_exit_trap_select (hart cycle : Z) : M unit :=
  check_nmi ← get bi_check_nmi_exit;
  check_intr ← get bi_check_intr_exit;
  if negb check_nmi && negb check_intr then mret tt
  else
    w_mip ← peek_mip hart;
    w_defer_mip ← peek_deferred_interrupts hart;
    nmip ← get bi_nmip;
    ncause ← get bi_check_nmi_cause;
    intr_bit ← get (λ s, bi_check_intr_cause s + Z.b2z (bi_check_intr_virt s));
    let defer_mip := w_mip ||| w_defer_mip in
    let '(defer_mip, defer_nmip) :=
      if check_nmi then (defer_mip, Z.clearbit nmip ncause) else (Z.clearbit defer_mip intr_bit, nmip) in
    defer_interrupt hart cycle defer_mip;;
    defer_nmi hart cycle defer_nmip.

(** ** After a step *)

(** Drop the bits raised again for the step. *)
Definition drop_restored (hart cycle : Z) : M unit :=
  restored ← get bi_trap_restored;
  when (negb (restored =? 0))
    (w_mip ← peek_mip hart;
     let latest := w_mip &&& not64 restored in
     upd (λ s, s <| bi_tmp_latest := latest |>);;
     poke_mip hart cycle latest;;
     upd (λ s, s <| bi_trap_restored := 0 |>)).

(** The end of a step without a reason to stop earlier. *)
Definition finish_step (hart cycle : Z) : M unit :=
  upd (λ s, s <| bi_intr_during_ucode := 0 |>);;
  partially ← get bi_partially_deferred;
  when partially
    (upd (λ s, s <| bi_partially_deferred := false |> <| bi_deferred_intr_age := ∅ |>);;
     defer_interrupt hart cycle 0);;
  post ← get bi_poke_time_post_step;
  when post
    (time_csr ← get bi_timer_csr;
     poke_time_csr hart cycle time_csr false;;
     upd (λ s, s <| bi_poke_time_post_step := false |>));;
  upd (λ s, s <| bi_tmp_prev := bi_tmp_latest s |>).

Definition post_step_interrupt_check (hart cycle : Z) (d : trap_info) : M unit :=
  drop_restored hart cycle;;
  s ← get id;
  let w := bi_w s in
  let patch_mode := bi_patch_mode s in
  if bool_decide (patch_mode = EXIT_PATCH) && bi_check_intr_exit s then
    when (negb (ti_intr w) || negb (bi_check_intr_cause s =? ti_icause w) ||
          negb (Bool.eqb (bi_check_intr_virt s) (ti_virt w))) error;;
    upd (λ s, s <| bi_check_intr_exit := false |>)
  else if ti_intr d && negb (ti_intr w) && negb (if_cosim_resynch fl) then
    if ti_icause d =? 0 then mret tt
    else if bool_decide (patch_mode = ENTER_PATCH) then
      upd (λ s, s <| bi_check_intr_exit := true |> <| bi_check_intr_cause := ti_icause d |>
                  <| bi_check_intr_virt := ti_virt d |>)
    else error
  else if bi_undeferred_xret s then
    when (negb (ti_intr d) && ti_intr w) error;;
    upd (λ s, s <| bi_undeferred_xret := false |>)
  else if ti_intr d && ti_intr w && negb (ti_icause d =? ti_icause w) && negb (if_cosim_resynch fl) then error
  else
    when (ti_intr d) (upd (λ s, s <| bi_taken ::= count_up (ti_icause d) |>));;
    if bool_decide (map_Exists (λ _ age, if_max_pend_intr_age fl < age) (bi_deferred_intr_age s)) then error
    else finish_step hart cycle.

Definition post_step_nmi_check (d : trap_info) : M unit :=
  s ← get id;
  let w := bi_w s in
  let patch_mode := bi_patch_mode s in
  let resynch := if_cosim_resynch fl in
  if bool_decide (patch_mode = EXIT_PATCH) && bi_check_nmi_exit s then
    when (negb (ti_nmi w) || negb (bi_check_nmi_cause s =? ti_ncause w)) error;;
    upd (λ s, s <| bi_check_nmi_exit := false |>)
  else if ti_nmi d && negb (ti_nmi w) && bool_decide (patch_mode = ENTER_PATCH) then
    upd (λ s, s <| bi_check_nmi_exit := true |> <| bi_check_nmi_cause := ti_ncause d |>)
  else if negb (ti_nmi d) && negb (ti_nmi w) then mret tt
  else if ti_nmi d && negb (ti_nmi w) && negb resynch then error
  else if negb (ti_nmi d) && ti_nmi w && negb resynch && negb (bi_debug_mode s) && negb (bool_decide (patch_mode = IN_PATCH))
       then error
  else if ti_nmi d && ti_nmi w && negb (ti_ncause d =? ti_ncause w) && negb resynch then error
  else when (bi_nmi_undeferred_xret s)
         (when (negb (ti_nmi d) && ti_nmi w) error;;
          upd (λ s, s <| bi_nmi_undeferred_xret := false |>)).

(** The interrupt part of [process_dut_instr_retire], outside debug mode:
    [step] advances the simulator and updates [w_].  The state [w] the
    simulator fills is a fresh one when the checks before the step see it, its
    opcode is 0. *)
Definition retire (step : trap_info → I → I * trap_info) (hart cycle : Z) (nmie : bool) (d : trap_info) : M unit :=
  pre_step_nmi_check hart cycle d nmie 0;;
  pre_step_interrupt_process hart cycle d;;
  upd (λ s, s <| bi_w ::= λ w, Trap_info false (ti_ncause w) false (ti_icause w) (ti_virt w) (ti_opcode w) |>);;
  patch_mode ← get bi_patch_mode;
  when (bool_decide (patch_mode = NO_PATCH) || bool_decide (patch_mode = EXIT_PATCH))
    (when (bool_decide (patch_mode = EXIT_PATCH)) (pre_step_patch_exit_trap_select hart cycle);;
     w ← get bi_w;
     w ← iss (step w);
     upd (λ s, s <| bi_w := w |>));;
  post_step_nmi_check d;;
  post_step_interrupt_check hart cycle d;;
  when (bool_decide (patch_mode = NO_PATCH) || bool_decide (patch_mode = EXIT_PATCH))
    (upd (λ s, s <| bi_prev_nmi := bi_nmi s |> <| bi_prev_hw_mip := bi_hw_mip s |> <| bi_prev_e_mip := bi_e_mip s |>
                 <| bi_hw_mip_age ::= λ a, u64 (a + 1) |> <| bi_e_mip_age ::= λ a, u64 (a + 1) |> <| bi_msi := 0%nat |>));;
  when (bool_decide (patch_mode = ENTER_PATCH)) (upd (λ s, s <| bi_patch_mode := IN_PATCH |>));;
  when (bool_decide (patch_mode = EXIT_PATCH))
    (defer_interrupt hart cycle 0;; defer_nmi hart cycle 0;; upd (λ s, s <| bi_patch_mode := NO_PATCH |>)).
End bridge.

(** ** Reasoning about computations *)

Definition wp {I A} (m : M I A) (Q : A → bi * I → Prop) (x : bi * I) : Prop := Q (m x).2 (m x).1.

Section wp.
Context {I : Type}.

Lemma wp_bind {A B} (m : M I A) (k : A → M I B) Q x : wp m (λ a, wp (k a) Q) x → wp (m ≫= k) Q x.
Proof. unfold wp, mbind, M_bind. by destruct (m x). Qed.
Lemma wp_ret {A} (a : A) Q x : Q a x → wp (mret a : M I A) Q x.
Proof. done. Qed.
Lemma wp_get {A} (f : bi → A) (Q : A → bi * I → Prop) s i : Q (f s) (s, i) → wp (get f) Q (s, i).
Proof. done. Qed.
Lemma wp_upd f (Q : unit → bi * I → Prop) s i : Q tt (f s, i) → wp (upd f) Q (s, i).
Proof. done. Qed.
Lemma wp_iss {A} (f : I → I * A) Q s i : (∀ i' a, f i = (i', a) → Q a (s, i')) → wp (iss f) Q (s, i).
Proof. intros H. unfold wp, iss. cbn [fst snd]. destruct (f i) eqn:E. by apply H. Qed.
Lemma wp_mono {A} (m : M I A) (P Q : A → bi * I → Prop) x : wp m P x → (∀ a x', P a x' → Q a x') → wp m Q x.
Proof. unfold wp. auto. Qed.
Lemma wp_when b (m : M I unit) Q x : (b = true → wp m Q x) → (b = false → Q tt x) → wp (when b m) Q x.
Proof. destruct b; intros H1 H2; [by apply H1|by apply H2]. Qed.
End wp.

Section calls.
Context {I : Type} `{!Iss I} (fl : intr_flags) (ip : intr_params) (hart : Z) `{!IssLaws I ip hart}.
Implicit Types (s : bi) (i : I).

Lemma raises_refl P v : raises P v v.
Proof. split; auto. Qed.
Lemma raises_trans P v1 v2 v3 : raises P v1 v2 → raises P v2 v3 → raises P v1 v3.
Proof.
  intros [A1 A2 A3 A4] [B1 B2 B3 B4]. split; try congruence. intros k Hk.
  destruct (B4 k Hk) as [H|H]; [by apply A4|by right].
Qed.
Lemma raises_impl (P Q : Z → Prop) v v' : (∀ k, P k → Q k ∨ Z.testbit (v_mip v) k = true) → raises P v v' → raises Q v v'.
Proof.
  intros HPQ [A1 A2 A3 A4]. split; try done. intros k Hk. destruct (A4 k Hk) as [H|H]; [by left|].
  destruct (HPQ k H); [by right|by left].
Qed.

Lemma peek_mip_spec s i Q :
  iss_ok i →
  (∀ i', iss_ok i' → view i' = view i → Q (v_mip (view i)) (s <| bi_mvip := v_mvip (view i) |>, i')) →
  wp (peek_mip ip hart) Q (s, i).
Proof.
  intros Hok HQ. unfold peek_mip. apply wp_bind, wp_iss. intros i1 [v1 o1] E1.
  pose proof (law_peek i (chr "c"%char) (ip_mip ip) Hok) as L1. destruct (iss_peek hart _ (ip_mip ip) i) as [[i1' v1'] o1'].
  injection E1 as -> -> ->. destruct L1 as (K1 & V1 & M1 & _). apply wp_bind, wp_iss. intros i2 [v2 o2] E2.
  pose proof (law_peek i1 (chr "c"%char) (ip_mvip ip) K1) as L2. destruct (iss_peek hart _ (ip_mvip ip) i1) as [[i2' v2'] o2'].
  injection E2 as -> -> ->. destruct L2 as (K2 & V2 & _ & M2 & _). apply wp_bind, wp_upd, wp_ret.
  rewrite M1, M2, V1 by done. apply HQ; [done|congruence].
Qed.

Lemma peek_seip_spec s i Q :
  iss_ok i → (∀ i', iss_ok i' → view i' = view i → Q (v_seip (view i)) (s, i')) → wp (peek_seip hart) Q (s, i).
Proof.
  intros Hok HQ. unfold peek_seip. apply wp_bind, wp_iss. intros i1 v1 E1. pose proof (law_seipin i Hok) as L.
  rewrite E1 in L. destruct L as (K & V & E). apply wp_ret. rewrite E. by apply HQ.
Qed.

Lemma check_interrupt_spec s i Q :
  iss_ok i →
  (∀ i' taken cause, iss_ok i' → view i' = view i → ((∃ k, ready (view i) k) → taken = true) →
     (taken = true → pending (view i) cause) → Q (taken, cause) (s, i')) →
  wp (check_interrupt hart) Q (s, i).
Proof.
  intros Hok HQ. unfold check_interrupt. apply wp_bind, wp_iss. intros i1 [[tk c] vm] E1.
  pose proof (law_check i Hok) as L. rewrite E1 in L. destruct L as (K & V & T & C). apply wp_ret. by apply HQ.
Qed.

Definition deferred_view (d : Z) (v : iss_view) : iss_view :=
  Iss_view (v_mip v) (v_seip v) (v_enabled v) d (v_mvip v) (v_alias v).

Lemma defer_interrupt_spec s i c d Q :
  iss_ok i →
  (∀ i', iss_ok i' → view i' = deferred_view d (view i) → Q tt (s <| bi_deferred_intr := negb (d =? 0) |>, i')) →
  wp (defer_interrupt fl ip hart c d) Q (s, i).
Proof.
  intros Hok HQ. unfold defer_interrupt. apply wp_bind, wp_iss. intros i1 ok E1.
  pose proof (law_poke_deferred i c d Hok) as L. rewrite E1 in L. destruct L as (K & -> & V). cbn [negb andb].
  by apply wp_upd, HQ.
Qed.

Lemma defer_nmi_spec s i c d Q :
  iss_ok i → (∀ i' s', iss_ok i' → view i' = view i → Q tt (s', i')) → wp (defer_nmi fl ip hart c d) Q (s, i).
Proof.
  intros Hok HQ. unfold defer_nmi. apply wp_bind, wp_iss. intros i1 ok E1.
  pose proof (law_poke_nmis i c d Hok) as L. rewrite E1 in L. destruct L as (K & V).
  apply wp_when; intros _; [by apply wp_upd, HQ|by apply HQ].
Qed.

Lemma peek_deferred_spec s i Q :
  iss_ok i → (∀ i', iss_ok i' → view i' = view i → Q (Some (v_deferred (view i))) (s, i')) →
  wp (peek_deferred fl ip hart) Q (s, i).
Proof.
  intros Hok HQ. unfold peek_deferred. apply wp_bind, wp_iss. intros i1 [v1 o1] E1.
  pose proof (law_peek i (chr "s"%char) (ip_DeferredInterrupts ip) Hok) as L.
  destruct (iss_peek hart _ (ip_DeferredInterrupts ip) i) as [[i1' v1'] o1']. injection E1 as -> -> ->.
  destruct L as (K & V & _ & _ & L). destruct L as [-> ->]; [done|done|]. cbn [negb andb]. by apply wp_ret, HQ.
Qed.

(** A poke of mip raises at most the bits given, when [mvip_] is fresh. *)
Lemma poke_mip_spec s i t v Q :
  iss_ok i → bi_mvip s = v_mvip (view i) →
  (∀ i', iss_ok i' → raises (λ k, Z.testbit v k = true) (view i) (view i') → v_seip (view i') = v_seip (view i) →
     (∀ k, writable k → Z.testbit (v_mip (view i')) k = Z.testbit v k) → Q tt (s, i')) →
  wp (poke_mip ip hart t v) Q (s, i).
Proof.
  intros Hok Hmv HQ. unfold poke_mip. apply wp_bind, wp_iss. intros i1 o1 E1.
  pose proof (law_poke_mip i t v Hok) as L1. rewrite E1 in L1. destruct L1 as (K1 & R1 & S1 & W1).
  apply wp_bind, wp_get, wp_bind, wp_iss. intros i2 o2 E2.
  pose proof (law_poke_mvip i1 t (bi_mvip s) K1) as L2. rewrite E2 in L2. destruct L2 as (K2 & R2 & S2 & W2).
  apply wp_ret, HQ; [done| |congruence|intros k Hk; by rewrite W2, W1].
  split; try (by rewrite (raises_enabled _ _ _ R2), (raises_enabled _ _ _ R1));
    try (by rewrite (raises_deferred _ _ _ R2), (raises_deferred _ _ _ R1));
    try (by rewrite (raises_alias _ _ _ R2), (raises_alias _ _ _ R1)).
  intros k Hk. destruct (raises_mip _ _ _ R2 k Hk) as [Hm|Ha]; [by apply (raises_mip _ _ _ R1)|].
  left. apply law_alias; [done|]. by rewrite <- Hmv, <- (raises_alias _ _ _ R1).
Qed.

(** Deferring covers: when every ready cause is in [mip], nothing is ready
    afterwards. *)
Lemma check_and_defer_quiet s i t mip u Q :
  iss_ok i → (∀ k, ready (view i) k → Z.testbit mip k = true) →
  (∀ a s' i', iss_ok i' → quiet (view i') → Q a (s', i')) →
  wp (check_and_defer_interrupt fl ip hart t mip u) Q (s, i).
Proof.
  intros Hok Hcov HQ. unfold check_and_defer_interrupt. apply wp_bind, check_interrupt_spec; [done|].
  intros i1 taken cause K1 V1 T1 _. destruct taken; cbn [negb].
  2: { apply wp_ret, HQ; [done|]. rewrite V1. intros k Hk. by specialize (T1 (ex_intro _ k Hk)). }
  apply wp_bind, peek_deferred_spec; [done|]. intros i2 K2 V2.
  apply wp_bind, defer_interrupt_spec; [done|]. intros i3 K3 V3.
  assert (quiet (view i3)) as Hq.
  { rewrite V3, V2, V1. intros k (Hp & He & Hd). cbn [deferred_view v_deferred v_enabled] in *.
    rewrite !Z.lor_spec in Hd. apply orb_false_iff in Hd as [[Hd1 _]%orb_false_iff Hd2].
    rewrite ?V1 in Hd2. rewrite Hcov in Hd1; [done|]. by split_and!. }
  apply wp_bind, wp_when; intros _; [apply wp_upd|]; apply wp_bind, wp_upd, wp_bind, wp_upd, wp_ret; by apply HQ.
Qed.

(** A change that raises only covered bits, followed by a deferral. *)
Lemma raise_covered (P : Z → Prop) v v' mip :
  quiet v → raises P v v' → v_seip v' = v_seip v → (∀ k, P k → Z.testbit mip k = true) →
  ∀ k, ready v' k → Z.testbit mip k = true.
Proof.
  intros Hq [E D _ Hm] Hs HP k ([Hk|[-> Hk]] & He & Hd); rewrite E in He; rewrite D in Hd.
  - destruct (Hm k Hk) as [H|H]; [|by apply HP]. exfalso. apply (Hq k). split_and!; [by left|done..].
  - exfalso. apply (Hq SEI). split_and!; [right; by rewrite <- Hs|done..].
Qed.

(** Deferring all that is now in mip covers. *)
Lemma pending_covered (P : Z → Prop) v v' :
  quiet v → raises P v v' → v_seip v' = v_seip v → ∀ k, ready v' k → Z.testbit (v_mip v') k = true.
Proof.
  intros Hq [E D _ Hm] Hs k ([Hk|[-> Hk]] & He & Hd); [done|]. rewrite E in He; rewrite D in Hd.
  exfalso. apply (Hq SEI). split_and!; [right; by rewrite <- Hs|done..].
Qed.

Lemma check_mip_change_spec s i p n se (Q : unit → bi * I → Prop) :
  (∀ s', bi_tmp_prev s' = bi_tmp_prev s → bi_tmp_latest s' = bi_tmp_latest s → bi_mip s' = bi_mip s →
     bi_mvip s' = bi_mvip s → Q tt (s', i)) →
  wp (check_mip_change p n se) Q (s, i).
Proof.
  intros HQ. unfold check_mip_change. apply wp_bind, wp_upd. destruct se as [[a b]|]; [|by apply wp_ret, HQ].
  destruct (Bool.eqb b a); [by apply wp_upd, HQ|]. apply wp_bind, wp_upd. destruct b; by apply wp_upd, HQ.
Qed.

Lemma note_change_spec s i (Q : unit → bi * I → Prop) :
  (∀ s', bi_tmp_prev s' = bi_tmp_prev s → bi_tmp_latest s' = bi_tmp_latest s → bi_mip s' = bi_mip s →
     bi_mvip s' = bi_mvip s → Q tt (s', i)) →
  wp note_change Q (s, i).
Proof. intros HQ. unfold note_change. apply wp_bind, wp_get, wp_bind, wp_get. by apply check_mip_change_spec. Qed.

(** ** Events *)

Definition good (i : I) : Prop := iss_ok i ∧ quiet (view i).
Lemma good_same i i' : quiet (view i) → iss_ok i' → view i' = view i → good i'.
Proof. intros Hq K V. split; [done|by rewrite V]. Qed.
Notation stays m := (∀ s i, good i → wp m (λ _ x, good x.2) (s, i)).

Lemma non_standard_quiet cycle bits u : stays (poke_non_standard_interrupt fl ip hart cycle bits u).
Proof.
  intros s i [Hok Hq]. unfold poke_non_standard_interrupt. apply wp_bind, peek_mip_spec; [done|]. intros i1 K1 V1.
  apply wp_bind, wp_upd, wp_bind, poke_mip_spec; [done|by rewrite V1|]. intros i2 K2 R2 S2 _.
  apply wp_bind, wp_upd, wp_bind, note_change_spec. intros s' _ _ _ _.
  apply wp_bind, check_and_defer_quiet; [done| |intros; by apply wp_ret].
  rewrite V1 in R2, S2. by apply (raise_covered _ _ _ _ Hq R2 S2).
Qed.

Lemma mtip_quiet cycle mtip u : stays (process_dut_mtip fl ip hart cycle mtip u).
Proof.
  intros s i [Hok Hq]. unfold process_dut_mtip. apply wp_bind, peek_mip_spec; [done|]. intros i1 K1 V1.
  apply wp_bind, wp_upd, wp_bind, poke_mip_spec; [done|by rewrite V1|]. intros i2 K2 R2 S2 _.
  apply wp_bind, peek_mip_spec; [done|]. intros i3 K3 V3.
  apply wp_bind, wp_upd, wp_bind, note_change_spec. intros s' _ _ _ _.
  apply wp_bind, check_and_defer_quiet; [done| |intros; by apply wp_ret].
  rewrite V3. rewrite V1 in R2, S2. apply (pending_covered _ _ _ Hq R2 S2).
Qed.

Lemma overflow_quiet cycle addr : quiet_csr addr → stays (process_counter_overflow fl ip hart cycle addr).
Proof.
  intros Ha s i [Hok Hq]. unfold process_counter_overflow. apply wp_bind, peek_mip_spec; [done|]. intros i1 K1 V1.
  apply wp_bind, wp_upd, wp_bind, wp_iss. intros i2 [v2 o2] E2. pose proof (law_peek i1 (chr "c"%char) addr K1) as L2.
  destruct (iss_peek hart _ addr i1) as [[i2' v2'] o2']. injection E2 as -> -> ->. destruct L2 as (K2 & V2 & _).
  apply wp_bind, wp_iss. intros i3 o3 E3. pose proof (law_poke_csr i2 cycle addr (v2 ||| 1 ≪ 63) K2 Ha) as L3.
  rewrite E3 in L3. destruct L3 as (K3 & R3 & S3). apply wp_bind, peek_mip_spec; [done|]. intros i4 K4 V4.
  apply wp_bind, wp_upd, wp_bind, note_change_spec. intros s' _ _ _ _.
  apply wp_bind, check_and_defer_quiet; [done| |intros; by apply wp_ret].
  rewrite V4. rewrite V2, V1 in R3, S3. apply (pending_covered _ _ _ Hq R3 S3).
Qed.

(** Nothing to defer when the register reads the same. *)
Lemma same_mip_quiet (P : Z → Prop) v v' :
  quiet v → raises P v v' → v_seip v' = v_seip v → v_mip v' = v_mip v → quiet v'.
Proof.
  intros Hq [E D _ _] Hs Hm k (Hp & He & Hd). apply (Hq k). rewrite E in He. rewrite D in Hd.
  split_and!; [|done..]. unfold pending in *. by rewrite Hs, Hm in Hp.
Qed.

(** [poke_time_csr], when [tmp_mip_prev_] is what the simulator holds. *)
Lemma time_csr_quiet s i cycle time_csr u (Q : unit → bi * I → Prop) :
  good i → bi_tmp_prev s = v_mip (view i) → (∀ s' i', good i' → Q tt (s', i')) →
  wp (poke_time_csr fl ip hart cycle time_csr u) Q (s, i).
Proof.
  intros [Hok Hq] Hprev HQ. unfold poke_time_csr. apply wp_bind, wp_iss. intros i1 o1 E1.
  pose proof (law_poke_csr i cycle (ip_time ip) time_csr Hok law_time) as L1. rewrite E1 in L1.
  destruct L1 as (K1 & R1 & S1). apply wp_bind, peek_mip_spec; [done|]. intros i2 K2 V2.
  apply wp_bind, wp_upd, wp_bind, note_change_spec. intros s' Hp _ _ _. apply wp_bind, wp_get.
  rewrite Hp. cbn. rewrite Hprev. destruct (Z.eqb_spec (v_mip (view i)) (v_mip (view i1))) as [Heq|Hne].
  - apply wp_ret, HQ. split; [done|]. rewrite V2. by apply (same_mip_quiet _ _ _ Hq R1 S1).
  - apply wp_bind, check_and_defer_quiet; [done| |].
    + rewrite V2. apply (pending_covered _ _ _ Hq R1 S1).
    + intros a s2 i' K Hq'. by apply wp_ret, HQ.
Qed.

Lemma timer_quiet (i0 : rv_intr_t) : if_poke_mip_timer fl = false → stays (process_dut_timer fl ip hart i0).
Proof.
  intros Hf s i [Hok Hq]. unfold process_dut_timer. rewrite Hf. apply wp_bind, peek_mip_spec; [done|]. intros i1 K1 V1.
  apply wp_bind, wp_upd.
  assert (∀ i2, iss_ok i2 → view i2 = view i → wp
    (if ri_stce_bit_clear i0 then upd (λ s, s <| bi_poke_time_post_step := true |> <| bi_timer_csr := ri_timeCsr i0 |>)
     else poke_time_csr fl ip hart (ri_cycle i0) (ri_timeCsr i0) (ri_during_ucode i0)) (λ _ x, good x.2)
    (s <| bi_mvip := v_mvip (view i) |> <| bi_tmp_prev := v_mip (view i) |>, i2)) as Hend.
  { intros i2 K2 V2. destruct (ri_stce_bit_clear i0); [by apply wp_upd, (good_same i)|].
    apply time_csr_quiet; [by apply (good_same i)|by rewrite V2|done]. }
  apply wp_bind, wp_when; intros _; [|by apply Hend].
  apply wp_bind, wp_iss. intros i2 [v2 o2] E2. pose proof (law_peek i1 (chr "c"%char) (ip_time ip) K1) as L2.
  destruct (iss_peek hart _ (ip_time ip) i1) as [[i2' v2'] o2']. injection E2 as -> -> ->. destruct L2 as (K2 & V2 & _).
  apply wp_ret, Hend; [done|congruence].
Qed.

Lemma nmi_quiet n : stays (process_dut_nmi fl ip hart n).
Proof.
  intros s i [Hok Hq]. unfold process_dut_nmi. apply wp_bind, wp_upd. destruct (rn_valid n).
  - apply wp_bind, wp_bind, wp_upd. destruct (law_nmi i (rn_cycle n) (rn_cause n) Hok) as [K V].
    unfold wp at 1. cbn -[Z.setbit]. apply wp_bind, wp_get, defer_nmi_spec; [done|]. intros i' s' K' V'.
    apply (good_same i); [done..|by rewrite <- V].
  - apply wp_bind, wp_upd. destruct (law_clear_nmi i (rn_cycle n) (rn_cause n) Hok) as [K V]. by apply (good_same i).
Qed.

Lemma testbit_bit_at x k j : 0 ≤ k → Z.testbit (bit_at x k) j = (j =? k) && Z.testbit x k.
Proof.
  intros Hk. unfold bit_at. destruct (Z.testbit x k); cbn [Z.b2z].
  - rewrite Z.shiftl_1_l. destruct (Z.eqb_spec j k) as [->|]; [by apply Z.pow2_bits_true|by apply Z.pow2_bits_false].
  - by rewrite Z.shiftl_0_l, Z.bits_0, andb_false_r.
Qed.

Lemma testbit_seip x b j : Z.testbit (seip_bit x b) j = (j =? SEI) && (Z.testbit x SEI || b).
Proof.
  unfold seip_bit. destruct (Z.testbit x SEI || b); cbn [Z.b2z].
  - rewrite Z.shiftl_1_l. destruct (Z.eqb_spec j SEI) as [->|]; [by apply Z.pow2_bits_true|by apply Z.pow2_bits_false].
  - by rewrite Z.shiftl_0_l, Z.bits_0, andb_false_r.
Qed.

(** The external bits that are pending are in [e_mip_]. *)
Lemma e_mip_covers m se k :
  external k → Z.testbit m k = true ∨ (k = SEI ∧ se = true) →
  Z.testbit (bit_at m MEI ||| seip_bit m se ||| bit_at m VSEI ||| bit_at m SGEI) k = true.
Proof.
  intros Hk Hp. rewrite !Z.lor_spec, !testbit_bit_at, testbit_seip by done.
  destruct Hk as [->|[->|[->| ->]]]; cbn -[Z.testbit]; destruct Hp as [->|[Hs ->]]; try done; by rewrite ?orb_true_r.
Qed.

Lemma imsic_effect_quiet v s i cycle u :
  iss_ok i → quiet v → raises external v (view i) → bi_tmp_prev s = v_mip v →
  wp (imsic_effect fl ip hart cycle (v_seip v) (v_mip v) u) (λ _ x, good x.2) (s, i).
Proof.
  intros Hok Hq R Hs. unfold imsic_effect. apply wp_bind, peek_mip_spec; [done|]. intros i4 K4 V4.
  apply wp_bind, peek_seip_spec; [done|]. intros i5 K5 V5. rewrite V4 in V5 |- *.
  apply wp_bind, check_mip_change_spec. intros s6 Hs6 _ _ _. cbn in Hs6. rewrite Hs in Hs6.
  apply wp_bind, wp_upd, wp_bind, wp_upd, wp_bind, wp_upd, wp_bind, wp_get, wp_bind, wp_get.
  cbn [bi_tmp_prev bi_mip bi_e_mip modify eta_bi]. rewrite Hs6.
  destruct (negb _ || negb _) eqn:Ec.
  - apply wp_bind, check_and_defer_quiet; [done| |intros; by apply wp_ret].
    rewrite V5. intros k (Hp & He & Hd). rewrite Z.lor_spec. apply orb_true_iff. right. apply e_mip_covers; [|done].
    rewrite (raises_enabled _ _ _ R) in He. rewrite (raises_deferred _ _ _ R) in Hd.
    destruct Hp as [Hp|[-> _]]; [|by right; left]. destruct (raises_mip _ _ _ R k Hp) as [H|H]; [|done].
    exfalso. apply (Hq k). by split_and!; [left|..].
  - apply wp_ret. apply orb_false_iff in Ec as [E1%negb_false_iff%eqb_prop E2%negb_false_iff%Z.eqb_eq].
    split; [done|]. cbn [snd]. rewrite V5. intros k (Hp & He & Hd). apply (Hq k).
    rewrite (raises_enabled _ _ _ R) in He. rewrite (raises_deferred _ _ _ R) in Hd. split_and!; [|done..].
    destruct Hp as [Hp|[-> Hp]]; [|by right; rewrite E1]. rewrite <- E2, Z.lor_spec in Hp.
    apply orb_true_iff in Hp as [Hp|Hp]; [by left|right].
    destruct (v_seip v); [|by rewrite Z.shiftl_0_l, Z.bits_0 in Hp]. split; [|done].
    rewrite Z.shiftl_1_l in Hp. destruct (decide (k = SEI)); [done|]. by rewrite Z.pow2_bits_false in Hp by done.
Qed.

Lemma msi_quiet cycle pa data u : stays (process_dut_imsic_msi fl ip hart cycle pa data u).
Proof.
  intros s i [Hok Hq]. unfold process_dut_imsic_msi, process_imsic_msi. apply wp_bind, wp_upd, wp_bind, wp_upd.
  apply wp_bind, peek_seip_spec; [done|]. intros i1 K1 V1. apply wp_bind, peek_mip_spec; [done|]. intros i2 K2 V2.
  apply wp_bind, wp_upd, wp_bind, wp_iss. intros i3 o3 E3. pose proof (law_poke_mem i2 cycle pa 4 data K2) as L3.
  rewrite E3 in L3. destruct L3 as (K3 & R3). rewrite V2, V1 in *.
  apply wp_bind, wp_when; intros _; [apply wp_upd|]; by apply imsic_effect_quiet.
Qed.

Lemma interrupt_quiet (i0 : rv_intr_t) : if_poke_mip_timer fl = false → stays (process_dut_interrupt fl ip hart i0).
Proof.
  intros Hf s i Hg. unfold process_dut_interrupt. rewrite Hf. cbn [andb]. apply wp_bind, wp_upd. cbv zeta.
  apply wp_bind, wp_get, wp_bind, wp_upd, wp_bind.
  apply (wp_mono _ (λ _ x, good x.2)); [apply wp_when; intros _; [by apply non_standard_quiet|done]|].
  intros _ [s1 i1] Hg1. cbn [snd] in Hg1. apply wp_bind.
  apply (wp_mono _ (λ _ x, good x.2)).
  { apply wp_when; intros _; [|done]. destruct Hg1 as [K1 Q1]. apply wp_bind, peek_mip_spec; [done|]. intros i2 K2 V2.
    apply wp_bind, wp_upd, wp_when; intros Hl; [|by apply (good_same i1)]. apply wp_bind, wp_upd, wp_bind.
    apply poke_mip_spec; [done|by rewrite V2|]. intros i3 K3 R3 S3 _. apply wp_bind, note_change_spec. intros s' _ _ _ _.
    apply wp_bind, check_and_defer_quiet; [done| |intros; by apply wp_ret].
    rewrite V2 in R3, S3. by apply (raise_covered _ _ _ _ Q1 R3 S3). }
  intros _ [s2 i2] Hg2. cbn [snd] in Hg2. destruct (ri_hw i0); cbn [negb]; [|by apply wp_ret].
  apply wp_bind, wp_when; intros _; [apply wp_upd|]; (apply wp_bind, wp_when; [done|intros _]);
    (apply wp_when; intros _; [by apply non_standard_quiet|done]).
Qed.

Definition async_ok (e : async) : Prop := match e with AOverflow _ addr => quiet_csr addr | _ => True end.


(** ** The step of a trap *)

Lemma restore_bit_spec s i cycle bit (Q : unit → bi * I → Prop) :
  iss_ok i → bit < 64 → 0 ≤ bit → writable bit →
  (∀ s' i', iss_ok i' → pending (view i') bit → raises (λ k, k = bit) (view i) (view i') →
     v_seip (view i') = v_seip (view i) → bi_intr_during_ucode s' = bi_intr_during_ucode s →
     bi_mip_changed s' = bi_mip_changed s → Q tt (s', i')) →
  wp (restore_bit ip hart cycle bit) Q (s, i).
Proof.
  intros Hok Hb H0 Hw HQ. unfold restore_bit. rewrite (proj2 (Z.leb_gt _ _)) by lia.
  apply wp_bind, check_interrupt_spec; [done|]. intros i1 taken cause K1 V1 _ C1.
  destruct (taken && (cause =? bit)) eqn:Et.
  { apply andb_true_iff in Et as [-> ->%Z.eqb_eq]. apply wp_ret, HQ; rewrite ?V1; [done|by apply C1|apply raises_refl|done..]. }
  apply wp_bind, peek_mip_spec; [done|]. intros i2 K2 V2. apply wp_bind, wp_upd. rewrite V1 in V2 |- *.
  destruct (Z.testbit (v_mip (view i)) bit) eqn:Em.
  { apply wp_ret, HQ; rewrite ?V2; [done|by left|apply raises_refl|done..]. }
  apply wp_bind, wp_upd, wp_bind, poke_mip_spec; [done|by rewrite V2|]. intros i3 K3 R3 S3 W3. rewrite V2 in R3, S3.
  apply wp_upd, HQ; [done| | |done..].
  - left. rewrite W3 by done. rewrite Z.setbit_eqb by lia. by rewrite Z.eqb_refl.
  - eapply raises_impl, R3. intros k. cbv beta. destruct (decide (k < 0)).
    { rewrite Z.testbit_neg_r by lia. done. }
    rewrite Z.setbit_eqb by lia. intros [->%Z.eqb_eq|Hm]%orb_true_iff; [by left|by right].
Qed.

(** C28: when the design takes an interrupt, the simulator is made to take the
    same one in that step.  If the design showed the cause pending, now or in
    the last few retirements, it is pending in the simulator before the step,
    even when the simulator had lost it; no other cause is raised; and the
    deferral is lifted for all causes except those raised inside a microcode
    sequence or since the last retirement, which the design could not have
    seen, the design's own cause always excepted. *)
Theorem trap_step_selects s i cycle d :
  iss_ok i → bi_patch_mode s = NO_PATCH → ti_intr d = true → ti_icause d ≠ 0 → 0 ≤ intr_bit_of d < 64 →
  dut_pending_recently fl (intr_bit_of d) (age_mips s) = true → writable (intr_bit_of d) →
  let v := view (pre_step_interrupt_process fl ip hart cycle d (s, i)).1.2 in
  pending v (intr_bit_of d) ∧ v_enabled v = v_enabled (view i) ∧
  (∀ k, pending v k → pending (view i) k ∨ k = intr_bit_of d) ∧
  (∀ k, 0 ≤ k → Z.testbit (v_deferred v) k =
     (Z.testbit (bi_intr_during_ucode s) k || Z.testbit (bi_mip_changed s) k) && negb (k =? intr_bit_of d)).
Proof.
  intros Hok Hpm Hd Hc Hb Hr Hw v. subst v. set (bit := intr_bit_of d) in *.
  cut (wp (pre_step_interrupt_process fl ip hart cycle d) (λ _ x, let v := view x.2 in
    pending v bit ∧ v_enabled v = v_enabled (view i) ∧ (∀ k, pending v k → pending (view i) k ∨ k = bit) ∧
    (∀ k, 0 ≤ k → Z.testbit (v_deferred v) k =
       (Z.testbit (bi_intr_during_ucode s) k || Z.testbit (bi_mip_changed s) k) && negb (k =? bit))) (s, i)); [done|].
  unfold pre_step_interrupt_process. apply wp_bind, wp_upd, wp_bind.
  unfold pre_step_trap_pending_restore. apply wp_bind, wp_get, wp_bind, wp_get.
  change (bi_patch_mode (age_mips s)) with (bi_patch_mode s). rewrite Hpm. fold bit. rewrite Hr, Hd.
  rewrite (proj2 (Z.eqb_neq _ _) Hc). cbn [andb negb when]. apply restore_bit_spec; [done|lia|lia|done|].
  intros s1 i1 K1 P1 R1 S1 U1 C1. apply wp_bind, check_interrupt_spec; [done|]. intros i2 tk c K2 V2 _ _.
  apply wp_bind, wp_get, wp_bind.
  apply (wp_mono _ (λ _ x, x.2 = i2 ∧ bi_intr_during_ucode x.1 = bi_intr_during_ucode s1 ∧ bi_mip_changed x.1 = bi_mip_changed s1)).
  { apply wp_when; intros _; [by apply wp_upd|done]. }
  intros _ [s3 i3] (E3 & U3 & C3). cbn [fst snd] in E3, U3, C3. subst i3.
  apply wp_bind, wp_upd, wp_bind, wp_get, wp_bind, wp_upd, wp_bind, defer_interrupt_spec; [done|]. intros i4 K4 V4.
  apply wp_upd. cbn [snd]. rewrite V4, V2. cbn [deferred_view v_deferred v_enabled]. split_and!.
  - done.
  - apply (raises_enabled _ _ _ R1).
  - intros k [Hk|[-> Hk]]; [|left; right; by rewrite <- S1].
    destruct (raises_mip _ _ _ R1 k Hk) as [H| ->]; [by left; left|by right].
  - intros k Hk. cbn [bi_intr_during_ucode bi_mip_changed modify eta_bi]. rewrite U3, C3, U1, C1.
    rewrite Z.clearbit_eqb, Z.lor_spec, Z.clearbit_eqb, (Z.eqb_sym bit k).
    cbn [bi_intr_during_ucode bi_mip_changed age_mips modify eta_bi].
    by destruct (k =? bit), (Z.testbit (bi_intr_during_ucode s) k), (Z.testbit (bi_mip_changed s) k).
Qed.

(** ** The check after a step *)

Ltac wp_pure := lazymatch goal with |- wp (mret _) _ _ => apply wp_ret | |- _ => apply wp_upd end.

(** Computations that report no error. *)
Definition noerr {A} (m : M I A) : Prop :=
  ∀ s i, iss_ok i → wp m (λ _ x, bi_errors x.1 = bi_errors s ∧ bi_w x.1 = bi_w s ∧ bi_patch_mode x.1 = bi_patch_mode s ∧
    bi_undeferred_xret x.1 = bi_undeferred_xret s ∧ iss_ok x.2) (s, i).

Lemma noerr_bind {A B} (m : M I A) (k : A → M I B) : noerr m → (∀ a, noerr (k a)) → noerr (m ≫= k).
Proof.
  intros Hm Hk s i Hi. apply wp_bind. eapply wp_mono; [by apply Hm|]. intros a [s' i'] (E1 & E2 & E3 & E4 & K).
  cbn [fst snd] in *. eapply wp_mono; [by apply Hk|]. intros b x' (F1 & F2 & F3 & F4 & K'). split_and!; congruence.
Qed.
Lemma noerr_ret {A} (a : A) : noerr (mret a).
Proof. intros s i Hi. by apply wp_ret. Qed.
Lemma noerr_get {A} (f : bi → A) : noerr (get f).
Proof. intros s i Hi. by apply wp_get. Qed.
Lemma noerr_upd f :
  (∀ s, bi_errors (f s) = bi_errors s ∧ bi_w (f s) = bi_w s ∧ bi_patch_mode (f s) = bi_patch_mode s ∧
        bi_undeferred_xret (f s) = bi_undeferred_xret s) → noerr (upd f).
Proof. intros Hf s i Hi. apply wp_upd. destruct (Hf s) as (? & ? & ? & ?). by split_and!. Qed.
Lemma noerr_when b m : noerr m → noerr (when b m).
Proof. intros Hm s i Hi. apply wp_when; intros _; [by apply Hm|done]. Qed.

Lemma noerr_peek_mip : noerr (peek_mip ip hart).
Proof. intros s i Hi. by apply peek_mip_spec. Qed.
Lemma noerr_check : noerr (check_interrupt hart).
Proof. intros s i Hi. by apply check_interrupt_spec. Qed.
Lemma noerr_peek_deferred : noerr (peek_deferred fl ip hart).
Proof. intros s i Hi. by apply peek_deferred_spec. Qed.
Lemma noerr_defer c d : noerr (defer_interrupt fl ip hart c d).
Proof. intros s i Hi. by apply defer_interrupt_spec. Qed.
Lemma poke_mip_frame s i t v (Q : unit → bi * I → Prop) :
  iss_ok i → (∀ i', iss_ok i' → Q tt (s, i')) → wp (poke_mip ip hart t v) Q (s, i).
Proof.
  intros Hi HQ. unfold poke_mip. apply wp_bind, wp_iss. intros i1 o1 E1. pose proof (law_poke_mip i t v Hi) as L.
  rewrite E1 in L. destruct L as [K1 _]. apply wp_bind, wp_get, wp_bind, wp_iss. intros i2 o2 E2.
  pose proof (law_poke_mvip i1 t (bi_mvip s) K1) as L. rewrite E2 in L. destruct L as [K2 _]. by apply wp_ret, HQ.
Qed.
Lemma noerr_poke_mip t v : noerr (poke_mip ip hart t v).
Proof. intros s i Hi. by apply poke_mip_frame. Qed.
Lemma noerr_poke_time t v : noerr (iss (iss_poke hart t (chr "c"%char) (ip_time ip) v)).
Proof.
  intros s i Hi. apply wp_iss. intros i1 o1 E1. pose proof (law_poke_csr i t (ip_time ip) v Hi law_time) as L.
  rewrite E1 in L. by destruct L.
Qed.

Ltac noerr := repeat (first
  [ apply noerr_peek_mip | apply noerr_check | apply noerr_peek_deferred | apply noerr_defer | apply noerr_poke_mip
  | apply noerr_poke_time | apply noerr_ret | apply noerr_get | apply noerr_when | (apply noerr_upd; by intros s)
  | (apply noerr_bind; [|intros ?]) | case_match ]).

Lemma noerr_change p n : noerr (check_mip_change p n None).
Proof. unfold check_mip_change. noerr. Qed.
Lemma noerr_defer_check t mip u : noerr (check_and_defer_interrupt fl ip hart t mip u).
Proof. unfold check_and_defer_interrupt. noerr. Qed.
Lemma noerr_time t c u : noerr (poke_time_csr fl ip hart t c u).
Proof. unfold poke_time_csr, note_change. repeat (noerr || apply noerr_change || apply noerr_defer_check). Qed.
Lemma drop_restored_spec s i c (Q : unit → bi * I → Prop) :
  iss_ok i →
  (∀ s' i', iss_ok i' → bi_errors s' = bi_errors s → bi_w s' = bi_w s → bi_patch_mode s' = bi_patch_mode s →
     bi_undeferred_xret s' = bi_undeferred_xret s → bi_deferred_intr_age s' = bi_deferred_intr_age s → Q tt (s', i')) →
  wp (drop_restored ip hart c) Q (s, i).
Proof.
  intros Hi HQ. unfold drop_restored. apply wp_bind, wp_get, wp_when; intros _; [|by apply HQ].
  apply wp_bind, peek_mip_spec; [done|]. intros i1 K1 _. apply wp_bind, wp_upd, wp_bind, poke_mip_frame; [done|].
  intros i2 K2. by apply wp_upd, HQ.
Qed.
Lemma noerr_finish c : noerr (finish_step fl ip hart c).
Proof. unfold finish_step. repeat (noerr || apply noerr_time). Qed.

(** What the check after a step calls a mismatch: the design took an interrupt
    that the simulator did not take (a cause of 0 means debug mode); after a
    trap return, when the deferral was lifted, the simulator took one alone;
    the causes differ; a deferred one was left pending for too long. *)
Definition intr_mismatch (d w : trap_info) (undeferred : bool) (ages : gmap Z Z) : bool :=
  if ti_intr d && negb (ti_intr w) then negb (ti_icause d =? 0)
  else if undeferred then negb (ti_intr d) && ti_intr w
  else (ti_intr d && ti_intr w && negb (ti_icause d =? ti_icause w)) ||
       bool_decide (map_Exists (λ _ age, if_max_pend_intr_age fl < age) ages).

End calls.

(** ** The Whisper client as simulator *)

Section whisper.
Context {St : Type}.
Variable interact : St → wmsg → St * wmsg.
Variable mk_flags : wbits → Z.
Variable sp : special.
Variable msg0 : wmsg.
Variables (FLAGS_cosim FLAGS_cache_model_en : bool) (FLAGS_pa_mask : Z).

Definition whisper_iss : Iss (client St) := {|
  iss_peek hart res addr c :=
    let '(c, v, _, ok) := whisperPeek interact FLAGS_cosim FLAGS_pa_mask hart res addr c in (c, v, ok);
  iss_poke hart t res addr v c :=
    whisperPoke interact mk_flags FLAGS_cosim FLAGS_cache_model_en hart t res addr v false false c;
  iss_poke_mem hart t addr size v c :=
    whisperPokeMem interact mk_flags FLAGS_cosim FLAGS_pa_mask hart t (chr "m"%char) addr size v false false c;
  iss_check hart c := whisperCheckInterrupt interact msg0 FLAGS_cosim hart c;
  iss_seipin hart c := whisperGetSeiPin interact sp msg0 FLAGS_cosim hart c;
  iss_nmi hart t cause c := whisperNmi interact FLAGS_cosim hart t cause c;
  iss_clear_nmi_cause hart t cause c := whisperClearNmiCause interact FLAGS_cosim hart t cause c
|}.
End whisper.

(** ** A simulator that satisfies the laws

    One hart with the registers concerned; writing address 0x100 raises the
    machine external interrupt, the timer interrupt follows the time register. *)

Record mini := Mini { mn_mip : Z; mn_seip : bool; mn_enabled : Z; mn_deferred : Z; mn_mvip : Z }.
#[export] Instance eta_mini : Eta mini := λ m, Mini (mn_mip m) (mn_seip m) (mn_enabled m) (mn_deferred m) (mn_mvip m).

Definition mini_params : intr_params := Intr_params 0x344 0x309 0xc01 50 51 35 43 44 45.
Definition mini_special : special := Special 1 2 3 4 5 6 7 8 9.

Definition mini_ready (m : mini) : Z :=
  Z.ldiff ((mn_mip m ||| (Z.b2z (mn_seip m) ≪ SEI)) &&& mn_enabled m) (mn_deferred m).

Definition mini_peek (res addr : Z) (m : mini) : Z :=
  if res =? chr "c"%char then if addr =? 0x344 then mn_mip m else if addr =? 0x309 then mn_mvip m else 0
  else if res =? chr "s"%char then if addr =? 50 then mn_deferred m else if addr =? 2 then Z.b2z (mn_seip m) else 0
  else 0.
Definition mini_poke (res addr v : Z) (m : mini) : mini :=
  if res =? chr "c"%char then
    if addr =? 0x344 then m <| mn_mip := u64 v |>
    else if addr =? 0x309 then m <| mn_mvip := v |>
    else if addr =? 0xc01 then m <| mn_mip ::= λ p, if 100 <=? v then Z.setbit p STI else Z.clearbit p STI |>
    else m
  else if res =? chr "s"%char then if addr =? 50 then m <| mn_deferred := v |> else m
  else if addr =? 0x100 then m <| mn_mip ::= λ p, Z.setbit p MEI |> else m.

Definition mini_interact (m : mini) (q : wmsg) : mini * wmsg :=
  match wm_type q with
  | Peek => (m, q <| wm_value := mini_peek (wm_resource q) (wm_address q) m |>)
  | Poke => (mini_poke (wm_resource q) (wm_address q) (wm_value q) m, q)
  | CheckInterrupt =>
      (m, q <| wm_flags := if mini_ready m =? 0 then 0 else 1 |> <| wm_value := Z.log2 (mini_ready m) |>)
  | _ => (m, q)
  end.

#[export] Instance mini_iss : Iss (client mini) :=
  whisper_iss mini_interact sample_mk_flags mini_special sample_msg true false 0.

Definition mini_of (c : client mini) : mini := default (Mini 0 false 0 0 0) (wc_server c).
Definition mini_view (c : client mini) : iss_view :=
  let m := mini_of c in Iss_view (mn_mip m) (mn_seip m) (mn_enabled m) (mn_deferred m) (mn_mvip m) 0.
Definition mini_ok (c : client mini) : Prop := is_Some (wc_server c) ∧ 0 ≤ mn_mip (mini_of c).

Lemma mini_ok_inv c : mini_ok c → ∃ m, wc_server c = Some m ∧ 0 ≤ mn_mip m ∧ mini_of c = m.
Proof. intros [[m E] H]. exists m. unfold mini_of in *. by rewrite E in *. Qed.

(** What a call does to the server. *)
Lemma mini_call hart t f c m m' r :
  wc_server c = Some m →
  mini_interact m (addressed c (f (wc_req c <| wm_hart := hart |> <| wm_type := t |>))) = (m', r) →
  wc_server (call mini_interact true hart t f c) = Some m' ∧ wc_reply (call mini_interact true hart t f c) = r.
Proof. intros E Ei. unfold call, send, whisperCommand. rewrite E. unfold addressed in Ei. by rewrite Ei. Qed.

Lemma mini_ok_of c m : wc_server c = Some m → 0 ≤ mn_mip m → mini_ok c ∧ mini_of c = m.
Proof. intros E H. unfold mini_ok, mini_of. rewrite E. by split_and!. Qed.

Lemma mini_peek_ok hart res addr c :
  mini_ok c →
  ∃ c', iss_peek hart res addr c = (c', mini_peek res (masked 0 addr) (mini_of c), true) ∧ mini_ok c' ∧ mini_of c' = mini_of c.
Proof.
  intros (m & E & H & Em)%mini_ok_inv. rewrite Em. cbn [iss_peek mini_iss whisper_iss]. unfold whisperPeek.
  set (f := λ r : wmsg, _). destruct (mini_call hart Peek f c m _ _ E eq_refl) as [S R].
  set (c' := call _ _ _ _ _ _) in *. clearbody c'. exists c'. rewrite R.
  destruct (mini_ok_of c' m S H) as [K V]. by split_and!.
Qed.

Lemma mini_poked m q res addr v :
  wm_type q = Poke → wm_resource q = res → wm_address q = addr → wm_value q = v →
  mini_interact m q = (mini_poke res addr v m, q).
Proof. intros E <- <- <-. unfold mini_interact. by rewrite E. Qed.

Lemma mini_poke_call hart f c m res addr v :
  wc_server c = Some m → (0 ≤ mn_mip m → 0 ≤ mn_mip (mini_poke res addr v m)) → 0 ≤ mn_mip m →
  let q := addressed c (f (wc_req c <| wm_hart := hart |> <| wm_type := Poke |>)) in
  wm_type q = Poke → wm_resource q = res → wm_address q = addr → wm_value q = v →
  let c' := call mini_interact true hart Poke f c in
  valid_of (wc_reply c') = true ∧ mini_ok c' ∧ mini_of c' = mini_poke res addr v m.
Proof.
  intros E Hp H q T R A V. destruct (mini_call hart Poke f c m _ _ E (mini_poked m q res addr v T R A V)) as [S Rp].
  cbv zeta. rewrite Rp. unfold valid_of. rewrite T. split; [done|]. apply mini_ok_of; [done|by apply Hp].
Qed.

Lemma mini_poke_ok hart t res addr v c :
  mini_ok c → (0 ≤ mn_mip (mini_of c) → 0 ≤ mn_mip (mini_poke res addr v (mini_of c))) →
  ∃ c', iss_poke hart t res addr v c = (c', true) ∧ mini_ok c' ∧ mini_of c' = mini_poke res addr v (mini_of c).
Proof.
  intros (m & E & H & Em)%mini_ok_inv. rewrite Em. intros Hp. cbn [iss_poke mini_iss whisper_iss]. unfold whisperPoke.
  set (f := λ r : wmsg, _).
  destruct (mini_poke_call hart f c m res addr v E Hp H eq_refl eq_refl eq_refl eq_refl) as (V & K & P).
  eexists. by rewrite V.
Qed.

Lemma mini_poke_mem_ok hart t addr size v c :
  mini_ok c →
  ∃ c', iss_poke_mem hart t addr size v c = (c', true) ∧ mini_ok c' ∧
    mini_of c' = mini_poke (chr "m"%char) (masked 0 addr) v (mini_of c).
Proof.
  intros (m & E & H & Em)%mini_ok_inv. rewrite Em. cbn [iss_poke_mem mini_iss whisper_iss]. unfold whisperPokeMem.
  set (f := λ r : wmsg, _).
  destruct (mini_poke_call hart f c m (chr "m"%char) (masked 0 addr) v E) as (V & K & P); [|done|done..|].
  - intros _. cbn [mini_poke]. unfold mini_poke. change (chr "m"%char =? chr "c"%char) with false.
    change (chr "m"%char =? chr "s"%char) with false. cbv iota.
    destruct (masked 0 addr =? 0x100); [|done]. cbn. apply Z.lor_nonneg. split; [done|]. by apply Z.shiftl_nonneg.
  - eexists. by rewrite V.
Qed.

(** Only the deferred register and mip matter. *)
Lemma mini_view_eq c c' : mini_of c' = mini_of c → mini_view c' = mini_view c.
Proof. unfold mini_view. by intros ->. Qed.

Lemma mini_raises (P : Z → Prop) c c' :
  mn_enabled (mini_of c') = mn_enabled (mini_of c) → mn_deferred (mini_of c') = mn_deferred (mini_of c) →
  (∀ k, Z.testbit (mn_mip (mini_of c')) k = true → Z.testbit (mn_mip (mini_of c)) k = true ∨ P k) →
  raises P (mini_view c) (mini_view c').
Proof. intros E D H. by split. Qed.

Lemma testbit_u64 v k : 0 ≤ k < 64 → Z.testbit (u64 v) k = Z.testbit v k.
Proof. intros Hk. unfold u64. rewrite Z.testbit_mod_pow2 by lia. by rewrite (proj2 (Z.ltb_lt k 64)) by lia. Qed.
Lemma testbit_u64_true v k : Z.testbit (u64 v) k = true → Z.testbit v k = true.
Proof.
  destruct (decide (0 ≤ k)); [|by rewrite Z.testbit_neg_r by lia]. unfold u64. rewrite Z.testbit_mod_pow2 by lia.
  by intros [_ H]%andb_true_iff.
Qed.

Lemma mini_check hart c :
  mini_ok c →
  ∃ c', iss_check hart c = (c', (negb (mini_ready (mini_of c) =? 0), Z.log2 (mini_ready (mini_of c)), false)) ∧
    mini_ok c' ∧ mini_of c' = mini_of c.
Proof.
  intros (m & E & H & Em)%mini_ok_inv. rewrite Em. cbn [iss_check mini_iss whisper_iss].
  unfold whisperCheckInterrupt, call_local, send_local, whisperCommand. rewrite E. unfold mini_interact.
  cbn -[mini_ready Z.log2]. eexists. split; [by destruct (mini_ready m =? 0)|]. by apply mini_ok_of.
Qed.

Lemma mini_seipin hart c :
  mini_ok c →
  ∃ c', iss_seipin hart c = (c', Z.b2z (mn_seip (mini_of c))) ∧ mini_ok c' ∧ mini_of c' = mini_of c.
Proof.
  intros (m & E & H & Em)%mini_ok_inv. rewrite Em. cbn [iss_seipin mini_iss whisper_iss].
  unfold whisperGetSeiPin, peek_special, call_local, send_local, whisperCommand. rewrite E. unfold mini_interact.
  cbn -[mini_peek]. eexists. split; [done|]. by apply mini_ok_of.
Qed.

Lemma mini_nmi hart t f c :
  mini_ok c → t = Nmi ∨ t = ClearNmi → (∀ q, wm_type (f q) = wm_type q) →
  mini_ok (call mini_interact true hart t f c) ∧ mini_of (call mini_interact true hart t f c) = mini_of c.
Proof.
  intros (m & E & H & Em)%mini_ok_inv Ht Hf. rewrite Em.
  destruct (mini_call hart t f c m m (addressed c (f (wc_req c <| wm_hart := hart |> <| wm_type := t |>))) E) as [S R].
  - set (q0 := wc_req c <| wm_hart := hart |> <| wm_type := t |>).
    assert (wm_type (addressed c (f q0)) = t) as Et by (transitivity (wm_type (f q0)); [done|]; by rewrite Hf).
    unfold mini_interact. rewrite Et. by destruct Ht as [->| ->].
  - by apply mini_ok_of.
Qed.

Lemma mini_ready_spec c k : 0 ≤ k → Z.testbit (mini_ready (mini_of c)) k = true ↔ ready (mini_view c) k.
Proof.
  intros Hk. unfold mini_ready, ready, pending, mini_view. cbn [v_mip v_seip v_enabled v_deferred].
  rewrite Z.ldiff_spec, Z.land_spec, Z.lor_spec.
  assert (Z.testbit (Z.b2z (mn_seip (mini_of c)) ≪ SEI) k = bool_decide (k = SEI ∧ mn_seip (mini_of c) = true)) as ->.
  { destruct (mn_seip (mini_of c)); cbn [Z.b2z].
    - rewrite Z.shiftl_1_l. destruct (decide (k = SEI)) as [->|Hne].
      + rewrite Z.pow2_bits_true by done. by rewrite bool_decide_eq_true_2.
      + rewrite Z.pow2_bits_false by done. by rewrite bool_decide_eq_false_2 by naive_solver.
    - rewrite Z.shiftl_0_l, Z.bits_0. by rewrite bool_decide_eq_false_2 by naive_solver. }
  rewrite !andb_true_iff, orb_true_iff, bool_decide_eq_true, negb_true_iff. tauto.
Qed.

Lemma mini_ready_nonneg c : mini_ok c → 0 ≤ mini_ready (mini_of c).
Proof.
  intros [_ H]. unfold mini_ready. apply Z.ldiff_nonneg. left. apply Z.land_nonneg. left. apply Z.lor_nonneg.
  split; [done|]. apply Z.shiftl_nonneg. by destruct (mn_seip _).
Qed.

Lemma setbit_true x j k : 0 ≤ j → Z.testbit (Z.setbit x j) k = true → Z.testbit x k = true ∨ k = j.
Proof.
  intros Hj. destruct (decide (0 ≤ k)); [|by rewrite Z.testbit_neg_r by lia]. rewrite Z.setbit_eqb by lia.
  intros [->%Z.eqb_eq|H]%orb_true_iff; [by right|by left].
Qed.

#[export] Instance mini_laws : IssLaws (client mini) mini_params 0.
Proof.
  refine {| view := mini_view; iss_ok := mini_ok; quiet_csr := λ a, a = 0xc01; writable := λ k, 0 ≤ k < 64 |};
    cbn [ip_mip ip_mvip ip_time ip_DeferredInterrupts ip_DeferredNmis mini_params].
  - intros c k _. cbn. by rewrite Z.land_0_r, Z.bits_0.
  - intros c res addr K. destruct (mini_peek_ok 0 res addr c K) as (c' & -> & K' & V). split_and!; [done|by apply mini_view_eq|..];
      intros -> ->; done.
  - intros c K. destruct (mini_seipin 0 c K) as (c' & -> & K' & V). split_and!; [done|by apply mini_view_eq|].
    cbn. by destruct (mn_seip _).
  - intros c K. destruct (mini_check 0 c K) as (c' & -> & K' & V). pose proof (mini_ready_nonneg c K) as Hn.
    split_and!; [done|by apply mini_view_eq| |].
    + intros [k Hk]. apply negb_true_iff, Z.eqb_neq. intros Hz. destruct (decide (0 ≤ k)) as [H0|H0].
      * apply (mini_ready_spec c k H0) in Hk. by rewrite Hz, Z.bits_0 in Hk.
      * destruct Hk as (_ & Hk & _). by rewrite Z.testbit_neg_r in Hk by lia.
    + intros Hz%negb_true_iff%Z.eqb_neq. rewrite virt_cause_false.
      apply (mini_ready_spec c _ (Z.log2_nonneg _)). apply Z.bit_log2. lia.
  - intros c t v K. destruct (mini_poke_ok 0 t (chr "s"%char) 50 v c K) as (c' & -> & K' & V); [done|].
    split_and!; [done..|]. unfold mini_view. by rewrite V.
  - intros c t v K. destruct (mini_poke_ok 0 t (chr "s"%char) 51 v c K) as (c' & -> & K' & V); [done|].
    split; [done|by apply mini_view_eq].
  - intros c t v K. destruct (mini_poke_ok 0 t (chr "c"%char) 0x344 v c K) as (c' & -> & K' & V); [intros _; apply u64_range|].
    split_and!; [done|apply mini_raises; rewrite V; try done| |].
    + intros k Hk. right. by apply testbit_u64_true.
    + unfold mini_view. by rewrite V.
    + intros k Hk. unfold mini_view. rewrite V. by apply testbit_u64.
  - intros c t v K. destruct (mini_poke_ok 0 t (chr "c"%char) 0x309 v c K) as (c' & -> & K' & V); [done|].
    split_and!; [done|apply mini_raises; rewrite V; try done; by left|unfold mini_view; by rewrite V..].
  - intros c t addr v K ->. destruct (mini_poke_ok 0 t (chr "c"%char) 0xc01 v c K) as (c' & -> & K' & V).
    { intros H. change (0 ≤ if 100 <=? v then Z.setbit (mn_mip (mini_of c)) STI else Z.clearbit (mn_mip (mini_of c)) STI).
      destruct (100 <=? v); [apply Z.lor_nonneg; split; [done|by apply Z.shiftl_nonneg]|apply Z.ldiff_nonneg; by left]. }
    split_and!; [done|apply mini_raises; rewrite V; try done; by right|unfold mini_view; by rewrite V].
  - done.
  - intros c t addr sz v K. destruct (mini_poke_mem_ok 0 t addr sz v c K) as (c' & -> & K' & V). split; [done|].
    unfold mini_poke in V. change (chr "m"%char =? chr "c"%char) with false in V.
    change (chr "m"%char =? chr "s"%char) with false in V. cbv iota in V.
    destruct (masked 0 addr =? 0x100); apply mini_raises; rewrite V; try done; [|by left].
    intros k [H| ->]%setbit_true; [by left|by right; left|done].
  - intros c t cs K. destruct (mini_nmi 0 Nmi (λ r, r <| wm_time := t |> <| wm_value := cs |>) c K) as [K' V]; [by left|done|].
    split; [done|by apply mini_view_eq].
  - intros c t cs K. destruct (mini_nmi 0 ClearNmi (λ r, r <| wm_flags := 0 |> <| wm_value := cs |> <| wm_time := t |>) c K)
      as [K' V]; [by right|done|]. split; [done|by apply mini_view_eq].
Defined.

Definition mini_flags : intr_flags := Intr_flags true false false false 8.
Definition mini_client (m : mini) : client mini := Client sample_msg sample_msg (Some m) [] [].
Definition mini_start : client mini := mini_client (Mini 0 false 0xffff 0 0).
Definition mini_events : list async :=
  [AMtip 1 true false; AMsi 2 0x100 5 false; ATimer (Rv_intr 3 0 true 0 0 0 false 0 8 23 200 true false);
   AMtip 4 false false; ANmi (Rv_nmi 5 true 2)].


(** The simulator lost the machine timer interrupt the design took, and an
    external interrupt came after the last retirement. *)
Definition mini_late : bi := bi_new <| bi_dut_mip := 1 ≪ MTI |> <| bi_mip_changed := 1 ≪ MEI |>.
Definition mini_trap : trap_info := Trap_info false 0 true MTI false 0.

Lemma trap_step_selects_witness :
  let v := view (pre_step_interrupt_process mini_flags mini_params 0 9 mini_trap
                   (mini_late, mini_client (Mini (1 ≪ MEI) false 0xffff (1 ≪ MEI) 0))).1.2 in
  pending v MTI ∧ Z.testbit (v_deferred v) MTI = false ∧ Z.testbit (v_deferred v) MEI = true.
Proof.
  intros v. destruct (trap_step_selects mini_flags mini_params 0 mini_late (mini_client (Mini (1 ≪ MEI) false 0xffff (1 ≪ MEI) 0))
    9 mini_trap) as (P & _ & _ & D).
  - split; [by eexists|done].
  - done.
  - done.
  - done.
  - done.
  - done.
  - done.
  - split; [exact P|]. split; [exact (D MTI ltac:(done))|exact (D MEI ltac:(done))].
Defined.


(** ** The NMI deferral is not lifted after a trap return *)

Section nmi_xret.
Context {I : Type} `{!Iss I} (fl : intr_flags) (ip : intr_params) (hart : Z).

Definition unset {A} (m : M I A) : Prop :=
  ∀ x, bi_nmi_undeferred_xret x.1 = false → bi_nmi_undeferred_xret (m x).1.1 = false.

Lemma unset_bind {A B} (m : M I A) (k : A → M I B) : unset m → (∀ a, unset (k a)) → unset (m ≫= k).
Proof.
  intros Hm Hk x Hx. unfold mbind, M_bind. specialize (Hm x Hx). destruct (m x) as [x' a]. by apply Hk.
Qed.
Lemma unset_iss {A} (f : I → I * A) : unset (iss f).
Proof. intros x Hx. unfold iss. by destruct (f x.2). Qed.
Lemma unset_when b m : unset m → unset (when b m).
Proof. destruct b; [done|]. by intros _ x. Qed.
Lemma unset_upd (f : bi → bi) :
  (∀ s, bi_nmi_undeferred_xret s = false → bi_nmi_undeferred_xret (f s) = false) → unset (upd f).
Proof. intros H x. apply H. Qed.

Ltac unset := repeat (first
  [ apply unset_iss | apply unset_when | (apply unset_upd; intros s Hs; exact Hs) | (intros x Hx; exact Hx)
  | (apply unset_upd; by intros s) | (apply unset_bind; [|intros ?]) | case_match ]).

Lemma track_bits_unset i0 l s : bi_nmi_undeferred_xret (foldl (track_bit i0) s l) = bi_nmi_undeferred_xret s.
Proof.
  revert s. induction l as [|c l IH]; intros s; [done|]. cbn [foldl]. rewrite IH. unfold track_bit.
  cbv zeta. by repeat case_match.
Qed.
Lemma track_mip_unset i0 s : bi_nmi_undeferred_xret (track_mip i0 s) = bi_nmi_undeferred_xret s.
Proof.
  assert (∀ g (x : bi), bi_nmi_undeferred_xret (x <| bi_dut_mip_clr_age ::= g |>) = bi_nmi_undeferred_xret x) as H by done.
  unfold track_mip. cbv zeta. rewrite H, track_bits_unset. done.
Qed.
Lemma race_bits_unset i0 irs p :
  bi_nmi_undeferred_xret (foldl (race_bit i0) p irs).1 = bi_nmi_undeferred_xret p.1.
Proof.
  revert p. induction irs as [|r irs IH]; intros [s z]; [done|]. cbn [foldl]. rewrite IH. cbn [race_bit fst].
  by destruct (_ && negb _).
Qed.
Lemma sw_hw_race_unset i0 irs s : bi_nmi_undeferred_xret (sw_hw_race i0 irs s).1 = bi_nmi_undeferred_xret s.
Proof. apply race_bits_unset. Qed.

Lemma async_unset e : unset (process_async fl ip hart e).
Proof.
  destruct e; cbn [process_async];
    unfold process_dut_nmi, process_dut_interrupt, process_dut_timer, process_dut_mtip, process_counter_overflow,
      process_dut_imsic_msi, process_imsic_msi, imsic_effect, poke_nmi, clear_nmi, defer_nmi, poke_time_csr,
      poke_non_standard_interrupt, note_change, check_mip_change, check_and_defer_interrupt, check_interrupt,
      peek_deferred, defer_interrupt, peek_mip, poke_mip, peek_seip, error; unset.
  all: apply unset_upd; intros s Hs; by rewrite ?track_mip_unset, ?sw_hw_race_unset.
Qed.

(** The flag that marks an NMI deferral lifted after a trap return is never
    set, in any sequence of events and retirements: the check before a step
    looks at the opcode of a simulator state that is filled by the step. *)
Lemma retire_unset step cycle nmie d : unset (retire fl ip step hart cycle nmie d).
Proof.
  unfold retire, pre_step_nmi_check, pre_step_interrupt_process, pre_step_trap_pending_restore, restore_bit,
    pre_step_patch_exit_trap_select, post_step_nmi_check, post_step_interrupt_check, drop_restored, finish_step,
    poke_time_csr, note_change, check_mip_change, check_and_defer_interrupt, peek_deferred_interrupts, peek_deferred,
    check_interrupt, defer_interrupt, defer_nmi, peek_mip, poke_mip, error.
  change (is_xret_opcode 0) with false. unset.
Qed.
End nmi_xret.
