(* ===== verification/RvfiLog.v ===== *)
(** * RvfiLog: retired instructions and their log (src/cosim)

    The structs by which the retirement interface and the bridge exchange
    instructions (bridge/bridge_if.h), and the text of the retirement log that
    dut_if/rvfi/rvfi.cpp writes for each of them: one line per changed
    resource, with the disassembly, the names of CSRs and the trap's cause.

    The disassembler, the table of CSRs and the names of interrupts and
    exceptions are code outside the repository: they are the section's
    variables.  A lookup with [at] of a privilege mode that has no name is an
    exception, [None] here. *)

From Stdlib Require Import Ascii.
From Stdlib Require String.
From S2P Require Import Prelude Bytes Cstd PcgExtras CosimUtil McmiSplit Mcmi.
Local Open Scope string_scope.
Local Open Scope list_scope.
Local Open Scope Z_scope.

(** ** Structs *)

Record pc_t := Pc { pc_valid : bool; pc_rdata : Z; pc_error : bool }.
Record gpr_t := Gpr { gpr_valid : bool; gpr_addr : Z; gpr_wdata : Z }.
Record fpr_t := Fpr { fpr_valid : bool; fpr_addr : Z; fpr_wdata : Z }.
Record vr_t := Vr { vr_valid : bool; vr_addr : Z; vr_wdata : Z }.
Record csr_t := Csr {
  csr_valid : bool; csr_hart : Z; csr_cycle : Z; csr_addr : Z; csr_wmask : Z; csr_wdata : Z
}.

Record rv_instr_t := Rv_instr {
  i_valid : bool; i_first_uop : bool; i_last_uop : bool; i_comp : bool; i_ucode : bool;
  i_opcode_modified : bool; i_hart : Z; i_id : Z; i_cycle : Z; i_core_cycle : Z; i_tag : Z;
  i_branch_tag : Z; i_opcode : Z; i_disasm : string; i_uop : Z; i_cracked : bool; i_trap : bool;
  i_trap_valid : bool; i_trap_opcode : Z; i_trap_addr : Z; i_priv : Z; i_nmi : bool; i_intr : bool;
  i_virt_mode : bool; i_excp : bool; i_ncause : Z; i_icause : Z; i_ecause : Z; i_mem_va : Z;
  i_mem_pa : Z; i_flags : Z; i_pc : pc_t; i_gpr : list gpr_t; i_fpr : list fpr_t; i_vr : list vr_t;
  i_csr : list csr_t; i_mem_read : mem_t; i_mem_write : mem_t; i_mtime_valid : bool; i_mtime : Z
}.
#[export] Instance eta_rv_instr : Eta rv_instr_t := λ i,
  Rv_instr (i_valid i) (i_first_uop i) (i_last_uop i) (i_comp i) (i_ucode i) (i_opcode_modified i)
    (i_hart i) (i_id i) (i_cycle i) (i_core_cycle i) (i_tag i) (i_branch_tag i) (i_opcode i) (i_disasm i)
    (i_uop i) (i_cracked i) (i_trap i) (i_trap_valid i) (i_trap_opcode i) (i_trap_addr i) (i_priv i)
    (i_nmi i) (i_intr i) (i_virt_mode i) (i_excp i) (i_ncause i) (i_icause i) (i_ecause i) (i_mem_va i)
    (i_mem_pa i) (i_flags i) (i_pc i) (i_gpr i) (i_fpr i) (i_vr i) (i_csr i) (i_mem_read i)
    (i_mem_write i) (i_mtime_valid i) (i_mtime i).

(** The default member initialisers, then [clear()].  [raw] is a
    [mem_t] whose fields nothing has set, [raw_mtime] the [mtime] of the
    struct. *)
Definition rv_instr_new (raw : mem_t) (raw_mtime : Z) : rv_instr_t :=
  Rv_instr false true true false false false 0 0 0 0 0 0 0 (fill_left 128 " "%char EmptyString) 0 false false
    false 0 0 3 false false false false 0 0 0 0 0 0 (Pc false 0 false) [] [] [] []
    (raw <| m_valid := false |>) (raw <| m_valid := false |>) false raw_mtime.

Record rv_instr_group_t := Rv_instr_group {
  gr_cycle : Z; gr_instrs : list rv_instr_t; gr_csrs : list csr_t
}.
Record rv_debug_t := Rv_debug { db_enter : bool; db_exit : bool; db_cycle : Z; db_hart : Z }.

(** ** Names (bridge_params.h) *)

Definition priv_to_string (p : Z) : option string :=
  if p =? 0 then Some "U" else if p =? 1 then Some "HS" else if p =? 3 then Some "M"
  else if p =? 4 then Some "P" else if p =? 6 then Some "DE" else if p =? 7 then Some "DP"
  else if p =? 8 then Some "VU" else if p =? 9 then Some "VS" else if p =? 11 then Some "M" else None.
Definition priv_known (p : Z) : bool := bool_decide (is_Some (priv_to_string p)).
Definition nmi_to_string (n : Z) : option string :=
  if n =? 2 then Some "EXT_NMI" else if n =? 3 then Some "CLA_NMI" else None.
Definition PRIV_DEBUG_ROM : Z := 6.
Definition PRIV_DEBUG_PROGBUF : Z := 7.

(** [mem_attr_to_string] and the test of non-cacheable or I/O memory. *)
Definition mem_attr_to_string (attr : Z) : string :=
  (if negb (attr &&& 0x800 =? 0) then "io," else "mem,") +:+ (if negb (attr &&& 0x1000 =? 0) then "c" else "nc").
Definition rvfi_is_ncio (attr : Z) : bool := negb (attr &&& 0x800 =? 0) || (attr &&& 0x1000 =? 0).

(** ** CSR names in a disassembled instruction *)

Definition is_digit (c : ascii) : bool := match digit_val c with Some d => d <? 10 | None => false end.
Fixpoint take_digits (s : string) : string :=
  match s with
  | String c s => if is_digit c then String c (take_digits s) else EmptyString
  | EmptyString => EmptyString
  end.

(** The digits of the first match of [c(\d+)]. *)
Fixpoint csr_search (s : string) : option string :=
  match s with
  | EmptyString => None
  | String c s =>
      if Ascii.eqb c "c" then
        match take_digits s with EmptyString => csr_search s | ds => Some ds end
      else csr_search s
  end.

(** [regex_replace]: each match becomes [name]; [skip] while the digits of a
    match are passed over.  A name holds no [$]. *)
Fixpoint csr_replace (name : string) (skip : bool) (s : string) : string :=
  match s with
  | EmptyString => EmptyString
  | String c s =>
      if skip && is_digit c then csr_replace name true s
      else if Ascii.eqb c "c" && match s with String d _ => is_digit d | EmptyString => false end
      then name +:+ csr_replace name true s
      else String c (csr_replace name false s)
  end.

(** ** Custom micro-operations: the flag [rvfi_custom_uop_opcodes] *)

Definition add_label (ls : option (gmap Z string)) (entry : string) : option (gmap Z string) :=
  ls ← ls;
  match split_first ":" entry with
  | None => Some ls
  | Some (op, label) => op ← stoull 0 op; Some (<[u32 op := label]> ls)
  end.
Definition parse_labels (flag : string) : option (gmap Z string) :=
  foldl add_label (Some ∅) (getline_tokens "," flag).

(** ** Formatting of numbers: [{:0<w>x}] and [{:#x}] of 64-bit integers *)

Definition hexp (w : Z) (n : Z) : string := put_hex w "0"%char false n.
Definition hexs (n : Z) : string := "0x" +:+ hex64 n.

(** What the text of a log line needs of the interface's state. *)
Record log_view := Log_view {
  lv_cracked_gpr : bool;              (* cracked_gpr_.valid *)
  lv_patch_mode : bool;               (* patch_mode_ *)
  lv_virt : bool                      (* intr_virt_mode_ *)
}.
Record log_flags := Log_flags {
  lf_rvfi_log : bool;                 (* FLAGS_rvfi_log *)
  lf_36b_uop : bool;                  (* FLAGS_rvfi_log_36b_uop *)
  lf_mcm : bool                       (* FLAGS_mcm *)
}.

Section log.
Context (disassemble : Z → string) (csr_by_address : Z → option string) (intr_name excp_name : Z → string).

(** [get_csr_name_instr]: [Some] of the modified string for [true]. *)
Definition get_csr_name_instr (input : string) : option string :=
  digits ← csr_search input;
  addr ← stoull 10 digits;
  name ← csr_by_address addr;
  Some (csr_replace name false input).

(** CSR addresses of mhpmevent3-10. *)
Definition is_mhpmevent (opcode : Z) : bool :=
  match is_csr_opcode opcode with Some a => (0x323 <=? a) && (a <=? 0x32A) | None => false end.

Definition instr_text (labels : gmap Z string) (v : log_view) (i : rv_instr_t) : string :=
  let custom := bool_decide (is_Some (labels !! i_opcode i)) in
  if (negb (i_ucode i) || lv_cracked_gpr v) && negb custom then
    let dis := disassemble (i_opcode i) in
    let funct := (i_opcode i ≫ 12) &&& 0x7 in
    if (i_opcode i &&& 0x7f =? 0x73) && negb (funct =? 0) && negb (funct =? 4)
    then default dis (get_csr_name_instr dis) else dis
  else if is_mhpmevent (i_opcode i) && i_ucode i && negb (i_last_uop i) then
    default EmptyString (get_csr_name_instr (disassemble (i_opcode i))) +:+ " (microcode)"
  else match labels !! i_opcode i with
       | Some l => l
       | None => get_nth_word (i_disasm i) 1 +:+ " (microcode)"
       end.

Definition mem_text (m : mem_t) : string :=
  if m_valid m then
    " [" +:+ hexs (m_va m) +:+ ":" +:+ hexs (m_pa m) +:+ ":" +:+ mem_attr_to_string (m_attr m) +:+
    (if m_error m then ":ras/bus_error" else EmptyString) +:+ "]"
  else EmptyString.

Definition print_instr_resource (fl : log_flags) (labels : gmap Z string) (v : log_view) (i : rv_instr_t)
    (resource_str : string) : option string :=
  priv ← priv_to_string (i_priv i);
  Some ("#" +:+ dec (if lf_mcm fl then i_tag i else i_id i) +:+ " " +:+ dec (i_cycle i) +:+ " " +:+
        dec (i_core_cycle i) +:+ " " +:+ dec (i_hart i) +:+ " " +:+ priv +:+ " " +:+ hexp 16 (pc_rdata (i_pc i)) +:+
        " " +:+ (if lf_36b_uop fl then hexp 9 (i_uop i) else hexp 8 (i_opcode i)) +:+ resource_str +:+
        " " +:+ instr_text labels v i +:+
        (if negb (i_flags i =? 0) then " (flags:" +:+ hexs (i_flags i) +:+ ")" else EmptyString) +:+
        mem_text (i_mem_write i) +:+ mem_text (i_mem_read i) +:+
        (if i_trap_valid i then (if pc_error (i_pc i) then " [ras/bus_error] (trap)" else " (trap)")
         else EmptyString) +:+
        (if i_nmi i then " (nmi: " +:+ default (dec (i_ncause i)) (nmi_to_string (i_ncause i)) +:+ ")"
         else EmptyString) +:+
        (if i_intr i then
           " (interrupt: " +:+
           (if negb (i_icause i =? 0) || negb (lv_virt v)
            then intr_name (u64 (i_icause i + Z.b2z (lv_virt v))) else dec (i_icause i)) +:+ ")"
         else EmptyString) +:+
        (if i_excp i then " (exception: " +:+ excp_name (i_ecause i) +:+ ")" else EmptyString) +:+
        (if i_comp i then " (compressed)" else EmptyString) +:+
        (if lv_patch_mode v then " (patch)" else EmptyString)).

(** The four 64-bit chunks of a vector register, most significant first. *)
Definition vr_text (w : Z) : string :=
  hexp 16 (u64 (w ≫ 192)) +:+ hexp 16 (u64 (w ≫ 128)) +:+ hexp 16 (u64 (w ≫ 64)) +:+ hexp 16 (u64 w).

(** The resources of an instruction, in the order r, f, v, m, c. *)
Definition resources (i : rv_instr_t) : list string :=
  ((λ g, " r " +:+ hexp 16 (gpr_addr g) +:+ " " +:+ hexp 16 (gpr_wdata g)) <$> i_gpr i) ++
  ((λ f, " f " +:+ hexp 16 (fpr_addr f) +:+ " " +:+ hexp 16 (fpr_wdata f)) <$> i_fpr i) ++
  ((λ w, " v " +:+ hexp 2 (vr_addr w) +:+ " " +:+ vr_text (vr_wdata w)) <$> filter (λ w, vr_valid w = true) (i_vr i)) ++
  (if m_valid (i_mem_write i)
   then [" m " +:+ hexp 16 (m_va (i_mem_write i)) +:+ " " +:+ hexp 16 (m_data (i_mem_write i))] else []) ++
  (if negb (i_ucode i) || negb (i_last_uop i) then
     (λ c, " c " +:+ hexp 16 (csr_addr c) +:+ " " +:+ hexp 16 (csr_wdata c) +:+ " " +:+ hexp 16 (csr_wmask c)) <$> i_csr i
   else []).
Definition resource_count (i : rv_instr_t) : nat :=
  length (i_gpr i) + length (i_fpr i) + length (i_vr i) + length (i_csr i) + (if m_valid (i_mem_write i) then 1 else 0).

(** The lines written for an instruction; [r0 = 0] when nothing is modified. *)
Definition print_instr (fl : log_flags) (labels : gmap Z string) (v : log_view) (i : rv_instr_t) :
    option (list string) :=
  if negb (lf_rvfi_log fl) then Some []
  else if Nat.eqb (resource_count i) 0 then
    l ← print_instr_resource fl labels v i (" r " +:+ hexp 16 0 +:+ " " +:+ hexp 16 0); Some [l]
  else mapM (print_instr_resource fl labels v i) (resources i).

(** [print_csr], of a CSR the hardware updated; [priv] is [priv_]. *)
Definition print_csr (fl : log_flags) (priv : Z) (c : csr_t) : option (list string) :=
  if negb (lf_rvfi_log fl) then Some []
  else
    p ← priv_to_string priv;
    Some ["#NA " +:+ dec (csr_cycle c) +:+ " " +:+ dec (csr_hart c) +:+ " " +:+ p +:+ " " +:+ hexp 16 0 +:+ " " +:+
          hexp 9 0 +:+ " c " +:+ hexp 16 (csr_addr c) +:+ " " +:+ hexp 16 (csr_wdata c) +:+ " " +:+
          hexp 16 (csr_wmask c) +:+ " (hw update)"].
End log.

(** ** Lemmas *)

Lemma priv_known_some p : priv_known p = true → ∃ s, priv_to_string p = Some s.
Proof. unfold priv_known. intros H%bool_decide_eq_true. destruct H as [s ?]. eauto. Qed.

Lemma filter_id {A} (f : A → bool) l : Forall (λ x, f x = true) l → filter (λ x, f x = true) l = l.
Proof. induction 1; [done|]. rewrite filter_cons_True; [by f_equal|done]. Qed.

Section log_lemmas.
Context (disassemble : Z → string) (csr_by_address : Z → option string) (intr_name excp_name : Z → string).
Notation print_instr := (print_instr disassemble csr_by_address intr_name excp_name).
Notation print_instr_resource := (print_instr_resource disassemble csr_by_address intr_name excp_name).

Lemma print_resource_total fl labels v i r :
  priv_known (i_priv i) = true → ∃ l, print_instr_resource fl labels v i r = Some l.
Proof. intros [p Hp]%priv_known_some. unfold RvfiLog.print_instr_resource. rewrite Hp. simpl. eauto. Qed.

Lemma print_all fl labels v i rs :
  priv_known (i_priv i) = true →
  ∃ ls, mapM (print_instr_resource fl labels v i) rs = Some ls ∧ length ls = length rs.
Proof.
  intros Hp. induction rs as [|r rs IH]; [by exists []|].
  destruct (print_resource_total fl labels v i r Hp) as [l Hl]. destruct IH as (ls & Hls & Hn).
  exists (l :: ls). simpl. rewrite Hl. simpl. rewrite Hls. simpl. by rewrite Hn.
Qed.

(** Printing raises no exception for a known privilege mode. *)
Lemma print_instr_total fl labels v i :
  priv_known (i_priv i) = true → ∃ ls, print_instr fl labels v i = Some ls.
Proof.
  intros Hp. unfold RvfiLog.print_instr. destruct (negb _); [eauto|]. destruct (Nat.eqb _ _).
  - destruct (print_resource_total fl labels v i (" r " +:+ hexp 16 0 +:+ " " +:+ hexp 16 0) Hp) as [l ->].
    simpl. eauto.
  - destruct (print_all fl labels v i (resources i) Hp) as (ls & Hls & _). eauto.
Qed.

Lemma print_csr_total fl p c : priv_known p = true → ∃ ls, print_csr fl p c = Some ls.
Proof. intros [s Hs]%priv_known_some. unfold print_csr. rewrite Hs. destruct (negb _); simpl; eauto. Qed.

(** An instruction with [n] changed resources has [max 1 n] lines, unless
    it is the last micro-operation of a microcode sequence, whose CSR writes
    have none. *)
Lemma log_lines fl labels v i :
  priv_known (i_priv i) = true → lf_rvfi_log fl = true → Forall (λ w, vr_valid w = true) (i_vr i) →
  ∃ ls, print_instr fl labels v i = Some ls ∧
    length ls = if i_ucode i && i_last_uop i
                then (if Nat.eqb (resource_count i) 0 then 1 else resource_count i - length (i_csr i))%nat
                else Nat.max 1 (resource_count i).
Proof.
  intros Hp Hl Hv. unfold RvfiLog.print_instr. rewrite Hl. simpl. destruct (Nat.eqb_spec (resource_count i) 0) as [E|E].
  - destruct (print_resource_total fl labels v i (" r " +:+ hexp 16 0 +:+ " " +:+ hexp 16 0) Hp) as [l ->].
    simpl. exists [l]. rewrite E. by destruct (_ && _).
  - destruct (print_all fl labels v i (resources i) Hp) as (ls & Hls & Hn). exists ls. split; [done|]. rewrite Hn.
    unfold resources. rewrite !length_app, !length_fmap. rewrite filter_id by done.
    unfold resource_count in *. destruct (i_ucode i), (i_last_uop i), (m_valid (i_mem_write i)); simpl;
      rewrite ?length_fmap; simpl; lia.
Qed.
End log_lemmas.

(** The last micro-operation of a microcode sequence that only writes a CSR is
    not in the log at all. *)
Definition csr_only_uop : rv_instr_t :=
  rv_instr_new (Mem_t false 0 0 0 0 0 0 0 0 0 false 0 false 0 false 0 false 0 0 false 0 false 0 false) 0
    <| i_ucode := true |> <| i_csr := [Csr true 0 0 0x300 0 0] |>.
Lemma csr_only_uop_unlogged :
  print_instr (λ _, EmptyString) (λ _, None) (λ _, EmptyString) (λ _, EmptyString)
    (Log_flags true true false) ∅ (Log_view false false false) csr_only_uop = Some [].
Proof. reflexivity. Qed.

Example csr_name_ex :
  get_csr_name_instr (λ a, if a =? 768 then Some "mstatus" else None) "csrrw x5, c768, x6" = Some "csrrw x5, mstatus, x6".
Proof. reflexivity. Qed.
Example parse_labels_ex :
  parse_labels "0x1f:foo,none,32:bar" = Some (<[32 := "bar"]> (<[31 := "foo"]> ∅)).
Proof. reflexivity. Qed.
