(* ===== verification/Rvfi.v ===== *)
(** * Rvfi: the retirement interface (src/cosim/dut_if/rvfi)

    [rvfi] receives what a hart retires, one message per micro-operation, with
    its traps, interrupts and hardware CSR updates.  It gathers the changes of
    the micro-operations of an instruction, adds what is known of a trap, names
    the instruction by the tag the reference simulator expects and hands it to
    the bridge, alone and as part of the group retired in the same cycle.

    A handler takes the state and a message to the new state and the calls it
    makes, in order; [None] is a C++ exception.  [raw], [raw_mtime] and
    [raw_intr] are the indeterminate fields of default-constructed structs. *)

From Stdlib Require Import Ascii.
From Stdlib Require String.
From S2P Require Import Prelude Bytes Cstd PcgExtras CosimUtil AddressMap McmiSplit Mcmi BridgeIntr RvfiLog.
Local Open Scope string_scope.
Local Open Scope list_scope.
Local Open Scope Z_scope.

(** ** Messages (rv_tester_transactions.yml) *)

Record rvfi_msg := Rvfi_msg {
  v_loc : Z; v_cycle : Z; v_core_cycle : Z; v_hart : Z; v_first_uop : bool; v_last_uop : bool; v_ucode : bool;
  v_priv : Z; v_priv_change : bool; v_set_pmode : bool; v_clr_pmode : bool; v_last_insn : bool; v_comp : bool;
  v_order : Z; v_branch_tag : Z; v_insn : Z; v_uop : Z; v_trap : bool; v_mode : Z; v_flags_valid : bool;
  v_flags : Z; v_rd_addr : Z; v_rd_wdata : Z; v_frd_valid : bool; v_frd_addr : Z; v_frd_wdata : Z;
  v_vrd_valid : bool; v_vrd_addr : Z; v_vrd_wdata : Z; v_csr_valid : bool; v_csr_addr : Z; v_csr_wdata : Z;
  v_csr_wmask : Z; v_pc_rdata : Z; v_pc_error : bool; v_mem_addr : Z; v_mem_paddr : Z; v_mem_rmask : Z;
  v_mem_rdata : Z; v_mem_wmask : Z; v_mem_wdata : Z; v_mem_attr : Z; v_mem_page4kX : bool;
  v_mem_page4kX_attr : Z; v_mem_error : bool; v_opcode_modified : bool; v_init_jalr_seen : bool
}.
Record intr_pend_msg := Intr_pend_msg {
  ip_loc : Z; ip_cycle : Z; ip_core_cycle : Z; ip_hw : bool; ip_mip : Z; ip_mip_set : Z; ip_mip_clr : Z;
  ip_seip : bool; ip_buserr_bit : Z; ip_intr_during_ucode : bool
}.
Record mtime_msg := Mtime_msg {
  mt_cycle : Z; mt_mip : Z; mt_mtime : Z; mt_timeCsr : Z; mt_intr_during_ucode : bool; mt_size : Z;
  mt_stce_bit_clear : bool
}.
Inductive reg_file := GP | FP | VC.

Inductive rvfi_event :=
| EReset (loc : Z)
| EDrain (cycle : Z)
| EDisableChecks
| ERvfi (m : rvfi_msg)
| ESteps (hart n_retire cycle steps skips final_steps : Z)
| ERegs (f : reg_file) (loc hart cycle : Z) (value : list Z)
| ECsri (hart cycle addr mask data : Z)
| ECounterOvf (hart cycle addr : Z)
| ETrap (loc id cause order pc_addr : Z) (virt_mode : bool)
| ECoreNmi (loc cycle : Z) (nmi_assert : bool) (nmi_cause : Z)
| EIntrPend (m : intr_pend_msg)
| EMtip (cycle : Z) (mtip intr_during_ucode : bool)
| EMtime (m : mtime_msg)
| EImsicMsi (loc cycle addr data : Z) (intr_during_ucode : bool)
| EDebug (haltreq : bool)
| EBridgeError
| ETerminateMemChecks.

(** ** Calls *)

Inductive rvfi_call :=
| BReset (restore : bool)
| BReportMetrics
| BSetPatchMode (p : patch_mode)
| BInstr (hart : Z) (i : rv_instr_t)              (* process_dut_instr_retire *)
| BGroup (hart : Z) (g : rv_instr_group_t)        (* process_dut_instr_group_retire *)
| BCsrHw (hart : Z) (c : csr_t)                   (* process_dut_csr_hw_update *)
| BEnterDebug (d : rv_debug_t)
| BExitDebug (d : rv_debug_t)
| BExcp (id cause order vec_tag : Z)              (* process_dut_excp *)
| BIntr (id : Z) (i : rv_intr_t)                  (* process_dut_interrupt *)
| BTimer (id : Z) (i : rv_intr_t)                 (* process_dut_timer *)
| BMtip (id cycle : Z) (mtip during_ucode : bool) (* process_dut_mtip *)
| BNmi (id : Z) (n : rv_nmi_t)                    (* process_dut_nmi *)
| BImsicMsi (id : Z) (m : mem_t)                  (* process_dut_imsic_msi *)
| BHaltreq (haltreq : bool)
| BSteps (hart n_retire cycle steps skips final_steps : Z)
| BRegs (f : reg_file) (hart cycle : Z) (value : list Z)
| BCounterOvf (c : csr_t)
| SIevict (cycle hart pa : Z)                     (* m_mcmi_ievict *)
| SInitTohost                                     (* eot::init_tohost_addr_RPC *)
| SSysmod (m : rvfi_msg)                          (* m_rvfi, to the system model *)
| NoClientCheck                                   (* FLAGS_whisper_client_check = false *)
| ErrPriv (p : Z)                                 (* cvm::log(ERROR, Invalid rvfi privilege mode) *)
| ErrNoInstr                                      (* ... without processing any instructions *)
| LogLine (l : string).

(** ** State *)

(** What is kept of the micro-operations of an instruction until its last. *)
Record uop_acc := Uop_acc {
  ua_gpr : gpr_t;                     (* cracked_gpr_ *)
  ua_vrs : list vr_t;                 (* cracked_vrs_ *)
  ua_flags : Z;                       (* cracked_flags_ *)
  ua_cracked : bool;                  (* cracked_ *)
  ua_csrs : list csr_t                (* ucode_csrs_ *)
}.
#[export] Instance eta_uop_acc : Eta uop_acc := λ a,
  Uop_acc (ua_gpr a) (ua_vrs a) (ua_flags a) (ua_cracked a) (ua_csrs a).

(** What is kept of a trap until the next retired instruction. *)
Record trap_ctx := Trap_ctx {
  tc_nmi : bool; tc_intr : bool; tc_virt : bool; tc_excp : bool; tc_pc_error : bool; tc_mem_error : bool;
  tc_ncause : Z; tc_icause : Z; tc_ecause : Z; tc_insn : Z; tc_addr : Z; tc_tag : Z
}.
#[export] Instance eta_trap_ctx : Eta trap_ctx := λ t,
  Trap_ctx (tc_nmi t) (tc_intr t) (tc_virt t) (tc_excp t) (tc_pc_error t) (tc_mem_error t)
    (tc_ncause t) (tc_icause t) (tc_ecause t) (tc_insn t) (tc_addr t) (tc_tag t).

Record rvfi := Rvfi {
  rs_in_reset : bool;
  rs_count : Z;
  rs_prev_instr_tag : Z; rs_prev_uop_tag : Z; rs_prev_branch_tag : Z;
  rs_vec_cmode : bool; rs_vec_first_tag : Z; rs_vec_pc_addr : Z; rs_vec_mem_errors : gmap Z bool;
  rs_patch_mode : bool; rs_patch_first_tag : Z;
  rs_ncio_transition : bool; rs_ncio_fetches : list mem_t; rs_active_ncio : list mem_t;
  rs_ucode : bool; rs_opcode_modified : bool; rs_priv : Z; rs_ucode_priv_change : bool;
  rs_trap : trap_ctx;
  rs_acc : uop_acc;
  rs_instrs : list rv_instr_t; rs_hw_csrs : list csr_t;
  rs_sc_result : gmap Z mem_t;
  rs_terminated : bool; rs_in_debug_mode : bool; rs_whisper_reloaded : bool
}.
#[export] Instance eta_rvfi : Eta rvfi := λ s,
  Rvfi (rs_in_reset s) (rs_count s) (rs_prev_instr_tag s) (rs_prev_uop_tag s) (rs_prev_branch_tag s)
    (rs_vec_cmode s) (rs_vec_first_tag s) (rs_vec_pc_addr s) (rs_vec_mem_errors s) (rs_patch_mode s)
    (rs_patch_first_tag s) (rs_ncio_transition s) (rs_ncio_fetches s) (rs_active_ncio s) (rs_ucode s)
    (rs_opcode_modified s) (rs_priv s) (rs_ucode_priv_change s) (rs_trap s) (rs_acc s) (rs_instrs s)
    (rs_hw_csrs s) (rs_sc_result s) (rs_terminated s) (rs_in_debug_mode s) (rs_whisper_reloaded s).

Definition trap_ctx_new : trap_ctx := Trap_ctx false false false false false false 0 0 0 0 0 0.
Definition uop_acc_new : uop_acc := Uop_acc (Gpr false 0 0) [] 0 false [].
Definition rvfi_new : rvfi :=
  Rvfi true 1 0 0 0 false 0 0 ∅ false 0 false [] [] false false 3 false trap_ctx_new uop_acc_new [] [] ∅
    false false false.

(** Flags and the place in the topology. *)
Record rvfi_cfg := Rvfi_cfg {
  rc_loc : Z; rc_id : Z; rc_ncores : Z;
  rc_rvfi : bool; rc_cosim : bool; rc_log : log_flags; rc_use_sw_priv : bool;
  rc_patch_override : bool;           (* FLAGS_patch_mode_tag_override *)
  rc_vec_override : bool;             (* FLAGS_vec_cmode_tag_override *)
  rc_excp_override : bool;            (* FLAGS_excp_trap_tag_override *)
  rc_r : bool; rc_debugrom : bool; rc_debug_exit_pc_offset : Z; rc_offline_dpi : bool;
  rc_dam : dam_flags;
  rc_labels : gmap Z string;          (* custom_uop_labels_ *)
  CUSTOM_SINGLE_STEP : Z; CUSTOM_CMODE : Z; CUSTOM_MC2_CMODE : Z (* [bridge_params] outside the repository *)
}.

Section rvfi.
Context (cfg : rvfi_cfg).
Context (disassemble : Z → string) (csr_by_address : Z → option string) (intr_name excp_name : Z → string).
Context (raw : mem_t) (raw_mtime : Z) (raw_intr : rv_intr_t).

Definition rvfi_when {A} (b : bool) (l : list A) : list A := if b then l else [].

Definition off (s : rvfi) : bool := rs_terminated s || rs_in_reset s.

(** *** Building an instruction: [make_instr] *)

Definition use_excp_trap_tag (s : rvfi) (i : rv_instr_t) : bool :=
  let t := rs_trap s in
  if negb (rc_excp_override cfg) || (tc_tag t =? 0) || negb (tc_excp t) || tc_intr t || tc_nmi t then false
  else if rs_patch_mode s || rs_vec_cmode s || rs_in_debug_mode s then false
  else if (i_priv i =? PRIV_DEBUG_ROM) || (i_priv i =? PRIV_DEBUG_PROGBUF) then false
  else tc_ecause t <? 25.

(** The metadata an instruction starts with. *)
Definition instr_meta (s : rvfi) (m : rvfi_msg) : rv_instr_t :=
  let t := rs_trap s in
  rv_instr_new raw raw_mtime
    <| i_valid := true |> <| i_hart := u8 (v_hart m) |> <| i_cycle := v_cycle m |>
    <| i_core_cycle := v_core_cycle m |> <| i_id := rs_count s |> <| i_comp := v_comp m |>
    <| i_tag := if rs_patch_mode s && rc_patch_override cfg then rs_patch_first_tag s
                else if rs_vec_cmode s && (rs_vec_pc_addr s =? v_pc_rdata m) then rs_vec_first_tag s
                else v_order m |>
    <| i_branch_tag := v_branch_tag m |> <| i_opcode := v_insn m |> <| i_disasm := disassemble (v_insn m) |>
    <| i_uop := v_uop m |> <| i_cracked := negb (v_last_uop m) |> <| i_trap := tc_intr t || tc_excp t |>
    <| i_trap_valid := v_trap m |> <| i_trap_opcode := tc_insn t |> <| i_trap_addr := tc_addr t |>
    <| i_nmi := tc_nmi t |> <| i_ncause := tc_ncause t |> <| i_intr := tc_intr t |> <| i_icause := tc_icause t |>
    <| i_excp := tc_excp t |> <| i_ecause := tc_ecause t |> <| i_virt_mode := tc_virt t |>.

(** Fetches that no longer supply instruction bytes are evicted. *)
Definition rvfi_process_ncio_fetches (s : rvfi) (i : rv_instr_t) : rvfi * list rvfi_call :=
  if negb (rc_cosim cfg) || negb (lf_mcm (rc_log cfg)) || off s then (s, [])
  else
    let evict f := negb (existsb (mem_eqb f) (rs_active_ncio s)) in
    (s <| rs_ncio_fetches := base.filter (λ f, evict f = false) (rs_ncio_fetches s) |>,
     (λ f, SIevict (i_cycle i) (i_hart i) (m_pa f)) <$> base.filter (λ f, evict f = true) (rs_ncio_fetches s)).

Definition ncio_step (s : rvfi) (m : rvfi_msg) (i : rv_instr_t) : rvfi * list rvfi_call :=
  if (negb (Nat.eqb (length (rs_ncio_fetches s)) 0) || rs_ncio_transition s) && v_last_uop m then
    let '(s, cs) := if negb (v_branch_tag m =? rs_prev_branch_tag s) then rvfi_process_ncio_fetches s i else (s, []) in
    (s <| rs_active_ncio := [] |> <| rs_ncio_transition := false |>, cs)
  else (s, []).

(** [opcode_modified_] is sticky over the micro-operations. *)
Definition opcode_step (s : rvfi) (m : rvfi_msg) (i : rv_instr_t) : rvfi * rv_instr_t :=
  let om := rs_opcode_modified s || v_opcode_modified m || bool_decide (is_Some (rc_labels cfg !! v_insn m)) in
  (s <| rs_opcode_modified := if v_last_uop m then false else om |>, i <| i_opcode_modified := om |>).

(** Leaving patch mode. *)
Definition patch_off (s : rvfi) : rvfi := s <| rs_patch_mode := false |> <| rs_patch_first_tag := 0 |>.

(** Privilege and patch mode as the hardware gives them.  The last component
    is [false] for the return with an invalid privilege mode. *)
Definition hw_priv (s : rvfi) (m : rvfi_msg) (i : rv_instr_t) : rvfi * rv_instr_t * list rvfi_call * bool :=
  let i := i <| i_first_uop := v_first_uop m |> <| i_last_uop := v_last_uop m |> <| i_ucode := v_ucode m |> in
  let '(s, i) := opcode_step s m i in
  let i := i <| i_priv := v_priv m |> in
  let s := s <| rs_ucode_priv_change := v_priv_change m |> in
  let s := if v_last_uop m then s <| rs_priv := v_mode m |> else s in
  if negb (priv_known (i_priv i)) then (s, i, [ErrPriv (i_priv i)], false)
  else
    let '(s, i, on) :=
      if v_set_pmode m then
        let s := s <| rs_patch_mode := true |> in
        if rc_patch_override cfg then
          let s := if rs_patch_first_tag s =? 0 then s <| rs_patch_first_tag := v_order m |> else s in
          (s, i <| i_tag := rs_patch_first_tag s |>, rvfi_when (rc_cosim cfg) [BSetPatchMode ENTER_PATCH])
        else (s, i, rvfi_when (rc_cosim cfg) [BSetPatchMode ENTER_PATCH])
      else (s, i, []) in
    let '(s, off) :=
      if v_clr_pmode m then (patch_off s, rvfi_when (rc_cosim cfg) [BSetPatchMode EXIT_PATCH]) else (s, []) in
    let i := if i_priv i &&& 0x7 =? 0x3 then i <| i_priv := 0x3 |> else i in
    (s, i, on ++ off, true).

(** The same, derived in software ([FLAGS_use_sw_priv]). *)
Definition sw_priv (s : rvfi) (m : rvfi_msg) (i : rv_instr_t) : rvfi * rv_instr_t * list rvfi_call * bool :=
  let i := i <| i_first_uop := false |> <| i_last_uop := v_last_uop m |>
             <| i_ucode := rs_ucode s || negb (v_last_uop m) |> in
  let '(s, i) := opcode_step s m i in
  let i := i <| i_first_uop := negb (v_last_uop m) && negb (rs_ucode s) |> in
  let s := s <| rs_ucode := negb (v_last_uop m) |> in
  let '(s, on) :=
    if rc_cosim cfg && (rs_priv s =? 0x4) && negb (rs_patch_mode s) then
      let s := s <| rs_patch_mode := true |> in
      (if rc_patch_override cfg && (rs_patch_first_tag s =? 0) then s <| rs_patch_first_tag := v_order m |> else s,
       [BSetPatchMode ENTER_PATCH])
    else (s, []) in
  let i := i <| i_priv := v_mode m |> in
  let '(s, i) :=
    if i_ucode i && negb (v_mode m =? rs_priv s) then
      if i_first_uop i then (s <| rs_priv := v_mode m |>, i)
      else (s <| rs_ucode_priv_change := true |>, i <| i_priv := rs_priv s |>)
    else (s, i) in
  if v_last_uop m then
    let '(s, i) :=
      if rs_ucode_priv_change s then (s <| rs_ucode_priv_change := false |>, i <| i_priv := rs_priv s |>)
      else (s, i) in
    let '(s, off) :=
      if (v_mode m =? 0x4) && rs_patch_mode s then (patch_off s, rvfi_when (rc_cosim cfg) [BSetPatchMode EXIT_PATCH])
      else (s, []) in
    let s := s <| rs_priv := v_mode m |> in
    if negb (priv_known (i_priv i)) then (s, i, on ++ off ++ [ErrPriv (i_priv i)], false)
    else (s, i, on ++ off, true)
  else (s, i, on, true).

(** The changes of a micro-operation, into the instruction and, for a later
    micro-operation of the instruction to rvfi_report, into what is kept. *)
Definition gpr_step (m : rvfi_msg) (a : uop_acc) (i : rv_instr_t) : uop_acc * rv_instr_t :=
  if (0 <? v_rd_addr m) && (v_rd_addr m <=? 31) then
    if i_last_uop i then (a, i <| i_gpr ::= (λ l, l ++ [Gpr true (v_rd_addr m) (v_rd_wdata m)]) |>)
    else
      (if negb (v_trap m) && negb (is_mhpmevent (v_insn m))
       then a <| ua_gpr := Gpr true (v_rd_addr m) (v_rd_wdata m) |> else a,
       i <| i_gpr ::= (λ l, l ++ [Gpr false (v_rd_addr m) (v_rd_wdata m)]) |>)
  else (a, i).
Definition fpr_step (m : rvfi_msg) (i : rv_instr_t) : rv_instr_t :=
  if v_frd_valid m then i <| i_fpr ::= (λ l, l ++ [Fpr true (v_frd_addr m) (v_frd_wdata m)]) |> else i.
Definition vr_step (m : rvfi_msg) (a : uop_acc) (i : rv_instr_t) : uop_acc * rv_instr_t :=
  if v_vrd_valid m then
    let vr := Vr true (v_vrd_addr m) (v_vrd_wdata m) in
    (if (v_vrd_addr m <? 32) && negb (v_trap m) then a <| ua_vrs ::= (λ l, l ++ [vr]) |> else a,
     i <| i_vr ::= (λ l, l ++ [vr]) |>)
  else (a, i).
Definition flags_step (m : rvfi_msg) (a : uop_acc) (i : rv_instr_t) : uop_acc * rv_instr_t :=
  let i := i <| i_flags := 0 |> in
  let '(a, i) :=
    if v_flags_valid m && negb (v_trap m)
    then (a <| ua_flags ::= (λ f, f ||| v_flags m) |>, i <| i_flags := v_flags m |>) else (a, i) in
  (if negb (v_trap m) then a <| ua_cracked ::= (λ b, b || i_cracked i) |> else a, i).
Definition csr_step (m : rvfi_msg) (a : uop_acc) (i : rv_instr_t) : uop_acc * rv_instr_t :=
  if v_csr_valid m then
    let c := Csr true (v_hart m) (v_cycle m) (v_csr_addr m) (v_csr_wmask m) (v_csr_wdata m) in
    (if negb (v_last_uop m) && negb (v_trap m) then a <| ua_csrs ::= (λ l, l ++ [c]) |> else a,
     i <| i_csr ::= (λ l, l ++ [c]) |>)
  else (a, i).
Definition uop_changes (m : rvfi_msg) (a : uop_acc) (i : rv_instr_t) : uop_acc * rv_instr_t :=
  let '(a, i) := gpr_step m a i in
  let i := fpr_step m i in
  let '(a, i) := vr_step m a i in
  let '(a, i) := flags_step m a i in
  csr_step m a i.

(** [log2(mask + 1)], truncated; masks are narrower than an [int]. *)
Definition mask_size (mask : Z) : Z := u8 (Z.log2 (mask + 1)).

Definition mem_step (s : rvfi) (m : rvfi_msg) (i : rv_instr_t) : rvfi * rv_instr_t :=
  let error := v_mem_error m || tc_mem_error (rs_trap s) in
  let vec_error := default false (rs_vec_mem_errors s !! i_tag i) in
  let access valid data size (a : mem_t) :=
    a <| m_valid := valid |> <| m_va := v_mem_addr m |> <| m_pa := v_mem_paddr m |> <| m_data := data |>
      <| m_size := size |> <| m_error := error || vec_error |> <| m_attr := v_mem_attr m |>
      <| m_page4kX := v_mem_page4kX m |> <| m_page4kX_attr := v_mem_page4kX_attr m |> in
  (if error && rs_vec_cmode s then s <| rs_vec_mem_errors ::= <[rs_vec_first_tag s := true]> |> else s,
   i <| i_mem_va := v_mem_addr m |> <| i_mem_pa := v_mem_paddr m |>
     <| i_mem_read ::= access (negb (v_mem_rmask m =? 0)) (v_mem_rdata m) (mask_size (v_mem_rmask m)) |>
     <| i_mem_write ::= access (negb (v_mem_wmask m =? 0)) (v_mem_wdata m) (mask_size (v_mem_wmask m)) |>).

(** The rest of the instruction, once its privilege mode is known. *)
Definition instr_body (s : rvfi) (m : rvfi_msg) (i : rv_instr_t) : rvfi * rv_instr_t :=
  let i := if use_excp_trap_tag s i then i <| i_tag := tc_tag (rs_trap s) |> else i in
  let s := if v_last_uop m && negb (rs_patch_mode s) then s <| rs_count ::= (λ c, u64 (c + 1)) |> else s in
  let i := i <| i_pc := Pc true (v_pc_rdata m) (v_pc_error m || tc_pc_error (rs_trap s)) |> in
  let '(a, i) := uop_changes m (rs_acc s) i in
  mem_step (s <| rs_acc := a |>) m i.

Definition make_instr (s : rvfi) (m : rvfi_msg) : rvfi * rv_instr_t * list rvfi_call :=
  let i := instr_meta s m in
  let '(s, cs0) := ncio_step s m i in
  let '(s, i, cs1, ok) := if negb (rc_use_sw_priv cfg) then hw_priv s m i else sw_priv s m i in
  if negb ok then (s, i, cs0 ++ cs1)
  else let '(s, i) := instr_body s m i in (s, i, cs0 ++ cs1).

Definition append_uop_changes_to_instr (a : uop_acc) (i : rv_instr_t) : uop_acc * rv_instr_t :=
  let '(a, i) :=
    if gpr_valid (ua_gpr a) then
      (a <| ua_gpr ::= (λ g, Gpr false (gpr_addr g) (gpr_wdata g)) |>,
       i <| i_gpr ::= (λ l, l ++ [Gpr true (gpr_addr (ua_gpr a)) (gpr_wdata (ua_gpr a))]) |>)
    else (a, i) in
  let '(a, i) :=
    match ua_vrs a with [] => (a, i) | vrs => (a <| ua_vrs := [] |>, i <| i_vr := vrs |>) end in
  let i := if ua_cracked a then i <| i_flags ::= (λ f, f ||| ua_flags a) |> else i in
  let a := a <| ua_cracked := false |> <| ua_flags := 0 |> in
  match ua_csrs a with
  | [] => (a, i)
  | csrs => (a <| ua_csrs := [] |>, i <| i_csr ::= (λ l, l ++ csrs) |>)
  end.

(** *** Sending *)

Definition send_instr (s : rvfi) (i : rv_instr_t) : list rvfi_call :=
  if negb (rc_cosim cfg) then [] else if off s then []
  else rvfi_when (negb (i_trap_valid i)) [BInstr (i_hart i) i].
Definition send_instr_group (s : rvfi) (hart : Z) (g : rv_instr_group_t) : list rvfi_call :=
  if negb (rc_cosim cfg) then [] else if off s then [] else [BGroup hart g].
Definition send_csr (s : rvfi) (c : csr_t) : list rvfi_call :=
  if negb (rc_cosim cfg) then [] else if off s then [] else [BCsrHw (csr_hart c) c].

Definition enter_debug_mode (s : rvfi) (i : rv_instr_t) : rvfi * list rvfi_call :=
  if negb (rc_cosim cfg) || off s then (s, [])
  else if (i_intr i && (i_icause i =? 0) && negb (tc_virt (rs_trap s))) ||
          (i_excp i && (i_ecause i =? CUSTOM_SINGLE_STEP cfg))
  then (s <| rs_in_debug_mode := true |>,
        [BEnterDebug (Rv_debug (i_intr i && (i_icause i =? 0)) false (i_cycle i) (i_hart i))])
  else (s, []).

Definition debug_exit_pc : Z := u64 (generate_dm_device_addr (rc_dam cfg) 0 + rc_debug_exit_pc_offset cfg).
Definition exit_debug_mode (s : rvfi) (i : rv_instr_t) : rvfi * list rvfi_call :=
  if negb (rc_cosim cfg) || off s then (s, [])
  else if negb (rc_debugrom cfg) && (pc_rdata (i_pc i) =? debug_exit_pc)
  then (s <| rs_in_debug_mode := false |>, [BExitDebug (Rv_debug false true (i_cycle i) (i_hart i))])
  else (s, []).

Definition log_view_of (s : rvfi) : log_view :=
  Log_view (gpr_valid (ua_gpr (rs_acc s))) (rs_patch_mode s) (tc_virt (rs_trap s)).

(** *** Handlers *)

Definition rvfi_process_reset (s : rvfi) (loc : Z) : rvfi * list rvfi_call :=
  if rs_terminated s then (s, [])
  else if negb (rc_loc cfg =? loc) then (s, [])
  else (s <| rs_in_reset := false |>, if rc_cosim cfg then [BReset false] else [NoClientCheck]).

(** A micro-operation that trapped: what the handler of the trap needs. *)
Definition note_trap (s : rvfi) (m : rvfi_msg) : rvfi :=
  s <| rs_trap ::= (λ t, t <| tc_insn := v_insn m |>
         <| tc_addr := if v_insn m =? 0 then v_pc_rdata m
                       else if negb (v_mem_rmask m =? 0) || negb (v_mem_wmask m =? 0) then v_mem_addr m else 0 |>
         <| tc_tag := v_order m |>) |>.

(** The instruction joins the group of the cycle; the last one sends it. *)
Definition group_step (s : rvfi) (m : rvfi_msg) (i : rv_instr_t) : rvfi * list rvfi_call :=
  let s := s <| rs_instrs ::= (λ l, l ++ [i]) |> in
  if v_last_insn m then
    (s <| rs_instrs := [] |> <| rs_hw_csrs := [] |>,
     send_instr_group s (i_hart i) (Rv_instr_group (i_cycle i) (rs_instrs s) (rs_hw_csrs s)))
  else (s, []).

(** The state saved and cleared behind an instruction. *)
Definition retire_state (s : rvfi) (m : rvfi_msg) (i : rv_instr_t) : rvfi :=
  s <| rs_prev_instr_tag := v_order m |> <| rs_prev_branch_tag := i_branch_tag i |>
    <| rs_trap ::= (λ t, t <| tc_intr := false |> <| tc_excp := false |> <| tc_nmi := false |>
         <| tc_insn := 0 |> <| tc_addr := 0 |> <| tc_tag := 0 |>
         <| tc_pc_error := false |> <| tc_mem_error := false |>) |>
    <| rs_vec_cmode := false |> <| rs_vec_pc_addr := 0 |>.

Definition restore_step (s : rvfi) (m : rvfi_msg) : rvfi * list rvfi_call :=
  if rc_cosim cfg && rc_r cfg && v_init_jalr_seen m && negb (rs_whisper_reloaded s)
  then (s <| rs_whisper_reloaded := true |>, [BReset true; SInitTohost]) else (s, []).

(** The last micro-operation of an instruction. *)
Definition rvfi_retire (s : rvfi) (m : rvfi_msg) (i : rv_instr_t) : rvfi * list rvfi_call :=
  let '(a, i) := append_uop_changes_to_instr (rs_acc s) i in
  let s := s <| rs_acc := a |> in
  let '(s, c1) := enter_debug_mode s i in
  let c2 := send_instr s i in
  let '(s, c3) := exit_debug_mode s i in
  let '(s, c4) := group_step s m i in
  let s := retire_state s m i in
  let '(s, c5) := restore_step s m in
  let s := if negb (rs_vec_cmode s) && negb (bool_decide (rs_vec_mem_errors s = ∅))
           then s <| rs_vec_mem_errors := ∅ |> else s in
  (s, c1 ++ c2 ++ c3 ++ c4 ++ c5 ++ [SSysmod m]).

Definition rvfi_process_rvfi (s : rvfi) (m : rvfi_msg) : option (rvfi * list rvfi_call) :=
  if off s then Some (s, [])
  else if negb (rc_loc cfg =? v_loc m) then Some (s, [])
  else
    let '(s, i, c0) := make_instr s m in
    lines ← print_instr disassemble csr_by_address intr_name excp_name (rc_log cfg) (rc_labels cfg) (log_view_of s) i;
    let c0 := c0 ++ (LogLine <$> lines) in
    let s := s <| rs_trap ::= (λ t, t <| tc_pc_error ::= (λ b, b || v_pc_error m) |>
                                      <| tc_mem_error ::= (λ b, b || v_mem_error m) |>) |> in
    if v_trap m then Some (note_trap s m, c0)
    else
      let s := s <| rs_prev_uop_tag := v_order m |> in
      if negb (v_last_uop m) then Some (s, c0)
      else let '(s, c1) := rvfi_retire s m i in Some (s, c0 ++ c1).

Definition INTR : Z := 1.
Definition NMI : Z := 2.

Definition process_excp (s : rvfi) (cause order pc_addr : Z) : rvfi * list rvfi_call :=
  let ecause := cause &&& 0xff in
  let s := s <| rs_trap ::= (λ t, t <| tc_nmi := false |> <| tc_intr := false |> <| tc_excp := true |>
                                    <| tc_ecause := ecause |>) |> in
  let '(s, c) :=
    if rc_cosim cfg && (ecause =? 60) then
      let s := s <| rs_patch_mode := true |> in
      (if rc_patch_override cfg then s <| rs_patch_first_tag := order |> else s, [BSetPatchMode ENTER_PATCH])
    else if rc_vec_override cfg && ((ecause =? CUSTOM_CMODE cfg) || (ecause =? CUSTOM_MC2_CMODE cfg)) then
      let s := if negb (rs_vec_cmode s && (pc_addr =? rs_vec_pc_addr s))
               then s <| rs_vec_cmode := true |> <| rs_vec_first_tag := order |> <| rs_vec_pc_addr := pc_addr |>
               else s in
      (if tc_mem_error (rs_trap s) then s <| rs_vec_mem_errors ::= <[rs_vec_first_tag s := true]> |> else s, [])
    else (s, []) in
  (s, c ++ rvfi_when (rc_cosim cfg) [BExcp (rc_id cfg) cause order (rs_vec_first_tag s)]).

Definition rvfi_process_trap (s : rvfi) (loc id cause order pc_addr : Z) (virt_mode : bool) : rvfi * list rvfi_call :=
  if off s then (s, [])
  else if negb (rc_loc cfg =? loc) then (s, [])
  else if id =? NMI then
    (s <| rs_trap ::= (λ t, t <| tc_nmi := true |> <| tc_intr := false |> <| tc_excp := false |>
                              <| tc_ncause := cause &&& 0x3 |>) |>, [])
  else if id =? INTR then
    (s <| rs_trap ::= (λ t, t <| tc_nmi := false |> <| tc_intr := true |> <| tc_excp := false |>
                              <| tc_virt := virt_mode |> <| tc_icause := cause &&& 0x3f |>) |>, [])
  else if id =? EXCP then process_excp s cause order pc_addr
  else (s, []).

Definition process_interrupt_pend (s : rvfi) (m : intr_pend_msg) : list rvfi_call :=
  if off s then []
  else if negb (rc_loc cfg =? ip_loc m) then []
  else rvfi_when (rc_cosim cfg)
    [BIntr (rc_id cfg) (Rv_intr (ip_cycle m) (ip_core_cycle m) (ip_hw m) (ip_mip m) (ip_mip_set m) (ip_mip_clr m)
       (ip_seip m) (ri_mtime raw_intr) (ri_size raw_intr) (ip_buserr_bit m) (ri_timeCsr raw_intr)
       (ip_intr_during_ucode m) (ri_stce_bit_clear raw_intr))].

Definition process_mtime (s : rvfi) (m : mtime_msg) : list rvfi_call :=
  if off s then []
  else rvfi_when (rc_cosim cfg)
    [BTimer (rc_id cfg) (Rv_intr (mt_cycle m) (ri_core_cycle raw_intr) (ri_hw raw_intr) (mt_mip m)
       (ri_mip_set raw_intr) (ri_mip_clr raw_intr) (ri_seip raw_intr) (mt_mtime m) (mt_size m)
       (ri_buserr_bit raw_intr) (mt_timeCsr m) (mt_intr_during_ucode m) (mt_stce_bit_clear m))].

Definition process_mtip (s : rvfi) (cycle : Z) (mtip during_ucode : bool) : list rvfi_call :=
  if off s then [] else rvfi_when (rc_cosim cfg) [BMtip (rc_id cfg) cycle mtip during_ucode].

Definition process_core_nmi (s : rvfi) (loc cycle : Z) (nmi_assert : bool) (nmi_cause : Z) : list rvfi_call :=
  if off s then []
  else if negb (rc_loc cfg =? loc) then []
  else rvfi_when (rc_cosim cfg) [BNmi (rc_id cfg) (Rv_nmi cycle nmi_assert nmi_cause)].

Definition rvfi_process_imsic_msi (s : rvfi) (loc cycle addr data : Z) (during_ucode : bool) : list rvfi_call :=
  if off s then []
  else if negb (rc_loc cfg =? loc) then []
  else rvfi_when (rc_cosim cfg)
    [BImsicMsi (rc_id cfg) (raw <| m_valid := true |> <| m_cycle := cycle |> <| m_pa := addr |> <| m_data := data |>
                                <| m_intr_during_ucode := during_ucode |> <| m_size := 4 |>)].

Definition process_debug (s : rvfi) (haltreq : bool) : list rvfi_call :=
  if off s then [] else rvfi_when (rc_cosim cfg) [BHaltreq haltreq].

Definition process_rvfi_steps (s : rvfi) (hart n_retire cycle steps skips final_steps : Z) : list rvfi_call :=
  if off s then [] else rvfi_when (rc_cosim cfg) [BSteps hart n_retire cycle steps skips final_steps].

Definition process_regs (s : rvfi) (f : reg_file) (loc hart cycle : Z) (value : list Z) : list rvfi_call :=
  if off s then []
  else if negb (rc_cosim cfg) then []
  else rvfi_when (rc_loc cfg =? loc) [BRegs f hart cycle value].

Definition process_csri (s : rvfi) (hart cycle addr mask data : Z) : option (rvfi * list rvfi_call) :=
  if off s then Some (s, [])
  else
    let c := Csr true hart cycle addr mask data in
    lines ← print_csr (rc_log cfg) (rs_priv s) c;
    Some (s <| rs_hw_csrs ::= (λ l, l ++ [c]) |>, (LogLine <$> lines) ++ send_csr s c).

Definition process_counter_ovf (s : rvfi) (hart cycle addr : Z) : list rvfi_call :=
  if negb (rc_cosim cfg) then [] else if off s then [] else [BCounterOvf (Csr true hart cycle addr 0 0)].

Definition process_drain (s : rvfi) : rvfi * list rvfi_call :=
  (s <| rs_terminated := true |>, rvfi_when (rc_cosim cfg) [BReportMetrics]).

(** All messages the interface is connected to. *)
Definition rvfi_process (s : rvfi) (e : rvfi_event) : option (rvfi * list rvfi_call) :=
  match e with
  | EReset loc => Some (rvfi_process_reset s loc)
  | EDrain _ => Some (process_drain s)
  | EDisableChecks | EBridgeError | ETerminateMemChecks => Some (s <| rs_terminated := true |>, [])
  | ERvfi m => rvfi_process_rvfi s m
  | ESteps hart n_retire cycle steps skips final_steps =>
      Some (s, process_rvfi_steps s hart n_retire cycle steps skips final_steps)
  | ERegs f loc hart cycle value => Some (s, process_regs s f loc hart cycle value)
  | ECsri hart cycle addr mask data => process_csri s hart cycle addr mask data
  | ECounterOvf hart cycle addr => Some (s, process_counter_ovf s hart cycle addr)
  | ETrap loc id cause order pc_addr virt_mode => Some (rvfi_process_trap s loc id cause order pc_addr virt_mode)
  | ECoreNmi loc cycle nmi_assert nmi_cause => Some (s, process_core_nmi s loc cycle nmi_assert nmi_cause)
  | EIntrPend m => Some (s, process_interrupt_pend s m)
  | EMtip cycle mtip during_ucode => Some (s, process_mtip s cycle mtip during_ucode)
  | EMtime m => Some (s, process_mtime s m)
  | EImsicMsi loc cycle addr data during_ucode => Some (s, rvfi_process_imsic_msi s loc cycle addr data during_ucode)
  | EDebug haltreq => Some (s, process_debug s haltreq)
  end.

Fixpoint rvfi_run (s : rvfi) (es : list rvfi_event) : option (rvfi * list rvfi_call) :=
  match es with
  | [] => Some (s, [])
  | e :: es => '(s, c) ← rvfi_process s e; '(s, cs) ← rvfi_run s es; Some (s, c ++ cs)
  end.

(** The destructor. *)
Definition rvfi_delete (s : rvfi) : list rvfi_call :=
  rvfi_when (rc_rvfi cfg && (rc_ncores cfg =? 1) && (rs_count s =? 1) && negb (rc_offline_dpi cfg)) [ErrNoInstr].

(** *** Helpers of the class no handler calls *)

Definition rvfi_patch_access (ram_offset ram_size : Z) (s : rvfi) (addr : Z) : bool :=
  if negb (rs_patch_mode s) then false
  else
    let patch_lo := u64 (generate_cpl_sram_device_addr (rc_dam cfg) 0 + ram_offset) in
    let patch_hi := u64 (patch_lo + ram_size - 1) in
    if (patch_lo <=? addr) && (addr <? patch_hi) then true
    else existsb (λ i, addr =? u64 (generate_cr_device_addr (rc_dam cfg) 0 i + 0x5040)) (seqZ 0 (rc_ncores cfg)).

Definition rvfi_sc_failed (s : rvfi) (write : mem_t) : bool :=
  match rs_sc_result s !! m_tag write with
  | None => true
  | Some m => negb (m_data m =? 0)
  end.
End rvfi.

Definition rvfi_extract_bits_as_bitset (bs msb lsb : Z) : Z :=
  foldl (λ r i, if Z.testbit bs (lsb + i) then Z.setbit r i else r) 0 (seqZ 0 (u64 (msb - lsb))).

(** [rvfi_check_axi_error]: the ports' replies, of the first type then of NCIO_AXI. *)
Definition rvfi_check_axi_error (check_error : Z → Z → bool) (axi_locs ncio_locs : list Z) (null : Z) (addr : Z) : bool :=
  existsb (λ loc, negb (loc =? null) && check_error loc addr) axi_locs ||
  existsb (λ loc, negb (loc =? null) && check_error loc addr) ncio_locs.

(** ** Shutdown: [rvfi_drain] *)

Record rvfi_drain := Rvfi_drain { rd_out_of_reset : bool; rd_drained : bool }.
Definition drain_configure : rvfi_drain := Rvfi_drain false false.
Definition drain_step (d : rvfi_drain) (e : rvfi_event) : rvfi_drain :=
  match e with
  | EReset _ => Rvfi_drain true (rd_drained d)
  | EDrain _ => Rvfi_drain (rd_out_of_reset d) (rd_out_of_reset d)
  | _ => d
  end.
Definition shutdown_ready (rvfi_flag : bool) (d : rvfi_drain) : bool :=
  negb rvfi_flag || negb (rd_out_of_reset d) || rd_drained d.

(** ** Specification

    What the bridge is told is a function of the messages: the micro-operations
    since the last retired instruction, the last trap message, and the errors
    any micro-operation has had. *)

Record retired := Retired {
  re_hart : Z; re_cycle : Z; re_opcode : Z; re_pc : Z;
  re_trap : option (Z * Z);           (* kind and cause of the trap the instruction takes *)
  re_pc_error : bool; re_mem_error : bool;
  re_gpr : list gpr_t; re_fpr : list fpr_t; re_vr : list vr_t; re_flags : Z; re_csr : list csr_t
}.

Definition trap_kind (nmi intr excp : bool) (ncause icause ecause : Z) : option (Z * Z) :=
  if nmi then Some (NMI, ncause) else if intr then Some (INTR, icause) else if excp then Some (EXCP, ecause) else None.
Definition instr_view (i : rv_instr_t) : retired :=
  Retired (i_hart i) (i_cycle i) (i_opcode i) (pc_rdata (i_pc i))
    (trap_kind (i_nmi i) (i_intr i) (i_excp i) (i_ncause i) (i_icause i) (i_ecause i))
    (pc_error (i_pc i)) (m_error (i_mem_read i)) (i_gpr i) (i_fpr i) (i_vr i) (i_flags i) (i_csr i).

(** The changes one micro-operation makes. *)
Definition writes_gpr (m : rvfi_msg) : bool := (0 <? v_rd_addr m) && (v_rd_addr m <=? 31).
Definition gpr_of (m : rvfi_msg) : gpr_t := Gpr true (v_rd_addr m) (v_rd_wdata m).
Definition kept_gpr (m : rvfi_msg) : option gpr_t :=
  if writes_gpr m && negb (is_mhpmevent (v_insn m)) then Some (gpr_of m) else None.
Definition vr_of (m : rvfi_msg) : vr_t := Vr true (v_vrd_addr m) (v_vrd_wdata m).
Definition kept_vr (m : rvfi_msg) : option vr_t :=
  if v_vrd_valid m && (v_vrd_addr m <? 32) then Some (vr_of m) else None.
Definition flags_of (m : rvfi_msg) : Z := if v_flags_valid m then v_flags m else 0.
Definition csr_of (m : rvfi_msg) : csr_t :=
  Csr true (v_hart m) (v_cycle m) (v_csr_addr m) (v_csr_wmask m) (v_csr_wdata m).
Definition kept_csr (m : rvfi_msg) : option csr_t := if v_csr_valid m then Some (csr_of m) else None.
Definition all_flags (ms : list rvfi_msg) : Z := foldl Z.lor 0 (flags_of <$> ms).

(** The instruction whose micro-operations are [us] and, at the end, [m]. *)
Definition retire_of (us : list rvfi_msg) (m : rvfi_msg) (trap : option (Z * Z)) (pc_err mem_err : bool) : retired :=
  Retired (u8 (v_hart m)) (v_cycle m) (v_insn m) (v_pc_rdata m) trap
    (v_pc_error m || pc_err) (v_mem_error m || mem_err)
    (rvfi_when (writes_gpr m) [gpr_of m] ++ option_list (last (omap kept_gpr us)))
    (rvfi_when (v_frd_valid m) [Fpr true (v_frd_addr m) (v_frd_wdata m)])
    (match omap kept_vr (us ++ [m]) with [] => rvfi_when (v_vrd_valid m) [vr_of m] | vs => vs end)
    (match us with [] => flags_of m | _ => flags_of m ||| all_flags (us ++ [m]) end)
    (option_list (kept_csr m) ++ omap kept_csr us).

Record spec := Spec {
  sp_in_reset : bool; sp_terminated : bool;
  sp_uops : list rvfi_msg;            (* since the last retired instruction *)
  sp_trap : option (Z * Z); sp_pc_error : bool; sp_mem_error : bool;
  sp_group : list retired; sp_csrs : list csr_t
}.
Definition spec_new : spec := Spec true false [] None false false [] [].

Inductive rvfi_report :=
| RInstr (hart : Z) (r : retired)
| RGroup (hart cycle : Z) (rs : list retired) (csrs : list csr_t)
| RCsr (hart : Z) (c : csr_t).
Definition report_of (c : rvfi_call) : option rvfi_report :=
  match c with
  | BInstr hart i => Some (RInstr hart (instr_view i))
  | BGroup hart g => Some (RGroup hart (gr_cycle g) (instr_view <$> gr_instrs g) (gr_csrs g))
  | BCsrHw hart c => Some (RCsr hart c)
  | _ => None
  end.

Definition spec_retire (a : spec) (m : rvfi_msg) : spec * list rvfi_report :=
  let pc_err := v_pc_error m || sp_pc_error a in
  let mem_err := v_mem_error m || sp_mem_error a in
  if v_trap m then
    (Spec (sp_in_reset a) (sp_terminated a) (sp_uops a) (sp_trap a) pc_err mem_err (sp_group a) (sp_csrs a), [])
  else if negb (v_last_uop m) then
    (Spec (sp_in_reset a) (sp_terminated a) (sp_uops a ++ [m]) (sp_trap a) pc_err mem_err (sp_group a) (sp_csrs a), [])
  else
    let r := retire_of (sp_uops a) m (sp_trap a) (sp_pc_error a) (sp_mem_error a) in
    let group := sp_group a ++ [r] in
    if v_last_insn m then
      (Spec (sp_in_reset a) (sp_terminated a) [] None false false [] [],
       [RInstr (u8 (v_hart m)) r; RGroup (u8 (v_hart m)) (v_cycle m) group (sp_csrs a)])
    else (Spec (sp_in_reset a) (sp_terminated a) [] None false false group (sp_csrs a), [RInstr (u8 (v_hart m)) r]).

Definition spec_stop (a : spec) : spec :=
  Spec (sp_in_reset a) true (sp_uops a) (sp_trap a) (sp_pc_error a) (sp_mem_error a) (sp_group a) (sp_csrs a).

Definition spec_trap (a : spec) (id cause : Z) : spec :=
  Spec (sp_in_reset a) (sp_terminated a) (sp_uops a)
    (if id =? NMI then Some (NMI, cause &&& 0x3) else if id =? INTR then Some (INTR, cause &&& 0x3f)
     else if id =? EXCP then Some (EXCP, cause &&& 0xff) else sp_trap a)
    (sp_pc_error a) (sp_mem_error a) (sp_group a) (sp_csrs a).

Definition spec_step (loc : Z) (a : spec) (e : rvfi_event) : spec * list rvfi_report :=
  let off := sp_terminated a || sp_in_reset a in
  match e with
  | EReset l =>
      (if negb (sp_terminated a) && (loc =? l)
       then Spec false (sp_terminated a) (sp_uops a) (sp_trap a) (sp_pc_error a) (sp_mem_error a) (sp_group a) (sp_csrs a)
       else a, [])
  | EDrain _ | EDisableChecks | EBridgeError | ETerminateMemChecks => (spec_stop a, [])
  | ERvfi m => if off || negb (loc =? v_loc m) then (a, []) else spec_retire a m
  | ETrap l id cause _ _ _ => (if off || negb (loc =? l) then a else spec_trap a id cause, [])
  | ECsri hart cycle addr mask data =>
      if off then (a, [])
      else
        let c := Csr true hart cycle addr mask data in
        (Spec (sp_in_reset a) (sp_terminated a) (sp_uops a) (sp_trap a) (sp_pc_error a) (sp_mem_error a)
           (sp_group a) (sp_csrs a ++ [c]), [RCsr hart c])
  | _ => (a, [])
  end.
Fixpoint spec_run (loc : Z) (a : spec) (es : list rvfi_event) : spec * list rvfi_report :=
  match es with
  | [] => (a, [])
  | e :: es => let '(a, r) := spec_step loc a e in let '(a, rs) := spec_run loc a es in (a, r ++ rs)
  end.

(** The privilege modes of the messages have names. *)
Definition event_ok (e : rvfi_event) : bool :=
  match e with ERvfi m => priv_known (v_priv m) && priv_known (v_mode m) | _ => true end.

(** ** Lemmas: one micro-operation *)

(** What [make_instr] leaves alone before the changes are collected. *)
Record frame (s s' : rvfi) : Prop := Frame {
  fr_trap : rs_trap s' = rs_trap s;
  fr_acc : rs_acc s' = rs_acc s;
  fr_instrs : rs_instrs s' = rs_instrs s;
  fr_hw_csrs : rs_hw_csrs s' = rs_hw_csrs s;
  fr_in_reset : rs_in_reset s' = rs_in_reset s;
  fr_terminated : rs_terminated s' = rs_terminated s;
  fr_vec_errors : rs_vec_mem_errors s' = rs_vec_mem_errors s
}.
Record iframe (m : rvfi_msg) (i i' : rv_instr_t) : Prop := Iframe {
  if_meta : instr_view i' = instr_view i;
  if_cracked : i_cracked i' = i_cracked i;
  if_trap_valid : i_trap_valid i' = i_trap_valid i;
  if_last : i_last_uop i' = v_last_uop m;
  if_branch : i_branch_tag i' = i_branch_tag i;
  if_priv : priv_known (i_priv i') = true
}.

Section rvfi_lemmas.
Context (cfg : rvfi_cfg).
Context (disassemble : Z → string) (csr_by_address : Z → option string) (intr_name excp_name : Z → string).
Context (raw : mem_t) (raw_mtime : Z) (raw_intr : rv_intr_t).
Notation rvfi_process := (rvfi_process cfg disassemble csr_by_address intr_name excp_name raw raw_mtime raw_intr).
Notation rvfi_run := (rvfi_run cfg disassemble csr_by_address intr_name excp_name raw raw_mtime raw_intr).
Notation make_instr := (make_instr cfg disassemble raw raw_mtime).
Notation rvfi_process_rvfi := (rvfi_process_rvfi cfg disassemble csr_by_address intr_name excp_name raw raw_mtime).

Lemma frame_refl s : frame s s.
Proof. by split. Qed.
Lemma frame_trans s1 s2 s3 : frame s1 s2 → frame s2 s3 → frame s1 s3.
Proof. intros [] []. split; congruence. Qed.

Lemma ncio_frame s m i : frame s (ncio_step cfg s m i).1 ∧ rs_priv (ncio_step cfg s m i).1 = rs_priv s.
Proof.
  unfold ncio_step, rvfi_process_ncio_fetches. destruct (_ && v_last_uop m); [|by split].
  destruct (negb _); [|by split]. destruct (_ || off s); by split.
Qed.

Lemma hw_priv_frame s m i s' i' cs ok :
  hw_priv cfg s m i = (s', i', cs, ok) →
  priv_known (v_priv m) = true → priv_known (v_mode m) = true → priv_known (rs_priv s) = true →
  ok = true ∧ frame s s' ∧ iframe m i i' ∧ priv_known (rs_priv s') = true.
Proof.
  intros H Hp Hm Hs. revert H. unfold hw_priv, opcode_step. cbn. rewrite Hp. cbn.
  destruct (v_last_uop m) eqn:Hl, (v_set_pmode m), (v_clr_pmode m), (rc_patch_override cfg); cbn;
    repeat case_match; cbn; intros [= <- <- <- <-]; split_and!; try done; split; cbn; auto.
Qed.

Lemma sw_priv_frame s m i s' i' cs ok :
  sw_priv cfg s m i = (s', i', cs, ok) →
  priv_known (v_priv m) = true → priv_known (v_mode m) = true → priv_known (rs_priv s) = true →
  ok = true ∧ frame s s' ∧ iframe m i i' ∧ priv_known (rs_priv s') = true.
Proof.
  intros H Hp Hm Hs. revert H. unfold sw_priv, opcode_step. cbn.
  destruct (v_last_uop m) eqn:Hl; cbn; repeat (case_match; cbn; simplify_eq/=);
    intros [= <- <- <- <-]; split_and!; try done; try (split; cbn; auto); cbn in *;
    try match goal with H : negb _ = true |- _ => rewrite ?Hm, ?Hs in H; discriminate H end; auto.
Qed.

Lemma priv_frame s m i s' i' cs ok :
  (if negb (rc_use_sw_priv cfg) then hw_priv cfg s m i else sw_priv cfg s m i) = (s', i', cs, ok) →
  priv_known (v_priv m) = true → priv_known (v_mode m) = true → priv_known (rs_priv s) = true →
  ok = true ∧ frame s s' ∧ iframe m i i' ∧ priv_known (rs_priv s') = true.
Proof. destruct (negb _); [apply hw_priv_frame|apply sw_priv_frame]. Qed.

Definition with_regs (i : rv_instr_t) (g : list gpr_t) (f : list fpr_t) (v : list vr_t) (fl : Z) (c : list csr_t) :
    rv_instr_t :=
  i <| i_gpr := g |> <| i_fpr := f |> <| i_vr := v |> <| i_flags := fl |> <| i_csr := c |>.

Lemma gpr_step_eq m a i :
  gpr_step m a i =
  (a <| ua_gpr := if writes_gpr m && negb (i_last_uop i) && negb (v_trap m) && negb (is_mhpmevent (v_insn m))
                  then gpr_of m else ua_gpr a |>,
   i <| i_gpr := i_gpr i ++ rvfi_when (writes_gpr m) [Gpr (i_last_uop i) (v_rd_addr m) (v_rd_wdata m)] |>).
Proof.
  unfold gpr_step, writes_gpr, gpr_of, rvfi_when. destruct a, i as [? ? il]. cbn.
  destruct (_ && (_ <=? 31)), il, (v_trap m), (is_mhpmevent _); cbn; rewrite ?app_nil_r; reflexivity.
Qed.
Lemma fpr_step_eq m i :
  fpr_step m i = i <| i_fpr := i_fpr i ++ rvfi_when (v_frd_valid m) [Fpr true (v_frd_addr m) (v_frd_wdata m)] |>.
Proof. unfold fpr_step, rvfi_when. destruct i, (v_frd_valid m); cbn; rewrite ?app_nil_r; reflexivity. Qed.
Lemma vr_step_eq m a i :
  vr_step m a i =
  (a <| ua_vrs := ua_vrs a ++ rvfi_when (v_vrd_valid m && (v_vrd_addr m <? 32) && negb (v_trap m)) [vr_of m] |>,
   i <| i_vr := i_vr i ++ rvfi_when (v_vrd_valid m) [vr_of m] |>).
Proof.
  unfold vr_step, vr_of, rvfi_when. destruct a, i. cbn.
  destruct (v_vrd_valid m), (_ <? 32), (v_trap m); cbn; rewrite ?app_nil_r; reflexivity.
Qed.
Lemma flags_step_eq m a i :
  flags_step m a i =
  (a <| ua_flags := ua_flags a ||| (if negb (v_trap m) then flags_of m else 0) |>
     <| ua_cracked := ua_cracked a || (negb (v_trap m) && i_cracked i) |>,
   i <| i_flags := if negb (v_trap m) then flags_of m else 0 |>).
Proof.
  unfold flags_step, flags_of. destruct a, i. cbn.
  destruct (v_flags_valid m), (v_trap m); cbn; rewrite ?Z.lor_0_r, ?orb_false_r; reflexivity.
Qed.
Lemma csr_step_eq m a i :
  csr_step m a i =
  (a <| ua_csrs := ua_csrs a ++ rvfi_when (v_csr_valid m && negb (v_last_uop m) && negb (v_trap m)) [csr_of m] |>,
   i <| i_csr := i_csr i ++ option_list (kept_csr m) |>).
Proof.
  unfold csr_step, kept_csr, csr_of, rvfi_when. destruct a, i. cbn.
  destruct (v_csr_valid m), (v_last_uop m), (v_trap m); cbn; rewrite ?app_nil_r; reflexivity.
Qed.

Lemma uop_changes_eq m a i :
  uop_changes m a i =
  (Uop_acc (if writes_gpr m && negb (i_last_uop i) && negb (v_trap m) && negb (is_mhpmevent (v_insn m))
            then gpr_of m else ua_gpr a)
     (ua_vrs a ++ rvfi_when (v_vrd_valid m && (v_vrd_addr m <? 32) && negb (v_trap m)) [vr_of m])
     (ua_flags a ||| (if negb (v_trap m) then flags_of m else 0))
     (ua_cracked a || (negb (v_trap m) && i_cracked i))
     (ua_csrs a ++ rvfi_when (v_csr_valid m && negb (v_last_uop m) && negb (v_trap m)) [csr_of m]),
   with_regs i (i_gpr i ++ rvfi_when (writes_gpr m) [Gpr (i_last_uop i) (v_rd_addr m) (v_rd_wdata m)])
     (i_fpr i ++ rvfi_when (v_frd_valid m) [Fpr true (v_frd_addr m) (v_frd_wdata m)])
     (i_vr i ++ rvfi_when (v_vrd_valid m) [vr_of m]) (if negb (v_trap m) then flags_of m else 0)
     (i_csr i ++ option_list (kept_csr m))).
Proof.
  unfold uop_changes. rewrite gpr_step_eq, fpr_step_eq, vr_step_eq. cbv beta iota. rewrite flags_step_eq, csr_step_eq.
  by destruct a, i.
Qed.

Lemma append_uop_changes_eq a i :
  append_uop_changes_to_instr a i =
  (Uop_acc (Gpr false (gpr_addr (ua_gpr a)) (gpr_wdata (ua_gpr a))) [] 0 false [],
   with_regs i (i_gpr i ++ rvfi_when (gpr_valid (ua_gpr a)) [Gpr true (gpr_addr (ua_gpr a)) (gpr_wdata (ua_gpr a))]) (i_fpr i)
     (match ua_vrs a with [] => i_vr i | vs => vs end)
     (if ua_cracked a then i_flags i ||| ua_flags a else i_flags i) (i_csr i ++ ua_csrs a)).
Proof.
  unfold append_uop_changes_to_instr, with_regs, rvfi_when. destruct a as [[v g w] vs fl cr cs], i. cbn.
  destruct v, vs, cr, cs; cbn; rewrite ?app_nil_r; reflexivity.
Qed.

(** What is kept is a function of the micro-operations. *)
Record acc_ok (us : list rvfi_msg) (a : uop_acc) : Prop := Acc_ok {
  ao_gpr : rvfi_when (gpr_valid (ua_gpr a)) [ua_gpr a] = option_list (last (omap kept_gpr us));
  ao_vrs : ua_vrs a = omap kept_vr us;
  ao_flags : ua_flags a = all_flags us;
  ao_cracked : ua_cracked a = match us with [] => false | _ => true end;
  ao_csrs : ua_csrs a = omap kept_csr us
}.

Lemma all_flags_snoc us m : all_flags (us ++ [m]) = all_flags us ||| flags_of m.
Proof. unfold all_flags. by rewrite fmap_app, foldl_app. Qed.
Lemma kept_vr_when m : option_list (kept_vr m) = rvfi_when (v_vrd_valid m && (v_vrd_addr m <? 32)) [vr_of m].
Proof. unfold kept_vr, rvfi_when. by destruct (_ && _). Qed.
Lemma kept_csr_when m : option_list (kept_csr m) = rvfi_when (v_csr_valid m) [csr_of m].
Proof. unfold kept_csr, rvfi_when. by destruct (v_csr_valid m). Qed.
Lemma omap_snoc {A B} (f : A → option B) l x : omap f (l ++ [x]) = omap f l ++ option_list (f x).
Proof. rewrite omap_app. simpl. by destruct (f x). Qed.

Lemma uop_kept us m a i :
  acc_ok us a → v_trap m = false → v_last_uop m = false → i_last_uop i = false → i_cracked i = true →
  acc_ok (us ++ [m]) (uop_changes m a i).1.
Proof.
  intros [Hg Hv Hf Hc Hcs] Ht Hl Hil Hic. rewrite uop_changes_eq, Ht, Hl, Hil, Hic. cbn. split; cbn.
  - rewrite omap_snoc. unfold kept_gpr at 2. rewrite !andb_true_r. destruct (writes_gpr m && _); cbn.
    + by rewrite last_snoc.
    + by rewrite app_nil_r.
  - by rewrite Hv, omap_snoc, kept_vr_when, andb_true_r.
  - by rewrite Hf, all_flags_snoc.
  - rewrite orb_true_r. by destruct us.
  - by rewrite Hcs, omap_snoc, kept_csr_when, !andb_true_r.
Qed.

Lemma uop_trapped m a i : v_trap m = true → (uop_changes m a i).1 = a.
Proof.
  intros Ht. rewrite uop_changes_eq, Ht. cbn. rewrite !andb_false_r, Z.lor_0_r, orb_false_r. cbn.
  rewrite !app_nil_r. by destruct a.
Qed.

(** ** Simulation *)

Record sim (a : spec) (s : rvfi) : Prop := Sim {
  sm_reset : rs_in_reset s = sp_in_reset a;
  sm_term : rs_terminated s = sp_terminated a;
  sm_acc : acc_ok (sp_uops a) (rs_acc s);
  sm_trap : trap_kind (tc_nmi (rs_trap s)) (tc_intr (rs_trap s)) (tc_excp (rs_trap s)) (tc_ncause (rs_trap s))
              (tc_icause (rs_trap s)) (tc_ecause (rs_trap s)) = sp_trap a;
  sm_pc : tc_pc_error (rs_trap s) = sp_pc_error a;
  sm_mem : tc_mem_error (rs_trap s) = sp_mem_error a;
  sm_group : instr_view <$> rs_instrs s = sp_group a;
  sm_csrs : rs_hw_csrs s = sp_csrs a;
  sm_priv : priv_known (rs_priv s) = true;
  sm_vec : rs_vec_mem_errors s ≠ ∅ → tc_mem_error (rs_trap s) = true
}.

(** The instruction [make_instr] makes of [m]. *)
Record rvfi_made (s : rvfi) (m : rvfi_msg) (s' : rvfi) (i : rv_instr_t) : Prop := Made {
  md_trap : rs_trap s' = rs_trap s;
  md_instrs : rs_instrs s' = rs_instrs s;
  md_csrs : rs_hw_csrs s' = rs_hw_csrs s;
  md_reset : rs_in_reset s' = rs_in_reset s;
  md_term : rs_terminated s' = rs_terminated s;
  md_priv : priv_known (rs_priv s') = true;
  md_vec : rs_vec_mem_errors s' ≠ ∅ → v_mem_error m || tc_mem_error (rs_trap s) = true;
  md_acc : ∃ i0, i_last_uop i0 = v_last_uop m ∧ i_cracked i0 = negb (v_last_uop m) ∧
             rs_acc s' = (uop_changes m (rs_acc s) i0).1;
  md_ipriv : priv_known (i_priv i) = true;
  md_trap_valid : i_trap_valid i = v_trap m;
  md_view : instr_view i =
    Retired (u8 (v_hart m)) (v_cycle m) (v_insn m) (v_pc_rdata m)
      (trap_kind (tc_nmi (rs_trap s)) (tc_intr (rs_trap s)) (tc_excp (rs_trap s)) (tc_ncause (rs_trap s))
         (tc_icause (rs_trap s)) (tc_ecause (rs_trap s)))
      (v_pc_error m || tc_pc_error (rs_trap s)) (v_mem_error m || tc_mem_error (rs_trap s))
      (rvfi_when (writes_gpr m) [Gpr (v_last_uop m) (v_rd_addr m) (v_rd_wdata m)])
      (rvfi_when (v_frd_valid m) [Fpr true (v_frd_addr m) (v_frd_wdata m)])
      (rvfi_when (v_vrd_valid m) [vr_of m]) (if negb (v_trap m) then flags_of m else 0) (option_list (kept_csr m))
}.

Lemma ncio_silent s m i : omap report_of (ncio_step cfg s m i).2 = [].
Proof.
  unfold ncio_step, rvfi_process_ncio_fetches. destruct (_ && v_last_uop m); [|done].
  destruct (negb _); [|done]. destruct (_ || off s); [done|]. cbn. induction (base.filter _ _); auto.
Qed.
Lemma priv_silent s m i :
  omap report_of (if negb (rc_use_sw_priv cfg) then hw_priv cfg s m i else sw_priv cfg s m i).1.2 = [].
Proof.
  unfold hw_priv, sw_priv, opcode_step, rvfi_when. destruct (negb (rc_use_sw_priv cfg)); cbn;
    repeat (case_match; cbn; simplify_eq/=); done.
Qed.

Lemma vec_error_absorbed s b tag :
  (rs_vec_mem_errors s ≠ ∅ → b = true) → b || default false (rs_vec_mem_errors s !! tag) = b.
Proof.
  intros H. destruct (rs_vec_mem_errors s !! tag) as [x|] eqn:E; cbn; [|apply orb_false_r].
  assert (b = true) as ->; [|done]. apply H. intros Hem. rewrite Hem, lookup_empty in E. done.
Qed.

Lemma instr_body_made s m s2 i2 s' i :
  frame s s2 → iframe m (instr_meta cfg disassemble raw raw_mtime s m) i2 →
  (rs_vec_mem_errors s ≠ ∅ → tc_mem_error (rs_trap s) = true) → priv_known (rs_priv s2) = true →
  instr_body cfg s2 m i2 = (s', i) → rvfi_made s m s' i.
Proof.
  intros [Ft Fa Fi Fc Fr Fm Fv] [V C T L B P] Hvec P2. unfold instr_body.
  set (i3 := if use_excp_trap_tag cfg s2 i2 then i2 <| i_tag := _ |> else i2).
  set (s3 := if v_last_uop m && negb (rs_patch_mode s2) then _ else s2).
  assert (frame s s3 ∧ priv_known (rs_priv s3) = true) as [[Gt Ga Gi Gc Gr Gm Gv] P3].
  { subst s3. destruct (_ && _); (split; [by split|done]). }
  assert (instr_view i3 = instr_view i2 ∧ i_trap_valid i3 = i_trap_valid i2 ∧ i_last_uop i3 = i_last_uop i2 ∧
          i_cracked i3 = i_cracked i2 ∧ i_priv i3 = i_priv i2) as (V3 & T3 & L3 & C3 & I3).
  { subst i3. by destruct (use_excp_trap_tag _ _ _). }
  clearbody i3 s3. rewrite V in V3. clear V. rewrite T in T3. rewrite L in L3. rewrite C in C3. rewrite <- I3 in P.
  rewrite uop_changes_eq. unfold mem_step. cbn. rewrite L3. intros [= <- <-].
  assert (rs_vec_mem_errors s3 ≠ ∅ → v_mem_error m || tc_mem_error (rs_trap s) = true) as Hv3.
  { intros E. rewrite Gv in E. rewrite (Hvec E). apply orb_true_r. }
  set (i0 := rv_instr_new raw raw_mtime <| i_last_uop := v_last_uop m |> <| i_cracked := negb (v_last_uop m) |>).
  destruct i3. cbn in V3, T3, L3, C3, P |- *. injection V3 as -> -> -> _ Hk _ _ -> -> -> _ ->.
  split; try done; try (destruct (_ && rs_vec_cmode s3); done).
  - destruct (_ && rs_vec_cmode s3) eqn:E; [|exact Hv3]. intros _. apply andb_true_iff in E as [E _]. by rewrite <- Gt.
  - exists i0. split_and!; [done..|]. rewrite uop_changes_eq. destruct (_ && rs_vec_cmode s3); cbn; by rewrite Ga, C3.
  - unfold instr_view. cbn. rewrite Hk, Gt. by rewrite vec_error_absorbed by done.
Qed.

Lemma make_instr_made a s m s' i cs :
  sim a s → priv_known (v_priv m) = true → priv_known (v_mode m) = true → make_instr s m = (s', i, cs) →
  rvfi_made s m s' i ∧ omap report_of cs = [].
Proof.
  intros Hsim Hp Hm. unfold Rvfi.make_instr. pose proof (ncio_frame s m (instr_meta cfg disassemble raw raw_mtime s m)) as Hn.
  pose proof (ncio_silent s m (instr_meta cfg disassemble raw raw_mtime s m)) as Hq0.
  destruct (ncio_step _ _ _ _) as [s1 cs0]. destruct Hn as [F1 P1]. cbn in F1, P1, Hq0.
  pose proof (priv_silent s1 m (instr_meta cfg disassemble raw raw_mtime s m)) as Hq1.
  destruct (if negb (rc_use_sw_priv cfg) then _ else _) as [[[s2 i2] cs1] ok] eqn:E.
  destruct (priv_frame _ _ _ _ _ _ _ E Hp Hm) as (-> & F2 & I2 & P2). { rewrite P1. apply Hsim. }
  pose proof (frame_trans _ _ _ F1 F2) as F. clear F1 F2 E. cbn in Hq1 |- *.
  destruct (instr_body cfg s2 m i2) as [s3 i3] eqn:E. intros [= <- <- <-].
  split; [|by rewrite omap_app, Hq0, Hq1]. apply (instr_body_made _ _ _ _ _ _ F I2 (sm_vec _ _ Hsim) P2 E); done.
Qed.

Lemma append_view us m acc0 i0 i trap pe me :
  acc_ok us acc0 → i_last_uop i0 = true → i_cracked i0 = false → v_last_uop m = true → v_trap m = false →
  instr_view i =
    Retired (u8 (v_hart m)) (v_cycle m) (v_insn m) (v_pc_rdata m) trap (v_pc_error m || pe) (v_mem_error m || me)
      (rvfi_when (writes_gpr m) [Gpr (v_last_uop m) (v_rd_addr m) (v_rd_wdata m)])
      (rvfi_when (v_frd_valid m) [Fpr true (v_frd_addr m) (v_frd_wdata m)])
      (rvfi_when (v_vrd_valid m) [vr_of m]) (if negb (v_trap m) then flags_of m else 0) (option_list (kept_csr m)) →
  let '(a, i') := append_uop_changes_to_instr (uop_changes m acc0 i0).1 i in
  instr_view i' = retire_of us m trap pe me ∧ acc_ok [] a.
Proof.
  intros [Hg Hv Hf Hc Hcs] Hl0 Hc0 Hl Ht V. rewrite append_uop_changes_eq. split; [|by split].
  rewrite uop_changes_eq, Hl0, Hc0, Hl, Ht. cbn. rewrite Hl, Ht in V. cbn in V.
  rewrite !andb_false_r, !andb_true_r, orb_false_r. cbn.
  unfold instr_view, with_regs in *. cbn. injection V as -> -> -> -> Hk -> -> -> -> -> -> ->.
  unfold retire_of. f_equal; [done|..].
  - f_equal. rewrite <- Hg. destruct (ua_gpr acc0) as [[] ? ?]; done.
  - by rewrite omap_snoc, kept_vr_when, Hv.
  - rewrite Hc. destruct us as [|u us]; [done|]. by rewrite all_flags_snoc, Hf.
  - by rewrite Hcs, app_nil_r.
Qed.

Lemma off_false s : off s = false → rs_terminated s = false ∧ rs_in_reset s = false.
Proof. unfold off. by intros [? ?]%orb_false_iff. Qed.

Lemma retire_sim s m i r s' cs :
  rc_cosim cfg = true → off s = false →
  (let '(a, i') := append_uop_changes_to_instr (rs_acc s) i in instr_view i' = r ∧ acc_ok [] a) →
  i_trap_valid i = false → re_hart r = u8 (v_hart m) → re_cycle r = v_cycle m → priv_known (rs_priv s) = true →
  rvfi_retire cfg s m i = (s', cs) →
  let group := (instr_view <$> rs_instrs s) ++ [r] in
  sim (Spec false false [] None false false (if v_last_insn m then [] else group)
         (if v_last_insn m then [] else rs_hw_csrs s)) s' ∧
  omap report_of cs =
    RInstr (u8 (v_hart m)) r :: rvfi_when (v_last_insn m) [RGroup (u8 (v_hart m)) (v_cycle m) group (rs_hw_csrs s)].
Proof.
  intros Hc Hoff Happ Ht Hh Hcy Hp. destruct (off_false _ Hoff) as [Hterm Hres].
  assert (i_trap_valid (append_uop_changes_to_instr (rs_acc s) i).2 = false) as Ht'.
  { by rewrite append_uop_changes_eq. }
  unfold rvfi_retire. destruct (append_uop_changes_to_instr _ _) as [acc i']. destruct Happ as [V A]. cbn in Ht'.
  assert (i_hart i' = u8 (v_hart m) ∧ i_cycle i' = v_cycle m) as [Ehart Ecyc] by (by rewrite <- Hh, <- Hcy, <- V).
  unfold enter_debug_mode, send_instr, exit_debug_mode, group_step, send_instr_group, restore_step, retire_state, off, rvfi_when.
  cbn. rewrite Hc. cbn. rewrite Hterm, Hres. cbn. rewrite Ht', Ehart, Ecyc. cbn.
  rewrite <- V. clear V Hh Hcy Ht Ht'.
  destruct (_ || (i_excp i' && _)), (_ && (pc_rdata _ =? _)), (v_last_insn m); cbn; rewrite Hterm, Hres; cbn;
    destruct (rc_r cfg && v_init_jalr_seen m && negb (rs_whisper_reloaded s)); cbn; repeat case_bool_decide; cbn;
    intros [= <- <-]; 
    (split; [split; cbn; rewrite ?fmap_app; auto; done|cbn; rewrite ?Hterm, ?Hres; cbn; by rewrite ?fmap_app]).
Qed.

(** ** The messages *)

Lemma process_rvfi_sim a s m :
  rc_cosim cfg = true → sim a s → priv_known (v_priv m) = true → priv_known (v_mode m) = true →
  off s = false → rc_loc cfg = v_loc m →
  ∃ s' cs, rvfi_process_rvfi s m = Some (s', cs) ∧ sim (spec_retire a m).1 s' ∧ omap report_of cs = (spec_retire a m).2.
Proof.
  intros Hc Hsim Hp Hm Hoff Hloc. unfold Rvfi.rvfi_process_rvfi. rewrite Hoff, Hloc, Z.eqb_refl. cbn.
  destruct (make_instr s m) as [[s1 i] c0] eqn:E.
  destruct (make_instr_made _ _ _ _ _ _ Hsim Hp Hm E) as [Hmade Hq]. clear E.
  destruct (print_instr_total disassemble csr_by_address intr_name excp_name (rc_log cfg) (rc_labels cfg)
              (log_view_of s1) i (md_ipriv _ _ _ _ Hmade)) as [lines ->]. cbn.
  assert (omap report_of (c0 ++ (LogLine <$> lines)) = []) as Hq'.
  { rewrite omap_app, Hq. cbn. by induction lines. }
  destruct Hmade as [Mt Mi Mc Mr Mm Mp Mv (i0 & L0 & C0 & Ma) Mip Mtv V], Hsim as [Sr St Sa Sk Sp Sm Sg Sc Spr Sv].
  destruct (off_false _ Hoff) as [Hterm Hres]. unfold spec_retire.
  destruct (v_trap m) eqn:Ht; [|destruct (v_last_uop m) eqn:Hl]; cbn.
  - eexists _, _. split; [done|]. split; [|exact Hq'].
    split; cbn; rewrite ?Mt, ?Mi, ?Mc, ?Mr, ?Mm, ?Sp, ?Sm; auto using orb_comm.
    + by rewrite Ma, uop_trapped.
    + intros E. rewrite <- (Mv E), Sm. apply orb_comm.
  - match goal with |- context [rvfi_retire cfg ?s0 m i] => set (s2 := s0) end.
    destruct (rvfi_retire cfg s2 m i) as [s3 c1] eqn:E.
    eexists _, _. split; [done|]. rewrite omap_app, Hq'. cbn [app].
    unshelve eapply (retire_sim _ _ _ (retire_of (sp_uops a) m (sp_trap a) (sp_pc_error a) (sp_mem_error a))) in E
      as [Hs Hr]; try done.
    + cbn in Hs, Hr. rewrite Mi, Sg in Hs, Hr. rewrite Mc, Sc in Hs, Hr. rewrite Hr.
      rewrite <- Sr, <- St, Hterm, Hres. by destruct (v_last_insn m).
    + unfold off. subst s2. cbn. by rewrite Mr, Mm, Hterm, Hres.
    + subst s2. cbn. rewrite Ma. apply append_view; auto. rewrite V, Sk, Sp, Sm, Ht, Hl. done.
  - eexists _, _. split; [done|]. split; [|exact Hq'].
    split; cbn; rewrite ?Mt, ?Mi, ?Mc, ?Mr, ?Mm, ?Sp, ?Sm; auto using orb_comm.
    + rewrite Ma. by apply uop_kept.
    + intros E. rewrite <- (Mv E), Sm. apply orb_comm.
Qed.

Lemma process_excp_sim s cause order pc_addr :
  let '(s', cs) := process_excp cfg s cause order pc_addr in
  rs_in_reset s' = rs_in_reset s ∧ rs_terminated s' = rs_terminated s ∧ rs_acc s' = rs_acc s ∧
  rs_instrs s' = rs_instrs s ∧ rs_hw_csrs s' = rs_hw_csrs s ∧ rs_priv s' = rs_priv s ∧
  rs_trap s' = rs_trap s <| tc_nmi := false |> <| tc_intr := false |> <| tc_excp := true |>
                         <| tc_ecause := cause &&& 0xff |> ∧
  (rs_vec_mem_errors s' ≠ ∅ → rs_vec_mem_errors s ≠ ∅ ∨ tc_mem_error (rs_trap s) = true) ∧
  omap report_of cs = [].
Proof.
  unfold process_excp, rvfi_when. cbn. repeat (case_match; cbn; simplify_eq/=); split_and!; auto.
Qed.

Lemma process_trap_sim a s loc id cause order pc_addr virt :
  sim a s → off s = false → rc_loc cfg = loc →
  let '(s', cs) := rvfi_process_trap cfg s loc id cause order pc_addr virt in
  sim (spec_trap a id cause) s' ∧ omap report_of cs = [].
Proof.
  intros [Sr St Sa Sk Sp Sm Sg Sc Spr Sv] Hoff <-. unfold rvfi_process_trap, spec_trap. rewrite Hoff, Z.eqb_refl. cbn.
  destruct (id =? NMI); [by split|]. destruct (id =? INTR); [by split|]. destruct (id =? EXCP); [|by split].
  pose proof (process_excp_sim s cause order pc_addr) as H. destruct (process_excp _ _ _ _ _) as [s' cs].
  destruct H as (H1 & H2 & H3 & H4 & H5 & H6 & H7 & H8 & H9). split; [|done].
  split; cbn; rewrite ?H1, ?H2, ?H3, ?H4, ?H5, ?H6, ?H7; auto. intros [?|?]%H8; auto.
Qed.

Lemma lines_silent ls : omap report_of (LogLine <$> ls) = [].
Proof. by induction ls. Qed.

Lemma process_csri_sim a s hart cycle addr wmask data :
  rc_cosim cfg = true → sim a s →
  ∃ s' cs, process_csri cfg s hart cycle addr wmask data = Some (s', cs) ∧
    sim (spec_step (rc_loc cfg) a (ECsri hart cycle addr wmask data)).1 s' ∧
    omap report_of cs = (spec_step (rc_loc cfg) a (ECsri hart cycle addr wmask data)).2.
Proof.
  intros Hc Hsim. pose proof (sm_term _ _ Hsim) as Ht. pose proof (sm_reset _ _ Hsim) as Hr.
  unfold process_csri, send_csr. cbn. rewrite <- Ht, <- Hr. unfold off.
  destruct (rs_terminated s || rs_in_reset s) eqn:Eo; [by eexists _, _|].
  destruct (print_csr_total (rc_log cfg) (rs_priv s) (Csr true hart cycle addr wmask data) (sm_priv _ _ Hsim)) as [ls ->].
  eexists _, _. split; [done|]. rewrite Hc, omap_app, lines_silent. cbn. split; [|reflexivity].
  destruct Hsim. split; cbn; auto. by f_equal.
Qed.

Lemma process_sim a s e :
  rc_cosim cfg = true → sim a s → event_ok e = true →
  ∃ s' cs, rvfi_process s e = Some (s', cs) ∧ sim (spec_step (rc_loc cfg) a e).1 s' ∧
    omap report_of cs = (spec_step (rc_loc cfg) a e).2.
Proof.
  intros Hc Hsim He. pose proof (sm_term _ _ Hsim) as Ht. pose proof (sm_reset _ _ Hsim) as Hr.
  assert (off s = sp_terminated a || sp_in_reset a) as Hoff by (unfold off; by rewrite Ht, Hr).
  destruct e; cbn [Rvfi.rvfi_process]; try (by apply process_csri_sim); cbn [spec_step]; try rewrite <- Hoff;
    try (eexists _, _; split; [done|]; split; [done|];
         unfold process_rvfi_steps, process_regs, process_counter_ovf, process_core_nmi, process_interrupt_pend,
           process_mtip, process_mtime, rvfi_process_imsic_msi, process_debug, rvfi_when; by repeat case_match);
    try (eexists _, _; split; [done|]; by destruct Hsim).
  - unfold rvfi_process_reset. rewrite Hc, Ht. destruct (sp_terminated a) eqn:Et; [by eexists _, _|]. cbn.
    destruct (_ =? loc); cbn; [|by eexists _, _]. eexists _, _. split; [done|]. by destruct Hsim.
  - unfold process_drain, rvfi_when. rewrite Hc. eexists _, _. split; [done|]. by destruct Hsim.
  - cbn in He. apply andb_true_iff in He as [Hp Hm]. destruct (off s) eqn:Eo; cbn.
    { unfold Rvfi.rvfi_process_rvfi. rewrite Eo. by eexists _, _. }
    destruct (Z.eqb_spec (rc_loc cfg) (v_loc m)) as [El|En]; cbn; [by apply process_rvfi_sim|].
    unfold Rvfi.rvfi_process_rvfi. rewrite Eo, (proj2 (Z.eqb_neq _ _) En). by eexists _, _.
  - destruct (off s) eqn:Eo; cbn. { unfold rvfi_process_trap. rewrite Eo. by eexists _, _. }
    destruct (Z.eqb_spec (rc_loc cfg) loc) as [El|En]; cbn.
    + pose proof (process_trap_sim a s loc id cause order pc_addr virt_mode Hsim Eo El) as H.
      destruct (rvfi_process_trap _ _ _ _ _ _ _ _) as [s' cs]. by eexists _, _.
    + unfold rvfi_process_trap. rewrite Eo, (proj2 (Z.eqb_neq _ _) En). by eexists _, _.
Qed.

Lemma run_sim a s es :
  rc_cosim cfg = true → sim a s → Forall (λ e, event_ok e = true) es →
  ∃ s' cs, rvfi_run s es = Some (s', cs) ∧ sim (spec_run (rc_loc cfg) a es).1 s' ∧
    omap report_of cs = (spec_run (rc_loc cfg) a es).2.
Proof.
  intros Hc. revert a s. induction es as [|e es IH]; intros a s Hsim Hes; [by eexists _, _|].
  apply Forall_cons in Hes as [He Hes]. destruct (process_sim a s e Hc Hsim He) as (s1 & c1 & E1 & S1 & R1).
  cbn. rewrite E1. destruct (spec_step (rc_loc cfg) a e) as [a1 r1]. cbn in *.
  destruct (IH a1 s1 S1 Hes) as (s2 & c2 & E2 & S2 & R2). rewrite E2. cbn. eexists _, _. split; [done|].
  destruct (spec_run (rc_loc cfg) a1 es) as [a2 r2]. cbn in *. split; [done|]. by rewrite omap_app, R1, R2.
Qed.

Lemma sim_new : sim spec_new rvfi_new.
Proof. split; cbn; done. Qed.

(** ** Tags in patch mode *)

Record patching (t : Z) (s : rvfi) : Prop := Patching {
  pt_mode : rs_patch_mode s = true; pt_tag : rs_patch_first_tag s = t
}.
Definition tag_ok (t : Z) (c : rvfi_call) : Prop := match c with BInstr _ i => i_tag i = t | _ => True end.

(** Messages that neither leave patch mode nor enter it again. *)
Definition stays (e : rvfi_event) : bool :=
  match e with
  | ERvfi m => negb (v_clr_pmode m)
  | ETrap _ id cause _ _ _ => negb ((id =? EXCP) && (cause &&& 0xff =? 60))
  | _ => true
  end.

Lemma ncio_patch t s m i :
  patching t s → patching t (ncio_step cfg s m i).1 ∧ Forall (tag_ok t) (ncio_step cfg s m i).2.
Proof.
  intros [P T]. unfold ncio_step, rvfi_process_ncio_fetches. destruct (_ && v_last_uop m); [|by repeat split].
  destruct (negb _); [|by repeat split]. destruct (_ || off s); [by repeat split|]. cbn. split; [done|].
  induction (base.filter _ _); by constructor.
Qed.

Lemma hw_priv_patch t s m i s' i' cs ok :
  t ≠ 0 → patching t s → i_tag i = t → v_clr_pmode m = false → hw_priv cfg s m i = (s', i', cs, ok) →
  patching t s' ∧ i_tag i' = t ∧ Forall (tag_ok t) cs.
Proof.
  intros Ht [P T] Hi Hclr. unfold hw_priv, opcode_step, rvfi_when. cbn. rewrite Hclr.
  destruct (v_last_uop m), (priv_known (v_priv m)), (v_set_pmode m), (rc_patch_override cfg); cbn;
    rewrite ?T, ?(proj2 (Z.eqb_neq _ _) Ht); repeat case_match; cbn; intros [= <- <- <- <-]; split_and!;
    repeat constructor; auto.
Qed.

Lemma instr_body_patch t s m i :
  patching t s → i_tag i = t → patching t (instr_body cfg s m i).1 ∧ i_tag (instr_body cfg s m i).2 = t.
Proof.
  intros [P T] Hi. assert (use_excp_trap_tag cfg s i = false) as E.
  { unfold use_excp_trap_tag. rewrite P. by repeat case_match. }
  unfold instr_body. rewrite E, P, uop_changes_eq, andb_false_r. unfold mem_step. cbn.
  destruct (_ && rs_vec_cmode s); by repeat split.
Qed.

Lemma make_instr_patch t s m s' i cs :
  rc_use_sw_priv cfg = false → rc_patch_override cfg = true → t ≠ 0 → patching t s → v_clr_pmode m = false →
  make_instr s m = (s', i, cs) → patching t s' ∧ i_tag i = t ∧ Forall (tag_ok t) cs.
Proof.
  intros Hsw Hov Ht Hpt Hclr. unfold Rvfi.make_instr. set (i0 := instr_meta cfg disassemble raw raw_mtime s m).
  assert (i_tag i0 = t) as H0. { unfold i0, instr_meta. cbn. rewrite (pt_mode _ _ Hpt), Hov. apply Hpt. }
  pose proof (ncio_patch t s m i0 Hpt) as [P1 C1]. destruct (ncio_step cfg s m i0) as [s1 cs1]. cbn in P1, C1.
  rewrite Hsw. cbn [negb]. destruct (hw_priv cfg s1 m i0) as [[[s2 i2] cs2] ok] eqn:E.
  apply hw_priv_patch with (t := t) in E as (P2 & T2 & C2); auto.
  destruct ok; cbn [negb].
  - pose proof (instr_body_patch t s2 m i2 P2 T2) as [P3 T3]. destruct (instr_body cfg s2 m i2) as [s3 i3]. cbn in P3, T3 |- *.
    intros [= <- <- <-]. by rewrite Forall_app.
  - intros [= <- <- <-]. by rewrite Forall_app.
Qed.

(** A step of [rvfi_retire] that keeps to patch mode and its tag. *)
Definition step_ok (t : Z) (r : rvfi * list rvfi_call) : Prop := patching t r.1 ∧ Forall (tag_ok t) r.2.
Lemma enter_debug_patch t s i : patching t s → step_ok t (enter_debug_mode cfg s i).
Proof. intros [P T]. unfold enter_debug_mode. repeat case_match; by repeat constructor. Qed.
Lemma exit_debug_patch t s i : patching t s → step_ok t (exit_debug_mode cfg s i).
Proof. intros [P T]. unfold exit_debug_mode. repeat case_match; by repeat constructor. Qed.
Lemma group_patch t s m i : patching t s → step_ok t (group_step cfg s m i).
Proof. intros [P T]. unfold group_step, send_instr_group. cbn. repeat case_match; by repeat constructor. Qed.
Lemma restore_patch t s m : patching t s → step_ok t (restore_step cfg s m).
Proof. intros [P T]. unfold restore_step. repeat case_match; by repeat constructor. Qed.
Lemma send_patch t s i : i_tag i = t → Forall (tag_ok t) (send_instr cfg s i).
Proof. intros H. unfold send_instr, rvfi_when. repeat case_match; by repeat constructor. Qed.

Lemma retire_patch t s m i : patching t s → i_tag i = t → step_ok t (rvfi_retire cfg s m i).
Proof.
  intros P Hi. unfold rvfi_retire. rewrite append_uop_changes_eq.
  match goal with |- context [with_regs i ?g ?f ?v ?fl ?c] => set (i' := with_regs i g f v fl c);
    assert (i_tag i' = t) as Hi' by done; clearbody i' end.
  set (s0 := s <| rs_acc := _ |>). assert (patching t s0) as P0 by (by destruct P). clearbody s0.
  destruct (enter_debug_patch t s0 i' P0) as [P1 C1]. destruct (enter_debug_mode cfg s0 i') as [s1 c1].
  destruct (exit_debug_patch t s1 i' P1) as [P2 C2]. destruct (exit_debug_mode cfg s1 i') as [s2 c2].
  destruct (group_patch t s2 m i' P2) as [P3 C3]. destruct (group_step cfg s2 m i') as [s3 c3].
  set (s4 := retire_state s3 m i'). assert (patching t s4) as P4 by (by destruct P3). clearbody s4.
  destruct (restore_patch t s4 m P4) as [P5 C5]. destruct (restore_step cfg s4 m) as [s5 c5]. cbn [fst snd] in *.
  pose proof (send_patch t s1 i' Hi'). split; cbn.
  - destruct P5. by destruct (_ && _).
  - by rewrite !Forall_app, Forall_singleton.
Qed.

Lemma lines_tags t ls : Forall (tag_ok t) (LogLine <$> ls).
Proof. induction ls; by constructor. Qed.

Lemma process_rvfi_patch t s m s' cs :
  rc_use_sw_priv cfg = false → rc_patch_override cfg = true → t ≠ 0 → patching t s → v_clr_pmode m = false →
  rvfi_process_rvfi s m = Some (s', cs) → step_ok t (s', cs).
Proof.
  intros Hsw Hov Ht Hpt Hclr. unfold Rvfi.rvfi_process_rvfi.
  destruct (off s); [by intros [= <- <-]|]. destruct (negb _); [by intros [= <- <-]|].
  destruct (make_instr s m) as [[s1 i] c0] eqn:E. apply make_instr_patch with (t := t) in E as ([P1 T1] & T & C); auto.
  destruct (print_instr _ _ _ _ _ _ _ _) as [ls|]; [cbn|done]. pose proof (lines_tags t ls) as Hls.
  destruct (v_trap m); [intros [= <- <-]; split; [done|by apply Forall_app]|].
  destruct (v_last_uop m); cbn; [|intros [= <- <-]; split; [done|by apply Forall_app]].
  match goal with |- context [rvfi_retire cfg ?s0 m i] =>
    assert (step_ok t (rvfi_retire cfg s0 m i)) as [P2 C2] by (by apply retire_patch);
    destruct (rvfi_retire cfg s0 m i) as [s3 c1] end.
  intros [= <- <-]. split; [done|]. cbn. by rewrite !Forall_app.
Qed.

Lemma process_trap_patch t s loc id cause order pc_addr virt :
  patching t s → stays (ETrap loc id cause order pc_addr virt) = true →
  step_ok t (rvfi_process_trap cfg s loc id cause order pc_addr virt).
Proof.
  intros [P T] He. cbn in He. unfold rvfi_process_trap, process_excp, rvfi_when. cbn.
  destruct (off s); [by repeat constructor|]. destruct (negb (rc_loc cfg =? loc)); [by repeat constructor|].
  destruct (id =? NMI); [by repeat constructor|]. destruct (id =? INTR); [by repeat constructor|].
  destruct (id =? EXCP); [|by repeat constructor]. apply negb_true_iff in He. cbn in He. rewrite He, andb_false_r.
  repeat (case_match; cbn; simplify_eq/=); by repeat constructor.
Qed.

Lemma process_patch t s e s' cs :
  rc_use_sw_priv cfg = false → rc_patch_override cfg = true → t ≠ 0 → patching t s → stays e = true →
  rvfi_process s e = Some (s', cs) → step_ok t (s', cs).
Proof.
  intros Hsw Hov Ht Hpt He. pose proof Hpt as [P T]. destruct e; cbn [Rvfi.rvfi_process].
  all: try (intros [= <- <-]; split; [by constructor|];
            unfold process_rvfi_steps, process_regs, process_counter_ovf, process_core_nmi, process_interrupt_pend,
              process_mtip, process_mtime, rvfi_process_imsic_msi, process_debug, rvfi_when; repeat case_match; by repeat constructor).
  - unfold rvfi_process_reset. intros E. repeat case_match; simplify_eq; by repeat constructor.
  - apply process_rvfi_patch; auto. by apply negb_true_iff in He.
  - unfold process_csri, send_csr. intros E. repeat case_match; simplify_eq/=; try by repeat constructor.
    all: destruct (print_csr _ _ _) as [ls|]; simplify_eq/=; split; [by constructor|]; cbn;
      apply Forall_app; split; [apply lines_tags|by repeat constructor].
  - intros [= E]. rewrite <- E. by apply process_trap_patch.
Qed.

Lemma run_patch t s es s' cs :
  rc_use_sw_priv cfg = false → rc_patch_override cfg = true → t ≠ 0 → patching t s →
  Forall (λ e, stays e = true) es → rvfi_run s es = Some (s', cs) → step_ok t (s', cs).
Proof.
  intros Hsw Hov Ht. revert s s' cs. induction es as [|e es IH]; intros s s' cs Hpt Hes.
  { intros [= <- <-]. split; [done|constructor]. }
  apply Forall_cons in Hes as [He Hes]. cbn. destruct (rvfi_process s e) as [[s1 c1]|] eqn:E1; [cbn|done].
  destruct (process_patch t s e s1 c1 Hsw Hov Ht Hpt He E1) as [P1 C1].
  destruct (rvfi_run s1 es) as [[s2 c2]|] eqn:E2; [cbn|done]. intros [= <- <-].
  destruct (IH s1 s2 c2 P1 Hes E2) as [P2 C2]. split; [done|]. cbn. by apply Forall_app.
Qed.

Lemma enter_patch s cause t pc_addr virt :
  rc_cosim cfg = true → rc_patch_override cfg = true → off s = false → cause &&& 0xff = 60 →
  step_ok t (rvfi_process_trap cfg s (rc_loc cfg) EXCP cause t pc_addr virt).
Proof.
  intros Hc Hov Hoff Hcause. unfold rvfi_process_trap, process_excp, rvfi_when. rewrite Hoff, Z.eqb_refl, Hc, Hcause, Hov. cbn.
  by repeat constructor.
Qed.

(** C14: What the bridge is told of retired instructions, their groups and
    hardware CSR updates is the specification's function of the messages: an
    instruction is reported once, at its last micro-operation, with the changes
    of exactly the micro-operations since the one before, the trap announced
    since then and the errors of any of them.  No message raises an exception. *)
Theorem rvfi_refines es :
  rc_cosim cfg = true → Forall (λ e, event_ok e = true) es →
  ∃ s cs, rvfi_run rvfi_new es = Some (s, cs) ∧ omap report_of cs = (spec_run (rc_loc cfg) spec_new es).2.
Proof.
  intros Hc Hes. destruct (run_sim spec_new rvfi_new es Hc sim_new Hes) as (s & cs & E & _ & R). eauto.
Qed.

(** From the exception that enters patch mode until the message that leaves
    it, every instruction goes to the bridge with the tag of the instruction
    that triggered the patch. *)
Theorem patch_tags es0 s cs0 cause t pc_addr virt es :
  rc_cosim cfg = true → rc_use_sw_priv cfg = false → rc_patch_override cfg = true →
  Forall (λ e, event_ok e = true) es0 → rvfi_run rvfi_new es0 = Some (s, cs0) → off s = false →
  cause &&& 0xff = 60 → t ≠ 0 → Forall (λ e, event_ok e = true ∧ stays e = true) es →
  ∃ s' cs, rvfi_run s (ETrap (rc_loc cfg) EXCP cause t pc_addr virt :: es) = Some (s', cs) ∧
    Forall (tag_ok t) cs ∧ rs_patch_mode s' = true.
Proof.
  intros Hc Hsw Hov H0 E0 Hoff Hcause Ht Hes. apply Forall_and in Hes as [Hok Hst].
  destruct (run_sim spec_new rvfi_new es0 Hc sim_new H0) as (s1 & c1 & E1 & S1 & _).
  rewrite E0 in E1. injection E1 as <- <-. set (e := ETrap _ _ _ _ _ _).
  destruct (run_sim _ s (e :: es) Hc S1) as (s2 & c2 & E2 & _ & _). { by constructor. }
  rewrite E2. eexists _, _. split; [done|]. revert E2. cbn.
  destruct (enter_patch s cause t pc_addr virt Hc Hov Hoff Hcause) as [P C].
  destruct (rvfi_process_trap cfg s (rc_loc cfg) EXCP cause t pc_addr virt) as [s3 c3]. cbn.
  destruct (rvfi_run s3 es) as [[s4 c4]|] eqn:E4; [cbn|done]. intros [= <- <-].
  destruct (run_patch t s3 es s4 c4 Hsw Hov Ht P Hst E4) as [P4 C4].
  split; [by apply Forall_app|apply P4].
Qed.

(** Once the interface is terminated, by the end of the test or by an
    error, nothing it receives reaches the bridge, but for the rvfi_report of its
    metrics, and its state is final. *)
Theorem terminated_silent s es :
  rs_terminated s = true →
  ∃ cs, rvfi_run s es = Some (s, cs) ∧ Forall (λ c, c = BReportMetrics) cs.
Proof.
  intros Ht. assert (s <| rs_terminated := true |> = s) as Hs by (destruct s; cbn in Ht; by rewrite Ht).
  assert (off s = true) as Ho by (unfold off; by rewrite Ht).
  induction es as [|e es (cs & IH & Hcs)]; [by eexists|].
  assert (∃ c, rvfi_process s e = Some (s, c) ∧ Forall (λ c, c = BReportMetrics) c) as (c & E & Hc).
  { destruct e; cbn; unfold rvfi_process_reset, process_drain, Rvfi.rvfi_process_rvfi, rvfi_process_trap, process_csri,
      process_rvfi_steps, process_regs, process_counter_ovf, process_core_nmi, process_interrupt_pend, process_mtip,
      process_mtime, rvfi_process_imsic_msi, process_debug, rvfi_when; rewrite ?Ht, ?Ho, ?Hs; repeat case_match;
      eexists; (split; [done|]); by repeat constructor. }
  exists (c ++ cs). cbn. rewrite E. cbn. rewrite IH. cbn. split; [done|]. by apply Forall_app.
Qed.
End rvfi_lemmas.

(** ** Shutdown *)

Definition is_reset (e : rvfi_event) : bool := match e with EReset _ => true | _ => false end.
(** Whether a drain message comes behind a reset; [seen] says one has. *)
Fixpoint drain_behind_reset (seen : bool) (es : list rvfi_event) : bool :=
  match es with
  | [] => false
  | EReset _ :: es => drain_behind_reset true es
  | EDrain _ :: es => seen || drain_behind_reset seen es
  | _ :: es => drain_behind_reset seen es
  end.

Lemma drain_steps es d :
  (rd_drained d = true → rd_out_of_reset d = true) →
  foldl drain_step d es =
    Rvfi_drain (rd_out_of_reset d || existsb is_reset es) (rd_drained d || drain_behind_reset (rd_out_of_reset d) es).
Proof.
  revert d. induction es as [|e es IH]; intros [o dr] Hd; cbn in *; [by rewrite !orb_false_r|].
  destruct e; rewrite IH; cbn; auto; f_equal; destruct o, dr; cbn; auto. by specialize (Hd eq_refl).
Qed.

(** The final shutdown waits for a drain message behind the first reset. *)
Lemma shutdown_waits es :
  shutdown_ready true (foldl drain_step drain_configure es) =
  negb (existsb is_reset es) || drain_behind_reset false es.
Proof. by rewrite drain_steps. Qed.

(** ** Witnesses and examples *)

Definition demo_dam : dam_flags := Dam_flags 0 0 0 0 0 0 0 0 0 0 0 0 0 0 0 0 0 0 0 0 0 0 0.
Definition demo_cfg : rvfi_cfg :=
  Rvfi_cfg 0 0 1 true true (Log_flags true true false) false true true true false false 0x8cc false demo_dam ∅ 30 40 41.
Definition demo_raw : mem_t := Mem_t false 0 0 0 0 0 0 0 0 0 false 0 false 0 false 0 false 0 0 false 0 false 0 false.
Definition demo_intr : rv_intr_t := Rv_intr 0 0 false 0 0 0 false 0 0 0 0 false false.
(** A micro-operation at 0x80000000 that writes register [rd]. *)
Definition demo_uop (first last : bool) (order rd data : Z) (csr error : bool) : rvfi_msg :=
  Rvfi_msg 0 10 10 0 first last (negb (first && last)) 3 false false false last false order 0 0x13 0 false 3 false 0 rd
    data false 0 0 false 0 0 csr 0x340 data (2 ^ 64 - 1) 0x80000000 false 0x1000 0x1000 (if error then 0xff else 0) 0 0 0
    0 false 0 error false false.
Definition demo_events : list rvfi_event :=
  [ EReset 0; ERvfi (demo_uop true false 5 1 17 true true); ECsri 0 10 0x344 1 1;
    ERvfi (demo_uop false true 6 0 0 false false); ETrap 0 INTR 7 0 0 false; ERvfi (demo_uop true true 7 2 9 false false) ].
Notation demo_run := (rvfi_run demo_cfg (λ _, "addi x0, x0, 0") (λ _, None) (λ _, EmptyString) (λ _, EmptyString) demo_raw 0
                        demo_intr).

Lemma rvfi_refines_witness :
  (∃ s cs, demo_run rvfi_new demo_events = Some (s, cs) ∧
     omap report_of cs = (spec_run 0 spec_new demo_events).2) ∧
  (spec_run 0 spec_new demo_events).2 =
    let uc := Csr true 0 10 0x340 (2 ^ 64 - 1) 17 in let hw := Csr true 0 10 0x344 1 1 in
    let r1 := Retired 0 10 0x13 0x80000000 None false true [Gpr true 1 17] [] [] 0 [uc] in
    let r2 := Retired 0 10 0x13 0x80000000 (Some (INTR, 7)) false false [Gpr true 2 9] [] [] 0 [] in
    [RCsr 0 hw; RInstr 0 r1; RGroup 0 10 [r1] [hw]; RInstr 0 r2; RGroup 0 10 [r2] []].
Proof. split; [|reflexivity]. apply (rvfi_refines demo_cfg); [done|by repeat constructor]. Defined.

Lemma patch_tags_witness :
  ∃ s' cs, demo_run (rvfi_new <| rs_in_reset := false |>)
             [ETrap 0 EXCP 60 33 0 false; ERvfi (demo_uop true true 90 1 1 false false)] = Some (s', cs) ∧
    Forall (tag_ok 33) cs ∧ rs_patch_mode s' = true.
Proof. eapply (patch_tags demo_cfg _ _ _ _ _ _ _ [EReset 0]); by repeat constructor. Defined.

Lemma terminated_silent_witness :
  ∃ cs, demo_run (rvfi_new <| rs_terminated := true |>) (demo_events ++ [EDrain 90]) =
          Some (rvfi_new <| rs_terminated := true |>, cs) ∧ Forall (λ c, c = BReportMetrics) cs.
Proof. by apply (terminated_silent demo_cfg). Defined.

(** The field of bits [msb] to [lsb] is taken without bit [msb]. *)
Example extract_bits_short : rvfi_extract_bits_as_bitset 0xff 7 0 = 0x7f.
Proof. reflexivity. Qed.
(** The last byte of the patch memory is not an access of patch mode. *)
Example patch_access_last_byte :
  rvfi_patch_access demo_cfg 0x1000 0x100 (rvfi_new <| rs_patch_mode := true |>) 0x10fe = true ∧
  rvfi_patch_access demo_cfg 0x1000 0x100 (rvfi_new <| rs_patch_mode := true |>) 0x10ff = false.
Proof. done. Qed.
(** A mode without a name ends the handler with an exception when the log is
    on. *)
Example invalid_priv_raises :
  demo_run rvfi_new [EReset 0; ERvfi (Rvfi_msg 0 0 0 0 true true false 5 false false false true false 0 0 0 0 false 5 false
    0 0 0 false 0 0 false 0 0 false 0 0 0 0 false 0 0 0 0 0 0 0 false 0 false false false)] = None.
Proof. reflexivity. Qed.
