(* ===== verification/CosimSv.v ===== *)
(** * CosimSv: the hardware side of the co-simulation (src/cosim/cosim.sv)

    The module [cosim] of a hart watches what the hart retires and writes and
    turns it into the messages the C++ side receives.  With a period of 0 every
    retired micro-operation is a message; with a period (PSC mode) only the
    cycles in which the simulator needs to know ([poke_event_out]) are, the
    instructions in between are counted and sent as steps, and the registers
    are sent for comparison once per period.

    The registers of the module are grouped by the always blocks that write
    them: the register banks ([reg_bank]), the serial chain over the retire
    slots ([serial]), the step counters ([step_st]), the poke bookkeeping
    ([poke_st]) and the delay lines ([delay_st]).  [cosim_wires] computes the
    wires of a cycle, [cosim_msgs] the messages in the order of
    rv_tester_transactions.yml, [cosim_clk] the clock edge; the time-outs of the
    test-bench clock are [timeout_clk].  The messages are those of Rvfi.v,
    Mcmi.v and Eot.v, so the module composes with the C++ side. *)

From Stdlib Require Import Ascii.
From Stdlib Require String.
From S2P Require Import Prelude Bytes CosimUtil AddressMap McmiSplit Mcmi BridgeIntr Mem Eot RvfiLog Rvfi.
Local Open Scope string_scope.
Local Open Scope list_scope.
Local Open Scope Z_scope.

(** [x[hi:lo]] *)
Definition slice (hi lo x : Z) : Z := (x ≫ lo) mod 2 ^ (hi - lo + 1).

(** ** Ports *)

(** [rvfi_t], one retire slot; the fields the module reads. *)
Record rvfi_t := Rvfi_t {
  rt_valid : bool; rt_order : Z; rt_branch_tag : Z; rt_insn : Z; rt_trap : bool; rt_cause : Z;
  rt_virt_mode : bool; rt_mode : Z; rt_rd_addr : Z; rt_rd_wdata : Z; rt_frd_valid : bool;
  rt_frd_addr : Z; rt_frd_wdata : Z; rt_vrd_valid : bool; rt_vrd_addr : Z; rt_vrd_wdata : Z;
  rt_vec : bool; rt_flags_valid : bool; rt_flags : Z; rt_csr_addr : Z; rt_csr_wdata : Z;
  rt_csr_wmask : Z; rt_csr_rmask : Z; rt_pc_rdata : Z; rt_pc_error : bool; rt_init_jalr_seen : bool;
  rt_mem_addr : Z; rt_mem_paddr : Z; rt_mem_rmask : Z; rt_mem_wmask : Z; rt_mem_rdata : Z;
  rt_mem_wdata : Z; rt_mem_attr : Z; rt_mem_page4kX : bool; rt_mem_page4kX_attr : Z;
  rt_mem_error : bool; rt_comp : bool; rt_uop : Z; rt_last_uop : bool; rt_last_insn : bool;
  rt_opcode_modified : bool
}.

(** [mcmi_t] *)
Record mcmi_t := Mcmi_t {
  mx_valid : bool; mx_order : Z; mx_addr : Z; mx_mask : Z; mx_data : Z; mx_attr : Z; mx_error : bool;
  mx_amo : bool; mx_amo_op : Z; mx_amo_cas_fail : bool; mx_v_ext : bool; mx_opcode : Z; mx_field : Z;
  mx_elem_idx : Z; mx_splat : bool; mx_elem_size : Z
}.

(** [csr_entry_t] *)
Record csri_entry := Csri_entry { ce_valid : bool; ce_addr : Z; ce_mask : Z; ce_data : Z }.
(** [interrupt_pend_t], [nmi_t], [mtimeMmr_t] and [msi_t] *)
Record interrupt_pend_t := Interrupt_pend {
  pe_valid : bool; pe_hw : bool; pe_mip : Z; pe_seip : bool; pe_buserr_bit : Z }.
Record nmi_t := Nmi_t { nm_nmi : bool; nm_clai : bool }.
Record mtime_t := Mtime_t { mm_Data : Z; mm_WriteValid : bool }.
Record msi_t := Msi_t { ms_valid : bool; ms_addr : Z; ms_data : Z }.
(** A cache line port: [x_cl_valid] with [x_cl_addr]. *)
Record cl_port := Cl_port { cp_valid : bool; cp_addr : Z }.

Record cosim_in := Cosim_in {
  ci_reset : bool; ci_dut_core_reset : bool; ci_dut_reset : bool; ci_clocks : Z;
  ci_rvfi : list rvfi_t; ci_csri : list csri_entry;
  ci_mread : list mcmi_t; ci_minsert : list mcmi_t; ci_mwrite : list mcmi_t; ci_mbypass : list mcmi_t;
  ci_mifetch_req : list mcmi_t; ci_mifetch_resp : list mcmi_t; ci_mievict : list mcmi_t;
  ci_mdecode : list mcmi_t;
  ci_nmi_pend : nmi_t; ci_interrupt_pend : interrupt_pend_t; ci_mtime : mtime_t; ci_timeCsr : Z;
  ci_MTIP : bool; ci_imsic_msi : msi_t; ci_debug_mode : bool; ci_haltreq : bool; ci_eot_addr : Z;
  ci_poke_event_in : bool; ci_disable_checks : bool; ci_cvm_done : bool;
  ci_devict : cl_port; ci_flush : cl_port; ci_writeback : list cl_port; ci_dfetch : list cl_port
}.

(** A rule of the address map. *)
Record rule_t := Rule { ru_start : Z; ru_end : Z; ru_idx : Z }.

(** The parameters of the module and the plusargs it latches in reset. *)
Record cosim_cfg := Cosim_cfg {
  cc_NUM : Z; cc_NRET : nat; cc_loc : Z; cc_RVFI_EN : bool; cc_MCMI_EN : bool; cc_PA_WIDTH : Z;
  cc_MCM_AWIDTH : Z; cc_rules : list rule_t; cc_rvfi : bool; cc_mcm : bool; cc_cache_model : bool;
  cc_offline_dpi : bool; cc_offline_dpi_test : bool; cc_to_host : bool; cc_poke_mip_timer : bool;
  cc_cosim_period : Z; cc_max_instructions : Z; cc_psc_off_low : Z; cc_psc_off_high : Z;
  cc_mb : Z; cc_pls : Z; cc_mds : Z; cc_mm : Z; cc_dm_id : Z; cc_ax_id : Z;
  cc_debug_exit_pc_offset : Z
}.

(** ** The register banks *)

Record reg_bank := Reg_bank { rb_regs : list Z; rb_changed : bool }.
(** One write port: enable, address, data. *)
Record wport := Wport { wp_en : bool; wp_addr : Z; wp_data : Z }.

(** [regs], [AW] being the width of an index. *)
Definition bank_regs (AW : Z) (ports : list wport) (b : reg_bank) : list Z :=
  foldl (λ rs p, if wp_en p && negb (Z.testbit (wp_addr p) AW)
                 then <[Z.to_nat (wp_addr p) := wp_data p]> rs else rs) (rb_regs b) ports.
(** [changed] *)
Definition bank_changed (reset reset_changed : bool) (ports : list wport) (b : reg_bank) : bool :=
  if reset || reset_changed then false else rb_changed b || existsb wp_en ports.
(** The clock edge of [cosim_reg_bank]. *)
Definition bank_clk (AW : Z) (reset reset_changed : bool) (ports : list wport) (b : reg_bank) : reg_bank :=
  Reg_bank (if reset then replicate (length (rb_regs b)) 0 else bank_regs AW ports b)
    (bank_changed reset reset_changed ports b).

(** ** Decoding a retire slot *)

Definition sc_rw (r : rvfi_t) : bool :=
  rt_valid r && ((slice 6 0 (rt_insn r) =? 0x2f) && (slice 14 13 (rt_insn r) =? 1) && (slice 31 27 (rt_insn r) =? 3)).
Definition csr_rw (r : rvfi_t) : bool :=
  rt_valid r && (((slice 6 0 (rt_insn r) =? 0x73) && negb (slice 14 12 (rt_insn r) =? 0)) ||
                 negb (rt_csr_wmask r =? 0)).
Definition intr_memw (PA_WIDTH : Z) (r : rvfi_t) : bool :=
  rt_valid r && negb (rt_mem_wmask r =? 0) && (slice 1 0 (rt_mem_wmask r) =? 3) &&
  (slice (PA_WIDTH - 1) 32 (rt_mem_paddr r) =? 0) &&
  ((slice 31 25 (rt_mem_paddr r) =? 0x20) || (slice 31 25 (rt_mem_paddr r) =? 0x22)).

(** The MMR range and the debug addresses, from the device address map plusargs. *)
Definition mmr_lo_addr (c : cosim_cfg) : Z :=
  u64 (cc_mb c ||| u64 (cc_mm c ≪ cc_pls c)) mod 2 ^ cc_PA_WIDTH c.
Definition mmr_hi_addr (c : cosim_cfg) : Z :=
  u64 (cc_mb c ||| u64 (cc_mm c ≪ cc_pls c) ||| u64 (u64 (cc_ax_id c ≪ cc_mds c) + 0xffff)) mod 2 ^ cc_PA_WIDTH c.
Definition dm_mmr_base (c : cosim_cfg) : Z :=
  u64 (cc_mb c ||| u64 (cc_dm_id c ≪ cc_mds c) ||| u64 (cc_mm c ≪ cc_pls c)) mod 2 ^ cc_PA_WIDTH c.
Definition debug_exit_pc (c : cosim_cfg) : Z :=
  if cc_debug_exit_pc_offset c =? 0 then 0x0a110860 mod 2 ^ cc_PA_WIDTH c
  else dm_mmr_base c ||| (cc_debug_exit_pc_offset c mod 2 ^ cc_PA_WIDTH c).

Definition memmap_decode (c : cosim_cfg) (address : Z) : bool :=
  ((address <=? mmr_hi_addr c) && (mmr_lo_addr c <=? address)) ||
  existsb (λ r, (ru_start r <=? address) && (address <? ru_end r) && (ru_idx r =? 1)) (cc_rules c).
Definition device_read (c : cosim_cfg) (r : rvfi_t) : bool :=
  rt_valid r && negb (rt_mem_rmask r =? 0) && memmap_decode c (rt_mem_paddr r).

(** The write ports of the three banks. *)
Definition gp_port (r : rvfi_t) : wport :=
  Wport (rt_valid r && negb (slice 4 0 (rt_rd_addr r) =? 0)) (rt_rd_addr r) (rt_rd_wdata r).
Definition fp_port (r : rvfi_t) : wport :=
  Wport (rt_valid r && rt_frd_valid r) (rt_frd_addr r) (rt_frd_wdata r).
Definition vc_port (r : rvfi_t) : wport :=
  Wport (rt_valid r && rt_vrd_valid r) (rt_vrd_addr r) (rt_vrd_wdata r).

(** The events of a slot that must reach the simulator, without the ones
    common to all slots ([poke_interrupt], [poke_patch_mode]). *)
Definition slot_poke (c : cosim_cfg) (r : rvfi_t) : bool :=
  sc_rw r || csr_rw r || intr_memw (cc_PA_WIDTH c) r ||
  (wp_en (gp_port r) && Z.testbit (rt_rd_addr r) 5) ||
  (rt_valid r && rt_vec r && negb (rt_last_uop r)) || device_read c r ||
  (rt_valid r && negb (rt_mem_wmask r =? 0) && cc_mcm c) ||
  (rt_valid r && negb (rt_mem_rmask r =? 0) && cc_mcm c).

(** [valid_count] over the first [num] slots. *)
Definition valid_count (num : nat) (rs : list rvfi_t) : Z :=
  Z.of_nat (length (filter (λ r, rt_valid r && rt_last_uop r = true) (take num rs))).
Definition max_order (rs : list rvfi_t) : Z :=
  from_option rt_order 0 (last (filter (λ r, rt_valid r = true) rs)).

(** [get_trap_id] *)
Definition get_trap_id (cause : Z) : Z :=
  if slice 63 62 cause =? 3 then NMI else if slice 63 62 cause =? 2 then INTR else EXCP.

(** ** The serial chain *)

(** The registers [_S] that carry the chain over a clock edge. *)
Record serial := Serial {
  se_ucode : bool; se_last_uop : bool; se_priv_change : bool; se_priv : Z; se_patch_mode : bool;
  se_trap_pmode : bool
}.

(** The chain between two slots. *)
Record chain := Chain {
  ch_ucode : bool; ch_last_uop : bool; ch_priv_change : bool; ch_priv : Z; ch_patch_mode : bool;
  ch_set : bool; ch_clr : bool
}.
(** What a slot gives to the message. *)
Record slot_out := Slot_out {
  so_ucode : bool; so_first_uop : bool; so_priv : Z; so_priv_change : bool; so_set : bool; so_clr : bool
}.

Definition chain_start (s : serial) : chain :=
  Chain (se_ucode s) (se_last_uop s) (se_priv_change s) (se_priv s) (se_patch_mode s) false false.

Definition chain_slot (patch_mode_S : bool) (p : chain) (r : rvfi_t) : chain * slot_out :=
  let v := rt_valid r in
  let instr_ucode := negb (rt_last_uop r) || ch_ucode p in
  let last_uop := if v then rt_last_uop r else ch_last_uop p in
  let first_uop := if v then negb (rt_last_uop r) && ch_last_uop p else false in
  let priv_change :=
    if negb v then ch_priv_change p
    else if last_uop then false
    else if negb first_uop && instr_ucode && negb (rt_mode r =? ch_priv p) then true
    else ch_priv_change p in
  let set := v && last_uop && (rt_mode r =? 4) && negb patch_mode_S && negb (ch_set p) in
  let clr := v && last_uop && negb (rt_mode r =? 4) && patch_mode_S && negb (ch_clr p) in
  (Chain (if v then negb (rt_last_uop r) else ch_ucode p) last_uop priv_change
     (if negb v then ch_priv p
      else if last_uop || (first_uop && instr_ucode) then rt_mode r else ch_priv p)
     (if negb v then ch_patch_mode p else if clr then false else if set then true else ch_patch_mode p)
     set clr,
   Slot_out instr_ucode first_uop (if negb instr_ucode || first_uop then rt_mode r else ch_priv p)
     priv_change set clr).

Fixpoint chain_run (patch_mode_S : bool) (p : chain) (rs : list rvfi_t) : chain * list (chain * slot_out) :=
  match rs with
  | [] => (p, [])
  | r :: rs' =>
      let '(q, o) := chain_slot patch_mode_S p r in
      let '(e, os) := chain_run patch_mode_S q rs' in
      (e, (q, o) :: os)
  end.

(** The clock edge of the chain registers. *)
Definition serial_clk (dut_core_reset trap_patch : bool) (e : chain) (outs : list slot_out) (s : serial) : serial :=
  if dut_core_reset then Serial false true false 0 false false
  else
    let clr := existsb so_clr outs in
    let set := existsb so_set outs in
    Serial (ch_ucode e) (ch_last_uop e) (ch_priv_change e) (ch_priv e)
      (if trap_patch then se_patch_mode s else if set then true else if clr then false else se_patch_mode s)
      (if trap_patch then true else if clr then false else se_trap_pmode s).

(** ** The other registers *)

Record step_st := Step_st {
  sp_steps : Z; sp_scheck_cnt : Z; sp_exp_order : Z; sp_instruction_cnt : Z; sp_cycles_since_retire : Z
}.

(** [rvfi_last_uop_orders], [rvfi_last_insn_orders], [rvfi_debug_mode_s],
    [mintr] and [rvfi_excp_ip]. *)
Record poke_st := Poke_st {
  pk_last_uop_orders : list Z; pk_last_insn_orders : list Z; pk_debug_mode : bool; pk_mintr : bool;
  pk_excp_ip : bool
}.

(** The registers that delay inputs. *)
Record delay_st := Delay_st {
  dy_dut_reset : bool; dy_dut_core_reset : bool; dy_suppress : bool; dy_cvm_done : bool;
  dy_instr_ucode : bool; dy_saw_intr : bool; dy_mip : Z; dy_seip : bool; dy_core_clocks : Z;
  dy_cause1 : Z; dy_cause2 : Z; dy_cause3 : Z; dy_virt1 : bool; dy_virt2 : bool; dy_virt3 : bool;
  dy_debug_mode : bool; dy_haltreq : bool; dy_nmi : nmi_t; dy_mtip : bool;
  dy_ovf : list (list (bool * Z));
  dy_devict : Z; dy_flush : Z; dy_writeback : list Z; dy_dfetch : list Z; dy_eot_found : bool
}.

Record cosim_st := Cosim_st {
  cs_gp : reg_bank; cs_fp : reg_bank; cs_vc : reg_bank;
  cs_serial : serial; cs_step : step_st; cs_poke : poke_st; cs_delay : delay_st
}.

(** ** The wires of a cycle *)

Record wires := Wires {
  w_mtrap : bool;              (* m_traps[0].valid *)
  w_trap_patch : bool;         (* rvfi_trap_patch *)
  w_chain : chain;             (* the chain after the last slot *)
  w_slots : list slot_out;     (* what the chain gives each slot *)
  w_enter_dbg : bool;
  w_debug_mode : bool;         (* rvfi_debug_mode *)
  w_poke_interrupt : bool;
  w_eot_max_instr : bool;
  w_eot_found : bool;
  w_send_regs : bool;
  w_poke_event_out : bool;
  w_send_rvfi : bool;
  w_send_steps : bool;
  w_valid_cnt : Z;
  w_intr_during_ucode : bool
}.

Definition psc_enabled (c : cosim_cfg) : bool := negb (cc_cosim_period c =? 0).
Definition rvfi_on (c : cosim_cfg) : bool := cc_RVFI_EN c && cc_rvfi c.

(** A write to the end-of-test address, with the data it carries. *)
Definition eot_port (c : cosim_cfg) (eot_addr : Z) (m : mcmi_t) : bool :=
  cc_to_host c && negb (eot_addr =? 0) && mx_valid m &&
  (mx_addr m =? eot_addr mod 2 ^ cc_MCM_AWIDTH c) && Z.testbit (mx_data m) 0 && (slice 63 56 (mx_data m) =? 0).
Definition eot_data (c : cosim_cfg) (eot_addr : Z) (m : mcmi_t) : Z :=
  if eot_port c eot_addr m then slice 63 0 (mx_data m) else 0.
Definition eot_ports (i : cosim_in) : list mcmi_t := ci_mwrite i ++ ci_minsert i ++ ci_mbypass i.

Definition saw_intr (i : cosim_in) (s : cosim_st) : bool :=
  dy_saw_intr (cs_delay s) ||
  from_option (λ r, rt_trap r && (get_trap_id (rt_cause r) =? INTR)) false (head (ci_rvfi i)).

Definition cosim_wires (c : cosim_cfg) (i : cosim_in) (s : cosim_st) : wires :=
  let rs := ci_rvfi i in
  let d := cs_delay s in
  let run := negb (ci_dut_core_reset i) in
  let rvfi_valid := existsb rt_valid rs in
  let valid_cnt := valid_count (length rs) rs in
  let cause := dy_cause3 d in
  let mtrap := rvfi_on c && negb (dy_suppress d) && negb (cause =? 0) in
  let trap_patch := rvfi_on c && run && negb (cause =? 0) && (58 <=? cause) && negb (Z.testbit cause 63) in
  let '(ch, slots) := chain_run (se_patch_mode (cs_serial s)) (chain_start (cs_serial s)) rs in
  let outs := slots.*2 in
  let poke_patch := trap_patch || se_trap_pmode (cs_serial s) || existsb so_set outs || existsb so_clr outs ||
    existsb (λ q, ch_patch_mode q.1) slots in
  let enter_dbg := mtrap && ((get_trap_id cause =? INTR) || ((get_trap_id cause =? EXCP) && (slice 7 0 cause =? 33))) in
  let debug_mode := pk_debug_mode (cs_poke s) || enter_dbg in
  let intr_pend := negb (dy_suppress d) && pe_valid (ci_interrupt_pend i) && cc_rvfi c in
  let imsic := negb (dy_suppress d) && ms_valid (ci_imsic_msi i) && cc_rvfi c in
  let poke_intr := pk_mintr (cs_poke s) || mtrap || intr_pend || imsic in
  let eot_max := existsb (λ n, (0 <? cc_max_instructions c) &&
      (u64 (sp_instruction_cnt (cs_step s) + valid_count (S n) rs) =? cc_max_instructions c)) (seq 0 (length rs)) in
  let eot_found := run && (existsb (eot_port c (ci_eot_addr i)) (eot_ports i) || eot_max) in
  let luops := existsb (λ r, rt_valid r && negb (rt_last_uop r)) rs in
  let send_regs :=
    ((rvfi_valid && (cc_cosim_period c <=? sp_scheck_cnt (cs_step s)) && negb luops && negb debug_mode &&
      negb (se_trap_pmode (cs_serial s))) || eot_found) && psc_enabled c && rvfi_on c && run in
  let last_uop_event := existsb (λ r, existsb (λ o, rt_valid r && (rt_order r =? o) && rt_last_uop r)
      (pk_last_uop_orders (cs_poke s))) rs in
  let last_insn_event := existsb (λ r, existsb (λ o, rt_valid r && (rt_order r =? o) && rt_last_insn r)
      (pk_last_insn_orders (cs_poke s))) rs in
  let debug_event := negb (cc_psc_off_high c =? 0) && (cc_psc_off_low c <=? ci_clocks i) &&
    (ci_clocks i <=? cc_psc_off_high c) in
  let poke_events := existsb (slot_poke c) rs ||
    (negb (length rs =? 0)%nat && (poke_intr || poke_patch)) in
  let poke_out := poke_events || send_regs || last_uop_event || last_insn_event || debug_mode || debug_event in
  let send_rvfi := poke_out || negb (psc_enabled c) in
  Wires mtrap trap_patch ch outs enter_dbg debug_mode poke_intr eot_max eot_found send_regs poke_out send_rvfi
    (send_rvfi && negb (sp_steps (cs_step s) =? 0)) valid_cnt
    (saw_intr i s || (se_ucode (cs_serial s) || ch_ucode ch)).

(** ** The messages of a cycle *)

Inductive cosim_msg :=
| CRvfi (e : rvfi_event)
| CMcmi (m : mcmi_msg)
| CEoti (m : eot_msg)
| COfflineEoti (m : eot_msg).

Definition when {A} (b : bool) (l : list A) : list A := if b then l else [].

Definition rvfi_msg_of (c : cosim_cfg) (i : cosim_in) (s : cosim_st) (r : rvfi_t) (o : slot_out) : rvfi_msg :=
  Rvfi_msg (cc_loc c) (ci_clocks i) (dy_core_clocks (cs_delay s)) (cc_NUM c) (so_first_uop o) (rt_last_uop r)
    (so_ucode o) (so_priv o) (so_priv_change o) (so_set o) (so_clr o) (rt_last_insn r) (rt_comp r) (rt_order r)
    (rt_branch_tag r) (rt_insn r) (rt_uop r) (rt_trap r) (rt_mode r) (rt_flags_valid r) (rt_flags r) (rt_rd_addr r)
    (rt_rd_wdata r) (rt_frd_valid r) (rt_frd_addr r) (rt_frd_wdata r) (rt_vrd_valid r) (rt_vrd_addr r)
    (rt_vrd_wdata r) (negb (rt_csr_wmask r =? 0)) (rt_csr_addr r) (rt_csr_wdata r) (rt_csr_wmask r)
    (rt_pc_rdata r) (rt_pc_error r) (rt_mem_addr r) (rt_mem_paddr r) (rt_mem_rmask r) (rt_mem_rdata r)
    (rt_mem_wmask r) (rt_mem_wdata r) (rt_mem_attr r) (rt_mem_page4kX r) (rt_mem_page4kX_attr r) (rt_mem_error r)
    (rt_opcode_modified r) (rt_init_jalr_seen r).

(** [m_rvfi]: a message per slot that retires or traps. *)
Definition slot_msg (c : cosim_cfg) (i : cosim_in) (s : cosim_st) (ro : rvfi_t * slot_out) : option cosim_msg :=
  if rt_valid ro.1 || rt_trap ro.1 then Some (CRvfi (ERvfi (rvfi_msg_of c i s ro.1 ro.2))) else None.
Definition rvfi_msgs (c : cosim_cfg) (i : cosim_in) (s : cosim_st) (w : wires) : list cosim_msg :=
  when (rvfi_on c && negb (ci_dut_core_reset i) && w_send_rvfi w)
    (omap (slot_msg c i s)
       (zip (ci_rvfi i) (w_slots w))).

(** [m_steps] and the register messages. *)
Definition step_msgs (c : cosim_cfg) (i : cosim_in) (s : cosim_st) (w : wires) : list cosim_msg :=
  let st := cs_step s in
  let o0 := from_option rt_order 0 (head (ci_rvfi i)) in
  when (rvfi_on c && negb (ci_dut_core_reset i) && w_send_steps w && psc_enabled c)
    [CRvfi (ESteps (cc_NUM c) (Z.of_nat (length (ci_rvfi i))) (ci_clocks i) (sp_steps st)
       (if negb (sp_exp_order st =? o0) && (sp_exp_order st <? o0) then u64 (o0 - sp_exp_order st - 1) else 0)
       (if w_send_rvfi w then 0 else w_valid_cnt w))].
Definition reg_msgs (c : cosim_cfg) (i : cosim_in) (s : cosim_st) (w : wires) : list cosim_msg :=
  let regs f b port := CRvfi (ERegs f (cc_loc c) (cc_NUM c) (ci_clocks i) (bank_regs 5 (port <$> ci_rvfi i) b)) in
  when (w_send_regs w) [regs GP (cs_gp s) gp_port] ++
  when (w_send_regs w && bank_changed (ci_reset i) (w_send_regs w) (fp_port <$> ci_rvfi i) (cs_fp s))
    [regs FP (cs_fp s) fp_port] ++
  when (w_send_regs w && bank_changed (ci_reset i) (w_send_regs w) (vc_port <$> ci_rvfi i) (cs_vc s))
    [regs VC (cs_vc s) vc_port].

(** [m_mtime]: a CSR access that depends on the time, then the mip bits. *)
Definition mtime_csr (r : rvfi_t) : bool :=
  rt_valid r &&
  ((negb (rt_csr_wmask r =? 0) && bool_decide (rt_csr_addr r ∈ [0x14D; 0x24D; 0x605; 0x30A; 0x301])) ||
   (negb (rt_csr_rmask r =? 0) &&
    bool_decide (rt_csr_addr r ∈ [0xC01; 0x344; 0xFB0; 0x144; 0xDB0; 0x244; 0xEB0; 0x644; 0x645]))).
Definition mip_set (i : cosim_in) (s : cosim_st) : Z :=
  Z.ldiff (pe_mip (ci_interrupt_pend i)) (dy_mip (cs_delay s)).
Definition mip_clr (i : cosim_in) (s : cosim_st) : Z :=
  Z.ldiff (dy_mip (cs_delay s)) (pe_mip (ci_interrupt_pend i)).
Definition mtime_msgs (c : cosim_cfg) (i : cosim_in) (s : cosim_st) (w : wires) : list cosim_msg :=
  let d := cs_delay s in
  let on := negb (dy_suppress d) && cc_rvfi c in
  let msg mip time stce := CRvfi (EMtime (Mtime_msg (ci_clocks i) mip (mm_Data (ci_mtime i)) time
    (w_intr_during_ucode w) 8 stce)) in
  let xtip := negb (slice 7 5 (mip_set i s) =? 0) || negb (slice 7 5 (mip_clr i s) =? 0) in
  let intr := negb (dy_cause3 d =? 0) && (get_trap_id (dy_cause3 d) =? INTR) in
  omap (λ r, if on && negb (cc_poke_mip_timer c) && mtime_csr r then
      Some (msg ((Z.b2z (rt_csr_addr r =? 0x14D) ≪ 5) |||
                 (Z.b2z ((rt_csr_addr r =? 0x24D) || (rt_csr_addr r =? 0x605)) ≪ 6)) (ci_timeCsr i)
        (rt_valid r && ((rt_csr_addr r =? 0x30A) && Z.testbit (rt_csr_wmask r) 63 && negb (Z.testbit (rt_csr_wdata r) 63))))
    else None) (ci_rvfi i) ++
  when (on && (mm_WriteValid (ci_mtime i) || xtip || intr || (ci_clocks i mod 1000 =? 0)))
    [msg (pe_mip (ci_interrupt_pend i) &&& 0xe0)
       (if mm_WriteValid (ci_mtime i) then mm_Data (ci_mtime i) else ci_timeCsr i) false].

Definition mtip_msgs (c : cosim_cfg) (i : cosim_in) (s : cosim_st) (w : wires) : list cosim_msg :=
  when (negb (dy_suppress (cs_delay s)) && cc_rvfi c && xorb (ci_MTIP i) (dy_mtip (cs_delay s)))
    [CRvfi (EMtip (ci_clocks i) (ci_MTIP i) (w_intr_during_ucode w))].

(** [m_csri] and [m_mhpm_counter_ovf] *)
Definition COUNTER_OVF_DELAY : nat := 10.
Definition is_mhpmevent (e : csri_entry) : bool :=
  ce_valid e && (0x323 <=? ce_addr e) && (ce_addr e <=? 0x33F).
Definition csri_msgs (c : cosim_cfg) (i : cosim_in) (s : cosim_st) : list cosim_msg :=
  let on := cc_rvfi c && negb (ci_dut_core_reset i) in
  when on (omap (λ e, if ce_valid e then
      Some (CRvfi (ECsri (cc_NUM c) (ci_clocks i) (ce_addr e) (ce_mask e) (ce_data e))) else None) (ci_csri i)) ++
  when on (omap (λ sr, match last sr with
      | Some (true, addr) => Some (CRvfi (ECounterOvf (cc_NUM c) (ci_clocks i) addr))
      | _ => None
      end) (dy_ovf (cs_delay s))).

(** The memory-model interfaces. *)
Definition mcmi_on (c : cosim_cfg) (i : cosim_in) : bool :=
  cc_MCMI_EN c && cc_mcm c && cc_rvfi c && negb (ci_dut_core_reset i).
Definition mcmi_ports (on : bool) (f : mcmi_t → mcmi_msg) (l : list mcmi_t) : list cosim_msg :=
  when on (omap (λ m, if mx_valid m then Some (CMcmi (f m)) else None) l).
Definition read_msgs (c : cosim_cfg) (i : cosim_in) : list cosim_msg :=
  mcmi_ports (mcmi_on c i) (λ m, MsgRead (Mcmi_read (ci_clocks i) (cc_NUM c) (mx_opcode m) (mx_order m) (mx_addr m)
    (mx_mask m) (mx_amo m) (mx_amo_op m) (mx_attr m) (slice 63 0 (mx_data m)) (mx_v_ext m) (slice 255 0 (mx_data m))
    (mx_field m) (mx_elem_idx m) (mx_splat m) (mx_elem_size m))) (ci_mread i).
Definition store_msgs (c : cosim_cfg) (i : cosim_in) : list cosim_msg :=
  mcmi_ports (mcmi_on c i) (λ m, MsgInsert (Mcmi_insert (ci_clocks i) (cc_NUM c) (mx_order m) (mx_addr m) (mx_mask m)
    (slice 63 0 (mx_data m)) (mx_v_ext m) (slice 255 0 (mx_data m)) (mx_elem_idx m))) (ci_minsert i) ++
  mcmi_ports (mcmi_on c i) (λ m, MsgBypass (Mcmi_bypass (ci_clocks i) (cc_NUM c) (mx_order m) (mx_addr m) (mx_mask m)
    (slice 63 0 (mx_data m)) (mx_amo m) (mx_amo_op m) (mx_amo_cas_fail m) (mx_attr m) (mx_v_ext m)
    (slice 255 0 (mx_data m)) (mx_elem_idx m))) (ci_mbypass i) ++
  mcmi_ports (mcmi_on c i) (λ m, MsgWrite (ci_clocks i) (cc_NUM c) (mx_addr m) (mx_mask m) (mx_data m) (mx_error m))
    (ci_mwrite i).
Definition fetch_msgs (c : cosim_cfg) (i : cosim_in) : list cosim_msg :=
  mcmi_ports (mcmi_on c i) (λ m, MsgIfetchReq (mx_order m) (mx_addr m) (mx_attr m)) (ci_mifetch_req i) ++
  mcmi_ports (mcmi_on c i) (λ m, MsgIfetchResp (ci_clocks i) (cc_NUM c) (mx_order m)) (ci_mifetch_resp i) ++
  mcmi_ports (mcmi_on c i) (λ m, MsgIevict (ci_clocks i) (cc_NUM c) (mx_addr m)) (ci_mievict i) ++
  mcmi_ports (mcmi_on c i) (λ m, MsgDecode (ci_clocks i) (cc_NUM c) (mx_order m) (mx_addr m) (slice 7 0 (mx_mask m)))
    (ci_mdecode i).
(** A cache line message is sent when the address is not that of the cycle before. *)
Definition line_msgs (c : cosim_cfg) (i : cosim_in) (s : cosim_st) : list cosim_msg :=
  let on := mcmi_on c i && cc_cache_model c in
  let line (f : Z → mcmi_msg) (pd : cl_port * Z) :=
    when (on && cp_valid pd.1 && negb (cp_addr pd.1 =? pd.2)) [CMcmi (f (cp_addr pd.1))] in
  let d := cs_delay s in
  line (λ a, MsgDevict (ci_clocks i) (cc_NUM c) ((a ≫ 6) ≪ 6)) (ci_devict i, dy_devict d) ++
  line (λ a, MsgFlush (ci_clocks i) (cc_NUM c) ((a ≫ 6) ≪ 6)) (ci_flush i, dy_flush d) ++
  concat (line (λ a, MsgWriteback (ci_clocks i) a) <$> zip (ci_writeback i) (dy_writeback d)) ++
  concat (line (λ a, MsgDfetch (ci_clocks i) a) <$> zip (ci_dfetch i) (dy_dfetch d)).

(** [m_eoti_normal] and [offline_eoti] *)
Definition eoti_msgs (c : cosim_cfg) (i : cosim_in) (s : cosim_st) (w : wires) : list cosim_msg :=
  let msg := EmEoti (cc_NUM c) (u64 (sp_instruction_cnt (cs_step s) + w_valid_cnt w))
    (foldl (λ a m, a ||| eot_data c (ci_eot_addr i) m) 0 (eot_ports i)) (w_eot_max_instr w) in
  let valid := cc_MCMI_EN c && negb (ci_dut_reset i) && w_eot_found w in
  when (valid && negb (cc_offline_dpi_test c)) [CEoti msg] ++
  when (valid && (cc_offline_dpi c || cc_offline_dpi_test c)) [COfflineEoti msg].

(** Traps and interrupts. *)
Definition trap_msgs (c : cosim_cfg) (i : cosim_in) (s : cosim_st) (w : wires) : list cosim_msg :=
  let r0 f := from_option f 0 (head (ci_rvfi i)) in
  when (w_mtrap w)
    [CRvfi (ETrap (cc_loc c) (get_trap_id (dy_cause3 (cs_delay s))) (dy_cause3 (cs_delay s)) (r0 rt_order)
       (r0 rt_pc_rdata) (dy_virt3 (cs_delay s)))].
Definition intr_msgs (c : cosim_cfg) (i : cosim_in) (s : cosim_st) (w : wires) : list cosim_msg :=
  let p := ci_interrupt_pend i in
  when (negb (dy_suppress (cs_delay s)) && pe_valid p && cc_rvfi c)
    [CRvfi (EIntrPend (Intr_pend_msg (cc_loc c) (ci_clocks i) (dy_core_clocks (cs_delay s)) (pe_hw p) (pe_mip p)
       (mip_set i s) (mip_clr i s) (pe_seip p) (pe_buserr_bit p) (w_intr_during_ucode w)))].
Definition nmi_msgs (c : cosim_cfg) (i : cosim_in) (s : cosim_st) : list cosim_msg :=
  let d := cs_delay s in
  let n := ci_nmi_pend i in
  let rise a b := a && negb b in
  let nmi_rise := rise (nm_nmi n) (nm_nmi (dy_nmi d)) in
  let nmi_fall := rise (nm_nmi (dy_nmi d)) (nm_nmi n) in
  let clai_rise := rise (nm_clai n) (nm_clai (dy_nmi d)) in
  let clai_fall := rise (nm_clai (dy_nmi d)) (nm_clai n) in
  let released := dy_dut_core_reset d && negb (ci_dut_core_reset i) in
  when (negb (dy_suppress d) && (nmi_rise || clai_rise || nmi_fall || clai_fall ||
          (dy_dut_core_reset d && (nm_clai n || nm_nmi n))) && cc_rvfi c)
    [CRvfi (ECoreNmi (cc_loc c) (ci_clocks i)
       (negb (dy_suppress d) && (nmi_rise || clai_rise || (released && nm_nmi n) || (released && nm_clai n)))
       (if nmi_rise || nmi_fall then 2 else if released && nm_nmi n then 2
        else if clai_rise || clai_fall then 3 else if released && nm_clai n then 3 else 0))].
Definition imsic_msgs (c : cosim_cfg) (i : cosim_in) (s : cosim_st) (w : wires) : list cosim_msg :=
  when (negb (dy_suppress (cs_delay s)) && ms_valid (ci_imsic_msi i) && cc_rvfi c)
    [CRvfi (EImsicMsi (cc_loc c) (ci_clocks i) (ms_addr (ci_imsic_msi i)) (ms_data (ci_imsic_msi i))
       (w_intr_during_ucode w))].
Definition debug_msgs (c : cosim_cfg) (i : cosim_in) (s : cosim_st) : list cosim_msg :=
  when (negb (ci_dut_core_reset i) && (xorb (ci_debug_mode i) (dy_debug_mode (cs_delay s)) ||
          xorb (ci_haltreq i) (dy_haltreq (cs_delay s))) && cc_rvfi c)
    [CRvfi (EDebug (ci_haltreq i))].
Definition reset_msgs (c : cosim_cfg) (i : cosim_in) (s : cosim_st) : list cosim_msg :=
  when (rvfi_on c && dy_dut_reset (cs_delay s) && negb (ci_dut_reset i)) [CRvfi (EReset (cc_loc c))] ++
  when (rvfi_on c && ci_disable_checks i) [CRvfi EDisableChecks].
Definition drain_msgs (c : cosim_cfg) (i : cosim_in) (s : cosim_st) : list cosim_msg :=
  when (rvfi_on c && ci_cvm_done i && negb (dy_cvm_done (cs_delay s))) [CRvfi (EDrain (ci_clocks i))].

(** All messages of a cycle, in the order of the transactions file. *)
Definition cosim_msgs (c : cosim_cfg) (i : cosim_in) (s : cosim_st) : list cosim_msg :=
  let w := cosim_wires c i s in
  reset_msgs c i s ++ mtime_msgs c i s w ++ mtip_msgs c i s w ++ csri_msgs c i s ++
  step_msgs c i s w ++ rvfi_msgs c i s w ++ reg_msgs c i s w ++
  read_msgs c i ++ eoti_msgs c i s w ++ store_msgs c i ++ fetch_msgs c i ++ line_msgs c i s ++
  trap_msgs c i s w ++ intr_msgs c i s w ++ nmi_msgs c i s ++ imsic_msgs c i s w ++ debug_msgs c i s ++
  drain_msgs c i s.

(** ** The clock edge *)

Definition steps_clk (c : cosim_cfg) (i : cosim_in) (w : wires) (s : step_st) : step_st :=
  if ci_dut_core_reset i then Step_st 0 0 0 0 0
  else
    let rvfi_valid := existsb rt_valid (ci_rvfi i) in
    Step_st
      (if rvfi_valid && negb (w_send_steps w) && negb (w_send_rvfi w) then u64 (sp_steps s + w_valid_cnt w)
       else if w_send_steps w then 0 else sp_steps s)
      (if w_send_regs w then 0 else if rvfi_valid then u64 (sp_scheck_cnt s + w_valid_cnt w) else sp_scheck_cnt s)
      (if rvfi_valid then u64 (max_order (ci_rvfi i) + 1) else sp_exp_order s)
      (if rvfi_valid then u64 (sp_instruction_cnt s + w_valid_cnt w) else sp_instruction_cnt s)
      (if rvfi_valid then 0 else u32 (sp_cycles_since_retire s + 1)).

(** [rvfi_last_uop_orders] or [rvfi_last_insn_orders]: the orders poked in the middle. *)
Definition last_orders_clk (reset poke_event_out : bool) (last : rvfi_t → bool) (rs : list rvfi_t) (os : list Z) : list Z :=
  zip_with (λ r o, if reset || (last r && rt_valid r) then 0
                   else if rt_valid r && negb (last r) && poke_event_out then rt_order r else o) rs os.

Definition poke_clk (c : cosim_cfg) (i : cosim_in) (w : wires) (d : delay_st) (s : poke_st) : poke_st :=
  let rs := ci_rvfi i in
  let orders last := last_orders_clk (ci_reset i) (w_poke_event_out w) last rs in
  let luops := existsb (λ r, rt_valid r && negb (rt_last_uop r)) rs in
  let live := negb (dy_suppress d) && cc_rvfi c in
  Poke_st (orders rt_last_uop (pk_last_uop_orders s)) (orders rt_last_insn (pk_last_insn_orders s))
    (if ci_reset i then false else if w_enter_dbg w then true
     else if existsb (λ r, rt_valid r && (rt_pc_rdata r =? debug_exit_pc c)) rs then false else pk_debug_mode s)
    (if ci_reset i then false
     else if w_mtrap w || (live && pe_valid (ci_interrupt_pend i)) || (live && ms_valid (ci_imsic_msi i)) then true
     else if existsb rt_valid rs && ci_poke_event_in i then false else pk_mintr s)
    (if ci_reset i then false
     else if existsb (λ r, negb (Z.testbit (rt_cause r) 63) && negb (rt_cause r =? 0)) rs then true
     else if negb luops && existsb rt_valid rs then false else pk_excp_ip s).

(** The shift register of a counter overflow. *)
Definition ovf_clk (clear : bool) (e : csri_entry) (sr : list (bool * Z)) : list (bool * Z) :=
  if clear then (λ va, (false, va.2)) <$> sr
  else (is_mhpmevent e, ce_addr e) :: take (COUNTER_OVF_DELAY - 1) sr.

Definition suppress_clk (reset dut_core_reset dut_reset s : bool) : bool :=
  if reset then true
  else if negb dut_core_reset && negb dut_reset then false
  else if dut_core_reset && dut_reset then true else s.

Definition delay_clk (i : cosim_in) (w : wires) (d : delay_st) : delay_st :=
  let r0 {A} (f : rvfi_t → A) (x : A) := from_option f x (head (ci_rvfi i)) in
  let ucode0 := from_option so_ucode false (head (w_slots w)) in
  let line (p : cl_port) := if cp_valid p then cp_addr p else 0 in
  Delay_st (ci_dut_reset i) (ci_dut_core_reset i)
    (suppress_clk (ci_reset i) (ci_dut_core_reset i) (ci_dut_reset i) (dy_suppress d))
    (ci_cvm_done i) ucode0
    (if ci_reset i then false
     else if r0 (λ r, rt_trap r && (get_trap_id (rt_cause r) =? INTR)) false then true
     else if dy_instr_ucode d && negb ucode0 && dy_saw_intr d then false else dy_saw_intr d)
    (pe_mip (ci_interrupt_pend i)) (pe_seip (ci_interrupt_pend i))
    (if ci_dut_core_reset i then 0 else u64 (dy_core_clocks d + 1))
    (r0 rt_cause 0) (dy_cause1 d) (dy_cause2 d) (r0 rt_virt_mode false) (dy_virt1 d) (dy_virt2 d)
    (ci_debug_mode i) (ci_haltreq i)
    (if dy_suppress d then Nmi_t false false else ci_nmi_pend i) (ci_MTIP i)
    (zip_with (ovf_clk (ci_reset i || ci_dut_core_reset i)) (ci_csri i) (dy_ovf d))
    (line (ci_devict i)) (line (ci_flush i)) (line <$> ci_writeback i) (line <$> ci_dfetch i)
    (if ci_reset i then false else w_eot_found w || dy_eot_found d).

Definition cosim_clk (c : cosim_cfg) (i : cosim_in) (s : cosim_st) : cosim_st :=
  let w := cosim_wires c i s in
  Cosim_st
    (bank_clk 5 (ci_reset i) (w_send_regs w) (gp_port <$> ci_rvfi i) (cs_gp s))
    (bank_clk 5 (ci_reset i) (w_send_regs w) (fp_port <$> ci_rvfi i) (cs_fp s))
    (bank_clk 5 (ci_reset i) (w_send_regs w) (vc_port <$> ci_rvfi i) (cs_vc s))
    (serial_clk (ci_dut_core_reset i) (w_trap_patch w) (w_chain w) (w_slots w) (cs_serial s))
    (steps_clk c i w (cs_step s)) (poke_clk c i w (cs_delay s) (cs_poke s)) (delay_clk i w (cs_delay s)).

(** A run: the messages cycle by cycle and the last state. *)
Fixpoint cosim_run (c : cosim_cfg) (is_ : list cosim_in) (s : cosim_st) : list (list cosim_msg) * cosim_st :=
  match is_ with
  | [] => ([], s)
  | i :: is' => let '(ms, s') := cosim_run c is' (cosim_clk c i s) in (cosim_msgs c i s :: ms, s')
  end.

(** ** The time-outs (test-bench clock) *)

Record timeout_cfg := Timeout_cfg {
  to_NUM : Z; to_nharts : Z; to_scale_en : bool; to_RVFI_EN : bool; to_dram_base : Z;
  to_max_cycle : Z; to_max_stall_cycle : Z       (* the plusargs *)
}.
Record timeout_in := Timeout_in {
  ti_reset : bool; ti_clocks : Z; ti_cycles_since_retire : Z; ti_rvfi0 : rvfi_t;
  ti_get_max_cycle : Z; ti_get_max_stall_cycle : Z   (* what the DPI calls return *)
}.
Record timeouts := Timeouts {
  tt_max_cycle : Z; tt_max_stall_cycle : Z;
  tt_cycle_detect : bool; tt_stall_detect : bool; tt_cycle_valid : bool; tt_cycle_sent : bool;
  tt_stall_valid : bool; tt_updated_cycle : Z; tt_updated_stall : Z;
  tt_terminate : bool; tt_terminate_sent : bool; tt_boot_wfi : bool; tt_boot_done : bool
}.

(** [longint'(cycles_since_retire)], compared as unsigned. *)
Definition since_retire (x : Z) : Z := if Z.testbit x 31 then u64 (x - 2 ^ 32) else x.

(** The detection. *)
Definition detect_clk (c : timeout_cfg) (i : timeout_in) (s : timeouts) : timeouts :=
  let live := (to_NUM c <? to_nharts c) && negb (tt_terminate_sent s) in
  let upd cd sd cv cs sv uc us :=
    Timeouts (tt_max_cycle s) (tt_max_stall_cycle s) cd sd cv cs sv uc us (tt_terminate s) (tt_terminate_sent s)
      (tt_boot_wfi s) (tt_boot_done s) in
  if ti_reset i then upd false false false false (tt_stall_valid s) (tt_updated_cycle s) (tt_updated_stall s)
  else if negb (tt_cycle_sent s) && (0 <? tt_max_cycle s) && (tt_max_cycle s <? ti_clocks i) && live then
    if to_scale_en c then upd true (tt_stall_detect s) true true (tt_stall_valid s) (ti_get_max_cycle i) (tt_updated_stall s)
    else upd true (tt_stall_detect s) (tt_cycle_valid s) (tt_cycle_sent s) (tt_stall_valid s) (tt_updated_cycle s) (tt_updated_stall s)
  else if (0 <? tt_max_stall_cycle s) && (tt_max_stall_cycle s <? since_retire (ti_cycles_since_retire i)) && live then
    if to_scale_en c then upd (tt_cycle_detect s) true (tt_cycle_valid s) (tt_cycle_sent s) true (tt_updated_cycle s) (ti_get_max_stall_cycle i)
    else upd (tt_cycle_detect s) true (tt_cycle_valid s) (tt_cycle_sent s) (tt_stall_valid s) (tt_updated_cycle s) (tt_updated_stall s)
  else upd false false false false false (tt_updated_cycle s) (tt_updated_stall s).

(** The reaction: new limits, or the end of the test. *)
Definition react_clk (c : timeout_cfg) (i : timeout_in) (s n : timeouts) : timeouts :=
  let upd mc ms term sent wfi done_ :=
    Timeouts mc ms (tt_cycle_detect n) (tt_stall_detect n) (tt_cycle_valid n) (tt_cycle_sent n) (tt_stall_valid n)
      (tt_updated_cycle n) (tt_updated_stall n) term sent wfi done_ in
  if ti_reset i then upd (to_max_cycle c) (to_max_stall_cycle c) false false false (negb (to_RVFI_EN c))
  else
    let r := ti_rvfi0 i in
    let cycle_end :=
      if tt_cycle_valid s then negb (tt_max_cycle s <? tt_updated_cycle s)
      else negb (to_scale_en c) && tt_cycle_detect s && negb (tt_terminate_sent s) in
    let stall_end :=
      if tt_stall_valid s then
        negb (tt_max_stall_cycle s <? tt_updated_stall s) &&
        (tt_max_stall_cycle s <? since_retire (ti_cycles_since_retire i))
      else negb (to_scale_en c) && tt_stall_detect s && negb (tt_terminate_sent s) in
    let disabled := rt_valid r && (to_nharts c <? to_NUM c) && negb (tt_terminate_sent s) in
    let ends := cycle_end || stall_end || disabled in
    upd
      (if tt_cycle_valid s && (tt_max_cycle s <? tt_updated_cycle s) then tt_updated_cycle s else tt_max_cycle s)
      (if tt_stall_valid s && (tt_max_stall_cycle s <? tt_updated_stall s) then tt_updated_stall s else tt_max_stall_cycle s)
      (ends || tt_terminate s) (ends || tt_terminate_sent s)
      ((negb (to_NUM c =? 0) && rt_valid r && (slice 6 0 (rt_insn r) =? 0x73) && (rt_pc_rdata r <? 0x20000)) || tt_boot_wfi s)
      ((rt_valid r && (rt_pc_rdata r =? to_dram_base c)) || tt_boot_done s).

Definition timeout_clk (c : timeout_cfg) (i : timeout_in) (s : timeouts) : timeouts :=
  react_clk c i s (detect_clk c i s).

(** ** Lemmas: the chain *)

Lemma chain_run_app P p rs rs' :
  chain_run P p (rs ++ rs') =
  ((chain_run P (chain_run P p rs).1 rs').1, (chain_run P p rs).2 ++ (chain_run P (chain_run P p rs).1 rs').2).
Proof.
  revert p; induction rs as [|r rs IH]; intros p; cbn [app chain_run].
  - cbn. by destruct (chain_run P p rs').
  - destruct (chain_slot P p r) as [q o]. rewrite IH. destruct (chain_run P q rs) as [e os]. cbn. by destruct (chain_run P e rs').
Qed.

Lemma chain_run_length P p rs : length (chain_run P p rs).2 = length rs.
Proof.
  revert p; induction rs as [|r rs IH]; intros p; cbn [chain_run]; [done|].
  destruct (chain_slot P p r) as [q o]. specialize (IH q). destruct (chain_run P q rs). cbn in *. by rewrite IH.
Qed.

(** A slot that does not retire passes the chain on. *)
Lemma chain_slot_idle P p r :
  rt_valid r = false →
  let q := (chain_slot P p r).1 in
  ch_ucode q = ch_ucode p ∧ ch_last_uop q = ch_last_uop p ∧ ch_priv_change q = ch_priv_change p ∧
  ch_priv q = ch_priv p.
Proof. intros Hv. unfold chain_slot. rewrite Hv. done. Qed.

(** ** The derivation of privilege in hardware and in software *)

(** The C++ state that derives the same values in software agrees with the chain. *)
Record sw_follows (s : rvfi) (p : chain) : Prop := {
  sf_ucode : rs_ucode s = ch_ucode p;
  sf_last : ch_last_uop p = negb (ch_ucode p);
  sf_change : rs_ucode_priv_change s = ch_priv_change p;
  sf_idle : ch_ucode p = false → ch_priv_change p = false;
  sf_priv : ch_ucode p = true → rs_priv s = ch_priv p
}.

Ltac sw_done :=
  repeat (case_match; cbn); simplify_eq; (split_and!; [split; cbn; intros; congruence|cbn; congruence..]).

Section sw.
Context (rcfg : rvfi_cfg).

(** One micro-operation: the software gets what the message carries. *)
Lemma sw_slot P p r s i (m : rvfi_msg) :
  sw_follows s p → rt_valid r = true →
  v_last_uop m = rt_last_uop r → v_mode m = rt_mode r →
  let '(q, o) := chain_slot P p r in
  let '(s', i', _, _) := sw_priv rcfg s m i in
  sw_follows s' q ∧ i_first_uop i' = so_first_uop o ∧ i_ucode i' = so_ucode o ∧ i_priv i' = so_priv o.
Proof.
  intros [Hu Hl Hc Hi Hp] Hv Hml Hmm. unfold chain_slot, sw_priv, opcode_step. rewrite Hv, Hml, Hmm.
  cbv zeta. cbn [fst snd].
  match goal with |- context [if ?b then (if ?c then ?x else ?y, ?l) else ?z] =>
    set (on := if b then (if c then x else y, l) else z) end.
  assert (rs_priv on.1 = rs_priv s ∧ rs_ucode on.1 = negb (rt_last_uop r) ∧
          rs_ucode_priv_change on.1 = rs_ucode_priv_change s) as (H1 & H2 & H3).
  { unfold on. by repeat case_match. }
  clearbody on. destruct on as [s0 on]. cbn [fst snd] in *. cbn.
  destruct (rt_last_uop r) eqn:El, (ch_ucode p) eqn:Eu; rewrite Hu, ?Hl, ?H1, ?H2; cbn; cbn in Hl, H2.
  - rewrite (Hp eq_refl). specialize (Hp eq_refl).
    destruct (Z.eqb_spec (rt_mode r) (ch_priv p)) as [Em|Em]; cbn; rewrite ?H3, ?Hc, ?H1, ?Hp.
    + destruct (ch_priv_change p) eqn:Ec; cbn; rewrite ?H1, ?Hp; sw_done.
    + sw_done.
  - specialize (Hi eq_refl). rewrite H3, Hc, Hi. cbn. sw_done.
  - rewrite (Hp eq_refl). specialize (Hp eq_refl).
    destruct (Z.eqb_spec (rt_mode r) (ch_priv p)) as [Em|Em]; cbn; sw_done.
  - destruct (Z.eqb_spec (rt_mode r) (rs_priv s)) as [Em|Em]; cbn; sw_done.
Qed.
End sw.

(** ** Lemmas: kinds of messages *)

(** A message that is neither a retired micro-operation nor steps. *)
Definition plain (m : cosim_msg) : bool :=
  match m with CRvfi (ERvfi _) | CRvfi (ESteps _ _ _ _ _ _) => false | _ => true end.

Definition all (P : cosim_msg → bool) (ms : list cosim_msg) : Prop := Forall (λ m, P m = true) ms.

Section all.
Context (P : cosim_msg → bool).
Lemma all_when b l : all P l → all P (when b l).
Proof. by destruct b; [|constructor]. Qed.
Lemma all_omap {A} (f : A → option cosim_msg) l : (∀ x m, f x = Some m → P m = true) → all P (omap f l).
Proof.
  intros Hf. induction l as [|x l IH]; cbn; [constructor|].
  destruct (f x) eqn:E; [|done]. constructor; [by eapply Hf|done].
Qed.
Lemma all_concat {A} (f : A → list cosim_msg) l : (∀ x, all P (f x)) → all P (concat (f <$> l)).
Proof. intros Hf. induction l as [|x l IH]; cbn; [constructor|]. apply Forall_app. split; [apply Hf|done]. Qed.
Lemma all_ports on f l : (∀ m, P (CMcmi (f m)) = true) → all P (mcmi_ports on f l).
Proof. intros Hf. apply all_when, all_omap. intros x m. destruct (mx_valid x); [|done]. by intros [= <-]. Qed.
End all.

(** Prove [all P] of a message group from its shape. *)
Ltac msgs :=
  repeat first
    [ apply Forall_app; split
    | apply all_when
    | apply all_ports; done
    | apply all_concat; intros ?
    | apply all_omap; intros ? ?; repeat case_match; intros; by simplify_eq
    | by repeat constructor ].

(** The messages before the steps and those after the registers. *)
Lemma cosim_msgs_split c i s :
  ∃ A B, cosim_msgs c i s = A ++ step_msgs c i s (cosim_wires c i s) ++ rvfi_msgs c i s (cosim_wires c i s) ++ B ∧
    all plain A ∧ all plain B.
Proof.
  set (w := cosim_wires c i s).
  exists (reset_msgs c i s ++ mtime_msgs c i s w ++ mtip_msgs c i s w ++ csri_msgs c i s).
  eexists. split; [unfold cosim_msgs; fold w; by rewrite <- !app_assoc|].
  split; unfold reset_msgs, mtime_msgs, mtip_msgs, csri_msgs, reg_msgs, read_msgs, eoti_msgs, store_msgs,
    fetch_msgs, line_msgs, trap_msgs, intr_msgs, nmi_msgs, imsic_msgs, debug_msgs, drain_msgs; msgs.
Qed.

(** ** Every retired instruction is stepped or sent, once and in order *)

(** The slots of a cycle that end an instruction. *)
Definition retired_slots (i : cosim_in) : list rvfi_t :=
  filter (λ r, rt_valid r && rt_last_uop r = true) (ci_rvfi i).

(** The position in the instruction stream [R] of a simulator that makes the
    steps it is told to and one instruction per message of a last
    micro-operation; [None] if a message is not of the instruction it is at. *)
Fixpoint walk (R : list rvfi_t) (k : Z) (ms : list cosim_msg) : option Z :=
  match ms with
  | [] => Some k
  | CRvfi (ESteps _ _ _ steps _ final_steps) :: ms' => walk R (k + steps + final_steps) ms'
  | CRvfi (ERvfi m) :: ms' =>
      if v_last_uop m && negb (v_trap m) then
        match R !! Z.to_nat k with
        | Some r =>
            if (0 <=? k) && (v_order m =? rt_order r) && (v_insn m =? rt_insn r) && (v_pc_rdata m =? rt_pc_rdata r)
            then walk R (k + 1) ms' else None
        | None => None
        end
      else walk R k ms'
  | _ :: ms' => walk R k ms'
  end.

Lemma walk_app R k a b : walk R k (a ++ b) = walk R k a ≫= λ k', walk R k' b.
Proof.
  revert k; induction a as [|m a IH]; intros k; [done|].
  cbn [app walk]. repeat case_match; cbn [mbind option_bind]; auto.
Qed.

Lemma walk_plain R k ms : all plain ms → walk R k ms = Some k.
Proof. intros H. induction H as [|m ms Hm _ IH]; [done|]. cbn. repeat case_match; done. Qed.

Lemma walk_slots c i s R0 rs (outs : list slot_out) R2 :
  length outs = length rs → Forall (λ r, rt_valid r && rt_trap r = false) rs →
  walk (R0 ++ filter (λ r, rt_valid r && rt_last_uop r = true) rs ++ R2) (Z.of_nat (length R0))
    (omap (slot_msg c i s)
       (zip rs outs)) =
  Some (Z.of_nat (length (R0 ++ filter (λ r, rt_valid r && rt_last_uop r = true) rs))).
Proof.
  intros Hl Hf. revert R0 outs Hl; induction Hf as [|r rs Hr _ IH]; intros R0 outs Hl.
  - cbn. by rewrite app_nil_r.
  - destruct outs as [|o outs]; [done|]. injection Hl as Hl.
    cbn [zip zip_with omap list_omap]. unfold slot_msg at 1. cbn [fst snd]. rewrite filter_cons.
    destruct (rt_valid r) eqn:Hv; cbn [andb orb] in *.
    + cbn [walk rvfi_msg_of v_last_uop v_trap negb]. rewrite Hr, andb_true_r.
      destruct (rt_last_uop r) eqn:Hu; [|by apply IH].
      rewrite decide_True by done. cbn [app].
      rewrite Nat2Z.id, list_lookup_middle by done. cbn [v_order v_insn v_pc_rdata].
      rewrite !Z.eqb_refl, (proj2 (Z.leb_le _ _)) by lia. cbn [andb].
      replace (R0 ++ r :: filter _ rs ++ R2) with ((R0 ++ [r]) ++ filter (λ r, rt_valid r && rt_last_uop r = true) rs ++ R2)
        by (by rewrite <- app_assoc).
      replace (Z.of_nat (length R0) + 1) with (Z.of_nat (length (R0 ++ [r]))) by (rewrite length_app; cbn; lia).
      rewrite IH by done. by rewrite <- app_assoc.
    + rewrite decide_False by done. destruct (rt_trap r) eqn:Ht; cbn; [|by apply IH].
      rewrite Ht, andb_false_r. by apply IH.
Qed.

Lemma wires_slots_length c i s : length (w_slots (cosim_wires c i s)) = length (ci_rvfi i).
Proof.
  unfold cosim_wires. pose proof (chain_run_length (se_patch_mode (cs_serial s)) (chain_start (cs_serial s)) (ci_rvfi i)).
  destruct (chain_run _ _ _) as [ch slots]. cbn in *. by rewrite length_fmap.
Qed.

Lemma valid_count_retired c i s : w_valid_cnt (cosim_wires c i s) = Z.of_nat (length (retired_slots i)).
Proof.
  unfold cosim_wires. destruct (chain_run _ _ _). cbn. unfold valid_count. by rewrite take_ge.
Qed.

Lemma send_wires c i s :
  let w := cosim_wires c i s in
  w_send_steps w = w_send_rvfi w && negb (sp_steps (cs_step s) =? 0) ∧
  w_send_rvfi w = w_poke_event_out w || negb (psc_enabled c).
Proof. unfold cosim_wires. by destruct (chain_run _ _ _). Qed.

Lemma retired_nil i : existsb rt_valid (ci_rvfi i) = false → retired_slots i = [].
Proof.
  unfold retired_slots. induction (ci_rvfi i) as [|r rs IH]; cbn [existsb]; [done|].
  intros [Hr Hrs]%orb_false_iff. rewrite filter_cons, decide_False; [by apply IH|]. by rewrite Hr.
Qed.

(** What the steps the simulator is behind amount to. *)
Record behind (c : cosim_cfg) (R0 : list rvfi_t) (s : cosim_st) : Prop := {
  bh_range : 0 ≤ sp_steps (cs_step s) ≤ Z.of_nat (length R0);
  bh_psc : psc_enabled c = false → sp_steps (cs_step s) = 0
}.

Lemma walk_cycle c i s R0 R2 :
  rvfi_on c = true → ci_dut_core_reset i = false → Forall (λ r, rt_valid r && rt_trap r = false) (ci_rvfi i) →
  behind c R0 s → Z.of_nat (length (R0 ++ retired_slots i)) < 2 ^ 64 →
  walk (R0 ++ retired_slots i ++ R2) (Z.of_nat (length R0) - sp_steps (cs_step s)) (cosim_msgs c i s) =
  Some (Z.of_nat (length (R0 ++ retired_slots i)) - sp_steps (cs_step (cosim_clk c i s))) ∧
  behind c (R0 ++ retired_slots i) (cosim_clk c i s).
Proof.
  intros Hon Hrun Hf [Hst Hpsc] Hbound. destruct (cosim_msgs_split c i s) as (A & B & -> & HA & HB).
  rewrite walk_app, (walk_plain _ _ A) by done. cbn [mbind option_bind].
  destruct (send_wires c i s) as [Hsteps Hrvfi]. pose proof (valid_count_retired c i s) as Hcnt.
  pose proof (wires_slots_length c i s) as Hlen.
  unfold cosim_clk. cbn [cs_step]. set (w := cosim_wires c i s) in *.
  unfold steps_clk. rewrite Hrun. cbn [sp_steps]. rewrite length_app, Nat2Z.inj_add in *.
  unfold step_msgs, rvfi_msgs. rewrite Hon, Hrun. cbn [negb andb]. rewrite Hsteps.
  destruct (w_send_rvfi w) eqn:Hsend; cbn [andb negb].
  - assert (walk (R0 ++ retired_slots i ++ R2) (Z.of_nat (length R0))
      (when true (omap (slot_msg c i s) (zip (ci_rvfi i) (w_slots w))) ++ B) =
      Some (Z.of_nat (length R0) + Z.of_nat (length (retired_slots i)))) as Hw.
    { cbn [when]. unfold retired_slots. rewrite walk_app, walk_slots by done. cbn [mbind option_bind].
      rewrite walk_plain by done. by rewrite length_app, Nat2Z.inj_add. }
    rewrite walk_app. destruct (Z.eqb_spec (sp_steps (cs_step s)) 0) as [E0|E0]; cbn [negb andb].
    + cbn [when walk mbind option_bind]. rewrite andb_false_r, E0, !Z.sub_0_r. split; [done|].
      split; cbn; rewrite ?andb_false_r; lia.
    + assert (psc_enabled c = true) as -> by (destruct (psc_enabled c); [done|by destruct E0; apply Hpsc]).
      cbn [when walk mbind option_bind]. rewrite Z.add_0_r, Z.sub_add, andb_false_r, Z.sub_0_r. split; [exact Hw|].
      split; cbn; rewrite ?andb_false_r; lia.
  - cbn [when app walk]. rewrite walk_plain by done. rewrite andb_true_r.
    symmetry in Hrvfi. apply orb_false_iff in Hrvfi as [_ Hp]. apply negb_false_iff in Hp.
    destruct (existsb rt_valid (ci_rvfi i)) eqn:Hv; cbn [andb].
    + rewrite Hcnt. unfold u64. rewrite Z.mod_small by lia. split; [f_equal; lia|]. split; cbn; rewrite ?Hv, ?Hp; cbn.
      * rewrite length_app. lia.
      * congruence.
    + rewrite (retired_nil i Hv). cbn. split; [f_equal; lia|]. split; cbn; rewrite ?Hv; cbn; [|by rewrite Hp].
      rewrite app_nil_r. lia.
Qed.

(** A cycle out of core reset in which no slot both retires and traps. *)
Definition running (i : cosim_in) : Prop :=
  ci_dut_core_reset i = false ∧ Forall (λ r, rt_valid r && rt_trap r = false) (ci_rvfi i).

Lemma walk_run c ins s R0 :
  rvfi_on c = true → Forall running ins → behind c R0 s →
  Z.of_nat (length (R0 ++ concat (retired_slots <$> ins))) < 2 ^ 64 →
  walk (R0 ++ concat (retired_slots <$> ins)) (Z.of_nat (length R0) - sp_steps (cs_step s)) (concat (cosim_run c ins s).1) =
  Some (Z.of_nat (length (R0 ++ concat (retired_slots <$> ins))) - sp_steps (cs_step (cosim_run c ins s).2)).
Proof.
  intros Hon Hf. revert s R0; induction Hf as [|i ins [Hi Hs] _ IH]; intros s R0 Hb Hbound; cbn in *.
  - by rewrite app_nil_r.
  - assert (Z.of_nat (length (R0 ++ retired_slots i)) < 2 ^ 64) by (rewrite !length_app in *; lia).
    destruct (walk_cycle c i s R0 (concat (retired_slots <$> ins)) Hon Hi Hs Hb) as [Hw Hb']; [done|].
    specialize (IH (cosim_clk c i s) (R0 ++ retired_slots i) Hb'). rewrite <- app_assoc in IH. specialize (IH Hbound).
    destruct (cosim_run c ins (cosim_clk c i s)) as [ms s']. cbn in *. by rewrite walk_app, Hw.
Qed.


(** ** Privilege: hardware and software agree *)

Definition rvfi_of (m : cosim_msg) : option rvfi_msg :=
  match m with CRvfi (ERvfi m) => Some m | _ => None end.

Lemma rvfi_of_plain ms : all plain ms → omap rvfi_of ms = [].
Proof. intros H. induction H as [|m ms Hm _ IH]; [done|]. by destruct m as [[]| | |]. Qed.

Lemma rvfi_of_msgs c i s :
  omap rvfi_of (cosim_msgs c i s) = omap rvfi_of (rvfi_msgs c i s (cosim_wires c i s)).
Proof.
  destruct (cosim_msgs_split c i s) as (A & B & -> & HA & HB).
  rewrite !omap_app, (rvfi_of_plain A), (rvfi_of_plain B), app_nil_r by done. cbn [app].
  unfold step_msgs, when. by destruct (_ && _).
Qed.

Section sw_run.
Context (rcfg : rvfi_cfg) (i0 : rv_instr_t).

(** What the software derivation makes of a sequence of messages. *)
Fixpoint sw_run (s : rvfi) (ms : list rvfi_msg) : rvfi * list (bool * bool * Z) :=
  match ms with
  | [] => (s, [])
  | m :: ms' =>
      let '(s1, i1, _, _) := sw_priv rcfg s m i0 in
      let '(s2, l) := sw_run s1 ms' in
      (s2, (i_first_uop i1, i_ucode i1, i_priv i1) :: l)
  end.

Lemma sw_run_app s a b :
  sw_run s (a ++ b) = ((sw_run (sw_run s a).1 b).1, (sw_run s a).2 ++ (sw_run (sw_run s a).1 b).2).
Proof.
  revert s; induction a as [|m a IH]; intros s; cbn [app sw_run fst snd].
  - by destruct (sw_run s b).
  - destruct (sw_priv rcfg s m i0) as [[[s1 i1] ?] ?]. rewrite IH.
    destruct (sw_run s1 a) as [s2 l2]. cbn. by destruct (sw_run s2 b).
Qed.

Definition hw_fields (m : rvfi_msg) : bool * bool * Z := (v_first_uop m, v_ucode m, v_priv m).

Lemma sw_cycle c i s P p rs cpp :
  sw_follows cpp p → Forall (λ r, rt_trap r = true → rt_valid r = true) rs →
  let '(e, slots) := chain_run P p rs in
  let ms := omap rvfi_of (omap (slot_msg c i s) (zip rs slots.*2)) in
  (sw_run cpp ms).2 = hw_fields <$> ms ∧ sw_follows (sw_run cpp ms).1 e.
Proof.
  intros Hp Hf. revert p cpp Hp; induction Hf as [|r rs Hr _ IH]; intros p cpp Hp; cbn [chain_run]; [done|].
  destruct (rt_valid r) eqn:Hv.
  - pose proof (λ o, sw_slot rcfg P p r cpp i0 (rvfi_msg_of c i s r o) Hp Hv eq_refl eq_refl) as Hs.
    destruct (chain_slot P p r) as [q o]. specialize (IH q). specialize (Hs o).
    destruct (chain_run P q rs) as [e slots]. set (F := slot_msg c i s) in *.
    assert (omap rvfi_of (omap F (zip (r :: rs) ((q, o) :: slots).*2)) =
      rvfi_msg_of c i s r o :: omap rvfi_of (omap F (zip rs slots.*2))) as -> by (unfold F, slot_msg; cbn; by rewrite Hv).
    cbn [sw_run]. destruct (sw_priv rcfg cpp (rvfi_msg_of c i s r o) i0) as [[[s1 i1] l1] b1].
    destruct Hs as (Hq & H1 & H2 & H3). specialize (IH s1 Hq). cbv zeta in IH.
    destruct (sw_run s1 (omap rvfi_of (omap F (zip rs slots.*2)))) as [s2 l]. cbn [fst snd] in *. destruct IH as [-> IH]. split; [|done]. rewrite fmap_cons. f_equal.
    unfold hw_fields. cbn. by rewrite H1, H2, H3.
  - destruct (rt_trap r) eqn:Ht; [by specialize (Hr eq_refl)|].
    pose proof (chain_slot_idle P p r Hv) as Hq. destruct (chain_slot P p r) as [q o]. cbn in Hq.
    specialize (IH q cpp). destruct (chain_run P q rs) as [e slots].
    set (F := slot_msg c i s) in *.
    assert (omap rvfi_of (omap F (zip (r :: rs) ((q, o) :: slots).*2)) = omap rvfi_of (omap F (zip rs slots.*2))) as ->
      by (unfold F, slot_msg; cbn; by rewrite Hv, Ht).
    apply IH. destruct Hq as (H1 & H2 & H3 & H4). destruct Hp. split; rewrite ?H1, ?H2, ?H3, ?H4; done.
Qed.

(** A cycle in which a slot traps only with the micro-operation that retires. *)
Definition traps_retire (i : cosim_in) : Prop :=
  ci_dut_core_reset i = false ∧ Forall (λ r, rt_trap r = true → rt_valid r = true) (ci_rvfi i).

Lemma sw_clk c i s cpp :
  rvfi_on c = true → psc_enabled c = false → traps_retire i → sw_follows cpp (chain_start (cs_serial s)) →
  let ms := omap rvfi_of (cosim_msgs c i s) in
  (sw_run cpp ms).2 = hw_fields <$> ms ∧
  sw_follows (sw_run cpp ms).1 (chain_start (cs_serial (cosim_clk c i s))).
Proof.
  intros Hon Hp [Hrun Ht] Hf ms. subst ms. rewrite rvfi_of_msgs. unfold rvfi_msgs.
  destruct (send_wires c i s) as [_ Hsend]. rewrite Hon, Hrun, Hsend, Hp, orb_true_r. cbn [andb negb when].
  pose proof (sw_cycle c i s (se_patch_mode (cs_serial s)) _ (ci_rvfi i) cpp Hf Ht) as H.
  unfold cosim_clk. cbn [cs_serial]. unfold cosim_wires.
  destruct (chain_run _ _ _) as [e slots]. cbn [w_slots w_chain w_trap_patch].
  destruct H as [H1 H2]. split; [done|]. unfold serial_clk. rewrite Hrun. by destruct H2.
Qed.

Lemma sw_run_follows c ins s cpp :
  rvfi_on c = true → psc_enabled c = false → Forall traps_retire ins →
  sw_follows cpp (chain_start (cs_serial s)) →
  let ms := omap rvfi_of (concat (cosim_run c ins s).1) in (sw_run cpp ms).2 = hw_fields <$> ms.
Proof.
  intros Hon Hp Hf. revert s cpp; induction Hf as [|i ins Hi _ IH]; intros s cpp Hc; [done|].
  destruct (sw_clk c i s cpp Hon Hp Hi Hc) as [H1 H2]. specialize (IH _ _ H2). cbn.
  destruct (cosim_run c ins (cosim_clk c i s)) as [ms s']. cbn in *.
  by rewrite omap_app, sw_run_app, fmap_app, H1, IH.
Qed.

End sw_run.

(** ** The registers sent for comparison *)

(** Not a message of floating-point or vector registers. *)
Definition no_fp_vc (m : cosim_msg) : bool :=
  match m with CRvfi (ERegs FP _ _ _ _) | CRvfi (ERegs VC _ _ _ _) => false | _ => true end.

Lemma cycle_no_fp_vc c i s : all no_fp_vc (cosim_msgs c i s).
Proof.
  unfold cosim_msgs. set (w := cosim_wires c i s).
  assert (reg_msgs c i s w = when (w_send_regs w) [CRvfi (ERegs GP (cc_loc c) (cc_NUM c) (ci_clocks i)
    (bank_regs 5 (gp_port <$> ci_rvfi i) (cs_gp s)))]) as ->.
  { unfold reg_msgs, bank_changed. destruct (w_send_regs w); cbn; [|done]. by rewrite orb_true_r. }
  unfold reset_msgs, mtime_msgs, mtip_msgs, csri_msgs, step_msgs, rvfi_msgs, slot_msg, read_msgs, eoti_msgs, store_msgs,
    fetch_msgs, line_msgs, trap_msgs, intr_msgs, nmi_msgs, imsic_msgs, debug_msgs, drain_msgs; msgs.
Qed.


(** ** Delays *)

Lemma ovf_shift e0 mid sr :
  length mid = (COUNTER_OVF_DELAY - 1)%nat →
  last (foldl (λ sr e, ovf_clk false e sr) sr (e0 :: mid)) = Some (is_mhpmevent e0, ce_addr e0).
Proof.
  intros Hl. do 9 (destruct mid as [|? mid]; [done|]). destruct mid; [|done].
  cbn. by destruct sr.
Qed.

(** A counter overflow is reported ten cycles after its event, and no other
    cycle reports it. *)
Lemma ovf_delayed c i0 mid s n e0 es sr :
  length mid = (COUNTER_OVF_DELAY - 1)%nat →
  Forall (λ i, ci_reset i = false ∧ ci_dut_core_reset i = false) (i0 :: mid) →
  ci_csri i0 !! n = Some e0 → Forall2 (λ i e, ci_csri i !! n = Some e) mid es →
  dy_ovf (cs_delay s) !! n = Some sr →
  ∃ sr', dy_ovf (cs_delay (cosim_run c (i0 :: mid) s).2) !! n = Some sr' ∧
    last sr' = Some (is_mhpmevent e0, ce_addr e0).
Proof.
  intros Hl Hf He Hes Hsr.
  assert (∀ ins es s sr, Forall (λ i, ci_reset i = false ∧ ci_dut_core_reset i = false) ins →
    Forall2 (λ i e, ci_csri i !! n = Some e) ins es → dy_ovf (cs_delay s) !! n = Some sr →
    dy_ovf (cs_delay (cosim_run c ins s).2) !! n = Some (foldl (λ sr e, ovf_clk false e sr) sr es)) as Hrun.
  { clear. intros ins es s sr Hf Hes. revert s sr Hf; induction Hes as [|i e ins es He _ IH]; intros s sr Hf Hsr; [done|].
    apply Forall_cons in Hf as [[H1 H2] Hf]. cbn.
    specialize (IH (cosim_clk c i s) (ovf_clk false e sr) Hf). destruct (cosim_run c ins (cosim_clk c i s)).
    apply IH. cbn. rewrite lookup_zip_with, He, H1, H2. cbn. by rewrite Hsr. }
  eexists. split; [by apply (Hrun _ (e0 :: es)); [|constructor|]|].
  apply ovf_shift. by rewrite <- (Forall2_length _ _ _ Hes).
Qed.

(** ** The time-outs *)

(** The conditions that end a test. *)
Definition over_cycle (c : timeout_cfg) (i : timeout_in) (s : timeouts) : bool :=
  (0 <? tt_max_cycle s) && (tt_max_cycle s <? ti_clocks i) && (to_NUM c <? to_nharts c).
Definition over_stall (c : timeout_cfg) (i : timeout_in) (s : timeouts) : bool :=
  (0 <? tt_max_stall_cycle s) && (tt_max_stall_cycle s <? since_retire (ti_cycles_since_retire i)) &&
  (to_NUM c <? to_nharts c).
Definition stray_retire (c : timeout_cfg) (i : timeout_in) : bool := rt_valid (ti_rvfi0 i) && (to_nharts c <? to_NUM c).

(** Without scaling: a detection of the tick before, and nothing pending. *)
Record plain_timeouts (c : timeout_cfg) (s : timeouts) : Prop := {
  pt_cycle : tt_max_cycle s = to_max_cycle c;
  pt_stall : tt_max_stall_cycle s = to_max_stall_cycle c;
  pt_sent : tt_terminate_sent s = tt_terminate s;
  pt_pending : tt_cycle_valid s = false ∧ tt_stall_valid s = false ∧ tt_cycle_sent s = false
}.

Lemma plain_timeouts_clk c i s :
  to_scale_en c = false → plain_timeouts c s → plain_timeouts c (timeout_clk c i s).
Proof.
  intros Hsc [H1 H2 H3 (H4 & H5 & H6)]. unfold timeout_clk, react_clk, detect_clk. rewrite Hsc, H4, H5, H6.
  destruct (ti_reset i); [by split|]. cbn.
  split; cbn; try done; [by rewrite H3|]. by repeat case_match.
Qed.

(** One tick without scaling. *)
Lemma timeout_tick c i s :
  to_scale_en c = false → plain_timeouts c s → tt_terminate s = false → ti_reset i = false →
  let s' := timeout_clk c i s in
  tt_terminate s' = tt_cycle_detect s || tt_stall_detect s || stray_retire c i ∧
  (tt_cycle_detect s = false → tt_stall_detect s = false →
   tt_cycle_detect s' || tt_stall_detect s' = over_cycle c i s || over_stall c i s).
Proof.
  intros Hsc [H1 H2 H3 (H4 & H5 & H6)] Ht Hr. rewrite Ht in H3.
  unfold timeout_clk, react_clk. rewrite Hr, Hsc, H3, H4, H5, Ht. cbn [tt_terminate tt_cycle_detect tt_stall_detect].
  split; [unfold stray_retire; by rewrite !andb_true_r, orb_false_r|]. intros Hcd Hsd.
  unfold detect_clk, over_cycle, over_stall. rewrite Hr, Hsc, H3, H6, Hcd, Hsd.
  by destruct (to_NUM c <? to_nharts c), (0 <? tt_max_cycle s), (tt_max_cycle s <? ti_clocks i),
    (0 <? tt_max_stall_cycle s), (tt_max_stall_cycle s <? since_retire (ti_cycles_since_retire i)).
Qed.


(** ** Concrete runs *)

Definition slot_of (valid last : bool) (order insn pc mode : Z) : rvfi_t :=
  Rvfi_t valid order 0 insn false 0 false mode 0 0 false 0 0 false 0 0 false false 0 0 0 0 0 pc false false
    0 0 0 0 0 0 0 false 0 false false 0 last false false.
Definition no_slot : rvfi_t := slot_of false true 0 0 0 0.
Definition cycle_of (clocks : Z) (rs : list rvfi_t) : cosim_in :=
  Cosim_in false false false clocks rs [] [] [] [] [] [] [] [] [] (Nmi_t false false)
    (Interrupt_pend false false 0 false 0) (Mtime_t 0 false) 0 false (Msi_t false 0 0) false false 0 false false false
    (Cl_port false 0) (Cl_port false 0) [] [].
Definition sample_cosim_cfg (period : Z) : cosim_cfg :=
  Cosim_cfg 0 2 0 true true 52 52 [] true false false false false false false period 0 0 0 0 0 0 0 0 0 0.
Definition sample_cosim : cosim_st :=
  Cosim_st (Reg_bank (replicate 32 0) false) (Reg_bank (replicate 32 0) false) (Reg_bank (replicate 32 0) false)
    (Serial false true false 0 false false) (Step_st 0 0 0 0 0) (Poke_st [0; 0] [0; 0] false false false)
    (Delay_st false false true false false false 0 false 0 0 0 0 false false false false false (Nmi_t false false) false
       [] 0 0 [] [] false).

(** Two instructions, then one of two micro-operations, then a CSR access. *)
Definition sample_cycles : list cosim_in :=
  [cycle_of 1 [slot_of true true 1 0x13 0x100 3; slot_of true true 2 0x13 0x104 3];
   cycle_of 2 [slot_of true false 3 0x13 0x108 3; no_slot];
   cycle_of 3 [slot_of true true 3 0x13 0x108 1; no_slot];
   cycle_of 4 [slot_of true true 4 0x30529073 0x10c 3; slot_of true true 5 0x13 0x110 3]].



Definition sample_timeout_cfg (nharts : Z) : timeout_cfg := Timeout_cfg 0 nharts false true 0x80000000 100 0.
Definition sample_timeouts : timeouts :=
  Timeouts 100 0 false false false false false 0 0 false false false false.

(** With scaling, a limit that was just raised ends the test when the hart is
    found stalled in the next tick: the valid flag of the update is left set. *)
Example raised_limit_terminates :
  let c := Timeout_cfg 0 1 true true 0x80000000 100 50 in
  let s0 := Timeouts 100 50 false false false false false 0 0 false false false false in
  let tick n s := timeout_clk c (Timeout_in false n 60 no_slot 1000 5000) s in
  let s2 := timeout_clk c (Timeout_in false 102 60 no_slot 1000 5000) (timeout_clk c (Timeout_in false 101 0 no_slot 1000 5000) s0) in
  tt_max_cycle s2 = 1000 ∧ tt_terminate s2 = false ∧ tt_terminate (tick 103 s2) = true.
Proof. vm_compute. done. Qed.

(** The hart whose number is the number of harts may retire. *)
Example stray_hart_missed :
  stray_retire (Timeout_cfg 2 2 false true 0 0 0) (Timeout_in false 1 0 (slot_of true true 1 0x13 0x100 3) 0 0) = false.
Proof. reflexivity. Qed.

(** Patch mode is entered twice by three patch instructions of one cycle, and
    is not left by a normal instruction of the cycle that entered it. *)
Example patch_flags :
  let start := chain_start (Serial false true false 0 false false) in
  let patch n := slot_of true true n 0x13 0x100 4 in
  so_set <$> (chain_run false start [patch 1; patch 2; patch 3]).2.*2 = [true; false; true] ∧
  so_clr <$> (chain_run false start [patch 1; slot_of true true 2 0x13 0x104 3]).2.*2 = [false; false].
Proof. vm_compute. done. Qed.
