(* ===== verification/CosimLink.v ===== *)
(** * CosimLink: from retirement in hardware to the bridge
      (src/cosim/cosim.sv with src/cosim/dut_if/rvfi)

    The messages of the module [cosim] of a hart are the input of the C++
    retirement interface of that hart.  Composing CosimSv.v with Rvfi.v: no
    message of the hardware makes the interface raise an exception, and the
    steps and instructions the bridge is told of, in the order it is told, are
    those of the hart's instruction stream. *)

From Stdlib Require Import Ascii.
From Stdlib Require String.
From S2P Require Import Prelude Bytes CosimUtil AddressMap McmiSplit Mcmi BridgeIntr Mem Eot RvfiLog Rvfi CosimSv.
Local Open Scope string_scope.
Local Open Scope list_scope.
Local Open Scope Z_scope.

(** ** What moves the simulator *)

Inductive key := KSteps (n : Z) | KInstr (opcode pc : Z).

Definition key_of_event (e : rvfi_event) : list key :=
  match e with
  | ESteps _ _ _ steps _ final_steps => [KSteps (steps + final_steps)]
  | ERvfi m => if v_last_uop m && negb (v_trap m) then [KInstr (v_insn m) (v_pc_rdata m)] else []
  | _ => []
  end.
Definition key_of_call (c : rvfi_call) : option key :=
  match c with
  | BSteps _ _ _ steps _ final_steps => Some (KSteps (steps + final_steps))
  | BInstr _ i => Some (KInstr (i_opcode i) (pc_rdata (i_pc i)))
  | _ => None
  end.

(** The position in the instruction stream [R] of a simulator driven by the
    calls: steps are taken blindly, an instruction must be the one at hand. *)
Fixpoint key_walk (R : list rvfi_t) (k : Z) (ks : list key) : option Z :=
  match ks with
  | [] => Some k
  | KSteps n :: ks' => key_walk R (k + n) ks'
  | KInstr opcode pc :: ks' =>
      match R !! Z.to_nat k with
      | Some r => if (0 <=? k) && (opcode =? rt_insn r) && (pc =? rt_pc_rdata r) then key_walk R (k + 1) ks' else None
      | None => None
      end
  end.

Definition event_of (m : cosim_msg) : option rvfi_event := match m with CRvfi e => Some e | _ => None end.

Lemma walk_keys R k ms k' :
  walk R k ms = Some k' → key_walk R k (concat (key_of_event <$> omap event_of ms)) = Some k'.
Proof.
  revert k; induction ms as [|m ms IH]; intros k; [done|].
  destruct m as [e| | |]; cbn [walk omap list_omap event_of]; try apply IH.
  destruct e; cbn [fmap list_fmap concat key_of_event app key_walk]; try apply IH.
  - destruct (_ && _); [|apply IH]. cbn [app key_walk]. destruct (R !! _) as [r|]; [|done].
    destruct (0 <=? k), (v_order m =? _), (v_insn m =? _), (v_pc_rdata m =? _); cbn; try done. apply IH.
  - rewrite Z.add_assoc. apply IH.
Qed.

(** ** The calls of the retirement interface *)

Definition no_steps (c : rvfi_call) : Prop := match c with BSteps _ _ _ _ _ _ => False | _ => True end.

Section calls.
Context (cfg : rvfi_cfg).
Context (disassemble : Z → string) (csr_by_address : Z → option string) (intr_name excp_name : Z → string).
Context (raw : mem_t) (raw_mtime : Z) (raw_intr : rv_intr_t).

Abbreviation process := (rvfi_process cfg disassemble csr_by_address intr_name excp_name raw raw_mtime raw_intr).
Abbreviation run := (rvfi_run cfg disassemble csr_by_address intr_name excp_name raw raw_mtime raw_intr).

Lemma lines_no_steps ls : Forall no_steps (LogLine <$> ls).
Proof. induction ls; by constructor. Qed.

Lemma ncio_no_steps s m i : Forall no_steps (ncio_step cfg s m i).2.
Proof.
  unfold ncio_step, rvfi_process_ncio_fetches. repeat case_match; cbn; simplify_eq/=; try done.
  induction (base.filter _ _); by constructor.
Qed.
Lemma priv_no_steps s m i :
  Forall no_steps (hw_priv cfg s m i).1.2 ∧ Forall no_steps (sw_priv cfg s m i).1.2.
Proof.
  split; unfold hw_priv, sw_priv, opcode_step, rvfi_when; cbv zeta; cbn [fst snd].
  - destruct (negb (priv_known _)); [by repeat constructor|].
    destruct (v_set_pmode m), (rc_patch_override cfg), (v_clr_pmode m), (rc_cosim cfg); by repeat constructor.
  - destruct (rc_cosim cfg && _ && _); match goal with |- context [let '(_, _) := ?x in if v_last_uop m then _ else _] =>
      destruct x as [s1 i1] end;
    (destruct (v_last_uop m); [|by repeat constructor]); destruct (rs_ucode_priv_change s1); cbn;
    destruct (_ && _), (rc_cosim cfg), (negb _); by repeat constructor.
Qed.

Lemma make_no_steps s m : Forall no_steps (make_instr cfg disassemble raw raw_mtime s m).2.
Proof.
  unfold make_instr. pose proof (ncio_no_steps s m (instr_meta cfg disassemble raw raw_mtime s m)) as Hn.
  destruct (ncio_step _ _ _ _) as [s1 c0]. cbn [snd] in Hn.
  destruct (priv_no_steps s1 m (instr_meta cfg disassemble raw raw_mtime s m)) as [Hh Hs].
  destruct (negb (rc_use_sw_priv cfg)).
  - destruct (hw_priv _ _ _ _) as [[[s2 i] c1] ok]. cbn [fst snd] in Hh.
    destruct ok; cbn; [destruct (instr_body _ _ _ _)|]; cbn; by apply Forall_app.
  - destruct (sw_priv _ _ _ _) as [[[s2 i] c1] ok]. cbn [fst snd] in Hs.
    destruct ok; cbn; [destruct (instr_body _ _ _ _)|]; cbn; by apply Forall_app.
Qed.

Lemma retire_no_steps s m i : Forall no_steps (rvfi_retire cfg s m i).2.
Proof.
  assert (∀ s i, Forall no_steps (enter_debug_mode cfg s i).2) as H1
    by (intros; unfold enter_debug_mode; repeat case_match; by repeat constructor).
  assert (∀ s i, Forall no_steps (send_instr cfg s i)) as H2
    by (intros; unfold send_instr, rvfi_when; repeat case_match; by repeat constructor).
  assert (∀ s i, Forall no_steps (exit_debug_mode cfg s i).2) as H3
    by (intros; unfold exit_debug_mode; repeat case_match; by repeat constructor).
  assert (∀ s i, Forall no_steps (group_step cfg s m i).2) as H4
    by (intros; unfold group_step, send_instr_group; repeat case_match; by repeat constructor).
  assert (∀ s, Forall no_steps (restore_step cfg s m).2) as H5
    by (intros; unfold restore_step; repeat case_match; by repeat constructor).
  unfold rvfi_retire. destruct (append_uop_changes_to_instr _ _) as [a i'].
  set (s0 := s <| rs_acc := a |>). specialize (H1 s0 i'). destruct (enter_debug_mode _ _ _) as [s1 c1].
  specialize (H2 s1 i'). specialize (H3 s1 i'). destruct (exit_debug_mode _ _ _) as [s2 c3].
  specialize (H4 s2 i'). destruct (group_step _ _ _ _) as [s3 c4].
  specialize (H5 (retire_state s3 m i')). destruct (restore_step _ _ _) as [s4 c5].
  cbn [snd] in *. rewrite !Forall_app. by repeat constructor.
Qed.

Lemma process_no_steps s e s' cs :
  (∀ h n c st sk f, e ≠ ESteps h n c st sk f) → process s e = Some (s', cs) → Forall no_steps cs.
Proof.
  intros Hne. destruct e; cbn [rvfi_process]; try (by destruct (Hne _ _ _ _ _ _ eq_refl)).
  4:{ unfold rvfi_process_rvfi. destruct (off s); [by intros [= _ <-]|]. destruct (negb _); [by intros [= _ <-]|].
      pose proof (make_no_steps s m) as Hm. destruct (make_instr _ _ _ _ _ _) as [[s1 i] c0]. cbn [snd] in Hm.
      destruct (print_instr _ _ _ _ _ _ _ _) as [ls|]; [cbn|done]. pose proof (lines_no_steps ls).
      destruct (v_trap m); [intros [= _ <-]; by apply Forall_app|].
      destruct (v_last_uop m); cbn; [|intros [= _ <-]; by apply Forall_app].
      match goal with |- context [rvfi_retire cfg ?s0 m i] => pose proof (retire_no_steps s0 m i) as Hr end.
      destruct (rvfi_retire _ _ _ _) as [s3 c1]. intros [= _ <-]. by rewrite !Forall_app. }
  all: unfold rvfi_process_reset, process_drain, process_regs, process_csri, send_csr, process_counter_ovf,
    rvfi_process_trap, process_excp, process_core_nmi, process_interrupt_pend, process_mtip, process_mtime,
    rvfi_process_imsic_msi, process_debug, rvfi_when.
  all: intros E; repeat case_match; simplify_eq/=; try (by repeat constructor).
  all: destruct (print_csr _ _ _) as [ls|]; simplify_eq/=; apply Forall_app; split; [apply lines_no_steps|by repeat constructor].
Qed.

(** What the simulator is moved by, in calls without steps, are the reports. *)
Definition key_of_report (r : rvfi_report) : option key :=
  match r with RInstr _ r => Some (KInstr (re_opcode r) (re_pc r)) | _ => None end.
Lemma keys_of_reports cs :
  Forall no_steps cs → omap key_of_call cs = omap key_of_report (omap report_of cs).
Proof.
  intros H. induction H as [|c cs Hc _ IH]; [done|]. destruct c; cbn in *; rewrite ?IH; done.
Qed.

(** A live interface: out of reset, not terminated. *)
Definition live (a : spec) : Prop := sp_terminated a = false ∧ sp_in_reset a = false.

(** An event of this hart that does not end the checks. *)
Definition ours (e : rvfi_event) : bool :=
  event_ok e &&
  match e with
  | EDrain _ | EDisableChecks | EBridgeError | ETerminateMemChecks => false
  | ERvfi m => v_loc m =? rc_loc cfg
  | _ => true
  end.

Lemma link_step a s e :
  rc_cosim cfg = true → sim a s → live a → ours e = true →
  ∃ s' cs, process s e = Some (s', cs) ∧ sim (spec_step (rc_loc cfg) a e).1 s' ∧
    live (spec_step (rc_loc cfg) a e).1 ∧ omap key_of_call cs = key_of_event e.
Proof.
  intros Hc Hsim [Ht Hr] [He Ho]%andb_true_iff.
  destruct (process_sim cfg disassemble csr_by_address intr_name excp_name raw raw_mtime raw_intr a s e Hc Hsim He)
    as (s' & cs & Hp & Hs' & Hrep).
  exists s', cs. split; [done|]. split; [done|].
  assert (off s = false) as Hoff by (unfold off; by rewrite (sm_term _ _ Hsim), (sm_reset _ _ Hsim), Ht, Hr).
  split.
  { clear Hp Hrep Hs'. destruct e; cbn; unfold spec_retire, spec_trap; rewrite ?Ht, ?Hr; try done;
      repeat case_match; by split. }
  destruct e; try (rewrite (keys_of_reports cs), Hrep by (by eapply process_no_steps; [|exact Hp])); cbn;
    rewrite ?Ht, ?Hr; try done.
  - rename m into msg. cbn in Ho. rewrite (proj2 (Z.eqb_eq (rc_loc cfg) (v_loc msg))) by (zbool; lia). cbn. unfold spec_retire.
    destruct (v_trap msg); [by rewrite andb_false_r|]. destruct (v_last_uop msg); [|done]. by destruct (v_last_insn msg).
  - cbn in Hp. unfold process_rvfi_steps, rvfi_when in Hp. rewrite Hoff, Hc in Hp. by injection Hp as _ <-.
Qed.

Lemma link_run a s es :
  rc_cosim cfg = true → sim a s → live a → Forall (λ e, ours e = true) es →
  ∃ s' cs, run s es = Some (s', cs) ∧ omap key_of_call cs = concat (key_of_event <$> es).
Proof.
  intros Hc. revert a s; induction es as [|e es IH]; intros a s Hsim Hl Hf; [by eexists _, _|].
  apply Forall_cons in Hf as [He Hf]. destruct (link_step a s e Hc Hsim Hl He) as (s1 & c1 & E1 & S1 & L1 & K1).
  destruct (IH _ s1 S1 L1 Hf) as (s2 & c2 & E2 & K2). cbn. rewrite E1. cbn. rewrite E2. cbn.
  eexists _, _. split; [done|]. by rewrite omap_app, K1, K2.
Qed.
End calls.

(** ** The messages of the hardware *)

(** A cycle whose privilege modes are known and that neither ends the checks nor the run. *)
Definition regular (i : cosim_in) : Prop :=
  running i ∧ Forall (λ r, priv_known (rt_mode r) = true) (ci_rvfi i) ∧
  ci_disable_checks i = false ∧ ci_cvm_done i = false.

Lemma chain_priv_known P p rs :
  priv_known (ch_priv p) = true → Forall (λ r, priv_known (rt_mode r) = true) rs →
  priv_known (ch_priv (chain_run P p rs).1) = true ∧
  Forall (λ o, priv_known (so_priv o) = true) (chain_run P p rs).2.*2.
Proof.
  intros Hp Hf. revert p Hp; induction Hf as [|r rs Hr _ IH]; intros p Hp; cbn [chain_run]; [done|].
  assert (priv_known (ch_priv (chain_slot P p r).1) = true ∧ priv_known (so_priv (chain_slot P p r).2) = true) as [H1 H2].
  { unfold chain_slot. cbn. split; repeat case_match; done. }
  destruct (chain_slot P p r) as [q o]. specialize (IH q H1). destruct (chain_run P q rs) as [e os]. cbn in *.
  destruct IH. split; [done|]. by constructor.
Qed.

Section link.
Context (cfg : rvfi_cfg) (c : cosim_cfg).
Hypothesis Hloc : cc_loc c = rc_loc cfg.

(** The messages that are for the retirement interface are its own. *)
Definition msg_ours (m : cosim_msg) : bool := match m with CRvfi e => ours cfg e | _ => true end.

Lemma cycle_ours i s :
  regular i → priv_known (se_priv (cs_serial s)) = true →
  all msg_ours (cosim_msgs c i s) ∧ priv_known (se_priv (cs_serial (cosim_clk c i s))) = true.
Proof.
  intros ((Hrun & _) & Hm & Hdis & Hdone) Hp.
  destruct (chain_priv_known (se_patch_mode (cs_serial s)) (chain_start (cs_serial s)) (ci_rvfi i) Hp Hm) as [He Ho].
  assert (Forall (λ o, priv_known (so_priv o) = true) (w_slots (cosim_wires c i s)) ∧
          priv_known (ch_priv (w_chain (cosim_wires c i s))) = true) as [Hs Hc].
  { unfold cosim_wires. by destruct (chain_run _ _ _). }
  split.
  - unfold cosim_msgs. set (w := cosim_wires c i s) in *.
    assert (drain_msgs c i s = []) as -> by (unfold drain_msgs; by rewrite Hdone, andb_false_r).
    assert (all msg_ours (rvfi_msgs c i s w)) as Hr.
    { unfold rvfi_msgs. apply all_when. clear He Ho Hc. revert Hm Hs. generalize (w_slots w), (ci_rvfi i).
      intros outs rs Hm; revert outs; induction Hm as [|r rs Hr _ IH]; intros [|o outs] Ho; try (by constructor).
      apply Forall_cons in Ho as [Ho Hos]. cbn. unfold slot_msg at 1. cbn [fst snd].
      destruct (_ || _); [constructor; [|by apply IH]|by apply IH]. cbn.
      unfold ours. cbn. by rewrite Hr, Ho, Hloc, Z.eqb_refl. }
    unfold reset_msgs. rewrite Hdis, andb_false_r. cbn [when].
    unfold mtime_msgs, mtip_msgs, csri_msgs, step_msgs, reg_msgs, read_msgs, eoti_msgs, store_msgs,
      fetch_msgs, line_msgs, trap_msgs, intr_msgs, nmi_msgs, imsic_msgs, debug_msgs.
    revert Hr. generalize (rvfi_msgs c i s w). intros l Hr. msgs.
  - unfold cosim_clk. cbn. unfold serial_clk. by rewrite Hrun.
Qed.

Lemma run_ours ins s :
  Forall regular ins → priv_known (se_priv (cs_serial s)) = true →
  Forall (λ e, ours cfg e = true) (omap event_of (concat (cosim_run c ins s).1)).
Proof.
  intros Hf. revert s; induction Hf as [|i ins Hi _ IH]; intros s Hp; cbn; [done|].
  destruct (cycle_ours i s Hi Hp) as [Hm Hp']. specialize (IH _ Hp').
  destruct (cosim_run c ins (cosim_clk c i s)) as [ms s']. cbn. rewrite omap_app, Forall_app. split; [|done].
  clear -Hm. induction Hm as [|[] ? ? ? IH]; cbn; try done. by constructor.
Qed.

Context (disassemble : Z → string) (csr_by_address : Z → option string) (intr_name excp_name : Z → string).
Context (raw : mem_t) (raw_mtime : Z) (raw_intr : rv_intr_t).

End link.

