(* ===== verification/BridgeCsr.v ===== *)
(** * BridgeCsr: which bits of a CSR write are compared and applied
      (src/cosim/bridge/bridge.cpp, [modify_csr_data], [modify_csr_mask])

    The design reports a CSR write as data and a mask.  Before it updates the
    recorded state of the design, the bridge turns them into what the register
    keeps: bits the simulator says are read-only are dropped, and writes of
    reserved encodings are dropped as a whole field.

    The simulator's view of a register (value, write mask, poke mask, read
    mask) is the function [peek]; register addresses come from a generated
    header and are parameters, given as distinct numbers. *)

From S2P Require Import Prelude.

Record csr_peek := Csr_peek { cp_value : Z; cp_mask : Z; cp_poke_mask : Z; cp_read_mask : Z }.

Record csr_addrs := Csr_addrs {
  ca_pmpaddr0 : Z; ca_pmpaddr15 : Z; ca_pmpcfg0 : Z; ca_mstateen0 : Z; ca_hstateen0 : Z; ca_sstateen0 : Z;
  ca_vl : Z; ca_dcsr : Z; ca_hgatp : Z; ca_hstatus : Z; ca_mseccfg : Z; ca_menvcfg : Z; ca_henvcfg : Z; ca_senvcfg : Z;
  ca_srmcfg : Z
}.

Definition VS : Z := 9.
Definition hgatp_valid_modes : list Z := [0; 8; 9; 10].
Definition pmm_legal_values : list Z := [0; 2].
Definition pmm_hstatus_mask_lo : Z := 48.
Definition pmm_cfgs_mask_lo : Z := 32.

Definition hypervisor_csr_map_ : list Z :=
  [0x600; 0x602; 0x603; 0x604; 0x605; 0x606; 0x607; 0x609; 0x60A; 0x643; 0x644; 0x645; 0x646; 0x647; 0x680; 0x64A;
   0xE12; 0x34B; 0x34A; 0x200; 0x204; 0x205; 0x240; 0x241; 0x242; 0x243; 0x24D; 0x244; 0x280; 0x25C; 0xEB0].

Definition is_custom_csr (addr : Z) : bool :=
  existsb (λ '(lo, hi), (lo <=? addr) && (addr <=? hi))
    [(0x5C0, 0x5FF); (0x6C0, 0x6FF); (0x7C0, 0x7FF); (0x800, 0x8FF); (0x9C0, 0x9FF); (0xAC0, 0xAFF); (0xBC0, 0xBFF);
     (0xCC0, 0xCFF); (0xDC0, 0xDFF); (0xEC0, 0xEFF); (0xFC0, 0xFFF)].
Definition is_csr_allowlist (addr : Z) : bool := (0xBCA <=? addr) && (addr <=? 0xBCD).

Section csr.
Variable ca : csr_addrs.
Variable peek : Z → csr_peek.
(** [hyp_enabled()], and the recorded hgatp of the design. *)
Variables (hyp_enabled debug_mode : bool) (dut_hgatp : Z).

Definition get_csr_mask (addr : Z) : Z :=
  if debug_mode && (addr =? ca_dcsr ca) then cp_poke_mask (peek addr)
  else cp_mask (peek addr) &&& cp_read_mask (peek addr).
Definition get_csr_poke_mask (addr : Z) : Z := cp_poke_mask (peek addr).

Definition is_pmpaddr (addr : Z) : bool := (ca_pmpaddr0 ca <=? addr) && (addr <=? ca_pmpaddr15 ca).
(** Register and bit of the configuration of PMP entry [i]. *)
Definition pmp_cfg_reg (i : Z) : Z := i * 8 / 64 * 2.
Definition pmp_cfg_index (i : Z) : Z := i * 8 mod 64.

(** The first [i] that matches, if any. *)
Definition stateen_index (addr : Z) : option Z :=
  List.find (λ i, (addr =? ca_hstateen0 ca + i) || (addr =? ca_sstateen0 ca + i)) [0; 1; 2; 3].

Definition modify_csr_data (addr data priv : Z) : Z :=
  let result :=
    if is_pmpaddr addr then
      let i := addr - ca_pmpaddr0 ca in
      let pmpcfg := cp_value (peek (ca_pmpcfg0 ca + pmp_cfg_reg i)) in
      if Z.testbit pmpcfg (pmp_cfg_index i + 4) then data ||| 0x1ff else data &&& 0xfffffffffffffc00
    else data in
  match stateen_index addr with
  | None => result
  | Some i =>
      let result := result &&& cp_value (peek (ca_mstateen0 ca + i)) in
      if (addr =? ca_sstateen0 ca + i) && (priv =? VS)
      then result &&& cp_value (peek (ca_hstateen0 ca + i)) else result
  end.

Definition pmm_of (lo v : Z) : Z := (v ≫ lo) &&& ((1 ≪ 2) - 1).
Definition pmm_legal (pmm : Z) : bool := existsb (Z.eqb pmm) pmm_legal_values.

(** Drop the PMM field at [lo] if the value written is reserved. *)
Definition mask_pmm (lo data result : Z) : Z :=
  if pmm_legal (pmm_of lo (data &&& result)) then result else result &&& not64 (3 ≪ lo).
(** The second, literal version of the same check. *)
Definition mask_pmm_again (lo keep data result : Z) : Z :=
  let pmm := ((data &&& result) ≫ lo) &&& 3 in
  if (pmm =? 0) || (pmm =? 2) then result else result &&& keep.

Definition has_pmm (addr : Z) : bool :=
  (addr =? ca_mseccfg ca) || (addr =? ca_menvcfg ca) || (addr =? ca_henvcfg ca) || (addr =? ca_senvcfg ca) ||
  (addr =? ca_hstatus ca).

Definition modify_csr_mask (addr data mask : Z) : Z :=
  let result :=
    if addr =? ca_vl ca then mask
    else if existsb (Z.eqb addr) hypervisor_csr_map_ && negb hyp_enabled then mask
    else mask &&& get_csr_mask addr in
  let result :=
    if is_pmpaddr addr then
      let i := addr - ca_pmpaddr0 ca in
      let pmpcfg := cp_value (peek (ca_pmpaddr0 ca + pmp_cfg_reg i)) in
      if Z.testbit pmpcfg (pmp_cfg_index i + 4) then result ||| 0x1ff else result ||| 0x3ff
    else result in
  let result :=
    if addr =? ca_hgatp ca then
      let new_hgatp := (data &&& result) ||| (dut_hgatp &&& not64 result) in
      if existsb (Z.eqb (new_hgatp ≫ 60)) hgatp_valid_modes then result else result &&& 0xfffffffffffffff
    else result in
  let result :=
    if has_pmm addr then
      if addr =? ca_hstatus ca then mask_pmm pmm_hstatus_mask_lo data result else mask_pmm pmm_cfgs_mask_lo data result
    else result in
  let result :=
    if has_pmm addr then
      if addr =? ca_hstatus ca then mask_pmm_again 48 0xfffcffffffffffff data result
      else mask_pmm_again 32 0xfffffffcffffffff data result
    else result in
  if addr =? ca_srmcfg ca then
    let eff_data := data &&& mask in
    let result := 0xfff0fff in
    if negb (((eff_data &&& result) &&& 0xfff) <=? 0xf) || negb ((eff_data &&& result) &&& 0xfff0000 =? 0) then 0
    else result &&& get_csr_mask addr
  else result.

(** The register after the write: the bits of the mask come from the data. *)
Definition csr_apply (old data mask : Z) : Z := (data &&& mask) ||| (old &&& not64 mask).

(** ** Reserved encodings are never written *)

(** The registers with an encoding to keep legal are different ones. *)
Definition addrs_ok : Prop :=
  NoDup [ca_vl ca; ca_hgatp ca; ca_srmcfg ca; ca_mseccfg ca; ca_menvcfg ca; ca_henvcfg ca; ca_senvcfg ca; ca_hstatus ca] ∧
  Forall (λ a, is_pmpaddr a = false) [ca_hgatp ca; ca_mseccfg ca; ca_menvcfg ca; ca_henvcfg ca; ca_senvcfg ca; ca_hstatus ca].

(** Position of the PMM field. *)
Definition pmm_lo (addr : Z) : Z := if addr =? ca_hstatus ca then 48 else 32.

(** What the encoding of a register asks for: a translation mode of hgatp, a
    pointer-masking mode. *)
Definition legal (addr v : Z) : Prop :=
  (addr = ca_hgatp ca → v ≫ 60 ∈ hgatp_valid_modes) ∧
  (has_pmm addr = true → pmm_legal (pmm_of (pmm_lo addr) v) = true).

Lemma pmm_legal_bit lo v : 0 ≤ lo → pmm_legal (pmm_of lo v) = negb (Z.testbit v lo).
Proof.
  intros Hlo. unfold pmm_of. change ((1 ≪ 2) - 1) with (Z.ones 2). rewrite Z.land_ones by lia.
  assert (Z.testbit v lo = Z.testbit ((v ≫ lo) mod 2 ^ 2) 0) as ->.
  { rewrite Z.testbit_mod_pow2, Z.shiftr_spec by lia. by rewrite Z.add_0_l. }
  pose proof (Z.mod_pos_bound (v ≫ lo) (2 ^ 2)). set (x := (v ≫ lo) mod 2 ^ 2) in *. clearbody x.
  assert (x = 0 ∨ x = 1 ∨ x = 2 ∨ x = 3) as [->|[->|[->| ->]]] by lia; done.
Qed.

Lemma testbit_not64 x k : 0 ≤ k < 64 → Z.testbit (not64 x) k = negb (Z.testbit x k).
Proof. intros Hk. unfold not64. rewrite Z.lxor_spec, Z.ones_spec_low by lia. apply xorb_true_r. Qed.

Lemma csr_apply_bit old data mask k :
  0 ≤ k < 64 → Z.testbit (csr_apply old data mask) k = if Z.testbit mask k then Z.testbit data k else Z.testbit old k.
Proof.
  intros Hk. unfold csr_apply. rewrite Z.lor_spec, !Z.land_spec, testbit_not64 by done.
  destruct (Z.testbit mask k); cbn [negb]; [by rewrite andb_true_r, andb_false_r, orb_false_r|].
  by rewrite andb_false_r, andb_true_r.
Qed.

Lemma mask_pmm_bit lo data result :
  0 ≤ lo < 64 → Z.testbit (mask_pmm lo data result) lo = true → Z.testbit data lo = false.
Proof.
  intros Hlo. unfold mask_pmm. rewrite pmm_legal_bit, Z.land_spec by lia.
  destruct (Z.testbit data lo), (Z.testbit result lo) eqn:Er; cbn [andb negb]; try done; [|by rewrite Er].
  rewrite Z.land_spec, testbit_not64, Z.shiftl_spec, Z.sub_diag by lia. by rewrite andb_false_r.
Qed.

(** The literal check never drops anything more. *)
Lemma mask_pmm_twice lo keep data result :
  0 ≤ lo < 64 → mask_pmm_again lo keep data (mask_pmm lo data result) = mask_pmm lo data result.
Proof.
  intros Hlo. unfold mask_pmm_again. set (r := mask_pmm lo data result).
  assert (pmm_legal (pmm_of lo (data &&& r)) = true) as Hl.
  { rewrite pmm_legal_bit, Z.land_spec by lia. apply negb_true_iff.
    destruct (Z.testbit r lo) eqn:Er; [|apply andb_false_r]. by rewrite (mask_pmm_bit lo data result). }
  unfold pmm_legal, pmm_of, pmm_legal_values in Hl. change ((1 ≪ 2) - 1) with 3 in Hl. cbn [existsb] in Hl.
  rewrite orb_false_r in Hl. by rewrite Hl.
Qed.

Lemma mode_kept old data result :
  is_u64 old → is_u64 data → csr_apply old data (result &&& 0xfffffffffffffff) ≫ 60 = old ≫ 60.
Proof.
  intros Ho Hd. apply Z.bits_inj'. intros k Hk. rewrite !Z.shiftr_spec by lia.
  destruct (decide (k + 60 < 64)) as [Hlt|Hge].
  - rewrite csr_apply_bit by lia. change 0xfffffffffffffff with (Z.ones 60).
    by rewrite Z.land_spec, Z.ones_spec_high, andb_false_r by lia.
  - unfold csr_apply. rewrite Z.lor_spec, !Z.land_spec.
    by rewrite (testbit_above data 64), (testbit_above old 64) by (done || lia).
Qed.

Lemma addrs_ne i j a b :
  addrs_ok → i ≠ j →
  [ca_vl ca; ca_hgatp ca; ca_srmcfg ca; ca_mseccfg ca; ca_menvcfg ca; ca_henvcfg ca; ca_senvcfg ca; ca_hstatus ca] !! i = Some a →
  [ca_vl ca; ca_hgatp ca; ca_srmcfg ca; ca_mseccfg ca; ca_menvcfg ca; ca_henvcfg ca; ca_senvcfg ca; ca_hstatus ca] !! j = Some b →
  a =? b = false.
Proof. intros [Hnd _] Hij Ha Hb. apply Z.eqb_neq. intros ->. apply Hij. by eapply NoDup_lookup. Qed.

Lemma pmm_not_srmcfg addr : addrs_ok → has_pmm addr = true → addr =? ca_srmcfg ca = false.
Proof.
  intros Hok. unfold has_pmm. rewrite !orb_true_iff, !Z.eqb_eq.
  intros [[[[->| ->]| ->]| ->]| ->]; [apply (addrs_ne 3 2)|apply (addrs_ne 4 2)|apply (addrs_ne 5 2)|apply (addrs_ne 6 2)|
    apply (addrs_ne 7 2)]; done.
Qed.

Lemma hgatp_no_pmm : addrs_ok → has_pmm (ca_hgatp ca) = false.
Proof.
  intros Hok. unfold has_pmm. by rewrite (addrs_ne 1 3), (addrs_ne 1 4), (addrs_ne 1 5), (addrs_ne 1 6), (addrs_ne 1 7) by done.
Qed.

(** The write the bridge applies never puts a reserved encoding into a
    register: if hgatp holds a defined translation mode, and a register with a
    pointer-masking field a defined mode, they still do after the write with
    the computed mask, whatever data and mask the design reports and whatever
    the simulator's masks are. *)
Theorem csr_write_legal addr data mask old :
  addrs_ok → is_u64 data → is_u64 old → (addr = ca_hgatp ca → old = dut_hgatp) →
  legal addr old → legal addr (csr_apply old data (modify_csr_mask addr data mask)).
Proof.
  intros Hok Hd Ho Hdut [L1 L2]. split.
  - intros ->. specialize (Hdut eq_refl) as ->. specialize (L1 eq_refl). unfold modify_csr_mask.
    rewrite hgatp_no_pmm, Z.eqb_refl, (addrs_ne 1 2 (ca_hgatp ca) (ca_srmcfg ca)) by done.
    destruct Hok as [_ Hpmp]. apply Forall_cons in Hpmp as [-> _].
    set (result := if _ =? ca_vl ca then _ else _). clearbody result. cbv zeta.
    destruct (existsb _ hgatp_valid_modes) eqn:E.
    + apply existsb_exists in E as (m & Hm & Em%Z.eqb_eq). unfold csr_apply. rewrite Em. by apply list_elem_of_In.
    + by rewrite mode_kept.
  - intros Hp. specialize (L2 Hp). set (lo := pmm_lo addr) in *.
    assert (0 ≤ lo < 64) as Hlo by (subst lo; unfold pmm_lo; destruct (_ =? _); lia).
    rewrite pmm_legal_bit in L2 |- * by lia. apply negb_true_iff in L2. apply negb_true_iff. rewrite csr_apply_bit by done.
    assert (∃ r, modify_csr_mask addr data mask = mask_pmm lo data r) as [r ->].
    { unfold modify_csr_mask. rewrite Hp. unfold lo, pmm_lo, pmm_hstatus_mask_lo, pmm_cfgs_mask_lo.
      rewrite pmm_not_srmcfg by done. cbv zeta. destruct (addr =? ca_hstatus ca); rewrite mask_pmm_twice by lia; by eexists. }
    destruct (Z.testbit (mask_pmm lo data r) lo) eqn:Er; [by apply (mask_pmm_bit lo data r)|done].
Qed.
End csr.

(** Standard addresses; a simulator whose masks allow everything. *)
Definition sample_addrs : csr_addrs :=
  Csr_addrs 0x3b0 0x3bf 0x3a0 0x30c 0x60c 0x10c 0xc20 0x7b0 0x680 0x600 0x747 0x30a 0x60a 0x10a 0x181.
Definition sample_peek (addr : Z) : csr_peek := Csr_peek 0 (2 ^ 64 - 1) (2 ^ 64 - 1) (2 ^ 64 - 1).

(** A write of mode 5 to hgatp keeps mode 8, other bits are written. *)
Lemma csr_write_legal_witness :
  legal sample_addrs 0x680 (csr_apply (8 ≪ 60) ((5 ≪ 60) + 7) (modify_csr_mask sample_addrs sample_peek true false (8 ≪ 60) 0x680 ((5 ≪ 60) + 7) (2 ^ 64 - 1))).
Proof.
  apply (csr_write_legal sample_addrs sample_peek true false (8 ≪ 60) 0x680 ((5 ≪ 60) + 7) (2 ^ 64 - 1) (8 ≪ 60)).
  - split; [apply (bool_decide_unpack _); by vm_compute|by repeat constructor].
  - done.
  - done.
  - done.
  - split; [intros _; by apply (bool_decide_unpack _)|done].
Defined.

(** The mask of a PMP address register is chosen by an address register: with
    entry 0 configured NAPOT (pmpcfg0 = 0x18) the granule bits kept are those of
    a range that is not. *)
Example pmp_mask_ignores_config :
  let peek addr := Csr_peek (if addr =? 0x3a0 then 0x18 else 0) 0 0 0 in
  modify_csr_data sample_addrs peek 0x3b0 0 3 = 0x1ff ∧
  modify_csr_mask sample_addrs peek true false 0 0x3b0 0 0 = 0x3ff.
Proof. by vm_compute. Qed.
