(* ===== verification/BridgeCore.v ===== *)
(** * BridgeCore: step and compare (src/cosim/bridge/bridge.cpp)

    For every instruction the design retires, [process_dut_instr_retire]
    prepares the reference simulator, steps it, records the state of both sides
    in the checker and compares; a difference is reported unless it is one the
    simulator cannot foresee, and then the simulator is brought back in line.

    - The simulator is the class [Iss] of BridgeIntr with the calls of
      [IssExec].  Reads are functions of its state.  As in BridgeIntr the
      client's calls always succeed; an invalid answer is modelled.
    - The core architecture checker (CAC) is a library outside the repository:
      class [Cac], with [CacLaws] what the bridge relies on.  The bridge has one
      checker for registers and one for CSRs.
    - The interrupt part of the state is a [bi] of BridgeIntr, whose operations
      are lifted by [intr].
    - A computation yields [None] when an exception or a failed assertion ends
      it.  [bi_errors] counts the calls of [error].
    - CSR numbers, custom causes and the table of CSRs come from generated
      headers and are parameters. *)

From Stdlib Require Import Ascii.
From Stdlib Require String.
From S2P Require Import Prelude Bytes Cstd CosimUtil Memmap AddressMap McmiSplit Mcmi RvfiLog WhisperClient BridgeIntr BridgeCsr.
From S2P Require Import PcgExtras BridgeMcm Parser BridgeIsa.
Local Open Scope string_scope.
Local Open Scope list_scope.
Local Open Scope Z_scope.

(** ** The checker *)

Inductive src_t := Dut | IssSide.
Inductive resource_t := pc_reg | priv_mode | insn_bytes | flags | int_reg | fp_reg | vec_reg | csr_reg | mem_attr.
#[export] Instance src_t_eq_dec : EqDecision src_t.
Proof. solve_decision. Defined.
#[export] Instance resource_t_eq_dec : EqDecision resource_t.
Proof. solve_decision. Defined.

(** Resource and offset; values are double words, low ones first. *)
Definition resource_id : Type := resource_t * Z.

Class Cac (C : Type) := {
  cac_set : src_t → resource_id → list Z → C → C * bool;
  cac_set_masked : src_t → resource_id → list Z → Z → bool → C → C * bool;     (* mask, check *)
  cac_get : src_t → resource_id → C → option (list Z);
  cac_step : C → C;
  cac_status : C → bool;
  cac_reset_status : C → C;
  cac_strings : C → string * string * string                                   (* resource, dut, iss *)
}.

(** ** The simulator *)

Inductive step_outcome := Stepped (r : step_result) (valid : bool) | SnapshotTaken | StepThrows.

Class IssExec (I : Type) := {
  iss_step : Z → Z → Z → I → I * step_outcome;                  (* hart, time, tag *)
  iss_change : Z → I → I * (Z * Z * Z);                         (* resource, address, value *)
  iss_csr : Z → Z → I → csr_peek;
  iss_pc : Z → I → Z;
  iss_gpr : Z → Z → I → Z;
  iss_fpr : Z → Z → I → Z;
  iss_vpr : Z → Z → I → list Z;
  iss_last_ldst : Z → I → Z;
  iss_eff_attr : Z → I → Z * Z * bool;
  iss_translate : Z → Z → bool → bool → bool → bool → bool → I → Z * bool;
  iss_inject : Z → bool → Z → Z → I → I * bool;                 (* hart, load, code, address *)
  iss_cancel_lr : Z → I → I * bool;
  iss_enter_debug : Z → I → I;
  iss_exit_debug : Z → I → I;
  iss_skip_read_check : Z → Z → I → I;
  iss_snapshot_save : I → I * bool
}.

(** ** State *)

Record whisper_state_t := Whisper_state {
  ws_tag : Z; ws_time : Z; ws_pc : Z; ws_opcode : Z; ws_change_count : Z; ws_disasm : string;
  ws_resource : Z; ws_address : Z; ws_value : Z; ws_priv_mode : Z; ws_fp_flags : Z; ws_trap : bool; ws_stop : bool;
  ws_is_load : bool; ws_is_cancelled : bool; ws_force_resynch : bool
}.
#[export] Instance eta_whisper_state : Eta whisper_state_t := λ w,
  Whisper_state (ws_tag w) (ws_time w) (ws_pc w) (ws_opcode w) (ws_change_count w) (ws_disasm w) (ws_resource w)
    (ws_address w) (ws_value w) (ws_priv_mode w) (ws_fp_flags w) (ws_trap w) (ws_stop w) (ws_is_load w)
    (ws_is_cancelled w) (ws_force_resynch w).
Definition whisper_state_new (tag time : Z) : whisper_state_t :=
  Whisper_state tag time 0 0 0 (fill_left 128 " "%char EmptyString) 0 0 0 0 0 false false false false false.

(** [w_]: what is read of it, but for the parts in [bi_w]; nothing sets its
    disassembly. *)
Record iss_instr := Iss_instr {
  wi_priv : Z; wi_trap : bool; wi_comp : bool; wi_ucode : bool; wi_load : bool; wi_store : bool; wi_pc : Z;
  wi_excp : bool; wi_ecause : Z; wi_csr : list csr_t
}.
#[export] Instance eta_iss_instr : Eta iss_instr := λ w,
  Iss_instr (wi_priv w) (wi_trap w) (wi_comp w) (wi_ucode w) (wi_load w) (wi_store w) (wi_pc w) (wi_excp w) (wi_ecause w) (wi_csr w).
Definition iss_instr_new : iss_instr := Iss_instr 3 false false false false false 0 false 0 [].

Record metrics := Metrics {
  mt_exceptions : gmap Z Z; mt_insn_err : Z; mt_ld_err : Z; mt_late_st_err : Z; mt_insn_hwerr : Z; mt_ld_hwerr : Z;
  mt_late_st_hwerr : Z; mt_trig_breakpoint : Z; mt_sp : Z; mt_amocas_pass : gmap string Z; mt_amocas_fail : gmap string Z;
  mt_vector : Z; mt_vector_excp : Z; mt_by_vtype : gmap string Z
}.
#[export] Instance eta_metrics : Eta metrics := λ m,
  Metrics (mt_exceptions m) (mt_insn_err m) (mt_ld_err m) (mt_late_st_err m) (mt_insn_hwerr m) (mt_ld_hwerr m)
    (mt_late_st_hwerr m) (mt_trig_breakpoint m) (mt_sp m) (mt_amocas_pass m) (mt_amocas_fail m) (mt_vector m)
    (mt_vector_excp m) (mt_by_vtype m).
Definition metrics_new : metrics := Metrics ∅ 0 0 0 0 0 0 0 0 ∅ ∅ 0 0 ∅.
Definition bump {K} `{Countable K} (k : K) (m : gmap K Z) : gmap K Z := <[k := default 0 (m !! k) + 1]> m.

Record bc := Bc {
  bc_i : bi;
  bc_w : iss_instr;                                    (* w_ *)
  bc_pw : whisper_state_t; bc_ppw : whisper_state_t;
  bc_pd : rv_instr_t;
  bc_step : Z; bc_rvfi_calls : Z; bc_psc_stepping : bool;
  bc_trap_cause : Z; bc_trap_order : Z; bc_vec_cmode : Z;          (* prev_dut_trap_* *)
  bc_priv_debug : bool; bc_dtvec_ebreak : bool; bc_haltreq : bool; bc_excp_in_debug : bool; bc_lrsc_fail : bool;
  bc_twoStage : bool; bc_zicbom : bool;
  bc_satp : Z; bc_new_satp : Z; bc_cbo_inv : Z; bc_mprv : Z; bc_mpp : Z; bc_mpv : Z;
  bc_resynch_csr : bool;
  bc_orders : gmap Z Z; bc_read_by_tag : gmap Z (Z * Z);
  bc_vlzero : bool; bc_insn_recorded : bool;
  bc_check_debug_exit : bool; bc_skip_de : bool; bc_deferred_debug : rv_debug_t;
  bc_misa_h : bool; bc_hyp_csrs : gmap Z Z;            (* hypervisor_masked_csrs_ *)
  bc_vtype : Z; bc_dwords : list Z;                    (* dword_vec_array *)
  bc_msis : list mem_t;                                (* msi_ *)
  bc_snapshot : bool;
  bc_mismatch : string * string * string;
  bc_signals : list Z;                                 (* cbo_inval_nomcm_s sent to the system model *)
  bc_metrics : metrics
}.
#[export] Instance eta_bc : Eta bc := λ b,
  Bc (bc_i b) (bc_w b) (bc_pw b) (bc_ppw b) (bc_pd b) (bc_step b) (bc_rvfi_calls b) (bc_psc_stepping b) (bc_trap_cause b)
     (bc_trap_order b) (bc_vec_cmode b) (bc_priv_debug b) (bc_dtvec_ebreak b) (bc_haltreq b) (bc_excp_in_debug b)
     (bc_lrsc_fail b) (bc_twoStage b) (bc_zicbom b) (bc_satp b) (bc_new_satp b) (bc_cbo_inv b) (bc_mprv b) (bc_mpp b)
     (bc_mpv b) (bc_resynch_csr b) (bc_orders b) (bc_read_by_tag b) (bc_vlzero b) (bc_insn_recorded b)
     (bc_check_debug_exit b) (bc_skip_de b) (bc_deferred_debug b) (bc_misa_h b) (bc_hyp_csrs b) (bc_vtype b) (bc_dwords b)
     (bc_msis b) (bc_snapshot b) (bc_mismatch b) (bc_signals b) (bc_metrics b).

(** The members' initial values; [raw] is a [mem_t] whose fields nothing has
    set. *)
Definition bc_new (raw : mem_t) (raw_mtime : Z) : bc :=
  let w := whisper_state_new 0 0 in
  Bc bi_new iss_instr_new w w (rv_instr_new raw raw_mtime) 1 0 false 0 0 0 false false false false false false false
     0 0 0 0 0 0 false ∅ ∅ false false false false (Rv_debug false false 0 0) true ∅ 0 [0; 0; 0; 0] [] false ("", "", "") [] metrics_new.

Record core_flags := Core_flags {
  cf_whisper_exec : bool; cf_mcm : bool; cf_cosim_period : Z; cf_debugrom : bool; cf_emulate_debug_mode : bool;
  cf_pc_check : bool; cf_priv_check : bool; cf_insn_check : bool; cf_gpr_check : bool; cf_fpr_check : bool; cf_vec_check : bool;
  cf_csr_rd_check : bool; cf_csr_wr_check : bool; cf_memattr_check : bool; cf_flags_check : bool;
  cf_retire_ucode_trap : bool; cf_delay_satp_update : bool; cf_translation_check : bool;
  cf_mip_resynch : bool; cf_mip_resynch_threshold : Z; cf_topei_resynch : bool; cf_topei_claim_threshold : Z;
  cf_hyp_save_restore : bool; cf_fcvt_cracked : bool; cf_scalar_fp64_er : bool; cf_psc_compare_only : bool;
  cf_cosim_resynch_instr : string;
  cf_debug_entry_pc_offset : Z; cf_debug_exit_pc_offset : Z; cf_debug_mem_base_offset : Z; cf_debug_mem_size : Z;
  (* the plusargs [reset] parses *)
  cf_resynch_excp_addr : gmap Z (list (Z * Z)); cf_resynch_excp : list Z; cf_error_excp : list Z; cf_error_instr : list string;
  cf_remap_opcode : option (gmap Z Z); cf_resynch_csr_defaults : list string
}.
#[export] Instance eta_core_flags : Eta core_flags := λ f,
  Core_flags (cf_whisper_exec f) (cf_mcm f) (cf_cosim_period f) (cf_debugrom f) (cf_emulate_debug_mode f) (cf_pc_check f)
    (cf_priv_check f) (cf_insn_check f) (cf_gpr_check f) (cf_fpr_check f) (cf_vec_check f) (cf_csr_rd_check f)
    (cf_csr_wr_check f) (cf_memattr_check f) (cf_flags_check f) (cf_retire_ucode_trap f) (cf_delay_satp_update f)
    (cf_translation_check f) (cf_mip_resynch f) (cf_mip_resynch_threshold f) (cf_topei_resynch f)
    (cf_topei_claim_threshold f) (cf_hyp_save_restore f) (cf_fcvt_cracked f) (cf_scalar_fp64_er f) (cf_psc_compare_only f)
    (cf_cosim_resynch_instr f) (cf_debug_entry_pc_offset f) (cf_debug_exit_pc_offset f) (cf_debug_mem_base_offset f)
    (cf_debug_mem_size f) (cf_resynch_excp_addr f) (cf_resynch_excp f) (cf_error_excp f) (cf_error_instr f)
    (cf_remap_opcode f) (cf_resynch_csr_defaults f).

(** Numbers of CSRs, and of custom causes. *)
Record core_params := Core_params {
  kp_mnstatus : Z; kp_mtval : Z; kp_stval : Z; kp_vstval : Z; kp_mncause : Z; kp_mcause : Z; kp_scause : Z; kp_vscause : Z;
  kp_vtype : Z; kp_mstatus : Z; kp_satp : Z; kp_dpc : Z; kp_fflags : Z; kp_frm : Z; kp_fcsr : Z; kp_misa : Z; kp_mideleg : Z;
  kp_medeleg : Z; kp_tselect : Z; kp_tinfo : Z; kp_mtopei : Z; kp_stopei : Z; kp_vstopei : Z; kp_mtopi : Z; kp_stopi : Z;
  kp_vstopi : Z; kp_sip : Z; kp_hip : Z; kp_vsip : Z; kp_hgeip : Z;
  kp_SINGLE_STEP : Z; kp_DBG_ENTRY : Z; kp_VEC_CMODE : Z; kp_MC2_VEC_CMODE : Z; kp_VLZERO : Z
}.
(** An entry of the CSR table. *)
Record csr_base := Csr_base { cb_name : string; cb_cac_check : bool; cb_alias_of : option Z; cb_reset_val : Z }.

Definition opcode_nop : Z := 0x13.
Definition opcode_ebreak : Z := 0x00100073.
Definition c_dtvec_csr_addr : Z := 0x7DA.

(** The plusargs that are parsed. *)
Record core_plusargs := Core_plusargs {
  pa_resynch_excp_addr : string; pa_resynch_excp : string; pa_error_excp : string; pa_error_instr : string; pa_remap_opcode : string
}.
Definition parse_plusargs (a : core_plusargs) (fl : core_flags) : option core_flags :=
  addr ← parse_pair_map 64 64 (pa_resynch_excp_addr a);
  excp ← parse_uint64s (pa_resynch_excp a);
  error ← parse_uint64s (pa_error_excp a);
  instr ← parse_strings (pa_error_instr a);
  remap ← (if bool_decide (pa_remap_opcode a = "") then Some (cf_remap_opcode fl) else Some <$> parse_map 32 32 (pa_remap_opcode a));
  Some (fl <| cf_resynch_excp_addr := addr |> <| cf_resynch_excp := excp |> <| cf_error_excp := error |>
           <| cf_error_instr := instr |> <| cf_remap_opcode := remap |>).

(** Tables of bridge.h, in the order of their keys. *)
Definition hypervisor_masked_csr_map_ : list Z := [0x10C; 0x244; 0x300; 0x302; 0x303; 0x304; 0x309; 0x30C; 0x344].
Definition hypervisor_mask_map_ (addr : Z) : Z :=
  if addr =? 0x300 then 0x0000000300000000 else if addr =? 0x302 then 0x00000000000F1000
  else if existsb (Z.eqb addr) [0x303; 0x344; 0x304; 0x244] then 0x1444 else 0.

(** ** Computations *)

Record sys (I C : Type) := Sys { y_b : bc; y_i : I; y_c : C; y_k : C }.
Arguments Sys {I C}. Arguments y_b {I C}. Arguments y_i {I C}. Arguments y_c {I C}. Arguments y_k {I C}.
#[export] Instance eta_sys {I C} : Eta (sys I C) := λ y, Sys (y_b y) (y_i y) (y_c y) (y_k y).

Definition B (I C A : Type) : Type := sys I C → option (sys I C * A).
#[export] Instance B_ret {I C} : MRet (B I C) := λ A a y, Some (y, a).
#[export] Instance B_bind {I C} : MBind (B I C) := λ A X k m y, match m y with Some (y, a) => k a y | None => None end.

Section ops.
Context {I C : Type}.
Definition throws {A} : B I C A := λ _, None.
Definition lift {A} (o : option A) : B I C A := λ y, match o with Some a => Some (y, a) | None => None end.
Definition ask {A} (f : bc → A) : B I C A := λ y, Some (y, f (y_b y)).
Definition put (f : bc → bc) : B I C unit := λ y, Some (y <| y_b ::= f |>, tt).
Definition sim {A} (f : I → I * A) : B I C A := λ y, let '(i, a) := f (y_i y) in Some (y <| y_i := i |>, a).
Definition sim_do (f : I → I) : B I C unit := λ y, Some (y <| y_i ::= f |>, tt).
Definition look {A} (f : I → A) : B I C A := λ y, Some (y, f (y_i y)).
Definition cac {A} (f : C → C * A) : B I C A := λ y, let '(c, a) := f (y_c y) in Some (y <| y_c := c |>, a).
Definition csr_cac {A} (f : C → C * A) : B I C A := λ y, let '(c, a) := f (y_k y) in Some (y <| y_k := c |>, a).
(** The interrupt part. *)
Definition intr {A} (m : M I A) : B I C A := λ y,
  let '((b, i), a) := m (bc_i (y_b y), y_i y) in Some (y <| y_b ::= (λ x, x <| bc_i := b |>) |> <| y_i := i |>, a).
Definition doif (b : bool) (m : B I C unit) : B I C unit := if b then m else mret tt.
Definition report : B I C unit := intr error.
Definition report_if (b : bool) : B I C unit := doif b report.
Fixpoint each {A} (f : A → B I C unit) (l : list A) : B I C unit :=
  match l with [] => mret tt | a :: l => f a;; each f l end.
End ops.

Definition is_patch (p : patch_mode) (b : bc) : bool := bool_decide (bi_patch_mode (bc_i b) = p).
Definition debug_mode (b : bc) : bool := bi_debug_mode (bc_i b).
Definition set_debug (v : bool) (b : bc) : bc := b <| bc_i ::= (λ i, i <| bi_debug_mode := v |>) |>.
Definition count_metric (f : metrics → metrics) (b : bc) : bc := b <| bc_metrics ::= f |>.

Definition trap_of (d : rv_instr_t) : trap_info :=
  Trap_info (i_nmi d) (i_ncause d) (i_intr d) (i_icause d) (i_virt_mode d) (i_opcode d).

(** [w_.clear()] *)
Definition clear_w (b : bc) : bc :=
  b <| bc_w ::= (λ w, Iss_instr (wi_priv w) false false false false false (wi_pc w) false (wi_ecause w) []) |>
    <| bc_i ::= (λ i, i <| bi_w ::= (λ w, Trap_info false (ti_ncause w) false (ti_icause w) (ti_virt w) (ti_opcode w)) |>) |>.

Section bridge.
Context {I C J : Type} `{!Iss I} `{!IssExec I} `{!Cac C}.
Variable fl : core_flags.
Variable ifl : intr_flags.
Variable ip : intr_params.
Variable ca : csr_addrs.
Variable kp : core_params.
Variable csr_info : Z → option csr_base.
Variable mmap : list (string * memmap_entry J).
Variable dam : dam_flags.
Variables (sp_base sp_size sep_base sep_end : Z).
Variables hart id_ : Z.
#[local] Notation B := (B I C).

Definition client_check : bool := if_whisper_client_check ifl.

(** [whisperPokeRPC], reported when the answer is not valid. *)
Definition poke_checked (cycle : Z) (res : ascii) (addr value : Z) : B unit :=
  valid ← sim (iss_poke hart cycle (chr res) addr value); report_if (negb valid && client_check).
(** The same where only the call's success counts. *)
Definition poke_any (cycle : Z) (res : ascii) (addr value : Z) : B unit :=
  sim (iss_poke hart cycle (chr res) addr value);; mret tt.

Definition peek_resource (res : ascii) (addr : Z) : B Z :=
  '(v, valid) ← sim (λ i, let '(i, v, ok) := iss_peek hart (chr res) addr i in (i, (v, ok)));
  report_if (negb (Ascii.eqb res "c") && negb valid && client_check);; mret v.
Definition poke_resource (cycle : Z) (res : ascii) (addr value : Z) : B unit :=
  valid ← sim (iss_poke hart cycle (chr res) addr value);
  report_if (negb (Ascii.eqb res "c") && negb valid && client_check).
Definition poke_mem (cycle addr size data : Z) : B unit :=
  valid ← sim (iss_poke_mem hart cycle addr size data); report_if (negb valid && client_check).

(** ** Recording in the checkers *)

Definition set_resource (src : src_t) (rid : resource_id) (v : list Z) : B unit :=
  ok ← cac (cac_set src rid v); report_if (negb ok).

Definition update_pc (src : src_t) (data : Z) : B unit := set_resource src (pc_reg, 0) [data].
Definition update_insn (src : src_t) (data : Z) : B unit := set_resource src (insn_bytes, 0) [data].
Definition update_flags (src : src_t) (data : Z) : B unit := set_resource src (flags, 0) [data].
Definition update_priv (src : src_t) (data : Z) : B unit := set_resource src (priv_mode, 0) [data].
(** Type and cacheability. *)
Definition update_mem_attr (src : src_t) (data offset : Z) : B unit := set_resource src (mem_attr, offset) [data &&& 0x1800].
Definition update_reg (src : src_t) (resource : resource_t) (addr : Z) (v : list Z) : B unit :=
  if bool_decide (src = Dut) && bool_decide (resource = int_reg) && (addr =? 0) then mret tt
  else set_resource src (resource, addr) v.

Definition peek_csr (addr : Z) : B csr_peek := look (iss_csr hart addr).
Definition poke_mask (addr : Z) : B Z := p ← peek_csr addr; mret (cp_poke_mask p).

(** One recording, without the alias. *)
Definition update_csr_one (src : src_t) (addr data mask : Z) (check_en : bool) : B unit :=
  let check := match csr_info (u16 addr) with Some csr => cb_cac_check csr && check_en | None => false end in
  ok ← csr_cac (cac_set_masked src (csr_reg, addr) [data] mask check); report_if (negb ok).
Definition all_ones : Z := 2 ^ 64 - 1.
Definition update_csr (src : src_t) (addr data : Z) (mask : option Z) (check_en : bool) : B unit :=
  update_csr_one src addr data (default all_ones mask) check_en;;
  match csr_info (u16 addr) with
  | Some (Csr_base _ _ (Some alias) _) =>
      p ← peek_csr alias;
      match src with
      | Dut => update_csr_one Dut alias data (match mask with Some m => m &&& cp_poke_mask p | None => cp_poke_mask p end) true
      | IssSide => update_csr_one IssSide alias (cp_value p) (cp_poke_mask p) true
      end
  | _ => mret tt
  end.

Definition get_csr (src : src_t) (addr : Z) : B Z :=
  if ((addr =? ip_mip ip) || (addr =? ip_mvip ip)) && bool_decide (src = IssSide) then
    mip ← intr (peek_mip ip hart);
    mvip ← ask (λ b, bi_mvip (bc_i b));
    mret (if addr =? ip_mvip ip then mvip else mip)
  else
    v ← csr_cac (λ k, (k, cac_get src (csr_reg, addr) k));
    v ← lift v; mret (at_z v 0).
Definition hyp_enabled : B bool := v ← get_csr Dut (kp_misa kp); mret (v &&& 0x80 =? 0x80).

Definition is_hyp_csr (addr : Z) : bool := existsb (Z.eqb addr) hypervisor_csr_map_.

(** [modify_csr_data] and [modify_csr_mask] of BridgeCsr, on the simulator's
    and the design's current values. *)
Definition csr_data (addr data priv : Z) : B Z := look (λ i, modify_csr_data ca (λ a, iss_csr hart a i) addr data priv).
Definition csr_mask (addr data mask : Z) : B Z :=
  hyp ← (if negb (addr =? ca_vl ca) && is_hyp_csr addr then hyp_enabled else mret true);
  hgatp ← (if addr =? ca_hgatp ca then get_csr Dut addr else mret 0);
  dbg ← ask debug_mode;
  look (λ i, modify_csr_mask ca (λ a, iss_csr hart a i) hyp dbg hgatp addr data mask).

(** ** The design's state *)

(** A destination a faulting load does not write. *)
Definition load_fault (b : bc) (d : rv_instr_t) : bool :=
  (i_excp d && (i_ecause d =? LD_ACCESS_FAULT) && m_valid (i_mem_read d)) ||
  (m_error (i_mem_read d) && m_valid (i_mem_read d) && negb (m_valid (i_mem_write d))) ||
  ((i_tag d =? bc_trap_order b) && (bc_trap_cause b =? LD_ACCESS_FAULT)).

(** Little-endian double words of a vector register's 32 bytes. *)
Definition vpr_dwords (bytes : list Z) : list Z := (λ j, pack_chunk (at_z bytes <$> seq (8 * j) 8)) <$> seq 0 4.

Definition in_patching (b : bc) : bool := negb (is_patch NO_PATCH b).

Definition update_dut_gpr (d : rv_instr_t) (g : gpr_t) : B unit :=
  fault ← ask (λ b, load_fault b d);
  if negb (gpr_valid g) || fault then mret tt
  else
    update_reg Dut int_reg (gpr_addr g) [gpr_wdata g];;
    patching ← ask in_patching;
    doif patching (v ← look (iss_gpr id_ (gpr_addr g)); update_reg IssSide int_reg (gpr_addr g) [v]).
Definition update_dut_fpr (g : fpr_t) : B unit :=
  if negb (fpr_valid g) then mret tt
  else
    update_reg Dut fp_reg (fpr_addr g) [fpr_wdata g];;
    patching ← ask in_patching;
    doif patching (v ← look (iss_fpr id_ (fpr_addr g)); update_reg IssSide fp_reg (fpr_addr g) [v]).
Definition update_dut_vr (g : vr_t) : B unit :=
  if negb (vr_valid g) then mret tt
  else
    update_reg Dut vec_reg (vr_addr g) (create_dword_vec (vr_wdata g));;
    patching ← ask in_patching;
    doif patching (v ← look (iss_vpr id_ (vr_addr g)); update_reg IssSide vec_reg (vr_addr g) (vpr_dwords v)).

(** Restoring what clearing misa.H hid, one register. *)
Definition restore_hyp_csr (cycle addr value : Z) : B unit :=
  if addr =? ip_mvip ip then mret tt
  else if addr =? ip_mip ip then
    mvip_value ← get_csr Dut (ip_mvip ip);
    update_csr IssSide addr value (Some all_ones) false;;
    update_csr IssSide (ip_mvip ip) mvip_value (Some all_ones) false;;
    mip_bits ← intr (peek_mip ip hart);
    let new_mip := mip_bits ||| (value &&& hypervisor_mask_map_ (ip_mip ip)) in
    put (λ b, b <| bc_i ::= (λ i, i <| bi_mvip ::= (λ v,
      (v &&& not64 (hypervisor_mask_map_ (ip_mvip ip))) ||| (v &&& hypervisor_mask_map_ (ip_mvip ip))) |>) |>);;
    intr (poke_mip ip hart cycle new_mip);;
    put (λ b, b <| bc_i ::= (λ i, i <| bi_tmp_latest := new_mip |>) |>)
  else
    update_csr IssSide addr value (Some all_ones) false;;
    '(peek_value, _) ← sim (λ i, let '(i, v, ok) := iss_peek hart (chr "c") addr i in (i, (v, ok)));
    let poke_value := (peek_value &&& not64 (hypervisor_mask_map_ addr)) ||| (value &&& hypervisor_mask_map_ addr) in
    poke_any cycle "c" addr poke_value;;
    doif (addr =? kp_medeleg kp) (update_csr Dut (kp_medeleg kp) poke_value (Some 0xF00400) false).

(** [misa.H] set. *)
Definition hyp_on (cycle : Z) : B unit :=
  h ← ask bc_misa_h;
  saved ← ask bc_hyp_csrs;
  doif (negb h && cf_hyp_save_restore fl)
    (each (λ addr, match saved !! addr with Some v => restore_hyp_csr cycle addr v | None => mret tt end)
       hypervisor_masked_csr_map_);;
  put (λ b, b <| bc_misa_h := true |>);;
  update_csr Dut (kp_mideleg kp) 0x1444 (Some 0x1444) false.
(** [misa.H] cleared. *)
Definition save_hyp_csr (addr : Z) : B unit :=
  v ← (if addr =? ip_mip ip then ask (λ b, bi_tmp_latest (bc_i b)) else get_csr Dut addr);
  put (λ b, b <| bc_hyp_csrs ::= <[addr := v]> |>).
Definition hyp_off : B unit :=
  h ← ask bc_misa_h;
  doif (h && cf_hyp_save_restore fl) (each save_hyp_csr hypervisor_masked_csr_map_);;
  put (λ b, b <| bc_misa_h := false |>);;
  update_csr Dut (kp_medeleg kp) 0 (Some 0xF00400) false;;
  update_csr Dut (kp_mideleg kp) 0 (Some 0x1444) false.

(** Parts of the floating-point CSR, and misa. *)
Definition update_dut_csr_parts (cycle : Z) (c : csr_t) (data mask : Z) : B unit :=
  let addr := csr_addr c in
  if addr =? kp_fflags kp then update_csr Dut (kp_fcsr kp) data (Some mask) true
  else if addr =? kp_frm kp then update_csr Dut (kp_fcsr kp) (u64 (data ≪ 5)) (Some (u64 (mask ≪ 5))) false
  else if addr =? kp_fcsr kp then
    update_csr Dut (kp_fflags kp) data (Some (mask &&& 0x1f)) false;;
    update_csr Dut (kp_frm kp) (data ≫ 5) (Some ((mask ≫ 5) &&& 0x7)) false
  else if addr =? kp_misa kp then
    if csr_wmask c &&& 0x80 =? 0 then mret tt
    else if csr_wdata c &&& 0x80 =? 0 then hyp_off else hyp_on cycle
  else mret tt.

Definition update_dut_csr (cycle priv : Z) (c : csr_t) : B unit :=
  let addr := csr_addr c in
  data ← csr_data addr (csr_wdata c) priv;
  mask ← csr_mask addr (csr_wdata c) (csr_wmask c);
  doif (cf_csr_rd_check fl)
    (skip ← (if is_hyp_csr addr then h ← hyp_enabled; mret (negb h) else mret false);
     doif (negb skip) (update_csr Dut addr data (Some mask) true);;
     patching ← ask in_patching;
     doif patching (update_csr IssSide addr data (Some mask) true);;
     update_dut_csr_parts cycle c data mask;;
     doif (existsb (Z.eqb addr) hypervisor_masked_csr_map_)
       (m ← csr_mask addr (csr_wdata c) (csr_wmask c);
        put (λ b, b <| bc_hyp_csrs ::= (λ t,
          let old := default 0 (t !! addr) in
          <[addr := (data &&& m) ||| (old &&& not64 m) ||| (old &&& hypervisor_mask_map_ addr)]> t) |>))).

Definition reg_checked (on : bool) : bool := on && (cf_cosim_period fl =? 0).
Definition update_dut_regs (d : rv_instr_t) : B unit :=
  doif (reg_checked (cf_gpr_check fl)) (each (update_dut_gpr d) (i_gpr d));;
  doif (reg_checked (cf_fpr_check fl)) (each update_dut_fpr (i_fpr d));;
  doif (reg_checked (cf_vec_check fl)) (each update_dut_vr (i_vr d));;
  each (update_dut_csr (i_cycle d) (i_priv d)) (i_csr d).

(** Whole-register vector accesses, as tested. *)
Definition vec_reg_whole_reg (opcode : Z) : bool :=
  (opcode &&& 0x1f00000 =? 0x8) && (opcode &&& 0xc000000 =? 0) && ((opcode &&& 0x3f =? 0x7) || (opcode &&& 0x3f =? 0x27)).

(** The instruction word; the test of vl at the end only warns. *)
Definition update_dut_insn (d : rv_instr_t) : B unit :=
  let opcode := match cf_remap_opcode fl with Some m => default (i_opcode d) (m !! i_opcode d) | None => i_opcode d end in
  vlzero ← ask bc_vlzero;
  recorded ← ask bc_insn_recorded;
  let skip := vlzero && is_vector (i_disasm d) && negb (vec_reg_whole_reg (i_opcode d)) in
  let nop := i_excp d && (i_ecause d =? kp_VLZERO kp) && (i_uop d =? opcode_nop) in
  let skip := if nop then negb recorded else skip in
  put (λ b, b <| bc_vlzero := nop |>);;
  doif (negb skip) (update_insn Dut opcode).

Definition update_attrs (src : src_t) (m : mem_t) : B unit :=
  update_mem_attr src (m_attr m) 0;;
  doif (m_page4kX m) (update_mem_attr src (m_page4kX_attr m) 1).

(** The privilege mode that is recorded replaces the one of [d]. *)
Definition update_dut_state (d : rv_instr_t) : B rv_instr_t :=
  b ← ask id;
  let plain := (is_patch NO_PATCH b || is_patch ENTER_PATCH b) && negb (bc_skip_de b) in
  doif (cf_pc_check fl && plain) (update_pc Dut (pc_rdata (i_pc d)));;
  let d := if cf_priv_check fl && plain && (i_priv d =? DP) then d <| i_priv := DE |> else d in
  doif (cf_priv_check fl && plain) (update_priv Dut (i_priv d));;
  doif (cf_insn_check fl && negb (i_comp d) && negb (i_ucode d) && negb (i_opcode_modified d) &&
        negb (is_vector (i_disasm d)) && negb (is_cracked_csr (i_disasm d)) && negb (is_illegal (i_disasm d)) && plain)
    (update_dut_insn d);;
  doif (cf_flags_check fl && negb (i_flags d =? 0)) (update_flags Dut (i_flags d));;
  doif (negb (bool_decide (i_gpr d = []) && bool_decide (i_fpr d = []) && bool_decide (i_vr d = []) && bool_decide (i_csr d = [])))
    (update_dut_regs d);;
  let attr := cf_memattr_check fl && negb (is_vector (i_disasm d)) && negb (bc_lrsc_fail b) && is_patch NO_PATCH b in
  doif (attr && m_valid (i_mem_read d)) (update_attrs Dut (i_mem_read d));;
  doif (attr && m_valid (i_mem_write d)) (update_attrs Dut (i_mem_write d));;
  mret d.

(** ** The simulator's state *)

(** [pmpaddr] of a locked entry is not recorded. *)
Definition pmp_locked (addr : Z) (i : I) : bool :=
  let n := addr - ca_pmpaddr0 ca in
  Z.testbit (cp_value (iss_csr hart (ca_pmpcfg0 ca + pmp_cfg_reg n) i)) (pmp_cfg_index n + 7).

(** [update_regs(hart, w, i)] for the change in [w]. *)
Definition update_iss_reg (w : whisper_state_t) (slice : Z) : B unit :=
  let addr := ws_address w in
  if ws_resource w =? chr "r" then doif (reg_checked (cf_gpr_check fl)) (update_reg IssSide int_reg addr [ws_value w])
  else if ws_resource w =? chr "f" then doif (reg_checked (cf_fpr_check fl)) (update_reg IssSide fp_reg addr [ws_value w])
  else if ws_resource w =? chr "v" then
    doif (reg_checked (cf_vec_check fl))
      (let k := slice mod 4 in
       put (λ b, b <| bc_dwords ::= <[Z.to_nat k := ws_value w]> |>);;
       doif (k =? 3) (v ← ask bc_dwords; update_reg IssSide vec_reg addr v))
  else if ws_resource w =? chr "c" then
    doif (cf_csr_rd_check fl)
      (locked ← look (pmp_locked addr);
       doif (negb (is_pmpaddr ca addr && locked)) (update_csr IssSide (addr &&& 0xfff) (ws_value w) None true))
  else mret tt.

(** A change of the simulator goes to [w_] and to the checker. *)
Definition note_change_w (w : whisper_state_t) (b : bc) : bc :=
  if ws_resource w =? chr "c" then
    let c := Csr true 0 0 (ws_address w &&& 0xfff) 0 (ws_value w) in
    let b := b <| bc_w ::= (λ x, x <| wi_csr ::= (λ l, l ++ [c]) |>) |> in
    if csr_addr c =? kp_vtype kp then b <| bc_vtype := ws_value w |> else b
  else if ws_resource w =? chr "m" then
    let b := b <| bc_w ::= (λ x, x <| wi_store := true |>) |> in
    if (ws_address w <? u64 (sp_base + sp_size)) && (sp_base <=? ws_address w)
    then count_metric (λ m, m <| mt_sp ::= Z.succ |>) b else b
  else b.
Fixpoint take_changes (n : nat) (i : Z) (w : whisper_state_t) : B whisper_state_t :=
  match n with
  | O => mret w
  | S n =>
      '(r, a, v) ← sim (iss_change hart);
      let w := w <| ws_resource := r |> <| ws_address := a |> <| ws_value := v |> in
      update_iss_reg w i;;
      put (note_change_w w);;
      take_changes n (i + 1) w
  end.

(** The trap of [w_] from its CSR changes: cause of an NMI, other cause and
    whether it is in vscause. *)
Record trap_causes := Trap_causes { tc_valid : bool; tc_ncause : Z; tc_cause : Z; tc_virt : bool }.
Definition note_cause (priv : Z) (t : trap_causes) (c : csr_t) : trap_causes :=
  let t := if csr_addr c =? kp_mncause kp then Trap_causes true (csr_wdata c) (tc_cause t) (tc_virt t) else t in
  let virt := csr_addr c =? kp_vscause kp in
  if (csr_addr c =? kp_mcause kp) || (csr_addr c =? kp_scause kp) || (((priv =? VU) || (priv =? VS)) && virt)
  then Trap_causes true (tc_ncause t) (csr_wdata c) virt else t.
Definition note_trap (priv : Z) (b : bc) : bc :=
  let t := foldl (note_cause priv) (Trap_causes false 0 0 false) (wi_csr (bc_w b)) in
  if negb (tc_valid t) then b
  else
    let set f := b <| bc_i ::= (λ i, i <| bi_w ::= f |>) |> in
    if Z.testbit (tc_ncause t) 63 then set (λ w, Trap_info true (tc_ncause t &&& 3) (ti_intr w) (ti_icause w) false (ti_opcode w))
    else if Z.testbit (tc_cause t) 63
    then set (λ w, Trap_info (ti_nmi w) (ti_ncause w) true (tc_cause t &&& 0x3f) (tc_virt t) (ti_opcode w))
    else set (λ w, Trap_info (ti_nmi w) (ti_ncause w) (ti_intr w) (ti_icause w) false (ti_opcode w))
           <| bc_w ::= (λ w, w <| wi_excp := true |> <| wi_ecause := tc_cause t &&& 0xff |>) |>.

Definition amocas_widths_ : list string := ["w"; "d"; "q"].
Definition count_amocas (w : whisper_state_t) (b : bc) : bc :=
  foldl (λ b width,
    if contains ("amocas." +:+ width) (ws_disasm w) then
      count_metric (λ m, if wi_store (bc_w b) then m <| mt_amocas_pass ::= bump width |> else m <| mt_amocas_fail ::= bump width |>) b
    else b) b amocas_widths_.
Definition count_vector (w : whisper_state_t) (b : bc) : bc :=
  if is_vector (ws_disasm w) && negb (is_vset (ws_disasm w)) then
    if wi_trap (bc_w b) then count_metric (λ m, m <| mt_vector ::= Z.succ |> <| mt_vector_excp ::= Z.succ |>) b
    else if negb (ws_is_cancelled w)
    then count_metric (λ m, m <| mt_vector ::= Z.succ |> <| mt_by_vtype ::= bump (vtype_str (bc_vtype b)) |>) b
    else b
  else b.

(** [w_] from the step. *)
Definition fill_w (w : whisper_state_t) (b : bc) : bc :=
  b <| bc_w ::= (λ x, x <| wi_priv := ws_priv_mode w |> <| wi_trap := ws_trap w |> <| wi_comp := is_compressed (ws_disasm w) |>
                        <| wi_ucode := is_ucode (cf_fcvt_cracked fl) (cf_scalar_fp64_er fl) (ws_disasm w) || ws_trap w |>
                        <| wi_load := ws_is_load w |> <| wi_pc := ws_pc w |>) |>
    <| bc_i ::= (λ i, i <| bi_w ::= (λ t, Trap_info (ti_nmi t) (ti_ncause t) (ti_intr t) (ti_icause t) (ti_virt t) (ws_opcode w)) |>) |>.
Definition is_zicbom (opcode : Z) : bool := (opcode &&& 0x7fff =? 0x200f) && ((opcode ≫ 20) &&& 0xfff <=? 2).

(** What [d] tells about the simulator's record. *)
Record dut_hints := Dut_hints { dh_comp : bool; dh_page4kX : bool; dh_modified : bool; dh_pa : option Z }.
Definition hints_of (d : rv_instr_t) : dut_hints :=
  Dut_hints (i_comp d) (m_page4kX (i_mem_read d)) (i_opcode_modified d)
    (if m_valid (i_mem_write d) then Some (m_pa (i_mem_write d))
     else if m_valid (i_mem_read d) then Some (m_pa (i_mem_read d)) else None).

Definition record_iss_insn (w : whisper_state_t) (h : dut_hints) (b : bc) : bool :=
  cf_insn_check fl && negb (wi_comp (bc_w b) || dh_comp h) && negb (wi_ucode (bc_w b)) && negb (is_vector (ws_disasm w)) &&
  negb (is_cracked_amocas (ws_disasm w)) && negb (is_cracked_csr (ws_disasm w)) && negb (is_illegal (ws_disasm w)) &&
  negb (dh_modified h) && is_patch NO_PATCH b.

Definition update_whisper_state (w : whisper_state_t) (h : dut_hints) : B whisper_state_t :=
  put (fill_w w);;
  put (λ b, b <| bc_zicbom := is_zicbom (ws_opcode w) |>);;
  doif (is_zicbom (ws_opcode w) && negb (cf_mcm fl) && (ws_opcode w ≫ 20 =? 0))
    match dh_pa h with
    | Some pa => put (λ b, b <| bc_signals ::= (λ l, l ++ [pa]) |>)
    | None => report
    end;;
  doif (cf_pc_check fl) (update_pc IssSide (ws_pc w));;
  doif (cf_priv_check fl) (update_priv IssSide (ws_priv_mode w));;
  rec ← ask (record_iss_insn w h);
  put (λ b, b <| bc_insn_recorded := rec |>);;
  doif rec (update_insn IssSide (ws_opcode w));;
  doif (cf_flags_check fl && negb (ws_fp_flags w =? 0)) (update_flags IssSide (ws_fp_flags w));;
  w ← take_changes (Z.to_nat (ws_change_count w)) 0 w;
  put (λ b, if negb (wi_trap (bc_w b)) && negb (ws_is_cancelled w) && is_cracked_amocas (ws_disasm w) then count_amocas w b else b);;
  put (count_vector w);;
  b ← ask id;
  let attr := cf_memattr_check fl && negb (wi_trap (bc_w b) || ws_is_cancelled w) && negb (is_vector (ws_disasm w)) &&
              negb (is_cracked_amocas (ws_disasm w)) && (wi_load (bc_w b) || wi_store (bc_w b) || bc_zicbom b) &&
              is_patch NO_PATCH b in
  '(first, second, valid) ← look (iss_eff_attr hart);
  if attr && negb valid && client_check then report;; mret w
  else
    doif attr (update_mem_attr IssSide (u32 first) 0;; doif (dh_page4kX h) (update_mem_attr IssSide (u32 second) 1));;
    doif (wi_trap (bc_w b)) (put (note_trap (ws_priv_mode w)));;
    mret w.

(** ** Stepping *)

Definition bytes_string (bs : list Z) : string := foldr (λ b s, String (ascii_of_N (Z.to_N b)) s) EmptyString bs.
Definition stepped (r : step_result) (w : whisper_state_t) : whisper_state_t :=
  w <| ws_pc := st_pc r |> <| ws_opcode := st_instruction r |> <| ws_change_count := st_changeCount r |>
    <| ws_disasm := bytes_string (st_disasm r) |> <| ws_priv_mode := st_privMode r |> <| ws_fp_flags := st_fpFlags r |>
    <| ws_trap := st_hasTrap r |> <| ws_stop := st_hasStop r |> <| ws_is_load := st_isLoad r |>
    <| ws_is_cancelled := st_isCancelled r |>.

(** An exception other than the request of a snapshot leaves the function. *)
Definition step (w : whisper_state_t) : B whisper_state_t :=
  o ← sim (iss_step hart (ws_time w) (ws_tag w));
  match o with
  | Stepped r valid => report_if (negb valid && client_check);; mret (stepped r w)
  | SnapshotTaken =>
      taken ← ask bc_snapshot;
      doif (negb taken) (ok ← sim iss_snapshot_save; report_if (negb ok));;
      put (λ b, b <| bc_snapshot := true |>);;
      mret (w <| ws_stop := false |> <| ws_trap := false |> <| ws_force_resynch := true |>)
  | StepThrows => throws
  end.

(** Effective privilege of loads and stores. *)
Definition arch_state (w : whisper_state_t) (b : bc) : bc :=
  if (ws_resource w =? chr "c") && (ws_address w =? kp_mstatus kp) then
    if negb (ws_value w &&& 0x20000 =? 0)
    then b <| bc_mprv := 1 |> <| bc_mpp := (ws_value w &&& 0x1800) ≫ 11 |> <| bc_mpv := (ws_value w &&& 0x8000000000) ≫ 39 |>
    else b <| bc_mprv := 0 |>
  else b.

(** ** Debug mode *)

(** The default debug ROM, last word first. *)
Definition debugROM : list Z :=
  [0x7b2000737b202473; 0x7b30257310852823; 0xf1402473a41ff06f; 0x7b2024737b302573; 0x10052423f9dff06f;
   0x7b04307304046413; 0x000474337b042073; 0x1804641300047433; 0x001000737b202473; 0x7b30257310052c23;
   0x00c5151300c55513; 0x00000517fd5ff06f; 0xf8041ee300247413; 0x4004440300a40433; 0xf140247304041a63;
   0x0014741340044403; 0x00a4043310852023; 0xf140247304041863; 0x0044741340044403; 0x00a40433f1402473;
   0x00c5151300c55513; 0x000005177b351073; 0x7b2410730ff0000f; 0x000000130640006f; 0x000000130b40006f; 0x000000130180006f].
Definition debug_entry_pc : Z := dm_addr dam (cf_debug_entry_pc_offset fl).
Definition debug_exit_addr : Z := dm_addr dam (cf_debug_exit_pc_offset fl).

Definition bridge_enter_debug (g : rv_debug_t) : B unit :=
  dbg ← ask debug_mode;
  doif (negb dbg && db_enter g) (sim_do (iss_enter_debug (db_hart g)));;
  put (set_debug true);;
  doif (negb (cf_debugrom fl))
    (each (λ '(k, word), valid ← sim (iss_poke_mem (db_hart g) 0 (u64 (debug_entry_pc + Z.of_nat k * 8)) 8 word);
                         report_if (negb valid && client_check))
       (imap pair (reverse debugROM))).
Definition bridge_exit_debug (g : rv_debug_t) : B unit :=
  intr (defer_interrupt ifl ip (db_hart g) (db_cycle g) 0);;
  intr (defer_nmi ifl ip (db_hart g) (db_cycle g) 0);;
  put (set_debug false).

Definition is_priv_debug (priv : Z) : bool := (priv =? PRIV_DEBUG_ROM) || (priv =? PRIV_DEBUG_PROGBUF).
Definition debug_entry (d : rv_instr_t) : rv_debug_t := Rv_debug true false (i_cycle d) (i_hart d).

Definition pre_step_debug_entry (d : rv_instr_t) : B unit :=
  if negb (cf_debugrom fl) || negb (i_excp d && (i_ecause d =? kp_DBG_ENTRY kp)) then mret tt
  else
    bridge_enter_debug (debug_entry d);;
    each (λ c, doif (csr_valid c && ((csr_addr c =? kp_dpc kp) || (csr_addr c =? ca_dcsr ca)))
                 (poke_resource (i_cycle d) "c" (csr_addr c) (csr_wdata c))) (i_csr d).

Definition pre_step_debug_exit (d : rv_instr_t) : B unit :=
  dbg ← ask debug_mode;
  doif (cf_debugrom fl && dbg && negb (is_priv_debug (i_priv d)))
    (sim_do (iss_exit_debug hart);; bridge_exit_debug (Rv_debug false true (i_cycle d) (i_hart d))).

Definition clears_dtvec (d : rv_instr_t) (c : csr_t) : bool :=
  i_valid d && i_ucode d && csr_valid c && (csr_addr c =? c_dtvec_csr_addr) && (csr_wdata c &&& 0x10 =? 0).
Definition check_debug_mode_entry_via_ebreak (d : rv_instr_t) (b : bc) : bc :=
  let hit := existsb (clears_dtvec d) (i_csr d) in
  let b := b <| bc_dtvec_ebreak := hit |> in
  if hit && negb (debug_mode b) then set_debug (negb (i_excp d) && negb (i_priv d =? PRIV_DEBUG_ROM)) b else b.

(** The instruction the simulator is made to execute in debug mode. *)
Definition debug_opcode (dtvec : bool) (d : rv_instr_t) : Z :=
  if pc_rdata (i_pc d) =? debug_exit_addr then opcode_nop
  else if (i_excp d && (i_ecause d =? 3)) || dtvec then opcode_ebreak
  else if i_excp d then 0 else i_opcode d.
Definition pre_step_debug_poke (d : rv_instr_t) : B unit :=
  dtvec ← ask bc_dtvec_ebreak; poke_mem 0 (pc_rdata (i_pc d)) 4 (debug_opcode dtvec d).

(** A compressed instruction the simulator executed as four bytes. *)
Definition post_step_debug_poke (d : rv_instr_t) : B unit :=
  comp ← ask (λ b, wi_comp (bc_w b));
  doif (i_comp d && negb comp) (pc ← look (iss_pc hart); poke_checked (i_cycle d) "p" 0 (u64 (pc - 2))).

(** ** Before the step *)

Definition skip_mcm_read_data_check_for_fault (tag addr size : Z) : B unit :=
  reads ← ask bc_read_by_tag;
  let '(addr, size) := default (addr, size) (reads !! tag) in
  doif (cf_mcm fl && negb (addr =? 0) && negb (size =? 0)) (sim_do (iss_skip_read_check addr size)).

Definition load_bus_error (d : rv_instr_t) : bool :=
  m_error (i_mem_read d) && m_valid (i_mem_read d) && negb (m_valid (i_mem_write d)).
Definition pending_load_fault (b : bc) (d : rv_instr_t) : bool :=
  (i_tag d =? bc_trap_order b) && (bc_trap_cause b =? LD_ACCESS_FAULT).
Definition injected_cause (b : bc) (d : rv_instr_t) : Z :=
  if load_bus_error d || pending_load_fault b d then LD_ACCESS_FAULT else i_ecause d.
Definition should_inject (b : bc) (d : rv_instr_t) : bool :=
  find_range (cf_resynch_excp_addr fl) (injected_cause b d) (i_trap_addr d) ||
  find_in (cf_resynch_excp fl) (injected_cause b d) || pc_error (i_pc d) || m_error (i_mem_read d) || pending_load_fault b d.
(** The address for xtval. *)
Definition xtval_addr (d : rv_instr_t) : Z :=
  let v := match List.find (λ c, (csr_addr c =? kp_mtval kp) || (csr_addr c =? kp_stval kp) || (csr_addr c =? kp_vstval kp)) (i_csr d) with
           | Some c => csr_wdata c | None => 0 end in
  if negb (v =? 0) then v else if negb (i_trap_addr d =? 0) then i_trap_addr d
  else if m_valid (i_mem_read d) then m_va (i_mem_read d) else 0.
Definition count_injected (ecause : Z) (pending : bool) (d : rv_instr_t) (m : metrics) : metrics :=
  let inc (b : bool) (x : Z) := if b then x + 1 else x in
  let rd := i_mem_read d in let wr := i_mem_write d in
  m <| mt_insn_err ::= inc (pc_error (i_pc d) && (ecause =? INSN_ACCESS_FAULT)) |>
    <| mt_ld_err ::= inc ((m_error rd || pending) && (ecause =? LD_ACCESS_FAULT)) |>
    <| mt_late_st_err ::= inc (m_error rd && (i_ecause d =? ST_AMO_ACCESS_FAULT)) |>
    <| mt_insn_hwerr ::= inc (pc_error (i_pc d) && (i_ecause d =? HARDWARE_ERROR)) |>
    <| mt_ld_hwerr ::= inc (load_bus_error d && (i_ecause d =? HARDWARE_ERROR)) |>
    <| mt_late_st_hwerr ::= inc (m_error wr && m_valid wr && (i_ecause d =? HARDWARE_ERROR)) |>.

Definition pre_step_exception_poke (d : rv_instr_t) : B unit :=
  b ← ask id;
  let pending := pending_load_fault b d in
  if negb (i_excp d) && negb (load_bus_error d) && negb (pc_error (i_pc d)) && negb pending then mret tt
  else if negb (should_inject b d) then mret tt
  else
    doif (load_bus_error d || pending) (skip_mcm_read_data_check_for_fault (i_tag d) (m_pa (i_mem_read d)) (m_size (i_mem_read d)));;
    let ecause := injected_cause b d in
    let is_load := m_valid (i_mem_read d) || negb (i_trap_opcode d =? 0) || load_bus_error d || pending in
    valid ← sim (iss_inject hart is_load ecause (xtval_addr d));
    report_if (negb valid && client_check);;
    put (count_metric (count_injected ecause pending d)).

Definition pre_step_lrsc_poke (d : rv_instr_t) : B unit :=
  doif (contains_any ["sc.w"; "sc.d"] (i_disasm d) && (m_data (i_mem_read d) =? 1))
    (put (λ b, b <| bc_lrsc_fail := true |>);;
     valid ← sim (iss_cancel_lr hart); report_if (negb valid && client_check)).

(** The checks of BridgeIntr; mnstatus is read only if it matters. *)
Definition core_nmi_check (d : rv_instr_t) (w : whisper_state_t) : B unit :=
  b ← ask id;
  let t := trap_of d in
  nmie ← (if negb (ti_nmi t) && negb (bi_nmip (bc_i b) =? 0) && negb (debug_mode b) && negb (is_patch IN_PATCH b)
          then v ← get_csr Dut (kp_mnstatus kp); mret (Z.testbit v 3) else mret false);
  intr (pre_step_nmi_check ifl ip hart (i_cycle d) t nmie (ws_opcode w)).
Definition core_interrupt_process (d : rv_instr_t) : B unit :=
  intr (pre_step_interrupt_process ifl ip hart (i_cycle d) (trap_of d)).

(** ** Translation *)

Inductive memclass_t := MRead | MWrite | MFetch.
Definition translate (va priv : Z) (c : memclass_t) : B Z :=
  if priv =? M_mode then mret va
  else
    two ← ask bc_twoStage;
    let only k := match c, k with MRead, MRead | MWrite, MWrite | MFetch, MFetch => true | _, _ => false end in
    '(pa, valid) ← look (iss_translate hart va (only MRead) (only MWrite) (only MFetch) two ((priv =? HS) && negb two));
    if negb valid && client_check then report;; mret (2 ^ 64 - 1) else mret (if valid then pa else va).

(** Sign extension from bit 56. *)
Definition canonical (va : Z) : Z :=
  let low := va &&& ((1 ≪ 57) - 1) in if Z.testbit va 56 then low ||| u64 (all_ones ≪ 57) else low.
(** Hypervisor loads and stores. *)
Definition is_hyp_access (opcode : Z) : bool :=
  (opcode &&& 0x7f =? 0x73) && (opcode &&& 0xf0000000 =? 0x60000000) && (opcode &&& 0x7000 =? 0x4000).
Definition two_stage (w : whisper_state_t) (b : bc) : bool :=
  (ws_priv_mode w =? VU) || is_hyp_access (ws_opcode w) || ((bc_mprv b =? 1) && (bc_mpv b =? 1)) || bc_twoStage b.

(** [None] when the width of elements is reserved. *)
Definition disable_pa_check_vec (i : I) : option bool :=
  let value addr := let p := iss_csr hart addr i in cp_value p &&& cp_mask p in
  if client_check then vlmax ← vlmax_of (value (kp_vtype kp)); Some (value (ca_vl ca) <? vlmax) else Some false.

Definition translation_check (d : rv_instr_t) (w : whisper_state_t) : B unit :=
  if negb (cf_translation_check fl) || (i_mem_va d =? 0) then mret tt
  else
    put (λ b, b <| bc_twoStage := two_stage w b |>);;
    b ← ask id;
    pa ← translate (canonical (i_mem_va d))
           (if (bc_mprv b =? 1) && (ws_priv_mode w =? 3) then bc_mpp b else ws_priv_mode w) MRead;
    if pa =? i_mem_pa d then mret tt
    else
      off ← (if is_vector (i_disasm d) then o ← look disable_pa_check_vec; lift o else mret false);
      report_if (negb off).

(** ** Bringing the simulator back in line *)

Definition resynch_intr_csr (addr : Z) : bool :=
  existsb (Z.eqb addr) [ip_mip ip; kp_sip kp; kp_hip kp; kp_vsip kp; kp_hgeip kp; kp_mtopi kp; kp_vstopi kp; kp_stopi kp].
Definition is_topei (addr : Z) : bool := (addr =? kp_stopei kp) || (addr =? kp_vstopei kp) || (addr =? kp_mtopei kp).

(** Claim until the design's value is read, at most [n] times. *)
Fixpoint topei_claim (n : nat) (cycle addr target data : Z) : B unit :=
  match n with
  | O => mret tt
  | S n =>
      if data =? target then mret tt
      else v ← peek_resource "c" addr; poke_resource cycle "c" addr v;; topei_claim n cycle addr target v
  end.
Definition topei_resynch (d : rv_instr_t) (c : csr_t) : B unit :=
  match i_gpr d with
  | g :: _ => topei_claim (Z.to_nat (cf_topei_claim_threshold fl)) (i_cycle d) (csr_addr c) (gpr_wdata g) 0
  | [] => mret tt
  end;;
  msis ← ask bc_msis;
  each (λ m, poke_mem (i_cycle d) (m_pa m) (m_size m) (m_data m);;
             intr (process_imsic_msi ifl ip hart (m_cycle m) (m_pa m) (m_data m) (m_intr_during_ucode m))) msis.

(** A store, in two parts if it crosses a page; the first part is then less
    than 8 bytes, so shifts are below 64. *)
Definition low_bytes (n : Z) (v : Z) : Z := v &&& ((1 ≪ (n * 8)) - 1).
Definition resynch_store (d : rv_instr_t) : B unit :=
  let m := i_mem_write d in
  priv ← ask (λ b, wi_priv (bc_w b));
  pa ← translate (m_va m) priv MWrite;
  plain ← ask (is_patch NO_PATCH);
  if cf_memattr_check fl && m_page4kX m && negb (is_vector (i_disasm d)) && plain then
    let first := Z.min (0x1000 - (pa &&& 0xfff)) (m_size m) in
    let second := m_size m - first in
    poke_mem (i_cycle d) pa first (low_bytes first (m_data m));;
    doif (0 <? second)
      (poke_mem (i_cycle d) (u64 ((pa &&& not64 0xfff) + 0x1000)) second (low_bytes second (m_data m ≫ (first * 8))))
  else poke_mem (i_cycle d) pa (m_size m) (m_data m).

Definition resynch_csr (d : rv_instr_t) (c : csr_t) : B unit :=
  if negb (csr_valid c) then mret tt
  else
    put (λ b, b <| bc_resynch_csr := true |>);;
    if is_topei (csr_addr c) then topei_resynch d c
    else
      get_csr Dut (csr_addr c);;
      skip ← (if is_hyp_csr (csr_addr c) then h ← hyp_enabled; mret (negb h) else mret false);
      if skip || resynch_intr_csr (csr_addr c) then mret tt
      else v ← get_csr Dut (csr_addr c); poke_any (i_cycle d) "c" (csr_addr c) v.

(** The pokes stop at the first one that is refused. *)
Definition poke_stops (cycle : Z) (res : ascii) (addr value : Z) : B bool :=
  valid ← sim (iss_poke hart cycle (chr res) addr value);
  if negb valid && client_check then report;; mret false else mret true.
Fixpoint each_while {A} (f : A → B bool) (l : list A) : B bool :=
  match l with [] => mret true | a :: l => ok ← f a; if (ok : bool) then each_while f l else mret false end.
Definition resynch_pc (d : rv_instr_t) : B bool :=
  b ← ask id;
  if negb (pc_rdata (i_pc d) =? wi_pc (bc_w b)) && negb (is_patch EXIT_PATCH b)
  then poke_stops (i_cycle d) "p" 0 (pc_rdata (i_pc d)) else mret true.
Definition resynch (d : rv_instr_t) : B unit :=
  ok ← resynch_pc d;
  if negb ok then mret tt
  else
    ok ← each_while (λ g, if gpr_valid g then poke_stops (i_cycle d) "r" (gpr_addr g) (gpr_wdata g) else mret true) (i_gpr d);
    if negb ok then mret tt
    else
      ok ← each_while (λ g, if fpr_valid g then poke_stops (i_cycle d) "f" (fpr_addr g) (fpr_wdata g) else mret true) (i_fpr d);
      if negb ok then mret tt
      else
        doif (m_valid (i_mem_write d)) (resynch_store d);;
        each (resynch_csr d) (i_csr d).

(** ** Differences the simulator cannot foresee *)

(** Every bit of [diff] changed at most [threshold] retirements ago. *)
Fixpoint recent_bits (n : nat) (bit diff : Z) (ages : gmap Z Z) (threshold : Z) : bool :=
  match n with
  | O => true
  | S n =>
      if diff <=? 0 then true
      else
        (negb (Z.odd diff) || match ages !! bit with Some a => a <=? threshold | None => false end) &&
        recent_bits n (bit + 1) (diff ≫ 1) ages threshold
  end.
Definition is_match (diff : Z) (ages : gmap Z Z) (threshold : Z) : bool := recent_bits 64 0 diff ages threshold.
Definition is_match_for_xtopi (index : Z) (ages : gmap Z Z) (threshold : Z) : bool :=
  match ages !! u32 index with Some a => a <=? threshold | None => true end.

(** Values of an interrupt CSR that differ by recent changes only. *)
Definition intr_values_match (cac_val dut_val iss_val addr priv : Z) (s : bi) : bool :=
  let thr := u32 (cf_mip_resynch_threshold fl) in
  let shift v := if (addr =? kp_vsip kp) || ((priv =? VS) && (addr =? kp_sip kp)) then u64 (v ≪ 1) else v in
  let dut_diff := shift (dut_val &&& not64 iss_val) in
  let iss_diff := shift (iss_val &&& not64 dut_val) in
  let xtopi := (addr =? kp_mtopi kp) || (addr =? kp_vstopi kp) || (addr =? kp_stopi kp) in
  (iss_val =? cac_val) ||
  (xtopi && is_match_for_xtopi (dut_val ≫ 16) (bi_whisper_mip_clr_age s) thr &&
   is_match_for_xtopi (iss_val ≫ 16) (bi_whisper_mip_age s) thr) ||
  (xtopi && is_match_for_xtopi (dut_val ≫ 16) (bi_dut_mip_clr_age s) thr &&
   is_match_for_xtopi (iss_val ≫ 16) (bi_dut_mip_age s) thr) ||
  (is_match dut_diff (bi_whisper_mip_clr_age s) thr && is_match iss_diff (bi_whisper_mip_age s) thr) ||
  (is_match dut_diff (bi_dut_mip_clr_age s) thr && is_match iss_diff (bi_dut_mip_age s) thr).

Definition intr_csrs_mismatch (dut iss : string) (d : rv_instr_t) : B bool :=
  match is_csr_opcode (i_opcode d) with
  | None => mret false
  | Some addr =>
      recent ←
        (if cf_mip_resynch fl && resynch_intr_csr addr && negb (bool_decide (dut = "")) && negb (bool_decide (iss = "")) then
           dut_val ← lift (stoull 16 dut);
           iss_val ← lift (stoull 16 iss);
           cac_val ← get_csr Dut addr;
           ask (λ b, intr_values_match cac_val dut_val iss_val addr (i_priv d) (bc_i b))
         else mret false);
      if (recent : bool) then mret true
      else
        ask (λ b, cf_topei_resynch fl && (is_topei addr || (addr =? kp_hgeip kp)) &&
                  ((bi_e_mip_age (bc_i b) <? cf_mip_resynch_threshold fl) || negb (bool_decide (bc_msis b = []))))
  end.

Definition listed_instr (instr : string) : bool :=
  negb (bool_decide (cf_cosim_resynch_instr fl = "")) &&
  existsb (λ s, contains s instr && negb (bool_decide (s = ""))) (getline_while_good "," (cf_cosim_resynch_instr fl)).
Definition resynch_on_instr (instr dut iss : string) (d : rv_instr_t) : B bool :=
  if hpm_counter_read instr then mret true
  else
    m ← intr_csrs_mismatch dut iss d;
    if (m : bool) then mret true
    else if contains "seed" instr then mret true
    else u ← lift (unsupported_csr_access instr); mret (u || listed_instr instr).

Definition resynch_pa (b : bc) (pa : Z) : bool :=
  resynch_on_pa mmap dam (cf_debug_mem_base_offset fl) (cf_debug_mem_size fl) sep_base sep_end (debug_mode b) (bc_cbo_inv b) pa.

Definition debugrom_csr (b : bc) (instr : string) (d : rv_instr_t) : bool :=
  cf_debugrom fl &&
  ((debug_mode b && match is_csr_opcode (i_opcode d) with
                    | Some a => (kp_tselect kp <=? a) && (a <=? kp_tinfo kp) | None => false end) ||
   bool_decide (instr = "csr:minstret") || bool_decide (instr = "csr:minstreth")).

Definition resynch_needed (instr dut iss : string) (d : rv_instr_t) (w : whisper_state_t) : B bool :=
  b ← ask id;
  if m_valid (i_mem_read d) && resynch_pa b (m_pa (i_mem_read d)) then mret true
  else
    r ← resynch_on_instr instr dut iss d;
    mret ((r && negb (bool_decide (instr = "illegal"))) || (i_intr d && (i_icause d =? 0)) ||
          (negb (cf_debugrom fl) && (pc_rdata (i_pc d) =? debug_exit_addr)) ||
          (ws_is_cancelled w && negb (i_excp d) && negb (i_intr d) && negb (is_patch EXIT_PATCH b)) ||
          ws_force_resynch w || debugrom_csr b instr d).

(** A load at the end of the patch routine. *)
Definition resynch_whisper_on_patch (d : rv_instr_t) (w : whisper_state_t) : B unit :=
  pa ← look (iss_last_ldst hart);
  b ← ask id;
  if ws_is_load w && resynch_pa b pa then
    let rd := (ws_opcode w &&& 0xf80) ≫ 7 in
    v ← cac (λ c, (c, cac_get Dut (int_reg, rd) c));
    report_if (negb (bool_decide (is_Some v)));;
    v ← lift (default [] v !! 0%nat);
    poke_checked (i_cycle d) "r" rd v
  else mret tt.

(** ** The comparison *)

Inductive verdict := Agreed | Resynched | PatchResynched | Mismatch.
(** The mnemonic, or the name of the CSR. *)
Definition instr_name (disasm : string) : string :=
  let instr := get_nth_word disasm 1 in
  if String.prefix "csr" instr then "csr:" +:+ get_nth_word disasm 3 else instr.
Definition cac_reset : B unit := cac (λ c, (cac_reset_status c, tt)).

(** In periodic mode reads of devices can differ without being compared. *)
Definition resynch_periodic (instr dut iss : string) (d : rv_instr_t) (w : whisper_state_t) : B rv_instr_t :=
  if cf_cosim_period fl =? 0 then mret d
  else
    let instr' := if String.prefix "csr" instr then "csr:" +:+ get_nth_word (ws_disasm w) 3 else instr in
    need ← resynch_needed instr' dut iss d w;
    if need && negb (String.prefix "amo" instr) then
      u ← lift (unsupported_csr_access instr');
      let d := if (u : bool) then d else d <| i_csr ::= fmap (λ c, Csr false (csr_hart c) (csr_cycle c) (csr_addr c) (csr_wmask c) (csr_wdata c)) |> in
      resynch d;; cac_reset;; mret d
    else mret d.

(** With the verdict, which the source only acts on. *)
Definition compare_dut_whisper_state (w : whisper_state_t) (d : rv_instr_t) : B (verdict * rv_instr_t) :=
  cac (λ c, (cac_step c, tt));;
  '(resource, dut, iss) ← cac (λ c, (c, cac_strings c));
  let instr := instr_name (ws_disasm w) in
  agreed ← cac (λ c, (c, cac_status c));
  if (agreed : bool) then d ← resynch_periodic instr dut iss d w; mret (Agreed, d)
  else
    cac_reset;;
    if if_cosim_resynch ifl then resynch d;; mret (Resynched, d)
    else
      need ← resynch_needed instr dut iss d w;
      if (need : bool) then resynch d;; mret (Resynched, d)
      else
        patch ← ask (is_patch EXIT_PATCH);
        if (patch : bool) then resynch_whisper_on_patch d w;; mret (PatchResynched, d)
        else
          put (λ b, b <| bc_mismatch := (resource, dut, iss) |>);;
          report;; mret (Mismatch, d).

(** ** After the step *)

Definition extra_step (d : rv_instr_t) (w : whisper_state_t) : B whisper_state_t :=
  w ← step w; update_whisper_state w (hints_of d).

Definition exception_check (d : rv_instr_t) (w : whisper_state_t) : B whisper_state_t :=
  wi ← ask bc_w;
  let resynchs := if_cosim_resynch ifl in
  if (i_excp d && negb (wi_excp wi) && negb resynchs) || (wi_excp wi && negb (i_excp d) && negb resynchs) ||
     (i_excp d && wi_excp wi && negb (i_ecause d =? wi_ecause wi) && negb resynchs)
  then report;; mret w
  else
    (* w_.disasm is never set, so an ebreak counts as a trigger too *)
    put (count_metric (λ m, m <| mt_exceptions ::= bump (i_ecause d) |>
                              <| mt_trig_breakpoint ::= (λ n, if wi_ecause wi =? 3 then n + 1 else n) |>));;
    if cf_retire_ucode_trap fl then mret w else extra_step d w.

Definition custom_exception (d : rv_instr_t) : B unit :=
  if (i_ecause d =? kp_VEC_CMODE kp) || (i_ecause d =? kp_MC2_VEC_CMODE kp) then resynch d
  else if i_ecause d =? kp_DBG_ENTRY kp then
    bridge_enter_debug (debug_entry d);;
    doif (cf_emulate_debug_mode fl) (put (λ b, b <| bc_excp_in_debug := true |>))
  else mret tt.

Definition post_step_exception_check (d : rv_instr_t) (w : whisper_state_t) : B whisper_state_t :=
  b ← ask id;
  if in_patching b then
    doif (i_excp d && (i_ecause d =? kp_DBG_ENTRY kp) && negb (bc_check_debug_exit b))
      (put (λ b, b <| bc_check_debug_exit := true |> <| bc_deferred_debug := debug_entry d |>));;
    mret w
  else
    let excp := debug_mode b && cf_emulate_debug_mode fl && i_excp d in
    put (λ b, b <| bc_excp_in_debug := excp |>);;
    if excp then mret w
    else if negb (i_excp d) && negb (wi_excp (bc_w b)) then mret w
    else if i_excp d && find_in (cf_error_excp fl) (i_ecause d) then report;; mret w
    else if i_excp d && is_custom_excp (i_ecause d) then custom_exception d;; mret w
    else exception_check d w.

(** Delayed writes of satp. *)
Definition mode_asid (satp : Z) : Z := (satp ≫ 44) &&& 0xffff.
(** [false]: a write of another mode or address space ends the loop and the
    function. *)
Definition delay_satp (cycle : Z) (c : csr_t) : B bool :=
  if negb (csr_addr c =? kp_satp kp) then mret true
  else
    put (λ b, b <| bc_new_satp := csr_wdata c |>);;
    b ← ask id;
    if negb (mode_asid (bc_new_satp b) =? mode_asid (bc_satp b)) then put (λ b, b <| bc_satp := bc_new_satp b |>);; mret false
    else poke_any cycle "c" (kp_satp kp) (bc_satp b);; mret true.
Definition post_step_satp_write_poke (d : rv_instr_t) (w : whisper_state_t) : B unit :=
  if negb (cf_delay_satp_update fl) then mret tt
  else
    writes ← ask (λ b, wi_csr (bc_w b));
    go ← (if contains "satp" (ws_disasm w) then each_while (delay_satp (i_cycle d)) writes else mret true);
    b ← ask id;
    doif (go && contains "sfence.vma" (ws_disasm w) && negb (bc_satp b =? bc_new_satp b))
      (put (λ b, b <| bc_satp := bc_new_satp b |>);; poke_any (ws_time w) "c" (kp_satp kp) (bc_new_satp b)).

(** ** Instructions *)

(** The interrupt state of the next instruction. *)
Definition save_interrupts (b : bc) : bc :=
  b <| bc_i ::= (λ s, s <| bi_prev_nmi := bi_nmi s |> <| bi_prev_hw_mip := bi_hw_mip s |> <| bi_prev_e_mip := bi_e_mip s |>
                        <| bi_hw_mip_age ::= (λ a, u64 (a + 1)) |> <| bi_e_mip_age ::= (λ a, u64 (a + 1)) |> <| bi_msi := 0%nat |>) |>
    <| bc_msis := [] |>.

Definition do_step (w : whisper_state_t) : B whisper_state_t :=
  put clear_w;; w ← step w; put (λ b, b <| bc_step ::= (λ n, u32 (n + 1)) |>);; mret w.

(** Patch exit into debug mode. *)
Definition patch_exit_debug (d : rv_instr_t) (w : whisper_state_t) : B unit :=
  put (λ b, b <| bc_check_debug_exit := false |> <| bc_skip_de := true |>
              <| bc_i ::= (λ s, s <| bi_check_intr_exit := false |> <| bi_check_nmi_exit := false |> <| bi_patch_mode := NO_PATCH |>) |>);;
  dbg ← ask debug_mode;
  (if (dbg : bool) then
     valid ← sim (iss_poke (i_hart d) (i_cycle d) (chr "p") 0 debug_entry_pc); report_if (negb valid && client_check)
   else pre_step_exception_poke d;; core_nmi_check d w;; core_interrupt_process d;; do_step w;; mret tt);;
  put (set_debug true).

(** Exceptions, interrupts and failed store-conditionals. *)
Definition pre_steps (d : rv_instr_t) (w : whisper_state_t) : B unit :=
  pre_step_exception_poke d;;
  core_nmi_check d w;;
  core_interrupt_process d;;
  put (λ b, b <| bc_lrsc_fail := false |>);;
  pre_step_lrsc_poke d.

Definition steps_now (b : bc) : bool := is_patch NO_PATCH b || is_patch EXIT_PATCH b.

Definition step_and_record (d : rv_instr_t) (w : whisper_state_t) : B (whisper_state_t * rv_instr_t) :=
  put clear_w;;
  now ← ask steps_now;
  w ← (if (now : bool) then
         exit ← ask (is_patch EXIT_PATCH);
         doif exit (intr (pre_step_patch_exit_trap_select ifl ip hart (i_cycle d)));;
         w ← step w; put (λ b, b <| bc_step ::= (λ n, u32 (n + 1)) |>);; mret w
       else mret w);
  psc ← ask bc_psc_stepping;
  '(w, d) ← (if (psc : bool) then mret (w, d)
             else
               w ← (if (now : bool) then update_whisper_state w (hints_of d) else mret w);
               d ← update_dut_state d; mret (w, d));
  put (arch_state w);;
  mret (w, d).

Definition post_steps (d : rv_instr_t) (w : whisper_state_t) : B whisper_state_t :=
  doif (negb (cf_debugrom fl) && (pc_rdata (i_pc d) =? debug_exit_addr)) (sim_do (iss_exit_debug hart));;
  post_step_debug_poke d;;
  intr (post_step_nmi_check ifl (trap_of d));;
  intr (post_step_interrupt_check ifl ip hart (i_cycle d) (trap_of d));;
  w ← post_step_exception_check d w;
  post_step_satp_write_poke d w;;
  mret w.

Definition leave_patch (d : rv_instr_t) : B unit :=
  enter ← ask (is_patch ENTER_PATCH);
  doif enter (put (λ b, b <| bc_i ::= (λ s, s <| bi_patch_mode := IN_PATCH |>) |>));;
  exit ← ask (is_patch EXIT_PATCH);
  doif exit
    (intr (defer_interrupt ifl ip hart (i_cycle d) 0);; intr (defer_nmi ifl ip hart (i_cycle d) 0);;
     put (λ b, b <| bc_i ::= (λ s, s <| bi_patch_mode := NO_PATCH |>) |>)).

(** The verdict, if the two states were compared, and the instruction as it
    is left. *)
Definition finish_retire (d : rv_instr_t) (w : whisper_state_t) : B (option verdict * rv_instr_t) :=
  in_debug ← ask bc_excp_in_debug;
  if (in_debug : bool) then cac_reset;; mret (None, d)
  else
    now ← ask steps_now;
    '(v, d) ← (if (now : bool) then
                 put (λ b, b <| bc_ppw := bc_pw b |> <| bc_pw := w |> <| bc_pd := d |>);;
                 '(v, d) ← compare_dut_whisper_state w d;
                 put save_interrupts;;
                 mret (Some v, d)
               else mret (None, d));
    plain ← ask (is_patch NO_PATCH);
    doif plain (translation_check d w);;
    leave_patch d;;
    mret (v, d).

(** An instruction named by +cosim_error_instr. *)
Definition error_instr (d : rv_instr_t) (w : whisper_state_t) : bool :=
  let instr := get_nth_word (ws_disasm w) 1 in
  find_in (cf_error_instr fl) instr &&
  negb (bool_decide (instr = "illegal") && i_excp d && (i_ecause d =? INSN_PAGE_FAULT)).

(** Up to the step; [false]: debug mode is not emulated. *)
Definition before_step (d : rv_instr_t) (w : whisper_state_t) : B bool :=
  pre_step_debug_exit d;;
  dbg ← ask debug_mode;
  if dbg && negb (cf_emulate_debug_mode fl) then mret false
  else doif (dbg && negb (cf_debugrom fl)) (pre_step_debug_poke d);; pre_steps d w;; mret true.
Definition retire_instr (d : rv_instr_t) (w : whisper_state_t) : B (option verdict * rv_instr_t) :=
  go ← before_step d w;
  if negb go then mret (None, d)
  else
    '(w, d) ← step_and_record d w;
    if error_instr d w then report;; mret (None, d)
    else w ← post_steps d w; finish_retire d w.

(** Records that only announce debug mode. *)
Definition debug_record (d : rv_instr_t) : bool :=
  (i_intr d && (i_icause d =? 0) && negb (i_virt_mode d)) || (i_excp d && (i_ecause d =? kp_SINGLE_STEP kp)) ||
  (cf_debugrom fl && i_excp d && (i_ecause d =? kp_DBG_ENTRY kp)).

Definition process_dut_instr_retire (d : rv_instr_t) : B (option verdict * rv_instr_t) :=
  put (λ b, b <| bc_priv_debug := is_priv_debug (i_priv d) |>
              <| bc_orders ::= (if cf_mcm fl && (0 <? cf_cosim_period fl) then delete (i_tag d) else id) |>
              <| bc_twoStage := false |> <| bc_insn_recorded := false |> <| bc_rvfi_calls ::= (λ n, u64 (n + 1)) |>);;
  if negb (cf_whisper_exec fl) then mret (None, d)
  else
    let w := whisper_state_new (i_tag d) (i_cycle d) in
    pre_step_debug_entry d;;
    if debug_record d then mret (None, d)
    else
      put (check_debug_mode_entry_via_ebreak d);;
      b ← ask id;
      if is_patch EXIT_PATCH b && (bc_check_debug_exit b || bc_priv_debug b) then patch_exit_debug d w;; mret (None, d)
      else if bc_skip_de b then
        d ← update_dut_state d;
        if pc_rdata (i_pc d) =? debug_entry_pc then put (λ b, b <| bc_skip_de := false |>);; retire_instr d w
        else mret (None, d)
      else retire_instr d w.

(** ** Other calls of the design's interfaces *)

Definition process_dut_excp (cause order vec_cmode_first_tag : Z) : B unit :=
  put (λ b, b <| bc_trap_cause := cause |> <| bc_trap_order := order |> <| bc_vec_cmode := vec_cmode_first_tag |>);;
  doif (cause =? LD_ACCESS_FAULT) (skip_mcm_read_data_check_for_fault order 0 0).

Definition process_dut_csr_hw_update (c : csr_t) : B unit :=
  m ← poke_mask (csr_addr c);
  update_csr Dut (csr_addr c) (csr_wdata c) (Some (csr_wmask c &&& m)) true.

Definition get_csr_name (csr_addr : string) : string :=
  match stoull 16 csr_addr with
  | Some a => match csr_info (u32 a) with Some c => cb_name c | None => csr_addr end
  | None => csr_addr
  end.

(** CSR changes of a group of instructions; [true]: reported. *)
Definition process_dut_instr_group_retire : B unit :=
  patching ← ask in_patching;
  if patching || negb (cf_csr_wr_check fl) then mret tt
  else
    csr_cac (λ k, (cac_step k, tt));;
    ok ← csr_cac (λ k, (k, cac_status k));
    if (ok : bool) then mret tt
    else
      '(csr, dut, iss) ← csr_cac (λ k, (k, cac_strings k));
      name ← lift (substr_from 2 csr);
      let csr := get_csr_name name in
      csr_cac (λ k, (cac_reset_status k, tt));;
      sw ← ask bc_resynch_csr;
      if (sw : bool) then put (λ b, b <| bc_resynch_csr := false |>)
      else if existsb (λ t, contains t csr) (cf_resynch_csr_defaults fl) then mret tt
      else doif client_check (put (λ b, b <| bc_mismatch := (csr, dut, iss) |>);; report).

(** Register files in periodic mode. *)
Definition compare_reg (rf : resource_t) (dut iss : list Z) (i : nat) : B unit :=
  if cf_psc_compare_only fl then report_if (negb (bool_decide (dut = iss)))
  else update_reg Dut rf (Z.of_nat i) dut;; update_reg IssSide rf (Z.of_nat i) iss.
Definition compare_file : B unit :=
  if cf_psc_compare_only fl then mret tt
  else pw ← ask bc_pw; pd ← ask bc_pd; '(_, pd) ← compare_dut_whisper_state pw pd; put (λ b, b <| bc_pd := pd |>).

Definition process_compare_gp_regs (array : list Z) : B unit :=
  doif (cf_whisper_exec fl)
    (each (λ i : nat,
       put (λ b, b <| bc_pd ::= (λ d, d <| i_gpr ::= (λ l, l ++ [Gpr true (Z.of_nat i) (at_z array i)]) |>) |>);;
       v ← look (iss_gpr id_ (Z.of_nat i)); compare_reg int_reg [at_z array i] [v] i) (seq 0 32);;
     compare_file).
Definition process_compare_fp_regs (array : list Z) : B unit :=
  doif (cf_whisper_exec fl)
    (each (λ i : nat,
       put (λ b, b <| bc_pd ::= (λ d, d <| i_fpr ::= (λ l, l ++ [Fpr true (Z.of_nat i) (at_z array i)]) |>) |>);;
       v ← look (iss_fpr id_ (Z.of_nat i)); compare_reg fp_reg [at_z array i] [v] i) (seq 0 32);;
     compare_file).
(** From register 1 on; [k < 3]: the last double word is not compared, and
    each difference of one is reported. *)
Definition compare_vec (dut iss : list Z) (i : nat) : B unit :=
  if cf_psc_compare_only fl then each (λ k : nat, report_if (negb (at_z dut k =? at_z iss k))) (seq 0 3)
  else compare_reg vec_reg dut iss i.
Definition process_compare_vc_regs (array : list Z) : B unit :=
  doif (cf_whisper_exec fl && cf_vec_check fl)
    (each (λ i : nat,
       put (λ b, b <| bc_pd ::= (λ d, d <| i_vr ::= (λ l, l ++ [Vr true (Z.of_nat i) (at_z array i)]) |>) |>);;
       v ← look (iss_vpr id_ (Z.of_nat i)); compare_vec (create_dword_vec (at_z array i)) (vpr_dwords v) i) (seq 1 31);;
     compare_file).

(** Reset values of the CSRs. *)
Definition csr_init (csr_map : list (Z * csr_base)) : B unit :=
  each (λ '(addr, csr), doif (negb (cb_reset_val csr =? 0))
    (p ← peek_csr addr;
     update_csr Dut addr (cp_value p) (Some all_ones) true;;
     update_csr IssSide addr (cp_value p) (Some all_ones) true;;
     csr_cac (λ k, (cac_step k, tt)))) csr_map.

(** [connect] starts the simulator, [configure] resets the checker and sets
    its vector length; the plusargs parsed replace those in [fl].  The windows
    of the memory map that it looks up are [sep_base] and [sep_end]. *)
Definition reset (parsed rebuild : bool) (connect : I → I * bool) (configure : C → option C) (csr_map : list (Z * csr_base))
    (a : core_plusargs) : B core_flags :=
  if negb parsed then report;; mret fl
  else
    ok ← (if (id_ =? 0) || rebuild then sim connect else mret true);
    if negb ok then report;; mret fl
    else
      (λ y, match configure (y_c y) with Some c => Some (y <| y_c := c |>, tt) | None => None end);;
      csr_init csr_map;;
      lift (parse_plusargs a fl).

Definition store_cbo_inv_addr (payload : Z) : B unit := put (λ b, b <| bc_cbo_inv := payload |>).
Definition process_debug_haltreq (haltreq : bool) : B unit := put (λ b, b <| bc_haltreq := haltreq |>).
(** CSRs of a group. *)
Definition resynch_group (g : rv_instr_group_t) : B unit :=
  each (λ c, doif (csr_valid c) (poke_any (gr_cycle g) "c" (csr_addr c) (csr_wdata c))) (gr_csrs g).
End bridge.

(** The window of the entropy source. *)
Definition sep_window {J} (mmap : list (string * memmap_entry J)) : Z * Z :=
  match map_find "sep_entropy_fifo" mmap with Some e => (me_base e, me_end e) | None => (0, 0) end.
