(* ===== verification/BridgeCheck.v ===== *)
(** * BridgeCheck: what a comparison of the bridge means

    Theorems on the step-and-compare loop of BridgeCore: an instruction on
    which design and simulator agreed has the same address, mode and register
    results on both sides; a difference with no excuse is reported; after a
    resynchronisation the simulator holds the design's values; the exception
    check reports exactly the differences; delayed writes of satp take effect
    when they should. *)

From Stdlib Require Import Ascii.
From Stdlib Require String.
From S2P Require Import Prelude Bytes Cstd CosimUtil Memmap AddressMap McmiSplit Mcmi RvfiLog WhisperClient BridgeIntr BridgeCsr.
From S2P Require Import PcgExtras BridgeMcm Parser BridgeIsa BridgeCore.
Local Open Scope string_scope.
Local Open Scope list_scope.
Local Open Scope Z_scope.

(** ** The checker *)

(** The value last recorded for a side, and the resources recorded since the
    last comparison.  Whether a difference of an earlier comparison shows in
    the status before it is reset is left open. *)
Class CacLaws (C : Type) `{!Cac C} := {
  cac_val : src_t → resource_id → C → option (list Z);
  cac_touched : resource_id → C → Prop;
  law_set src rid v c :
    let '(c', ok) := cac_set src rid v c in
    ok = true ∧ (∀ s r, cac_val s r c' = if decide (s = src ∧ r = rid) then Some v else cac_val s r c) ∧
    (∀ r, cac_touched r c' ↔ r = rid ∨ cac_touched r c);
  law_step_sound c r : cac_status (cac_step c) = true → cac_touched r c → cac_val Dut r c = cac_val IssSide r c;
  law_step_complete c :
    cac_status c = true → (∀ r, cac_touched r c → cac_val Dut r c = cac_val IssSide r c) → cac_status (cac_step c) = true
}.

(** ** Partial correctness *)

Definition post {I C A} (m : B I C A) (Q : A → sys I C → Prop) (y : sys I C) : Prop := ∀ y' a, m y = Some (y', a) → Q a y'.

Section post.
Context {I C : Type}.
Implicit Types y : sys I C.

Lemma post_bind {A X} (m : B I C A) (k : A → B I C X) Q y : post m (λ a y', post (k a) Q y') y → post (m ≫= k) Q y.
Proof. unfold post, mbind, B_bind. intros H y' x. destruct (m y) as [[y1 a]|] eqn:E; [|done]. by apply (H y1 a). Qed.
Lemma post_ret {A} (a : A) Q y : Q a y → post (mret a) Q y.
Proof. by intros H y' a' [= <- <-]. Qed.
Lemma post_mono {A} (m : B I C A) (P Q : A → sys I C → Prop) y : post m P y → (∀ a y', P a y' → Q a y') → post m Q y.
Proof. unfold post. eauto. Qed.
Lemma post_and {A} (m : B I C A) (P Q : A → sys I C → Prop) y : post m P y → post m Q y → post m (λ a y', P a y' ∧ Q a y') y.
Proof. unfold post. eauto. Qed.
Lemma post_any {A} (m : B I C A) (Q : A → sys I C → Prop) y : (∀ a y', Q a y') → post m Q y.
Proof. unfold post. eauto. Qed.
Lemma post_ask {A} (f : bc → A) Q y : Q (f (y_b y)) y → post (ask f) Q y.
Proof. by intros H y' a' [= <- <-]. Qed.
Lemma post_look {A} (f : I → A) Q y : Q (f (y_i y)) y → post (look f) Q y.
Proof. by intros H y' a' [= <- <-]. Qed.
Lemma post_put (f : bc → bc) (Q : unit → sys I C → Prop) y : Q tt (y <| y_b ::= f |>) → post (put f) Q y.
Proof. by intros H y' a' [= <- <-]. Qed.
Lemma post_sim {A} (f : I → I * A) Q y : (∀ i a, f (y_i y) = (i, a) → Q a (y <| y_i := i |>)) → post (sim f) Q y.
Proof. intros H y' a'. unfold sim. destruct (f (y_i y)) eqn:E. intros [= <- <-]. by apply H. Qed.
Lemma post_cac {A} (f : C → C * A) Q y : (∀ c a, f (y_c y) = (c, a) → Q a (y <| y_c := c |>)) → post (cac f) Q y.
Proof. intros H y' a'. unfold cac. destruct (f (y_c y)) eqn:E. intros [= <- <-]. by apply H. Qed.
Lemma post_lift {A} (o : option A) Q y : (∀ a, o = Some a → Q a y) → post (lift o) Q y.
Proof. intros H y' a'. unfold lift. destruct o; [|done]. intros [= <- <-]. by apply H. Qed.
Lemma post_doif b (m : B I C unit) Q y : (b = true → post m Q y) → (b = false → Q tt y) → post (doif b m) Q y.
Proof. destruct b; intros H1 H2; [by apply H1|by apply post_ret, H2]. Qed.
Lemma post_pair {A X Z} (m : B I C (A * X)) (k : A → X → B I C Z) Q y :
  post m (λ p y', post (k p.1 p.2) Q y') y → post ('(a, x) ← m; k a x) Q y.
Proof. intros H. apply post_bind. eapply post_mono; [exact H|]. by intros [a x]. Qed.
End post.

(** ** Running a computation *)

Lemma run_ask {I C A X} (f : bc → A) (k : A → B I C X) y : (ask f ≫= k) y = k (f (y_b y)) y.
Proof. done. Qed.
Lemma run_put {I C X} (f : bc → bc) (k : unit → B I C X) y : (put f ≫= k) y = k tt (y <| y_b ::= f |>).
Proof. done. Qed.

(** ** Computations that stay within a relation *)

Section within.
Context {I C : Type} (R : sys I C → sys I C → Prop) `{!PreOrder R}.

Definition within {A} (m : B I C A) : Prop := ∀ y, post m (λ _ y', R y y') y.

Lemma within_ret {A} (a : A) : within (mret a).
Proof. intros y. by apply post_ret. Qed.
Lemma within_bind {A X} (m : B I C A) (k : A → B I C X) : within m → (∀ a, within (k a)) → within (m ≫= k).
Proof.
  intros Hm Hk y. apply post_bind. eapply post_mono; [apply Hm|]. intros a y1 H1. cbn in H1 |- *.
  eapply post_mono; [apply Hk|]. intros x y2 H2. cbn in H2 |- *. by etrans.
Qed.
Lemma within_throws {A} : within (throws : B I C A).
Proof. done. Qed.
Lemma within_ask {A} (f : bc → A) : within (ask f).
Proof. intros y. by apply post_ask. Qed.
Lemma within_look {A} (f : I → A) : within (look f).
Proof. intros y. by apply post_look. Qed.
Lemma within_lift {A} (o : option A) : within (lift o).
Proof. intros y. by apply post_lift. Qed.
Lemma within_doif b (m : B I C unit) : within m → within (doif b m).
Proof. intros Hm. destruct b; [done|apply within_ret]. Qed.
Lemma within_each {A} (f : A → B I C unit) l : (∀ a, within (f a)) → within (each f l).
Proof. intros Hf. induction l as [|a l IH]; [apply within_ret|]. cbn [each]. by apply within_bind. Qed.
Lemma within_if {A} (b : bool) (m1 m2 : B I C A) : within m1 → within m2 → within (if b then m1 else m2).
Proof. by destruct b. Qed.
Lemma within_each_while {A} (f : A → B I C bool) l : (∀ a, within (f a)) → within (each_while f l).
Proof.
  intros Hf. induction l as [|a l IH]; [apply within_ret|]. cbn [each_while]. apply within_bind; [done|]. intros b.
  apply within_if; [done|apply within_ret].
Qed.
End within.

Create HintDb within.
#[export] Hint Resolve within_ret within_throws within_ask within_look within_lift : within.
Ltac within_step :=
  first
    [ by eauto with within typeclass_instances
    | match goal with
      | |- within _ (_ ≫= _) => apply within_bind; [try exact _| |intros ?]
      | |- within _ (doif _ _) => apply within_doif; [try exact _|]
      | |- within _ (each _ _) => apply within_each; [try exact _|intros ?]
      | |- within _ (each_while _ _) => apply within_each_while; [try exact _|intros ?]
      | |- within _ (if _ then _ else _) => apply within_if
      | |- within _ (let '(_, _) := ?x in _) => destruct x
      | |- within _ (match ?x with _ => _ end) => destruct x
      end ].
Ltac within := repeat within_step.

(** The same for the interrupt part. *)
Section mwithin.
Context {I : Type} (S : bi * I → bi * I → Prop) `{!PreOrder S}.
Definition mwithin {A} (m : M I A) : Prop := ∀ x, S x (m x).1.

Lemma mwithin_ret {A} (a : A) : mwithin (mret a).
Proof. by intros x. Qed.
Lemma mwithin_get {A} (f : bi → A) : mwithin (get f).
Proof. by intros x. Qed.
Lemma mwithin_bind {A X} (m : M I A) (k : A → M I X) : mwithin m → (∀ a, mwithin (k a)) → mwithin (m ≫= k).
Proof.
  intros Hm Hk x. unfold mbind, M_bind. specialize (Hm x). destruct (m x) as [x1 a]. etrans; [exact Hm|apply Hk].
Qed.
Lemma mwithin_when b (m : M I unit) : mwithin m → mwithin (when b m).
Proof. intros H. destruct b; [done|apply mwithin_ret]. Qed.
End mwithin.

Create HintDb mwithin.
#[export] Hint Resolve mwithin_ret mwithin_get : mwithin.
Ltac mwithin :=
  repeat first
    [ by eauto with mwithin typeclass_instances
    | match goal with
      | |- mwithin _ (_ ≫= _) => apply mwithin_bind; [try exact _| |intros ?]
      | |- mwithin _ (when _ _) => apply mwithin_when
      | |- mwithin _ (if ?b then _ else _) => destruct b
      | |- mwithin _ (let '(_, _) := ?x in _) => destruct x
      | |- mwithin _ (match ?x with _ => _ end) => destruct x
      end ].

(** ** Interrupts do not change the mode of the bridge *)

Definition same_mode {I} (x x' : bi * I) : Prop := bi_patch_mode x'.1 = bi_patch_mode x.1.
#[export] Instance same_mode_preorder {I} : PreOrder (@same_mode I).
Proof. unfold same_mode. split; [done|]. by intros x y z -> ->. Qed.

Section modes.
Context {I : Type} `{!Iss I} (fl : intr_flags) (ip : intr_params) (hart : Z).

Lemma same_mode_upd f : (∀ s, bi_patch_mode (f s) = bi_patch_mode s) → mwithin (@same_mode I) (upd f).
Proof. intros H x. apply H. Qed.
Lemma same_mode_iss {A} (f : I → I * A) : mwithin same_mode (iss f).
Proof. intros x. unfold iss, same_mode. by destruct (f x.2). Qed.
#[local] Hint Resolve same_mode_iss : mwithin.
#[local] Hint Extern 1 (mwithin same_mode (upd _)) => apply same_mode_upd; intros ?; reflexivity : mwithin.
#[local] Hint Extern 1 (mwithin same_mode error) => apply same_mode_upd; intros ?; reflexivity : mwithin.

Lemma peek_mip_mode : mwithin same_mode (peek_mip ip hart). Proof. unfold peek_mip. mwithin. Qed.
Lemma poke_mip_mode t v : mwithin same_mode (poke_mip ip hart t v). Proof. unfold poke_mip. mwithin. Qed.
Lemma peek_seip_mode : mwithin same_mode (peek_seip hart). Proof. unfold peek_seip. mwithin. Qed.
Lemma check_interrupt_mode : mwithin same_mode (check_interrupt hart). Proof. unfold check_interrupt. mwithin. Qed.
Lemma defer_interrupt_mode t v : mwithin same_mode (defer_interrupt fl ip hart t v). Proof. unfold defer_interrupt. mwithin. Qed.
Lemma defer_nmi_mode t v : mwithin same_mode (defer_nmi fl ip hart t v). Proof. unfold defer_nmi. mwithin. Qed.
Lemma peek_deferred_mode : mwithin same_mode (peek_deferred fl ip hart). Proof. unfold peek_deferred. mwithin. Qed.
#[local] Hint Resolve peek_mip_mode poke_mip_mode peek_seip_mode check_interrupt_mode defer_interrupt_mode defer_nmi_mode
  peek_deferred_mode : mwithin.
Lemma check_and_defer_mode t v u : mwithin same_mode (check_and_defer_interrupt fl ip hart t v u).
Proof. unfold check_and_defer_interrupt. mwithin. Qed.
Lemma check_mip_change_mode p n se : mwithin (@same_mode I) (check_mip_change p n se).
Proof. unfold check_mip_change. mwithin. Qed.
#[local] Hint Resolve check_and_defer_mode check_mip_change_mode : mwithin.
Lemma poke_time_csr_mode t v u : mwithin same_mode (poke_time_csr fl ip hart t v u).
Proof. unfold poke_time_csr, note_change. mwithin. Qed.
Lemma restore_bit_mode t v : mwithin same_mode (restore_bit ip hart t v).
Proof. unfold restore_bit. mwithin. Qed.
#[local] Hint Resolve poke_time_csr_mode restore_bit_mode : mwithin.
Lemma process_imsic_msi_mode t pa v u : mwithin same_mode (process_imsic_msi fl ip hart t pa v u).
Proof. unfold process_imsic_msi, imsic_effect. mwithin. Qed.
Lemma pre_step_nmi_check_mode t d e o : mwithin same_mode (pre_step_nmi_check fl ip hart t d e o).
Proof. unfold pre_step_nmi_check. mwithin. Qed.
Lemma pre_step_interrupt_process_mode t d : mwithin same_mode (pre_step_interrupt_process fl ip hart t d).
Proof. unfold pre_step_interrupt_process, pre_step_trap_pending_restore, peek_deferred_interrupts. mwithin. Qed.
Lemma patch_exit_select_mode t : mwithin same_mode (pre_step_patch_exit_trap_select fl ip hart t).
Proof. unfold pre_step_patch_exit_trap_select, peek_deferred_interrupts. mwithin. Qed.
Lemma post_step_interrupt_check_mode t d : mwithin same_mode (post_step_interrupt_check fl ip hart t d).
Proof. unfold post_step_interrupt_check, drop_restored, finish_step. mwithin. Qed.
Lemma post_step_nmi_check_mode d : mwithin (@same_mode I) (post_step_nmi_check fl d).
Proof. unfold post_step_nmi_check. mwithin. Qed.
Lemma error_mode : mwithin (@same_mode I) error.
Proof. mwithin. Qed.
End modes.
#[export] Hint Resolve peek_mip_mode poke_mip_mode defer_interrupt_mode defer_nmi_mode process_imsic_msi_mode pre_step_nmi_check_mode
  pre_step_interrupt_process_mode patch_exit_select_mode post_step_interrupt_check_mode post_step_nmi_check_mode error_mode : mwithin.

(** ** What is recorded *)

(** The resources the theorem on agreement speaks of. *)
Definition core (r : resource_id) : bool :=
  match r.1 with pc_reg | priv_mode | int_reg | fp_reg => true | _ => false end.
Definition entry : Type := src_t * resource_id * list Z.
Fixpoint last_rec (l : list entry) (s : src_t) (r : resource_id) : option (list Z) :=
  match l with
  | [] => None
  | (s', r', v) :: l => last_rec l s r ∪ (if decide (s = s' ∧ r = r') then Some v else None)
  end.

Lemma last_rec_app l1 l2 s r : last_rec (l1 ++ l2) s r = last_rec l2 s r ∪ last_rec l1 s r.
Proof.
  induction l1 as [|[[s' r'] v] l1 IH]; cbn [last_rec app]; [by destruct (last_rec l2 s r)|]. rewrite IH.
  by destruct (last_rec l2 s r), (last_rec l1 s r), (decide _).
Qed.
Lemma last_rec_some l s r v : last_rec l s r = Some v → (s, r, v) ∈ l.
Proof.
  induction l as [|[[s' r'] v'] l IH]; cbn [last_rec]; [done|]. intros H.
  destruct (last_rec l s r) as [x|]; [right; apply IH; by destruct (decide _)|].
  destruct (decide _) as [[-> ->]|]; [|done]. injection H as ->. left.
Qed.

Section recorded.
Context {C : Type} `{!Cac C} `{!CacLaws C}.

(** From [c] to [c'] the entries [l] of core resources were recorded. *)
Record recorded (l : list entry) (c c' : C) : Prop := {
  rec_val s r : core r = true → cac_val s r c' = last_rec l s r ∪ cac_val s r c;
  rec_touched r : core r = true → cac_touched r c ∨ (∃ s, is_Some (last_rec l s r)) → cac_touched r c'
}.
Lemma recorded_nil c : recorded [] c c.
Proof. split; [intros s r _; by destruct (cac_val s r c)|]. by intros r _ [H|[s [v H]]]. Qed.
Lemma recorded_app l1 l2 c1 c2 c3 : recorded l1 c1 c2 → recorded l2 c2 c3 → recorded (l1 ++ l2) c1 c3.
Proof.
  intros [V1 T1] [V2 T2]. split.
  - intros s r Hr. rewrite V2, V1, last_rec_app by done. by destruct (last_rec l2 s r), (last_rec l1 s r), (cac_val s r c1).
  - intros r Hr [H|[s H]]; [apply T2; [done|]; left; apply T1; auto|]. rewrite last_rec_app in H. apply T2; [done|].
    destruct (last_rec l2 s r) eqn:E; [right; exists s; by rewrite E|left]. apply T1; [done|]. right. exists s.
    by destruct (last_rec l1 s r).
Qed.
Lemma recorded_set src r v c : recorded (if core r then [(src, r, v)] else []) c (cac_set src r v c).1.
Proof.
  pose proof (law_set src r v c) as H. destruct (cac_set src r v c) as [c' ok]. destruct H as (_ & V & T). cbn [fst]. split.
  - intros s r' Hr. rewrite V. destruct (core r) eqn:E; cbn [last_rec].
    + destruct (decide _) as [[-> ->]|]; by destruct (cac_val _ _ c).
    + rewrite decide_False by (intros [_ ->]; congruence). by destruct (cac_val s r' c).
  - intros r' Hr H. apply T. destruct H as [H|[s [x H]]]; [auto|]. left. destruct (core r); [|done].
    apply last_rec_some in H. set_solver.
Qed.
End recorded.

(** ** Steps that neither record a core resource nor change the mode *)

Definition cmode (b : bc) : patch_mode * bool * bool * Z * Z :=
  (bi_patch_mode (bc_i b), bc_skip_de b, bc_psc_stepping b, bc_trap_order b, bc_trap_cause b).

Definition calm {I C} `{!Cac C} `{!CacLaws C} (y y' : sys I C) : Prop :=
  cmode (y_b y') = cmode (y_b y) ∧ recorded [] (y_c y) (y_c y').
#[export] Instance calm_preorder {I C} `{!Cac C} `{!CacLaws C} : PreOrder (@calm I C _ _).
Proof.
  split; [split; [done|apply recorded_nil]|]. intros y1 y2 y3 [E1 R1] [E2 R2].
  split; [congruence|exact (recorded_app [] [] _ _ _ R1 R2)].
Qed.

Section calm.
Context {I C J : Type} `{!Iss I} `{!IssExec I} `{!Cac C} `{!CacLaws C}.
Variable fl : core_flags.
Variable ifl : intr_flags.
Variable ip : intr_params.
Variable ca : csr_addrs.
Variable kp : core_params.
Variable csr_info : Z → option csr_base.
Variable mmap : list (string * memmap_entry J).
Variable dam : dam_flags.
Variables (sp_base sp_size sep_base sep_end : Z).
Variables hart id_ : Z.
#[local] Notation calm := (@calm I C _ _).

Lemma calm_put f : (∀ b, cmode (f b) = cmode b) → within calm (put f).
Proof. intros H y. apply post_put. split; [apply H|apply recorded_nil]. Qed.
Lemma calm_sim {A} (f : I → I * A) : within calm (sim f).
Proof. intros y. apply post_sim. intros i a _. split; [done|apply recorded_nil]. Qed.
Lemma calm_sim_do f : within calm (sim_do f).
Proof. intros y y' a [= <- <-]. split; [done|apply recorded_nil]. Qed.
Lemma calm_csr_cac {A} (f : C → C * A) : within calm (csr_cac f).
Proof. intros y y' a. unfold csr_cac. destruct (f (y_k y)). intros [= <- <-]. split; [done|apply recorded_nil]. Qed.
Lemma calm_cac_read {A} (f : C → A) : within calm (cac (λ c, (c, f c))).
Proof. intros y. apply post_cac. intros c a [= <- <-]. split; [done|apply recorded_nil]. Qed.
Lemma calm_intr {A} (m : M I A) : mwithin same_mode m → within calm (intr m).
Proof.
  intros H y y' a. unfold intr. specialize (H (bc_i (y_b y), y_i y)). destruct (m _) as [[s i] x]. intros [= <- <-].
  split; [|apply recorded_nil]. unfold cmode, same_mode in *. cbn in *. by rewrite H.
Qed.
Lemma calm_report : within calm report.
Proof. apply calm_intr. apply error_mode. Qed.
#[local] Hint Resolve calm_sim calm_sim_do calm_csr_cac calm_cac_read calm_report : within.
#[local] Hint Extern 1 (within calm (intr _)) => apply calm_intr; eauto with mwithin : within.
#[local] Hint Extern 1 (within calm (put _)) => apply calm_put; intros ?; reflexivity : within.
Lemma calm_set src r v : core r = false → within calm (set_resource src r v).
Proof.
  intros Hr. unfold set_resource, report_if. apply within_bind; [exact _| |intros ok; within].
  intros y. apply post_cac. intros c a E. split; [done|]. pose proof (recorded_set src r v (y_c y)) as H.
  by rewrite E, Hr in H.
Qed.
#[local] Hint Extern 1 (within calm (set_resource _ _ _)) => apply calm_set; reflexivity : within.

Lemma calm_get_csr s a : within calm (get_csr ip hart s a).
Proof. unfold get_csr. within. Qed.
Lemma calm_update_csr s a v m e : within calm (update_csr csr_info hart s a v m e).
Proof. unfold update_csr, update_csr_one, report_if, peek_csr. within. Qed.
#[local] Hint Resolve calm_get_csr calm_update_csr : within.
Lemma calm_csr_mask a v m : within calm (csr_mask ip ca kp hart a v m).
Proof. unfold csr_mask, hyp_enabled. within. Qed.
Lemma calm_csr_data a v p : within calm (csr_data ca hart a v p).
Proof. unfold csr_data. within. Qed.
#[local] Hint Resolve calm_csr_mask calm_csr_data : within.
Lemma calm_restore_hyp t a v : within calm (restore_hyp_csr ip kp csr_info hart t a v).
Proof. unfold restore_hyp_csr, poke_any. within. Qed.
#[local] Hint Resolve calm_restore_hyp : within.
Lemma calm_hyp_on t : within calm (hyp_on fl ip kp csr_info hart t).
Proof. unfold hyp_on. within. Qed.
Lemma calm_hyp_off : within calm (hyp_off fl ip kp csr_info hart).
Proof. unfold hyp_off, save_hyp_csr. within. Qed.
#[local] Hint Resolve calm_hyp_on calm_hyp_off : within.
Lemma calm_dut_csr t p c : within calm (update_dut_csr fl ip ca kp csr_info hart t p c).
Proof. unfold update_dut_csr, update_dut_csr_parts, hyp_enabled. within. Qed.
Lemma calm_dut_vr g : within calm (update_dut_vr id_ g).
Proof. unfold update_dut_vr, update_reg. within. Qed.
Lemma calm_dut_insn d : within calm (update_dut_insn fl kp d).
Proof. unfold update_dut_insn, update_insn. within. Qed.
Lemma calm_attrs s m : within calm (update_attrs s m).
Proof. unfold update_attrs, update_mem_attr. within. Qed.
#[local] Hint Resolve calm_dut_csr calm_dut_vr calm_dut_insn calm_attrs : within.

Lemma calm_poke_mem t a n v : within calm (poke_mem ifl hart t a n v).
Proof. unfold poke_mem, report_if. within. Qed.
Lemma calm_poke_resource t r a v : within calm (poke_resource ifl hart t r a v).
Proof. unfold poke_resource, report_if. within. Qed.
Lemma calm_poke_stops t r a v : within calm (poke_stops ifl hart t r a v).
Proof. unfold poke_stops. within. Qed.
#[local] Hint Resolve calm_poke_mem calm_poke_resource calm_poke_stops : within.
Lemma calm_topei_claim n t a g v : within calm (topei_claim ifl hart n t a g v).
Proof. revert v. induction n as [|n IH]; intros v; cbn [topei_claim]; unfold peek_resource, report_if; within. Qed.
#[local] Hint Resolve calm_topei_claim : within.
Lemma calm_resynch_csr d c : within calm (resynch_csr fl ifl ip kp hart d c).
Proof. unfold resynch_csr, topei_resynch, hyp_enabled, poke_any. within. Qed.
Lemma calm_resynch_store d : within calm (resynch_store fl ifl hart d).
Proof. unfold resynch_store, translate. within. Qed.
#[local] Hint Resolve calm_resynch_csr calm_resynch_store : within.
Lemma calm_resynch d : within calm (resynch fl ifl ip kp hart d).
Proof. unfold resynch, resynch_pc. within. Qed.
Lemma calm_enter_debug g : within calm (bridge_enter_debug fl ifl dam g).
Proof. unfold bridge_enter_debug, report_if. within. Qed.
#[local] Hint Resolve calm_resynch calm_enter_debug : within.

Lemma calm_debug_entry d : within calm (pre_step_debug_entry fl ifl ca kp dam hart d).
Proof. unfold pre_step_debug_entry. within. Qed.
Lemma calm_exception_poke d : within calm (pre_step_exception_poke fl ifl kp hart d).
Proof. unfold pre_step_exception_poke, skip_mcm_read_data_check_for_fault, report_if. within. Qed.
#[local] Hint Resolve calm_exception_poke : within.
Lemma calm_before_step d w : within calm (before_step fl ifl ip kp dam hart d w).
Proof.
  unfold before_step, pre_step_debug_exit, bridge_exit_debug, pre_step_debug_poke, pre_steps, core_nmi_check,
    core_interrupt_process, pre_step_lrsc_poke, report_if. within.
Qed.
Lemma calm_step w : within calm (step ifl hart w).
Proof. unfold step, report_if. within. Qed.
Lemma calm_satp d w : within calm (post_step_satp_write_poke fl kp hart d w).
Proof. unfold post_step_satp_write_poke, delay_satp, poke_any. within. Qed.
#[local] Hint Resolve calm_debug_entry calm_before_step calm_step calm_satp : within.

(** ** Steps that record *)

Definition does {A} (md : patch_mode * bool * bool * Z * Z) (l : list entry) (m : B I C A) : Prop :=
  ∀ y, cmode (y_b y) = md → post m (λ _ y', cmode (y_b y') = md ∧ recorded l (y_c y) (y_c y')) y.

Lemma does_calm {A} md (m : B I C A) : within calm m → does md [] m.
Proof. intros H y E. eapply post_mono; [apply H|]. intros a y' [E' R]. split; [congruence|done]. Qed.
Lemma does_bind {A X} md l1 l2 (m : B I C A) (k : A → B I C X) : does md l1 m → (∀ a, does md l2 (k a)) → does md (l1 ++ l2) (m ≫= k).
Proof.
  intros Hm Hk y E. apply post_bind. eapply post_mono; [by apply Hm|]. intros a y1 [E1 R1]. cbn in *.
  eapply post_mono; [by apply Hk|]. intros x y2 [E2 R2]. split; [done|by eapply recorded_app].
Qed.
Lemma does_ret {A} md (a : A) : does md [] (mret a).
Proof. apply does_calm, within_ret. exact _. Qed.
Lemma does_doif md l b (m : B I C unit) : (b = true → does md l m) → does md (if b then l else []) (doif b m).
Proof. destruct b; intros H; [by apply H|apply does_ret]. Qed.
Lemma does_ask {A X} md l (f : bc → A) (k : A → B I C X) :
  (∀ b, cmode b = md → does md l (k (f b))) → does md l (ask f ≫= k).
Proof. intros H y E. apply post_bind, post_ask. by apply (H (y_b y) E). Qed.
Lemma does_eq {A} md l l' (m : B I C A) : l = l' → does md l m → does md l' m.
Proof. by intros ->. Qed.
Lemma does_set md src r v : core r = true → does md [(src, r, v)] (set_resource src r v).
Proof.
  intros Hr. unfold set_resource. apply (does_bind md [_] []).
  - intros y E. apply post_cac. intros c a Ec. split; [done|]. pose proof (recorded_set src r v (y_c y)) as H. by rewrite Ec, Hr in H.
  - intros ok. apply does_calm. unfold report_if. within.
Qed.

(** Values written to registers, and the entries they make. *)
Definition entries (src : src_t) (rr : resource_t) (ws : list (Z * Z)) : list entry := (λ '(a, v), (src, (rr, a), [v])) <$> ws.
Lemma does_each md src rr {A} (f : A → list (Z * Z)) (m : A → B I C unit) l :
  (∀ a, does md (entries src rr (f a)) (m a)) → does md (entries src rr (concat (f <$> l))) (each m l).
Proof.
  intros H. induction l as [|a l IH]; [apply does_ret|]. cbn [each fmap list_fmap concat]. unfold entries.
  rewrite fmap_app. apply does_bind; [apply H|intros _; apply IH].
Qed.

(** ** The design's state *)

Definition gpr_writes (d : rv_instr_t) : list (Z * Z) :=
  concat ((λ g, if gpr_valid g && negb (gpr_addr g =? 0) then [(gpr_addr g, gpr_wdata g)] else []) <$> i_gpr d).
Definition fpr_writes (d : rv_instr_t) : list (Z * Z) :=
  concat ((λ g, if fpr_valid g then [(fpr_addr g, fpr_wdata g)] else []) <$> i_fpr d).
(** The debug modes are compared as one. *)
Definition shown_priv (d : rv_instr_t) : Z := if i_priv d =? DP then DE else i_priv d.
Definition pc_entries (src : src_t) (pc priv : Z) : list entry :=
  (if cf_pc_check fl then [(src, (pc_reg, 0), [pc])] else []) ++ (if cf_priv_check fl then [(src, (priv_mode, 0), [priv])] else []).
(** Neither patching, nor leaving a patch routine for debug mode, nor in a
    comparison of register files. *)
Definition plain (md : patch_mode * bool * bool * Z * Z) : Prop := md.1.1 = (NO_PATCH, false, false).

Lemma plain_no_patch md b p : plain md → cmode b = md → is_patch p b = bool_decide (p = NO_PATCH).
Proof.
  intros Hp E. unfold is_patch. unfold plain in Hp. rewrite <- E in Hp. injection Hp as -> _ _. by destruct p.
Qed.

Lemma does_dut_gpr md d g :
  plain md → (∀ b, cmode b = md → load_fault b d = false) →
  does md (entries Dut int_reg (if gpr_valid g && negb (gpr_addr g =? 0) then [(gpr_addr g, gpr_wdata g)] else [])) (update_dut_gpr id_ d g).
Proof.
  intros Hp Hl. unfold update_dut_gpr. apply does_ask. intros b Eb. rewrite Hl, orb_false_r by done.
  destruct (gpr_valid g); cbn [negb andb]; [|by apply does_ret].
  apply (does_eq _ (entries Dut int_reg (if negb (gpr_addr g =? 0) then [(gpr_addr g, gpr_wdata g)] else []) ++ [])); [apply app_nil_r|].
  apply does_bind.
  - unfold update_reg. rewrite !bool_decide_true by done. cbn [andb].
    destruct (gpr_addr g =? 0); cbn [negb]; [apply does_ret|by apply does_set].
  - intros _. apply does_ask. intros b' Eb'. unfold in_patching. rewrite (plain_no_patch md) by done.
    apply does_ret.
Qed.
Lemma does_dut_fpr md g :
  plain md → does md (entries Dut fp_reg (if fpr_valid g then [(fpr_addr g, fpr_wdata g)] else [])) (update_dut_fpr id_ g).
Proof.
  intros Hp. unfold update_dut_fpr. destruct (fpr_valid g); cbn [negb]; [|by apply does_ret].
  apply (does_bind md [_] []); [by apply does_set|].
  intros _. apply does_ask. intros b' Eb'. unfold in_patching. rewrite (plain_no_patch md) by done. apply does_ret.
Qed.

Definition reg_entries (d : rv_instr_t) : list entry :=
  (if reg_checked fl (cf_gpr_check fl) then entries Dut int_reg (gpr_writes d) else []) ++
  (if reg_checked fl (cf_fpr_check fl) then entries Dut fp_reg (fpr_writes d) else []).
Lemma does_dut_regs md d :
  plain md → (∀ b, cmode b = md → load_fault b d = false) →
  does md (reg_entries d) (update_dut_regs fl ip ca kp csr_info hart id_ d).
Proof.
  intros Hp Hl. unfold update_dut_regs, reg_entries.
  apply does_bind; [apply does_doif; intros _; apply does_each; intros g; by apply does_dut_gpr|intros _].
  eapply does_eq; [apply app_nil_r|].
  apply does_bind; [apply does_doif; intros _; apply does_each; intros g; by apply does_dut_fpr|intros _].
  apply does_calm. within.
Qed.

Lemma no_reg_entries d : i_gpr d = [] → i_fpr d = [] → reg_entries d = [].
Proof.
  intros E1 E2. unfold reg_entries, gpr_writes, fpr_writes. rewrite E1, E2.
  by destruct (reg_checked fl (cf_gpr_check fl)), (reg_checked fl (cf_fpr_check fl)).
Qed.
Lemma does_dut_regs_any md d :
  plain md → (∀ b, cmode b = md → load_fault b d = false) →
  does md (reg_entries d)
    (doif (negb (bool_decide (i_gpr d = []) && bool_decide (i_fpr d = []) && bool_decide (i_vr d = []) && bool_decide (i_csr d = [])))
       (update_dut_regs fl ip ca kp csr_info hart id_ d)).
Proof.
  intros Hp Hl. destruct (negb _) eqn:E; cbn [doif]; [by apply does_dut_regs|].
  apply negb_false_iff in E. rewrite !andb_true_iff, !bool_decide_eq_true in E. destruct E as [[[E1 E2] _] _].
  rewrite no_reg_entries by done. apply does_ret.
Qed.

(** What follows the privilege mode. *)
Lemma does_dut_rest md d (p q r s : bool) m1 m2 :
  plain md → (∀ b, cmode b = md → load_fault b d = false) → within calm m1 → within calm m2 →
  does md (reg_entries d)
    (doif p m1;; doif q m2;;
     doif (negb (bool_decide (i_gpr d = []) && bool_decide (i_fpr d = []) && bool_decide (i_vr d = []) && bool_decide (i_csr d = [])))
       (update_dut_regs fl ip ca kp csr_info hart id_ d);;
     doif r (update_attrs Dut (i_mem_read d));; doif s (update_attrs Dut (i_mem_write d));; mret d).
Proof.
  intros Hp Hl H1 H2. apply (does_bind md [] _); [apply does_calm; within|intros _].
  apply (does_bind md [] _); [apply does_calm; within|intros _].
  eapply does_eq; [apply app_nil_r|]. apply does_bind; [by apply does_dut_regs_any|intros _]. apply does_calm. within.
Qed.

Lemma does_dut_state md d :
  plain md → (∀ b, cmode b = md → load_fault b d = false) →
  does md (pc_entries Dut (pc_rdata (i_pc d)) (shown_priv d) ++ reg_entries d)
    (update_dut_state fl ip ca kp csr_info hart id_ d).
Proof.
  intros Hp Hl. unfold update_dut_state, pc_entries, shown_priv. apply does_ask. intros b Eb.
  assert (((is_patch NO_PATCH (id b) || is_patch ENTER_PATCH (id b)) && negb (bc_skip_de (id b)))%bool = true) as Hplain.
  { rewrite !(plain_no_patch md) by done. unfold plain in Hp. rewrite <- Eb in Hp. unfold id. injection Hp as _ -> _. done. }
  cbv zeta. rewrite Hplain, !andb_true_r, <- app_assoc.
  apply does_bind; [apply does_doif; intros _; by apply does_set|intros _].
  destruct (i_priv d =? DP); [rewrite andb_true_r|rewrite andb_false_r].
  - destruct (cf_priv_check fl).
    + apply does_bind; [by apply does_set|intros _]. change (reg_entries d) with (reg_entries (d <| i_priv := DE |>)).
      apply (does_dut_rest md (d <| i_priv := DE |>)); [done|exact Hl|within|unfold update_flags; within].
    + apply (does_bind md [] _); [apply does_ret|intros _]. apply does_dut_rest; [done|done|within|unfold update_flags; within].
  - apply does_bind; [apply does_doif; intros _; by apply does_set|intros _]. apply does_dut_rest; [done|done|within|unfold update_flags; within].
Qed.

(** ** The simulator's state *)

(** Steps that do not change the simulator. *)
Definition same_iss (y y' : sys I C) : Prop := y_i y' = y_i y.
#[local] Instance same_iss_preorder : PreOrder same_iss.
Proof. unfold same_iss. split; [done|]. by intros x y z -> ->. Qed.
Lemma same_iss_put f : within same_iss (put f).
Proof. intros y. by apply post_put. Qed.
Lemma same_iss_cac {A} (f : C → C * A) : within same_iss (cac f).
Proof. intros y. by apply post_cac. Qed.
Lemma same_iss_csr_cac {A} (f : C → C * A) : within same_iss (csr_cac f).
Proof. intros y y' a. unfold csr_cac. destruct (f (y_k y)). by intros [= <- <-]. Qed.
Lemma same_iss_report : within same_iss report.
Proof. by intros y y' a [= <- <-]. Qed.
#[local] Hint Resolve same_iss_put same_iss_cac same_iss_csr_cac same_iss_report : within.
Lemma same_iss_set src r v : within same_iss (set_resource src r v).
Proof. unfold set_resource, report_if. within. Qed.
#[local] Hint Resolve same_iss_set : within.
Lemma same_iss_reg w k : within same_iss (update_iss_reg fl ca csr_info hart w k).
Proof. unfold update_iss_reg, update_csr, update_csr_one, update_reg, peek_csr, report_if. within. Qed.
#[local] Hint Resolve same_iss_reg : within.

(** The next changes the simulator tells. *)
Fixpoint changes (n : nat) (i : I) : list (Z * Z * Z) :=
  match n with O => [] | S n => let '(i, c) := iss_change hart i in c :: changes n i end.
Definition change_writes (res : ascii) (c : Z * Z * Z) : list (Z * Z) := if c.1.1 =? chr res then [(c.1.2, c.2)] else [].
Definition change_entries (c : Z * Z * Z) : list entry :=
  (if reg_checked fl (cf_gpr_check fl) then entries IssSide int_reg (change_writes "r" c) else []) ++
  (if reg_checked fl (cf_fpr_check fl) then entries IssSide fp_reg (change_writes "f" c) else []).

Lemma does_iss_reg md w k :
  does md (change_entries (ws_resource w, ws_address w, ws_value w)) (update_iss_reg fl ca csr_info hart w k).
Proof.
  unfold update_iss_reg, change_entries, change_writes. cbn [fst snd]. destruct (ws_resource w =? chr "r") eqn:Er.
  - apply Z.eqb_eq in Er. rewrite Er. change (chr "r" =? chr "f") with false.
    eapply does_eq; [|apply does_doif; intros _; by apply (does_set md IssSide (int_reg, ws_address w))].
    by destruct (reg_checked fl (cf_gpr_check fl)), (reg_checked fl (cf_fpr_check fl)).
  - destruct (ws_resource w =? chr "f") eqn:Ef.
    + eapply does_eq; [|apply does_doif; intros _; by apply (does_set md IssSide (fp_reg, ws_address w))].
      by destruct (reg_checked fl (cf_gpr_check fl)), (reg_checked fl (cf_fpr_check fl)).
    + eapply does_eq; [|apply does_calm; unfold update_reg, update_csr, peek_csr; within].
      by destruct (reg_checked fl (cf_gpr_check fl)), (reg_checked fl (cf_fpr_check fl)).
Qed.

Lemma cmode_note_change w b : cmode (note_change_w kp sp_base sp_size w b) = cmode b.
Proof. unfold note_change_w. by repeat case_match. Qed.

Lemma take_changes_spec md n k w y i :
  cmode (y_b y) = md → y_i y = i →
  post (take_changes fl ca kp csr_info sp_base sp_size hart n k w)
    (λ _ y', cmode (y_b y') = md ∧ recorded (concat (change_entries <$> changes n i)) (y_c y) (y_c y')) y.
Proof.
  revert k w y i. induction n as [|n IH]; intros k w y i E Hi; cbn [take_changes changes].
  - apply post_ret. split; [done|apply recorded_nil].
  - apply post_bind, post_sim. intros i' [[r a] v] Ei. rewrite <- Hi, Ei. cbn [fmap list_fmap concat].
    set (w' := w <| ws_resource := r |> <| ws_address := a |> <| ws_value := v |>).
    apply post_bind. intros y1 u E1.
    assert (cmode (y_b y1) = md ∧ recorded (change_entries (r, a, v)) (y_c y) (y_c y1)) as [M1 R1].
    { by refine (does_iss_reg md w' k _ _ y1 u E1). }
    pose proof (same_iss_reg w' k _ y1 u E1) as S1. apply post_bind, post_put.
    eapply post_mono; [apply (IH _ _ _ i'); [cbn; by rewrite cmode_note_change|exact S1]|].
    intros x y2 [M2 R2]. split; [done|]. by eapply recorded_app.
Qed.

(** As [does], from a given state of the simulator. *)
Definition gets {A} (md : patch_mode * bool * bool * Z * Z) (i : I) (l : list entry) (m : B I C A) : Prop :=
  ∀ y, cmode (y_b y) = md → y_i y = i → post m (λ _ y', cmode (y_b y') = md ∧ recorded l (y_c y) (y_c y')) y.
Lemma gets_bind {A X} md i l1 l2 (m : B I C A) (k : A → B I C X) :
  does md l1 m → within same_iss m → (∀ a, gets md i l2 (k a)) → gets md i (l1 ++ l2) (m ≫= k).
Proof.
  intros Hm Hs Hk y E Ei. apply post_bind. intros y1 a E1. destruct (Hm y E y1 a E1) as [M1 R1].
  eapply post_mono; [apply Hk; [done|]|].
  - specialize (Hs y y1 a E1). cbn in Hs. congruence.
  - intros x y2 [M2 R2]. split; [done|by eapply recorded_app].
Qed.
Lemma gets_calm {A X} md i l (m : B I C A) (k : A → B I C X) :
  within calm m → within same_iss m → (∀ a, gets md i l (k a)) → gets md i l (m ≫= k).
Proof. intros Hm Hs Hk. apply (gets_bind md i [] l); [by apply does_calm|done|done]. Qed.
Lemma gets_then {A X} md i l (m : B I C A) (k : A → B I C X) :
  gets md i l m → (∀ a, within calm (k a)) → gets md i l (m ≫= k).
Proof.
  intros Hm Hk y E Ei. apply post_bind. eapply post_mono; [by apply Hm|]. intros a y1 [M1 R1]. cbn in *.
  eapply post_mono; [apply Hk|]. intros x y2 [M2 R2]. split; [by rewrite M2|].
  pose proof (recorded_app _ _ _ _ _ R1 R2) as R. by rewrite app_nil_r in R.
Qed.

Lemma cmode_note_trap p b : cmode (note_trap kp p b) = cmode b.
Proof. unfold note_trap. by repeat case_match. Qed.
Lemma cmode_count_vector w b : cmode (count_vector w b) = cmode b.
Proof. unfold count_vector. by repeat case_match. Qed.
Lemma cmode_count_amocas w b : cmode (count_amocas w b) = cmode b.
Proof. unfold count_amocas, amocas_widths_. cbn [foldl]. by repeat case_match. Qed.
Lemma calm_counts w (c : bc → bool) : within calm (put (λ b, if c b then count_amocas w b else b)).
Proof. apply calm_put. intros b. destruct (c b); [apply cmode_count_amocas|done]. Qed.
Lemma calm_note_trap p : within calm (put (note_trap kp p)).
Proof. apply calm_put, cmode_note_trap. Qed.
Lemma calm_count_vector w : within calm (put (count_vector w)).
Proof. apply calm_put, cmode_count_vector. Qed.
#[local] Hint Resolve calm_counts calm_note_trap calm_count_vector : within.

Definition iss_entries (w : whisper_state_t) (i : I) : list entry :=
  pc_entries IssSide (ws_pc w) (ws_priv_mode w) ++ concat (change_entries <$> changes (Z.to_nat (ws_change_count w)) i).

Lemma gets_iss_state md i w h :
  gets md i (iss_entries w i) (update_whisper_state fl ifl ca kp csr_info sp_base sp_size hart w h).
Proof.
  unfold update_whisper_state, iss_entries, pc_entries.
  apply gets_calm; [within|within|intros _]. apply gets_calm; [within|within|intros _].
  apply gets_calm; [within|within|intros _]. rewrite <- app_assoc.
  apply gets_bind; [apply does_doif; intros _; by apply does_set|unfold update_pc; within|intros _].
  apply gets_bind; [apply does_doif; intros _; by apply does_set|unfold update_priv; within|intros _].
  apply gets_calm; [within|within|intros rec]. apply gets_calm; [within|within|intros _].
  apply gets_calm; [unfold update_insn; within|unfold update_insn; within|intros _].
  apply gets_calm; [unfold update_flags; within|unfold update_flags; within|intros _].
  apply gets_then; [intros y E Ei; by apply take_changes_spec|intros w'].
  unfold update_mem_attr. within.
Qed.

(** ** A retirement *)

(** The record of a step. *)
Definition step_state (o : step_outcome) (w : whisper_state_t) : option whisper_state_t :=
  match o with
  | Stepped r _ => Some (stepped r w)
  | SnapshotTaken => Some (w <| ws_stop := false |> <| ws_trap := false |> <| ws_force_resynch := true |>)
  | StepThrows => None
  end.
(** The simulator when its changes are asked for: a snapshot steps nothing. *)
Definition after_step (o : step_outcome) (i i' : I) : Prop := match o with Stepped _ _ => i' = i | _ => True end.

Lemma step_spec w y :
  post (step ifl hart w)
    (λ w' y', (∃ i o, iss_step hart (ws_time w) (ws_tag w) (y_i y) = (i, o) ∧ step_state o w = Some w' ∧
                      after_step o i (y_i y')) ∧ calm y y') y.
Proof.
  apply post_and; [|apply calm_step]. unfold step. apply post_bind, post_sim. intros i o Eo. rewrite Eo.
  destruct o as [r valid| |]; [| |done].
  - assert (within same_iss (report_if (negb valid && client_check ifl))) as Hr by (unfold report_if; within).
    apply post_bind. eapply post_mono; [apply Hr|]. intros u y1 S1. apply post_ret. by exists i, (Stepped r valid).
  - apply post_bind, post_ask, post_bind, post_any. intros _ y1. apply post_bind, post_put, post_ret. by exists i, SnapshotTaken.
Qed.

Lemma changes_none n : n ≤ 0 → ∀ i : I, changes (Z.to_nat n) i = [].
Proof. intros Hn i. by replace (Z.to_nat n) with 0%nat by lia. Qed.

(** One step of the simulator, recorded along with the design's state. *)
Definition steps_to (d : rv_instr_t) (w : whisper_state_t) (l : list entry) (i : I) (w' : whisper_state_t) : Prop :=
  ∃ i' o, iss_step hart (ws_time w) (ws_tag w) i = (i', o) ∧ step_state o w = Some w' ∧ l = iss_entries w' i'.

Lemma cmode_arch w b : cmode (arch_state kp w b) = cmode b.
Proof. unfold arch_state. by repeat case_match. Qed.

Lemma step_and_record_spec md d w y :
  plain md → (∀ b, cmode b = md → load_fault b d = false) → cmode (y_b y) = md → ws_change_count w = 0 →
  post (step_and_record fl ifl ip ca kp csr_info sp_base sp_size hart id_ d w)
    (λ _ y', ∃ l w', steps_to d w l (y_i y) w' ∧ cmode (y_b y') = md ∧
       recorded (l ++ pc_entries Dut (pc_rdata (i_pc d)) (shown_priv d) ++ reg_entries d) (y_c y) (y_c y')) y.
Proof.
  intros Hp Hl E Hc. unfold step_and_record. apply post_bind, post_put. set (y0 := y <| y_b ::= clear_w |>).
  assert (cmode (y_b y0) = md) as E0 by done. change (y_i y) with (y_i y0). change (y_c y) with (y_c y0). clearbody y0. clear y E.
  apply post_bind, post_ask. unfold steps_now. rewrite (plain_no_patch md) by done. cbn [orb bool_decide].
  apply post_bind, post_bind, post_ask. rewrite (plain_no_patch md) by done. apply post_bind, post_ret, post_bind.
  eapply post_mono; [apply step_spec|]. intros w1 y1 [(i & o & Es & Ew & Ei) [M1 R1]]. rewrite E0 in M1.
  apply post_bind, post_put, post_ret. set (y2 := y1 <| y_b ::= _ |>).
  assert (cmode (y_b y2) = md) as E2 by done. change (y_i y1) with (y_i y2) in Ei. change (y_c y1) with (y_c y2) in R1.
  clearbody y2. clear y1 M1. apply post_bind, post_ask.
  assert (bc_psc_stepping (y_b y2) = false) as ->.
  { unfold plain in Hp. rewrite <- E2 in Hp. by injection Hp. }
  assert (iss_entries w1 (y_i y2) = iss_entries w1 i) as Hi.
  { destruct o; [by rewrite Ei| |done]. injection Ew as <-. unfold iss_entries. by rewrite !changes_none by (cbn; lia). }
  apply post_bind, post_bind. rewrite !bool_decide_true by done. cbn [orb].
  eapply post_mono; [by apply (gets_iss_state md (y_i y2))|]. intros w3 y3 [E3 R3].
  apply post_bind. eapply post_mono; [by apply does_dut_state|]. intros d' y4 [E4 R4]. apply post_ret, post_bind, post_put, post_ret.
  exists (iss_entries w1 i), w1. split; [by exists i, o|]. split; [cbn; by rewrite cmode_arch|].
  rewrite <- Hi. eapply (recorded_app []); [exact R1|]. by eapply recorded_app.
Qed.

Lemma calm_post_steps d w :
  cf_retire_ucode_trap fl = true → within calm (post_steps fl ifl ip ca kp csr_info dam sp_base sp_size hart d w).
Proof.
  intros Hu. unfold post_steps, post_step_debug_poke, post_step_exception_check, exception_check, custom_exception, poke_checked,
    report_if. rewrite Hu. within.
Qed.

(** The two sides agree on everything recorded since the last comparison. *)
Definition agree (c : C) : Prop := ∀ r, cac_touched r c → cac_val Dut r c = cac_val IssSide r c.
Definition agreed (v : option verdict) (c : C) : Prop := v = Some Agreed → agree c.

Lemma compare_agreed w d y :
  post (compare_dut_whisper_state fl ifl ip kp mmap dam sep_base sep_end hart w d) (λ p _, agreed (Some p.1) (y_c y)) y.
Proof.
  unfold compare_dut_whisper_state. apply post_bind, post_cac. intros c u [= <- <-].
  apply post_bind, post_cac. intros c p [= <- <-]. destruct (cac_strings _) as [[res dut] iss].
  apply post_bind, post_cac. intros c b [= <- <-]. destruct (cac_status _) eqn:E.
  - apply post_bind, post_any. intros d' y'. apply post_ret. intros _ r. cbn [y_c] in *. by apply law_step_sound.
  - assert (∀ v : verdict, v ≠ Agreed → agreed (Some v) (y_c y)) as H by (intros v Hv [= ->]; done).
    apply post_bind, post_any. intros _ y1. destruct (if_cosim_resynch ifl).
    + apply post_bind, post_any. intros _ y2. by apply post_ret, H.
    + apply post_bind, post_any. intros [|] y2; [apply post_bind, post_any; intros _ y3; by apply post_ret, H|].
      apply post_bind, post_any. intros [|] y3; [apply post_bind, post_any; intros _ y4; by apply post_ret, H|].
      apply post_bind, post_put, post_bind, post_any. intros _ y4. by apply post_ret, H.
Qed.

Lemma finish_agreed d w y :
  post (finish_retire fl ifl ip ca kp mmap dam sep_base sep_end hart d w) (λ p _, agreed p.1 (y_c y)) y.
Proof.
  unfold finish_retire. apply post_bind, post_ask. destruct (bc_excp_in_debug _).
  - apply post_bind, post_any. intros _ y1. by apply post_ret.
  - apply post_bind, post_ask, post_bind. eapply (post_mono _ (λ p _, agreed p.1 (y_c y))).
    + destruct (steps_now _); [|by apply post_ret]. apply post_bind, post_put, post_bind.
      eapply post_mono; [apply compare_agreed|]. intros [v d'] y1 H. apply post_bind, post_put, post_ret. exact H.
    + intros [v d'] y1 H. apply post_bind, post_ask, post_bind, post_any. intros _ y2. apply post_bind, post_any. intros _ y3.
      by apply post_ret.
Qed.

Lemma retire_instr_agreed md d w y :
  plain md → (∀ b, cmode b = md → load_fault b d = false) → cf_retire_ucode_trap fl = true →
  cmode (y_b y) = md → ws_change_count w = 0 →
  post (retire_instr fl ifl ip ca kp csr_info mmap dam sp_base sp_size sep_base sep_end hart id_ d w)
    (λ p _, p.1 = Some Agreed → ∃ y1 l w' c,
       before_step fl ifl ip kp dam hart d w y = Some (y1, true) ∧ steps_to d w l (y_i y1) w' ∧
       recorded (l ++ pc_entries Dut (pc_rdata (i_pc d)) (shown_priv d) ++ reg_entries d) (y_c y) c ∧ agree c) y.
Proof.
  intros Hp Hl Hu E Hc. unfold retire_instr. apply post_bind. intros y1 go E1.
  destruct (calm_before_step d w y y1 go E1) as [M1 R1]. destruct go; cbn [negb]; [|by apply post_ret].
  apply post_bind. eapply post_mono; [apply (step_and_record_spec md); [done..|congruence|done]|].
  intros [w2 d2] y2 (l & w' & S2 & M2 & R2). destruct (error_instr fl d2 w2).
  - apply post_bind, post_any. intros _ y3. by apply post_ret.
  - apply post_bind. eapply post_mono; [by apply calm_post_steps|]. intros w3 y3 [M3 R3].
    eapply post_mono; [apply finish_agreed|]. intros [v d3] y4 H Hv. exists y1, l, w', (y_c y3).
    split_and!; [done|done| |by apply H]. pose proof (recorded_app _ _ _ _ _ R2 R3) as R. rewrite app_nil_r in R.
    exact (recorded_app [] _ _ _ _ R1 R).
Qed.

(** ** What agreement means *)

Fixpoint last_write (ws : list (Z * Z)) (a : Z) : option Z :=
  match ws with [] => None | (x, v) :: ws => last_write ws a ∪ (if x =? a then Some v else None) end.
Lemma last_write_app ws1 ws2 a : last_write (ws1 ++ ws2) a = last_write ws2 a ∪ last_write ws1 a.
Proof.
  induction ws1 as [|[x v] ws1 IH]; cbn [last_write app]; [by destruct (last_write ws2 a)|]. rewrite IH.
  by destruct (last_write ws2 a), (last_write ws1 a), (x =? a).
Qed.
Lemma last_rec_entries src rr ws s r a :
  last_rec (entries src rr ws) s (r, a) = if decide (s = src ∧ r = rr) then (λ v, [v]) <$> last_write ws a else None.
Proof.
  induction ws as [|[x v] ws IH]; cbn [entries fmap list_fmap last_rec last_write]; [by destruct (decide _)|].
  fold (entries src rr ws). rewrite IH. destruct (decide (s = src ∧ r = rr)) as [[-> ->]|Hn].
  - destruct (Z.eqb_spec x a) as [->|Hx]; [rewrite decide_True by done|rewrite decide_False by naive_solver];
      by destruct (last_write ws a).
  - by rewrite decide_False by naive_solver.
Qed.

(** The simulator's writes, from its changes. *)
Definition iss_writes (res : ascii) (cs : list (Z * Z * Z)) : list (Z * Z) := concat (change_writes res <$> cs).

Lemma last_rec_changes rr res on cs a :
  (rr, res, on) = (int_reg, "r"%char, reg_checked fl (cf_gpr_check fl)) ∨ (rr, res, on) = (fp_reg, "f"%char, reg_checked fl (cf_fpr_check fl)) →
  on = true →
  last_rec (concat (change_entries <$> cs)) IssSide (rr, a) = (λ v, [v]) <$> last_write (iss_writes res cs) a.
Proof.
  intros H Hon. induction cs as [|c cs IH]; [done|]. unfold iss_writes. cbn [fmap list_fmap concat].
  rewrite last_rec_app, last_write_app, IH. fold (iss_writes res cs).
  assert (last_rec (change_entries c) IssSide (rr, a) = (λ v, [v]) <$> last_write (change_writes res c) a) as ->.
  { unfold change_entries. rewrite last_rec_app.
    destruct H as [[= -> -> E]|[= -> -> E]]; rewrite <- E, Hon, !last_rec_entries;
      [destruct (reg_checked fl (cf_fpr_check fl))|destruct (reg_checked fl (cf_gpr_check fl))]; rewrite ?last_rec_entries;
      repeat first [rewrite decide_True by done|rewrite decide_False by (by intros [])]; cbn [last_rec];
      repeat match goal with |- context [last_write ?l a] => destruct (last_write l a) end; done. }
  by destruct (last_write (iss_writes res cs) a), (last_write (change_writes res c) a).
Qed.

Lemma cmode_via_ebreak d b : cmode (check_debug_mode_entry_via_ebreak d b) = cmode b.
Proof. unfold check_debug_mode_entry_via_ebreak. by destruct (_ && _)%bool. Qed.

Lemma process_agreed md d y :
  plain md → (∀ b, cmode b = md → load_fault b d = false) → cf_retire_ucode_trap fl = true → cmode (y_b y) = md →
  let w := whisper_state_new (i_tag d) (i_cycle d) in
  post (process_dut_instr_retire fl ifl ip ca kp csr_info mmap dam sp_base sp_size sep_base sep_end hart id_ d)
    (λ p _, p.1 = Some Agreed → ∃ y0 y1 l w' c, y_i y0 = y_i y ∧
       before_step fl ifl ip kp dam hart d w y0 = Some (y1, true) ∧ steps_to d w l (y_i y1) w' ∧
       recorded (l ++ pc_entries Dut (pc_rdata (i_pc d)) (shown_priv d) ++ reg_entries d) (y_c y) c ∧ agree c) y.
Proof.
  intros Hp Hl Hu E w. unfold process_dut_instr_retire. apply post_bind, post_put. destruct (negb (cf_whisper_exec fl)); [by apply post_ret|].
  apply post_bind. unfold pre_step_debug_entry. destruct (debug_record fl kp d) eqn:Er.
  { apply post_any. intros _ y1. by apply post_ret. }
  assert ((negb (cf_debugrom fl) || negb (i_excp d && (i_ecause d =? kp_DBG_ENTRY kp)))%bool = true) as ->.
  { unfold debug_record in Er. apply orb_false_iff in Er as [_ Er]. by destruct (cf_debugrom fl), (i_excp d), (i_ecause d =? kp_DBG_ENTRY kp). }
  apply post_ret, post_bind, post_put, post_bind, post_ask.
  set (y0 := (_ : sys I C)). assert (cmode (y_b y0) = md) as E0 by (cbn; by rewrite cmode_via_ebreak).
  change (y_c y) with (y_c y0). assert (y_i y0 = y_i y) as Hi by done. clearbody y0.
  rewrite (plain_no_patch md) by done. rewrite bool_decide_false by done. cbn [andb].
  assert (bc_skip_de (id (y_b y0)) = false) as ->.
  { unfold plain in Hp. rewrite <- E0 in Hp. by injection Hp. }
  eapply post_mono; [by apply (retire_instr_agreed md)|]. intros p y' H Hv. destruct (H Hv) as (y1 & l & w' & c & H'). by exists y0, y1, l, w', c.
Qed.

Lemma last_rec_none l s r : (∀ v, (s, r, v) ∉ l) → last_rec l s r = None.
Proof. intros H. destruct (last_rec l s r) as [v|] eqn:E; [|done]. by apply last_rec_some, H in E. Qed.
Lemma in_entries src rr ws s r v : (s, r, v) ∈ entries src rr ws → s = src ∧ r.1 = rr.
Proof. unfold entries. intros ([a x] & [= -> -> ->] & _)%list_elem_of_fmap. done. Qed.
Lemma in_pc_entries src pc pr s r v : (s, r, v) ∈ pc_entries src pc pr → s = src ∧ (r = (pc_reg, 0) ∨ r = (priv_mode, 0)).
Proof. unfold pc_entries. destruct (cf_pc_check fl), (cf_priv_check fl); set_solver. Qed.
Lemma in_reg_entries d s r v : (s, r, v) ∈ reg_entries d → s = Dut ∧ (r.1 = int_reg ∨ r.1 = fp_reg).
Proof.
  unfold reg_entries. intros [H|H]%elem_of_app.
  - destruct (reg_checked _ _); [|set_solver]. apply in_entries in H. naive_solver.
  - destruct (reg_checked _ _); [|set_solver]. apply in_entries in H. naive_solver.
Qed.
Lemma in_changes cs s r v : (s, r, v) ∈ concat (change_entries <$> cs) → s = IssSide ∧ (r.1 = int_reg ∨ r.1 = fp_reg).
Proof.
  induction cs as [|c cs IH]; cbn [fmap list_fmap concat]; [set_solver|]. unfold change_entries at 1.
  intros [[H|H]%elem_of_app|H]%elem_of_app; [| |by apply IH].
  - destruct (reg_checked _ _); [|set_solver]. apply in_entries in H. naive_solver.
  - destruct (reg_checked _ _); [|set_solver]. apply in_entries in H. naive_solver.
Qed.
Lemma last_rec_reg rr on ws d a :
  (rr, on, ws) = (int_reg, reg_checked fl (cf_gpr_check fl), gpr_writes d) ∨ (rr, on, ws) = (fp_reg, reg_checked fl (cf_fpr_check fl), fpr_writes d) →
  on = true → last_rec (reg_entries d) Dut (rr, a) = (λ v, [v]) <$> last_write ws a.
Proof.
  intros H Hon. unfold reg_entries. rewrite last_rec_app.
  destruct H as [[= -> E ->]|[= -> E ->]]; rewrite <- E, Hon, !last_rec_entries;
    [destruct (reg_checked fl (cf_fpr_check fl))|destruct (reg_checked fl (cf_gpr_check fl))]; rewrite ?last_rec_entries;
    repeat first [rewrite decide_True by done|rewrite decide_False by (by intros [])]; cbn [last_rec];
    repeat match goal with |- context [last_write ?l a] => destruct (last_write l a) end; done.
Qed.

Lemma recorded_agree l c c' r :
  recorded l c c' → agree c' → core r = true → is_Some (last_rec l Dut r) ∨ is_Some (last_rec l IssSide r) →
  last_rec l Dut r ∪ cac_val Dut r c = last_rec l IssSide r ∪ cac_val IssSide r c.
Proof. intros [V T] A Hr H. rewrite <- !V by done. apply A, T; [done|]. right. destruct H as [H|H]; eauto. Qed.

(** The registers [a] that either side wrote, with the value recorded for
    the other one before if only one did. *)
Definition same_results (rr : resource_t) (dut iss : list (Z * Z)) (c : C) : Prop :=
  ∀ a, is_Some (last_write dut a) ∨ is_Some (last_write iss a) →
  ((λ v, [v]) <$> last_write dut a) ∪ cac_val Dut (rr, a) c = ((λ v, [v]) <$> last_write iss a) ∪ cac_val IssSide (rr, a) c.

(** All that is recorded in a retirement. *)
Definition both_entries (d : rv_instr_t) (w : whisper_state_t) (i : I) : list entry :=
  iss_entries w i ++ pc_entries Dut (pc_rdata (i_pc d)) (shown_priv d) ++ reg_entries d.
Ltac elsewhere := intros ? Hin; first [apply in_pc_entries in Hin|apply in_reg_entries in Hin|apply in_changes in Hin]; naive_solver.

Lemma both_regs d w i r :
  r.1 = int_reg ∨ r.1 = fp_reg →
  last_rec (both_entries d w i) Dut r = last_rec (reg_entries d) Dut r ∧
  last_rec (both_entries d w i) IssSide r =
    last_rec (concat (change_entries <$> changes (Z.to_nat (ws_change_count w)) i)) IssSide r.
Proof.
  intros Hr. unfold both_entries, iss_entries. rewrite !last_rec_app.
  rewrite (last_rec_none (pc_entries _ _ _) Dut), (last_rec_none (pc_entries IssSide _ _) IssSide),
    (last_rec_none (pc_entries Dut _ _) IssSide), (last_rec_none (reg_entries d) IssSide), (last_rec_none (concat _) Dut),
    (last_rec_none (pc_entries IssSide _ _) Dut) by elsewhere.
  by destruct (last_rec (reg_entries d) Dut r), (last_rec (concat _) IssSide r).
Qed.
Lemma both_pc d w i r :
  r = (pc_reg, 0) ∨ r = (priv_mode, 0) →
  last_rec (both_entries d w i) Dut r = last_rec (pc_entries Dut (pc_rdata (i_pc d)) (shown_priv d)) Dut r ∧
  last_rec (both_entries d w i) IssSide r = last_rec (pc_entries IssSide (ws_pc w) (ws_priv_mode w)) IssSide r.
Proof.
  intros Hr. unfold both_entries, iss_entries. rewrite !last_rec_app.
  rewrite (last_rec_none (pc_entries Dut _ _) IssSide), (last_rec_none (reg_entries d)), (last_rec_none (reg_entries d) IssSide),
    (last_rec_none (concat _) Dut), (last_rec_none (concat _) IssSide), (last_rec_none (pc_entries IssSide _ _) Dut) by elsewhere.
  by destruct (last_rec (pc_entries Dut _ _) Dut r), (last_rec (pc_entries IssSide _ _) IssSide r).
Qed.

Lemma entries_agree_pc d w i c c' :
  recorded (both_entries d w i) c c' → agree c' →
  (cf_pc_check fl = true → ws_pc w = pc_rdata (i_pc d)) ∧ (cf_priv_check fl = true → ws_priv_mode w = shown_priv d).
Proof.
  intros R A. unfold pc_entries.
  assert (∀ r, r = (pc_reg, 0) ∨ r = (priv_mode, 0) →
    let e1 := last_rec (pc_entries Dut (pc_rdata (i_pc d)) (shown_priv d)) Dut r in
    let e2 := last_rec (pc_entries IssSide (ws_pc w) (ws_priv_mode w)) IssSide r in
    is_Some e1 → is_Some e2 → e1 = e2) as H.
  { intros r Hr. destruct (both_pc d w i r Hr) as [<- <-]. cbv zeta. intros [v1 E1] [v2 E2].
    assert (core r = true) as Hc by (by destruct Hr as [->| ->]).
    pose proof (recorded_agree _ c c' r R A Hc) as H. rewrite E1, E2 in H |- *. specialize (H (or_introl (ex_intro _ _ eq_refl))).
    by destruct (cac_val Dut r c), (cac_val IssSide r c). }
  unfold pc_entries in H. split; intros Hk.
  - specialize (H (pc_reg, 0) (or_introl eq_refl)). rewrite Hk in H. destruct (cf_priv_check fl); cbn in H; naive_solver.
  - specialize (H (priv_mode, 0) (or_intror eq_refl)). rewrite Hk in H. destruct (cf_pc_check fl); cbn in H; naive_solver.
Qed.
Lemma entries_agree_regs d w i c c' rr res on ws :
  recorded (both_entries d w i) c c' → agree c' →
  (rr, res, on, ws) = (int_reg, "r"%char, reg_checked fl (cf_gpr_check fl), gpr_writes d) ∨
  (rr, res, on, ws) = (fp_reg, "f"%char, reg_checked fl (cf_fpr_check fl), fpr_writes d) →
  on = true → same_results rr ws (iss_writes res (changes (Z.to_nat (ws_change_count w)) i)) c.
Proof.
  intros R A H Hon a Ha.
  assert (core (rr, a) = true ∧ (rr = int_reg ∨ rr = fp_reg)) as [Hc Hr] by (destruct H as [[= -> _ _ _]|[= -> _ _ _]]; auto).
  destruct (both_regs d w i (rr, a) Hr) as [E1 E2].
  rewrite (last_rec_reg rr on ws) in E1 by (done || (destruct H as [[= -> _ -> ->]|[= -> _ -> ->]]; auto)).
  rewrite (last_rec_changes rr res on) in E2 by (done || (destruct H as [[= -> -> -> _]|[= -> -> -> _]]; auto)).
  rewrite <- E1, <- E2. apply (recorded_agree _ c c'); [done..|]. rewrite E1, E2.
  destruct Ha as [[v ->]|[v ->]]; cbn; eauto.
Qed.

(** C2: What agreement of design and simulator on an instruction means.  Outside
    patch routines and single-stepping comparisons, if the bridge finds no
    difference when the design retires [d], then the simulator, prepared by
    the bridge from its current state, made one step whose address and
    privilege mode are those the design reported, and every integer or
    floating-point register one of them wrote has the same value on both sides:
    the last value written, or what was recorded before on the side that did
    not write it.  Each part depends on its check being switched on; a faulting
    load's destination is not compared. *)
Theorem retire_agrees d y y' d' :
  bi_patch_mode (bc_i (y_b y)) = NO_PATCH → bc_skip_de (y_b y) = false → bc_psc_stepping (y_b y) = false →
  load_fault (y_b y) d = false → cf_retire_ucode_trap fl = true →
  process_dut_instr_retire fl ifl ip ca kp csr_info mmap dam sp_base sp_size sep_base sep_end hart id_ d y =
    Some (y', (Some Agreed, d')) →
  let w0 := whisper_state_new (i_tag d) (i_cycle d) in
  ∃ y0 y1 i o w, y_i y0 = y_i y ∧ before_step fl ifl ip kp dam hart d w0 y0 = Some (y1, true) ∧
    iss_step hart (i_cycle d) (i_tag d) (y_i y1) = (i, o) ∧ step_state o w0 = Some w ∧
    let cs := changes (Z.to_nat (ws_change_count w)) i in
    (cf_pc_check fl = true → ws_pc w = pc_rdata (i_pc d)) ∧
    (cf_priv_check fl = true → ws_priv_mode w = shown_priv d) ∧
    (reg_checked fl (cf_gpr_check fl) = true → same_results int_reg (gpr_writes d) (iss_writes "r" cs) (y_c y)) ∧
    (reg_checked fl (cf_fpr_check fl) = true → same_results fp_reg (fpr_writes d) (iss_writes "f" cs) (y_c y)).
Proof.
  intros P1 P2 P3 Hl Hu E w0.
  destruct (process_agreed (cmode (y_b y)) d y) with y' (Some Agreed, d') as (y0 & y1 & l & w & c & Hi & Hb & (i & o & Es & Ew & ->) & R & A);
    [unfold plain, cmode; cbn; congruence| |done..|].
  { intros b [= _ _ _ E1 E2]. unfold load_fault in *. by rewrite E1, E2. }
  destruct (entries_agree_pc d w i (y_c y) c R A) as [H1 H2]. exists y0, y1, i, o, w. cbv zeta.
  split_and!; [done..| |]; intros Hon; eapply entries_agree_regs; eauto.
Qed.

(** ** Verdicts *)

(** Steps that only read. *)
Lemma reads_get_csr a : within eq (get_csr ip hart Dut a : B I C Z).
Proof.
  unfold get_csr. rewrite andb_false_r. apply within_bind; [exact _| |intros ?; within].
  intros y y' x. unfold csr_cac. intros [= <- <-]. by destruct y.
Qed.
#[local] Hint Resolve reads_get_csr : within.
Lemma reads_resynch_needed instr dut iss d w :
  within eq (resynch_needed fl ip kp mmap dam sep_base sep_end hart instr dut iss d w : B I C bool).
Proof. unfold resynch_needed, resynch_on_instr, intr_csrs_mismatch. within. Qed.

Definition errors (y : sys I C) : nat := bi_errors (bc_i (y_b y)).
(** The reason not to report a difference, on the state the comparison
    leaves. *)
Definition excused (w : whisper_state_t) (d : rv_instr_t) (y : sys I C) : option bool :=
  let c := cac_step (y_c y) in
  let '(_, dut, iss) := cac_strings c in
  snd <$> resynch_needed fl ip kp mmap dam sep_base sep_end hart (instr_name (ws_disasm w)) dut iss d w (y <| y_c := cac_reset_status c |>).

Definition verdict_ok (w : whisper_state_t) (d : rv_instr_t) (v : verdict) (y y' : sys I C) : Prop :=
  match v with
  | Agreed => agree (y_c y) ∧ y_i y' = y_i y ∧ errors y' = errors y
  | Resynched => ¬ agree (y_c y) ∧ (if_cosim_resynch ifl = true ∨ excused w d y = Some true)
  | PatchResynched => ¬ agree (y_c y) ∧ bi_patch_mode (bc_i (y_b y)) = EXIT_PATCH
  | Mismatch =>
      ¬ agree (y_c y) ∧ if_cosim_resynch ifl = false ∧ excused w d y = Some false ∧
      bi_patch_mode (bc_i (y_b y)) ≠ EXIT_PATCH ∧ y_i y' = y_i y ∧ errors y' = S (errors y)
  end.

Lemma disagree c : cac_status c = true → cac_status (cac_step c) = false → ¬ agree c.
Proof. intros H1 H2 A. by rewrite (law_step_complete c H1 A) in H2. Qed.

End calm.

(** ** Registers of the simulator *)

(** Pokes of the program counter and of existing registers are accepted and
    change just that; other calls leave all of them alone. *)
Class IssRegs (I : Type) `{!Iss I} `{!IssExec I} (hart : Z) := {
  regs_poke t res a v i :
    let '(i', ok) := iss_poke hart t res a v i in
    iss_pc hart i' = (if (res =? chr "p") then v else iss_pc hart i) ∧
    (∀ x, iss_gpr hart x i' = if (res =? chr "r") && (x =? a) && (0 <? a) && (a <? 32) then v else iss_gpr hart x i) ∧
    (∀ x, iss_fpr hart x i' = if (res =? chr "f") && (x =? a) && (0 <=? a) && (a <? 32) then v else iss_fpr hart x i) ∧
    (res = chr "p" ∨ ((res = chr "r" ∨ res = chr "f") ∧ 0 ≤ a < 32) → ok = true);
  regs_poke_mem t a n v i x : let i' := (iss_poke_mem hart t a n v i).1 in
    iss_pc hart i' = iss_pc hart i ∧ iss_gpr hart x i' = iss_gpr hart x i ∧ iss_fpr hart x i' = iss_fpr hart x i;
  regs_peek res a i x : let i' := (iss_peek hart res a i).1.1 in
    iss_pc hart i' = iss_pc hart i ∧ iss_gpr hart x i' = iss_gpr hart x i ∧ iss_fpr hart x i' = iss_fpr hart x i;
  regs_check i x : let i' := (iss_check hart i).1 in
    iss_pc hart i' = iss_pc hart i ∧ iss_gpr hart x i' = iss_gpr hart x i ∧ iss_fpr hart x i' = iss_fpr hart x i;
  regs_seipin i x : let i' := (iss_seipin hart i).1 in
    iss_pc hart i' = iss_pc hart i ∧ iss_gpr hart x i' = iss_gpr hart x i ∧ iss_fpr hart x i' = iss_fpr hart x i
}.

Section regs.
Context {I C J : Type} `{!Iss I} `{!IssExec I} `{!Cac C} (hart : Z) `{!IssRegs I hart}.
Variable fl : core_flags.
Variable ifl : intr_flags.
Variable ip : intr_params.
Variable kp : core_params.

Definition same_regs (i i' : I) : Prop :=
  ∀ x, iss_pc hart i' = iss_pc hart i ∧ iss_gpr hart x i' = iss_gpr hart x i ∧ iss_fpr hart x i' = iss_fpr hart x i.
#[local] Instance same_regs_preorder : PreOrder same_regs.
Proof. split; [done|]. intros i j k H1 H2 x. by destruct (H2 x) as (-> & -> & ->), (H1 x) as (-> & -> & ->). Qed.
Definition m_regs (x x' : bi * I) : Prop := same_regs x.2 x'.2.
Definition y_regs (y y' : sys I C) : Prop := same_regs (y_i y) (y_i y').
#[local] Instance m_regs_preorder : PreOrder m_regs.
Proof. split; [by intros x v|]. intros x y z H1 H2. unfold m_regs, y_regs in *. by etrans. Qed.
#[local] Instance y_regs_preorder : PreOrder y_regs.
Proof. split; [by intros x v|]. intros x y z H1 H2. unfold m_regs, y_regs in *. by etrans. Qed.

(** A poke of something else. *)
Lemma regs_poke_other t res a v i :
  res = chr "s" ∨ res = chr "c" → same_regs i (iss_poke hart t res a v i).1.
Proof.
  intros Hr x. pose proof (regs_poke t res a v i) as H. destruct (iss_poke hart t res a v i) as [i' ok].
  destruct H as (H1 & H2 & H3 & _). cbn. rewrite H1, H2, H3. by destruct Hr as [->| ->].
Qed.
Lemma m_regs_iss {A} (f : I → I * A) : (∀ i, same_regs i (f i).1) → mwithin m_regs (iss f).
Proof. intros H x. specialize (H x.2). unfold iss, m_regs. by destruct (f x.2). Qed.
Lemma m_regs_upd f : mwithin m_regs (upd f).
Proof. by intros x. Qed.
Lemma y_regs_sim {A} (f : I → I * A) : (∀ i, same_regs i (f i).1) → within y_regs (sim f : B I C A).
Proof. intros H y. apply post_sim. intros i a E. specialize (H (y_i y)). by rewrite E in H. Qed.
Lemma same_regs_poke_mem t a n v i : same_regs i (iss_poke_mem hart t a n v i).1.
Proof. intros x. apply regs_poke_mem. Qed.
Lemma same_regs_peek res a i : same_regs i (let '(i', v, ok) := iss_peek hart res a i in (i', (v, ok))).1.
Proof. intros x. pose proof (regs_peek res a i x) as H. by destruct (iss_peek hart res a i) as [[i' v] ok]. Qed.
Lemma same_regs_check i : same_regs i (iss_check hart i).1.
Proof. intros x. apply regs_check. Qed.
Lemma same_regs_seipin i : same_regs i (iss_seipin hart i).1.
Proof. intros x. apply regs_seipin. Qed.
#[local] Hint Resolve m_regs_upd : mwithin.
#[local] Hint Extern 1 (mwithin m_regs error) => apply m_regs_upd : mwithin.
#[local] Hint Extern 1 (mwithin m_regs (iss _)) =>
  apply m_regs_iss; intros ?;
  first [apply same_regs_poke_mem|apply same_regs_peek|apply same_regs_check|apply same_regs_seipin|apply regs_poke_other; by auto] : mwithin.
Lemma msi_regs t pa v u : mwithin m_regs (process_imsic_msi ifl ip hart t pa v u).
Proof.
  unfold process_imsic_msi, imsic_effect, peek_seip, peek_mip, check_mip_change, check_and_defer_interrupt, check_interrupt, peek_deferred,
    defer_interrupt. mwithin.
Qed.

Lemma y_regs_put f : within y_regs (put f : B I C unit).
Proof. intros y. by apply post_put. Qed.
Lemma y_regs_intr {A} (m : M I A) : mwithin m_regs m → within y_regs (intr m : B I C A).
Proof.
  intros H y y' a. unfold intr. specialize (H (bc_i (y_b y), y_i y)). destruct (m _) as [[s i] x]. by intros [= <- <-].
Qed.
Lemma y_regs_report : within y_regs (report : B I C unit).
Proof. apply y_regs_intr, m_regs_upd. Qed.
Lemma y_regs_csr_cac {A} (f : C → C * A) : within y_regs (csr_cac f : B I C A).
Proof. intros y y' a. unfold csr_cac. destruct (f (y_k y)). by intros [= <- <-]. Qed.
#[local] Hint Resolve y_regs_put y_regs_report y_regs_csr_cac : within.
#[local] Hint Extern 1 (within y_regs (intr (process_imsic_msi _ _ _ _ _ _ _))) => apply y_regs_intr, msi_regs : within.
#[local] Hint Extern 1 (within y_regs (sim _)) =>
  apply y_regs_sim; intros ?; first [apply same_regs_poke_mem|apply same_regs_peek|apply regs_poke_other; by auto] : within.

Lemma get_csr_regs a : within y_regs (get_csr ip hart Dut a : B I C Z).
Proof. unfold get_csr. rewrite andb_false_r. within. Qed.
#[local] Hint Resolve get_csr_regs : within.
Lemma claim_regs n t a g v : within y_regs (topei_claim ifl hart n t a g v : B I C unit).
Proof.
  revert v. induction n as [|n IH]; intros v; cbn [topei_claim]; unfold peek_resource, poke_resource, report_if; within.
Qed.
#[local] Hint Resolve claim_regs : within.
Lemma resynch_csr_regs d c : within y_regs (resynch_csr fl ifl ip kp hart d c : B I C unit).
Proof. unfold resynch_csr, topei_resynch, hyp_enabled, poke_any, poke_mem, report_if. within. Qed.
Lemma resynch_store_regs d : within y_regs (resynch_store fl ifl hart d : B I C unit).
Proof. unfold resynch_store, translate, poke_mem, report_if. within. Qed.

(** ** Resynchronisation *)

Lemma poke_stops_spec t res a v y :
  res = "p"%char ∨ ((res = "r"%char ∨ res = "f"%char) ∧ 0 ≤ a < 32) →
  post (poke_stops ifl hart t res a v : B I C bool)
    (λ ok y', ok = true ∧ y_i y' = (iss_poke hart t (chr res) a v (y_i y)).1) y.
Proof.
  intros Hr. unfold poke_stops. apply post_bind, post_sim. intros i ok E. pose proof (regs_poke t (chr res) a v (y_i y)) as H.
  rewrite E in H. destruct H as (_ & _ & _ & H). rewrite H; [cbn [negb andb]; apply post_ret; by rewrite E|].
  destruct Hr as [->|[[->| ->] Ha]]; auto.
Qed.

Lemma default_union (o1 o2 : option Z) v : default v (o1 ∪ o2) = default (default v o2) o1.
Proof. by destruct o1, o2. Qed.

Lemma poke_gprs t l y :
  Forall (λ g, gpr_valid g = true → 0 ≤ gpr_addr g < 32) l →
  post (each_while (λ g, if gpr_valid g then poke_stops ifl hart t "r" (gpr_addr g) (gpr_wdata g) else mret true) l : B I C bool)
    (λ ok y', ok = true ∧ iss_pc hart (y_i y') = iss_pc hart (y_i y) ∧ (∀ x, iss_fpr hart x (y_i y') = iss_fpr hart x (y_i y)) ∧
       ∀ x, iss_gpr hart x (y_i y') = default (iss_gpr hart x (y_i y)) (last_write
         (concat ((λ g, if gpr_valid g && negb (gpr_addr g =? 0) then [(gpr_addr g, gpr_wdata g)] else []) <$> l)) x)) y.
Proof.
  intros Hl. revert y. induction Hl as [|g l Hg _ IH]; intros y; cbn [each_while fmap list_fmap concat]; [by apply post_ret|].
  apply post_bind. destruct (gpr_valid g) eqn:Eg; cbn [andb].
  - eapply post_mono; [apply poke_stops_spec; auto|]. intros ok y1 [-> E1]. eapply post_mono; [apply IH|].
    intros ok y2 (-> & P2 & F2 & G2). pose proof (regs_poke t (chr "r") (gpr_addr g) (gpr_wdata g) (y_i y)) as H.
    destruct (iss_poke hart t (chr "r") (gpr_addr g) (gpr_wdata g) (y_i y)) as [i ok]. destruct H as (P1 & G1 & F1 & _).
    cbn in E1. subst i. change (chr "r" =? chr "p") with false in P1. change (chr "r" =? chr "f") with false in F1.
    split_and!; [done|congruence|intros x; by rewrite F2, F1|]. intros x.
    rewrite G2, G1, last_write_app, default_union. change (chr "r" =? chr "r") with true. cbn [andb].
    rewrite (proj2 (Z.ltb_lt (gpr_addr g) 32)), andb_true_r by (specialize (Hg eq_refl); lia). f_equal.
    specialize (Hg eq_refl). destruct (Z.eqb_spec (gpr_addr g) 0) as [E0|E0]; cbn [negb last_write].
    + by rewrite E0, andb_false_r.
    + rewrite (proj2 (Z.ltb_lt 0 (gpr_addr g))), andb_true_r, (Z.eqb_sym x) by lia. by destruct (gpr_addr g =? x).
  - apply post_ret. cbn. apply IH.
Qed.
Lemma poke_fprs t l y :
  Forall (λ g, fpr_valid g = true → 0 ≤ fpr_addr g < 32) l →
  post (each_while (λ g, if fpr_valid g then poke_stops ifl hart t "f" (fpr_addr g) (fpr_wdata g) else mret true) l : B I C bool)
    (λ ok y', ok = true ∧ iss_pc hart (y_i y') = iss_pc hart (y_i y) ∧ (∀ x, iss_gpr hart x (y_i y') = iss_gpr hart x (y_i y)) ∧
       ∀ x, iss_fpr hart x (y_i y') = default (iss_fpr hart x (y_i y)) (last_write
         (concat ((λ g, if fpr_valid g then [(fpr_addr g, fpr_wdata g)] else []) <$> l)) x)) y.
Proof.
  intros Hl. revert y. induction Hl as [|g l Hg _ IH]; intros y; cbn [each_while fmap list_fmap concat]; [by apply post_ret|].
  apply post_bind. destruct (fpr_valid g) eqn:Eg.
  - eapply post_mono; [apply poke_stops_spec; auto|]. intros ok y1 [-> E1]. eapply post_mono; [apply IH|].
    intros ok y2 (-> & P2 & G2 & F2). pose proof (regs_poke t (chr "f") (fpr_addr g) (fpr_wdata g) (y_i y)) as H.
    destruct (iss_poke hart t (chr "f") (fpr_addr g) (fpr_wdata g) (y_i y)) as [i ok]. destruct H as (P1 & G1 & F1 & _).
    cbn in E1. subst i. change (chr "f" =? chr "p") with false in P1. change (chr "f" =? chr "r") with false in G1.
    split_and!; [done|congruence|intros x; by rewrite G2, G1|]. intros x.
    rewrite F2, F1, last_write_app, default_union. change (chr "f" =? chr "f") with true. cbn [andb last_write].
    specialize (Hg eq_refl). rewrite (proj2 (Z.ltb_lt (fpr_addr g) 32)), (proj2 (Z.leb_le 0 (fpr_addr g))), !andb_true_r by lia.
    rewrite (Z.eqb_sym x). by destruct (fpr_addr g =? x).
  - apply post_ret. cbn. apply IH.
Qed.

Lemma resynch_pc_spec d y :
  post (resynch_pc ifl hart d : B I C bool)
    (λ ok y', ok = true ∧
       iss_pc hart (y_i y') = (if (pc_rdata (i_pc d) =? wi_pc (bc_w (y_b y))) || is_patch EXIT_PATCH (y_b y)
                               then iss_pc hart (y_i y) else pc_rdata (i_pc d)) ∧
       ∀ x, iss_gpr hart x (y_i y') = iss_gpr hart x (y_i y) ∧ iss_fpr hart x (y_i y') = iss_fpr hart x (y_i y)) y.
Proof.
  unfold resynch_pc. apply post_bind, post_ask. unfold id. rewrite <- negb_orb. destruct (_ || _)%bool; cbn [negb]; [by apply post_ret|].
  eapply post_mono; [by apply poke_stops_spec; left|]. intros ok y1 [-> E1].
  pose proof (regs_poke (i_cycle d) (chr "p") 0 (pc_rdata (i_pc d)) (y_i y)) as H.
  destruct (iss_poke hart (i_cycle d) (chr "p") 0 (pc_rdata (i_pc d)) (y_i y)) as [i ok]. destruct H as (P1 & G1 & F1 & _).
  cbn in E1. subst i. split_and!; [done|done|]. intros x. by rewrite G1, F1.
Qed.
#[local] Hint Resolve resynch_csr_regs resynch_store_regs : within.

End regs.

(** ** Exceptions *)

Section exceptions.
Context {I C J : Type} `{!Iss I} `{!IssExec I} `{!Cac C}.
Variable fl : core_flags.
Variable ifl : intr_flags.
Variable ip : intr_params.
Variable ca : csr_addrs.
Variable kp : core_params.
Variable csr_info : Z → option csr_base.
Variable dam : dam_flags.
Variables (sp_base sp_size hart : Z).

(** One side took an exception and the other did not, or for another cause. *)
Definition excp_mismatch (d : rv_instr_t) (w : iss_instr) : bool :=
  xorb (i_excp d) (wi_excp w) || (i_excp d && wi_excp w && negb (i_ecause d =? wi_ecause w)).

Lemma exception_check_run d (w : whisper_state_t) (y : sys I C) :
  cf_retire_ucode_trap fl = true →
  let wrong := excp_mismatch d (bc_w (y_b y)) && negb (if_cosim_resynch ifl) in
  ∃ y', exception_check fl ifl ca kp csr_info sp_base sp_size hart d w y = Some (y', w) ∧
    bi_errors (bc_i (y_b y')) = (bi_errors (bc_i (y_b y)) + if wrong then 1 else 0)%nat ∧
    y_i y' = y_i y ∧ y_c y' = y_c y ∧
    mt_exceptions (bc_metrics (y_b y')) = (if negb wrong then bump (i_ecause d) else id) (mt_exceptions (bc_metrics (y_b y))).
Proof.
  intros Hu wrong. unfold exception_check. rewrite Hu, run_ask. unfold wrong, excp_mismatch.
  destruct (i_excp d), (wi_excp (bc_w (y_b y))), (i_ecause d =? wi_ecause (bc_w (y_b y))), (if_cosim_resynch ifl);
    cbn [andb orb negb xorb]; (eexists; split; [reflexivity|]; split_and!; [cbn; lia|done..]).
Qed.

End exceptions.

(** ** Delayed writes of satp *)

Section satp.
Context {I C : Type} `{!Iss I} `{!IssExec I} `{!Cac C}.
Variable fl : core_flags.
Variable kp : core_params.
Variable hart : Z.
Definition iss_satp (y : sys I C) : Z := cp_value (iss_csr hart (kp_satp kp) (y_i y)).

(** The simulator's register holds what is poked. *)
Hypothesis poked : ∀ t v i, cp_value (iss_csr hart (kp_satp kp) (iss_poke hart t (chr "c") (kp_satp kp) v i).1) = v.

Definition is_satp (c : csr_t) : bool := csr_addr c =? kp_satp kp.
Definition satp_writes (y : sys I C) : list csr_t := List.filter is_satp (wi_csr (bc_w (y_b y))).

Lemma delay_none t ws (y : sys I C) : List.filter is_satp ws = [] → each_while (delay_satp kp hart t) ws y = Some (y, true).
Proof.
  unfold is_satp. induction ws as [|c ws IH]; cbn [List.filter each_while]; [done|]. destruct (csr_addr c =? kp_satp kp) eqn:E; [done|].
  intros H. unfold mbind, B_bind, delay_satp at 1. rewrite E. by apply IH.
Qed.

(** The state after a write. *)
Definition satp_written (v : Z) (y y' : sys I C) : Prop :=
  let same := mode_asid v =? mode_asid (bc_satp (y_b y)) in
  bc_new_satp (y_b y') = v ∧ bc_satp (y_b y') = (if same then bc_satp (y_b y) else v) ∧
  (if same then iss_satp y' = bc_satp (y_b y) else y_i y' = y_i y).

Lemma delay_run t c (y : sys I C) :
  is_satp c = true → ∃ y' go, delay_satp kp hart t c y = Some (y', go) ∧ satp_written (csr_wdata c) y y'.
Proof.
  unfold is_satp. intros E. unfold delay_satp. rewrite E. cbn [negb]. rewrite run_put, run_ask. unfold satp_written.
  change (bc_new_satp (id (y_b _))) with (csr_wdata c). change (bc_satp (id (y_b _))) with (bc_satp (y_b y)).
  destruct (mode_asid (csr_wdata c) =? mode_asid (bc_satp (y_b y))); cbn [negb]; [|by eexists _, false].
  unfold poke_any, mbind, B_bind, sim. pose proof (poked t (bc_satp (y_b y)) (y_i y)) as Hk. change (y_i (y <| y_b ::= _ |>)) with (y_i y).
  destruct (iss_poke hart t (chr "c") (kp_satp kp) (bc_satp (y_b y)) (y_i y)) as [i ok]. by eexists _, true.
Qed.
Lemma delay_one t ws c (y : sys I C) :
  List.filter is_satp ws = [c] →
  ∃ y' go, each_while (delay_satp kp hart t) ws y = Some (y', go) ∧ satp_written (csr_wdata c) y y'.
Proof.
  induction ws as [|c' ws IH]; cbn [List.filter each_while]; [done|]. destruct (is_satp c') eqn:E.
  - intros [= -> Hn]. destruct (delay_run t c y E) as (y' & go & E' & S'). unfold mbind, B_bind. rewrite E'.
    destruct go; [exists y', true|exists y', false]; (split; [|done]); [by apply delay_none|done].
  - intros H. destruct (IH H) as (y' & go & E' & S'). exists y', go. split; [|done]. unfold mbind, B_bind, delay_satp at 1.
    unfold is_satp in E. by rewrite E.
Qed.

End satp.

(** ** Tests that never hold *)

(** The test for whole-register vector accesses looks for bit 3 behind a mask
    without it. *)
Lemma vec_reg_whole_reg_never opcode : vec_reg_whole_reg opcode = false.
Proof.
  unfold vec_reg_whole_reg. destruct (Z.eqb_spec (opcode &&& 0x1f00000) 0x8) as [E|]; [|done]. exfalso.
  apply (f_equal (λ v, Z.testbit v 3)) in E. rewrite Z.land_spec in E. change (Z.testbit 0x1f00000 3) with false in E.
  by rewrite andb_false_r in E.
Qed.
(** None of the bits of medeleg that hide with misa.H, and neither MPV nor GVA of
    mstatus, is in the mask that restores them. *)
Lemma hyp_masks_miss : hypervisor_mask_map_ 0x302 &&& 0xF00400 = 0 ∧ hypervisor_mask_map_ 0x300 &&& (3 ≪ 38) = 0.
Proof. done. Qed.

(** ** A checker and a simulator

    A checker that keeps everything recorded, newest first, and a simulator
    of one hart that executes [addi x5, x0, 7] over and over. *)

Record flat := Flat { ft_vals : list entry; ft_touched : list resource_id; ft_ok : bool }.
Fixpoint ft_find (l : list entry) (s : src_t) (r : resource_id) : option (list Z) :=
  match l with [] => None | (s', r', v) :: l => if decide (s = s' ∧ r = r') then Some v else ft_find l s r end.
Definition ft_val (s : src_t) (r : resource_id) (c : flat) : option (list Z) := ft_find (ft_vals c) s r.
Definition ft_set (s : src_t) (r : resource_id) (v : list Z) (c : flat) : flat := Flat ((s, r, v) :: ft_vals c) (r :: ft_touched c) (ft_ok c).
Definition ft_step (c : flat) : flat :=
  Flat (ft_vals c) [] (ft_ok c && forallb (λ r, bool_decide (ft_val Dut r c = ft_val IssSide r c)) (ft_touched c)).
#[export] Instance flat_cac : Cac flat := {|
  cac_set s r v c := (ft_set s r v c, true); cac_set_masked s r v _ _ c := (ft_set s r v c, true);
  cac_get s r c := ft_val s r c; cac_step := ft_step; cac_status := ft_ok;
  cac_reset_status c := Flat (ft_vals c) (ft_touched c) true; cac_strings _ := ("", "", "")
|}.
#[export] Program Instance flat_laws : CacLaws flat := {| cac_val := ft_val; cac_touched r c := r ∈ ft_touched c |}.
Next Obligation. intros s r v c. split_and!; [done|done|]. intros r'. cbn. apply elem_of_cons. Qed.
Next Obligation.
  intros c r [_ H]%andb_true_iff Hr. rewrite forallb_forall in H. apply list_elem_of_In, H in Hr. by apply bool_decide_eq_true in Hr.
Qed.
Next Obligation.
  intros c Hs H. apply andb_true_iff. split; [done|]. apply forallb_forall. intros r Hr%list_elem_of_In.
  by apply bool_decide_eq_true, H.
Qed.

Record toy := Toy { ty_pc : Z; ty_gpr : list (Z * Z); ty_fpr : list (Z * Z); ty_satp : Z; ty_changes : list (Z * Z * Z) }.
Definition ty_read (l : list (Z * Z)) (a : Z) : Z := default 0 (last_write l a).
Definition ty_write (l : list (Z * Z)) (lo a v : Z) : list (Z * Z) := if (lo <=? a) && (a <? 32) then l ++ [(a, v)] else l.
Definition ty_poke (res a v : Z) (i : toy) : toy :=
  if res =? chr "p" then Toy v (ty_gpr i) (ty_fpr i) (ty_satp i) (ty_changes i)
  else if res =? chr "r" then Toy (ty_pc i) (ty_write (ty_gpr i) 1 a v) (ty_fpr i) (ty_satp i) (ty_changes i)
  else if res =? chr "f" then Toy (ty_pc i) (ty_gpr i) (ty_write (ty_fpr i) 0 a v) (ty_satp i) (ty_changes i)
  else if (res =? chr "c") && (a =? 0x180) then Toy (ty_pc i) (ty_gpr i) (ty_fpr i) v (ty_changes i) else i.
#[export] Instance toy_iss : Iss toy := {|
  iss_peek _ _ _ i := (i, 0, true); iss_poke _ _ res a v i := (ty_poke res a v i, true); iss_poke_mem _ _ _ _ _ i := (i, true);
  iss_check _ i := (i, (false, 0, false)); iss_seipin _ i := (i, 0); iss_nmi _ _ _ i := i; iss_clear_nmi_cause _ _ _ i := i
|}.
Definition ty_step (i : toy) : toy * step_outcome :=
  (Toy (ty_pc i + 4) (ty_write (ty_gpr i) 1 5 7) (ty_fpr i) (ty_satp i) [(chr "r", 5, 7)],
   Stepped (Step_result (ty_pc i) 0x00700293 1 [97; 100; 100; 105] 3 0 false false false false) true).
#[export] Instance toy_exec : IssExec toy := {|
  iss_step _ _ _ := ty_step;
  iss_change _ i := match ty_changes i with
                    | [] => (i, (0, 0, 0)) | c :: l => (Toy (ty_pc i) (ty_gpr i) (ty_fpr i) (ty_satp i) l, c) end;
  iss_csr _ a i := Csr_peek (if a =? 0x180 then ty_satp i else 0) 0 0 0;
  iss_pc _ := ty_pc; iss_gpr _ a i := ty_read (ty_gpr i) a; iss_fpr _ a i := ty_read (ty_fpr i) a; iss_vpr _ _ _ := [];
  iss_last_ldst _ _ := 0; iss_eff_attr _ _ := (0, 0, true); iss_translate _ va _ _ _ _ _ _ := (va, true);
  iss_inject _ _ _ _ i := (i, true); iss_cancel_lr _ i := (i, true); iss_enter_debug _ i := i; iss_exit_debug _ i := i;
  iss_skip_read_check _ _ i := i; iss_snapshot_save i := (i, true)
|}.

Lemma ty_read_write l lo a v x :
  ty_read (ty_write l lo a v) x = if (lo <=? a) && (a <? 32) && (x =? a) then v else ty_read l x.
Proof.
  unfold ty_read, ty_write. destruct (_ && _)%bool; cbn [andb]; [|done]. rewrite last_write_app, default_union. cbn [last_write].
  rewrite Z.eqb_sym. by destruct (x =? a).
Qed.
#[export] Instance toy_regs hart : IssRegs toy hart.
Proof.
  split; [|done..]. intros t res a v i. cbn. unfold ty_poke. repeat split.
  - by repeat case_match.
  - intros x. destruct (Z.eqb_spec res (chr "p")) as [->|]; [done|]. destruct (res =? chr "r").
    + cbn [ty_gpr]. rewrite ty_read_write. replace (1 <=? a) with (0 <? a) by lia. by destruct (x =? a), (0 <? a), (a <? 32).
    + by repeat case_match.
  - intros x. destruct (Z.eqb_spec res (chr "p")) as [->|]; [done|]. destruct (Z.eqb_spec res (chr "r")) as [->|]; [done|].
    destruct (res =? chr "f").
    + cbn [ty_fpr]. rewrite ty_read_write. by destruct (x =? a), (0 <=? a), (a <? 32).
    + by repeat case_match.
Qed.

Definition toy_mem : mem_t := Mem_t false 0 0 0 0 0 0 0 0 0 false 0 false 0 false 0 false 0 0 false 0 false 0 false.
Definition toy_flags : core_flags :=
  Core_flags true false 0 false false true true true true true true true true false false true true true true 30 true 100
    true false false false "" 0 0 0 0 ∅ [] [24] [] None [].
Definition toy_iflags : intr_flags := Intr_flags true false false false 100.
Definition toy_ip : intr_params := Intr_params 0x344 0x309 0xc01 50 51 35 43 44 45.
Definition toy_kp : core_params :=
  Core_params 0x744 0x343 0x143 0x243 0x742 0x342 0x142 0x242 0xc21 0x300 0x180 0x7b1 1 2 3 0x301 0x303 0x302 0x7a0 0x7a4
    0x35c 0x15c 0x25c 0xfb0 0xdb0 0xeb0 0x144 0x644 0x244 0xe12 41 42 43 44 45.
Definition toy_y : sys toy flat := Sys (bc_new toy_mem 0) (Toy 0x80000000 [] [] 0 []) (Flat [] [] true) (Flat [] [] true).
Definition toy_d : rv_instr_t :=
  rv_instr_new toy_mem 0 <| i_valid := true |> <| i_opcode := 0x00700293 |> <| i_disasm := "addi x5, x0, 7" |> <| i_tag := 1 |>
    <| i_cycle := 10 |> <| i_pc := Pc true 0x80000000 false |> <| i_gpr := [Gpr true 5 7] |>.
Definition toy_mmap : list (string * memmap_entry unit) := [].
Definition toy_csrs (_ : Z) : option csr_base := None.
#[local] Notation toy_retire d :=
  (process_dut_instr_retire toy_flags toy_iflags toy_ip sample_addrs toy_kp toy_csrs toy_mmap sample_dam 0 0 0 0 0 0 d toy_y).

Lemma toy_agrees : (λ p, p.2.1) <$> toy_retire toy_d = Some (Some Agreed).
Proof. vm_compute. reflexivity. Qed.
(** A wrong result is reported. *)
Example toy_mismatch : (λ p, (p.2.1, bi_errors (bc_i (y_b p.1)))) <$> toy_retire (toy_d <| i_gpr := [Gpr true 5 8] |>) = Some (Some Mismatch, 1%nat).
Proof. vm_compute. reflexivity. Qed.
(** So is a register the design did not write. *)
Example toy_missing : (λ p, p.2.1) <$> toy_retire (toy_d <| i_gpr := [] |>) = Some (Some Mismatch).
Proof. vm_compute. reflexivity. Qed.

Lemma retire_agrees_witness :
  ∃ i1 i o w, ty_step i1 = (i, o) ∧ step_state o (whisper_state_new 1 10) = Some w ∧
    ws_pc w = 0x80000000 ∧ ws_priv_mode w = 3 ∧
    same_results int_reg [(5, 7)] (iss_writes "r" (changes 0 (Z.to_nat (ws_change_count w)) i)) (y_c toy_y).
Proof.
  pose proof toy_agrees as H. destruct (toy_retire toy_d) as [[y' [v d']]|] eqn:E; [|discriminate H]. cbn in H. injection H as ->.
  destruct (retire_agrees toy_flags toy_iflags toy_ip sample_addrs toy_kp toy_csrs toy_mmap sample_dam
    0 0 0 0 0 0 toy_d toy_y y' d' eq_refl eq_refl eq_refl eq_refl eq_refl E) as (y0 & y1 & i & o & w & H0 & H1 & H2 & H3 & H4 & H5 & H6 & H7).
  exists (y_i y1), i, o, w. exact (conj H2 (conj H3 (conj (H4 eq_refl) (conj (H5 eq_refl) (H6 eq_refl))))).
Defined.

(** Two values for a register are a difference the bridge has no excuse for. *)
Definition toy_differs : sys toy flat :=
  toy_y <| y_c := ft_set Dut (int_reg, 5) [8] (ft_set IssSide (int_reg, 5) [7] (Flat [] [] true)) |>.
#[local] Notation toy_compare :=
  (compare_dut_whisper_state toy_flags toy_iflags toy_ip toy_kp toy_mmap sample_dam 0 0 0 (whisper_state_new 1 10) toy_d toy_differs).
Lemma toy_compared : (λ p, p.2.1) <$> toy_compare = Some Mismatch.
Proof. vm_compute. reflexivity. Qed.

Definition toy_d3 : rv_instr_t := toy_d <| i_gpr := [Gpr true 5 8; Gpr true 6 1; Gpr true 5 9] |>.
#[local] Notation toy_resynch := (resynch toy_flags toy_iflags toy_ip toy_kp 0 toy_d3 toy_y).
Lemma toy_resynched : bool_decide (is_Some toy_resynch) = true.
Proof. vm_compute. reflexivity. Qed.

(** The design takes a page fault, the simulator none. *)
Definition toy_fault : rv_instr_t := toy_d <| i_excp := true |> <| i_ecause := 13 |>.
Lemma toy_fault_standard : is_custom_excp (i_ecause toy_fault) = false.
Proof. reflexivity. Qed.

(** satp is written with the same mode and address space, and then fenced. *)
Lemma toy_poked t v (i : toy) : cp_value (iss_csr 0 (kp_satp toy_kp) (iss_poke 0 t (chr "c") (kp_satp toy_kp) v i).1) = v.
Proof. reflexivity. Qed.
