(* ===== verification/BridgeSteps.v ===== *)
(** * BridgeSteps: catching up in periodic co-simulation
      (src/cosim/bridge/bridge.cpp, [process_steps])

    In periodic mode the design reports only how many instructions retired.
    The bridge steps the simulator that often with made-up tags and times; tags
    of instructions whose memory events were reported are skipped, since the
    simulator would take the step for one of those. *)

From Stdlib Require Import Sorted.
From S2P Require Import Prelude.

Record steps_state := Steps_state { ps_tag : Z; ps_time : Z; ps_skips : Z }.

(** [while (mcm_orders_.find(t) != end)]; [fuel] bounds its iterations. *)
Fixpoint skip_orders (fuel : nat) (orders : gset Z) (s : steps_state) : steps_state :=
  match fuel with
  | O => s
  | S fuel =>
      if decide (ps_tag s ∈ orders)
      then skip_orders fuel orders
             (Steps_state (u64 (ps_tag s + 1)) (ps_time s) (if 0 <? ps_skips s then ps_skips s - 1 else ps_skips s))
      else s
  end.

Section steps.
Variable FLAGS_mcm : bool.
(** Keys of [mcm_orders_], and instructions retired per cycle. *)
Variable orders : gset Z.
Variable n_retire : Z.

(** One iteration of the first loop, and of the second. *)
Definition missing_step (s : Z) (st : steps_state) : steps_state :=
  let st := Steps_state (u64 (ps_tag st + 1)) (ps_time st) (ps_skips st) in
  let st := if FLAGS_mcm then skip_orders (S (size orders)) orders st else st in
  if s mod n_retire =? 0 then Steps_state (ps_tag st) (u64 (ps_time st + 1)) (ps_skips st) else st.
Definition final_step (s : Z) (st : steps_state) : steps_state :=
  Steps_state (u64 (ps_tag st + 1)) (if s mod n_retire =? 0 then u64 (ps_time st + 1) else ps_time st) (ps_skips st).

(** [steps] iterations from number [s]; the pairs are the calls of [step]. *)
Fixpoint step_loop (f : Z → steps_state → steps_state) (steps : nat) (s : Z) (st : steps_state) :
    steps_state * list (Z * Z) :=
  match steps with
  | O => (st, [])
  | S steps =>
      let st := f s st in
      let '(st', calls) := step_loop f steps (s + 1) st in
      (st', (ps_tag st, ps_time st) :: calls)
  end.

(** [tag] and [time]: those of the previous simulator state [pw_].  The result
    is the new one, with the (tag, time) of each step; the steps are made when
    +whisper_exec is on. *)
Definition process_steps (tag time cycle : Z) (steps : nat) (skips : Z) (final_steps : nat) :
    (Z * Z) * list (Z * Z) :=
  let skips := if Z.testbit skips 63 then 0 else skips in
  let '(st, calls) := step_loop missing_step steps 0 (Steps_state tag time skips) in
  let st := Steps_state (u64 (ps_tag st + ps_skips st)) cycle (ps_skips st) in
  let '(st, calls') := step_loop final_step final_steps 0 st in
  ((ps_tag st, ps_time st), calls ++ calls').

(** ** Skipping ends *)

(** Orders from [t] on. *)
Definition later (t : Z) : nat := size (filter (λ x, t ≤ x) orders).

Lemma later_mono t t' : t ≤ t' → (later t' ≤ later t)%nat.
Proof. intros Ht. unfold later. apply subseteq_size. intros x. rewrite !elem_of_filter. intros [??]. split; [lia|done]. Qed.

Lemma later_step t : t ∈ orders → (S (later (t + 1)) ≤ later t)%nat.
Proof.
  intros Ht. unfold later.
  assert (t ∉ filter (λ x, t + 1 ≤ x) orders) by (rewrite elem_of_filter; lia).
  assert (size ({[ t ]} ∪ filter (λ x, t + 1 ≤ x) orders : gset Z) = S (size (filter (λ x, t + 1 ≤ x) orders))) as <-.
  { rewrite size_union by set_solver. by rewrite size_singleton. }
  apply subseteq_size. intros x.
  rewrite elem_of_union, elem_of_singleton, !elem_of_filter. intros [->|[??]]; split; (done || lia).
Qed.

Lemma skip_orders_spec fuel s :
  (later (ps_tag s) < fuel)%nat → 0 ≤ ps_tag s → ps_tag s + Z.of_nat (later (ps_tag s)) < 2 ^ 64 → 0 ≤ ps_skips s →
  let s' := skip_orders fuel orders s in
  ps_tag s' ∉ orders ∧ ps_tag s ≤ ps_tag s' ∧
  ps_tag s' + Z.of_nat (later (ps_tag s')) ≤ ps_tag s + Z.of_nat (later (ps_tag s)) ∧
  ps_time s' = ps_time s ∧ 0 ≤ ps_skips s' ≤ ps_skips s.
Proof.
  revert s. induction fuel as [|fuel IH]; intros s Hf H0 Hb Hs; [lia|]. cbn [skip_orders].
  destruct (decide (ps_tag s ∈ orders)) as [Hin|Hin]; [|cbv zeta; split_and!; (done || lia)].
  pose proof (later_step _ Hin) as Hl. set (s1 := Steps_state _ _ _).
  assert (ps_tag s1 = ps_tag s + 1) as E by (cbn; apply u64_small; unfold is_u64; lia).
  assert (0 ≤ ps_skips s1 ≤ ps_skips s) as Hs1 by (cbn; destruct (Z.ltb_spec 0 (ps_skips s)); lia).
  assert (ps_time s1 = ps_time s) as Et by done. clearbody s1.
  destruct (IH s1) as (A & B & C & D & F); [rewrite E; lia..|lia|].
  cbv zeta. rewrite E in *. split_and!; [done|lia|lia|congruence|lia|lia].
Qed.

(** ** Tags and times *)

Lemma fresh_cons (P : Z → Prop) tag t calls :
  tag < t → P t → StronglySorted Z.lt (t :: calls) → Forall P calls →
  StronglySorted Z.lt (tag :: t :: calls) ∧ Forall P (t :: calls).
Proof.
  intros Ht HP Hs HF. split; [|by constructor]. constructor; [done|]. constructor; [done|].
  apply StronglySorted_inv in Hs as [_ Hs]. eapply Forall_impl; [exact Hs|]. cbn. intros. lia.
Qed.

(** Whether the time advances at iteration [s]. *)
Lemma tick_div s : 0 < n_retire → s / n_retire - (s - 1) / n_retire = if s mod n_retire =? 0 then 1 else 0.
Proof.
  intros Hn. pose proof (Z.div_mod s n_retire). pose proof (Z.mod_pos_bound s n_retire Hn).
  destruct (Z.eqb_spec (s mod n_retire) 0) as [E|E].
  - assert ((s - 1) / n_retire = s / n_retire - 1) as ->; [|lia].
    symmetry. apply Z.div_unique with (n_retire - 1); lia.
  - assert ((s - 1) / n_retire = s / n_retire) as ->; [|lia].
    symmetry. apply Z.div_unique with (s mod n_retire - 1); lia.
Qed.

Section loop.
(** What both loops' bodies do: advance the tag by at least one, the time by
    the clock, and use no tag of [P]. *)
Variables (P : Z → Prop) (f : Z → steps_state → steps_state) (room : Z → nat).
Hypothesis Hn : 0 < n_retire.
Hypothesis f_spec : ∀ s st, 0 ≤ ps_tag st → ps_tag st + 1 + Z.of_nat (room (ps_tag st)) < 2 ^ 64 → 0 ≤ ps_skips st →
  0 ≤ ps_time st < 2 ^ 64 - 1 →
  P (ps_tag (f s st)) ∧ ps_tag st < ps_tag (f s st) ∧
  ps_tag (f s st) + Z.of_nat (room (ps_tag (f s st))) ≤ ps_tag st + 1 + Z.of_nat (room (ps_tag st)) ∧
  ps_time (f s st) = ps_time st + (if s mod n_retire =? 0 then 1 else 0) ∧ 0 ≤ ps_skips (f s st) ≤ ps_skips st.

Lemma step_loop_spec steps s st :
  0 ≤ ps_tag st → ps_tag st + Z.of_nat steps + Z.of_nat (room (ps_tag st)) < 2 ^ 64 → 0 ≤ ps_skips st →
  0 ≤ ps_time st → ps_time st + Z.of_nat steps < 2 ^ 64 →
  let '(st', calls) := step_loop f steps s st in
  length calls = steps ∧ StronglySorted Z.lt (ps_tag st :: calls.*1) ∧ Forall P calls.*1 ∧
  (∀ i c, calls !! i = Some c → c.2 = ps_time st + (s + Z.of_nat i) / n_retire - (s - 1) / n_retire) ∧
  ps_tag st ≤ ps_tag st' ∧ ps_tag st' + Z.of_nat (room (ps_tag st')) ≤ ps_tag st + Z.of_nat steps + Z.of_nat (room (ps_tag st)) ∧
  Forall (λ t, t ≤ ps_tag st') calls.*1 ∧ 0 ≤ ps_skips st' ≤ ps_skips st.
Proof.
  revert s st. induction steps as [|steps IH]; intros s st H0 Hb Hs Ht Htb; cbn [step_loop].
  { split_and!; try done; try lia. repeat constructor. }
  destruct (f_spec s st) as (A & B & C & D & E); [lia..|]. set (st1 := f s st) in *. clearbody st1.
  pose proof (tick_div s Hn) as Hd. specialize (IH (s + 1) st1). destruct (step_loop f steps (s + 1) st1) as [st' calls].
  destruct IH as (I1 & I2 & I3 & I4 & I5 & I6 & I7 & I8); [destruct (s mod n_retire =? 0); lia..|].
  destruct (fresh_cons P (ps_tag st) (ps_tag st1) calls.*1) as [S1 F1]; [done..|].
  split_and!; [cbn; lia|done|done| |lia|lia| |lia|lia].
  - intros [|i] c Hc; cbn in Hc; [injection Hc as <-; cbn; rewrite Z.add_0_r; lia|].
    rewrite (I4 i c Hc), D. replace (s + 1 - 1) with s by lia. replace (s + 1 + Z.of_nat i) with (s + Z.of_nat (S i)) by lia. lia.
  - cbn. by constructor.
Qed.
End loop.

Lemma missing_step_spec s st :
  FLAGS_mcm = true → 0 < n_retire → 0 ≤ ps_tag st → ps_tag st + 1 + Z.of_nat (later (ps_tag st + 1)) < 2 ^ 64 →
  0 ≤ ps_skips st → 0 ≤ ps_time st < 2 ^ 64 - 1 →
  ps_tag (missing_step s st) ∉ orders ∧ ps_tag st < ps_tag (missing_step s st) ∧
  ps_tag (missing_step s st) + Z.of_nat (later (ps_tag (missing_step s st) + 1)) ≤
    ps_tag st + 1 + Z.of_nat (later (ps_tag st + 1)) ∧
  ps_time (missing_step s st) = ps_time st + (if s mod n_retire =? 0 then 1 else 0) ∧
  0 ≤ ps_skips (missing_step s st) ≤ ps_skips st.
Proof.
  intros Hm Hn H0 Hb Hs Ht. unfold missing_step. rewrite Hm.
  set (st1 := Steps_state (u64 (ps_tag st + 1)) _ _).
  assert (ps_tag st1 = ps_tag st + 1) as E by (cbn; apply u64_small; unfold is_u64; lia).
  destruct (skip_orders_spec (S (size orders)) st1) as (A & B & C & D & F).
  { unfold later. apply Nat.lt_succ_r, subseteq_size. intros x. rewrite elem_of_filter. by intros []. }
  1-3: rewrite ?E; cbn; lia.
  set (st2 := skip_orders _ _ _) in *. clearbody st2. rewrite E in *. cbn in D, F. pose proof (later_mono (ps_tag st2) (ps_tag st2 + 1)).
  destruct (s mod n_retire =? 0); cbn; split_and!; try done; try lia. rewrite D. apply u64_small. unfold is_u64. lia.
Qed.

Lemma final_step_spec s st :
  0 ≤ ps_tag st → ps_tag st + 1 + Z.of_nat 0 < 2 ^ 64 → 0 ≤ ps_skips st → 0 ≤ ps_time st < 2 ^ 64 - 1 →
  True ∧ ps_tag st < ps_tag (final_step s st) ∧
  ps_tag (final_step s st) + Z.of_nat 0 ≤ ps_tag st + 1 + Z.of_nat 0 ∧
  ps_time (final_step s st) = ps_time st + (if s mod n_retire =? 0 then 1 else 0) ∧
  0 ≤ ps_skips (final_step s st) ≤ ps_skips st.
Proof.
  intros H0 Hb Hs Ht. unfold final_step. cbn [ps_tag ps_time ps_skips]. rewrite u64_small by (unfold is_u64; lia).
  split_and!; try done; try lia. destruct (_ =? 0); [apply u64_small; unfold is_u64; lia|lia].
Qed.

Lemma sorted_app tag a b t :
  StronglySorted Z.lt (tag :: a) → Forall (λ x, x ≤ t) a → tag ≤ t → StronglySorted Z.lt (t :: b) →
  StronglySorted Z.lt (tag :: a ++ b).
Proof.
  revert tag. induction a as [|x a IH]; intros tag Ha Ht Hle Hb; cbn [app].
  - apply StronglySorted_inv in Hb as [Hb HF]. constructor; [done|]. eapply Forall_impl; [exact HF|]. cbn. lia.
  - apply StronglySorted_inv in Ha as [Ha HF]. apply Forall_cons in HF as [Hx HF]. apply Forall_cons in Ht as [Hxt Ht].
    specialize (IH x Ha Ht Hxt Hb). constructor; [done|]. apply StronglySorted_inv in IH as [_ IH].
    constructor; [done|]. eapply Forall_impl; [exact IH|]. cbn. lia.
Qed.

(** Catching up steps the simulator exactly as often as the design retired
    instructions: the loop that skips reported tags ends (its fuel, one more
    than the number of reported tags, is never used up), the tags of all steps
    increase strictly from the last one used, no step that stands for an
    unreported instruction has the tag of a reported one, and the made-up time
    advances by one every [n_retire] steps, from the last time for the missing
    steps and from the current cycle for the final ones. *)
Theorem catch_up_steps tag time cycle steps skips final :
  FLAGS_mcm = true → 0 < n_retire → 0 ≤ tag → is_u64 skips →
  tag + Z.of_nat steps + Z.of_nat final + Z.of_nat (size orders) + skips < 2 ^ 64 →
  0 ≤ time → time + Z.of_nat steps < 2 ^ 64 → 0 ≤ cycle → cycle + Z.of_nat final < 2 ^ 64 →
  ∃ missing finals, (process_steps tag time cycle steps skips final).2 = missing ++ finals ∧
    length missing = steps ∧ length finals = final ∧
    StronglySorted Z.lt (tag :: (missing ++ finals).*1) ∧ Forall (λ t, t ∉ orders) missing.*1 ∧
    (∀ i c, missing !! i = Some c → c.2 = time + 1 + Z.of_nat i / n_retire) ∧
    (∀ i c, finals !! i = Some c → c.2 = cycle + 1 + Z.of_nat i / n_retire).
Proof.
  intros Hm Hn Ht Hsk Hb H1 H2 H3 H4. unfold process_steps. set (sk := if Z.testbit skips 63 then 0 else skips).
  assert (0 ≤ sk ≤ skips) as Hsk' by (subst sk; unfold is_u64 in Hsk; destruct (Z.testbit skips 63); lia). clearbody sk.
  assert (later (tag + 1) ≤ size orders)%nat as Hl.
  { unfold later. apply subseteq_size. intros x. rewrite elem_of_filter. by intros []. }
  assert ((-1) / n_retire = -1) as Hneg by (symmetry; apply Z.div_unique with (n_retire - 1); lia).
  pose proof (step_loop_spec (λ t, t ∉ orders) missing_step (λ t, later (t + 1)) Hn (λ s st, missing_step_spec s st Hm Hn)
    steps 0 (Steps_state tag time sk)) as L1. cbn [ps_tag ps_time ps_skips] in L1.
  destruct (step_loop missing_step steps 0 _) as [st calls]. destruct L1 as (A1 & A2 & A3 & A4 & A5 & A6 & A7 & A8); [lia..|].
  assert (u64 (ps_tag st + ps_skips st) = ps_tag st + ps_skips st) as Eu by (apply u64_small; unfold is_u64; lia).
  pose proof (step_loop_spec (λ _, True) final_step (λ _, 0%nat) Hn final_step_spec final 0
    (Steps_state (u64 (ps_tag st + ps_skips st)) cycle (ps_skips st))) as L2. cbn [ps_tag ps_time ps_skips] in L2.
  destruct (step_loop final_step final 0 _) as [st' calls']. rewrite Eu in L2. destruct L2 as (B1 & B2 & _ & B4 & _); [lia..|].
  exists calls, calls'. split_and!; [done..| |done| |].
  - rewrite fmap_app. apply (sorted_app _ _ _ (ps_tag st + ps_skips st)); [done| |lia|done].
    eapply Forall_impl; [exact A7|]. cbn. lia.
  - intros i c Hc. rewrite (A4 i c Hc), Z.add_0_l. change (0 - 1) with (-1). lia.
  - intros i c Hc. rewrite (B4 i c Hc), Z.add_0_l. change (0 - 1) with (-1). lia.
Qed.
End steps.

Lemma catch_up_steps_witness :
  ∃ missing finals, (process_steps true {[ 6; 7 ]} 2 4 100 150 3 1 2).2 = missing ++ finals ∧
    length missing = 3%nat ∧ length finals = 2%nat ∧ missing.*1 = [5; 8; 9] ∧ StronglySorted Z.lt (4 :: (missing ++ finals).*1).
Proof.
  destruct (catch_up_steps true {[ 6; 7 ]} 2 4 100 150 3 1 2) as (ms & fs & E & L1 & L2 & S & _);
    [done|done|done|done|by vm_compute|done|done|done|done|].
  exists ms, fs. split_and!; [exact E|exact L1|exact L2| |exact S].
  assert (take 3 (ms ++ fs) = ms) as <- by (rewrite <- L1; apply take_app_length). rewrite <- E. by vm_compute.
Defined.
