(* ===== verification/Compose.v ===== *)
(** * Compose: building the device table (sysmod::compose, src/sysmod/sysmod.cpp)

    [sys_device] is the sum of the devices [compose] constructs: those modelled
    in this library and, as the parameter [X], the others (UART, MMR router,
    trickbox, APLIC domain).  Its [Device] instance dispatches each virtual
    method, so the theorems of Sysmod.v apply to the composed system.

    [compose] is run on a memory map; an exception inside its [try] block is
    caught and leaves the devices built so far. *)

From Stdlib Require Import Ascii.
From S2P Require Import Prelude Bytes Cstd Device Memmap Mem Clint Aclint Htif SmallDevices Sysmod.

#[local] Open Scope string_scope.
#[local] Open Scope list_scope.
#[local] Open Scope Z_scope.

(** The random source of the entropy FIFO. *)
Class Entropy := entropy : nat → Z.

#[export] Instance sep_device M `{Entropy} : Device M sep_entropy_fifo := {
  dev_id := se_id;
  dev_write w '(d, m) := let '(d', e) := sep_write w d in ((d', m), e);
  dev_read r data '(d, m) := let '(d', e, data') := sep_read entropy r data d in ((d', m), e, data');
  dev_tick _ dm := (dm, []);
  dev_backdoor_write _ _ _ _ dm := dm;
  dev_backdoor_read _ _ bs dm := (dm, bs)
}.

Lemma fill_fifo_id rng s : se_id (fill_fifo rng s) = se_id s.
Proof.
  unfold fill_fifo. generalize (se_limit s - length (se_fifo s))%nat as n. intros n. revert s.
  induction n as [|n IH]; intros s; simpl; [done|]. by rewrite IH.
Qed.

#[export] Instance sep_laws M `{Entropy} : DeviceLaws M sep_entropy_fifo.
Proof.
  split; intros; simpl; try done.
  unfold sep_read. by repeat case_match; simplify_eq/=; rewrite ?fill_fifo_id.
Qed.

Inductive sys_device {N X : Type} :=
| DMem (d : sysmod_mem)
| DSep (d : sep_entropy_fifo)
| DIo (d : io_dev N)
| DNull (d : null_dev)
| DHtif (d : htif)
| DClint (d : clint)
| DAclint (d : aclint)
| DHeartbeat (d : heartbeat)
| DOther (x : X).
Arguments sys_device : clear implicits.

Section device.
Context {M N X : Type} `{MemManager M, MemManager N, Entropy} `{Device M X}.
Notation D := (sys_device N X).

(** Run a handler on the device inside the sum. *)
Definition on_inner {A} (f : ∀ T, Device M T → T * M → (T * M) * A) (dm : D * M) : (D * M) * A :=
  let lift {T} (c : T → D) (r : (T * M) * A) : (D * M) * A := ((c r.1.1, r.1.2), r.2) in
  match dm.1 with
  | DMem d => lift DMem (f sysmod_mem _ (d, dm.2))
  | DSep d => lift DSep (f sep_entropy_fifo _ (d, dm.2))
  | DIo d => lift DIo (f (io_dev N) _ (d, dm.2))
  | DNull d => lift DNull (f null_dev _ (d, dm.2))
  | DHtif d => lift DHtif (f htif _ (d, dm.2))
  | DClint d => lift DClint (f clint _ (d, dm.2))
  | DAclint d => lift DAclint (f aclint _ (d, dm.2))
  | DHeartbeat d => lift DHeartbeat (f heartbeat _ (d, dm.2))
  | DOther d => lift DOther (f X _ (d, dm.2))
  end.

#[export] Instance sys_device_device : Device M D := {
  dev_id d := match d with
    | DMem d => dev_id (M := M) d | DSep d => dev_id (M := M) d | DIo d => dev_id (M := M) d
    | DNull d => dev_id (M := M) d | DHtif d => dev_id (M := M) d | DClint d => dev_id (M := M) d
    | DAclint d => dev_id (M := M) d | DHeartbeat d => dev_id (M := M) d
    | DOther d => dev_id (M := M) d end;
  dev_write w := on_inner (λ T _, dev_write w);
  dev_read r data dm :=
    let res := on_inner (λ T _ x, let y := dev_read r data x in (y.1.1, (y.1.2, y.2))) dm in
    (res.1, res.2.1, res.2.2);
  dev_tick n := on_inner (λ T _, dev_tick n);
  dev_backdoor_write a n bs ss dm := (on_inner (λ T _ x, (dev_backdoor_write a n bs ss x, tt)) dm).1;
  dev_backdoor_read a n bs := on_inner (λ T _, dev_backdoor_read a n bs)
}.

#[export] Instance sys_device_laws `{!DeviceLaws M X} : DeviceLaws M D.
Proof.
  split.
  - intros w [d|d|d|d|d|d|d|d|d] m; exact (dev_write_id w d m).
  - intros r buf [d|d|d|d|d|d|d|d|d] m; exact (dev_read_id r buf d m).
  - intros n [d|d|d|d|d|d|d|d|d] m; exact (dev_tick_id n d m).
  - intros a n bs ss [d|d|d|d|d|d|d|d|d] m; exact (dev_backdoor_write_id a n bs ss d m).
  - intros a n bs [d|d|d|d|d|d|d|d|d] m; exact (dev_backdoor_read_id a n bs d m).
Qed.
End device.

(** ** compose *)

Record domain_params := Domain_params {
  dp_tag : string;
  dp_parent : option string;
  dp_child_index : Z;
  dp_base : Z;
  dp_size : Z;
  dp_machine : bool
}.

(** What a pass of the construction loop yields: a device, none (a reserved
    range), an unknown type, a [return] out of [compose], an exception. *)
Inductive made {D : Type} := Made (d : D) | MadeNone | MadeUnknown | MadeReturn | MadeThrow.
Arguments made : clear implicits.

(** How the construction loop ends. *)
Inductive loop_end := LDone | LReturn | LThrow.

(** The inputs of the constructors: flags, snapshot files, topology, and the
    constructors of the devices that are not modelled. *)
Record compose_cfg {J M N X : Type} := Compose_cfg {
  cc_nharts : nat;
  cc_mem_init : M;                                     (* a new mem_manager *)
  cc_io_init : N;
  cc_clint_div : Z;
  cc_clint_snap : option (list string);
  cc_aclint_flags : aclint_flags;
  cc_aclint_ctime_addr : Z;
  cc_aclint_sv : aclint_sv;
  cc_aclint_snap : option (list string);
  cc_htif_flags : htif_flags;
  cc_hart_enable_id : string;
  cc_htif_in : list (Z * Z);
  cc_entropy_size : nat;
  cc_heartbeat_period : Z;
  cc_is_null : J → bool;                               (* attributes.is_null() *)
  cc_domain : J → option (option string * Z * bool);   (* parent, child_index, is_machine *)
  cc_other : option (list domain_params) → memmap_entry J → made X
}.
Arguments compose_cfg : clear implicits.

Section compose.
Context {J M N X : Type} `{MemManager M, MemManager N, Entropy} `{Device M X}.
Variable cfg : compose_cfg J M N X.
Notation D := (sys_device N X).

(** The loop of [create_aplic]; [None] is an exception. *)
Fixpoint aplic_domains (m : list (string * memmap_entry J)) : option (list domain_params) :=
  match m with
  | [] => Some []
  | (_, e) :: m' =>
      if negb (String.eqb (me_type e) "aplic_domain") then aplic_domains m'
      else if cc_is_null cfg (me_attributes e) then None
      else
        '(parent, child_index, is_machine) ← cc_domain cfg (me_attributes e);
        ds ← aplic_domains m';
        Some (Domain_params (me_tag e) parent child_index (me_base e) (me_size e) is_machine :: ds)
  end.
Definition create_aplic (m : list (string * memmap_entry J)) : option (option (list domain_params)) :=
  ds ← aplic_domains m;
  Some (match ds with [] => None | _ => Some ds end).

(** The message an APLIC interrupt sends to the AXI manager. *)
Definition msi_callback (addr data : Z) : event :=
  EvWriteRequest (mk_write_request addr 4 (le_bytes 4 data) (replicate 4 true) false).

Definition made_of {T} (c : T → D) (o : option T) : made D :=
  match o with Some d => Made (c d) | None => MadeThrow end.

(** The body of the construction loop for one entry. *)
Definition construct (aplic : option (list domain_params)) (e : memmap_entry J) : made D :=
  let base := me_base e in
  let size := me_size e in
  let type := me_type e in
  let tag := me_tag e in
  if String.eqb type "memory" then Made (DMem (Sysmod_mem (Device_id tag base size)))
  else if String.eqb type "sep" then
    Made (DSep (sep_entropy_fifo_new entropy tag base (cc_entropy_size cfg)))
  else if String.eqb type "io_dev" then Made (DIo (Io_dev (Device_id tag base size) (cc_io_init cfg)))
  else if String.eqb type "null_dev" then Made (DNull (Null_dev (Device_id tag base size)))
  else if String.eqb type "htif" then
    made_of DHtif (htif_new tag base (cc_htif_flags cfg) (cc_hart_enable_id cfg) (cc_htif_in cfg))
  else if String.eqb type "dm" then MadeNone
  else if String.eqb type "clint" then
    made_of DClint (clint_new tag base (cc_nharts cfg) (cc_clint_div cfg) (cc_clint_snap cfg))
  else if String.eqb type "aclint" then
    Made (DAclint (aclint_new tag base size (cc_aclint_flags cfg) (cc_nharts cfg)
                     (cc_aclint_ctime_addr cfg) (cc_aclint_sv cfg) (cc_aclint_snap cfg)))
  else if String.eqb type "external" then MadeNone
  else if bool_decide (type ∈ ["uart8250"; "mmr_txn_router"; "trickbox"; "aplic_domain"]) then
    match cc_other cfg aplic e with
    | Made x => Made (DOther x)
    | MadeNone => MadeNone
    | MadeUnknown => MadeUnknown
    | MadeReturn => MadeReturn
    | MadeThrow => MadeThrow
    end
  else MadeUnknown.

Fixpoint compose_loop (aplic : option (list domain_params)) (m : list (string * memmap_entry J))
    : list D * loop_end * list sys_event :=
  match m with
  | [] => ([], LDone, [])
  | (_, e) :: m' =>
      match construct aplic e with
      | Made d => let '(ds, r, evs) := compose_loop aplic m' in (d :: ds, r, evs)
      | MadeNone => compose_loop aplic m'
      | MadeUnknown => let '(ds, r, evs) := compose_loop aplic m' in (ds, r, SyError :: evs)
      | MadeReturn => ([], LReturn, [SyError])
      | MadeThrow => ([], LThrow, [])
      end
  end.

Definition heartbeat_dev : D :=
  DHeartbeat (Heartbeat (Device_id "heartbeat" 0 0) 0 (cc_heartbeat_period cfg)).
Definition fallback_dev : D := DNull (Null_dev (Device_id "fallback_null_dev" 0 0)).

(** [compose]; [mm] is the outcome of [memmap::get] and the map it leaves.  The
    uninitialised-read callbacks are Sysmod.configure_uninit_read_callbacks. *)
Definition compose (mm : parse_outcome * list (string * memmap_entry J)) (s : sysmod J M D)
    : sysmod J M D * list sys_event :=
  let '(o, map) := mm in
  let s := s <| sy_devices := [] |> <| sy_memmap := map |> in
  match o with
  | MmReturn true =>
      let s := s <| sy_mem := cc_mem_init cfg |> in
      match create_aplic map with
      | None => (s, [])
      | Some aplic =>
          match compose_loop aplic map with
          | (ds, LDone, evs) =>
              (s <| sy_devices := ds ++ [heartbeat_dev] |> <| sy_fallback := Some fallback_dev |>, evs)
          | (ds, _, evs) => (s <| sy_devices := ds |>, evs)
          end
      end
  | _ => (s, [])
  end.
End compose.

(** ** The composed device table is well formed *)

Lemma map_set_Forall {V} (P : string * V → Prop) k v m :
  P (k, v) → Forall P m → Forall P (map_set k v m).
Proof.
  intros Hk HF. induction HF as [|[k' v'] m Hk' HF IH]; simpl; [by repeat constructor|].
  destruct (String.compare k k'); repeat constructor; auto.
Qed.

Lemma keys_sorted_NoDup {V} (m : list (string * V)) : keys_sorted m → NoDup m.*1.
Proof.
  induction m as [|[k v] m IH]; simpl; [constructor|]. intros [HF Hs]. constructor; [|by apply IH].
  intros ([k' v'] & -> & Hin)%list_elem_of_fmap. rewrite Forall_forall in HF.
  by apply HF, str_lt_irrefl in Hin.
Qed.

Definition entry_u64 {J} (kv : string * memmap_entry J) : Prop :=
  is_u64 (me_base kv.2) ∧ is_u64 (me_size kv.2).

Lemma add_elements_u64 {J} (json_null : J) els m :
  Forall entry_u64 m → Forall entry_u64 (add_elements json_null els m).1.
Proof.
  revert m; induction els as [|el els IH]; intros m HF; simpl; [done|].
  destruct (stoull 16 (el_base el)) as [b|] eqn:Eb; [|done].
  destruct (stoull 16 (el_size el)) as [z|] eqn:Ez; [|done].
  apply IH, map_set_Forall; [|done]. split; [exact (stoull_u64 16 _ _ ltac:(lia) Eb)|exact (stoull_u64 16 _ _ ltac:(lia) Ez)].
Qed.

(** What the parser guarantees of the map [compose] reads. *)
Lemma parse_map {J} (json_null : J) els st :
  parse json_null (Some els) memmap_init = (MmReturn true, st) →
  NoDup (mm_map st).*1 ∧ Forall entry_wf (mm_map st) ∧ Forall entry_u64 (mm_map st) ∧
  (∀ x y, x ∈ mm_map st → y ∈ mm_map st → overlaps x.2 y.2 = true → x = y).
Proof.
  intros Hp. destruct (parse_ok_inv _ _ _ Hp) as (Hs & Hw & Ho).
  split; [by apply keys_sorted_NoDup|]. split; [done|]. split.
  - unfold parse in Hp. simpl in Hp.
    pose proof (add_elements_u64 json_null els [] (Forall_nil_2 _)) as HF.
    destruct (add_elements json_null els []) as [m [|]]; simpl in *; [|done].
    destruct (overlapDetected _); [done|]. by injection Hp as <-.
  - intros x y Hx Hy Hov. rewrite <- (sort_by_base_perm (mm_map st)) in Hx, Hy.
    apply list_elem_of_lookup in Hx as [i Hi]. apply list_elem_of_lookup in Hy as [j Hj].
    destruct (decide (i = j)) as [->|Hne]; [congruence|].
    by rewrite (overlapDetected_false _ Ho i j x y Hne Hi Hj) in Hov.
Qed.

Section compose_lemmas.
Context {J M N X : Type} `{MemManager M, MemManager N, Entropy} `{Device M X}.
Variable cfg : compose_cfg J M N X.
Notation D := (sys_device N X).

(** The device carries the tag and base of its entry and its window stays
    inside the entry's. *)
Definition within (i : device_id) (e : memmap_entry J) : Prop :=
  dtag i = me_tag e ∧ dbase i = me_base e ∧
  u64 (dbase i + dsize i) ≤ u64 (me_base e + me_size e) ∧ id_ok i.

(** Devices whose window has a size of its own must fit their entry. *)
Definition fixed_size (type : string) : option Z :=
  if String.eqb type "htif" then Some 16
  else if String.eqb type "clint" then Some 0xc000
  else if String.eqb type "sep" then Some 0xc000
  else None.
Definition entry_room (e : memmap_entry J) : Prop :=
  match fixed_size (me_type e) with
  | Some n => u64 (me_base e + n) ≤ u64 (me_base e + me_size e)
  | None => True
  end.
Definition other_ok : Prop :=
  ∀ aplic e x, cc_other cfg aplic e = Made x → within (dev_id (M := M) x) e.

Lemma clint_new_id tag base n div snap c :
  clint_new tag base n div snap = Some c → cl_id c = Device_id tag base 0xc000.
Proof.
  unfold clint_new. destruct snap as [lines|]; [|by intros [= <-]].
  assert (∀ c0, clint_load c0 lines = Some c → cl_id c = cl_id c0) as Hl; [|apply Hl].
  induction lines as [|l ls IH]; intros c0; simpl; [by intros [= <-]|].
  destruct (clint_load_line c0 l) as [c1|] eqn:E; simpl; [|done]. intros Hc. rewrite (IH c1 Hc).
  unfold clint_load_line in E. by repeat case_match; simplify_eq/=.
Qed.

Lemma aclint_new_id tag base size fl n ct sv snap :
  ac_id (aclint_new tag base size fl n ct sv snap) = Device_id tag base size.
Proof.
  unfold aclint_new. generalize (default [] snap) as lines. intros lines.
  assert (∀ a, ac_id (foldl aclint_load_line a lines) = ac_id a) as ->; [|done].
  induction lines as [|l ls IH]; intros a; simpl; [done|]. rewrite IH.
  unfold aclint_load_line. by repeat case_match.
Qed.

Lemma htif_new_id tag base fl en inp h :
  htif_new tag base fl en inp = Some h → ht_id h = Device_id tag base 16.
Proof.
  unfold htif_new. destruct (fl_payload_has_hart_id fl); [|by intros [= <-]].
  destruct (mapM _ _); simpl; [|done]. by intros [= <-].
Qed.

Lemma sep_new_id rng tag base limit :
  se_id (sep_entropy_fifo_new rng tag base limit) = Device_id tag base 0xc000.
Proof. unfold sep_entropy_fifo_new. by rewrite fill_fifo_id. Qed.

Lemma within_entry (e : memmap_entry J) n :
  is_u64 (me_base e) → is_u64 n → u64 (me_base e + n) ≤ u64 (me_base e + me_size e) →
  within (Device_id (me_tag e) (me_base e) n) e.
Proof. done. Qed.

Lemma construct_within aplic e d :
  is_u64 (me_base e) → is_u64 (me_size e) → entry_room e → other_ok →
  construct cfg aplic e = Made d → within (dev_id (M := M) d) e.
Proof.
  intros Hb Hs Hr Ho. unfold construct, entry_room, fixed_size, made_of in *.
  repeat match goal with
  | |- context [String.eqb (me_type e) ?s] =>
      destruct (String.eqb_spec (me_type e) s) as [Et|_]; [rewrite ?Et in Hr; simpl in Hr|]
  end; try (intros [= <-]; cbn [dev_id sys_device_device sysmod_mem_device io_dev_device
      null_dev_device aclint_device sep_device sm_id io_id nd_id];
      rewrite ?aclint_new_id, ?sep_new_id; by apply within_entry).
  - destruct (htif_new _ _ _ _ _) as [h|] eqn:E; [|done]. intros [= <-].
    simpl. rewrite (htif_new_id _ _ _ _ _ _ E). by apply within_entry.
  - destruct (clint_new _ _ _ _ _) as [c|] eqn:E; [|done]. intros [= <-].
    simpl. rewrite (clint_new_id _ _ _ _ _ _ E). by apply within_entry.
  - case_bool_decide; [|done]. destruct (cc_other cfg aplic e) as [x| | | |] eqn:E; try done.
    intros [= <-]. by apply (Ho aplic).
Qed.

(** What the loop leaves for the entries it has seen. *)
Definition loop_spec aplic (m : list (string * memmap_entry J)) (ds : list D) : Prop :=
  NoDup (tags (M := M) ds) ∧ (∀ t, t ∈ tags (M := M) ds → t ∈ m.*1) ∧
  (∀ d, d ∈ ds → ∃ kv, kv ∈ m ∧ within (dev_id (M := M) d) kv.2) ∧
  (∀ kv d, kv ∈ m → construct cfg aplic kv.2 = Made d → d ∈ ds).

Lemma skip_entry aplic k e m ds :
  (∀ d, construct cfg aplic e ≠ Made d) → loop_spec aplic m ds → loop_spec aplic ((k, e) :: m) ds.
Proof.
  intros Hne (K1 & K2 & K3 & K4). split_and!; [done| | |].
  - intros t Ht. constructor. by apply K2.
  - intros x Hx. destruct (K3 x Hx) as (kv & ? & ?). exists kv. split; [by constructor|done].
  - intros kv x [->|Hin]%elem_of_cons; [intros Hx; by destruct (Hne x)|]. by apply K4.
Qed.

Lemma compose_loop_spec aplic m ds evs :
  NoDup m.*1 → Forall entry_wf m → Forall entry_u64 m → Forall (λ kv, entry_room kv.2) m → other_ok →
  compose_loop cfg aplic m = (ds, LDone, evs) → loop_spec aplic m ds.
Proof.
  intros Hn Hw Hu Hr Ho. revert ds evs.
  induction m as [|[k e] m IH]; intros ds evs; simpl.
  { intros [= <- <-]. split_and!; [constructor|done|by intros d ?%elem_of_nil|by intros kv d ?%elem_of_nil]. }
  simpl in Hn. apply NoDup_cons in Hn as [Hk Hn]. inversion Hw as [|? ? [Et _] Hw']. subst.
  inversion Hu as [|? ? [Hb Hs] Hu']. subst. inversion Hr as [|? ? Hroom Hr']. subst. simpl in *.
  subst k.
  destruct (construct cfg aplic e) as [d| | | |] eqn:Ec; try done.
  - destruct (compose_loop cfg aplic m) as [[ds' r] e'] eqn:El. intros [= <- -> <-].
    destruct (IH Hn Hw' Hu' Hr' ds' e' eq_refl) as (K1 & K2 & K3 & K4).
    pose proof (construct_within aplic e d Hb Hs Hroom Ho Ec) as Hd.
    assert (dtag (dev_id (M := M) d) = me_tag e) as Hdk by (by destruct Hd as [-> _]).
    unfold loop_spec. change (tags (d :: ds')) with (dtag (dev_id (M := M) d) :: tags (M := M) ds'). rewrite Hdk.
    split_and!.
    + constructor; [|done]. intros Hin. by apply Hk, K2.
    + intros t [->|Hin]%elem_of_cons; [by constructor|]. constructor. by apply K2.
    + intros x [->|Hin]%elem_of_cons; [exists (me_tag e, e); split; [by constructor|done]|].
      destruct (K3 x Hin) as (kv & ? & ?). exists kv. split; [by constructor|done].
    + intros kv x [->|Hin]%elem_of_cons; simpl; [rewrite Ec; intros [= <-]; by constructor|].
      intros Hx. constructor. by apply (K4 kv).
  - intros El. apply (skip_entry aplic (me_tag e) e m ds); [by rewrite Ec|]. by apply (IH Hn Hw' Hu' Hr' ds evs).
  - destruct (compose_loop cfg aplic m) as [[ds' r] e'] eqn:El. intros [= <- -> <-].
    apply (skip_entry aplic (me_tag e) e m ds'); [by rewrite Ec|]. by apply (IH Hn Hw' Hu' Hr' ds' e').
Qed.

(** A device table built over disjoint entries, with windowless devices after
    it. *)
Lemma table_inv (m : list (string * memmap_entry J)) ds (s : sysmod J M D) hb f :
  (∀ x y, x ∈ m → y ∈ m → overlaps x.2 y.2 = true → x = y) → Forall entry_wf m →
  NoDup (tags (M := M) ds) → (∀ d, d ∈ ds → ∃ kv, kv ∈ m ∧ within (dev_id (M := M) d) kv.2) →
  dtag (dev_id (M := M) hb) ∉ tags (M := M) ds → id_ok (dev_id (M := M) hb) → dsize (dev_id (M := M) hb) = 0 →
  id_ok (dev_id (M := M) f) → dsize (dev_id (M := M) f) = 0 →
  sy_devices s = ds ++ [hb] → sy_external s = [] → sy_fallback s = Some f →
  sys_inv s.
Proof.
  intros Hdis Hwf Hn Hin Hhb Hhi Hhs Hfi Hfs Hd He Hf.
  assert (sy_all s = ds ++ [hb]) as Ha by (unfold sy_all; by rewrite Hd, He, app_nil_r).
  assert (NoDup (tags (M := M) (sy_all s))) as Hnd.
  { rewrite Ha. unfold tags. rewrite fmap_app. apply NoDup_app. split; [done|]. split; [|apply NoDup_singleton].
    intros t Ht ->%list_elem_of_singleton. by apply Hhb. }
  assert (∀ (i : nat) d v, sy_all s !! i = Some d → has_addr (dev_id (M := M) d) v = true → d ∈ ds) as Hds.
  { intros i d v Hi Hv. rewrite Ha in Hi. apply list_elem_of_lookup_2 in Hi.
    apply elem_of_app in Hi as [Hi| ->%list_elem_of_singleton]; [done|].
    by rewrite (empty_window _ _ Hhi Hhs) in Hv. }
  split; [|done| |].
  - intros v i j d e Hi Hj Hvd Hve.
    destruct (Hin d (Hds i d v Hi Hvd)) as (x & Hx & Htx & Hbx & Hex & _).
    destruct (Hin e (Hds j e v Hj Hve)) as (y & Hy & Hty & Hby & Hey & _).
    assert (x = y) as ->.
    { apply (Hdis x y Hx Hy). apply has_addr_true in Hvd, Hve. unfold overlaps.
      apply andb_true_iff. split; apply Z.ltb_lt; lia. }
    apply (NoDup_lookup _ i j (me_tag y.2) Hnd); unfold tags; rewrite list_lookup_fmap;
      [by rewrite Hi, <- Htx|by rewrite Hj, <- Hty].
  - rewrite Ha. apply Forall_app_2; [|by constructor]. apply Forall_forall. intros d Hdd.
    by destruct (Hin d Hdd) as (x & _ & _ & _ & _ & ?).
  - intros g v Hg. rewrite Hf in Hg. simplify_eq. by apply empty_window.
Qed.
End compose_lemmas.


#[local] Instance sample_entropy : Entropy := λ n, Z.of_nat n.

Definition sample_cfg : compose_cfg unit (gmap Z Z) (gmap Z Z) null_dev :=
  Compose_cfg _ _ _ _ 2 ∅ ∅ 1 None sample_flags 0x42 aclint_sv_init None
    (Htif_flags false false false "tohost" 2) EmptyString [] 4 5000 (λ _, true) (λ _, None)
    (λ _ _, MadeNone).

Definition sample_map_els (clint_size : string) : list (json_el unit) :=
  [Json_el unit "80000000" "1000" "memory" "memory" None;
   Json_el unit "2000000" clint_size "clint" "clint" None;
   Json_el unit "2004000" "100" "memory" "boot" None;
   Json_el unit "3000000" "10" "htif" "htif" None].

Definition sample_empty : sysmod unit (gmap Z Z) (sys_device (gmap Z Z) null_dev) :=
  Sysmod [] [] None [] 0 0 0 true false 0 0 false ∅.

Definition sample_good_els : list (json_el unit) :=
  [Json_el unit "80000000" "1000" "memory" "memory" None;
   Json_el unit "2000000" "c000" "clint" "clint" None;
   Json_el unit "3000000" "10" "htif" "htif" None;
   Json_el unit "4000000" "100" "external" "ext" None].


(** Without room for the fixed window the table is ambiguous: on a map the
    parser accepts, whose CLINT entry has size 0x1000, an address of the boot
    memory 16 KiB above is decoded by both devices. *)
Lemma compose_fixed_window_overlap :
  let '(o, st) := parse tt (Some (sample_map_els "1000")) memmap_init in
  let s := (compose sample_cfg (MmReturn true, mm_map st) sample_empty).1 in
  o = MmReturn true ∧
  length (filter (λ d, has_addr (dev_id (M := gmap Z Z) d) 0x2004000 = true) (sy_all s)) = 2%nat.
Proof. vm_compute. done. Qed.
